(* ===== verification/_CoqProject ===== *)
-Q . S2P
Prelude.v
Dll.v
Errors.v
Limits.v
ExpiryHeap.v
Admission.v
FairnessGroups.v
AdmissionInv.v
AdmissionSpec.v
AdmissionProps.v
Base64.v
Value.v
Wire.v
StableEncode.v
Protocol.v
ProtocolProps.v
ProtocolSound.v
ProtocolComplete.v
Publication.v
PublicationInv.v
PublicationProps.v
History.v
HistoryProps.v
Dependencies.v
DependenciesProps.v
DependenciesSound.v
DependencyIndex.v
SqlText.v
Predicate.v
PredicateProps.v
Constraints.v
Float32.v
Validators.v
ValidatorsProps.v
ValidatorsTyped.v
ValidatorsMain.v
Descriptors.v
DescriptorsProps.v
SchemaDiff.v
SchemaClassify.v
SchemaSafety.v
SchemaProps.v
PublicationContract.v
Effects.v
Database.v
MutationReplay.v
MutationReplayInv.v
Coordinator.v
CoordinatorInv.v
CoordinatorTurns.v
CoordinatorProps.v
Observations.v
Reactive.v
ReactiveSteps.v
ReactiveInv.v
ReactiveKeep.v
ReactiveEvents.v
ReactiveSend.v
ReactiveEvaluate.v
ReactiveRelease.v
ReactiveSubscribe.v
ReactivePublish.v
ReactiveProps.v
Uuid.v
Retry.v
Client.v
ClientProps.v
ClientTruth.v
ClientAccount.v
ClientSession.v
ClientProtocol.v
Cron.v
CronProps.v
Executor.v
ExecutorProps.v
Jobs.v
JobsSpec.v
JobsProps.v
JobSteps.v
JobsMain.v
