(* ===== verification/Prelude.v ===== *)
(** AckerDB: a verification of the database server's core and of its client.

    AckerDB is a database whose queries, mutations and procedures are functions
    of the application, run next to SQLite. A client holds subscriptions to
    queries over a socket; a mutation is admitted, deduplicated, run in one
    SQLite transaction by the only writer, published in commit order, and every
    subscription whose query read a written key is evaluated again and told. This
    library models the parts that make this correct, each from its source file
    under [src/packages], and proves what they promise, up to two statements
    that cross all of them: a mutation whose request is not dated ahead of the
    server's clock has at most one effect
    ([CoordinatorProps.mutation_at_most_once]), and a client never shows what
    its query did not ([ClientTruth.client_never_wrong]).

    * Ground

    - [Prelude]: the error monad [exc] of code that throws, doubles ([num]: the
      special values, or a rational), maps as association lists in insertion
      order ([jmap_*]: JavaScript's [Map] and objects), automation.
    - [Dll]: intrusive doubly linked lists, field by field.
    - [Effects]: state with exceptions, what changed before a throw staying
      changed; weakest preconditions, and [keeps R m]: whatever [m] does, [R]
      relates the states before and after.
    - [Errors] ([shared/errors.ts], [shared/numbers.ts], [reactive/outcome.ts]),
      [Limits] ([runtime/limits.ts]).

    * The wire ([core/src])

    [Base64], [Value], [Wire], [StableEncode] model [wire.ts]: values, their
    JSON form, their canonical encoding. Theorems: decoding inverts encoding
    ([wire_roundtrip], [base64_iff]); two values share a canonical encoding
    exactly when they differ at most in the order of properties and in the sign of
    zero ([stableEncode_iff]).
    [Protocol] models [protocol.ts] and [protocol-validation.ts];
    [ProtocolProps], [ProtocolSound], [ProtocolComplete] prove that each decoder
    accepts exactly the well-formed messages of the typed contract.

    * Validation and schema ([server/src/validation], [server/src/schema])

    [Constraints], [Float32], [Validators] model the [v] validators and
    [Descriptors] the checks of stored descriptors. Theorems: a validator returns
    inhabitants of its type and its type is what it returns unchanged
    ([validators_typed]); a descriptor checks as its validator does, unless a
    shape declares the name of an inherited property ([descriptor_agrees]). [SchemaDiff], [SchemaClassify] model [diff.ts] and
    [classify.ts]; [SchemaSafety], [SchemaProps]: a change that is not refused
    keeps every stored row valid.

    * Queries ([server/src/database])

    [Predicate] models [query/predicate.ts] and [SqlText] the fragment of SQL it
    writes: the compiled text means the predicate ([compile_reads_back]).
    [Dependencies] models [keys.ts] and [query/dependencies.ts]: a row that
    satisfies a query's predicates is not written without a key the query
    recorded ([write_touches_reads]). [DependencyIndex] models the reverse index
    of [reactive/dependencies.ts].

    * Writing ([server/src/runtime], [server/src/database])

    [ExpiryHeap], [Admission] model [runtime/admission.ts]; [AdmissionSpec] is
    the queue it promises to be and the refinement, [AdmissionProps] what follows
    for every run. [Publication] models [subscriptions/publication.ts], with
    every continuation of the event loop a step of its own; [PublicationContract]
    is what the writer relies on. [Database] models the statements of
    [engine.ts] the writer issues, any of which SQLite may refuse;
    [MutationReplay] the ledger of [mutation-replay.ts]; [Coordinator] the commit
    of [coordinator.ts], over the three. Theorems, over histories of commits,
    other tasks, crashes and restarts: at most one effect, all or nothing, exact
    recovery. [Executor] models [runtime/executor.ts] over the queue, its
    continuations steps of their own; [ExecutorProps]: each task is in one place,
    places are not left free, a closed executor drains.

    * Schedules ([server/src/jobs])

    [Cron] models [cron.ts], down to the language's reading of a number in a
    text. [CronProps]: an expression is read exactly when it is in the documented
    syntax ([cron_expression_reads]), and [cronNext] gives the first match where
    the zone's clock skips no minute ([cronNext_first]); three lemmas show where
    the code does less than its comments say ([midnight_missed],
    [open_ranges_accepted], [century_missed]).
    [Jobs] models the tables of durable jobs and every transaction of the runner
    on them ([runtime/jobs/runtime.ts], [store.ts], the guarded patch of
    [access.ts]), [JobSteps] the journal of [steps.ts]. [JobsSpec] is the state
    machine of jobs and runs with its invariant, and [JobsProps] shows each
    transaction to be steps of it. [JobsMain] has the histories: transactions of
    the application, administrators, handlers and the runner in any order,
    committed or not, with restarts. Theorems: the tables stay well formed and what
    is settled stays as it is until an administrator reopens it
    ([jobs_invariant]); a handler whose run moved on changes nothing
    ([handlers_fenced]); mutation-kind jobs take effect exactly once per completed
    run; the claim takes the first eligible job through all its pages
    ([claim_takes_first]); concurrency is respected; retention keeps what
    deduplication would answer with; a recorded step is replayed.

    * Subscriptions ([server/src/subscriptions/reactive])

    [History] models the resume window. [Reactive], [ReactiveSteps] model the
    shared queries of [ordered.ts], [entry.ts]: each stretch of code between two
    awaits is a step, and steps of different calls interleave freely.
    [Observations] is the oracle of what queries show. [ReactiveInv] to
    [ReactivePublish] prove the invariant step by step; [ReactiveProps]: no entry
    is stale once the commits are processed, and all that is sent is true.

    * The client ([client/src])

    [Uuid] models the identities of mutations, [Retry] the retry policy and the
    retries of subscriptions, [Client] the session, the subscriptions and the
    requests of [client.ts], the channels of [channels/channel.ts], which share
    its ids, its socket and its account, and what a server-sent stream reserves:
    one event per call of the application, frame of the server, event of a
    socket, timer. The client refuses a reading of its clock that is no time, in
    the middle of what it does. [ClientProps], [ClientTruth]: what a
    subscription was last given is what its query shows at its cursor, for a
    client of the modelled server. [ClientAccount]: the account of what
    subscriptions, requests, channels and streams retain is exact.
    [ClientSession], [ClientProtocol]: the traffic of the sockets is accepted by
    the session protocol, stated as an automaton.

    * What is a parameter, and why

    The platform and the libraries: clocks, the random source, the length of
    texts ([text_bytes]), whether a dial or a send fails, when SQLite refuses a
    statement ([fault]), the engine of regular expressions and the decimal text
    of a number, the collation and the spelling of JSON texts, the handler of the
    application and what its queries show ([Observations]), the wall clock of a
    time zone ([formatToParts]). Hypotheses about them
    state what their documentation promises (a clock that reads finite times,
    lengths that are not negative), and each theorem that has some comes with a
    run of a concrete instance.

    * Bounds and fuel

    Integers of the source are exact in the range the code keeps them in; where
    they may leave it ([Number.isSafeInteger] checks, 2^48 in [Uuid], 64-bit
    validators, [Math.fround]) the check and the rounding are written out. Fuel
    is used where the source loops over a structure that changes under it: the
    expiry heap and the eviction loops take the number of live objects, which
    each turn lowers, the search for a date one turn per minute of its four years,
    the executor's pump one per free place, the cascade of a deleted job and the
    pages of a claim one per row; the theorems prove that the fuel does not run out
    ([resume_window_refines], [publication_drains], [reactive_fresh],
    [cronNext_first], [executor_accounts], [delete_runs_run], [claim_takes_first]).

    * Not modelled

    Of the job runner, its timers, its waiters and the dispatch of handlers, which
    are events of the histories instead: the declared jobs are the same throughout
    a history, and instants are whole milliseconds.

    Callbacks that call back into the object that calls them (the client's
    listeners, the code between the awaits is atomic); live events, [converge],
    [rotateAuth] and [revoke] of [ordered.ts]; the server's channels, files, what
    server-sent streams carry, and realtime sessions; the rest of [engine.ts], the assembly of SQL
    in [query.ts], migrations' DDL, plugins, authentication, HTTP,
    the command line and the user interfaces, which are SQL, I/O, types or glue
    around the components above. Memory, time and the garbage collector are not
    modelled, and neither is the text form of JSON. *)
From Stdlib Require Export ZArith QArith Qcanon Lia.
From stdpp Require Export base tactics numbers gmap strings list sorting.
Export list_basics.list list_relations.list list_monad.list list_misc.list.

#[global] Set Warnings "-clear-no-such-hyp,-register-all".

(** ** Thrown values: the error monad *)

Declare Scope ackerdb_scope.
Delimit Scope ackerdb_scope with ackerdb.

(** A synchronous JavaScript computation either returns or throws. *)
Inductive exc (E A : Type) : Type :=
  | Ret (a : A)
  | Throw (e : E).
Arguments Ret {E A} a.
Arguments Throw {E A} e.

#[export] Instance exc_ret {E} : MRet (exc E) := fun A a => Ret a.
#[export] Instance exc_bind {E} : MBind (exc E) := fun A B k m =>
  match m with Ret a => k a | Throw e => Throw e end.
#[export] Instance exc_fmap {E} : FMap (exc E) := fun A B f m =>
  match m with Ret a => Ret (f a) | Throw e => Throw e end.

(** [if (b) throw e;] *)
Definition throw_if {E} (b : bool) (e : E) : exc E unit :=
  if b then Throw e else Ret tt.

Definition exc_is_ret {E A} (m : exc E A) : bool :=
  match m with Ret _ => true | Throw _ => false end.

Section exc_laws.
Context {E A B C : Type}.

Lemma exc_bind_ret (m : exc E A) (k : A -> exc E B) b :
  (m ≫= k) = Ret b <-> exists a, m = Ret a /\ k a = Ret b.
Proof. destruct m; naive_solver. Qed.

Lemma exc_bind_throw (m : exc E A) (k : A -> exc E B) e :
  (m ≫= k) = Throw e <-> m = Throw e \/ exists a, m = Ret a /\ k a = Throw e.
Proof. destruct m; naive_solver. Qed.

Lemma exc_bind_assoc (m : exc E A) (k : A -> exc E B) (h : B -> exc E C) :
  ((m ≫= k) ≫= h) = (m ≫= fun a => k a ≫= h).
Proof. by destruct m. Qed.
End exc_laws.

Lemma ret_pair_inj {E A B} (a a' : A) (b b' : B) :
  @Ret E (A * B) (a, b) = Ret (a', b') -> a = a' /\ b = b'.
Proof. by injection 1. Qed.

Lemma throw_if_ret {E} b (e : E) u : throw_if b e = Ret u <-> b = false.
Proof. destruct b, u; naive_solver. Qed.

Lemma throw_if_throw {E} b (e e' : E) : throw_if b e = Throw e' <-> b = true /\ e = e'.
Proof. destruct b; naive_solver. Qed.

(** Break every [m ≫= k = Ret _] hypothesis into its steps. *)
Ltac exc_inv :=
  repeat match goal with
  | H : (_ ≫= _) = Ret _ |- _ =>
      apply exc_bind_ret in H; destruct H as (? & ? & ?)
  | H : throw_if _ _ = Ret _ |- _ => apply throw_if_ret in H
  | H : Ret _ = Ret _ |- _ => injection H as H
  | H : mret _ = Ret _ |- _ => injection H as H
  | H : Throw _ = Ret _ |- _ => discriminate H
  | H : Ret _ = Throw _ |- _ => discriminate H
  end.

(** Run a function that may throw over a list, left to right. *)
Fixpoint exc_each {E A} (f : A -> exc E unit) (l : list A) : exc E unit :=
  match l with
  | [] => Ret tt
  | x :: l => f x ≫= fun _ => exc_each f l
  end.

Fixpoint exc_map {E A B} (f : A -> exc E B) (l : list A) : exc E (list B) :=
  match l with
  | [] => Ret []
  | x :: l => f x ≫= fun y => exc_map f l ≫= fun ys => Ret (y :: ys)
  end.

Lemma exc_each_ret {E A} (f : A -> exc E unit) l :
  exc_each f l = Ret tt <-> Forall (fun x => f x = Ret tt) l.
Proof.
  induction l as [|x l IH]; cbn; [by split|].
  rewrite Forall_cons_iff, <-IH. split.
  - intros H. exc_inv. by destruct x0.
  - intros [-> ?]. done.
Qed.

(** ** Numbers *)

(** A JavaScript number. Every finite binary64 value other than negative zero
    is a rational; the type holds all of them (and more rationals, which no
    definition of the library produces by rounding). *)
Inductive num : Type :=
  | NFin (q : Qc)
  | NNegZero
  | NInf (negative : bool)
  | NNaN.

#[export] Instance num_eq_dec : EqDecision num.
Proof. unfold EqDecision, Decision. decide equality; [apply Qc_eq_dec|apply Bool.bool_dec]. Defined.

Definition num_of_Z (z : Z) : num := NFin (Q2Qc (inject_Z z)).

(** [Number.isFinite] *)
Definition num_is_finite (n : num) : bool :=
  match n with NFin _ | NNegZero => true | _ => false end.

(** The integer a number denotes, when it denotes one ([Number.isInteger]). *)
Definition num_integer (n : num) : option Z :=
  match n with
  | NFin q => if decide (Qden (this q) = 1%positive) then Some (Qnum (this q)) else None
  | NNegZero => Some 0%Z
  | _ => None
  end.

Definition MAX_SAFE_INTEGER : Z := 2 ^ 53 - 1.

(** [Number.isSafeInteger], with the integer. *)
Definition num_safe_integer (n : num) : option Z :=
  match num_integer n with
  | Some z => if decide (Z.abs z <= MAX_SAFE_INTEGER)%Z then Some z else None
  | None => None
  end.

Lemma num_integer_of_Z z : num_integer (num_of_Z z) = Some z.
Proof.
  unfold num_of_Z, num_integer, Q2Qc, this, inject_Z, Qred.
  pose proof (Z.ggcd_gcd z 1) as Hg. pose proof (Z.ggcd_correct_divisors z 1) as Hd.
  rewrite Z.gcd_1_r in Hg.
  destruct (Z.ggcd z 1) as [g [a b]]; cbn in *. subst g. destruct Hd as [-> Hb].
  rewrite Z.mul_1_l in *. subst b. cbn. done.
Qed.

Lemma num_of_Z_inj z z' : num_of_Z z = num_of_Z z' -> z = z'.
Proof.
  intros H. apply (f_equal num_integer) in H.
  rewrite !num_integer_of_Z in H. by injection H.
Qed.

Lemma num_safe_of_Z z :
  (Z.abs z <= MAX_SAFE_INTEGER)%Z -> num_safe_integer (num_of_Z z) = Some z.
Proof.
  intros H. unfold num_safe_integer. rewrite num_integer_of_Z. by rewrite decide_True.
Qed.

Lemma num_safe_integer_bound n z :
  num_safe_integer n = Some z -> (Z.abs z <= MAX_SAFE_INTEGER)%Z.
Proof. unfold num_safe_integer. repeat case_match; naive_solver. Qed.

(** A number used as a time in milliseconds: a finite value is carried as an
    integer, as [Date.now] returns it; the checks against non-finite values
    see the other constructor. *)
Inductive ms : Type :=
  | Finite (t : Z)
  | NonFinite.

#[export] Instance ms_eq_dec : EqDecision ms.
Proof. solve_decision. Defined.

(** ** Strings *)

(** A JavaScript string is held as its UTF-8 bytes. [TextEncoder.encode] is
    the identity on that form, so the encoded length is [String.length]; the
    [length] of the source, in UTF-16 code units, is [utf16_length]. Strings
    with a lone surrogate have no such form and are outside the library. *)
Definition byte_of (a : Ascii.ascii) : Z := Z.of_N (Ascii.N_of_ascii a).

Definition utf16_units (a : Ascii.ascii) : Z :=
  let b := byte_of a in
  if decide (128 <= b < 192)%Z then 0        (* continuation byte *)
  else if decide (240 <= b)%Z then 2         (* lead byte of an astral code point *)
  else 1.

Fixpoint utf16_length (s : string) : Z :=
  match s with
  | EmptyString => 0
  | String a s => utf16_units a + utf16_length s
  end%Z.

Definition byte_length (s : string) : Z := Z.of_nat (String.length s).

Fixpoint chars (s : string) : list Ascii.ascii :=
  match s with EmptyString => [] | String a s => a :: chars s end.

Fixpoint of_chars (l : list Ascii.ascii) : string :=
  match l with [] => EmptyString | a :: l => String a (of_chars l) end.

Lemma chars_of_chars l : chars (of_chars l) = l.
Proof. induction l as [|c l IH]; cbn; [done|by rewrite IH]. Qed.

Lemma of_chars_chars s : of_chars (chars s) = s.
Proof. induction s as [|c s IH]; cbn; [done|by rewrite IH]. Qed.

Definition starts_with (prefix s : string) : bool := String.prefix prefix s.

(** ** Insertion-ordered maps *)

(** A JavaScript [Map] iterates in insertion order; an update keeps the place
    of its key. It is the list of its entries, keys distinct. *)
Section jmap.
Context {K V : Type} `{EqDecision K}.

Fixpoint jmap_get (k : K) (m : list (K * V)) : option V :=
  match m with
  | [] => None
  | (k', v) :: m => if decide (k' = k) then Some v else jmap_get k m
  end.

Definition jmap_delete (k : K) (m : list (K * V)) : list (K * V) :=
  filter (fun e => fst e ≠ k) m.

Fixpoint jmap_set (k : K) (v : V) (m : list (K * V)) : list (K * V) :=
  match m with
  | [] => [(k, v)]
  | (k', v') :: m => if decide (k' = k) then (k, v) :: m else (k', v') :: jmap_set k v m
  end.

Lemma jmap_get_Some_elem k v m : jmap_get k m = Some v -> (k, v) ∈ m.
Proof.
  induction m as [|[k' v'] m IH]; cbn; [done|].
  case_decide; intros; simplify_eq; set_solver.
Qed.

Lemma jmap_get_None k m : jmap_get k m = None <-> k ∉ m.*1.
Proof.
  induction m as [|[k' v'] m IH]; cbn; [set_solver|].
  case_decide; rewrite ?IH; set_solver.
Qed.

Lemma jmap_get_elem k v m : NoDup (m.*1) -> (k, v) ∈ m -> jmap_get k m = Some v.
Proof.
  induction m as [|[k' v'] m IH]; cbn; [set_solver|].
  rewrite NoDup_cons. intros [Hk Hm] He. apply elem_of_cons in He as [He|He].
  - simplify_eq. by rewrite decide_True.
  - rewrite decide_False; [by apply IH|]. intros ->.
    apply Hk. apply list_elem_of_fmap. by exists (k, v).
Qed.

Lemma jmap_delete_keys k m : (jmap_delete k m).*1 = filter (fun k' => k' ≠ k) (m.*1).
Proof.
  unfold jmap_delete. induction m as [|[k' v'] m IH]; [done|].
  rewrite fmap_cons, !filter_cons. cbn [fst]. case_decide; [|done].
  by rewrite fmap_cons, IH.
Qed.

Lemma jmap_delete_elem k k' v m : (k', v) ∈ jmap_delete k m <-> k' ≠ k /\ (k', v) ∈ m.
Proof. unfold jmap_delete. by rewrite list_elem_of_filter. Qed.

Lemma jmap_get_set k k' v m :
  jmap_get k (jmap_set k' v m) = if decide (k = k') then Some v else jmap_get k m.
Proof.
  induction m as [|[k2 v2] m IH]; cbn.
  { repeat case_decide; congruence. }
  destruct (decide (k2 = k')); cbn; [|rewrite IH]; repeat case_decide; congruence.
Qed.

Lemma jmap_get_delete k k' m :
  jmap_get k (jmap_delete k' m) = if decide (k = k') then None else jmap_get k m.
Proof.
  induction m as [|[k2 v2] m IH]; [by case_decide|]. unfold jmap_delete in *. destruct (decide (k2 = k')) as [->|Hne].
  - rewrite filter_cons_False by (cbn; tauto). cbn [jmap_get]. etransitivity; [exact IH|]. repeat case_decide; congruence.
  - rewrite filter_cons_True by done. cbn [jmap_get]. destruct (decide (k2 = k)) as [->|]; [by rewrite decide_False|exact IH].
Qed.
End jmap.

(** ** Lists *)

Lemma nodup_fst_inj {A B} (m : list (A * B)) a b b' :
  NoDup (m.*1) -> (a, b) ∈ m -> (a, b') ∈ m -> b = b'.
Proof.
  intros Hn H1 H2. apply list_elem_of_lookup in H1 as [i H1], H2 as [j H2].
  assert (i = j) as ->.
  { eapply NoDup_lookup; [exact Hn|..]; rewrite list_lookup_fmap; [rewrite H1|rewrite H2]; done. }
  congruence.
Qed.

Lemma nodup_snd_inj {A B} (m : list (A * B)) a a' b :
  NoDup (m.*2) -> (a, b) ∈ m -> (a', b) ∈ m -> a = a'.
Proof.
  intros Hn H1 H2. apply list_elem_of_lookup in H1 as [i H1], H2 as [j H2].
  assert (i = j) as ->.
  { eapply NoDup_lookup; [exact Hn|..]; rewrite list_lookup_fmap; [rewrite H1|rewrite H2]; done. }
  congruence.
Qed.

Lemma elem_of_fst {A B} (m : list (A * B)) a : a ∈ m.*1 <-> exists b, (a, b) ∈ m.
Proof.
  rewrite list_elem_of_fmap. split; [intros ([a' b] & -> & ?); eauto|intros [b ?]].
  by exists (a, b).
Qed.

Lemma elem_of_snd {A B} (m : list (A * B)) b : b ∈ m.*2 <-> exists a, (a, b) ∈ m.
Proof.
  rewrite list_elem_of_fmap. split; [intros ([a b'] & -> & ?); eauto|intros [a ?]].
  by exists (a, b).
Qed.

Lemma filter_split {A} (P : A -> Prop) `{!forall x, Decision (P x)} a x b :
  P x -> filter P (a ++ x :: b) = filter P a ++ x :: filter P b.
Proof. intros. by rewrite filter_app, filter_cons_True. Qed.

Lemma filter_split_False {A} (P : A -> Prop) `{!forall x, Decision (P x)} a x b :
  ~ P x -> filter P (a ++ x :: b) = filter P (a ++ b).
Proof. intros. by rewrite !filter_app, filter_cons_False. Qed.

Lemma jmap_set_fresh {K V} `{EqDecision K} (k : K) (v : V) m :
  k ∉ m.*1 -> jmap_set k v m = m ++ [(k, v)].
Proof.
  induction m as [|[k' v'] m IH]; cbn; [done|]. intros Hk.
  rewrite decide_False by set_solver. rewrite IH by set_solver. done.
Qed.

Lemma filter_all {A} (P : A -> Prop) `{!forall x, Decision (P x)} (l : list A) :
  (forall x, x ∈ l -> P x) -> filter P l = l.
Proof.
  induction l as [|x l IH]; intros Hl; [done|].
  rewrite filter_cons_True by set_solver. by rewrite IH by set_solver.
Qed.

Lemma filter_none {A} (P : A -> Prop) `{!forall x, Decision (P x)} (l : list A) :
  Forall (fun x => ~ P x) l -> filter P l = [].
Proof. induction 1; [done|]. rewrite filter_cons. by rewrite decide_False. Qed.

Lemma filter_ext_elem {A} (P Q : A -> Prop) `{!forall x, Decision (P x)} `{!forall x, Decision (Q x)}
    (l : list A) :
  (forall x, x ∈ l -> P x <-> Q x) -> filter P l = filter Q l.
Proof.
  induction l as [|x l IH]; intros Hl; [done|].
  rewrite !filter_cons, IH by set_solver. pose proof (Hl x ltac:(set_solver)).
  repeat case_decide; tauto.
Qed.

Lemma filter_filter_and {A} (P Q : A -> Prop) `{!forall x, Decision (P x)} `{!forall x, Decision (Q x)}
    (l : list A) :
  filter P (filter Q l) = filter (fun x => P x /\ Q x) l.
Proof.
  induction l as [|x l IH]; [done|].
  rewrite !filter_cons, <-IH. repeat case_decide; rewrite ?filter_cons; repeat case_decide; tauto.
Qed.
