(* ===== verification/Dll.v ===== *)
(** Intrusive doubly linked lists.

    The admission queue, the publication slots and the resume-window ring all
    keep their members in hand-written doubly linked lists whose links are
    fields of the members themselves. The heap model is field by field: the
    field [previous] of every object is one finite map from object ids to ids,
    an absent key being [undefined]; so is [next]. [dll_repr] says which list
    a head, a tail and two link fields spell, and the two mutations the code
    performs are shown to be list operations on it. *)
From S2P Require Import Prelude.

Record dll : Type := Dll {
  dll_head : option nat;
  dll_tail : option nat;
  dll_prev : gmap nat nat;
  dll_next : gmap nat nat;
}.

Definition dll_empty : dll := Dll None None ∅ ∅.

(** [entry.previous = this.tail; if (this.tail) this.tail.next = entry;
    else this.head = entry; this.tail = entry] *)
Definition dll_append (d : dll) (x : nat) : dll :=
  {| dll_head := match dll_tail d with Some _ => dll_head d | None => Some x end;
     dll_tail := Some x;
     dll_prev := match dll_tail d with
                 | Some t => <[x := t]> (dll_prev d)
                 | None => delete x (dll_prev d)
                 end;
     dll_next := match dll_tail d with
                 | Some t => <[t := x]> (dll_next d)
                 | None => dll_next d
                 end |}.

(** [o.field = value], where [value] may be [undefined]. *)
Definition set_link (o : nat) (value : option nat) (field : gmap nat nat) : gmap nat nat :=
  partial_alter (fun _ => value) o field.

(** [if (entry.previous) entry.previous.next = entry.next; else this.head = entry.next;
     if (entry.next) entry.next.previous = entry.previous; else this.tail = entry.previous] *)
Definition dll_detach (d : dll) (x : nat) : dll :=
  let p := dll_prev d !! x in
  let n := dll_next d !! x in
  {| dll_head := match p with Some _ => dll_head d | None => n end;
     dll_tail := match n with Some _ => dll_tail d | None => p end;
     dll_prev := match n with Some n => set_link n p (dll_prev d) | None => dll_prev d end;
     dll_next := match p with Some p => set_link p n (dll_next d) | None => dll_next d end |}.

(** [entry.previous = undefined; entry.next = undefined] *)
Definition dll_clear (d : dll) (x : nat) : dll :=
  {| dll_head := dll_head d; dll_tail := dll_tail d;
     dll_prev := delete x (dll_prev d); dll_next := delete x (dll_next d) |}.

(** The list a set of links spells. *)
Record dll_repr (d : dll) (l : list nat) : Prop := {
  repr_nodup : NoDup l;
  repr_head : dll_head d = head l;
  repr_tail : dll_tail d = last l;
  repr_links : forall l1 x l2, l = l1 ++ x :: l2 ->
    dll_prev d !! x = last l1 /\ dll_next d !! x = head l2;
}.

Lemma dll_repr_empty : dll_repr dll_empty [].
Proof. split; [constructor|done|done|]. by intros [|??] ??. Qed.

Lemma nodup_split_unique {A} (l1 l2 l1' l2' : list A) x :
  NoDup (l1 ++ x :: l2) -> l1 ++ x :: l2 = l1' ++ x :: l2' -> l1 = l1' /\ l2 = l2'.
Proof.
  revert l1'. induction l1 as [|y l1 IH]; intros [|z l1']; cbn; intros Hn He.
  - naive_solver.
  - injection He as -> ->. apply NoDup_cons in Hn as [Hn _]. set_solver.
  - injection He as -> He. apply NoDup_cons in Hn as [Hn _]. set_solver.
  - injection He as -> He. apply NoDup_cons in Hn as [_ Hn].
    destruct (IH _ Hn He) as [-> ->]. done.
Qed.

Lemma head_app {A} (l k : list A) :
  head (l ++ k) = match l with [] => head k | x :: _ => Some x end.
Proof. by destruct l. Qed.

Lemma last_cons_some {A} (x : A) l : exists y, last (x :: l) = Some y.
Proof. revert x. induction l as [|z l IH]; intros x; [by exists x|]. apply (IH z). Qed.

(** Reading the links of a represented list. *)
Lemma dll_repr_prev d l x y :
  dll_repr d l -> x ∈ l -> dll_prev d !! x = Some y -> y ∈ l.
Proof.
  intros Hr Hx Hp. apply list_elem_of_split in Hx as (l1 & l2 & ->).
  destruct (repr_links _ _ Hr l1 x l2 eq_refl) as [Hp' _].
  rewrite Hp in Hp'. symmetry in Hp'. apply last_Some in Hp' as [k ->]. set_solver.
Qed.

Lemma dll_repr_empty_iff d l : dll_repr d l -> dll_head d = None <-> l = [].
Proof. intros Hr. rewrite (repr_head _ _ Hr). by destruct l. Qed.

Lemma dll_append_repr d l x :
  dll_repr d l -> x ∉ l -> dll_next d !! x = None -> dll_repr (dll_append d x) (l ++ [x]).
Proof.
  intros [Hn Hh Ht Hl] Hx Hnx. split.
  - apply NoDup_app. split_and!; [done|set_solver|apply NoDup_singleton].
  - cbn. rewrite Ht, head_app. destruct l as [|y l]; [done|].
    destruct (last_cons_some y l) as [z ->]. done.
  - cbn. by rewrite last_snoc.
  - intros l1 y l2 He. cbn. rewrite Ht.
    destruct l2 as [|z l2 _] using rev_ind.
    + apply app_inj_tail in He as [-> ->].
      destruct (last l1) as [t|] eqn:Et.
      * rewrite lookup_insert_eq. split; [done|]. apply last_Some in Et as [k ->].
        rewrite lookup_insert_ne by set_solver. done.
      * by rewrite lookup_delete_eq.
    + rewrite app_comm_cons, app_assoc in He. apply app_inj_tail in He as [-> ->].
      destruct (Hl l1 y l2 eq_refl) as [Hp Hq].
      assert (y <> z) by set_solver.
      rewrite last_app_cons, last_cons, head_app.
      destruct l2 as [|w l2]; cbn [last head].
      * rewrite lookup_insert_eq, lookup_insert_ne by done. done.
      * destruct (last_cons_some w l2) as [t Et]. rewrite Et.
        assert (t ∈ w :: l2) by (by apply last_Some_elem_of in Et).
        apply NoDup_app in Hn as (_ & _ & Hn). apply NoDup_cons in Hn as [Hn _].
        rewrite !lookup_insert_ne by set_solver. done.
Qed.

Lemma lookup_set_link o v (f : gmap nat nat) k :
  set_link o v f !! k = if decide (o = k) then v else f !! k.
Proof.
  unfold set_link. case_decide as E.
  - subst. by rewrite lookup_partial_alter_eq.
  - by rewrite lookup_partial_alter_ne.
Qed.

(** The links around the members of a list split in two places. *)
Lemma dll_repr_split d a x b :
  dll_repr d (a ++ x :: b) ->
  dll_prev d !! x = last a /\ dll_next d !! x = head b.
Proof. intros Hr. by apply (repr_links _ _ Hr). Qed.

Lemma dll_detach_left d l1 y a2 x b :
  dll_repr d ((l1 ++ y :: a2) ++ x :: b) ->
  dll_prev (dll_detach d x) !! y = last l1 /\
  dll_next (dll_detach d x) !! y = head (a2 ++ b).
Proof.
  intros Hr. destruct (dll_repr_split _ _ _ _ Hr) as [Hp Hn].
  pose proof Hr as Hy. rewrite <- app_assoc in Hy.
  pose proof (repr_nodup _ _ Hy) as Hnd.
  destruct (dll_repr_split _ _ _ _ Hy) as [Hyp Hyn].
  cbn. rewrite Hp, Hn, last_app_cons. split.
  - destruct b as [|n b']; [done|]. cbn. rewrite lookup_set_link, decide_False; [done|].
    apply NoDup_app in Hnd as (_ & _ & Hnd). apply NoDup_cons in Hnd as [Hnd _]. set_solver.
  - rewrite last_cons. destruct (last a2) as [t|] eqn:Et.
    + assert (t ∈ a2) by (by apply last_Some_elem_of).
      rewrite lookup_set_link, decide_False.
      2:{ apply NoDup_app in Hnd as (_ & _ & Hnd). apply NoDup_cons in Hnd as [Hnd _]. set_solver. }
      rewrite Hyn. destruct a2; [done|]. done.
    + apply last_None in Et as ->. rewrite lookup_set_link, decide_True by done. done.
Qed.

Lemma dll_detach_right d a x b1 y l2 :
  dll_repr d (a ++ x :: b1 ++ y :: l2) ->
  dll_prev (dll_detach d x) !! y = last (a ++ b1) /\
  dll_next (dll_detach d x) !! y = head l2.
Proof.
  intros Hr. destruct (dll_repr_split _ _ _ _ Hr) as [Hp Hn].
  pose proof Hr as Hy. rewrite app_comm_cons, app_assoc in Hy.
  pose proof (repr_nodup _ _ Hy) as Hnd.
  destruct (dll_repr_split _ _ _ _ Hy) as [Hyp Hyn].
  apply NoDup_app in Hnd as (_ & Hdis & _).
  cbn. rewrite Hp, Hn, head_app. split.
  - destruct b1 as [|n b1]; cbn [head].
    + rewrite lookup_set_link, decide_True by done. by rewrite app_nil_r.
    + rewrite lookup_set_link, decide_False by set_solver.
      rewrite Hyp. by rewrite !last_app_cons, (last_cons_cons x n).
  - destruct (last a) as [p|] eqn:Ep; [|done].
    assert (p ∈ a) by (by apply last_Some_elem_of).
    rewrite lookup_set_link, decide_False by set_solver. done.
Qed.

Lemma dll_detach_repr d a x b :
  dll_repr d (a ++ x :: b) -> dll_repr (dll_detach d x) (a ++ b).
Proof.
  intros Hr. pose proof (repr_nodup _ _ Hr) as Hnd.
  destruct (dll_repr_split _ _ _ _ Hr) as [Hp Hn]. split.
  - apply NoDup_app in Hnd as (? & ? & Hb). apply NoDup_cons in Hb as [? ?].
    apply NoDup_app. split_and!; [done|set_solver|done].
  - cbn. rewrite Hp, Hn, (repr_head _ _ Hr), !head_app.
    destruct a as [|a0 a']; [done|]. by destruct (last_cons_some a0 a') as [? ->].
  - cbn. rewrite Hp, Hn, (repr_tail _ _ Hr), last_app_cons, last_cons, last_app.
    destruct b as [|b0 b']; cbn [head]; [done|].
    by destruct (last_cons_some b0 b') as [? ->].
  - intros l1 y l2 He. symmetry in He. apply List.app_eq_app in He as [k [[-> ->]|[-> He]]].
    + by apply (dll_detach_right _ a _ k).
    + destruct k as [|z k]; cbn in He.
      * subst. rewrite app_nil_r in *. pose proof (dll_detach_right _ l1 _ [] _ _ Hr) as H. by rewrite app_nil_r in H.
      * injection He as <- ->. by apply dll_detach_left.
Qed.

(** Members not in the list may have stale links, which no reading reaches. *)
Lemma dll_clear_repr d x l : dll_repr d l -> x ∉ l -> dll_repr (dll_clear d x) l.
Proof.
  intros [Hn Hh Ht Hl] Hx. split; [done..|]. intros l1 y l2 ->. cbn.
  rewrite !lookup_delete_ne by set_solver. by apply Hl.
Qed.

Lemma last_elem {A} (l : list A) x : last l = Some x -> x ∈ l.
Proof. intros Hl. apply last_Some in Hl as [l' ->]. apply elem_of_app. right. by apply list_elem_of_singleton. Qed.

(** A member that leaves has its links cleared; the others outside the list have none. *)
Lemma detach_links (d : dll) a x b :
  dll_repr d (a ++ x :: b) -> (forall y, y ∉ a ++ x :: b -> dll_next d !! y = None) ->
  dll_repr (dll_clear (dll_detach d x) x) (a ++ b) /\
  (forall y, y ∉ a ++ b -> dll_next (dll_clear (dll_detach d x) x) !! y = None).
Proof.
  intros Hr Hn. pose proof (repr_nodup _ _ Hr) as Hnd. split.
  - apply dll_clear_repr; [by apply dll_detach_repr|]. apply NoDup_app in Hnd as (_ & Hd & [Hx _]%NoDup_cons).
    intros [Hin|Hin]%elem_of_app; [|done]. apply (Hd x Hin), list_elem_of_here.
  - intros y Hy. cbn. destruct (decide (y = x)) as [->|Hyx]; [by rewrite lookup_delete_eq|].
    rewrite lookup_delete_ne by done. destruct (dll_repr_split _ _ _ _ Hr) as [-> ->].
    destruct (last a) as [o|] eqn:Eo.
    + rewrite lookup_set_link, decide_False.
      * apply Hn. rewrite elem_of_app, elem_of_cons. rewrite elem_of_app in Hy. tauto.
      * intros ->. apply Hy, elem_of_app. left. by apply last_elem.
    + apply Hn. rewrite elem_of_app, elem_of_cons. rewrite elem_of_app in Hy. tauto.
Qed.
