(* ===== verification/Errors.v ===== *)
(** Framework failures: [server/src/shared/errors.ts], [shared/numbers.ts],
    the outcome vocabulary of [core/src/protocol.ts] and the outcome
    translation of [server/src/subscriptions/reactive/outcome.ts]. *)
From S2P Require Import Prelude.
Local Open Scope string_scope.

Inductive OutcomeCode : Type :=
  | malformed_ | validation | version_mismatch | unauthenticated
  | auth_unavailable | auth_stale | unauthorized | not_found | conflict
  | overloaded_ | slow_consumer | deadline_exceeded | draining
  | unavailable_ | convergence_unavailable | indeterminate | internal.

#[export] Instance OutcomeCode_eq_dec : EqDecision OutcomeCode.
Proof. solve_decision. Defined.

Definition outcome_code_string (c : OutcomeCode) : string :=
  match c with
  | malformed_ => "malformed"
  | validation => "validation"
  | version_mismatch => "version_mismatch"
  | unauthenticated => "unauthenticated"
  | auth_unavailable => "auth_unavailable"
  | auth_stale => "auth_stale"
  | unauthorized => "unauthorized"
  | not_found => "not_found"
  | conflict => "conflict"
  | overloaded_ => "overloaded"
  | slow_consumer => "slow_consumer"
  | deadline_exceeded => "deadline_exceeded"
  | draining => "draining"
  | unavailable_ => "unavailable"
  | convergence_unavailable => "convergence_unavailable"
  | indeterminate => "indeterminate"
  | internal => "internal"
  end.

(** [OUTCOME_CODES], in the source's order. *)
Definition OUTCOME_CODES : list OutcomeCode :=
  [malformed_; validation; version_mismatch; unauthenticated; auth_unavailable;
   auth_stale; unauthorized; not_found; conflict; overloaded_; slow_consumer;
   deadline_exceeded; draining; unavailable_; convergence_unavailable;
   indeterminate; internal].

Inductive ResourceClass : Type :=
  | connection | operation | reader | writer | subscription | revalidation
  | publication | outbound | sse | history | idempotency.

#[export] Instance ResourceClass_eq_dec : EqDecision ResourceClass.
Proof. solve_decision. Defined.

Definition resource_class_string (r : ResourceClass) : string :=
  match r with
  | connection => "connection"
  | operation => "operation"
  | reader => "reader"
  | writer => "writer"
  | subscription => "subscription"
  | revalidation => "revalidation"
  | publication => "publication"
  | outbound => "outbound"
  | sse => "sse"
  | history => "history"
  | idempotency => "idempotency"
  end.

Definition RESOURCE_CLASSES : list ResourceClass :=
  [connection; operation; reader; writer; subscription; revalidation;
   publication; outbound; sse; history; idempotency].

(** An [AckerDBError] instance. Its [cause] is diagnostic only and is not
    carried. [committed] is the literal [true] or absent. *)
Record AckerDBError : Type := MkAckerDBError {
  err_code : OutcomeCode;
  err_message : string;
  err_retryable : bool;
  err_retryAfterMs : option num;
  err_resource : option ResourceClass;
  err_committed : bool;
}.

Record AckerDBErrorOptions : Type := {
  opt_retryable : option bool;
  opt_retryAfterMs : option num;
  opt_resource : option ResourceClass;
  opt_committed : bool;
}.

Definition no_options : AckerDBErrorOptions := {|
  opt_retryable := None; opt_retryAfterMs := None; opt_resource := None; opt_committed := false |}.

(** Everything the modelled code throws. *)
Inductive js_error : Type :=
  | RangeError (message : string)
  | TypeError (message : string)
  | SyntaxError (message : string)
  | PlainError (message : string)
  | ValidationError (message : string)
  | WireError (message : string)
  | ProtocolError (code : OutcomeCode) (message : string)
  | CorruptDatabaseError (message : string)
  | Acker (e : AckerDBError)
  | Application (value : nat).  (* a value thrown by application code, by identity *)

Notation "'let!' x := m 'in' k" := (@mbind (exc js_error) _ _ _ (fun x => k) m)
  (at level 10, x pattern, m at level 200, k at level 200)
  : ackerdb_scope.

(** Whether an optional number is an integer in a closed range. *)
Definition num_integer_in (low high : Z) (n : num) : bool :=
  match num_integer n with Some z => bool_decide (low <= z <= high)%Z | None => false end.

(** [new AckerDBError(code, message, options)] *)
Definition new_AckerDBError (code : OutcomeCode) (message : string)
    (options : AckerDBErrorOptions) : exc js_error AckerDBError :=
  _ ← throw_if
        (match opt_retryAfterMs options with
         | Some n => negb (num_integer_in 0 30000 n)
         | None => false
         end)
        (TypeError "retryAfterMs must be an integer from 0 through 30000");
  _ ← throw_if
        (bool_decide (is_Some (opt_retryAfterMs options)) &&
         negb (bool_decide (opt_retryable options = Some true)))
        (TypeError "retryAfterMs requires retryable: true");
  _ ← throw_if
        (opt_committed options && negb (bool_decide (code = convergence_unavailable)))
        (TypeError "committed is valid only for convergence_unavailable");
  _ ← throw_if
        (bool_decide (code = convergence_unavailable) &&
         (negb (opt_committed options) || bool_decide (opt_retryable options = Some true)))
        (TypeError "convergence_unavailable must be committed and non-retryable");
  Ret {| err_code := code;
         err_message := message;
         err_retryable := default false (opt_retryable options);
         err_retryAfterMs := opt_retryAfterMs options;
         err_resource := opt_resource options;
         err_committed := opt_committed options |}.

(** [throw new AckerDBError(...)]: the constructor's own failure wins. *)
Definition throw_AckerDBError {A} (code : OutcomeCode) (message : string)
    (options : AckerDBErrorOptions) : exc js_error A :=
  e ← new_AckerDBError code message options; Throw (Acker e).

Definition isAckerDBError (e : js_error) : bool :=
  match e with Acker _ => true | _ => false end.

(** [signal?.aborted], with the abort reason. *)
Definition throwIfAborted (signal : option (option js_error)) : exc js_error unit :=
  match signal with
  | None | Some None => Ret tt
  | Some (Some reason) =>
      if isAckerDBError reason then Throw reason
      else throw_AckerDBError unavailable_ "operation was canceled"
             {| opt_retryable := None; opt_retryAfterMs := None;
                opt_resource := Some operation; opt_committed := false |}
  end.

(** [shared/numbers.ts]: the validated value is returned as the integer it is. *)
Definition positiveSafeInteger (value : num) (name : string) : exc js_error Z :=
  match num_safe_integer value with
  | Some z =>
      if bool_decide (z <= 0)%Z
      then Throw (RangeError (name +:+ " must be a positive safe integer"))
      else Ret z
  | None => Throw (RangeError (name +:+ " must be a positive safe integer"))
  end.

(** ** Outcomes sent to clients *)

Record Outcome : Type := MkOutcome {
  out_code : OutcomeCode;
  out_retryable : bool;
  out_message : string;
  out_retryAfterMs : option num;
  out_resource : option ResourceClass;
  out_committed : bool;
}.

#[export] Instance Outcome_eq_dec : EqDecision Outcome.
Proof. solve_decision. Defined.

(** [message.slice(0, n)] in UTF-16 code units. A cut inside a surrogate pair
    has no UTF-8 form; the pair is dropped there. *)
Fixpoint utf16_take (n : Z) (s : string) : string :=
  match s with
  | EmptyString => EmptyString
  | String a s =>
      if bool_decide (utf16_units a <= n)%Z
      then String a (utf16_take (n - utf16_units a) s) else EmptyString
  end.

Definition isAuthFailure (o : Outcome) : bool :=
  bool_decide (out_code o = auth_stale) || bool_decide (out_code o = auth_unavailable) ||
  bool_decide (out_code o = unauthenticated) || bool_decide (out_code o = unauthorized).

Definition authOutcome (code : OutcomeCode) (message : string) : Outcome :=
  MkOutcome code false message None None false.

Definition overloadOutcome (message : string) : Outcome :=
  MkOutcome overloaded_ true message (Some (num_of_Z 0)) (Some subscription) false.

Definition errorOutcome (error : js_error) : Outcome :=
  match error with
  | Acker e =>
      {| out_code := err_code e;
         out_retryable := err_retryable e;
         out_message := utf16_take 512 (err_message e);
         out_retryAfterMs := err_retryAfterMs e;
         out_resource := err_resource e;
         out_committed := err_committed e |}
  | _ => MkOutcome internal false "Subscription evaluation failed" None None false
  end.

(** ** Lemmas *)

Lemma positiveSafeInteger_ret value name z :
  positiveSafeInteger value name = Ret z <->
  num_safe_integer value = Some z /\ (0 < z)%Z.
Proof.
  unfold positiveSafeInteger. destruct (num_safe_integer value) as [w|]; cycle 1.
  { split; [done|]. by intros [? _]. }
  case_bool_decide; split.
  - done.
  - intros [? ?]; simplify_eq; lia.
  - intros ?; simplify_eq. split; [done|lia].
  - intros [? ?]. by simplify_eq.
Qed.

Lemma positiveSafeInteger_of_Z z name :
  (0 < z <= MAX_SAFE_INTEGER)%Z -> positiveSafeInteger (num_of_Z z) name = Ret z.
Proof.
  intros ?. apply positiveSafeInteger_ret. split; [|lia].
  apply num_safe_of_Z. lia.
Qed.

(** What every constructed error satisfies: the conditions
    [parseOutcome] later demands of an outcome. *)
Definition error_wf (e : AckerDBError) : Prop :=
  (forall n, err_retryAfterMs e = Some n ->
     num_integer_in 0 30000 n = true /\ err_retryable e = true) /\
  (err_committed e = true <-> err_code e = convergence_unavailable) /\
  (err_code e = convergence_unavailable -> err_retryable e = false).

Lemma new_AckerDBError_wf code message options e :
  new_AckerDBError code message options = Ret e -> error_wf e.
Proof.
  unfold new_AckerDBError. intros H. exc_inv. subst e. unfold error_wf; cbn.
  destruct options as [ret after res com]; cbn in *.
  repeat match goal with
  | H : negb _ = false |- _ => apply negb_false_iff in H
  | H : _ && _ = false |- _ => apply andb_false_iff in H
  | H : _ || _ = false |- _ => apply orb_false_iff in H as [? ?]
  | H : bool_decide _ = true |- _ => apply bool_decide_eq_true in H
  | H : bool_decide _ = false |- _ => apply bool_decide_eq_false in H
  | H : _ \/ _ |- _ => destruct H
  end; split_and!; intros; simplify_eq; cbn in *; try (split; intros); try done;
  try (match goal with H : ¬ is_Some _ |- _ => destruct H; by eexists end);
  try (apply negb_false_iff; done); try (by destruct ret as [[]|]); try (by destruct com).
Qed.
