(* ===== verification/Limits.v ===== *)
(** Service limits: [server/src/runtime/limits.ts]. *)
From S2P Require Import Prelude Errors.
Local Open Scope string_scope.

Definition KiB : Z := 1024.
Definition MiB : Z := 1024 * KiB.
Definition GiB : Z := 1024 * MiB.

(** The shapes are generic in the number type: the code receives JavaScript
    numbers and returns the same values once checked to be integers. *)
Record CapacityLimits (N : Type) : Type := MkCapacity {
  maxItems : N;
  maxBytes : N;
}.
Arguments MkCapacity {N}.
Arguments maxItems {N}.
Arguments maxBytes {N}.

Record QueueLimits (N : Type) : Type := MkQueueLimits {
  capacity : CapacityLimits N;
  maxAgeMs : N;
}.
Arguments MkQueueLimits {N}.
Arguments capacity {N}.
Arguments maxAgeMs {N}.

Record WebSocketLimits (N : Type) : Type := MkWebSocketLimits {
  ws_maxBytesPerConnection : N; ws_maxBytes : N; ws_maxStallMs : N }.
Arguments MkWebSocketLimits {N}.
Arguments ws_maxBytesPerConnection {N}. Arguments ws_maxBytes {N}. Arguments ws_maxStallMs {N}.

Record SseLimits (N : Type) : Type := MkSseLimits {
  sse_maxBytesPerStream : N; sse_maxBytes : N; sse_maxStallMs : N }.
Arguments MkSseLimits {N}.
Arguments sse_maxBytesPerStream {N}. Arguments sse_maxBytes {N}. Arguments sse_maxStallMs {N}.

Record ResumeLimits (N : Type) : Type := MkResumeLimits {
  maxTransitionsPerStream : N;
  maxBytesPerStream : N;
  resume_maxAgeMs : N;
  resume_maxBytes : N }.
Arguments MkResumeLimits {N}.
Arguments maxTransitionsPerStream {N}. Arguments maxBytesPerStream {N}.
Arguments resume_maxAgeMs {N}. Arguments resume_maxBytes {N}.

Record JobsLimits (N : Type) : Type := MkJobsLimits {
  maxRunning : N; claimBatchSize : N; leaseMs : N }.
Arguments MkJobsLimits {N}.
Arguments maxRunning {N}. Arguments claimBatchSize {N}. Arguments leaseMs {N}.

Record ReplayLimits (N : Type) : Type := MkReplayLimits {
  replay_maxAgeMs : N; maxResultBytes : N; maxRecords : N; replay_maxBytes : N }.
Arguments MkReplayLimits {N}.
Arguments replay_maxAgeMs {N}. Arguments maxResultBytes {N}.
Arguments maxRecords {N}. Arguments replay_maxBytes {N}.

Record CredentialLimits (N : Type) : Type := MkCredentialLimits {
  maxPerIdentity : N; maxNameBytes : N; maxMetadataBytes : N }.
Arguments MkCredentialLimits {N}.
Arguments maxPerIdentity {N}. Arguments maxNameBytes {N}. Arguments maxMetadataBytes {N}.

Record McpLimits (N : Type) : Type := MkMcpLimits {
  maxHeaderBytes : N; maxToolsPerEndpoint : N }.
Arguments MkMcpLimits {N}.
Arguments maxHeaderBytes {N}. Arguments maxToolsPerEndpoint {N}.

Record ServiceLimits (N : Type) : Type := MkServiceLimits {
  maxConnections : N;
  maxOperations : N;
  maxOperationsPerCaller : N;
  maxOperationsPerConnection : N;
  readQueue : QueueLimits N;
  writeQueue : QueueLimits N;
  maxSubscriptionsPerConnection : N;
  maxSubscriptions : N;
  maxSharedSubscriptions : N;
  maxSharedResultBytes : N;
  revalidationConcurrency : N;
  revalidationQueue : QueueLimits N;
  webSocket : WebSocketLimits N;
  sse_limits : SseLimits N;
  maxRequestBytes : N;
  maxFrameBytes : N;
  resume : ResumeLimits N;
  jobs : JobsLimits N;
  publication_limits : CapacityLimits N;
  mutationReplay : ReplayLimits N;
  revocationDeadlineMs : N;   (* auth.revocationDeadlineMs *)
  credentials : CredentialLimits N;
  mcp : McpLimits N;
  gracefulShutdownMs : N;
}.
Arguments MkServiceLimits {N}.
Arguments maxConnections {N}. Arguments maxOperations {N}. Arguments maxOperationsPerCaller {N}.
Arguments maxOperationsPerConnection {N}. Arguments readQueue {N}. Arguments writeQueue {N}.
Arguments maxSubscriptionsPerConnection {N}. Arguments maxSubscriptions {N}.
Arguments maxSharedSubscriptions {N}. Arguments maxSharedResultBytes {N}.
Arguments revalidationConcurrency {N}. Arguments revalidationQueue {N}. Arguments webSocket {N}.
Arguments sse_limits {N}. Arguments maxRequestBytes {N}. Arguments maxFrameBytes {N}.
Arguments resume {N}. Arguments jobs {N}. Arguments publication_limits {N}.
Arguments mutationReplay {N}. Arguments revocationDeadlineMs {N}. Arguments credentials {N}.
Arguments mcp {N}. Arguments gracefulShutdownMs {N}.

Definition validateCapacityLimits (limits : CapacityLimits num) (path : string)
    : exc js_error (CapacityLimits Z) :=
  items ← positiveSafeInteger (maxItems limits) (path +:+ ".maxItems");
  bytes ← positiveSafeInteger (maxBytes limits) (path +:+ ".maxBytes");
  Ret (MkCapacity items bytes).

Definition validateQueueLimits (limits : QueueLimits num) (path : string)
    : exc js_error (QueueLimits Z) :=
  cap ← validateCapacityLimits (capacity limits) path;
  age ← positiveSafeInteger (maxAgeMs limits) (path +:+ ".maxAgeMs");
  Ret (MkQueueLimits cap age).

(** The scalar limits with the paths the code names them by, in its order. *)
Definition scalarLimits {N} (l : ServiceLimits N) : list (string * N) := [
  ("maxConnections", maxConnections l);
  ("maxOperations", maxOperations l);
  ("maxOperationsPerCaller", maxOperationsPerCaller l);
  ("maxOperationsPerConnection", maxOperationsPerConnection l);
  ("maxSubscriptionsPerConnection", maxSubscriptionsPerConnection l);
  ("maxSubscriptions", maxSubscriptions l);
  ("maxSharedSubscriptions", maxSharedSubscriptions l);
  ("maxSharedResultBytes", maxSharedResultBytes l);
  ("revalidationConcurrency", revalidationConcurrency l);
  ("webSocket.maxBytesPerConnection", ws_maxBytesPerConnection (webSocket l));
  ("webSocket.maxBytes", ws_maxBytes (webSocket l));
  ("webSocket.maxStallMs", ws_maxStallMs (webSocket l));
  ("sse.maxBytesPerStream", sse_maxBytesPerStream (sse_limits l));
  ("sse.maxBytes", sse_maxBytes (sse_limits l));
  ("sse.maxStallMs", sse_maxStallMs (sse_limits l));
  ("maxRequestBytes", maxRequestBytes l);
  ("maxFrameBytes", maxFrameBytes l);
  ("resume.maxTransitionsPerStream", maxTransitionsPerStream (resume l));
  ("resume.maxBytesPerStream", maxBytesPerStream (resume l));
  ("resume.maxAgeMs", resume_maxAgeMs (resume l));
  ("resume.maxBytes", resume_maxBytes (resume l));
  ("jobs.maxRunning", maxRunning (jobs l));
  ("jobs.claimBatchSize", claimBatchSize (jobs l));
  ("jobs.leaseMs", leaseMs (jobs l));
  ("mutationReplay.maxAgeMs", replay_maxAgeMs (mutationReplay l));
  ("mutationReplay.maxResultBytes", maxResultBytes (mutationReplay l));
  ("mutationReplay.maxRecords", maxRecords (mutationReplay l));
  ("mutationReplay.maxBytes", replay_maxBytes (mutationReplay l));
  ("auth.revocationDeadlineMs", revocationDeadlineMs l);
  ("credentials.maxPerIdentity", maxPerIdentity (credentials l));
  ("credentials.maxNameBytes", maxNameBytes (credentials l));
  ("credentials.maxMetadataBytes", maxMetadataBytes (credentials l));
  ("mcp.maxHeaderBytes", maxHeaderBytes (mcp l));
  ("mcp.maxToolsPerEndpoint", maxToolsPerEndpoint (mcp l));
  ("gracefulShutdownMs", gracefulShutdownMs l)].

Definition map_capacity {N M} (f : N -> M) (c : CapacityLimits N) : CapacityLimits M :=
  MkCapacity (f (maxItems c)) (f (maxBytes c)).

Definition map_queue {N M} (f : N -> M) (q : QueueLimits N) : QueueLimits M :=
  MkQueueLimits (map_capacity f (capacity q)) (f (maxAgeMs q)).

(** The integers a service-limits object of numbers carries, field by field. *)
Definition map_limits {N M} (f : N -> M) (l : ServiceLimits N) : ServiceLimits M :=
  {| maxConnections := f (maxConnections l);
     maxOperations := f (maxOperations l);
     maxOperationsPerCaller := f (maxOperationsPerCaller l);
     maxOperationsPerConnection := f (maxOperationsPerConnection l);
     readQueue := map_queue f (readQueue l);
     writeQueue := map_queue f (writeQueue l);
     maxSubscriptionsPerConnection := f (maxSubscriptionsPerConnection l);
     maxSubscriptions := f (maxSubscriptions l);
     maxSharedSubscriptions := f (maxSharedSubscriptions l);
     maxSharedResultBytes := f (maxSharedResultBytes l);
     revalidationConcurrency := f (revalidationConcurrency l);
     revalidationQueue := map_queue f (revalidationQueue l);
     webSocket := let w := webSocket l in
       MkWebSocketLimits (f (ws_maxBytesPerConnection w)) (f (ws_maxBytes w)) (f (ws_maxStallMs w));
     sse_limits := let s := sse_limits l in
       MkSseLimits (f (sse_maxBytesPerStream s)) (f (sse_maxBytes s)) (f (sse_maxStallMs s));
     maxRequestBytes := f (maxRequestBytes l);
     maxFrameBytes := f (maxFrameBytes l);
     resume := let r := resume l in
       MkResumeLimits (f (maxTransitionsPerStream r)) (f (maxBytesPerStream r))
         (f (resume_maxAgeMs r)) (f (resume_maxBytes r));
     jobs := let j := jobs l in
       MkJobsLimits (f (maxRunning j)) (f (claimBatchSize j)) (f (leaseMs j));
     publication_limits := map_capacity f (publication_limits l);
     mutationReplay := let m := mutationReplay l in
       MkReplayLimits (f (replay_maxAgeMs m)) (f (maxResultBytes m)) (f (maxRecords m)) (f (replay_maxBytes m));
     revocationDeadlineMs := f (revocationDeadlineMs l);
     credentials := let c := credentials l in
       MkCredentialLimits (f (maxPerIdentity c)) (f (maxNameBytes c)) (f (maxMetadataBytes c));
     mcp := MkMcpLimits (f (maxHeaderBytes (mcp l))) (f (maxToolsPerEndpoint (mcp l)));
     gracefulShutdownMs := f (gracefulShutdownMs l) |}.

(** The integer value of a number, for the fields the code copies unread into
    its frozen result; every one of them has been checked by then. *)
Definition int_of (n : num) : Z := default 0%Z (num_safe_integer n).

(** The relations between limits the code enforces, each with the message of
    its [RangeError], in the order of the source. *)
Definition limit_relations (l : ServiceLimits Z) : list (bool * string) := [
  (bool_decide (maxOperationsPerCaller l > maxOperations l)%Z,
   "maxOperationsPerCaller cannot exceed maxOperations");
  (bool_decide (maxOperationsPerConnection l > maxOperations l)%Z,
   "maxOperationsPerConnection cannot exceed maxOperations");
  (bool_decide (maxSubscriptionsPerConnection l > maxSubscriptions l)%Z,
   "maxSubscriptionsPerConnection cannot exceed maxSubscriptions");
  (bool_decide (ws_maxBytesPerConnection (webSocket l) > ws_maxBytes (webSocket l))%Z,
   "webSocket.maxBytesPerConnection cannot exceed webSocket.maxBytes");
  (bool_decide (maxFrameBytes l >= ws_maxBytesPerConnection (webSocket l))%Z,
   "maxFrameBytes must be smaller than webSocket.maxBytesPerConnection");
  (bool_decide (sse_maxBytesPerStream (sse_limits l) > sse_maxBytes (sse_limits l))%Z,
   "sse.maxBytesPerStream cannot exceed sse.maxBytes");
  (bool_decide (maxFrameBytes l > sse_maxBytesPerStream (sse_limits l))%Z,
   "maxFrameBytes cannot exceed sse.maxBytesPerStream");
  (bool_decide (maxBytesPerStream (resume l) > resume_maxBytes (resume l))%Z,
   "resume.maxBytesPerStream cannot exceed resume.maxBytes");
  (bool_decide (gracefulShutdownMs l > 0x7fffffff)%Z,
   "gracefulShutdownMs cannot exceed the platform timer limit")].

Definition defineServiceLimits (limits : ServiceLimits num) : exc js_error (ServiceLimits Z) :=
  _ ← validateQueueLimits (readQueue limits) "readQueue";
  _ ← validateQueueLimits (writeQueue limits) "writeQueue";
  _ ← validateQueueLimits (revalidationQueue limits) "revalidationQueue";
  _ ← validateCapacityLimits (publication_limits limits) "publication";
  _ ← exc_each (fun '(path, value) => _ ← positiveSafeInteger value path; Ret tt)
        (scalarLimits limits);
  let ints := map_limits int_of limits in
  _ ← exc_each (fun '(violated, message) => throw_if violated (RangeError message))
        (limit_relations ints);
  Ret ints.

(** [PRODUCTION_LIMITS], before [defineServiceLimits] is applied to it. *)
Definition production_values : ServiceLimits Z := {|
  maxConnections := 4096;
  maxOperations := 4096;
  maxOperationsPerCaller := 128;
  maxOperationsPerConnection := 128;
  readQueue := MkQueueLimits (MkCapacity 4096 (32 * MiB)) 30000;
  writeQueue := MkQueueLimits (MkCapacity 4096 (32 * MiB)) 30000;
  maxSubscriptionsPerConnection := 1024;
  maxSubscriptions := 100000;
  maxSharedSubscriptions := 100000;
  maxSharedResultBytes := 128 * MiB;
  revalidationConcurrency := 4;
  revalidationQueue := MkQueueLimits (MkCapacity 100000 (32 * MiB)) 30000;
  webSocket := MkWebSocketLimits (4 * MiB) (64 * MiB) 5000;
  sse_limits := MkSseLimits MiB (32 * MiB) 5000;
  maxRequestBytes := MiB;
  maxFrameBytes := MiB;
  resume := MkResumeLimits 64 (2 * MiB) 30000 (128 * MiB);
  jobs := MkJobsLimits 64 100 60000;
  publication_limits := MkCapacity 4096 (32 * MiB);
  mutationReplay := MkReplayLimits (24 * 60 * 60 * 1000) MiB 1000000 (4 * GiB);
  revocationDeadlineMs := 5000;
  credentials := MkCredentialLimits 64 128 (16 * KiB);
  mcp := MkMcpLimits (32 * KiB) 256;
  gracefulShutdownMs := 10000;
|}%Z.

Definition PRODUCTION_LIMITS : exc js_error (ServiceLimits Z) :=
  defineServiceLimits (map_limits num_of_Z production_values).

(** ** What accepted limits promise to the components that use them *)

Definition capacity_ok (c : CapacityLimits Z) : Prop :=
  (0 < maxItems c <= MAX_SAFE_INTEGER /\ 0 < maxBytes c <= MAX_SAFE_INTEGER)%Z.

Definition queue_ok (q : QueueLimits Z) : Prop :=
  capacity_ok (capacity q) /\ (0 < maxAgeMs q <= MAX_SAFE_INTEGER)%Z.

(** [limits_ok l]: every limit is a positive safe integer, and each nested
    budget fits inside the one that contains it. *)
Record limits_ok (l : ServiceLimits Z) : Prop := {
  ok_read : queue_ok (readQueue l);
  ok_write : queue_ok (writeQueue l);
  ok_revalidation : queue_ok (revalidationQueue l);
  ok_publication : capacity_ok (publication_limits l);
  ok_scalars : Forall (fun '(_, z) => 0 < z <= MAX_SAFE_INTEGER)%Z (scalarLimits l);
  ok_caller : (maxOperationsPerCaller l <= maxOperations l)%Z;
  ok_connection : (maxOperationsPerConnection l <= maxOperations l)%Z;
  ok_subscriptions : (maxSubscriptionsPerConnection l <= maxSubscriptions l)%Z;
  ok_ws : (ws_maxBytesPerConnection (webSocket l) <= ws_maxBytes (webSocket l))%Z;
  ok_ws_frame : (maxFrameBytes l < ws_maxBytesPerConnection (webSocket l))%Z;
  ok_sse : (sse_maxBytesPerStream (sse_limits l) <= sse_maxBytes (sse_limits l))%Z;
  ok_sse_frame : (maxFrameBytes l <= sse_maxBytesPerStream (sse_limits l))%Z;
  ok_resume : (maxBytesPerStream (resume l) <= resume_maxBytes (resume l))%Z;
  ok_shutdown : (gracefulShutdownMs l <= 0x7fffffff)%Z;
}.

Lemma int_of_of_Z z : (0 < z <= MAX_SAFE_INTEGER)%Z -> int_of (num_of_Z z) = z.
Proof. intros ?. unfold int_of. rewrite num_safe_of_Z by lia. done. Qed.

Lemma positiveSafeInteger_int_of n p z :
  positiveSafeInteger n p = Ret z ->
  int_of n = z /\ (0 < z <= MAX_SAFE_INTEGER)%Z.
Proof.
  intros H. apply positiveSafeInteger_ret in H as [H ?].
  pose proof (num_safe_integer_bound _ _ H). unfold int_of. rewrite H. cbn. lia.
Qed.

Lemma validateCapacityLimits_ret c p r :
  validateCapacityLimits c p = Ret r ->
  r = map_capacity int_of c /\ capacity_ok r.
Proof.
  unfold validateCapacityLimits. intros H. exc_inv. subst r.
  repeat match goal with
  | H : positiveSafeInteger _ _ = Ret _ |- _ => apply positiveSafeInteger_int_of in H as [<- ?]
  end. done.
Qed.

Lemma validateQueueLimits_ret q p r :
  validateQueueLimits q p = Ret r ->
  r = map_queue int_of q /\ queue_ok r.
Proof.
  unfold validateQueueLimits. intros H. exc_inv. subst r.
  apply validateCapacityLimits_ret in H as [-> ?].
  apply positiveSafeInteger_int_of in H0 as [<- ?]. done.
Qed.

Lemma scalarLimits_map {N M} (f : N -> M) l :
  scalarLimits (map_limits f l) = (prod_map id f) <$> scalarLimits l.
Proof. done. Qed.

Lemma limit_relations_sound l :
  exc_each (fun '(violated, message) => throw_if violated (RangeError message))
    (limit_relations l) = Ret tt ->
  Forall (fun '(violated, _) => violated = false) (limit_relations l).
Proof.
  rewrite exc_each_ret. intros H. eapply Forall_impl; [exact H|].
  intros [b m]. apply throw_if_ret.
Qed.

Theorem defineServiceLimits_sound l r :
  defineServiceLimits l = Ret r -> r = map_limits int_of l /\ limits_ok r.
Proof.
  unfold defineServiceLimits. intros H. exc_inv.
  repeat match goal with
  | H : validateQueueLimits _ _ = Ret _ |- _ => apply validateQueueLimits_ret in H as [-> ?]
  | H : validateCapacityLimits _ _ = Ret _ |- _ => apply validateCapacityLimits_ret in H as [-> ?]
  | u : unit |- _ => destruct u
  end. subst r. split; [done|].
  match goal with H : exc_each _ (limit_relations _) = _ |- _ =>
    apply limit_relations_sound in H as Hrel end.
  match goal with H : exc_each _ (scalarLimits _) = _ |- _ =>
    apply exc_each_ret in H as Hsc end.
  assert (Hall : Forall (fun '(_, z) => 0 < z <= MAX_SAFE_INTEGER)%Z
                   (scalarLimits (map_limits int_of l))).
  { rewrite scalarLimits_map. apply Forall_fmap. eapply Forall_impl; [exact Hsc|].
    intros [p n] (z & Hp & _)%exc_bind_ret. by apply positiveSafeInteger_int_of in Hp as [<- ?]. }
  unfold limit_relations in Hrel.
  repeat (apply Forall_cons in Hrel as [?%bool_decide_eq_false Hrel]).
  split; try done; lia.
Qed.

Lemma validateCapacityLimits_of_Z c p :
  capacity_ok c ->
  validateCapacityLimits (map_capacity num_of_Z c) p = Ret c.
Proof.
  intros [??]. unfold validateCapacityLimits; cbn -[num_of_Z].
  rewrite !positiveSafeInteger_of_Z by done. by destruct c.
Qed.

Lemma validateQueueLimits_of_Z q p :
  queue_ok q ->
  validateQueueLimits (map_queue num_of_Z q) p = Ret q.
Proof.
  intros [??]. unfold validateQueueLimits; cbn [capacity maxAgeMs map_queue].
  rewrite validateCapacityLimits_of_Z by done. cbn.
  rewrite positiveSafeInteger_of_Z by done. by destruct q.
Qed.

Lemma limits_ok_roundtrip l : limits_ok l -> map_limits int_of (map_limits num_of_Z l) = l.
Proof.
  intros [[[??] ?] [[??] ?] [[??] ?] [??] Hs _ _ _ _ _ _ _ _ _].
  unfold scalarLimits in Hs. cbn in Hs.
  repeat (apply Forall_cons in Hs as [? Hs]).
  destruct l as [????[[??]?][[??]?]?????[[??]?][???][???]??[????][???][??][????]?[???][??]?].
  unfold map_limits, map_queue, map_capacity; cbn in *. by rewrite !int_of_of_Z by done.
Qed.

Lemma int_of_pos z : (0 < int_of (num_of_Z z))%Z -> int_of (num_of_Z z) = z.
Proof.
  unfold int_of, num_safe_integer. rewrite num_integer_of_Z. by case_decide.
Qed.

Lemma limits_ok_int_of l :
  limits_ok (map_limits int_of (map_limits num_of_Z l)) ->
  map_limits int_of (map_limits num_of_Z l) = l.
Proof.
  intros [[[??] ?] [[??] ?] [[??] ?] [??] Hs _ _ _ _ _ _ _ _ _].
  unfold scalarLimits in Hs. cbn in *.
  repeat (apply Forall_cons in Hs as [? Hs]).
  destruct l as [????[[??]?][[??]?]?????[[??]?][???][???]??[????][???][??][????]?[???][??]?].
  unfold map_limits, map_queue, map_capacity; cbn in *. by rewrite !int_of_pos by lia.
Qed.

(** integer limits are accepted exactly when they are coherent (positive safe
    integers that satisfy every relation between limits), and are returned
    unchanged. *)
Theorem defineServiceLimits_iff (l r : ServiceLimits Z) :
  defineServiceLimits (map_limits num_of_Z l) = Ret r <-> limits_ok l /\ r = l.
Proof.
  split.
  - intros H. apply defineServiceLimits_sound in H as [-> Hok].
    pose proof (limits_ok_int_of _ Hok) as E. rewrite E in *. done.
  - intros [Hok ->]. unfold defineServiceLimits.
    change (readQueue (map_limits num_of_Z l)) with (map_queue num_of_Z (readQueue l)).
    change (writeQueue (map_limits num_of_Z l)) with (map_queue num_of_Z (writeQueue l)).
    change (revalidationQueue (map_limits num_of_Z l))
      with (map_queue num_of_Z (revalidationQueue l)).
    change (publication_limits (map_limits num_of_Z l))
      with (map_capacity num_of_Z (publication_limits l)).
    do 3 (rewrite validateQueueLimits_of_Z by apply Hok; cbn [mbind exc_bind]).
    rewrite validateCapacityLimits_of_Z by apply Hok. cbn [mbind exc_bind].
    assert (exc_each (fun '(path, value) => _ ← positiveSafeInteger value path; Ret tt)
      (scalarLimits (map_limits num_of_Z l)) = Ret tt) as ->.
    { apply exc_each_ret. rewrite scalarLimits_map. apply Forall_fmap.
      eapply Forall_impl; [apply Hok|]. intros [p z] ?. cbn.
      by rewrite positiveSafeInteger_of_Z. }
    cbn [mbind exc_bind]. rewrite limits_ok_roundtrip by done.
    assert (exc_each (fun '(violated, message) => throw_if violated (RangeError message))
      (limit_relations l) = Ret tt) as ->; [|done].
    apply exc_each_ret. unfold limit_relations. destruct Hok.
    repeat (apply Forall_cons; split; [apply throw_if_ret, bool_decide_eq_false; lia|]).
    by apply Forall_nil.
Qed.

(** The production limits are coherent. *)
Lemma production_limits_ok : limits_ok production_values.
Proof.
  split; cbn; unfold queue_ok, capacity_ok, MAX_SAFE_INTEGER, GiB, MiB, KiB; cbn; try lia.
  unfold scalarLimits, production_values, GiB, MiB, KiB; cbn.
  repeat (apply Forall_cons; split; [lia|]). by apply Forall_nil.
Qed.
