(* ===== verification/ExpiryHeap.v ===== *)
(** The binary expiry heap of [server/src/runtime/admission.ts].

    [pushExpiry] and [popExpiry] keep an array of pending admissions ordered by
    [earlier]: the expiry time, ties broken by the arrival sequence. An
    admission is named by its sequence number, so the array is a list of
    numbers and the expiry time a function of them. *)
From S2P Require Import Prelude.
From Stdlib Require Import Permutation.
Local Open Scope nat_scope.

Section heap.
Context (expiresAt : nat -> Z).

Definition earlier (left right : nat) : bool :=
  bool_decide (expiresAt left < expiresAt right)%Z ||
  (bool_decide (expiresAt left = expiresAt right)%Z && bool_decide (left < right)).

(** [(index - 1) >> 1] *)
Definition parent (index : nat) : nat := Nat.div (index - 1) 2.
Arguments parent : simpl never.

(** [\[heap[i], heap[j]\] = \[heap[j], heap[i]\]] *)
Definition swap (heap : list nat) (i j : nat) : list nat :=
  match heap !! i, heap !! j with
  | Some x, Some y => <[i := y]> (<[j := x]> heap)
  | _, _ => heap
  end.

(** The loop of [pushExpiry]; every turn at least halves [index]. *)
Fixpoint sift_up (fuel : nat) (heap : list nat) (index : nat) : list nat :=
  match fuel with
  | O => heap
  | S fuel =>
      if decide (0 < index) then
        if earlier (heap !!! index) (heap !!! parent index)
        then sift_up fuel (swap heap index (parent index)) (parent index)
        else heap
      else heap
  end.

Definition pushExpiry (heap : list nat) (entry : nat) : list nat :=
  sift_up (S (length heap)) (heap ++ [entry]) (length heap).

(** [if (heap\[child\] && earlier(heap\[child\], heap\[earliest\])) earliest = child] *)
Definition pick (heap : list nat) (child earliest : nat) : nat :=
  match heap !! child with
  | Some x => if earlier x (heap !!! earliest) then child else earliest
  | None => earliest
  end.

(** The loop of [popExpiry]; every turn moves [index] to one of its children. *)
Fixpoint sift_down (fuel : nat) (heap : list nat) (index : nat) : list nat :=
  match fuel with
  | O => heap
  | S fuel =>
      let left := index * 2 + 1 in
      let right := left + 1 in
      let earliest := pick heap right (pick heap left index) in
      if decide (earliest = index) then heap
      else sift_down fuel (swap heap index earliest) earliest
  end.

(** The removed root, and the array that remains. *)
Definition popExpiry (heap : list nat) : option nat * list nat :=
  match heap !! 0, last heap with
  | Some first, Some lst =>
      let rest := take (length heap - 1) heap in
      if decide (first = lst) then (Some first, rest)
      else (Some first, sift_down (length rest) (<[0 := lst]> rest) 0)
  | _, _ => (None, heap)
  end.

(** ** Order *)

(** [le a b]: [b] is not earlier than [a]. *)
Definition hle (a b : nat) : Prop := earlier b a = false.

Lemma earlier_spec a b :
  earlier a b = true <->
  (expiresAt a < expiresAt b)%Z \/ (expiresAt a = expiresAt b /\ a < b).
Proof.
  unfold earlier. rewrite orb_true_iff, andb_true_iff, !bool_decide_eq_true. done.
Qed.

Lemma hle_spec a b :
  hle a b <-> (expiresAt a < expiresAt b)%Z \/ (expiresAt a = expiresAt b /\ a <= b).
Proof.
  unfold hle. rewrite <- not_true_iff_false, earlier_spec. lia.
Qed.

Lemma hle_refl a : hle a a.
Proof. apply hle_spec. lia. Qed.

Lemma hle_trans a b c : hle a b -> hle b c -> hle a c.
Proof. rewrite !hle_spec. lia. Qed.

Lemma earlier_hle a b : earlier a b = true -> hle a b.
Proof. rewrite hle_spec, earlier_spec. lia. Qed.

Lemma hle_expiry a b : hle a b -> (expiresAt a <= expiresAt b)%Z.
Proof. rewrite hle_spec. lia. Qed.

(** ** Swapping *)

Lemma swap_length heap i j : length (swap heap i j) = length heap.
Proof. unfold swap. repeat case_match; rewrite ?length_insert; done. Qed.

Lemma swap_lookup heap i j k :
  i < length heap -> j < length heap -> k < length heap ->
  swap heap i j !!! k =
    if decide (k = i) then heap !!! j else if decide (k = j) then heap !!! i else heap !!! k.
Proof.
  intros Hi Hj Hk. unfold swap.
  rewrite (list_lookup_lookup_total_lt heap i), (list_lookup_lookup_total_lt heap j) by done.
  destruct (decide (k = i)) as [->|].
  { by rewrite list_lookup_total_insert_eq by (by rewrite length_insert). }
  rewrite list_lookup_total_insert_ne by done.
  destruct (decide (k = j)) as [->|].
  { by rewrite list_lookup_total_insert_eq. }
  by rewrite list_lookup_total_insert_ne.
Qed.

Lemma swap_permutation heap i j : swap heap i j ≡ₚ heap.
Proof.
  unfold swap. destruct (heap !! i) as [x|] eqn:Hi; [|done].
  destruct (heap !! j) as [y|] eqn:Hj; [|done].
  destruct (decide (i = j)) as [->|Hij].
  { simplify_eq. rewrite list_insert_insert_eq. by rewrite list_insert_id. }
  apply Permutation_inj. split; [by rewrite !length_insert|].
  exists (fun k => if decide (k = i) then j else if decide (k = j) then i else k).
  split.
  - intros k1 k2. repeat case_decide; lia || congruence.
  - intros k. assert (i < length heap) by (by eapply lookup_lt_Some).
    assert (j < length heap) by (by eapply lookup_lt_Some).
    destruct (decide (k = i)) as [->|].
    { rewrite list_lookup_insert_eq by (by rewrite length_insert). done. }
    rewrite list_lookup_insert_ne by done.
    destruct (decide (k = j)) as [->|].
    { by rewrite list_lookup_insert_eq. }
    by rewrite list_lookup_insert_ne.
Qed.

(** ** The heap order *)

Definition heap_ok (heap : list nat) : Prop :=
  forall j, 0 < j < length heap -> hle (heap !!! parent j) (heap !!! j).

(** The heap order fails at most between [i] and its parent. *)
Definition up_ok (heap : list nat) (i : nat) : Prop :=
  (forall j, 0 < j < length heap -> j <> i -> hle (heap !!! parent j) (heap !!! j)) /\
  (forall j, 0 < j < length heap -> parent j = i -> 0 < i ->
     hle (heap !!! parent i) (heap !!! j)).

(** The heap order fails at most between [i] and its children. *)
Definition down_ok (heap : list nat) (i : nat) : Prop :=
  (forall j, 0 < j < length heap -> parent j <> i -> hle (heap !!! parent j) (heap !!! j)) /\
  (forall j, 0 < j < length heap -> parent j = i -> 0 < i ->
     hle (heap !!! parent i) (heap !!! j)).

Lemma parent_spec i : 0 < i -> i = 2 * parent i + 1 \/ i = 2 * parent i + 2.
Proof.
  intros Hi. unfold parent. pose proof (Nat.div_mod_eq (i - 1) 2).
  pose proof (Nat.mod_upper_bound (i - 1) 2). lia.
Qed.

Lemma parent_lt i : 0 < i -> parent i < i.
Proof. intros Hi. destruct (parent_spec i Hi); lia. Qed.


Lemma up_ok_step heap i :
  i < length heap -> 0 < i -> up_ok heap i ->
  earlier (heap !!! i) (heap !!! parent i) = true ->
  up_ok (swap heap i (parent i)) (parent i).
Proof.
  intros Hi H0 [Hup Hgp] He. apply earlier_hle in He.
  pose proof (parent_lt i H0) as Hp. split; intros j; rewrite swap_length; intros Hj.
  - intros Hne. pose proof (parent_lt j (proj1 Hj)).
    rewrite !swap_lookup by lia. rewrite (decide_False (P := j = parent i)) by done.
    destruct (decide (parent j = i)) as [E|E].
    { rewrite (decide_False (P := j = i)) by lia. by apply Hgp. }
    destruct (decide (j = i)) as [->|Hji].
    { by rewrite decide_True. }
    destruct (decide (parent j = parent i)) as [E'|]; [|by apply Hup].
    eapply hle_trans; [exact He|]. rewrite <- E'. by apply Hup.
  - intros Hpj Hpp. pose proof (parent_lt (parent i) Hpp). pose proof (parent_lt j (proj1 Hj)).
    rewrite !swap_lookup by lia.
    rewrite (decide_False (P := parent (parent i) = i)) by lia.
    rewrite (decide_False (P := parent (parent i) = parent i)) by lia.
    rewrite (decide_False (P := j = parent i)) by lia.
    assert (Hgi : hle (heap !!! parent (parent i)) (heap !!! parent i)) by (apply Hup; lia).
    destruct (decide (j = i)) as [->|Hji]; [done|].
    eapply hle_trans; [exact Hgi|]. rewrite <- Hpj. by apply Hup.
Qed.

Lemma up_ok_done heap i :
  up_ok heap i -> (0 < i < length heap -> hle (heap !!! parent i) (heap !!! i)) -> heap_ok heap.
Proof. intros [Hup _] Hi j Hj. destruct (decide (j = i)) as [->|]; auto. Qed.

Lemma sift_up_ok fuel heap i :
  i < fuel -> i < length heap -> up_ok heap i -> heap_ok (sift_up fuel heap i).
Proof.
  revert heap i. induction fuel as [|fuel IH]; intros heap i Hf Hi Hup; [lia|].
  cbn [sift_up]. case_decide as H0; cycle 1.
  { eapply up_ok_done; [done|lia]. }
  destruct (earlier (heap !!! i) (heap !!! parent i)) eqn:He.
  - pose proof (parent_lt i H0). apply IH; rewrite ?swap_length; [lia..|].
    by apply up_ok_step.
  - by eapply up_ok_done.
Qed.

Lemma sift_up_permutation fuel heap i : sift_up fuel heap i ≡ₚ heap.
Proof.
  revert heap i. induction fuel as [|fuel IH]; intros heap i; cbn [sift_up]; [done|].
  case_decide; [|done]. case_match; [|done]. rewrite IH. apply swap_permutation.
Qed.

Lemma pushExpiry_permutation heap entry : pushExpiry heap entry ≡ₚ entry :: heap.
Proof. unfold pushExpiry. rewrite sift_up_permutation. by rewrite Permutation_app_comm. Qed.

Lemma pushExpiry_ok heap entry : heap_ok heap -> heap_ok (pushExpiry heap entry).
Proof.
  intros Hok. unfold pushExpiry. apply sift_up_ok; [lia|rewrite length_app; cbn; lia|].
  split; intros j; rewrite length_app; cbn; intros Hj.
  - intros Hne. pose proof (parent_lt j (proj1 Hj)).
    rewrite !lookup_total_app_l by lia. apply Hok. lia.
  - intros Hp Hl. pose proof (parent_lt j (proj1 Hj)). lia.
Qed.

(** ** Removing the root *)

Lemma pick_spec heap child i :
  i < length heap ->
  let c := pick heap child i in
  (c = i \/ (c = child /\ child < length heap)) /\
  hle (heap !!! c) (heap !!! i) /\
  (child < length heap -> hle (heap !!! c) (heap !!! child)) /\
  c < length heap.
Proof.
  intros Hi. cbn. unfold pick. destruct (heap !! child) as [x|] eqn:Hx.
  - apply list_lookup_total_correct in Hx as Hx'. apply lookup_lt_Some in Hx.
    rewrite <- Hx'. destruct (earlier _ _) eqn:He.
    + split_and!; auto using hle_refl, earlier_hle.
    + split_and!; auto using hle_refl.
  - apply lookup_ge_None in Hx. split_and!; auto using hle_refl. lia.
Qed.

Lemma parent_children j i : 0 < j -> parent j = i -> j = i * 2 + 1 \/ j = i * 2 + 1 + 1.
Proof. intros Hj <-. destruct (parent_spec j Hj); lia. Qed.

Lemma down_ok_step heap i c :
  i < length heap -> c < length heap -> 0 < c -> parent c = i -> down_ok heap i ->
  hle (heap !!! c) (heap !!! i) ->
  (forall j, 0 < j < length heap -> parent j = i -> hle (heap !!! c) (heap !!! j)) ->
  down_ok (swap heap i c) c.
Proof.
  intros Hi Hc H0 Hp [Hd Hg] Hle Hmin. pose proof (parent_lt c H0).
  split; intros j; rewrite swap_length; intros Hj.
  - intros Hne. pose proof (parent_lt j (proj1 Hj)).
    rewrite !swap_lookup by lia. rewrite (decide_False (P := parent j = c)) by done.
    destruct (decide (parent j = i)) as [E|E].
    { rewrite (decide_False (P := j = i)) by lia.
      destruct (decide (j = c)) as [->|]; [done|]. by apply Hmin. }
    destruct (decide (j = i)) as [->|Hji].
    { apply Hg; [lia|done|lia]. }
    rewrite decide_False by congruence. by apply Hd.
  - intros Hpj _. pose proof (parent_lt j (proj1 Hj)).
    rewrite !swap_lookup by lia.
    rewrite Hp, (decide_True (P := i = i)) by done.
    rewrite (decide_False (P := j = i)), (decide_False (P := j = c)) by lia.
    rewrite <- Hpj. apply Hd; [done|]. lia.
Qed.

Lemma sift_down_ok fuel heap i :
  length heap <= fuel + i -> i < length heap -> down_ok heap i ->
  heap_ok (sift_down fuel heap i).
Proof.
  revert heap i. induction fuel as [|fuel IH]; intros heap i Hf Hi Hd; [lia|].
  cbn [sift_down].
  destruct (pick_spec heap (i * 2 + 1) i Hi) as (Hc1 & Hle1 & Hl & Hlt1).
  set (e1 := pick heap (i * 2 + 1) i) in *.
  destruct (pick_spec heap (i * 2 + 1 + 1) e1 Hlt1) as (Hc2 & Hle2 & Hr & Hlt2).
  set (e2 := pick heap (i * 2 + 1 + 1) e1) in *.
  assert (Hmin : forall j, 0 < j < length heap -> parent j = i -> hle (heap !!! e2) (heap !!! j)).
  { intros j Hj Hp. destruct (parent_children j i (proj1 Hj) Hp) as [->| ->].
    - eapply hle_trans; [exact Hle2|]. apply Hl, Hj.
    - apply Hr, Hj. }
  case_decide as He.
  - intros j Hj. destruct (decide (parent j = i)) as [Hp|Hp].
    + rewrite Hp, <- He. by apply Hmin.
    + by apply Hd.
  - assert (e2 = i * 2 + 1 \/ e2 = i * 2 + 1 + 1) by (destruct Hc1, Hc2; lia).
    apply IH; rewrite ?swap_length; [lia..|].
    apply down_ok_step; auto; try lia.
    + pose proof (parent_spec e2 ltac:(lia)). lia.
    + by eapply hle_trans.
Qed.

Lemma sift_down_permutation fuel heap i : sift_down fuel heap i ≡ₚ heap.
Proof.
  revert heap i. induction fuel as [|fuel IH]; intros heap i; cbn [sift_down]; [done|].
  case_decide; [done|]. rewrite IH. apply swap_permutation.
Qed.

(** In a heap the root is the earliest member. *)
Lemma heap_ok_root heap first j :
  heap_ok heap -> heap !! 0 = Some first -> j < length heap -> hle first (heap !!! j).
Proof.
  intros Hok Hf. apply list_lookup_total_correct in Hf. subst first.
  induction j as [j IH] using lt_wf_ind. intros Hj.
  destruct (decide (j = 0)) as [->|]; [apply hle_refl|].
  pose proof (parent_lt j ltac:(lia)).
  eapply hle_trans; [apply (IH (parent j)); lia|]. apply Hok. lia.
Qed.

(** [popExpiry] removes the earliest member and leaves a heap of the others. *)
Lemma popExpiry_spec heap :
  NoDup heap -> heap_ok heap ->
  match popExpiry heap with
  | (Some first, rest) =>
      heap !! 0 = Some first /\ heap ≡ₚ first :: rest /\ heap_ok rest /\
      (forall x, x ∈ rest -> hle first x)
  | (None, rest) => heap = [] /\ rest = []
  end.
Proof.
  intros Hnd Hok. destruct heap as [|first tl]; [done|].
  assert (Hmin : forall x, x ∈ tl -> hle first x).
  { intros x Hx. apply list_elem_of_lookup in Hx as [k Hk].
    pose proof (lookup_lt_Some _ _ _ Hk).
    pose proof (heap_ok_root (first :: tl) first (S k) Hok eq_refl ltac:(cbn; lia)) as Hr.
    by rewrite (list_lookup_total_correct (first :: tl) (S k) x Hk) in Hr. }
  unfold popExpiry. cbn [lookup list_lookup].
  destruct tl as [|lst tl _] using rev_ind; cbn [last].
  { rewrite decide_True by done. cbn. split_and!; [done..| |]; [intros j; cbn; lia|set_solver]. }
  rewrite app_comm_cons, last_snoc, length_app. cbn [length].
  replace (S (length tl) + 1 - 1) with (length (first :: tl)) by (cbn; lia).
  rewrite take_app_length.
  assert (first <> lst) by (intros ->; apply NoDup_cons in Hnd as [Hnd _]; set_solver).
  rewrite decide_False by done. cbn [insert list_insert].
  assert (Hperm : forall n, sift_down n (lst :: tl) 0 ≡ₚ tl ++ [lst]).
  { intros n. rewrite sift_down_permutation. by rewrite Permutation_cons_append. }
  split_and!.
  - done.
  - rewrite <- app_comm_cons. by rewrite Hperm.
  - apply sift_down_ok; [cbn; lia..|]. split; intros j Hj; [|lia].
    intros Hp. cbn [length] in Hj. pose proof (parent_lt j (proj1 Hj)).
    specialize (Hok j). cbn [app length] in Hok. rewrite length_app in Hok. cbn in Hok.
    destruct j as [|j]; [lia|]. destruct (parent (S j)) as [|p]; [done|].
    change ((lst :: tl) !!! S p) with (tl !!! p). change ((lst :: tl) !!! S j) with (tl !!! j).
    change ((first :: tl ++ [lst]) !!! S p) with ((tl ++ [lst]) !!! p) in Hok.
    change ((first :: tl ++ [lst]) !!! S j) with ((tl ++ [lst]) !!! j) in Hok.
    rewrite !lookup_total_app_l in Hok by lia. apply Hok. lia.
  - intros x. rewrite Hperm. apply Hmin.
Qed.
End heap.
