(* ===== verification/Admission.v ===== *)
(** The admission queue: [server/src/runtime/admission.ts].

    A queue holds pending admissions in three structures at once: the arrival
    list (doubly linked through [previous]/[next]), one fairness group per key
    (doubly linked through [previousInGroup]/[nextInGroup]) when the discipline
    is round-robin, and the expiry heap, from which settled admissions are
    removed lazily. An admission is an object named by its [sequence]; its
    mutable fields are finite maps from names ([q_active] holds the names whose
    [active] is true). Promises are the log [q_settled] of the settlements the
    code performs, in order. *)
From S2P Require Import Prelude Errors Limits Dll ExpiryHeap.
Local Open Scope string_scope.

Inductive AdmissionDiscipline : Type := fifo | round_robin.

Inductive AdmissionRejectionReason : Type :=
  | by_items | by_bytes | by_age | by_deadline | by_canceled | by_closed.

#[export] Instance AdmissionDiscipline_eq_dec : EqDecision AdmissionDiscipline.
Proof. solve_decision. Defined.
#[export] Instance AdmissionRejectionReason_eq_dec : EqDecision AdmissionRejectionReason.
Proof. solve_decision. Defined.

Definition reason_string (r : AdmissionRejectionReason) : string :=
  match r with
  | by_items => "items" | by_bytes => "bytes" | by_age => "age"
  | by_deadline => "deadline" | by_canceled => "canceled" | by_closed => "closed"
  end.

(** The constructor of [AdmissionRejected], which is an [AckerDBError]. *)
Definition AdmissionRejected (reason : AdmissionRejectionReason)
    (resource : ResourceClass) (retryAfterMs : Z) : exc js_error AckerDBError :=
  let cap := bool_decide (reason = by_items) || bool_decide (reason = by_bytes) in
  let code :=
    if cap then overloaded_
    else if bool_decide (reason = by_age) || bool_decide (reason = by_deadline)
    then deadline_exceeded
    else if bool_decide (reason = by_closed) then draining
    else unavailable_ in
  new_AckerDBError code ("Admission rejected: " +:+ reason_string reason)
    {| opt_retryable := Some cap;
       opt_retryAfterMs := if cap then Some (num_of_Z retryAfterMs) else None;
       opt_resource := Some resource;
       opt_committed := false |}.

(** [AbortSignal]: [enqueue] reads [aborted] twice. *)
Record AbortSignal : Type := {
  aborted : bool;
  aborted_after_listening : bool;
}.

Record AdmissionRequestOptions : Type := {
  req_bytes : num;
  req_fairnessKey : option string;
  req_deadlineMs : option ms;
  req_signal : option AbortSignal;
}.

Record PendingAdmission (T : Type) : Type := MkPending {
  sequence : nat;
  value : T;
  fairnessKey : option string;
  bytes : Z;
  enqueuedAtMs : Z;
  expiresAtMs : Z;
  expiresBy : AdmissionRejectionReason;
}.
Arguments MkPending {T}. Arguments sequence {T}. Arguments value {T}.
Arguments fairnessKey {T}. Arguments bytes {T}. Arguments enqueuedAtMs {T}.
Arguments expiresAtMs {T}. Arguments expiresBy {T}.

Record AdmissionLease (T : Type) : Type := MkLease {
  lease_value : T;
  lease_fairnessKey : option string;
  lease_bytes : Z;
  lease_enqueuedAtMs : Z;
  lease_admittedAtMs : Z;
  lease_queueAgeMs : Z;
  lease_turn : nat;
}.
Arguments MkLease {T}. Arguments lease_value {T}. Arguments lease_fairnessKey {T}.
Arguments lease_bytes {T}. Arguments lease_enqueuedAtMs {T}. Arguments lease_admittedAtMs {T}.
Arguments lease_queueAgeMs {T}. Arguments lease_turn {T}.

(** A call of one of the two resolving functions of a ticket. *)
Inductive Settlement (T : Type) : Type :=
  | Resolved (lease : AdmissionLease T)
  | Rejected (reason : AdmissionRejectionReason).
Arguments Resolved {T}. Arguments Rejected {T}.

(** What [enqueue] returns: an already rejected promise or a pending ticket. *)
Inductive Ticket : Type :=
  | RejectedImmediately (reason : AdmissionRejectionReason)
  | Pending (sequence : nat).

Record AdmissionConfig : Type := {
  q_discipline : AdmissionDiscipline;
  q_limits : QueueLimits Z;
  q_resource : ResourceClass;
  q_retryAfterMs : Z;
}.

(** The fairness groups: the [Map] from keys to group objects, the group each
    admission points to, and the list each group object spells. *)
Record Groups : Type := MkGroups {
  g_map : list (string * nat);
  g_of : gmap nat nat;
  g_lists : gmap nat dll;
  g_fresh : nat;
}.

Record AdmissionQueue (T : Type) : Type := MkQueue {
  q_config : AdmissionConfig;
  q_entries : gmap nat (PendingAdmission T);
  q_active : gset nat;
  q_list : dll;
  q_groups : Groups;
  q_expiryHeap : list nat;
  q_rejectionTotals : AdmissionRejectionReason -> nat;
  q_queuedItems : Z;
  q_queuedBytes : Z;
  q_sequence : nat;
  q_turns : nat;
  q_admitted : nat;
  q_isClosed : bool;
  q_settled : list (nat * Settlement T);
}.
Arguments MkQueue {T}. Arguments q_config {T}. Arguments q_entries {T}. Arguments q_active {T}.
Arguments q_list {T}. Arguments q_groups {T}. Arguments q_expiryHeap {T}.
Arguments q_rejectionTotals {T}. Arguments q_queuedItems {T}. Arguments q_queuedBytes {T}.
Arguments q_sequence {T}. Arguments q_turns {T}. Arguments q_admitted {T}.
Arguments q_isClosed {T}. Arguments q_settled {T}.

Definition count_reason (totals : AdmissionRejectionReason -> nat)
    (reason : AdmissionRejectionReason) : AdmissionRejectionReason -> nat :=
  fun r => if decide (r = reason) then S (totals r) else totals r.

Section operations.
Context {T : Type}.
Implicit Types (q : AdmissionQueue T) (e : PendingAdmission T).

(** Assignments to the fields of the queue. *)
Definition set_members q (active : gset nat) (l : dll) (g : Groups) (items by_ : Z) : AdmissionQueue T :=
  {| q_config := q_config q; q_entries := q_entries q; q_active := active;
     q_list := l; q_groups := g; q_expiryHeap := q_expiryHeap q;
     q_rejectionTotals := q_rejectionTotals q; q_queuedItems := items; q_queuedBytes := by_;
     q_sequence := q_sequence q; q_turns := q_turns q; q_admitted := q_admitted q;
     q_isClosed := q_isClosed q; q_settled := q_settled q |}.

Definition set_groups q (g : Groups) : AdmissionQueue T :=
  set_members q (q_active q) (q_list q) g (q_queuedItems q) (q_queuedBytes q).

Definition set_heap q (heap : list nat) : AdmissionQueue T :=
  {| q_config := q_config q; q_entries := q_entries q; q_active := q_active q;
     q_list := q_list q; q_groups := q_groups q; q_expiryHeap := heap;
     q_rejectionTotals := q_rejectionTotals q; q_queuedItems := q_queuedItems q;
     q_queuedBytes := q_queuedBytes q; q_sequence := q_sequence q; q_turns := q_turns q;
     q_admitted := q_admitted q; q_isClosed := q_isClosed q; q_settled := q_settled q |}.

Definition reject_total q (reason : AdmissionRejectionReason) : AdmissionQueue T :=
  {| q_config := q_config q; q_entries := q_entries q; q_active := q_active q;
     q_list := q_list q; q_groups := q_groups q; q_expiryHeap := q_expiryHeap q;
     q_rejectionTotals := count_reason (q_rejectionTotals q) reason;
     q_queuedItems := q_queuedItems q; q_queuedBytes := q_queuedBytes q;
     q_sequence := q_sequence q; q_turns := q_turns q;
     q_admitted := q_admitted q; q_isClosed := q_isClosed q; q_settled := q_settled q |}.

Definition settle q (s : nat) (what : Settlement T) : AdmissionQueue T :=
  {| q_config := q_config q; q_entries := q_entries q; q_active := q_active q;
     q_list := q_list q; q_groups := q_groups q; q_expiryHeap := q_expiryHeap q;
     q_rejectionTotals := q_rejectionTotals q; q_queuedItems := q_queuedItems q;
     q_queuedBytes := q_queuedBytes q; q_sequence := q_sequence q; q_turns := q_turns q;
     q_admitted := q_admitted q; q_isClosed := q_isClosed q;
     q_settled := q_settled q ++ [(s, what)] |}.

(** Creating the [PendingAdmission] object, [sequence: ++this.sequence]. *)
Definition create q e : AdmissionQueue T :=
  {| q_config := q_config q; q_entries := <[sequence e := e]> (q_entries q);
     q_active := {[sequence e]} ∪ q_active q;
     q_list := q_list q; q_groups := q_groups q; q_expiryHeap := q_expiryHeap q;
     q_rejectionTotals := q_rejectionTotals q; q_queuedItems := q_queuedItems q;
     q_queuedBytes := q_queuedBytes q; q_sequence := sequence e; q_turns := q_turns q;
     q_admitted := q_admitted q; q_isClosed := q_isClosed q; q_settled := q_settled q |}.

(** [++this.turns; this.admitted++] *)
Definition count_turn q : AdmissionQueue T :=
  {| q_config := q_config q; q_entries := q_entries q; q_active := q_active q;
     q_list := q_list q; q_groups := q_groups q; q_expiryHeap := q_expiryHeap q;
     q_rejectionTotals := q_rejectionTotals q; q_queuedItems := q_queuedItems q;
     q_queuedBytes := q_queuedBytes q; q_sequence := q_sequence q;
     q_turns := S (q_turns q); q_admitted := S (q_admitted q);
     q_isClosed := q_isClosed q; q_settled := q_settled q |}.

Definition set_closed q : AdmissionQueue T :=
  {| q_config := q_config q; q_entries := q_entries q; q_active := q_active q;
     q_list := q_list q; q_groups := q_groups q; q_expiryHeap := q_expiryHeap q;
     q_rejectionTotals := q_rejectionTotals q; q_queuedItems := q_queuedItems q;
     q_queuedBytes := q_queuedBytes q; q_sequence := q_sequence q; q_turns := q_turns q;
     q_admitted := q_admitted q; q_isClosed := true; q_settled := q_settled q |}.

(** The expiry of a named admission, as the heap compares it. *)
Definition expiry_of q (s : nat) : Z :=
  match q_entries q !! s with Some e => expiresAtMs e | None => 0 end.

(** The constructor. *)
Definition new_AdmissionQueue (discipline : AdmissionDiscipline) (limits : QueueLimits num)
    (resource : ResourceClass) (retryAfterMs : option num) : exc js_error (AdmissionQueue T) :=
  retry ← match num_safe_integer (default (num_of_Z 0) retryAfterMs) with
          | Some z => if bool_decide (0 <= z <= 30000)%Z then Ret z
                      else Throw (RangeError "retryAfterMs must be an integer from 0 through 30000")
          | None => Throw (RangeError "retryAfterMs must be an integer from 0 through 30000")
          end;
  valid ← validateQueueLimits limits "queue";
  Ret {| q_config := {| q_discipline := discipline; q_limits := valid;
                        q_resource := resource; q_retryAfterMs := retry |};
         q_entries := ∅; q_active := ∅; q_list := dll_empty;
         q_groups := MkGroups [] ∅ ∅ 0; q_expiryHeap := [];
         q_rejectionTotals := fun _ => O; q_queuedItems := 0; q_queuedBytes := 0;
         q_sequence := 0; q_turns := 0; q_admitted := 0; q_isClosed := false;
         q_settled := [] |}.

Definition readNow (clock : ms) : exc js_error Z :=
  match clock with
  | Finite t => Ret t
  | NonFinite => Throw (RangeError "clock must return a finite millisecond value")
  end.

Definition rejectImmediately q (reason : AdmissionRejectionReason) : AdmissionQueue T * Ticket :=
  (reject_total q reason, RejectedImmediately reason).

(** The round-robin half of [append]. *)
Definition append_group (g : Groups) (key : string) (s : nat) : Groups :=
  let '(group, g) :=
    match jmap_get key (g_map g) with
    | Some group => (group, g)
    | None => (g_fresh g,
               MkGroups (jmap_set key (g_fresh g) (g_map g)) (g_of g)
                 (<[g_fresh g := dll_empty]> (g_lists g)) (S (g_fresh g)))
    end in
  MkGroups (g_map g) (<[s := group]> (g_of g))
    (alter (fun d => dll_append d s) group (g_lists g)) (g_fresh g).

Definition append q e : AdmissionQueue T :=
  set_members q (q_active q) (dll_append (q_list q) (sequence e))
    (if decide (q_discipline (q_config q) = round_robin)
     then append_group (q_groups q) (default EmptyString (fairnessKey e)) (sequence e)
     else q_groups q)
    (q_queuedItems q + 1) (q_queuedBytes q + bytes e).

(** The group half of [detach]. *)
Definition detach_group (g : Groups) (key : string) (s : nat) : Groups :=
  match g_of g !! s with
  | None => g
  | Some group =>
      let lists := alter (fun d => dll_detach d s) group (g_lists g) in
      let emptied := match lists !! group with
                     | Some d => bool_decide (dll_head d = None)
                     | None => true
                     end in
      MkGroups (if emptied then jmap_delete key (g_map g) else g_map g)
        (g_of g) lists (g_fresh g)
  end.

Definition detach q (s : nat) : AdmissionQueue T :=
  if decide (s ∈ q_active q) then
    match q_entries q !! s with
    | Some e =>
        set_members q (q_active q ∖ {[s]}) (dll_detach (q_list q) s)
          (detach_group (q_groups q) (default EmptyString (fairnessKey e)) s)
          (q_queuedItems q - 1) (q_queuedBytes q - bytes e)
    | None => q
    end
  else q.

Definition rejectEntry q (s : nat) (reason : AdmissionRejectionReason) : AdmissionQueue T :=
  if decide (s ∈ q_active q) then
    settle (reject_total (detach q s) reason) s (Rejected reason)
  else q.

(** [onAbort], also the abort event of a signal passed to [enqueue]: [detach]
    removes the listener, after which [rejectEntry] does nothing. *)
Definition onAbort q (s : nat) : AdmissionQueue T := rejectEntry q s by_canceled.

Definition push q (s : nat) : AdmissionQueue T :=
  set_heap q (pushExpiry (expiry_of q) (q_expiryHeap q) s).

Definition pop q : option nat * AdmissionQueue T :=
  let '(first, heap) := popExpiry (expiry_of q) (q_expiryHeap q) in (first, set_heap q heap).

(** [while (heap\[0\] && !heap\[0\].active) popExpiry()], one turn per member. *)
Fixpoint discard_loop (fuel : nat) q : AdmissionQueue T :=
  match fuel with
  | O => q
  | S fuel =>
      match q_expiryHeap q !! 0%nat with
      | Some s => if decide (s ∈ q_active q) then q else discard_loop fuel (snd (pop q))
      | None => q
      end
  end.

Definition discardInactiveExpiryHeads q : AdmissionQueue T :=
  discard_loop (length (q_expiryHeap q)) q.

(** The loop of [expire]; every turn pops one member of the heap. *)
Fixpoint expire_loop (fuel : nat) q (now : Z) (expired : nat) : nat * AdmissionQueue T :=
  match fuel with
  | O => (expired, q)
  | S fuel =>
      match q_expiryHeap q !! 0%nat with
      | Some s =>
          if bool_decide (expiry_of q s <= now)%Z then
            let q1 := snd (pop q) in
            let '(q2, expired) :=
              if decide (s ∈ q_active q1) then
                (match q_entries q1 !! s with
                 | Some e => rejectEntry q1 s (expiresBy e)
                 | None => q1
                 end, S expired)
              else (q1, expired) in
            expire_loop fuel (discardInactiveExpiryHeads q2) now expired
          else (expired, q)
      | None => (expired, q)
      end
  end.

Definition expire q (now : ms) : exc js_error (nat * AdmissionQueue T) :=
  match now with
  | NonFinite => Throw (RangeError "now must be finite")
  | Finite now =>
      Ret (expire_loop (length (q_expiryHeap q)) (discardInactiveExpiryHeads q) now 0)
  end.

(** The [PendingAdmission] object [enqueue] builds. *)
Definition pending_of q (now : Z) (v : T) (b : Z) (o : AdmissionRequestOptions) : PendingAdmission T :=
  let ageExpiry := (now + maxAgeMs (q_limits (q_config q)))%Z in
  let deadline := match req_deadlineMs o with
                  | Some (Finite d) => if decide (d <= ageExpiry)%Z then Some d else None
                  | _ => None
                  end in
  {| sequence := S (q_sequence q);
     value := v;
     fairnessKey := req_fairnessKey o;
     bytes := b;
     enqueuedAtMs := now;
     expiresAtMs := default ageExpiry deadline;
     expiresBy := match deadline with Some _ => by_deadline | None => by_age end |}.

Definition enqueue q (clock : ms) (v : T) (o : AdmissionRequestOptions)
    : exc js_error (AdmissionQueue T * Ticket) :=
  b ← match num_safe_integer (req_bytes o) with
      | Some b => if bool_decide (b < 0)%Z
                  then Throw (RangeError "bytes must be a non-negative safe integer") else Ret b
      | None => Throw (RangeError "bytes must be a non-negative safe integer")
      end;
  _ ← throw_if
        (bool_decide (q_discipline (q_config q) = round_robin) &&
         match req_fairnessKey o with None => true | Some k => bool_decide (k = EmptyString) end)
        (TypeError "round-robin admission requires a non-empty fairnessKey");
  _ ← throw_if (match req_deadlineMs o with Some NonFinite => true | _ => false end)
        (RangeError "deadlineMs must be finite");
  now ← readNow clock;
  let limits := capacity (q_limits (q_config q)) in
  if q_isClosed q then Ret (rejectImmediately q by_closed)
  else if match req_signal o with Some sg => aborted sg | None => false end
  then Ret (rejectImmediately q by_canceled)
  else if match req_deadlineMs o with Some (Finite d) => bool_decide (d <= now)%Z | _ => false end
  then Ret (rejectImmediately q by_deadline)
  else if bool_decide (maxItems limits <= q_queuedItems q)%Z
  then Ret (rejectImmediately q by_items)
  else if bool_decide (maxBytes limits - q_queuedBytes q < b)%Z
  then Ret (rejectImmediately q by_bytes)
  else
    let e := pending_of q now v b o in
    let q := push (append (create q e) e) (sequence e) in
    let q := if match req_signal o with Some sg => aborted_after_listening sg | None => false end
             then onAbort q (sequence e) else q in
    Ret (q, Pending (sequence e)).

(** [this.groups.entries().next().value] *)
Definition first_group q : option (string * nat) := head (g_map (q_groups q)).

Definition group_head q (group : nat) : option nat := g_lists (q_groups q) !! group ≫= dll_head.

(** Move a still populated group to the end of the [Map]. *)
Definition rotate q (key : option string) (served : option nat) : AdmissionQueue T :=
  match served, key with
  | Some group, Some key =>
      if bool_decide (is_Some (group_head q group)) then
        let g := q_groups q in
        set_groups q (MkGroups (jmap_set key group (jmap_delete key (g_map g)))
                        (g_of g) (g_lists g) (g_fresh g))
      else q
  | _, _ => q
  end.

Definition lease_of q e (now : Z) : AdmissionLease T :=
  {| lease_value := value e;
     lease_fairnessKey := fairnessKey e;
     lease_bytes := bytes e;
     lease_enqueuedAtMs := enqueuedAtMs e;
     lease_admittedAtMs := now;
     lease_queueAgeMs := Z.max 0 (now - enqueuedAtMs e);
     lease_turn := S (q_turns q) |}.

Definition take q (clock : ms) : exc js_error (option (AdmissionLease T) * AdmissionQueue T) :=
  now ← readNow clock;
  '(_, q) ← expire q (Finite now);
  let '(entry, served) :=
    match q_discipline (q_config q) with
    | fifo => (dll_head (q_list q), None)
    | round_robin =>
        match first_group q with
        | Some (_, group) => (group_head q group, Some group)
        | None => (None, None)
        end
    end in
  match entry ≫= fun s => q_entries q !! s with
  | None => Ret (None, q)
  | Some e =>
      let q := rotate (detach q (sequence e)) (fairnessKey e) served in
      let lease := lease_of q e now in
      Ret (Some lease, settle (count_turn q) (sequence e) (Resolved lease))
  end.

(** [while (this.head) this.rejectEntry(this.head, "closed")], at most one
    turn per active admission. *)
Fixpoint close_loop (fuel : nat) q : AdmissionQueue T :=
  match fuel with
  | O => q
  | S fuel =>
      match dll_head (q_list q) with
      | Some s => close_loop fuel (rejectEntry q s by_closed)
      | None => q
      end
  end.

Definition close q : AdmissionQueue T :=
  if q_isClosed q then q else close_loop (size (q_active q)) (set_closed q).

Record AdmissionQueueSnapshot : Type := {
  s_discipline : AdmissionDiscipline;
  s_resource : ResourceClass;
  s_queuedItems : Z;
  s_queuedBytes : Z;
  s_oldestAgeMs : Z;
  s_nextExpiryAtMs : option Z;
  s_activeFairnessKeys : nat;
  s_turns : nat;
  s_admitted : nat;
  s_rejected : AdmissionRejectionReason -> nat;
  s_closed : bool;
}.

Definition snapshot q (clock : ms) : exc js_error (AdmissionQueueSnapshot * AdmissionQueue T) :=
  now ← readNow clock;
  '(_, q) ← expire q (Finite now);
  let q := discardInactiveExpiryHeads q in
  Ret ({| s_discipline := q_discipline (q_config q);
          s_resource := q_resource (q_config q);
          s_queuedItems := q_queuedItems q;
          s_queuedBytes := q_queuedBytes q;
          s_oldestAgeMs :=
            match dll_head (q_list q) ≫= fun s => q_entries q !! s with
            | Some e => Z.max 0 (now - enqueuedAtMs e)
            | None => 0
            end;
          s_nextExpiryAtMs := (expiry_of q) <$> q_expiryHeap q !! 0%nat;
          s_activeFairnessKeys := if decide (q_discipline (q_config q) = round_robin)
                                  then length (g_map (q_groups q)) else 0;
          s_turns := q_turns q;
          s_admitted := q_admitted q;
          s_rejected := q_rejectionTotals q;
          s_closed := q_isClosed q |}, q).
End operations.
