(* ===== verification/FairnessGroups.v ===== *)
(** The fairness groups of the admission queue keep, for every key, the
    pending admissions of that key in arrival order, and nothing else. *)
From S2P Require Import Prelude Dll Admission.

Section groups.
(** [key s] is the fairness key of the admission [s]. *)
Context (key : nat -> string).

Definition members_of (k : string) (l : list nat) : list nat := filter (fun s => key s = k) l.

(** [groups_ok bound g l]: [g] groups the members of [l]; no admission named
    above [bound] has been linked yet. *)
Record groups_ok (bound : nat) (g : Groups) (l : list nat) : Prop := {
  go_keys : NoDup ((g_map g).*1);
  go_ids : NoDup ((g_map g).*2);
  go_fresh : forall i, is_Some (g_lists g !! i) -> (i < g_fresh g)%nat;
  go_lists : forall k i, (k, i) ∈ g_map g ->
    exists d, g_lists g !! i = Some d /\ dll_repr d (members_of k l) /\ members_of k l <> [];
  go_of : forall s, s ∈ l -> exists i, (key s, i) ∈ g_map g /\ g_of g !! s = Some i;
  go_links : forall i d s, g_lists g !! i = Some d -> (bound < s)%nat -> dll_next d !! s = None;
}.

Lemma members_of_elem k l s : s ∈ members_of k l <-> key s = k /\ s ∈ l.
Proof. unfold members_of. by rewrite list_elem_of_filter. Qed.

Lemma groups_ok_keys bound g l k :
  groups_ok bound g l -> k ∈ (g_map g).*1 <-> members_of k l <> [].
Proof.
  intros Hok. rewrite elem_of_fst. split.
  - intros [i Hi]. by destruct (go_lists _ _ _ Hok _ _ Hi) as (? & ? & ? & ?).
  - intros Hne. destruct (members_of k l) as [|s r] eqn:E; [done|].
    assert (s ∈ members_of k l) as [<- Hs]%members_of_elem by (rewrite E; set_solver).
    destruct (go_of _ _ _ Hok _ Hs) as (i & ? & _). by exists i.
Qed.

Lemma dll_append_next_bound d x s :
  (forall t, (x <= t)%nat -> dll_next d !! t = None) -> dll_tail d <> Some s -> (x < s)%nat ->
  dll_next (dll_append d x) !! s = None.
Proof.
  intros Hn Ht Hs. cbn. destruct (dll_tail d); [|apply Hn; lia].
  rewrite lookup_insert_ne by congruence. apply Hn. lia.
Qed.

Lemma append_group_keys g s :
  (g_map (append_group g (key s) s)).*1 =
    if decide (key s ∈ (g_map g).*1) then (g_map g).*1 else (g_map g).*1 ++ [key s].
Proof.
  unfold append_group. destruct (jmap_get (key s) (g_map g)) as [i|] eqn:Hg; cbn.
  - rewrite decide_True; [done|]. apply elem_of_fst. exists i. by apply jmap_get_Some_elem.
  - apply jmap_get_None in Hg. rewrite decide_False by done.
    by rewrite jmap_set_fresh, fmap_app.
Qed.

(** The group an admission joins, and the groups with it in the [Map]. *)
Lemma append_group_shape b g l k s :
  groups_ok b g l -> exists i m lists fresh d,
    append_group g k s = MkGroups m (<[s := i]> (g_of g)) (<[i := dll_append d s]> lists) fresh /\
    NoDup (m.*1) /\ NoDup (m.*2) /\ (k, i) ∈ m /\ dll_repr d (members_of k l) /\
    (forall t, (b < t)%nat -> dll_next d !! t = None) /\
    (forall k' i', (k', i') ∈ m -> i' <> i -> (k', i') ∈ g_map g /\ lists !! i' = g_lists g !! i') /\
    (forall k' i', (k', i') ∈ g_map g -> (k', i') ∈ m) /\
    (i < fresh)%nat /\ (forall j, is_Some (lists !! j) -> (j < fresh)%nat) /\
    (forall j dj t, lists !! j = Some dj -> (b < t)%nat -> dll_next dj !! t = None).
Proof.
  intros Hok. unfold append_group. destruct (jmap_get k (g_map g)) as [i|] eqn:Hg.
  - apply jmap_get_Some_elem in Hg.
    destruct (go_lists _ _ _ Hok _ _ Hg) as (d & Hl & Hd & _).
    exists i, (g_map g), (g_lists g), (g_fresh g), d. split_and!; try apply Hok; auto.
    + cbn. f_equal. apply map_eq. intros j. rewrite lookup_alter, lookup_insert.
      case_decide; [|done]. subst. by rewrite Hl.
    + intros t Ht. by eapply go_links.
  - apply jmap_get_None in Hg.
    assert (Hfr : g_lists g !! g_fresh g = None).
    { destruct (g_lists g !! g_fresh g) eqn:E; [|done].
      pose proof (go_fresh _ _ _ Hok _ (mk_is_Some _ _ E)). lia. }
    exists (g_fresh g), (g_map g ++ [(k, g_fresh g)]), (<[g_fresh g := dll_empty]> (g_lists g)),
      (S (g_fresh g)), dll_empty.
    split_and!.
    + cbn. rewrite jmap_set_fresh by done. f_equal.
      apply map_eq. intros j. rewrite lookup_alter, !lookup_insert. by repeat case_decide.
    + rewrite fmap_app. apply NoDup_app. split_and!; [apply Hok|set_solver|apply NoDup_singleton].
    + rewrite fmap_app. apply NoDup_app. split_and!; [apply Hok| |apply NoDup_singleton].
      cbn. intros j [k' Hj]%elem_of_snd.
      destruct (go_lists _ _ _ Hok _ _ Hj) as (dj & Hdj & _). set_solver.
    + set_solver.
    + replace (members_of k l) with (@nil nat); [apply dll_repr_empty|].
      symmetry. destruct (members_of k l) eqn:E; [done|].
      exfalso. apply Hg. apply (groups_ok_keys _ _ _ _ Hok). by rewrite E.
    + done.
    + intros k' i' [?|?]%elem_of_app ?; [|set_solver].
      by rewrite lookup_insert_ne.
    + set_solver.
    + lia.
    + intros j. rewrite lookup_insert. case_decide; [lia|].
      intros ?%(go_fresh _ _ _ Hok). lia.
    + intros j dj t. rewrite lookup_insert. case_decide; [naive_solver|].
      intros. by eapply go_links.
Qed.

Lemma members_of_app k l s :
  members_of k (l ++ [s]) = if decide (key s = k) then members_of k l ++ [s] else members_of k l.
Proof.
  unfold members_of. rewrite filter_app, filter_cons, filter_nil.
  case_decide; [done|]. by rewrite app_nil_r.
Qed.

Lemma append_group_ok b g l :
  groups_ok b g l -> (forall s, s ∈ l -> s <= b)%nat ->
  groups_ok (S b) (append_group g (key (S b)) (S b)) (l ++ [S b]).
Proof.
  intros Hok Hb. set (s := S b). set (k := key s).
  assert (Hsl : s ∉ l) by (intros ?%Hb; unfold s in *; lia).
  destruct (append_group_shape b g l k s Hok)
    as (i & m & lists & fresh & d & -> & Hk & Hi & Hki & Hd & Hdn & Hold & Hmono & Hif & Hf & Hln).
  split; cbn; [done|done|..].
  - intros j. rewrite lookup_insert. case_decide; [by subst|]. apply Hf.
  - intros k' i' Hki'. rewrite members_of_app, lookup_insert. fold k.
    destruct (decide (i = i')) as [->|Hne].
    + assert (k' = k) as -> by (by eapply nodup_snd_inj). rewrite decide_True by done.
      eexists. split_and!; [done| |by destruct (members_of k l)].
      apply dll_append_repr; [done| |apply Hdn; unfold s; lia].
      rewrite members_of_elem. naive_solver.
    + destruct (Hold _ _ Hki' (not_eq_sym Hne)) as [Hg ->].
      rewrite decide_False; [by apply Hok|].
      intros ->. apply Hne. by eapply nodup_fst_inj.
  - intros t [Ht|Ht]%elem_of_app.
    + destruct (go_of _ _ _ Hok _ Ht) as (j & Hj & Hof). exists j. split; [auto|].
      rewrite lookup_insert_ne; [done|]. intros ->. done.
    + assert (t = s) as -> by set_solver. exists i. by rewrite lookup_insert_eq.
  - intros j dj t. rewrite lookup_insert. case_decide; [|intros ??; eapply Hln; [done|unfold s in *; lia]].
    intros [= <-] Ht. apply dll_append_next_bound; [intros; apply Hdn; unfold s in *; lia| |done].
    rewrite (repr_tail _ _ Hd). intros Hl%last_Some_elem_of.
    apply members_of_elem in Hl as [_ Hl]. apply Hb in Hl. unfold s in *. lia.
Qed.

(** ** Leaving a group *)

Lemma members_of_detach k a s b :
  members_of k (a ++ s :: b) =
    if decide (key s = k) then members_of k a ++ s :: members_of k b else members_of k (a ++ b).
Proof. unfold members_of. case_decide; [by apply filter_split|by apply filter_split_False]. Qed.

Lemma dll_detach_next_bound d x s :
  dll_next d !! s = None -> dll_prev d !! x <> Some s -> dll_next (dll_detach d x) !! s = None.
Proof.
  intros Hn Hp. cbn. destruct (dll_prev d !! x) as [p|]; [|done].
  rewrite lookup_set_link, decide_False by congruence. done.
Qed.

(** A group leaves the [Map] exactly when its last member does. *)
Lemma detach_group_keys bd g a s b :
  groups_ok bd g (a ++ s :: b) ->
  (g_map (detach_group g (key s) s)).*1 =
    if decide (members_of (key s) (a ++ b) = [])
    then filter (fun k => k ≠ key s) ((g_map g).*1) else (g_map g).*1.
Proof.
  intros Hok. destruct (go_of _ _ _ Hok s ltac:(set_solver)) as (i & Hi & Hof).
  destruct (go_lists _ _ _ Hok _ _ Hi) as (d & Hl & Hd & _).
  unfold detach_group. rewrite Hof, lookup_alter_eq, Hl. cbn [fmap option_fmap option_map g_map].
  rewrite members_of_detach, decide_True in Hd by done.
  apply dll_detach_repr in Hd.
  pose proof (dll_repr_empty_iff _ _ Hd) as He.
  replace (members_of (key s) a ++ members_of (key s) b) with (members_of (key s) (a ++ b)) in He
    by apply filter_app.
  case_bool_decide as E; [rewrite decide_True by tauto; apply jmap_delete_keys|].
  by rewrite decide_False by tauto.
Qed.

Lemma detach_group_ok bd g a s b :
  groups_ok bd g (a ++ s :: b) -> NoDup (a ++ s :: b) ->
  (forall t, t ∈ a ++ s :: b -> t <= bd)%nat ->
  groups_ok bd (detach_group g (key s) s) (a ++ b).
Proof.
  intros Hok Hnd Hb. destruct (go_of _ _ _ Hok s ltac:(set_solver)) as (i & Hi & Hof).
  destruct (go_lists _ _ _ Hok _ _ Hi) as (d & Hl & Hd & _).
  pose proof Hd as Hd0. rewrite members_of_detach, decide_True in Hd by done.
  apply dll_detach_repr in Hd as Hdet. unfold members_of in Hdet at 1 2.
  rewrite <- filter_app in Hdet. fold (members_of (key s) (a ++ b)) in Hdet.
  pose proof (dll_repr_empty_iff _ _ Hdet) as He.
  unfold detach_group. rewrite Hof, lookup_alter_eq, Hl. cbn [fmap option_fmap option_map].
  set (m := if bool_decide _ then _ else _).
  assert (Hsub : forall k' i', (k', i') ∈ m -> (k', i') ∈ g_map g /\
    (k' = key s -> members_of (key s) (a ++ b) <> [])).
  { intros k' i'. unfold m. case_bool_decide as E; [rewrite jmap_delete_elem; tauto|tauto]. }
  assert (Hkeep : forall k' i', (k', i') ∈ g_map g -> members_of k' (a ++ b) <> [] -> (k', i') ∈ m).
  { intros k' i' ? Hne. unfold m. case_bool_decide; [|done]. apply jmap_delete_elem.
    split; [|done]. intros ->. tauto. }
  split; cbn.
  - unfold m. case_bool_decide; [|apply Hok]. rewrite jmap_delete_keys. apply NoDup_filter, Hok.
  - unfold m. case_bool_decide; [|apply Hok]. eapply sublist_NoDup; [apply Hok|].
    apply fmap_sublist, sublist_filter.
  - intros j [dj Hj]. rewrite lookup_alter in Hj. apply (go_fresh _ _ _ Hok).
    case_decide; [subst; by eexists|by eexists].
  - intros k' i' [Hki Hne]%Hsub. rewrite lookup_alter. case_decide as E.
    + subst i'. assert (k' = key s) as -> by (eapply nodup_snd_inj; [apply Hok|done..]).
      rewrite Hl. eexists. split_and!; [done|exact Hdet|auto].
    + destruct (go_lists _ _ _ Hok _ _ Hki) as (d' & ? & Hd' & Hn').
      assert (key s <> k') by (intros <-; apply E; eapply nodup_fst_inj; [apply Hok|done..]).
      rewrite members_of_detach, decide_False in Hd', Hn' by done. by exists d'.
  - intros t Ht. destruct (go_of _ _ _ Hok t) as (j & Hj & Hjo); [clear -Ht; set_solver|].
    exists j. split; [|done]. apply Hkeep; [done|].
    apply (elem_of_not_nil t), members_of_elem. done.
  - intros j dj t. rewrite lookup_alter. case_decide; [|by apply Hok].
    subst. rewrite Hl. intros [= <-] Ht. apply dll_detach_next_bound.
    + by eapply go_links.
    + intros Hp. apply (dll_repr_prev _ _ _ _ Hd0) in Hp.
      * apply members_of_elem in Hp as [_ Hp]. apply Hb in Hp. lia.
      * apply members_of_elem. split; [done|clear; set_solver].
Qed.

(** The group of the admission that leaves. *)
Lemma detach_group_served bd g a s b i :
  groups_ok bd g (a ++ s :: b) -> (key s, i) ∈ g_map g ->
  exists d, g_lists (detach_group g (key s) s) !! i = Some d /\
    dll_repr d (members_of (key s) (a ++ b)) /\
    (members_of (key s) (a ++ b) <> [] -> (key s, i) ∈ g_map (detach_group g (key s) s)).
Proof.
  intros Hok Hi0. destruct (go_of _ _ _ Hok s ltac:(set_solver)) as (i' & Hi & Hof).
  assert (i' = i) as -> by (eapply nodup_fst_inj; [apply Hok|done..]).
  destruct (go_lists _ _ _ Hok _ _ Hi) as (d & Hl & Hd & _).
  rewrite members_of_detach, decide_True in Hd by done.
  apply dll_detach_repr in Hd. unfold members_of in Hd.
  rewrite <- filter_app in Hd. fold (members_of (key s) (a ++ b)) in Hd.
  pose proof (dll_repr_empty_iff _ _ Hd) as He.
  unfold detach_group. rewrite Hof, lookup_alter_eq, Hl. cbn [fmap option_fmap option_map g_lists g_map].
  exists (dll_detach d s). rewrite lookup_alter_eq, Hl. split_and!; [done|done|].
  intros Hne. rewrite bool_decide_false by tauto. done.
Qed.

(** Moving one entry of the [Map] to its end keeps the groups. *)
Lemma groups_ok_permutation bd g l m :
  groups_ok bd g l -> m ≡ₚ g_map g ->
  groups_ok bd (MkGroups m (g_of g) (g_lists g) (g_fresh g)) l.
Proof.
  intros Hok Hm. split; cbn; try apply Hok.
  - rewrite Hm. apply Hok.
  - rewrite Hm. apply Hok.
  - intros k i. rewrite Hm. apply Hok.
  - intros s Hs. setoid_rewrite Hm. by apply Hok.
Qed.
End groups.
