(* ===== verification/AdmissionInv.v ===== *)
(** The admission queue keeps its three structures and its counters in step:
    the invariant of [AdmissionQueue] and its preservation by the private
    mutations every public operation is made of. *)
From S2P Require Import Prelude Errors Limits Dll ExpiryHeap Admission FairnessGroups.

Arguments pushExpiry : simpl never.
Arguments popExpiry : simpl never.
Arguments dll_append : simpl never.
Arguments dll_detach : simpl never.
Arguments append_group : simpl never.
Arguments detach_group : simpl never.
Arguments expiry_of : simpl never.

Section heap_ext.
Lemma heap_ok_ext f g heap :
  (forall s, s ∈ heap -> f s = g s) -> heap_ok f heap -> heap_ok g heap.
Proof.
  intros He Hok j Hj. specialize (Hok j Hj). pose proof (parent_lt j (proj1 Hj)).
  revert Hok. rewrite !hle_spec.
  rewrite !He by (apply list_elem_of_lookup_total_2; lia). done.
Qed.
End heap_ext.

Section invariant.
Context {T : Type}.
Implicit Types (q : AdmissionQueue T) (e : PendingAdmission T) (w : list (PendingAdmission T)).

Definition ekey e : string := default EmptyString (fairnessKey e).

(** The fairness key of a named admission. *)
Definition key_of q (s : nat) : string :=
  match q_entries q !! s with Some e => ekey e | None => EmptyString end.

Definition sum_bytes w : Z := foldr (fun e n => bytes e + n)%Z 0%Z w.

Definition before e e' : Prop := (sequence e < sequence e')%nat.

(** [members_ok q w]: [w] is the arrival list, and the list, the groups, the
    flags and the counters of [q] agree with it. *)
Record members_ok q w : Prop := {
  mo_list : dll_repr (q_list q) (sequence <$> w);
  mo_active : q_active q = list_to_set (sequence <$> w);
  mo_sorted : StronglySorted before w;
  mo_names : forall s, is_Some (q_entries q !! s) <-> (1 <= s <= q_sequence q)%nat;
  mo_entries : forall e, e ∈ w -> q_entries q !! sequence e = Some e;
  mo_wf : forall s e, q_entries q !! s = Some e -> sequence e = s /\ (0 <= bytes e)%Z /\
    (q_discipline (q_config q) = round_robin -> is_Some (fairnessKey e));
  mo_fresh : forall s, (q_sequence q < s)%nat -> dll_next (q_list q) !! s = None;
  mo_items : q_queuedItems q = Z.of_nat (length w);
  mo_bytes : q_queuedBytes q = sum_bytes w;
  mo_items_cap : (q_queuedItems q <= maxItems (capacity (q_limits (q_config q))))%Z;
  mo_bytes_cap : (q_queuedBytes q <= maxBytes (capacity (q_limits (q_config q))))%Z;
  mo_groups : match q_discipline (q_config q) with
              | fifo => g_map (q_groups q) = [] /\ g_of (q_groups q) = ∅
              | round_robin => groups_ok (key_of q) (q_sequence q) (q_groups q) (sequence <$> w)
              end;
}.

(** The heap holds every active admission and orders its members. *)
Record heap_inv q : Prop := {
  hi_ok : heap_ok (expiry_of q) (q_expiryHeap q);
  hi_nodup : NoDup (q_expiryHeap q);
  hi_active : forall s, s ∈ q_active q -> s ∈ q_expiryHeap q;
  hi_range : forall s, s ∈ q_expiryHeap q -> (1 <= s <= q_sequence q)%nat;
}.

(** The turns of the leases granted so far. *)
Definition lease_turns (log : list (nat * Settlement T)) : list nat :=
  omap (fun p => match snd p with Resolved l => Some (lease_turn l) | Rejected _ => None end) log.

(** Every admission is settled once, when it stops being active. *)
Record settled_inv q : Prop := {
  si_nodup : NoDup ((q_settled q).*1);
  si_done : forall s, s ∈ (q_settled q).*1 <-> (1 <= s <= q_sequence q)%nat /\ s ∉ q_active q;
  si_turns : lease_turns (q_settled q) = seq 1 (q_turns q);
  si_admitted : q_admitted q = q_turns q;
}.

Record queue_inv q w : Prop := {
  qi_members : members_ok q w;
  qi_heap : heap_inv q;
  qi_settled : settled_inv q;
}.

(** What the removal of admissions leaves alone. *)
Record frame q q' : Prop := {
  fr_config : q_config q' = q_config q;
  fr_entries : q_entries q' = q_entries q;
  fr_sequence : q_sequence q' = q_sequence q;
  fr_turns : q_turns q' = q_turns q;
  fr_admitted : q_admitted q' = q_admitted q;
  fr_closed : q_isClosed q' = q_isClosed q;
}.

#[export] Instance frame_preorder : PreOrder frame.
Proof.
  split; [by intros q|]. intros q1 q2 q3 [] []. split; congruence.
Qed.

(** ** Reading the invariant *)

Lemma before_nodup w : StronglySorted before w -> NoDup (sequence <$> w).
Proof.
  induction 1 as [|e w _ IH Hf]; [constructor|].
  rewrite fmap_cons. apply NoDup_cons. split; [|done].
  intros (e' & He & Hin)%list_elem_of_fmap. rewrite Forall_forall in Hf.
  specialize (Hf _ Hin). unfold before in Hf. lia.
Qed.

Lemma mo_inj q w e e' :
  members_ok q w -> e ∈ w -> e' ∈ w -> sequence e = sequence e' -> e = e'.
Proof.
  intros Hok He He' Hs. pose proof (mo_entries _ _ Hok _ He).
  pose proof (mo_entries _ _ Hok _ He'). congruence.
Qed.

Lemma mo_active_iff q w s :
  members_ok q w -> s ∈ q_active q <-> exists e, e ∈ w /\ sequence e = s.
Proof.
  intros Hok. rewrite (mo_active _ _ Hok), elem_of_list_to_set, list_elem_of_fmap. naive_solver.
Qed.

Lemma mo_range q w s :
  members_ok q w -> s ∈ sequence <$> w -> (1 <= s <= q_sequence q)%nat.
Proof.
  intros Hok (e & -> & He)%list_elem_of_fmap. apply (mo_names _ _ Hok).
  rewrite (mo_entries _ _ Hok _ He). by eexists.
Qed.

Lemma sum_bytes_cons e w : sum_bytes (e :: w) = (bytes e + sum_bytes w)%Z.
Proof. done. Qed.

Lemma sum_bytes_app w w' : sum_bytes (w ++ w') = (sum_bytes w + sum_bytes w')%Z.
Proof. unfold sum_bytes. induction w as [|e w IH]; cbn; [done|]. rewrite IH. lia. Qed.

Lemma sum_bytes_nonneg w : (forall e, e ∈ w -> 0 <= bytes e)%Z -> (0 <= sum_bytes w)%Z.
Proof.
  unfold sum_bytes. induction w as [|e w IH]; cbn; intros H; [done|].
  pose proof (H e ltac:(set_solver)). specialize (IH ltac:(set_solver)). lia.
Qed.

Lemma key_of_member q w e : members_ok q w -> e ∈ w -> key_of q (sequence e) = ekey e.
Proof. intros Hok He. unfold key_of. by rewrite (mo_entries _ _ Hok _ He). Qed.

Lemma expiry_of_member q w e : members_ok q w -> e ∈ w -> expiry_of q (sequence e) = expiresAtMs e.
Proof. intros Hok He. unfold expiry_of. by rewrite (mo_entries _ _ Hok _ He). Qed.

Lemma StronglySorted_app_remove {A} (R : A -> A -> Prop) a x b :
  StronglySorted R (a ++ x :: b) -> StronglySorted R (a ++ b).
Proof.
  induction a as [|y a IH]; cbn; inversion_clear 1; [done|].
  constructor; [by apply IH|]. match goal with H : Forall _ _ |- _ => revert H end.
  rewrite !Forall_app, Forall_cons. tauto.
Qed.

(** The keys with a group, in the order of the [Map]. *)
Definition ring_of q : list string := (g_map (q_groups q)).*1.

Lemma members_of_nonempty q w k :
  members_ok q w ->
  members_of (key_of q) k (sequence <$> w) <> [] <-> k ∈ ekey <$> w.
Proof.
  intros Hok. split.
  - destruct (members_of _ _ _) as [|s r] eqn:E; [done|]. intros _.
    assert (s ∈ members_of (key_of q) k (sequence <$> w)) as [<- Hs]%members_of_elem
      by (rewrite E; set_solver).
    apply list_elem_of_fmap in Hs as (e & -> & He).
    rewrite (key_of_member _ _ _ Hok He). by apply list_elem_of_fmap_2.
  - intros (e & -> & He)%list_elem_of_fmap.
    apply (elem_of_not_nil (sequence e)), members_of_elem.
    rewrite (key_of_member _ _ _ Hok He). split; [done|]. by apply list_elem_of_fmap_2.
Qed.

Lemma mo_ring q w k :
  members_ok q w -> q_discipline (q_config q) = round_robin ->
  k ∈ ring_of q <-> k ∈ ekey <$> w.
Proof.
  intros Hok Hd. pose proof (mo_groups _ _ Hok) as Hg. rewrite Hd in Hg.
  unfold ring_of. rewrite (groups_ok_keys _ _ _ _ k Hg). by apply members_of_nonempty.
Qed.

Lemma mo_ring_fifo q w :
  members_ok q w -> q_discipline (q_config q) = fifo -> ring_of q = [].
Proof.
  intros Hok Hd. pose proof (mo_groups _ _ Hok) as Hg. rewrite Hd in Hg.
  unfold ring_of. by destruct Hg as [-> _].
Qed.

Lemma members_of_ext (key key' : nat -> string) k (l : list nat) :
  (forall s, s ∈ l -> key s = key' s) -> members_of key k l = members_of key' k l.
Proof.
  unfold members_of. induction l as [|s l IH]; intros He; [done|].
  rewrite !filter_cons, IH by set_solver. by rewrite (He s) by set_solver.
Qed.

Lemma groups_ok_ext (key key' : nat -> string) b g (l : list nat) :
  (forall s, s ∈ l -> key s = key' s) -> groups_ok key b g l -> groups_ok key' b g l.
Proof.
  intros He Hok. split; try apply Hok.
  - intros k i Hk. rewrite <-(members_of_ext key) by done. by apply Hok.
  - intros s Hs. rewrite <-He by done. by apply Hok.
Qed.

(** ** [detach] *)

Lemma detach_frame q s : frame q (detach q s).
Proof. unfold detach. by repeat case_match. Qed.

Lemma detach_heap q s : q_expiryHeap (detach q s) = q_expiryHeap q.
Proof. unfold detach. by repeat case_match. Qed.

Lemma detach_settled q s : q_settled (detach q s) = q_settled q.
Proof. unfold detach. by repeat case_match. Qed.

Lemma detach_member q a e b :
  members_ok q (a ++ e :: b) ->
  detach q (sequence e) =
    set_members q (q_active q ∖ {[sequence e]}) (dll_detach (q_list q) (sequence e))
      (detach_group (q_groups q) (ekey e) (sequence e))
      (q_queuedItems q - 1) (q_queuedBytes q - bytes e).
Proof.
  intros Hok. unfold detach.
  rewrite decide_True by (apply (mo_active_iff _ _ _ Hok); exists e; set_solver).
  by rewrite (mo_entries _ _ Hok e) by set_solver.
Qed.

Lemma members_range_all q w s : members_ok q w -> s ∈ sequence <$> w -> (s <= q_sequence q)%nat.
Proof. intros Hok Hs. by apply (mo_range _ _ _ Hok) in Hs as [_ ?]. Qed.

Lemma detach_members q a e b :
  members_ok q (a ++ e :: b) -> members_ok (detach q (sequence e)) (a ++ b).
Proof.
  intros Hok. rewrite (detach_member _ _ _ _ Hok).
  pose proof (before_nodup _ (mo_sorted _ _ Hok)) as Hnd.
  assert (Hwf : (0 <= bytes e)%Z) by (eapply (mo_wf _ _ Hok), (mo_entries _ _ Hok); set_solver).
  pose proof (members_range_all _ _ (sequence e) Hok) as Hr.
  split; cbn [set_members q_list q_active q_entries q_sequence q_config q_groups q_queuedItems q_queuedBytes].
  - rewrite fmap_app. apply dll_detach_repr. rewrite <-fmap_cons, <-fmap_app. apply Hok.
  - rewrite (mo_active _ _ Hok). rewrite !fmap_app, fmap_cons in *.
    rewrite NoDup_app, NoDup_cons in Hnd. apply set_eq. intros s.
    rewrite elem_of_difference, !elem_of_list_to_set, !elem_of_app, elem_of_cons, elem_of_singleton.
    destruct Hnd as (_ & Hd & Hn & _). specialize (Hd s). rewrite elem_of_cons in Hd.
    destruct (decide (s = sequence e)) as [->|]; tauto.
  - eapply StronglySorted_app_remove, Hok.
  - apply Hok.
  - intros e' He'. apply Hok. set_solver.
  - apply Hok.
  - intros s Hs. apply dll_detach_next_bound; [by apply Hok|]. intros Hp.
    apply (dll_repr_prev _ _ _ _ (mo_list _ _ Hok)) in Hp; [|set_solver].
    apply (members_range_all _ _ _ Hok) in Hp. lia.
  - rewrite (mo_items _ _ Hok), !length_app. cbn. lia.
  - rewrite (mo_bytes _ _ Hok), !sum_bytes_app, sum_bytes_cons. lia.
  - pose proof (mo_items_cap _ _ Hok). lia.
  - pose proof (mo_bytes_cap _ _ Hok). lia.
  - pose proof (mo_groups _ _ Hok) as Hg. destruct (q_discipline _).
    + destruct Hg as [Hm Ho]. unfold detach_group. rewrite Ho, lookup_empty. by split.
    + rewrite fmap_app, fmap_cons in *. unfold key_of at 1. cbn.
      rewrite <-(key_of_member _ _ e Hok) by set_solver.
      apply detach_group_ok; [done..|]. intros t Ht. apply (members_range_all _ _ _ Hok).
      by rewrite fmap_app, fmap_cons.
Qed.

Lemma detach_active q a e b :
  members_ok q (a ++ e :: b) -> q_active (detach q (sequence e)) = q_active q ∖ {[sequence e]}.
Proof. intros Hok. by rewrite (detach_member _ _ _ _ Hok). Qed.

(** The keys left are those with an admission left. *)
Lemma detach_ring q a e b :
  members_ok q (a ++ e :: b) ->
  ring_of (detach q (sequence e)) = filter (fun k => k ∈ ekey <$> (a ++ b)) (ring_of q).
Proof.
  intros Hok. pose proof (detach_members _ _ _ _ Hok) as Hok'.
  destruct (q_discipline (q_config q)) eqn:Hd.
  { rewrite (mo_ring_fifo _ _ Hok Hd). apply (mo_ring_fifo _ _ Hok').
    by rewrite (fr_config _ _ (detach_frame q (sequence e))). }
  pose proof (mo_groups _ _ Hok) as Hg. rewrite Hd in Hg.
  assert (Hr : forall k, k ∈ ring_of q -> k <> ekey e -> k ∈ ekey <$> (a ++ b)).
  { intros k Hk Hne. apply (mo_ring _ _ _ Hok Hd) in Hk. rewrite fmap_app in *. set_solver. }
  assert (Hke : key_of q (sequence e) = ekey e) by (apply (key_of_member _ _ _ Hok); set_solver).
  pose proof (members_of_nonempty _ _ (ekey e) Hok') as Hne.
  rewrite (detach_member _ _ _ _ Hok) in Hne |- *.
  change (key_of (set_members q _ _ _ _ _)) with (key_of q) in Hne.
  unfold ring_of in *. cbn [set_members q_groups]. rewrite <-Hke.
  rewrite fmap_app, fmap_cons in Hg. rewrite (detach_group_keys _ _ _ _ _ _ Hg), Hke.
  rewrite <-fmap_app. case_decide as E.
  - apply filter_ext_elem. intros k Hk. split; [by apply Hr|]. intros ? ->. tauto.
  - symmetry. apply filter_all. intros k Hk. destruct (decide (k = ekey e)) as [->|]; [tauto|auto].
Qed.

(** ** [append] and [pushExpiry] of a new admission *)

Definition wait_for_turn q e : AdmissionQueue T := push (append (create q e) e) (sequence e).

(** What [enqueue] has checked when it builds the admission. *)
Record admissible q e : Prop := {
  ad_name : sequence e = S (q_sequence q);
  ad_bytes : (0 <= bytes e)%Z;
  ad_key : q_discipline (q_config q) = round_robin -> is_Some (fairnessKey e);
  ad_items : (q_queuedItems q < maxItems (capacity (q_limits (q_config q))))%Z;
  ad_room : (q_queuedBytes q + bytes e <= maxBytes (capacity (q_limits (q_config q))))%Z;
}.

Lemma wait_for_turn_members q w e :
  members_ok q w -> admissible q e -> members_ok (wait_for_turn q e) (w ++ [e]).
Proof.
  intros Hok [Hs Hb Hk Hi Hby].
  assert (Hle : forall s, s ∈ sequence <$> w -> (s <= q_sequence q)%nat)
    by (intros s; apply (members_range_all _ _ _ Hok)).
  assert (Hnin : sequence e ∉ sequence <$> w) by (intros ?%Hle; lia).
  split; unfold wait_for_turn, push, append, create;
    cbn [set_heap set_members q_list q_active q_entries q_sequence q_config q_groups q_queuedItems q_queuedBytes].
  - rewrite fmap_app. apply dll_append_repr; [apply Hok|done|]. apply Hok. lia.
  - rewrite (mo_active _ _ Hok), fmap_app. apply set_eq. intros s.
    rewrite elem_of_union, !elem_of_list_to_set, elem_of_app, elem_of_singleton. set_solver.
  - pose proof (mo_sorted _ _ Hok) as Hsort. clear -Hsort Hle Hs.
    induction w as [|e' w IH]; cbn; [repeat constructor|].
    inversion_clear Hsort. constructor; [apply IH; set_solver|].
    rewrite Forall_app, Forall_singleton. split; [done|].
    unfold before. pose proof (Hle (sequence e')) as H1. rewrite fmap_cons in H1. set_solver by lia.
  - intros s. rewrite lookup_insert. case_decide as E; [split; [lia|by eexists]|].
    rewrite (mo_names _ _ Hok). lia.
  - intros e' [He'|He']%elem_of_app.
    + rewrite lookup_insert_ne; [by apply Hok|].
      pose proof (Hle (sequence e') (list_elem_of_fmap_2 _ _ _ He')). lia.
    + apply list_elem_of_singleton in He' as ->. apply lookup_insert_eq.
  - intros s e'. rewrite lookup_insert. case_decide as E; [intros [= <-]; done|]. apply Hok.
  - intros s Hs'. apply dll_append_next_bound; [intros; apply Hok; lia| |done].
    rewrite (repr_tail _ _ (mo_list _ _ Hok)). intros Hl%last_Some_elem_of%Hle. lia.
  - rewrite (mo_items _ _ Hok), length_app. cbn. lia.
  - by rewrite (mo_bytes _ _ Hok), sum_bytes_app, sum_bytes_cons, Z.add_0_r.
  - lia.
  - lia.
  - pose proof (mo_groups _ _ Hok) as Hg. cbn. destruct (q_discipline _); [done|].
    rewrite decide_True by done. rewrite fmap_app. cbn [fmap list_fmap]. rewrite Hs.
    match goal with |- groups_ok ?k _ _ _ => set (key := k) end.
    assert (Hke : default EmptyString (fairnessKey e) = key (S (q_sequence q))).
    { unfold key, key_of. cbn. by rewrite lookup_insert_eq. }
    rewrite Hke. apply append_group_ok; [|exact Hle].
    eapply groups_ok_ext; [|exact Hg]. intros s Hsl.
    unfold key, key_of. cbn. rewrite lookup_insert_ne; [done|]. apply Hle in Hsl. lia.
Qed.

Lemma wait_for_turn_ring q w e :
  members_ok q w -> admissible q e ->
  ring_of (wait_for_turn q e) =
    if decide (q_discipline (q_config q) = fifo) then ring_of q
    else if decide (ekey e ∈ ring_of q) then ring_of q else ring_of q ++ [ekey e].
Proof.
  intros Hok Ha. unfold ring_of, wait_for_turn, push, append, create. cbn.
  destruct (q_discipline (q_config q)); [done|]. rewrite decide_True, decide_False by done.
  exact (append_group_keys (fun _ => ekey e) (q_groups q) (sequence e)).
Qed.

Lemma wait_for_turn_heap q w e :
  members_ok q w -> heap_inv q -> admissible q e -> heap_inv (wait_for_turn q e).
Proof.
  intros Hok Hh Ha.
  assert (Hf : forall s, (s <= q_sequence q)%nat -> expiry_of q s = expiry_of (create q e) s).
  { intros s Hs. unfold expiry_of. cbn. rewrite lookup_insert_ne; [done|].
    rewrite (ad_name _ _ Ha). lia. }
  pose proof (pushExpiry_permutation (expiry_of (create q e)) (q_expiryHeap q) (sequence e)) as Hp.
  assert (Hr : forall s, s ∈ q_expiryHeap q -> (s <= q_sequence q)%nat) by (intros; by apply Hh).
  split; unfold wait_for_turn, push, append; cbn.
  - apply pushExpiry_ok. eapply heap_ok_ext; [|apply Hh].
    intros s Hs%Hr. by apply Hf.
  - change (NoDup (pushExpiry (expiry_of (create q e)) (q_expiryHeap q) (sequence e))).
    rewrite Hp. apply NoDup_cons. split; [|apply Hh].
    intros Hs%Hr. rewrite (ad_name _ _ Ha) in Hs. lia.
  - change (forall s, s ∈ {[sequence e]} ∪ q_active q ->
      s ∈ pushExpiry (expiry_of (create q e)) (q_expiryHeap q) (sequence e)).
    intros s. rewrite Hp, elem_of_union, elem_of_singleton, elem_of_cons.
    intros [->|Hs]; [by left|right; by apply Hh].
  - change (forall s, s ∈ pushExpiry (expiry_of (create q e)) (q_expiryHeap q) (sequence e) ->
      (1 <= s <= sequence e)%nat).
    intros s. rewrite Hp, elem_of_cons. pose proof (ad_name _ _ Ha).
    intros [->|Hs]; [lia|]. apply Hh in Hs. lia.
Qed.

Lemma wait_for_turn_settled q w e :
  members_ok q w -> settled_inv q -> admissible q e -> settled_inv (wait_for_turn q e).
Proof.
  intros Hok Hs Ha. split; try apply Hs. intros s. cbn.
  rewrite (si_done _ Hs), not_elem_of_union, not_elem_of_singleton, (ad_name _ _ Ha).
  split; [intros [? ?]; split_and!; try lia; done|intros (? & ? & ?); split; [lia|done]].
Qed.

Lemma wait_for_turn_inv q w e :
  queue_inv q w -> admissible q e -> queue_inv (wait_for_turn q e) (w ++ [e]).
Proof.
  intros [Hm Hh Hs] Ha. split;
    eauto using wait_for_turn_members, wait_for_turn_heap, wait_for_turn_settled.
Qed.

(** ** Settling an active admission *)

Lemma rejectEntry_member q a e b reason :
  members_ok q (a ++ e :: b) ->
  rejectEntry q (sequence e) reason =
    settle (reject_total (detach q (sequence e)) reason) (sequence e) (Rejected reason).
Proof.
  intros Hok. unfold rejectEntry.
  rewrite decide_True; [done|]. apply (mo_active_iff _ _ _ Hok). exists e. set_solver.
Qed.

Lemma rejectEntry_inactive q s reason : s ∉ q_active q -> rejectEntry q s reason = q.
Proof. intros. unfold rejectEntry. by rewrite decide_False. Qed.

Lemma rejectEntry_frame q s reason : frame q (rejectEntry q s reason).
Proof.
  unfold rejectEntry. case_decide; [|done].
  destruct (detach_frame q s). by split.
Qed.

Lemma rejectEntry_heap q s reason : q_expiryHeap (rejectEntry q s reason) = q_expiryHeap q.
Proof. unfold rejectEntry. case_decide; [apply detach_heap|done]. Qed.

Lemma rejectEntry_active q a e b reason :
  members_ok q (a ++ e :: b) ->
  q_active (rejectEntry q (sequence e) reason) = q_active q ∖ {[sequence e]}.
Proof. intros Hok. rewrite (rejectEntry_member _ _ _ _ _ Hok). apply (detach_active _ _ _ _ Hok). Qed.

Lemma rejectEntry_settled q a e b reason :
  members_ok q (a ++ e :: b) ->
  q_settled (rejectEntry q (sequence e) reason) = q_settled q ++ [(sequence e, Rejected reason)].
Proof. intros Hok. rewrite (rejectEntry_member _ _ _ _ _ Hok). cbn. by rewrite detach_settled. Qed.

Lemma rejectEntry_ring q a e b reason :
  members_ok q (a ++ e :: b) ->
  ring_of (rejectEntry q (sequence e) reason) =
    filter (fun k => k ∈ ekey <$> (a ++ b)) (ring_of q).
Proof. intros Hok. rewrite (rejectEntry_member _ _ _ _ _ Hok). apply (detach_ring _ _ _ _ Hok). Qed.

Lemma rejectEntry_members q a e b reason :
  members_ok q (a ++ e :: b) -> members_ok (rejectEntry q (sequence e) reason) (a ++ b).
Proof.
  intros Hok. rewrite (rejectEntry_member _ _ _ _ _ Hok).
  destruct (detach_members _ _ _ _ Hok). by split.
Qed.

Lemma lease_turns_app log log' : lease_turns (log ++ log') = lease_turns log ++ lease_turns log'.
Proof. apply omap_app. Qed.

(** The log grows by a name that was active. *)
Lemma settled_grow q a e b (log : list (nat * Settlement T)) what :
  members_ok q (a ++ e :: b) -> settled_inv q -> log = q_settled q ++ [(sequence e, what)] ->
  NoDup (log.*1) /\
  (forall s, s ∈ log.*1 <-> (1 <= s <= q_sequence q)%nat /\ s ∉ q_active q ∖ {[sequence e]}).
Proof.
  intros Hok Hs ->.
  assert (Hact : sequence e ∈ q_active q)
    by (apply (mo_active_iff _ _ _ Hok); exists e; set_solver).
  assert (Hran : (1 <= sequence e <= q_sequence q)%nat)
    by (apply (mo_range _ _ _ Hok), list_elem_of_fmap_2; set_solver).
  rewrite fmap_app. split.
  - apply NoDup_app. split_and!; [apply Hs| |apply NoDup_singleton].
    intros s [_ ?]%(si_done _ Hs) ->%list_elem_of_singleton. done.
  - intros s. rewrite elem_of_app, (si_done _ Hs). cbn [fmap list_fmap fst]. rewrite list_elem_of_singleton.
    rewrite not_elem_of_difference, elem_of_singleton.
    destruct (decide (s = sequence e)) as [->|]; cbn; tauto.
Qed.

Lemma rejectEntry_settled_inv q a e b reason :
  members_ok q (a ++ e :: b) -> settled_inv q ->
  settled_inv (rejectEntry q (sequence e) reason).
Proof.
  intros Hok Hs.
  destruct (rejectEntry_frame q (sequence e) reason) as [_ _ Fs Ft Fa _].
  pose proof (rejectEntry_settled _ _ _ _ reason Hok) as Hl.
  destruct (settled_grow _ _ _ _ _ _ Hok Hs Hl) as [Hn Hd].
  split; [done|by rewrite Fs, (rejectEntry_active _ _ _ _ _ Hok)| |by rewrite Ft, Fa, (si_admitted _ Hs)].
  rewrite Hl, lease_turns_app, Ft, (si_turns _ Hs). apply app_nil_r.
Qed.

(** ** The expiry heap *)

Lemma pop_spec q s :
  heap_inv q -> q_expiryHeap q !! 0%nat = Some s ->
  exists rest, pop q = (Some s, set_heap q rest) /\ q_expiryHeap q ≡ₚ s :: rest /\
    heap_ok (expiry_of q) rest /\ forall x, x ∈ rest -> hle (expiry_of q) s x.
Proof.
  intros Hh Hs. unfold pop.
  pose proof (popExpiry_spec (expiry_of q) _ (hi_nodup _ Hh) (hi_ok _ Hh)) as Hp.
  destruct (popExpiry _ _) as [[first|] rest].
  - destruct Hp as (Hf & ? & ? & ?). exists rest. simplify_eq. split_and!; done.
  - destruct Hp as [Hp _]. by rewrite Hp in Hs.
Qed.

(** The heap without a member that is not, or no longer, active. *)
Lemma heap_inv_without q q' s rest :
  heap_inv q -> q_expiryHeap q ≡ₚ s :: rest -> heap_ok (expiry_of q) rest ->
  q_expiryHeap q' = rest -> q_active q' = q_active q ∖ {[s]} ->
  q_entries q' = q_entries q -> q_sequence q' = q_sequence q -> heap_inv q'.
Proof.
  intros Hh Hp Ho Eh Ea Ee Es.
  assert (Hx : forall x, expiry_of q' x = expiry_of q x) by (intros; unfold expiry_of; by rewrite Ee).
  pose proof (hi_nodup _ Hh) as Hn. rewrite Hp in Hn. apply NoDup_cons in Hn as [? Hn].
  split; rewrite Eh; [|done|..].
  - by eapply heap_ok_ext; [|exact Ho].
  - intros x. rewrite Ea, elem_of_difference, elem_of_singleton. intros [Hx1%(hi_active _ Hh) ?].
    rewrite Hp in Hx1. set_solver.
  - intros x Hx1. rewrite Es. apply Hh. rewrite Hp. set_solver.
Qed.

Lemma discard_loop_spec fuel q :
  heap_inv q -> (length (q_expiryHeap q) <= fuel)%nat ->
  exists heap, discard_loop fuel q = set_heap q heap /\ heap_inv (set_heap q heap) /\
    (length heap <= length (q_expiryHeap q))%nat /\
    (forall s, s ∈ heap -> s ∈ q_expiryHeap q) /\
    (forall s, heap !! 0%nat = Some s -> s ∈ q_active q).
Proof.
  revert q. induction fuel as [|fuel IH]; intros q Hh Hf; cbn [discard_loop].
  { exists (q_expiryHeap q). destruct (q_expiryHeap q) eqn:E; [|cbn in Hf; lia].
    split_and!; try done; [by destruct q; cbn in *; subst|].
    split; cbn; [by intros ??; cbn in *; lia|constructor| |set_solver].
    intros s Hs%(hi_active _ Hh). by rewrite E in Hs. }
  destruct (q_expiryHeap q !! 0%nat) as [s|] eqn:E0; [case_decide as Ha|].
  - exists (q_expiryHeap q). split_and!; [by destruct q|by destruct Hh|done..|by intros; simplify_eq].
  - destruct (pop_spec _ _ Hh E0) as (rest & -> & Hp & Ho & _). cbn [snd].
    assert (Hh' : heap_inv (set_heap q rest)).
    { apply (heap_inv_without q _ s rest); try done. cbn. set_solver. }
    pose proof (Permutation_length Hp) as Hl. cbn in Hl.
    destruct (IH _ Hh') as (heap & -> & ? & Hle & Hsub & ?); [cbn; lia|]. cbn in Hle, Hsub.
    exists heap. split_and!; [done|done|lia| |done].
    intros x ?%Hsub. rewrite Hp. set_solver.
  - exists (q_expiryHeap q). split_and!; [by destruct q|by destruct Hh|done..|].
    intros s Hs. congruence.
Qed.

Lemma discard_spec q :
  heap_inv q ->
  exists heap, discardInactiveExpiryHeads q = set_heap q heap /\ heap_inv (set_heap q heap) /\
    (length heap <= length (q_expiryHeap q))%nat /\
    (forall s, s ∈ heap -> s ∈ q_expiryHeap q) /\
    (forall s, heap !! 0%nat = Some s -> s ∈ q_active q).
Proof. intros Hh. by apply discard_loop_spec. Qed.

Lemma members_ok_heap q w heap : members_ok q w -> members_ok (set_heap q heap) w.
Proof. intros []. by split. Qed.

Lemma settled_inv_heap q heap : settled_inv q -> settled_inv (set_heap q heap).
Proof. intros []. by split. Qed.
End invariant.
