(* ===== verification/AdmissionSpec.v ===== *)
(** What the admission queue promises, and that it keeps the promise.

    The abstract queue is the arrival list of the waiting admissions and, for
    round-robin, the ring of the keys that have one. [represents] relates a
    concrete queue to it; every public operation of [AdmissionQueue] is shown
    to be the operation of the same name on the abstract queue. *)
From S2P Require Import Prelude Errors Limits Dll ExpiryHeap Admission FairnessGroups AdmissionInv.

Arguments lease_turns : simpl never.
#[local] Arguments seq : simpl never.

Section spec.
Context {T : Type}.
Implicit Types (q : AdmissionQueue T) (e : PendingAdmission T) (w : list (PendingAdmission T)).

Record Waiting : Type := MkWaiting {
  waiting : list (PendingAdmission T);
  ring : list string;
}.

(** The admissions satisfying [P] stay, in order; so do the keys of those that stay. *)
Definition retain (P : PendingAdmission T -> Prop) `{!forall e, Decision (P e)} (a : Waiting) : Waiting :=
  let w := filter P (waiting a) in
  MkWaiting w (filter (fun k => k ∈ ekey <$> w) (ring a)).

Definition live (now : Z) e : Prop := (now < expiresAtMs e)%Z.
#[export] Instance live_dec now e : Decision (live now e).
Proof. unfold live. apply _. Defined.

Definition expire_waiting (now : Z) (a : Waiting) : Waiting := retain (live now) a.

Definition remove_waiting (s : nat) (a : Waiting) : Waiting := retain (fun e => sequence e ≠ s) a.

Definition add_waiting (d : AdmissionDiscipline) e (a : Waiting) : Waiting :=
  MkWaiting (waiting a ++ [e])
    (if decide (d = fifo) then ring a
     else if decide (ekey e ∈ ring a) then ring a else ring a ++ [ekey e]).

(** The admission served next: the oldest, or the oldest of the first key of the ring. *)
Definition next_waiting (d : AdmissionDiscipline) (a : Waiting) : option (PendingAdmission T) :=
  match d with
  | fifo => head (waiting a)
  | round_robin => k ← head (ring a); head (filter (fun e => ekey e = k) (waiting a))
  end.

(** The served key, if it still has admissions, goes to the end of the ring. *)
Definition rotate_ring (k : string) (r : list string) : list string :=
  if decide (k ∈ r) then filter (fun k' => k' ≠ k) r ++ [k] else r.

Definition serve_waiting (d : AdmissionDiscipline) e (a : Waiting) : Waiting :=
  let a := remove_waiting (sequence e) a in
  MkWaiting (waiting a) (rotate_ring (ekey e) (ring a)).

Definition represents q (a : Waiting) : Prop :=
  queue_inv q (waiting a) /\ ring_of q = ring a /\ (q_isClosed q = true -> waiting a = []).

(** ** Expiry *)

Lemma expiry_order_elem q w s e :
  queue_inv q w -> q_expiryHeap q !! 0%nat = Some s -> e ∈ w -> hle (expiry_of q) s (sequence e).
Proof.
  intros [Hm Hh _] Hs He.
  assert (Hin : sequence e ∈ q_expiryHeap q).
  { apply Hh, (mo_active_iff _ _ _ Hm). by exists e. }
  apply list_elem_of_lookup in Hin as [j Hj].
  pose proof (heap_ok_root _ _ _ j (hi_ok _ Hh) Hs (lookup_lt_Some _ _ _ Hj)) as Hr.
  by rewrite (list_lookup_total_correct _ _ _ Hj) in Hr.
Qed.

Lemma expiry_order_empty q w : queue_inv q w -> q_expiryHeap q !! 0%nat = None -> w = [].
Proof.
  intros [Hm Hh _] Hs. destruct w as [|e w]; [done|exfalso].
  assert (Hin : sequence e ∈ q_expiryHeap q).
  { apply Hh, (mo_active_iff _ _ _ Hm). exists e. set_solver. }
  destruct (q_expiryHeap q); [set_solver|done].
Qed.

Definition root_active q : Prop :=
  forall s, q_expiryHeap q !! 0%nat = Some s -> s ∈ q_active q.

Definition reject_log w : list (nat * Settlement T) :=
  (fun e => (sequence e, Rejected (expiresBy e))) <$> w.

Definition expires_first e e' : Prop :=
  (expiresAtMs e < expiresAtMs e')%Z \/
  (expiresAtMs e = expiresAtMs e' /\ (sequence e < sequence e')%nat).

(** What [expire] does to a queue whose waiting list is [w]. *)
Record expired_to (now : Z) q w (gone : list (PendingAdmission T)) q' : Prop := {
  ex_inv : queue_inv q' (filter (live now) w);
  ex_gone : gone ≡ₚ filter (fun e => ¬ live now e) w;
  ex_order : StronglySorted expires_first gone;
  ex_log : q_settled q' = q_settled q ++ reject_log gone;
  ex_ring : ring_of q' = filter (fun k => k ∈ ekey <$> filter (live now) w) (ring_of q);
  ex_frame : frame q q';
  ex_root : root_active q';
}.

Lemma expired_none now q w :
  queue_inv q w -> root_active q -> (forall e, e ∈ w -> live now e) -> expired_to now q w [] q.
Proof.
  intros Hi Hr Hl. pose proof (filter_all (live now) w Hl) as Hf.
  split; rewrite ?Hf.
  - done.
  - rewrite (filter_ext_elem _ (fun _ => False)) by (intros e He; split; [intros n; apply n, Hl, He|done]).
    clear. induction w; [done|]. by rewrite filter_cons_False by tauto.
  - constructor.
  - by rewrite app_nil_r.
  - symmetry. apply filter_all. intros k Hk. destruct (q_discipline (q_config q)) eqn:Hd.
    + rewrite (mo_ring_fifo _ _ (qi_members _ _ Hi) Hd) in Hk. set_solver.
    + by apply (mo_ring _ _ _ (qi_members _ _ Hi) Hd).
  - done.
  - done.
Qed.

(** One turn of the loop of [expire]. *)
Lemma expire_turn now q w s :
  queue_inv q w -> root_active q -> q_expiryHeap q !! 0%nat = Some s ->
  (expiry_of q s <= now)%Z ->
  exists a e b q1,
    w = a ++ e :: b /\ sequence e = s /\ ~ live now e /\ snd (pop q) = q1 /\ s ∈ q_active q1 /\
    q_entries q1 !! s = Some e /\
    (let q3 := discardInactiveExpiryHeads (rejectEntry q1 s (expiresBy e)) in
     queue_inv q3 (a ++ b) /\ root_active q3 /\ frame q q3 /\
     (length (q_expiryHeap q3) < length (q_expiryHeap q))%nat /\
     q_settled q3 = q_settled q ++ [(sequence e, Rejected (expiresBy e))] /\
     ring_of q3 = filter (fun k => k ∈ ekey <$> (a ++ b)) (ring_of q)).
Proof.
  intros [Hm Hh Hs] Hr H0 Hnow.
  destruct (proj1 (mo_active_iff _ _ s Hm) (Hr _ H0)) as (e & He & <-).
  pose proof (expiry_of_member _ _ _ Hm He) as Hx.
  apply list_elem_of_split in He as (a & b & ->).
  destruct (pop_spec _ _ Hh H0) as (rest & Hpop & Hp & Ho & _).
  exists a, e, b, (set_heap q rest).
  pose proof (members_ok_heap q _ rest Hm) as Hm1.
  set (q2 := rejectEntry (set_heap q rest) (sequence e) (expiresBy e)).
  assert (Hh2 : heap_inv q2).
  { apply (heap_inv_without q _ (sequence e) rest); try done.
    - apply (rejectEntry_heap (set_heap q rest)).
    - apply (rejectEntry_active _ _ _ _ _ Hm1).
    - apply (rejectEntry_frame (set_heap q rest)).
    - apply (rejectEntry_frame (set_heap q rest)). }
  destruct (discard_spec q2 Hh2) as (heap & Hd & Hh3 & Hle & Hsub & Hroot).
  split_and!; [done..|by unfold live; lia|by rewrite Hpop|by apply Hr| |].
  { apply (mo_entries _ _ Hm). set_solver. }
  cbn. fold q2. rewrite Hd. split_and!.
  - split; [|done|].
    + apply members_ok_heap. by apply rejectEntry_members.
    + apply settled_inv_heap. eapply rejectEntry_settled_inv; [done|]. by apply settled_inv_heap.
  - exact Hroot.
  - destruct (rejectEntry_frame (set_heap q rest) (sequence e) (expiresBy e)). by split.
  - cbn. pose proof (Permutation_length Hp) as Hl. cbn in Hl.
    unfold q2 in Hle. rewrite (rejectEntry_heap (set_heap q rest)) in Hle. cbn in Hle. lia.
  - apply (rejectEntry_settled _ _ _ _ _ Hm1).
  - apply (rejectEntry_ring _ _ _ _ _ Hm1).
Qed.

Lemma expired_cons now q a e b gone q1 q' :
  queue_inv q (a ++ e :: b) -> ~ live now e ->
  (forall e', e' ∈ a ++ b -> expires_first e e') ->
  frame q q1 ->
  q_settled q1 = q_settled q ++ [(sequence e, Rejected (expiresBy e))] ->
  ring_of q1 = filter (fun k => k ∈ ekey <$> (a ++ b)) (ring_of q) ->
  expired_to now q1 (a ++ b) gone q' ->
  expired_to now q (a ++ e :: b) (e :: gone) q'.
Proof.
  intros Hi He Hord Hf Hlog Hring [Hinv Hgone Hsort Hlog' Hring' Hframe Hroot].
  pose proof (filter_split_False (live now) a e b He) as Hfe.
  split; rewrite ?Hfe.
  - done.
  - rewrite (filter_split (fun e => ~ live now e)) by done.
    rewrite <-Permutation_middle, <-filter_app. by rewrite Hgone.
  - constructor; [done|]. apply Forall_forall. intros e'. rewrite Hgone, list_elem_of_filter.
    intros [_ ?]. by apply Hord.
  - rewrite Hlog', Hlog, <-app_assoc. done.
  - rewrite Hring', Hring, filter_filter_and. apply filter_ext_elem. intros k _.
    split; [tauto|]. intros Hk. split; [done|].
    apply list_elem_of_fmap in Hk as (e' & -> & He'). apply list_elem_of_fmap_2.
    apply list_elem_of_filter in He'. tauto.
  - by transitivity q1.
  - done.
Qed.

Lemma expire_loop_spec fuel q w now n :
  queue_inv q w -> root_active q -> (length (q_expiryHeap q) <= fuel)%nat ->
  exists gone q', expire_loop fuel q now n = ((n + length gone)%nat, q') /\
    expired_to now q w gone q'.
Proof.
  revert q w n. induction fuel as [|fuel IH]; intros q w n Hi Hr Hf; cbn [expire_loop].
  { exists [], q. cbn. rewrite Nat.add_0_r. split; [done|]. apply expired_none; [done..|].
    destruct (q_expiryHeap q) eqn:E; [|cbn in Hf; lia].
    rewrite (expiry_order_empty q w Hi) by (by rewrite E). set_solver. }
  destruct (q_expiryHeap q !! 0%nat) as [s|] eqn:E0.
  2:{ exists [], q. cbn. rewrite Nat.add_0_r. split; [done|]. apply expired_none; [done..|].
      rewrite (expiry_order_empty q w Hi E0). set_solver. }
  case_bool_decide as Hnow.
  - destruct (expire_turn _ _ _ _ Hi Hr E0 Hnow)
      as (a & e & b & q1 & -> & <- & Hl & -> & Ha & He & Hi3 & Hr3 & Hf3 & Hlen & Hlog & Hring).
    rewrite decide_True, He by done.
    destruct (IH _ _ (S n) Hi3 Hr3 ltac:(lia)) as (gone & q' & -> & Hex).
    exists (e :: gone), q'. split; [f_equal; cbn; lia|].
    eapply expired_cons; [done|done| |done..].
    intros e' He'. pose proof (expiry_order_elem _ _ _ e' Hi E0 ltac:(set_solver)) as Hle.
    pose proof (qi_members _ _ Hi) as Hm.
    assert (sequence e <> sequence e').
    { pose proof (before_nodup _ (mo_sorted _ _ Hm)) as Hn. intros Hs.
      rewrite fmap_app, fmap_cons, NoDup_app, NoDup_cons in Hn.
      destruct Hn as (_ & Hd & Hb & _). apply elem_of_app in He' as [He'|He'];
        apply (list_elem_of_fmap_2 sequence) in He'; rewrite <-Hs in He'; [|done].
      apply (Hd _ He'). set_solver. }
    apply hle_spec in Hle. rewrite !(expiry_of_member _ _ _ Hm) in Hle by set_solver.
    unfold expires_first. lia.
  - exists [], q. rewrite Nat.add_0_r. split; [done|]. apply expired_none; [done..|].
    intros e He. pose proof (expiry_order_elem _ _ _ e Hi E0 He) as Hle%hle_expiry.
    rewrite (expiry_of_member _ _ e (qi_members _ _ Hi) He) in Hle. unfold live. lia.
Qed.

Lemma expire_spec q w now :
  queue_inv q w ->
  exists gone q', expire q (Finite now) = Ret (length gone, q') /\ expired_to now q w gone q'.
Proof.
  intros [Hm Hh Hs]. unfold expire.
  destruct (discard_spec q Hh) as (heap & -> & Hh' & Hlen & _ & Hroot).
  assert (Hi : queue_inv (set_heap q heap) w).
  { split; [by apply members_ok_heap|done|by apply settled_inv_heap]. }
  destruct (expire_loop_spec (length (q_expiryHeap q)) _ w now 0 Hi Hroot ltac:(cbn; lia))
    as (gone & q' & -> & [? ? ? ? ? Hf ?]).
  exists gone, q'. split; [done|]. split; try done. destruct Hf. by split.
Qed.

(** ** The admission served next *)

Lemma members_of_waiting q w k :
  members_ok q w ->
  members_of (key_of q) k (sequence <$> w) = sequence <$> filter (fun e => ekey e = k) w.
Proof.
  intros Hm. assert (Hk : forall e, e ∈ w -> key_of q (sequence e) = ekey e)
    by (intros; by eapply key_of_member). clear Hm. unfold members_of.
  induction w as [|e w IH]; [done|].
  rewrite fmap_cons, !filter_cons, IH, Hk by set_solver. by case_decide.
Qed.

(** The entry and the group [take] reads. *)
Definition choice q : option nat * option nat :=
  match q_discipline (q_config q) with
  | fifo => (dll_head (q_list q), None)
  | round_robin =>
      match first_group q with
      | Some (_, group) => (group_head q group, Some group)
      | None => (None, None)
      end
  end.

Lemma choice_spec q w :
  members_ok q w ->
  fst (choice q) = sequence <$> next_waiting (q_discipline (q_config q)) (MkWaiting w (ring_of q)).
Proof.
  intros Hm. unfold choice. destruct (q_discipline (q_config q)) eqn:Hd; cbn.
  - rewrite (repr_head _ _ (mo_list _ _ Hm)). by destruct w.
  - pose proof (mo_groups _ _ Hm) as Hg. rewrite Hd in Hg.
    unfold first_group, ring_of. destruct (g_map (q_groups q)) as [|[k i] m] eqn:Em; [done|].
    cbn. destruct (go_lists _ _ _ _ Hg k i) as (d & Hl & Hr & _); [rewrite Em; set_solver|].
    unfold group_head. rewrite Hl. cbn. rewrite (repr_head _ _ Hr).
    rewrite (members_of_waiting _ _ _ Hm). by destruct (filter _ w).
Qed.

Lemma next_waiting_elem d a e : next_waiting d a = Some e -> e ∈ waiting a.
Proof.
  destruct d; cbn.
  - destruct (waiting a); [done|]. intros [= ->]. set_solver.
  - intros (k & _ & Hh)%bind_Some. destruct (filter _ (waiting a)) as [|e' r] eqn:E; [done|].
    cbn in Hh. injection Hh as ->.
    assert (He : e ∈ filter (fun e => ekey e = k) (waiting a)) by (rewrite E; set_solver).
    by apply list_elem_of_filter in He as [_ ?].
Qed.

(** The key of the admission served is the first of the ring. *)
Lemma next_waiting_key a e :
  next_waiting round_robin a = Some e -> head (ring a) = Some (ekey e).
Proof.
  cbn. intros (k & Hk & Hh)%bind_Some. rewrite Hk. f_equal.
  destruct (filter _ (waiting a)) as [|e' r] eqn:E; [done|]. cbn in Hh. injection Hh as ->.
  assert (He : e ∈ filter (fun e => ekey e = k) (waiting a)) by (rewrite E; set_solver).
  by apply list_elem_of_filter in He as [-> _].
Qed.

(** ** [rotate] *)

Lemma jmap_move_end (k : string) (i : nat) m :
  NoDup (m.*1) -> (k, i) ∈ m ->
  jmap_set k i (jmap_delete k m) = jmap_delete k m ++ [(k, i)] /\
  jmap_delete k m ++ [(k, i)] ≡ₚ m.
Proof.
  intros Hn Hi. split.
  - apply jmap_set_fresh. rewrite jmap_delete_keys, list_elem_of_filter. tauto.
  - apply list_elem_of_split in Hi as (m1 & m2 & ->).
    rewrite fmap_app, fmap_cons, NoDup_app, NoDup_cons in Hn. destruct Hn as (_ & Hd & Hk & _).
    unfold jmap_delete. rewrite filter_split_False by (cbn; tauto). rewrite filter_all.
    + rewrite <-app_assoc, (Permutation_app_comm m2 [_]). cbn. done.
    + intros [k' i'] [He|He]%elem_of_app; cbn; intros ->.
      * apply (Hd k); [apply elem_of_fst; eauto|set_solver].
      * apply Hk. apply elem_of_fst. eauto.
Qed.

Lemma rotate_served q w k i :
  members_ok q w -> q_discipline (q_config q) = round_robin ->
  (exists d, g_lists (q_groups q) !! i = Some d /\
     dll_repr d (members_of (key_of q) k (sequence <$> w)) /\
     (members_of (key_of q) k (sequence <$> w) <> [] -> (k, i) ∈ g_map (q_groups q))) ->
  let q' := rotate q (Some k) (Some i) in
  members_ok q' w /\ ring_of q' = rotate_ring k (ring_of q).
Proof.
  intros Hm Hd (d & Hl & Hr & Hin). cbn [rotate]. unfold group_head. rewrite Hl. cbn.
  pose proof (mo_ring _ _ k Hm Hd) as Hk. rewrite <-(members_of_nonempty _ _ _ Hm) in Hk.
  rewrite (repr_head _ _ Hr).
  pose proof (mo_groups _ _ Hm) as Hg. rewrite Hd in Hg. unfold rotate_ring.
  destruct (members_of (key_of q) k (sequence <$> w)) as [|s r]; cbn.
  - rewrite decide_False by tauto. done.
  - specialize (Hin ltac:(done)).
    destruct (jmap_move_end k i _ (go_keys _ _ _ _ Hg) Hin) as [-> Hp].
    rewrite decide_True by (apply Hk; done). split.
    + destruct Hm. split; try done. cbn. rewrite Hd. by apply (groups_ok_permutation _ _ (q_groups q)).
    + unfold ring_of. cbn. by rewrite fmap_app, jmap_delete_keys.
Qed.

Lemma rotate_none q key : rotate q key None = q.
Proof. done. Qed.

Lemma rotate_frame q key served :
  frame q (rotate q key served) /\ q_expiryHeap (rotate q key served) = q_expiryHeap q /\
  q_settled (rotate q key served) = q_settled q /\ q_active (rotate q key served) = q_active q.
Proof. unfold rotate. by repeat case_match. Qed.

(** ** The public operations *)

Lemma remove_split w1 e w2 :
  StronglySorted before (w1 ++ e :: w2) ->
  filter (fun e' => sequence e' ≠ sequence e) (w1 ++ e :: w2) = w1 ++ w2.
Proof.
  intros Hs%before_nodup. rewrite filter_split_False by tauto. apply filter_all.
  rewrite fmap_app, fmap_cons, NoDup_app, NoDup_cons in Hs. destruct Hs as (_ & Hd & Hn & _).
  intros e' [He|He]%elem_of_app; apply (list_elem_of_fmap_2 sequence) in He; intros Heq;
    rewrite Heq in He; [|done]. apply (Hd _ He). set_solver.
Qed.

Lemma expired_represents now q a gone q' :
  represents q a -> expired_to now q (waiting a) gone q' -> represents q' (expire_waiting now a).
Proof.
  intros (_ & Hr & Hc) [? ? ? ? Hring Hf ?]. split_and!; [done| |].
  - by rewrite Hring, Hr.
  - rewrite (fr_closed _ _ Hf). cbn. intros ->%Hc. done.
Qed.

Lemma expire_represents q a now :
  represents q a ->
  exists gone q', expire q (Finite now) = Ret (length gone, q') /\
    expired_to now q (waiting a) gone q' /\ represents q' (expire_waiting now a).
Proof.
  intros Hrep. destruct (expire_spec q (waiting a) now (proj1 Hrep)) as (gone & q' & He & Hx).
  exists gone, q'. split_and!; [done..|]. by eapply expired_represents.
Qed.

Lemma reject_inv q w1 e w2 reason :
  queue_inv q (w1 ++ e :: w2) -> queue_inv (rejectEntry q (sequence e) reason) (w1 ++ w2).
Proof.
  intros [Hm Hh Hs]. split; [by apply rejectEntry_members| |by eapply rejectEntry_settled_inv].
  pose proof (rejectEntry_frame q (sequence e) reason) as Hf.
  split; rewrite ?rejectEntry_heap; try apply Hh.
  - eapply heap_ok_ext; [|apply Hh]. intros x _. unfold expiry_of. by rewrite (fr_entries _ _ Hf).
  - intros x. rewrite (rejectEntry_active _ _ _ _ _ Hm). intros Hx. apply Hh. set_solver.
  - rewrite (fr_sequence _ _ Hf). apply Hh.
Qed.

Lemma reject_represents q a s reason :
  represents q a -> represents (rejectEntry q s reason) (remove_waiting s a).
Proof.
  intros ([Hm Hh Hs] & Hr & Hc). destruct (decide (s ∈ q_active q)) as [Ha|Ha].
  - apply (mo_active_iff _ _ _ Hm) in Ha as (e & He & <-).
    apply list_elem_of_split in He as (w1 & w2 & Hw). rewrite Hw in Hm.
    unfold remove_waiting, retain. rewrite Hw, remove_split by apply Hm.
    split_and!; cbn [waiting ring].
    + by apply reject_inv.
    + rewrite (rejectEntry_ring _ _ _ _ _ Hm). by rewrite Hr.
    + rewrite (fr_closed _ _ (rejectEntry_frame q _ reason)), Hw in *.
      intros Hq%Hc. by destruct w1.
  - rewrite rejectEntry_inactive by done.
    assert (Hf : filter (fun e => sequence e ≠ s) (waiting a) = waiting a).
    { apply filter_all. intros e He Heq. apply Ha, (mo_active_iff _ _ _ Hm). by exists e. }
    split_and!; cbn; rewrite ?Hf; [done| |done]. rewrite Hr. symmetry. apply filter_all.
    rewrite <-Hr. intros k Hk. destruct (q_discipline (q_config q)) eqn:Hd.
    + rewrite (mo_ring_fifo _ _ Hm Hd) in Hk. set_solver.
    + by apply (mo_ring _ _ _ Hm Hd).
Qed.

(** Granting a lease to an active admission that [rotate] has accounted for. *)
Lemma grant_represents q a e now :
  represents q a -> next_waiting (q_discipline (q_config q)) a = Some e ->
  let q1 := rotate (detach q (sequence e)) (fairnessKey e) (snd (choice q)) in
  represents (settle (count_turn q1) (sequence e) (Resolved (lease_of q1 e now)))
    (serve_waiting (q_discipline (q_config q)) e a).
Proof.
  intros ([Hm Hh Hs] & Hr & Hc) Hnext q1. pose proof (next_waiting_elem _ _ _ Hnext) as He.
  apply list_elem_of_split in He as (w1 & w2 & Hw). rewrite Hw in Hm.
  pose proof (detach_members _ _ _ _ Hm) as Hm'. pose proof (detach_ring _ _ _ _ Hm) as Hring'.
  pose proof (detach_frame q (sequence e)) as Hfd.
  assert (Hrot : members_ok q1 (w1 ++ w2) /\
    ring_of q1 = rotate_ring (ekey e) (filter (fun k => k ∈ ekey <$> (w1 ++ w2)) (ring_of q))).
  { unfold q1, choice. destruct (q_discipline (q_config q)) eqn:Hd.
    - cbn [snd]. rewrite rotate_none. split; [done|]. rewrite Hring', (mo_ring_fifo _ _ Hm Hd). done.
    - apply next_waiting_key in Hnext. rewrite <-Hr in Hnext. unfold ring_of in Hnext.
      unfold first_group. destruct (g_map (q_groups q)) as [|[k i] m] eqn:Em; [done|].
      cbn in Hnext. injection Hnext as ->. cbn [head snd].
      destruct (mo_wf _ _ Hm _ _ (mo_entries _ _ Hm e ltac:(set_solver))) as (_ & _ & Hkey).
      destruct (Hkey Hd) as [k Hk]. assert (Hek : ekey e = k) by (unfold ekey; by rewrite Hk).
      rewrite Hk, Hek, <-Hring'. apply rotate_served; [done|by rewrite (fr_config _ _ Hfd)|].
      pose proof (mo_groups _ _ Hm) as Hg. rewrite Hd, fmap_app, fmap_cons in Hg.
      assert (Hke : key_of q (sequence e) = k)
        by (rewrite (key_of_member _ _ _ Hm); [done|set_solver]).
      rewrite <-Hke, fmap_app. rewrite (detach_member _ _ _ _ Hm), Hek, <-Hke.
      apply (detach_group_served _ _ _ _ _ _ _ Hg). rewrite Em, Hke, Hek. set_solver. }
  destruct Hrot as [Hm1 Hr1].
  destruct (rotate_frame (detach q (sequence e)) (fairnessKey e) (snd (choice q)))
    as (Hf1 & Hh1 & Hs1 & Ha1). fold q1 in Hf1, Hh1, Hs1, Ha1.
  assert (Hf : frame q q1) by (by etransitivity).
  rewrite detach_heap in Hh1. rewrite detach_settled in Hs1.
  rewrite (detach_active _ _ _ _ Hm) in Ha1. unfold serve_waiting, remove_waiting, retain.
  rewrite Hw, remove_split by apply Hm. cbn [waiting ring]. split_and!.
  - split; [destruct Hm1; by split| |].
    + split; cbn; rewrite ?Hh1; try apply Hh.
      * eapply heap_ok_ext; [|apply Hh]. intros x _. unfold expiry_of. cbn.
        by rewrite (fr_entries _ _ Hf).
      * intros x. rewrite Ha1. intros Hx. apply Hh. set_solver.
      * rewrite (fr_sequence _ _ Hf). apply Hh.
    + destruct (settled_grow q _ _ _ _ (Resolved (lease_of q1 e now)) Hm Hs eq_refl) as [Hn Hdone].
      split; cbn; rewrite ?Hs1, ?Ha1, ?(fr_sequence _ _ Hf), ?(fr_turns _ _ Hf), ?(fr_admitted _ _ Hf);
        [done..| |by rewrite (si_admitted _ Hs)].
      rewrite lease_turns_app, (si_turns _ Hs), seq_S. unfold lease_turns. cbn. by rewrite (fr_turns _ _ Hf).
  - by rewrite <-Hr.
  - cbn. rewrite (fr_closed _ _ Hf). intros Hq%Hc. rewrite Hq in Hw. by destruct w1.
Qed.

Lemma take_eq q now :
  take q (Finite now) =
    ('(_, q) ← expire q (Finite now);
     match fst (choice q) ≫= fun s => q_entries q !! s with
     | None => Ret (None, q)
     | Some e =>
         let q1 := rotate (detach q (sequence e)) (fairnessKey e) (snd (choice q)) in
         let lease := lease_of q1 e now in
         Ret (Some lease, settle (count_turn q1) (sequence e) (Resolved lease))
     end).
Proof.
  unfold take. cbn [readNow mbind exc_bind]. destruct (expire q (Finite now)) as [[n q1]|]; [|done].
  cbn [mbind exc_bind]. unfold choice. by destruct (q_discipline _); [|destruct (first_group _) as [[? ?]|]].
Qed.

(** [take] first expires, then serves the admission the discipline names. *)
Lemma take_represents q a now :
  represents q a ->
  let a1 := expire_waiting now a in
  let d := q_discipline (q_config q) in
  exists gone q1, expired_to now q (waiting a) gone q1 /\
  match next_waiting d a1 with
  | None => take q (Finite now) = Ret (None, q1) /\ represents q1 a1
  | Some e => exists q',
      let lease := {| lease_value := value e; lease_fairnessKey := fairnessKey e;
                      lease_bytes := bytes e; lease_enqueuedAtMs := enqueuedAtMs e;
                      lease_admittedAtMs := now;
                      lease_queueAgeMs := Z.max 0 (now - enqueuedAtMs e);
                      lease_turn := S (q_turns q) |} in
      take q (Finite now) = Ret (Some lease, q') /\
      represents q' (serve_waiting d e a1) /\ q_config q' = q_config q /\
      q_isClosed q' = q_isClosed q /\ q_sequence q' = q_sequence q /\
      q_settled q' = q_settled q ++ reject_log gone ++ [(sequence e, Resolved lease)]
  end.
Proof.
  intros Hrep a1 d. destruct (expire_represents q a now Hrep) as (gone & q1 & He & Hx & Hrep1).
  exists gone, q1. split; [done|]. rewrite take_eq, He. cbn [mbind exc_bind].
  pose proof (fr_config _ _ (ex_frame _ _ _ _ _ Hx)) as Hcfg.
  pose proof Hrep1 as ([Hm1 _ _] & Hr1 & _).
  rewrite (choice_spec _ _ Hm1), Hr1. rewrite Hcfg. fold d a1.
  replace (MkWaiting (waiting a1) (ring a1)) with a1 by (by destruct a1).
  destruct (next_waiting d a1) as [e|] eqn:Hn; cbn [fmap option_fmap option_map mbind option_bind].
  - rewrite (mo_entries _ _ Hm1) by (by eapply next_waiting_elem). cbn.
    pose proof (grant_represents q1 a1 e now Hrep1) as Hgr. rewrite Hcfg in Hgr.
    specialize (Hgr Hn). cbn in Hgr. revert Hgr.
    destruct (rotate_frame (detach q1 (sequence e)) (fairnessKey e) (snd (choice q1)))
      as (Hf2 & _ & Hs2 & _).
    set (q2 := rotate _ _ _) in *. intros Hgr.
    assert (Hf : frame q q2).
    { transitivity q1; [apply Hx|]. by transitivity (detach q1 (sequence e)); [apply detach_frame|]. }
    rewrite detach_settled, (ex_log _ _ _ _ _ Hx) in Hs2.
    eexists. split_and!.
    + f_equal. f_equal. unfold lease_of. by rewrite (fr_turns _ _ Hf).
    + exact Hgr.
    + apply Hf.
    + apply Hf.
    + apply Hf.
    + cbn. rewrite Hs2, <-app_assoc. unfold lease_of. by rewrite (fr_turns _ _ Hf).
  - done.
Qed.
(** With nothing to serve next, nothing waits. *)
Lemma next_waiting_none q a :
  represents q a -> next_waiting (q_discipline (q_config q)) a = None -> waiting a = [].
Proof.
  intros (Hi & Hr & _). destruct (q_discipline (q_config q)) eqn:Hd; cbn; [by destruct (waiting a)|].
  intros E. destruct (waiting a) as [|e w] eqn:Ew; [done|exfalso].
  assert (Hk : forall k, k ∈ ring a <-> k ∈ ekey <$> (e :: w)).
  { intros k. rewrite <-Hr. apply (mo_ring _ _ _ (qi_members _ _ Hi) Hd). }
  destruct (ring a) as [|k r].
  { specialize (Hk (ekey e)). rewrite fmap_cons in Hk. set_solver. }
  change (head (filter (fun e0 => ekey e0 = k) (e :: w)) = None) in E.
  assert (Hk' : k ∈ ekey <$> (e :: w)) by (apply Hk; left).
  apply list_elem_of_fmap in Hk' as (e' & -> & He').
  assert (Hin : e' ∈ filter (fun e0 => ekey e0 = ekey e') (e :: w)) by (by apply list_elem_of_filter).
  destruct (filter _ (e :: w)); [set_solver|done].
Qed.
End spec.
