(* ===== verification/AdmissionProps.v ===== *)
(** Properties of the admission queue under any sequence of operations. *)
From S2P Require Import Prelude Errors Limits Dll ExpiryHeap Admission FairnessGroups.
From S2P Require Import AdmissionInv AdmissionSpec.

Section props.
Context {T : Type}.
Implicit Types (q : AdmissionQueue T) (e : PendingAdmission T) (w : list (PendingAdmission T)).

(** ** Sequences of operations *)

(** The calls a queue receives, abort events of the signals included. *)
Inductive operation : Type :=
  | Enqueue (clock : ms) (v : T) (o : AdmissionRequestOptions)
  | Take (clock : ms)
  | Expire (now : ms)
  | Abort (s : nat)
  | Close.

(** A call that throws leaves the queue as it was. *)
Definition run q (op : operation) : AdmissionQueue T :=
  match op with
  | Enqueue clock v o => match enqueue q clock v o with Ret (q', _) => q' | Throw _ => q end
  | Take clock => match take q clock with Ret (_, q') => q' | Throw _ => q end
  | Expire now => match expire q now with Ret (_, q') => q' | Throw _ => q end
  | Abort s => onAbort q s
  | Close => close q
  end.

Definition run_all q (ops : list operation) : AdmissionQueue T := foldl run q ops.

(** The abstract queue with what else a caller can observe of it. *)
Record SpecState : Type := MkSpec {
  st_waiting : @Waiting T;
  st_closed : bool;
  st_next : nat;
}.

(** The arguments [enqueue] accepts, with the byte count they name. *)
Definition accepted_bytes (d : AdmissionDiscipline) (o : AdmissionRequestOptions) : option Z :=
  b ← num_safe_integer (req_bytes o);
  if decide (0 <= b)%Z then
    if decide (d = round_robin /\ default EmptyString (req_fairnessKey o) = EmptyString) then None
    else if decide (req_deadlineMs o = Some NonFinite) then None else Some b
  else None.

(** Whether a request may wait, and if not the reason: first that applies. *)
Definition refusal (lim : QueueLimits Z) (st : SpecState) (now b : Z) (o : AdmissionRequestOptions)
    : option AdmissionRejectionReason :=
  if st_closed st then Some by_closed
  else if decide (aborted <$> req_signal o = Some true) then Some by_canceled
  else if match req_deadlineMs o with Some (Finite d) => bool_decide (d <= now)%Z | _ => false end
  then Some by_deadline
  else if decide (maxItems (capacity lim) <= Z.of_nat (length (waiting (st_waiting st))))%Z then Some by_items
  else if decide (maxBytes (capacity lim) < sum_bytes (waiting (st_waiting st)) + b)%Z then Some by_bytes
  else None.

Definition spec_enqueue (cfg : AdmissionConfig) (st : SpecState) (clock : ms) (v : T)
    (o : AdmissionRequestOptions) : SpecState :=
  match clock, accepted_bytes (q_discipline cfg) o with
  | Finite now, Some b =>
      match refusal (q_limits cfg) st now b o with
      | Some _ => st
      | None =>
          let age := (now + maxAgeMs (q_limits cfg))%Z in
          let expiry := match req_deadlineMs o with
                        | Some (Finite d) => Z.min d age
                        | _ => age
                        end in
          let by_ := match req_deadlineMs o with
                     | Some (Finite d) => if decide (d <= age)%Z then by_deadline else by_age
                     | _ => by_age
                     end in
          let e := MkPending (S (st_next st)) v (req_fairnessKey o) b now expiry by_ in
          let a := add_waiting (q_discipline cfg) e (st_waiting st) in
          MkSpec
            (if decide (aborted_after_listening <$> req_signal o = Some true)
             then remove_waiting (S (st_next st)) a else a)
            (st_closed st) (S (st_next st))
      end
  | _, _ => st
  end.

(** The abstract operations. *)
Definition spec_run (cfg : AdmissionConfig) (st : SpecState) (op : operation) : SpecState :=
  match op with
  | Enqueue clock v o => spec_enqueue cfg st clock v o
  | Take (Finite now) =>
      let a := expire_waiting now (st_waiting st) in
      MkSpec (match next_waiting (q_discipline cfg) a with
              | Some e => serve_waiting (q_discipline cfg) e a
              | None => a
              end) (st_closed st) (st_next st)
  | Expire (Finite now) => MkSpec (expire_waiting now (st_waiting st)) (st_closed st) (st_next st)
  | Take NonFinite | Expire NonFinite => st
  | Abort s => MkSpec (remove_waiting s (st_waiting st)) (st_closed st) (st_next st)
  | Close => MkSpec (MkWaiting [] []) true (st_next st)
  end.

Definition spec_init : SpecState := MkSpec (MkWaiting [] []) false 0.

Record refines (cfg : AdmissionConfig) q (st : SpecState) : Prop := {
  rf_config : q_config q = cfg;
  rf_waiting : represents q (st_waiting st);
  rf_closed : q_isClosed q = st_closed st;
  rf_next : q_sequence q = st_next st;
}.

(** ** [enqueue] *)

Lemma reject_total_represents q a reason : represents q a -> represents (reject_total q reason) a.
Proof. intros ([[] [] []] & ? & ?). split_and!; [|done|done]. split; by split. Qed.

Lemma wait_for_turn_represents q a e :
  represents q a -> admissible q e -> q_isClosed q = false ->
  represents (wait_for_turn q e) (add_waiting (q_discipline (q_config q)) e a).
Proof.
  intros (Hi & Hr & Hc) Had Hq. split_and!; cbn [waiting ring add_waiting].
  - by apply wait_for_turn_inv.
  - rewrite (wait_for_turn_ring _ _ _ (qi_members _ _ Hi) Had), Hr. done.
  - cbn. by rewrite Hq.
Qed.

Lemma accepted_bytes_Some d o b :
  accepted_bytes d o = Some b <->
  num_safe_integer (req_bytes o) = Some b /\ (0 <= b)%Z /\
  (d = round_robin -> exists k, req_fairnessKey o = Some k /\ k <> EmptyString) /\
  req_deadlineMs o <> Some NonFinite.
Proof.
  unfold accepted_bytes. destruct (num_safe_integer (req_bytes o)) as [z|]; cbn; [|split; [done|by intros [? _]]].
  assert (Hk : ~ (d = round_robin /\ default EmptyString (req_fairnessKey o) = EmptyString) <->
    (d = round_robin -> exists k, req_fairnessKey o = Some k /\ k <> EmptyString)).
  { destruct d; [naive_solver|]. destruct (req_fairnessKey o) as [k|]; cbn; [|naive_solver].
    destruct (decide (k = EmptyString)); naive_solver. }
  repeat case_decide; split; try done; try (intros (? & ? & ? & ?); simplify_eq; tauto).
  intros [= ->]. tauto.
Qed.

(** The guards on the arguments. *)
Lemma enqueue_throws q clock v o :
  accepted_bytes (q_discipline (q_config q)) o = None ->
  exists err, enqueue q clock v o = Throw err.
Proof.
  unfold accepted_bytes, enqueue.
  destruct (num_safe_integer (req_bytes o)) as [b|]; cbn; [|by eexists].
  destruct (decide (b < 0)%Z) as [Hb|Hb];
    [rewrite (bool_decide_true (b < 0)%Z) by done; by eexists|].
  rewrite (bool_decide_false (b < 0)%Z) by done. cbn.
  rewrite decide_True by lia. case_decide as Hk.
  - intros _. destruct Hk as [Hd Hk]. rewrite (bool_decide_true (q_discipline (q_config q) = round_robin)) by done.
    destruct (req_fairnessKey o); cbn in *; [rewrite (bool_decide_true (_ = EmptyString)) by exact Hk|]; by eexists.
  - case_decide as Hm; [|done]. intros _. rewrite Hm.
    destruct (_ && _); cbn; by eexists.
Qed.

(** What [enqueue] does with acceptable arguments, on the abstract queue. *)
Lemma enqueue_decision q st now v o b :
  refines (q_config q) q st -> accepted_bytes (q_discipline (q_config q)) o = Some b ->
  enqueue q (Finite now) v o =
    Ret match refusal (q_limits (q_config q)) st now b o with
        | Some reason => rejectImmediately q reason
        | None =>
            let e := pending_of q now v b o in
            (if decide (aborted_after_listening <$> req_signal o = Some true)
             then rejectEntry (wait_for_turn q e) (sequence e) by_canceled else wait_for_turn q e,
             Pending (sequence e))
        end.
Proof.
  intros [_ ([Hm _ _] & _) Hc _] (Hb & Hb0 & Hk & Hd)%accepted_bytes_Some.
  unfold enqueue. rewrite Hb. cbn. rewrite (bool_decide_false (b < 0)%Z) by lia. cbn.
  replace (_ && _) with false; cycle 1.
  { symmetry. apply andb_false_iff. case_bool_decide as Hr; [right|by left].
    destruct (Hk Hr) as (k & -> & ?). by apply bool_decide_eq_false. }
  cbn. replace (match req_deadlineMs o with Some NonFinite => true | _ => false end) with false
    by (destruct (req_deadlineMs o) as [[|]|]; done).
  cbn. unfold refusal. rewrite Hc, (mo_items _ _ Hm), (mo_bytes _ _ Hm).
  destruct (st_closed st); [done|].
  set (lim := capacity (q_limits (q_config q))). set (w := waiting (st_waiting st)).
  assert (Ha : match req_signal o with Some sg => aborted sg | None => false end =
    bool_decide (aborted <$> req_signal o = Some true)).
  { destruct (req_signal o) as [sg|]; cbn; [|done]. by destruct (aborted sg). }
  assert (Hl : match req_signal o with Some sg => aborted_after_listening sg | None => false end =
    bool_decide (aborted_after_listening <$> req_signal o = Some true)).
  { destruct (req_signal o) as [sg|]; cbn; [|done]. by destruct (aborted_after_listening sg). }
  rewrite Ha, Hl. clear Ha Hl.
  replace (bool_decide (maxBytes lim - sum_bytes w < b)%Z)
    with (bool_decide (maxBytes lim < sum_bytes w + b)%Z) by (apply bool_decide_ext; lia).
  rewrite !bool_decide_decide.
  destruct (decide (aborted <$> _ = _)); [done|].
  destruct (match req_deadlineMs o with Some (Finite d) => _ | _ => false end); [done|].
  destruct (decide (maxItems lim <= Z.of_nat (length w))%Z); [done|].
  destruct (decide (maxBytes lim < _)%Z); [done|].
  by destruct (decide (aborted_after_listening <$> _ = _)).
Qed.

Lemma pending_of_admissible q st now v o b :
  refines (q_config q) q st -> accepted_bytes (q_discipline (q_config q)) o = Some b ->
  refusal (q_limits (q_config q)) st now b o = None ->
  admissible q (pending_of q now v b o) /\ q_isClosed q = false.
Proof.
  intros [_ ([Hm _ _] & _) Hc _] (Hb & Hb0 & Hk & Hd)%accepted_bytes_Some Hr.
  unfold refusal in Hr. rewrite Hc. destruct (st_closed st); [done|].
  destruct (decide (aborted <$> _ = _)); [done|].
  destruct (match req_deadlineMs o with Some (Finite d) => _ | _ => false end); [done|].
  destruct (decide (maxItems _ <= _)%Z); [done|].
  destruct (decide (maxBytes _ < _)%Z); [done|]. split; [|done].
  split; cbn; [done|done| |rewrite (mo_items _ _ Hm); lia|rewrite (mo_bytes _ _ Hm); lia].
  intros Hrr. destruct (Hk Hrr) as (k & -> & _). by eexists.
Qed.
Lemma enqueue_refines cfg q st clock v o :
  refines cfg q st -> refines cfg (run q (Enqueue clock v o)) (spec_run cfg st (Enqueue clock v o)).
Proof.
  intros Hrf. pose proof Hrf as [Hcfg Hw Hc Hn]. subst cfg. cbn [run spec_run]. unfold spec_enqueue.
  destruct (accepted_bytes (q_discipline (q_config q)) o) as [b|] eqn:Hb; cycle 1.
  { destruct (enqueue_throws q clock v o Hb) as [err ->]. by destruct clock. }
  destruct clock as [now|]; cycle 1.
  { destruct (enqueue q NonFinite v o) as [[q' t]|] eqn:He; [exfalso|done].
    unfold enqueue in He. exc_inv. discriminate. }
  rewrite (enqueue_decision _ _ _ _ _ _ Hrf Hb).
  destruct (refusal _ _ _ _ _) eqn:Hr; cbn [rejectImmediately].
  { split; [done| |done|done]. by apply reject_total_represents. }
  destruct (pending_of_admissible _ _ now v o b Hrf Hb Hr) as [Had Hq].
  pose proof (wait_for_turn_represents _ _ _ Hw Had Hq) as Hrep.
  replace (MkPending _ v _ b now _ _) with (pending_of q now v b o).
  2:{ unfold pending_of. rewrite Hn. destruct (req_deadlineMs o) as [[d|]|]; try done.
      case_decide; cbn; f_equal; lia. }
  case_decide; [|split; [done..|by cbn; rewrite Hn]].
  rewrite <-Hn.
  pose proof (rejectEntry_frame (wait_for_turn q (pending_of q now v b o)) (S (q_sequence q)) by_canceled) as Hf.
  split; cbn [st_waiting st_closed st_next sequence pending_of].
  - apply Hf.
  - by apply reject_represents.
  - rewrite (fr_closed _ _ Hf). done.
  - rewrite (fr_sequence _ _ Hf). done.
Qed.

(** ** [close] *)

Definition close_log w : list (nat * Settlement T) :=
  (fun e => (sequence e, Rejected by_closed)) <$> w.

Lemma close_loop_spec fuel q w :
  queue_inv q w -> (length w <= fuel)%nat ->
  let q' := close_loop fuel q in
  queue_inv q' [] /\ frame q q' /\ q_settled q' = q_settled q ++ close_log w.
Proof.
  revert q w. induction fuel as [|fuel IH]; intros q w Hi Hf; cbn [close_loop].
  { destruct w; [|cbn in Hf; lia]. by rewrite app_nil_r. }
  rewrite (repr_head _ _ (mo_list _ _ (qi_members _ _ Hi))).
  destruct w as [|e w]; cbn [fmap list_fmap head].
  { by rewrite app_nil_r. }
  destruct (IH _ w (reject_inv q [] e w by_closed Hi)) as (Hi' & Hfr & Hlog); [cbn in Hf; lia|].
  split_and!; [done| |].
  - etransitivity; [apply rejectEntry_frame|done].
  - rewrite Hlog, (rejectEntry_settled q [] e w by_closed (qi_members _ _ Hi)).
    by rewrite <-app_assoc.
Qed.

Lemma queue_inv_size q w : queue_inv q w -> length w = size (q_active q).
Proof.
  intros [Hm _ _]. rewrite (mo_active _ _ Hm), size_list_to_set by (apply before_nodup, Hm).
  by rewrite length_fmap.
Qed.

Lemma ring_of_empty q : queue_inv q [] -> ring_of q = [].
Proof.
  intros [Hm _ _]. destruct (q_discipline (q_config q)) eqn:Hd; [by eapply mo_ring_fifo|].
  destruct (ring_of q) as [|k r] eqn:E; [done|].
  assert (k ∈ ring_of q) as Hk by (rewrite E; set_solver).
  apply (mo_ring _ _ _ Hm Hd) in Hk. set_solver.
Qed.

Lemma set_closed_inv q w : queue_inv q w -> queue_inv (set_closed q) w.
Proof. intros [[] [] []]. split; by split. Qed.

(** Closing an open queue settles what waits, in arrival order. *)
Lemma close_open q a :
  represents q a -> q_isClosed q = false ->
  represents (close q) (MkWaiting [] []) /\ frame (set_closed q) (close q) /\
  q_settled (close q) = q_settled q ++ close_log (waiting a).
Proof.
  intros (Hi & Hr & Hc) Hq. unfold close. rewrite Hq.
  pose proof (set_closed_inv _ _ Hi) as Hi0.
  pose proof (queue_inv_size _ _ Hi) as Hsz.
  destruct (close_loop_spec (size (q_active q)) _ _ Hi0) as (Hi' & Hf & Hl); [lia|].
  split_and!; [|done|done]. split_and!; [done|by apply ring_of_empty|done].
Qed.

Lemma close_refines cfg q st :
  refines cfg q st -> refines cfg (run q Close) (spec_run cfg st Close).
Proof.
  intros [Hcfg Hw Hc Hn]. cbn [run spec_run]. destruct (q_isClosed q) eqn:Hq.
  - unfold close. rewrite Hq. destruct Hw as (Hi & Hr & Hcl). specialize (Hcl Hq).
    rewrite Hcl in Hi. split; [done|split_and!; [done|by apply ring_of_empty|done]|done|done].
  - destruct (close_open _ _ Hw Hq) as (Hrep & Hf & _).
    split; [|done|..]; cbn.
    + rewrite (fr_config _ _ Hf). done.
    + by rewrite (fr_closed _ _ Hf).
    + by rewrite (fr_sequence _ _ Hf).
Qed.

Lemma run_refines_one cfg q st op :
  refines cfg q st -> refines cfg (run q op) (spec_run cfg st op).
Proof.
  destruct op as [clock v o|[now|]|[now|]|s|]; intros Hrf; pose proof Hrf as [Hcfg Hw Hc Hn].
  - by apply enqueue_refines.
  - cbn [run spec_run]. destruct (take_represents q _ now Hw) as (gone & q1 & Hx & Ht).
    rewrite Hcfg in Ht. destruct (next_waiting _ _) as [e|] eqn:E.
    + destruct Ht as (q' & -> & Hrep & Hcfg' & Hcl & Hsq & _).
      split; [congruence|done|cbn; congruence..].
    + destruct Ht as [-> Hrep]. pose proof (ex_frame _ _ _ _ _ Hx) as Hf.
      split; cbn; [by rewrite (fr_config _ _ Hf)|done|by rewrite (fr_closed _ _ Hf)|
        by rewrite (fr_sequence _ _ Hf)].
  - done.
  - cbn [run spec_run]. destruct (expire_represents q _ now Hw) as (gone & q1 & -> & Hx & Hrep).
    pose proof (ex_frame _ _ _ _ _ Hx) as Hf.
    split; cbn; [by rewrite (fr_config _ _ Hf)|done|by rewrite (fr_closed _ _ Hf)|
      by rewrite (fr_sequence _ _ Hf)].
  - done.
  - cbn [run spec_run]. unfold onAbort. pose proof (rejectEntry_frame q s by_canceled) as Hf.
    split; cbn; [by rewrite (fr_config _ _ Hf)|by apply reject_represents|
      by rewrite (fr_closed _ _ Hf)|by rewrite (fr_sequence _ _ Hf)].
  - by apply close_refines.
Qed.

Lemma new_refines d limits resource retry q :
  new_AdmissionQueue d limits resource retry = Ret q -> refines (q_config q) q spec_init.
Proof.
  intros H. unfold new_AdmissionQueue in H. exc_inv. subst q.
  rename x0 into valid. match goal with H : validateQueueLimits _ _ = Ret _ |- _ =>
    apply validateQueueLimits_ret in H as [_ [[Hi Hb] _]] end.
  split; [done| |done|done]. split_and!; [split|done|done].
  - split; cbn; try done; try lia; try (intros s; rewrite lookup_empty; split; [by intros []|lia]);
      try (intros; set_solver); [apply dll_repr_empty|constructor|..].
    destruct d; [done|]. split; cbn; try constructor; try set_solver; intros; by simplify_map_eq.
  - split; cbn; [intros j; cbn; lia|constructor|set_solver|set_solver].
  - split; cbn; [constructor| |done|done]. intros s. set_solver by lia.
Qed.
(** ** Round-robin fairness *)

(** The keys served before [k]. *)
Fixpoint before (k : string) (r : list string) : list string :=
  match r with
  | [] => []
  | k' :: r => if decide (k' = k) then [] else k' :: before k r
  end.

Lemma before_filter (P : string -> Prop) `{!forall x, Decision (P x)} k r :
  P k -> before k (filter P r) `sublist_of` before k r.
Proof.
  intros Hk. induction r as [|k' r IH]; [done|]. rewrite filter_cons. cbn [before].
  destruct (decide (P k')); cbn [before]; repeat case_decide; subst; try done; [by apply sublist_skip|by apply sublist_cons].
Qed.

Lemma before_app k r r' : k ∈ r -> before k (r ++ r') = before k r.
Proof.
  induction r as [|k' r IH]; intros Hk; [set_solver|]. cbn. case_decide; [done|].
  rewrite IH; [done|set_solver].
Qed.

Lemma before_bound k r : k ∈ r -> (length (before k r) < length r)%nat.
Proof.
  induction r as [|k' r IH]; intros Hk; [set_solver|]. cbn. case_decide; cbn; [lia|].
  assert (k ∈ r) by set_solver. specialize (IH H0). lia.
Qed.

Lemma before_sublist k r : before k r `sublist_of` r.
Proof. induction r as [|k' r IH]; [done|]. cbn. case_decide; [apply sublist_nil_l|by apply sublist_skip]. Qed.

(** The key a call serves. *)
Definition granted q (op : operation) : option string :=
  match op with
  | Take clock =>
      match take q clock with
      | Ret (Some lease, _) => Some (default EmptyString (lease_fairnessKey lease))
      | _ => None
      end
  | _ => None
  end.

(** The keys that calls serve, one for each lease, in their order. *)
Fixpoint served q (ops : list operation) : list string :=
  match ops with
  | [] => []
  | op :: ops => option_list (granted q op) ++ served (run q op) ops
  end.

(** An admission of key [k] waits all along, and none is served. *)
Fixpoint waits (k : string) q (ops : list operation) : Prop :=
  match ops with
  | [] => True
  | op :: ops => granted q op <> Some k /\ k ∈ ring_of (run q op) /\ waits k (run q op) ops
  end.

Lemma retain_ring_before (P : PendingAdmission T -> Prop) `{!forall e, Decision (P e)} k (a : Waiting) :
  k ∈ ring (retain P a) -> before k (ring (retain P a)) `sublist_of` before k (ring a).
Proof. cbn. intros [? _]%list_elem_of_filter. by apply before_filter. Qed.

Lemma serve_ring_before k e (a : Waiting) :
  head (ring a) = Some (ekey e) -> ekey e <> k ->
  k ∈ ring (serve_waiting round_robin e a) ->
  ekey e :: before k (ring (serve_waiting round_robin e a)) `sublist_of` before k (ring a).
Proof.
  cbn [serve_waiting remove_waiting retain ring waiting].
  set (P := fun k => k ∈ _). set (k' := ekey e). intros Hh Hne. unfold rotate_ring.
  destruct (ring a) as [|k0 r]; [done|]. cbn in Hh. injection Hh as ->.
  cbn [before]. rewrite (decide_False (P := k' = k)) by done.
  rewrite filter_cons. destruct (decide (P k')) as [HP|HP].
  - rewrite decide_True by set_solver. rewrite filter_cons_False by tauto.
    rewrite elem_of_app, filter_filter_and, list_elem_of_filter. intros [[[? Hk] ?]|?]; [|set_solver].
    rewrite before_app by (rewrite list_elem_of_filter; tauto).
    apply sublist_skip, before_filter. tauto.
  - rewrite decide_False by (rewrite list_elem_of_filter; tauto).
    intros [Hk _]%list_elem_of_filter. by apply sublist_skip, before_filter.
Qed.

(** One call serves no key but the first of the ring, which is then no longer
    before [k]; no key comes before [k] anew. *)
Lemma before_step cfg q st op k :
  refines cfg q st -> q_discipline cfg = round_robin ->
  k ∈ ring_of q -> granted q op <> Some k -> k ∈ ring_of (run q op) ->
  option_list (granted q op) ++ before k (ring_of (run q op)) `sublist_of` before k (ring_of q).
Proof.
  intros Hrf Hd Hk Hg. pose proof (run_refines_one _ _ _ op Hrf) as Hrf'.
  pose proof Hrf as [Hcfg Hw _ _].
  rewrite (proj1 (proj2 Hw)) in Hk |- *.
  rewrite (proj1 (proj2 (rf_waiting _ _ _ Hrf'))).
  destruct op as [clock v o|clock|[now|]|s|]; cbn [granted spec_run st_waiting option_list app] in *.
  - unfold spec_enqueue. destruct clock as [now|]; [|done].
    destruct (accepted_bytes _ _) as [b|]; [|done].
    destruct (refusal _ _ _ _ _); [done|]. cbn [st_waiting]. set (e := MkPending _ _ _ _ _ _ _).
    assert (Hadd : before k (ring (add_waiting (q_discipline cfg) e (st_waiting st))) `sublist_of`
      before k (ring (st_waiting st))).
    { cbn. repeat case_decide; [done..|]. by rewrite before_app. }
    destruct (decide (aborted_after_listening <$> _ = _)); [|done].
    intros Hr%retain_ring_before. unfold remove_waiting. by etrans.
  - destruct clock as [now|]; [|done].
    destruct (take_represents q _ now Hw) as (gone & q1 & Hx & Ht).
    rewrite Hcfg, Hd in Ht. cbn [st_waiting]. rewrite Hd.
    destruct (next_waiting round_robin _) as [e|] eqn:E.
    + destruct Ht as [q' Ht]. cbv zeta in Ht. destruct Ht as [Ht _]. rewrite Ht in Hg |- *. cbn in Hg.
      intros Hr. pose proof (next_waiting_key _ _ E) as Hh.
      assert (Hne : ekey e <> k) by (unfold ekey; congruence).
      pose proof (serve_ring_before _ _ _ Hh Hne Hr) as Hs.
      assert (Hin : k ∈ ring (expire_waiting now (st_waiting st))).
      { cbn [serve_waiting ring remove_waiting retain waiting] in Hr. unfold rotate_ring in Hr.
        destruct (decide (ekey e ∈ _)); [|by apply list_elem_of_filter in Hr as [_ ?]].
        apply elem_of_app in Hr as [Hr|Hr]; [|set_solver].
        apply list_elem_of_filter in Hr as [_ Hr]. by apply list_elem_of_filter in Hr as [_ ?]. }
      apply retain_ring_before in Hin. etrans; [exact Hs|exact Hin].
    + destruct Ht as [Ht _]. rewrite Ht. exact (retain_ring_before _ k _).
  - exact (retain_ring_before _ k _).
  - done.
  - exact (retain_ring_before _ k _).
  - intros Hr. set_solver.
Qed.

Lemma served_before cfg q st ops k :
  refines cfg q st -> q_discipline cfg = round_robin -> k ∈ ring_of q -> waits k q ops ->
  served q ops `sublist_of` before k (ring_of q).
Proof.
  revert q st. induction ops as [|op ops IH]; intros q st Hrf Hd Hk; cbn [waits served]; [intros _; apply sublist_nil_l|].
  intros (Hg & Hk' & Hw).
  etrans; [|by eapply before_step]. apply sublist_app; [done|].
  by eapply IH; [by apply run_refines_one|..].
Qed.

Lemma ring_NoDup cfg q st : refines cfg q st -> q_discipline cfg = round_robin -> NoDup (ring_of q).
Proof.
  intros [Hcfg ([Hm _ _] & _) _ _] Hd. pose proof (mo_groups _ _ Hm) as Hg. rewrite Hcfg, Hd in Hg. apply (go_keys _ _ _ _ Hg).
Qed.

(** ** The log of settlements only grows *)

Lemma rejectEntry_log q s reason : q_settled q `prefix_of` q_settled (rejectEntry q s reason).
Proof.
  unfold rejectEntry. case_decide; [|done]. cbn. rewrite detach_settled. by apply prefix_app_r.
Qed.

Lemma run_log q a op : represents q a -> q_settled q `prefix_of` q_settled (run q op).
Proof.
  intros Hw. destruct op as [clock v o|[now|]|[now|]|s|]; cbn [run].
  - destruct (enqueue q clock v o) as [[q' t]|] eqn:He; [|done].
    unfold enqueue in He. exc_inv.
    match goal with H : (if q_isClosed q then _ else _) = _ |- _ => rename H into Hr end.
    repeat match type of Hr with (if ?b then _ else _) = _ =>
      destruct b; [apply ret_pair_inj in Hr as [<- _]; done|] end.
    apply ret_pair_inj in Hr as [<- _]. destruct (match req_signal o with Some sg => _ | None => _ end); [|done].
    apply (rejectEntry_log (wait_for_turn q _)).
  - destruct (take_represents q _ now Hw) as (gone & q1 & Hx & Ht).
    destruct (next_waiting _ _).
    + destruct Ht as [q' Ht]. cbv zeta in Ht. destruct Ht as (-> & _ & _ & _ & _ & ->). by apply prefix_app_r.
    + destruct Ht as [-> _]. rewrite (ex_log _ _ _ _ _ Hx). by apply prefix_app_r.
  - done.
  - destruct (expire_represents q _ now Hw) as (gone & q1 & -> & Hx & _).
    rewrite (ex_log _ _ _ _ _ Hx). by apply prefix_app_r.
  - done.
  - apply rejectEntry_log.
  - destruct (q_isClosed q) eqn:Hq; [unfold close; by rewrite Hq|].
    destruct (close_open _ _ Hw Hq) as (_ & _ & ->). by apply prefix_app_r.
Qed.

Lemma run_all_refines cfg q st ops :
  refines cfg q st -> refines cfg (run_all q ops) (foldl (spec_run cfg) st ops).
Proof.
  revert q st. induction ops as [|op ops IH]; intros q st Hrf; [done|]. cbn.
  by apply IH, run_refines_one.
Qed.

Lemma new_run_all d limits resource retry q ops :
  new_AdmissionQueue d limits resource retry = Ret q ->
  refines (q_config q) (run_all q ops) (foldl (spec_run (q_config q)) spec_init ops).
Proof. intros H. by eapply run_all_refines, new_refines. Qed.

Lemma new_discipline d limits resource retry q :
  new_AdmissionQueue d limits resource retry = Ret q -> q_discipline (q_config q) = d.
Proof. intros H. unfold new_AdmissionQueue in H. exc_inv. by subst q. Qed.
End props.

(** ** Properties *)

(** C13: whatever sequence of [enqueue], [take], [expire], [close] calls and
    abort events a new queue receives, it stands for the abstract queue those
    calls produce: the arrival list, the ring of round-robin keys, the closed
    flag and the next sequence number; and its linked lists, groups, heap and
    counters agree with that list. *)
Theorem admission_refinement {T} d limits resource retry (q : AdmissionQueue T) (ops : list operation) :
  new_AdmissionQueue d limits resource retry = Ret q ->
  refines (q_config q) (run_all q ops) (foldl (spec_run (q_config q)) spec_init ops).
Proof. apply new_run_all. Qed.

(** C31: a lease is granted to the admission the discipline names among those
    not yet due, after every admission due by then has been rejected for the
    reason it carried, in order of expiry, and the lease carries what was
    enqueued; with nothing left to serve [take] grants nothing. *)
Theorem take_serves_next {T} d limits resource retry (q0 : AdmissionQueue T) (ops : list operation) (now : Z) :
  new_AdmissionQueue d limits resource retry = Ret q0 ->
  let q := run_all q0 ops in
  let st := foldl (spec_run (q_config q0)) spec_init ops in
  let a := expire_waiting now (st_waiting st) in
  exists gone q',
    gone ≡ₚ filter (fun e => expiresAtMs e <= now)%Z (waiting (st_waiting st)) /\
    StronglySorted expires_first gone /\
    match next_waiting d a with
    | None =>
        take q (Finite now) = Ret (None, q') /\ waiting a = [] /\
        q_settled q' = q_settled q ++ reject_log gone
    | Some e =>
        let lease := {| lease_value := value e; lease_fairnessKey := fairnessKey e;
                        lease_bytes := bytes e; lease_enqueuedAtMs := enqueuedAtMs e;
                        lease_admittedAtMs := now;
                        lease_queueAgeMs := Z.max 0 (now - enqueuedAtMs e);
                        lease_turn := S (q_turns q) |} in
        take q (Finite now) = Ret (Some lease, q') /\ (now < expiresAtMs e)%Z /\
        q_settled q' = q_settled q ++ reject_log gone ++ [(sequence e, Resolved lease)]
    end.
Proof.
  intros Hnew q st a. pose proof (new_run_all _ _ _ _ _ ops Hnew) as [Hcfg Hw _ _].
  fold q st in Hcfg, Hw. pose proof (new_discipline _ _ _ _ _ Hnew) as Hd.
  destruct (take_represents q _ now Hw) as (gone & q1 & Hx & Ht). rewrite Hcfg, Hd in Ht.
  exists gone. fold a in Ht.
  assert (Hg : gone ≡ₚ filter (fun e => expiresAtMs e <= now)%Z (waiting (st_waiting st))).
  { rewrite (ex_gone _ _ _ _ _ Hx). erewrite filter_ext_elem; [done|]. unfold live. lia. }
  destruct (next_waiting d a) as [e|] eqn:E.
  - destruct Ht as [q' Ht]. cbv zeta in Ht. destruct Ht as (Ht & _ & _ & _ & _ & Hlog).
    exists q'. cbv zeta. split_and!; [done|apply Hx|done| |done].
    apply next_waiting_elem, list_elem_of_filter in E. apply E.
  - destruct Ht as [Ht Hrep]. exists q1. split_and!; [done|apply Hx|done| |apply Hx].
    apply (next_waiting_none q1); [done|].
    by rewrite (fr_config _ _ (ex_frame _ _ _ _ _ Hx)), Hcfg, Hd.
Qed.

Lemma run_all_log {T} cfg (q : AdmissionQueue T) st ops :
  refines cfg q st -> q_settled q `prefix_of` q_settled (run_all q ops).
Proof.
  revert q st. induction ops as [|op ops IH]; intros q st Hrf; [done|]. cbn.
  etransitivity; [|by eapply IH, run_refines_one]. eapply run_log, Hrf.
Qed.

(** C33: every admission [enqueue] named is settled exactly once: at any time it
    is waiting or settled, never both, and a settlement is final; the leases
    carry the turns 1, 2, 3, ... in the order they were granted. *)
Theorem settled_exactly_once {T} d limits resource retry (q0 : AdmissionQueue T) (ops later : list operation) :
  new_AdmissionQueue d limits resource retry = Ret q0 ->
  let q := run_all q0 ops in
  NoDup ((q_settled q).*1) /\
  (forall s, (1 <= s <= q_sequence q)%nat <-> s ∈ q_active q \/ s ∈ (q_settled q).*1) /\
  (forall s, s ∈ q_active q -> s ∉ (q_settled q).*1) /\
  lease_turns (q_settled q) = seq 1 (q_turns q) /\ q_admitted q = q_turns q /\
  q_settled q `prefix_of` q_settled (run_all q later).
Proof.
  intros Hnew q. pose proof (new_run_all _ _ _ _ _ ops Hnew) as Hrf. fold q in Hrf.
  destruct (rf_waiting _ _ _ Hrf) as ([Hm _ Hs] & _). split_and!; try apply Hs.
  - intros s. rewrite (si_done _ Hs). destruct (decide (s ∈ q_active q)) as [Ha|Ha]; [|tauto].
    split; [by left|]. intros _. apply (mo_range _ _ _ Hm).
    rewrite <-(elem_of_list_to_set (C := gset nat)), <-(mo_active _ _ Hm). done.
  - intros s Ha [_ ?]%(si_done _ Hs). done.
  - by eapply run_all_log.
Qed.

(** C35: the counters are those of the waiting admissions and never pass the
    configured capacity, in items or in bytes. *)
Theorem admission_within_capacity {T} d limits resource retry (q0 : AdmissionQueue T) (ops : list operation) :
  new_AdmissionQueue d limits resource retry = Ret q0 ->
  let q := run_all q0 ops in
  let st := foldl (spec_run (q_config q0)) spec_init ops in
  let cap := capacity (q_limits (q_config q0)) in
  q_queuedItems q = Z.of_nat (size (q_active q)) /\
  q_queuedBytes q = sum_bytes (waiting (st_waiting st)) /\
  (0 <= q_queuedItems q <= maxItems cap)%Z /\ (0 <= q_queuedBytes q <= maxBytes cap)%Z.
Proof.
  intros Hnew q st cap. pose proof (new_run_all _ _ _ _ _ ops Hnew) as Hrf. fold q st in Hrf.
  destruct (rf_waiting _ _ _ Hrf) as (Hi & _). pose proof Hi as [Hm _ _].
  pose proof (mo_items_cap _ _ Hm) as Hc1. pose proof (mo_bytes_cap _ _ Hm) as Hc2.
  rewrite (rf_config _ _ _ Hrf) in Hc1, Hc2. rewrite <-(queue_inv_size _ _ Hi).
  split_and!; [apply Hm|apply Hm| |done| |done].
  - rewrite (mo_items _ _ Hm). lia.
  - rewrite (mo_bytes _ _ Hm). apply sum_bytes_nonneg. intros e He.
    eapply (mo_wf _ _ Hm), (mo_entries _ _ Hm), He.
Qed.

(** C36: bounded waiting. While an admission of key [k] waits unserved, a
    round-robin queue serves each of the keys ahead of [k] in the ring at most
    once, in the order of the ring, and no other key, however many requests of
    whatever keys arrive meanwhile; so fewer leases are granted than there are
    keys. *)
Theorem round_robin_bounded_wait {T} limits resource retry (q0 : AdmissionQueue T)
    (before_ ops : list operation) (k : string) :
  new_AdmissionQueue round_robin limits resource retry = Ret q0 ->
  let q := run_all q0 before_ in
  k ∈ ring_of q -> waits k q ops ->
  served q ops `sublist_of` before k (ring_of q) /\ NoDup (served q ops) /\
  (length (served q ops) <= length (before k (ring_of q)) < length (ring_of q))%nat.
Proof.
  intros Hnew q Hk Hw. pose proof (new_run_all _ _ _ _ _ before_ Hnew) as Hrf. fold q in Hrf.
  assert (Hs : served q ops `sublist_of` before k (ring_of q)).
  { eapply served_before; [done| |done..]. by eapply new_discipline. }
  split; [done|]. split; [|by split; [by apply sublist_length|by apply before_bound]].
  eapply sublist_NoDup; [eapply ring_NoDup; [done|by eapply new_discipline]|]. etrans; [exact Hs|apply before_sublist].
Qed.

(** [expire] rejects exactly the admissions due by [now], reports how many,
    and leaves the others in order; the ring keeps the keys that still wait. *)
Theorem expire_exact {T} d limits resource retry (q0 : AdmissionQueue T) (ops : list operation) (now : Z) :
  new_AdmissionQueue d limits resource retry = Ret q0 ->
  let q := run_all q0 ops in
  let w := waiting (st_waiting (foldl (spec_run (q_config q0)) spec_init ops)) in
  exists gone q',
    expire q (Finite now) = Ret (length gone, q') /\
    gone ≡ₚ filter (fun e => expiresAtMs e <= now)%Z w /\
    q_settled q' = q_settled q ++ reject_log gone /\
    q_active q' = list_to_set (sequence <$> filter (live now) w) /\
    ring_of q' = filter (fun k => k ∈ ekey <$> filter (live now) w) (ring_of q).
Proof.
  intros Hnew q w. pose proof (new_run_all _ _ _ _ _ ops Hnew) as [_ Hw _ _]. fold q in Hw.
  destruct (expire_represents q _ now Hw) as (gone & q' & He & Hx & _).
  exists gone, q'. split_and!; [done| |apply Hx|apply (ex_inv _ _ _ _ _ Hx)|apply Hx].
  rewrite (ex_gone _ _ _ _ _ Hx). erewrite filter_ext_elem; [done|]. unfold live. lia.
Qed.

(** C37: [enqueue] with acceptable arguments refuses for the first reason that
    applies to the admissions that wait, and settles the ticket with it;
    otherwise the admission waits as the newest, until its deadline if that
    comes no later than its age limit. *)
Theorem enqueue_decides {T} d limits resource retry (q0 : AdmissionQueue T) (ops : list operation)
    (now b : Z) (v : T) (o : AdmissionRequestOptions) :
  new_AdmissionQueue d limits resource retry = Ret q0 ->
  let q := run_all q0 ops in
  let st := foldl (spec_run (q_config q0)) spec_init ops in
  accepted_bytes d o = Some b -> aborted_after_listening <$> req_signal o <> Some true ->
  match refusal (q_limits (q_config q0)) st now b o with
  | Some reason => enqueue q (Finite now) v o = Ret (reject_total q reason, RejectedImmediately reason)
  | None => exists q' e,
      enqueue q (Finite now) v o = Ret (q', Pending (sequence e)) /\
      sequence e = S (q_sequence q) /\ value e = v /\ bytes e = b /\
      expiresAtMs e = match req_deadlineMs o with
                      | Some (Finite t) => Z.min t (now + maxAgeMs (q_limits (q_config q0)))
                      | _ => now + maxAgeMs (q_limits (q_config q0))
                      end%Z /\
      q_list q' = dll_append (q_list q) (sequence e) /\ q_settled q' = q_settled q /\
      represents q' (add_waiting d e (st_waiting st))
  end.
Proof.
  intros Hnew q st Hb Hs. pose proof (new_run_all _ _ _ _ _ ops Hnew) as Hrf. fold q st in Hrf.
  pose proof (rf_config _ _ _ Hrf) as Hcfg. pose proof (new_discipline _ _ _ _ _ Hnew) as Hd.
  rewrite <-Hcfg in *. rewrite <-Hd in *. rewrite (enqueue_decision _ _ _ _ _ _ Hrf Hb).
  destruct (refusal _ _ _ _ _) eqn:Hr; [done|].
  destruct (pending_of_admissible _ _ now v o b Hrf Hb Hr) as [Had Hq].
  cbv zeta. rewrite (decide_False (P := aborted_after_listening <$> _ = _)) by done. do 2 eexists. split_and!; [done..| |done|done|].
  - cbn. destruct (req_deadlineMs o) as [[t|]|]; [case_decide; cbn; lia|done..].
  - apply wait_for_turn_represents; [apply Hrf|done..].
Qed.

(** [close] rejects what waits as closed, in arrival order, empties the
    queue, and every later request is refused as closed. *)
Theorem close_settles_all {T} d limits resource retry (q0 : AdmissionQueue T) (ops : list operation) :
  new_AdmissionQueue d limits resource retry = Ret q0 ->
  let q := run_all q0 ops in
  let st := foldl (spec_run (q_config q0)) spec_init ops in
  q_settled (close q) = q_settled q ++ close_log (waiting (st_waiting st)) /\
  q_active (close q) = ∅ /\ q_isClosed (close q) = true /\
  forall now b v o, accepted_bytes d o = Some b ->
    enqueue (close q) (Finite now) v o =
      Ret (reject_total (close q) by_closed, RejectedImmediately by_closed).
Proof.
  intros Hnew q st. pose proof (new_run_all _ _ _ _ _ ops Hnew) as Hrf. fold q st in Hrf.
  pose proof (new_discipline _ _ _ _ _ Hnew) as Hd. pose proof (close_refines _ _ _ Hrf) as Hrf'.
  cbn [run spec_run] in Hrf'. pose proof (rf_config _ _ _ Hrf') as Hcfg.
  destruct (rf_waiting _ _ _ Hrf') as ([Hm _ _] & _).
  split_and!; [|by rewrite (mo_active _ _ Hm)|by apply Hrf'|].
  - destruct (q_isClosed q) eqn:Hq.
    + unfold close. rewrite Hq. destruct (rf_waiting _ _ _ Hrf) as (_ & _ & Hc).
      by rewrite (Hc Hq), app_nil_r.
    + by destruct (close_open _ _ (rf_waiting _ _ _ Hrf) Hq) as (_ & _ & ->).
  - intros now b v o Hb. rewrite <-Hcfg in Hrf'. rewrite <-Hd, <-Hcfg in Hb.
    by rewrite (enqueue_decision _ _ _ _ _ _ Hrf' Hb).
Qed.

(** ** Witnesses *)

Definition sample_limits : QueueLimits num :=
  MkQueueLimits (MkCapacity (num_of_Z 3) (num_of_Z 100)) (num_of_Z 50).

Definition sample_request (key : string) (b : Z) : AdmissionRequestOptions :=
  {| req_bytes := num_of_Z b; req_fairnessKey := Some key; req_deadlineMs := None; req_signal := None |}.

Definition sample_ops : list (@operation nat) :=
  [Enqueue (Finite 0) 10%nat (sample_request "a" 1); Enqueue (Finite 1) 11%nat (sample_request "a" 2);
   Enqueue (Finite 2) 12%nat (sample_request "b" 3); Take (Finite 10)].

Definition sample_queue (d : AdmissionDiscipline) : AdmissionQueue nat :=
  {| q_config := {| q_discipline := d; q_limits := MkQueueLimits (MkCapacity 3%Z 100%Z) 50%Z;
                    q_resource := reader; q_retryAfterMs := 0 |};
     q_entries := ∅; q_active := ∅; q_list := dll_empty; q_groups := MkGroups [] ∅ ∅ 0;
     q_expiryHeap := []; q_rejectionTotals := fun _ => O; q_queuedItems := 0; q_queuedBytes := 0;
     q_sequence := 0; q_turns := 0; q_admitted := 0; q_isClosed := false; q_settled := [] |}.

Lemma sample_new d : new_AdmissionQueue d sample_limits reader None = Ret (sample_queue d).
Proof. destruct d; vm_compute; reflexivity. Qed.

Lemma admission_refinement_witness :
  refines (q_config (sample_queue fifo)) (run_all (sample_queue fifo) sample_ops)
    (foldl (spec_run (q_config (sample_queue fifo))) spec_init sample_ops).
Proof. exact (admission_refinement fifo sample_limits reader None _ sample_ops (sample_new fifo)). Defined.

(** After the first [a], round-robin serves [b]. *)
Lemma take_serves_next_witness : exists lease q',
  take (run_all (sample_queue round_robin) sample_ops) (Finite 20) = Ret (Some lease, q') /\
  lease_value lease = 12%nat.
Proof.
  pose proof (take_serves_next round_robin sample_limits reader None _ sample_ops 20
    (sample_new round_robin)) as Ht.
  cbv zeta in Ht. destruct Ht as (gone & q' & _ & _ & Ht).
  vm_compute in Ht. destruct Ht as [Ht _]. do 2 eexists. split; [exact Ht|reflexivity].
Defined.

Lemma settled_exactly_once_witness :
  NoDup ((q_settled (run_all (sample_queue fifo) sample_ops)).*1).
Proof.
  exact (proj1 (settled_exactly_once fifo sample_limits reader None _ sample_ops [] (sample_new fifo))).
Defined.

Lemma admission_within_capacity_witness :
  (0 <= q_queuedItems (run_all (sample_queue fifo) sample_ops) <= 3)%Z.
Proof.
  exact (proj1 (proj2 (proj2 (admission_within_capacity fifo sample_limits reader None _ sample_ops
    (sample_new fifo))))).
Defined.

(** Key [b] waits behind one key. *)
Lemma round_robin_bounded_wait_witness :
  let q := run_all (sample_queue round_robin) (List.firstn 3 sample_ops) in
  served q [Take (Finite 10)] = ["a"%string] /\
  served q [Take (Finite 10)] `sublist_of` before "b" (ring_of q) /\
  (length (before "b" (ring_of q)) < length (ring_of q))%nat.
Proof.
  split; [vm_compute; reflexivity|].
  destruct (round_robin_bounded_wait sample_limits reader None (sample_queue round_robin)
    (List.firstn 3 sample_ops) [Take (Finite 10)] "b" (sample_new round_robin)) as (H1 & _ & _ & H2).
  - vm_compute. right. left.
  - vm_compute. split; [discriminate|]. split; [left|exact I].
  - split; [exact H1|exact H2].
Defined.

Lemma expire_exact_witness : exists (gone : list (PendingAdmission nat)) q',
  expire (run_all (sample_queue fifo) sample_ops) (Finite 51) = Ret (length gone, q') /\
  length gone = 1%nat.
Proof.
  destruct (expire_exact fifo sample_limits reader None _ sample_ops 51 (sample_new fifo))
    as (gone & q' & He & Hg & _).
  exists gone, q'. split; [exact He|]. rewrite (Permutation_length Hg). vm_compute. reflexivity.
Defined.

Lemma enqueue_decides_witness : exists q',
  enqueue (run_all (sample_queue fifo) sample_ops) (Finite 60) 13%nat (sample_request "c" 99) =
    Ret (q', RejectedImmediately by_bytes).
Proof.
  pose proof (enqueue_decides fifo sample_limits reader None _ sample_ops 60 99 13%nat
    (sample_request "c" 99) (sample_new fifo)) as H.
  cbv zeta in H. specialize (H ltac:(vm_compute; reflexivity) ltac:(vm_compute; discriminate)).
  match type of H with match ?r with _ => _ end =>
    replace r with (Some by_bytes) in H by (vm_compute; reflexivity) end.
  eexists. exact H.
Defined.

Lemma close_settles_all_witness :
  q_active (close (run_all (sample_queue round_robin) sample_ops)) = ∅.
Proof.
  exact (proj1 (proj2 (close_settles_all round_robin sample_limits reader None _ sample_ops
    (sample_new round_robin)))).
Defined.
