(* ===== verification/Base64.v ===== *)
(** Base64 over byte arrays: the ECMAScript implementation of
    [bytesToBase64] and [base64ToBytes] in [core/src/wire.ts].

    The engine's own [toBase64]/[fromBase64], which the module prefers when it
    exists, is not code of the repository. Strings are walked character by
    character; a character outside ASCII is several bytes here and one or two
    code units in the source, and is refused with the same error by both. *)
From Stdlib Require Import Strings.Byte.
From S2P Require Import Prelude Errors.
Local Open Scope Z_scope.

Definition invalid_base64 {A} : exc js_error A := Throw (WireError "invalid base64 in wire bytes value").

Definition BASE64_ALPHABET : string := "ABCDEFGHIJKLMNOPQRSTUVWXYZabcdefghijklmnopqrstuvwxyz0123456789+/".

Definition BASE64_PAD : Ascii.ascii := Ascii.ascii_of_nat 61.

Definition byte_Z (b : byte) : Z := Z.of_N (Byte.to_N b).

(** A store into a [Uint8Array] keeps the low eight bits. *)
Definition Z_byte (z : Z) : byte := default x00 (Byte.of_N (Z.to_N (z mod 256))).

(** [BASE64_ALPHABET\[i\]] *)
Definition alphabet (i : Z) : Ascii.ascii :=
  nth (Z.to_nat i) (chars BASE64_ALPHABET) BASE64_PAD.

(** [pairs\[i\]] *)
Definition pairs (i : Z) : list Ascii.ascii := [alphabet (Z.shiftr i 6); alphabet (Z.land i 63)].

(** The position of a character in the alphabet: [codes\[charCode\]], [None] for -1. *)
Fixpoint position (c : Ascii.ascii) (l : list Ascii.ascii) (i : Z) : option Z :=
  match l with
  | [] => None
  | x :: l => if decide (x = c) then Some i else position c l (i + 1)
  end.

Definition codes (c : Ascii.ascii) : option Z := position c (chars BASE64_ALPHABET) 0.

Fixpoint base64_groups (bytes : list byte) : list Ascii.ascii :=
  match bytes with
  | a :: b :: c :: rest =>
      let group := Z.lor (Z.lor (Z.shiftl (byte_Z a) 16) (Z.shiftl (byte_Z b) 8)) (byte_Z c) in
      pairs (Z.shiftr group 12) ++ pairs (Z.land group 0xfff) ++ base64_groups rest
  | [a] => pairs (Z.shiftl (byte_Z a) 4) ++ [BASE64_PAD; BASE64_PAD]
  | [a; b] =>
      let group := Z.shiftl (Z.lor (Z.shiftl (byte_Z a) 8) (byte_Z b)) 2 in
      pairs (Z.shiftr group 6) ++ [alphabet (Z.land group 63); BASE64_PAD]
  | [] => []
  end.

Definition bytesToBase64 (bytes : list byte) : string := of_chars (base64_groups bytes).

Definition base64Code (c : Ascii.ascii) : exc js_error Z :=
  match codes c with Some value => Ret value | None => invalid_base64 end.

(** The loop over the full groups, four characters a turn. *)
Fixpoint decode_groups (text : list Ascii.ascii) : exc js_error (list byte) :=
  match text with
  | c0 :: c1 :: c2 :: c3 :: rest =>
      v0 ← base64Code c0; v1 ← base64Code c1; v2 ← base64Code c2; v3 ← base64Code c3;
      let group := Z.lor (Z.lor (Z.lor (Z.shiftl v0 18) (Z.shiftl v1 12)) (Z.shiftl v2 6)) v3 in
      out ← decode_groups rest;
      Ret (Z_byte (Z.shiftr group 16) :: Z_byte (Z.land (Z.shiftr group 8) 0xff) ::
           Z_byte (Z.land group 0xff) :: out)
  | _ => Ret []
  end.

(** The trailing group. *)
Definition decode_tail (tail : list Ascii.ascii) : exc js_error (list byte) :=
  match tail with
  | [] => Ret []
  | [c0; c1] =>
      v0 ← base64Code c0; v1 ← base64Code c1;
      let group := Z.lor (Z.shiftl v0 6) v1 in
      if decide (Z.land group 0xf = 0) then Ret [Z_byte (Z.shiftr group 4)] else invalid_base64
  | [c0; c1; c2] =>
      v0 ← base64Code c0; v1 ← base64Code c1; v2 ← base64Code c2;
      let group := Z.lor (Z.lor (Z.shiftl v0 12) (Z.shiftl v1 6)) v2 in
      if decide (Z.land group 0x3 = 0)
      then Ret [Z_byte (Z.shiftr group 10); Z_byte (Z.land (Z.shiftr group 2) 0xff)]
      else invalid_base64
  | _ => invalid_base64
  end.

(** Where the data characters end. *)
Definition data_end (text : list Ascii.ascii) : nat :=
  let length := length text in
  if decide (text !! (length - 1)%nat = Some BASE64_PAD) then
    if decide (text !! (length - 2)%nat = Some BASE64_PAD) then (length - 2)%nat else (length - 1)%nat
  else length.

Definition base64ToBytes (text : string) : exc js_error (list byte) :=
  let text := chars text in
  if decide (length text mod 4 = 0)%nat then
    let dataEnd := data_end text in
    let fullEnd := (4 * (dataEnd / 4))%nat in
    full ← decode_groups (take fullEnd text);
    tail ← decode_tail (drop fullEnd (take dataEnd text));
    Ret (full ++ tail)
  else invalid_base64.

(** ** Characters *)

Lemma byte_Z_range b : 0 <= byte_Z b < 256.
Proof. unfold byte_Z. pose proof (Byte.to_N_bounded b). lia. Qed.

Lemma Z_byte_Z b : Z_byte (byte_Z b) = b.
Proof.
  unfold Z_byte, byte_Z. pose proof (Byte.to_N_bounded b).
  rewrite Z.mod_small by lia. by rewrite N2Z.id, Byte.of_to_N.
Qed.

Lemma byte_Z_byte z : 0 <= z < 256 -> byte_Z (Z_byte z) = z.
Proof.
  intros Hz. unfold Z_byte. rewrite Z.mod_small by done.
  destruct (Byte.of_N (Z.to_N z)) as [b|] eqn:Hb.
  - cbn. apply Byte.to_of_N in Hb. unfold byte_Z. rewrite Hb. lia.
  - apply Byte.of_N_None_iff in Hb. lia.
Qed.

Lemma codes_alphabet i : 0 <= i < 64 -> codes (alphabet i) = Some i.
Proof.
  intros Hi. rewrite <-(Z2Nat.id i) by lia.
  assert (Hn : (Z.to_nat i < 64)%nat) by lia. revert Hn. generalize (Z.to_nat i). clear.
  assert (H : forallb (fun n => bool_decide (codes (alphabet (Z.of_nat n)) = Some (Z.of_nat n)))
    (seq 0 64) = true) by (vm_compute; reflexivity).
  intros n Hn. rewrite forallb_forall in H. specialize (H n).
  rewrite List.in_seq in H. specialize (H ltac:(lia)). by apply bool_decide_eq_true in H.
Qed.

Lemma alphabet_codes c i : codes c = Some i -> alphabet i = c /\ 0 <= i < 64.
Proof.
  assert (H : forall n, (n < 256)%nat ->
    match codes (Ascii.ascii_of_nat n) with
    | Some i => bool_decide (alphabet i = Ascii.ascii_of_nat n) && (0 <=? i) && (i <? 64)
    | None => true end = true).
  { assert (H : forallb (fun n => match codes (Ascii.ascii_of_nat n) with
      | Some i => bool_decide (alphabet i = Ascii.ascii_of_nat n) && (0 <=? i) && (i <? 64)
      | None => true end) (seq 0 256) = true) by (vm_compute; reflexivity).
    intros n Hn. rewrite forallb_forall in H. apply H, List.in_seq. lia. }
  intros Hc. specialize (H (Ascii.nat_of_ascii c) (Ascii.nat_ascii_bounded c)).
  rewrite Ascii.ascii_nat_embedding, Hc in H.
  apply andb_prop in H as [[?%bool_decide_eq_true ?]%andb_prop ?]. lia || (split; [done|lia]).
Qed.

Lemma codes_pad : codes BASE64_PAD = None.
Proof. reflexivity. Qed.

Lemma alphabet_not_pad i : 0 <= i < 64 -> alphabet i <> BASE64_PAD.
Proof. intros Hi E. pose proof (codes_alphabet i Hi) as H. rewrite E, codes_pad in H. done. Qed.

Lemma base64Code_ret c v : base64Code c = Ret v <-> codes c = Some v.
Proof. unfold base64Code. destruct (codes c); naive_solver. Qed.

Lemma base64Code_alphabet i : 0 <= i < 64 -> base64Code (alphabet i) = Ret i.
Proof. intros. by apply base64Code_ret, codes_alphabet. Qed.

(** ** Bit fields *)

Lemma lor_shiftl_add a c n : 0 <= n -> 0 <= c < 2 ^ n -> Z.lor (Z.shiftl a n) c = a * 2 ^ n + c.
Proof.
  intros Hn Hc. rewrite <-Z.shiftl_mul_pow2 by done.
  pose proof (Z.add_lor_land (Z.shiftl a n) c) as Hs.
  replace (Z.land (Z.shiftl a n) c) with 0 in Hs; [lia|].
  symmetry. apply Z.bits_inj'. intros m Hm. rewrite Z.land_spec, Z.shiftl_spec, Z.bits_0 by done.
  destruct (decide (m < n)).
  - by rewrite Z.testbit_neg_r by lia.
  - rewrite <-(Z.mod_small c (2 ^ n)) by done. rewrite Z.mod_pow2_bits_high by lia.
    apply andb_false_r.
Qed.

Definition word3 (a b c : Z) : Z := a * 65536 + b * 256 + c.
Definition word4 (v0 v1 v2 v3 : Z) : Z := v0 * 262144 + v1 * 4096 + v2 * 64 + v3.

Lemma group3 a b c :
  0 <= a < 256 -> 0 <= b < 256 -> 0 <= c < 256 ->
  Z.lor (Z.lor (Z.shiftl a 16) (Z.shiftl b 8)) c = word3 a b c.
Proof.
  intros. unfold word3. rewrite (Z.shiftl_mul_pow2 b) by lia.
  rewrite lor_shiftl_add by lia. replace (a * 2 ^ 16 + b * 2 ^ 8) with (Z.shiftl (a * 256 + b) 8)
    by (rewrite Z.shiftl_mul_pow2; lia).
  rewrite lor_shiftl_add; lia.
Qed.

Lemma group4 v0 v1 v2 v3 :
  0 <= v0 < 64 -> 0 <= v1 < 64 -> 0 <= v2 < 64 -> 0 <= v3 < 64 ->
  Z.lor (Z.lor (Z.lor (Z.shiftl v0 18) (Z.shiftl v1 12)) (Z.shiftl v2 6)) v3 = word4 v0 v1 v2 v3.
Proof.
  intros. unfold word4. rewrite (Z.shiftl_mul_pow2 v1), (Z.shiftl_mul_pow2 v2) by lia.
  rewrite lor_shiftl_add by lia.
  replace (v0 * 2 ^ 18 + v1 * 2 ^ 12) with (Z.shiftl (v0 * 64 + v1) 12) by (rewrite Z.shiftl_mul_pow2; lia).
  rewrite lor_shiftl_add by lia.
  replace ((v0 * 64 + v1) * 2 ^ 12 + v2 * 2 ^ 6) with (Z.shiftl (v0 * 4096 + v1 * 64 + v2) 6)
    by (rewrite Z.shiftl_mul_pow2; lia).
  rewrite lor_shiftl_add; lia.
Qed.

Lemma group2 x y n : 0 <= n -> 0 <= y < 2 ^ n -> Z.lor (Z.shiftl x n) y = x * 2 ^ n + y.
Proof. apply lor_shiftl_add. Qed.

Lemma pairs_div i : pairs i = [alphabet (i / 64); alphabet (i mod 64)].
Proof.
  unfold pairs. change 63 with (Z.ones 6). by rewrite Z.shiftr_div_pow2, Z.land_ones by lia.
Qed.

(** ** Groups *)

(** Equality of two spelled-out groups, character by character. *)
Ltac spell :=
  cbn [app];
  repeat (refine (f_equal2 (@cons _) (f_equal alphabet _) _));
  try reflexivity; Z.div_mod_to_equations; lia.

(** One full group: three bytes and their four characters. *)
Definition chars_of (g : Z) : list Ascii.ascii :=
  [alphabet (g / 262144); alphabet (g / 4096 mod 64); alphabet (g / 64 mod 64); alphabet (g mod 64)].

Lemma base64_groups_cons a b c rest :
  base64_groups (a :: b :: c :: rest) =
    chars_of (word3 (byte_Z a) (byte_Z b) (byte_Z c)) ++ base64_groups rest.
Proof.
  pose proof (byte_Z_range a). pose proof (byte_Z_range b). pose proof (byte_Z_range c).
  cbn [base64_groups]. rewrite group3 by done. set (g := word3 _ _ _).
  assert (0 <= g < 16777216) by (unfold g, word3; lia).
  change 0xfff with (Z.ones 12). rewrite Z.shiftr_div_pow2, Z.land_ones, !pairs_div by lia.
  unfold chars_of. change (2 ^ 12) with 4096. spell.
Qed.

Lemma decode_groups_cons a b c rest :
  decode_groups (chars_of (word3 (byte_Z a) (byte_Z b) (byte_Z c)) ++ rest) =
    (out ← decode_groups rest; Ret (a :: b :: c :: out)).
Proof.
  pose proof (byte_Z_range a). pose proof (byte_Z_range b). pose proof (byte_Z_range c).
  set (g := word3 _ _ _). assert (0 <= g < 16777216) by (unfold g, word3; lia).
  unfold chars_of. cbn [app decode_groups].
  rewrite !base64Code_alphabet by (Z.div_mod_to_equations; lia). cbn [mbind exc_bind].
  rewrite group4 by (Z.div_mod_to_equations; lia).
  replace (word4 _ _ _ _) with g by (unfold word4; Z.div_mod_to_equations; lia).
  change 0xff with (Z.ones 8). rewrite !Z.shiftr_div_pow2, !Z.land_ones by lia.
  change (2 ^ 16) with 65536. change (2 ^ 8) with 256.
  replace (g / 65536) with (byte_Z a) by (unfold g, word3; Z.div_mod_to_equations; lia).
  replace ((g / 256) mod 256) with (byte_Z b) by (unfold g, word3; Z.div_mod_to_equations; lia).
  replace (g mod 256) with (byte_Z c) by (unfold g, word3; Z.div_mod_to_equations; lia).
  by rewrite !Z_byte_Z.
Qed.

Lemma codes_word v0 v1 v2 v3 c0 c1 c2 c3 :
  codes c0 = Some v0 -> codes c1 = Some v1 -> codes c2 = Some v2 -> codes c3 = Some v3 ->
  chars_of (word4 v0 v1 v2 v3) = [c0; c1; c2; c3] /\ 0 <= word4 v0 v1 v2 v3 < 16777216.
Proof.
  intros [<- ?]%alphabet_codes [<- ?]%alphabet_codes [<- ?]%alphabet_codes [<- ?]%alphabet_codes.
  unfold chars_of, word4. split; [|lia].
  spell.
Qed.

(** A decoded group spells the characters it came from. *)
Lemma decode_groups_inv c0 c1 c2 c3 rest out :
  decode_groups (c0 :: c1 :: c2 :: c3 :: rest) = Ret out ->
  exists a b c out', out = a :: b :: c :: out' /\ decode_groups rest = Ret out' /\
    chars_of (word3 (byte_Z a) (byte_Z b) (byte_Z c)) = [c0; c1; c2; c3].
Proof.
  cbn [decode_groups]. intros H. exc_inv. subst out.
  repeat match goal with H : base64Code _ = Ret _ |- _ => apply base64Code_ret in H end.
  destruct (codes_word _ _ _ _ _ _ _ _ H H0 H1 H2) as [<- Hg].
  repeat match goal with H : codes _ = Some _ |- _ => apply alphabet_codes in H as [_ ?] end.
  rewrite group4 by done. set (g := word4 _ _ _ _) in *.
  change 0xff with (Z.ones 8). rewrite !Z.shiftr_div_pow2, !Z.land_ones by lia.
  change (2 ^ 16) with 65536. change (2 ^ 8) with 256.
  do 4 eexists. split_and!; [done|done|].
  rewrite !byte_Z_byte by (Z.div_mod_to_equations; lia). f_equal.
  unfold word3. Z.div_mod_to_equations; lia.
Qed.

(** ** Trailing groups *)

Lemma tail1 a :
  base64_groups [a] = [alphabet (byte_Z a / 4); alphabet (byte_Z a mod 4 * 16)] ++ [BASE64_PAD; BASE64_PAD] /\
  decode_tail [alphabet (byte_Z a / 4); alphabet (byte_Z a mod 4 * 16)] = Ret [a].
Proof.
  pose proof (byte_Z_range a). split.
  - cbn [base64_groups]. rewrite pairs_div, Z.shiftl_mul_pow2 by lia. change (2 ^ 4) with 16. spell.
  - cbn [decode_tail]. rewrite !base64Code_alphabet by (Z.div_mod_to_equations; lia). cbn [mbind exc_bind].
    rewrite lor_shiftl_add by (change (2 ^ 6) with 64; Z.div_mod_to_equations; lia).
    change (2 ^ 6) with 64. change 0xf with (Z.ones 4). rewrite Z.land_ones, Z.shiftr_div_pow2 by lia.
    change (2 ^ 4) with 16. rewrite decide_True by (Z.div_mod_to_equations; lia).
    replace ((byte_Z a / 4 * 64 + byte_Z a mod 4 * 16) / 16) with (byte_Z a)
      by (Z.div_mod_to_equations; lia). by rewrite Z_byte_Z.
Qed.

Lemma tail2 a b :
  let g := (byte_Z a * 256 + byte_Z b) * 4 in
  base64_groups [a; b] = [alphabet (g / 4096); alphabet (g / 64 mod 64); alphabet (g mod 64)] ++ [BASE64_PAD] /\
  decode_tail [alphabet (g / 4096); alphabet (g / 64 mod 64); alphabet (g mod 64)] = Ret [a; b].
Proof.
  intros g. pose proof (byte_Z_range a). pose proof (byte_Z_range b).
  assert (0 <= g < 262144) by (unfold g; lia). split.
  - cbn [base64_groups]. rewrite lor_shiftl_add by lia. rewrite Z.shiftl_mul_pow2 by lia.
    change (2 ^ 8) with 256. change (2 ^ 2) with 4. fold g. rewrite pairs_div, Z.shiftr_div_pow2 by lia.
    change 63 with (Z.ones 6). rewrite Z.land_ones by lia. change (2 ^ 6) with 64. spell.
  - cbn [decode_tail]. rewrite !base64Code_alphabet by (Z.div_mod_to_equations; lia). cbn [mbind exc_bind].
    rewrite (Z.shiftl_mul_pow2 (g / 64 mod 64)) by lia.
    rewrite lor_shiftl_add by (change (2 ^ 6) with 64; change (2 ^ 12) with 4096; Z.div_mod_to_equations; lia).
    change (2 ^ 6) with 64. change (2 ^ 12) with 4096.
    replace (g / 4096 * 4096 + g / 64 mod 64 * 64) with (Z.shiftl (g / 64) 6)
      by (rewrite Z.shiftl_mul_pow2 by lia; change (2 ^ 6) with 64; Z.div_mod_to_equations; lia).
    rewrite lor_shiftl_add by (change (2 ^ 6) with 64; Z.div_mod_to_equations; lia).
    change (2 ^ 6) with 64. replace (g / 64 * 64 + g mod 64) with g by (Z.div_mod_to_equations; lia).
    change 0x3 with (Z.ones 2). change 0xff with (Z.ones 8).
    rewrite !Z.land_ones, !Z.shiftr_div_pow2 by lia.
    change (2 ^ 2) with 4. change (2 ^ 8) with 256. change (2 ^ 10) with 1024.
    rewrite decide_True by (unfold g; Z.div_mod_to_equations; lia).
    replace (g / 1024) with (byte_Z a) by (unfold g; Z.div_mod_to_equations; lia).
    replace (g / 4 mod 256) with (byte_Z b) by (unfold g; Z.div_mod_to_equations; lia).
    by rewrite !Z_byte_Z.
Qed.

(** A tail the decoder accepts is the one the encoder writes. *)
Lemma decode_tail_inv tail out :
  decode_tail tail = Ret out ->
  exists pad, base64_groups out = tail ++ pad /\ (length tail + length pad)%nat = match tail with [] => 0 | _ => 4 end%nat /\
    Forall (eq BASE64_PAD) pad.
Proof.
  destruct tail as [|c0 [|c1 [|c2 [|c3 rest]]]]; cbn [decode_tail]; intros H; try discriminate.
  - injection H as <-. exists []. split_and!; [done|done|constructor].
  - exc_inv. case_decide as Hz; [|discriminate]. simplify_eq.
    repeat match goal with H : base64Code _ = Ret _ |- _ => apply base64Code_ret, alphabet_codes in H as [<- ?] end.
    rewrite lor_shiftl_add in * by lia. change 0xf with (Z.ones 4) in Hz.
    rewrite Z.land_ones in Hz by lia. rewrite Z.shiftr_div_pow2 by lia.
    change (2 ^ 6) with 64 in *. change (2 ^ 4) with 16 in *.
    exists [BASE64_PAD; BASE64_PAD]. split_and!; [|done|by repeat constructor].
    rewrite (proj1 (tail1 _)), byte_Z_byte by (Z.div_mod_to_equations; lia). f_equal. spell.
  - exc_inv. case_decide as Hz; [|discriminate]. simplify_eq.
    repeat match goal with H : base64Code _ = Ret _ |- _ => apply base64Code_ret, alphabet_codes in H as [<- ?] end.
    rewrite (Z.shiftl_mul_pow2 x0), lor_shiftl_add in * by lia.
    change (2 ^ 6) with 64 in *. change (2 ^ 12) with 4096 in *.
    replace (x * 4096 + x0 * 64) with (Z.shiftl (x * 64 + x0) 6) in *
      by (rewrite Z.shiftl_mul_pow2 by lia; change (2 ^ 6) with 64; lia).
    rewrite lor_shiftl_add in * by lia. change (2 ^ 6) with 64 in *.
    change 0x3 with (Z.ones 2) in Hz. change 0xff with (Z.ones 8).
    rewrite Z.land_ones in Hz by lia. rewrite Z.land_ones, !Z.shiftr_div_pow2 by lia.
    change (2 ^ 2) with 4 in *. change (2 ^ 8) with 256. change (2 ^ 10) with 1024.
    exists [BASE64_PAD]. split_and!; [|done|by repeat constructor].
    rewrite (proj1 (tail2 _ _)), !byte_Z_byte by (Z.div_mod_to_equations; lia). f_equal. spell.
Qed.

(** ** Whole strings *)

Lemma chars_not_pad g : 0 <= g < 16777216 -> BASE64_PAD ∉ chars_of g.
Proof.
  intros Hg. unfold chars_of. rewrite !not_elem_of_cons.
  split_and!; try (apply not_eq_sym, alphabet_not_pad; Z.div_mod_to_equations; lia). set_solver.
Qed.

(** The parts of an encoding. *)
Record encoding (bytes : list byte) (full tail pad : list Ascii.ascii) : Prop := {
  en_text : base64_groups bytes = full ++ tail ++ pad;
  en_full : exists k, length full = (4 * k)%nat;
  en_tail : (length tail + length pad)%nat = match tail with [] => 0 | _ => 4 end%nat;
  en_pad : Forall (eq BASE64_PAD) pad;
  en_two : (length pad <= 2)%nat;
  en_short : (length tail < 4)%nat;
  en_data : BASE64_PAD ∉ full ++ tail;
  en_bytes : exists b1 b2, bytes = b1 ++ b2 /\ decode_groups full = Ret b1 /\ decode_tail tail = Ret b2;
}.

Lemma base64_encoding : forall bytes, exists full tail pad, encoding bytes full tail pad.
Proof.
  fix IH 1. intros [|a [|b [|c rest]]].
  - exists [], [], []. split; [done|by exists 0%nat|done|constructor|cbn; lia|cbn; lia|set_solver|].
    by exists [], [].
  - destruct (tail1 a) as [He Hd]. pose proof (byte_Z_range a).
    eexists [], _, _. split; [exact He|by exists 0%nat|done|by repeat constructor|cbn; lia|cbn; lia| |].
    + cbn [app]. rewrite !not_elem_of_cons.
      split_and!; try (apply not_eq_sym, alphabet_not_pad; Z.div_mod_to_equations; lia). set_solver.
    + by exists [], [a].
  - destruct (tail2 a b) as [He Hd]. pose proof (byte_Z_range a). pose proof (byte_Z_range b).
    set (g := (byte_Z a * 256 + byte_Z b) * 4) in *. assert (0 <= g < 262144) by (unfold g; lia).
    eexists [], _, _. split; [exact He|by exists 0%nat|done|by repeat constructor|cbn; lia|cbn; lia| |].
    + cbn [app]. rewrite !not_elem_of_cons.
      split_and!; try (apply not_eq_sym, alphabet_not_pad; Z.div_mod_to_equations; lia). set_solver.
    + by exists [], [a; b].
  - destruct (IH rest) as (full & tail & pad & [He [k Hk] Ht Hp H2 Hs Hd (b1 & b2 & -> & Hg & Hb)]).
    pose proof (byte_Z_range a). pose proof (byte_Z_range b). pose proof (byte_Z_range c).
    exists (chars_of (word3 (byte_Z a) (byte_Z b) (byte_Z c)) ++ full), tail, pad. split.
    + rewrite base64_groups_cons, He. by rewrite <-!app_assoc.
    + exists (S k). rewrite length_app, Hk. cbn. lia.
    + done.
    + done.
    + done.
    + done.
    + rewrite <-app_assoc, not_elem_of_app. split; [|done].
      apply chars_not_pad. unfold word3. lia.
    + exists (a :: b :: c :: b1), b2. split_and!; [done| |done].
      by rewrite decode_groups_cons, Hg.
Qed.

Lemma pad_list (pad : list Ascii.ascii) :
  Forall (eq BASE64_PAD) pad -> (length pad <= 2)%nat ->
  pad = [] \/ pad = [BASE64_PAD] \/ pad = [BASE64_PAD; BASE64_PAD].
Proof.
  destruct pad as [|p [|p' [|p'' pad]]]; cbn; intros Hf Hl; try lia; [tauto|..];
    rewrite ?Forall_cons in Hf; destruct_and!; subst; tauto.
Qed.

Lemma lookup_not_pad (d : list Ascii.ascii) (i : nat) : BASE64_PAD ∉ d -> d !! i <> Some BASE64_PAD.
Proof. intros Hd Hi%list_elem_of_lookup_2. done. Qed.

(** The end of the data is found. *)
Lemma data_end_spec (d pad : list Ascii.ascii) :
  BASE64_PAD ∉ d -> Forall (eq BASE64_PAD) pad -> (length pad <= 2)%nat ->
  (pad <> [] -> d <> []) -> data_end (d ++ pad) = length d.
Proof.
  intros Hd Hp H2 Hne. unfold data_end. rewrite length_app.
  destruct (pad_list _ Hp H2) as [-> | [-> | ->]]; cbn [length].
  - rewrite app_nil_r, Nat.add_0_r. by rewrite decide_False by (by apply lookup_not_pad).
  - specialize (Hne ltac:(done)). destruct d as [|x d _] using rev_ind; [done|].
    rewrite length_app in *. cbn [length]. replace (length d + 1 + 1 - 1)%nat with (length (d ++ [x])) by (rewrite length_app; cbn; lia).
    rewrite list_lookup_middle by done. rewrite decide_True by done.
    rewrite lookup_app_l by (rewrite length_app; cbn; lia).
    rewrite decide_False by (by apply lookup_not_pad). rewrite length_app. cbn. lia.
  - replace (length d + 2 - 1)%nat with (S (length d)) by lia.
    replace (length d + 2 - 2)%nat with (length d) by lia.
    rewrite lookup_app_r, list_lookup_middle by lia. replace (S (length d) - length d)%nat with 1%nat by lia.
    by rewrite !decide_True by done.
Qed.

Lemma base64ToBytes_encoding bytes full tail pad :
  encoding bytes full tail pad -> base64ToBytes (of_chars (full ++ tail ++ pad)) = Ret bytes.
Proof.
  intros [_ [k Hk] Ht Hp H2 Hs Hd (b1 & b2 & -> & Hg & Hb)].
  unfold base64ToBytes. rewrite chars_of_chars.
  rewrite decide_True; cycle 1.
  { rewrite !length_app. apply Nat.Div0.mod_divides. destruct tail; [exists k|exists (k + 1)%nat]; lia. }
  rewrite (app_assoc full), data_end_spec; [|done..|].
  2:{ intros Hne. destruct tail; [|by destruct full]. destruct pad; [done|cbn in Ht; lia]. }
  assert (Hfe : (4 * (length (full ++ tail) / 4) = length full)%nat).
  { rewrite length_app, Hk.
    rewrite (Nat.mul_comm 4 k), Nat.div_add_l by lia. rewrite Nat.div_small by done. lia. }
  cbv zeta. rewrite Hfe, <-app_assoc, take_app_length, Hg. cbn [mbind exc_bind].
  rewrite app_assoc, take_app_length, drop_app_length, Hb. done.
Qed.

(** Decoding an encoding gives the bytes back. *)
Lemma base64_roundtrip_lemma bytes : base64ToBytes (bytesToBase64 bytes) = Ret bytes.
Proof.
  destruct (base64_encoding bytes) as (full & tail & pad & He).
  unfold bytesToBase64. rewrite (en_text _ _ _ _ He). by apply base64ToBytes_encoding.
Qed.

Lemma decode_groups_spells k full b1 b2 :
  length full = (4 * k)%nat -> decode_groups full = Ret b1 ->
  base64_groups (b1 ++ b2) = full ++ base64_groups b2.
Proof.
  revert full b1. induction k as [|k IH]; intros full b1 Hl Hd.
  - destruct full; [|cbn in Hl; lia]. cbn in Hd. by injection Hd as <-.
  - destruct full as [|c0 [|c1 [|c2 [|c3 rest]]]]; cbn [length] in Hl; try lia.
    apply decode_groups_inv in Hd as (a & b & c & out & -> & Hr & Hc).
    change ((a :: b :: c :: out) ++ b2) with (a :: b :: c :: out ++ b2).
    rewrite base64_groups_cons, Hc, (IH rest out) by (done || lia). done.
Qed.

(** What follows the data are at most two padding characters. *)
Lemma data_end_pad (text : list Ascii.ascii) :
  exists pad, text = take (data_end text) text ++ pad /\ Forall (eq BASE64_PAD) pad /\
    (length pad <= 2)%nat /\ (data_end text + length pad)%nat = length text.
Proof.
  exists (drop (data_end text) text). rewrite take_drop, length_drop.
  unfold data_end. case_decide as H1; [case_decide as H2|].
  - pose proof (lookup_lt_Some _ _ _ H1). pose proof (lookup_lt_Some _ _ _ H2).
    destruct (decide (2 <= length text)%nat).
    + rewrite (drop_S _ _ _ H2). replace (S (length text - 2)) with (length text - 1)%nat by lia.
      rewrite (drop_S _ _ _ H1). rewrite drop_ge by lia.
      split_and!; [done|by repeat constructor|lia..].
    + assert (length text = 1)%nat as Hl by lia. rewrite Hl in *. cbn in *.
      destruct text as [|x [|? ?]]; try done. injection H1 as ->.
      split_and!; [done|by repeat constructor|lia..].
  - pose proof (lookup_lt_Some _ _ _ H1).
    rewrite (drop_S _ _ _ H1). rewrite drop_ge by lia.
    split_and!; [done|by repeat constructor|lia..].
  - rewrite drop_ge by lia. split_and!; [done|constructor|lia..].
Qed.

Lemma forall_eq_unique {A} (x : A) l l' :
  Forall (eq x) l -> Forall (eq x) l' -> length l = length l' -> l = l'.
Proof.
  revert l'. induction l as [|y l IH]; intros [|y' l'] H H' Hl; try done.
  rewrite Forall_cons in H, H'. destruct_and!. subst. f_equal. apply IH; [done..|]. cbn in Hl. lia.
Qed.

(** Every byte string has exactly one encoding the decoder accepts. *)
Lemma base64_canonical_lemma text bytes :
  base64ToBytes text = Ret bytes -> bytesToBase64 bytes = text.
Proof.
  unfold base64ToBytes, bytesToBase64. case_decide as Hm; [|done]. cbv zeta. intros H. exc_inv.
  rename x into b1, x0 into b2. subst bytes. set (t := chars text) in *.
  set (n := data_end t) in *. set (f := (4 * (n / 4))%nat) in *.
  destruct (data_end_pad t) as (pad & Ht & Hp & Hp2 & Hlen). fold n in Ht, Hlen.
  assert (Hfn : (f <= n)%nat) by (unfold f; pose proof (Nat.Div0.mul_div_le n 4); lia).
  assert (Hlf : length (take f t) = (4 * (n / 4))%nat) by (rewrite length_take; fold f; lia).
  rewrite (decode_groups_spells (n / 4) (take f t)) by done.
  destruct (decode_tail_inv _ _ H0) as (pad' & -> & Hlp & Hp').
  assert (Hlt : length (drop f (take n t)) = (n - f)%nat) by (rewrite length_drop, length_take; lia).
  assert (pad' = pad) as ->.
  { apply (forall_eq_unique BASE64_PAD); [done..|].
    apply Nat.Div0.mod_divides in Hm as [k Hk].
    assert (n mod 4 < 4)%nat by (apply Nat.mod_upper_bound; lia).
    pose proof (Nat.div_mod_eq n 4) as Hn. fold f in Hn.
    destruct (drop f (take n t)); cbn [length] in *; lia. }
  rewrite <-(of_chars_chars text). fold t. f_equal.
  rewrite app_assoc. rewrite Ht at 3. f_equal.
  rewrite <-(take_drop f (take n t)) at 2. f_equal. rewrite take_take. f_equal. lia.
Qed.

(** ** Properties *)

(** C38: base64 is a round trip, and canonical: the decoder accepts exactly the
    strings the encoder writes, each for the one byte array it encodes. *)
Theorem base64_iff text bytes :
  base64ToBytes text = Ret bytes <-> bytesToBase64 bytes = text.
Proof.
  split; [apply base64_canonical_lemma|]. intros <-. apply base64_roundtrip_lemma.
Qed.
