(* ===== verification/Value.v ===== *)
(** JavaScript values, as far as the wire format, the protocol decoders and
    the database keys see them.

    An object is the list of its own enumerable string-keyed properties in
    property order: array indices ascending, then the others in the order they
    were created. Prototypes are not modelled: an assignment to [__proto__]
    creates no own property. *)
From Stdlib Require Import Strings.Byte DecimalString.
From S2P Require Import Prelude Errors.
Local Open Scope string_scope.
Local Open Scope list_scope.

Inductive value : Type :=
  | VUndefined
  | VNull
  | VBool (b : bool)
  | VNum (n : num)
  | VStr (s : string)
  | VBig (z : Z)
  | VBytes (bytes : list byte)
  | VArr (items : list value)
  | VObj (fields : list (string * value))
  | VOther (type : string).  (* a function or a symbol; [typeof] it *)

(** Induction through the items and the fields. *)
Fixpoint value_nested_ind (P : value -> Prop)
  (Hu : P VUndefined) (Hn : P VNull) (Hb : forall b, P (VBool b)) (Hnum : forall n, P (VNum n))
  (Hs : forall s, P (VStr s)) (Hbig : forall z, P (VBig z)) (Hbytes : forall b, P (VBytes b))
  (Harr : forall l, Forall P l -> P (VArr l))
  (Hobj : forall f, Forall (fun p => P p.2) f -> P (VObj f))
  (Ho : forall t, P (VOther t)) (v : value) : P v :=
  let IH := value_nested_ind P Hu Hn Hb Hnum Hs Hbig Hbytes Harr Hobj Ho in
  match v with
  | VUndefined => Hu | VNull => Hn | VBool b => Hb b | VNum n => Hnum n | VStr s => Hs s
  | VBig z => Hbig z | VBytes b => Hbytes b
  | VArr l => Harr l ((fix go l : Forall P l :=
      match l with [] => List.Forall_nil _ | v :: l => List.Forall_cons _ _ _ (IH v) (go l) end) l)
  | VObj f => Hobj f ((fix go f : Forall (fun p => P p.2) f :=
      match f with [] => List.Forall_nil _ | p :: f => List.Forall_cons _ _ _ (IH p.2) (go f) end) f)
  | VOther t => Ho t
  end.

Fixpoint value_eq_dec (v v' : value) {struct v} : Decision (v = v').
Proof.
  refine (
    match v, v' with
    | VUndefined, VUndefined => left _
    | VNull, VNull => left _
    | VBool b, VBool b' => cast_if (decide (b = b'))
    | VNum n, VNum n' => cast_if (decide (n = n'))
    | VStr s, VStr s' => cast_if (decide (s = s'))
    | VBig z, VBig z' => cast_if (decide (z = z'))
    | VBytes b, VBytes b' => cast_if (List.list_eq_dec Byte.byte_eq_dec b b')
    | VArr l, VArr l' => cast_if (List.list_eq_dec value_eq_dec l l')
    | VObj f, VObj f' => cast_if (List.list_eq_dec (fun p p' =>
        match decide (p.1 = p'.1), value_eq_dec p.2 p'.2 with
        | left _, left _ => left _
        | _, _ => right _
        end) f f')
    | VOther t, VOther t' => cast_if (decide (t = t'))
    | _, _ => right _
    end); try congruence; try (destruct p, p'; cbn in *; congruence).
Defined.

#[export] Instance value_eq_decision : EqDecision value := value_eq_dec.

Definition is_undefined (v : value) : bool := match v with VUndefined => true | _ => false end.

(** ** Own properties *)

(** An array index: a canonical decimal below 2^32 - 1. *)
Definition digit (a : Ascii.ascii) : option Z :=
  let z := (byte_of a - 48)%Z in if decide (0 <= z < 10)%Z then Some z else None.

Fixpoint decimal_value (acc : Z) (s : string) : option Z :=
  match s with
  | EmptyString => Some acc
  | String a s => d ← digit a; decimal_value (acc * 10 + d) s
  end.

Definition array_index (key : string) : option Z :=
  match key with
  | EmptyString => None
  | "0" => Some 0%Z
  | String a _ =>
      if decide (digit a = Some 0%Z) then None
      else z ← decimal_value 0 key; if decide (z < 2 ^ 32 - 1)%Z then Some z else None
  end.

(** Whether [key] comes before a new property [key'] of the same object. *)
Definition key_before (key key' : string) : bool :=
  match array_index key, array_index key' with
  | Some i, Some i' => bool_decide (i < i')%Z
  | Some _, None => true
  | None, Some _ => false
  | None, None => true
  end.

(** Creating or overwriting the own property [key]. *)
Fixpoint obj_insert (fields : list (string * value)) (key : string) (v : value) : list (string * value) :=
  match fields with
  | [] => [(key, v)]
  | (k, x) :: rest =>
      if key_before k key then (k, x) :: obj_insert rest key v else (key, v) :: (k, x) :: rest
  end.

Definition obj_set (fields : list (string * value)) (key : string) (v : value) : list (string * value) :=
  if decide (key ∈ fields.*1) then jmap_set key v fields else obj_insert fields key v.

(** [out\[key\] = v] on an object created by a literal. *)
Definition obj_assign (fields : list (string * value)) (key : string) (v : value) : list (string * value) :=
  if decide (key = "__proto__") then fields else obj_set fields key v.

(** The property order of an object. *)
Definition ordered (keys : list string) : Prop :=
  StronglySorted (fun k k' => key_before k k' = true) keys.

Definition fields_ok (fields : list (string * value)) : Prop :=
  NoDup (fields.*1) /\ ordered (fields.*1).

Lemma obj_insert_last fields key v :
  Forall (fun k => key_before k key = true) (fields.*1) ->
  obj_insert fields key v = fields ++ [(key, v)].
Proof.
  induction fields as [|[k x] rest IH]; cbn; [done|].
  rewrite Forall_cons. cbn. intros [-> Hr]. by rewrite IH.
Qed.

Lemma obj_set_last fields key v :
  fields_ok (fields ++ [(key, v)]) -> obj_set fields key v = fields ++ [(key, v)].
Proof.
  intros [Hn Ho]. rewrite fmap_app in Hn, Ho. cbn in Hn, Ho.
  unfold obj_set. rewrite decide_False.
  - apply obj_insert_last. clear Hn. induction fields as [|[k x] rest IH]; [constructor|].
    cbn in Ho. inversion_clear Ho as [|? ? Hs Hf]. constructor; [|by apply IH].
    rewrite Forall_app, Forall_singleton in Hf. apply Hf.
  - apply NoDup_app in Hn as (_ & Hd & _). intros Hk. apply (Hd _ Hk). set_solver.
Qed.

(** Assigning ordered fields one by one rebuilds them. *)
Definition assign_all (fields : list (string * value)) : list (string * value) :=
  foldl (fun out p => obj_assign out p.1 p.2) [] fields.

Definition plain (fields : list (string * value)) : Prop := "__proto__" ∉ fields.*1.

Lemma StronglySorted_app_l {A} (R : A -> A -> Prop) l l' : StronglySorted R (l ++ l') -> StronglySorted R l.
Proof.
  induction l as [|x l IH]; cbn; intros Hs; [constructor|].
  inversion_clear Hs as [|? ? Hl Hf]. constructor; [by apply IH|].
  rewrite Forall_app in Hf. apply Hf.
Qed.

Lemma fields_ok_app_l f f' : fields_ok (f ++ f') -> fields_ok f.
Proof.
  intros [Hn Ho]. rewrite fmap_app in Hn, Ho. split.
  - by apply NoDup_app in Hn as (? & _ & _).
  - by apply StronglySorted_app_l in Ho.
Qed.

Lemma assign_all_ok fields : fields_ok fields -> plain fields -> assign_all fields = fields.
Proof.
  unfold assign_all. induction fields as [|[k v] fields IH] using rev_ind; [done|].
  intros Hok Hp. rewrite foldl_app. cbn. unfold plain in Hp. rewrite fmap_app in Hp. cbn in Hp.
  rewrite IH; [|by eapply fields_ok_app_l|unfold plain; set_solver].
  unfold obj_assign. rewrite decide_False by set_solver. by apply obj_set_last.
Qed.

Lemma sublist_StronglySorted {A} (R : A -> A -> Prop) l l' :
  sublist l l' -> StronglySorted R l' -> StronglySorted R l.
Proof.
  induction 1 as [|x l l' Hs IH|x l l' Hs IH]; intros Ho; [constructor|..];
    inversion_clear Ho as [|? ? Ho' Hf]; [|auto].
  constructor; [auto|]. rewrite Forall_forall in Hf |- *. intros y Hy. apply Hf.
  by eapply elem_of_sublist.
Qed.

Lemma fields_ok_sublist (f f' : list (string * value)) :
  sublist (f.*1) (f'.*1) -> fields_ok f' -> fields_ok f.
Proof.
  intros Hs [Hn Ho]. split; [by eapply sublist_NoDup|by eapply sublist_StronglySorted].
Qed.

(** ** Reading properties *)

Definition field (key : string) (fields : list (string * value)) : value :=
  default VUndefined (jmap_get key fields).

(** The code units of a string, each as a string of one unit. Strings are held
    as WTF-8: a surrogate alone is the three bytes of its own code point, and
    the two halves of an astral character are taken apart so. *)
Definition byte_ascii (z : Z) : Ascii.ascii := Ascii.ascii_of_N (Z.to_N z).

Definition surrogate (u : Z) : string :=
  of_chars [byte_ascii (224 + u / 4096); byte_ascii (128 + u / 64 mod 64); byte_ascii (128 + u mod 64)].

Fixpoint str_units (fuel : nat) (l : list Ascii.ascii) : list string :=
  match fuel, l with
  | S fuel, a :: l =>
      let b := byte_of a in
      if decide (b < 128)%Z then of_chars [a] :: str_units fuel l
      else match l with
           | a1 :: a2 :: a3 :: rest =>
               if decide (240 <= b)%Z then
                 let cp := ((b - 240) * 262144 + (byte_of a1 - 128) * 4096 +
                            (byte_of a2 - 128) * 64 + (byte_of a3 - 128) - 65536)%Z in
                 surrogate (55296 + cp / 1024) :: surrogate (56320 + cp mod 1024) :: str_units fuel rest
               else if decide (224 <= b)%Z then of_chars [a; a1; a2] :: str_units fuel (a3 :: rest)
               else of_chars [a; a1] :: str_units fuel (a2 :: a3 :: rest)
           | [a1; a2] =>
               if decide (224 <= b)%Z then [of_chars [a; a1; a2]]
               else of_chars [a; a1] :: str_units fuel [a2]
           | [a1] => [of_chars [a; a1]]
           | [] => []
           end
  | _, _ => []
  end.

(** The property key of an index. *)
Definition decimal (n : nat) : string := NilZero.string_of_uint (Nat.to_uint n).

(** The own enumerable properties of a value, for [Object.keys]: [None] where
    the call throws ([undefined] and [null]). *)
Definition own_fields (v : value) : option (list (string * value)) :=
  match v with
  | VUndefined | VNull => None
  | VObj fields => Some fields
  | VArr items => Some (imap (fun i x => (decimal i, x)) items)
  | VBytes bytes =>
      Some (imap (fun i b => (decimal i, VNum (num_of_Z (Z.of_N (Byte.to_N b))))) bytes)
  | VStr s =>
      Some (imap (fun i u => (decimal i, VStr u)) (str_units (String.length s) (chars s)))
  | VBool _ | VNum _ | VBig _ | VOther _ => Some []
  end.

(** ** Index keys *)

Definition decimal_char (a : Ascii.ascii) : bool :=
  let b := byte_of a in bool_decide (b = 45%Z) || bool_decide (48 <= b < 58)%Z.

Lemma uint_decimal u : Forall (fun a => decimal_char a = true) (chars (NilEmpty.string_of_uint u)).
Proof. induction u; cbn [NilEmpty.string_of_uint chars]; constructor; done. Qed.

Lemma nilzero_uint_decimal u :
  Forall (fun a => decimal_char a = true) (chars (NilZero.string_of_uint u)) /\
  NilZero.string_of_uint u <> EmptyString.
Proof.
  destruct u; (split; [|done]); try (exact (uint_decimal (_ _))). by repeat constructor.
Qed.

Lemma decimal_head n : exists a s, decimal n = String a s /\ decimal_char a = true.
Proof.
  unfold decimal. destruct (nilzero_uint_decimal (Nat.to_uint n)) as [Hf Hne].
  destruct (NilZero.string_of_uint (Nat.to_uint n)) as [|a s]; [done|].
  exists a, s. split; [done|]. cbn in Hf. by apply Forall_cons in Hf as [? _].
Qed.

Lemma imap_keys {A} (g : A -> value) (l : list A) k :
  k ∈ (imap (fun i x => (decimal i, g x)) l).*1 -> exists i, k = decimal i.
Proof.
  intros ([k' v] & -> & Hin)%list_elem_of_fmap. apply list_elem_of_lookup in Hin as [i Hi].
  rewrite list_lookup_imap in Hi. destruct (l !! i); [|done]. cbn in Hi. injection Hi as <- _. by exists i.
Qed.

(** A typed array has no property with an alphabetic name. *)
Lemma bytes_keys bytes fields k a s :
  own_fields (VBytes bytes) = Some fields -> k = String a s -> decimal_char a = false ->
  k ∉ fields.*1.
Proof.
  cbn. intros [= <-] -> Ha Hin. apply (imap_keys (fun b => VNum (num_of_Z (Z.of_N (Byte.to_N b))))) in Hin as [i Hi].
  destruct (decimal_head i) as (a' & s' & Hd & Ha'). rewrite Hd in Hi. injection Hi as -> _. congruence.
Qed.

(** ** JSON text *)

(** The value of a number in JSON text: [JSON.stringify] writes [0] for [-0]. *)
Definition norm (v : value) : value :=
  match v with VNum NNegZero => VNum (num_of_Z 0) | v => v end.

(** The JSON value a text spells. *)
Fixpoint written (v : value) : value :=
  match v with
  | VArr items => VArr (map written items)
  | VObj fields => VObj (map (fun p => (p.1, written p.2)) fields)
  | v => norm v
  end.
