(* ===== verification/Wire.v ===== *)
(** The wire format: [core/src/wire.ts].

    [toWire] and [fromWire] translate between values and JSON values; the text
    form [JSON.stringify]/[JSON.parse] gives them is the engine's. *)
From Stdlib Require Import Strings.Byte DecimalString DecimalZ.
From S2P Require Import Prelude Errors Base64 Value.
Local Open Scope string_scope.
Local Open Scope list_scope.

(** ** [BigInt] *)

(** [String(z)] of an integer: its decimal. *)
Definition Z_decimal (z : Z) : string := NilZero.string_of_int (Z.to_int z).

(** White space and line terminators, in UTF-8. *)
Definition js_spaces : list (list Ascii.ascii) :=
  map (map byte_ascii)
    ([[9]; [10]; [11]; [12]; [13]; [32]; [194; 160]; [225; 154; 128]; [226; 128; 168]; [226; 128; 169];
      [226; 128; 175]; [226; 129; 159]; [227; 128; 128]; [239; 187; 191]] ++
     map (fun i => [226; 128; 128 + Z.of_nat i]) (seq 0 11))%Z.

Fixpoint strip_prefix (p l : list Ascii.ascii) : option (list Ascii.ascii) :=
  match p, l with
  | [], _ => Some l
  | a :: p, b :: l => if decide (a = b) then strip_prefix p l else None
  | _ :: _, [] => None
  end.

Fixpoint first_some {A B} (f : A -> option B) (l : list A) : option B :=
  match l with [] => None | x :: l => match f x with Some y => Some y | None => first_some f l end end.

Fixpoint trim_left (spaces : list (list Ascii.ascii)) (fuel : nat) (l : list Ascii.ascii) : list Ascii.ascii :=
  match fuel with
  | O => l
  | S fuel =>
      match first_some (fun p => strip_prefix p l) spaces with
      | Some l' => trim_left spaces fuel l'
      | None => l
      end
  end.

Definition js_trim (s : string) : string :=
  let l := trim_left js_spaces (String.length s) (chars s) in
  of_chars (rev (trim_left (map (@rev _) js_spaces) (length l) (rev l))).

Definition digit_in (base : Z) (a : Ascii.ascii) : option Z :=
  let b := byte_of a in
  let d := (if decide (48 <= b < 58) then b - 48
            else if decide (97 <= b < 123) then b - 87
            else if decide (65 <= b < 91) then b - 55 else 99)%Z in
  if decide (d < base)%Z then Some d else None.

Fixpoint number_in (base acc : Z) (s : string) : option Z :=
  match s with
  | EmptyString => Some acc
  | String a s => d ← digit_in base a; number_in base (acc * base + d)%Z s
  end.

Definition radix_of (a : Ascii.ascii) : option Z :=
  match byte_of a with
  | 120 | 88 => Some 16 | 111 | 79 => Some 8 | 98 | 66 => Some 2 | _ => None
  end%Z.

Definition parse_radix (s : string) : option Z :=
  match s with
  | String z (String r (String _ _ as digits)) =>
      if decide (byte_of z = 48%Z) then base ← radix_of r; number_in base 0 digits else None
  | _ => None
  end.

Definition parse_decimal (s : string) : option Z :=
  match s with
  | String a rest =>
      if decide (byte_of a = 43%Z) then (fun u => Z.of_int (Decimal.Pos u)) <$> NilZero.uint_of_string rest
      else Z.of_int <$> NilZero.int_of_string s
  | EmptyString => Some 0%Z
  end.

(** [StringToBigInt] *)
Definition string_to_bigint (s : string) : exc js_error Z :=
  let s := js_trim s in
  match parse_radix s with
  | Some z => Ret z
  | None =>
      match parse_decimal s with
      | Some z => Ret z
      | None => Throw (SyntaxError "Failed to parse String to BigInt")
      end
  end.

(** [BigInt] of what [String(\[v\])] spells, for the one item of an array. *)
Fixpoint bigint_of_item (v : value) : exc js_error Z :=
  match v with
  | VUndefined | VNull => Ret 0%Z
  | VStr s => string_to_bigint s
  | VBig z => Ret z
  | VNum n =>
      match num_integer n with
      | Some z => if decide (Z.abs z < 10 ^ 21)%Z then Ret z
                  else Throw (SyntaxError "Failed to parse String to BigInt")
      | None => Throw (SyntaxError "Failed to parse String to BigInt")
      end
  | VArr [] => Ret 0%Z
  | VArr [x] => bigint_of_item x
  | VBytes [] => Ret 0%Z
  | VBytes [b] => Ret (byte_Z b)
  | VBool _ | VArr _ | VBytes _ | VObj _ | VOther _ =>
      Throw (SyntaxError "Failed to parse String to BigInt")
  end.

Definition BigInt (v : value) : exc js_error Z :=
  match v with
  | VUndefined | VNull | VOther _ => Throw (TypeError "Invalid argument type in ToBigInt operation")
  | VBool b => Ret (if b then 1 else 0)%Z
  | VNum n =>
      match num_integer n with
      | Some z => Ret z
      | None => Throw (RangeError "Not an integer")
      end
  | _ => bigint_of_item v
  end.

(** ** [toWire] *)

Definition non_finite {A} : exc js_error A := Throw (WireError "cannot encode non-finite number").

Definition escape (tag : string) (v : value) : value := VObj [("$", VStr tag); ("v", v)].

Fixpoint toWire (v : value) : exc js_error value :=
  match v with
  | VBig z => Ret (escape "b" (VStr (Z_decimal z)))
  | VNum n => if num_is_finite n then Ret v else non_finite
  | VStr _ | VBool _ | VUndefined | VNull => Ret v
  | VOther t => Throw (WireError ("cannot encode value of type " +:+ t))
  | VBytes bytes => Ret (escape "x" (VStr (bytesToBase64 bytes)))
  | VArr items =>
      out ← (fix go (items : list value) : exc js_error (list value) :=
        match items with
        | [] => Ret []
        | x :: items =>
            w ← (if is_undefined x then Ret VNull else toWire x);
            ws ← go items; Ret (w :: ws)
        end) items;
      Ret (VArr out)
  | VObj source =>
      out ← (fix go (fields : list (string * value)) (out : list (string * value))
          : exc js_error (list (string * value)) :=
        match fields with
        | [] => Ret out
        | (key, x) :: fields =>
            encoded ← toWire x;
            go fields (if is_undefined encoded then out else obj_assign out key encoded)
        end) source [];
      Ret (if decide ("$" ∈ source.*1) then escape "o" (VObj out) else VObj out)
  end.

(** [toStandardJson]: the plain JSON of the exposed surface. *)
Fixpoint toStandardJson (v : value) : exc js_error value :=
  match v with
  | VBig z => Ret (VStr (Z_decimal z))
  | VNum n => if num_is_finite n then Ret v else non_finite
  | VStr _ | VBool _ | VUndefined | VNull => Ret v
  | VOther t => Throw (WireError ("cannot encode value of type " +:+ t))
  | VBytes bytes => Ret (VStr (bytesToBase64 bytes))
  | VArr items =>
      out ← (fix go (items : list value) : exc js_error (list value) :=
        match items with
        | [] => Ret []
        | x :: items =>
            w ← (if is_undefined x then Ret VNull else toStandardJson x);
            ws ← go items; Ret (w :: ws)
        end) items;
      Ret (VArr out)
  | VObj source =>
      out ← (fix go (fields : list (string * value)) (out : list (string * value))
          : exc js_error (list (string * value)) :=
        match fields with
        | [] => Ret out
        | (key, x) :: fields =>
            encoded ← toStandardJson x;
            go fields (if is_undefined encoded then out else obj_assign out key encoded)
        end) source [];
      Ret (VObj out)
  end.

(** ** [fromWire] *)

Section rebuild.
Context (from : value -> exc js_error value).

(** [for (const key of Object.keys(o)) out\[key\] = fromWire(o\[key\])] *)
Fixpoint rebuild_fields (fields out : list (string * value)) : exc js_error (list (string * value)) :=
  match fields with
  | [] => Ret out
  | (key, x) :: fields => y ← from x; rebuild_fields fields (obj_assign out key y)
  end.

Definition rebuild (fields : list (string * value)) : exc js_error value :=
  out ← rebuild_fields fields []; Ret (VObj out).
End rebuild.

Fixpoint fromWire (fuel : nat) (v : value) : exc js_error value :=
  match fuel with
  | O => Throw (PlainError "fuel")
  | S fuel =>
      match v with
      | VArr items => out ← exc_map (fromWire fuel) items; Ret (VArr out)
      | VObj fields =>
          match field "$" fields with
          | VStr tag =>
              if decide (tag = "b") then z ← BigInt (field "v" fields); Ret (VBig z)
              else if decide (tag = "x") then
                match field "v" fields with
                | VStr raw => b ← base64ToBytes raw; Ret (VBytes b)
                | _ => Throw (WireError "wire bytes value must be a string")
                end
              else if decide (tag = "o") then
                match own_fields (field "v" fields) with
                | Some inner => rebuild (fromWire fuel) inner
                | None => Throw (TypeError "Cannot convert undefined or null to object")
                end
              else Throw (WireError ("unknown wire escape " +:+ tag))
          | _ => rebuild (fromWire fuel) fields
          end
      | VBytes bytes => rebuild (fromWire fuel) (default [] (own_fields v))
      | _ => Ret v
      end
  end.

(** The depth of a value bounds the recursion of [fromWire]. *)
Fixpoint depth (v : value) : nat :=
  match v with
  | VArr items => S (list_max (map depth items))
  | VObj fields => S (list_max (map (fun p => depth p.2) fields))
  | _ => 1
  end.

(** [encode] and [decode]: the text is the JSON value it is the text of. The
    depth of that value is fuel enough. *)
Definition encode (v : value) : exc js_error value :=
  wire ← toWire v; Ret (if is_undefined wire then VNull else wire).

Definition decode (text : value) : exc js_error value := fromWire (depth text) text.

(** ** Decimals *)

Lemma decimal_char_table a :
  decimal_char a = true ->
  first_some (fun p => strip_prefix p [a]) js_spaces = None /\ radix_of a = None /\
  byte_of a <> 43%Z /\
  Forall (fun p => head p <> Some a /\ p <> []) js_spaces /\
  Forall (fun p => head p <> Some a /\ p <> []) (map (@rev _) js_spaces).
Proof.
  destruct a as [[] [] [] [] [] [] [] []]; try (vm_compute; discriminate); intros _;
    (split_and!; [vm_compute; reflexivity|vm_compute; reflexivity|vm_compute; discriminate|..];
     repeat (constructor; [split; vm_compute; discriminate|]); constructor).
Qed.

Lemma strip_prefix_head p a l : head p <> Some a -> p <> [] -> strip_prefix p (a :: l) = None.
Proof. destruct p as [|b p]; cbn; [done|]. intros Hh _. case_decide; [congruence|done]. Qed.

Lemma trim_left_none spaces fuel a l :
  Forall (fun p => head p <> Some a /\ p <> []) spaces -> trim_left spaces fuel (a :: l) = a :: l.
Proof.
  intros Hf. destruct fuel; [done|]. cbn.
  replace (first_some _ spaces) with (@None (list Ascii.ascii)); [done|].
  induction Hf as [|p spaces [Hh Hp] _ IH]; [done|]. cbn. by rewrite strip_prefix_head.
Qed.

Lemma js_trim_decimal s :
  Forall (fun a => decimal_char a = true) (chars s) -> s <> EmptyString -> js_trim s = s.
Proof.
  intros Hf Hne. unfold js_trim. transitivity (of_chars (chars s)); [|apply of_chars_chars].
  destruct (chars s) as [|a l] eqn:E; [by destruct s|].
  rewrite trim_left_none by (apply decimal_char_table; by inversion Hf).
  f_equal.
  assert (Hr : Forall (fun a => decimal_char a = true) (rev (a :: l)))
    by (rewrite rev_alt, <-List.rev_alt; by apply Forall_rev).
  destruct (rev (a :: l)) as [|b r] eqn:Er.
  { apply (f_equal (@length _)) in Er. rewrite length_rev in Er. done. }
  rewrite trim_left_none by (apply decimal_char_table; by inversion Hr).
  rewrite <-Er. apply rev_involutive.
Qed.

Lemma Z_decimal_chars z :
  Forall (fun a => decimal_char a = true) (chars (Z_decimal z)) /\ Z_decimal z <> EmptyString.
Proof.
  unfold Z_decimal. destruct (Z.to_int z) as [u|u]; cbn; [apply nilzero_uint_decimal|].
  split; [|done]. constructor; [done|]. apply nilzero_uint_decimal.
Qed.

Lemma Z_to_int_nonnil z : Z.to_int z <> Decimal.Pos Decimal.Nil /\ Z.to_int z <> Decimal.Neg Decimal.Nil.
Proof.
  destruct z; cbn; [done|..]; (split; [|]; try done; intros [=]; by eapply DecimalPos.Unsigned.to_uint_nonnil).
Qed.

(** [BigInt(String(z)) === z] *)
Lemma BigInt_decimal z : BigInt (VStr (Z_decimal z)) = Ret z.
Proof.
  cbn [BigInt bigint_of_item]. unfold string_to_bigint.
  destruct (Z_decimal_chars z) as [Hd Hne]. rewrite js_trim_decimal by done.
  replace (parse_radix (Z_decimal z)) with (@None Z); cycle 1.
  { unfold parse_radix. destruct (Z_decimal z) as [|a [|r [|c s]]]; try done.
    cbn in Hd. rewrite !Forall_cons in Hd.
    case_decide; [|done]. by rewrite (proj1 (proj2 (decimal_char_table r ltac:(tauto)))). }
  unfold parse_decimal. destruct (Z_decimal z) as [|a s] eqn:E; [done|].
  rewrite decide_False by (cbn in Hd; rewrite Forall_cons in Hd; apply decimal_char_table; apply Hd).
  rewrite <-E. unfold Z_decimal. destruct (Z_to_int_nonnil z).
  rewrite NilZero.isi by done. cbn. by rewrite DecimalZ.of_to.
Qed.

(** ** The loops of [toWire] and [fromWire] *)

Fixpoint toWire_items (items : list value) : exc js_error (list value) :=
  match items with
  | [] => Ret []
  | x :: items =>
      w ← (if is_undefined x then Ret VNull else toWire x);
      ws ← toWire_items items; Ret (w :: ws)
  end.

Fixpoint toWire_fields (fields out : list (string * value)) : exc js_error (list (string * value)) :=
  match fields with
  | [] => Ret out
  | (key, x) :: fields =>
      encoded ← toWire x;
      toWire_fields fields (if is_undefined encoded then out else obj_assign out key encoded)
  end.

Lemma toWire_arr items : toWire (VArr items) = (out ← toWire_items items; Ret (VArr out)).
Proof. reflexivity. Qed.

Lemma toWire_obj source :
  toWire (VObj source) =
    (out ← toWire_fields source [];
     Ret (if decide ("$" ∈ source.*1) then escape "o" (VObj out) else VObj out)).
Proof. reflexivity. Qed.

Lemma fromWire_arr fuel items :
  fromWire (S fuel) (VArr items) = (out ← exc_map (fromWire fuel) items; Ret (VArr out)).
Proof. reflexivity. Qed.

Lemma fromWire_plain fuel fields :
  "$" ∉ fields.*1 -> fromWire (S fuel) (VObj fields) = rebuild (fromWire fuel) fields.
Proof.
  intros Hd. cbn [fromWire]. unfold field. apply jmap_get_None in Hd. by rewrite Hd.
Qed.

Lemma fromWire_escaped fuel fields :
  fromWire (S fuel) (escape "o" (VObj fields)) = rebuild (fromWire fuel) fields.
Proof. reflexivity. Qed.

(** ** What the wire carries *)

(** Values the wire can carry: no functions, finite numbers, objects in
    property order without an own [__proto__]. *)
Fixpoint encodable (v : value) : Prop :=
  match v with
  | VOther _ => False
  | VNum n => num_is_finite n = true
  | VArr items => foldr (fun x P => encodable x /\ P) True items
  | VObj fields => fields_ok fields /\ plain fields /\ foldr (fun p P => encodable p.2 /\ P) True fields
  | _ => True
  end.

Definition defined (p : string * value) : Prop := is_undefined p.2 = false.
#[export] Instance defined_dec p : Decision (defined p).
Proof. unfold defined. apply _. Defined.

(** What a decoder of the encoding sees: [undefined] fields are absent and
    [undefined] items are [null]. *)
Fixpoint strip (v : value) : value :=
  match v with
  | VArr items => VArr (map (fun x => if is_undefined x then VNull else strip x) items)
  | VObj fields =>
      VObj (omap (fun p => if is_undefined p.2 then None else Some (p.1, strip p.2)) fields)
  | _ => v
  end.

(** The values [JSON.stringify] writes in full. *)
Fixpoint is_json (v : value) : Prop :=
  match v with
  | VNull | VBool _ | VStr _ => True
  | VNum n => num_is_finite n = true
  | VArr items => foldr (fun x P => is_json x /\ P) True items
  | VObj fields => foldr (fun p P => is_json p.2 /\ P) True fields
  | _ => False
  end.

Lemma foldr_forall {A} (P : A -> Prop) l : foldr (fun x Q => P x /\ Q) True l <-> Forall P l.
Proof.
  induction l as [|x l IH]; cbn; [by split|]. rewrite IH. by rewrite Forall_cons.
Qed.

(** The encoding of one value. *)
Definition encodes (v w : value) : Prop :=
  toWire v = Ret w /\ is_undefined w = is_undefined v /\ (is_undefined v = false -> is_json w) /\
  forall fuel, (depth w <= fuel)%nat -> fromWire fuel w = Ret (strip v).

Lemma list_max_le (l : list nat) n x : x ∈ l -> (list_max l <= n)%nat -> (x <= n)%nat.
Proof. intros Hx Hl. apply list_max_le in Hl. rewrite Forall_forall in Hl. auto. Qed.

Lemma encodes_items items :
  Forall (fun x => exists w, encodes x w) items ->
  exists ws, toWire_items items = Ret ws /\ Forall is_json ws /\
    forall fuel, Forall (fun w => depth w <= fuel)%nat ws ->
      exc_map (fromWire fuel) ws = Ret (map (fun x => if is_undefined x then VNull else strip x) items).
Proof.
  induction 1 as [|x items (w & Hw & Hu & Hj & Hf) _ (ws & Hws & Hjs & Hfs)]; [by exists []|].
  cbn [toWire_items map]. destruct (is_undefined x) eqn:Ex.
  - exists (VNull :: ws). cbn. rewrite Hws. split_and!; [done|by constructor|].
    intros fuel Hd. apply Forall_cons in Hd as [H1 Hd]. cbn in H1.
    cbn [exc_map]. replace (fromWire fuel VNull) with (@Ret js_error _ VNull) by (destruct fuel; [lia|done]).
    cbn [mbind exc_bind]. by rewrite Hfs.
  - exists (w :: ws). rewrite Hw. cbn. rewrite Hws. split_and!; [done|constructor; auto|].
    intros fuel Hd. apply Forall_cons in Hd as [Hd1 Hd].
    cbn [exc_map]. rewrite Hf by done. cbn. by rewrite Hfs.
Qed.

Lemma obj_assign_last out key v :
  fields_ok (out ++ [(key, v)]) -> key <> "__proto__" -> obj_assign out key v = out ++ [(key, v)].
Proof. intros Hok Hp. unfold obj_assign. rewrite decide_False by done. by apply obj_set_last. Qed.

(** The encoded fields, in order. *)
Definition encoded_fields (fields ws : list (string * value)) : Prop :=
  Forall2 (fun p q => p.1 = q.1 /\ encodes p.2 q.2) (filter defined fields) ws.

Lemma encoded_keys fields ws : encoded_fields fields ws -> ws.*1 = (filter defined fields).*1.
Proof.
  unfold encoded_fields. induction 1 as [|p q l l' [Hp _] _ IH]; [done|].
  by rewrite !fmap_cons, IH, Hp.
Qed.

Lemma fields_ok_replace (f f' : list (string * value)) : f.*1 = f'.*1 -> fields_ok f -> fields_ok f'.
Proof. unfold fields_ok. by intros ->. Qed.

Lemma toWire_fields_spec fields out :
  Forall (fun p => exists w, encodes p.2 w) fields ->
  fields_ok (out ++ fields) -> plain fields ->
  exists ws, encoded_fields fields ws /\ toWire_fields fields out = Ret (out ++ ws).
Proof.
  intros Hf. revert out. induction Hf as [|[k x] fields (w & Hw & Hu & Hj & Hr) _ IH]; intros out Hok Hp.
  - exists []. rewrite app_nil_r. split; [constructor|done].
  - unfold plain in *. rewrite fmap_cons, not_elem_of_cons in Hp. cbn [fst] in Hp.
    cbn [toWire_fields]. cbn [snd] in *. rewrite Hw. cbn [mbind exc_bind]. rewrite Hu.
    destruct (is_undefined x) eqn:Ex.
    + destruct (IH out) as (ws & Hws & ->); [|apply Hp|].
      { eapply fields_ok_sublist; [|exact Hok]. rewrite !fmap_app, fmap_cons.
        apply sublist_app; [done|]. by apply sublist_cons. }
      exists ws. split; [|done]. unfold encoded_fields.
      rewrite filter_cons_False; [done|]. unfold defined. cbn. by rewrite Ex.
    + rewrite obj_assign_last.
      * destruct (IH (out ++ [(k, w)])) as (ws & Hws & ->); [|apply Hp|].
        { eapply fields_ok_replace; [|exact Hok]. by rewrite !fmap_app, <-app_assoc. }
        exists ((k, w) :: ws). rewrite <-app_assoc. split; [|done]. unfold encoded_fields.
        rewrite filter_cons_True; [|exact Ex]. constructor; [|done]. split; [done|].
        unfold encodes. cbn. rewrite Ex. done.
      * apply (fields_ok_app_l _ fields). eapply fields_ok_replace; [|exact Hok].
        by rewrite !fmap_app, <-app_assoc.
      * intros ->. tauto.
Qed.

Lemma rebuild_fields_spec fuel fields ws out :
  encoded_fields fields ws -> Forall (fun q => depth q.2 <= fuel)%nat ws ->
  fields_ok (out ++ ws) -> plain ws ->
  rebuild_fields (fromWire fuel) ws out =
    Ret (out ++ omap (fun p => if is_undefined p.2 then None else Some (p.1, strip p.2)) fields).
Proof.
  unfold encoded_fields. revert ws out. induction fields as [|[k x] fields IH]; intros ws out Hw Hd Hok Hp.
  - apply Forall2_nil_inv_l in Hw as ->. cbn. by rewrite app_nil_r.
  - rewrite filter_cons in Hw. case_decide as Hx; unfold defined in Hx; cbn [snd] in Hx.
    + apply Forall2_cons_inv_l in Hw as ([k' w] & ws' & [Hk (Hw1 & Hu & Hj & Hr)] & Hws & ->).
      cbn in Hk. subst k'.
      apply Forall_cons in Hd as [Hd1 Hd]. unfold plain in Hp. rewrite fmap_cons, not_elem_of_cons in Hp.
      cbn [rebuild_fields]. cbn [snd fst] in *. rewrite Hr by done. cbn [mbind exc_bind].
      rewrite obj_assign_last.
      * rewrite (IH ws'); [|done|done| |apply Hp].
        -- cbn. rewrite Hx, <-app_assoc. done.
        -- eapply fields_ok_replace; [|exact Hok]. by rewrite !fmap_app, <-app_assoc.
      * apply (fields_ok_app_l _ ws'). eapply fields_ok_replace; [|exact Hok].
        by rewrite !fmap_app, <-app_assoc.
      * intros ->. tauto.
    + rewrite (IH ws) by done. cbn. apply not_false_is_true in Hx. by rewrite Hx.
Qed.

Lemma encoded_json fields ws :
  encoded_fields fields ws -> Forall (fun q => is_json q.2) ws.
Proof.
  unfold encoded_fields. intros H. eapply Forall2_Forall_r in H; [exact H|].
  apply Forall_forall. intros p [Hp _]%list_elem_of_filter q [_ (_ & _ & Hj & _)]. auto.
Qed.

(** Encoding succeeds, the result is JSON, and decoding gives the value back. *)
Lemma wire_roundtrip_lemma v : encodable v -> exists w, encodes v w.
Proof.
  induction v as [| | | | | | |items IH|fields IH|] using value_nested_ind; cbn [encodable]; intros He;
    try done.
  1-5: eexists; split_and!; [cbn; rewrite ?He; reflexivity|done..|intros [|fuel] Hf; [cbn in Hf; lia|done]].
  - exists (escape "b" (VStr (Z_decimal z))). split_and!; [done..|].
    intros [|fuel] Hn; [cbn in Hn; lia|]. clear Hn.
    change (fromWire (S fuel) _) with (z' ← BigInt (VStr (Z_decimal z)); Ret (VBig z') : exc js_error value).
    by rewrite BigInt_decimal.
  - exists (escape "x" (VStr (bytesToBase64 b))). split_and!; [done..|].
    intros [|fuel] Hn; [cbn in Hn; lia|]. clear Hn.
    change (fromWire (S fuel) _) with
      (b' ← base64ToBytes (bytesToBase64 b); Ret (VBytes b') : exc js_error value).
    by rewrite base64_roundtrip_lemma.
  - apply foldr_forall in He. assert (Hall : Forall (fun x => exists w, encodes x w) items).
    { clear -IH He. induction IH; [constructor|]. inversion_clear He. constructor; auto. }
    destruct (encodes_items _ Hall) as (ws & Hws & Hj & Hf).
    exists (VArr ws). split_and!; [by rewrite toWire_arr, Hws|done|intros _; by apply foldr_forall|].
    intros [|fuel] Hd; cbn [depth] in Hd; [lia|]. rewrite fromWire_arr, Hf; [done|].
    apply Forall_forall. intros w Hw.
    apply (list_max_le (map depth ws)); [|lia]. by apply list_elem_of_fmap_2.
  - destruct He as (Hok & Hp & He). apply (foldr_forall (fun p => encodable p.2)) in He.
    assert (Hall : Forall (fun p => exists w, encodes p.2 w) fields).
    { clear -IH He. induction IH; [constructor|]. inversion_clear He. constructor; auto. }
    destruct (toWire_fields_spec fields [] Hall Hok Hp) as (ws & Hws & Hto).
    assert (Hsub : sublist (ws.*1) (fields.*1)).
    { rewrite (encoded_keys _ _ Hws). apply fmap_sublist, sublist_filter. }
    assert (Hok' : fields_ok ws) by (by eapply fields_ok_sublist).
    assert (Hp' : plain ws) by (intros Hin; apply Hp; by eapply elem_of_sublist).
    assert (Hreb : forall fuel, (list_max (map (fun p => depth p.2) ws) <= fuel)%nat ->
      rebuild (fromWire fuel) ws = Ret (strip (VObj fields))).
    { intros fuel Hd. unfold rebuild. rewrite (rebuild_fields_spec fuel fields ws []); [done|done| |done|done].
      apply Forall_forall. intros q Hq. apply (list_max_le (map (fun p => depth p.2) ws)); [|done].
      by apply (list_elem_of_fmap_2 (fun p => depth p.2)). }
    pose proof (encoded_json _ _ Hws) as Hj. apply (foldr_forall (fun p => is_json p.2)) in Hj.
    exists (if decide ("$" ∈ fields.*1) then escape "o" (VObj ws) else VObj ws).
    case_decide as Hd; (split_and!; [rewrite toWire_obj, Hto; cbn; by case_decide|done|by intros _|]).
    + intros [|fuel] Hf; cbn in Hf; [lia|].
      rewrite fromWire_escaped. apply Hreb. lia.
    + intros [|fuel] Hf; cbn [depth] in Hf; [lia|].
      rewrite fromWire_plain; [apply Hreb; lia|]. intros Hin. apply Hd. by eapply elem_of_sublist.
Qed.
