(* ===== verification/StableEncode.v ===== *)
(** The canonical encoding of [core/src/wire.ts], [stableEncode], which keys
    subscriptions by their arguments. *)
From S2P Require Import Prelude Errors Base64 Value Wire.
Local Open Scope string_scope.
Local Open Scope list_scope.

(** ** [Array.prototype.sort] on strings *)

(** UTF-16 order on UTF-8 bytes: the code points from U+E000 on (lead bytes EE
    and EF) come after the astral ones (lead bytes F0 to F4), whose code units
    are surrogates; all others compare as their bytes do. *)
Definition unit_rank (a : Ascii.ascii) : Z :=
  let b := byte_of a in
  (if decide (b = 238) then 254 else if decide (b = 239) then 255
   else if decide (b = 254) then 238 else if decide (b = 255) then 239 else b)%Z.

Fixpoint str_le (s t : string) : bool :=
  match s, t with
  | EmptyString, _ => true
  | String _ _, EmptyString => false
  | String a s, String b t =>
      if decide (unit_rank a < unit_rank b)%Z then true
      else if decide (unit_rank b < unit_rank a)%Z then false
      else str_le s t
  end.

Definition key_le (k k' : string) : Prop := str_le k k' = true.
#[export] Instance key_le_dec : RelDecision key_le.
Proof. unfold RelDecision, key_le. apply _. Defined.

Definition sort_keys (keys : list string) : list string := merge_sort key_le keys.

Lemma unit_rank_inj a b : unit_rank a = unit_rank b -> a = b.
Proof.
  intros H. rewrite <-(Ascii.ascii_N_embedding a), <-(Ascii.ascii_N_embedding b). f_equal.
  pose proof (Ascii.N_ascii_bounded a). pose proof (Ascii.N_ascii_bounded b).
  unfold unit_rank, byte_of in H. repeat case_decide; lia.
Qed.

#[export] Instance key_le_total : Total key_le.
Proof.
  unfold key_le.  intros s. induction s as [|a s IH]; intros [|b t]; cbn; [by left|by left|by right|].
  repeat case_decide; try lia; auto.
Qed.

#[export] Instance key_le_trans : Transitive key_le.
Proof.
  unfold key_le.  intros s. induction s as [|a s IH]; intros [|b t] [|c u]; cbn; try done.
  repeat case_decide; try done; try lia. apply IH.
Qed.

#[export] Instance key_le_antisymm : AntiSymm (=) key_le.
Proof.
  unfold key_le.  intros s. induction s as [|a s IH]; intros [|b t]; cbn; try done.
  repeat case_decide; try done; try lia. intros Hle Hle'.
  rewrite (IH t) by done. f_equal. apply unit_rank_inj. lia.
Qed.

Lemma sort_keys_permutation keys : sort_keys keys ≡ₚ keys.
Proof. apply merge_sort_Permutation. Qed.

(** Sorting forgets the order of its input. *)
Lemma sort_keys_unique keys keys' : keys ≡ₚ keys' -> sort_keys keys = sort_keys keys'.
Proof.
  intros Hp. eapply (StronglySorted_unique key_le).
  - apply (StronglySorted_merge_sort _).
  - apply (StronglySorted_merge_sort _).
  - by rewrite !sort_keys_permutation.
Qed.

(** ** [sortDeep] *)

Fixpoint sortDeep (v : value) : value :=
  match v with
  | VArr items => VArr (map sortDeep items)
  | VObj fields =>
      let sorted := map (fun p => (p.1, sortDeep p.2)) fields in
      VObj (assign_all (map (fun k => (k, field k sorted)) (sort_keys (fields.*1))))
  | VBytes _ =>
      let fields := default [] (own_fields v) in
      VObj (assign_all (map (fun k => (k, field k fields)) (sort_keys (fields.*1))))
  | _ => v
  end.

(** The text [stableEncode] returns, as the JSON value it spells:
    [JSON.stringify] writes both zeros as [0]. *)
Definition stableEncode (v : value) : exc js_error value :=
  wire ← toWire v;
  Ret (if is_undefined wire then VNull else written (sortDeep wire)).

(** ** Equality up to the order of properties *)

Definition atom (v : value) : bool :=
  match v with VArr _ | VObj _ => false | _ => true end.

Inductive same : value -> value -> Prop :=
  | same_atom v : atom v = true -> same v v
  | same_arr l l' : Forall2 same l l' -> same (VArr l) (VArr l')
  | same_obj f f' :
      f.*1 ≡ₚ f'.*1 -> (forall k, k ∈ f.*1 -> same (field k f) (field k f')) ->
      same (VObj f) (VObj f').

Lemma field_map (g : value -> value) k f :
  k ∈ f.*1 -> field k (map (fun p => (p.1, g p.2)) f) = g (field k f).
Proof.
  unfold field. induction f as [|[k' v] f IH]; cbn; [set_solver|].
  intros Hk. case_decide; [done|]. apply IH. set_solver.
Qed.

Lemma field_head k v f : field k ((k, v) :: f) = v.
Proof. unfold field. cbn. by rewrite decide_True. Qed.

Lemma jmap_get_insert f key v k :
  key ∉ f.*1 -> jmap_get k (obj_insert f key v) = if decide (k = key) then Some v else jmap_get k f.
Proof.
  induction f as [|[k' x] f IH]; cbn; intros Hk.
  - repeat case_decide; congruence.
  - destruct (key_before k' key); cbn; [rewrite IH by set_solver|]; repeat case_decide; subst; try done.
    exfalso. set_solver.
Qed.

Lemma obj_insert_keys f key v : (obj_insert f key v).*1 ≡ₚ key :: f.*1.
Proof.
  induction f as [|[k' x] f IH]; [done|]. cbn [obj_insert]. destruct (key_before k' key); [|done].
  rewrite !fmap_cons, IH. cbn. apply Permutation_swap.
Qed.

(** Assigning distinct keys: what is there afterwards. *)
Lemma assign_all_spec g :
  NoDup (g.*1) -> plain g ->
  (assign_all g).*1 ≡ₚ g.*1 /\ forall k, field k (assign_all g) = field k g.
Proof.
  unfold assign_all, plain. induction g as [|[k v] g IH] using rev_ind; [done|].
  rewrite fmap_app. cbn. intros (Hn & Hd & _)%NoDup_app Hp. rewrite foldl_app. cbn.
  destruct (IH Hn ltac:(set_solver)) as [Hk Hf]. set (out := foldl _ [] g) in *.
  assert (Hki : k ∉ out.*1) by (rewrite Hk; intros Hin; apply (Hd _ Hin); set_solver).
  unfold obj_assign, obj_set. rewrite decide_False by set_solver. rewrite decide_False by done. split.
  - rewrite obj_insert_keys, Hk. by rewrite Permutation_cons_append.
  - intros k'. unfold field. rewrite jmap_get_insert by done. specialize (Hf k'). unfold field in Hf.
    case_decide as E.
    + subst k'. replace (jmap_get k (g ++ [(k, v)])) with (Some v); [done|].
      symmetry. apply jmap_get_elem; [|set_solver]. rewrite fmap_app. apply NoDup_app.
      split_and!; [done|done|apply NoDup_singleton].
    + rewrite Hf. f_equal. clear -E. induction g as [|[k2 v2] g IHg]; cbn.
      * by rewrite decide_False.
      * case_decide; done.
Qed.

Lemma sorted_keys_map (h : string -> value) keys :
  (map (fun k => (k, h k)) keys).*1 = keys.
Proof. induction keys as [|k keys IH]; [done|]. cbn. by f_equal. Qed.

Lemma field_sorted (h : string -> value) keys k :
  k ∈ keys -> field k (map (fun k => (k, h k)) keys) = h k.
Proof.
  unfold field. induction keys as [|k' keys IH]; cbn; [set_solver|]. intros Hk.
  case_decide; [by subst|]. apply IH. set_solver.
Qed.

(** Same values sort to the same value. *)
Lemma sortDeep_same w w' : same w w' -> sortDeep w = sortDeep w'.
Proof.
  revert w'. induction w as [| | | | | | |items IH|fields IH|] using value_nested_ind; intros w' Hs;
    inversion Hs as [? Ha|? l' Hl|? f' Hp Hf]; subst; try done.
  - cbn. f_equal. clear Hs. induction Hl as [|x y l l' Hxy _ IHl]; [done|].
    inversion_clear IH as [|? ? Hx Hrest]. cbn. f_equal; auto.
  - cbn. f_equal. f_equal. rewrite (sort_keys_unique _ _ Hp).
    apply list_fmap_ext. intros i k Hk%list_elem_of_lookup_2.
    rewrite sort_keys_permutation, <-Hp in Hk. f_equal.
    rewrite !field_map by (by rewrite <-?Hp). specialize (Hf k Hk).
    apply elem_of_fst in Hk as [v Hv]. rewrite Forall_forall in IH.
    assert (exists v', field k fields = v' /\ (k, v') ∈ fields) as (v' & Hv' & Hin).
    { unfold field. destruct (jmap_get k fields) as [v'|] eqn:E.
      - exists v'. split; [done|]. by apply jmap_get_Some_elem.
      - apply jmap_get_None in E. destruct E. apply elem_of_fst. eauto. }
    rewrite Hv' in *. by apply (IH _ Hin).
Qed.

(** JSON values with distinct keys, none of them [__proto__]. *)
Fixpoint tidy (v : value) : Prop :=
  match v with
  | VBytes _ => False
  | VArr items => foldr (fun x P => tidy x /\ P) True items
  | VObj fields => NoDup (fields.*1) /\ plain fields /\ foldr (fun p P => tidy p.2 /\ P) True fields
  | _ => True
  end.

Lemma field_elem k f : k ∈ f.*1 -> (k, field k f) ∈ f.
Proof.
  intros Hk. unfold field. destruct (jmap_get k f) eqn:E; [by apply jmap_get_Some_elem|].
  by apply jmap_get_None in E.
Qed.

Lemma sort_deep_obj fields :
  NoDup (fields.*1) -> plain fields ->
  exists g, sortDeep (VObj fields) = VObj g /\ g.*1 ≡ₚ fields.*1 /\
    forall k, k ∈ fields.*1 -> field k g = sortDeep (field k fields).
Proof.
  intros Hn Hp. cbn [sortDeep].
  set (sorted := map (fun p => (p.1, sortDeep p.2)) fields).
  set (g := map (fun k => (k, field k sorted)) (sort_keys (fields.*1))).
  assert (Hg : g.*1 = sort_keys (fields.*1)) by apply sorted_keys_map.
  assert (Hperm : g.*1 ≡ₚ fields.*1) by (rewrite Hg; apply sort_keys_permutation).
  destruct (assign_all_spec g) as [Hk Hf]; [by rewrite Hperm|unfold plain; by rewrite Hperm|].
  exists (assign_all g). split_and!; [done|by rewrite Hk|].
  intros k Hin. rewrite Hf. unfold g. rewrite field_sorted by (by rewrite sort_keys_permutation).
  by apply field_map.
Qed.

(** Only same values sort to the same value. *)
Lemma same_sortDeep w w' : tidy w -> tidy w' -> sortDeep w = sortDeep w' -> same w w'.
Proof.
  revert w'. induction w as [| | | | | | |items IH|fields IH|] using value_nested_ind; intros w' Ht Ht' Hs;
    try done; try (destruct w'; try done; cbn in Hs; injection Hs as ->; by constructor);
    try (destruct w'; try done; by constructor).
  - destruct w' as [| | | | | | |items'|fields'|]; try done. cbn in Hs, Ht, Ht'. injection Hs as Hs.
    apply foldr_forall in Ht, Ht'. constructor.
    revert items' Ht' Hs. induction IH as [|x items Hx _ IHl]; intros [|y items'] Ht' Hs; try discriminate Hs; [constructor|].
    injection Hs as Hxy Hrest. apply Forall_cons in Ht as [? ?], Ht' as [? ?]. constructor; auto.
  - destruct w' as [| | | | | | |items'|fields'|]; try done. cbn [tidy] in Ht, Ht'.
    destruct Ht as (Hn & Hp & Ht), Ht' as (Hn' & Hp' & Ht').
    apply (foldr_forall (fun p => tidy p.2)) in Ht, Ht'.
    rewrite Forall_forall in IH, Ht, Ht'.
    destruct (sort_deep_obj _ Hn Hp) as (g & Hg & Hk & Hf).
    destruct (sort_deep_obj _ Hn' Hp') as (g' & Hg' & Hk' & Hf').
    rewrite Hg, Hg' in Hs. injection Hs as <-.
    assert (Hkeys : fields.*1 ≡ₚ fields'.*1) by (by rewrite <-Hk, <-Hk').
    constructor; [done|]. intros k Hin. pose proof Hin as Hin'. rewrite Hkeys in Hin'.
    pose proof (field_elem _ _ Hin) as He. pose proof (field_elem _ _ Hin') as He'.
    apply (IH _ He); [apply (Ht _ He)|apply (Ht' _ He')|]. cbn.
    by rewrite <-Hf, <-Hf'.
Qed.

(** ** The wire form of a value without [undefined] *)

Fixpoint dense (v : value) : Prop :=
  match v with
  | VUndefined => False
  | VArr items => foldr (fun x P => dense x /\ P) True items
  | VObj fields => foldr (fun p P => dense p.2 /\ P) True fields
  | _ => True
  end.

Fixpoint wire_of (v : value) : value :=
  match v with
  | VBig z => escape "b" (VStr (Z_decimal z))
  | VBytes bytes => escape "x" (VStr (bytesToBase64 bytes))
  | VArr items => VArr (map wire_of items)
  | VObj fields =>
      let o := VObj (map (fun p => (p.1, wire_of p.2)) fields) in
      if decide ("$" ∈ fields.*1) then escape "o" o else o
  | _ => v
  end.

Lemma dense_defined v : dense v -> is_undefined v = false.
Proof. by destruct v. Qed.

Lemma wire_of_defined v : dense v -> is_undefined (wire_of v) = false.
Proof. destruct v; try done. intros _. cbn. by case_decide. Qed.

Lemma toWire_wire_of v : encodable v -> dense v -> toWire v = Ret (wire_of v).
Proof.
  induction v as [| | |n| | | |items IH|fields IH|] using value_nested_ind; intros He Hd; try done.
  - cbn in *. by rewrite He.
  - rewrite toWire_arr. cbn in He, Hd. apply foldr_forall in He, Hd. cbn [wire_of].
    replace (toWire_items items) with (@Ret js_error _ (map wire_of items)); [done|].
    symmetry. induction IH as [|x items Hx _ IHl]; [done|].
    apply Forall_cons in He as [? ?], Hd as [? ?]. cbn [toWire_items map].
    rewrite dense_defined, Hx by done. cbn. by rewrite IHl.
  - rewrite toWire_obj. cbn [encodable dense] in He, Hd. destruct He as (Hok & Hp & He).
    apply (foldr_forall (fun p => encodable p.2)) in He.
    apply (foldr_forall (fun p => dense p.2)) in Hd. cbn [wire_of].
    assert (Hgo : forall out, fields_ok (out ++ fields) ->
      toWire_fields fields out = Ret (out ++ map (fun p => (p.1, wire_of p.2)) fields)).
    { clear Hok. unfold plain in Hp. induction IH as [|[k x] fields Hx _ IHl]; intros out Hok.
      - by rewrite app_nil_r.
      - apply Forall_cons in He as [? ?], Hd as [? ?]. rewrite fmap_cons, not_elem_of_cons in Hp.
        cbn [toWire_fields snd fst map] in *. rewrite Hx by done. cbn [mbind exc_bind].
        rewrite wire_of_defined by done.
        assert (Hok' : fields_ok ((out ++ [(k, wire_of x)]) ++ fields)).
        { eapply fields_ok_replace; [|exact Hok]. rewrite <-app_assoc, !fmap_app. done. }
        rewrite obj_assign_last; [|by eapply fields_ok_app_l|intros ->; tauto].
        rewrite IHl by (done || tauto). by rewrite <-app_assoc. }
    rewrite Hgo by done. cbn. by case_decide.
Qed.

Lemma wire_keys fields : (map (fun p : string * value => (p.1, wire_of p.2)) fields).*1 = fields.*1.
Proof. induction fields as [|[k v] f IH]; [done|]. cbn. by f_equal. Qed.

Lemma escape_tidy t v : tidy v -> tidy (escape t v).
Proof.
  intros Hv. cbn. split_and!; [|unfold plain; cbn; set_solver|done..].
  apply NoDup_cons. split; [set_solver|apply NoDup_singleton].
Qed.

Lemma wire_of_tidy v : encodable v -> tidy (wire_of v).
Proof.
  induction v as [| | | | | | |items IH|fields IH|] using value_nested_ind; intros He; try done.
  1-2: by apply escape_tidy.
  - cbn in *. apply foldr_forall in He. apply foldr_forall. apply Forall_fmap.
    rewrite Forall_forall in *. intros x Hx. apply IH; auto.
  - cbn [encodable] in He. destruct He as ([Hn Ho] & Hp & He).
    apply (foldr_forall (fun p => encodable p.2)) in He.
    assert (Ht : tidy (VObj (map (fun p => (p.1, wire_of p.2)) fields))).
    { cbn. split_and!; [by rewrite wire_keys|unfold plain; by rewrite wire_keys|].
      apply (foldr_forall (fun p => tidy p.2)), Forall_fmap. rewrite Forall_forall in *.
      intros p Hin. cbn. apply IH; auto. }
    cbn [wire_of]. case_decide; [|done]. by apply escape_tidy.
Qed.

(** ** Same values have the same wire form, and only they *)

Lemma same_escape t t' w w' : same (escape t w) (escape t' w') -> t = t' /\ same w w'.
Proof.
  inversion 1 as [? Ha|? l' Hl|? f' Hp Hf]; subst; try done.
  pose proof (Hf "$" ltac:(set_solver)) as Ht. pose proof (Hf "v" ltac:(set_solver)) as Hv.
  cbn in Ht, Hv. split; [by inversion Ht|done].
Qed.

Lemma escape_same t w w' : same w w' -> same (escape t w) (escape t w').
Proof.
  intros Hw. constructor; [done|]. intros k. cbn.
  rewrite !elem_of_cons. intros [-> | [-> | Hk]]; [by constructor|done|set_solver].
Qed.

Lemma field_wire k fields : k ∈ fields.*1 ->
  field k (map (fun p => (p.1, wire_of p.2)) fields) = wire_of (field k fields).
Proof. apply field_map. Qed.

Lemma same_wire_of v v' : same v v' -> same (wire_of v) (wire_of v').
Proof.
  revert v'. induction v as [| | | | | | |items IH|fields IH|] using value_nested_ind; intros v' Hs;
    inversion Hs as [? Ha|? l' Hl|? f' Hp Hf]; subst; try (by constructor).
  1-2: by apply escape_same; constructor.
  - cbn. constructor. clear Hs. induction Hl as [|x y l l' Hxy _ IHl]; [constructor|].
    apply Forall_cons in IH as [? ?]. constructor; auto.
  - assert (Ho : same (VObj (map (fun p => (p.1, wire_of p.2)) fields))
                      (VObj (map (fun p => (p.1, wire_of p.2)) f'))).
    { constructor; [by rewrite !wire_keys|]. rewrite wire_keys. intros k Hk.
      rewrite !field_wire by (by rewrite <-?Hp). rewrite Forall_forall in IH.
      apply (IH _ (field_elem _ _ Hk)). by apply Hf. }
    cbn [wire_of]. destruct (decide ("$" ∈ fields.*1)) as [Hd|Hd].
    + rewrite decide_True by (by rewrite <-Hp). by apply escape_same.
    + rewrite decide_False by (by rewrite <-Hp). done.
Qed.

(** An object without [$] is not an escape. *)
Lemma wire_obj_shape fields :
  (exists o, wire_of (VObj fields) = escape "o" (VObj o) /\ o.*1 = fields.*1 /\
     (forall k, k ∈ fields.*1 -> field k o = wire_of (field k fields))) \/
  (exists o, wire_of (VObj fields) = VObj o /\ o.*1 = fields.*1 /\ ("$" ∉ o.*1) /\
     (forall k, k ∈ fields.*1 -> field k o = wire_of (field k fields))).
Proof.
  cbn [wire_of]. pose proof (wire_keys fields) as Hk. pose proof (fun k => field_wire k fields) as Hf.
  case_decide as Hd; [left|right]; eexists; split_and!; try done. by rewrite Hk.
Qed.

Lemma same_keys f f' : same (VObj f) (VObj f') -> f.*1 ≡ₚ f'.*1 /\ (forall k, k ∈ f.*1 -> same (field k f) (field k f')).
Proof. by inversion 1. Qed.

Lemma plain_not_escape t o w :
  "$" ∉ o.*1 -> ~ same (VObj o) (escape t w) /\ ~ same (escape t w) (VObj o).
Proof.
  intros Hn. split; intros [Hk _]%same_keys; apply Hn; [rewrite Hk|rewrite <-Hk]; set_solver.
Qed.

Lemma same_VStr s s' : same (VStr s) (VStr s') -> s = s'.
Proof. by inversion 1. Qed.

Lemma same_fields_of o o' fields fields' :
  Forall (fun p => forall v', dense p.2 -> dense v' -> same (wire_of p.2) (wire_of v') -> same p.2 v') fields ->
  dense (VObj fields) -> dense (VObj fields') ->
  o.*1 = fields.*1 -> o'.*1 = fields'.*1 ->
  (forall k, k ∈ fields.*1 -> field k o = wire_of (field k fields)) ->
  (forall k, k ∈ fields'.*1 -> field k o' = wire_of (field k fields')) ->
  same (VObj o) (VObj o') -> same (VObj fields) (VObj fields').
Proof.
  intros IH Hd Hd' Ho Ho' Hfo Hfo' [Hk Hs]%same_keys. rewrite Ho, Ho' in Hk. rewrite Ho in Hs.
  cbn [dense] in Hd, Hd'. apply (foldr_forall (fun p => dense p.2)) in Hd, Hd'.
  rewrite Forall_forall in IH, Hd, Hd'. constructor; [done|]. intros k Hin.
  assert (Hin' : k ∈ fields'.*1) by (by rewrite <-Hk).
  pose proof (field_elem _ _ Hin) as He. pose proof (field_elem _ _ Hin') as He'.
  apply (IH _ He); [apply (Hd _ He)|apply (Hd' _ He')|]. cbn.
  rewrite <-Hfo, <-Hfo' by done. by apply Hs.
Qed.

Lemma wire_of_same v v' : dense v -> dense v' -> same (wire_of v) (wire_of v') -> same v v'.
Proof.
  revert v'. induction v as [| | | | | | |items IH|fields IH|] using value_nested_ind; intros v' Hd Hd' Hs.
  all: destruct v' as [| | | |s'|z'|bytes'|items'|fields'|].
  all: try (exfalso; done).
  all: try (inversion Hs; subst; by constructor).
  all: try (destruct (wire_obj_shape fields) as [(o & Eo & Ho & Hfo)|(o & Eo & Ho & Hn & Hfo)]; rewrite Eo in Hs).
  all: try (destruct (wire_obj_shape fields') as [(o' & Eo' & Ho' & Hfo')|(o' & Eo' & Ho' & Hn' & Hfo')];
    rewrite Eo' in Hs).
  all: try (exfalso; inversion Hs; done).
  all: try (exfalso; apply same_escape in Hs as [[=] _]; done).
  all: try (exfalso; revert Hs; by apply plain_not_escape).
  - apply same_escape in Hs as [_ Hs%same_VStr].
    pose proof (BigInt_decimal z) as Hz. rewrite Hs, BigInt_decimal in Hz. injection Hz as ->. by constructor.
  - apply same_escape in Hs as [_ Hs%same_VStr].
    pose proof (base64_roundtrip_lemma b) as Hb. rewrite Hs, base64_roundtrip_lemma in Hb.
    injection Hb as ->. by constructor.
  - cbn in Hd, Hd'. apply foldr_forall in Hd, Hd'. cbn [wire_of] in Hs.
    inversion Hs as [|? ? Hl|]; subst; [done|]. constructor. clear Hs.
    revert items' Hd' Hl. induction IH as [|x items Hx _ IHl]; intros [|y items'] Hd' Hl;
      inversion Hl; subst; constructor; apply Forall_cons in Hd as [? ?], Hd' as [? ?]; auto.
  - apply same_escape in Hs as [_ Hs]. by eapply (same_fields_of o o').
  - by eapply (same_fields_of o o').
Qed.

(** ** The sign of zero

    [JSON.stringify] drops it; sorting and escaping commute with that. *)

Definition on_fields (g : value -> value) (f : list (string * value)) : list (string * value) :=
  map (fun p => (p.1, g p.2)) f.

Lemma on_fields_keys g f : (on_fields g f).*1 = f.*1.
Proof. induction f as [|[k v] f IH]; [done|]. cbn. by f_equal. Qed.

Lemma field_written k f : field k (on_fields written f) = written (field k f).
Proof.
  unfold field. induction f as [|[k' v] f IH]; [done|]. cbn. case_decide; [done|]. exact IH.
Qed.

Lemma obj_assign_fields g out key v :
  obj_assign (on_fields g out) key (g v) = on_fields g (obj_assign out key v).
Proof.
  unfold obj_assign, obj_set. rewrite on_fields_keys. case_decide; [done|]. case_decide; clear.
  - induction out as [|[k x] out IH]; [done|]. cbn. case_decide; [done|]. cbn. by f_equal.
  - induction out as [|[k x] out IH]; [done|]. cbn. destruct (key_before k key); [|done]. cbn. by f_equal.
Qed.

Lemma assign_all_fields g f : assign_all (on_fields g f) = on_fields g (assign_all f).
Proof.
  unfold assign_all. change (@nil (string * value)) with (on_fields g []) at 1. generalize (@nil (string * value)).
  induction f as [|[k v] f IH]; intros out; [done|]. cbn. by rewrite obj_assign_fields, IH.
Qed.

Lemma sortDeep_written w : tidy w -> sortDeep (written w) = written (sortDeep w).
Proof.
  induction w as [| | |n| | | |items IH|fields IH|] using value_nested_ind; intros Ht; try done.
  - by destruct n.
  - cbn in *. apply foldr_forall in Ht. f_equal. induction IH as [|x items Hx _ IHl]; [done|].
    apply Forall_cons in Ht as [? ?]. cbn. f_equal; auto.
  - cbn [tidy] in Ht. destruct Ht as (_ & _ & Ht). apply (foldr_forall (fun p => tidy p.2)) in Ht. cbn [written sortDeep].
    fold (on_fields written fields). rewrite on_fields_keys. f_equal.
    match goal with |- _ = map _ (assign_all ?l) => fold (on_fields written (assign_all l)); rewrite <- (assign_all_fields written l) end.
    f_equal. unfold on_fields. rewrite !map_map. apply map_ext. intros k. cbn. f_equal.
    fold (on_fields sortDeep fields). rewrite <- field_written. f_equal. unfold on_fields. rewrite !map_map.
    apply map_ext_in. intros p Hp. cbn. f_equal. rewrite Forall_forall in IH, Ht. apply list_elem_of_In in Hp.
    by apply IH; [|apply Ht].
Qed.

Lemma wire_of_written v : wire_of (written v) = written (wire_of v).
Proof.
  induction v as [| | |n| | | |items IH|fields IH|] using value_nested_ind; try done.
  - by destruct n.
  - cbn. f_equal. rewrite !map_map. induction IH as [|x items Hx _ IHl]; [done|]. cbn. by f_equal.
  - cbn [written wire_of]. fold (on_fields written fields). rewrite on_fields_keys.
    assert (E : on_fields wire_of (on_fields written fields) = on_fields written (on_fields wire_of fields)).
    { unfold on_fields. rewrite !map_map. induction IH as [|x f Hx _ IHl]; [done|]. cbn in *. rewrite Hx. f_equal. exact IHl. }
    fold (on_fields wire_of (on_fields written fields)). fold (on_fields wire_of fields). rewrite E. by case_decide.
Qed.

Lemma encodable_written v : encodable v -> encodable (written v).
Proof.
  induction v as [| | |n| | | |items IH|fields IH|] using value_nested_ind; intros He; try done.
  - by destruct n.
  - cbn in *. apply foldr_forall in He. apply foldr_forall, Forall_fmap. rewrite Forall_forall in *. intros x Hx. apply IH; auto.
  - cbn [encodable written] in *. destruct He as (Hok & Hp & He). apply (foldr_forall (fun p => encodable p.2)) in He.
    fold (on_fields written fields). unfold fields_ok, plain. rewrite on_fields_keys. split; [done|]. split; [done|].
    apply (foldr_forall (fun p => encodable p.2)). unfold on_fields. apply Forall_fmap. rewrite Forall_forall in *.
    intros p Hin. cbn. apply IH; auto.
Qed.

Lemma dense_written v : dense v -> dense (written v).
Proof.
  induction v as [| | |n| | | |items IH|fields IH|] using value_nested_ind; intros He; try done.
  - by destruct n.
  - cbn in *. apply foldr_forall in He. apply foldr_forall, Forall_fmap. rewrite Forall_forall in *. intros x Hx. apply IH; auto.
  - cbn [dense written] in *. apply (foldr_forall (fun p => dense p.2)) in He.
    apply (foldr_forall (fun p => dense p.2)). apply Forall_fmap. rewrite Forall_forall in *.
    intros p Hin. cbn. apply IH; auto.
Qed.

(** What a value without [undefined] encodes to. *)
Lemma stableEncode_dense v : encodable v -> dense v -> stableEncode v = Ret (sortDeep (wire_of (written v))).
Proof.
  intros He Hd. unfold stableEncode. rewrite toWire_wire_of by done. cbn [mbind exc_bind]. rewrite wire_of_defined by done.
  by rewrite wire_of_written, sortDeep_written by by apply wire_of_tidy.
Qed.

(** ** Properties *)

(** C24: the wire is a round trip. A value the wire can carry encodes to a JSON
    value, and decoding that value, with any fuel from its depth on, gives the
    value back with [undefined] fields absent and [undefined] items null. *)
Theorem wire_roundtrip v :
  encodable v ->
  exists w, toWire v = Ret w /\ (is_undefined v = false -> is_json w) /\
    forall fuel, (depth w <= fuel)%nat -> fromWire fuel w = Ret (strip v).
Proof.
  intros He. destruct (wire_roundtrip_lemma v He) as (w & Hw & _ & Hj & Hf). by exists w.
Qed.

(** C39: the canonical encoding identifies two values exactly when they differ
    at most in the order of object properties and in the sign of zero, at any
    depth: [written] is the value with both zeros alike. *)
Theorem stableEncode_iff v v' :
  encodable v -> encodable v' -> dense v -> dense v' ->
  stableEncode v = stableEncode v' <-> same (written v) (written v').
Proof.
  intros He He' Hd Hd'. rewrite !stableEncode_dense by done. split.
  - intros [= Hs]. apply wire_of_same; [by apply dense_written..|].
    apply same_sortDeep; [by apply wire_of_tidy, encodable_written..|done].
  - intros Hs. f_equal. by apply sortDeep_same, same_wire_of.
Qed.

(** an own [__proto__] property does not survive the wire. *)
Theorem proto_property_lost fields v :
  (exists w, toWire v = Ret w) -> "$" ∉ fields.*1 ->
  toWire (VObj (("__proto__", v) :: fields)) = toWire (VObj fields).
Proof.
  intros [w Hw] Hd. rewrite !toWire_obj. cbn [toWire_fields]. rewrite Hw. cbn [mbind exc_bind].
  replace (if is_undefined w then [] else obj_assign [] "__proto__" w) with (@nil (string * value))
    by (by destruct (is_undefined w)).
  destruct (toWire_fields fields []); [|done]. cbn. rewrite !decide_False; [done|done|set_solver].
Qed.

(** ** Witnesses *)

Definition sample_args : value :=
  VObj [("7", VArr [VBig (-5); VNum (num_of_Z 0)]); ("$", VStr "x"); ("a", VBytes [Byte.x01; Byte.xff])].

Definition sample_args' : value :=
  VObj [("7", VArr [VBig (-5); VNum NNegZero]); ("a", VBytes [Byte.x01; Byte.xff]); ("$", VStr "x")].

Lemma sample_encodable : (encodable sample_args /\ encodable sample_args') /\ (dense sample_args /\ dense sample_args').
Proof.
  assert (Hp : forall k k' k'' : string, k <> k' -> k <> k'' -> k' <> k'' -> NoDup [k; k'; k'']).
  { intros. repeat (apply NoDup_cons; split; [set_solver|]). constructor. }
  split; split; cbn; split_and?; try done;
    try (split; [apply Hp; discriminate|repeat constructor]);
    unfold plain; cbn; rewrite !not_elem_of_cons; split_and!; try discriminate; apply not_elem_of_nil.
Qed.

Lemma wire_roundtrip_witness : exists w,
  toWire sample_args = Ret w /\ fromWire (depth w) w = Ret sample_args.
Proof.
  destruct (wire_roundtrip sample_args (proj1 (proj1 sample_encodable))) as (w & Hw & _ & Hf).
  exists w. split; [exact Hw|]. exact (Hf (depth w) (le_n _)).
Defined.

Lemma stableEncode_iff_witness : stableEncode sample_args = stableEncode sample_args'.
Proof.
  destruct sample_encodable as [[H1 H2] [H3 H4]].
  apply (stableEncode_iff sample_args sample_args' H1 H2 H3 H4).
  constructor; [apply (bool_decide_unpack _); vm_compute; exact I|].
  cbn. intros k Hk. rewrite !elem_of_cons in Hk.
  destruct Hk as [-> | [-> | [-> | Hk]]]; [| | |set_solver]; vm_compute.
  - apply same_arr. repeat constructor.
  - by constructor.
  - by constructor.
Defined.

(** The property is dropped, silently, from [{ __proto__: 1, a: 2 }]. *)
Lemma proto_property_lost_witness :
  toWire (VObj [("__proto__", VNum (num_of_Z 1)); ("a", VNum (num_of_Z 2))]) =
    Ret (VObj [("a", VNum (num_of_Z 2))]).
Proof.
  rewrite (proto_property_lost [("a", VNum (num_of_Z 2))] (VNum (num_of_Z 1))); [reflexivity| |].
  - eexists. reflexivity.
  - apply (bool_decide_unpack _). vm_compute. exact I.
Defined.
