(* ===== verification/Protocol.v ===== *)
(** The frame decoders: [core/src/protocol-validation.ts] and
    [core/src/protocol.ts].

    A decoder receives a value already decoded from the wire and either returns
    it, unchanged, or throws a [ProtocolError]. A message of the typed contract
    is a Rocq value here; [*_value] is the object it is on the wire. *)
From S2P Require Import Prelude Errors Value StableEncode.
Local Open Scope string_scope.
Local Open Scope list_scope.

(** ** [protocol-validation.ts] *)

Definition malformed {A} (message : string) : exc js_error A := Throw (ProtocolError malformed_ message).

(** The own properties of an object that is not an array. *)
Definition protocolObject (v : value) (name : string) : exc js_error (list (string * value)) :=
  match v with
  | VObj fields => Ret fields
  | VBytes _ => Ret (default [] (own_fields v))
  | _ => malformed (name +:+ " must be an object")
  end.

Definition hasOwn (fields : list (string * value)) (key : string) : bool :=
  bool_decide (key ∈ fields.*1).

Definition exactFields (fields : list (string * value)) (required optional : list string)
    : exc js_error unit :=
  _ ← exc_each (fun key => throw_if (negb (hasOwn fields key))
        (ProtocolError malformed_ ("missing field " +:+ key))) required;
  exc_each (fun key => throw_if (negb (bool_decide (key ∈ required)) && negb (bool_decide (key ∈ optional)))
        (ProtocolError malformed_ ("unknown field " +:+ key))) (fields.*1).

Definition boundedString (v : value) (name : string) (maxLength : Z) : exc js_error string :=
  match v with
  | VStr s =>
      if decide (0 < utf16_length s <= maxLength)%Z then Ret s
      else malformed (name +:+ " must be a non-empty bounded string")
  | _ => malformed (name +:+ " must be a non-empty bounded string")
  end.

Inductive FrameSender : Type := from_client | from_application.

Definition MAX_VERSION_LENGTH : Z := 64.

(** The version field of [core/package.json]. *)
Definition ACKERDB_VERSION : string := "0.17.0".

Definition frameVersion (v : value) (sender : FrameSender) : exc js_error unit :=
  sent ← boundedString v "frame version v" MAX_VERSION_LENGTH;
  if decide (sent = ACKERDB_VERSION) then Ret tt
  else
    let application := match sender with from_application => sent | from_client => ACKERDB_VERSION end in
    let client := match sender with from_client => sent | from_application => ACKERDB_VERSION end in
    Throw (ProtocolError version_mismatch
      ("this application runs AckerDB " +:+ application +:+ " and this client is " +:+ client +:+
       " — install matching versions")).

(** ** Limits of [protocol.ts] *)

Definition MAX_PROTOCOL_ID : Z := 0x7fffffff.
Definition MAX_RETRY_AFTER_MS : Z := 30000.
Definition MAX_CREDENTIAL_BYTES : Z := 16 * 1024.
Definition MAX_RECEIPT_OBLIGATIONS : nat := Z.to_nat 65536.
Definition MAX_SESSION_ID_LENGTH : Z := 128.
Definition MAX_REFERENCE_LENGTH : Z := 512.
Definition MAX_CURSOR_PART_LENGTH : Z := 512.
Definition MAX_SAFE_MESSAGE_LENGTH : Z := 512.
Definition MAX_SSE_TOKEN_LENGTH : Z := 128.
Definition MAX_PROVENANCE_PART_LENGTH : Z := MAX_CREDENTIAL_BYTES.
Definition MAX_IDENTITY : Z := 2 ^ 63 - 1.

(** ** Scalars *)

Definition payload (v : value) (name : string) : exc js_error value :=
  if is_undefined v then malformed (name +:+ " must be wire-representable") else Ret v.

(** A number that is an integer from [low] on, and at most [high] if given. *)
Definition int_field (v : value) (low : Z) (high : option Z) : bool :=
  match v with
  | VNum n =>
      match num_safe_integer n with
      | Some z => bool_decide (low <= z)%Z && match high with Some h => bool_decide (z <= h)%Z | None => true end
      | None => false
      end
  | _ => false
  end.

Definition protocolId (v : value) (name : string) : exc js_error value :=
  if int_field v 1 (Some MAX_PROTOCOL_ID) then Ret v
  else malformed (name +:+ " must be an integer from 1 through 2147483647").

Definition positiveSafeInteger_field (v : value) (name : string) : exc js_error value :=
  if int_field v 1 None then Ret v else malformed (name +:+ " must be a positive safe integer").

Definition nonNegativeInteger (v : value) (name : string) : exc js_error value :=
  if int_field v 0 None then Ret v else malformed (name +:+ " must be a non-negative safe integer").

Definition nonNegativeBigint (v : value) (name : string) : exc js_error Z :=
  match v with
  | VBig z => if decide (0 <= z)%Z then Ret z else malformed (name +:+ " must be a non-negative bigint")
  | _ => malformed (name +:+ " must be a non-negative bigint")
  end.

(** [enumValue]: the member of an enumeration a string names. *)
Definition enumValue {T} (v : value) (name : string) (all : list T) (spell : T -> string) : exc js_error T :=
  match v with
  | VStr s =>
      match List.find (fun t => bool_decide (spell t = s)) all with
      | Some t => Ret t
      | None => malformed ("unknown " +:+ name)
      end
  | _ => malformed ("unknown " +:+ name)
  end.

(** [frame]: the object and its type. *)
Definition frame (v : value) : exc js_error (list (string * value) * string) :=
  fields ← protocolObject v "frame";
  match field "t" fields with
  | VStr t => Ret (fields, t)
  | _ => malformed "t must be a frame type"
  end.

(** [uuidV7.test]: 8-4-4-4-12 hexadecimal digits, version 7, variant 10. *)
Definition hex_digit (a : Ascii.ascii) : option Z :=
  let b := byte_of a in
  if decide (48 <= b < 58)%Z then Some (b - 48)%Z
  else if decide (97 <= b < 103)%Z then Some (b - 87)%Z
  else if decide (65 <= b < 71)%Z then Some (b - 55)%Z else None.

(** What the pattern wants at each place. *)
Inductive uuid_class : Type := any_hex | dash | seven | variant.

Definition uuid_pattern : list uuid_class :=
  replicate 8 any_hex ++ [dash] ++ replicate 4 any_hex ++ [dash; seven] ++ replicate 3 any_hex ++
  [dash; variant] ++ replicate 3 any_hex ++ [dash] ++ replicate 12 any_hex.

Definition uuid_match (c : uuid_class) (a : Ascii.ascii) : bool :=
  match c with
  | any_hex => bool_decide (is_Some (hex_digit a))
  | dash => bool_decide (byte_of a = 45%Z)
  | seven => bool_decide (byte_of a = 55%Z)
  | variant => match hex_digit a with Some d => bool_decide (8 <= d < 12)%Z | None => false end
  end.

Fixpoint match_all (p : list uuid_class) (l : list Ascii.ascii) : bool :=
  match p, l with
  | [], [] => true
  | c :: p, a :: l => uuid_match c a && match_all p l
  | _, _ => false
  end.

Definition uuidV7_test (s : string) : bool := match_all uuid_pattern (chars s).

Fixpoint parse_hex (acc : Z) (l : list Ascii.ascii) : Z :=
  match l with
  | [] => acc
  | a :: l => parse_hex (acc * 16 + default 0%Z (hex_digit a)) l
  end.

(** The timestamp of a UUIDv7: its first 48 bits. *)
Definition uuidV7Timestamp (s : string) : exc js_error Z :=
  if uuidV7_test s
  then Ret (parse_hex 0 (take 8 (chars s) ++ take 4 (drop 9 (chars s))))
  else malformed "mutationRequestId must be UUIDv7".

(** ** The typed contract *)

Inductive DurabilityPolicy : Type := production | balanced.
Definition DURABILITY_POLICIES : list DurabilityPolicy := [production; balanced].
Definition durability_string (d : DurabilityPolicy) : string :=
  match d with production => "production" | balanced => "balanced" end.

Record CredentialProvenance : Type := MkProvenance { issuer : string; subject : string }.

Inductive Credential : Type := Anonymous | Bearer (token : string).

(** [AuthenticationDescriptor]; [None] for a time to live is [null]. *)
Inductive AuthenticationDescriptor : Type :=
  | AnonymousPrincipal
  | UserPrincipal (identity : Z) (provenance : CredentialProvenance) (ttl : option num)
  | WorkloadPrincipal (provenance : CredentialProvenance) (ttl : option num).

(** [Outcome] and [OutcomeCode] are those of the errors. *)

Record ApplicationError : Type := MkApplicationError {
  app_code : string; app_body : value; app_status : num }.

Record SubscriptionCursor : Type := MkCursor {
  generation : string; commitVersion : Z; cur_authEpoch : num; cur_identity : string }.

Inductive SubscriptionTransition : Type :=
  | TReset (from : option SubscriptionCursor) (to : SubscriptionCursor) (v : value)
  | TUpdate (from to : SubscriptionCursor) (v : value)
  | TCheckpoint (from to : SubscriptionCursor)
  | TResume (from to : SubscriptionCursor)
  | TRevoked (from to : SubscriptionCursor) (outcome : Outcome)
  | TApplicationError (from : option SubscriptionCursor) (to : SubscriptionCursor) (error : ApplicationError).

Record LiveEventCursor : Type := MkEventCursor {
  ev_generation : string; ev_commitVersion : Z; ev_sequence : Z }.

Inductive LiveEvent : Type :=
  | EventRow (cursor : LiveEventCursor) (row : value)
  | EventGap (cursor : LiveEventCursor)
  | EventReset (cursor : LiveEventCursor).

Record MutationReceipt : Type := MkReceipt {
  mutationRequestId : string;
  rc_commitVersion : Z;
  durability : DurabilityPolicy;
  replayed : bool;
  obligations : list num;
}.

Inductive ClientSessionMessage : Type :=
  | CAuth (attemptId : num) (credential : Credential)
  | CSubscribe (id : num) (ref : string) (args : value) (cursor : option SubscriptionCursor)
  | CUnsubscribe (id : num)
  | CReset (id : num) (cursor : SubscriptionCursor)
  | CQuery (id : num) (ref : string) (args : value)
  | CProcedure (id : num) (ref : string) (args : value)
  | CCancel (id : num)
  | CMutation (id : num) (ref : string) (args : value) (mutationRequestId : string) (issuedAt : num)
  | CChannelJoin (id : num) (ref : string) (args : value) (room : option value)
  | CChannelLeave (id : num)
  | CChannelSend (id : num) (event : string) (payload : value)
  | CPing.

Inductive call_kind : Type := a_query | a_procedure.

Inductive ServerSessionMessage : Type :=
  | SAuthenticated (descriptor : AuthenticationDescriptor) (attemptId authEpoch : num)
  | STransition (id : num) (transition : SubscriptionTransition)
  | SEvent (id : num) (event : LiveEvent)
  | SOk (kind : call_kind) (id : num) (v : value)
  | SMutationOk (id : num) (v : value) (receipt : MutationReceipt)
  | SApplicationError (kind : call_kind) (id : num) (error : ApplicationError)
  | SMutationError (id : num) (error : ApplicationError) (receipt : MutationReceipt)
  | SChannelReady (id : num) (authEpoch : num)
  | SChannelEvent (id : num) (event : string) (payload : value)
  | SChannelRejected (id : num) (authEpoch : num) (error : ApplicationError)
  | SError (id : option num) (outcome : Outcome)
  | SPong.

Inductive ServerHandshakeMessage : Type :=
  | Welcome (descriptor : AuthenticationDescriptor) (clientSessionId : string) (authEpoch : num)
  | Refusal (outcome : Outcome).

Inductive SseMessage : Type :=
  | SseChunk (seq : num) (proof : string) (v : value)
  | SseDone (seq : num) (proof : string)
  | SseError (seq : num) (proof : string) (outcome : Outcome).

Record HelloMessage : Type := MkHello { clientSessionId : string; credential : Credential }.
Record SseAckRequest : Type := MkSseAck { stream : string; ack_seq : num; ack_proof : string }.

(** ** The decoders *)

Definition ERROR_STATUSES : list Z := [
  400; 401; 402; 403; 404; 405; 406; 407; 408; 409; 410; 411; 412; 413; 414; 415; 416; 417; 418;
  421; 422; 423; 424; 425; 426; 428; 429; 431; 451;
  500; 501; 502; 503; 504; 505; 506; 507; 508; 510; 511]%Z.

Definition error_status (v : value) : bool :=
  match v with
  | VNum n => match num_integer n with Some z => bool_decide (z ∈ ERROR_STATUSES) | None => false end
  | _ => false
  end.

Definition guard (b : bool) (message : string) : exc js_error unit :=
  throw_if (negb b) (ProtocolError malformed_ message).

Definition parseCredential (v : value) : exc js_error unit :=
  result ← protocolObject v "credential";
  let kind := field "kind" result in
  if decide (kind = VStr "anonymous") then exactFields result ["kind"] []
  else if decide (kind = VStr "bearer") then
    _ ← exactFields result ["kind"; "token"] [];
    token ← boundedString (field "token" result) "credential token" MAX_CREDENTIAL_BYTES;
    guard (bool_decide (byte_length token <= MAX_CREDENTIAL_BYTES)%Z) "credential token exceeds the byte limit"
  else malformed "unknown credential kind".

Definition parseCredentialProvenance (v : value) : exc js_error unit :=
  result ← protocolObject v "credential provenance";
  _ ← exactFields result ["issuer"; "subject"] [];
  _ ← boundedString (field "issuer" result) "credential provenance issuer" MAX_PROVENANCE_PART_LENGTH;
  _ ← boundedString (field "subject" result) "credential provenance subject" MAX_PROVENANCE_PART_LENGTH;
  Ret tt.

Definition parseCredentialTtl (result : list (string * value)) : exc js_error unit :=
  let ttl := field "credentialTtlMs" result in
  if decide (ttl = VNull) then Ret tt
  else _ ← nonNegativeInteger ttl "credentialTtlMs"; Ret tt.

Definition parseAuthenticationDescriptor (result : list (string * value)) (frameFields : list string)
    : exc js_error unit :=
  let principal := field "principal" result in
  if decide (principal = VStr "anonymous") then exactFields result (frameFields ++ ["principal"]) []
  else if decide (principal = VStr "user") then
    _ ← exactFields result (frameFields ++ ["principal"; "identity"; "provenance"; "credentialTtlMs"]) [];
    _ ← guard (match field "identity" result with
               | VBig z => bool_decide (0 < z <= MAX_IDENTITY)%Z
               | _ => false
               end) "identity must be a positive signed 64-bit bigint";
    _ ← parseCredentialProvenance (field "provenance" result);
    parseCredentialTtl result
  else if decide (principal = VStr "workload") then
    _ ← exactFields result (frameFields ++ ["principal"; "provenance"; "credentialTtlMs"]) [];
    _ ← parseCredentialProvenance (field "provenance" result);
    parseCredentialTtl result
  else malformed "unknown client principal kind".

Definition is_true (v : value) : bool := bool_decide (v = VBool true).

Definition parseOutcome (v : value) : exc js_error OutcomeCode :=
  result ← protocolObject v "outcome";
  _ ← exactFields result ["code"; "retryable"; "message"] ["retryAfterMs"; "resource"; "committed"];
  code ← enumValue (field "code" result) "outcome code" OUTCOME_CODES outcome_code_string;
  _ ← guard (match field "retryable" result with VBool _ => true | _ => false end) "retryable must be a boolean";
  _ ← boundedString (field "message" result) "outcome message" MAX_SAFE_MESSAGE_LENGTH;
  _ ← (if hasOwn result "retryAfterMs" then
         _ ← nonNegativeInteger (field "retryAfterMs" result) "retryAfterMs";
         _ ← guard (int_field (field "retryAfterMs" result) 0 (Some MAX_RETRY_AFTER_MS)) "retryAfterMs exceeds 30000";
         guard (is_true (field "retryable" result)) "retryAfterMs requires a retryable outcome"
       else Ret tt);
  _ ← (if hasOwn result "resource" then
         _ ← enumValue (field "resource" result) "resource class" RESOURCE_CLASSES resource_class_string; Ret tt
       else Ret tt);
  _ ← (if hasOwn result "committed" then
         guard (is_true (field "committed" result) && bool_decide (code = convergence_unavailable))
           "committed is valid only for convergence_unavailable"
       else Ret tt);
  _ ← guard (negb (bool_decide (code = convergence_unavailable)) ||
             (is_true (field "committed" result) && negb (is_true (field "retryable" result))))
        "convergence_unavailable must be committed and non-retryable";
  Ret code.

Definition parseApplicationError (v : value) : exc js_error unit :=
  result ← protocolObject v "application error";
  _ ← exactFields result ["kind"; "code"; "body"; "status"] [];
  _ ← guard (bool_decide (field "kind" result = VStr "application")) "application error kind must be application";
  _ ← boundedString (field "code" result) "application error code" MAX_REFERENCE_LENGTH;
  _ ← payload (field "body" result) "application error body";
  guard (error_status (field "status" result)) "application error status must be a supported named error status".

Definition parseSubscriptionCursor (v : value) : exc js_error SubscriptionCursor :=
  result ← protocolObject v "subscription cursor";
  _ ← exactFields result ["generation"; "commitVersion"; "authEpoch"; "identity"] [];
  generation ← boundedString (field "generation" result) "cursor generation" MAX_CURSOR_PART_LENGTH;
  version ← nonNegativeBigint (field "commitVersion" result) "cursor commitVersion";
  epoch ← nonNegativeInteger (field "authEpoch" result) "cursor authEpoch";
  identity ← boundedString (field "identity" result) "cursor identity" MAX_CURSOR_PART_LENGTH;
  Ret (MkCursor generation version (match epoch with VNum n => n | _ => NNaN end) identity).

(** [===] on numbers that are integers. *)
Definition num_same (n m : num) : bool := bool_decide (num_integer n = num_integer m).

Definition sameStream (from to : SubscriptionCursor) : exc js_error unit :=
  throw_if
    (negb (bool_decide (generation from = generation to)) ||
     negb (num_same (cur_authEpoch from) (cur_authEpoch to)) ||
     negb (bool_decide (cur_identity from = cur_identity to)) ||
     bool_decide (commitVersion to <= commitVersion from)%Z)
    (ProtocolError malformed_ "update/checkpoint cursors must advance one stream").

Definition sameCursor (from to : SubscriptionCursor) : exc js_error unit :=
  throw_if
    (negb (bool_decide (generation from = generation to)) ||
     negb (bool_decide (commitVersion from = commitVersion to)) ||
     negb (num_same (cur_authEpoch from) (cur_authEpoch to)) ||
     negb (bool_decide (cur_identity from = cur_identity to)))
    (ProtocolError malformed_ "resume cursors must be identical").

(** A cursor that may be [null]. *)
Definition parseNullableCursor (v : value) : exc js_error (option SubscriptionCursor) :=
  if decide (v = VNull) then Ret None else from ← parseSubscriptionCursor v; Ret (Some from).

Definition parseSubscriptionTransition (v : value) : exc js_error unit :=
  result ← protocolObject v "subscription transition";
  let kind := field "kind" result in
  if decide (kind = VStr "reset") then
    _ ← exactFields result ["kind"; "from"; "to"; "value"] [];
    _ ← parseNullableCursor (field "from" result);
    _ ← parseSubscriptionCursor (field "to" result);
    _ ← payload (field "value" result) "transition value"; Ret tt
  else if decide (kind = VStr "update") then
    _ ← exactFields result ["kind"; "from"; "to"; "value"] [];
    from ← parseSubscriptionCursor (field "from" result);
    to ← parseSubscriptionCursor (field "to" result);
    _ ← sameStream from to;
    _ ← payload (field "value" result) "transition value"; Ret tt
  else if decide (kind = VStr "checkpoint") then
    _ ← exactFields result ["kind"; "from"; "to"] [];
    from ← parseSubscriptionCursor (field "from" result);
    to ← parseSubscriptionCursor (field "to" result);
    sameStream from to
  else if decide (kind = VStr "resume") then
    _ ← exactFields result ["kind"; "from"; "to"] [];
    from ← parseSubscriptionCursor (field "from" result);
    to ← parseSubscriptionCursor (field "to" result);
    sameCursor from to
  else if decide (kind = VStr "revoked") then
    _ ← exactFields result ["kind"; "from"; "to"; "outcome"] [];
    _ ← parseSubscriptionCursor (field "from" result);
    _ ← parseSubscriptionCursor (field "to" result);
    code ← parseOutcome (field "outcome" result);
    guard (bool_decide (code ∈ [unauthenticated; auth_unavailable; auth_stale; unauthorized]))
      "revoked requires an authentication or authorization outcome"
  else if decide (kind = VStr "application-error") then
    _ ← exactFields result ["kind"; "from"; "to"; "error"] [];
    from ← parseNullableCursor (field "from" result);
    to ← parseSubscriptionCursor (field "to" result);
    _ ← match from with Some from => sameStream from to | None => Ret tt end;
    parseApplicationError (field "error" result)
  else malformed "unknown subscription transition kind".

Definition parseLiveEventCursor (v : value) : exc js_error unit :=
  result ← protocolObject v "live event cursor";
  _ ← exactFields result ["generation"; "commitVersion"; "sequence"] [];
  _ ← boundedString (field "generation" result) "event generation" MAX_CURSOR_PART_LENGTH;
  _ ← nonNegativeBigint (field "commitVersion" result) "event commitVersion";
  _ ← nonNegativeBigint (field "sequence" result) "event sequence"; Ret tt.

Definition parseLiveEvent (v : value) : exc js_error unit :=
  result ← protocolObject v "live event";
  let kind := field "kind" result in
  if decide (kind = VStr "row") then
    _ ← exactFields result ["kind"; "cursor"; "row"] [];
    _ ← parseLiveEventCursor (field "cursor" result);
    _ ← payload (field "row" result) "event row"; Ret tt
  else if decide (kind = VStr "gap" \/ kind = VStr "reset") then
    _ ← exactFields result ["kind"; "cursor"] [];
    parseLiveEventCursor (field "cursor" result)
  else malformed "unknown live event kind".

(** The obligations, checked for duplicates as they are collected. *)
Fixpoint parseObligations (unique : list num) (items : list value) : exc js_error unit :=
  match items with
  | [] => Ret tt
  | item :: items =>
      id ← protocolId item "obligation";
      match id with
      | VNum n =>
          if decide (n ∈ unique) then malformed "obligations must be unique"
          else parseObligations (n :: unique) items
      | _ => Ret tt
      end
  end.

Definition parseMutationReceipt (v : value) : exc js_error unit :=
  result ← protocolObject v "mutation receipt";
  _ ← exactFields result ["mutationRequestId"; "commitVersion"; "durability"; "replay"; "obligations"] [];
  id ← boundedString (field "mutationRequestId" result) "mutationRequestId" 36;
  _ ← guard (uuidV7_test id) "mutationRequestId must be UUIDv7";
  _ ← nonNegativeBigint (field "commitVersion" result) "receipt commitVersion";
  _ ← enumValue (field "durability" result) "durability policy" DURABILITY_POLICIES durability_string;
  _ ← guard (bool_decide (field "replay" result = VStr "executed" \/ field "replay" result = VStr "replayed"))
        "unknown replay status";
  match field "obligations" result with
  | VArr items =>
      if decide (MAX_RECEIPT_OBLIGATIONS < length items)%nat then malformed "obligations must be a bounded array"
      else parseObligations [] items
  | _ => malformed "obligations must be a bounded array"
  end.

Definition parseErrorMessage (result : list (string * value)) : exc js_error unit :=
  _ ← frameVersion (field "v" result) from_application;
  _ ← exactFields result ["v"; "t"; "id"; "outcome"] [];
  _ ← (if decide (field "id" result = VNull) then Ret VNull else protocolId (field "id" result) "request id");
  _ ← parseOutcome (field "outcome" result); Ret tt.

Definition connectionError (result : list (string * value)) : exc js_error unit :=
  _ ← parseErrorMessage result;
  guard (bool_decide (field "id" result = VNull)) "a connection error must not name an operation".

Definition parseConnectionError (v : value) : exc js_error value :=
  '(result, t) ← frame v;
  _ ← guard (bool_decide (t = "err")) "a connection error must be an err frame";
  _ ← connectionError result; Ret v.

Definition parseClientHandshake (v : value) : exc js_error value :=
  '(result, t) ← frame v;
  _ ← guard (bool_decide (t = "hello")) "the first client frame must be a hello";
  _ ← frameVersion (field "v" result) from_client;
  _ ← exactFields result ["v"; "t"; "clientSessionId"; "credential"] [];
  _ ← boundedString (field "clientSessionId" result) "clientSessionId" MAX_SESSION_ID_LENGTH;
  _ ← parseCredential (field "credential" result); Ret v.

Definition parseServerHandshake (v : value) : exc js_error value :=
  '(result, t) ← frame v;
  if decide (t = "welcome") then
    _ ← frameVersion (field "v" result) from_application;
    _ ← parseAuthenticationDescriptor result ["v"; "t"; "clientSessionId"; "authEpoch"];
    _ ← boundedString (field "clientSessionId" result) "clientSessionId" MAX_SESSION_ID_LENGTH;
    _ ← nonNegativeInteger (field "authEpoch" result) "authEpoch"; Ret v
  else if decide (t = "err") then _ ← connectionError result; Ret v
  else malformed "a server frame before the welcome must be a welcome or a connection error".

Definition parseClientMessage (v : value) : exc js_error value :=
  '(result, t) ← frame v;
  let id name := protocolId (field "id" result) name in
  let ref := boundedString (field "ref" result) "ref" MAX_REFERENCE_LENGTH in
  let args := payload (field "args" result) "args" in
  _ ← (if decide (t = "hello") then malformed "hello has already been received"
       else if decide (t = "auth") then
         _ ← exactFields result ["t"; "attemptId"; "credential"] [];
         _ ← protocolId (field "attemptId" result) "attemptId";
         parseCredential (field "credential" result)
       else if decide (t = "sub") then
         _ ← exactFields result ["t"; "id"; "ref"; "args"] ["cursor"];
         _ ← id "subscription id"; _ ← ref; _ ← args;
         (if hasOwn result "cursor" then _ ← parseSubscriptionCursor (field "cursor" result); Ret tt else Ret tt)
       else if decide (t = "unsub") then
         _ ← exactFields result ["t"; "id"] []; _ ← id "subscription id"; Ret tt
       else if decide (t = "reset") then
         _ ← exactFields result ["t"; "id"; "cursor"] []; _ ← id "subscription id";
         _ ← parseSubscriptionCursor (field "cursor" result); Ret tt
       else if decide (t = "q" \/ t = "p") then
         _ ← exactFields result ["t"; "id"; "ref"; "args"] []; _ ← id "request id"; _ ← ref; _ ← args; Ret tt
       else if decide (t = "cancel") then
         _ ← exactFields result ["t"; "id"] []; _ ← id "request id"; Ret tt
       else if decide (t = "m") then
         _ ← exactFields result ["t"; "id"; "ref"; "args"; "mutationRequestId"; "issuedAt"] [];
         _ ← id "request id"; _ ← ref; _ ← args;
         uuid ← boundedString (field "mutationRequestId" result) "mutationRequestId" 36;
         _ ← guard (uuidV7_test uuid) "mutationRequestId must be UUIDv7";
         _ ← nonNegativeInteger (field "issuedAt" result) "issuedAt"; Ret tt
       else if decide (t = "channel_join") then
         _ ← exactFields result ["t"; "id"; "ref"; "args"] ["room"];
         _ ← id "channel id"; _ ← ref; _ ← args;
         (if hasOwn result "room" then _ ← payload (field "room" result) "room"; Ret tt else Ret tt)
       else if decide (t = "channel_leave") then
         _ ← exactFields result ["t"; "id"] []; _ ← id "channel id"; Ret tt
       else if decide (t = "channel_send") then
         _ ← exactFields result ["t"; "id"; "event"; "payload"] []; _ ← id "channel id";
         _ ← boundedString (field "event" result) "channel event" MAX_REFERENCE_LENGTH;
         _ ← payload (field "payload" result) "channel payload"; Ret tt
       else if decide (t = "ping") then exactFields result ["t"] []
       else malformed "unknown client frame type" : exc js_error unit);
  Ret v.

(** The kind of the call an answer is for, and what must be present for it. *)
Definition parseAnswer (result : list (string * value)) (body message : string) : exc js_error unit :=
  let kind := field "kind" result in
  if decide (kind = VStr "mutation") then
    _ ← exactFields result ["t"; "id"; "kind"; body; "receipt"] [];
    parseMutationReceipt (field "receipt" result)
  else if decide (kind = VStr "query" \/ kind = VStr "procedure") then
    exactFields result ["t"; "id"; "kind"; body] []
  else malformed message.

Definition parseServerMessage (v : value) : exc js_error value :=
  '(result, t) ← frame v;
  let id name := protocolId (field "id" result) name in
  let epoch := nonNegativeInteger (field "authEpoch" result) "authEpoch" in
  _ ← (if decide (t = "welcome") then malformed "welcome has already been received"
       else if decide (t = "auth") then
         _ ← parseAuthenticationDescriptor result ["t"; "attemptId"; "authEpoch"];
         _ ← protocolId (field "attemptId" result) "attemptId"; _ ← epoch; Ret tt
       else if decide (t = "transition") then
         _ ← exactFields result ["t"; "id"; "transition"] []; _ ← id "subscription id";
         parseSubscriptionTransition (field "transition" result)
       else if decide (t = "event") then
         _ ← exactFields result ["t"; "id"; "event"] []; _ ← id "subscription id";
         parseLiveEvent (field "event" result)
       else if decide (t = "ok") then
         _ ← parseAnswer result "value" "unknown ok frame kind"; _ ← id "request id";
         _ ← payload (field "value" result) "result value"; Ret tt
       else if decide (t = "app_err") then
         _ ← parseAnswer result "error" "unknown application-error frame kind"; _ ← id "request id";
         parseApplicationError (field "error" result)
       else if decide (t = "channel_ready") then
         _ ← exactFields result ["t"; "id"; "authEpoch"] []; _ ← id "channel id"; _ ← epoch; Ret tt
       else if decide (t = "channel_event") then
         _ ← exactFields result ["t"; "id"; "event"; "payload"] []; _ ← id "channel id";
         _ ← boundedString (field "event" result) "channel event" MAX_REFERENCE_LENGTH;
         _ ← payload (field "payload" result) "channel payload"; Ret tt
       else if decide (t = "channel_rejected") then
         _ ← exactFields result ["t"; "id"; "authEpoch"; "error"] []; _ ← id "channel id"; _ ← epoch;
         parseApplicationError (field "error" result)
       else if decide (t = "err") then parseErrorMessage result
       else if decide (t = "pong") then exactFields result ["t"] []
       else malformed "unknown server frame type" : exc js_error unit);
  Ret v.

Definition parseSseMessage (v : value) : exc js_error value :=
  '(result, t) ← frame v;
  _ ← frameVersion (field "v" result) from_application;
  _ ← (if decide (t = "sse_chunk") then
         _ ← exactFields result ["v"; "t"; "seq"; "proof"; "value"] [];
         _ ← payload (field "value" result) "SSE chunk value"; Ret tt
       else if decide (t = "sse_done") then exactFields result ["v"; "t"; "seq"; "proof"] []
       else if decide (t = "sse_error") then
         _ ← exactFields result ["v"; "t"; "seq"; "proof"; "outcome"] [];
         _ ← parseOutcome (field "outcome" result); Ret tt
       else malformed "unknown SSE frame type" : exc js_error unit);
  _ ← positiveSafeInteger_field (field "seq" result) "SSE sequence";
  _ ← boundedString (field "proof" result) "SSE proof" MAX_SSE_TOKEN_LENGTH; Ret v.

Definition parseSseAckRequest (v : value) : exc js_error value :=
  '(result, t) ← frame v;
  _ ← frameVersion (field "v" result) from_client;
  _ ← guard (bool_decide (t = "sse_ack")) "SSE acknowledgment must be an sse_ack frame";
  _ ← exactFields result ["v"; "t"; "stream"; "seq"; "proof"] [];
  _ ← boundedString (field "stream" result) "SSE stream" MAX_SSE_TOKEN_LENGTH;
  _ ← positiveSafeInteger_field (field "seq" result) "SSE sequence";
  _ ← boundedString (field "proof" result) "SSE proof" MAX_SSE_TOKEN_LENGTH; Ret v.
