(* ===== verification/ProtocolProps.v ===== *)
(** The decoders accept exactly the typed contract: every accepted frame is the
    wire object of a well-formed message, up to property order, and the wire
    object of every well-formed message is accepted. *)
From S2P Require Import Prelude Errors Value StableEncode Protocol.
Local Open Scope string_scope.
Local Open Scope list_scope.

(** ** The wire objects of the typed contract *)

Definition string_ok (s : string) (max : Z) : Prop := (0 < utf16_length s <= max)%Z.
Definition id_ok (n : num) : Prop := int_field (VNum n) 1 (Some MAX_PROTOCOL_ID) = true.
Definition count_ok (n : num) : Prop := int_field (VNum n) 0 None = true.

Definition opt_field {A} (key : string) (g : A -> value) (o : option A) : list (string * value) :=
  match o with Some x => [(key, g x)] | None => [] end.

Definition credential_value (c : Credential) : value :=
  match c with
  | Anonymous => VObj [("kind", VStr "anonymous")]
  | Bearer token => VObj [("kind", VStr "bearer"); ("token", VStr token)]
  end.

Definition credential_ok (c : Credential) : Prop :=
  match c with
  | Anonymous => True
  | Bearer token => string_ok token MAX_CREDENTIAL_BYTES /\ (byte_length token <= MAX_CREDENTIAL_BYTES)%Z
  end.

Definition provenance_value (p : CredentialProvenance) : value :=
  VObj [("issuer", VStr (issuer p)); ("subject", VStr (subject p))].

Definition provenance_ok (p : CredentialProvenance) : Prop :=
  string_ok (issuer p) MAX_PROVENANCE_PART_LENGTH /\ string_ok (subject p) MAX_PROVENANCE_PART_LENGTH.

Definition ttl_value (ttl : option num) : value := match ttl with Some n => VNum n | None => VNull end.
Definition ttl_ok (ttl : option num) : Prop := match ttl with Some n => count_ok n | None => True end.

Definition descriptor_fields (d : AuthenticationDescriptor) : list (string * value) :=
  match d with
  | AnonymousPrincipal => [("principal", VStr "anonymous")]
  | UserPrincipal identity p ttl =>
      [("principal", VStr "user"); ("identity", VBig identity); ("provenance", provenance_value p);
       ("credentialTtlMs", ttl_value ttl)]
  | WorkloadPrincipal p ttl =>
      [("principal", VStr "workload"); ("provenance", provenance_value p); ("credentialTtlMs", ttl_value ttl)]
  end.

Definition descriptor_ok (d : AuthenticationDescriptor) : Prop :=
  match d with
  | AnonymousPrincipal => True
  | UserPrincipal identity p ttl => (0 < identity <= MAX_IDENTITY)%Z /\ provenance_ok p /\ ttl_ok ttl
  | WorkloadPrincipal p ttl => provenance_ok p /\ ttl_ok ttl
  end.

Definition outcome_value (o : Outcome) : value :=
  VObj ([("code", VStr (outcome_code_string (out_code o))); ("retryable", VBool (out_retryable o));
         ("message", VStr (out_message o))] ++
        opt_field "retryAfterMs" VNum (out_retryAfterMs o) ++
        opt_field "resource" (fun r => VStr (resource_class_string r)) (out_resource o) ++
        opt_field "committed" VBool (if out_committed o then Some true else None)).

Definition outcome_ok (o : Outcome) : Prop :=
  string_ok (out_message o) MAX_SAFE_MESSAGE_LENGTH /\
  (forall n, out_retryAfterMs o = Some n ->
     int_field (VNum n) 0 (Some MAX_RETRY_AFTER_MS) = true /\ out_retryable o = true) /\
  (out_committed o = true <-> out_code o = convergence_unavailable) /\
  (out_code o = convergence_unavailable -> out_retryable o = false).

Definition error_value (e : ApplicationError) : value :=
  VObj [("kind", VStr "application"); ("code", VStr (app_code e)); ("body", app_body e);
        ("status", VNum (app_status e))].

Definition error_ok (e : ApplicationError) : Prop :=
  string_ok (app_code e) MAX_REFERENCE_LENGTH /\ is_undefined (app_body e) = false /\
  error_status (VNum (app_status e)) = true.

Definition cursor_value (c : SubscriptionCursor) : value :=
  VObj [("generation", VStr (generation c)); ("commitVersion", VBig (commitVersion c));
        ("authEpoch", VNum (cur_authEpoch c)); ("identity", VStr (cur_identity c))].

Definition cursor_ok (c : SubscriptionCursor) : Prop :=
  string_ok (generation c) MAX_CURSOR_PART_LENGTH /\ (0 <= commitVersion c)%Z /\
  count_ok (cur_authEpoch c) /\ string_ok (cur_identity c) MAX_CURSOR_PART_LENGTH.

Definition nullable_value (c : option SubscriptionCursor) : value :=
  match c with Some c => cursor_value c | None => VNull end.

(** [to] is later than [from] on the same stream. *)
Definition advances (from to : SubscriptionCursor) : Prop :=
  generation from = generation to /\ num_integer (cur_authEpoch from) = num_integer (cur_authEpoch to) /\
  cur_identity from = cur_identity to /\ (commitVersion from < commitVersion to)%Z.

Definition stays (from to : SubscriptionCursor) : Prop :=
  generation from = generation to /\ num_integer (cur_authEpoch from) = num_integer (cur_authEpoch to) /\
  cur_identity from = cur_identity to /\ commitVersion from = commitVersion to.

Definition transition_value (t : SubscriptionTransition) : value :=
  VObj match t with
       | TReset from to v =>
           [("kind", VStr "reset"); ("from", nullable_value from); ("to", cursor_value to); ("value", v)]
       | TUpdate from to v =>
           [("kind", VStr "update"); ("from", cursor_value from); ("to", cursor_value to); ("value", v)]
       | TCheckpoint from to => [("kind", VStr "checkpoint"); ("from", cursor_value from); ("to", cursor_value to)]
       | TResume from to => [("kind", VStr "resume"); ("from", cursor_value from); ("to", cursor_value to)]
       | TRevoked from to o =>
           [("kind", VStr "revoked"); ("from", cursor_value from); ("to", cursor_value to);
            ("outcome", outcome_value o)]
       | TApplicationError from to e =>
           [("kind", VStr "application-error"); ("from", nullable_value from); ("to", cursor_value to);
            ("error", error_value e)]
       end.

Definition transition_ok (t : SubscriptionTransition) : Prop :=
  match t with
  | TReset from to v =>
      match from with Some c => cursor_ok c | None => True end /\ cursor_ok to /\ is_undefined v = false
  | TUpdate from to v => cursor_ok from /\ cursor_ok to /\ advances from to /\ is_undefined v = false
  | TCheckpoint from to => cursor_ok from /\ cursor_ok to /\ advances from to
  | TResume from to => cursor_ok from /\ cursor_ok to /\ stays from to
  | TRevoked from to o => cursor_ok from /\ cursor_ok to /\ outcome_ok o /\ isAuthFailure o = true
  | TApplicationError from to e =>
      match from with Some c => cursor_ok c /\ advances c to | None => True end /\ cursor_ok to /\ error_ok e
  end.

Definition event_cursor_value (c : LiveEventCursor) : value :=
  VObj [("generation", VStr (ev_generation c)); ("commitVersion", VBig (ev_commitVersion c));
        ("sequence", VBig (ev_sequence c))].

Definition event_cursor_ok (c : LiveEventCursor) : Prop :=
  string_ok (ev_generation c) MAX_CURSOR_PART_LENGTH /\ (0 <= ev_commitVersion c)%Z /\ (0 <= ev_sequence c)%Z.

Definition event_value (e : LiveEvent) : value :=
  VObj match e with
       | EventRow c row => [("kind", VStr "row"); ("cursor", event_cursor_value c); ("row", row)]
       | EventGap c => [("kind", VStr "gap"); ("cursor", event_cursor_value c)]
       | EventReset c => [("kind", VStr "reset"); ("cursor", event_cursor_value c)]
       end.

Definition event_ok (e : LiveEvent) : Prop :=
  match e with
  | EventRow c row => event_cursor_ok c /\ is_undefined row = false
  | EventGap c | EventReset c => event_cursor_ok c
  end.

Definition receipt_value (r : MutationReceipt) : value :=
  VObj [("mutationRequestId", VStr (mutationRequestId r)); ("commitVersion", VBig (rc_commitVersion r));
        ("durability", VStr (durability_string (durability r)));
        ("replay", VStr (if replayed r then "replayed" else "executed"));
        ("obligations", VArr (VNum <$> obligations r))].

Definition receipt_ok (r : MutationReceipt) : Prop :=
  string_ok (mutationRequestId r) 36 /\ uuidV7_test (mutationRequestId r) = true /\
  (0 <= rc_commitVersion r)%Z /\ (length (obligations r) <= MAX_RECEIPT_OBLIGATIONS)%nat /\
  Forall id_ok (obligations r) /\ NoDup (obligations r).

Definition session (t : string) (fields : list (string * value)) : value := VObj (("t", VStr t) :: fields).
Definition versioned (t : string) (fields : list (string * value)) : value :=
  VObj (("v", VStr ACKERDB_VERSION) :: ("t", VStr t) :: fields).

Definition client_value (m : ClientSessionMessage) : value :=
  match m with
  | CAuth a c => session "auth" [("attemptId", VNum a); ("credential", credential_value c)]
  | CSubscribe id ref args cursor =>
      session "sub" ([("id", VNum id); ("ref", VStr ref); ("args", args)] ++ opt_field "cursor" cursor_value cursor)
  | CUnsubscribe id => session "unsub" [("id", VNum id)]
  | CReset id c => session "reset" [("id", VNum id); ("cursor", cursor_value c)]
  | CQuery id ref args => session "q" [("id", VNum id); ("ref", VStr ref); ("args", args)]
  | CProcedure id ref args => session "p" [("id", VNum id); ("ref", VStr ref); ("args", args)]
  | CCancel id => session "cancel" [("id", VNum id)]
  | CMutation id ref args uuid issued =>
      session "m" [("id", VNum id); ("ref", VStr ref); ("args", args); ("mutationRequestId", VStr uuid);
                   ("issuedAt", VNum issued)]
  | CChannelJoin id ref args room =>
      session "channel_join" ([("id", VNum id); ("ref", VStr ref); ("args", args)] ++ opt_field "room" (fun r => r) room)
  | CChannelLeave id => session "channel_leave" [("id", VNum id)]
  | CChannelSend id event payload =>
      session "channel_send" [("id", VNum id); ("event", VStr event); ("payload", payload)]
  | CPing => session "ping" []
  end.

Definition call_ok (id : num) (ref : string) (args : value) : Prop :=
  id_ok id /\ string_ok ref MAX_REFERENCE_LENGTH /\ is_undefined args = false.

Definition client_ok (m : ClientSessionMessage) : Prop :=
  match m with
  | CAuth a c => id_ok a /\ credential_ok c
  | CSubscribe id ref args cursor =>
      call_ok id ref args /\ match cursor with Some c => cursor_ok c | None => True end
  | CUnsubscribe id | CCancel id | CChannelLeave id => id_ok id
  | CReset id c => id_ok id /\ cursor_ok c
  | CQuery id ref args | CProcedure id ref args => call_ok id ref args
  | CMutation id ref args uuid issued =>
      call_ok id ref args /\ string_ok uuid 36 /\ uuidV7_test uuid = true /\ count_ok issued
  | CChannelJoin id ref args room =>
      call_ok id ref args /\ match room with Some r => is_undefined r = false | None => True end
  | CChannelSend id event payload => call_ok id event payload
  | CPing => True
  end.

Definition kind_value (k : call_kind) : value :=
  VStr match k with a_query => "query" | a_procedure => "procedure" end.

Definition server_value (m : ServerSessionMessage) : value :=
  match m with
  | SAuthenticated d a e => session "auth" ([("attemptId", VNum a); ("authEpoch", VNum e)] ++ descriptor_fields d)
  | STransition id t => session "transition" [("id", VNum id); ("transition", transition_value t)]
  | SEvent id e => session "event" [("id", VNum id); ("event", event_value e)]
  | SOk k id v => session "ok" [("id", VNum id); ("kind", kind_value k); ("value", v)]
  | SMutationOk id v r =>
      session "ok" [("id", VNum id); ("kind", VStr "mutation"); ("value", v); ("receipt", receipt_value r)]
  | SApplicationError k id e => session "app_err" [("id", VNum id); ("kind", kind_value k); ("error", error_value e)]
  | SMutationError id e r =>
      session "app_err" [("id", VNum id); ("kind", VStr "mutation"); ("error", error_value e);
                         ("receipt", receipt_value r)]
  | SChannelReady id e => session "channel_ready" [("id", VNum id); ("authEpoch", VNum e)]
  | SChannelEvent id event payload =>
      session "channel_event" [("id", VNum id); ("event", VStr event); ("payload", payload)]
  | SChannelRejected id epoch e =>
      session "channel_rejected" [("id", VNum id); ("authEpoch", VNum epoch); ("error", error_value e)]
  | SError id o => versioned "err" [("id", ttl_value id); ("outcome", outcome_value o)]
  | SPong => session "pong" []
  end.

Definition server_ok (m : ServerSessionMessage) : Prop :=
  match m with
  | SAuthenticated d a e => descriptor_ok d /\ id_ok a /\ count_ok e
  | STransition id t => id_ok id /\ transition_ok t
  | SEvent id e => id_ok id /\ event_ok e
  | SOk _ id v => id_ok id /\ is_undefined v = false
  | SMutationOk id v r => id_ok id /\ is_undefined v = false /\ receipt_ok r
  | SApplicationError _ id e => id_ok id /\ error_ok e
  | SMutationError id e r => id_ok id /\ error_ok e /\ receipt_ok r
  | SChannelReady id e => id_ok id /\ count_ok e
  | SChannelEvent id event payload => call_ok id event payload
  | SChannelRejected id epoch e => id_ok id /\ count_ok epoch /\ error_ok e
  | SError id o => match id with Some n => id_ok n | None => True end /\ outcome_ok o
  | SPong => True
  end.

Definition handshake_value (m : ServerHandshakeMessage) : value :=
  match m with
  | Welcome d s e => versioned "welcome" ([("clientSessionId", VStr s); ("authEpoch", VNum e)] ++ descriptor_fields d)
  | Refusal o => versioned "err" [("id", VNull); ("outcome", outcome_value o)]
  end.

Definition handshake_ok (m : ServerHandshakeMessage) : Prop :=
  match m with
  | Welcome d s e => descriptor_ok d /\ string_ok s MAX_SESSION_ID_LENGTH /\ count_ok e
  | Refusal o => outcome_ok o
  end.

Definition hello_value (m : HelloMessage) : value :=
  versioned "hello" [("clientSessionId", VStr (clientSessionId m)); ("credential", credential_value (credential m))].
Definition hello_ok (m : HelloMessage) : Prop :=
  string_ok (clientSessionId m) MAX_SESSION_ID_LENGTH /\ credential_ok (credential m).

Definition seq_ok (n : num) : Prop := int_field (VNum n) 1 None = true.

Definition sse_value (m : SseMessage) : value :=
  match m with
  | SseChunk seq proof v => versioned "sse_chunk" [("seq", VNum seq); ("proof", VStr proof); ("value", v)]
  | SseDone seq proof => versioned "sse_done" [("seq", VNum seq); ("proof", VStr proof)]
  | SseError seq proof o =>
      versioned "sse_error" [("seq", VNum seq); ("proof", VStr proof); ("outcome", outcome_value o)]
  end.

Definition sse_ok (m : SseMessage) : Prop :=
  match m with
  | SseChunk seq proof v => seq_ok seq /\ string_ok proof MAX_SSE_TOKEN_LENGTH /\ is_undefined v = false
  | SseDone seq proof => seq_ok seq /\ string_ok proof MAX_SSE_TOKEN_LENGTH
  | SseError seq proof o => seq_ok seq /\ string_ok proof MAX_SSE_TOKEN_LENGTH /\ outcome_ok o
  end.

Definition ack_value (a : SseAckRequest) : value :=
  versioned "sse_ack" [("stream", VStr (stream a)); ("seq", VNum (ack_seq a)); ("proof", VStr (ack_proof a))].

Definition ack_ok (a : SseAckRequest) : Prop :=
  string_ok (stream a) MAX_SSE_TOKEN_LENGTH /\ seq_ok (ack_seq a) /\ string_ok (ack_proof a) MAX_SSE_TOKEN_LENGTH.

(** ** Objects and their fields *)

(** Values as JavaScript has them: no object has two properties of one name. *)
Fixpoint js (v : value) : Prop :=
  match v with
  | VArr items => foldr (fun x P => js x /\ P) True items
  | VObj fields => NoDup (fields.*1) /\ foldr (fun p P => js p.2 /\ P) True fields
  | _ => True
  end.

Lemma js_field k fields : js (VObj fields) -> js (field k fields).
Proof.
  intros [_ Hf]. apply (Wire.foldr_forall (fun p => js p.2)) in Hf. rewrite Forall_forall in Hf.
  unfold field. destruct (jmap_get k fields) as [v|] eqn:E; [|exact I].
  apply jmap_get_Some_elem in E. by apply (Hf _ E).
Qed.

Lemma same_refl v : same v v.
Proof.
  induction v as [| | | | | | |items IH|fields IH|] using value_nested_ind; try by constructor.
  - apply same_arr. induction IH; by constructor.
  - apply same_obj; [done|]. intros k Hk. rewrite Forall_forall in IH. apply (IH _ (field_elem _ _ Hk)).
Qed.

Lemma field_absent k fields : k ∉ fields.*1 -> field k fields = VUndefined.
Proof. intros Hk. unfold field. apply jmap_get_None in Hk. by rewrite Hk. Qed.

Lemma obj_same f g :
  f.*1 ≡ₚ g.*1 -> NoDup (g.*1) -> Forall (fun p => same (field p.1 f) p.2) g -> same (VObj f) (VObj g).
Proof.
  intros Hk Hn Hg. apply same_obj; [done|]. intros k Hin. rewrite Hk in Hin.
  pose proof (field_elem _ _ Hin) as He. rewrite Forall_forall in Hg. apply (Hg _ He).
Qed.

Lemma exactFields_ret fields required optional :
  exactFields fields required optional = Ret tt <->
  (forall k, k ∈ required -> k ∈ fields.*1) /\ (forall k, k ∈ fields.*1 -> k ∈ required \/ k ∈ optional).
Proof.
  unfold exactFields, hasOwn. split.
  - intros H. exc_inv. destruct x. rewrite exc_each_ret in *. rewrite Forall_forall in *. split.
    + intros k Hk. apply H in Hk. apply throw_if_ret, negb_false_iff, bool_decide_eq_true in Hk. done.
    + intros k Hk. apply H0 in Hk. apply throw_if_ret, andb_false_iff in Hk.
      rewrite !negb_false_iff, !bool_decide_eq_true in Hk. done.
  - intros [Hr Ho]. replace (exc_each _ required) with (@Ret js_error _ tt).
    + cbn. apply exc_each_ret, Forall_forall. intros k Hk. apply throw_if_ret, andb_false_iff.
      rewrite !negb_false_iff, !bool_decide_eq_true. auto.
    + symmetry. apply exc_each_ret, Forall_forall. intros k Hk.
      apply throw_if_ret, negb_false_iff, bool_decide_eq_true. auto.
Qed.

(** With every field required, the keys are those fields. *)
Lemma exact_keys fields required :
  NoDup (fields.*1) -> bool_decide (NoDup required) = true -> exactFields fields required [] = Ret tt ->
  fields.*1 ≡ₚ required.
Proof.
  intros Hn Hr%bool_decide_eq_true [H1 H2]%exactFields_ret. apply NoDup_Permutation; [done..|].
  intros k. split; [|by apply H1]. intros Hk. destruct (H2 k Hk) as [|?%not_elem_of_nil]; done.
Qed.

(** With optional ones, those present join them. *)
Lemma exact_keys_opt fields required optional :
  NoDup (fields.*1) -> bool_decide (NoDup (required ++ optional)) = true ->
  exactFields fields required optional = Ret tt ->
  fields.*1 ≡ₚ required ++ filter (fun k => k ∈ fields.*1) optional.
Proof.
  intros Hn Hr%bool_decide_eq_true [H1 H2]%exactFields_ret.
  apply NoDup_app in Hr as (Hr & Hd & Ho). apply NoDup_Permutation; [done|..].
  - apply NoDup_app. split_and!; [done| |by apply NoDup_filter].
    intros k Hk [_ ?]%list_elem_of_filter. by apply (Hd k).
  - intros k. rewrite elem_of_app, list_elem_of_filter. split; [|naive_solver].
    intros Hk. destruct (H2 k Hk); auto.
Qed.

(** ** Inversion of the checks *)

Lemma protocolObject_ret v name k fields :
  protocolObject v name = Ret fields ->
  (exists a s, k = String a s /\ decimal_char a = false) -> k ∈ fields.*1 -> v = VObj fields.
Proof.
  intros H (a & s & Hk & Ha) Hin. destruct v; try discriminate H; cbn in H.
  - exfalso. injection H as H. eapply (bytes_keys bytes fields k); [by rewrite <-H|done..].
  - by injection H as ->.
Qed.

Lemma boundedString_ret v name max s :
  boundedString v name max = Ret s <-> v = VStr s /\ string_ok s max.
Proof.
  unfold boundedString, string_ok. destruct v; try (split; [discriminate|by intros [? _]]).
  case_decide; split; try discriminate; try (by intros [= ->]); try (by intros [[= ->] ?]); by intros [[= <-] ?].
Qed.

Lemma int_field_num v low high : int_field v low high = true -> exists n, v = VNum n.
Proof. destruct v; try discriminate. by eexists. Qed.

Lemma protocolId_ret v name w : protocolId v name = Ret w -> exists n, v = VNum n /\ w = VNum n /\ id_ok n.
Proof.
  unfold protocolId. destruct (int_field v 1 _) eqn:E; [|discriminate].
  intros [= <-]. destruct (int_field_num _ _ _ E) as [n ->]. by exists n.
Qed.

Lemma positiveSafeInteger_field_ret v name w :
  positiveSafeInteger_field v name = Ret w -> exists n, v = VNum n /\ w = VNum n /\ seq_ok n.
Proof.
  unfold positiveSafeInteger_field. destruct (int_field v 1 _) eqn:E; [|discriminate].
  intros [= <-]. destruct (int_field_num _ _ _ E) as [n ->]. by exists n.
Qed.

Lemma nonNegativeInteger_ret v name w :
  nonNegativeInteger v name = Ret w -> exists n, v = VNum n /\ w = VNum n /\ count_ok n.
Proof.
  unfold nonNegativeInteger. destruct (int_field v 0 _) eqn:E; [|discriminate].
  intros [= <-]. destruct (int_field_num _ _ _ E) as [n ->]. by exists n.
Qed.

Lemma nonNegativeBigint_ret v name z : nonNegativeBigint v name = Ret z -> v = VBig z /\ (0 <= z)%Z.
Proof.
  unfold nonNegativeBigint. destruct v; try discriminate. case_decide; [|discriminate]. by intros [= <-].
Qed.

Lemma payload_ret v name w : payload v name = Ret w -> w = v /\ is_undefined v = false.
Proof. unfold payload. destruct (is_undefined v); [discriminate|]. by intros [= <-]. Qed.

Lemma guard_ret b message u : guard b message = Ret u <-> b = true.
Proof. unfold guard. rewrite throw_if_ret. by rewrite negb_false_iff. Qed.

Lemma enumValue_ret {T} v name (all : list T) spell t :
  enumValue v name all spell = Ret t -> v = VStr (spell t) /\ t ∈ all.
Proof.
  unfold enumValue. destruct v; try discriminate.
  destruct (List.find _ all) as [t'|] eqn:E; [|discriminate]. intros [= ->].
  apply List.find_some in E as [Hin Hs]. apply bool_decide_eq_true in Hs. subst. split; [done|].
  by apply list_elem_of_In.
Qed.

(** ** Soundness *)

(** Turn every passed check into what it says of its field. *)
Ltac checks :=
  exc_inv;
  repeat match goal with
  | H : boundedString _ _ _ = Ret _ |- _ => apply boundedString_ret in H as [? ?]
  | H : protocolId _ _ = Ret _ |- _ => apply protocolId_ret in H as (? & ? & ? & ?)
  | H : positiveSafeInteger_field _ _ = Ret _ |- _ => apply positiveSafeInteger_field_ret in H as (? & ? & ? & ?)
  | H : nonNegativeInteger _ _ = Ret _ |- _ => apply nonNegativeInteger_ret in H as (? & ? & ? & ?)
  | H : nonNegativeBigint _ _ = Ret _ |- _ => apply nonNegativeBigint_ret in H as [? ?]
  | H : payload _ _ = Ret _ |- _ => apply payload_ret in H as [? ?]
  | H : guard _ _ = Ret _ |- _ => apply guard_ret in H
  | H : enumValue _ _ _ _ = Ret _ |- _ => apply enumValue_ret in H as [? ?]
  | H : bool_decide _ = true |- _ => apply bool_decide_eq_true in H
  | x : () |- _ => destruct x
  | H : Throw _ = Ret _ |- _ => discriminate H
  | H : malformed _ = Ret _ |- _ => discriminate H
  end.

(** Membership in a literal list. *)
Ltac in_list := cbn [app]; repeat (first [apply list_elem_of_here | apply list_elem_of_further]).

(** The object a decoder read, given the field [k] it requires. *)
Ltac the_object k :=
  match goal with
  | H : protocolObject ?v _ = Ret ?result |- _ =>
      assert (v = VObj result) as ->;
        [apply (protocolObject_ret v _ k result H); [do 2 eexists; split; reflexivity|];
         match goal with E : exactFields result _ _ = Ret () |- _ =>
           apply exactFields_ret in E as [E _]; apply E; in_list end
        |clear H]
  end.

(** Compare an object with the one its fields spell. *)
Ltac same_object :=
  match goal with |- same _ ?w => let w' := eval hnf in w in change w with w' end;
  match goal with
  | E : exactFields ?f _ _ = Ret (), J : js (VObj ?f) |- same (VObj ?f) (VObj _) =>
      apply obj_same;
        [eapply exact_keys; [exact (proj1 J)| |exact E]; vm_compute; reflexivity
        |apply (bool_decide_unpack _); vm_compute; exact I
        |repeat (apply Forall_cons_2; [cbn [fst snd]|]); try apply Forall_nil_2;
         try (match goal with H : field _ f = _ |- same (field _ f) _ => rewrite H; apply same_refl end);
         try apply same_refl; try assumption]
  end.

Lemma parseCredential_sound v u :
  js v -> parseCredential v = Ret u -> exists c, credential_ok c /\ same v (credential_value c).
Proof.
  intros Hj H. unfold parseCredential in H. checks. repeat case_decide; checks.
  - the_object "kind". exists Anonymous. split; [done|]. same_object.
  - the_object "kind". exists (Bearer x1). split; [done|]. same_object.
Qed.

Lemma parseCredentialProvenance_sound v u :
  js v -> parseCredentialProvenance v = Ret u -> exists p, provenance_ok p /\ same v (provenance_value p).
Proof.
  intros Hj H. unfold parseCredentialProvenance in H. checks. the_object "issuer".
  exists (MkProvenance x1 x2). split; [done|]. same_object.
Qed.

Lemma parseCredentialTtl_sound result u :
  parseCredentialTtl result = Ret u -> exists ttl, ttl_ok ttl /\ field "credentialTtlMs" result = ttl_value ttl.
Proof.
  unfold parseCredentialTtl. intros H. case_decide; checks; [by exists None|]. by exists (Some x0).
Qed.

Lemma same_field k f w : field k f = w -> same (field k f) w.
Proof. intros ->. apply same_refl. Qed.

Lemma parseAuthenticationDescriptor_sound result frameFields u :
  js (VObj result) -> parseAuthenticationDescriptor result frameFields = Ret u ->
  exists d, descriptor_ok d /\ exactFields result (frameFields ++ (descriptor_fields d).*1) [] = Ret tt /\
    Forall (fun p => same (field p.1 result) p.2) (descriptor_fields d).
Proof.
  intros Hj H. unfold parseAuthenticationDescriptor in H. repeat case_decide; checks.
  - exists AnonymousPrincipal. split_and!; [done|done|]. repeat constructor. by apply same_field.
  - destruct (field "identity" result) as [| | | | |z| | | |] eqn:Ei; try done. checks.
    match goal with H : parseCredentialProvenance _ = _ |- _ =>
      apply parseCredentialProvenance_sound in H as (p & Hp & Hps); [|by apply js_field] end.
    match goal with H : parseCredentialTtl _ = _ |- _ => apply parseCredentialTtl_sound in H as (ttl & Ht & Hts) end.
    exists (UserPrincipal z p ttl). split_and!; [done|done|].
    repeat (apply Forall_cons_2; [first [by apply same_field | done]|]). apply Forall_nil_2.
  - match goal with H : parseCredentialProvenance _ = _ |- _ =>
      apply parseCredentialProvenance_sound in H as (p & Hp & Hps); [|by apply js_field] end.
    match goal with H : parseCredentialTtl _ = _ |- _ => apply parseCredentialTtl_sound in H as (ttl & Ht & Hts) end.
    exists (WorkloadPrincipal p ttl). split_and!; [done|done|].
    repeat (apply Forall_cons_2; [first [by apply same_field | done]|]). apply Forall_nil_2.
Qed.

Lemma parseApplicationError_sound v u :
  js v -> parseApplicationError v = Ret u -> exists e, error_ok e /\ same v (error_value e).
Proof.
  intros Hj H. unfold parseApplicationError in H. checks. the_object "kind".
  destruct (field "status" x) as [| | |n| | | | | |] eqn:Es; try done.
  exists (MkApplicationError x2 (field "body" x) n). split; [done|]. same_object.
Qed.

Lemma parseSubscriptionCursor_sound v c :
  js v -> parseSubscriptionCursor v = Ret c -> cursor_ok c /\ same v (cursor_value c).
Proof.
  intros Hj H. unfold parseSubscriptionCursor in H. checks. the_object "generation". subst.
  split; [done|]. same_object.
Qed.

Lemma parseNullableCursor_sound v c :
  js v -> parseNullableCursor v = Ret c ->
  match c with Some c => cursor_ok c | None => True end /\ same v (nullable_value c).
Proof.
  intros Hj H. unfold parseNullableCursor in H. case_decide; checks; subst.
  - split; [done|]. apply same_refl.
  - by apply parseSubscriptionCursor_sound.
Qed.

Lemma sameStream_ret from to u : sameStream from to = Ret u <-> advances from to.
Proof.
  unfold sameStream, advances, num_same. rewrite throw_if_ret, !orb_false_iff, !negb_false_iff.
  rewrite bool_decide_eq_false, !bool_decide_eq_true. rewrite Z.nle_gt. tauto.
Qed.

Lemma sameCursor_ret from to u : sameCursor from to = Ret u <-> stays from to.
Proof.
  unfold sameCursor, stays, num_same. rewrite throw_if_ret, !orb_false_iff, !negb_false_iff.
  rewrite !bool_decide_eq_true. tauto.
Qed.

(** The same for what the nested decoders accepted. *)
Ltac nested :=
  repeat match goal with
  | H : parseSubscriptionCursor _ = Ret _ |- _ =>
      apply parseSubscriptionCursor_sound in H as [? ?]; [|by apply js_field]
  | H : parseNullableCursor _ = Ret _ |- _ =>
      apply parseNullableCursor_sound in H as [? ?]; [|by apply js_field]
  | H : parseApplicationError _ = Ret _ |- _ =>
      apply parseApplicationError_sound in H as (? & ? & ?); [|by apply js_field]
  | H : sameStream _ _ = Ret _ |- _ => apply sameStream_ret in H
  | H : sameCursor _ _ = Ret _ |- _ => apply sameCursor_ret in H
  end.

Lemma isAuthFailure_spec o :
  out_code o ∈ [unauthenticated; auth_unavailable; auth_stale; unauthorized] <-> isAuthFailure o = true.
Proof.
  unfold isAuthFailure. rewrite !orb_true_iff, !bool_decide_eq_true. set_solver.
Qed.

(** A field that is optional, as it was found. *)
Lemma hasOwn_spec f k : hasOwn f k = true <-> k ∈ f.*1.
Proof. unfold hasOwn. by rewrite bool_decide_eq_true. Qed.

Lemma is_true_spec v : is_true v = true <-> v = VBool true.
Proof. unfold is_true. by rewrite bool_decide_eq_true. Qed.

Lemma filter_one {A} (P : A -> Prop) `{!forall x, Decision (P x)} x l :
  filter P (x :: l) = (if decide (P x) then [x] else []) ++ filter P l.
Proof. rewrite filter_cons. by case_decide. Qed.

(** The optional fields of an outcome. *)
Lemma opt_field_found {A} k (g : A -> value) f (o : option A) :
  (k ∈ f.*1 -> exists x, o = Some x /\ same (field k f) (g x)) -> (k ∉ f.*1 -> o = None) ->
  (opt_field k g o).*1 = (if decide (k ∈ f.*1) then [k] else []) /\
  Forall (fun p => same (field p.1 f) p.2) (opt_field k g o).
Proof.
  intros H1 H2. case_decide as Hk.
  - destruct (H1 Hk) as (x & -> & Hs). split; [done|]. by repeat constructor.
  - rewrite (H2 Hk). by split.
Qed.

(** An optional field, checked where it is present. *)
Lemma optional_sound {A} (P : A -> Prop) (g : A -> value) f k (c : exc js_error unit) :
  (if hasOwn f k then c else Ret tt) = Ret tt ->
  (c = Ret tt -> exists x, P x /\ same (field k f) (g x)) ->
  exists o, match o with Some x => k ∈ f.*1 /\ P x | None => k ∉ f.*1 end /\
    (opt_field k g o).*1 = (if decide (k ∈ f.*1) then [k] else []) /\
    Forall (fun p => same (field p.1 f) p.2) (opt_field k g o).
Proof.
  intros Hc Hx. destruct (hasOwn f k) eqn:E.
  - apply hasOwn_spec in E. destruct (Hx Hc) as (x & HP & Hs). exists (Some x).
    rewrite decide_True by done. split_and!; [done|done|done|]. by repeat constructor.
  - assert (k ∉ f.*1) by (intros Hk%hasOwn_spec; congruence). exists None.
    by rewrite decide_False.
Qed.

Lemma parseOutcome_sound v code :
  js v -> parseOutcome v = Ret code ->
  exists o, outcome_ok o /\ out_code o = code /\ same v (outcome_value o).
Proof.
  intros Hj H. unfold parseOutcome in H. checks.
  match goal with E : exactFields _ _ _ = Ret () |- _ => pose proof E as Hex end.
  the_object "code". rename x into f. subst code.
  destruct (field "retryable" f) as [| |b| | | | | | |] eqn:Hb; try done.
  destruct (optional_sound (fun n => int_field (VNum n) 0 (Some MAX_RETRY_AFTER_MS) = true /\ b = true)
    VNum f "retryAfterMs" _ H4) as (ra & Hra & Hrk & Hrf).
  { intros Hc. checks.
    match goal with H : field "retryAfterMs" f = VNum ?n |- _ => exists n; rewrite H in *; split; [|apply same_refl] end.
    split; [done|]. match goal with H : is_true (VBool b) = true |- _ => apply is_true_spec in H; by injection H end. }
  destruct (optional_sound (fun _ => True) (fun r => VStr (resource_class_string r)) f "resource" _ H5)
    as (res & Hres & Hresk & Hresf).
  { intros Hc. checks. eexists. split; [done|]. by apply same_field. }
  destruct (optional_sound (fun c => c = true /\ field "committed" f = VBool true /\ x1 = convergence_unavailable)
    VBool f "committed" _ H6) as (com & Hcom & Hcomk & Hcomf).
  { intros Hc. checks. apply andb_true_iff in Hc as [Hc%is_true_spec ?%bool_decide_eq_true].
    exists true. split; [done|by apply same_field]. }
  exists (MkOutcome x1 b x3 ra res (bool_decide (com = Some true))).
  assert (Hconv : x1 = convergence_unavailable -> com = Some true /\ b = false).
  { intros ->. cbn in H7. apply andb_true_iff in H7 as [Hc Hn].
    apply is_true_spec in Hc. destruct com as [c|].
    - destruct Hcom as (_ & -> & _). split; [done|]. by destruct b.
    - by rewrite field_absent in Hc. }
  split_and!; [|done|].
  - split_and!; cbn; [done|intros n ->; tauto| |tauto]. rewrite bool_decide_eq_true. split; [|tauto].
    intros ->. tauto.
  - replace (outcome_value _) with (VObj ([("code", VStr (outcome_code_string x1)); ("retryable", VBool b);
      ("message", VStr x3)] ++ opt_field "retryAfterMs" VNum ra ++
      opt_field "resource" (fun r => VStr (resource_class_string r)) res ++ opt_field "committed" VBool com)).
    2:{ unfold outcome_value. cbn. do 3 f_equal. f_equal. f_equal. f_equal. f_equal.
        destruct com as [[]|]; [done| |done]. destruct Hcom as (_ & [=] & _). }
    assert (Hkeys : f.*1 ≡ₚ ["code"; "retryable"; "message"] ++ (opt_field "retryAfterMs" VNum ra).*1 ++
      (opt_field "resource" (fun r => VStr (resource_class_string r)) res).*1 ++ (opt_field "committed" VBool com).*1).
    { rewrite Hrk, Hresk, Hcomk.
      etrans; [eapply (exact_keys_opt f _ _ (proj1 Hj) _ Hex)|].
      by rewrite !filter_one, filter_nil, app_nil_r.
      Unshelve. vm_compute. reflexivity. }
    apply obj_same.
    + rewrite !fmap_app. exact Hkeys.
    + rewrite !fmap_app. change ([_; _; _].*1) with ["code"; "retryable"; "message"]. rewrite <-Hkeys. apply Hj.
    + repeat (apply Forall_cons_2; [cbn [fst snd]; by apply same_field|]).
      rewrite !Forall_app. done.
Qed.
