(* ===== verification/ProtocolSound.v ===== *)
(** Soundness of the frame decoders: what they accept is a message of the typed
    contract, field for field. *)
From S2P Require Import Prelude Errors Value StableEncode Protocol ProtocolProps.
Local Open Scope string_scope.
Local Open Scope list_scope.

(** ** Objects with one optional field *)

Lemma obj_same_opt {A} (g : A -> value) f (fixed : list (string * value)) k (o : option A) :
  js (VObj f) -> bool_decide (NoDup (fixed.*1 ++ [k])) = true ->
  exactFields f (fixed.*1) [k] = Ret tt ->
  Forall (fun p => same (field p.1 f) p.2) fixed ->
  (opt_field k g o).*1 = (if decide (k ∈ f.*1) then [k] else []) ->
  Forall (fun p => same (field p.1 f) p.2) (opt_field k g o) ->
  same (VObj f) (VObj (fixed ++ opt_field k g o)).
Proof.
  intros Hj Hn Hex Hf Ho Hfo.
  assert (Hk : f.*1 ≡ₚ fixed.*1 ++ (opt_field k g o).*1).
  { rewrite Ho. etrans; [eapply (exact_keys_opt f _ _ (proj1 Hj) Hn Hex)|].
    by rewrite filter_one, filter_nil, app_nil_r. }
  apply obj_same.
  - by rewrite fmap_app.
  - rewrite fmap_app, <-Hk. apply Hj.
  - by rewrite Forall_app.
Qed.

(** An object whose fields are split between a frame and what it carries. *)
Lemma obj_same_split f (g : list (string * value)) keys :
  js (VObj f) -> keys ≡ₚ g.*1 -> bool_decide (NoDup (g.*1)) = true ->
  exactFields f keys [] = Ret tt -> Forall (fun p => same (field p.1 f) p.2) g -> same (VObj f) (VObj g).
Proof.
  intros Hj Hp Hn Hex Hf. apply obj_same; [|by apply bool_decide_eq_true in Hn|done].
  rewrite <-Hp. apply exact_keys; [apply Hj| |done]. rewrite bool_decide_eq_true, Hp.
  by apply bool_decide_eq_true in Hn.
Qed.

(** ** What the frames carry *)

Lemma parseSubscriptionTransition_sound v u :
  js v -> parseSubscriptionTransition v = Ret u ->
  exists t, transition_ok t /\ same v (transition_value t).
Proof.
  intros Hj H. unfold parseSubscriptionTransition in H. checks.
  repeat case_decide; checks; the_object "kind"; nested.
  - match goal with H1 : same (field "from" x) (nullable_value ?c), H2 : same (field "to" x) (cursor_value ?d) |- _ =>
      exists (TReset c d (field "value" x)) end. split; [done|]. same_object.
  - match goal with H : advances ?c ?d |- _ => exists (TUpdate c d (field "value" x)) end.
    split; [done|]. same_object.
  - match goal with H : advances ?c ?d |- _ => exists (TCheckpoint c d) end. split; [done|]. same_object.
  - match goal with H : stays ?c ?d |- _ => exists (TResume c d) end. split; [done|]. same_object.
  - match goal with H : parseOutcome _ = _ |- _ =>
      apply parseOutcome_sound in H as (o & Ho & <- & Hos); [|by apply js_field] end.
    match goal with H1 : same (field "from" x) (cursor_value ?c), H2 : same (field "to" x) (cursor_value ?d) |- _ =>
      exists (TRevoked c d o) end.
    split; [split_and!; try done; by apply isAuthFailure_spec|]. same_object.
  - match goal with H1 : same (field "from" x) (nullable_value ?c), H2 : same (field "to" x) (cursor_value ?d),
                    H3 : same (field "error" x) (error_value ?e) |- _ => exists (TApplicationError c d e) end.
    split; [|same_object]. split_and!; [|done|done]. destruct x1; [|done]. nested. done.
Qed.

Lemma parseLiveEventCursor_sound v u :
  js v -> parseLiveEventCursor v = Ret u -> exists c, event_cursor_ok c /\ same v (event_cursor_value c).
Proof.
  intros Hj H. unfold parseLiveEventCursor in H. checks. the_object "generation".
  exists (MkEventCursor x1 x2 x3). split; [done|]. same_object.
Qed.

Lemma parseLiveEvent_sound v u :
  js v -> parseLiveEvent v = Ret u -> exists e, event_ok e /\ same v (event_value e).
Proof.
  intros Hj H. unfold parseLiveEvent in H. checks.
  repeat case_decide; checks; the_object "kind";
    match goal with H : parseLiveEventCursor _ = _ |- _ =>
      apply parseLiveEventCursor_sound in H as (c & Hc & Hcs); [|by apply js_field] end.
  - exists (EventRow c (field "row" x)). split; [done|]. same_object.
  - match goal with H : _ \/ _ |- _ => destruct H end;
      [exists (EventGap c)|exists (EventReset c)]; (split; [done|]); same_object.
Qed.

Lemma id_ok_positive n : id_ok n -> exists z, num_integer n = Some z /\ (0 < z)%Z.
Proof.
  unfold id_ok, int_field, num_safe_integer. destruct (num_integer n) as [z|]; [|done].
  case_decide; [|done]. rewrite andb_true_iff, !bool_decide_eq_true. intros. exists z. split; [done|lia].
Qed.

Lemma parseObligations_sound items u : forall unique,
  parseObligations unique items = Ret u ->
  exists ids, items = VNum <$> ids /\ Forall id_ok ids /\ NoDup ids /\ (forall n, n ∈ ids -> n ∉ unique).
Proof.
  induction items as [|item items IH]; cbn; intros unique H.
  - exists []. split_and!; [done|done|by apply NoDup_nil_2|]. by intros n ?%not_elem_of_nil.
  - exc_inv. apply protocolId_ret in H as (n & -> & -> & Hn). case_decide; [discriminate|].
    apply IH in H0 as (ids & -> & Hids & Hnd & Hdis). exists (n :: ids). split_and!; [done|by constructor| |].
    + apply NoDup_cons. split; [|done]. intros Hin. apply (Hdis _ Hin). apply list_elem_of_here.
    + intros m [->|Hm]%elem_of_cons; [done|]. intros Hu. apply (Hdis _ Hm). by apply list_elem_of_further.
Qed.

Lemma parseMutationReceipt_sound v u :
  js v -> parseMutationReceipt v = Ret u -> exists r, receipt_ok r /\ same v (receipt_value r).
Proof.
  intros Hj H. unfold parseMutationReceipt in H. checks. the_object "durability".
  destruct (field "obligations" x) as [| | | | | | |items| |] eqn:Eo; try discriminate.
  case_decide as Hlen; [discriminate|].
  match goal with H : parseObligations _ _ = _ |- _ =>
    apply parseObligations_sound in H as (ids & -> & Hids & Hnd & _) end.
  exists (MkReceipt x1 x3 x4 (bool_decide (field "replay" x = VStr "replayed")) ids). split.
  - split_and!; cbn; try done. rewrite length_fmap in Hlen. lia.
  - same_object. apply same_field. case_bool_decide; [done|]. by destruct H5.
Qed.

(** ** Frames *)

Lemma frame_ret v result t :
  frame v = Ret (result, t) -> v = VObj result /\ field "t" result = VStr t.
Proof.
  unfold frame. intros H. exc_inv. destruct (field "t" x) as [| | | |s| | | | |] eqn:E; try discriminate.
  injection H0 as -> ->. split; [|done].
  eapply (protocolObject_ret v _ "t"); [done|by do 2 eexists|].
  assert (jmap_get "t" result <> None) as Hs by (unfold field in E; by destruct (jmap_get "t" result)).
  destruct (decide ("t" ∈ result.*1)) as [|Hn]; [done|]. by apply jmap_get_None in Hn.
Qed.

(** The frame a message decoder read. *)
Ltac the_frame :=
  match goal with x : (list (string * value) * string)%type |- _ => destruct x end;
  match goal with H : frame _ = Ret _ |- _ =>
    let Ht := fresh "Ht" in apply frame_ret in H as [-> Ht] end;
  checks; repeat case_decide; checks; subst; checks.

Lemma frameVersion_ret v sender u : frameVersion v sender = Ret u -> v = VStr ACKERDB_VERSION.
Proof. unfold frameVersion. intros H. exc_inv. apply boundedString_ret in H as [-> _]. by case_decide; subst. Qed.

(** The receipt of what a mutation answers, and the kind of any other answer. *)
Lemma parseAnswer_sound f body message u :
  js (VObj f) -> parseAnswer f body message = Ret u ->
  (exists k, field "kind" f = kind_value k /\ exactFields f ["t"; "id"; "kind"; body] [] = Ret tt) \/
  (exists r, field "kind" f = VStr "mutation" /\ receipt_ok r /\
     same (field "receipt" f) (receipt_value r) /\ exactFields f ["t"; "id"; "kind"; body; "receipt"] [] = Ret tt).
Proof.
  intros Hj H. unfold parseAnswer in H. repeat case_decide; checks.
  - apply parseMutationReceipt_sound in H1 as (r & Hr & Hs); [|by apply js_field].
    right. by exists r.
  - left. match goal with H : _ \/ _ |- _ => destruct H as [E|E] end.
    + by exists a_query.
    + by exists a_procedure.
Qed.

Lemma parseErrorMessage_sound f u :
  js (VObj f) -> field "t" f = VStr "err" -> parseErrorMessage f = Ret u ->
  exists id o, match id with Some n => id_ok n | None => True end /\ outcome_ok o /\
    field "id" f = ttl_value id /\
    same (VObj f) (versioned "err" [("id", ttl_value id); ("outcome", outcome_value o)]).
Proof.
  intros Hj Ht H. unfold parseErrorMessage in H. checks.
  match goal with H : frameVersion _ _ = _ |- _ => apply frameVersion_ret in H as Hv end.
  match goal with H : parseOutcome _ = _ |- _ =>
    apply parseOutcome_sound in H as (o & Ho & _ & Hos); [|by apply js_field] end.
  case_decide; checks.
  - exists None, o. split_and!; [done|done|done|]. same_object.
  - match goal with H : field "id" f = VNum ?n |- _ => exists (Some n), o end. split_and!; [done..|]. same_object.
Qed.

(** The number, and the string, a checked field holds. *)
Ltac num_at k := match goal with H : field k _ = VNum ?n |- _ => constr:(n) end.
Ltac str_at k := match goal with H : field k _ = VStr ?s |- _ => constr:(s) end.

Ltac answer m := exists m; split; [first [done | repeat split; done]|]; same_object.

(** The fields of an object, each with the value just found for it. *)
Ltac each_field := repeat (apply Forall_cons_2; [cbn [fst snd]; by apply same_field|]); apply Forall_nil_2.

Lemma parseClientMessage_sound v w :
  js v -> parseClientMessage v = Ret w -> w = v /\ exists m, client_ok m /\ same v (client_value m).
Proof.
  intros Hj H. unfold parseClientMessage in H. checks. the_frame; (split; [done|]); nested.
  - match goal with H : parseCredential _ = _ |- _ =>
      apply parseCredential_sound in H as (c & Hc & Hcs); [|by apply js_field] end.
    let a := num_at "attemptId" in answer (CAuth a c).
  - match goal with Ho : (if hasOwn _ _ then _ else _) = _ |- _ =>
      destruct (optional_sound cursor_ok cursor_value l "cursor" _ Ho) as (c & Hc & Hck & Hcf) end.
    { intros Hc. checks. nested. by eexists. }
    let n := num_at "id" in let r := str_at "ref" in exists (CSubscribe n r (field "args" l) c).
    split; [split; [done|]; by destruct c as [c|]; [destruct Hc|]|].
    apply (obj_same_opt _ _ [_; _; _; _]); [done|done|done|each_field|done..].
  - let n := num_at "id" in answer (CUnsubscribe n).
  - match goal with H : same (field "cursor" l) (cursor_value ?c) |- _ =>
      let n := num_at "id" in answer (CReset n c) end.
  - match goal with H : _ \/ _ |- _ => destruct H as [->| ->] end.
    + let n := num_at "id" in let r := str_at "ref" in answer (CQuery n r (field "args" l)).
    + let n := num_at "id" in let r := str_at "ref" in answer (CProcedure n r (field "args" l)).
  - let n := num_at "id" in answer (CCancel n).
  - let n := num_at "id" in let r := str_at "ref" in let u := str_at "mutationRequestId" in
    let i := num_at "issuedAt" in answer (CMutation n r (field "args" l) u i).
  - match goal with Ho : (if hasOwn _ _ then _ else _) = _ |- _ =>
      destruct (optional_sound (fun x => is_undefined x = false) (fun x => x) l "room" _ Ho)
        as (c & Hc & Hck & Hcf) end.
    { intros Hc. checks. exists (field "room" l). split; [done|apply same_refl]. }
    let n := num_at "id" in let r := str_at "ref" in exists (CChannelJoin n r (field "args" l) c).
    split; [split; [done|]; by destruct c as [c|]; [destruct Hc|]|].
    apply (obj_same_opt _ _ [_; _; _; _]); [done|done|done|each_field|done..].
  - let n := num_at "id" in answer (CChannelLeave n).
  - let n := num_at "id" in let e := str_at "event" in answer (CChannelSend n e (field "payload" l)).
  - answer CPing.
Qed.

Lemma parseServerMessage_sound v w :
  js v -> parseServerMessage v = Ret w -> w = v /\ exists m, server_ok m /\ same v (server_value m).
Proof.
  intros Hj H. unfold parseServerMessage in H. checks. the_frame; (split; [done|]); nested.
  - match goal with H : parseAuthenticationDescriptor _ _ = _ |- _ =>
      apply parseAuthenticationDescriptor_sound in H as (d & Hd & Hex & Hf); [|done] end.
    let a := num_at "attemptId" in let e := num_at "authEpoch" in exists (SAuthenticated d a e).
    split; [done|]. apply (obj_same_split _ _ (["t"; "attemptId"; "authEpoch"] ++ (descriptor_fields d).*1));
      [done|done|by destruct d|done|].
    do 3 (apply Forall_cons_2; [cbn [fst snd]; by apply same_field|]). done.
  - match goal with H : parseSubscriptionTransition _ = _ |- _ =>
      apply parseSubscriptionTransition_sound in H as (t & Ho & Hos); [|by apply js_field] end.
    let n := num_at "id" in answer (STransition n t).
  - match goal with H : parseLiveEvent _ = _ |- _ =>
      apply parseLiveEvent_sound in H as (e & Ho & Hos); [|by apply js_field] end.
    let n := num_at "id" in answer (SEvent n e).
  - match goal with H : parseAnswer _ _ _ = _ |- _ =>
      apply parseAnswer_sound in H as [(k & Hk & Hex)|(r & Hk & Hr & Hrs & Hex)]; [| |done] end.
    + let n := num_at "id" in answer (SOk k n (field "value" l)).
    + let n := num_at "id" in answer (SMutationOk n (field "value" l) r).
  - match goal with H : same (field "error" l) (error_value ?e) |- _ => rename e into er end.
    match goal with H : parseAnswer _ _ _ = _ |- _ =>
      apply parseAnswer_sound in H as [(k & Hk & Hex)|(r & Hk & Hr & Hrs & Hex)]; [| |done] end.
    + let n := num_at "id" in answer (SApplicationError k n er).
    + let n := num_at "id" in answer (SMutationError n er r).
  - let n := num_at "id" in let e := num_at "authEpoch" in answer (SChannelReady n e).
  - let n := num_at "id" in let e := str_at "event" in answer (SChannelEvent n e (field "payload" l)).
  - match goal with H : same (field "error" l) (error_value ?e) |- _ =>
      let n := num_at "id" in let p := num_at "authEpoch" in answer (SChannelRejected n p e) end.
  - match goal with H : parseErrorMessage _ = _ |- _ =>
      apply parseErrorMessage_sound in H as (id & o & Hid & Ho & _ & Hs); [|done..] end.
    exists (SError id o). by split.
  - answer SPong.
Qed.

Lemma connectionError_sound f u :
  js (VObj f) -> field "t" f = VStr "err" -> connectionError f = Ret u ->
  exists o, outcome_ok o /\ same (VObj f) (versioned "err" [("id", VNull); ("outcome", outcome_value o)]).
Proof.
  intros Hj Ht H. unfold connectionError in H. checks.
  match goal with H : parseErrorMessage _ = _ |- _ =>
    apply parseErrorMessage_sound in H as (id & o & Hid & Ho & Hf & Hs); [|done..] end.
  exists o. split; [done|]. by destruct id; [cbn in *; congruence|].
Qed.

Lemma parseServerHandshake_sound v w :
  js v -> parseServerHandshake v = Ret w -> w = v /\ exists m, handshake_ok m /\ same v (handshake_value m).
Proof.
  intros Hj H. unfold parseServerHandshake in H. checks. the_frame; (split; [done|]).
  - match goal with H : parseAuthenticationDescriptor _ _ = _ |- _ =>
      apply parseAuthenticationDescriptor_sound in H as (d & Hd & Hex & Hf); [|done] end.
    match goal with H : frameVersion _ _ = _ |- _ => apply frameVersion_ret in H end.
    let s := str_at "clientSessionId" in let e := num_at "authEpoch" in exists (Welcome d s e).
    split; [done|]. apply (obj_same_split _ _ (["v"; "t"; "clientSessionId"; "authEpoch"] ++ (descriptor_fields d).*1));
      [done|done|by destruct d|done|].
    do 4 (apply Forall_cons_2; [cbn [fst snd]; by apply same_field|]). done.
  - match goal with H : connectionError _ = _ |- _ =>
      apply connectionError_sound in H as (o & Ho & Hs); [|done..] end.
    exists (Refusal o). by split.
Qed.

Lemma parseConnectionError_sound v w :
  js v -> parseConnectionError v = Ret w ->
  w = v /\ exists o, outcome_ok o /\ same v (handshake_value (Refusal o)).
Proof.
  intros Hj H. unfold parseConnectionError in H. checks. the_frame; (split; [done|]).
  match goal with H : connectionError _ = _ |- _ => by apply connectionError_sound in H end.
Qed.

Lemma parseClientHandshake_sound v w :
  js v -> parseClientHandshake v = Ret w -> w = v /\ exists m, hello_ok m /\ same v (hello_value m).
Proof.
  intros Hj H. unfold parseClientHandshake in H. checks. the_frame; (split; [done|]).
  match goal with H : frameVersion _ _ = _ |- _ => apply frameVersion_ret in H end.
  match goal with H : parseCredential _ = _ |- _ =>
    apply parseCredential_sound in H as (c & Hc & Hcs); [|by apply js_field] end.
  let s := str_at "clientSessionId" in answer (MkHello s c).
Qed.

Lemma parseSseMessage_sound v w :
  js v -> parseSseMessage v = Ret w -> w = v /\ exists m, sse_ok m /\ same v (sse_value m).
Proof.
  intros Hj H. unfold parseSseMessage in H. checks. the_frame; (split; [done|]);
    match goal with H : frameVersion _ _ = _ |- _ => apply frameVersion_ret in H end.
  - let n := num_at "seq" in let p := str_at "proof" in answer (SseChunk n p (field "value" l)).
  - let n := num_at "seq" in let p := str_at "proof" in answer (SseDone n p).
  - match goal with H : parseOutcome _ = _ |- _ =>
      apply parseOutcome_sound in H as (o & Ho & _ & Hos); [|by apply js_field] end.
    let n := num_at "seq" in let p := str_at "proof" in answer (SseError n p o).
Qed.

Lemma parseSseAckRequest_sound v w :
  js v -> parseSseAckRequest v = Ret w -> w = v /\ exists a, ack_ok a /\ same v (ack_value a).
Proof.
  intros Hj H. unfold parseSseAckRequest in H. checks. the_frame; (split; [done|]).
  match goal with H : frameVersion _ _ = _ |- _ => apply frameVersion_ret in H end.
  let n := num_at "seq" in let p := str_at "proof" in let s := str_at "stream" in answer (MkSseAck s n p).
Qed.
