(* ===== verification/ProtocolComplete.v ===== *)
(** Completeness of the frame decoders: they accept every well-formed message of
    the typed contract, whatever order its properties come in. *)
From S2P Require Import Prelude Errors Value StableEncode Protocol ProtocolProps ProtocolSound.
Local Open Scope string_scope.
Local Open Scope list_scope.

(** ** Objects the same as a rendering *)

Lemma obj_fields v g :
  same v (VObj g) -> bool_decide (NoDup (g.*1)) = true ->
  exists f, v = VObj f /\ f.*1 ≡ₚ g.*1 /\ Forall (fun p => same (field p.1 f) p.2) g.
Proof.
  intros Hs Hn%bool_decide_eq_true. inversion Hs as [? Ha| |f f' Hk Hf]; subst; [discriminate|].
  exists f. split_and!; [done|done|]. apply Forall_forall. intros [k x] Hin. cbn [fst snd].
  assert (Hx : field k g = x) by (unfold field; by rewrite (jmap_get_elem k x g Hn Hin)).
  rewrite <-Hx.
  apply Hf. rewrite Hk. apply list_elem_of_fmap. by exists (k, x).
Qed.

Lemma same_atom_eq v w : same v w -> atom w = true -> v = w.
Proof. intros Hs Ha. inversion Hs; subst; done. Qed.

Lemma exactFields_perm f keys required optional :
  f.*1 ≡ₚ keys -> forallb (fun k => bool_decide (k ∈ keys)) required = true ->
  forallb (fun k => bool_decide (k ∈ required ++ optional)) keys = true ->
  exactFields f required optional = Ret tt.
Proof.
  intros Hk Hr Ho. apply exactFields_ret. rewrite forallb_forall in Hr, Ho. split.
  - intros k Hin. rewrite Hk. apply list_elem_of_In in Hin. by apply Hr, bool_decide_eq_true in Hin.
  - intros k Hin. rewrite Hk in Hin. apply list_elem_of_In in Hin. apply Ho, bool_decide_eq_true in Hin.
    by apply elem_of_app in Hin.
Qed.

Lemma hasOwn_perm f keys k b : f.*1 ≡ₚ keys -> bool_decide (k ∈ keys) = b -> hasOwn f k = b.
Proof. intros Hk <-. unfold hasOwn. apply bool_decide_ext. by rewrite Hk. Qed.

(** ** The checks on well-formed values *)

Lemma boundedString_ok s name max : string_ok s max -> boundedString (VStr s) name max = Ret s.
Proof. intros. by apply boundedString_ret. Qed.
Lemma protocolId_ok n name : id_ok n -> protocolId (VNum n) name = Ret (VNum n).
Proof. unfold protocolId, id_ok. by intros ->. Qed.
Lemma positiveSafeInteger_field_ok n name : seq_ok n -> positiveSafeInteger_field (VNum n) name = Ret (VNum n).
Proof. unfold positiveSafeInteger_field, seq_ok. by intros ->. Qed.
Lemma nonNegativeInteger_ok n name : count_ok n -> nonNegativeInteger (VNum n) name = Ret (VNum n).
Proof. unfold nonNegativeInteger, count_ok. by intros ->. Qed.
Lemma nonNegativeBigint_ok z name : (0 <= z)%Z -> nonNegativeBigint (VBig z) name = Ret z.
Proof. intros. unfold nonNegativeBigint. by rewrite decide_True. Qed.
Lemma is_undefined_same v w : same v w -> is_undefined v = is_undefined w.
Proof. by inversion 1. Qed.
Lemma payload_ok v w name : same v w -> is_undefined w = false -> payload v name = Ret v.
Proof. intros Hs Hu. unfold payload. by rewrite (is_undefined_same _ _ Hs), Hu. Qed.
Lemma guard_ok b message : b = true -> guard b message = Ret tt.
Proof. by intros ->. Qed.

Lemma enumValue_ok {T} (all : list T) spell name t :
  (forall t t', spell t = spell t' -> t = t') -> t ∈ all -> enumValue (VStr (spell t)) name all spell = Ret t.
Proof.
  intros Hinj Hin. unfold enumValue. destruct (List.find _ all) as [t'|] eqn:E.
  - apply List.find_some in E as [_ E%bool_decide_eq_true]. by rewrite (Hinj _ _ E).
  - eapply List.find_none in E; [|by apply list_elem_of_In]. by apply bool_decide_eq_false in E.
Qed.

Lemma outcome_code_string_inj c c' : outcome_code_string c = outcome_code_string c' -> c = c'.
Proof. destruct c, c'; by intros [=]. Qed.
Lemma resource_class_string_inj c c' : resource_class_string c = resource_class_string c' -> c = c'.
Proof. destruct c, c'; by intros [=]. Qed.
Lemma durability_string_inj c c' : durability_string c = durability_string c' -> c = c'.
Proof. destruct c, c'; by intros [=]. Qed.

Lemma outcome_code_ok c name :
  enumValue (VStr (outcome_code_string c)) name OUTCOME_CODES outcome_code_string = Ret c.
Proof. apply enumValue_ok; [apply outcome_code_string_inj|]. destruct c; in_list. Qed.
Lemma resource_class_ok c name :
  enumValue (VStr (resource_class_string c)) name RESOURCE_CLASSES resource_class_string = Ret c.
Proof. apply enumValue_ok; [apply resource_class_string_inj|]. destruct c; in_list. Qed.
Lemma durability_ok c name :
  enumValue (VStr (durability_string c)) name DURABILITY_POLICIES durability_string = Ret c.
Proof. apply enumValue_ok; [apply durability_string_inj|]. destruct c; in_list. Qed.

Lemma retry_after_count n : int_field (VNum n) 0 (Some MAX_RETRY_AFTER_MS) = true -> count_ok n.
Proof.
  unfold count_ok, int_field. destruct (num_safe_integer n); [|done].
  rewrite andb_true_r, andb_true_iff. tauto.
Qed.

Lemma frameVersion_ok sender : frameVersion (VStr ACKERDB_VERSION) sender = Ret tt.
Proof. reflexivity. Qed.

(** Read the object a value is the same as, and the values of its fields. *)
Ltac read_object :=
  match goal with
  | H : same ?v (VObj ?g) |- _ =>
      let f := fresh "f" in let Hk := fresh "Hkeys" in let Hf := fresh "Hfields" in
      destruct (obj_fields v g H) as (f & -> & Hk & Hf); [vm_compute; reflexivity|];
      cbn [fmap list_fmap fst app opt_field] in Hk; cbn [app opt_field] in Hf;
      repeat (apply Forall_cons in Hf; let Hx := fresh "Hx" in destruct Hf as [Hx Hf]; cbn [fst snd] in Hx);
      clear Hf H;
      repeat match goal with
      | Hx : same (field _ f) ?w |- _ => apply same_atom_eq in Hx; [|reflexivity]
      end
  end.

(** One check of a decoder on an object so read. *)
Ltac step :=
  match goal with
  | |- context [exactFields ?f _ _] =>
      erewrite (exactFields_perm f); [|eassumption|vm_compute; reflexivity|vm_compute; reflexivity]
  | |- context [hasOwn ?f ?k] => erewrite (hasOwn_perm f _ k); [|eassumption|vm_compute; reflexivity]
  | H : field ?k ?f = _ |- context [field ?k ?f] => rewrite H
  | |- context [boundedString (VStr _) _ _] => rewrite boundedString_ok by done
  | |- context [protocolId (VNum _) _] => rewrite protocolId_ok by done
  | |- context [positiveSafeInteger_field (VNum _) _] => rewrite positiveSafeInteger_field_ok by done
  | |- context [nonNegativeInteger (VNum _) _] => rewrite nonNegativeInteger_ok by done
  | |- context [nonNegativeBigint (VBig _) _] => rewrite nonNegativeBigint_ok by (done || lia)
  | |- context [enumValue (VStr (outcome_code_string _)) _ _ _] => rewrite outcome_code_ok
  | |- context [enumValue (VStr (resource_class_string _)) _ _ _] => rewrite resource_class_ok
  | |- context [enumValue (VStr (durability_string _)) _ _ _] => rewrite durability_ok
  | |- context [frameVersion (VStr ACKERDB_VERSION) _] => rewrite frameVersion_ok
  | H : same (field ?k ?f) ?w |- context [payload (field ?k ?f) _] => rewrite (payload_ok _ _ _ H) by done
  | |- context [guard ?b _] => rewrite (guard_ok b) by done
  | |- context [decide (?a = ?a)] => rewrite (decide_True (P := a = a)) by done
  | |- context [decide (?a = ?b)] => rewrite (decide_False (P := a = b)) by done
  | |- context [decide (?a = ?b \/ ?a = ?c)] =>
      first [rewrite (decide_True (P := a = b \/ a = c)) by auto
            |rewrite (decide_False (P := a = b \/ a = c)) by (intros [|]; discriminate)]
  | |- context [bool_decide (?a = ?a)] => rewrite (bool_decide_eq_true_2 (a = a)) by done
  end; cbn [mbind exc_bind protocolObject app].

Ltac steps := cbn [mbind exc_bind protocolObject app]; repeat step.

Lemma parseCredential_complete v c :
  same v (credential_value c) -> credential_ok c -> parseCredential v = Ret tt.
Proof.
  intros Hs Hok. unfold parseCredential. destruct c as [|token]; cbn in Hs; read_object.
  - steps. done.
  - destruct Hok as [? Hb]. steps. rewrite bool_decide_eq_true_2 by done. steps. done.
Qed.

Lemma parseCredentialProvenance_complete v p :
  same v (provenance_value p) -> provenance_ok p -> parseCredentialProvenance v = Ret tt.
Proof.
  intros Hs [? ?]. unfold parseCredentialProvenance, provenance_value in *. read_object. steps. done.
Qed.

Lemma parseCredentialTtl_complete f ttl :
  field "credentialTtlMs" f = ttl_value ttl -> ttl_ok ttl -> parseCredentialTtl f = Ret tt.
Proof. intros Hf Hok. unfold parseCredentialTtl. rewrite Hf. destruct ttl; cbn [ttl_value]; steps; done. Qed.

Lemma ttl_same v ttl : same v (ttl_value ttl) -> v = ttl_value ttl.
Proof. intros Hs. apply (same_atom_eq _ _ Hs). by destruct ttl. Qed.

(** The descriptor of a principal, inside the frame that carries it. *)
Lemma parseAuthenticationDescriptor_complete f frameFields d :
  f.*1 ≡ₚ frameFields ++ (descriptor_fields d).*1 ->
  Forall (fun p => same (field p.1 f) p.2) (descriptor_fields d) -> descriptor_ok d ->
  parseAuthenticationDescriptor f frameFields = Ret tt.
Proof.
  intros Hk Hf Hok.
  assert (Hex : exactFields f (frameFields ++ (descriptor_fields d).*1) [] = Ret tt).
  { apply exactFields_ret. split; intros k; rewrite Hk; auto. }
  unfold parseAuthenticationDescriptor. destruct d as [|identity p ttl|p ttl];
    cbn [descriptor_fields fmap list_fmap fst] in *; repeat rewrite Forall_cons in Hf; cbn [fst snd] in Hf.
  - destruct Hf as [Hx%same_atom_eq _]; [|done]. steps. done.
  - destruct Hf as (Hx%same_atom_eq & Hi%same_atom_eq & Hp & Ht & _); [|done..].
    destruct Hok as (Hid & Hpo & Hto). steps. rewrite Hex. cbn [mbind exc_bind].
    rewrite guard_ok by (by rewrite bool_decide_eq_true). cbn [mbind exc_bind].
    rewrite (parseCredentialProvenance_complete _ _ Hp Hpo). cbn [mbind exc_bind].
    eapply parseCredentialTtl_complete; [by apply ttl_same|done].
  - destruct Hf as (Hx%same_atom_eq & Hp & Ht & _); [|done..].
    destruct Hok as (Hpo & Hto). steps. rewrite Hex. cbn [mbind exc_bind].
    rewrite (parseCredentialProvenance_complete _ _ Hp Hpo). cbn [mbind exc_bind].
    eapply parseCredentialTtl_complete; [by apply ttl_same|done].
Qed.

(** The checks on the optional fields an outcome has. *)
Lemma parseOutcome_complete v o :
  same v (outcome_value o) -> outcome_ok o -> parseOutcome v = Ret (out_code o).
Proof.
  intros Hs (Hm & Hra & Hc & Hcr). unfold parseOutcome, outcome_value in *.
  destruct o as [code b msg ra res com];
    cbn [out_code out_retryable out_message out_retryAfterMs out_resource out_committed] in *.
  destruct com.
  - assert (code = convergence_unavailable) as -> by tauto. specialize (Hcr eq_refl) as ->.
    destruct ra as [n|]; [by destruct (Hra n eq_refl)|].
    destruct res as [r|]; read_object; steps; done.
  - assert (Hn : code <> convergence_unavailable) by (intros E; by apply Hc in E).
    destruct ra as [n|]; [destruct (Hra n eq_refl) as [Hi ->]; pose proof (retry_after_count n Hi)|];
      destruct res as [r|]; read_object; steps; rewrite bool_decide_eq_false_2 by done; steps; done.
Qed.

Lemma parseApplicationError_complete v e :
  same v (error_value e) -> error_ok e -> parseApplicationError v = Ret tt.
Proof.
  intros Hs (Hc & Hb & Hst). unfold parseApplicationError, error_value in *. read_object. steps. done.
Qed.

Lemma parseSubscriptionCursor_complete v c :
  same v (cursor_value c) -> cursor_ok c -> parseSubscriptionCursor v = Ret c.
Proof.
  intros Hs (Hg & Hv & He & Hi). unfold parseSubscriptionCursor, cursor_value in *. read_object. steps.
  by destruct c.
Qed.

Lemma parseNullableCursor_complete v c :
  same v (nullable_value c) -> match c with Some c => cursor_ok c | None => True end ->
  parseNullableCursor v = Ret c.
Proof.
  intros Hs Hok. unfold parseNullableCursor. destruct c as [c|]; cbn in Hs.
  - rewrite decide_False by (intros ->; inversion Hs; subst; done).
    by rewrite (parseSubscriptionCursor_complete _ _ Hs Hok).
  - apply same_atom_eq in Hs; [|done]. by rewrite decide_True.
Qed.

Lemma parseLiveEventCursor_complete v c :
  same v (event_cursor_value c) -> event_cursor_ok c -> parseLiveEventCursor v = Ret tt.
Proof.
  intros Hs (Hg & Hv & He). unfold parseLiveEventCursor, event_cursor_value in *. read_object. by steps.
Qed.

(** One nested decoder on the value of a field. *)
Ltac inner :=
  match goal with
  | H : same ?v (cursor_value ?c) |- context [parseSubscriptionCursor ?v] =>
      rewrite (parseSubscriptionCursor_complete v c H) by done
  | H : same ?v (nullable_value ?c) |- context [parseNullableCursor ?v] =>
      rewrite (parseNullableCursor_complete v c H) by (try destruct c; naive_solver)
  | H : same ?v (error_value ?e) |- context [parseApplicationError ?v] =>
      rewrite (parseApplicationError_complete v e H) by done
  | H : same ?v (event_cursor_value ?c) |- context [parseLiveEventCursor ?v] =>
      rewrite (parseLiveEventCursor_complete v c H) by done
  | H : same ?v (outcome_value ?o) |- context [parseOutcome ?v] =>
      rewrite (parseOutcome_complete v o H) by done
  | H : same ?v (credential_value ?c) |- context [parseCredential ?v] =>
      rewrite (parseCredential_complete v c H) by done
  | H : advances ?c ?d |- context [sameStream ?c ?d] => rewrite (proj2 (sameStream_ret c d tt) H)
  | H : stays ?c ?d |- context [sameCursor ?c ?d] => rewrite (proj2 (sameCursor_ret c d tt) H)
  end; cbn [mbind exc_bind].

Ltac all_steps := steps; repeat (inner; steps).

Lemma parseSubscriptionTransition_complete v t :
  same v (transition_value t) -> transition_ok t -> parseSubscriptionTransition v = Ret tt.
Proof.
  intros Hs Hok. unfold parseSubscriptionTransition, transition_value in *.
  destruct t as [from to w|from to w|from to|from to|from to o|from to e]; cbn in Hok;
    repeat match goal with H : _ /\ _ |- _ => destruct H end; read_object.
  - all_steps. done.
  - all_steps. done.
  - all_steps. done.
  - all_steps. done.
  - all_steps. by rewrite guard_ok by (by rewrite bool_decide_eq_true, isAuthFailure_spec).
  - all_steps. destruct from as [c|]; [destruct H as [? H]|]; [by inner|done].
Qed.

Lemma parseLiveEvent_complete v e :
  same v (event_value e) -> event_ok e -> parseLiveEvent v = Ret tt.
Proof.
  intros Hs Hok. unfold parseLiveEvent, event_value in *.
  destruct e as [c row|c|c]; [destruct Hok as [Hok Hu]|..]; cbn in Hok; read_object; cbn [mbind exc_bind protocolObject].
  - all_steps. done.
  - all_steps. done.
  - all_steps. done.
Qed.

Lemma parseObligations_complete ids : forall unique,
  Forall id_ok ids -> NoDup ids -> (forall n, n ∈ ids -> n ∉ unique) ->
  parseObligations unique (VNum <$> ids) = Ret tt.
Proof.
  induction ids as [|n ids IH]; intros unique Hok Hn Hd; [done|].
  apply Forall_cons in Hok as [Hi Hok]. apply NoDup_cons in Hn as [Hnin Hn]. cbn.
  rewrite protocolId_ok by done. cbn. rewrite decide_False by (apply Hd, list_elem_of_here).
  apply IH; [done|done|]. intros m Hm [->|Hu]%elem_of_cons; [done|]. by apply (Hd m); [apply list_elem_of_further|].
Qed.

Lemma same_VArr_atoms v l : same v (VArr (VNum <$> l)) -> v = VArr (VNum <$> l).
Proof.
  inversion 1 as [| l1 l2 Hl |]; subst; [done|]. f_equal. clear H.
  remember (VNum <$> l) as l2 eqn:E. revert l E. induction Hl as [|x y xs ys Hx Hxs IH]; intros l E; [done|].
  destruct l as [|n l]; [done|]. injection E as -> ->. apply same_atom_eq in Hx as ->; [|done].
  f_equal. by apply (IH l).
Qed.

Lemma parseMutationReceipt_complete v r :
  same v (receipt_value r) -> receipt_ok r -> parseMutationReceipt v = Ret tt.
Proof.
  intros Hs (Hm & Hu & Hv & Hl & Ho & Hn). unfold parseMutationReceipt, receipt_value in *. read_object.
  match goal with H : same _ (VArr _) |- _ => apply same_VArr_atoms in H end. steps.
  rewrite guard_ok. 2:{ apply bool_decide_eq_true. destruct (replayed r); auto. }
  cbn [mbind exc_bind]. rewrite length_fmap, decide_False by lia. apply parseObligations_complete; [done..|].
  intros n _. apply not_elem_of_nil.
Qed.

(** ** Frames *)

Lemma frame_ok f t : field "t" f = VStr t -> frame (VObj f) = Ret (f, t).
Proof. intros Hf. unfold frame. cbn. by rewrite Hf. Qed.

(** Open a frame: its fields, and its type. *)
Ltac open_frame :=
  unfold session, versioned in *; read_object;
  match goal with H : field "t" ?f = VStr ?t |- context [frame (VObj ?f)] =>
    rewrite (frame_ok f t H) end; cbn [mbind exc_bind].

Lemma parseClientMessage_complete v m :
  same v (client_value m) -> client_ok m -> parseClientMessage v = Ret v.
Proof.
  intros Hs Hok. unfold parseClientMessage.
  destruct m as [a c|id ref args cursor|id|id c|id ref args|id ref args|id|id ref args u i|id ref args room|id|id e p|];
    cbn in Hok, Hs; unfold call_ok in Hok; repeat match goal with H : _ /\ _ |- _ => destruct H end.
  - open_frame. all_steps. done.
  - destruct cursor as [c|]; open_frame; all_steps; done.
  - open_frame. all_steps. done.
  - open_frame. all_steps. done.
  - open_frame. all_steps. done.
  - open_frame. all_steps. done.
  - open_frame. all_steps. done.
  - open_frame. all_steps. done.
  - destruct room as [r|]; open_frame; all_steps; done.
  - open_frame. all_steps. done.
  - open_frame. all_steps. done.
  - open_frame. all_steps. done.
Qed.

(** A frame that carries a principal's descriptor. *)
Lemma descriptor_frame v g d :
  same v (VObj (g ++ descriptor_fields d)) -> bool_decide (NoDup (g.*1 ++ (descriptor_fields d).*1)) = true ->
  exists f, v = VObj f /\ f.*1 ≡ₚ g.*1 ++ (descriptor_fields d).*1 /\
    Forall (fun p => same (field p.1 f) p.2) g /\
    Forall (fun p => same (field p.1 f) p.2) (descriptor_fields d).
Proof.
  intros Hs Hn. destruct (obj_fields _ _ Hs) as (f & -> & Hk & Hf); [by rewrite fmap_app|].
  rewrite fmap_app in Hk. apply Forall_app in Hf as [Hg Hf]. by exists f.
Qed.

Lemma parseErrorMessage_complete f id o :
  f.*1 ≡ₚ ["v"; "t"; "id"; "outcome"] -> field "v" f = VStr ACKERDB_VERSION ->
  field "id" f = ttl_value id -> same (field "outcome" f) (outcome_value o) ->
  match id with Some n => id_ok n | None => True end -> outcome_ok o -> parseErrorMessage f = Ret tt.
Proof.
  intros Hk Hv Hi Ho Hid Hok. unfold parseErrorMessage. destruct id as [n|]; cbn [ttl_value] in Hi; all_steps; done.
Qed.

Lemma parseAnswer_complete f body message k :
  f.*1 ≡ₚ ["t"; "id"; "kind"; body] -> field "kind" f = kind_value k -> parseAnswer f body message = Ret tt.
Proof.
  intros Hk Hf. unfold parseAnswer. destruct k; cbn [kind_value] in Hf; steps;
    apply exactFields_ret; split; intros k; rewrite Hk; auto.
Qed.

Lemma parseAnswer_mutation_complete f body message r :
  f.*1 ≡ₚ ["t"; "id"; "kind"; body; "receipt"] -> field "kind" f = VStr "mutation" ->
  same (field "receipt" f) (receipt_value r) -> receipt_ok r -> parseAnswer f body message = Ret tt.
Proof.
  intros Hk Hf Hr Hok. unfold parseAnswer. steps.
  replace (exactFields _ _ _) with (@Ret js_error _ tt).
  - cbn. by eapply parseMutationReceipt_complete.
  - symmetry. apply exactFields_ret. split; intros k; rewrite Hk; auto.
Qed.

Lemma descriptor_keys_ok (l : list string) d :
  forallb (fun d => bool_decide (NoDup (l ++ (descriptor_fields d).*1)))
    [AnonymousPrincipal; UserPrincipal 0 (MkProvenance "i" "s") None; WorkloadPrincipal (MkProvenance "i" "s") None]
    = true ->
  bool_decide (NoDup (l ++ (descriptor_fields d).*1)) = true.
Proof. cbn. rewrite !andb_true_iff. by destruct d; intros (?&?&?&_). Qed.

(** The atoms among the fields of a frame. *)
Ltac read_fields Hg :=
  repeat (apply Forall_cons in Hg; let Hx := fresh "Hx" in destruct Hg as [Hx Hg]; cbn [fst snd] in Hx);
  repeat match goal with Hx : same (field _ _) ?w |- _ => apply same_atom_eq in Hx; [|reflexivity] end.

Lemma parseServerMessage_complete v m :
  same v (server_value m) -> server_ok m -> parseServerMessage v = Ret v.
Proof.
  intros Hs Hok. unfold parseServerMessage.
  destruct m as [d a e|id t|id e|k id w|id w r|k id e|id e r|id e|id e p|id ep e|id o|];
    cbn [server_ok server_value] in Hok, Hs; unfold call_ok in Hok;
    repeat match goal with H : _ /\ _ |- _ => destruct H end.
  - destruct (descriptor_frame v [("t", VStr "auth"); ("attemptId", VNum a); ("authEpoch", VNum e)] d Hs)
      as (f & -> & Hk & Hg & Hd); [by apply (descriptor_keys_ok ["t"; "attemptId"; "authEpoch"])|].
    read_fields Hg. rewrite (frame_ok f "auth") by done. cbn [mbind exc_bind]. steps.
    rewrite (parseAuthenticationDescriptor_complete f _ d) by done. cbn [mbind exc_bind]. by all_steps.
  - open_frame. all_steps. by rewrite (parseSubscriptionTransition_complete _ t).
  - open_frame. all_steps. by rewrite (parseLiveEvent_complete _ e).
  - open_frame. steps. rewrite (parseAnswer_complete f "value" _ k) by (done || by apply same_atom_eq; destruct k).
    cbn [mbind exc_bind]. by steps.
  - open_frame. steps. rewrite (parseAnswer_mutation_complete f "value" _ r) by done.
    cbn [mbind exc_bind]. by steps.
  - open_frame. steps. rewrite (parseAnswer_complete f "error" _ k) by (done || by apply same_atom_eq; destruct k).
    cbn [mbind exc_bind]. by all_steps.
  - open_frame. steps. rewrite (parseAnswer_mutation_complete f "error" _ r) by done.
    cbn [mbind exc_bind]. by all_steps.
  - open_frame. by all_steps.
  - open_frame. by all_steps.
  - open_frame. by all_steps.
  - open_frame. steps. by rewrite (parseErrorMessage_complete f id o) by (done || by apply ttl_same).
  - open_frame. by all_steps.
Qed.

Lemma connectionError_complete v o :
  same v (handshake_value (Refusal o)) -> outcome_ok o ->
  exists f, v = VObj f /\ field "t" f = VStr "err" /\ connectionError f = Ret tt.
Proof.
  intros Hs Hok. cbn [handshake_value] in Hs. unfold versioned in Hs. read_object. exists f. split_and!; [done|done|].
  unfold connectionError. rewrite (parseErrorMessage_complete f None o) by done. cbn [mbind exc_bind].
  apply guard_ok. by rewrite bool_decide_eq_true.
Qed.

Lemma parseConnectionError_complete v o :
  same v (handshake_value (Refusal o)) -> outcome_ok o -> parseConnectionError v = Ret v.
Proof.
  intros Hs Hok. destruct (connectionError_complete v o Hs Hok) as (f & -> & Ht & Hc).
  unfold parseConnectionError. rewrite (frame_ok f "err") by done. cbn [mbind exc_bind]. steps. by rewrite Hc.
Qed.

Lemma parseServerHandshake_complete v m :
  same v (handshake_value m) -> handshake_ok m -> parseServerHandshake v = Ret v.
Proof.
  intros Hs Hok. unfold parseServerHandshake. destruct m as [d s e|o].
  - destruct Hok as (Hd & Hse & He).
    destruct (descriptor_frame v [("v", VStr ACKERDB_VERSION); ("t", VStr "welcome");
      ("clientSessionId", VStr s); ("authEpoch", VNum e)] d Hs) as (f & -> & Hk & Hg & Hf);
      [by apply (descriptor_keys_ok ["v"; "t"; "clientSessionId"; "authEpoch"])|].
    read_fields Hg. rewrite (frame_ok f "welcome") by done. cbn [mbind exc_bind]. steps.
    rewrite (parseAuthenticationDescriptor_complete f _ d) by done. cbn [mbind exc_bind]. by all_steps.
  - destruct (connectionError_complete v o Hs Hok) as (f & -> & Ht & Hc).
    rewrite (frame_ok f "err") by done. cbn [mbind exc_bind]. steps. by rewrite Hc.
Qed.

Lemma parseClientHandshake_complete v m :
  same v (hello_value m) -> hello_ok m -> parseClientHandshake v = Ret v.
Proof.
  intros Hs [? ?]. unfold parseClientHandshake, hello_value in *. open_frame. by all_steps.
Qed.

Lemma parseSseMessage_complete v m :
  same v (sse_value m) -> sse_ok m -> parseSseMessage v = Ret v.
Proof.
  intros Hs Hok. unfold parseSseMessage. destruct m as [s p w|s p|s p o]; cbn [sse_value sse_ok] in *;
    repeat match goal with H : _ /\ _ |- _ => destruct H end; open_frame; by all_steps.
Qed.

Lemma parseSseAckRequest_complete v a :
  same v (ack_value a) -> ack_ok a -> parseSseAckRequest v = Ret v.
Proof.
  intros Hs (?&?&?). unfold parseSseAckRequest, ack_value in *. open_frame. by all_steps.
Qed.

(** ** The contract of the decoders *)

(** No object of a literal value names a property twice. *)
Ltac js_value :=
  repeat match goal with
  | |- True => exact I
  | |- js _ => first [exact I | split]
  | |- NoDup _ => apply (bool_decide_unpack _); vm_compute; exact I
  | |- foldr _ _ _ => cbn [foldr snd]
  | |- _ /\ _ => split
  end.

(** C34: the server's session decoder accepts exactly the well-formed client
    messages: what it returns is the value it was given, and that value is, up
    to the order of its properties, the object of a well-formed
    [ClientSessionMessage]; every such object is accepted. *)
Theorem client_frames_accepted (v w : value) (Hv : js v) :
  parseClientMessage v = Ret w <-> w = v /\ exists m, client_ok m /\ same v (client_value m).
Proof.
  split; [by apply parseClientMessage_sound|]. intros (-> & m & Hm & Hs). by eapply parseClientMessage_complete.
Qed.

Lemma client_frames_accepted_witness :
  js (client_value (CQuery (num_of_Z 1) "api.tasks" (VObj []))) /\
  parseClientMessage (client_value (CQuery (num_of_Z 1) "api.tasks" (VObj []))) =
  Ret (client_value (CQuery (num_of_Z 1) "api.tasks" (VObj []))).
Proof.
  split; [js_value|].
  apply client_frames_accepted.
  - js_value.
  - split; [done|]. exists (CQuery (num_of_Z 1) "api.tasks" (VObj [])).
    split; [split_and!; vm_compute; done|apply same_refl].
Defined.

(** C30: the client's session decoder accepts exactly the well-formed server
    messages: transitions only between cursors of one stream, receipts with
    unique obligations, revocations with an authentication outcome. *)
Theorem server_frames_accepted (v w : value) (Hv : js v) :
  parseServerMessage v = Ret w <-> w = v /\ exists m, server_ok m /\ same v (server_value m).
Proof.
  split; [by apply parseServerMessage_sound|]. intros (-> & m & Hm & Hs). by eapply parseServerMessage_complete.
Qed.

Lemma server_frames_accepted_witness :
  js (server_value SPong) /\ parseServerMessage (server_value SPong) = Ret (server_value SPong).
Proof.
  split; [js_value|].
  apply server_frames_accepted.
  - js_value.
  - split; [done|]. exists SPong. split; [done|apply same_refl].
Defined.

(** the handshake decoders accept exactly a hello, a welcome or a
    connection error of this version of the protocol. *)
Theorem handshakes_accepted (v w : value) (Hv : js v) :
  (parseClientHandshake v = Ret w <-> w = v /\ exists m, hello_ok m /\ same v (hello_value m)) /\
  (parseServerHandshake v = Ret w <-> w = v /\ exists m, handshake_ok m /\ same v (handshake_value m)) /\
  (parseConnectionError v = Ret w <-> w = v /\ exists o, outcome_ok o /\ same v (handshake_value (Refusal o))).
Proof.
  split_and!; split.
  - by apply parseClientHandshake_sound.
  - intros (-> & m & Hm & Hs). by eapply parseClientHandshake_complete.
  - by apply parseServerHandshake_sound.
  - intros (-> & m & Hm & Hs). by eapply parseServerHandshake_complete.
  - by apply parseConnectionError_sound.
  - intros (-> & m & Hm & Hs). by eapply parseConnectionError_complete.
Qed.

Lemma handshakes_accepted_witness :
  parseClientHandshake (hello_value (MkHello "session-1" Anonymous)) = Ret (hello_value (MkHello "session-1" Anonymous)).
Proof.
  apply (handshakes_accepted _ (hello_value (MkHello "session-1" Anonymous))).
  - js_value.
  - split; [done|]. exists (MkHello "session-1" Anonymous). split; [split; [vm_compute; done|done]|apply same_refl].
Defined.

(** the decoders of a server-sent stream accept exactly the well-formed
    chunks, completions and errors, and the acknowledgments of them. *)
Theorem sse_frames_accepted (v w : value) (Hv : js v) :
  (parseSseMessage v = Ret w <-> w = v /\ exists m, sse_ok m /\ same v (sse_value m)) /\
  (parseSseAckRequest v = Ret w <-> w = v /\ exists a, ack_ok a /\ same v (ack_value a)).
Proof.
  split; split.
  - by apply parseSseMessage_sound.
  - intros (-> & m & Hm & Hs). by eapply parseSseMessage_complete.
  - by apply parseSseAckRequest_sound.
  - intros (-> & m & Hm & Hs). by eapply parseSseAckRequest_complete.
Qed.

Lemma sse_frames_accepted_witness :
  parseSseMessage (sse_value (SseDone (num_of_Z 3) "proof")) = Ret (sse_value (SseDone (num_of_Z 3) "proof")).
Proof.
  apply (sse_frames_accepted _ (sse_value (SseDone (num_of_Z 3) "proof"))).
  - js_value.
  - split; [done|]. exists (SseDone (num_of_Z 3) "proof"). split; [split; vm_compute; done|apply same_refl].
Defined.

(** ** Errors of the framework as outcomes *)

Lemma utf16_units_bound a : (0 <= utf16_units a <= 2)%Z.
Proof. unfold utf16_units. repeat case_match; lia. Qed.

Lemma utf16_take_length s : forall n, (0 <= n)%Z -> (0 <= utf16_length (utf16_take n s) <= n)%Z.
Proof.
  induction s as [|a s IH]; cbn; intros n Hn; [lia|]. pose proof (utf16_units_bound a).
  case_bool_decide; cbn; [|lia]. specialize (IH (n - utf16_units a)%Z). lia.
Qed.

Lemma utf16_take_positive s : forall n, (2 <= n)%Z -> (0 < utf16_length s)%Z -> (0 < utf16_length (utf16_take n s))%Z.
Proof.
  induction s as [|a s IH]; cbn; intros n Hn Hs; [lia|]. pose proof (utf16_units_bound a).
  rewrite bool_decide_eq_true_2 by lia. cbn.
  pose proof (utf16_take_length s (n - utf16_units a)%Z).
  destruct (decide (utf16_units a = 0)%Z) as [E|]; [|lia]. specialize (IH n). rewrite E, Z.sub_0_r in *. lia.
Qed.

Lemma num_integer_in_field n : num_integer_in 0 30000 n = true -> int_field (VNum n) 0 (Some MAX_RETRY_AFTER_MS) = true.
Proof.
  unfold num_integer_in, int_field, num_safe_integer, MAX_RETRY_AFTER_MS, MAX_SAFE_INTEGER.
  destruct (num_integer n) as [z|]; [|done]. rewrite bool_decide_eq_true. intros ?.
  rewrite decide_True by lia. apply andb_true_iff. rewrite !bool_decide_eq_true. lia.
Qed.

(** every error the framework constructs with a message becomes an outcome
    the clients' decoder accepts, with the code of the error. *)
Theorem framework_errors_accepted code message options e
    (He : new_AckerDBError code message options = Ret e) (Hm : (0 < utf16_length message)%Z) :
  parseOutcome (outcome_value (errorOutcome (Acker e))) = Ret code.
Proof.
  pose proof (new_AckerDBError_wf _ _ _ _ He) as (Hr & Hc & Hcr).
  assert (Hem : err_message e = message /\ err_code e = code).
  { unfold new_AckerDBError in He. exc_inv. by subst e. }
  destruct Hem as [Hem <-]. apply (parseOutcome_complete _ (errorOutcome (Acker e))); [apply same_refl|].
  split_and!; cbn; [|intros n Hn; destruct (Hr n Hn) as [Hi ?]; split; [by apply num_integer_in_field|done]|done|done].
  rewrite Hem. unfold string_ok, MAX_SAFE_MESSAGE_LENGTH. split.
  - by apply utf16_take_positive.
  - by apply utf16_take_length.
Qed.

Lemma framework_errors_accepted_witness : exists e,
  new_AckerDBError overloaded_ "queue is full"
    {| opt_retryable := Some true; opt_retryAfterMs := Some (num_of_Z 250);
       opt_resource := Some operation; opt_committed := false |} = Ret e /\
  parseOutcome (outcome_value (errorOutcome (Acker e))) = Ret overloaded_.
Proof.
  eexists. split; [vm_compute; reflexivity|].
  eapply (framework_errors_accepted overloaded_ "queue is full"
    {| opt_retryable := Some true; opt_retryAfterMs := Some (num_of_Z 250);
       opt_resource := Some operation; opt_committed := false |}); vm_compute; reflexivity.
Defined.
