(* ===== verification/Publication.v ===== *)
(** Ordered publication: [server/src/subscriptions/publication.ts].

    A writer reserves a slot before its transaction begins, and commits or
    cancels it afterwards; committed slots are handed to [process] one at a
    time, in commit order, and settle in any order. A slot is an object named by
    a number; the list of the live ones is the linked list of its
    [previous]/[next] fields. The event loop is explicit: [microtask], [calling]
    and [settling] hold what the code has scheduled and not yet seen, and a step
    is either a call of a method or one of those continuations. *)
From S2P Require Import Prelude Errors Limits Dll.
Local Open Scope string_scope.

Inductive SlotState : Type := reserved | committed | processing | settled | canceled.

#[export] Instance SlotState_eq_dec : EqDecision SlotState.
Proof. solve_decision. Defined.

(** The promise [completion] of a slot; a rejection carries its reason. *)
Inductive Completion : Type := Unsettled | Completed | Failed (reason : js_error).

Record Slot (T : Type) : Type := MkSlot {
  version : Z;
  value : option T;
  reservedBytes : Z;
  reservedAtMs : Z;
  state : SlotState;
  completion : Completion;
}.
Arguments MkSlot {T}. Arguments version {T}. Arguments value {T}. Arguments reservedBytes {T}.
Arguments reservedAtMs {T}. Arguments state {T}. Arguments completion {T}.

Section publication.
Context {T : Type}.

Definition slot_state (s : SlotState) (x : Slot T) : Slot T :=
  MkSlot (version x) (value x) (reservedBytes x) (reservedAtMs x) s (completion x).
Definition slot_value (v : T) (x : Slot T) : Slot T :=
  MkSlot (version x) (Some v) (reservedBytes x) (reservedAtMs x) (state x) (completion x).
Definition slot_bytes (b : Z) (x : Slot T) : Slot T :=
  MkSlot (version x) (value x) b (reservedAtMs x) (state x) (completion x).
Definition slot_complete (c : Completion) (x : Slot T) : Slot T :=
  MkSlot (version x) (value x) (reservedBytes x) (reservedAtMs x) (state x) c.

Record OrderedPublication : Type := MkPublication {
  p_limits : CapacityLimits Z;
  p_slots : gmap nat (Slot T);  (* every slot ever made, by identity *)
  p_list : dll;
  openReservation : option nat;
  items : Z;
  p_bytes : Z;
  committedHighWater : Z;
  settledHighWater : Z;
  startedHighWater : Z;
  processed : Z;
  failures : Z;
  lastFailureVersion : option Z;
  starting : bool;
  unsettledVersions : gset Z;
  p_closed : bool;
  closePromise : option bool;  (* [close] was called; whether its promise has resolved *)
  microtask : option nat;  (* the slot of the queued microtask of [pump] *)
  calling : option nat;  (* the slot of the running call of [process] *)
  settling : list (nat * bool);  (* the slots whose promises are pending; [true] for a handoff *)
  p_log : list (Z * option T);  (* the calls of [process], first to last *)
}.

Definition set_p_slots (x : gmap nat (Slot T)) (p : OrderedPublication) : OrderedPublication :=
  MkPublication (p_limits p) x (p_list p) (openReservation p) (items p) (p_bytes p) (committedHighWater p)
    (settledHighWater p) (startedHighWater p) (processed p) (failures p) (lastFailureVersion p) (starting p)
    (unsettledVersions p) (p_closed p) (closePromise p) (microtask p) (calling p) (settling p) (p_log p).
Definition set_p_list (x : dll) (p : OrderedPublication) : OrderedPublication :=
  MkPublication (p_limits p) (p_slots p) x (openReservation p) (items p) (p_bytes p) (committedHighWater p)
    (settledHighWater p) (startedHighWater p) (processed p) (failures p) (lastFailureVersion p) (starting p)
    (unsettledVersions p) (p_closed p) (closePromise p) (microtask p) (calling p) (settling p) (p_log p).
Definition set_openReservation (x : option nat) (p : OrderedPublication) : OrderedPublication :=
  MkPublication (p_limits p) (p_slots p) (p_list p) x (items p) (p_bytes p) (committedHighWater p)
    (settledHighWater p) (startedHighWater p) (processed p) (failures p) (lastFailureVersion p) (starting p)
    (unsettledVersions p) (p_closed p) (closePromise p) (microtask p) (calling p) (settling p) (p_log p).
Definition set_items (x : Z) (p : OrderedPublication) : OrderedPublication :=
  MkPublication (p_limits p) (p_slots p) (p_list p) (openReservation p) x (p_bytes p) (committedHighWater p)
    (settledHighWater p) (startedHighWater p) (processed p) (failures p) (lastFailureVersion p) (starting p)
    (unsettledVersions p) (p_closed p) (closePromise p) (microtask p) (calling p) (settling p) (p_log p).
Definition set_p_bytes (x : Z) (p : OrderedPublication) : OrderedPublication :=
  MkPublication (p_limits p) (p_slots p) (p_list p) (openReservation p) (items p) x (committedHighWater p)
    (settledHighWater p) (startedHighWater p) (processed p) (failures p) (lastFailureVersion p) (starting p)
    (unsettledVersions p) (p_closed p) (closePromise p) (microtask p) (calling p) (settling p) (p_log p).
Definition set_committedHighWater (x : Z) (p : OrderedPublication) : OrderedPublication :=
  MkPublication (p_limits p) (p_slots p) (p_list p) (openReservation p) (items p) (p_bytes p) x
    (settledHighWater p) (startedHighWater p) (processed p) (failures p) (lastFailureVersion p) (starting p)
    (unsettledVersions p) (p_closed p) (closePromise p) (microtask p) (calling p) (settling p) (p_log p).
Definition set_settledHighWater (x : Z) (p : OrderedPublication) : OrderedPublication :=
  MkPublication (p_limits p) (p_slots p) (p_list p) (openReservation p) (items p) (p_bytes p)
    (committedHighWater p) x (startedHighWater p) (processed p) (failures p) (lastFailureVersion p)
    (starting p) (unsettledVersions p) (p_closed p) (closePromise p) (microtask p) (calling p) (settling p)
    (p_log p).
Definition set_startedHighWater (x : Z) (p : OrderedPublication) : OrderedPublication :=
  MkPublication (p_limits p) (p_slots p) (p_list p) (openReservation p) (items p) (p_bytes p)
    (committedHighWater p) (settledHighWater p) x (processed p) (failures p) (lastFailureVersion p)
    (starting p) (unsettledVersions p) (p_closed p) (closePromise p) (microtask p) (calling p) (settling p)
    (p_log p).
Definition set_processed (x : Z) (p : OrderedPublication) : OrderedPublication :=
  MkPublication (p_limits p) (p_slots p) (p_list p) (openReservation p) (items p) (p_bytes p)
    (committedHighWater p) (settledHighWater p) (startedHighWater p) x (failures p) (lastFailureVersion p)
    (starting p) (unsettledVersions p) (p_closed p) (closePromise p) (microtask p) (calling p) (settling p)
    (p_log p).
Definition set_failures (x : Z) (p : OrderedPublication) : OrderedPublication :=
  MkPublication (p_limits p) (p_slots p) (p_list p) (openReservation p) (items p) (p_bytes p)
    (committedHighWater p) (settledHighWater p) (startedHighWater p) (processed p) x (lastFailureVersion p)
    (starting p) (unsettledVersions p) (p_closed p) (closePromise p) (microtask p) (calling p) (settling p)
    (p_log p).
Definition set_lastFailureVersion (x : option Z) (p : OrderedPublication) : OrderedPublication :=
  MkPublication (p_limits p) (p_slots p) (p_list p) (openReservation p) (items p) (p_bytes p)
    (committedHighWater p) (settledHighWater p) (startedHighWater p) (processed p) (failures p) x (starting
    p) (unsettledVersions p) (p_closed p) (closePromise p) (microtask p) (calling p) (settling p) (p_log p).
Definition set_starting (x : bool) (p : OrderedPublication) : OrderedPublication :=
  MkPublication (p_limits p) (p_slots p) (p_list p) (openReservation p) (items p) (p_bytes p)
    (committedHighWater p) (settledHighWater p) (startedHighWater p) (processed p) (failures p)
    (lastFailureVersion p) x (unsettledVersions p) (p_closed p) (closePromise p) (microtask p) (calling p)
    (settling p) (p_log p).
Definition set_unsettledVersions (x : gset Z) (p : OrderedPublication) : OrderedPublication :=
  MkPublication (p_limits p) (p_slots p) (p_list p) (openReservation p) (items p) (p_bytes p)
    (committedHighWater p) (settledHighWater p) (startedHighWater p) (processed p) (failures p)
    (lastFailureVersion p) (starting p) x (p_closed p) (closePromise p) (microtask p) (calling p) (settling
    p) (p_log p).
Definition set_p_closed (x : bool) (p : OrderedPublication) : OrderedPublication :=
  MkPublication (p_limits p) (p_slots p) (p_list p) (openReservation p) (items p) (p_bytes p)
    (committedHighWater p) (settledHighWater p) (startedHighWater p) (processed p) (failures p)
    (lastFailureVersion p) (starting p) (unsettledVersions p) x (closePromise p) (microtask p) (calling p)
    (settling p) (p_log p).
Definition set_closePromise (x : option bool) (p : OrderedPublication) : OrderedPublication :=
  MkPublication (p_limits p) (p_slots p) (p_list p) (openReservation p) (items p) (p_bytes p)
    (committedHighWater p) (settledHighWater p) (startedHighWater p) (processed p) (failures p)
    (lastFailureVersion p) (starting p) (unsettledVersions p) (p_closed p) x (microtask p) (calling p)
    (settling p) (p_log p).
Definition set_microtask (x : option nat) (p : OrderedPublication) : OrderedPublication :=
  MkPublication (p_limits p) (p_slots p) (p_list p) (openReservation p) (items p) (p_bytes p)
    (committedHighWater p) (settledHighWater p) (startedHighWater p) (processed p) (failures p)
    (lastFailureVersion p) (starting p) (unsettledVersions p) (p_closed p) (closePromise p) x (calling p)
    (settling p) (p_log p).
Definition set_calling (x : option nat) (p : OrderedPublication) : OrderedPublication :=
  MkPublication (p_limits p) (p_slots p) (p_list p) (openReservation p) (items p) (p_bytes p)
    (committedHighWater p) (settledHighWater p) (startedHighWater p) (processed p) (failures p)
    (lastFailureVersion p) (starting p) (unsettledVersions p) (p_closed p) (closePromise p) (microtask p) x
    (settling p) (p_log p).
Definition set_settling (x : list (nat * bool)) (p : OrderedPublication) : OrderedPublication :=
  MkPublication (p_limits p) (p_slots p) (p_list p) (openReservation p) (items p) (p_bytes p)
    (committedHighWater p) (settledHighWater p) (startedHighWater p) (processed p) (failures p)
    (lastFailureVersion p) (starting p) (unsettledVersions p) (p_closed p) (closePromise p) (microtask p)
    (calling p) x (p_log p).
Definition set_p_log (x : list (Z * option T)) (p : OrderedPublication) : OrderedPublication :=
  MkPublication (p_limits p) (p_slots p) (p_list p) (openReservation p) (items p) (p_bytes p)
    (committedHighWater p) (settledHighWater p) (startedHighWater p) (processed p) (failures p)
    (lastFailureVersion p) (starting p) (unsettledVersions p) (p_closed p) (closePromise p) (microtask p)
    (calling p) (settling p) x.

Definition unavailable (code : OutcomeCode) (message : string) (retryable : bool) {A} : exc js_error A :=
  throw_AckerDBError code message
    {| opt_retryable := Some retryable;
       opt_retryAfterMs := if retryable then Some (num_of_Z 0) else None;
       opt_resource := Some publication; opt_committed := false |}.

Definition readNow (now : ms) : exc js_error Z :=
  match now with
  | Finite t => Ret t
  | NonFinite => Throw (RangeError "now must return a finite number")
  end.

(** [new OrderedPublication(options)] *)
Definition new_OrderedPublication (limits : CapacityLimits num) (initialVersion : option Z)
    : exc js_error OrderedPublication :=
  limits ← validateCapacityLimits limits "publication";
  let initial := default 0%Z initialVersion in
  _ ← throw_if (bool_decide (initial < 0)%Z) (RangeError "initialVersion must be a non-negative bigint");
  Ret (MkPublication limits ∅ dll_empty None 0 0 initial initial initial 0 0 None false ∅ false None
         None None [] []).

(** A byte count the caller gives. *)
Definition byte_count (n : num) : exc js_error Z :=
  match num_safe_integer n with
  | Some z =>
      if decide (z < 0)%Z then Throw (RangeError "reservedBytes must be a non-negative safe integer") else Ret z
  | None => Throw (RangeError "reservedBytes must be a non-negative safe integer")
  end.

(** The new slot is named by the first number no slot has. *)
Definition reserve (bytes : num) (now : ms) (p : OrderedPublication) : exc js_error (nat * OrderedPublication) :=
  reservedBytes ← byte_count bytes;
  _ ← (if p_closed p then unavailable draining "Publication coordinator is closed" false else Ret tt);
  _ ← (if bool_decide (maxItems (p_limits p) <= items p)%Z ||
          bool_decide (maxBytes (p_limits p) - p_bytes p < reservedBytes)%Z
       then unavailable overloaded_ "Publication capacity is full" true else Ret tt);
  _ ← (match openReservation p with
       | Some _ => unavailable unavailable_ "A writer publication reservation is already open" false
       | None => Ret tt
       end);
  now ← readNow now;
  let x := size (p_slots p) in
  let slot := MkSlot (committedHighWater p + 1) None reservedBytes now reserved Unsettled in
  Ret (x, set_p_slots (<[x := slot]> (p_slots p))
         (set_openReservation (Some x)
         (set_items (items p + 1)
         (set_p_bytes (p_bytes p + reservedBytes)
         (set_p_list (dll_append (p_list p) x) p)))))%Z.

(** [install] answers whether what it returned is thenable. *)
Definition compareAndInstall (evaluationVersion : Z) (thenable : bool) (p : OrderedPublication)
    : exc js_error bool :=
  _ ← throw_if (bool_decide (evaluationVersion < 0)%Z) (RangeError "evaluationVersion must be a non-negative bigint");
  _ ← (if p_closed p then unavailable draining "Publication coordinator is closed" false else Ret tt);
  if decide (evaluationVersion <> committedHighWater p) then Ret false
  else
    _ ← throw_if thenable (TypeError "compareAndInstall callback must be synchronous");
    Ret true.

Definition resolveCloseIfDrained (p : OrderedPublication) : OrderedPublication :=
  if negb (p_closed p) || negb (bool_decide (items p = 0%Z)) then p
  else set_closePromise (match closePromise p with Some _ => Some true | None => None end) p.

Definition close (p : OrderedPublication) : OrderedPublication :=
  match closePromise p with
  | Some _ => p
  | None => resolveCloseIfDrained (set_closePromise (Some false) (set_p_closed true p))
  end.

(** The slot [x], if it is the open reservation. *)
Definition assertOpenSlot (x : nat) (p : OrderedPublication) : exc js_error (Slot T) :=
  let refused := Throw (PlainError "Publication reservation is no longer open") in
  match p_slots p !! x with
  | Some slot =>
      if decide (openReservation p = Some x /\ state slot = reserved) then Ret slot else refused
  | None => refused
  end.

(** Replace the fields of one slot. *)
Definition update (x : nat) (f : Slot T -> Slot T) (p : OrderedPublication) : OrderedPublication :=
  set_p_slots (alter f x (p_slots p)) p.

(** [slot = this.head; while (slot && slot.state !== "committed") slot = slot.next] *)
Fixpoint first_committed (fuel : nat) (slots : gmap nat (Slot T)) (next : gmap nat nat) (o : option nat) : option nat :=
  match fuel, o with
  | S fuel, Some x =>
      if bool_decide (state <$> slots !! x = Some committed) then Some x
      else first_committed fuel slots next (next !! x)
  | _, _ => None
  end.

(** The list has no more than the slots there are. *)
Definition pump (p : OrderedPublication) : OrderedPublication :=
  if starting p then p
  else
    match first_committed (size (p_slots p)) (p_slots p) (dll_next (p_list p)) (dll_head (p_list p)) with
    | None => p
    | Some x => set_microtask (Some x) (set_starting true (update x (slot_state processing) p))
    end.

Definition commit (x : nat) (v : T) (p : OrderedPublication) : exc js_error OrderedPublication :=
  slot ← assertOpenSlot x p;
  Ret (pump (set_committedHighWater (version slot) (set_openReservation None
         (update x (slot_state committed ∘ slot_value v) p)))).

Definition resize (x : nat) (bytes : num) (p : OrderedPublication) : exc js_error OrderedPublication :=
  slot ← assertOpenSlot x p;
  size ← byte_count bytes;
  let available := (maxBytes (p_limits p) - p_bytes p + reservedBytes slot)%Z in
  _ ← (if decide (available < size)%Z then unavailable overloaded_ "Publication capacity is full" true else Ret tt);
  Ret (update x (slot_bytes size) (set_p_bytes (p_bytes p + (size - reservedBytes slot))%Z p)).

Definition detach (x : nat) (p : OrderedPublication) : OrderedPublication :=
  let bytes := default 0%Z (reservedBytes <$> p_slots p !! x) in
  set_p_bytes (p_bytes p - bytes)%Z (set_items (items p - 1)%Z
    (set_p_list (dll_clear (dll_detach (p_list p) x) x) p)).

Definition cancel (x : nat) (p : OrderedPublication) : exc js_error OrderedPublication :=
  _ ← assertOpenSlot x p;
  Ret (resolveCloseIfDrained (update x (slot_complete Completed)
        (detach x (set_openReservation None (update x (slot_state canceled) p))))).

(** [while (settledHighWater < startedHighWater && !unsettled.has(settledHighWater + 1)) settledHighWater++] *)
Fixpoint advance (fuel : nat) (started : Z) (unsettled : gset Z) (water : Z) : Z :=
  match fuel with
  | S fuel =>
      if bool_decide (water < started)%Z && negb (bool_decide ((water + 1)%Z ∈ unsettled))
      then advance fuel started unsettled (water + 1)%Z else water
  | O => water
  end.

(** [settle], up to the pump. A rejection reason that is [undefined] counts as success. *)
Definition settle_slot (x : nat) (error : option js_error) (p : OrderedPublication) : OrderedPublication :=
  match p_slots p !! x with
  | None => p
  | Some slot =>
      let unsettled := unsettledVersions p ∖ {[ version slot ]} in
      let p := set_unsettledVersions unsettled (set_processed (processed p + 1)%Z
                 (update x (slot_state settled) p)) in
      let p := set_settledHighWater
                 (advance (Z.to_nat (startedHighWater p - settledHighWater p)) (startedHighWater p)
                    unsettled (settledHighWater p)) p in
      let p := detach x p in
      match error with
      | None => update x (slot_complete Completed) p
      | Some reason =>
          let last := match lastFailureVersion p with
                      | None => Some (version slot)
                      | Some v => if decide (v < version slot)%Z then Some (version slot) else Some v
                      end in
          update x (slot_complete (Failed reason))
            (set_lastFailureVersion last (set_failures (failures p + 1)%Z p))
      end
  end.

Definition settle (x : nat) (error : option js_error) (p : OrderedPublication) : OrderedPublication :=
  resolveCloseIfDrained (pump (settle_slot x error p)).

(** What [process] does when called. *)
Inductive Answer : Type :=
  | Throws (reason : option js_error)  (* [None] is [undefined] *)
  | Handoff
  | Promised.

(** The microtask of [pump], up to the call of [process]. *)
Definition begin (x : nat) (p : OrderedPublication) : OrderedPublication :=
  match p_slots p !! x with
  | None => p
  | Some slot =>
      set_p_log (p_log p ++ [(version slot, value slot)])
        (set_calling (Some x) (set_microtask None
        (set_unsettledVersions ({[ version slot ]} ∪ unsettledVersions p)
        (set_startedHighWater (version slot) p))))
  end.

(** The rest of it. *)
Definition answered (x : nat) (a : Answer) (p : OrderedPublication) : OrderedPublication :=
  let p := set_calling None p in
  match a with
  | Throws reason => settle x reason (set_starting false p)
  | Handoff => pump (set_settling ((x, true) :: settling p) (set_starting false p))
  | Promised => set_settling ((x, false) :: settling p) p
  end.

(** The promise of slot [x] settles; [None] when it is fulfilled, or rejected
    with [undefined]. *)
Definition promise_settles (x : nat) (error : option js_error) (p : OrderedPublication) : OrderedPublication :=
  let handoff := bool_decide ((x, true) ∈ settling p) in
  let p := set_settling (filter (fun y => y.1 <> x) (settling p)) p in
  settle x error (if handoff then p else set_starting false p).

Record PublicationSnapshot : Type := MkSnapshot {
  snap_items : Z; snap_bytes : Z; oldestAgeMs : Z; highWater : Z; processedHighWater : Z;
  snap_processed : Z; snap_failures : Z; snap_lastFailureVersion : option Z; snap_closed : bool }.

Definition snapshot (now : ms) (p : OrderedPublication) : exc js_error PublicationSnapshot :=
  now ← readNow now;
  let age := match dll_head (p_list p) with
             | Some x => Z.max 0 (now - default now (reservedAtMs <$> p_slots p !! x))
             | None => 0
             end%Z in
  Ret (MkSnapshot (items p) (p_bytes p) age (committedHighWater p) (settledHighWater p) (processed p)
         (failures p) (lastFailureVersion p) (p_closed p)).

(** ** Steps *)

Inductive Event : Type :=
  | EReserve (bytes : num) (now : ms)
  | EResize (slot : nat) (bytes : num)
  | ECommit (slot : nat) (v : T)
  | ECancel (slot : nat)
  | EClose
  | EBegin
  | EAnswer (a : Answer)
  | ESettle (slot : nat) (error : option js_error).

(** One event; a call that throws, and an event the loop does not hold, are no step. *)
Definition step (e : Event) (p : OrderedPublication) : option OrderedPublication :=
  match e with
  | EReserve bytes now => match reserve bytes now p with Ret (_, p') => Some p' | Throw _ => None end
  | EResize x bytes => match resize x bytes p with Ret p' => Some p' | Throw _ => None end
  | ECommit x v => match commit x v p with Ret p' => Some p' | Throw _ => None end
  | ECancel x => match cancel x p with Ret p' => Some p' | Throw _ => None end
  | EClose => Some (close p)
  | EBegin => x ← microtask p; Some (begin x p)
  | EAnswer a => x ← calling p; Some (answered x a p)
  | ESettle x error =>
      if bool_decide (x ∈ (settling p).*1) then Some (promise_settles x error p) else None
  end.

Fixpoint steps (es : list Event) (p : OrderedPublication) : option OrderedPublication :=
  match es with
  | [] => Some p
  | e :: es => p' ← step e p; steps es p'
  end.

(** The values committed by a trace, in order. *)
Fixpoint commits (es : list Event) : list T :=
  match es with
  | [] => []
  | ECommit _ v :: es => v :: commits es
  | _ :: es => commits es
  end.
End publication.
Arguments OrderedPublication : clear implicits.
Arguments Event : clear implicits.
