(* ===== verification/PublicationInv.v ===== *)
(** The invariant of ordered publication, and that every step keeps it. *)
From S2P Require Import Prelude Errors Limits Dll Publication.
Local Open Scope Z_scope.

Section invariant.
Context {T : Type}.
Implicit Types (p : OrderedPublication T) (s : Slot T) (m : gmap nat (Slot T)).

Definition has m (x : nat) (st : SlotState) : Prop := exists s, m !! x = Some s /\ state s = st.
Definition ver m (x : nat) : Z := default 0 (version <$> m !! x).
Definition val m (x : nat) : option T := m !! x ≫= value.
Definition size_of m (x : nat) : Z := default 0 (reservedBytes <$> m !! x).
Definition opt_list (o : option nat) : list nat := match o with Some x => [x] | None => [] end.
Definition sum_of m (l : list nat) : Z := foldr (fun x n => size_of m x + n) 0 l.

(** The live slots, first to last: those [process] has been called for, the one
    about to be, the committed ones and the open reservation. *)
Definition live p (rs cs : list nat) : list nat :=
  rs ++ opt_list (microtask p) ++ cs ++ opt_list (openReservation p).

(** The part of the state that does not belong to the event loop. [init] is the
    version the publication began at, [vs] the values committed since. *)
Record core (init : Z) (vs : list T) p (rs cs : list nat) : Prop := {
  core_list : dll_repr (p_list p) (live p rs cs);
  core_next x : x ∉ live p rs cs -> dll_next (p_list p) !! x = None;
  core_slots x : is_Some (p_slots p !! x) <-> (x < size (p_slots p))%nat;
  core_processing x : x ∈ rs ++ opt_list (microtask p) -> has (p_slots p) x processing;
  core_committed x : x ∈ cs -> has (p_slots p) x committed;
  core_open x : openReservation p = Some x -> has (p_slots p) x reserved /\ ver (p_slots p) x = committedHighWater p + 1;
  core_pending x s : x ∈ live p rs cs -> p_slots p !! x = Some s -> completion s = Unsettled;
  core_gone x s : x ∉ live p rs cs -> p_slots p !! x = Some s ->
    (state s = settled \/ state s = canceled) /\ completion s <> Unsettled;
  core_water : init <= settledHighWater p <= startedHighWater p;
  core_high : startedHighWater p <= committedHighWater p;
  core_versions : ver (p_slots p) <$> (opt_list (microtask p) ++ cs) =
    seqZ (startedHighWater p + 1) (committedHighWater p - startedHighWater p);
  core_unsettled v : v ∈ unsettledVersions p <-> exists x, x ∈ rs /\ ver (p_slots p) x = v;
  core_distinct x y : x ∈ rs -> y ∈ rs -> ver (p_slots p) x = ver (p_slots p) y -> x = y;
  core_started x : x ∈ rs -> init < ver (p_slots p) x <= startedHighWater p;
  core_settled v : init < v <= settledHighWater p -> v ∉ unsettledVersions p;
  core_exact : settledHighWater p = startedHighWater p \/ settledHighWater p + 1 ∈ unsettledVersions p;
  core_named v : init < v <= startedHighWater p -> exists x s, p_slots p !! x = Some s /\ version s = v /\
    (state s = settled \/ x ∈ rs);
  core_processed : processed p = startedHighWater p - init - Z.of_nat (length rs);
  core_items : items p = Z.of_nat (length (live p rs cs));
  core_bytes : p_bytes p = sum_of (p_slots p) (live p rs cs);
  core_positive x : 0 <= size_of (p_slots p) x;
  core_capacity : items p <= maxItems (p_limits p) /\ p_bytes p <= maxBytes (p_limits p);
  core_log : (p_log p).*1 = seqZ (init + 1) (startedHighWater p - init);
  core_values : (p_log p).*2 ++ (val (p_slots p) <$> (opt_list (microtask p) ++ cs)) = Some <$> vs;
}.

(** What the event loop owes: every slot [process] was called for is in its call
    or has a promise pending, and [starting] counts the one continuation that
    will resume the pump. *)
Definition owed p : list nat := opt_list (calling p) ++ (settling p).*1.
Definition starters p : list nat :=
  opt_list (microtask p) ++ opt_list (calling p) ++ (filter (fun y => y.2 = false) (settling p)).*1.

Record pub_inv (init : Z) (vs : list T) p (rs cs : list nat) : Prop := {
  inv_core : core init vs p rs cs;
  inv_owed : owed p ≡ₚ rs;
  inv_starting : length (starters p) = if starting p then 1%nat else 0%nat;
  inv_idle : starting p = false -> cs = [];
  inv_close : closePromise p = if p_closed p then Some (bool_decide (items p = 0)) else None;
}.

(** ** Slots *)

Lemma core_nodup init vs p rs cs : core init vs p rs cs -> NoDup (live p rs cs).
Proof. intros H. apply (repr_nodup _ _ (core_list _ _ _ _ _ H)). Qed.

Lemma alter_lookup m x f y :
  alter f x m !! y = if decide (x = y) then f <$> m !! y else m !! y.
Proof. case_decide as E; [subst; apply lookup_alter_eq|by apply lookup_alter_ne]. Qed.

Lemma alter_size m x f : size (alter f x m) = size m.
Proof. rewrite <-!size_dom. by rewrite dom_alter_L. Qed.

Lemma alter_is_some m x f y : is_Some (alter f x m !! y) <-> is_Some (m !! y).
Proof. rewrite alter_lookup. case_decide; [apply fmap_is_Some|done]. Qed.

Lemma ver_alter m x f y : (forall s, version (f s) = version s) -> ver (alter f x m) y = ver m y.
Proof.
  intros Hf. unfold ver. rewrite alter_lookup. case_decide; [|done]. destruct (m !! y); cbn; [apply Hf|done].
Qed.

Lemma val_alter m x f y : (forall s, value (f s) = value s) -> val (alter f x m) y = val m y.
Proof.
  intros Hf. unfold val. rewrite alter_lookup. case_decide; [|done]. destruct (m !! y); cbn; [apply Hf|done].
Qed.

Lemma size_alter m x f y : (forall s, reservedBytes (f s) = reservedBytes s) -> size_of (alter f x m) y = size_of m y.
Proof.
  intros Hf. unfold size_of. rewrite alter_lookup. case_decide; [|done]. destruct (m !! y); cbn; [apply Hf|done].
Qed.

Lemma has_alter m x f y st :
  has (alter f x m) y st <-> exists s, m !! y = Some s /\ state (if decide (x = y) then f s else s) = st.
Proof.
  unfold has. rewrite alter_lookup. case_decide; [|done].
  destruct (m !! y) as [s|]; cbn; [|naive_solver]. split.
  - intros (s' & [= <-] & ?). by exists s.
  - intros (s' & [= <-] & ?). by exists (f s).
Qed.

Lemma has_alter_ne m x f y st : x <> y -> has (alter f x m) y st <-> has m y st.
Proof. intros Hn. rewrite has_alter. by destruct (decide (x = y)). Qed.

Lemma has_alter_eq m x f st st' : has m x st' -> (forall s, state (f s) = st) -> has (alter f x m) x st.
Proof. intros (s & Hs & _) Hf. apply has_alter. exists s. by rewrite decide_True. Qed.

Lemma has_unique m x st st' : has m x st -> has m x st' -> st = st'.
Proof. intros (s & Hs & <-) (s' & Hs' & <-). by rewrite Hs in Hs'; injection Hs' as ->. Qed.

Lemma sum_of_ext m m' l : (forall x, x ∈ l -> size_of m x = size_of m' x) -> sum_of m l = sum_of m' l.
Proof.
  unfold sum_of. intros H. induction l as [|x l IH]; cbn; [done|]. f_equal; [apply H, list_elem_of_here|].
  apply IH. intros y Hy. apply H. by apply list_elem_of_further.
Qed.

Lemma sum_of_app m l l' : sum_of m (l ++ l') = sum_of m l + sum_of m l'.
Proof. unfold sum_of. induction l as [|x l IH]; cbn; [done|]. lia. Qed.

Lemma sum_alter m x f l : (forall s, reservedBytes (f s) = reservedBytes s) -> sum_of (alter f x m) l = sum_of m l.
Proof. intros Hf. apply sum_of_ext. intros. by apply size_alter. Qed.

Lemma map_ver_alter m x f (l : list nat) : (forall s, version (f s) = version s) -> ver (alter f x m) <$> l = ver m <$> l.
Proof. intros Hf. apply list_fmap_ext. intros. by apply ver_alter. Qed.

Lemma map_val_alter m x f (l : list nat) : (forall s, value (f s) = value s) -> val (alter f x m) <$> l = val m <$> l.
Proof. intros Hf. apply list_fmap_ext. intros. by apply val_alter. Qed.

(** ** The list *)

Lemma first_committed_spec (slots : gmap nat (Slot T)) d l1 l2 fuel :
  dll_repr d (l1 ++ l2) -> (length l2 <= fuel)%nat ->
  first_committed fuel slots (dll_next d) (head l2) =
  head (filter (fun x => state <$> slots !! x = Some committed) l2).
Proof.
  revert l1 fuel. induction l2 as [|x l2 IH]; intros l1 fuel Hr Hf; [by destruct fuel|].
  destruct fuel as [|fuel]; [cbn in Hf; lia|]. cbn [head first_committed]. rewrite filter_cons.
  case_bool_decide; case_decide; try done.
  destruct (repr_links _ _ Hr l1 x l2 eq_refl) as [_ ->].
  apply (IH (l1 ++ [x])); [by rewrite <-app_assoc|cbn in Hf; lia].
Qed.

Lemma core_bounded init vs p rs cs : core init vs p rs cs -> (length (live p rs cs) <= size (p_slots p))%nat.
Proof.
  intros H. rewrite <-(length_seq (size (p_slots p)) 0). apply submseteq_length, NoDup_submseteq.
  - by eapply core_nodup.
  - intros x Hx. apply elem_of_seq. split; [lia|]. apply (core_slots _ _ _ _ _ H).
    unfold live in Hx. rewrite !elem_of_app in Hx. destruct Hx as [Hx|[Hx|[Hx|Hx]]].
    + destruct (core_processing _ _ _ _ _ H x) as (s & -> & _); [apply elem_of_app; auto|by eexists].
    + destruct (core_processing _ _ _ _ _ H x) as (s & -> & _); [apply elem_of_app; auto|by eexists].
    + destruct (core_committed _ _ _ _ _ H x Hx) as (s & -> & _). by eexists.
    + destruct (openReservation p) as [y|] eqn:E; [|by apply not_elem_of_nil in Hx].
      apply list_elem_of_singleton in Hx as ->.
      destruct (core_open _ _ _ _ _ H y E) as [(s & -> & _) _]. by eexists.
Qed.

(** The slot the pump takes is the first of the committed ones. *)
Lemma core_first init vs p rs cs : core init vs p rs cs ->
  first_committed (size (p_slots p)) (p_slots p) (dll_next (p_list p)) (dll_head (p_list p)) = head cs.
Proof.
  intros H. pose proof (core_list _ _ _ _ _ H) as Hl.
  rewrite (repr_head _ _ Hl), (first_committed_spec _ _ [] _ _ Hl) by (by eapply core_bounded).
  assert (Hp : forall x st, has (p_slots p) x st -> st <> committed -> state <$> p_slots p !! x <> Some committed).
  { intros x st (s & Hs & <-) Hn. rewrite Hs. by intros [= ?]. }
  unfold live. rewrite app_assoc, !filter_app.
  rewrite <-filter_app. rewrite (filter_none _ (rs ++ opt_list (microtask p))).
  - destruct cs as [|c cs].
    + destruct (openReservation p) as [y|] eqn:E; [|done]. cbn [opt_list].
      rewrite (filter_none _ [y]); [done|]. apply Forall_singleton.
      eapply Hp; [by apply (core_open _ _ _ _ _ H y E)|done].
    + rewrite filter_cons, decide_True; [done|].
      destruct (core_committed _ _ _ _ _ H c) as (s & -> & <-); [apply list_elem_of_here|done].
  - apply Forall_forall. intros x Hx. eapply Hp; [by apply (core_processing _ _ _ _ _ H)|done].
Qed.

(** ** The pump *)

(** What the pump never touches. *)
Record same_loop p p' : Prop := {
  sl_calling : calling p' = calling p;
  sl_settling : settling p' = settling p;
  sl_closed : p_closed p' = p_closed p;
  sl_promise : closePromise p' = closePromise p;
  sl_items : items p' = items p;
  sl_open : openReservation p' = openReservation p;
}.

Lemma pump_core init vs p rs cs :
  core init vs p rs cs -> starting p = false -> microtask p = None ->
  core init vs (pump p) rs (tail cs) /\ microtask (pump p) = head cs /\
  starting (pump p) = bool_decide (cs <> []) /\ same_loop p (pump p).
Proof.
  intros H Hs Hm. unfold pump. rewrite Hs, (core_first _ _ _ _ _ H).
  destruct cs as [|c cs]; [by split_and!|]. cbn [head tail].
  split; [|by split_and!].
  pose proof (core_nodup _ _ _ _ _ H) as Hn.
  pose proof (core_committed _ _ _ _ _ H) as Hcom. pose proof (core_open _ _ _ _ _ H) as Hop.
  assert (Hlive : live (set_microtask (Some c) (set_starting true (update c (slot_state processing) p))) rs cs
            = live p rs (c :: cs)) by (unfold live; by rewrite Hm).
  assert (Hc : (c ∉ rs) /\ (c ∉ cs) /\ openReservation p <> Some c).
  { unfold live in Hn. rewrite Hm in Hn. cbn in Hn. apply NoDup_app in Hn as (_ & Hd & Hn).
    apply NoDup_cons in Hn as [Hn _]. split_and!.
    - intros Hin. apply (Hd _ Hin), list_elem_of_here.
    - intros Hin. apply Hn, elem_of_app. by left.
    - intros E. apply Hn, elem_of_app. right. rewrite E. by apply list_elem_of_singleton. }
  destruct Hc as (Hc1 & Hc2 & Hc3). destruct H. split; rewrite ?Hlive; cbn; try done.
  - intros x. by rewrite alter_is_some, alter_size.
  - intros x Hx. rewrite Hm in *. apply elem_of_app in Hx as [Hx| ->%list_elem_of_singleton].
    + rewrite has_alter_ne by (intros ->; done). apply core_processing0. by rewrite app_nil_r.
    + eapply has_alter_eq; [apply Hcom, list_elem_of_here|done].
  - intros x Hx. rewrite has_alter_ne by (intros ->; done). apply Hcom. by apply list_elem_of_further.
  - intros x E. rewrite has_alter_ne, ver_alter by (done || congruence). by apply Hop.
  - intros x s Hx. rewrite alter_lookup. case_decide; [|by apply core_pending0].
    destruct (p_slots p !! x) as [s'|] eqn:E; [|done]. cbn. intros [= <-]. by apply (core_pending0 x s').
  - intros x s Hx. rewrite alter_lookup, decide_False; [by apply core_gone0|].
    intros ->. apply Hx. unfold live. rewrite Hm. set_solver.
  - rewrite Hm in core_versions0. by rewrite ver_alter, map_ver_alter.
  - intros v. rewrite core_unsettled0. by setoid_rewrite ver_alter.
  - intros x y. rewrite !ver_alter by done. auto.
  - intros x. rewrite ver_alter by done. auto.
  - intros v Hv. destruct (core_named0 v Hv) as (x & s & Hx & Hv' & Hst). exists x.
    rewrite alter_lookup. case_decide as E; [|by exists s]. subst x. exists (slot_state processing s).
    rewrite Hx. split_and!; [done|done|]. destruct (Hcom c) as (s' & Hs' & Hst'); [apply list_elem_of_here|].
    rewrite Hx in Hs'. injection Hs' as <-. destruct Hst; [congruence|auto].
  - by rewrite sum_alter.
  - intros x. by rewrite size_alter.
  - rewrite Hm in core_values0. by rewrite val_alter, map_val_alter.
Qed.

(** ** Calls *)

Lemma byte_count_ret n z : byte_count n = Ret z -> 0 <= z.
Proof. unfold byte_count. destruct (num_safe_integer n); [|discriminate]. case_decide; [discriminate|]. intros [= <-]. lia. Qed.

Lemma unavailable_throws {A} code message retryable (a : A) : unavailable code message retryable <> Ret a.
Proof.
  unfold unavailable, throw_AckerDBError. destruct (new_AckerDBError _ _ _); discriminate.
Qed.

Lemma assertOpenSlot_ret x p s :
  assertOpenSlot x p = Ret s -> p_slots p !! x = Some s /\ openReservation p = Some x /\ state s = reserved.
Proof.
  unfold assertOpenSlot. destruct (p_slots p !! x) as [s'|]; [|discriminate].
  case_decide as E; [|discriminate]. intros [= <-]. tauto.
Qed.

Lemma core_fresh init vs p rs cs : core init vs p rs cs ->
  p_slots p !! size (p_slots p) = None /\ size (p_slots p) ∉ live p rs cs.
Proof.
  intros H. assert (Hn : p_slots p !! size (p_slots p) = None).
  { apply eq_None_not_Some. intros Hs%(core_slots _ _ _ _ _ H). lia. }
  split; [done|]. intros Hx. assert (is_Some (p_slots p !! size (p_slots p))); [|by rewrite Hn in *; destruct H0].
  unfold live in Hx. rewrite app_assoc, elem_of_app in Hx. destruct Hx as [Hx|Hx].
  - destruct (core_processing _ _ _ _ _ H _ Hx) as (s & -> & _). by eexists.
  - apply elem_of_app in Hx as [Hx|Hx].
    + destruct (core_committed _ _ _ _ _ H _ Hx) as (s & -> & _). by eexists.
    + destruct (openReservation p) as [y|] eqn:E; [|by apply not_elem_of_nil in Hx].
      apply list_elem_of_singleton in Hx as <-.
      destruct (core_open _ _ _ _ _ H _ E) as [(s & -> & _) _]. by eexists.
Qed.

Lemma insert_view m x (s : Slot T) y : m !! x = None -> y <> x ->
  ver (<[x := s]> m) y = ver m y /\ val (<[x := s]> m) y = val m y /\ size_of (<[x := s]> m) y = size_of m y /\
  forall st, has (<[x := s]> m) y st <-> has m y st.
Proof. intros Hx Hy. unfold ver, val, size_of, has. by rewrite lookup_insert_ne. Qed.

Lemma list_ne {A} (l : list A) x y : y ∉ l -> x ∈ l -> x <> y.
Proof. intros Hy Hx ->. done. Qed.

Lemma map_ver_insert m x (s : Slot T) (l : list nat) : m !! x = None -> (forall y, y ∈ l -> y <> x) ->
  ver (<[x := s]> m) <$> l = ver m <$> l.
Proof.
  intros Hx Hl. apply list_fmap_ext. intros i y Hy. apply (insert_view m x s y Hx). by apply Hl, list_elem_of_lookup; exists i.
Qed.

Lemma map_val_insert m x (s : Slot T) (l : list nat) : m !! x = None -> (forall y, y ∈ l -> y <> x) ->
  val (<[x := s]> m) <$> l = val m <$> l.
Proof.
  intros Hx Hl. apply list_fmap_ext. intros i y Hy. apply (insert_view m x s y Hx). by apply Hl, list_elem_of_lookup; exists i.
Qed.

Lemma reserve_core init vs p rs cs bytes now x p' :
  core init vs p rs cs -> reserve bytes now p = Ret (x, p') ->
  core init vs p' rs cs /\ starting p' = starting p /\ calling p' = calling p /\ settling p' = settling p /\
  microtask p' = microtask p /\ p_closed p' = p_closed p /\ closePromise p' = closePromise p /\ p_closed p = false.
Proof.
  intros H Hr. unfold reserve in Hr. exc_inv.
  destruct (p_closed p) eqn:Ec; [by apply unavailable_throws in H1|].
  destruct (bool_decide _ || bool_decide _) eqn:Ef; [by apply unavailable_throws in H2|].
  destruct (openReservation p) eqn:Eo; [by apply unavailable_throws in H3|].
  apply orb_false_iff in Ef as [Ef1%bool_decide_eq_false Ef2%bool_decide_eq_false].
  apply byte_count_ret in H0. destruct (core_fresh _ _ _ _ _ H) as [Hfr Hnew].
  pose proof (core_nodup _ _ _ _ _ H) as Hnd.
  subst x p'. split; [|by split_and!].
  set (z := size (p_slots p)) in *.
  set (slot := MkSlot (committedHighWater p + 1) None x0 x4 reserved Unsettled) in *.
  match goal with |- core _ _ ?q _ _ =>
    assert (Hlive : live q rs cs = live p rs cs ++ [z]) by (unfold live; cbn; rewrite Eo; cbn; by rewrite app_nil_r, <-!app_assoc) end.
  assert (Hv : forall y, y ∈ live p rs cs -> y <> z) by (intros y; by apply list_ne).
  assert (Hin : forall y, y ∈ rs ++ opt_list (microtask p) -> y <> z).
  { intros y Hy. apply Hv. unfold live. rewrite app_assoc, elem_of_app. by left. }
  assert (Hic : forall y, y ∈ cs -> y <> z).
  { intros y Hy. apply Hv. unfold live. rewrite !elem_of_app. auto. }
  destruct H; split; rewrite ?Hlive; cbn; try done.
  - apply dll_append_repr; auto.
  - intros y Hy. rewrite elem_of_app, list_elem_of_singleton in Hy.
    destruct (dll_tail (p_list p)) as [t|] eqn:Et; [|by apply core_next0; tauto].
    rewrite lookup_insert_ne; [by apply core_next0; tauto|]. intros ->. apply Hy. left.
    apply last_elem. by rewrite <-(repr_tail _ _ core_list0).
  - intros y. rewrite map_size_insert_None by done. fold z. destruct (decide (y = z)) as [->|Hn].
    + rewrite lookup_insert_eq. split; [lia|by eexists].
    + rewrite lookup_insert_ne by done. rewrite core_slots0. fold z. lia.
  - intros y Hy. apply (insert_view _ z slot y Hfr); auto.
  - intros y Hy. apply (insert_view _ z slot y Hfr); auto.
  - intros y [= <-]. unfold has, ver. rewrite lookup_insert_eq. split; [by exists slot|done].
  - intros y s Hy. destruct (decide (y = z)) as [->|Hn].
    + rewrite lookup_insert_eq. by intros [= <-].
    + rewrite lookup_insert_ne by done. apply core_pending0. set_solver.
  - intros y s Hy. rewrite lookup_insert_ne by set_solver. apply core_gone0. set_solver.
  - rewrite map_ver_insert; [done|done|]. intros y [Hy|Hy]%elem_of_app; [|by apply Hic].
    apply Hin, elem_of_app. by right.
  - intros v. rewrite core_unsettled0. split; intros (y & Hy & <-); exists y; split; try done;
      [|symmetry]; apply (insert_view _ z slot y Hfr), Hin, elem_of_app; by left.
  - intros y y' Hy Hy'. pose proof (Hin y ltac:(apply elem_of_app; by left)).
    pose proof (Hin y' ltac:(apply elem_of_app; by left)).
    destruct (insert_view _ z slot y Hfr) as [-> _]; [done|]. destruct (insert_view _ z slot y' Hfr) as [-> _]; auto.
  - intros y Hy. pose proof (Hin y ltac:(apply elem_of_app; by left)).
    destruct (insert_view _ z slot y Hfr) as [-> _]; auto.
  - intros v Hvv. destruct (core_named0 v Hvv) as (y & s & Hy & ?). exists y, s. split; [|done].
    rewrite lookup_insert_ne; [done|]. intros <-. fold z in Hy. congruence.
  - rewrite length_app. cbn. lia.
  - rewrite sum_of_app. cbn. assert (Hz : size_of (<[z := slot]> (p_slots p)) z = x0) by (unfold size_of; by rewrite lookup_insert_eq).
    rewrite Hz.
    rewrite core_bytes0. rewrite (sum_of_ext (<[z:=slot]> (p_slots p)) (p_slots p)); [lia|].
    intros y Hy. apply (insert_view _ z slot y Hfr). auto.
  - intros y. destruct (decide (y = z)) as [->|Hn].
    + unfold size_of. by rewrite lookup_insert_eq.
    + by destruct (insert_view _ z slot y Hfr) as (_ & _ & -> & _).
  - lia.
  - rewrite map_val_insert; [done|done|]. intros y [Hy|Hy]%elem_of_app; [|by apply Hic].
    apply Hin, elem_of_app. by right.
Qed.

(** What the calls leave alone. *)
Record quiet p p' : Prop := {
  q_starting : starting p' = starting p;
  q_calling : calling p' = calling p;
  q_settling : settling p' = settling p;
  q_microtask : microtask p' = microtask p;
  q_closed : p_closed p' = p_closed p;
  q_promise : closePromise p' = closePromise p;
}.

(** The open reservation is the last of the live slots, and of no other kind. *)
Lemma open_last init vs p rs cs x : core init vs p rs cs -> openReservation p = Some x ->
  live p rs cs = (rs ++ opt_list (microtask p) ++ cs) ++ [x] /\
  (x ∉ rs ++ opt_list (microtask p)) /\ (x ∉ cs).
Proof.
  intros H Ho. assert (Hl : live p rs cs = (rs ++ opt_list (microtask p) ++ cs) ++ [x]).
  { unfold live. rewrite Ho. cbn. by rewrite <-!app_assoc. }
  split; [done|]. pose proof (core_nodup _ _ _ _ _ H) as Hn. rewrite Hl in Hn.
  apply NoDup_app in Hn as (_ & Hd & _). split; intros Hx; apply (Hd x).
  2,4: by apply list_elem_of_singleton.
  - rewrite app_assoc, elem_of_app. by left.
  - rewrite !elem_of_app. auto.
Qed.

Lemma resize_core init vs p rs cs x bytes p' :
  core init vs p rs cs -> resize x bytes p = Ret p' ->
  core init vs p' rs cs /\ quiet p p' /\ items p' = items p.
Proof.
  intros H Hr. unfold resize in Hr. exc_inv. subst p'.
  match goal with H : assertOpenSlot _ _ = Ret ?s |- _ =>
    apply assertOpenSlot_ret in H as (Hs & Ho & Hst); rename s into s0 end.
  match goal with H : byte_count _ = Ret ?z |- _ => apply byte_count_ret in H as Hz; rename z into b end.
  case_decide as Hb; [by eapply unavailable_throws in H2|].
  split; [|split; [by split|done]].
  destruct (open_last _ _ _ _ _ _ H Ho) as (Hlast & Hx1 & Hx2). unfold update; cbn.
  assert (Hne : forall y, y ∈ rs ++ opt_list (microtask p) ++ cs -> y <> x).
  { intros y Hy ->. rewrite app_assoc, elem_of_app in Hy. tauto. }
  assert (Hsz : forall y, size_of (alter (slot_bytes b) x (p_slots p)) y = if decide (x = y) then b else size_of (p_slots p) y).
  { intros y. unfold size_of. rewrite alter_lookup. case_decide; [|done]. subst y. by rewrite Hs. }
  match goal with |- core _ _ ?q _ _ => assert (Hlive : live q rs cs = live p rs cs) by done end.
  destruct H; split; rewrite ?Hlive; cbn; try done.
  - intros y. by rewrite alter_is_some, alter_size.
  - intros y Hy. rewrite has_alter_ne by (intros ->; done). auto.
  - intros y Hy. rewrite has_alter_ne by (intros ->; done). auto.
  - intros y Hy. rewrite ver_alter by done. destruct (core_open0 y Hy) as [(s & Hys & Hst') Hv].
    split; [|done]. apply has_alter. exists s. split; [done|]. by case_decide.
  - intros y s Hy. rewrite alter_lookup. case_decide; [|by apply core_pending0].
    destruct (p_slots p !! y) as [s'|] eqn:E; [|done]. cbn. intros [= <-]. by apply (core_pending0 y s').
  - intros y s Hy. rewrite alter_lookup, decide_False; [by apply core_gone0|].
    intros ->. apply Hy. rewrite Hlast. apply elem_of_app. right. by apply list_elem_of_singleton.
  - by rewrite map_ver_alter.
  - intros v. rewrite core_unsettled0. by setoid_rewrite ver_alter.
  - intros y y'. rewrite !ver_alter by done. auto.
  - intros y. rewrite ver_alter by done. auto.
  - intros v Hv. destruct (core_named0 v Hv) as (y & s & Hy & Hv' & Hst'). exists y.
    rewrite alter_lookup. case_decide as E; [|by exists s]. subst y. rewrite Hy. cbn. by exists (slot_bytes b s).
  - rewrite core_bytes0, Hlast, !(sum_of_app _ _ [x]). cbn [sum_of foldr]. rewrite Hsz, decide_True by done.
    rewrite (sum_of_ext (alter _ _ _) (p_slots p)).
    2:{ intros y Hy. rewrite Hsz, decide_False; [done|]. intros ->. by apply (Hne y). }
    assert (size_of (p_slots p) x = reservedBytes s0) as -> by (unfold size_of; by rewrite Hs). lia.
  - intros y. rewrite Hsz. by case_decide.
  - lia.
  - by rewrite map_val_alter.
Qed.

Lemma seqZ_snoc a n : 0 <= n -> seqZ a (n + 1) = seqZ a n ++ [a + n].
Proof. intros Hn. replace (n + 1) with (Z.of_nat (S (Z.to_nat n))) by lia. rewrite seqZ_S. do 2 f_equal; [|f_equal]; lia. Qed.

(** A commit, before the pump. *)
Lemma commit_core init vs p rs cs x s0 v :
  core init vs p rs cs -> assertOpenSlot x p = Ret s0 ->
  let p' := set_committedHighWater (version s0) (set_openReservation None
              (update x (slot_state committed ∘ slot_value v) p)) in
  core init (vs ++ [v]) p' rs (cs ++ [x]) /\ quiet p p' /\ items p' = items p.
Proof.
  intros H Hr p'. apply assertOpenSlot_ret in Hr as (Hs & Ho & Hst).
  split; [|split; [by split|done]].
  destruct (open_last _ _ _ _ _ _ H Ho) as (Hlast & Hx1 & Hx2).
  assert (Hne : forall y, y ∈ rs ++ opt_list (microtask p) ++ cs -> y <> x).
  { intros y Hy ->. rewrite app_assoc, elem_of_app in Hy. tauto. }
  assert (Hv0 : version s0 = committedHighWater p + 1).
  { destruct (core_open _ _ _ _ _ H x Ho) as [_ Hv]. unfold ver in Hv. by rewrite Hs in Hv. }
  assert (Hlive : live p' rs (cs ++ [x]) = live p rs cs).
  { rewrite Hlast. unfold live, p'; cbn. by rewrite app_nil_r, <-!app_assoc. }
  assert (Hval : forall y, y <> x -> val (alter (slot_state committed ∘ slot_value v) x (p_slots p)) y = val (p_slots p) y).
  { intros y Hy. unfold val. by rewrite lookup_alter_ne. }
  destruct H; split; rewrite ?Hlive; cbn; try done.
  - intros y. by rewrite alter_is_some, alter_size.
  - intros y Hy. rewrite has_alter_ne by (intros ->; done). auto.
  - intros y [Hy| ->%list_elem_of_singleton]%elem_of_app.
    + rewrite has_alter_ne by (intros ->; done). auto.
    + apply has_alter. exists s0. by rewrite decide_True.
  - intros y s Hy. rewrite alter_lookup. case_decide; [|by apply core_pending0].
    destruct (p_slots p !! y) as [s'|] eqn:E; [|done]. cbn. intros [= <-]. by apply (core_pending0 y s').
  - intros y s Hy. rewrite alter_lookup, decide_False; [by apply core_gone0|].
    intros ->. apply Hy. rewrite Hlast. apply elem_of_app. right. by apply list_elem_of_singleton.
  - lia.
  - rewrite map_ver_alter by done. rewrite app_assoc, fmap_app, core_versions0, Hv0. cbn.
    rewrite Z.add_sub_swap, seqZ_snoc by lia. f_equal. f_equal. unfold ver. rewrite Hs. cbn. lia.
  - intros w. rewrite core_unsettled0. by setoid_rewrite ver_alter.
  - intros y y'. rewrite !ver_alter by done. auto.
  - intros y. rewrite ver_alter by done. auto.
  - intros w Hw. destruct (core_named0 w Hw) as (y & s & Hy & Hv' & Hst'). exists y.
    rewrite alter_lookup. case_decide as E; [|by exists s]. subst y. rewrite Hy. cbn.
    exists (slot_state committed (slot_value v s)). split_and!; [done|done|].
    rewrite Hs in Hy. injection Hy as <-. rewrite Hst in Hst'. destruct Hst' as [|?]; [done|].
    exfalso. apply Hx1, elem_of_app. by left.
  - by rewrite sum_alter.
  - intros y. by rewrite size_alter.
  - rewrite app_assoc, fmap_app. cbn. rewrite (list_fmap_ext _ (val (p_slots p)) (opt_list (microtask p) ++ cs)).
    2:{ intros i y Hy. apply Hval, Hne, elem_of_app. right. apply list_elem_of_lookup. by exists i. }
    rewrite app_assoc, core_values0, fmap_app. cbn. f_equal. unfold val. by rewrite alter_lookup, decide_True, Hs.
Qed.

(** ** Detaching a slot *)

(** A canceled or settled slot leaves the list; its promise settles. *)
Lemma cancel_core init vs p rs cs x s0 :
  core init vs p rs cs -> assertOpenSlot x p = Ret s0 ->
  let p' := update x (slot_complete Completed)
              (detach x (set_openReservation None (update x (slot_state canceled) p))) in
  core init vs p' rs cs /\ quiet p p' /\ items p' = items p - 1.
Proof.
  intros H Hr p'. apply assertOpenSlot_ret in Hr as (Hs & Ho & Hst).
  split; [|split; [by split|done]].
  destruct (open_last _ _ _ _ _ _ H Ho) as (Hlast & Hx1 & Hx2).
  set (l := rs ++ opt_list (microtask p) ++ cs) in *.
  assert (Hne : forall y, y ∈ l -> y <> x).
  { intros y Hy ->. unfold l in Hy. rewrite app_assoc, elem_of_app in Hy. tauto. }
  assert (Hlive : live p' rs cs = l) by (unfold live, p', l; cbn; by rewrite app_nil_r).
  destruct (detach_links (p_list p) l x []) as [Hl Hn].
  { rewrite <-Hlast. apply (core_list _ _ _ _ _ H). }
  { rewrite <-Hlast. apply (core_next _ _ _ _ _ H). }
  rewrite app_nil_r in Hl, Hn.
  set (m' := alter (slot_complete Completed) x (alter (slot_state canceled) x (p_slots p))).
  assert (Hm' : forall y, m' !! y = if decide (x = y) then Some (slot_complete Completed (slot_state canceled s0))
                  else p_slots p !! y).
  { intros y. unfold m'. rewrite !alter_lookup. case_decide; [|done]. subst y. by rewrite Hs. }
  assert (Hsz : size_of (alter (slot_state canceled) x (p_slots p)) x = reservedBytes s0).
  { rewrite size_alter by done. unfold size_of. by rewrite Hs. }
  assert (Hver : forall y, ver m' y = ver (p_slots p) y) by (intros y; unfold m'; by rewrite !ver_alter).
  destruct H; split; rewrite ?Hlive; cbn; fold m'; try done.
  - intros y. unfold m'. by rewrite !alter_is_some, !alter_size.
  - intros y Hy. unfold m'. rewrite !has_alter_ne by (intros ->; done). auto.
  - intros y Hy. unfold m'. rewrite !has_alter_ne by (intros ->; done). auto.
  - intros y s Hy. rewrite Hm', decide_False by (intros ->; by apply (Hne y)).
    apply core_pending0. rewrite Hlast. apply elem_of_app. by left.
  - intros y s Hy. rewrite Hm'. case_decide as E.
    + intros [= <-]. cbn. auto.
    + apply core_gone0. rewrite Hlast, elem_of_app, list_elem_of_singleton. intros [|]; [done|congruence].
  - unfold m'. by rewrite !map_ver_alter.
  - intros w. rewrite core_unsettled0. by setoid_rewrite Hver.
  - intros y y'. rewrite !Hver. auto.
  - intros y. rewrite Hver. auto.
  - intros w Hw. destruct (core_named0 w Hw) as (y & s & Hy & Hv' & Hst'). exists y, s. split; [|done].
    rewrite Hm', decide_False; [done|]. intros <-. rewrite Hs in Hy. injection Hy as <-. rewrite Hst in Hst'.
    destruct Hst' as [|?]; [done|]. apply Hx1, elem_of_app. by left.
  - rewrite core_items0, Hlast, length_app. cbn. lia.
  - unfold m'. rewrite !sum_alter by done. rewrite core_bytes0, Hlast, sum_of_app. cbn [sum_of foldr].
    change (default 0 (reservedBytes <$> alter (slot_state canceled) x (p_slots p) !! x))
      with (size_of (alter (slot_state canceled) x (p_slots p)) x).
    rewrite Hsz. unfold size_of at 1. rewrite Hs. cbn. lia.
  - intros y. unfold m'. by rewrite !size_alter.
  - change (default 0 (reservedBytes <$> alter (slot_state canceled) x (p_slots p) !! x))
      with (size_of (alter (slot_state canceled) x (p_slots p)) x). rewrite Hsz.
    specialize (core_positive0 x). unfold size_of in core_positive0. rewrite Hs in core_positive0. cbn in *. lia.
  - unfold m'. by rewrite !map_val_alter.
Qed.

(** ** The high-water mark of settled slots *)

Lemma advance_spec started unsettled : forall fuel water,
  water <= started -> (Z.to_nat (started - water) <= fuel)%nat ->
  water <= advance fuel started unsettled water <= started /\
  (forall v, water < v <= advance fuel started unsettled water -> v ∉ unsettled) /\
  (advance fuel started unsettled water = started \/ advance fuel started unsettled water + 1 ∈ unsettled).
Proof.
  induction fuel as [|fuel IH]; intros water Hw Hf; cbn [advance].
  - split_and!; [lia|lia|intros; lia|left; lia].
  - destruct (bool_decide _ && negb _) eqn:E.
    + apply andb_true_iff in E as [E1%bool_decide_eq_true E2%negb_true_iff%bool_decide_eq_false].
      destruct (IH (water + 1)) as ([? ?] & Hu & He); [lia|lia|]. split_and!; [lia|lia| |done].
      intros v Hv. destruct (decide (v = water + 1)) as [->|]; [done|]. apply Hu. lia.
    + apply andb_false_iff in E. rewrite bool_decide_eq_false, negb_false_iff, bool_decide_eq_true in E.
      split_and!; [lia|lia|intros; lia|]. destruct E; [left; lia|by right].
Qed.

Lemma begin_core init vs p rs cs x :
  core init vs p rs cs -> microtask p = Some x -> core init vs (begin x p) (rs ++ [x]) cs.
Proof.
  intros H Hm. destruct (core_processing _ _ _ _ _ H x) as (s0 & Hs & Hst).
  { rewrite Hm. apply elem_of_app. right. by apply list_elem_of_singleton. }
  unfold begin. rewrite Hs.
  pose proof (core_versions _ _ _ _ _ H) as Hvs. rewrite Hm in Hvs. cbn in Hvs.
  assert (Hlt : 0 < committedHighWater p - startedHighWater p).
  { destruct (decide (0 < committedHighWater p - startedHighWater p)); [done|].
    rewrite seqZ_nil in Hvs by lia. discriminate. }
  rewrite seqZ_cons in Hvs by done. injection Hvs as Hvx Hvs.
  assert (Hv0 : version s0 = startedHighWater p + 1) by (unfold ver in Hvx; by rewrite Hs in Hvx).
  assert (Hv0' : ver (p_slots p) x = startedHighWater p + 1) by done. rewrite Hv0.
  match goal with |- core _ _ ?q _ _ => assert (Hlive : live q (rs ++ [x]) cs = live p rs cs) end.
  { unfold live. rewrite Hm. cbn. by rewrite <-app_assoc. }
  destruct H; split; rewrite ?Hlive; cbn; try done.
  - intros y Hy. rewrite app_nil_r in Hy. apply core_processing0. rewrite Hm. done.
  - lia.
  - lia.
  - rewrite Hvs. f_equal; lia.
  - intros v. rewrite elem_of_union, elem_of_singleton, core_unsettled0. split.
    + intros [->|(y & Hy & <-)]; [exists x|exists y]; rewrite elem_of_app, list_elem_of_singleton; auto.
    + intros (y & Hy & <-). rewrite elem_of_app, list_elem_of_singleton in Hy. destruct Hy as [Hy| ->]; [right|left]; eauto.
  - intros y y' Hy Hy'. rewrite !elem_of_app, !list_elem_of_singleton in Hy, Hy'.
    destruct Hy as [Hy| ->], Hy' as [Hy'| ->]; auto; intros E.
    + apply core_started0 in Hy. lia.
    + apply core_started0 in Hy'. lia.
  - intros y Hy. rewrite elem_of_app, list_elem_of_singleton in Hy. destruct Hy as [Hy| ->]; [|lia].
    apply core_started0 in Hy. lia.
  - intros v Hv. rewrite not_elem_of_union, not_elem_of_singleton. split; [lia|by apply core_settled0].
  - rewrite elem_of_union, elem_of_singleton. right.
    destruct core_exact0 as [->|?]; [by left|by right].
  - intros v Hv. destruct (decide (v = startedHighWater p + 1)) as [->|].
    + exists x, s0. split_and!; [done..|]. right. apply elem_of_app. right. by apply list_elem_of_singleton.
    + destruct (core_named0 v) as (y & s & Hy & Hv' & Hst'); [lia|]. exists y, s. rewrite elem_of_app. tauto.
  - rewrite length_app. cbn. lia.
  - rewrite fmap_app, core_log0. cbn.
    replace (startedHighWater p + 1 - init) with (startedHighWater p - init + 1) by lia.
    rewrite seqZ_snoc by lia. do 2 f_equal. lia.
  - rewrite fmap_app. cbn. rewrite <-app_assoc. cbn. rewrite Hm in core_values0. cbn in core_values0.
    rewrite <-core_values0. do 2 f_equal. unfold val. by rewrite Hs.
Qed.

Lemma settle_core init vs p a x b cs error :
  core init vs p (a ++ x :: b) cs ->
  core init vs (settle_slot x error p) (a ++ b) cs /\ quiet p (settle_slot x error p) /\
  items (settle_slot x error p) = items p - 1 /\
  (exists s, p_slots (settle_slot x error p) !! x = Some s /\ state s = settled).
Proof.
  intros H. destruct (core_processing _ _ _ _ _ H x) as (s0 & Hs & Hst).
  { rewrite <-app_assoc. apply elem_of_app. right. apply list_elem_of_here. }
  unfold settle_slot. rewrite Hs.
  set (u := unsettledVersions p ∖ {[version s0]}).
  set (w := advance _ _ _ _).
  set (c := match error with None => Completed | Some reason => Failed reason end).
  set (m' := alter (slot_complete c) x (alter (slot_state settled) x (p_slots p))).
  assert (Hm' : forall y, m' !! y = if decide (x = y) then Some (slot_complete c (slot_state settled s0)) else p_slots p !! y).
  { intros y. unfold m'. rewrite !alter_lookup. case_decide; [|done]. subst y. by rewrite Hs. }
  assert (Hver : forall y, ver m' y = ver (p_slots p) y) by (intros y; unfold m'; by rewrite !ver_alter).
  pose proof (core_nodup _ _ _ _ _ H) as Hnd.
  set (r := opt_list (microtask p) ++ cs ++ opt_list (openReservation p)) in *.
  assert (Hlast : live p (a ++ x :: b) cs = a ++ x :: (b ++ r)).
  { unfold live. fold r. by rewrite <-app_assoc. }
  rewrite Hlast in Hnd.
  assert (Hx : x ∉ a ++ b ++ r).
  { apply NoDup_app in Hnd as (_ & Hd & [Hx _]%NoDup_cons). intros [Hin|Hin]%elem_of_app; [|done].
    apply (Hd x Hin), list_elem_of_here. }
  rewrite !elem_of_app in Hx.
  destruct (detach_links (p_list p) a x (b ++ r)) as [Hl Hn].
  { rewrite <-Hlast. apply (core_list _ _ _ _ _ H). }
  { rewrite <-Hlast. apply (core_next _ _ _ _ _ H). }
  assert (Hsz : size_of (alter (slot_state settled) x (p_slots p)) x = reservedBytes s0).
  { rewrite size_alter by done. unfold size_of. by rewrite Hs. }
  assert (Hv0 : ver (p_slots p) x = version s0) by (unfold ver; by rewrite Hs).
  destruct (advance_spec (startedHighWater p) u (Z.to_nat (startedHighWater p - settledHighWater p))
    (settledHighWater p)) as (Hw1 & Hw2 & Hw3); [apply (core_water _ _ _ _ _ H)|done|].
  change (advance _ _ _ _) with w in Hw1, Hw2, Hw3.
  match goal with |- core _ _ ?q _ _ /\ _ => set (p' := q) end.
  assert (Hp' : p_list p' = dll_clear (dll_detach (p_list p) x) x /\ p_slots p' = m' /\
    openReservation p' = openReservation p /\ microtask p' = microtask p /\ items p' = items p - 1 /\
    p_bytes p' = p_bytes p - reservedBytes s0 /\ committedHighWater p' = committedHighWater p /\
    settledHighWater p' = w /\ startedHighWater p' = startedHighWater p /\ unsettledVersions p' = u /\
    processed p' = processed p + 1 /\ p_limits p' = p_limits p /\ p_log p' = p_log p).
  { rewrite <-Hsz. unfold p', m', c. destruct error; done. }
  assert (Hq : quiet p p') by (unfold p'; destruct error; by split).
  destruct Hp' as (E1 & E2 & E3 & E4 & E5 & E6 & E7 & E8 & E9 & E10 & E11 & E12 & E13).
  assert (Hlive : live p' (a ++ b) cs = a ++ b ++ r) by (unfold live; rewrite E3, E4; by rewrite <-app_assoc).
  split; [|split_and!; [done|done|rewrite E2, Hm', decide_True by done; by eexists]].
  destruct H; split; rewrite ?Hlive, ?E1, ?E2, ?E3, ?E4, ?E5, ?E6, ?E7, ?E8, ?E9, ?E10, ?E11, ?E12, ?E13; try done.
  - intros y. unfold m'. by rewrite !alter_is_some, !alter_size.
  - intros y Hy. unfold m'. rewrite !has_alter_ne.
    2,3: intros <-; rewrite !elem_of_app in Hy; unfold r in Hx; rewrite !elem_of_app in Hx; tauto.
    apply core_processing0. rewrite !elem_of_app, elem_of_cons. rewrite !elem_of_app in Hy. tauto.
  - intros y Hy. unfold m'. rewrite !has_alter_ne by (intros <-; unfold r in Hx; rewrite !elem_of_app in Hx; tauto). auto.
  - intros y Hy. assert (x <> y).
    { intros <-. apply Hx. right; right. unfold r. rewrite !elem_of_app. right; right. rewrite Hy. apply list_elem_of_here. }
    unfold m'. rewrite !has_alter_ne by done. fold m'. rewrite Hver. by apply core_open0.
  - intros y s Hy. rewrite Hm', decide_False by (intros <-; rewrite !elem_of_app in Hy; tauto).
    apply core_pending0. rewrite Hlast. rewrite elem_of_app, elem_of_cons. rewrite elem_of_app in Hy. tauto.
  - intros y s Hy. rewrite Hm'. case_decide as E.
    + intros [= <-]. cbn. split; [auto|]. unfold c. by destruct error.
    + apply core_gone0. rewrite Hlast, elem_of_app, elem_of_cons. rewrite elem_of_app in Hy.
      intros [|[->|]]; tauto.
  - lia.
  - unfold m'. by rewrite !map_ver_alter.
  - intros v. unfold u. rewrite elem_of_difference, not_elem_of_singleton, core_unsettled0. split.
    + intros [(y & Hy & <-) Hne]. exists y. rewrite Hver. split; [|done].
      rewrite elem_of_app, elem_of_cons in Hy. rewrite elem_of_app. destruct Hy as [|[->|]]; [tauto|congruence|tauto].
    + intros (y & Hy & <-). rewrite Hver. rewrite elem_of_app in Hy.
      assert (y ∈ a ++ x :: b) by (rewrite elem_of_app, elem_of_cons; tauto). split; [by exists y|].
      rewrite <-Hv0. intros E. apply core_distinct0 in E; [subst; tauto|done|].
      rewrite elem_of_app, elem_of_cons. auto.
  - intros y y' Hy Hy'. rewrite !Hver. rewrite elem_of_app in Hy, Hy'.
    apply core_distinct0; rewrite elem_of_app, elem_of_cons; tauto.
  - intros y Hy. rewrite Hver. apply core_started0. rewrite elem_of_app, elem_of_cons. rewrite elem_of_app in Hy. tauto.
  - intros v Hv. destruct (decide (v <= settledHighWater p)); [|apply Hw2; lia].
    unfold u. intros [Hin _]%elem_of_difference. eapply core_settled0; [|exact Hin]. lia.
  - intros v Hv. destruct (core_named0 v Hv) as (y & s & Hy & Hv' & Hst').
    destruct (decide (x = y)) as [<-|Hne].
    + exists x, (slot_complete c (slot_state settled s0)). rewrite Hm', decide_True by done.
      rewrite Hs in Hy. injection Hy as <-. split_and!; [done|done|by left].
    + exists y, s. rewrite Hm', decide_False by done. split_and!; [done|done|].
      rewrite elem_of_app, elem_of_cons in Hst'. rewrite elem_of_app.
      destruct Hst' as [|[|[|]]]; [tauto|tauto|congruence|tauto].
  - rewrite core_processed0, !length_app. cbn. lia.
  - rewrite core_items0, Hlast, !length_app. cbn. rewrite length_app. lia.
  - unfold m'. rewrite !sum_alter by done. rewrite core_bytes0, Hlast, !sum_of_app. cbn [sum_of foldr].
    fold (sum_of (p_slots p) (b ++ r)). rewrite sum_of_app.
    assert (size_of (p_slots p) x = reservedBytes s0) as -> by (unfold size_of; by rewrite Hs). lia.
  - intros y. unfold m'. by rewrite !size_alter.
  - specialize (core_positive0 x). unfold size_of in core_positive0. rewrite Hs in core_positive0. cbn in *. lia.
  - unfold m'. by rewrite !map_val_alter.
Qed.

(** ** Every step keeps the invariant *)

(** The fields of the event loop and of [close] are no part of the core. *)
Lemma core_loop_fields init vs p rs cs :
  core init vs p rs cs ->
  (forall b, core init vs (set_starting b p) rs cs) /\ (forall o, core init vs (set_calling o p) rs cs) /\
  (forall l, core init vs (set_settling l p) rs cs) /\ (forall o, core init vs (set_closePromise o p) rs cs) /\
  (forall b, core init vs (set_p_closed b p) rs cs).
Proof. intros H. split_and!; intros; destruct H; by split. Qed.

Definition close_pending p : Prop := closePromise p = if p_closed p then Some false else None.

Lemma resolve_inv init vs p rs cs :
  core init vs p rs cs -> owed p ≡ₚ rs -> length (starters p) = (if starting p then 1%nat else 0%nat) ->
  (starting p = false -> cs = []) -> close_pending p -> pub_inv init vs (resolveCloseIfDrained p) rs cs.
Proof.
  intros H Ho Hs Hi Hc. unfold resolveCloseIfDrained, close_pending in *.
  destruct (p_closed p) eqn:Ec; cbn.
  - destruct (bool_decide _) eqn:Ez; cbn.
    + split; cbn; [by apply core_loop_fields|done|done|done|]. by rewrite Hc, Ec, Ez.
    + split; cbn; [done|done|done|done|]. by rewrite Ec, Hc, Ez.
  - split; [done|done|done|done|]. by rewrite Ec, Hc.
Qed.

(** The pump restores that an idle publication has no committed slot. *)
Lemma pump_inv init vs p rs cs :
  core init vs p rs cs -> owed p ≡ₚ rs -> length (starters p) = (if starting p then 1%nat else 0%nat) ->
  exists cs', core init vs (pump p) rs cs' /\ owed (pump p) ≡ₚ rs /\
    length (starters (pump p)) = (if starting (pump p) then 1%nat else 0%nat) /\
    (starting (pump p) = false -> cs' = []) /\ same_loop p (pump p).
Proof.
  intros H Ho Hs. destruct (starting p) eqn:E.
  - exists cs. unfold pump. rewrite E. split_and!; [done|done|by rewrite E|by rewrite E|by split].
  - assert (Hm : microtask p = None) by (unfold starters in Hs; by destruct (microtask p)).
    destruct (pump_core _ _ _ _ _ H E Hm) as (Hc & Hm' & Hst & Hl). exists (tail cs).
    destruct Hl as [L1 L2 L3 L4 L5 L6]. unfold owed, starters in *. rewrite L1, L2, Hm', Hst in *. rewrite Hm in Hs.
    split_and!; [done|done| | |by split].
    + destruct cs; cbn in *; [done|]. by rewrite Hs.
    + by destruct cs.
Qed.

Lemma settle_inv init vs p a x b cs error :
  core init vs p (a ++ x :: b) cs -> owed p ≡ₚ a ++ b ->
  length (starters p) = (if starting p then 1%nat else 0%nat) -> close_pending p ->
  exists cs', pub_inv init vs (settle x error p) (a ++ b) cs'.
Proof.
  intros H Ho Hs Hc. unfold settle. destruct (settle_core init vs p a x b cs error H) as (Hc' & Hq & Hi & _).
  destruct Hq as [Q1 Q2 Q3 Q4 Q5 Q6].
  destruct (pump_inv init vs (settle_slot x error p) (a ++ b) cs) as (cs' & Hp & Hpo & Hps & Hpi & Hl); [done| | |].
  { unfold owed. by rewrite Q2, Q3. }
  { unfold starters. by rewrite Q1, Q2, Q3, Q4. }
  exists cs'. apply resolve_inv; [done..|]. destruct Hl. unfold close_pending. by rewrite sl_closed0, sl_promise0, Q5, Q6.
Qed.

Lemma live_pending init vs p rs cs x : pub_inv init vs p rs cs -> x ∈ live p rs cs -> close_pending p.
Proof.
  intros H Hx. unfold close_pending. rewrite (inv_close _ _ _ _ _ H). destruct (p_closed p); [|done].
  rewrite bool_decide_eq_false_2; [done|]. rewrite (core_items _ _ _ _ _ (inv_core _ _ _ _ _ H)).
  destruct (live p rs cs); [by apply not_elem_of_nil in Hx|cbn; lia].
Qed.

Lemma call_inv init vs p p' rs cs :
  pub_inv init vs p rs cs -> core init vs p' rs cs -> quiet p p' -> items p' = items p -> pub_inv init vs p' rs cs.
Proof.
  intros [Hc Ho Hs Hi Hcl] Hc' [Q1 Q2 Q3 Q4 Q5 Q6] E. split; unfold owed, starters in *.
  - done.
  - by rewrite Q2, Q3.
  - by rewrite Q1, Q2, Q3, Q4.
  - by rewrite Q1.
  - by rewrite Q5, Q6, E.
Qed.

Lemma reserve_inv init vs p rs cs bytes now x p' :
  pub_inv init vs p rs cs -> reserve bytes now p = Ret (x, p') -> pub_inv init vs p' rs cs.
Proof.
  intros [Hc Ho Hs Hi Hcl] Hr. destruct (reserve_core _ _ _ _ _ _ _ _ _ Hc Hr) as (Hc' & E1 & E2 & E3 & E4 & E5 & E6 & E7).
  split; unfold owed, starters in *; rewrite ?E1, ?E2, ?E3, ?E4, ?E5, ?E6; try done. by rewrite Hcl, E7.
Qed.

Lemma commit_inv init vs p rs cs x v p' :
  pub_inv init vs p rs cs -> commit x v p = Ret p' -> exists cs', pub_inv init (vs ++ [v]) p' rs cs'.
Proof.
  intros H Hr. unfold commit in Hr. exc_inv. subst p'. rename x0 into s0.
  destruct (assertOpenSlot_ret _ _ _ H0) as (Hs0 & Hop & _).
  destruct (commit_core _ _ _ _ _ _ _ v (inv_core _ _ _ _ _ H) H0) as (Hc & Hq & Hi).
  set (q := set_committedHighWater _ _) in *.
  assert (Hp : close_pending p).
  { eapply live_pending; [done|]. destruct (open_last _ _ _ _ _ _ (inv_core _ _ _ _ _ H) Hop) as (-> & _).
    apply elem_of_app. right. by apply list_elem_of_singleton. }
  destruct H as [Hc0 Ho Hs Hidle Hcl]. destruct Hq as [Q1 Q2 Q3 Q4 Q5 Q6].
  destruct (pump_inv init (vs ++ [v]) q rs (cs ++ [x])) as (cs' & Hp1 & Hp2 & Hp3 & Hp4 & Hl); [done| | |].
  { unfold owed. by rewrite Q2, Q3. }
  { unfold starters. by rewrite Q1, Q2, Q3, Q4. }
  exists cs'. destruct Hl. split; try done. rewrite sl_promise0, sl_closed0, sl_items0, Q5, Q6, Hi. done.
Qed.

Lemma cancel_inv init vs p rs cs x p' :
  pub_inv init vs p rs cs -> cancel x p = Ret p' -> pub_inv init vs p' rs cs.
Proof.
  intros H Hr. unfold cancel in Hr. exc_inv. subst p'.
  destruct (assertOpenSlot_ret _ _ _ H0) as (Hs0 & Hop & _).
  destruct (cancel_core _ _ _ _ _ _ _ (inv_core _ _ _ _ _ H) H0) as (Hc & Hq & Hi).
  assert (Hp : close_pending p).
  { eapply live_pending; [done|]. destruct (open_last _ _ _ _ _ _ (inv_core _ _ _ _ _ H) Hop) as (-> & _).
    apply elem_of_app. right. by apply list_elem_of_singleton. }
  destruct H as [Hc0 Ho Hs Hidle Hcl]. destruct Hq as [Q1 Q2 Q3 Q4 Q5 Q6].
  apply resolve_inv; unfold owed, starters, close_pending in *; rewrite ?Q1, ?Q2, ?Q3, ?Q4, ?Q5, ?Q6; done.
Qed.

Lemma close_inv init vs p rs cs : pub_inv init vs p rs cs -> pub_inv init vs (close p) rs cs.
Proof.
  intros H. unfold close. destruct (closePromise p) eqn:E; [done|].
  destruct H as [Hc Ho Hs Hi Hcl]. apply resolve_inv; try done.
  apply core_loop_fields. by apply core_loop_fields.
Qed.

Lemma begin_inv init vs p rs cs x :
  pub_inv init vs p rs cs -> microtask p = Some x -> pub_inv init vs (begin x p) (rs ++ [x]) cs.
Proof.
  intros [Hc Ho Hs Hi Hcl] Hm. pose proof (begin_core _ _ _ _ _ _ Hc Hm) as Hb.
  destruct (core_processing _ _ _ _ _ Hc x) as (s0 & Hs0 & Hst).
  { rewrite Hm. apply elem_of_app. right. by apply list_elem_of_singleton. }
  unfold begin in *. rewrite Hs0 in *. unfold owed, starters in *. rewrite Hm in Hs. cbn in Hs.
  destruct (calling p) eqn:Ec; [by destruct (starting p)|]. cbn in *.
  split; unfold owed, starters; cbn; try done. rewrite Ho. by rewrite Permutation_app_comm.
Qed.

Lemma answered_inv init vs p rs cs x a :
  pub_inv init vs p rs cs -> calling p = Some x -> exists rs' cs', pub_inv init vs (answered x a p) rs' cs'.
Proof.
  intros H Hca. pose proof H as [Hc Ho Hs Hi Hcl]. unfold owed, starters in Ho, Hs. rewrite Hca in Ho, Hs. cbn in Ho, Hs.
  assert (Hx : x ∈ rs) by (rewrite <-Ho; apply list_elem_of_here).
  assert (Hm : microtask p = None) by (destruct (microtask p); [|done]; by destruct (starting p)).
  rewrite Hm in Hs. cbn in Hs.
  assert (Hp : close_pending p) by (eapply live_pending; [done|]; unfold live; apply elem_of_app; by left).
  destruct a as [reason| |]; unfold answered.
  - apply list_elem_of_split in Hx as (l1 & l2 & ->). exists (l1 ++ l2).
    eapply settle_inv; unfold owed, starters, close_pending; cbn.
    + apply core_loop_fields. by apply core_loop_fields.
    + rewrite <-Permutation_middle in Ho. by apply Permutation_cons_inv in Ho.
    + rewrite Hm. cbn. destruct (starting p); lia.
    + done.
  - destruct (pump_inv init vs (set_settling ((x, true) :: settling p) (set_starting false (set_calling None p))) rs cs)
      as (cs' & Hp1 & Hp2 & Hp3 & Hp4 & Hl).
    + apply core_loop_fields. apply core_loop_fields. by apply core_loop_fields.
    + unfold owed; cbn. done.
    + change (length (opt_list (microtask p) ++ [] ++ (filter (fun y => y.2 = false) ((x, true) :: settling p)).*1) = 0%nat).
      rewrite Hm, filter_cons, decide_False by done. cbn. destruct (starting p); lia.
    + exists rs, cs'. change (pub_inv init vs (pump (set_settling ((x, true) :: settling p) (set_starting false
        (set_calling None p)))) rs cs').
      destruct Hl as [_ _ L3 L4 L5 _]. split; [done..|]. by rewrite L3, L4, L5.
  - exists rs, cs. split; try done.
    + apply core_loop_fields. by apply core_loop_fields.
    + change (length (opt_list (microtask p) ++ [] ++ (filter (fun y => y.2 = false) ((x, false) :: settling p)).*1)
        = if starting p then 1%nat else 0%nat).
      rewrite Hm, filter_cons, decide_True by done. done.
Qed.

Lemma owed_nodup init vs p rs cs : pub_inv init vs p rs cs -> NoDup (owed p).
Proof.
  intros H. rewrite (inv_owed _ _ _ _ _ H). pose proof (core_nodup _ _ _ _ _ (inv_core _ _ _ _ _ H)) as Hn.
  unfold live in Hn. by apply NoDup_app in Hn as [Hn _].
Qed.

Lemma promise_inv init vs p rs cs x error :
  pub_inv init vs p rs cs -> x ∈ (settling p).*1 ->
  exists rs' cs', pub_inv init vs (promise_settles x error p) rs' cs'.
Proof.
  intros H Hx. pose proof (owed_nodup _ _ _ _ _ H) as Hn. pose proof H as [Hc Ho Hs Hi Hcl].
  assert (Hrs : x ∈ rs) by (rewrite <-Ho; unfold owed; apply elem_of_app; by right).
  assert (Hp : close_pending p) by (eapply live_pending; [done|]; unfold live; apply elem_of_app; by left).
  apply list_elem_of_fmap in Hx as ([x' h] & -> & Hx). cbn in *.
  apply list_elem_of_split in Hx as (l1 & l2 & El). unfold owed in Hn, Ho. rewrite El, fmap_app in Hn, Ho. cbn in Hn, Ho.
  apply NoDup_app in Hn as (_ & _ & Hn). apply NoDup_app in Hn as (_ & Hd & [Hx2 _]%NoDup_cons).
  assert (Hx1 : x' ∉ l1.*1) by (intros Hin; apply (Hd _ Hin), list_elem_of_here).
  assert (Hf : filter (fun y : nat * bool => y.1 <> x') (settling p) = l1 ++ l2).
  { rewrite El, filter_app, filter_cons, decide_False by (cbn; tauto).
    f_equal; apply filter_all; intros y Hy E; [apply Hx1|apply Hx2]; rewrite <-E; by apply list_elem_of_fmap_2. }
  assert (Hh : bool_decide ((x', true) ∈ settling p) = h).
  { rewrite El. destruct h.
    - apply bool_decide_eq_true, elem_of_app. right. apply list_elem_of_here.
    - apply bool_decide_eq_false. rewrite elem_of_app, elem_of_cons. intros [Hin|[[=]|Hin]];
        [apply Hx1|apply Hx2]; by apply (list_elem_of_fmap_2 fst) in Hin. }
  apply list_elem_of_split in Hrs as (r1 & r2 & ->). exists (r1 ++ r2). unfold promise_settles. rewrite Hf, Hh.
  assert (Hrest : opt_list (calling p) ++ (l1 ++ l2).*1 ≡ₚ r1 ++ r2).
  { apply (Permutation_cons_inv (a := x')). etrans; [|symmetry; apply Permutation_middle]. rewrite <-Ho, fmap_app.
    etrans; [apply Permutation_middle|]. apply Permutation_app_head, Permutation_middle. }
  unfold starters in Hs. rewrite El, filter_app, filter_cons in Hs.
  destruct h; cbn in Hs; (eapply settle_inv; [..|done]).
  - by apply core_loop_fields.
  - done.
  - unfold starters; cbn. by rewrite filter_app.
  - apply core_loop_fields. by apply core_loop_fields.
  - done.
  - assert (Hz : length (starters (set_starting false (set_settling (l1 ++ l2) p))) = 0%nat); [|done].
    unfold starters; cbn. rewrite filter_app. rewrite fmap_app in *. rewrite !length_app in *.
    rewrite decide_True in Hs by done. cbn in Hs. destruct (starting p); lia.
Qed.

Lemma step_inv init vs p rs cs e p' :
  pub_inv init vs p rs cs -> step e p = Some p' ->
  exists rs' cs', pub_inv init (vs ++ commits [e]) p' rs' cs'.
Proof.
  intros H Hs. destruct e as [bytes now|x bytes|x v|x| | |a|x error]; cbn in *; rewrite ?app_nil_r.
  - destruct (reserve bytes now p) as [[x q]|] eqn:E; [|done]. injection Hs as <-.
    do 2 eexists. by eapply reserve_inv.
  - destruct (resize x bytes p) as [q|] eqn:E; [|done]. injection Hs as <-.
    destruct (resize_core _ _ _ _ _ _ _ _ (inv_core _ _ _ _ _ H) E) as (?&?&?). do 2 eexists. by eapply call_inv.
  - destruct (commit x v p) as [q|] eqn:E; [|done]. injection Hs as <-. eexists. by eapply commit_inv.
  - destruct (cancel x p) as [q|] eqn:E; [|done]. injection Hs as <-. do 2 eexists. by eapply cancel_inv.
  - injection Hs as <-. do 2 eexists. by apply close_inv.
  - apply bind_Some in Hs as (x & Hm & [= <-]). do 2 eexists. by apply begin_inv.
  - apply bind_Some in Hs as (x & Hm & [= <-]). by eapply answered_inv.
  - case_bool_decide; [|done]. injection Hs as <-. by eapply promise_inv.
Qed.

Lemma steps_inv init es : forall vs p rs cs p',
  pub_inv init vs p rs cs -> steps es p = Some p' ->
  exists rs' cs', pub_inv init (vs ++ commits es) p' rs' cs'.
Proof.
  induction es as [|e es IH]; intros vs p rs cs p' H Hs; cbn in Hs.
  - injection Hs as <-. exists rs, cs. by rewrite app_nil_r.
  - apply bind_Some in Hs as (q & He & Hs). destruct (step_inv _ _ _ _ _ _ _ H He) as (rs1 & cs1 & H1).
    destruct (IH _ _ _ _ _ H1 Hs) as (rs2 & cs2 & H2). exists rs2, cs2.
    replace (vs ++ commits (e :: es)) with ((vs ++ commits [e]) ++ commits es); [done|].
    rewrite <-app_assoc. by destruct e.
Qed.

Lemma new_inv limits initial p :
  new_OrderedPublication limits initial = Ret p -> pub_inv (default 0 initial) [] p [] [].
Proof.
  intros H. unfold new_OrderedPublication in H. exc_inv. subst p.
  match goal with H : validateCapacityLimits _ _ = Ret ?l |- _ => rename H into Hv; rename l into lim end.
  assert (Hl : 0 < maxItems lim /\ 0 < maxBytes lim).
  { unfold validateCapacityLimits in Hv. exc_inv. subst lim. cbn.
    by repeat match goal with H : positiveSafeInteger _ _ = Ret _ |- _ => apply positiveSafeInteger_ret in H as [_ ?] end. }
  split; [|done..]. split; cbn; try done; try lia.
  - apply dll_repr_empty.
  - intros y. rewrite lookup_empty, map_size_empty. split; [by intros [? ?]|lia].
  - intros y Hy. by apply not_elem_of_nil in Hy.
  - intros y Hy. by apply not_elem_of_nil in Hy.
  - by rewrite seqZ_nil by lia.
  - intros v. split; [set_solver|]. intros (y & Hy & _). by apply not_elem_of_nil in Hy.
  - intros y y' Hy. by apply not_elem_of_nil in Hy.
  - intros y Hy. by apply not_elem_of_nil in Hy.
  - by rewrite seqZ_nil by lia.
Qed.

(** The states a publication can reach, and the values committed on the way. *)
Definition reaches (limits : CapacityLimits num) (initial : option Z) (es : list (Event T)) p : Prop :=
  exists p0, new_OrderedPublication limits initial = Ret p0 /\ steps es p0 = Some p.

Lemma reaches_inv limits initial es p :
  reaches limits initial es p -> exists rs cs, pub_inv (default 0 initial) (commits es) p rs cs.
Proof.
  intros (p0 & H0 & Hs). apply new_inv in H0. by destruct (steps_inv _ _ _ _ _ _ _ H0 Hs) as (rs & cs & H); eauto.
Qed.
End invariant.
