(* ===== verification/PublicationProps.v ===== *)
(** What ordered publication promises: commit order, capacity, an exact
    high-water mark, single settlement, draining. *)
From S2P Require Import Prelude Errors Limits Dll Publication PublicationInv.
Local Open Scope Z_scope.

Section properties.
Context {T : Type}.
Implicit Types (p : OrderedPublication T) (s : Slot T).

Definition unfinished s : bool :=
  match state s with reserved | committed | processing => true | settled | canceled => false end.

Lemma live_unfinished init vs p rs cs x : core init vs p rs cs ->
  x ∈ live p rs cs <-> exists s, p_slots p !! x = Some s /\ unfinished s = true.
Proof.
  intros H. split.
  - unfold live. rewrite app_assoc, elem_of_app. intros [Hx|[Hx|Hx]%elem_of_app].
    + destruct (core_processing _ _ _ _ _ H _ Hx) as (s & Hs & Hst). exists s. unfold unfinished. by rewrite Hst.
    + destruct (core_committed _ _ _ _ _ H _ Hx) as (s & Hs & Hst). exists s. unfold unfinished. by rewrite Hst.
    + destruct (openReservation p) as [y|] eqn:E; [|by apply not_elem_of_nil in Hx].
      apply list_elem_of_singleton in Hx as ->.
      destruct (core_open _ _ _ _ _ H _ E) as [(s & Hs & Hst) _]. exists s. unfold unfinished. by rewrite Hst.
  - intros (s & Hs & Hu). destruct (decide (x ∈ live p rs cs)) as [|Hn]; [done|].
    destruct (core_gone _ _ _ _ _ H x s Hn Hs) as [[E|E] _]; unfold unfinished in Hu; by rewrite E in Hu.
Qed.

Lemma zip_fst_snd {A B} (l : list (A * B)) : l = zip (l.*1) (l.*2).
Proof. induction l as [|[a b] l IH]; cbn; [done|]. by f_equal. Qed.

(** The log and the marks, in terms of what was committed. *)
Lemma core_marks init vs p rs cs : core init vs p rs cs ->
  committedHighWater p = init + Z.of_nat (length vs) /\
  p_log p = zip (seqZ (init + 1) (startedHighWater p - init))
              (Some <$> take (Z.to_nat (startedHighWater p - init)) vs).
Proof.
  intros H. pose proof (core_log _ _ _ _ _ H) as Hl. pose proof (core_values _ _ _ _ _ H) as Hv.
  pose proof (core_versions _ _ _ _ _ H) as Hvs. pose proof (core_water _ _ _ _ _ H) as Hw.
  pose proof (core_high _ _ _ _ _ H) as Hh.
  assert (Hk : length (p_log p) = Z.to_nat (startedHighWater p - init)).
  { rewrite <-(length_fmap fst), Hl. apply length_seqZ. }
  split.
  - assert (Hc : length (opt_list (microtask p) ++ cs) = Z.to_nat (committedHighWater p - startedHighWater p)).
    { rewrite <-(length_fmap (ver (p_slots p))), Hvs. apply length_seqZ. }
    apply (f_equal length) in Hv. rewrite length_app, !length_fmap in Hv. lia.
  - rewrite (zip_fst_snd (p_log p)), Hl. f_equal. rewrite fmap_take, <-Hv.
    by rewrite take_app_length' by (rewrite length_fmap; lia).
Qed.

(** C16: publications are processed in commit order, each once: at any time the
    calls of [process] are the first committed values, with consecutive
    versions from the initial one on, and the version committed last counts the
    commits. *)
Theorem published_in_order limits initial es p (H : reaches limits initial es p) :
  let init := default 0 initial in
  committedHighWater p = init + Z.of_nat (length (commits es)) /\
  exists k, (k <= length (commits es))%nat /\ startedHighWater p = init + Z.of_nat k /\
    p_log p = zip (seqZ (init + 1) (Z.of_nat k)) (Some <$> take k (commits es)).
Proof.
  intros init. destruct (reaches_inv _ _ _ _ H) as (rs & cs & [Hc _ _ _ _]).
  destruct (core_marks _ _ _ _ _ Hc) as [Hm Hl]. fold init in Hm, Hl. split; [done|].
  pose proof (core_water _ _ _ _ _ Hc). pose proof (core_high _ _ _ _ _ Hc).
  exists (Z.to_nat (startedHighWater p - init)). split_and!; [lia|lia|]. by rewrite Hl, Z2Nat.id by lia.
Qed.

(** C32: the counters are those of the unfinished slots and stay within the
    configured capacity, whatever is reserved, resized, committed or canceled. *)
Theorem publication_within_capacity limits initial es p (H : reaches limits initial es p) :
  exists l, dll_repr (p_list p) l /\
    (forall x, x ∈ l <-> exists s, p_slots p !! x = Some s /\ unfinished s = true) /\
    items p = Z.of_nat (length l) /\ p_bytes p = sum_of (p_slots p) l /\
    items p <= maxItems (p_limits p) /\ 0 <= p_bytes p <= maxBytes (p_limits p).
Proof.
  destruct (reaches_inv _ _ _ _ H) as (rs & cs & [Hc _ _ _ _]). exists (live p rs cs).
  pose proof (core_capacity _ _ _ _ _ Hc) as [? ?]. split_and!.
  - apply (core_list _ _ _ _ _ Hc).
  - intros x. by eapply live_unfinished.
  - apply (core_items _ _ _ _ _ Hc).
  - apply (core_bytes _ _ _ _ _ Hc).
  - done.
  - rewrite (core_bytes _ _ _ _ _ Hc). unfold sum_of. induction (live p rs cs) as [|x l IH]; cbn; [lia|].
    pose proof (core_positive _ _ _ _ _ Hc x). lia.
  - done.
Qed.

(** [processedHighWater] is exact: every version up to it has settled, and
    the next committed version, if there is one, has not. *)
Theorem processed_high_water_exact limits initial es p (H : reaches limits initial es p) :
  default 0 initial <= settledHighWater p <= committedHighWater p /\
  (forall v, default 0 initial < v <= settledHighWater p ->
     exists x s, p_slots p !! x = Some s /\ version s = v /\ state s = settled) /\
  (settledHighWater p < committedHighWater p ->
     exists x s, p_slots p !! x = Some s /\ version s = settledHighWater p + 1 /\
       (state s = committed \/ state s = processing)).
Proof.
  destruct (reaches_inv _ _ _ _ H) as (rs & cs & [Hc _ _ _ _]).
  pose proof (core_water _ _ _ _ _ Hc). pose proof (core_high _ _ _ _ _ Hc).
  assert (Hat : forall x v st, has (p_slots p) x st -> ver (p_slots p) x = v ->
    exists s, p_slots p !! x = Some s /\ version s = v /\ state s = st).
  { intros x v st (s & Hs & Hst) Hv. exists s. unfold ver in Hv. by rewrite Hs in Hv. }
  split; [lia|]. split.
  - intros v Hv. destruct (core_named _ _ _ _ _ Hc v) as (x & s & Hs & Hvs & Hst); [lia|].
    exists x, s. split_and!; [done..|]. destruct Hst as [|Hx]; [done|].
    exfalso. apply (core_settled _ _ _ _ _ Hc v Hv). apply (core_unsettled _ _ _ _ _ Hc).
    exists x. split; [done|]. unfold ver. by rewrite Hs.
  - intros Hlt. destruct (core_exact _ _ _ _ _ Hc) as [E|Hin].
    + pose proof (core_versions _ _ _ _ _ Hc) as Hvs. rewrite seqZ_cons in Hvs by lia.
      destruct (opt_list (microtask p) ++ cs) as [|x l] eqn:El; [done|]. injection Hvs as Hv _.
      assert (Hx : x ∈ opt_list (microtask p) ++ cs) by (rewrite El; apply list_elem_of_here).
      exists x. apply elem_of_app in Hx as [Hx|Hx].
      * destruct (Hat x (settledHighWater p + 1) processing) as (s & ? & ? & ?); [|by rewrite E|by exists s; auto].
        apply (core_processing _ _ _ _ _ Hc), elem_of_app. by right.
      * destruct (Hat x (settledHighWater p + 1) committed) as (s & ? & ? & ?); [|by rewrite E|by exists s; auto].
        by apply (core_committed _ _ _ _ _ Hc).
    + apply (core_unsettled _ _ _ _ _ Hc) in Hin as (x & Hx & Hv). exists x.
      destruct (Hat x (settledHighWater p + 1) processing) as (s & ? & ? & ?); [|done|by exists s; auto].
      apply (core_processing _ _ _ _ _ Hc), elem_of_app. by left.
Qed.

(** ** Settlement *)

Lemma first_committed_state fuel (m : gmap nat (Slot T)) next : forall o x,
  first_committed fuel m next o = Some x -> has m x committed.
Proof.
  induction fuel as [|fuel IH]; intros [y|] x; cbn; try done. case_bool_decide as E; [|apply IH].
  intros [= <-]. destruct (m !! y) as [s|] eqn:Es; [|done]. exists s. split; [done|]. by injection E.
Qed.

(** [p'] leaves alone the slots that are finished in [p]. *)
Definition keeps p p' : Prop :=
  forall y s, p_slots p !! y = Some s -> unfinished s = false -> p_slots p' !! y = Some s.

Lemma keeps_trans p q r : keeps p q -> keeps q r -> keeps p r.
Proof. unfold keeps. eauto. Qed.

Lemma keeps_alter p p' x f st : has (p_slots p) x st -> (forall s, state s = st -> unfinished s = true) ->
  p_slots p' = alter f x (p_slots p) -> keeps p p'.
Proof.
  intros (s0 & Hs0 & Hst) Hu E y s Hs Hf. rewrite E, alter_lookup. case_decide; [|done]. subst y.
  rewrite Hs in Hs0. injection Hs0 as ->. specialize (Hu s0 Hst). congruence.
Qed.

Lemma pump_keeps p : keeps p (pump p).
Proof.
  unfold pump. destruct (starting p); [by intros ? ?|]. destruct (first_committed _ _ _ _) as [x|] eqn:E; [|by intros ? ?].
  apply first_committed_state in E. eapply keeps_alter; [done| |done]. intros s Hs. unfold unfinished. by rewrite Hs.
Qed.

Lemma resolve_keeps p : keeps p (resolveCloseIfDrained p).
Proof. unfold resolveCloseIfDrained. destruct (_ || _); by intros ? ?. Qed.

Lemma settle_keeps x error p : has (p_slots p) x processing -> keeps p (settle x error p).
Proof.
  intros Hx. unfold settle. apply (keeps_trans _ (settle_slot x error p)).
  - intros y s Hs Hf. destruct Hx as (s0 & Hs0 & Hst). unfold settle_slot. rewrite Hs0.
    assert (x <> y). { intros <-. rewrite Hs in Hs0. injection Hs0 as ->. unfold unfinished in Hf. by rewrite Hst in Hf. }
    destruct error; cbn; by rewrite !lookup_alter_ne.
  - apply (keeps_trans _ (pump (settle_slot x error p))); [apply pump_keeps|apply resolve_keeps].
Qed.

Lemma open_keeps x p p' f s0 : assertOpenSlot x p = Ret s0 -> p_slots p' = alter f x (p_slots p) -> keeps p p'.
Proof.
  intros H E. apply assertOpenSlot_ret in H as (Hs & _ & Hst). eapply keeps_alter; [by exists s0| |done].
  intros s Es. unfold unfinished. by rewrite Es.
Qed.

Lemma step_keeps init vs p rs cs e p' : pub_inv init vs p rs cs -> step e p = Some p' -> keeps p p'.
Proof.
  intros H Hs. pose proof (inv_core _ _ _ _ _ H) as Hc.
  assert (Hrs : forall x, x ∈ owed p -> has (p_slots p) x processing).
  { intros x Hx. apply (core_processing _ _ _ _ _ Hc), elem_of_app. left. by rewrite <-(inv_owed _ _ _ _ _ H). }
  destruct e as [bytes now|x bytes|x v|x| | |a|x error]; cbn in Hs.
  - destruct (reserve bytes now p) as [[x q]|] eqn:E; [|done]. injection Hs as <-.
    unfold reserve in E. exc_inv. subst. intros y s Hy _. cbn. rewrite lookup_insert_ne; [done|].
    intros <-. destruct (core_fresh _ _ _ _ _ Hc) as [Hf _]. congruence.
  - destruct (resize x bytes p) as [q|] eqn:E; [|done]. injection Hs as <-.
    unfold resize in E. exc_inv. subst. by eapply open_keeps.
  - destruct (commit x v p) as [q|] eqn:E; [|done]. injection Hs as <-.
    unfold commit in E. exc_inv. subst. eapply keeps_trans; [|apply pump_keeps]. by eapply open_keeps.
  - destruct (cancel x p) as [q|] eqn:E; [|done]. injection Hs as <-.
    unfold cancel in E. exc_inv. subst. eapply keeps_trans; [|apply resolve_keeps].
    eapply (open_keeps x _ _ (slot_complete Completed ∘ slot_state canceled)); [done|]. cbn.
    by rewrite alter_alter_eq.
  - injection Hs as <-. unfold close. destruct (closePromise p); [by intros ? ?|].
    intros y s Hy Hf. by apply resolve_keeps.
  - apply bind_Some in Hs as (x & Hm & [= <-]). unfold begin. destruct (p_slots p !! x); by intros ? ?.
  - apply bind_Some in Hs as (x & Hm & [= <-]).
    assert (Hx : has (p_slots p) x processing) by (apply Hrs; unfold owed; rewrite Hm; apply list_elem_of_here).
    unfold answered. destruct a.
    + by apply (settle_keeps x reason (set_starting false (set_calling None p))).
    + apply (pump_keeps (set_settling ((x, true) :: settling p) (set_starting false (set_calling None p)))).
    + by intros ? ?.
  - case_bool_decide as Hx; [|done]. injection Hs as <-. unfold promise_settles.
    assert (Hp : has (p_slots p) x processing) by (apply Hrs; unfold owed; apply elem_of_app; by right).
    destruct (bool_decide _).
    + by apply (settle_keeps x error (set_settling (filter (fun y => y.1 <> x) (settling p)) p)).
    + by apply (settle_keeps x error (set_starting false (set_settling (filter (fun y => y.1 <> x) (settling p)) p))).
Qed.

(** a slot's promise settles exactly when its slot is settled or canceled,
    and from then on nothing changes it: no completion is lost or given twice. *)
Theorem completion_settles_once limits initial es p e p'
    (H : reaches limits initial es p) (He : step e p = Some p') :
  (forall x s, p_slots p !! x = Some s -> completion s = Unsettled <-> unfinished s = true) /\
  (forall x s, p_slots p !! x = Some s -> unfinished s = false -> p_slots p' !! x = Some s).
Proof.
  destruct (reaches_inv _ _ _ _ H) as (rs & cs & Hi). pose proof (inv_core _ _ _ _ _ Hi) as Hc. split.
  - intros x s Hs. destruct (decide (x ∈ live p rs cs)) as [Hx|Hx].
    + rewrite (core_pending _ _ _ _ _ Hc x s Hx Hs). apply (live_unfinished _ _ _ _ _ _ Hc) in Hx as (s' & Hs' & Hu).
      split; [|done]. congruence.
    + destruct (core_gone _ _ _ _ _ Hc x s Hx Hs) as [Hst Hco]. split; [done|]. intros Hu.
      destruct Hx. eapply live_unfinished; [done|]. by exists s.
  - by eapply step_keeps.
Qed.

(** the promise of [close] resolves exactly when the publication is closed
    and no slot is unfinished. *)
Theorem close_resolves_when_drained limits initial es p (H : reaches limits initial es p) :
  closePromise p = Some true <->
  p_closed p = true /\ forall x s, p_slots p !! x = Some s -> unfinished s = false.
Proof.
  destruct (reaches_inv _ _ _ _ H) as (rs & cs & Hi). pose proof (inv_core _ _ _ _ _ Hi) as Hc.
  rewrite (inv_close _ _ _ _ _ Hi). destruct (p_closed p); [|by split; [|intros [? _]]].
  assert (Hz : items p = 0 <-> forall x s, p_slots p !! x = Some s -> unfinished s = false).
  { rewrite (core_items _ _ _ _ _ Hc). split.
    - intros E x s Hs. apply not_true_iff_false. intros Hu.
      assert (x ∈ live p rs cs) as Hx by (eapply live_unfinished; [done|]; by exists s).
      destruct (live p rs cs); [by apply not_elem_of_nil in Hx|cbn in E; lia].
    - intros Hu. destruct (live p rs cs) as [|x l] eqn:E; [done|].
      assert (x ∈ live p rs cs) as Hx by (rewrite E; apply list_elem_of_here).
      apply (live_unfinished _ _ _ _ _ _ Hc) in Hx as (s & Hs & Hx). rewrite (Hu x s Hs) in Hx. done. }
  rewrite <-Hz. split.
  - intros [= E%bool_decide_eq_true]. done.
  - intros [_ E]. f_equal. by apply bool_decide_eq_true.
Qed.

(** ** Draining *)

Definition loop_event (e : Event T) : bool :=
  match e with EBegin | EAnswer _ | ESettle _ _ => true | _ => false end.

(** The continuations still to come, at most. *)
Definition work p : Z :=
  3 * (committedHighWater p - startedHighWater p) + 2 * Z.of_nat (length (opt_list (calling p))) +
  Z.of_nat (length (settling p)).

Lemma pump_work p : work (pump p) = work p.
Proof. unfold pump. destruct (starting p); [done|]. by destruct (first_committed _ _ _ _). Qed.

Lemma resolve_work p : work (resolveCloseIfDrained p) = work p.
Proof. unfold resolveCloseIfDrained. by destruct (_ || _). Qed.

Lemma settle_work x error p : work (settle x error p) = work p.
Proof.
  unfold settle. rewrite resolve_work, pump_work. unfold settle_slot.
  destruct (p_slots p !! x); [|done]. by destruct error.
Qed.

Lemma loop_step_work init vs p rs cs e p' :
  pub_inv init vs p rs cs -> loop_event e = true -> step e p = Some p' -> work p' < work p.
Proof.
  intros H Hl Hs. destruct e as [| | | | | |a|x error]; try done; cbn in Hs.
  - apply bind_Some in Hs as (x & Hm & [= <-]). pose proof (inv_core _ _ _ _ _ H) as Hc.
    destruct (core_processing _ _ _ _ _ Hc x) as (s0 & Hs0 & _).
    { rewrite Hm. apply elem_of_app. right. by apply list_elem_of_singleton. }
    pose proof (core_versions _ _ _ _ _ Hc) as Hv. rewrite Hm in Hv. cbn in Hv.
    destruct (decide (0 < committedHighWater p - startedHighWater p)) as [Hlt|]; [|by rewrite seqZ_nil in Hv by lia].
    rewrite seqZ_cons in Hv by done. injection Hv as Hv _. unfold ver in Hv. rewrite Hs0 in Hv. cbn in Hv.
    unfold begin. rewrite Hs0. unfold work. cbn. rewrite Hv. lia.
  - apply bind_Some in Hs as (x & Hm & [= <-]).
    assert (Hw : work p = work (set_calling None p) + 2) by (unfold work; cbn; rewrite Hm; cbn; lia).
    rewrite Hw. unfold answered. destruct a.
    + rewrite settle_work. change (work (set_starting false (set_calling None p))) with (work (set_calling None p)). lia.
    + rewrite pump_work. unfold work. cbn. lia.
    + unfold work. cbn. lia.
  - case_bool_decide as Hx; [|done]. injection Hs as <-. unfold promise_settles. rewrite settle_work.
    assert (Hlen : (length (filter (fun y : nat * bool => y.1 <> x) (settling p)) < length (settling p))%nat).
    { apply list_elem_of_fmap in Hx as (y & -> & Hy). apply (length_filter_lt _ _ y); [done|]. intros Hn. by apply Hn. }
    destruct (bool_decide _); unfold work; cbn; lia.
Qed.

(** C40: a publication drains by itself. Once no call is made, at most three
    continuations per unfinished slot are left to run; when none is, the open
    reservation is all that is unfinished. *)
Theorem publication_drains limits initial es p (H : reaches limits initial es p) :
  (forall es' p', steps es' p = Some p' -> forallb loop_event es' = true ->
     Z.of_nat (length es') <= 3 * items p) /\
  ((forall e, loop_event e = true -> step e p = None) ->
     forall x s, p_slots p !! x = Some s -> unfinished s = true -> openReservation p = Some x).
Proof.
  destruct (reaches_inv _ _ _ _ H) as (rs & cs & Hi). pose proof (inv_core _ _ _ _ _ Hi) as Hc. split.
  - assert (Hw : 0 <= work p <= 3 * items p).
    { pose proof (core_versions _ _ _ _ _ Hc) as Hv. apply (f_equal length) in Hv.
      rewrite length_fmap, length_seqZ, length_app in Hv. pose proof (core_high _ _ _ _ _ Hc).
      pose proof (inv_owed _ _ _ _ _ Hi) as Ho. apply Permutation_length in Ho. unfold owed in Ho.
      rewrite length_app, length_fmap in Ho. pose proof (core_items _ _ _ _ _ Hc) as Hit. unfold live in Hit.
      rewrite !length_app in Hit. unfold work. lia. }
    assert (Hrun : forall es' vs q rs' cs', pub_inv (default 0 initial) vs q rs' cs' ->
      forall p', steps es' q = Some p' -> forallb loop_event es' = true -> Z.of_nat (length es') <= work q).
    { induction es' as [|e es' IH]; intros vs q rs' cs' Hq p'; cbn.
      - intros _ _. pose proof (core_high _ _ _ _ _ (inv_core _ _ _ _ _ Hq)). unfold work. lia.
      - intros (q' & He & Hs)%bind_Some [Hl Hls]%andb_true_iff.
        destruct (step_inv _ _ _ _ _ _ _ Hq He) as (rs2 & cs2 & Hq').
        specialize (IH _ _ _ _ Hq' p' Hs Hls). pose proof (loop_step_work _ _ _ _ _ _ _ Hq Hl He). lia. }
    intros es' p' Hs Hl. specialize (Hrun es' _ _ _ _ Hi p' Hs Hl). lia.
  - intros Hnone x s Hs Hu.
    assert (Hm : microtask p = None).
    { specialize (Hnone EBegin eq_refl). cbn in Hnone. by destruct (microtask p). }
    assert (Hca : calling p = None).
    { specialize (Hnone (EAnswer Handoff) eq_refl). cbn in Hnone. by destruct (calling p). }
    assert (Hse : settling p = []).
    { destruct (settling p) as [|[y h] l] eqn:E; [done|]. specialize (Hnone (ESettle y None) eq_refl).
      cbn in Hnone. rewrite E in Hnone. rewrite bool_decide_eq_true_2 in Hnone by apply list_elem_of_here. done. }
    pose proof (inv_owed _ _ _ _ _ Hi) as Ho. unfold owed in Ho. rewrite Hca, Hse in Ho. cbn in Ho.
    apply Permutation_nil in Ho. subst rs.
    pose proof (inv_starting _ _ _ _ _ Hi) as Hst. unfold starters in Hst. rewrite Hm, Hca, Hse in Hst. cbn in Hst.
    assert (Hcs : cs = []) by (apply (inv_idle _ _ _ _ _ Hi); by destruct (starting p)). subst cs.
    assert (Hx : x ∈ live p [] []) by (eapply live_unfinished; [done|]; by exists s).
    unfold live in Hx. rewrite Hm in Hx. cbn in Hx.
    destruct (openReservation p); [|by apply not_elem_of_nil in Hx].
    by apply list_elem_of_singleton in Hx as ->.
Qed.
End properties.

(** ** A run *)

Definition sample_limits : CapacityLimits num := MkCapacity (num_of_Z 2) (num_of_Z 100).

(** Two commits; the first is handed off, then the second; the second settles first. *)
Definition sample_run : list (Event nat) :=
  [EReserve (num_of_Z 10) (Finite 0); ECommit 0 7%nat; EBegin; EReserve (num_of_Z 20) (Finite 1); EAnswer Handoff;
   EResize 1 (num_of_Z 30); ECommit 1 8%nat; EBegin; EAnswer Handoff; ESettle 1 None]%nat.

(** The rest of it. *)
Definition sample_rest : list (Event nat) := [EClose; ESettle 0 None]%nat.

Definition sample_start : OrderedPublication nat :=
  MkPublication (MkCapacity 2 100) ∅ dll_empty None 0 0 0 0 0 0 0 None false ∅ false None None None [] [].
Definition sample_state : OrderedPublication nat := default sample_start (steps sample_run sample_start).
Definition sample_end : OrderedPublication nat := default sample_start (steps sample_rest sample_state).

Ltac reached := exists sample_start; split; vm_compute; reflexivity.

Lemma published_in_order_witness :
  reaches sample_limits None sample_run sample_state /\
  committedHighWater sample_state = default 0 None + Z.of_nat (length (commits sample_run)).
Proof. split; [reached|]. apply (published_in_order sample_limits None sample_run sample_state). reached. Defined.

Lemma publication_within_capacity_witness :
  reaches sample_limits None sample_run sample_state /\ exists l, dll_repr (p_list sample_state) l.
Proof.
  split; [reached|].
  destruct (publication_within_capacity sample_limits None sample_run sample_state) as (l & Hl & _); [reached|].
  exists l. exact Hl.
Defined.

Lemma processed_high_water_exact_witness :
  settledHighWater sample_state = 0 /\
  exists x s, p_slots sample_state !! x = Some s /\ version s = settledHighWater sample_state + 1 /\
    (state s = committed \/ state s = processing).
Proof.
  split; [vm_compute; reflexivity|].
  apply (processed_high_water_exact sample_limits None sample_run sample_state); [reached|]. vm_compute. reflexivity.
Defined.

Lemma completion_settles_once_witness :
  reaches sample_limits None sample_run sample_state /\
  forall x s, p_slots sample_state !! x = Some s -> unfinished s = false -> p_slots (close sample_state) !! x = Some s.
Proof.
  split; [reached|].
  apply (completion_settles_once sample_limits None sample_run sample_state EClose (close sample_state)); [reached|].
  reflexivity.
Defined.

Lemma close_resolves_when_drained_witness :
  p_closed sample_end = true /\ forall x s, p_slots sample_end !! x = Some s -> unfinished s = false.
Proof.
  apply (close_resolves_when_drained sample_limits None (sample_run ++ sample_rest) sample_end); [reached|].
  vm_compute. reflexivity.
Defined.

Lemma publication_drains_witness :
  reaches sample_limits None sample_run sample_state /\
  forall es' p', steps es' sample_state = Some p' -> forallb loop_event es' = true ->
    Z.of_nat (length es') <= 3 * items sample_state.
Proof. split; [reached|]. apply (publication_drains sample_limits None sample_run sample_state). reached. Defined.
