(* ===== verification/History.v ===== *)
(** The resume window: [server/src/subscriptions/reactive/history.ts].

    Every retained transition is a record of one global ring, in the order it
    was retained, and of the slice of its query entry. Records and entries are
    objects named by numbers: the records are a store of the history, the fields
    [history] and [historyBytes] of the entries a store beside it. *)
From S2P Require Import Prelude Errors Limits Dll Value Wire StableEncode Protocol.
Local Open Scope Z_scope.

Inductive RecordKind : Type := update_kind | checkpoint_kind.

Record HistoryRecord : Type := MkRecord {
  r_entry : nat;
  fromVersion : Z;
  toVersion : Z;
  r_kind : RecordKind;
  r_value : value;
  r_error : option ApplicationError;
  r_bytes : Z;
  createdAtMs : Z;
  active : bool;
}.

Definition deactivate (r : HistoryRecord) : HistoryRecord :=
  MkRecord (r_entry r) (fromVersion r) (toVersion r) (r_kind r) (r_value r) (r_error r) (r_bytes r) (createdAtMs r) false.

(** [history] and [historyBytes] of an entry. *)
Record Slice : Type := MkSlice { history : list nat; historyBytes : Z }.

Record TransitionHistory : Type := MkHistory {
  records : gmap nat HistoryRecord;
  next_record : nat;
  ring : dll;  (* [head], [tail], [previousGlobal], [nextGlobal] *)
  retainedBytes : Z;
  retainedTransitions : Z;
  slices : gmap nat Slice;
}.

Definition new_TransitionHistory : TransitionHistory := MkHistory ∅ 0 dll_empty 0 0 ∅.

Definition slice (h : TransitionHistory) (e : nat) : Slice := default (MkSlice [] 0) (slices h !! e).

(** [indexOf] and [splice]. *)
Definition splice (x : nat) (l : list nat) : list nat :=
  match list_find (x =.) l with Some (i, _) => take i l ++ drop (S i) l | None => l end.

Definition remove (x : nat) (h : TransitionHistory) : TransitionHistory :=
  match records h !! x with
  | Some r =>
      if active r then
        let e := r_entry r in
        MkHistory (<[x := deactivate r]> (records h)) (next_record h)
          (dll_clear (dll_detach (ring h) x) x)
          (retainedBytes h - r_bytes r) (retainedTransitions h - 1)
          (<[e := MkSlice (splice x (history (slice h e))) (historyBytes (slice h e) - r_bytes r)]> (slices h))
      else h
  | None => h
  end.

Definition clear (e : nat) (h : TransitionHistory) : TransitionHistory :=
  foldl (fun h x => remove x h) h (history (slice h e)).

Section limits.
Context (limits : ResumeLimits Z).

(** The loops; each turn removes a record, so that the records ever made are
    turns enough. [None] is a loop that has not ended. *)
Fixpoint prune_loop (fuel : nat) (now : Z) (h : TransitionHistory) : option TransitionHistory :=
  match fuel with
  | O => None
  | S fuel =>
      match dll_head (ring h) ≫= (records h !!.) with
      | Some r => if decide (resume_maxAgeMs limits <= now - createdAtMs r)
                  then x ← dll_head (ring h); prune_loop fuel now (remove x h)
                  else Some h
      | None => Some h
      end
  end.

Definition prune (now : Z) (h : TransitionHistory) : option TransitionHistory := prune_loop (S (next_record h)) now h.

(** [this.remove(entry.history[0]!)]; removing [undefined] is a TypeError. *)
Fixpoint evict_stream (fuel : nat) (e : nat) (bytes : Z) (h : TransitionHistory) : option (exc js_error TransitionHistory) :=
  match fuel with
  | O => None
  | S fuel =>
      let s := slice h e in
      if decide (maxTransitionsPerStream limits <= Z.of_nat (length (history s)) \/
                 maxBytesPerStream limits - historyBytes s < bytes)
      then match history s with
           | x :: _ => evict_stream fuel e bytes (remove x h)
           | [] => Some (Throw (TypeError "Cannot read properties of undefined"%string))
           end
      else Some (Ret h)
  end.

Fixpoint evict_ring (fuel : nat) (bytes : Z) (h : TransitionHistory) : option TransitionHistory :=
  match fuel with
  | O => None
  | S fuel =>
      if decide (resume_maxBytes limits - retainedBytes h < bytes) then
        match dll_head (ring h) with
        | Some x => evict_ring fuel bytes (remove x h)
        | None => Some h
        end
      else Some h
  end.

Definition append (r : HistoryRecord) (h : TransitionHistory) : TransitionHistory :=
  let x := next_record h in
  let e := r_entry r in
  MkHistory (<[x := r]> (records h)) (S x) (dll_append (ring h) x)
    (retainedBytes h + r_bytes r) (retainedTransitions h + 1)
    (<[e := MkSlice (history (slice h e) ++ [x]) (historyBytes (slice h e) + r_bytes r)]> (slices h)).

(** The record is new: it is allocated when it is linked. *)
Definition retain (r : HistoryRecord) (h : TransitionHistory) : option (exc js_error (bool * TransitionHistory)) :=
  let e := r_entry r in
  h ← prune (createdAtMs r) h;
  if decide (maxBytesPerStream limits < r_bytes r \/ resume_maxBytes limits < r_bytes r) then Some (Ret (false, clear e h))
  else
    evicted ← evict_stream (S (next_record h)) e (r_bytes r) h;
    match evicted with
    | Throw err => Some (Throw err)
    | Ret h =>
        h ← evict_ring (S (next_record h)) (r_bytes r) h;
        if decide (resume_maxBytes limits - retainedBytes h < r_bytes r) then Some (Ret (false, clear e h))
        else Some (Ret (true, append r h))
    end.
End limits.

(** [chain]'s loop over the records of the slice; [None] is [undefined]. *)
Fixpoint chain_from (rs : list HistoryRecord) (version to : Z) : option (list HistoryRecord) :=
  match rs with
  | [] => None
  | r :: rs =>
      if negb (active r) || bool_decide (fromVersion r < version) then chain_from rs version to
      else if decide (fromVersion r <> version) then None
      else if decide (toVersion r = to) then Some [r]
      else if decide (to < toVersion r) then None
      else cons r <$> chain_from rs (toVersion r) to
  end.

Definition slice_records (h : TransitionHistory) (e : nat) : list HistoryRecord :=
  omap (records h !!.) (history (slice h e)).

Definition chain (h : TransitionHistory) (e : nat) (from to : Z) : option (list HistoryRecord) :=
  if decide (to <= from) then None else chain_from (slice_records h e) from to.
