(* ===== verification/HistoryProps.v ===== *)
(** The resume window is a list: retaining, pruning and clearing do to the ring,
    the slices and the budgets what three functions do to the list of retained
    records, the loops end, and the budgets hold. *)
From S2P Require Import Prelude Errors Limits Dll Value Wire StableEncode Protocol History.
Local Open Scope Z_scope.

(** ** The list the history stands for *)

Fixpoint total (rs : list HistoryRecord) : Z := match rs with [] => 0 | r :: rs => r_bytes r + total rs end.
Definition of_entry (e : nat) (rs : list HistoryRecord) : list HistoryRecord := filter (fun r => r_entry r = e) rs.

Lemma total_app rs rs' : total (rs ++ rs') = total rs + total rs'.
Proof. induction rs as [|r rs IH]; cbn; lia. Qed.

Lemma of_entry_app e rs rs' : of_entry e (rs ++ rs') = of_entry e rs ++ of_entry e rs'.
Proof. apply filter_app. Qed.

Lemma of_entry_cons e r rs :
  of_entry e (r :: rs) = if decide (r_entry r = e) then r :: of_entry e rs else of_entry e rs.
Proof. unfold of_entry. by rewrite filter_cons. Qed.

Lemma total_nonneg rs : Forall (fun r => 0 <= r_bytes r) rs -> 0 <= total rs.
Proof. induction 1; cbn; lia. Qed.

Lemma total_of_entry_nonneg e rs : Forall (fun r => 0 <= r_bytes r) rs -> 0 <= total (of_entry e rs).
Proof. intros H. apply total_nonneg, list.Forall_forall. intros r [_ Hr]%list_elem_of_filter. rewrite list.Forall_forall in H. auto. Qed.

Record hist_repr (h : TransitionHistory) (ps : list (nat * HistoryRecord)) : Prop := {
  hr_ring : dll_repr (ring h) ps.*1;
  hr_links x : x ∉ ps.*1 -> dll_next (ring h) !! x = None;
  hr_records x r : (x, r) ∈ ps -> records h !! x = Some r /\ active r = true;
  hr_fresh x : x ∈ ps.*1 -> (x < next_record h)%nat;
  hr_bytes : retainedBytes h = total ps.*2;
  hr_count : retainedTransitions h = Z.of_nat (length ps);
  hr_slice e : slice h e = MkSlice (filter (fun p => r_entry p.2 = e) ps).*1 (total (of_entry e ps.*2));
}.

Lemma hist_repr_new : hist_repr new_TransitionHistory [].
Proof. split; cbn; try done; [apply dll_repr_empty|set_solver|set_solver]. Qed.

Lemma hist_repr_nodup h ps : hist_repr h ps -> NoDup ps.*1.
Proof. intros H. apply (repr_nodup _ _ (hr_ring _ _ H)). Qed.

Lemma hist_repr_length h ps : hist_repr h ps -> (length ps <= next_record h)%nat.
Proof.
  intros H. rewrite <- (length_fmap fst). rewrite <- (length_seq (next_record h) 0).
  apply submseteq_length, NoDup_submseteq; [by apply hist_repr_nodup in H|].
  intros x Hx. apply elem_of_seq. pose proof (hr_fresh _ _ H x Hx). lia.
Qed.

Lemma fst_of_entry e (ps : list (nat * HistoryRecord)) :
  of_entry e ps.*2 = (filter (fun p => r_entry p.2 = e) ps).*2.
Proof.
  unfold of_entry. induction ps as [|[x r] ps IH]; [done|]. cbn [fmap list_fmap snd].
  rewrite !filter_cons. cbn [snd]. case_decide; cbn; congruence.
Qed.

Lemma splice_split x a b : x ∉ a -> splice x (a ++ x :: b) = a ++ b.
Proof.
  intros Hx. unfold splice.
  assert (Hf : list_find (x =.) (a ++ x :: b) = Some (length a, x)).
  { apply list_find_Some. split_and!; [by rewrite lookup_app_r, Nat.sub_diag by lia|done|].
    intros j y Hj Hlt ->. rewrite lookup_app_l in Hj by done. apply Hx, list_elem_of_lookup. by exists j. }
  rewrite Hf. rewrite take_app_length. f_equal.
  change (x :: b) with ([x] ++ b). rewrite app_assoc.
  rewrite drop_app_length'; [done|]. rewrite length_app. cbn. lia.
Qed.

Lemma remove_repr h a x r b :
  hist_repr h (a ++ (x, r) :: b) -> hist_repr (remove x h) (a ++ b) /\ next_record (remove x h) = next_record h.
Proof.
  intros H. pose proof (hist_repr_nodup _ _ H) as Hnd.
  destruct (hr_records _ _ H x r) as [Hr Ha]; [apply elem_of_app; right; left|].
  unfold remove. rewrite Hr, Ha. split; [|done]. pose proof H as [Hring Hl Hrec Hf Hb Hc Hs].
  rewrite fmap_app in Hnd, Hring, Hl, Hf. cbn [fmap list_fmap fst] in Hnd, Hring, Hl, Hf.
  apply NoDup_app in Hnd as (Hna & Hab & [Hxb Hnb]%NoDup_cons).
  assert (Hxa : x ∉ a.*1) by (intros Hx; apply (Hab _ Hx); left).
  destruct (detach_links _ _ _ _ Hring Hl) as [Hd Hn].
  split; cbn; rewrite ?fmap_app; try done.
  - intros y r' Hy. destruct (decide (y = x)) as [->|Hne].
    + exfalso. apply elem_of_app in Hy as [Hy|Hy]; [apply Hxa|apply Hxb]; apply elem_of_fst; eauto.
    + rewrite lookup_insert_ne by done. apply Hrec. rewrite elem_of_app, elem_of_cons. rewrite elem_of_app in Hy. tauto.
  - intros y Hy. apply Hf. rewrite elem_of_app, elem_of_cons. rewrite elem_of_app in Hy. tauto.
  - rewrite Hb, fmap_app, !total_app. cbn. lia.
  - rewrite Hc, !length_app. cbn. lia.
  - intros e. unfold slice at 1. cbn. rewrite !Hs. cbn [history historyBytes].
    rewrite lookup_insert. case_decide as He; cbn.
    + subst e. rewrite !filter_app, filter_cons_True by done. rewrite !fmap_app. cbn.
      rewrite splice_split.
      * f_equal. rewrite !of_entry_app, of_entry_cons, decide_True by done. rewrite !total_app. cbn. lia.
      * intros (r' & [Hy Hin]%list_elem_of_filter)%elem_of_fst. apply Hxa, elem_of_fst. eauto.
    + fold (slice h e). rewrite Hs. rewrite !filter_app, filter_cons_False by done.
      rewrite !fmap_app. cbn [fmap list_fmap snd]. by rewrite !of_entry_app, of_entry_cons, decide_False by done.
Qed.

Lemma append_repr h ps r :
  hist_repr h ps -> active r = true -> hist_repr (append r h) (ps ++ [(next_record h, r)]).
Proof.
  intros H Ha. pose proof H as [Hring Hl Hrec Hf Hb Hc Hs].
  assert (Hx : next_record h ∉ ps.*1) by (intros Hx; specialize (Hf _ Hx); lia).
  split; cbn; rewrite ?fmap_app; cbn [fmap list_fmap fst snd].
  - apply dll_append_repr; auto.
  - intros y Hy. rewrite elem_of_app, list_elem_of_singleton in Hy.
    destruct (dll_tail (ring h)) as [t|] eqn:Et; [|apply Hl; tauto].
    rewrite lookup_insert_ne; [apply Hl; tauto|]. intros ->. apply Hy. left.
    apply last_elem. by rewrite <- (repr_tail _ _ Hring).
  - intros y r' [Hy|Hy]%elem_of_app.
    + rewrite lookup_insert_ne; [by apply Hrec|]. intros <-. apply Hx, elem_of_fst. eauto.
    + apply list_elem_of_singleton in Hy as [= -> ->]. by rewrite lookup_insert_eq.
  - intros y [Hy|Hy]%elem_of_app; [specialize (Hf _ Hy); lia|]. apply list_elem_of_singleton in Hy. lia.
  - rewrite Hb, total_app. cbn. lia.
  - rewrite Hc, length_app. cbn. lia.
  - intros e. unfold slice at 1. cbn. rewrite Hs. cbn [history historyBytes].
    rewrite lookup_insert, filter_app, of_entry_app, !filter_cons, filter_nil. cbn [snd].
    rewrite of_entry_cons.
    case_decide as He; cbn.
    + subst e. rewrite fmap_app, total_app. cbn. by rewrite Z.add_0_r.
    + fold (slice h e). by rewrite Hs, !app_nil_r.
Qed.

(** Clearing an entry removes its records, whatever part of them is left. *)
Lemma clear_repr h ps e : hist_repr h ps ->
  hist_repr (clear e h) (filter (fun p => r_entry p.2 <> e) ps) /\ next_record (clear e h) = next_record h.
Proof.
  intros H. unfold clear. rewrite (hr_slice _ _ H). cbn [history].
  assert (Hg : forall b a h, hist_repr h (a ++ b) -> Forall (fun p => r_entry p.2 <> e) a ->
    hist_repr (foldl (fun h x => remove x h) h (filter (fun p => r_entry p.2 = e) b).*1)
      (a ++ filter (fun p => r_entry p.2 <> e) b) /\
    next_record (foldl (fun h x => remove x h) h (filter (fun p => r_entry p.2 = e) b).*1) = next_record h).
  { clear h ps H. induction b as [|[x r] b IH]; intros a h H Ha; [done|].
    rewrite !filter_cons. cbn [snd]. destruct (decide (r_entry r = e)) as [He|He].
    - rewrite decide_False by tauto. cbn. destruct (remove_repr _ _ _ _ _ H) as [H' <-]. by apply IH.
    - rewrite decide_True by tauto. rewrite !(cons_middle (x, r)), !(app_assoc a). apply IH.
      + by rewrite <- app_assoc.
      + apply Forall_app. by split; [|constructor]. }
  by apply (Hg ps [] h).
Qed.

Section limits.
Context (limits : ResumeLimits Z).

(** ** The three functions *)

Fixpoint drop_expired (now : Z) (rs : list HistoryRecord) : list HistoryRecord :=
  match rs with
  | r :: rs' => if decide (resume_maxAgeMs limits <= now - createdAtMs r) then drop_expired now rs' else rs
  | [] => []
  end.

(** What is left of the stream does not leave room for a record. *)
Definition crowded (e : nat) (bytes : Z) (rs : list HistoryRecord) : Prop :=
  maxTransitionsPerStream limits <= Z.of_nat (length (of_entry e rs)) \/
  maxBytesPerStream limits - total (of_entry e rs) < bytes.

#[export] Instance crowded_dec e bytes rs : Decision (crowded e bytes rs) := or_dec _ _.

Fixpoint trim_stream (e : nat) (bytes : Z) (rs : list HistoryRecord) : list HistoryRecord :=
  match rs with
  | r :: rs' =>
      if decide (r_entry r <> e) then r :: trim_stream e bytes rs'
      else if decide (crowded e bytes rs) then trim_stream e bytes rs' else rs
  | [] => []
  end.

Fixpoint trim_ring (bytes : Z) (rs : list HistoryRecord) : list HistoryRecord :=
  match rs with
  | r :: rs' => if decide (resume_maxBytes limits - total rs < bytes) then trim_ring bytes rs' else rs
  | [] => []
  end.

Definition retained (r : HistoryRecord) (rs : list HistoryRecord) : bool * list HistoryRecord :=
  let rs := drop_expired (createdAtMs r) rs in
  if decide (maxBytesPerStream limits < r_bytes r \/ resume_maxBytes limits < r_bytes r)
  then (false, filter (fun r' => r_entry r' <> r_entry r) rs)
  else (true, trim_ring (r_bytes r) (trim_stream (r_entry r) (r_bytes r) rs) ++ [r]).

(** ** The loops compute them *)

Lemma prune_loop_repr now ps : forall fuel h, hist_repr h ps -> (length ps < fuel)%nat ->
  exists h' ps', prune_loop limits fuel now h = Some h' /\ hist_repr h' ps' /\
    ps'.*2 = drop_expired now ps.*2 /\ next_record h' = next_record h.
Proof.
  induction ps as [|[x r] ps IH]; intros [|fuel] h H Hl; cbn in Hl; try lia; cbn [prune_loop];
    rewrite (repr_head _ _ (hr_ring _ _ H)); cbn [head fmap list_fmap fst mbind option_bind].
  { by exists h, []. }
  destruct (hr_records _ _ H x r) as [-> Ha]; [left|]. cbn [snd drop_expired].
  case_decide as He; [|by exists h, ((x, r) :: ps)].
  destruct (remove_repr _ [] _ _ _ H) as [H' Hn].
  destruct (IH fuel _ H') as (h' & ps' & Hp & Hr & Hs & Hn'); [lia|]. exists h', ps'. by rewrite Hn' in *.
Qed.

Lemma evict_stream_repr e bytes b : forall a fuel h,
  0 < maxTransitionsPerStream limits -> bytes <= maxBytesPerStream limits ->
  hist_repr h (a ++ b) -> Forall (fun p => r_entry p.2 <> e) a -> (length b < fuel)%nat ->
  exists h' ps', evict_stream limits fuel e bytes h = Some (Ret h') /\ hist_repr h' ps' /\
    ps'.*2 = a.*2 ++ trim_stream e bytes b.*2 /\ next_record h' = next_record h.
Proof.
  induction b as [|[x r] b IH]; intros a fuel h H0 Hb H Ha Hl.
  - destruct fuel as [|fuel]; [cbn in Hl; lia|]. cbn [evict_stream]. rewrite app_nil_r in H.
    rewrite (hr_slice _ _ H), fst_of_entry. cbn [history historyBytes].
    rewrite (filter_none (fun p => r_entry p.2 = e) a Ha). cbn. rewrite decide_False by lia. exists h, a.
    by rewrite app_nil_r.
  - cbn [fmap list_fmap snd trim_stream]. destruct (decide (r_entry r = e)) as [He|He].
    2:{ rewrite decide_True by done. rewrite cons_middle, app_assoc in H.
      destruct (IH (a ++ [(x, r)]) fuel h H0 Hb H) as (h' & ps' & ? & ? & Hs & ?).
      - apply Forall_app. by split; [|constructor].
      - cbn in Hl. lia.
      - exists h', ps'. split_and!; [done|done| |done]. rewrite Hs, fmap_app. cbn. by rewrite <- app_assoc. }
    destruct fuel as [|fuel]; [cbn in Hl; lia|]. rewrite (decide_False (P := r_entry r <> e)) by tauto.
    cbn [evict_stream]. rewrite (hr_slice _ _ H). cbn [history historyBytes].
    rewrite !fst_of_entry, filter_app, (filter_none (fun p => r_entry p.2 = e) a Ha), filter_cons_True by done.
    cbn [app fmap list_fmap fst snd].
    assert (Hcr : crowded e bytes (r :: b.*2) <->
      maxTransitionsPerStream limits <= Z.of_nat (length (x :: (filter (fun p => r_entry p.2 = e) b).*1)) \/
      maxBytesPerStream limits - total (r :: (filter (fun p => r_entry p.2 = e) b).*2) < bytes).
    { unfold crowded. rewrite of_entry_cons, decide_True, fst_of_entry by done. cbn [length]. by rewrite !length_fmap. }
    case_decide as Hc.
    + rewrite decide_True by tauto. destruct (remove_repr _ _ _ _ _ H) as [H' Hn].
      destruct (IH a fuel _ H0 Hb H' Ha) as (h' & ps' & ? & ? & ? & Hn'); [cbn in Hl; lia|].
      exists h', ps'. by rewrite Hn' in *.
    + rewrite decide_False by tauto. exists h, (a ++ (x, r) :: b). by rewrite fmap_app.
Qed.

Lemma evict_ring_repr bytes ps : forall fuel h,
  hist_repr h ps -> bytes <= resume_maxBytes limits -> (length ps < fuel)%nat ->
  exists h' ps', evict_ring limits fuel bytes h = Some h' /\ hist_repr h' ps' /\
    ps'.*2 = trim_ring bytes ps.*2 /\ next_record h' = next_record h /\ bytes <= resume_maxBytes limits - retainedBytes h'.
Proof.
  induction ps as [|[x r] ps IH]; intros [|fuel] h H Hb Hl; cbn in Hl; try lia; cbn [evict_ring];
    rewrite (hr_bytes _ _ H), (repr_head _ _ (hr_ring _ _ H)); cbn [head fmap list_fmap fst snd].
  { cbn [total]. rewrite decide_False by lia. exists h, []. split_and!; try done. rewrite (hr_bytes _ _ H). cbn. lia. }
  cbn [trim_ring]. case_decide as He.
  - destruct (remove_repr _ [] _ _ _ H) as [H' Hn].
    destruct (IH fuel _ H' Hb) as (h' & ps' & ? & ? & ? & Hn' & ?); [lia|]. exists h', ps'. by rewrite Hn' in *.
  - exists h, ((x, r) :: ps). split_and!; try done. rewrite (hr_bytes _ _ H). cbn [fmap list_fmap snd]. lia.
Qed.
Definition limits_ok : Prop :=
  0 < maxTransitionsPerStream limits /\ 0 < maxBytesPerStream limits /\ 0 < resume_maxBytes limits /\
  0 < resume_maxAgeMs limits.

Lemma prune_repr now h ps : hist_repr h ps ->
  exists h' ps', prune limits now h = Some h' /\ hist_repr h' ps' /\ ps'.*2 = drop_expired now ps.*2.
Proof.
  intros H. destruct (prune_loop_repr now ps (S (next_record h)) h H) as (h' & ps' & ? & ? & ? & _).
  { pose proof (hist_repr_length _ _ H). lia. }
  by exists h', ps'.
Qed.

Lemma clear_repr_list h ps e : hist_repr h ps ->
  exists ps', hist_repr (clear e h) ps' /\ ps'.*2 = filter (fun r => r_entry r <> e) ps.*2.
Proof.
  intros H. eexists. split; [apply (clear_repr _ _ _ H)|]. clear H.
  induction ps as [|[x r] ps IH]; [done|]. cbn [fmap list_fmap snd]. rewrite !filter_cons. cbn [snd].
  case_decide; cbn; congruence.
Qed.

Lemma retain_repr r h ps : limits_ok -> hist_repr h ps -> active r = true ->
  exists b h' ps', retain limits r h = Some (Ret (b, h')) /\ hist_repr h' ps' /\ (b, ps'.*2) = retained r ps.*2.
Proof.
  intros (H0 & _ & _ & _) H Ha. unfold retain, retained.
  destruct (prune_repr (createdAtMs r) h ps H) as (h1 & ps1 & -> & Hr1 & E1). rewrite <- E1. cbn [mbind option_bind].
  case_decide as Hbig.
  { destruct (clear_repr_list _ _ (r_entry r) Hr1) as (ps2 & Hr2 & E2). by exists false, (clear (r_entry r) h1), ps2; rewrite E2. }
  pose proof (hist_repr_length _ _ Hr1).
  destruct (evict_stream_repr (r_entry r) (r_bytes r) ps1 [] (S (next_record h1)) h1) as (h2 & ps2 & -> & Hr2 & E2 & _);
    [done|lia|done|constructor|lia|]. cbn [mbind option_bind].
  pose proof (hist_repr_length _ _ Hr2).
  destruct (evict_ring_repr (r_bytes r) ps2 (S (next_record h2)) h2) as (h3 & ps3 & -> & Hr3 & E3 & _ & Hfit); [done|lia|lia|].
  cbn [mbind option_bind]. rewrite decide_False by lia.
  exists true, (append r h3), (ps3 ++ [(next_record h3, r)]). split_and!; [done|by apply append_repr|].
  rewrite fmap_app, E3, E2. done.
Qed.

(** ** The budgets *)

Record within (rs : list HistoryRecord) : Prop := {
  wi_bytes : Forall (fun r => 0 <= r_bytes r) rs;
  wi_ring : total rs <= resume_maxBytes limits;
  wi_transitions e : Z.of_nat (length (of_entry e rs)) <= maxTransitionsPerStream limits;
  wi_stream e : total (of_entry e rs) <= maxBytesPerStream limits;
}.

Lemma total_sublist rs rs' : Forall (fun r => 0 <= r_bytes r) rs' -> rs `sublist_of` rs' -> total rs <= total rs'.
Proof.
  intros Hf Hs. induction Hs as [|r l l' Hs IH|r l l' Hs IH]; cbn; [lia| |]; apply Forall_cons_1 in Hf as [? ?];
    specialize (IH ltac:(done)); lia.
Qed.

Lemma of_entry_sublist e rs rs' : rs `sublist_of` rs' -> of_entry e rs `sublist_of` of_entry e rs'.
Proof.
  induction 1 as [|r l l' _ IH|r l l' _ IH]; rewrite ?of_entry_cons; [done| |]; case_decide; try done;
    by constructor.
Qed.

Lemma within_sublist rs rs' : within rs' -> rs `sublist_of` rs' -> within rs.
Proof.
  intros [Hb Hr Ht Hs] Hsub. split.
  - rewrite list.Forall_forall in Hb |- *. intros r Hin. apply Hb. by eapply sublist_subseteq.
  - pose proof (total_sublist _ _ Hb Hsub). lia.
  - intros e. pose proof (sublist_length _ _ (of_entry_sublist e _ _ Hsub)). specialize (Ht e). lia.
  - intros e. assert (Hbe : Forall (fun r => 0 <= r_bytes r) (of_entry e rs')).
    { rewrite list.Forall_forall in Hb |- *. intros r [_ Hin]%list_elem_of_filter. auto. }
    pose proof (total_sublist _ _ Hbe (of_entry_sublist e _ _ Hsub)). specialize (Hs e). lia.
Qed.

Lemma suffix_sublist (rs rs' : list HistoryRecord) : rs `suffix_of` rs' -> rs `sublist_of` rs'.
Proof. intros [k ->]. by apply sublist_inserts_l. Qed.

Lemma drop_expired_suffix now rs : drop_expired now rs `suffix_of` rs.
Proof. induction rs as [|r rs IH]; cbn; [done|]. case_decide; [by apply suffix_cons_r|done]. Qed.

Lemma trim_ring_suffix bytes rs : trim_ring bytes rs `suffix_of` rs.
Proof. induction rs as [|r rs IH]; cbn; [done|]. case_decide; [by apply suffix_cons_r|done]. Qed.

Lemma trim_stream_sublist e bytes rs : trim_stream e bytes rs `sublist_of` rs.
Proof. induction rs as [|r rs IH]; cbn; [done|]. repeat case_decide; try done; by constructor. Qed.

Lemma trim_ring_fits bytes rs : bytes <= resume_maxBytes limits -> bytes <= resume_maxBytes limits - total (trim_ring bytes rs).
Proof. intros Hb. induction rs as [|r rs IH]; cbn; [lia|]. case_decide; [done|]. cbn. lia. Qed.

(** The stream of an entry after trimming: the records that other entries keep
    change nothing, and there is room. *)
Lemma trim_stream_room e bytes rs : limits_ok -> bytes <= maxBytesPerStream limits -> ~ crowded e bytes (trim_stream e bytes rs).
Proof.
  intros (H0 & _) Hb. induction rs as [|r rs IH]; cbn [trim_stream].
  - unfold crowded. cbn. lia.
  - repeat case_decide; try done. unfold crowded in *. by rewrite of_entry_cons, decide_False by done.
Qed.

Lemma retained_within r rs : limits_ok -> 0 <= r_bytes r -> within rs -> within (retained r rs).2.
Proof.
  intros Hl Hb Hw. unfold retained.
  assert (Hd : within (drop_expired (createdAtMs r) rs)).
  { eapply within_sublist; [exact Hw|]. apply suffix_sublist, drop_expired_suffix. }
  case_decide as Hbig; cbn.
  { eapply within_sublist; [exact Hd|apply sublist_filter]. }
  set (rs1 := trim_stream (r_entry r) (r_bytes r) (drop_expired (createdAtMs r) rs)).
  assert (Hsub : trim_ring (r_bytes r) rs1 `sublist_of` rs1) by apply suffix_sublist, trim_ring_suffix.
  assert (Hw1 : within rs1) by (eapply within_sublist; [exact Hd|apply trim_stream_sublist]).
  assert (Hw2 : within (trim_ring (r_bytes r) rs1)) by (eapply within_sublist; done).
  pose proof (trim_ring_fits (r_bytes r) rs1 ltac:(lia)) as Hf.
  assert (Hroom : ~ crowded (r_entry r) (r_bytes r) (trim_ring (r_bytes r) rs1)).
  { pose proof (trim_stream_room (r_entry r) (r_bytes r) (drop_expired (createdAtMs r) rs) Hl ltac:(lia)) as Hn.
    fold rs1 in Hn. unfold crowded in *.
    pose proof (sublist_length _ _ (of_entry_sublist (r_entry r) _ _ Hsub)).
    assert (total (of_entry (r_entry r) (trim_ring (r_bytes r) rs1)) <= total (of_entry (r_entry r) rs1)); [|lia].
    apply total_sublist; [|by apply of_entry_sublist].
    apply list.Forall_forall. intros r' [_ Hin]%list_elem_of_filter. pose proof (wi_bytes _ Hw1) as Hb1.
    rewrite list.Forall_forall in Hb1. auto. }
  unfold crowded in Hroom. destruct Hw2 as [Hb2 Hr2 Ht2 Hs2]. split.
  - apply Forall_app. by split; [|constructor].
  - rewrite total_app. cbn. lia.
  - intros e. specialize (Ht2 e). rewrite of_entry_app, of_entry_cons, length_app.
    case_decide; cbn; [subst; lia|lia].
  - intros e. specialize (Hs2 e). rewrite of_entry_app, of_entry_cons, total_app.
    case_decide; cbn; [subst; lia|lia].
Qed.

(** ** Histories of calls *)

Inductive HistoryCall : Type := CRetain (r : HistoryRecord) | CPrune (now : Z) | CClear (e : nat).

Definition onto {A B} (f : A -> B) (r : option (exc js_error A)) : option (exc js_error B) :=
  match r with Some (Ret a) => Some (Ret (f a)) | Some (Throw e) => Some (Throw e) | None => None end.

Definition call (c : HistoryCall) (h : TransitionHistory) : option (exc js_error (list bool * TransitionHistory)) :=
  match c with
  | CRetain r => onto (fun '(b, h) => ([b], h)) (retain limits r h)
  | CPrune now => h ← prune limits now h; Some (Ret ([], h))
  | CClear e => Some (Ret ([], clear e h))
  end.

Fixpoint calls (cs : list HistoryCall) (h : TransitionHistory) : option (exc js_error (list bool * TransitionHistory)) :=
  match cs with
  | [] => Some (Ret ([], h))
  | c :: cs =>
      r ← call c h;
      match r with
      | Throw e => Some (Throw e)
      | Ret (bs, h) => onto (fun '(bs', h) => (bs ++ bs', h)) (calls cs h)
      end
  end.

Definition list_call (c : HistoryCall) (rs : list HistoryRecord) : list bool * list HistoryRecord :=
  match c with
  | CRetain r => let '(b, rs) := retained r rs in ([b], rs)
  | CPrune now => ([], drop_expired now rs)
  | CClear e => ([], filter (fun r => r_entry r <> e) rs)
  end.

Fixpoint list_calls (cs : list HistoryCall) (rs : list HistoryRecord) : list bool * list HistoryRecord :=
  match cs with
  | [] => ([], rs)
  | c :: cs => let '(bs, rs) := list_call c rs in let '(bs', rs) := list_calls cs rs in (bs ++ bs', rs)
  end.

Definition call_ok (c : HistoryCall) : Prop :=
  match c with CRetain r => active r = true /\ 0 <= r_bytes r | _ => True end.

Lemma call_repr c h ps : limits_ok -> call_ok c -> hist_repr h ps -> within ps.*2 ->
  exists bs h' ps', call c h = Some (Ret (bs, h')) /\ hist_repr h' ps' /\ (bs, ps'.*2) = list_call c ps.*2 /\ within ps'.*2.
Proof.
  intros Hl Hc H Hw. destruct c as [r|now|e]; cbn [call call_ok list_call] in *.
  - destruct (retain_repr r h ps Hl H (proj1 Hc)) as (b & h' & ps' & -> & H' & E).
    pose proof (retained_within r _ Hl (proj2 Hc) Hw) as Hw'. rewrite <- E in *. by exists [b], h', ps'.
  - destruct (prune_repr now h ps H) as (h' & ps' & -> & H' & E). exists [], h', ps'. rewrite E. split_and!; try done.
    eapply within_sublist; [exact Hw|]. apply suffix_sublist, drop_expired_suffix.
  - destruct (clear_repr_list h ps e H) as (ps' & H' & E). exists [], (clear e h), ps'. rewrite E. split_and!; try done.
    eapply within_sublist; [exact Hw|apply sublist_filter].
Qed.

Lemma calls_repr cs : forall h ps, limits_ok -> Forall call_ok cs -> hist_repr h ps -> within ps.*2 ->
  exists bs h' ps', calls cs h = Some (Ret (bs, h')) /\ hist_repr h' ps' /\ (bs, ps'.*2) = list_calls cs ps.*2 /\
    within ps'.*2.
Proof.
  induction cs as [|c cs IH]; intros h ps Hl Hc H Hw; cbn [calls list_calls]; [by exists [], h, ps|].
  apply Forall_cons_1 in Hc as [Hc Hcs].
  destruct (call_repr c h ps Hl Hc H Hw) as (bs & h1 & ps1 & -> & Hr1 & <- & Hw1). cbn [mbind option_bind].
  destruct (IH h1 ps1 Hl Hcs Hr1 Hw1) as (bs' & h2 & ps2 & -> & Hr2 & <- & Hw2). by exists (bs ++ bs'), h2, ps2.
Qed.
End limits.

(** ** Chains *)

(** The slice of an entry is contiguous: each record goes forward from where the
    one before it ended. *)
Fixpoint linked (rs : list HistoryRecord) : Prop :=
  match rs with
  | [] => True
  | r :: rs => fromVersion r < toVersion r /\ match rs with r' :: _ => fromVersion r' = toVersion r | [] => True end /\ linked rs
  end.

(** A run of records from one version to another. *)
Fixpoint runs (c : list HistoryRecord) (from to : Z) : Prop :=
  match c with
  | [] => from = to
  | r :: c => fromVersion r = from /\ runs c (toVersion r) to
  end.

Lemma runs_le c : forall from to, linked c -> runs c from to -> from <= to.
Proof.
  induction c as [|r c IH]; intros from to; cbn; [lia|]. intros (Hf & _ & Hl) [<- Hr].
  specialize (IH _ _ Hl Hr). lia.
Qed.

Lemma linked_from r rs r' : linked (r :: rs) -> r' ∈ rs -> toVersion r <= fromVersion r'.
Proof.
  revert r. induction rs as [|r1 rs IH]; intros r; cbn [linked]; [by intros _ ?%elem_of_nil|].
  intros (_ & He & Hl) [->|Hin]%elem_of_cons; [lia|]. specialize (IH _ Hl Hin). cbn in Hl. lia.
Qed.

(** Reading on from a record: a run of the slice's next records, if there is one. *)
Lemma chain_from_linked rs : forall version to,
  Forall (fun r => active r = true) rs -> linked rs -> version < to ->
  match rs with r :: _ => version <= fromVersion r | [] => True end ->
  match chain_from rs version to with
  | Some c => c <> [] /\ runs c version to /\ c `prefix_of` rs
  | None => ~ exists c, c `prefix_of` rs /\ runs c version to
  end.
Proof.
  induction rs as [|r rs IH]; intros version to Ha Hl Hlt Hv; cbn [chain_from].
  { intros (c & Hc%prefix_nil_inv & Hr). subst. cbn in Hr. lia. }
  apply Forall_cons_1 in Ha as [-> Ha]. rewrite bool_decide_eq_false_2 by lia. cbn [negb orb].
  destruct Hl as (Hf & Hn & Hl).
  case_decide as Hne.
  { intros ([|r' c] & Hp & Hr); cbn in Hr; [lia|]. apply prefix_cons_inv_1 in Hp. subst. tauto. }
  destruct (decide (toVersion r = to)) as [<-|Hto].
  { split_and!; [done|cbn; lia|]. apply (prefix_app_r [r] [r] rs). done. }
  case_decide as Hgt.
  { intros ([|r' c] & Hp & Hr); cbn in Hr; [lia|]. destruct Hp as [k Hk]. injection Hk as -> ->.
    destruct Hr as [_ Hr]. apply runs_le in Hr; [lia|]. clear -Hl. induction c as [|r c IH] in k, Hl |- *; cbn; [done|].
    destruct Hl as (? & Hn & Hl). split_and!; [done| |by apply (IH k)]. by destruct c. }
  specialize (IH (toVersion r) to Ha Hl ltac:(lia)).
  destruct (chain_from rs (toVersion r) to) as [c|]; cbn.
  - destruct IH as (_ & Hr & Hp); [by destruct rs; [|lia]|]. split_and!; [done|lia|done|by apply prefix_cons].
  - intros ([|r' c] & Hp & Hr); cbn in Hr; [lia|]. pose proof (prefix_cons_inv_1 _ _ _ _ Hp) as ->.
    apply IH; [by destruct rs; [|lia]|]. exists c. split; [by apply prefix_cons_inv_2 in Hp|tauto].
Qed.

Lemma linked_app a b : linked (a ++ b) -> linked a /\ linked b.
Proof.
  induction a as [|r a IH]; [done|]. cbn [app linked]. intros (Hf & Hn & Hl). destruct (IH Hl) as [Ha Hb].
  split_and!; try done. by destruct a.
Qed.

Lemma chain_linked rs from to :
  Forall (fun r => active r = true) rs -> linked rs -> from < to ->
  match chain_from rs from to with
  | Some c => c <> [] /\ runs c from to /\ exists a b, rs = a ++ c ++ b
  | None => ~ exists a c b, rs = a ++ c ++ b /\ runs c from to
  end.
Proof.
  intros Ha Hl Hlt. induction rs as [|r rs IH].
  { intros (a & c & b & Hrs & Hr). symmetry in Hrs. apply app_nil in Hrs as [_ [-> _]%app_nil]. cbn in Hr. lia. }
  destruct (decide (fromVersion r < from)) as [Hskip|Hge].
  - cbn [chain_from]. apply Forall_cons_1 in Ha as [-> Ha]. rewrite bool_decide_eq_true_2 by done. cbn [negb orb].
    specialize (IH Ha (proj2 (proj2 Hl))). destruct (chain_from rs from to) as [c|].
    + destruct IH as (? & ? & a & b & ->). split_and!; [done..|]. by exists (r :: a), b.
    + intros ([|r' a] & c & b & Hrs & Hr).
      * destruct c as [|r' c]; cbn in Hrs, Hr; [lia|]. injection Hrs as -> ->. lia.
      * injection Hrs as -> ->. apply IH. eauto.
  - pose proof (chain_from_linked (r :: rs) from to Ha Hl Hlt ltac:(cbn; lia)) as H.
    destruct (chain_from (r :: rs) from to) as [c|].
    + destruct H as (? & ? & b & ->). split_and!; [done..|]. by exists [], b.
    + intros ([|r' a] & c & b & Hrs & Hr); [apply H; exists c; split; [by exists b|done]|].
      destruct c as [|r1 c]; cbn in Hr; [lia|]. cbn in Hrs. injection Hrs as <- ->.
      pose proof (linked_from r (a ++ r1 :: c ++ b) r1 Hl ltac:(set_solver)). destruct Hl as (? & _). lia.
Qed.

Lemma slice_records_repr h ps e : hist_repr h ps ->
  slice_records h e = of_entry e ps.*2 /\ Forall (fun r => active r = true) (of_entry e ps.*2).
Proof.
  intros H. unfold slice_records. rewrite (hr_slice _ _ H), fst_of_entry. cbn [history].
  assert (Hr : forall p, p ∈ filter (fun p => r_entry p.2 = e) ps -> records h !! p.1 = Some p.2 /\ active p.2 = true).
  { intros [x r] [_ Hin]%list_elem_of_filter. by apply (hr_records _ _ H). }
  clear H. induction (filter _ ps) as [|[x r] l IH]; [done|]. cbn [fmap list_fmap fst snd omap list_omap].
  destruct (Hr (x, r)) as [Hx Ha]; [left|]. cbn [fst snd] in Hx, Ha. rewrite Hx. destruct IH as [-> IH]; [intros p Hp; apply Hr; by right|].
  split; [done|by constructor].
Qed.

(** ** The property *)

(** C18: for positive limits, whatever transitions are retained, pruned and
    cleared, and whatever the clock reads, every loop of the resume window ends
    without an error, and the ring, its links, the slices of the entries and the
    counters are those of the list that the calls, seen as operations on a list,
    leave; each call answers as the list operation does, the bytes of the ring
    and the transitions and bytes of every stream stay within their budgets, and
    [chain] reads the records of the entry's part of that list. *)
Theorem resume_window_refines limits cs :
  limits_ok limits -> Forall call_ok cs ->
  exists answers h, calls limits cs new_TransitionHistory = Some (Ret (answers, h)) /\
  let rs := (list_calls limits cs []).2 in
  answers = (list_calls limits cs []).1 /\
  retainedBytes h = total rs /\ retainedTransitions h = Z.of_nat (length rs) /\
  (total rs <= resume_maxBytes limits /\ forall e,
     Z.of_nat (length (history (slice h e))) <= maxTransitionsPerStream limits /\
     historyBytes (slice h e) = total (of_entry e rs) /\ historyBytes (slice h e) <= maxBytesPerStream limits) /\
  forall e from to, chain h e from to = if decide (to <= from) then None else chain_from (of_entry e rs) from to.
Proof.
  intros Hl Hc. destruct (calls_repr limits cs new_TransitionHistory [] Hl Hc hist_repr_new) as (bs & h & ps & Hcs & H & He & Hw).
  { destruct Hl as (? & ? & ? & ?). split; cbn [fmap list_fmap]; [by apply Forall_nil|cbn; lia|intros e; cbn; lia..]. }
  exists bs, h. split; [done|]. rewrite (hr_bytes _ _ H), (hr_count _ _ H). change ([] : list (nat * HistoryRecord)).*2 with (@nil HistoryRecord) in He.
  rewrite <- He. cbn [fst snd]. rewrite length_fmap. split_and!; [done..|apply (wi_ring _ _ Hw)| |].
  - intros e. rewrite (hr_slice _ _ H). cbn [history historyBytes]. split_and!; [|done|apply (wi_stream _ _ Hw)].
    pose proof (wi_transitions _ _ Hw e) as Ht. rewrite fst_of_entry, length_fmap in Ht. by rewrite length_fmap.
  - intros e from to. unfold chain. by rewrite (proj1 (slice_records_repr _ _ e H)).
Qed.

Definition record_at (e : nat) (from bytes at_ : Z) : HistoryRecord :=
  MkRecord e from (from + 1) update_kind (VStr "row"%string) None bytes at_ true.

(** Two transitions a stream: a third evicts the first, so that a client at
    version 2 resumes and one at version 1 does not. *)
Lemma resume_window_refines_witness :
  let limits := MkResumeLimits 2 100 1000 150 in
  let cs := [CRetain (record_at 7 1 10 0); CRetain (record_at 8 1 90 1); CRetain (record_at 7 2 10 2); CRetain (record_at 7 3 10 3)] in
  exists answers h, calls limits cs new_TransitionHistory = Some (Ret (answers, h)) /\
  answers = [true; true; true; true] /\ retainedBytes h = 110 /\
  is_Some (chain h 7 2 4) /\ chain h 7 1 4 = None.
Proof.
  intros limits cs. destruct (resume_window_refines limits cs) as (answers & h & Hc & Ha & Hb & _ & _ & Hch).
  - unfold limits_ok. cbn. lia.
  - repeat constructor; cbn; lia.
  - exists answers, h. split; [done|]. rewrite Ha, Hb, !Hch. vm_compute. split_and!; try done. by eexists.
Defined.
