(* ===== verification/Dependencies.v ===== *)
(** Read and write keys: [server/src/database/keys.ts] and
    [server/src/database/query/dependencies.ts], with the predicate tree of
    [query/predicate.ts].

    A query records, for each table it reads, the keys its predicates pin down;
    a write emits the keys of the row it touches. A key is the tuple its string
    spells: for an index, the JSON value of the prefix, in which [-0] is the [0]
    that [JSON.stringify] writes for both. *)
From S2P Require Import Prelude Errors Value Wire StableEncode.
Local Open Scope string_scope.
Local Open Scope list_scope.

(** ** Keys *)

Inductive Key : Type :=
  | KId (table : string) (id : value)
  | KScan (table : string)
  | KIx (table index : string) (prefix : value)
  | KFts (table column : string).

#[export] Instance Key_eq_dec : EqDecision Key.
Proof. solve_decision. Defined.

Record IndexDef : Type := MkIndex { ix_name : string; ix_columns : list string }.

(** What a key needs of a table's plan: [toSql] is the first storage value of a
    column's codec. *)
Record TablePlan : Type := MkPlan {
  plan_name : string;
  plan_pk : string;
  indexes : list IndexDef;
  toSql : string -> value -> value;
  fullText : list string;
}.

Definition idKey (table : string) (id : value) : Key := KId table id.
Definition scanKey (table : string) : Key := KScan table.
Definition ixKey (table index : string) (prefixSqlValues : list value) : exc js_error Key :=
  json ← stableEncode (VArr prefixSqlValues); Ret (KIx table index json).
Arguments ixKey : simpl never.
Definition ftsCorpusKey (table column : string) : Key := KFts table column.

(** The keys of one index: one for each prefix of its columns. *)
Fixpoint emit_index (plan : TablePlan) (index : string) (row : list (string * value)) (prefix : list value)
    (columns : list string) : exc js_error (list Key) :=
  match columns with
  | [] => Ret []
  | column :: columns =>
      let prefix := prefix ++ [toSql plan column (field column row)] in
      k ← ixKey (plan_name plan) index prefix;
      ks ← emit_index plan index row prefix columns;
      Ret (k :: ks)
  end.

Fixpoint emit_indexes (plan : TablePlan) (row : list (string * value)) (l : list IndexDef)
    : exc js_error (list Key) :=
  match l with
  | [] => Ret []
  | index :: l =>
      ks ← emit_index plan (ix_name index) row [] (ix_columns index);
      rest ← emit_indexes plan row l;
      Ret (ks ++ rest)
  end.

Definition emitWriteKeys (plan : TablePlan) (row : list (string * value)) : exc js_error (list Key) :=
  ks ← emit_indexes plan row (indexes plan);
  Ret (idKey (plan_name plan) (field (plan_pk plan) row) :: scanKey (plan_name plan) :: ks).

(** [Object.is] tells [-0] from [0], and so does equality here. *)
Definition emitFullTextWriteKeys (plan : TablePlan) (before after : option (list (string * value))) : list Key :=
  (fun column => ftsCorpusKey (plan_name plan) column) <$>
  List.filter (fun column =>
    match before, after with
    | Some b, Some a => negb (bool_decide (field column b = field column a))
    | _, _ => true
    end) (fullText plan).

(** ** Predicates *)

Inductive ComparisonOperator : Type := eq_op | ne_op | lt_op | lte_op | gt_op | gte_op.

Inductive PredicateNode : Type :=
  | PComparison (column : string) (op : ComparisonOperator) (v : value)
  | PIn (column : string) (vs : list value)
  | PBetween (column : string) (lower upper : value)
  | PNull (column : string) (isNull : bool)
  | PAnd (left right : PredicateNode)
  | POr (left right : PredicateNode)
  | PNot (expression : PredicateNode).

(** ** Branches *)

Definition MAX_REACTIVE_DEPENDENCY_KEYS : nat := 64.

Definition ExactValues : Type := list value.
Definition Branch : Type := list (string * ExactValues).

Definition isScalarStorageValue (v : value) : bool :=
  match v with
  | VNull | VStr _ | VBig _ => true
  | VNum n => num_is_finite n
  | _ => false
  end.

(** The comparison of [includes], on storage values. *)
Definition sameValueZero (left right : value) : bool := bool_decide (norm left = norm right).
Definition includes (vs : ExactValues) (v : value) : bool := existsb (sameValueZero v) vs.

(** The loop of [exactBranches]; [None] when it gave up. *)
Fixpoint exact_values (exact vs : list value) : option ExactValues :=
  match vs with
  | [] => Some exact
  | v :: vs =>
      if negb (isScalarStorageValue v) then None
      else
        let exact := if includes exact v then exact else exact ++ [v] in
        if bool_decide (MAX_REACTIVE_DEPENDENCY_KEYS < length exact)%nat then None
        else exact_values exact vs
  end.

Definition exactBranches (column : string) (vs : list value) : list Branch :=
  match exact_values [] vs with
  | None => [[]]
  | Some [] => []
  | Some exact => [[(column, exact)]]
  end.

Definition exactValueBranch (column : string) (v : value) : list Branch :=
  if isScalarStorageValue v then [[(column, [v])]] else [[]].

Definition constraint (branch : Branch) (column : string) : option ExactValues :=
  snd <$> List.find (fun c => bool_decide (c.1 = column)) branch.

Definition sameValues (left right : ExactValues) : bool :=
  bool_decide (length left = length right) && forallb (includes right) left.

Fixpoint isSameValueZeroPrefix (prefix vs : ExactValues) : bool :=
  match prefix, vs with
  | [], _ => true
  | p :: prefix, v :: vs => sameValueZero p v && isSameValueZeroPrefix prefix vs
  | _ :: _, [] => false
  end.

Definition commonBranch (branches : list Branch) : Branch :=
  let first := default [] (head branches) in
  if bool_decide (length branches = 1%nat) then first
  else List.filter (fun expected =>
         forallb (fun candidate =>
           match constraint candidate expected.1 with
           | Some actual => sameValues expected.2 actual
           | None => false
           end) branches) first.

Definition intersectValues (left right : ExactValues) : ExactValues :=
  if bool_decide (length left <= length right)%nat
  then List.filter (includes right) left else List.filter (includes left) right.

(** One constraint of the right branch into the merged one. *)
Fixpoint merge_constraint (merged : Branch) (column : string) (vs : ExactValues) : option Branch :=
  match merged with
  | [] => Some [(column, vs)]
  | (c, leftValues) :: merged =>
      if decide (c = column) then
        if sameValues leftValues vs then Some ((c, leftValues) :: merged)
        else
          match intersectValues leftValues vs with
          | [] => None
          | intersection => Some ((column, intersection) :: merged)
          end
      else rest ← merge_constraint merged column vs; Some ((c, leftValues) :: rest)
  end.

Fixpoint mergeBranches (left right : Branch) : option Branch :=
  match right with
  | [] => Some left
  | (column, vs) :: rest => merged ← merge_constraint left column vs; mergeBranches merged rest
  end.

Definition andBranches (left right : list Branch) : list Branch :=
  match left, right with
  | [], _ | _, [] => []
  | [[]], _ => right
  | _, [[]] => left
  | _, _ =>
      if bool_decide (MAX_REACTIVE_DEPENDENCY_KEYS < length left * length right)%nat
      then match mergeBranches (commonBranch left) (commonBranch right) with
           | None => [] | Some widened => [widened] end
      else omap (fun p => mergeBranches p.1 p.2) (l ← left; r ← right; [(l, r)])
  end.

Definition orBranches (left right : list Branch) : list Branch :=
  match left, right with
  | [], _ => right
  | _, [] => left
  | _, _ =>
      let all := left ++ right in
      if bool_decide (length all <= MAX_REACTIVE_DEPENDENCY_KEYS)%nat then all else [commonBranch all]
  end.

Fixpoint predicateBranches (node : PredicateNode) : list Branch :=
  match node with
  | PComparison column op v => match op with eq_op => exactValueBranch column v | _ => [[]] end
  | PIn column vs => exactBranches column vs
  | PNull column isNull => if isNull then exactValueBranch column VNull else [[]]
  | PBetween _ _ _ | PNot _ => [[]]
  | PAnd p q => andBranches (predicateBranches p) (predicateBranches q)
  | POr p q => orBranches (predicateBranches p) (predicateBranches q)
  end.

Definition allPredicateBranches (predicates : list PredicateNode) : list Branch :=
  match predicates with
  | [] => [[]]
  | p :: predicates =>
      foldl (fun branches q => andBranches branches (predicateBranches q)) (predicateBranches p) predicates
  end.

(** ** Index prefixes *)

(** [index] is the position of the index in the plan, which stands for its identity. *)
Record IndexPrefix : Type := MkPrefix { branch : Branch; index : nat; depth : nat; keyCount : nat }.
Record ConcreteIndexPrefix : Type := MkConcrete { at_index : nat; values : list value }.

(** The loop over the columns of an index. [n > floor(64 / k)] is [n * k > 64],
    for [k = 0] as well. *)
Fixpoint prefix_depth (branch : Branch) (columns : list string) (depth keyCount : nat) : nat * nat :=
  match columns with
  | [] => (depth, keyCount)
  | column :: columns =>
      match constraint branch column with
      | None => (depth, keyCount)
      | Some vs =>
          if bool_decide (MAX_REACTIVE_DEPENDENCY_KEYS < length vs * keyCount)%nat then (depth, keyCount)
          else prefix_depth branch columns (S depth) (keyCount * length vs)
      end
  end.

Fixpoint best_prefix (branch : Branch) (l : list IndexDef) (position : nat) (best : option (nat * nat * nat))
    : option (nat * nat * nat) :=
  match l with
  | [] => best
  | index :: l =>
      let '(depth, keyCount) := prefix_depth branch (ix_columns index) 0 1 in
      let '(bestDepth, bestKeyCount) := match best with Some (_, d, k) => (d, k) | None => (0, 0)%nat end in
      let better := bool_decide (0 < depth)%nat &&
        (bool_decide (bestDepth < depth)%nat ||
         (bool_decide (depth = bestDepth) && bool_decide (keyCount < bestKeyCount)%nat)) in
      best_prefix branch l (S position) (if better then Some (position, depth, keyCount) else best)
  end.

Definition bestPrefix (plan : TablePlan) (branch : Branch) : option IndexPrefix :=
  '(position, depth, keyCount) ← best_prefix branch (indexes plan) 0 None;
  Some (MkPrefix branch position depth keyCount).

(** The columns of a prefix, and the exact values of each. *)
Definition index_columns (plan : TablePlan) (i : nat) : list string :=
  default [] (ix_columns <$> indexes plan !! i).
Definition index_name (plan : TablePlan) (i : nat) : string :=
  default EmptyString (ix_name <$> indexes plan !! i).
Definition exacts (plan : TablePlan) (prefix : IndexPrefix) : list ExactValues :=
  (fun column => default [] (constraint (branch prefix) column)) <$>
  take (depth prefix) (index_columns plan (index prefix)).

Definition retain (i : nat) (retained : list ConcreteIndexPrefix) (vs : list value)
    : bool * list ConcreteIndexPrefix :=
  if existsb (fun candidate => bool_decide (at_index candidate = i) &&
       isSameValueZeroPrefix (values candidate) vs) retained then (true, retained)
  else if bool_decide (length retained = MAX_REACTIVE_DEPENDENCY_KEYS) then (false, retained)
  else (true, retained ++ [MkConcrete i vs]).

(** Every tuple of exact values in turn; [false] stops. *)
Fixpoint retainPrefixValues (i : nat) (exacts : list ExactValues) (retained : list ConcreteIndexPrefix)
    (vs : list value) : bool * list ConcreteIndexPrefix :=
  match exacts with
  | [] => retain i retained vs
  | exact :: exacts =>
      (fix each (exact : ExactValues) (retained : list ConcreteIndexPrefix) :=
         match exact with
         | [] => (true, retained)
         | v :: exact =>
             let '(ok, retained) := retainPrefixValues i exacts retained (vs ++ [v]) in
             if ok then each exact retained else (false, retained)
         end) exact retained
  end.

(** [sort] is stable: a prefix goes after those of no greater depth. *)
Fixpoint insert_prefix (p : IndexPrefix) (l : list IndexPrefix) : list IndexPrefix :=
  match l with
  | [] => [p]
  | q :: l => if bool_decide (depth q <= depth p)%nat then q :: insert_prefix p l else p :: q :: l
  end.
Definition sort_prefixes (l : list IndexPrefix) : list IndexPrefix :=
  foldl (fun sorted p => insert_prefix p sorted) [] l.

Fixpoint retain_all (plan : TablePlan) (prefixes : list IndexPrefix) (retained : list ConcreteIndexPrefix)
    : option (list ConcreteIndexPrefix) :=
  match prefixes with
  | [] => Some retained
  | p :: prefixes =>
      let '(ok, retained) := retainPrefixValues (index p) (exacts plan p) retained [] in
      if ok then retain_all plan prefixes retained else None
  end.

Definition preciseMultiBranchPrefixes (plan : TablePlan) (branches : list Branch)
    : option (list ConcreteIndexPrefix) :=
  prefixes ← mapM (bestPrefix plan) branches;
  retain_all plan (sort_prefixes prefixes) [].

(** ** Recording: the keys added, in order *)

Fixpoint recordPrefixValues (table index : string) (exacts : list ExactValues) (vs : list value)
    : exc js_error (list Key) :=
  match exacts with
  | [] => k ← ixKey table index vs; Ret [k]
  | exact :: exacts =>
      (fix each (exact : ExactValues) :=
         match exact with
         | [] => Ret []
         | v :: exact =>
             ks ← recordPrefixValues table index exacts (vs ++ [v]);
             rest ← each exact;
             Ret (ks ++ rest)
         end) exact
  end.

Definition recordPrefix (plan : TablePlan) (prefix : IndexPrefix) : exc js_error (list Key) :=
  recordPrefixValues (plan_name plan) (index_name plan (index prefix)) (exacts plan prefix) [].

Fixpoint record_concrete (plan : TablePlan) (l : list ConcreteIndexPrefix) : exc js_error (list Key) :=
  match l with
  | [] => Ret []
  | c :: l =>
      k ← ixKey (plan_name plan) (index_name plan (at_index c)) (values c);
      ks ← record_concrete plan l;
      Ret (k :: ks)
  end.

(** One branch, or the widened one: its best prefix, or the whole table. *)
Definition record_branch (plan : TablePlan) (b : Branch) : exc js_error (list Key) :=
  match bestPrefix plan b with
  | None => Ret [scanKey (plan_name plan)]
  | Some prefix => recordPrefix plan prefix
  end.

Definition recordPredicateDependencies (plan : TablePlan) (predicates : list PredicateNode)
    : exc js_error (list Key) :=
  match allPredicateBranches predicates with
  | [] => Ret []
  | [b] => record_branch plan b
  | branches =>
      match preciseMultiBranchPrefixes plan branches with
      | Some precise => record_concrete plan precise
      | None => record_branch plan (commonBranch branches)
      end
  end.
