(* ===== verification/DependenciesProps.v ===== *)
(** Reactivity is sound: a row that satisfies a query's predicates cannot be
    written without touching a key the query recorded. *)
From S2P Require Import Prelude Errors Value Wire StableEncode Dependencies.
Local Open Scope string_scope.
Local Open Scope list_scope.

(** ** Values and keys *)

Lemma sameValueZero_spec v w : sameValueZero v w = true <-> norm v = norm w.
Proof. unfold sameValueZero. by rewrite bool_decide_eq_true. Qed.

Lemma includes_spec vs v : includes vs v = true <-> norm v ∈ norm <$> vs.
Proof.
  unfold includes. rewrite existsb_exists. split.
  - intros (w & Hw & Hs%sameValueZero_spec). rewrite Hs. apply list_elem_of_fmap_2. by apply list_elem_of_In.
  - intros (w & Hs & Hw)%list_elem_of_fmap. exists w. split; [by apply list_elem_of_In|]. by apply sameValueZero_spec.
Qed.

Definition scalar (v : value) : Prop := isScalarStorageValue v = true.

Lemma scalar_norm v w : norm v = norm w -> scalar w -> scalar v.
Proof.
  unfold scalar. destruct v, w; cbn; try done;
    repeat match goal with n : num |- _ => destruct n end; cbn; done.
Qed.

(** What a storage value is in a key. *)
Definition key_value (v : value) : value :=
  match v with VBig z => written (sortDeep (escape "b" (VStr (Z_decimal z)))) | v => v end.

Lemma ixKey_scalars table i vs :
  Forall scalar vs -> ixKey table i vs = Ret (KIx table i (VArr (key_value <$> (norm <$> vs)))).
Proof.
  intros Hs. unfold ixKey, stableEncode.
  assert (Hw : exists ws, toWire (VArr vs) = Ret (VArr ws) /\
    written (sortDeep (VArr ws)) = VArr (key_value <$> (norm <$> vs))).
  { rewrite toWire_arr. cbn [written sortDeep].
    assert (Hi : exists ws, toWire_items vs = Ret ws /\
      map written (map sortDeep ws) = key_value <$> (norm <$> vs)).
    { induction Hs as [|v vs Hv Hs (ws & Hws & Hm)]; [by exists []|]. cbn [toWire_items fmap list_fmap].
      rewrite Hws. destruct v as [| | |n| |z| | | |]; try done.
      - exists (VNull :: ws). split; [done|]. cbn. by rewrite Hm.
      - unfold scalar in Hv. cbn in Hv. exists (VNum n :: ws). split; [cbn; by rewrite Hv|].
        cbn. rewrite Hm. by destruct n.
      - exists (VStr s :: ws). split; [done|]. cbn. by rewrite Hm.
      - exists (escape "b" (VStr (Z_decimal z)) :: ws). split; [done|].
        cbn [map]. rewrite Hm. done. }
    destruct Hi as (ws & -> & Hm). exists ws. split; [done|]. by rewrite Hm. }
  destruct Hw as (ws & -> & Hw). cbn [mbind exc_bind is_undefined]. by rewrite Hw.
Qed.

(** ** The keys a write emits *)

Definition stored (plan : TablePlan) (row : list (string * value)) (column : string) : value :=
  toSql plan column (field column row).

Lemma emit_index_prefix plan index row columns : forall prefix ks n,
  emit_index plan index row prefix columns = Ret ks -> (0 < n <= length columns)%nat ->
  exists k, ixKey (plan_name plan) index (prefix ++ (stored plan row <$> take n columns)) = Ret k /\ k ∈ ks.
Proof.
  induction columns as [|c columns IH]; intros prefix ks n H Hn; cbn in Hn; [lia|]. cbn in H. exc_inv. subst ks.
  destruct n as [|[|n]]; [lia| |].
  - exists x. split; [match goal with H : ixKey _ _ _ = Ret x |- _ => exact H end|apply list_elem_of_here].
  - destruct (IH _ _ (S n) H0) as (k & Hk & Hin); [lia|]. exists k.
    split; [|by apply list_elem_of_further]. rewrite <-Hk. f_equal. cbn. by rewrite <-app_assoc.
Qed.

Lemma emit_indexes_at plan row l : forall ks i index n,
  emit_indexes plan row l = Ret ks -> l !! i = Some index -> (0 < n <= length (ix_columns index))%nat ->
  exists k, ixKey (plan_name plan) (ix_name index) (stored plan row <$> take n (ix_columns index)) = Ret k /\ k ∈ ks.
Proof.
  induction l as [|ix l IH]; intros ks i index n H Hi Hn; [done|]. cbn in H. exc_inv. subst ks.
  destruct i as [|i]; cbn in Hi.
  - injection Hi as ->. destruct (emit_index_prefix _ _ _ _ _ _ n H Hn) as (k & Hk & Hin).
    exists k. split; [done|]. apply elem_of_app. by left.
  - destruct (IH _ _ _ n H0 Hi Hn) as (k & Hk & Hin). exists k. split; [done|]. apply elem_of_app. by right.
Qed.

(** A written row emits its table's key, and the key of every index prefix. *)
Lemma emitWriteKeys_keys plan row ks : emitWriteKeys plan row = Ret ks ->
  scanKey (plan_name plan) ∈ ks /\
  forall i n, (0 < n <= length (index_columns plan i))%nat ->
    exists k, ixKey (plan_name plan) (index_name plan i) (stored plan row <$> take n (index_columns plan i)) = Ret k /\
      k ∈ ks.
Proof.
  unfold emitWriteKeys. intros H. exc_inv. subst ks. split; [apply list_elem_of_further, list_elem_of_here|].
  intros i n Hn. unfold index_columns, index_name in *. destruct (indexes plan !! i) as [index|] eqn:E; cbn in *; [|lia].
  destruct (emit_indexes_at _ _ _ _ _ _ n H E Hn) as (k & Hk & Hin). exists k. split; [done|].
  by apply list_elem_of_further, list_elem_of_further.
Qed.

(** ** Branches *)

Section branches.
Context (st : string -> value).

Definition in_branch (b : Branch) : Prop := Forall (fun c => includes c.2 (st c.1) = true) b.

(** Exact values are scalars without repetition, and there are some. *)
Definition exact_ok (vs : ExactValues) : Prop := vs <> [] /\ Forall scalar vs /\ NoDup (norm <$> vs).
Definition branch_ok (b : Branch) : Prop := Forall (fun c => exact_ok c.2) b.

Definition satisfies (bs : list Branch) : Prop := exists b, b ∈ bs /\ in_branch b.

Lemma constraint_elem b c vs : constraint b c = Some vs -> (c, vs) ∈ b.
Proof.
  unfold constraint. destruct (List.find _ b) as [[c' vs']|] eqn:E; cbn; [|done]. intros [= ->].
  apply List.find_some in E as [Hin Hc%bool_decide_eq_true]. cbn in Hc. subst. by apply list_elem_of_In.
Qed.

Lemma constraint_in b c vs : in_branch b -> constraint b c = Some vs -> includes vs (st c) = true.
Proof.
  intros Hb Hc%constraint_elem. unfold in_branch in Hb. rewrite Forall_forall in Hb. apply (Hb _ Hc).
Qed.

Lemma constraint_ok b c vs : branch_ok b -> constraint b c = Some vs -> exact_ok vs.
Proof. intros Hb Hc%constraint_elem. unfold branch_ok in Hb. rewrite Forall_forall in Hb. apply (Hb _ Hc). Qed.

(** *** Exact values *)

Lemma exact_values_spec vs : forall exact e, Forall scalar exact -> NoDup (norm <$> exact) ->
  exact_values exact vs = Some e ->
  Forall scalar e /\ NoDup (norm <$> e) /\ (forall v, v ∈ norm <$> exact -> v ∈ norm <$> e) /\
  (forall v, v ∈ norm <$> vs -> v ∈ norm <$> e).
Proof.
  induction vs as [|v vs IH]; intros exact e Hs Hn; cbn.
  - intros [= ->]. split_and!; [done|done|done|]. by intros v ?%not_elem_of_nil.
  - destruct (isScalarStorageValue v) eqn:Ev; cbn; [|done].
    destruct (bool_decide _); [done|]. intros H.
    assert (Hx : Forall scalar (if includes exact v then exact else exact ++ [v]) /\
      NoDup (norm <$> (if includes exact v then exact else exact ++ [v])) /\
      (forall w, w ∈ norm <$> exact -> w ∈ norm <$> (if includes exact v then exact else exact ++ [v])) /\
      norm v ∈ norm <$> (if includes exact v then exact else exact ++ [v])).
    { destruct (includes exact v) eqn:E.
      - apply includes_spec in E. done.
      - split_and!.
        + apply Forall_app. split; [done|]. by repeat constructor.
        + rewrite fmap_app. apply NoDup_app. split_and!; [done| |apply NoDup_singleton].
          intros w Hw ->%list_elem_of_singleton. apply includes_spec in Hw. congruence.
        + intros w Hw. rewrite fmap_app, elem_of_app. by left.
        + rewrite fmap_app, elem_of_app. right. by apply list_elem_of_singleton. }
    destruct Hx as (H1 & H2 & H3 & H4). destruct (IH _ _ H1 H2 H) as (R1 & R2 & R3 & R4).
    split_and!; [done|done|auto|]. intros w [->|Hw]%elem_of_cons; auto.
Qed.

Lemma nil_satisfies : satisfies [[]].
Proof. exists []. split; [apply list_elem_of_here|apply Forall_nil_2]. Qed.

Lemma exactBranches_spec c vs :
  Forall branch_ok (exactBranches c vs) /\ (includes vs (st c) = true -> satisfies (exactBranches c vs)).
Proof.
  unfold exactBranches. destruct (exact_values [] vs) as [e|] eqn:E.
  - apply exact_values_spec in E as (Hs & Hn & _ & Hv); [|apply Forall_nil_2|apply NoDup_nil_2].
    destruct e as [|w e].
    + split; [apply Forall_nil_2|]. intros H%includes_spec. apply Hv in H. by apply not_elem_of_nil in H.
    + split.
      * apply Forall_singleton, Forall_singleton. by split_and!.
      * intros H%includes_spec. eexists. split; [apply list_elem_of_here|]. apply Forall_singleton.
        apply includes_spec. by apply Hv.
  - split; [apply Forall_singleton, Forall_nil_2|]. intros _. apply nil_satisfies.
Qed.

Lemma exactValueBranch_spec c v :
  Forall branch_ok (exactValueBranch c v) /\ (norm (st c) = norm v -> satisfies (exactValueBranch c v)).
Proof.
  unfold exactValueBranch. destruct (isScalarStorageValue v) eqn:E.
  - split.
    + apply Forall_singleton, Forall_singleton. split_and!; [done|by apply Forall_singleton|apply NoDup_singleton].
    + intros Hv. eexists. split; [apply list_elem_of_here|]. apply Forall_singleton, includes_spec. cbn [fst snd].
      rewrite Hv. apply list_elem_of_here.
  - split; [apply Forall_singleton, Forall_nil_2|]. intros _. apply nil_satisfies.
Qed.

(** *** Widening *)

(** Lists of one length without repetition, one inside the other, have the same elements. *)
Lemma sameValues_sub left right : NoDup (norm <$> left) ->
  sameValues left right = true -> forall v, includes right v = true -> includes left v = true.
Proof.
  unfold sameValues. intros Hn [Hl%bool_decide_eq_true Ha]%andb_true_iff v. rewrite !includes_spec.
  rewrite forallb_forall in Ha.
  assert (Hsub : norm <$> left ⊆+ norm <$> right).
  { apply NoDup_submseteq; [done|]. intros w (x & -> & Hx)%list_elem_of_fmap. apply includes_spec, Ha.
    by apply list_elem_of_In. }
  assert (Hp : norm <$> left ≡ₚ norm <$> right).
  { apply submseteq_length_Permutation; [done|]. rewrite !length_fmap. lia. }
  by rewrite Hp.
Qed.

Lemma commonBranch_ok bs : Forall branch_ok bs -> branch_ok (commonBranch bs).
Proof.
  intros H. unfold commonBranch.
  assert (Hf : branch_ok (default [] (head bs))) by (destruct H; [apply Forall_nil_2|done]).
  destruct (bool_decide _); [done|]. unfold branch_ok in *. rewrite Forall_forall in *.
  intros c Hc. apply list_elem_of_In, filter_In in Hc as [Hc _]. apply Hf. by apply list_elem_of_In.
Qed.

Lemma commonBranch_in bs : Forall branch_ok bs -> satisfies bs -> in_branch (commonBranch bs).
Proof.
  intros Hok (b & Hb & Hin). unfold commonBranch. destruct (bool_decide _) eqn:E.
  - apply bool_decide_eq_true in E. destruct bs as [|b' [|]]; try done. cbn.
    by apply list_elem_of_singleton in Hb as <-.
  - unfold in_branch. apply Forall_forall. intros [c vs] Hc. apply list_elem_of_In, filter_In in Hc as [Hc Hall].
    rewrite forallb_forall in Hall. specialize (Hall b). cbn in *.
    destruct (constraint b c) as [actual|] eqn:Ec; [|by discriminate Hall; apply list_elem_of_In].
    assert (Hs : sameValues vs actual = true) by (apply Hall; by apply list_elem_of_In).
    eapply sameValues_sub; [|exact Hs|by eapply constraint_in].
    assert (Hf : branch_ok (default [] (head bs))) by (destruct Hok; [apply Forall_nil_2|done]).
    unfold branch_ok in Hf. rewrite Forall_forall in Hf.
    destruct (Hf (c, vs)) as (_ & _ & Hn); [by apply list_elem_of_In|done].
Qed.

(** *** Conjunction and disjunction *)

Lemma intersect_includes left right v :
  includes (intersectValues left right) v = true <-> includes left v = true /\ includes right v = true.
Proof.
  assert (Hc : forall a b, includes (List.filter (includes b) a) v = true <-> includes a v = true /\ includes b v = true).
  { intros a b. rewrite !includes_spec. split.
    - intros (w & -> & Hw)%list_elem_of_fmap. apply list_elem_of_In, filter_In in Hw as [Hw Hb].
      split; [apply list_elem_of_fmap_2; by apply list_elem_of_In|by apply includes_spec].
    - intros [(w & E & Hw)%list_elem_of_fmap Hb]. rewrite E. apply list_elem_of_fmap_2, list_elem_of_In, filter_In.
      split; [by apply list_elem_of_In|]. apply includes_spec. by rewrite <-E. }
  unfold intersectValues. destruct (bool_decide _); rewrite Hc; tauto.
Qed.

Lemma NoDup_fmap_filter (P : value -> bool) l : NoDup (norm <$> l) -> NoDup (norm <$> List.filter P l).
Proof.
  induction l as [|x l IH]; cbn; [done|]. intros [Hx Hn]%NoDup_cons. destruct (P x); cbn; [|auto].
  apply NoDup_cons. split; [|auto]. intros (w & E & Hw)%list_elem_of_fmap. apply Hx. rewrite E.
  apply list_elem_of_fmap_2. apply list_elem_of_In, filter_In in Hw as [Hw _]. by apply list_elem_of_In.
Qed.

Lemma intersect_ok left right :
  exact_ok left -> exact_ok right -> intersectValues left right <> [] -> exact_ok (intersectValues left right).
Proof.
  intros (_ & Hs & Hn) (_ & Hs' & Hn') Hne. split; [done|]. unfold intersectValues.
  assert (Hf : forall (P : value -> bool) l, Forall scalar l -> Forall scalar (List.filter P l)).
  { intros P l. rewrite !Forall_forall. intros H x Hx. apply H. apply list_elem_of_In, filter_In in Hx as [Hx _].
    by apply list_elem_of_In. }
  destruct (bool_decide _); split; auto using NoDup_fmap_filter.
Qed.

Lemma merge_constraint_spec c vs merged : exact_ok vs -> branch_ok merged ->
  (forall b, merge_constraint merged c vs = Some b -> branch_ok b) /\
  (in_branch merged -> includes vs (st c) = true ->
     exists b, merge_constraint merged c vs = Some b /\ in_branch b).
Proof.
  intros Hv. induction merged as [|[c' ws] merged IH]; intros Hok; cbn [merge_constraint].
  - split.
    + intros b [= <-]. by apply Forall_singleton.
    + intros _ Hi. eexists. split; [done|]. by apply Forall_singleton.
  - apply Forall_cons in Hok as [Hw Hok]. cbn in Hw. case_decide as E.
    + subst c'. destruct (sameValues ws vs).
      * split; [intros b [= <-]; by constructor|]. intros Hi _. by eexists.
      * destruct (intersectValues ws vs) as [|v l] eqn:Ei.
        -- split; [done|]. intros [Hi _]%Forall_cons Hi'. exfalso.
           assert (H : includes (intersectValues ws vs) (st c) = true) by (by apply intersect_includes).
           by rewrite Ei in H.
        -- split.
           ++ intros b [= <-]. constructor; [|done]. cbn. rewrite <-Ei. apply intersect_ok; [done|done|by rewrite Ei].
           ++ intros [Hi Hr]%Forall_cons Hi'. eexists. split; [done|]. constructor; [|done].
              change (includes (v :: l) (st c) = true). rewrite <-Ei. by apply intersect_includes.
    + destruct (IH Hok) as [IH1 IH2]. split.
      * intros b (r & Hr & [= <-])%bind_Some. constructor; [done|by apply IH1].
      * intros [Hi Hr]%Forall_cons Hi'. destruct (IH2 Hr Hi') as (r & Hm & Hin). rewrite Hm.
        eexists. split; [done|]. by constructor.
Qed.

Lemma mergeBranches_spec right : forall left, branch_ok left -> branch_ok right ->
  (forall b, mergeBranches left right = Some b -> branch_ok b) /\
  (in_branch left -> in_branch right -> exists b, mergeBranches left right = Some b /\ in_branch b).
Proof.
  induction right as [|[c vs] right IH]; intros left Hl Hr; cbn [mergeBranches].
  - split; [by intros b [= <-]|]. intros. by exists left.
  - apply Forall_cons in Hr as [Hv Hr]. destruct (merge_constraint_spec c vs left Hv Hl) as [M1 M2]. split.
    + intros b (m & Hm & Hb)%bind_Some. apply M1 in Hm as Hmo. by apply (proj1 (IH m Hmo Hr)).
    + intros Hil [Hiv Hir]%Forall_cons. destruct (M2 Hil Hiv) as (m & Hm & Him). rewrite Hm. cbn.
      apply (proj2 (IH m (M1 _ Hm) Hr)); done.
Qed.

Lemma andBranches_cases left right :
  (left = [] \/ right = []) /\ andBranches left right = [] \/
  left = [[]] /\ andBranches left right = right \/
  right = [[]] /\ andBranches left right = left \/
  andBranches left right =
    (if bool_decide (MAX_REACTIVE_DEPENDENCY_KEYS < length left * length right)%nat
     then match mergeBranches (commonBranch left) (commonBranch right) with None => [] | Some w => [w] end
     else omap (fun p => mergeBranches p.1 p.2) (l ← left; r ← right; [(l, r)])).
Proof.
  destruct left as [|[|c l] [|l0 left]], right as [|[|c' r] [|r0 right]];
    first [left; split; [first [by left|by right]|done] | right; left; by split
          |do 2 right; left; by split | by do 3 right].
Qed.

Lemma andBranches_ok left right :
  Forall branch_ok left -> Forall branch_ok right -> Forall branch_ok (andBranches left right).
Proof.
  intros Hl Hr. destruct (andBranches_cases left right) as [[_ ->]|[[_ ->]|[[_ ->]| ->]]]; [apply Forall_nil_2|done|done|].
  destruct (bool_decide _).
  - destruct (mergeBranches _ _) as [w|] eqn:E; [|apply Forall_nil_2]. apply Forall_singleton.
    eapply mergeBranches_spec; [| |exact E]; by apply commonBranch_ok.
  - apply Forall_forall. intros b ([l r] & Hin & Hb)%list_elem_of_omap.
    apply list_elem_of_bind in Hin as (l' & Hin & Hl'). apply list_elem_of_bind in Hin as (r' & Hin & Hr').
    apply list_elem_of_singleton in Hin. injection Hin as -> ->. rewrite Forall_forall in Hl, Hr.
    eapply mergeBranches_spec; [| |exact Hb]; auto.
Qed.

Lemma andBranches_satisfied left right :
  Forall branch_ok left -> Forall branch_ok right -> satisfies left -> satisfies right ->
  satisfies (andBranches left right).
Proof.
  intros Hl Hr Sl Sr. destruct (andBranches_cases left right) as [[H _]|[[_ ->]|[[_ ->]| ->]]]; [|done|done|].
  - destruct Sl as (l & Hl' & _), Sr as (r & Hr' & _). by destruct H as [-> | ->]; [apply not_elem_of_nil in Hl'|apply not_elem_of_nil in Hr'].
  - destruct (bool_decide _).
    + destruct (mergeBranches_spec (commonBranch right) (commonBranch left)) as [_ M]; [by apply commonBranch_ok..|].
      destruct M as (b & -> & Hb); [by apply commonBranch_in..|]. exists b. split; [apply list_elem_of_here|done].
    + destruct Sl as (l & Hl' & Hil), Sr as (r & Hr' & Hir). rewrite Forall_forall in Hl, Hr.
      destruct (mergeBranches_spec r l) as [_ M]; [auto..|]. destruct M as (b & Hb & Hib); [done..|].
      exists b. split; [|done]. apply list_elem_of_omap. exists (l, r). split; [|done].
      apply list_elem_of_bind. exists l. split; [|done]. apply list_elem_of_bind. exists r. split; [|done].
      apply list_elem_of_here.
Qed.

Lemma orBranches_cases left right :
  left = [] /\ orBranches left right = right \/ right = [] /\ orBranches left right = left \/
  orBranches left right =
    (if bool_decide (length (left ++ right) <= MAX_REACTIVE_DEPENDENCY_KEYS)%nat then left ++ right
     else [commonBranch (left ++ right)]).
Proof.
  destruct left as [|l left]; [by left|]. destruct right as [|r right]; [by right; left|]. by right; right.
Qed.

Lemma orBranches_ok left right :
  Forall branch_ok left -> Forall branch_ok right -> Forall branch_ok (orBranches left right).
Proof.
  intros Hl Hr. destruct (orBranches_cases left right) as [[_ ->]|[[_ ->]| ->]]; [done..|].
  assert (Forall branch_ok (left ++ right)) by (by apply Forall_app). destruct (bool_decide _); [done|].
  apply Forall_singleton. by apply commonBranch_ok.
Qed.

Lemma orBranches_satisfied left right :
  Forall branch_ok left -> Forall branch_ok right -> satisfies left \/ satisfies right ->
  satisfies (orBranches left right).
Proof.
  intros Hl Hr Hs.
  assert (Hnil : ~ satisfies []) by (intros (b & Hb & _); by apply not_elem_of_nil in Hb).
  destruct (orBranches_cases left right) as [[-> ->]|[[-> ->]| ->]]; [tauto|tauto|].
  assert (Ha : satisfies (left ++ right)).
  { destruct Hs as [(b & Hb & Hi)|(b & Hb & Hi)]; exists b; rewrite elem_of_app; auto. }
  destruct (bool_decide _); [done|]. eexists. split; [apply list_elem_of_here|].
  apply commonBranch_in; [by apply Forall_app|done].
Qed.

Lemma predicateBranches_ok node : Forall branch_ok (predicateBranches node).
Proof.
  assert (Forall branch_ok [[]]) by (apply Forall_singleton, Forall_nil_2).
  induction node as [c op v|c vs|c lo hi|c b|p IHp q IHq|p IHp q IHq|p IHp]; cbn; try done.
  - destruct op; try done. apply exactValueBranch_spec.
  - apply exactBranches_spec.
  - destruct b; [|done]. exact (proj1 (exactValueBranch_spec c VNull)).
  - by apply andBranches_ok.
  - by apply orBranches_ok.
Qed.

(** *** The meaning of a predicate *)

(** SQLite's comparison, which the code does not implement. *)
Context (collate : value -> value -> option comparison).

Definition op_holds (op : ComparisonOperator) (c : comparison) : bool :=
  match op, c with
  | eq_op, Eq | ne_op, Lt | ne_op, Gt | lt_op, Lt | lte_op, Lt | lte_op, Eq
  | gt_op, Gt | gte_op, Gt | gte_op, Eq => true
  | _, _ => false
  end.

Definition compare (op : ComparisonOperator) (a b : value) : option bool := op_holds op <$> collate a b.

Definition sql_not (a : option bool) : option bool := negb <$> a.
Definition sql_and (a b : option bool) : option bool :=
  match a, b with
  | Some false, _ | _, Some false => Some false
  | Some true, Some true => Some true
  | _, _ => None
  end.
Definition sql_or (a b : option bool) : option bool := sql_not (sql_and (sql_not a) (sql_not b)).

(** The three-valued logic of the SQL the predicates compile to. *)
Fixpoint eval (node : PredicateNode) : option bool :=
  match node with
  | PComparison c op v => compare op (st c) v
  | PIn c vs => foldr (fun v r => sql_or (compare eq_op (st c) v) r) (Some false) vs
  | PBetween c lower upper => sql_and (compare gte_op (st c) lower) (compare lte_op (st c) upper)
  | PNull c isNull => Some (Bool.eqb isNull (bool_decide (st c = VNull)))
  | PAnd p q => sql_and (eval p) (eval q)
  | POr p q => sql_or (eval p) (eval q)
  | PNot p => sql_not (eval p)
  end.

Definition same_class (a b : value) : bool :=
  match a, b with VStr _, VStr _ | VNum _, VNum _ | VBig _, VBig _ => true | _, _ => false end.

(** The values a column is compared with are of the column's storage class. *)
Fixpoint typed (node : PredicateNode) : Prop :=
  match node with
  | PComparison c _ v => st c = VNull \/ same_class (st c) v = true
  | PIn c vs => st c = VNull \/ Forall (fun v => same_class (st c) v = true) vs
  | PAnd p q | POr p q => typed p /\ typed q
  | PNot p => typed p
  | PBetween _ _ _ | PNull _ _ => True
  end.

Hypothesis collate_null : forall v, collate VNull v = None.
Hypothesis collate_eq : forall a b, same_class a b = true -> collate a b = Some Eq -> norm a = norm b.

Lemma compare_eq c v : st c = VNull \/ same_class (st c) v = true ->
  compare eq_op (st c) v = Some true -> norm (st c) = norm v.
Proof.
  unfold compare. intros Ht H. destruct (collate (st c) v) as [[]|] eqn:E; try discriminate H.
  destruct Ht as [Hn|Ht]; [|by apply collate_eq]. by rewrite Hn, collate_null in E.
Qed.

Lemma sql_and_true a b : sql_and a b = Some true -> a = Some true /\ b = Some true.
Proof. by destruct a as [[]|], b as [[]|]. Qed.
Lemma sql_or_true a b : sql_or a b = Some true -> a = Some true \/ b = Some true.
Proof. destruct a as [[]|], b as [[]|]; cbn; auto; discriminate. Qed.

Lemma predicateBranches_satisfied node : typed node -> eval node = Some true -> satisfies (predicateBranches node).
Proof.
  induction node as [c op v|c vs|c lo hi|c b|p IHp q IHq|p IHp q IHq|p IHp]; cbn; intros Ht He;
    try apply nil_satisfies.
  - destruct op; try apply nil_satisfies. apply exactValueBranch_spec. by apply compare_eq.
  - apply exactBranches_spec. apply includes_spec.
    assert (Hin : exists v, v ∈ vs /\ compare eq_op (st c) v = Some true).
    { clear Ht. induction vs as [|v vs IH]; cbn in He; [done|]. apply sql_or_true in He as [He|He].
      - exists v. split; [apply list_elem_of_here|done].
      - destruct (IH He) as (w & Hw & ?). exists w. split; [by apply list_elem_of_further|done]. }
    destruct Hin as (v & Hv & Hc). apply compare_eq in Hc.
    + rewrite Hc. by apply list_elem_of_fmap_2.
    + destruct Ht as [|Ht]; [by left|right]. rewrite Forall_forall in Ht. auto.
  - destruct b; [|apply nil_satisfies]. apply (proj2 (exactValueBranch_spec c VNull)). injection He as He.
    destruct (bool_decide _) eqn:E; [|done]. apply bool_decide_eq_true in E. by rewrite E.
  - destruct Ht, (sql_and_true _ _ He). apply andBranches_satisfied; auto using predicateBranches_ok.
  - destruct Ht, (sql_or_true _ _ He); apply orBranches_satisfied; auto using predicateBranches_ok.
Qed.

Lemma allPredicateBranches_ok ps : Forall branch_ok (allPredicateBranches ps).
Proof.
  destruct ps as [|p ps]; cbn; [apply Forall_singleton, Forall_nil_2|].
  assert (H : forall bs, Forall branch_ok bs ->
    Forall branch_ok (foldl (fun bs q => andBranches bs (predicateBranches q)) bs ps)); [|apply H, predicateBranches_ok].
  induction ps as [|q ps IH]; intros bs Hb; cbn; [done|]. apply IH, andBranches_ok; auto using predicateBranches_ok.
Qed.

Lemma allPredicateBranches_satisfied ps :
  Forall typed ps -> Forall (fun p => eval p = Some true) ps -> satisfies (allPredicateBranches ps).
Proof.
  destruct ps as [|p ps]; cbn; [intros _ _; apply nil_satisfies|].
  intros [Ht Hts]%Forall_cons [He Hes]%Forall_cons.
  assert (H : forall bs, Forall branch_ok bs -> satisfies bs ->
    satisfies (foldl (fun bs q => andBranches bs (predicateBranches q)) bs ps)).
  { clear Ht He. induction Hts as [|q ps Hq Hts IH]; intros bs Hb Hs; cbn; [done|].
    apply Forall_cons in Hes as [Hqe Hes]. apply IH; [done|apply andBranches_ok|apply andBranches_satisfied];
      auto using predicateBranches_ok, predicateBranches_satisfied. }
  apply H; auto using predicateBranches_ok, predicateBranches_satisfied.
Qed.
End branches.
