(* ===== verification/DependenciesSound.v ===== *)
(** The recorded index prefixes cover every row the predicates accept, and there
    are at most sixty-four of them. *)
From S2P Require Import Prelude Errors Value Wire StableEncode Dependencies DependenciesProps.
Local Open Scope string_scope.
Local Open Scope list_scope.

(** ** The best prefix of a branch *)

Definition product (l : list ExactValues) : nat := foldr (fun vs n => length vs * n) 1 l.

Definition exact_list (b : Branch) (columns : list string) : list ExactValues :=
  (fun column => default [] (constraint b column)) <$> columns.

Lemma prefix_depth_spec b columns : forall d0 k0 d k,
  prefix_depth b columns d0 k0 = (d, k) -> k0 <= MAX_REACTIVE_DEPENDENCY_KEYS ->
  exists n, d = d0 + n /\ n <= length columns /\
    Forall (fun c => is_Some (constraint b c)) (take n columns) /\
    k = k0 * product (exact_list b (take n columns)) /\ k <= MAX_REACTIVE_DEPENDENCY_KEYS.
Proof.
  induction columns as [|c columns IH]; intros d0 k0 d k; cbn [prefix_depth].
  - intros [= <- <-] Hk. exists 0. split_and!; [lia|done|apply Forall_nil_2|cbn; lia|done].
  - destruct (constraint b c) as [vs|] eqn:E; [destruct (bool_decide _) eqn:Ed|].
    + intros [= <- <-] Hk. exists 0. split_and!; [lia|lia|apply Forall_nil_2|cbn; lia|done].
    + intros H Hk. apply bool_decide_eq_false in Ed. destruct (IH _ _ _ _ H) as (n & -> & Hn & Hf & -> & Hb); [lia|].
      assert (Hx : product (exact_list b (take (S n) (c :: columns))) =
        length vs * product (exact_list b (take n columns))) by (unfold exact_list; cbn; by rewrite E).
      exists (S n). rewrite Hx. split_and!; [lia|cbn; lia|constructor; [by rewrite E|done]|lia|done].
    + intros [= <- <-] Hk. exists 0. split_and!; [lia|lia|apply Forall_nil_2|cbn; lia|done].
Qed.

(** A prefix that can be recorded: some columns of an index of the plan, each
    with exact values, at most sixty-four tuples in all. *)
Definition prefix_ok (plan : TablePlan) (b : Branch) (i d k : nat) : Prop :=
  0 < d <= length (index_columns plan i) /\
  Forall (fun c => is_Some (constraint b c)) (take d (index_columns plan i)) /\
  k = product (exact_list b (take d (index_columns plan i))) /\ k <= MAX_REACTIVE_DEPENDENCY_KEYS.

Lemma best_prefix_spec plan b l : forall before best i d k,
  indexes plan = before ++ l ->
  (forall i' d' k', best = Some (i', d', k') -> prefix_ok plan b i' d' k') ->
  best_prefix b l (length before) best = Some (i, d, k) -> prefix_ok plan b i d k.
Proof.
  induction l as [|ix l IH]; intros before best i d k Hl Hb; cbn [best_prefix]; [by intros ->; apply Hb|].
  destruct (prefix_depth b (ix_columns ix) 0 1) as [d' k'] eqn:E.
  assert (Hi : index_columns plan (length before) = ix_columns ix).
  { unfold index_columns. rewrite Hl, lookup_app_r by lia. by rewrite Nat.sub_diag. }
  intros H. destruct (match best with Some (_, d0, k0) => (d0, k0) | None => (0, 0) end) as [bd bk].
  replace (S (length before)) with (length (before ++ [ix])) in H by (rewrite length_app; cbn; lia).
  eapply (IH (before ++ [ix])); [rewrite Hl; by rewrite <-app_assoc| |exact H]. intros i' d'' k'' Hs.
  destruct (bool_decide (0 < d') && _) eqn:Ec; [|by apply Hb].
  apply andb_true_iff in Ec as [Hd%bool_decide_eq_true _]. injection Hs as <- <- <-.
  apply prefix_depth_spec in E as (n & -> & Hn & Hf & -> & Hk); [|unfold MAX_REACTIVE_DEPENDENCY_KEYS; lia].
  unfold prefix_ok. rewrite Hi. rewrite Nat.mul_1_l in *. cbn [Nat.add] in *. split_and!; [lia|lia|done|done|done].
Qed.

Lemma bestPrefix_spec plan b p : bestPrefix plan b = Some p ->
  branch p = b /\ prefix_ok plan b (index p) (depth p) (keyCount p) /\
  exacts plan p = exact_list b (take (depth p) (index_columns plan (index p))).
Proof.
  unfold bestPrefix. intros ([[i d] k] & Hp & Hs)%bind_Some. injection Hs as <-. cbn. split_and!; [done| |done].
  eapply (best_prefix_spec plan b (indexes plan) [] None); [done|done|exact Hp].
Qed.

(** ** Tuples *)

Definition scalars (exs : list ExactValues) : Prop := Forall (Forall scalar) exs.
Definition covers (exs : list ExactValues) (t : list value) : Prop := Forall2 (fun vs v => includes vs v = true) exs t.

Lemma exact_list_scalars b columns : branch_ok b -> scalars (exact_list b columns).
Proof.
  intros Hb. unfold scalars, exact_list. apply Forall_fmap, Forall_forall. intros c _. cbn.
  destruct (constraint b c) as [vs|] eqn:E; [|apply Forall_nil_2]. by apply (constraint_ok b c vs).
Qed.

Lemma exact_list_covers st b columns : in_branch st b -> Forall (fun c => is_Some (constraint b c)) columns ->
  covers (exact_list b columns) (st <$> columns).
Proof.
  intros Hb. unfold covers, exact_list. induction 1 as [|c columns [vs Hc] _ IH]; cbn; constructor; [|done].
  rewrite Hc. cbn. by apply (constraint_in st b c vs).
Qed.

Lemma includes_split vs v : includes vs v = true -> exists a w b, vs = a ++ w :: b /\ norm w = norm v.
Proof.
  intros (w & Hw & Hin)%includes_spec%list_elem_of_fmap. apply list_elem_of_split in Hin as (a & b & ->).
  exists a, w, b. by split.
Qed.

(** The key a prefix of storage values has. *)
Definition prefix_key (table name : string) (t : list value) : Key :=
  KIx table name (VArr (key_value <$> (norm <$> t))).

Lemma prefix_key_norm table name t t' : norm <$> t = norm <$> t' -> prefix_key table name t = prefix_key table name t'.
Proof. unfold prefix_key. by intros ->. Qed.

(** Recording returns, with one key for each tuple and the key of every tuple. *)
Lemma recordPrefixValues_spec table name exs : forall vs, scalars exs -> Forall scalar vs ->
  exists ks, recordPrefixValues table name exs vs = Ret ks /\ length ks = product exs /\
    forall t, covers exs t -> prefix_key table name (vs ++ t) ∈ ks.
Proof.
  induction exs as [|ex exs IH]; intros vs Hs Hv.
  - cbn. rewrite ixKey_scalars by done. eexists. split; [done|]. split; [done|].
    intros t Ht. inversion Ht. rewrite app_nil_r. apply list_elem_of_here.
  - apply Forall_cons in Hs as [Hex Hs]. cbn [recordPrefixValues product foldr]. fold (product exs).
    assert (Hgo : forall ex, Forall scalar ex -> exists ks,
      (fix each (exact : ExactValues) := match exact with [] => Ret [] | v :: exact =>
         ks ← recordPrefixValues table name exs (vs ++ [v]); rest ← each exact; Ret (ks ++ rest) end) ex = Ret ks /\
      length ks = length ex * product exs /\
      forall v t, includes ex v = true -> covers exs t -> prefix_key table name (vs ++ v :: t) ∈ ks).
    { clear ex Hex. induction 1 as [|w ex Hw Hex (ks & Hks & Hlen & Hin)].
      - exists []. split_and!; [done|done|]. intros v t Hc. discriminate Hc.
      - destruct (IH (vs ++ [w])) as (ks' & Hks' & Hlen' & Hin'); [done|apply Forall_app; split; [done|by apply Forall_singleton]|].
        exists (ks' ++ ks). rewrite Hks'. cbn [mbind exc_bind]. rewrite Hks. cbn [mbind exc_bind].
        split_and!; [done|rewrite length_app, Hlen', Hlen; cbn; lia|].
        intros v t Hi Ht. apply elem_of_app. cbn in Hi. apply orb_true_iff in Hi as [E%sameValueZero_spec|Hi].
        + left. specialize (Hin' t Ht). rewrite <-app_assoc in Hin'. cbn in Hin'.
          erewrite prefix_key_norm; [exact Hin'|]. rewrite !fmap_app. cbn. by rewrite E.
        + right. by apply Hin. }
    destruct (Hgo ex Hex) as (ks & Hks & Hlen & Hin). exists ks. split_and!; [done|done|].
    intros t Ht. inversion Ht as [|? v ? t' Hv' Ht']; subst. by apply Hin.
Qed.

(** ** Retained prefixes *)

Lemma isSameValueZeroPrefix_spec p : forall vs, isSameValueZeroPrefix p vs = true <->
  length p <= length vs /\ norm <$> p = norm <$> take (length p) vs.
Proof.
  induction p as [|x p IH]; intros [|v vs]; cbn; try (by split; [|intros [? _]; lia]).
  - split; [intros _; split; [lia|done]|done].
  - rewrite andb_true_iff, sameValueZero_spec, IH. split.
    + intros (E & Hl & Hp). rewrite E, Hp. split; [lia|done].
    + intros (Hl & [= E Hp]). split_and!; [done|lia|done].
Qed.

Definition covered (i : nat) (t : list value) (retained : list ConcreteIndexPrefix) : Prop :=
  exists c, c ∈ retained /\ at_index c = i /\ length (values c) <= length t /\
    norm <$> values c = norm <$> take (length (values c)) t.

Definition retained_ok (plan : TablePlan) (retained : list ConcreteIndexPrefix) : Prop :=
  length retained <= MAX_REACTIVE_DEPENDENCY_KEYS /\
  Forall (fun c => Forall scalar (values c) /\ 0 < length (values c) <= length (index_columns plan (at_index c))) retained.

(** What retaining leaves: more prefixes, and the given tuple covered. *)
Lemma retain_spec plan i retained vs ok r' :
  retained_ok plan retained -> Forall scalar vs -> 0 < length vs <= length (index_columns plan i) ->
  retain i retained vs = (ok, r') ->
  retained_ok plan r' /\ (forall c, c ∈ retained -> c ∈ r') /\
  (ok = true -> forall t, norm <$> t = norm <$> vs -> covered i t r').
Proof.
  intros [Hl Hf] Hs Hn. unfold retain. destruct (existsb _ _) eqn:E; [|destruct (bool_decide _) eqn:Ef].
  - intros [= <- <-]. split_and!; [by split|done|]. intros _ t Ht. apply existsb_exists in E as (c & Hc & Hp).
    apply andb_true_iff in Hp as [Ei%bool_decide_eq_true [Hlen Hp]%isSameValueZeroPrefix_spec]. exists c.
    assert (length t = length vs) as Hlt by (apply (f_equal length) in Ht; by rewrite !length_fmap in Ht).
    split_and!; [by apply list_elem_of_In|done|lia|]. by rewrite Hp, !fmap_take, Ht.
  - intros [= <- <-]. by split_and!.
  - intros [= <- <-]. apply bool_decide_eq_false in Ef. split_and!.
    + split; [rewrite length_app; cbn; lia|]. apply Forall_app. split; [done|]. by apply Forall_singleton.
    + intros c Hc. apply elem_of_app. by left.
    + intros _ t Ht. exists (MkConcrete i vs). cbn.
      assert (length t = length vs) as Hlt by (apply (f_equal length) in Ht; by rewrite !length_fmap in Ht).
      split_and!; [apply elem_of_app; right; apply list_elem_of_here|done|lia|].
      rewrite <-Hlt, take_ge by done. done.
Qed.

Lemma retainPrefixValues_spec plan i exs : forall retained vs ok r',
  retained_ok plan retained -> scalars exs -> Forall scalar vs ->
  0 < length vs + length exs <= length (index_columns plan i) ->
  retainPrefixValues i exs retained vs = (ok, r') ->
  retained_ok plan r' /\ (forall c, c ∈ retained -> c ∈ r') /\
  (ok = true -> forall t, covers exs t -> covered i (vs ++ t) r').
Proof.
  induction exs as [|ex exs IH]; intros retained vs ok r' Hr Hs Hv Hn.
  - cbn. intros H. destruct (retain_spec plan i retained vs ok r' Hr Hv) as (R1 & R2 & R3); [cbn in Hn; lia|done|].
    split_and!; [done|done|]. intros Hok t Ht. inversion Ht. rewrite app_nil_r. by apply R3.
  - apply Forall_cons in Hs as [Hex Hs]. cbn [retainPrefixValues]. revert retained Hr.
    induction Hex as [|w ex Hw Hex IHex]; intros retained Hr.
    + intros [= <- <-]. split_and!; [done|done|]. intros _ t Ht. inversion Ht as [|? ? ? ? Hi]; subst. discriminate Hi.
    + destruct (retainPrefixValues i exs retained (vs ++ [w])) as [ok1 r1] eqn:E1.
      destruct (IH retained (vs ++ [w]) ok1 r1) as (Q1 & Q2 & Q3); [done|done| | |done|].
      { apply Forall_app. split; [done|by apply Forall_singleton]. }
      { rewrite length_app. cbn in *. lia. }
      destruct ok1; [|by intros [= <- <-]; split_and!].
      intros H. destruct (IHex ltac:(cbn in *; lia) r1 Q1 H) as (P1 & P2 & P3). split_and!; [done|auto|].
      intros Hok t Ht. inversion Ht as [|? v ? t' Hi Ht']; subst. cbn in Hi.
      apply orb_true_iff in Hi as [Ez%sameValueZero_spec|Hi].
      * destruct (Q3 eq_refl t' Ht') as (c & Hc & Ei & Hlen & Hp). exists c.
        rewrite <-app_assoc in Hlen, Hp. cbn in Hlen, Hp. split_and!; [auto|done|by rewrite length_app in *|].
        rewrite Hp, !fmap_take. f_equal. rewrite !fmap_app. cbn. by rewrite Ez.
      * apply P3; [done|]. by constructor.
Qed.

Lemma insert_prefix_perm p l : insert_prefix p l ≡ₚ p :: l.
Proof.
  induction l as [|q l IH]; cbn; [done|]. destruct (bool_decide _); [|done]. rewrite IH. apply Permutation_swap.
Qed.

Lemma sort_prefixes_perm l : sort_prefixes l ≡ₚ l.
Proof.
  unfold sort_prefixes. assert (H : forall s, foldl (fun sorted p => insert_prefix p sorted) s l ≡ₚ l ++ s).
  { induction l as [|p l IH]; intros s; cbn; [done|]. rewrite IH, insert_prefix_perm. symmetry. apply Permutation_middle. }
  rewrite H. by rewrite app_nil_r.
Qed.

Definition recordable (plan : TablePlan) (p : IndexPrefix) : Prop :=
  scalars (exacts plan p) /\ 0 < length (exacts plan p) <= length (index_columns plan (index p)).

Lemma retain_all_spec plan prefixes : forall retained r',
  retained_ok plan retained -> Forall (recordable plan) prefixes -> retain_all plan prefixes retained = Some r' ->
  retained_ok plan r' /\ (forall c, c ∈ retained -> c ∈ r') /\
  forall p t, p ∈ prefixes -> covers (exacts plan p) t -> covered (index p) t r'.
Proof.
  induction prefixes as [|p prefixes IH]; intros retained r' Hr Hps; cbn.
  - intros [= <-]. split_and!; [done|done|]. by intros p t ?%not_elem_of_nil.
  - apply Forall_cons in Hps as [[Hs Hn] Hps].
    destruct (retainPrefixValues (index p) (exacts plan p) retained []) as [ok r1] eqn:E.
    destruct (retainPrefixValues_spec plan _ _ _ _ _ _ Hr Hs (Forall_nil_2 _) Hn E) as (Q1 & Q2 & Q3).
    destruct ok; [|done]. intros H. destruct (IH r1 r' Q1 Hps H) as (P1 & P2 & P3). split_and!; [done|auto|].
    intros q t [->|Hq]%elem_of_cons Ht; [|by apply P3].
    destruct (Q3 eq_refl t Ht) as (c & Hc & ?). exists c. split; [auto|done].
Qed.

Lemma bestPrefix_recordable plan b p : branch_ok b -> bestPrefix plan b = Some p -> recordable plan p.
Proof.
  intros Hb Hp. destruct (bestPrefix_spec plan b p Hp) as (_ & (Hd & Hf & _) & He). unfold recordable. rewrite He.
  split; [by apply exact_list_scalars|]. unfold exact_list. rewrite length_fmap, length_take. lia.
Qed.

Lemma precise_spec plan bs retained : Forall branch_ok bs -> preciseMultiBranchPrefixes plan bs = Some retained ->
  retained_ok plan retained /\
  forall st b, b ∈ bs -> in_branch st b ->
    exists c, c ∈ retained /\ norm <$> values c = norm <$> (st <$> take (length (values c)) (index_columns plan (at_index c))).
Proof.
  intros Hbs (prefixes & Hm & Hr)%bind_Some. apply mapM_Some in Hm.
  assert (Hrec : Forall (recordable plan) (sort_prefixes prefixes)).
  { rewrite sort_prefixes_perm. clear Hr. induction Hm as [|b p bs ps Hp Hm IH]; [apply Forall_nil_2|].
    apply Forall_cons in Hbs as [Hb Hbs]. constructor; [by eapply bestPrefix_recordable|auto]. }
  destruct (retain_all_spec plan (sort_prefixes prefixes) [] retained) as (R1 & _ & R3);
    [split; [cbn; lia|apply Forall_nil_2]|done|done|].
  split; [done|]. intros st b Hb Hin. apply list_elem_of_lookup in Hb as [i Hi].
  destruct (Forall2_lookup_l _ _ _ _ _ Hm Hi) as (p & Hp & Hbp).
  destruct (bestPrefix_spec plan b p Hbp) as (_ & (Hd & Hf & _) & He).
  destruct (R3 p (st <$> take (depth p) (index_columns plan (index p)))) as (c & Hc & Ei & Hlen & Hn).
  { rewrite sort_prefixes_perm. apply list_elem_of_lookup. by exists i. }
  { rewrite He. by apply exact_list_covers. }
  exists c. split; [done|]. rewrite Hn, Ei, !fmap_take, take_take. f_equal.
  rewrite length_fmap, length_take in Hlen. lia.
Qed.

(** ** Recording *)

Lemma record_concrete_spec plan l : Forall (fun c => Forall scalar (values c)) l ->
  exists ks, record_concrete plan l = Ret ks /\ length ks = length l /\
    forall c, c ∈ l -> prefix_key (plan_name plan) (index_name plan (at_index c)) (values c) ∈ ks.
Proof.
  induction 1 as [|c l Hc Hl (ks & Hks & Hlen & Hin)]; cbn.
  - exists []. split_and!; [done|done|]. by intros c ?%not_elem_of_nil.
  - rewrite ixKey_scalars by done. cbn. rewrite Hks. cbn. eexists. split; [done|]. split; [cbn; lia|].
    intros d [->|Hd]%elem_of_cons; [apply list_elem_of_here|apply list_elem_of_further; auto].
Qed.

(** The keys of a written row, for the prefixes of its storage values. *)
Definition emitted (plan : TablePlan) (st : string -> value) (k : Key) : Prop :=
  k = scanKey (plan_name plan) \/
  exists i n, 0 < n <= length (index_columns plan i) /\
    Forall scalar (st <$> take n (index_columns plan i)) /\
    k = prefix_key (plan_name plan) (index_name plan i) (st <$> take n (index_columns plan i)).

Lemma scalars_norm l l' : norm <$> l = norm <$> l' -> Forall scalar l -> Forall scalar l'.
Proof.
  revert l'. induction l as [|x l IH]; intros [|y l'] E Hs; try done. cbn in E. injection E as E1 E2.
  apply Forall_cons in Hs as [Hx Hs]. constructor; [by eapply scalar_norm|by apply IH].
Qed.

Lemma record_branch_spec plan b : branch_ok b ->
  exists ks, record_branch plan b = Ret ks /\ length ks <= MAX_REACTIVE_DEPENDENCY_KEYS /\
    forall st, in_branch st b -> exists k, k ∈ ks /\ emitted plan st k.
Proof.
  intros Hb. unfold record_branch. destruct (bestPrefix plan b) as [p|] eqn:E.
  - destruct (bestPrefix_spec plan b p E) as (_ & (Hd & Hf & Hk & Hm) & He).
    unfold recordPrefix. rewrite He.
    destruct (recordPrefixValues_spec (plan_name plan) (index_name plan (index p))
      (exact_list b (take (depth p) (index_columns plan (index p)))) []) as (ks & Hks & Hlen & Hin);
      [by apply exact_list_scalars|apply Forall_nil_2|].
    exists ks. split_and!; [done|by rewrite Hlen, <-Hk|]. intros st Hst.
    pose proof (exact_list_covers st b _ Hst Hf) as Hc. specialize (Hin _ Hc). cbn in Hin.
    eexists. split; [exact Hin|]. right. exists (index p), (depth p). split_and!; [lia|lia| |done].
    clear -Hc Hb. pose proof (exact_list_scalars b (take (depth p) (index_columns plan (index p))) Hb) as Hs.
    unfold scalars in Hs. induction Hc as [|ex v exs t Hv Hc IH]; [apply Forall_nil_2|].
    apply Forall_cons in Hs as [Hex Hs]. constructor; [|by apply IH].
    apply includes_split in Hv as (a & w & b' & -> & Hw). apply (scalar_norm v w); [done|].
    rewrite Forall_forall in Hex. apply Hex, elem_of_app. right. apply list_elem_of_here.
  - exists [scanKey (plan_name plan)]. split_and!; [done|unfold MAX_REACTIVE_DEPENDENCY_KEYS; cbn; lia|].
    intros st _. eexists. split; [apply list_elem_of_here|by left].
Qed.

(** Recording never throws, adds at most sixty-four keys, and one of them is
    emitted by any row that meets the branches. *)
Lemma record_spec plan predicates :
  exists ks, recordPredicateDependencies plan predicates = Ret ks /\ length ks <= MAX_REACTIVE_DEPENDENCY_KEYS /\
    forall st, satisfies st (allPredicateBranches predicates) -> exists k, k ∈ ks /\ emitted plan st k.
Proof.
  unfold recordPredicateDependencies. pose proof (allPredicateBranches_ok (fun _ => VNull) predicates) as Hok.
  destruct (allPredicateBranches predicates) as [|b [|b' bs]].
  - exists []. split_and!; [done|cbn; lia|]. intros st (b & Hb & _). by apply not_elem_of_nil in Hb.
  - apply Forall_cons in Hok as [Hok _]. destruct (record_branch_spec plan b Hok) as (ks & Hks & Hlen & Hin).
    exists ks. split_and!; [done|done|]. intros st (b' & Hb & Hst). apply list_elem_of_singleton in Hb as ->. by apply Hin.
  - destruct (preciseMultiBranchPrefixes plan (b :: b' :: bs)) as [retained|] eqn:E.
    + destruct (precise_spec plan _ _ Hok E) as ([Hlen Hf] & Hc).
      destruct (record_concrete_spec plan retained) as (ks & Hks & Hl & Hin).
      { eapply Forall_impl; [exact Hf|]. by intros c [? _]. }
      exists ks. split_and!; [done|lia|]. intros st (b0 & Hb & Hst). destruct (Hc st b0 Hb Hst) as (c & Hcin & Hn).
      rewrite Forall_forall in Hf. destruct (Hf c Hcin) as [Hs Hd].
      eexists. split; [by apply Hin|]. right. exists (at_index c), (length (values c)). split_and!; [lia|lia| |].
      * by eapply scalars_norm.
      * by apply prefix_key_norm.
    + destruct (record_branch_spec plan (commonBranch (b :: b' :: bs))) as (ks & Hks & Hlen & Hin); [by apply commonBranch_ok|].
      exists ks. split_and!; [done|done|]. intros st Hst. by apply Hin, commonBranch_in.
Qed.

Lemma emitted_keys plan row wk k :
  emitWriteKeys plan row = Ret wk -> emitted plan (stored plan row) k -> k ∈ wk.
Proof.
  intros Hw He. destruct (emitWriteKeys_keys plan row wk Hw) as [Hscan Hix].
  destruct He as [->|(i & n & Hn & Hs & ->)]; [done|].
  destruct (Hix i n Hn) as (k & Hk & Hin). rewrite ixKey_scalars in Hk by done. by injection Hk as <-.
Qed.

(** ** The properties *)

(** C15: reactivity is sound. If the row a write leaves or removes satisfies the
    predicates a query read the table through, then a key the query recorded is
    among the keys the write emitted: the query will run again. The comparison
    of SQLite is a parameter: NULL compares with nothing, and values of one
    storage class that compare equal are the same up to the sign of zero. *)
Theorem write_touches_reads (collate : value -> value -> option comparison) plan predicates row wk
    (Hnull : forall v, collate VNull v = None)
    (Heq : forall a b, same_class a b = true -> collate a b = Some Eq -> norm a = norm b)
    (Ht : Forall (typed (stored plan row)) predicates)
    (Hs : Forall (fun p => eval (stored plan row) collate p = Some true) predicates)
    (Hw : emitWriteKeys plan row = Ret wk) :
  exists rk, recordPredicateDependencies plan predicates = Ret rk /\ exists k, k ∈ rk /\ k ∈ wk.
Proof.
  destruct (record_spec plan predicates) as (rk & Hr & _ & Hin). exists rk. split; [done|].
  destruct (Hin (stored plan row)) as (k & Hk & He); [by eapply allPredicateBranches_satisfied|].
  exists k. split; [done|]. by eapply emitted_keys.
Qed.

(** A table with an index on two columns, and a query that pins the first. *)
Definition sample_plan : TablePlan :=
  MkPlan "tasks" "id" [MkIndex "by_owner" ["owner"; "state"]] (fun _ v => v) [].
Definition sample_predicates : list PredicateNode :=
  [PAnd (PIn "owner" [VStr "ada"; VStr "bob"]) (PComparison "size" gt_op (VNum (num_of_Z 3)))].
Definition sample_row : list (string * value) :=
  [("id", VBig 1); ("owner", VStr "bob"); ("state", VNull); ("size", VNum (num_of_Z 5))].
Definition sample_collate (a b : value) : option comparison :=
  if same_class a b then Some (if decide (norm a = norm b) then Eq else Gt) else None.

Lemma write_touches_reads_witness :
  exists rk, recordPredicateDependencies sample_plan sample_predicates = Ret rk /\ exists k, k ∈ rk /\
    k ∈ match emitWriteKeys sample_plan sample_row with Ret wk => wk | Throw _ => [] end.
Proof.
  apply (write_touches_reads sample_collate sample_plan sample_predicates sample_row).
  - intros v. reflexivity.
  - intros a b Hc. unfold sample_collate. rewrite Hc. destruct (decide (norm a = norm b)); [done|discriminate].
  - apply Forall_singleton. split; [right; repeat constructor|right; reflexivity].
  - apply Forall_singleton. vm_compute. reflexivity.
  - vm_compute. reflexivity.
Defined.

(** recording dependencies always succeeds, and never with more than
    sixty-four keys, whatever the predicates. *)
Theorem dependencies_bounded plan predicates :
  exists rk, recordPredicateDependencies plan predicates = Ret rk /\ length rk <= MAX_REACTIVE_DEPENDENCY_KEYS.
Proof. destruct (record_spec plan predicates) as (rk & Hr & Hl & _). by exists rk. Qed.
