(* ===== verification/DependencyIndex.v ===== *)
(** The reverse index from read keys to query entries:
    [server/src/subscriptions/reactive/dependencies.ts].

    An entry is an object named by a number; its [readSet] is a mutable field,
    kept in a store beside the index. *)
From stdpp Require Import pretty.
From S2P Require Import Prelude Errors Value Wire StableEncode Dependencies DependenciesProps DependenciesSound.
Local Open Scope Z_scope.

Section index.
Context {K : Type} `{Countable K}.

(** One owner inline, or a set of them. *)
Inductive DependencyOwners : Type := One (entry : nat) | Shared (entries : gset nat).

Record DependencyIndex : Type := MkIndexState {
  owners : gmap K DependencyOwners;
  edgeCount : Z;
  multiOwnerKeyCount : Z;
}.

Definition new_DependencyIndex : DependencyIndex := MkIndexState ∅ 0 0.

Definition keys (d : DependencyIndex) : nat := size (owners d).
Definition edges (d : DependencyIndex) : Z := edgeCount d.
Definition multiOwnerKeys (d : DependencyIndex) : Z := multiOwnerKeyCount d.

Definition owner_set (o : option DependencyOwners) : gset nat :=
  match o with None => ∅ | Some (One e) => {[e]} | Some (Shared s) => s end.

Definition affected (writeKeys : gset K) (d : DependencyIndex) : gset nat :=
  set_fold (fun key acc => acc ∪ owner_set (owners d !! key)) ∅ writeKeys.

Definition add (key : K) (entry : nat) (d : DependencyIndex) : DependencyIndex :=
  match owners d !! key with
  | None => MkIndexState (<[key := One entry]> (owners d)) (edgeCount d + 1) (multiOwnerKeyCount d)
  | Some (One e) =>
      if decide (e = entry) then d
      else MkIndexState (<[key := Shared {[e; entry]}]> (owners d)) (edgeCount d + 1) (multiOwnerKeyCount d + 1)
  | Some (Shared s) =>
      if decide (entry ∈ s) then d
      else MkIndexState (<[key := Shared ({[entry]} ∪ s)]> (owners d)) (edgeCount d + 1) (multiOwnerKeyCount d)
  end.

Definition remove (key : K) (entry : nat) (d : DependencyIndex) : DependencyIndex :=
  match owners d !! key with
  | None => d
  | Some (One e) =>
      if decide (e = entry) then MkIndexState (delete key (owners d)) (edgeCount d - 1) (multiOwnerKeyCount d)
      else d
  | Some (Shared s) =>
      if decide (entry ∈ s) then
        let s := s ∖ {[entry]} in
        match elements s with
        | [e] => MkIndexState (<[key := One e]> (owners d)) (edgeCount d - 1) (multiOwnerKeyCount d - 1)
        | _ => MkIndexState (<[key := Shared s]> (owners d)) (edgeCount d - 1) (multiOwnerKeyCount d)
        end
      else d
  end.

(** The index and the read sets of the entries. *)
Record Store : Type := MkStore { index : DependencyIndex; readSets : gmap nat (gset K) }.

Definition readSet (entry : nat) (w : Store) : gset K := default ∅ (readSets w !! entry).

Definition replace (entry : nat) (next : gset K) (w : Store) : Store :=
  let d := set_fold (fun key d => if decide (key ∈ next) then d else remove key entry d) (index w) (readSet entry w) in
  let d := set_fold (fun key d => if decide (key ∈ readSet entry w) then d else add key entry d) d next in
  MkStore d (<[entry := next]> (readSets w)).

Definition detach (entry : nat) (w : Store) : Store :=
  MkStore (set_fold (fun key d => remove key entry d) (index w) (readSet entry w)) (readSets w).

(** ** What the index stands for: a set of edges *)

Definition shared (o : DependencyOwners) : bool := match o with One _ => false | Shared _ => true end.

Record stands_for (d : DependencyIndex) (E : gset (K * nat)) : Prop := {
  sf_edge k e : (k, e) ∈ E <-> e ∈ owner_set (owners d !! k);
  sf_shape k s : owners d !! k = Some (Shared s) -> (2 <= size s)%nat;
  sf_count : edgeCount d = Z.of_nat (size E);
  sf_multi : multiOwnerKeyCount d = Z.of_nat (size (filter (fun kv => shared kv.2 = true) (owners d)));
}.

Lemma stands_for_new : stands_for new_DependencyIndex ∅.
Proof. split; cbn; done. Qed.

Lemma affected_spec d E wk e : stands_for d E -> e ∈ affected wk d <-> exists k, k ∈ wk /\ (k, e) ∈ E.
Proof.
  intros Hd. unfold affected.
  apply (set_fold_ind_L (fun acc X => e ∈ acc <-> exists k, k ∈ X /\ (k, e) ∈ E)).
  - set_solver.
  - intros k X acc Hk IH. rewrite elem_of_union, IH, <-(sf_edge _ _ Hd). set_solver.
Qed.

(** How many keys are shared, after one key changes. *)
Lemma size_shared_insert (m : gmap K DependencyOwners) k o :
  Z.of_nat (size (filter (fun kv => shared kv.2 = true) (<[k := o]> m))) =
  Z.of_nat (size (filter (fun kv => shared kv.2 = true) m)) + (if shared o then 1 else 0) -
  (match m !! k with Some o' => if shared o' then 1 else 0 | None => 0 end).
Proof.
  destruct (m !! k) as [o'|] eqn:E.
  - rewrite <-(insert_delete_id m k o' E) at 2. rewrite <-(insert_delete_eq m).
    rewrite !map_filter_insert. cbn.
    assert (Hn : filter (fun kv : K * DependencyOwners => shared kv.2 = true) (delete k m) !! k = None).
    { apply map_lookup_filter_None. left. apply lookup_delete_eq. }
    destruct (shared o), (shared o'); cbn; repeat case_decide; try done; rewrite ?(delete_id (delete k m)) by apply lookup_delete_eq;
      rewrite ?map_size_insert_None by done; lia.
  - rewrite map_filter_insert. cbn.
    assert (Hn : filter (fun kv : K * DependencyOwners => shared kv.2 = true) m !! k = None).
    { apply map_lookup_filter_None. by left. }
    destruct (shared o); cbn; case_decide; try done; [rewrite map_size_insert_None by done; lia|].
    rewrite delete_id by done. lia.
Qed.

Lemma sf_multi_insert d E k o :
  stands_for d E ->
  Z.of_nat (size (filter (fun kv => shared kv.2 = true) (<[k := o]> (owners d)))) =
  multiOwnerKeyCount d + (if shared o then 1 else 0) -
  (match owners d !! k with Some o' => if shared o' then 1 else 0 | None => 0 end).
Proof. intros Hd. by rewrite size_shared_insert, (sf_multi _ _ Hd). Qed.

Lemma size_edge_add (E : gset (K * nat)) x : x ∉ E -> Z.of_nat (size ({[x]} ∪ E)) = Z.of_nat (size E) + 1.
Proof. intros. rewrite size_union by set_solver. rewrite size_singleton. lia. Qed.

Lemma size_edge_remove (E : gset (K * nat)) x : x ∈ E -> Z.of_nat (size (E ∖ {[x]})) = Z.of_nat (size E) - 1.
Proof.
  intros. rewrite size_difference by set_solver. rewrite size_singleton.
  assert (size E <> 0%nat) by (rewrite size_non_empty_iff; set_solver). lia.
Qed.

(** An update of one key, checked at that key. *)
Lemma stands_for_insert d E E' k o c m :
  stands_for d E ->
  (forall k' e, k' <> k -> (k', e) ∈ E' <-> (k', e) ∈ E) ->
  (forall e, (k, e) ∈ E' <-> e ∈ owner_set (Some o)) ->
  (forall s, o = Shared s -> (2 <= size s)%nat) ->
  c = Z.of_nat (size E') ->
  m = multiOwnerKeyCount d + (if shared o then 1 else 0) -
    (match owners d !! k with Some o' => if shared o' then 1 else 0 | None => 0 end) ->
  stands_for (MkIndexState (<[k := o]> (owners d)) c m) E'.
Proof.
  intros Hd Ho Hk Hs -> ->. split; cbn.
  - intros k' e. rewrite lookup_insert. case_decide as Hkk; [subst; apply Hk|].
    rewrite Ho by done. apply (sf_edge _ _ Hd).
  - intros k' s. rewrite lookup_insert. case_decide; [intros [= ->]; by apply Hs|apply (sf_shape _ _ Hd)].
  - done.
  - by rewrite (sf_multi_insert _ _ _ _ Hd).
Qed.

Lemma sf_edge_lookup d E k o e : stands_for d E -> owners d !! k = Some o -> (k, e) ∈ E <-> e ∈ owner_set (Some o).
Proof. intros Hd Hk. by rewrite (sf_edge _ _ Hd), Hk. Qed.

Lemma stands_for_same d E E' : stands_for d E -> E ≡ E' -> stands_for d E'.
Proof. intros Hd HE. by apply leibniz_equiv in HE as <-. Qed.

Lemma stands_for_add d E k e : stands_for d E -> stands_for (add k e d) ({[(k, e)]} ∪ E).
Proof.
  intros Hd. pose proof (sf_edge _ _ Hd k) as Hk. unfold add.
  destruct (owners d !! k) as [[e'|s]|] eqn:Eo; cbn in Hk.
  - case_decide as He; [apply (stands_for_same _ E); [done|]; set_solver|].
    eapply stands_for_insert; [done|set_solver|set_solver| |..].
    + intros s [= <-]. rewrite size_union, !size_singleton by set_solver. lia.
    + rewrite size_edge_add by set_solver. by rewrite (sf_count _ _ Hd).
    + rewrite Eo. cbn. lia.
  - case_decide as He; [apply (stands_for_same _ E); [done|]; set_solver|].
    eapply stands_for_insert; [done|set_solver|set_solver| |..].
    + intros s' [= <-]. pose proof (sf_shape _ _ Hd _ _ Eo). rewrite size_union, size_singleton by set_solver. lia.
    + rewrite size_edge_add by set_solver. by rewrite (sf_count _ _ Hd).
    + rewrite Eo. cbn. lia.
  - eapply stands_for_insert; [done|set_solver|set_solver|done| |].
    + rewrite size_edge_add by set_solver. by rewrite (sf_count _ _ Hd).
    + rewrite Eo. cbn. lia.
Qed.

Lemma stands_for_delete d E k e :
  stands_for d E -> owners d !! k = Some (One e) ->
  stands_for (MkIndexState (delete k (owners d)) (edgeCount d - 1) (multiOwnerKeyCount d)) (E ∖ {[(k, e)]}).
Proof.
  intros Hd Eo. pose proof (sf_edge _ _ Hd k) as Hk. rewrite Eo in Hk. cbn in Hk. split; cbn.
  - intros k' e'. rewrite lookup_delete. case_decide as Hkk; [subst; cbn; set_solver|].
    rewrite <-(sf_edge _ _ Hd). set_solver.
  - intros k' s. rewrite lookup_delete. case_decide; [done|apply (sf_shape _ _ Hd)].
  - rewrite size_edge_remove by set_solver. by rewrite (sf_count _ _ Hd).
  - rewrite (sf_multi _ _ Hd), map_filter_delete. rewrite delete_id; [done|].
    apply map_lookup_filter_None. right. intros ? Hl. rewrite Eo in Hl. by injection Hl as <-.
Qed.

Lemma stands_for_remove d E k e : stands_for d E -> stands_for (remove k e d) (E ∖ {[(k, e)]}).
Proof.
  intros Hd. pose proof (sf_edge _ _ Hd k) as Hk. unfold remove.
  destruct (owners d !! k) as [[e'|s]|] eqn:Eo; cbn in Hk.
  - case_decide as He; [subst; by apply stands_for_delete|].
    apply (stands_for_same _ E); [done|]. set_solver.
  - case_decide as He; [|apply (stands_for_same _ E); [done|]; set_solver].
    pose proof (sf_shape _ _ Hd _ _ Eo) as Hs.
    assert (Hz : size (s ∖ {[e]}) = (size s - 1)%nat) by (rewrite size_difference, size_singleton by set_solver; done).
    pose proof (elem_of_elements (s ∖ {[e]})) as Hel.
    assert (Hc : edgeCount d - 1 = Z.of_nat (size (E ∖ {[(k, e)]})))
      by (rewrite size_edge_remove by set_solver; by rewrite (sf_count _ _ Hd)).
    destruct (elements (s ∖ {[e]})) as [|e1 [|e2 l]] eqn:El.
    + exfalso. change (length (elements (s ∖ {[e]})) = (size s - 1)%nat) in Hz. rewrite El in Hz. cbn in Hz. lia.
    + eapply stands_for_insert; [done|set_solver| |done|done|rewrite Eo; cbn; lia].
      intros e'. specialize (Hel e'). set_solver.
    + eapply stands_for_insert; [done|set_solver| set_solver| |done|rewrite Eo; cbn; lia].
      intros s' [= <-]. change (2 <= length (elements (s ∖ {[e]})))%nat. rewrite El. cbn. lia.
  - apply (stands_for_same _ E); [done|]. set_solver.
Qed.

(** ** The folds of [replace] and [detach] *)

Lemma stands_for_removes (next : gset K) e (X : gset K) : forall d E, stands_for d E ->
  exists E', stands_for (set_fold (fun key d => if decide (key ∈ next) then d else remove key e d) d X) E' /\
    forall k e', (k, e') ∈ E' <-> (k, e') ∈ E /\ ~ (e' = e /\ k ∈ X /\ k ∉ next).
Proof.
  intros d E Hd.
  apply (set_fold_ind_L (fun d' X => exists E', stands_for d' E' /\
    forall k e', (k, e') ∈ E' <-> (k, e') ∈ E /\ ~ (e' = e /\ k ∈ X /\ k ∉ next))).
  - exists E. split; [done|]. set_solver.
  - intros k Y d' Hk (E' & Hd' & HE'). case_decide as Hn.
    + exists E'. split; [done|]. intros k' e'. rewrite HE'. set_solver.
    + exists (E' ∖ {[(k, e)]}). split; [by apply stands_for_remove|].
      intros k' e'. rewrite elem_of_difference, HE', elem_of_singleton, elem_of_union, elem_of_singleton, pair_equal_spec.
      destruct (decide (k' = k)) as [->|]; [|tauto]. tauto.
Qed.

Lemma stands_for_adds (old : gset K) e (X : gset K) : forall d E, stands_for d E ->
  exists E', stands_for (set_fold (fun key d => if decide (key ∈ old) then d else add key e d) d X) E' /\
    forall k e', (k, e') ∈ E' <-> (k, e') ∈ E \/ (e' = e /\ k ∈ X /\ k ∉ old).
Proof.
  intros d E Hd.
  apply (set_fold_ind_L (fun d' X => exists E', stands_for d' E' /\
    forall k e', (k, e') ∈ E' <-> (k, e') ∈ E \/ (e' = e /\ k ∈ X /\ k ∉ old))).
  - exists E. split; [done|]. set_solver.
  - intros k Y d' Hk (E' & Hd' & HE'). case_decide as Hn.
    + exists E'. split; [done|]. intros k' e'. rewrite HE'. set_solver.
    + exists ({[(k, e)]} ∪ E'). split; [by apply stands_for_add|].
      intros k' e'. rewrite elem_of_union, HE', !elem_of_singleton, elem_of_union, elem_of_singleton, pair_equal_spec.
      destruct (decide (k' = k)) as [->|]; tauto.
Qed.

(** ** The index of the attached entries *)

Definition new_Store : Store := MkStore new_DependencyIndex ∅.

(** The calls the subscriptions make: an entry is replaced while it is attached,
    or for its first evaluation, and it is never evaluated after it is detached. *)
Inductive tracked : Store -> gset nat -> Prop :=
  | tracked_new : tracked new_Store ∅
  | tracked_replace w live e next :
      tracked w live -> e ∈ live \/ readSets w !! e = None -> tracked (replace e next w) ({[e]} ∪ live)
  | tracked_detach w live e : tracked w live -> tracked (detach e w) (live ∖ {[e]}).

Lemma readSet_replace e next w e' : readSet e' (replace e next w) = if decide (e' = e) then next else readSet e' w.
Proof.
  unfold readSet, replace. cbn. rewrite lookup_insert. repeat case_decide; by subst.
Qed.

Lemma detach_removes e w : index (detach e w) =
  set_fold (fun key d => if decide (key ∈ (∅ : gset K)) then d else remove key e d) (index w) (readSet e w).
Proof.
  unfold detach, set_fold. cbn. apply foldr_ext; [|done..]. intros k d. case_decide; [set_solver|done].
Qed.

Definition edges_of (w : Store) (live : gset nat) (E : gset (K * nat)) : Prop :=
  forall k e, (k, e) ∈ E <-> e ∈ live /\ k ∈ readSet e w.

Lemma tracked_edges w live : tracked w live -> exists E, stands_for (index w) E /\ edges_of w live E.
Proof.
  induction 1 as [|w live e next Hw (E & Hd & HE) Hv|w live e Hw (E & Hd & HE)].
  - exists ∅. split; [apply stands_for_new|]. intros k e. set_solver.
  - destruct (stands_for_removes next e (readSet e w) _ _ Hd) as (E1 & H1 & HE1).
    destruct (stands_for_adds (readSet e w) e next _ _ H1) as (E2 & H2 & HE2).
    exists E2. split; [exact H2|]. intros k e'. rewrite HE2, HE1, (HE k e'), readSet_replace.
    rewrite elem_of_union, elem_of_singleton. case_decide as He; [subst e'|tauto].
    assert (e ∈ live \/ readSet e w = ∅) as [|Hr] by (destruct Hv as [|Hv]; [by left|right; unfold readSet; by rewrite Hv]).
    + destruct (decide (k ∈ readSet e w)), (decide (k ∈ next)); tauto.
    + rewrite Hr. set_solver.
  - destruct (stands_for_removes ∅ e (readSet e w) _ _ Hd) as (E1 & H1 & HE1).
    exists E1. split; [by rewrite detach_removes|]. intros k e'. rewrite HE1, (HE k e').
    rewrite elem_of_difference, elem_of_singleton. change (readSet e' (detach e w)) with (readSet e' w).
    destruct (decide (e' = e)) as [->|]; set_solver.
Qed.

(** The three counters, as the numbers of edges, of keys read, and of keys read
    by several attached entries. *)
Lemma tracked_counts w live : tracked w live -> exists E, edges_of w live E /\
  edges (index w) = Z.of_nat (size E) /\
  (forall k, k ∈ dom (owners (index w)) <-> exists e, (k, e) ∈ E) /\
  multiOwnerKeys (index w) = Z.of_nat (size (filter (fun k => (2 <= size (owner_set (owners (index w) !! k)))%nat) (dom (owners (index w))))).
Proof.
  intros Hw. destruct (tracked_edges _ _ Hw) as (E & Hd & HE). exists E.
  split; [done|]. split; [apply (sf_count _ _ Hd)|]. split.
  - intros k. rewrite elem_of_dom. split.
    + intros [o Ho]. pose proof (sf_shape _ _ Hd k) as Hs. destruct o as [e|s].
      * exists e. apply (sf_edge _ _ Hd). rewrite Ho. cbn. set_solver.
      * specialize (Hs _ Ho). destruct (set_choose_L s) as [e He].
        { intros ->. rewrite size_empty in Hs. lia. }
        exists e. apply (sf_edge _ _ Hd). by rewrite Ho.
    + intros [e He]. apply (sf_edge _ _ Hd) in He. destruct (owners (index w) !! k); [done|]. cbn in He. set_solver.
  - unfold multiOwnerKeys. rewrite (sf_multi _ _ Hd), <-size_dom. do 2 f_equal. apply set_eq. intros k.
    rewrite elem_of_filter, !elem_of_dom. split.
    + intros [o Ho]. apply map_lookup_filter_Some in Ho as [Ho Hsh]. rewrite Ho. split; [|by exists o].
      destruct o as [|s]; [done|]. apply (sf_shape _ _ Hd _ _ Ho).
    + intros [Hsz [o Ho]]. exists o. apply map_lookup_filter_Some. split; [done|]. rewrite Ho in Hsz.
      destruct o; [|done]. cbn in Hsz. rewrite size_singleton in Hsz. lia.
Qed.

Lemma tracked_affected w live wk e : tracked w live ->
  e ∈ affected wk (index w) <-> e ∈ live /\ exists k, k ∈ wk /\ k ∈ readSet e w.
Proof.
  intros Hw. destruct (tracked_edges _ _ Hw) as (E & Hd & HE).
  rewrite (affected_spec _ _ _ _ Hd). unfold edges_of in HE. setoid_rewrite HE. naive_solver.
Qed.
End index.

(** ** Properties *)

(** C28: however entries were evaluated and detached, a write set resolves to
    exactly the attached entries whose current read set it meets, and the three
    counters are those of the edges between attached entries and their keys. *)
Theorem affected_exact (w : Store (K:=string)) live (Hw : tracked w live) :
  (forall wk e, e ∈ affected wk (index w) <-> e ∈ live /\ exists k, k ∈ wk /\ k ∈ readSet e w) /\
  exists E : gset (string * nat), (forall k e, (k, e) ∈ E <-> e ∈ live /\ k ∈ readSet e w) /\
    edges (index w) = Z.of_nat (size E) /\
    (forall k, k ∈ dom (owners (index w)) <-> exists e, (k, e) ∈ E) /\
    multiOwnerKeys (index w) = Z.of_nat (size (filter (fun k => (2 <= size (owner_set (owners (index w) !! k)))%nat) (dom (owners (index w))))).
Proof. split; [intros; by apply tracked_affected|]. by apply tracked_counts. Qed.

(** Two entries share a key; one moves off it and the other is detached. *)
Definition sample_store : Store (K:=string) :=
  detach 2%nat (replace 1%nat {["a"; "c"]} (replace 2%nat {["b"; "c"]} (replace 1%nat {["a"; "b"]} new_Store))).

Lemma sample_store_tracked : tracked sample_store {[1%nat]}.
Proof.
  replace ({[1%nat]} : gset nat) with ((({[1%nat]} ∪ ({[2%nat]} ∪ ({[1%nat]} ∪ ∅))) ∖ {[2%nat]}) : gset nat) by set_solver.
  repeat constructor; set_solver.
Qed.

Lemma affected_exact_witness :
  (1%nat ∈ affected {["c"]} (index sample_store) <-> 1%nat ∈ ({[1%nat]} : gset nat) /\ exists k, k ∈ ({["c"]} : gset string) /\ k ∈ readSet 1%nat sample_store) /\
  edges (index sample_store) = 2 /\ multiOwnerKeys (index sample_store) = 0.
Proof.
  split; [|by vm_compute]. apply (proj1 (affected_exact sample_store {[1%nat]} sample_store_tracked)).
Defined.

(** the write keys of a row that satisfies the predicates of a query reach
    the entry of the query through the index, whatever the spelling of keys:
    the row cannot be committed without marking the entry for revalidation. *)
Theorem write_reaches_entry (spell : Key -> string) (collate : value -> value -> option comparison)
    plan predicates row wk (w : Store (K:=string)) live e rk
    (Hnull : forall v, collate VNull v = None)
    (Heq : forall a b, same_class a b = true -> collate a b = Some Eq -> norm a = norm b)
    (Ht : Forall (typed (stored plan row)) predicates)
    (Hs : Forall (fun p => eval (stored plan row) collate p = Some true) predicates)
    (Hwk : emitWriteKeys plan row = Ret wk)
    (Hrk : recordPredicateDependencies plan predicates = Ret rk)
    (Hw : tracked w live) (He : e ∈ live)
    (Hread : forall k, k ∈ rk -> spell k ∈ readSet e w) :
  e ∈ affected (list_to_set (spell <$> wk)) (index w).
Proof.
  destruct (record_spec plan predicates) as (rk' & Hr & _ & Hin). rewrite Hrk in Hr. injection Hr as <-.
  destruct (Hin (stored plan row)) as (k & Hk & Hem); [by eapply allPredicateBranches_satisfied|].
  apply (tracked_affected _ _ _ _ Hw). split; [done|]. exists (spell k). split; [|by apply Hread].
  apply elem_of_list_to_set, list_elem_of_fmap_2. by eapply emitted_keys.
Qed.

(** A spelling of the keys of [DependenciesSound.sample_plan]. *)
Definition sample_spell (k : Key) : string :=
  match k with
  | KId t (VBig n) => ("id:" +:+ t +:+ ":" +:+ pretty n)%string
  | KId t _ => ("id:" +:+ t)%string
  | KScan t => ("scan:" +:+ t)%string
  | KIx t i prefix => ("ix:" +:+ t +:+ ":" +:+ i +:+ ":" +:+ match prefix with VArr vs => foldr (fun v s => match v with VStr x => x +:+ "," +:+ s | _ => "_," +:+ s end) "]" vs | _ => "_" end)%string
  | KFts t c => ("fts:" +:+ t +:+ ":" +:+ c)%string
  end.

Definition sample_reads : list Key :=
  match recordPredicateDependencies sample_plan sample_predicates with Ret rk => rk | Throw _ => [] end.
Definition sample_writes : list Key := match emitWriteKeys sample_plan sample_row with Ret wk => wk | Throw _ => [] end.
Definition sample_attached : Store (K:=string) := replace 7%nat (list_to_set (sample_spell <$> sample_reads)) new_Store.

Lemma write_reaches_entry_witness :
  7%nat ∈ affected (list_to_set (sample_spell <$> sample_writes)) (index sample_attached).
Proof.
  apply (write_reaches_entry sample_spell sample_collate sample_plan sample_predicates sample_row sample_writes
    sample_attached ({[7%nat]} ∪ ∅) 7%nat sample_reads).
  - intros v. reflexivity.
  - intros a b Hc. unfold sample_collate. rewrite Hc. destruct (decide (norm a = norm b)); [done|discriminate].
  - apply Forall_singleton. split; [right; repeat constructor|right; reflexivity].
  - apply Forall_singleton. vm_compute. reflexivity.
  - vm_compute. reflexivity.
  - vm_compute. reflexivity.
  - apply tracked_replace; [apply tracked_new|by right].
  - set_solver.
  - intros k Hk. unfold sample_attached. rewrite readSet_replace, decide_True by done.
    apply elem_of_list_to_set, list_elem_of_fmap_2, Hk.
Defined.
