(* ===== verification/SqlText.v ===== *)
(** The SQL expressions predicates compile to, read back from their text: the
    lexical rules, the grammar and the three-valued meaning SQLite documents for
    this fragment. It is the reference the compiler of [query/predicate.ts] is
    proved against, and no part of the program. *)
From Stdlib Require Import Ascii.
From S2P Require Import Prelude Value Dependencies DependenciesProps.
Local Open Scope string_scope.
Local Open Scope list_scope.

(** The double quote. *)
Definition quote_char : Ascii.ascii := Ascii.Ascii false true false false false true false false.

(** ** Tokens *)

Inductive Token : Type :=
  | TName (name : list Ascii.ascii)
  | TWord (word : list Ascii.ascii)
  | TOp (op : ComparisonOperator)
  | TParam | TZero | TOpen | TClose | TComma.

(** The state of the reader between two characters. [NameQuote] has just read a
    quote inside a name: a second one is a quote of the name, anything else ends
    it. *)
Inductive LexState : Type :=
  | Between
  | Name (acc : list Ascii.ascii)
  | NameQuote (acc : list Ascii.ascii)
  | Word (acc : list Ascii.ascii)
  | Less | Greater.

Definition is_letter (c : Ascii.ascii) : bool := existsb (Ascii.eqb c) (chars "ABCDEFGHIJKLMNOPQRSTUVWXYZ").

Definition start (c : Ascii.ascii) : option (list Token * LexState) :=
  if Ascii.eqb c quote_char then Some ([], Name [])
  else match c with
  | " "%char => Some ([], Between)
  | "("%char => Some ([TOpen], Between)
  | ")"%char => Some ([TClose], Between)
  | ","%char => Some ([TComma], Between)
  | "?"%char => Some ([TParam], Between)
  | "0"%char => Some ([TZero], Between)
  | "="%char => Some ([TOp eq_op], Between)
  | "<"%char => Some ([], Less)
  | ">"%char => Some ([], Greater)
  | _ => if is_letter c then Some ([], Word [c]) else None
  end.

Definition after (t : Token) (c : Ascii.ascii) : option (list Token * LexState) :=
  '(ts, s) ← start c; Some (t :: ts, s).

Definition lex_step (s : LexState) (c : Ascii.ascii) : option (list Token * LexState) :=
  match s with
  | Between => start c
  | Name acc => Some ([], if Ascii.eqb c quote_char then NameQuote acc else Name (acc ++ [c]))
  | NameQuote acc => if Ascii.eqb c quote_char then Some ([], Name (acc ++ [c])) else after (TName acc) c
  | Word acc => if is_letter c then Some ([], Word (acc ++ [c])) else after (TWord acc) c
  | Less => if Ascii.eqb c "="%char then Some ([TOp lte_op], Between)
            else if Ascii.eqb c ">"%char then Some ([TOp ne_op], Between) else after (TOp lt_op) c
  | Greater => if Ascii.eqb c "="%char then Some ([TOp gte_op], Between) else after (TOp gt_op) c
  end.

Definition lex_end (s : LexState) : option (list Token) :=
  match s with
  | Between => Some []
  | Name _ => None
  | NameQuote acc => Some [TName acc]
  | Word acc => Some [TWord acc]
  | Less => Some [TOp lt_op]
  | Greater => Some [TOp gt_op]
  end.

Fixpoint lex (s : LexState) (l : list Ascii.ascii) : option (list Token) :=
  match l with
  | [] => lex_end s
  | c :: l => '(ts, s) ← lex_step s c; rest ← lex s l; Some (ts ++ rest)
  end.

(** ** Expressions *)

(** The parameters are bound where they stand. *)
Inductive SqlExpr : Type :=
  | EZero
  | ECompare (column : string) (op : ComparisonOperator) (v : value)
  | EIn (column : string) (vs : list value)
  | EBetween (column : string) (lower upper : value)
  | ENull (column : string) (isNull : bool)
  | EAnd (left right : SqlExpr)
  | EOr (left right : SqlExpr)
  | ENot (expression : SqlExpr).

Definition keyword (w : string) : Token := TWord (chars w).

(** [?, ?, ...)] *)
Fixpoint parse_list (ts : list Token) (ps : list value) : option (list value * list Token * list value) :=
  match ts, ps with
  | TParam :: TClose :: ts, v :: ps => Some ([v], ts, ps)
  | TParam :: TComma :: ts, v :: ps => '(vs, ts, ps) ← parse_list ts ps; Some (v :: vs, ts, ps)
  | _, _ => None
  end.

Definition is_word (w : string) (t : Token) : bool :=
  match t with TWord l => bool_decide (l = chars w) | _ => false end.

(** What may follow a column name. *)
Definition parse_test (column : string) (ts : list Token) (ps : list value) : option (SqlExpr * list Token * list value) :=
  match ts, ps with
  | TOp op :: TParam :: ts, v :: ps => Some (ECompare column op v, ts, ps)
  | t :: ts, ps =>
      if is_word "IN" t then
        match ts with
        | TOpen :: ts => '(vs, ts, ps) ← parse_list ts ps; Some (EIn column vs, ts, ps)
        | _ => None
        end
      else if is_word "BETWEEN" t then
        match ts, ps with
        | TParam :: a :: TParam :: ts, lower :: upper :: ps =>
            if is_word "AND" a then Some (EBetween column lower upper, ts, ps) else None
        | _, _ => None
        end
      else if is_word "IS" t then
        match ts with
        | a :: ts =>
            if is_word "NULL" a then Some (ENull column true, ts, ps)
            else if is_word "NOT" a then
              match ts with
              | b :: ts => if is_word "NULL" b then Some (ENull column false, ts, ps) else None
              | [] => None
              end
            else None
        | [] => None
        end
      else None
  | [], _ => None
  end.

(** The levels of precedence: OR, AND, NOT; a tail goes on from what was read. *)
Inductive Level : Type := AtOr | OrTail (e : SqlExpr) | AtAnd | AndTail (e : SqlExpr) | AtNot.

Fixpoint parse (fuel : nat) (level : Level) (ts : list Token) (ps : list value)
    : option (SqlExpr * list Token * list value) :=
  match fuel with
  | O => None
  | S fuel =>
      match level with
      | AtOr => '(e, ts, ps) ← parse fuel AtAnd ts ps; parse fuel (OrTail e) ts ps
      | OrTail e =>
          match ts with
          | t :: rest => if is_word "OR" t
                         then '(e', ts, ps) ← parse fuel AtAnd rest ps; parse fuel (OrTail (EOr e e')) ts ps
                         else Some (e, ts, ps)
          | [] => Some (e, ts, ps)
          end
      | AtAnd => '(e, ts, ps) ← parse fuel AtNot ts ps; parse fuel (AndTail e) ts ps
      | AndTail e =>
          match ts with
          | t :: rest => if is_word "AND" t
                         then '(e', ts, ps) ← parse fuel AtNot rest ps; parse fuel (AndTail (EAnd e e')) ts ps
                         else Some (e, ts, ps)
          | [] => Some (e, ts, ps)
          end
      | AtNot =>
          match ts with
          | TZero :: ts => Some (EZero, ts, ps)
          | TName name :: ts => parse_test (of_chars name) ts ps
          | TOpen :: ts =>
              '(e, ts, ps) ← parse fuel AtOr ts ps;
              match ts with TClose :: ts => Some (e, ts, ps) | _ => None end
          | t :: ts => if is_word "NOT" t then '(e, ts, ps) ← parse fuel AtNot ts ps; Some (ENot e, ts, ps) else None
          | [] => None
          end
      end
  end.

(** A whole expression with its parameters. A level takes a unit of fuel and
    every third one a token at least. *)
Definition read_sql (sql : string) (params : list value) : option SqlExpr :=
  ts ← lex Between (chars sql);
  '(e, ts, ps) ← parse (8 * S (length ts)) AtOr ts params;
  match ts, ps with [], [] => Some e | _, _ => None end.

(** ** Meaning *)

Section meaning.
Context (st : string -> value) (collate : value -> value -> option comparison).

Fixpoint sql_eval (e : SqlExpr) : option bool :=
  match e with
  | EZero => Some false
  | ECompare c op v => compare collate op (st c) v
  | EIn c vs => foldr (fun v r => sql_or (compare collate eq_op (st c) v) r) (Some false) vs
  | EBetween c lower upper => sql_and (compare collate gte_op (st c) lower) (compare collate lte_op (st c) upper)
  | ENull c isNull => Some (Bool.eqb isNull (bool_decide (st c = VNull)))
  | EAnd p q => sql_and (sql_eval p) (sql_eval q)
  | EOr p q => sql_or (sql_eval p) (sql_eval q)
  | ENot p => sql_not (sql_eval p)
  end.
End meaning.
