(* ===== verification/Predicate.v ===== *)
(** Predicate expressions: [server/src/database/query/predicate.ts].

    Column references build predicate, order and column objects; a WeakMap
    brands each with its owner (the row of references it was built from), so an
    object's brand is part of it here, an owner being a number. [compilePredicates]
    writes the SQL of a list of predicates with its parameters. *)
From S2P Require Import Prelude Errors Value Wire Dependencies SqlText.
Local Open Scope string_scope.
Local Open Scope list_scope.

(** ** Brands *)

Record PredicateMeta : Type := MkPredicate { owner : nat; node : PredicateNode }.

Inductive Direction : Type := asc | desc.
Record OrderMeta : Type := MkOrder { order_owner : nat; order_column : string; direction : Direction }.
Record ColumnReferenceMeta : Type := MkReference { ref_owner : nat; ref_column : string; ref_kind : string }.

(** A value callbacks and methods receive or return: an object may carry a
    brand, and may have a [then] method. *)
Inductive Unknown : Type :=
  | UPrimitive
  | UObject (thenable : bool)
  | UPredicate (m : PredicateMeta)
  | UOrder (m : OrderMeta)
  | UReference (m : ColumnReferenceMeta).

Definition EQUATABLE_KINDS : list string :=
  ["pk"; "string"; "int"; "float"; "bigint"; "identity"; "file"; "fileGrant"; "scheduleAt"; "boolean"; "enum"].
Definition ORDERABLE_KINDS : list string :=
  ["pk"; "string"; "int"; "float"; "bigint"; "identity"; "scheduleAt"; "boolean"].
Definition ORDERED_KINDS : list string := ["pk"; "string"; "int"; "float"; "bigint"; "identity"; "scheduleAt"].
Definition SUMMABLE_KINDS : list string := ["int"; "float"; "bigint"].
Definition MINMAX_KINDS : list string := ORDERED_KINDS.

Definition predicateMeta (v : Unknown) (own : nat) (path : string) : exc js_error PredicateMeta :=
  match v with
  | UPredicate m =>
      if decide (owner m = own) then Ret m
      else Throw (ValidationError (path +:+ ": predicates from different tables cannot be combined"))
  | _ => Throw (ValidationError (path +:+ ": expected a database predicate expression"))
  end.

(** [and], [or] and [not] of a predicate object. *)
Inductive Connective : Type := CAnd | COr.

Definition composePredicate (left : PredicateMeta) (right : Unknown) (kind : Connective) : exc js_error PredicateMeta :=
  r ← predicateMeta right (owner left) (match kind with CAnd => ".and()" | COr => ".or()" end);
  Ret (MkPredicate (owner left)
    (match kind with CAnd => PAnd (node left) (node r) | COr => POr (node left) (node r) end)).

Definition negatePredicate (p : PredicateMeta) : PredicateMeta := MkPredicate (owner p) (PNot (node p)).

(** ** Values *)

(** What a predicate needs of a column: [checkColumn] is the [check] of its base
    validator, [variantTag] the tag of a variant where the column has one, and
    [columnToSql] its codec, of which the first value is used. *)
Record ColumnPlan : Type := MkColumn {
  kind : string;
  nullable : bool;
  typeName : string;
  variantTag : option (string -> option value);
  checkColumn : value -> string -> exc js_error value;
  columnToSql : value -> exc js_error (list value);
}.

Record PredicatePlanIngredients : Type := MkIngredients {
  columns : list (string * ColumnPlan);
  displayName : string;
}.

Section predicates.
(** The text of [JSON.stringify], which only messages use. *)
Context (spell : value -> string).

Definition tag_of (c : ColumnPlan) (v : value) (place : string) : exc js_error value :=
  match v, variantTag c with
  | VStr s, Some tag =>
      match tag s with
      | Some t => Ret t
      | None => Throw (ValidationError (place +:+ ": unknown " +:+ typeName c +:+ " variant " +:+ spell v))
      end
  | _, _ => Throw (ValidationError (place +:+ ": unknown " +:+ typeName c +:+ " variant " +:+ spell v))
  end.

Definition toSqlPredicateValue (plan : PredicatePlanIngredients) (column : string) (c : ColumnPlan) (v : value)
    (unionDiscriminant : bool) : exc js_error value :=
  let place := displayName plan +:+ "." +:+ column in
  match v with
  | VNull => Throw (ValidationError (place +:+ ": use .isNull() or .isNotNull() for nullable values"))
  | _ =>
      if decide (kind c = "union") then
        match v with
        | VStr _ => if unionDiscriminant then tag_of c v place
                    else Throw (ValidationError (place +:+ ": use .is(variant) for union predicates"))
        | _ => Throw (ValidationError (place +:+ ": use .is(variant) for union predicates"))
        end
      else if decide (kind c = "enum") then tag_of c v place
      else
        checked ← checkColumn c v place;
        encoded ← columnToSql c checked;
        Ret (default VUndefined (head encoded))
  end.

(** ** Column references *)

Inductive Method : Type :=
  | MCompare (op : ComparisonOperator) (input : value)
  | MIn (inputs : value)
  | MBetween (lower upper : value)
  | MIs (variant : value)
  | MIsNull | MIsNotNull
  | MOrder (d : Direction).

(** Whether the reference of a column has the method. *)
Definition has_method (c : ColumnPlan) (m : Method) : bool :=
  match m with
  | MCompare (eq_op | ne_op) _ | MIn _ => bool_decide (kind c ∈ EQUATABLE_KINDS)
  | MCompare _ _ | MBetween _ _ => bool_decide (kind c ∈ ORDERED_KINDS)
  | MOrder _ => bool_decide (kind c ∈ ORDERABLE_KINDS)
  | MIs _ => bool_decide (kind c = "union")
  | MIsNull | MIsNotNull => nullable c
  end.

(** [seen.has]: [Set] does not tell [-0] from [0]. *)
Definition seen (v : value) (vs : list value) : bool := existsb (fun x => bool_decide (norm x = norm v)) vs.

(** The encoded inputs of [in], without repetitions. *)
Fixpoint encode_inputs (encode : value -> exc js_error value) (inputs acc : list value) : exc js_error (list value) :=
  match inputs with
  | [] => Ret acc
  | input :: inputs =>
      encoded ← encode input;
      encode_inputs encode inputs (if seen encoded acc then acc else acc ++ [encoded])
  end.

(** A call of a method of a column's reference; a missing method is [undefined]. *)
Definition makeColumnReference (plan : PredicatePlanIngredients) (own : nat) (column : string) (c : ColumnPlan)
    (m : Method) : exc js_error Unknown :=
  let encode v := toSqlPredicateValue plan column c v false in
  let predicate n := Ret (UPredicate (MkPredicate own n)) in
  if negb (has_method c m) then Throw (TypeError "undefined is not a function")
  else match m with
  | MCompare op input => v ← encode input; predicate (PComparison column op v)
  | MIn (VArr inputs) => vs ← encode_inputs encode inputs []; predicate (PIn column vs)
  | MIn _ => Throw (ValidationError (displayName plan +:+ "." +:+ column +:+ ".in: expected an array"))
  | MBetween lower upper => l ← encode lower; u ← encode upper; predicate (PBetween column l u)
  | MIs variant => v ← toSqlPredicateValue plan column c variant true; predicate (PComparison column eq_op v)
  | MIsNull => predicate (PNull column true)
  | MIsNotNull => predicate (PNull column false)
  | MOrder d => Ret (UOrder (MkOrder own column d))
  end.

(** The reference itself. *)
Definition reference (own : nat) (column : string) (c : ColumnPlan) : Unknown :=
  UReference (MkReference own column (kind c)).

(** ** Resolving callbacks *)

(** A callback is [None] when it is not a function; otherwise what calling it
    with the environment's row does. *)
Definition Callback : Type := option (exc js_error Unknown).

Definition resolvePredicate (row : nat) (callback : Callback) (path : string) : exc js_error PredicateNode :=
  match callback with
  | None => Throw (ValidationError (path +:+ ": expected a predicate callback"))
  | Some result =>
      result ← result;
      match result with
      | UObject true => Throw (ValidationError (path +:+ ": predicate callbacks must be synchronous"))
      | _ => m ← predicateMeta result row path; Ret (node m)
      end
  end.

Definition resolveOrder (row : nat) (callback : Callback) (path : string) : exc js_error OrderMeta :=
  match callback with
  | None => Throw (ValidationError (path +:+ ": expected an order callback"))
  | Some result =>
      result ← result;
      match result with
      | UPrimitive => Throw (ValidationError (path +:+ ": expected row.column.asc() or row.column.desc()"))
      | UOrder m => if decide (order_owner m = row) then Ret m
                    else Throw (ValidationError (path +:+ ": expected an order expression from this table"))
      | _ => Throw (ValidationError (path +:+ ": expected an order expression from this table"))
      end
  end.

Definition resolveAggregateColumn (row : nat) (callback : Callback) (path : string) (kinds : list string)
    : exc js_error ColumnReferenceMeta :=
  match callback with
  | None => Throw (ValidationError (path +:+ ": expected a column callback like (row) => row.column"))
  | Some result =>
      result ← result;
      match result with
      | UPrimitive => Throw (ValidationError (path +:+ ": expected a column reference like (row) => row.column"))
      | UReference m =>
          if decide (ref_owner m = row) then
            if decide (ref_kind m ∈ kinds) then Ret m
            else Throw (ValidationError (path +:+ ": column " +:+ spell (VStr (ref_column m)) +:+ " (" +:+ ref_kind m +:+
                          ") is not supported here"))
          else Throw (ValidationError (path +:+ ": expected a column reference from this table"))
      | _ => Throw (ValidationError (path +:+ ": expected a column reference from this table"))
      end
  end.
End predicates.

(** ** Compilation *)

Definition quote (name : string) : string := String quote_char (name +:+ String quote_char EmptyString).

Definition operator (op : ComparisonOperator) : string :=
  match op with eq_op => "=" | ne_op => "<>" | lt_op => "<" | lte_op => "<=" | gt_op => ">" | gte_op => ">=" end.

(** [?, ?, ...], one for each value. *)
Fixpoint placeholders_from (text : string) (vs : list value) : string :=
  match vs with
  | [] => text
  | _ :: vs => placeholders_from ((if decide (text = EmptyString) then text else text +:+ ", ") +:+ "?") vs
  end.

Definition Z_text (z : Z) : string := Z_decimal z.

Fixpoint compilePredicateSql (node : PredicateNode) (params : list value) (limit : Z) (path : string)
    : exc js_error (string * list value) :=
  match node with
  | PComparison column op v => Ret (quote column +:+ " " +:+ operator op +:+ " ?", params ++ [v])
  | PIn column vs =>
      if decide (length vs = 0%nat) then Ret ("0", params)
      else if decide (limit - Z.of_nat (length params) < Z.of_nat (length vs))%Z
      then Throw (ValidationError (path +:+ ": statement requires at least " +:+
             Z_text (Z.of_nat (length params + length vs)) +:+ " parameters; SQLite supports at most " +:+ Z_text limit))
      else Ret (quote column +:+ " IN (" +:+ placeholders_from EmptyString vs +:+ ")", params ++ vs)
  | PBetween column lower upper => Ret (quote column +:+ " BETWEEN ? AND ?", params ++ [lower; upper])
  | PNull column isNull => Ret (quote column +:+ " IS " +:+ (if isNull then EmptyString else "NOT ") +:+ "NULL", params)
  | PNot e =>
      '(sql, params) ← compilePredicateSql e params limit path;
      Ret ("NOT (" +:+ sql +:+ ")", params)
  | PAnd p q =>
      '(l, params) ← compilePredicateSql p params limit path;
      '(r, params) ← compilePredicateSql q params limit path;
      Ret ("(" +:+ l +:+ ") AND (" +:+ r +:+ ")", params)
  | POr p q =>
      '(l, params) ← compilePredicateSql p params limit path;
      '(r, params) ← compilePredicateSql q params limit path;
      Ret ("(" +:+ l +:+ ") OR (" +:+ r +:+ ")", params)
  end.

(** The loop over the predicates. *)
Fixpoint compile_all (nodes : list PredicateNode) (sql : string) (params : list value) (limit : Z) (path : string)
    : exc js_error (string * list value) :=
  match nodes with
  | [] => Ret (sql, params)
  | node :: nodes =>
      '(text, params) ← compilePredicateSql node params limit path;
      compile_all nodes ((if decide (sql = EmptyString) then sql else sql +:+ " AND ") +:+ "(" +:+ text +:+ ")") params limit path
  end.

Definition compilePredicates (nodes : list PredicateNode) (limit : Z) (path : string)
    : exc js_error (string * list value) :=
  '(sql, params) ← compile_all nodes EmptyString [] limit path;
  _ ← throw_if (bool_decide (limit < Z.of_nat (length params))%Z)
        (ValidationError (path +:+ ": statement requires " +:+ Z_text (Z.of_nat (length params)) +:+
           " parameters; SQLite supports at most " +:+ Z_text limit));
  Ret (sql, params).
