(* ===== verification/PredicateProps.v ===== *)
(** Compiled predicates mean what their trees mean: the text that
    [compilePredicates] writes is read back, by the grammar of [SqlText], as an
    expression with the three-valued value of the conjunction of the trees. *)
From Stdlib Require Import Ascii.
From S2P Require Import Prelude Errors Value Wire Dependencies DependenciesProps SqlText Predicate.
Local Open Scope string_scope.
Local Open Scope list_scope.

(** ** What a tree is compiled to *)

Fixpoint node_values (n : PredicateNode) : list value :=
  match n with
  | PComparison _ _ v => [v]
  | PIn _ vs => vs
  | PBetween _ lower upper => [lower; upper]
  | PNull _ _ => []
  | PNot p => node_values p
  | PAnd p q | POr p q => node_values p ++ node_values q
  end.

Fixpoint node_text (n : PredicateNode) : string :=
  match n with
  | PComparison c op _ => quote c +:+ " " +:+ operator op +:+ " ?"
  | PIn c [] => "0"
  | PIn c vs => quote c +:+ " IN (" +:+ placeholders_from EmptyString vs +:+ ")"
  | PBetween c _ _ => quote c +:+ " BETWEEN ? AND ?"
  | PNull c isNull => quote c +:+ " IS " +:+ (if isNull then EmptyString else "NOT ") +:+ "NULL"
  | PNot p => "NOT (" +:+ node_text p +:+ ")"
  | PAnd p q => "(" +:+ node_text p +:+ ") AND (" +:+ node_text q +:+ ")"
  | POr p q => "(" +:+ node_text p +:+ ") OR (" +:+ node_text q +:+ ")"
  end.

(** What compiling gives, as long as the parameters fit. *)
Definition gives (r : exc js_error (string * list value)) (text : string) (params : list value) (limit : Z) : Prop :=
  match r with
  | Ret (sql, ps) => sql = text /\ ps = params
  | Throw e => (exists m, e = ValidationError m) /\ (limit < Z.of_nat (length params))%Z
  end.

Lemma gives_bind r t ps limit (k : string * list value -> exc js_error (string * list value)) t' ps' :
  gives r t ps limit -> (length ps <= length ps')%nat -> gives (k (t, ps)) t' ps' limit -> gives (r ≫= k) t' ps' limit.
Proof.
  intros Hr Hl Hk. destruct r as [[sql params]|e]; cbn in *; [by destruct Hr as [-> ->]|].
  split; [apply Hr|lia].
Qed.

Lemma compilePredicateSql_gives limit path n : forall ps,
  gives (compilePredicateSql n ps limit path) (node_text n) (ps ++ node_values n) limit.
Proof.
  assert (Hop : forall p q word ps,
    (forall ps, gives (compilePredicateSql p ps limit path) (node_text p) (ps ++ node_values p) limit) ->
    (forall ps, gives (compilePredicateSql q ps limit path) (node_text q) (ps ++ node_values q) limit) ->
    gives ('(l, params) ← compilePredicateSql p ps limit path;
           '(r, params) ← compilePredicateSql q params limit path;
           Ret ("(" +:+ l +:+ word +:+ r +:+ ")", params))
      ("(" +:+ node_text p +:+ word +:+ node_text q +:+ ")") (ps ++ node_values p ++ node_values q) limit).
  { intros p q word ps Hp Hq. eapply gives_bind; [apply Hp|rewrite !length_app; lia|]. cbn beta iota.
    rewrite app_assoc. by eapply gives_bind; [apply Hq| |]. }
  induction n as [c op v|c vs|c lo hi|c b|p IHp q IHq|p IHp q IHq|p IHp]; intros ps; cbn; try done.
  - case_decide as H0; [by destruct vs; [cbn; rewrite app_nil_r|]|].
    case_decide as Hl; cbn; [split; [by eexists|rewrite length_app; lia]|]. by destruct vs.
  - by rewrite app_nil_r.
  - by apply Hop.
  - by apply Hop.
  - eapply gives_bind; [apply IHp|done|done].
Qed.

(** ** Its tokens *)

Fixpoint param_tokens (vs : list value) : list Token :=
  match vs with
  | [] | [_] => [TParam; TClose]
  | _ :: vs => TParam :: TComma :: param_tokens vs
  end.

Fixpoint node_tokens (n : PredicateNode) : list Token :=
  match n with
  | PComparison c op _ => [TName (chars c); TOp op; TParam]
  | PIn c [] => [TZero]
  | PIn c vs => TName (chars c) :: keyword "IN" :: TOpen :: param_tokens vs
  | PBetween c _ _ => [TName (chars c); keyword "BETWEEN"; TParam; keyword "AND"; TParam]
  | PNull c isNull => [TName (chars c); keyword "IS"] ++ (if isNull then [] else [keyword "NOT"]) ++ [keyword "NULL"]
  | PNot p => keyword "NOT" :: TOpen :: node_tokens p ++ [TClose]
  | PAnd p q => TOpen :: node_tokens p ++ [TClose; keyword "AND"; TOpen] ++ node_tokens q ++ [TClose]
  | POr p q => TOpen :: node_tokens p ++ [TClose; keyword "OR"; TOpen] ++ node_tokens q ++ [TClose]
  end.

(** [l] is read as [ts] in front of [rest]. *)
Definition lexes (l : list ascii) (ts : list Token) (rest : list ascii) : Prop :=
  lex Between (l ++ rest) = app ts <$> lex Between rest.

Lemma lexes_app l ts l' ts' rest :
  lexes l ts (l' ++ rest) -> lexes l' ts' rest -> lexes (l ++ l') (ts ++ ts') rest.
Proof.
  unfold lexes. intros H H'. rewrite <- app_assoc, H, H'. destruct (lex Between rest); cbn; [|done].
  by rewrite app_assoc.
Qed.

Lemma chars_app s t : chars (s +:+ t) = chars s ++ chars t.
Proof. induction s as [|a s IH]; [done|]. change (a :: chars (s +:+ t) = a :: chars s ++ chars t). by rewrite IH. Qed.

Definition unquoted (c : string) : Prop := quote_char ∉ chars c.

Lemma lex_name l rest : forall acc, quote_char ∉ l ->
  lex (Name acc) (l ++ quote_char :: " "%char :: rest) = app [TName (acc ++ l)] <$> lex Between rest.
Proof.
  induction l as [|a l IH]; intros acc Hq.
  - rewrite app_nil_r. cbn. by destruct (lex Between rest).
  - cbn.
    replace (Ascii.eqb a quote_char) with false by (symmetry; apply Ascii.eqb_neq; set_solver). cbn. rewrite IH by set_solver.
    rewrite <- app_assoc. cbn. by destruct (lex Between rest).
Qed.

Lemma lexes_quote c rest : unquoted c -> lexes (chars (quote c)) [TName (chars c)] (" "%char :: rest).
Proof.
  intros Hq. unfold lexes, quote. cbn -[String.append]. rewrite chars_app, <- app_assoc. cbn [chars app].
  rewrite (lex_name _ _ []) by done. cbn. by destruct (lex Between rest).
Qed.

(** Text without names, read by evaluation. *)
Ltac lex_text := unfold lexes; cbn; by destruct (lex Between _).

Lemma lexes_params vs rest : vs <> [] ->
  lexes (chars (placeholders_from EmptyString vs) ++ [")"%char]) (param_tokens vs) rest.
Proof.
  assert (Hmore : forall vs text, text <> EmptyString ->
    chars (placeholders_from text vs) = chars text ++ concat (map (fun _ => [","; " "; "?"]%char) vs)).
  { induction vs0 as [|v l IH]; intros text Ht; cbn; [by rewrite app_nil_r|].
    rewrite decide_False by done. rewrite IH by (by destruct text).
    rewrite !chars_app, <- !app_assoc. done. }
  intros Hne. destruct vs as [|v vs]; [done|]. cbn [placeholders_from].
  change ((if decide (EmptyString = EmptyString) then EmptyString else EmptyString +:+ ", ") +:+ "?") with "?".
  rewrite Hmore by done. clear Hne Hmore. cbn [chars app].
  revert v. induction vs as [|w vs IH]; intros v; [lex_text|].
  cbn [map concat app]. change (param_tokens (v :: w :: vs)) with ([TParam; TComma] ++ param_tokens (w :: vs)).
  change (lexes (["?"; ","; " "]%char ++ ("?"%char :: concat (map (fun _ => [","; " "; "?"]%char) vs) ++ [")"%char]))
    ([TParam; TComma] ++ param_tokens (w :: vs)) rest).
  apply lexes_app; [lex_text|apply (IH w)].
Qed.

Fixpoint names_ok (n : PredicateNode) : Prop :=
  match n with
  | PComparison c _ _ | PIn c _ | PBetween c _ _ | PNull c _ => unquoted c
  | PNot p => names_ok p
  | PAnd p q | POr p q => names_ok p /\ names_ok q
  end.

Lemma lexes_node n : forall rest, names_ok n ->
  lexes (chars (node_text n)) (node_tokens n) (")"%char :: rest).
Proof.
  induction n as [c op v|c vs|c lo hi|c b|p IHp q IHq|p IHp q IHq|p IHp]; intros rest Hn; cbn [node_text node_tokens].
  - rewrite !chars_app. change [TName (chars c); TOp op; TParam] with ([TName (chars c)] ++ [TOp op; TParam]).
    apply lexes_app; [by apply lexes_quote|]. destruct op; lex_text.
  - destruct vs as [|v vs]; [lex_text|]. rewrite !chars_app.
    change (lexes (chars (quote c) ++ (chars " IN (" ++ chars (placeholders_from EmptyString (v :: vs)) ++ [")"%char]))
      ([TName (chars c)] ++ ([keyword "IN"; TOpen] ++ param_tokens (v :: vs))) (")"%char :: rest)).
    apply lexes_app; [by apply lexes_quote|]. apply lexes_app; [|by apply lexes_params].
    lex_text.
  - rewrite chars_app. change (node_tokens (PBetween c lo hi)) with
      ([TName (chars c)] ++ [keyword "BETWEEN"; TParam; keyword "AND"; TParam]).
    apply (lexes_app _ [TName (chars c)]); [by apply lexes_quote|]. lex_text.
  - rewrite !chars_app. cbn [app]. apply (lexes_app _ [TName (chars c)]); [by apply lexes_quote|].
    destruct b; lex_text.
  - rewrite !chars_app. destruct Hn as [Hp Hq].
    change (TOpen :: ?ts) with ([TOpen] ++ ts).
    apply lexes_app; [lex_text|]. apply lexes_app; [apply IHp, Hp|].
    apply (lexes_app _ [TClose; keyword "AND"; TOpen]); [lex_text|]. apply lexes_app; [apply IHq, Hq|lex_text].
  - rewrite !chars_app. destruct Hn as [Hp Hq].
    change (TOpen :: ?ts) with ([TOpen] ++ ts).
    apply lexes_app; [lex_text|]. apply lexes_app; [apply IHp, Hp|].
    apply (lexes_app _ [TClose; keyword "OR"; TOpen]); [lex_text|]. apply lexes_app; [apply IHq, Hq|lex_text].
  - rewrite !chars_app. change (keyword "NOT" :: TOpen :: ?ts) with ([keyword "NOT"; TOpen] ++ ts).
    apply lexes_app; [lex_text|]. apply lexes_app; [apply IHp, Hn|lex_text].
Qed.

(** ** Its expression *)

Fixpoint node_expr (n : PredicateNode) : SqlExpr :=
  match n with
  | PComparison c op v => ECompare c op v
  | PIn c [] => EZero
  | PIn c vs => EIn c vs
  | PBetween c lower upper => EBetween c lower upper
  | PNull c isNull => ENull c isNull
  | PNot p => ENot (node_expr p)
  | PAnd p q => EAnd (node_expr p) (node_expr q)
  | POr p q => EOr (node_expr p) (node_expr q)
  end.

Lemma node_expr_eval st collate n : sql_eval st collate (node_expr n) = eval st collate n.
Proof. induction n as [|c [|v vs]| | | | |]; cbn; congruence. Qed.

(** The fuel an expression takes: three levels for each parenthesis. *)
Fixpoint node_depth (n : PredicateNode) : nat :=
  match n with
  | PNot p => 5 + node_depth p
  | PAnd p q | POr p q => 5 + node_depth p `max` node_depth q
  | _ => 4
  end.

Lemma node_tokens_length n : (node_depth n <= 5 * length (node_tokens n))%nat.
Proof. induction n as [|c [|v vs]| |c []| | |]; cbn; rewrite ?length_app; cbn; rewrite ?length_app; cbn; lia. Qed.

Lemma parse_params vs : forall v ts ps,
  parse_list (param_tokens (v :: vs) ++ ts) ((v :: vs) ++ ps) = Some (v :: vs, ts, ps).
Proof.
  induction vs as [|w vs IH]; intros v ts ps; [done|].
  change (('(us, ts', ps') ← parse_list (param_tokens (w :: vs) ++ ts) ((w :: vs) ++ ps); Some (v :: us, ts', ps'))
    = Some (v :: w :: vs, ts, ps)). by rewrite IH.
Qed.

(** An expression in parentheses is an operand. *)
Lemma parse_operand n fuel ts ps :
  (forall fuel ts ps, (node_depth n <= fuel)%nat ->
    parse fuel AtOr (node_tokens n ++ TClose :: ts) (node_values n ++ ps) = Some (node_expr n, TClose :: ts, ps)) ->
  (node_depth n < fuel)%nat ->
  parse fuel AtNot (TOpen :: node_tokens n ++ TClose :: ts) (node_values n ++ ps) = Some (node_expr n, ts, ps).
Proof. intros H Hf. destruct fuel as [|fuel]; [lia|]. cbn [parse]. rewrite H by lia. done. Qed.

(** Nothing after it, or a closing parenthesis, ends an expression. *)
Definition ends (ts : list Token) : Prop := ts = [] \/ exists ts', ts = TClose :: ts'.

Lemma parse_tail fuel e ts ps : ends ts ->
  parse (S fuel) (AndTail e) ts ps = Some (e, ts, ps) /\ parse (S fuel) (OrTail e) ts ps = Some (e, ts, ps).
Proof. intros [->|[ts' ->]]; done. Qed.

Lemma parse_and_level fuel ts ps e rest ps' : ends rest ->
  parse (S fuel) AtNot ts ps = Some (e, rest, ps') -> parse (S (S fuel)) AtAnd ts ps = Some (e, rest, ps').
Proof.
  intros He H. change (('(e, ts, ps) ← parse (S fuel) AtNot ts ps; parse (S fuel) (AndTail e) ts ps) = Some (e, rest, ps')).
  rewrite H. by apply parse_tail.
Qed.

Lemma parse_or_level fuel ts ps e rest ps' : ends rest ->
  parse (S fuel) AtAnd ts ps = Some (e, rest, ps') -> parse (S (S fuel)) AtOr ts ps = Some (e, rest, ps').
Proof.
  intros He H. change (('(e, ts, ps) ← parse (S fuel) AtAnd ts ps; parse (S fuel) (OrTail e) ts ps) = Some (e, rest, ps')).
  rewrite H. by apply parse_tail.
Qed.

Lemma parse_atom fuel ts ps e rest ps' : ends rest ->
  parse (S fuel) AtNot ts ps = Some (e, rest, ps') -> parse (S (S (S fuel))) AtOr ts ps = Some (e, rest, ps').
Proof. intros He H. by apply parse_or_level, parse_and_level. Qed.

(** An operand goes on with AND at its level. *)
Lemma parse_and fuel ts ps e mid ps' e' rest ps'' : ends rest ->
  parse (S (S (S fuel))) AtNot ts ps = Some (e, keyword "AND" :: mid, ps') ->
  parse (S (S fuel)) AtNot mid ps' = Some (e', rest, ps'') ->
  parse (S (S (S (S fuel)))) AtAnd ts ps = Some (EAnd e e', rest, ps'').
Proof.
  intros He H H'.
  change (('(e, ts, ps) ← parse (S (S (S fuel))) AtNot ts ps; parse (S (S (S fuel))) (AndTail e) ts ps)
    = Some (EAnd e e', rest, ps'')). rewrite H.
  change (('(e', ts, ps) ← parse (S (S fuel)) AtNot mid ps'; parse (S (S fuel)) (AndTail (EAnd e e')) ts ps)
    = Some (EAnd e e', rest, ps'')). rewrite H'. by apply parse_tail.
Qed.

Lemma parse_or fuel ts ps e mid ps' e' rest ps'' : ends rest ->
  parse (S (S fuel)) AtNot ts ps = Some (e, keyword "OR" :: mid, ps') ->
  parse (S fuel) AtNot mid ps' = Some (e', rest, ps'') ->
  parse (S (S (S (S fuel)))) AtOr ts ps = Some (EOr e e', rest, ps'').
Proof.
  intros He H H'.
  change (('(e, ts, ps) ← ('(e, ts, ps) ← parse (S (S fuel)) AtNot ts ps; parse (S (S fuel)) (AndTail e) ts ps);
    parse (S (S (S fuel))) (OrTail e) ts ps) = Some (EOr e e', rest, ps'')). rewrite H.
  change (('(e', ts, ps) ← parse (S (S fuel)) AtAnd mid ps'; parse (S (S fuel)) (OrTail (EOr e e')) ts ps)
    = Some (EOr e e', rest, ps'')). rewrite (parse_and_level _ _ _ _ _ _ He H'). by apply parse_tail.
Qed.

Lemma parse_node n : forall fuel ts ps, (node_depth n <= fuel)%nat ->
  parse fuel AtOr (node_tokens n ++ TClose :: ts) (node_values n ++ ps) = Some (node_expr n, TClose :: ts, ps).
Proof.
  induction n as [c op v|c vs|c lo hi|c b|p IHp q IHq|p IHp q IHq|p IHp]; intros fuel ts ps Hf;
    cbn [node_depth] in Hf; do 4 (destruct fuel as [|fuel]; [lia|]);
    try (assert (He : ends (TClose :: ts)) by (right; by eexists)).
  1-4: apply parse_atom; [done|].
  - change (Some (ECompare (of_chars (chars c)) op v, TClose :: ts, ps) = Some (ECompare c op v, TClose :: ts, ps)).
    by rewrite of_chars_chars.
  - destruct vs as [|v vs]; [done|].
    change (('(us, ts, ps) ← parse_list (param_tokens (v :: vs) ++ TClose :: ts) ((v :: vs) ++ ps);
      Some (EIn (of_chars (chars c)) us, ts, ps)) = Some (EIn c (v :: vs), TClose :: ts, ps)).
    by rewrite parse_params, of_chars_chars.
  - change (Some (EBetween (of_chars (chars c)) lo hi, TClose :: ts, ps) = Some (EBetween c lo hi, TClose :: ts, ps)).
    by rewrite of_chars_chars.
  - destruct b;
      match goal with |- _ = Some (node_expr (PNull _ ?b), _, _) =>
        change (Some (ENull (of_chars (chars c)) b, TClose :: ts, ps) = Some (ENull c b, TClose :: ts, ps)) end;
      by rewrite of_chars_chars.
  - cbn [node_tokens node_values node_expr]. repeat (rewrite <- !app_assoc; cbn [app]).
    destruct fuel as [|fuel]; [lia|]. apply parse_or_level; [done|].
    eapply parse_and; [done|apply parse_operand; [apply IHp|lia]|apply parse_operand; [apply IHq|lia]].
  - cbn [node_tokens node_values node_expr]. repeat (rewrite <- !app_assoc; cbn [app]).
    eapply parse_or; [done|apply parse_operand; [apply IHp|lia]|apply parse_operand; [apply IHq|lia]].
  - cbn [node_tokens node_values node_expr]. cbn [app]. rewrite <- app_assoc. cbn [app].
    apply parse_atom; [done|].
    change (('(e, us, qs) ← parse (S fuel) AtNot (TOpen :: node_tokens p ++ TClose :: TClose :: ts) (node_values p ++ ps);
      Some (ENot e, us, qs)) = Some (ENot (node_expr p), TClose :: ts, ps)).
    rewrite parse_operand by first [exact IHp|lia]. done.
Qed.

(** ** The conjunction *)

Definition joined_text (nodes : list PredicateNode) : string :=
  fold_left (fun sql n => (if decide (sql = EmptyString) then sql else sql +:+ " AND ") +:+ "(" +:+ node_text n +:+ ")")
    nodes EmptyString.

Lemma compile_all_gives limit path nodes : forall sql ps,
  gives (compile_all nodes sql ps limit path)
    (fold_left (fun sql n => (if decide (sql = EmptyString) then sql else sql +:+ " AND ") +:+ "(" +:+ node_text n +:+ ")")
       nodes sql)
    (ps ++ (nodes ≫= node_values)) limit.
Proof.
  induction nodes as [|n nodes IH]; intros sql ps; cbn [compile_all fold_left mbind list_bind]; [by rewrite app_nil_r|].
  eapply gives_bind; [apply compilePredicateSql_gives|rewrite !length_app; lia|]. cbn beta iota.
  rewrite app_assoc. apply IH.
Qed.

Definition more_tokens (nodes : list PredicateNode) : list Token :=
  nodes ≫= fun n => keyword "AND" :: TOpen :: node_tokens n ++ [TClose].

Lemma lexes_more nodes : forall text ts, Forall names_ok nodes -> text <> EmptyString ->
  (forall rest, lexes (chars text) ts rest) ->
  lexes (chars (fold_left (fun sql n => (if decide (sql = EmptyString) then sql else sql +:+ " AND ") +:+ "(" +:+
    node_text n +:+ ")") nodes text)) (ts ++ more_tokens nodes) [].
Proof.
  induction nodes as [|n nodes IH]; intros text ts Hn Ht Hl; cbn [fold_left more_tokens mbind list_bind].
  { rewrite app_nil_r. apply Hl. }
  apply Forall_cons_1 in Hn as [Hn Hns]. rewrite decide_False by done. rewrite app_assoc.
  apply IH; [done|by destruct text|]. intros rest. rewrite !chars_app, <- app_assoc.
  apply lexes_app; [apply Hl|].
  change (keyword "AND" :: TOpen :: ?us) with ([keyword "AND"; TOpen] ++ us). rewrite app_assoc.
  apply lexes_app; [lex_text|]. apply lexes_app; [by apply lexes_node|lex_text].
Qed.

Lemma parse_more nodes : forall fuel e, (Forall (fun n => node_depth n + length nodes < fuel) nodes)%nat -> (0 < fuel)%nat ->
  parse fuel (AndTail e) (more_tokens nodes) (nodes ≫= node_values) = Some (foldl EAnd e (node_expr <$> nodes), [], []).
Proof.
  induction nodes as [|n nodes IH]; intros fuel e Hf H0; cbn [more_tokens mbind list_bind fmap list_fmap foldl];
    (destruct fuel as [|fuel]; [lia|]); [done|].
  apply Forall_cons_1 in Hf as [Hf Hfs]. cbn [length] in *. cbn [app]. rewrite <- app_assoc. cbn [app].
  change (('(e', ts, ps) ← parse fuel AtNot (TOpen :: node_tokens n ++ TClose :: more_tokens nodes)
    (node_values n ++ (nodes ≫= node_values)); parse fuel (AndTail (EAnd e e')) ts ps)
    = Some (foldl EAnd (EAnd e (node_expr n)) (node_expr <$> nodes), [], [])).
  rewrite parse_operand by (lia || intros; by apply parse_node). apply IH; [|lia].
  eapply Forall_impl; [exact Hfs|]. cbn. lia.
Qed.

Lemma lexes_joined n nodes : Forall names_ok (n :: nodes) ->
  lex Between (chars (joined_text (n :: nodes))) = Some ((TOpen :: node_tokens n ++ [TClose]) ++ more_tokens nodes).
Proof.
  intros [Hn Hns]%Forall_cons_1. unfold joined_text. cbn [fold_left].
  change ((if decide (EmptyString = EmptyString) then EmptyString else EmptyString +:+ " AND ") +:+ ?t) with t.
  pose proof (lexes_more nodes ("(" +:+ node_text n +:+ ")") (TOpen :: node_tokens n ++ [TClose]) Hns) as H.
  unfold lexes in H. rewrite app_nil_r in H. rewrite H; [cbn [lex lex_end fmap option_fmap option_map]; by rewrite app_nil_r|done|].
  intros rest. rewrite !chars_app. change (TOpen :: ?us) with ([TOpen] ++ us).
  apply lexes_app; [lex_text|]. apply lexes_app; [by apply lexes_node|lex_text].
Qed.

Lemma more_tokens_length nodes n : n ∈ nodes ->
  (length (node_tokens n) + 3 * length nodes <= length (more_tokens nodes))%nat.
Proof.
  assert (Hl : forall nodes, (4 * length nodes <= length (more_tokens nodes))%nat).
  { induction nodes0 as [|m l IH]; [done|].
    change (more_tokens (m :: l)) with (keyword "AND" :: TOpen :: (node_tokens m ++ [TClose]) ++ more_tokens l).
    cbn [length]. rewrite !length_app. cbn [length]. pose proof (node_tokens_length m).
    assert (0 < node_depth m)%nat by (destruct m; cbn; lia). lia. }
  induction nodes as [|m nodes IH]; intros Hn; [by apply not_elem_of_nil in Hn|].
  change (more_tokens (m :: nodes)) with (keyword "AND" :: TOpen :: (node_tokens m ++ [TClose]) ++ more_tokens nodes).
  cbn [length]. rewrite !length_app. cbn [length].
  apply elem_of_cons in Hn as [->|Hn]; [specialize (Hl nodes); lia|specialize (IH Hn); lia].
Qed.

Lemma read_joined n nodes : Forall names_ok (n :: nodes) ->
  read_sql (joined_text (n :: nodes)) ((n :: nodes) ≫= node_values)
  = Some (foldl EAnd (node_expr n) (node_expr <$> nodes)).
Proof.
  intros Hn. unfold read_sql. rewrite (lexes_joined _ _ Hn).
  change ((n :: nodes) ≫= node_values) with (node_values n ++ (nodes ≫= node_values)).
  cbn [mbind option_bind]. change (list_bind PredicateNode value node_values) with (mbind (M := list) node_values).
  set (N := length _). assert (HN : (N = length (node_tokens n) + 2 + length (more_tokens nodes))%nat).
  { unfold N. rewrite length_app. cbn. rewrite length_app. cbn. lia. }
  pose proof (node_tokens_length n). clearbody N.
  assert (Hf : exists f, (8 * S N = S (S (S f)))%nat) by (exists (8 * S N - 3)%nat; lia).
  destruct Hf as [f Hf]. rewrite Hf.
  cbn [app]. rewrite <- app_assoc. cbn [app].
  assert (Hm : parse (S (S f)) AtAnd (TOpen :: node_tokens n ++ TClose :: more_tokens nodes)
     (node_values n ++ (nodes ≫= node_values)) = Some (foldl EAnd (node_expr n) (node_expr <$> nodes), [], [])).
  { change (('(e, ts, ps) ← parse (S f) AtNot (TOpen :: node_tokens n ++ TClose :: more_tokens nodes)
      (node_values n ++ (nodes ≫= node_values)); parse (S f) (AndTail e) ts ps)
      = Some (foldl EAnd (node_expr n) (node_expr <$> nodes), [], [])).
    rewrite parse_operand by (lia || intros; by apply parse_node). apply parse_more; [|lia].
    apply Forall_forall. intros m Hi. pose proof (more_tokens_length _ _ Hi). pose proof (node_tokens_length m). lia. }
  by rewrite (parse_or_level _ _ _ _ _ _ (or_introl eq_refl) Hm).
Qed.

Lemma sql_and_assoc a b c : sql_and a (sql_and b c) = sql_and (sql_and a b) c.
Proof. by destruct a as [[]|], b as [[]|], c as [[]|]. Qed.

Lemma foldl_and st collate nodes : forall e,
  sql_eval st collate (foldl EAnd e (node_expr <$> nodes))
  = sql_and (sql_eval st collate e) (foldr sql_and (Some true) (eval st collate <$> nodes)).
Proof.
  induction nodes as [|n nodes IH]; intros e; cbn; [by destruct (sql_eval _ _ e) as [[]|]|].
  rewrite IH. cbn. by rewrite node_expr_eval, sql_and_assoc.
Qed.

(** ** What the references build *)

Lemma encode_inputs_distinct encode inputs : forall acc vs,
  encode_inputs encode inputs acc = Ret vs -> NoDup (norm <$> acc) -> NoDup (norm <$> vs).
Proof.
  induction inputs as [|input inputs IH]; intros acc vs; cbn [encode_inputs]; [by intros [= ->]|].
  destruct (encode input) as [v|e]; cbn [mbind exc_bind]; [|discriminate]. intros H Ha. eapply IH; [exact H|].
  destruct (seen v acc) eqn:Es; [done|]. rewrite fmap_app. apply NoDup_app. split_and!; [done| |apply NoDup_singleton].
  intros x (w & -> & Hw)%list_elem_of_fmap Hx. apply list_elem_of_singleton in Hx.
  assert (seen v acc = true); [|congruence]. unfold seen. apply existsb_exists. exists w.
  split; [by apply list_elem_of_In|]. by apply bool_decide_eq_true_2.
Qed.

(** A method of a column's reference yields a predicate of that row on that
    column, its values of [in] distinct, or an order on that column. *)
Lemma reference_builds spell plan own column c m r : unquoted column ->
  makeColumnReference spell plan own column c m = Ret r ->
  (exists n, r = UPredicate (MkPredicate own n) /\ names_ok n /\
    forall vs, n = PIn column vs -> NoDup (norm <$> vs)) \/
  (exists d, m = MOrder d /\ r = UOrder (MkOrder own column d)).
Proof.
  intros Hq. unfold makeColumnReference. destruct (has_method c m); [|discriminate]. cbn [negb].
  destruct m as [op input|inputs|lower upper|variant| | |d].
  - destruct (toSqlPredicateValue _ _ _ _ _ _); cbn; [|discriminate]. intros [= <-]. left. by eexists.
  - destruct inputs; try discriminate. destruct (encode_inputs _ _ _) as [vs|] eqn:E; cbn; [|discriminate].
    intros [= <-]. left. eexists. split_and!; [done|done|]. intros ? [= <-].
    apply (encode_inputs_distinct _ _ _ _ E). constructor.
  - destruct (toSqlPredicateValue _ _ _ _ lower _); cbn; [|discriminate].
    destruct (toSqlPredicateValue _ _ _ _ upper _); cbn; [|discriminate]. intros [= <-]. left. by eexists.
  - destruct (toSqlPredicateValue _ _ _ _ _ _); cbn; [|discriminate]. intros [= <-]. left. by eexists.
  - intros [= <-]. left. by eexists.
  - intros [= <-]. left. by eexists.
  - intros [= <-]. right. by eexists.
Qed.

Lemma composePredicate_spec left right k r : composePredicate left right k = Ret r ->
  exists m, right = UPredicate m /\ owner m = owner left /\ owner r = owner left /\
    (names_ok (node left) -> names_ok (node m) -> names_ok (node r)).
Proof.
  unfold composePredicate, predicateMeta. destruct right; try discriminate.
  case_decide as Ho; cbn; [|discriminate]. intros [= <-]. exists m. by destruct k.
Qed.

(** A callback is taken only for a predicate of its own row. *)
Lemma resolvePredicate_spec row callback path n : resolvePredicate row callback path = Ret n ->
  callback = Some (Ret (UPredicate (MkPredicate row n))).
Proof.
  unfold resolvePredicate. destruct callback as [[u|e]|]; try discriminate. cbn.
  destruct u as [|[]|[o k]| |]; try discriminate. cbn. case_decide as Ho; cbn; [|discriminate].
  cbn in Ho. subst. by intros [= ->].
Qed.

(** ** The property *)

(** C29: the compiler of predicates is correct: for column names without a quote,
    [compilePredicates] fails only with a [ValidationError], exactly when the
    values of the trees outnumber the parameter limit; otherwise its parameters
    are those values in order and its text, read by the SQL grammar with these
    parameters bound in order, has for every row and collation the three-valued
    truth of the conjunction of the trees. *)
Theorem compile_reads_back nodes limit path :
  Forall names_ok nodes ->
  match compilePredicates nodes limit path with
  | Throw e => (exists m, e = ValidationError m) /\ (limit < Z.of_nat (length (nodes ≫= node_values)))%Z
  | Ret (sql, params) =>
      params = (nodes ≫= node_values) /\ (Z.of_nat (length params) <= limit)%Z /\
      (nodes = [] -> sql = EmptyString) /\
      (nodes <> [] -> exists e, read_sql sql params = Some e /\
        forall st collate, sql_eval st collate e = foldr sql_and (Some true) (eval st collate <$> nodes))
  end.
Proof.
  intros Hn. pose proof (compile_all_gives limit path nodes EmptyString []) as Hg.
  unfold compilePredicates. destruct (compile_all _ _ _ _ _) as [[sql ps]|e]; [|exact Hg].
  destruct Hg as [-> ->]. cbn [mbind exc_bind app]. unfold throw_if. case_bool_decide as Hl; cbn [mbind exc_bind].
  { split; [by eexists|exact Hl]. }
  split_and!; [done|lia|by intros ->|].
  intros Hne. destruct nodes as [|n nodes]; [done|]. eexists. split; [by apply read_joined|].
  intros st collate. rewrite foldl_and. cbn. by rewrite node_expr_eval.
Qed.

Lemma compile_reads_back_witness :
  let nodes := [POr (PIn "a" [VBig 1; VBig 2]) (PNot (PNull "b" false)); PBetween "c" (VBig 3) (VBig 4)] in
  exists sql params e, compilePredicates nodes 4 "find" = Ret (sql, params) /\ read_sql sql params = Some e /\
  forall st collate, sql_eval st collate e = foldr sql_and (Some true) (eval st collate <$> nodes).
Proof.
  intros nodes. assert (Hn : Forall names_ok nodes).
  { subst nodes. repeat first [apply Forall_nil_2 | apply Forall_cons_2 | split];
      apply (bool_decide_unpack _); vm_compute; exact I. }
  pose proof (compile_reads_back nodes 4 "find" Hn) as H.
  destruct (compilePredicates nodes 4 "find") as [[sql params]|e] eqn:E; [|vm_compute in E; discriminate E].
  destruct H as (_ & _ & _ & H). destruct (H ltac:(discriminate)) as (e & Hr & He). by exists sql, params, e.
Defined.
