(* ===== verification/Constraints.v ===== *)
(** Constraints of validators: [server/src/validation/constraints.ts],
    [validation/bounds.ts], and the numeric comparison they use.

    The engine of regular expressions and the decimal text of a number are
    parameters: [RegExp_valid] says which sources [new RegExp] accepts,
    [RegExp_test] matches a string against the expression of a source, and
    [number_text] is [String] of a number. *)
From Stdlib Require Import Ascii.
From S2P Require Import Prelude Errors Value Wire.
Local Open Scope string_scope.
Local Open Scope list_scope.

(** ** Numbers *)

(** The order of two numbers; [None] with NaN. *)
Definition num_compare (n m : num) : option comparison :=
  match n, m with
  | NNaN, _ | _, NNaN => None
  | NInf b, NInf b' => Some (if eqb b b' then Eq else if b then Lt else Gt)
  | NInf b, _ => Some (if b then Lt else Gt)
  | _, NInf b => Some (if b then Gt else Lt)
  | NFin q, NFin q' => Some (q ?= q')%Qc
  | NFin q, NNegZero => Some (q ?= 0)%Qc
  | NNegZero, NFin q => Some (0 ?= q)%Qc
  | NNegZero, NNegZero => Some Eq
  end.

Definition num_lt (n m : num) : bool := match num_compare n m with Some Lt => true | _ => false end.

(** [n === m] *)
Definition num_eq (n m : num) : bool := match num_compare n m with Some Eq => true | _ => false end.

(** [Number.isSafeInteger] and [Number.isFinite] of any value. *)
Definition isSafeInteger (x : value) : bool :=
  match x with VNum n => bool_decide (is_Some (num_safe_integer n)) | _ => false end.
Definition isFinite (x : value) : bool := match x with VNum n => num_is_finite n | _ => false end.

(** [Object.is(bound, -0) ? 0 : bound] *)
Definition positive_zero (n : num) : num := match n with NNegZero => num_of_Z 0 | _ => n end.

Definition I64_MIN : Z := - 2 ^ 63.
Definition I64_MAX : Z := 2 ^ 63 - 1.

(** The code points of a string. *)
Fixpoint code_points (s : string) : Z :=
  match s with
  | EmptyString => 0
  | String a s => (if decide (128 <= byte_of a < 192) then 0 else 1) + code_points s
  end%Z.

(** [JSON.stringify] of a string. *)
Definition hex_digit (z : Z) : Ascii.ascii := byte_ascii (if decide (z < 10)%Z then 48 + z else 87 + z).

Definition json_char (a : Ascii.ascii) : string :=
  let b := byte_of a in
  let escaped c := String (byte_ascii 92) (String c EmptyString) in
  if decide (b = 34 \/ b = 92)%Z then escaped a
  else if decide (b = 8)%Z then escaped "b"%char
  else if decide (b = 9)%Z then escaped "t"%char
  else if decide (b = 10)%Z then escaped "n"%char
  else if decide (b = 12)%Z then escaped "f"%char
  else if decide (b = 13)%Z then escaped "r"%char
  else if decide (b < 32)%Z then
    escaped "u"%char +:+ of_chars ["0"%char; "0"%char; hex_digit (b / 16); hex_digit (b mod 16)]
  else String a EmptyString.

Fixpoint json_chars (s : string) : string :=
  match s with EmptyString => EmptyString | String a s => json_char a +:+ json_chars s end.

Definition json_string (s : string) : string :=
  let quote := String (byte_ascii 34) EmptyString in quote +:+ json_chars s +:+ quote.

(** ** [constraints.ts] *)

(** The constraint slots of a descriptor, [undefined] when absent. *)
Record ConstraintFields : Type := MkConstraints { min : value; max : value; regex : value }.

Definition no_constraints : ConstraintFields := MkConstraints VUndefined VUndefined VUndefined.

(** Which of the two bounds. *)
Inductive Side : Type := min_side | max_side.
Definition side_name (s : Side) : string := match s with min_side => "min" | max_side => "max" end.
Definition slot (s : Side) (c : ConstraintFields) : value := match s with min_side => min c | max_side => max c end.

Definition invalid {A} (path : string) (message : string) : exc js_error A :=
  Throw (ValidationError (path +:+ ": " +:+ message)).

Definition lengthField (c : ConstraintFields) (side : Side) (path : string) : exc js_error (option num) :=
  match slot side c with
  | VUndefined => Ret None
  | VNum n =>
      match num_safe_integer n with
      | Some z => if decide (z < 0)%Z then invalid path ("invalid " +:+ side_name side +:+ " length constraint descriptor") else Ret (Some n)
      | None => invalid path ("invalid " +:+ side_name side +:+ " length constraint descriptor")
      end
  | _ => invalid path ("invalid " +:+ side_name side +:+ " length constraint descriptor")
  end.

Definition numberField (c : ConstraintFields) (side : Side) (path : string) : exc js_error (option num) :=
  match slot side c with
  | VUndefined => Ret None
  | VNum n =>
      if num_is_finite n then Ret (Some n)
      else invalid path ("invalid " +:+ side_name side +:+ " numeric constraint descriptor")
  | _ => invalid path ("invalid " +:+ side_name side +:+ " numeric constraint descriptor")
  end.

(** The decimals [DECIMAL] matches: no leading zero and no [-0]. *)
Definition all_digits (s : string) : bool := forallb (fun a => bool_decide (is_Some (digit a))) (chars s).

Definition DECIMAL (s : string) : bool :=
  let positive s :=
    match s with
    | String a rest => bool_decide (is_Some (digit a) /\ digit a <> Some 0%Z) && all_digits rest
    | EmptyString => false
    end in
  match s with
  | "0" => true
  | String "-" rest => positive rest
  | _ => positive s
  end.

Definition bigintField (c : ConstraintFields) (side : Side) (path : string) : exc js_error (option Z) :=
  match slot side c with
  | VUndefined => Ret None
  | VStr s =>
      if DECIMAL s then
        bound ← BigInt (VStr s);
        if decide (bound < I64_MIN \/ I64_MAX < bound)%Z then
          invalid path (side_name side +:+ " bigint constraint is outside the signed 64-bit range")
        else Ret (Some bound)
      else invalid path ("invalid " +:+ side_name side +:+ " bigint constraint descriptor")
  | _ => invalid path ("invalid " +:+ side_name side +:+ " bigint constraint descriptor")
  end.

Record Bounds (B : Type) : Type := MkBounds { low : option B; high : option B }.
Arguments MkBounds {B} low high.
Arguments low {B} _.
Arguments high {B} _.

(** The cache of parsed bounds is left out: a descriptor does not change. *)
Definition parsedBigintBounds (c : ConstraintFields) (path : string) : exc js_error (Bounds Z) :=
  low ← bigintField c min_side path;
  high ← bigintField c max_side path;
  Ret (MkBounds low high).

Section constraints.
Context (RegExp_valid : string -> bool) (RegExp_test : string -> string -> bool) (number_text : num -> string).

(** An expression is its source. *)
Definition descriptorRegex (c : ConstraintFields) (path : string) : exc js_error (option string) :=
  match regex c with
  | VUndefined => Ret None
  | VStr source =>
      if RegExp_valid source then Ret (Some source) else invalid path "invalid regex constraint descriptor"
  | _ => invalid path "invalid regex constraint descriptor"
  end.

Definition below (n : num) (bound : option num) : bool := match bound with Some b => num_lt n b | None => false end.
Definition above (n : num) (bound : option num) : bool := match bound with Some b => num_lt b n | None => false end.
Definition text (bound : option num) : string := match bound with Some b => number_text b | None => EmptyString end.

Definition checkStringConstraints (c : ConstraintFields) (x : string) (path : string) (compiledRegex : option string)
    : exc js_error unit :=
  low ← lengthField c min_side path;
  high ← lengthField c max_side path;
  let length := num_of_Z (code_points x) in
  _ ← throw_if (below length low)
        (ValidationError (path +:+ ": expected at least " +:+ text low +:+ " Unicode code points, got " +:+ number_text length));
  _ ← throw_if (above length high)
        (ValidationError (path +:+ ": expected at most " +:+ text high +:+ " Unicode code points, got " +:+ number_text length));
  pattern ← match compiledRegex with Some source => Ret (Some source) | None => descriptorRegex c path end;
  match pattern with
  | Some source =>
      throw_if (negb (RegExp_test source x))
        (ValidationError (path +:+ ": string does not match pattern /" +:+ source +:+ "/"))
  | None => Ret tt
  end.

Definition checkNumberConstraints (c : ConstraintFields) (x : num) (path : string) : exc js_error unit :=
  low ← numberField c min_side path;
  high ← numberField c max_side path;
  _ ← throw_if (below x low)
        (ValidationError (path +:+ ": expected a number greater than or equal to " +:+ text low));
  throw_if (above x high) (ValidationError (path +:+ ": expected a number less than or equal to " +:+ text high)).

Definition checkBigintConstraints (c : ConstraintFields) (x : Z) (path : string) (parsed : option (Bounds Z))
    : exc js_error unit :=
  bounds ← match parsed with Some bounds => Ret bounds | None => parsedBigintBounds c path end;
  _ ← match low bounds with
      | Some b => throw_if (bool_decide (x < b)%Z)
          (ValidationError (path +:+ ": expected a bigint greater than or equal to " +:+ Z_decimal b))
      | None => Ret tt
      end;
  match high bounds with
  | Some b => throw_if (bool_decide (b < x)%Z)
      (ValidationError (path +:+ ": expected a bigint less than or equal to " +:+ Z_decimal b))
  | None => Ret tt
  end.

Definition itemCount (count : num) : string :=
  number_text count +:+ (if num_eq count (num_of_Z 1) then " item" else " items").

Definition checkArrayConstraints (c : ConstraintFields) (length : nat) (path : string) : exc js_error unit :=
  low ← lengthField c min_side path;
  high ← lengthField c max_side path;
  let count := num_of_Z (Z.of_nat length) in
  _ ← throw_if (below count low)
        (ValidationError (path +:+ ": expected at least " +:+ match low with Some b => itemCount b | None => EmptyString end +:+ ", got " +:+ itemCount count));
  throw_if (above count high)
    (ValidationError (path +:+ ": expected at most " +:+ match high with Some b => itemCount b | None => EmptyString end +:+ ", got " +:+ itemCount count)).

(** The kinds that carry constraints. *)
Inductive ConstrainedKind : Type := string_kind | int_kind | float_kind | bigint_kind | array_kind.

Definition kind_name (k : ConstrainedKind) : string :=
  match k with string_kind => "string" | int_kind => "int" | float_kind => "float" | bigint_kind => "bigint" | array_kind => "array" end.

(** [min !== undefined && max !== undefined && min > max] *)
Definition crossed_num (b : Bounds num) : bool :=
  match low b, high b with Some l, Some h => num_lt h l | _, _ => false end.
Definition crossed_Z (b : Bounds Z) : bool :=
  match low b, high b with Some l, Some h => bool_decide (h < l)%Z | _, _ => false end.

Definition validateConstraintDescriptor (kind : ConstrainedKind) (c : ConstraintFields) (path : string)
    : exc js_error unit :=
  crossed ← match kind with
    | string_kind | array_kind =>
        low ← lengthField c min_side path;
        high ← lengthField c max_side path;
        _ ← match kind with string_kind => descriptorRegex c path | _ => Ret None end;
        Ret (crossed_num (MkBounds low high))
    | bigint_kind => bounds ← parsedBigintBounds c path; Ret (crossed_Z bounds)
    | int_kind | float_kind =>
        low ← numberField c min_side path;
        high ← numberField c max_side path;
        Ret (crossed_num (MkBounds low high))
    end;
  throw_if crossed (ValidationError (path +:+ ": min constraint must be less than or equal to max")).
End constraints.

(** ** [bounds.ts] *)

Section bounds.
Context (number_text : num -> string).

Definition lengthBound (bound : value) (method : Side) (kind : ConstrainedKind) : exc js_error num :=
  match bound with
  | VNum n =>
      match num_safe_integer n with
      | Some z =>
          if decide (z < 0)%Z then
            Throw (ValidationError ("v." +:+ kind_name kind +:+ "()." +:+ side_name method +:+ "(): bound must be a non-negative safe integer"))
          else Ret (positive_zero n)
      | None => Throw (ValidationError ("v." +:+ kind_name kind +:+ "()." +:+ side_name method +:+ "(): bound must be a non-negative safe integer"))
      end
  | _ => Throw (ValidationError ("v." +:+ kind_name kind +:+ "()." +:+ side_name method +:+ "(): bound must be a non-negative safe integer"))
  end.

Definition finiteBound (bound : value) (method : Side) (kind : ConstrainedKind) : exc js_error num :=
  match bound with
  | VNum n =>
      if num_is_finite n then Ret (positive_zero n)
      else Throw (ValidationError ("v." +:+ kind_name kind +:+ "()." +:+ side_name method +:+ "(): bound must be a finite number"))
  | _ => Throw (ValidationError ("v." +:+ kind_name kind +:+ "()." +:+ side_name method +:+ "(): bound must be a finite number"))
  end.

Definition bigintBound (bound : value) (method : Side) : exc js_error Z :=
  match bound with
  | VBig z =>
      if decide (I64_MIN <= z <= I64_MAX)%Z then Ret z
      else Throw (ValidationError ("v.bigint()." +:+ side_name method +:+ "(): bound must be a bigint within the signed 64-bit range"))
  | _ => Throw (ValidationError ("v.bigint()." +:+ side_name method +:+ "(): bound must be a bigint within the signed 64-bit range"))
  end.

(** [bounds] with one more bound; [crossed] compares two of them. *)
Definition nextBounds {B} (crossed : Bounds B -> bool) (show : B -> string) (kind : ConstrainedKind)
    (bounds : Bounds B) (method : Side) (bound : B) : exc js_error (Bounds B) :=
  _ ← throw_if (bool_decide (is_Some (match method with min_side => low bounds | max_side => high bounds end)))
        (ValidationError ("v." +:+ kind_name kind +:+ "(): duplicate " +:+ side_name method +:+ " constraint"));
  let next := match method with
    | min_side => MkBounds (Some bound) (high bounds)
    | max_side => MkBounds (low bounds) (Some bound)
    end in
  _ ← throw_if (crossed next)
        (ValidationError ("v." +:+ kind_name kind +:+ "(): min (" +:+ match low next with Some b => show b | None => "undefined" end +:+
          ") must be less than or equal to max (" +:+ match high next with Some b => show b | None => "undefined" end +:+ ")"));
  Ret next.

Definition numberBounds (c : ConstraintFields) : Bounds num :=
  let bound x := match x with VNum n => Some n | _ => None end in MkBounds (bound (min c)) (bound (max c)).

Definition bigintBounds (c : ConstraintFields) : exc js_error (Bounds Z) :=
  let bound x := match x with VUndefined => Ret None | _ => z ← BigInt x; Ret (Some z) end in
  low ← bound (min c); high ← bound (max c); Ret (MkBounds low high).
End bounds.
