(* ===== verification/Float32.v ===== *)
(** [Math.fround]: rounding to the nearest binary32 value, ties to even. *)
From Stdlib Require Import Qpower Qround Qabs.
From S2P Require Import Prelude.
Local Open Scope Q_scope.

Definition pow2 (e : Z) : Q := Qpower 2 e.

(** The exponent of a positive rational: [2^e <= q < 2^(e+1)]. *)
Definition ilog2 (q : Q) : Z :=
  let e := (Z.log2 (Qnum q) - Z.log2 (Zpos (Qden q)))%Z in
  if Qle_bool (pow2 e) q then e else (e - 1)%Z.

Definition round_half_even (q : Q) : Z :=
  let f := Qfloor q in
  match Qcompare (Qminus q (inject_Z f)) (1 # 2) with
  | Lt => f
  | Gt => (f + 1)%Z
  | Eq => if Z.even f then f else (f + 1)%Z
  end.

(** The unit in the last place of a binary32 value of that magnitude. *)
Definition ulp (q : Q) : Z := Z.max (ilog2 (Qabs q) - 23) (-149).

(** The significand a rational rounds to. *)
Definition significand (q : Q) : Z := round_half_even (q / pow2 (ulp q)).

Definition fround (n : num) : num :=
  match n with
  | NFin q =>
      if decide (q = 0%Qc) then n
      else
        let m := significand q in
        let r := inject_Z m * pow2 (ulp q) in
        if decide (m = 0%Z) then (if Qlt_le_dec q 0 then NNegZero else NFin 0)
        else if Qlt_le_dec (Qabs r) (pow2 128) then NFin (Q2Qc r)
        else NInf (bool_decide (m < 0)%Z)
  | _ => n
  end.

(** ** Powers of two *)

Lemma pow2_pos e : 0 < pow2 e.
Proof. apply Qpower_0_lt. reflexivity. Qed.

Lemma pow2_nonzero e : ~ pow2 e == 0.
Proof. intros H. pose proof (pow2_pos e) as Hp. rewrite H in Hp. by apply Qlt_irrefl in Hp. Qed.

Lemma pow2_add a b : pow2 (a + b) == pow2 a * pow2 b.
Proof. apply Qpower_plus. discriminate. Qed.

Lemma pow2_le a b : (a <= b)%Z -> pow2 a <= pow2 b.
Proof. intros. by apply Qpower_le_compat_l. Qed.

Lemma pow2_Z a : (0 <= a)%Z -> pow2 a == inject_Z (2 ^ a).
Proof. intros. unfold pow2. apply Qeq_sym. by apply (Zpower_Qpower 2). Qed.

(** ** The exponent *)

Lemma Q_num_den q : q == inject_Z (Qnum q) * / inject_Z (Zpos (Qden q)).
Proof. destruct q as [n d]. unfold Qeq. cbn. lia. Qed.

Lemma ilog2_spec q : 0 < q -> pow2 (ilog2 q) <= q /\ q < pow2 (ilog2 q + 1).
Proof.
  intros Hq. destruct q as [n d]. assert (Hn : (0 < n)%Z) by (unfold Qlt in Hq; cbn in Hq; lia).
  pose proof (Z.log2_spec n Hn) as [Hn1 Hn2]. pose proof (Z.log2_spec (Zpos d) ltac:(lia)) as [Hd1 Hd2].
  pose proof (Z.log2_nonneg n). pose proof (Z.log2_nonneg (Zpos d)).
  rewrite Zle_Qle, <-pow2_Z in Hn1, Hd1 by lia. rewrite Zlt_Qlt, <-pow2_Z in Hn2, Hd2 by lia.
  assert (E : (n # d) * inject_Z (Zpos d) == inject_Z n) by (unfold Qeq; cbn; lia).
  assert (Hd0 : 0 < inject_Z (Zpos d)) by (unfold Qlt; cbn; lia).
  set (a := Z.log2 n) in *. set (b := Z.log2 (Zpos d)) in *.
  assert (Hlow : pow2 (a - b - 1) <= n # d).
  { apply (Qmult_le_r _ _ (inject_Z (Zpos d))); [done|]. rewrite E.
    apply Qle_trans with (pow2 a); [|done].
    apply Qle_trans with (pow2 (a - b - 1) * pow2 (b + 1)).
    - rewrite (Qmult_comm (pow2 (a - b - 1))), (Qmult_comm (pow2 (a - b - 1))).
      apply Qmult_le_compat_r; [by apply Qlt_le_weak|apply Qlt_le_weak, pow2_pos].
    - rewrite <-pow2_add. by replace (a - b - 1 + (b + 1))%Z with a by lia; apply Qle_refl. }
  assert (Hhigh : n # d < pow2 (a - b + 1)).
  { apply (Qmult_lt_r _ _ (inject_Z (Zpos d))); [done|]. rewrite E.
    apply Qlt_le_trans with (pow2 (a + 1)); [done|].
    apply Qle_trans with (pow2 (a - b + 1) * pow2 b).
    - rewrite <-pow2_add. replace (a - b + 1 + b)%Z with (a + 1)%Z by lia. apply Qle_refl.
    - rewrite !(Qmult_comm (pow2 (a - b + 1))).
      apply Qmult_le_compat_r; [done|apply Qlt_le_weak, pow2_pos]. }
  unfold ilog2. cbn [Qnum Qden]. fold a b. destruct (Qle_bool (pow2 (a - b)) (n # d)) eqn:Eb.
  - apply Qle_bool_iff in Eb. done.
  - split; [done|]. replace (a - b - 1 + 1)%Z with (a - b)%Z by lia. apply Qnot_le_lt.
    intros H'. apply Qle_bool_iff in H'. congruence.
Qed.

Lemma ilog2_unique q e : 0 < q -> pow2 e <= q -> q < pow2 (e + 1) -> ilog2 q = e.
Proof.
  intros Hq H1 H2. destruct (ilog2_spec q Hq) as [H3 H4].
  assert (e < ilog2 q + 1)%Z.
  { apply (Qpower_lt_compat_l_inv 2); [|reflexivity]. by apply Qle_lt_trans with q. }
  assert (ilog2 q < e + 1)%Z.
  { apply (Qpower_lt_compat_l_inv 2); [|reflexivity]. by apply Qle_lt_trans with q. }
  lia.
Qed.

(** ** Rounding *)

#[export] Instance round_half_even_proper : Proper (Qeq ==> eq) round_half_even.
Proof.
  intros q q' E. unfold round_half_even. rewrite (Qfloor_comp _ _ E).
  assert (E' : q - inject_Z (Qfloor q') == q' - inject_Z (Qfloor q')) by (rewrite E; apply Qeq_refl).
  by rewrite (Qcompare_comp _ _ E' _ _ (Qeq_refl _)).
Qed.

Lemma round_half_even_Z z : round_half_even (inject_Z z) = z.
Proof.
  unfold round_half_even. rewrite Qfloor_Z.
  assert (E : inject_Z z - inject_Z z == 0) by apply Qplus_opp_r.
  by rewrite (Qcompare_comp _ _ E _ _ (Qeq_refl _)).
Qed.

Lemma round_half_even_bound q b : Qabs q <= inject_Z b -> (Z.abs (round_half_even q) <= b)%Z.
Proof.
  intros Hq. apply Qabs_Qle_condition in Hq as [H1 H2].
  pose proof (Qfloor_le q) as Hf. pose proof (Qlt_floor q) as Hf'.
  assert (Qfloor q <= b)%Z by (rewrite Zle_Qle; by apply Qle_trans with q).
  assert (- b <= Qfloor q)%Z.
  { rewrite <-inject_Z_opp in H1. apply Qfloor_resp_le in H1. by rewrite Qfloor_Z in H1. }
  assert (Hup : Qcompare (q - inject_Z (Qfloor q)) (1 # 2) <> Lt -> (Qfloor q + 1 <= b)%Z).
  { intros Hc. assert (Qfloor q < b)%Z; [|lia]. rewrite Zlt_Qlt. apply Qlt_le_trans with q; [|done].
    apply Qlt_minus_iff. apply Qlt_le_trans with (1 # 2); [reflexivity|].
    apply Qnot_lt_le. intros Hlt. by apply Hc, Qlt_alt. }
  unfold round_half_even. destruct (Qcompare _ _); [|lia|]; specialize (Hup ltac:(discriminate)); [case_match|]; lia.
Qed.

(** ** Rounding a binary32 value *)

Lemma Qabs_pow2 z u : Qabs (inject_Z z * pow2 u) == inject_Z (Z.abs z) * pow2 u.
Proof.
  rewrite Qabs_Qmult, (Qabs_pos (pow2 u)) by apply Qlt_le_weak, pow2_pos. apply Qeq_refl.
Qed.

Lemma scaled_pos z u : (0 < z)%Z -> 0 < inject_Z z * pow2 u.
Proof. intros. apply Qmult_lt_0_compat; [unfold Qlt; cbn; lia|apply pow2_pos]. Qed.

Lemma ilog2_scaled z u : (0 < z)%Z -> ilog2 (inject_Z z * pow2 u) = (Z.log2 z + u)%Z.
Proof.
  intros Hz. pose proof (Z.log2_spec z Hz) as [H1 H2]. pose proof (Z.log2_nonneg z).
  rewrite Zle_Qle, <-pow2_Z in H1 by lia. rewrite Zlt_Qlt, <-pow2_Z in H2 by lia.
  apply ilog2_unique; [by apply scaled_pos|..].
  - rewrite pow2_add. by apply Qmult_le_compat_r; [|apply Qlt_le_weak, pow2_pos].
  - replace (Z.log2 z + u + 1)%Z with (Z.succ (Z.log2 z) + u)%Z by lia. rewrite pow2_add.
    apply Qmult_lt_r; [apply pow2_pos|done].
Qed.

Lemma ilog2_eq q q' : 0 < q -> q == q' -> ilog2 q = ilog2 q'.
Proof.
  intros Hq E. destruct (ilog2_spec q Hq) as [H1 H2]. generalize dependent (ilog2 q). intros e H1 H2.
  symmetry. apply ilog2_unique; by rewrite <-E.
Qed.

Lemma significand_bound q : ~ q == 0 -> (Z.abs (significand q) <= 2 ^ 24)%Z.
Proof.
  intros Hq. assert (Hp : 0 < Qabs q) by (apply Qnot_le_lt; intros [H1 H2]%Qabs_Qle_condition; apply Hq; by apply Qle_antisym).
  apply round_half_even_bound. rewrite <-pow2_Z by lia.
  unfold Qdiv. rewrite Qabs_Qmult, (Qabs_pos (/ _)) by apply Qlt_le_weak, Qinv_lt_0_compat, pow2_pos.
  apply Qle_shift_div_r; [apply pow2_pos|]. rewrite <-pow2_add.
  destruct (ilog2_spec _ Hp) as [_ H2]. apply Qlt_le_weak. eapply Qlt_le_trans; [exact H2|].
  apply pow2_le. unfold ulp. lia.
Qed.

Lemma significand_exact q m u :
  m <> 0%Z -> (Z.abs m <= 2 ^ 24)%Z -> (-149 <= u)%Z -> q == inject_Z m * pow2 u ->
  inject_Z (significand q) * pow2 (ulp q) == q.
Proof.
  intros Hm Hb Hu Eq.
  assert (Hq : Qabs q == inject_Z (Z.abs m) * pow2 u) by (rewrite Eq; apply Qabs_pow2).
  assert (Hl : ulp q = Z.max (Z.log2 (Z.abs m) + u - 23) (-149)).
  { unfold ulp. rewrite <-ilog2_scaled by lia. do 2 f_equal. apply ilog2_eq; [|done].
    rewrite Hq. apply scaled_pos. lia. }
  assert (Hex : exists z, q / pow2 (ulp q) == inject_Z z).
  { clear Hq. generalize dependent (ulp q). intros l Hl.
    assert (Hz : forall z, q == inject_Z z * pow2 l -> q / pow2 l == inject_Z z).
    { intros z Hz. rewrite Hz. apply Qdiv_mult_l, pow2_nonzero. }
    destruct (decide (l <= u)%Z) as [Hle|Hgt].
    - exists (m * 2 ^ (u - l))%Z. apply Hz. rewrite Eq, inject_Z_mult, <-pow2_Z by lia.
      rewrite <-Qmult_assoc, <-pow2_add. replace (u - l + l)%Z with u by lia. apply Qeq_refl.
    - assert (H24 : Z.log2 (Z.abs m) = 24%Z).
      { apply Z.log2_le_mono in Hb. rewrite Z.log2_pow2 in Hb by lia. lia. }
      pose proof (Z.log2_spec (Z.abs m) ltac:(lia)) as [Hpow _]. rewrite H24 in *.
      assert (Hm2 : m = (Z.sgn m * 2 ^ 23 * 2)%Z) by lia.
      exists (Z.sgn m * 2 ^ 23)%Z. apply Hz. replace l with (1 + u)%Z by lia.
      rewrite Eq, pow2_add. rewrite Hm2 at 1. rewrite (inject_Z_mult _ 2).
      rewrite <-Qmult_assoc. apply Qeq_refl. }
  destruct Hex as [z Hz]. unfold significand. rewrite Hz, round_half_even_Z, <-Hz.
  rewrite Qmult_comm. apply Qmult_div_r, pow2_nonzero.
Qed.

(** Rounding again changes nothing. *)
Lemma fround_idem n : num_is_finite (fround n) = true -> fround (fround n) = fround n.
Proof.
  destruct n as [q| | |]; try done. unfold fround at 1 3 4.
  destruct (decide (q = 0%Qc)) as [->|Hq]; [done|].
  destruct (decide (significand q = 0%Z)) as [|Hm]; [by destruct (Qlt_le_dec q 0)|].
  destruct (Qlt_le_dec _ (pow2 128)) as [Hb|]; [|done]. intros _.
  set (r := inject_Z (significand q) * pow2 (ulp q)) in *.
  assert (Hq0 : ~ this q == 0) by (intros H; apply Hq; by apply Qc_is_canon).
  assert (Hr : this (Q2Qc r) == r) by apply Qred_correct.
  assert (Hr0 : ~ r == 0).
  { intros H. apply Qmult_integral in H as [H|H]; [|by apply pow2_nonzero in H].
    unfold Qeq in H. cbn in H. lia. }
  assert (Hx : inject_Z (significand (Q2Qc r)) * pow2 (ulp (Q2Qc r)) == this (Q2Qc r)).
  { apply (significand_exact _ (significand q) (ulp q)); [done|by apply significand_bound|unfold ulp; lia|exact Hr]. }
  unfold fround. rewrite decide_False.
  2:{ intros E. apply Hr0. rewrite <-Hr, E. reflexivity. }
  rewrite decide_False.
  2:{ intros E. apply Hr0. rewrite E in Hx. apply Qeq_trans with (this (Q2Qc r)); [by apply Qeq_sym|].
      apply Qeq_sym. eapply Qeq_trans; [|exact Hx]. by apply Qeq_sym, Qmult_0_l. }
  destruct (Qlt_le_dec _ (pow2 128)) as [|Hb'].
  - f_equal. apply Qc_is_canon. eapply Qeq_trans; [apply Qred_correct|exact Hx].
  - exfalso. apply (Qlt_not_le _ _ Hb). eapply Qle_trans; [exact Hb'|]. rewrite Hx, Hr. apply Qle_refl.
Qed.

Example fround_tenth : exists q, fround (NFin (Q2Qc (1 # 10))) = NFin q /\ this q = 13421773 # 134217728.
Proof. eexists. split; [by vm_compute|done]. Qed.
