(* ===== verification/Validators.v ===== *)
(** The [v] validators: [server/src/validation/validator.ts],
    [validation/primitives.ts], [validation/composites.ts], the value boundary
    of [validation/vector.ts], and the descriptors they write.

    A validator is the object its constructor returned, held as the data its
    closures captured; descriptions and the standard-schema facet, which no
    check reads, are left out. Objects are read through their own properties. *)
From S2P Require Import Prelude Errors Value Wire Constraints Float32.
Local Open Scope string_scope.
Local Open Scope list_scope.

(** ** Data *)

Record StringConstraints : Type := MkStringConstraints { bounds : Bounds num; pattern : option string }.

Inductive Modifier : Type := nullable | optional | nullish.
Definition modifier_name (k : Modifier) : string :=
  match k with nullable => "nullable" | optional => "optional" | nullish => "nullish" end.

Inductive Validator : Type :=
  | PrimaryKey
  | String_ (constraints : option StringConstraints)
  | Int (constraints : option (Bounds num))
  | Float (constraints : option (Bounds num))
  | Bigint (constraints : option (Bounds Z))
  | Identity
  | File
  | FileGrant
  | Boolean
  | Bytes
  | Vector (dimensions : Z)
  | ScheduleAt
  | Array (element : Validator) (constraints : option (Bounds num))
  | Object (shape : list (string * Validator))
  | Enum (name : string) (variants : list string)
  | Literal (v : value)
  | Tag
  | Union (name : string) (members : list (string * Validator))
  | Jsonb
  | Modified (k : Modifier) (inner : Validator).

(** What a descriptor, narrowed by the validation of stored descriptors, is. *)
Inductive Descriptor : Type :=
  | DPk
  | DString (c : ConstraintFields)
  | DInt (c : ConstraintFields)
  | DFloat (c : ConstraintFields)
  | DScheduleAt
  | DBigint (c : ConstraintFields)
  | DIdentity
  | DFile
  | DFileGrant
  | DBoolean
  | DBytes
  | DVector (dimensions : Z)
  | DEnum (name : string) (variants : list string)
  | DLiteral (v : value)
  | DTag
  | DArray (el : Descriptor) (c : ConstraintFields)
  | DObject (shape : list (string * Descriptor))
  | DUnion (name : string) (members : list (string * Descriptor))
  | DJsonb
  | DModified (k : Modifier) (inner : Descriptor)
  | DUnknown (k : string).

(** [validator.kind], as far as the code compares it. *)
Definition omissible (v : Validator) : bool :=
  match v with Modified optional _ | Modified nullish _ => true | _ => false end.
Definition is_tag (v : Validator) : bool := match v with Tag => true | _ => false end.

Definition baseValidator (v : Validator) : Validator :=
  match v with Modified nullable inner => inner | _ => v end.

(** ** Values *)

Definition typeof (x : value) : string :=
  match x with
  | VUndefined => "undefined" | VNull => "object" | VBool _ => "boolean" | VNum _ => "number"
  | VStr _ => "string" | VBig _ => "bigint" | VBytes _ | VArr _ | VObj _ => "object" | VOther t => t
  end.

Definition describe (x : value) : string :=
  match x with VNull => "null" | VArr _ => "array" | VBytes _ => "bytes" | _ => typeof x end.

Definition fail {A} (path expected : string) (x : value) : exc js_error A :=
  Throw (ValidationError (path +:+ ": expected " +:+ expected +:+ ", got " +:+ describe x)).

(** [===] on primitive values. *)
Definition strict_equal (x y : value) : bool :=
  match x, y with
  | VNum n, VNum m => num_eq n m
  | VStr s, VStr s' => bool_decide (s = s')
  | VBig z, VBig z' => bool_decide (z = z')
  | VBool b, VBool b' => bool_decide (b = b')
  | VNull, VNull | VUndefined, VUndefined => true
  | _, _ => false
  end.

Definition item_path (path : string) (i : nat) : string := path +:+ "[" +:+ decimal i +:+ "]".
Definition alternatives (l : list string) : string :=
  match l with
  | [] => EmptyString
  | x :: l => json_string x +:+ foldr (fun y s => " | " +:+ json_string y +:+ s) EmptyString l
  end.

(** ** [vector.ts] *)

Definition vectorDimensions (x : value) (path : string) : exc js_error Z :=
  match x with
  | VNum n =>
      match num_safe_integer n with
      | Some z => if decide (0 < z)%Z then Ret z else invalid path "dimensions must be a positive safe integer"
      | None => invalid path "dimensions must be a positive safe integer"
      end
  | _ => invalid path "dimensions must be a positive safe integer"
  end.

Fixpoint normalize_coordinates (items : list value) (index : nat) (path : string) : exc js_error (list value) :=
  match items with
  | [] => Ret []
  | coordinate :: items =>
      rounded ← match coordinate with
        | VNum n => if num_is_finite n then Ret (fround n) else invalid (item_path path index) "expected a finite number"
        | _ => invalid (item_path path index) "expected a finite number"
        end;
      _ ← throw_if (negb (num_is_finite rounded)) (ValidationError (item_path path index +:+ ": value overflows Float32"));
      rest ← normalize_coordinates items (S index) path;
      Ret (VNum (positive_zero rounded) :: rest)
  end.

Definition normalizeVector (x : value) (dimensions : Z) (path : string) : exc js_error value :=
  match x with
  | VArr items =>
      if decide (Z.of_nat (length items) = dimensions) then
        normalized ← normalize_coordinates items 0 path; Ret (VArr normalized)
      else Throw (ValidationError (path +:+ ": expected a " +:+ Z_decimal dimensions +:+ "-dimensional vector, got " +:+
             decimal (length items) +:+ " dimensions"))
  | _ =>
      Throw (ValidationError (path +:+ ": expected a " +:+ Z_decimal dimensions +:+ "-dimensional vector, got " +:+
        match x with VNull => "null" | _ => typeof x end))
  end.

(** ** Constraint fields *)

Definition bound_value (b : option num) : value := match b with Some n => VNum n | None => VUndefined end.
Definition bigint_value (b : option Z) : value := match b with Some z => VStr (Z_decimal z) | None => VUndefined end.

Definition string_fields (c : option StringConstraints) : ConstraintFields :=
  match c with
  | None => no_constraints
  | Some c => MkConstraints (bound_value (low (bounds c))) (bound_value (high (bounds c)))
                (match pattern c with Some s => VStr s | None => VUndefined end)
  end.
Definition number_fields (c : option (Bounds num)) : ConstraintFields :=
  match c with
  | None => no_constraints
  | Some c => MkConstraints (bound_value (low c)) (bound_value (high c)) VUndefined
  end.
Definition bigint_fields (c : option (Bounds Z)) : ConstraintFields :=
  match c with
  | None => no_constraints
  | Some c => MkConstraints (bigint_value (low c)) (bigint_value (high c)) VUndefined
  end.

(** ** Checks *)

Section check.
Context (RegExp_valid : string -> bool) (RegExp_test : string -> string -> bool) (number_text : num -> string).

Definition checkI64 (x : value) (path expected : string) : exc js_error Z :=
  match x with
  | VBig z =>
      if decide (z < I64_MIN \/ I64_MAX < z)%Z then invalid path "bigint out of 64-bit range" else Ret z
  | _ => fail path expected x
  end.

Definition checkString (x : value) (path : string) : exc js_error string :=
  match x with VStr s => Ret s | _ => fail path "string" x end.
Definition checkInt (x : value) (path : string) : exc js_error num :=
  match x with
  | VNum n => if isSafeInteger x then Ret n else fail path "safe integer" x
  | _ => fail path "safe integer" x
  end.
Definition checkFloat (x : value) (path : string) : exc js_error num :=
  match x with
  | VNum n => if isFinite x then Ret n else fail path "finite number" x
  | _ => fail path "finite number" x
  end.

(** The optional constraint check of a constructor. *)
Definition when {A} (c : option A) (m : A -> exc js_error unit) : exc js_error unit :=
  match c with Some c => m c | None => Ret tt end.

Definition literalTs (v : value) : string :=
  match v with
  | VBig z => Z_decimal z +:+ "n"
  | VStr s => json_string s
  | VBool b => if b then "true" else "false"
  | VNum n => number_text n
  | _ => EmptyString
  end.

(** [Object.hasOwn(fields, key)], for fields or members. *)
Definition own {A} (fields : list (string * A)) (key : string) : bool := bool_decide (key ∈ fields.*1).

Definition unknown_field (path key suffix : string) : js_error :=
  ValidationError (path +:+ ": unknown field " +:+ String (byte_ascii 34) key +:+ String (byte_ascii 34) suffix).

(** *** Primitives *)

Definition primaryKey_check (x : value) (path : string) : exc js_error value :=
  match x with VBig _ => Ret x | _ => fail path "bigint (primary key)" x end.

Definition string_check (c : option StringConstraints) (x : value) (path : string) : exc js_error value :=
  checked ← checkString x path;
  _ ← when c (fun k => checkStringConstraints RegExp_valid RegExp_test number_text (string_fields c) checked path (pattern k));
  Ret (VStr checked).

Definition boundedNumber_check (baseCheck : value -> string -> exc js_error num) (c : option (Bounds num)) (x : value) (path : string)
    : exc js_error value :=
  checked ← baseCheck x path;
  _ ← when c (fun _ => checkNumberConstraints number_text (number_fields c) checked path);
  Ret (VNum checked).

Definition bigint_check (c : option (Bounds Z)) (x : value) (path : string) : exc js_error value :=
  checked ← checkI64 x path "bigint";
  _ ← when c (fun k => checkBigintConstraints (bigint_fields c) checked path (Some k));
  Ret (VBig checked).

Definition identity_check (x : value) (path : string) : exc js_error value :=
  z ← checkI64 x path "Identity (bigint)"; Ret (VBig z).
Definition file_check (x : value) (path : string) : exc js_error value :=
  z ← checkI64 x path "FileId (bigint)"; Ret (VBig z).
Definition fileGrant_check (x : value) (path : string) : exc js_error value :=
  z ← checkI64 x path "FileGrantId (bigint)"; Ret (VBig z).
Definition boolean_check (x : value) (path : string) : exc js_error value :=
  match x with VBool _ => Ret x | _ => fail path "boolean" x end.
Definition bytes_check (x : value) (path : string) : exc js_error value :=
  match x with VBytes _ => Ret x | _ => fail path "Uint8Array" x end.
Definition scheduleAt_check (x : value) (path : string) : exc js_error value :=
  if isFinite x then Ret x else fail path "timestamp (finite number)" x.

(** *** Composites: the checks of the parts are functions *)

Definition Check : Type := value -> string -> exc js_error value.

(** [value.map((item, i) => element.check(item, `${path}\[${i}\]`))] *)
Definition map_items (element : Check) (path : string) : list value -> nat -> exc js_error (list value) :=
  fix go items i :=
    match items with
    | [] => Ret []
    | item :: items => y ← element item (item_path path i); ys ← go items (S i); Ret (y :: ys)
    end.

Definition array_check (element : Check) (c : option (Bounds num)) (x : value) (path : string) : exc js_error value :=
  match x with
  | VArr items =>
      _ ← when c (fun _ => checkArrayConstraints number_text (number_fields c) (length items) path);
      out ← map_items element path items 0;
      Ret (VArr out)
  | _ => fail path "array" x
  end.

(** A field of a shape, or a member of a union. *)
Record CompiledShapeField : Type := MkField { key : string; field_check : Check; field_omissible : bool }.

Fixpoint shape_fields (input : list (string * value)) (path : string) (fields : list CompiledShapeField)
    (out : list (string * value)) : exc js_error (list (string * value)) :=
  match fields with
  | [] => Ret out
  | f :: fields =>
      if negb (own input (key f)) && field_omissible f then shape_fields input path fields out
      else
        y ← field_check f (field (key f) input) (path +:+ "." +:+ key f);
        shape_fields input path fields (obj_set out (key f) y)
  end.

Definition compileShape (fields : list CompiledShapeField) (x : value) (path : string) : exc js_error value :=
  match x with
  | VObj input =>
      _ ← exc_each (fun p => throw_if (negb (bool_decide (p.1 ∈ key <$> fields)) && negb (is_undefined p.2))
            (unknown_field path p.1 EmptyString)) input;
      out ← shape_fields input path fields [];
      Ret (VObj out)
  | _ => fail path "object" x
  end.

Definition enum_check (name : string) (variants : list string) (x : value) (path : string) : exc js_error value :=
  let rejected got := Throw (ValidationError (path +:+ ": expected one of " +:+ alternatives variants +:+ " (" +:+ name +:+ "), got " +:+ got)) in
  match x with
  | VStr s => if decide (s ∈ variants) then Ret x else rejected (json_string s)
  | _ => rejected (describe x)
  end.

Definition literal_check (lit x : value) (path : string) : exc js_error value :=
  if strict_equal x lit then Ret lit else fail path (literalTs lit) x.

Definition tag_check (x : value) (path : string) : exc js_error value :=
  match x with VNull | VUndefined => Ret VNull | _ => fail path "null (payload-less variant)" x end.

(** [members\[variant\]!] *)
Fixpoint member_named (members : list CompiledShapeField) (variant : string) : option CompiledShapeField :=
  match members with
  | [] => None
  | m :: members => if decide (key m = variant) then Some m else member_named members variant
  end.

Definition union_check (name : string) (members : list CompiledShapeField) (x : value) (path : string) : exc js_error value :=
  match x with
  | VObj _ | VBytes _ =>
      let input := default [] (own_fields x) in
      let variant := field "tag" input in
      let unknown_variant got := Throw (ValidationError (path +:+ ".tag: expected one of " +:+ alternatives (key <$> members) +:+ ", got " +:+ got)) in
      match variant with
      | VStr tag =>
          match member_named members tag with
          | None => unknown_variant (json_string tag)
          | Some member =>
              _ ← exc_each (fun p => throw_if (negb (bool_decide (p.1 = "tag")) && negb (bool_decide (p.1 = "value")) && negb (is_undefined p.2))
                    (unknown_field path p.1 " on union value")) input;
              if negb (own input "value") && field_omissible member then Ret (VObj [("tag", VStr tag)])
              else payload ← field_check member (field "value" input) (path +:+ ".value");
                   Ret (VObj [("tag", VStr tag); ("value", payload)])
          end
      | _ => unknown_variant (describe variant)
      end
  | _ => fail path (name +:+ " ({ tag, value })") x
  end.

Definition jsonb_check (x : value) (path : string) : exc js_error value :=
  match x with
  | VUndefined => fail path "JSON value" x
  | _ =>
      match toWire x with
      | Ret _ => Ret x
      | Throw (WireError message) => invalid path ("not wire-encodable: " +:+ message)
      | Throw e => Throw e
      end
  end.

Definition modified_check (k : Modifier) (inner : Check) (x : value) (path : string) : exc js_error value :=
  match x, k with
  | VNull, nullable | VNull, nullish => Ret VNull
  | VUndefined, optional | VUndefined, nullish => Ret VUndefined
  | _, _ => inner x path
  end.

(** [validator.check] *)
Fixpoint check (v : Validator) : Check :=
  match v with
  | PrimaryKey => primaryKey_check
  | String_ c => string_check c
  | Int c => boundedNumber_check checkInt c
  | Float c => boundedNumber_check checkFloat c
  | Bigint c => bigint_check c
  | Identity => identity_check
  | File => file_check
  | FileGrant => fileGrant_check
  | Boolean => boolean_check
  | Bytes => bytes_check
  | Vector size => fun x path => normalizeVector x size path
  | ScheduleAt => scheduleAt_check
  | Array element c => array_check (check element) c
  | Object shape => compileShape (map (fun p => MkField p.1 (check p.2) (omissible p.2)) shape)
  | Enum name variants => enum_check name variants
  | Literal lit => literal_check lit
  | Tag => tag_check
  | Union name members => union_check name (map (fun p => MkField p.1 (check p.2) (omissible p.2)) members)
  | Jsonb => jsonb_check
  | Modified k inner => modified_check k (check inner)
  end.
End check.

(** ** Descriptors *)

(** [JSON.parse(encode(value))] *)
Definition encoded_value (v : value) : exc js_error value := w ← toWire v; Ret (written w).

Fixpoint descriptor (v : Validator) : exc js_error Descriptor :=
  let each := fix go (l : list (string * Validator)) : exc js_error (list (string * Descriptor)) :=
    match l with
    | [] => Ret []
    | (key, f) :: l => d ← descriptor f; ds ← go l; Ret ((key, d) :: ds)
    end in
  match v with
  | PrimaryKey => Ret DPk
  | String_ c => Ret (DString (string_fields c))
  | Int c => Ret (DInt (number_fields c))
  | Float c => Ret (DFloat (number_fields c))
  | Bigint c => Ret (DBigint (bigint_fields c))
  | Identity => Ret DIdentity
  | File => Ret DFile
  | FileGrant => Ret DFileGrant
  | Boolean => Ret DBoolean
  | Bytes => Ret DBytes
  | Vector size => Ret (DVector size)
  | ScheduleAt => Ret DScheduleAt
  | Array element c => el ← descriptor element; Ret (DArray el (number_fields c))
  | Object shape => shape ← each shape; Ret (DObject shape)
  | Enum name variants => Ret (DEnum name variants)
  | Literal v => v ← encoded_value v; Ret (DLiteral v)
  | Tag => Ret DTag
  | Union name members => members ← each members; Ret (DUnion name members)
  | Jsonb => Ret DJsonb
  | Modified k inner => inner ← descriptor inner; Ret (DModified k inner)
  end.

(** ** Constructors and their methods *)

Section build.
Context (RegExp_valid : string -> bool) (number_text : num -> string).

Definition not_a_function {A} (name : string) : exc js_error A := Throw (TypeError (name +:+ " is not a function")).

(** [new RegExp(source)], kept as the source. *)
Definition new_RegExp (source : string) : exc js_error string :=
  if RegExp_valid source then Ret source else Throw (SyntaxError ("Invalid regular expression: " +:+ source)).

(** [.min(bound)] and [.max(bound)]: the bounds so far are read back from the descriptor. *)
Definition string_bound (method : Side) (bound : value) (c : option StringConstraints) : exc js_error Validator :=
  normalized ← lengthBound bound method string_kind;
  let d := string_fields c in
  next ← nextBounds crossed_num number_text string_kind (numberBounds d) method normalized;
  compiled ← match regex d with VStr source => compiled ← new_RegExp source; Ret (Some compiled) | _ => Ret None end;
  Ret (String_ (Some (MkStringConstraints next compiled))).

Definition number_bound (kind : ConstrainedKind) (method : Side) (bound : value) (c : option (Bounds num)) : exc js_error (Bounds num) :=
  bound ← finiteBound bound method kind;
  nextBounds crossed_num number_text kind (numberBounds (number_fields c)) method bound.

Definition bigint_bound (method : Side) (bound : value) (c : option (Bounds Z)) : exc js_error Validator :=
  bound ← bigintBound bound method;
  so_far ← bigintBounds (bigint_fields c);
  next ← nextBounds crossed_Z Z_decimal bigint_kind so_far method bound;
  Ret (Bigint (Some next)).

Definition array_bound (method : Side) (bound : value) (element : Validator) (c : option (Bounds num)) : exc js_error Validator :=
  normalized ← lengthBound bound method array_kind;
  next ← nextBounds crossed_num number_text array_kind (numberBounds (number_fields c)) method normalized;
  Ret (Array element (Some next)).

Definition bound_method (method : Side) (bound : value) (v : Validator) : exc js_error Validator :=
  match v with
  | String_ c => string_bound method bound c
  | Int c => next ← number_bound int_kind method bound c; Ret (Int (Some next))
  | Float c => next ← number_bound float_kind method bound c; Ret (Float (Some next))
  | Bigint c => bigint_bound method bound c
  | Array element c => array_bound method bound element c
  | _ => not_a_function (side_name method)
  end.

(** A regular expression object, by its source and flags. *)
Definition regex_method (expression : option (string * string)) (v : Validator) : exc js_error Validator :=
  match v with
  | String_ c =>
      match expression with
      | None => Throw (ValidationError "v.string().regex(): pattern must be a RegExp")
      | Some (source, flags) =>
          _ ← throw_if (negb (bool_decide (flags = EmptyString))) (ValidationError "v.string().regex(): RegExp flags are not allowed");
          let d := string_fields c in
          _ ← throw_if (negb (is_undefined (regex d))) (ValidationError "v.string(): duplicate regex constraint");
          compiled ← new_RegExp source;
          Ret (String_ (Some (MkStringConstraints (numberBounds d) (Some compiled))))
      end
  | _ => not_a_function "regex"
  end.

Definition vector (dimensions : value) : exc js_error Validator :=
  size ← vectorDimensions dimensions "v.vector()"; Ret (Vector size).

Definition enum_ (name : string) (values : list value) : exc js_error Validator :=
  let strings := omap (fun v => match v with VStr s => Some s | _ => None end) values in
  _ ← throw_if (bool_decide (values = []) || negb (bool_decide (length strings = length values)))
        (ValidationError ("enum " +:+ name +:+ ": values must be a non-empty array of strings"));
  _ ← throw_if (negb (bool_decide (NoDup strings))) (ValidationError ("enum " +:+ name +:+ ": duplicate variants"));
  Ret (Enum name strings).

Definition union (name : string) (members : list (string * Validator)) : exc js_error Validator :=
  _ ← throw_if (bool_decide (members.*1 = [])) (ValidationError ("union " +:+ name +:+ ": no variants"));
  Ret (Union name members).

Definition modified (inner : Validator) (kind : Modifier) : exc js_error Validator :=
  match inner with
  | Modified k _ =>
      Throw (ValidationError (modifier_name k +:+ " validator is already modified; redundant modifier combinations are not allowed — use .nullish() for nullable optional input"))
  | PrimaryKey => Throw (ValidationError ("pk cannot be " +:+ modifier_name kind))
  | ScheduleAt => Throw (ValidationError ("scheduleAt cannot be " +:+ modifier_name kind))
  | Tag => Throw (ValidationError ("tag cannot be " +:+ modifier_name kind))
  | _ => Ret (Modified kind inner)
  end.

(** [LiteralValue] *)
Definition is_literal (v : value) : bool := match v with VStr _ | VNum _ | VBool _ | VBig _ => true | _ => false end.

(** The validators a program can build. A shape or a map of members is an
    object: its keys are distinct and in property order. *)
Inductive built : Validator -> Prop :=
  | built_plain v : v ∈ [PrimaryKey; String_ None; Int None; Float None; Bigint None; Identity; File; FileGrant;
                         Boolean; Bytes; ScheduleAt; Tag; Jsonb] -> built v
  | built_vector d v : vector d = Ret v -> built v
  | built_bound method bound v v' : built v -> bound_method method bound v = Ret v' -> built v'
  | built_regex e v v' : built v -> regex_method e v = Ret v' -> built v'
  | built_array element : built element -> built (Array element None)
  | built_object shape : NoDup (shape.*1) -> ordered (shape.*1) -> (forall p, p ∈ shape -> built p.2) -> built (Object shape)
  | built_enum name values v : enum_ name values = Ret v -> built v
  | built_literal v : is_literal v = true -> built (Literal v)
  | built_union name members v :
      NoDup (members.*1) -> ordered (members.*1) -> (forall p, p ∈ members -> built p.2) ->
      union name members = Ret v -> built v
  | built_modified inner k v : built inner -> modified inner k = Ret v -> built v.
End build.
