(* ===== verification/ValidatorsProps.v ===== *)
(** Validators return inhabitants of their type, accept every inhabitant
    unchanged, and fail only with an error that names the path. *)
From S2P Require Import Prelude Errors Value Wire Constraints Float32 Validators.
Local Open Scope string_scope.
Local Open Scope list_scope.

(** Induction through elements, shapes and members. *)
Fixpoint validator_nested_ind (P : Validator -> Prop)
  (Hplain : forall v, match v with Array _ _ | Object _ | Union _ _ | Modified _ _ => False | _ => True end -> P v)
  (Harr : forall element c, P element -> P (Array element c))
  (Hobj : forall shape, Forall (fun p => P p.2) shape -> P (Object shape))
  (Hun : forall name members, Forall (fun p => P p.2) members -> P (Union name members))
  (Hmod : forall k inner, P inner -> P (Modified k inner)) (v : Validator) : P v :=
  let IH := validator_nested_ind P Hplain Harr Hobj Hun Hmod in
  let each := fix go l : Forall (fun p : string * Validator => P p.2) l :=
    match l with [] => List.Forall_nil _ | p :: l => List.Forall_cons _ _ _ (IH p.2) (go l) end in
  match v with
  | Array element c => Harr element c (IH element)
  | Object shape => Hobj shape (each shape)
  | Union name members => Hun name members (each members)
  | Modified k inner => Hmod k inner (IH inner)
  | v => Hplain v I
  end.

(** ** Well-formed validators *)

Definition length_bound (n : num) : Prop := exists z, n = num_of_Z z /\ (0 <= z <= MAX_SAFE_INTEGER)%Z.
Definition finite_bound (n : num) : Prop := num_is_finite n = true /\ n <> NNegZero.
Definition each_bound {B} (P : B -> Prop) (b : Bounds B) : Prop :=
  (forall n, low b = Some n -> P n) /\ (forall n, high b = Some n -> P n).

Definition lengths_wf (b : Bounds num) : Prop := each_bound length_bound b /\ crossed_num b = false.
Definition numbers_wf (b : Bounds num) : Prop := each_bound finite_bound b /\ crossed_num b = false.
Definition bigints_wf (b : Bounds Z) : Prop := each_bound (fun z => I64_MIN <= z <= I64_MAX)%Z b /\ crossed_Z b = false.

Definition if_some {A} (P : A -> Prop) (c : option A) : Prop := match c with Some c => P c | None => True end.

Definition modifiable (v : Validator) : Prop :=
  match v with Modified _ _ | PrimaryKey | ScheduleAt | Tag => False | _ => True end.

Section wf.
Context (RegExp_valid : string -> bool).

Definition string_wf (c : StringConstraints) : Prop :=
  lengths_wf (bounds c) /\ if_some (fun source => RegExp_valid source = true) (pattern c).

Fixpoint wf (v : Validator) : Prop :=
  match v with
  | String_ c => if_some string_wf c
  | Int c | Float c => if_some numbers_wf c
  | Bigint c => if_some bigints_wf c
  | Vector size => (0 < size <= MAX_SAFE_INTEGER)%Z
  | Array element c => wf element /\ if_some lengths_wf c
  | Object shape => NoDup (shape.*1) /\ ordered (shape.*1) /\ foldr (fun p P => wf p.2 /\ P) True shape
  | Enum _ variants => variants <> [] /\ NoDup variants
  | Literal v => is_literal v = true
  | Union _ members => members <> [] /\ NoDup (members.*1) /\ ordered (members.*1) /\ foldr (fun p P => wf p.2 /\ P) True members
  | Modified _ inner => wf inner /\ modifiable inner
  | _ => True
  end.

Lemma nextBounds_wf {B} (P : B -> Prop) crossed show kind b method bound next :
  each_bound P b -> P bound -> nextBounds crossed show kind b method bound = Ret next ->
  each_bound P next /\ crossed next = false.
Proof.
  unfold nextBounds. intros [Hl Hh] Hp H. exc_inv.
  destruct method; subst next; (split; [split|]; cbn; intros; simplify_eq; auto).
Qed.

Lemma lengthBound_wf bound method kind n : lengthBound bound method kind = Ret n -> length_bound n.
Proof.
  unfold lengthBound, length_bound. intros H. destruct bound as [| | |n0| | | | | |]; try done.
  destruct (num_safe_integer n0) as [z|] eqn:E; [|done]. case_decide; [done|]. injection H as <-.
  pose proof (num_safe_integer_bound _ _ E) as Hb. exists z. split; [|lia].
  unfold num_safe_integer in E. destruct n0; cbn in *; try done.
  - case_decide as Hd; [|done]. case_decide; [|done]. injection E as <-.
    unfold num_of_Z. f_equal. apply Qc_is_canon. cbn. rewrite Qred_correct. unfold Qeq. cbn. by rewrite Hd.
  - case_decide; [|done]. by injection E as <-.
Qed.

Lemma finiteBound_wf bound method kind n : finiteBound bound method kind = Ret n -> finite_bound n.
Proof.
  unfold finiteBound, finite_bound. intros H. repeat case_match; try done. injection H as <-.
  destruct n0; try done; (split; [done|]); discriminate.
Qed.

Lemma bigintBound_wf bound method z : bigintBound bound method = Ret z -> (I64_MIN <= z <= I64_MAX)%Z.
Proof. unfold bigintBound. destruct bound; try done. case_decide; [|done]. by intros [= <-]. Qed.

(** The bounds a validator was built with, read back from its descriptor. *)
Definition no_bounds {B} : Bounds B := MkBounds None None.

Lemma numberBounds_string c :
  numberBounds (string_fields c) = match c with Some c => bounds c | None => no_bounds end.
Proof. destruct c as [[[l h] p]|]; [|done]. by destruct l, h. Qed.

Lemma numberBounds_fields c : numberBounds (number_fields c) = default no_bounds c.
Proof. destruct c as [[l h]|]; [|done]. by destruct l, h. Qed.

Lemma bigintBounds_fields c : bigintBounds (bigint_fields c) = Ret (default no_bounds c).
Proof.
  destruct c as [[l h]|]; [|done]. unfold bigintBounds, bigint_fields, bigint_value.
  destruct l as [l|], h as [h|]; cbn [min max low high]; rewrite ?BigInt_decimal; done.
Qed.

Lemma no_bounds_each {B} (P : B -> Prop) : each_bound P no_bounds.
Proof. done. Qed.

Lemma or_no_bounds {B} (P : Bounds B -> Prop) (Q : B -> Prop) c :
  (forall b, P b -> each_bound Q b) -> if_some P c -> each_bound Q (default no_bounds c).
Proof. destruct c; cbn; [auto|]. intros. apply no_bounds_each. Qed.

Lemma bound_method_wf show method bound v v' : wf v -> bound_method RegExp_valid show method bound v = Ret v' -> wf v'.
Proof.
  intros Hv H. destruct v; try done; cbn [bound_method] in H;
    unfold string_bound, number_bound, bigint_bound, array_bound in H.
  - rewrite numberBounds_string in H. exc_inv. subst v'. split; cbn.
    + eapply nextBounds_wf; [|by eapply lengthBound_wf|done]. destruct constraints; [apply Hv|apply no_bounds_each].
    + match goal with H : _ = Ret ?p |- if_some _ ?p => rename H into Hp end.
      destruct (regex (string_fields constraints)); try (by injection Hp as <-).
      unfold new_RegExp in Hp. destruct (RegExp_valid s) eqn:E; [|done]. injection Hp as <-. exact E.
  - rewrite numberBounds_fields in H. exc_inv. subst v'. cbn. eapply nextBounds_wf; [|by eapply finiteBound_wf|done].
    eapply or_no_bounds; [|exact Hv]. by intros ? [].
  - rewrite numberBounds_fields in H. exc_inv. subst v'. cbn. eapply nextBounds_wf; [|by eapply finiteBound_wf|done].
    eapply or_no_bounds; [|exact Hv]. by intros ? [].
  - rewrite bigintBounds_fields in H. exc_inv. subst. cbn. eapply nextBounds_wf; [|by eapply bigintBound_wf|done].
    eapply or_no_bounds; [|exact Hv]. by intros ? [].
  - rewrite numberBounds_fields in H. exc_inv. subst v'. destruct Hv as [He Hc]. split; [done|].
    cbn. eapply nextBounds_wf; [|by eapply lengthBound_wf|done].
    eapply or_no_bounds; [|exact Hc]. by intros ? [].
Qed.

Lemma strings_of_values (values : list value) : length (omap (fun v => match v with VStr s => Some s | _ => None end) values) = length values ->
  values <> [] -> omap (fun v => match v with VStr s => Some s | _ => None end) values <> [].
Proof. destruct values; [done|]. intros Hl _ E. by rewrite E in Hl. Qed.

(** Every validator a program can build is well formed. *)
Lemma built_wf show v : built RegExp_valid show v -> wf v.
Proof.
  induction 1 as [v Hv|d v Hv|method bound v v' _ IH Hv|e v v' _ IH Hv|element _ IH|shape Hn Ho _ IH|name values v Hv|v Hv|
    name members v Hn Ho _ IH Hv|inner k v _ IH Hv].
  - repeat (apply elem_of_cons in Hv as [->|Hv]; [done|]). by apply not_elem_of_nil in Hv.
  - unfold vector, vectorDimensions in Hv. exc_inv. subst v. destruct d; try done.
    destruct (num_safe_integer n) eqn:E; [|done]. case_decide; [|done]. apply num_safe_integer_bound in E. exc_inv. subst. cbn. lia.
  - by eapply bound_method_wf.
  - destruct v; try done. cbn [regex_method] in Hv. destruct e as [[source flags]|]; [|done]. exc_inv. subst v'.
    match goal with H : new_RegExp _ _ = Ret _ |- _ => unfold new_RegExp in H; destruct (RegExp_valid source) eqn:E; [|done]; injection H as <- end.
    rewrite numberBounds_string. split; cbn; [|done]. destruct constraints; [apply IH|by split].
  - by split.
  - cbn. split_and!; [done..|]. apply foldr_forall, Forall_forall, IH.
  - unfold enum_ in Hv. exc_inv. subst v. cbn.
    match goal with H : (_ || _) = false |- _ => apply orb_false_iff in H as [H1 H2] end.
    apply bool_decide_eq_false in H1. apply negb_false_iff, bool_decide_eq_true in H2.
    match goal with H : negb _ = false |- _ => apply negb_false_iff, bool_decide_eq_true in H end.
    split; [by apply strings_of_values|done].
  - done.
  - unfold union in Hv. exc_inv. subst v. match goal with H : bool_decide _ = false |- _ => apply bool_decide_eq_false in H end.
    cbn. split_and!; [by destruct members|done..|]. apply foldr_forall, Forall_forall, IH.
  - destruct inner; try done; cbn in Hv; by injection Hv as <-.
Qed.
End wf.

(** ** Constraints *)

Lemma throw_if_decides b (e : js_error) : throw_if b e = if b then Throw e else Ret tt.
Proof. done. Qed.

Lemma lengthField_wf c side path : lengths_wf c -> forall f,
  f side = match side with min_side => low c | max_side => high c end ->
  forall r, lengthField (MkConstraints (bound_value (low c)) (bound_value (high c)) r) side path = Ret (f side).
Proof.
  intros [[Hl Hh] _] f -> r. unfold lengthField. destruct side; cbn [slot min max].
  - destruct (low c) as [n|]; [|done]. destruct (Hl n eq_refl) as (z & -> & Hz). cbn [bound_value].
    rewrite num_safe_of_Z by lia. by rewrite decide_False by lia.
  - destruct (high c) as [n|]; [|done]. destruct (Hh n eq_refl) as (z & -> & Hz). cbn [bound_value].
    rewrite num_safe_of_Z by lia. by rewrite decide_False by lia.
Qed.

Lemma numberField_wf c side path r : numbers_wf c ->
  numberField (MkConstraints (bound_value (low c)) (bound_value (high c)) r) side path =
    Ret (match side with min_side => low c | max_side => high c end).
Proof.
  intros [[Hl Hh] _]. unfold numberField. destruct side; cbn [slot min max].
  - destruct (low c) as [n|]; [|done]. cbn [bound_value]. by destruct (Hl n eq_refl) as [-> _].
  - destruct (high c) as [n|]; [|done]. cbn [bound_value]. by destruct (Hh n eq_refl) as [-> _].
Qed.

Definition within (b : Bounds num) (n : num) : Prop := below n (low b) = false /\ above n (high b) = false.
Definition within_Z (b : Bounds Z) (z : Z) : Prop := (forall l, low b = Some l -> l <= z)%Z /\ (forall h, high b = Some h -> z <= h)%Z.

Section typed.
Context (RegExp_valid : string -> bool) (RegExp_test : string -> string -> bool) (number_text : num -> string).

Definition string_fits (c : StringConstraints) (s : string) : Prop :=
  within (bounds c) (num_of_Z (code_points s)) /\ (forall source, pattern c = Some source -> RegExp_test source s = true).

(** A failing constraint is reported under the path. *)
Definition reported {A} (path : string) (m : exc js_error A) : Prop :=
  match m with Ret _ => True | Throw e => exists message, e = ValidationError (path +:+ message) end.

(** A constraint check returns exactly when the constraint holds, and reports otherwise. *)
Definition decides (path : string) (P : Prop) (m : exc js_error unit) : Prop :=
  (m = Ret tt <-> P) /\ reported path m.

Lemma decides_string c s path : lengths_wf (bounds c) ->
  decides path (string_fits c s)
    (checkStringConstraints RegExp_valid RegExp_test number_text (string_fields (Some c)) s path (pattern c)).
Proof.
  intros Hw. unfold checkStringConstraints, string_fields, string_fits, within.
  rewrite (lengthField_wf _ min_side path Hw (fun _ => low (bounds c)) eq_refl). cbn [mbind exc_bind].
  rewrite (lengthField_wf _ max_side path Hw (fun _ => high (bounds c)) eq_refl). cbn [mbind exc_bind].
  rewrite !throw_if_decides. split.
  - destruct (below _ _); cbn; [by naive_solver|]. destruct (above _ _); cbn; [by naive_solver|].
    destruct (pattern c) as [source|] eqn:Ep; cbn; [|by naive_solver].
    destruct (RegExp_test source s) eqn:Et; cbn.
    + split; [intros _; split_and!; [done..|by intros ? [= <-]]|done].
    + split; [done|]. intros [_ Hs]. specialize (Hs _ eq_refl). congruence.
  - destruct (below _ _); cbn; [by eexists|]. destruct (above _ _); cbn; [by eexists|].
    destruct (pattern c) as [source|] eqn:Ep; cbn; [|done]. destruct (RegExp_test source s); cbn; [done|by eexists].
Qed.

Lemma decides_number b n path : numbers_wf b ->
  decides path (within b n) (checkNumberConstraints number_text (number_fields (Some b)) n path).
Proof.
  intros Hw. unfold checkNumberConstraints, number_fields, within. rewrite !numberField_wf by done. cbn [mbind exc_bind].
  rewrite !throw_if_decides. destruct (below _ _), (above _ _); split; cbn; naive_solver.
Qed.

Lemma if_beyond (R : Z -> Prop) `{!forall b, Decision (R b)} (bound : option Z) (e : Z -> js_error) :
  match bound with Some b => throw_if (bool_decide (R b)) (e b) | None => Ret tt end = Ret tt <->
  forall b, bound = Some b -> ~ R b.
Proof.
  destruct bound as [b|]; [|by naive_solver]. rewrite throw_if_decides. case_bool_decide; split; try done.
  - intros H'. by destruct (H' b eq_refl).
  - by intros _ ? [= <-].
Qed.

Lemma decides_bigint b z path : decides path (within_Z b z) (checkBigintConstraints (bigint_fields (Some b)) z path (Some b)).
Proof.
  unfold checkBigintConstraints, within_Z. cbn [mbind exc_bind]. split.
  - transitivity ((forall l, low b = Some l -> ~ (z < l)%Z) /\ (forall h, high b = Some h -> ~ (h < z)%Z)).
    + rewrite <-(if_beyond (fun l => z < l)%Z (low b) (fun l => ValidationError (path +:+ ": expected a bigint greater than or equal to " +:+ Z_decimal l))).
      rewrite <-(if_beyond (fun h => h < z)%Z (high b) (fun h => ValidationError (path +:+ ": expected a bigint less than or equal to " +:+ Z_decimal h))).
      rewrite exc_bind_ret. split; [intros ([] & ? & ?); done|intros [? ?]; by exists tt].
    + split; intros [H1 H2]; split; intros ? E; [specialize (H1 _ E)|specialize (H2 _ E)|specialize (H1 _ E)|specialize (H2 _ E)]; lia.
  - destruct (low b) as [l|], (high b) as [h|]; rewrite ?throw_if_decides; repeat case_bool_decide; cbn; by try eexists.
Qed.

Lemma decides_length b n path : lengths_wf b ->
  decides path (within b (num_of_Z (Z.of_nat n))) (checkArrayConstraints number_text (number_fields (Some b)) n path).
Proof.
  intros Hw. unfold checkArrayConstraints, number_fields, within.
  rewrite (lengthField_wf _ min_side path Hw (fun _ => low b) eq_refl). cbn [mbind exc_bind].
  rewrite (lengthField_wf _ max_side path Hw (fun _ => high b) eq_refl). cbn [mbind exc_bind].
  rewrite !throw_if_decides. destruct (below _ _), (above _ _); split; cbn; naive_solver.
Qed.

Lemma decides_when {A} (c : option A) P path m : if_some (fun c => decides path (P c) (m c)) c ->
  decides path (if_some P c) (when c m).
Proof. by destruct c. Qed.
End typed.
