(* ===== verification/ValidatorsTyped.v ===== *)
(** The type a validator stands for, and what [check] has to do with it. *)
From S2P Require Import Prelude Errors Value Wire Constraints Float32 Validators ValidatorsProps.
Local Open Scope string_scope.
Local Open Scope list_scope.

(** ** The checks of items, fields and members, by themselves *)

Section unfold.
Context (RegExp_valid : string -> bool) (RegExp_test : string -> string -> bool) (number_text : num -> string).
#[local] Abbreviation check := (check RegExp_valid RegExp_test number_text).

Definition check_items (element : Validator) (path : string) : list value -> nat -> exc js_error (list value) :=
  map_items (check element) path.

Fixpoint check_fields (input : list (string * value)) (path : string) (fields : list (string * Validator))
    (out : list (string * value)) : exc js_error (list (string * value)) :=
  match fields with
  | [] => Ret out
  | (key, f) :: fields =>
      if negb (own input key) && omissible f then check_fields input path fields out
      else y ← check f (field key input) (path +:+ "." +:+ key); check_fields input path fields (obj_set out key y)
  end.

Definition known_fields (known : string -> bool) (path suffix : string) (input : list (string * value)) : exc js_error unit :=
  exc_each (fun p => throw_if (negb (known p.1) && negb (is_undefined p.2)) (unknown_field path p.1 suffix)) input.

Definition check_member (tag path : string) (input : list (string * value)) (member : Validator) : exc js_error value :=
  _ ← exc_each (fun p => throw_if (negb (bool_decide (p.1 = "tag")) && negb (bool_decide (p.1 = "value")) && negb (is_undefined p.2))
        (unknown_field path p.1 " on union value")) input;
  if negb (own input "value") && omissible member then Ret (VObj [("tag", VStr tag)])
  else payload ← check member (field "value" input) (path +:+ ".value");
       Ret (VObj [("tag", VStr tag); ("value", payload)]).

#[local] Abbreviation compiled := (map (fun p => MkField p.1 (check p.2) (omissible p.2))).

Lemma compiled_keys (l : list (string * Validator)) : key <$> compiled l = l.*1.
Proof. induction l as [|p l IH]; [done|]. cbn. by rewrite IH. Qed.

Lemma check_array element c items path : check (Array element c) (VArr items) path =
  (_ ← when c (fun _ => checkArrayConstraints number_text (number_fields c) (length items) path);
   out ← check_items element path items 0; Ret (VArr out)).
Proof. reflexivity. Qed.

Lemma check_object shape input path : check (Object shape) (VObj input) path =
  (_ ← known_fields (own shape) path EmptyString input; out ← check_fields input path shape []; Ret (VObj out)).
Proof.
  cbn [Validators.check]. unfold compileShape, known_fields, own. rewrite compiled_keys.
  replace (shape_fields input path (compiled shape) []) with (check_fields input path shape []); [done|].
  generalize (@nil (string * value)). induction shape as [|[k f] shape IH]; intros out; [done|]. cbn.
  case_match; [done|]. by destruct (check _ _ _); cbn.
Qed.

Definition unknown_variant {A} (members : list (string * Validator)) (path got : string) : exc js_error A :=
  Throw (ValidationError (path +:+ ".tag: expected one of " +:+ alternatives (members.*1) +:+ ", got " +:+ got)).

Lemma compiled_named (l : list (string * Validator)) tag :
  member_named (compiled l) tag = (fun m => MkField tag (check m) (omissible m)) <$> jmap_get tag l.
Proof. induction l as [|[k f] l IH]; [done|]. cbn. case_decide; [by subst|done]. Qed.

Lemma check_union name members x path : check (Union name members) x path =
  match x with
  | VObj _ | VBytes _ =>
      let input := default [] (own_fields x) in
      match field "tag" input with
      | VStr tag =>
          match jmap_get tag members with
          | Some member => check_member tag path input member
          | None => unknown_variant members path (json_string tag)
          end
      | variant => unknown_variant members path (describe variant)
      end
  | _ => fail path (name +:+ " ({ tag, value })") x
  end.
Proof.
  destruct x; try done; cbn [Validators.check]; unfold union_check; rewrite compiled_keys; cbn zeta;
    (destruct (field "tag" _) as [| | | |tag| | | | |]; try done); rewrite compiled_named; by destruct (jmap_get tag members).
Qed.
End unfold.

(** ** Types *)

Definition coordinate (x : value) : Prop := exists n, x = VNum n /\ num_is_finite n = true /\ n <> NNegZero /\ fround n = n.

Section typed.
Context (RegExp_test : string -> string -> bool).

(** The type of a validator that has no parts. *)
Definition plain_type (v : Validator) (x : value) : Prop :=
  match v with
  | PrimaryKey => exists z, x = VBig z
  | String_ c => exists s, x = VStr s /\ if_some (fun c => string_fits RegExp_test c s) c
  | Int c => exists n, x = VNum n /\ is_Some (num_safe_integer n) /\ if_some (fun c => within c n) c
  | Float c => exists n, x = VNum n /\ num_is_finite n = true /\ if_some (fun c => within c n) c
  | Bigint c => exists z, x = VBig z /\ (I64_MIN <= z <= I64_MAX)%Z /\ if_some (fun c => within_Z c z) c
  | Identity | File | FileGrant => exists z, x = VBig z /\ (I64_MIN <= z <= I64_MAX)%Z
  | Boolean => exists b, x = VBool b
  | Bytes => exists b, x = VBytes b
  | Vector size => exists items, x = VArr items /\ Z.of_nat (length items) = size /\ Forall coordinate items
  | ScheduleAt => exists n, x = VNum n /\ num_is_finite n = true
  | Enum _ variants => exists s, x = VStr s /\ s ∈ variants
  | Literal lit => x = lit /\ lit <> VNum NNaN
  | Tag => x = VNull
  | Jsonb => x <> VUndefined /\ exists w, toWire x = Ret w
  | _ => False
  end.

Inductive inhabits : Validator -> value -> Prop :=
  | in_plain v x : plain_type v x -> inhabits v x
  | in_array element c items :
      Forall (inhabits element) items -> if_some (fun c => within c (num_of_Z (Z.of_nat (length items)))) c ->
      inhabits (Array element c) (VArr items)
  | in_object shape fields : fits shape fields -> inhabits (Object shape) (VObj fields)
  | in_union name members tag member payload :
      jmap_get tag members = Some member -> inhabits member payload ->
      inhabits (Union name members) (VObj [("tag", VStr tag); ("value", payload)])
  | in_union_omitted name members tag member :
      jmap_get tag members = Some member -> omissible member = true ->
      inhabits (Union name members) (VObj [("tag", VStr tag)])
  | in_null k inner : k <> optional -> inhabits (Modified k inner) VNull
  | in_undefined k inner : k <> nullable -> inhabits (Modified k inner) VUndefined
  | in_inner k inner x : inhabits inner x -> inhabits (Modified k inner) x
(** The fields of an object, in the order of its shape. *)
with fits : list (string * Validator) -> list (string * value) -> Prop :=
  | fits_nil : fits [] []
  | fits_field key f x shape fields : inhabits f x -> fits shape fields -> fits ((key, f) :: shape) ((key, x) :: fields)
  | fits_omitted key f shape fields : omissible f = true -> fits shape fields -> fits ((key, f) :: shape) fields.
End typed.

(** ** Checked values are inhabitants *)

Lemma coordinates_checked path items : forall i ys,
  normalize_coordinates items i path = Ret ys -> length ys = length items /\ Forall coordinate ys.
Proof.
  induction items as [|x items IH]; intros i ys H; cbn in H; [injection H as <-; done|]. exc_inv. subst ys.
  match goal with H : normalize_coordinates _ _ _ = Ret _ |- _ => apply IH in H as [Hl Hf] end.
  match goal with H : negb _ = false |- _ => apply negb_false_iff in H as Hfin end.
  split; [cbn; by rewrite Hl|]. constructor; [|done].
  destruct x; try done. destruct (num_is_finite n); [|done]. exc_inv. subst.
  eexists. split; [done|]. pose proof (fround_idem n) as Hi. destruct (fround n); try done; (split; [done|]); (split; [done|]); auto.
Qed.

Lemma coordinates_id path items : forall i, Forall coordinate items -> normalize_coordinates items i path = Ret items.
Proof.
  induction items as [|x items IH]; intros i H; [done|]. apply Forall_cons in H as [(n & -> & Hf & Hz & Hr) H].
  cbn. rewrite Hf, Hr. cbn. rewrite Hf. cbn. rewrite IH by done. cbn. by destruct n.
Qed.

Definition keys_ok (keys : list string) : Prop := NoDup keys /\ ordered keys.

Lemma keys_ok_sublist l l' : sublist l l' -> keys_ok l' -> keys_ok l.
Proof. intros Hs [Hn Ho]. split; [by eapply sublist_NoDup|by eapply sublist_StronglySorted]. Qed.

Lemma keys_ok_set (out : list (string * value)) key y keys :
  keys_ok (out.*1 ++ key :: keys) -> obj_set out key y = out ++ [(key, y)] /\ keys_ok ((out ++ [(key, y)]).*1 ++ keys).
Proof.
  intros H. rewrite fmap_app. cbn. rewrite <-app_assoc. split; [|done]. apply obj_set_last.
  unfold fields_ok. rewrite fmap_app. cbn. apply (keys_ok_sublist _ (out.*1 ++ key :: keys)); [|done].
  apply sublist_app; [done|]. apply sublist_skip, sublist_nil_l.
Qed.

Lemma keys_ok_drop (out : list string) key keys : keys_ok (out ++ key :: keys) -> keys_ok (out ++ keys).
Proof. apply keys_ok_sublist. apply sublist_app; [done|]. by apply sublist_cons. Qed.

Section sound.
Context (RegExp_valid : string -> bool) (RegExp_test : string -> string -> bool) (number_text : num -> string).
#[local] Abbreviation check := (check RegExp_valid RegExp_test number_text).
#[local] Abbreviation inhabits := (inhabits RegExp_test).
#[local] Abbreviation fits := (fits RegExp_test).

#[local] Abbreviation wf := (wf RegExp_valid).

Ltac unfold_checks_in H :=
  unfold primaryKey_check, string_check, boundedNumber_check, bigint_check, identity_check, file_check, fileGrant_check,
    boolean_check, bytes_check, scheduleAt_check, enum_check, literal_check, tag_check, jsonb_check in H.

Definition sound (v : Validator) : Prop := wf v -> forall x path y, check v x path = Ret y -> inhabits v y.

Lemma checkI64_ret x path expected z : checkI64 x path expected = Ret z -> x = VBig z /\ (I64_MIN <= z <= I64_MAX)%Z.
Proof. destruct x; try done. cbn. case_decide; [done|]. intros [= <-]. split; [done|lia]. Qed.

Lemma checkString_ret x path s : checkString x path = Ret s -> x = VStr s.
Proof. destruct x; try done. by intros [= <-]. Qed.

Lemma checkInt_ret x path n : checkInt x path = Ret n -> x = VNum n /\ is_Some (num_safe_integer n).
Proof. destruct x; try done. cbn. case_bool_decide; [|done]. by intros [= <-]. Qed.

Lemma checkFloat_ret x path n : checkFloat x path = Ret n -> x = VNum n /\ num_is_finite n = true.
Proof. destruct x; try done. cbn. destruct (num_is_finite n0) eqn:E; [|done]. by intros [= <-]. Qed.

Lemma when_holds {A} (c : option A) P path (m : A -> exc js_error unit) u :
  (forall k, c = Some k -> decides path (P k) (m k)) -> when c m = Ret u -> if_some P c.
Proof. destruct c as [k|]; [|done]. intros Hd H. destruct (Hd k eq_refl) as [Hi _]. apply Hi. by destruct u. Qed.

Lemma plain_sound v : match v with Array _ _ | Object _ | Union _ _ | Modified _ _ => False | _ => True end -> sound v.
Proof.
  intros Hv Hw x path y H. apply in_plain. destruct v; try done; cbn [Validators.check ValidatorsProps.wf plain_type] in *; unfold_checks_in H.
  - destruct x; try done. injection H as <-. by eexists.
  - exc_inv. subst y. eexists. split; [done|]. eapply when_holds; [|eassumption].
    intros k ->. apply decides_string, Hw.
  - exc_inv. subst y. match goal with H : checkInt _ _ = _ |- _ => apply checkInt_ret in H as [-> Hn] end.
    eexists. split_and!; [done..|]. eapply when_holds; [|eassumption]. intros k ->. by apply decides_number.
  - exc_inv. subst y. match goal with H : checkFloat _ _ = _ |- _ => apply checkFloat_ret in H as [-> Hn] end.
    eexists. split_and!; [done..|]. eapply when_holds; [|eassumption]. intros k ->. by apply decides_number.
  - exc_inv. subst y. match goal with H : checkI64 _ _ _ = _ |- _ => apply checkI64_ret in H as [-> Hn] end.
    eexists. split; [done|]. split; [done|]. eapply when_holds; [|eassumption]. intros k ->. by apply decides_bigint.
  - exc_inv. subst y. match goal with H : checkI64 _ _ _ = _ |- _ => apply checkI64_ret in H as [-> Hn] end. by eexists.
  - exc_inv. subst y. match goal with H : checkI64 _ _ _ = _ |- _ => apply checkI64_ret in H as [-> Hn] end. by eexists.
  - exc_inv. subst y. match goal with H : checkI64 _ _ _ = _ |- _ => apply checkI64_ret in H as [-> Hn] end. by eexists.
  - destruct x; try done. injection H as <-. by eexists.
  - destruct x; try done. injection H as <-. by eexists.
  - destruct x; try done. cbn in H. case_decide as Hl; [|done]. exc_inv. subst y.
    match goal with H : normalize_coordinates _ _ _ = _ |- _ => apply coordinates_checked in H as [Hn Hc] end.
    eexists. split_and!; [done|by rewrite Hn|done].
  - destruct (isFinite x) eqn:E; [|done]. injection H as <-. destruct x; try done. by eexists.
  - destruct x; try done. case_decide; [|done]. injection H as <-. by eexists.
  - destruct (strict_equal x v) eqn:E; [|done]. injection H as <-. split; [done|]. intros ->. destruct x; try done.
    cbn in E. unfold num_eq in E. by destruct n.
  - destruct x; try done; by injection H as <-.
  - destruct x; try done; (destruct (toWire _) as [w|[]] eqn:E; try done); injection H as <-; (split; [done|by eexists]).
Qed.

Lemma items_sound element path : sound element -> wf element -> forall items i ys,
  check_items RegExp_valid RegExp_test number_text element path items i = Ret ys ->
  length ys = length items /\ Forall (inhabits element) ys.
Proof.
  intros Hs Hw. induction items as [|x items IH]; intros i ys H; cbn in H; [by injection H as <-|]. exc_inv. subst ys.
  match goal with H : check_items _ _ _ _ _ _ _ = _ |- _ => apply IH in H as [Hl Hf] end.
  split; [cbn; by rewrite Hl|]. constructor; [|done]. by eapply Hs.
Qed.

Lemma fields_sound input path shape : Forall (fun p => sound p.2) shape -> Forall (fun p => wf p.2) shape -> forall out ys,
  keys_ok (out.*1 ++ shape.*1) ->
  check_fields RegExp_valid RegExp_test number_text input path shape out = Ret ys -> exists fields, ys = out ++ fields /\ fits shape fields.
Proof.
  induction shape as [|[key f] shape IH]; intros Hs Hw out ys Hk H; cbn in H.
  - injection H as <-. exists []. split; [by rewrite app_nil_r|constructor].
  - apply Forall_cons in Hs as [Hf Hs], Hw as [Hwf Hw]. cbn [fmap list_fmap fst] in Hk. destruct (negb (own input key) && omissible f) eqn:Eo.
    + apply IH in H as (fields & -> & Hfit); [|done|done|by eapply keys_ok_drop]. exists fields. split; [done|].
      apply andb_true_iff in Eo as [_ Eo]. by constructor.
    + exc_inv. apply (keys_ok_set _ _ x) in Hk as [Hset Hk].
      match goal with H : check_fields _ _ _ _ _ _ _ = _ |- _ => rewrite Hset in H; apply IH in H as (fields & -> & Hfit); [|done..] end.
      exists ((key, x) :: fields). split; [by rewrite <-app_assoc|]. constructor; [|done]. by eapply Hf.
Qed.

Lemma member_wf (members : list (string * Validator)) (P : Validator -> Prop) tag member :
  Forall (fun p => P p.2) members -> jmap_get tag members = Some member -> P member.
Proof. intros Hf Hg. apply jmap_get_Some_elem in Hg. rewrite Forall_forall in Hf. by apply (Hf (tag, member)). Qed.

Lemma check_sound_lemma v : sound v.
Proof.
  induction v as [v Hv|element c IH|shape IH|name members IH|k inner IH] using validator_nested_ind; [by apply plain_sound|..];
    intros Hw x path y H.
  - destruct Hw as [Hw Hc]. destruct x; try done. rewrite check_array in H. exc_inv. subst y.
    match goal with H : check_items _ _ _ _ _ _ _ = _ |- _ => apply items_sound in H as [Hl Hf]; [|done..] end.
    apply in_array; [done|]. eapply when_holds; [|eassumption]. intros k ->. cbn. rewrite Hl. by apply decides_length.
  - destruct Hw as (Hn & Ho & Hw). apply (foldr_forall (fun p => wf p.2)) in Hw. destruct x; try done. rewrite check_object in H. exc_inv. subst y.
    match goal with H : check_fields _ _ _ _ _ _ _ = _ |- _ => apply fields_sound in H as (fs & -> & Hf); [|done..] end.
    by apply in_object.
  - destruct Hw as (_ & Hn & Ho & Hw). apply (foldr_forall (fun p => wf p.2)) in Hw. rewrite check_union in H.
    destruct x; try done; cbn zeta in H; (destruct (field "tag" _) as [| | | |tag| | | | |]; try done);
      (destruct (jmap_get tag members) as [member|] eqn:Eg; [|done]); unfold check_member in H; exc_inv;
      (destruct (negb _ && omissible member) eqn:Eo; exc_inv; subst y;
       [apply andb_true_iff in Eo as [_ Eo]; by eapply in_union_omitted|]);
      eapply in_union; try done; eapply (member_wf _ _ _ _ IH Eg); try eassumption; exact (member_wf _ _ _ _ Hw Eg).
  - destruct Hw as [Hw _]. cbn [Validators.check] in H.
    destruct x, k; try (by apply in_inner; eapply IH; [exact Hw|exact H]); injection H as <-; by constructor.
Qed.
(** ** Inhabitants are accepted unchanged *)

Lemma when_passes {A} (c : option A) P path (m : A -> exc js_error unit) :
  (forall k, c = Some k -> decides path (P k) (m k)) -> if_some P c -> when c m = Ret tt.
Proof. destruct c as [k|]; [|done]. intros Hd H. destruct (Hd k eq_refl) as [Hi _]. by apply Hi. Qed.

Lemma checkI64_id z path expected : (I64_MIN <= z <= I64_MAX)%Z -> checkI64 (VBig z) path expected = Ret z.
Proof. intros. cbn. by rewrite decide_False by lia. Qed.

Lemma num_eq_refl n : n <> NNaN -> num_eq n n = true.
Proof. destruct n as [q| |b|]; try done; unfold num_eq; cbn; [|by destruct b]. intros _. by rewrite (proj1 (Qceq_alt q q) eq_refl). Qed.

Lemma plain_complete v x path : wf v -> plain_type RegExp_test v x -> check v x path = Ret x.
Proof.
  intros Hw H. destruct v; try done; cbn [plain_type ValidatorsProps.wf] in *.
  - by destruct H as [z ->].
  - destruct H as (s & -> & Hs). cbn. erewrite when_passes; [done| |exact Hs]. intros k ->. apply decides_string, Hw.
  - destruct H as (n & -> & Hn & Hs). cbn. rewrite bool_decide_eq_true_2 by done. cbn.
    erewrite when_passes; [done| |exact Hs]. intros k ->. by apply decides_number.
  - destruct H as (n & -> & Hn & Hs). cbn. rewrite Hn. cbn.
    erewrite when_passes; [done| |exact Hs]. intros k ->. by apply decides_number.
  - destruct H as (z & -> & Hz & Hs). cbn [Validators.check]. unfold bigint_check. rewrite checkI64_id by done. cbn.
    erewrite when_passes; [done| |exact Hs]. intros k ->. by apply decides_bigint.
  - destruct H as (z & -> & Hz). cbn [Validators.check]; unfold identity_check, file_check, fileGrant_check; by rewrite checkI64_id.
  - destruct H as (z & -> & Hz). cbn [Validators.check]; unfold identity_check, file_check, fileGrant_check; by rewrite checkI64_id.
  - destruct H as (z & -> & Hz). cbn [Validators.check]; unfold identity_check, file_check, fileGrant_check; by rewrite checkI64_id.
  - by destruct H as [b ->].
  - by destruct H as [b ->].
  - destruct H as (items & -> & Hl & Hc). cbn. rewrite decide_True by done. by rewrite coordinates_id.
  - destruct H as (n & -> & Hn). cbn. unfold scheduleAt_check. cbn. by rewrite Hn.
  - destruct H as (s & -> & Hs). cbn. unfold enum_check. by rewrite decide_True.
  - destruct H as [-> Hn]. cbn. unfold literal_check. destruct v; try done; cbn.
    + by rewrite bool_decide_eq_true_2.
    + rewrite num_eq_refl; [done|congruence].
    + by rewrite bool_decide_eq_true_2.
    + by rewrite bool_decide_eq_true_2.
  - by rewrite H.
  - destruct H as [Hu [w Hw']]. cbn [Validators.check]. unfold jsonb_check. destruct x; try done; by rewrite Hw'.
Qed.

Definition complete (v : Validator) : Prop := wf v -> forall x path, inhabits v x -> check v x path = Ret x.

Lemma items_complete element path : complete element -> wf element -> forall items i,
  Forall (inhabits element) items -> check_items RegExp_valid RegExp_test number_text element path items i = Ret items.
Proof.
  intros Hc Hw. induction items as [|x items IH]; intros i H; [done|]. apply Forall_cons in H as [Hx H].
  cbn. rewrite Hc by done. cbn. by rewrite IH.
Qed.

Lemma fits_keys shape fields : fits shape fields -> sublist (fields.*1) (shape.*1).
Proof. induction 1; cbn; [done|by apply sublist_skip|by apply sublist_cons]. Qed.

Lemma field_app pre key x rest : key ∉ (pre : list (string * value)).*1 -> field key (pre ++ (key, x) :: rest) = x.
Proof.
  unfold field. intros Hk. assert (Hg : jmap_get key (pre ++ (key, x) :: rest) = Some x); [|by rewrite Hg].
  induction pre as [|[k v] pre IH]; cbn in *; [by rewrite decide_True|]. rewrite decide_False by set_solver. apply IH. set_solver.
Qed.

Lemma fields_complete path shape : Forall (fun p => complete p.2) shape -> Forall (fun p => wf p.2) shape -> forall pre fields,
  keys_ok ((pre : list (string * value)).*1 ++ shape.*1) -> fits shape fields ->
  check_fields RegExp_valid RegExp_test number_text (pre ++ fields) path shape pre = Ret (pre ++ fields).
Proof.
  induction shape as [|[key f] shape IH]; intros Hs Hw pre fields Hk Hf; cbn [check_fields].
  - inversion Hf; subst. by rewrite app_nil_r.
  - apply Forall_cons in Hs as [Hcf Hs], Hw as [Hwf Hw]. cbn [fmap list_fmap fst] in Hk.
    assert (Hnot : (key ∉ pre.*1) /\ (key ∉ shape.*1)).
    { destruct Hk as [Hn _]. apply NoDup_app in Hn as (_ & Hd & Hn). apply NoDup_cons in Hn as [Hn _].
      split; [|done]. intros Hin. apply (Hd _ Hin). set_solver. }
    inversion Hf as [|? ? x ? fields' Hx Hfit|? ? ? ? Ho Hfit]; subst.
    + rewrite (field_app pre key x fields') by apply Hnot.
      replace (own (pre ++ (key, x) :: fields') key) with true
        by (symmetry; apply bool_decide_eq_true; rewrite fmap_app; cbn; set_solver).
      cbn [negb andb]. cbn [snd] in *. rewrite Hcf by done. cbn [mbind exc_bind].
      destruct (keys_ok_set _ _ x _ Hk) as [-> Hk']. specialize (IH Hs Hw (pre ++ [(key, x)]) fields' Hk' Hfit).
      rewrite <-app_assoc in IH. exact IH.
    + replace (own (pre ++ fields) key) with false.
      { cbn [negb andb]. rewrite Ho. apply IH; [done..|by eapply keys_ok_drop|done]. }
      symmetry. apply bool_decide_eq_false. rewrite fmap_app, elem_of_app. intros [?|Hin]; [tauto|].
      apply Hnot. by eapply elem_of_sublist; [|apply fits_keys].
Qed.

Lemma known_fields_pass known path suffix input : (forall p, p ∈ input -> known p.1 = true) -> known_fields known path suffix input = Ret tt.
Proof. intros H. apply exc_each_ret, Forall_forall. intros p Hp. by rewrite (H p Hp). Qed.

Lemma check_complete_lemma v : complete v.
Proof.
  induction v as [v Hv|element c IH|shape IH|name members IH|k inner IH] using validator_nested_ind; intros Hw x path H.
  - inversion H; subst; try done. by apply plain_complete.
  - inversion H as [? ? Hp|? ? items Hi Hc| | | | | |]; subst; [done|]. destruct Hw as [Hw Hwc]. rewrite check_array.
    rewrite (when_passes c (fun c => within c (num_of_Z (Z.of_nat (length items)))) path);
      [|intros k ->; by apply decides_length|exact Hc]. cbn [mbind exc_bind]. by rewrite items_complete.
  - inversion H as [? ? Hp| |? fields Hf| | | | |]; subst; [done|]. destruct Hw as (Hn & Ho & Hw). apply (foldr_forall (fun p => wf p.2)) in Hw.
    rewrite check_object. rewrite known_fields_pass.
    + cbn [mbind exc_bind]. pose proof (fields_complete path shape IH Hw [] fields (conj Hn Ho) Hf) as E. cbn [app] in E. by rewrite E.
    + intros p Hp. apply bool_decide_eq_true. eapply elem_of_sublist; [by apply list_elem_of_fmap_2|by apply fits_keys].
  - destruct Hw as (_ & Hn & Ho & Hw). apply (foldr_forall (fun p => wf p.2)) in Hw. rewrite check_union.
    inversion H as [? ? Hp| | |? ? tag member payload Hg Hm|? ? tag member Hg Ho'| | |]; subst; [done| |];
      cbn zeta; cbn [own_fields default].
    + change (field "tag" _) with (VStr tag). cbv beta iota. rewrite Hg. unfold check_member. cbn -[Validators.check].
      rewrite (member_wf _ _ _ _ IH Hg); [done|exact (member_wf _ _ _ _ Hw Hg)|done].
    + change (field "tag" _) with (VStr tag). cbv beta iota. rewrite Hg. unfold check_member. cbn -[Validators.check]. by rewrite Ho'.
  - destruct Hw as [Hw _]. inversion H as [? ? Hp| | | | |? ? Hk|? ? Hk|? ? ? Hi]; subst; [done| | |].
    + by destruct k.
    + by destruct k.
    + pose proof (IH Hw x path Hi) as Hx. cbn [Validators.check]. destruct x, k; done.
Qed.
End sound.
