(* ===== verification/ValidatorsMain.v ===== *)
(** The properties of validators. *)
From S2P Require Import Prelude Errors Value Wire Constraints Float32 Validators ValidatorsProps ValidatorsTyped.
Local Open Scope string_scope.
Local Open Scope list_scope.

(** ** Failures *)

Lemma reported_bind {A B} path (m : exc js_error A) (k : A -> exc js_error B) :
  reported path m -> (forall a, reported path (k a)) -> reported path (m ≫= k).
Proof. destruct m; cbn; auto. Qed.

Lemma append_assoc (a b c : string) : (a +:+ b) +:+ c = a +:+ b +:+ c.
Proof. induction a as [|x a IH]; [done|]. change (String x ((a +:+ b) +:+ c) = String x (a +:+ b +:+ c)). by rewrite IH. Qed.

Lemma reported_deeper {A} path suffix (m : exc js_error A) : reported (path +:+ suffix) m -> reported path m.
Proof.
  destruct m as [|e]; [done|]. intros [message ->]. exists (suffix +:+ message). by rewrite append_assoc.
Qed.

Lemma reported_throw_if path b message : reported path (throw_if b (ValidationError (path +:+ message))).
Proof. destruct b; [by eexists|done]. Qed.

Lemma reported_fail {A} path expected x : reported path (@fail A path expected x).
Proof. by eexists. Qed.

Lemma reported_each {A} path (f : A -> exc js_error unit) l : (forall x, reported path (f x)) -> reported path (exc_each f l).
Proof. intros Hf. induction l; [done|]. by apply reported_bind. Qed.

Lemma reported_when {A} path (c : option A) P m : (forall k, c = Some k -> decides path (P k) (m k)) -> reported path (when c m).
Proof. destruct c; [|done]. intros Hd. by destruct (Hd a eq_refl). Qed.

(** Encoding fails only on values the wire cannot carry. *)
Lemma toWire_throws v : forall e, toWire v = Throw e -> exists message, e = WireError message.
Proof.
  induction v as [| | |n| | | |items IH|fields IH|t] using value_nested_ind; intros e H; try discriminate H.
  - cbn in H. destruct (num_is_finite n); [done|]. injection H as <-. by eexists.
  - rewrite toWire_arr in H. apply exc_bind_throw in H as [H|(? & _ & H)]; [|done]. clear -IH H.
    induction IH as [|x items Hx _ IH]; [done|]. cbn [toWire_items] in H.
    apply exc_bind_throw in H as [H|(? & _ & H)].
    + destruct (is_undefined x); [done|]. by apply Hx.
    + apply exc_bind_throw in H as [H|(? & _ & H)]; [auto|done].
  - rewrite toWire_obj in H. apply exc_bind_throw in H as [H|(? & _ & H)]; [|done]. clear -IH H. revert H.
    generalize (@nil (string * value)). induction IH as [|p fields Hx _ IH]; intros out H; [done|].
    destruct p as [k x]. cbn [toWire_fields] in H. apply exc_bind_throw in H as [H|(? & _ & H)]; [by apply Hx|by apply IH in H].
  - injection H as <-. by eexists.
Qed.

Section reports.
Context (RegExp_valid : string -> bool) (RegExp_test : string -> string -> bool) (number_text : num -> string).
#[local] Abbreviation check := (check RegExp_valid RegExp_test number_text).

#[local] Abbreviation wf := (wf RegExp_valid).

Lemma reported_coordinates path items : forall i, reported path (normalize_coordinates items i path).
Proof.
  induction items as [|x items IH]; intros i; [done|]. cbn [normalize_coordinates].
  apply reported_bind; [|intros n; apply reported_bind; [|intros []; by apply reported_bind]].
  - destruct x; try (by eapply reported_deeper; eexists). destruct (num_is_finite n); [done|]. by eapply reported_deeper; eexists.
  - eapply reported_deeper. apply reported_throw_if.
Qed.

Lemma reported_i64 x path expected : reported path (checkI64 x path expected).
Proof. destruct x; try by eexists. cbn. case_decide; [by eexists|done]. Qed.

Lemma reported_plain v x path : match v with Array _ _ | Object _ | Union _ _ | Modified _ _ => False | _ => True end -> wf v ->
  reported path (check v x path).
Proof.
  intros Hv Hw. destruct v; try done; cbn [Validators.check ValidatorsProps.wf] in *;
    unfold primaryKey_check, string_check, boundedNumber_check, bigint_check, identity_check, file_check, fileGrant_check,
      boolean_check, bytes_check, scheduleAt_check, enum_check, literal_check, tag_check, jsonb_check.
  - by destruct x; try eexists.
  - apply reported_bind; [by destruct x; try eexists|]. intros s. apply reported_bind; [|done].
    apply (reported_when _ _ (fun c => string_fits RegExp_test c s)). intros k ->. apply decides_string, Hw.
  - apply reported_bind; [unfold checkInt; by destruct x; try case_match; try eexists|]. intros s. apply reported_bind; [|done].
    apply (reported_when _ _ (fun c => within c s)). intros k ->. by apply decides_number.
  - apply reported_bind; [unfold checkFloat; by destruct x; try case_match; try eexists|]. intros s. apply reported_bind; [|done].
    apply (reported_when _ _ (fun c => within c s)). intros k ->. by apply decides_number.
  - apply reported_bind; [apply reported_i64|]. intros s. apply reported_bind; [|done].
    apply (reported_when _ _ (fun c => within_Z c s)). intros k ->. apply decides_bigint.
  - apply reported_bind; [apply reported_i64|done].
  - apply reported_bind; [apply reported_i64|done].
  - apply reported_bind; [apply reported_i64|done].
  - by destruct x; try eexists.
  - by destruct x; try eexists.
  - unfold normalizeVector. destruct x; try by eexists. case_decide; [|by eexists].
    apply reported_bind; [apply reported_coordinates|done].
  - case_match; [done|]. by eexists.
  - destruct x; try by eexists. case_decide; [done|by eexists].
  - case_match; [done|]. by eexists.
  - by destruct x; try eexists.
  - destruct x; try (by eexists); (destruct (toWire _) as [w|e] eqn:E; [done|]); apply toWire_throws in E as [message ->]; by eexists.
Qed.

Lemma reported_check v : wf v -> forall x path, reported path (check v x path).
Proof.
  induction v as [v Hv|element c IH|shape IH|name members IH|k inner IH] using validator_nested_ind; intros Hw x path.
  - by apply reported_plain.
  - destruct Hw as [Hw Hc]. destruct x; try by eexists. rewrite check_array. apply reported_bind.
    { apply (reported_when _ _ (fun c => within c (num_of_Z (Z.of_nat (length items))))). intros k ->. by apply decides_length. }
    intros _. apply reported_bind; [|done]. generalize 0%nat.
    induction items as [|x items IHi]; intros i; [done|]. cbn. apply reported_bind; [by eapply reported_deeper, IH|].
    intros y. apply reported_bind; [apply IHi|done].
  - destruct Hw as (_ & _ & Hw). apply (foldr_forall (fun p => wf p.2)) in Hw. destruct x; try by eexists. rewrite check_object.
    apply reported_bind; [apply reported_each; intros; apply reported_throw_if|]. intros _. apply reported_bind; [|done].
    generalize (@nil (string * value)) as out. induction shape as [|[key f] shape IHs]; intros out; [done|]. cbn [check_fields].
    apply Forall_cons in Hw as [Hwf Hw], IH as [IHf IH]. case_match; [by apply IHs|].
    apply reported_bind; [by eapply reported_deeper, IHf|]. intros y. by apply IHs.
  - destruct Hw as (_ & _ & _ & Hw). apply (foldr_forall (fun p => wf p.2)) in Hw. rewrite check_union.
    assert (Hu : forall got, reported path (@unknown_variant value members path got)) by (intros; by eexists).
    assert (Hm : forall tag input member, jmap_get tag members = Some member ->
      reported path (check_member RegExp_valid RegExp_test number_text tag path input member)).
    { intros tag input member Hg. unfold check_member. apply reported_bind; [apply reported_each; intros; apply reported_throw_if|].
      intros _. case_match; [done|]. apply reported_bind; [|done]. eapply reported_deeper.
      apply (member_wf _ (fun v => wf v -> forall x path, reported path (check v x path)) _ _ IH Hg (member_wf _ _ _ _ Hw Hg)). }
    destruct x; try (by eexists); cbn zeta; (destruct (field "tag" _) eqn:E; try apply Hu);
      (destruct (jmap_get _ members) eqn:Eg; [by apply Hm|apply Hu]).
  - destruct Hw as [Hw _]. cbn [Validators.check]. destruct x, k; try done; by apply IH.
Qed.
End reports.

(** ** Properties *)

(** C19: a validator is a decision procedure for its type, whatever the program
    built it with: what [check] returns is an inhabitant, and the inhabitants are
    exactly the values [check] returns unchanged, so checking twice is checking
    once. *)
Theorem validators_typed RegExp_valid RegExp_test number_text v (Hv : built RegExp_valid number_text v) :
  (forall x path y, check RegExp_valid RegExp_test number_text v x path = Ret y -> inhabits RegExp_test v y) /\
  (forall y path, check RegExp_valid RegExp_test number_text v y path = Ret y <-> inhabits RegExp_test v y).
Proof.
  apply built_wf in Hv. split.
  - intros x path y. by apply check_sound_lemma.
  - intros y path. split; [by apply check_sound_lemma|by apply check_complete_lemma].
Qed.

(** A bounded string, an optional bounded array, a union, in one shape. *)
Definition sample_text (n : num) : string := match num_integer n with Some z => Z_decimal z | None => "?" end.
Definition sample_names : Validator := String_ (Some (MkStringConstraints (MkBounds (Some (num_of_Z 1)) (Some (num_of_Z 3))) None)).
Definition sample_shape : Validator :=
  Object [("name", sample_names); ("tags", Modified optional (Array sample_names None));
          ("state", Union "State" [("on", Int None); ("off", Tag)])].

Lemma sample_shape_built : built (fun _ => true) sample_text sample_shape.
Proof.
  assert (Hn : built (fun _ => true) sample_text sample_names).
  { apply (built_bound _ _ max_side (VNum (num_of_Z 3)) (String_ (Some (MkStringConstraints (MkBounds (Some (num_of_Z 1)) None) None)))).
    - apply (built_bound _ _ min_side (VNum (num_of_Z 1)) (String_ None)); [apply built_plain; set_solver|by vm_compute].
    - by vm_compute. }
  apply built_object.
  - vm_compute. repeat constructor; set_solver.
  - repeat constructor.
  - intros p Hp. repeat (apply elem_of_cons in Hp as [->|Hp]); [done|..|by apply not_elem_of_nil in Hp].
    + apply (built_modified _ _ (Array sample_names None) optional); [by apply built_array|done].
    + apply (built_union _ _ "State" [("on", Int None); ("off", Tag)]); [vm_compute; repeat constructor; set_solver|repeat constructor| |done].
      intros p' Hp'. repeat (apply elem_of_cons in Hp' as [->|Hp']; [apply built_plain; set_solver|]). by apply not_elem_of_nil in Hp'.
Qed.

Definition sample_input : value :=
  VObj [("state", VObj [("tag", VStr "off")]); ("extra", VUndefined); ("name", VStr "ada")].
Definition sample_output : value := VObj [("name", VStr "ada"); ("state", VObj [("tag", VStr "off"); ("value", VNull)])].

Lemma validators_typed_witness :
  check (fun _ => true) (fun _ _ => true) sample_text sample_shape sample_input "args" = Ret sample_output /\
  inhabits (fun _ _ => true) sample_shape sample_output.
Proof.
  assert (H : check (fun _ => true) (fun _ _ => true) sample_text sample_shape sample_input "args" = Ret sample_output) by (vm_compute; reflexivity).
  split; [exact H|]. destruct (validators_typed (fun _ => true) (fun _ _ => true) sample_text sample_shape sample_shape_built) as [Hs _].
  exact (Hs _ _ _ H).
Defined.

(** a validator fails only with a [ValidationError] whose message begins
    with the path it was given; nothing else escapes a check, not even an error
    of the wire encoder. *)
Theorem failures_name_path RegExp_valid RegExp_test number_text v x path e
    (Hv : built RegExp_valid number_text v) (He : check RegExp_valid RegExp_test number_text v x path = Throw e) :
  exists message, e = ValidationError (path +:+ message).
Proof.
  apply built_wf in Hv. pose proof (reported_check RegExp_valid RegExp_test number_text v Hv x path) as Hr. by rewrite He in Hr.
Qed.

Lemma failures_name_path_witness :
  exists message, ValidationError "args.name: expected string, got undefined" = ValidationError ("args" +:+ message).
Proof.
  apply (failures_name_path (fun _ => true) (fun _ _ => true) sample_text sample_shape (VObj []) "args" _ sample_shape_built).
  vm_compute. reflexivity.
Defined.
