(* ===== verification/Descriptors.v ===== *)
(** Structural validation against a stored descriptor:
    [server/src/schema/descriptor-kinds.ts], the mirror of the validators that
    migrations and constraint probes use. *)
From S2P Require Import Prelude Errors Value Wire Constraints Float32 Validators.
Local Open Scope string_scope.
Local Open Scope list_scope.

(** [desc\["k"\] === "optional" || desc\["k"\] === "nullish"] *)
Definition descriptor_omissible (d : Descriptor) : bool :=
  match d with DModified optional _ | DModified nullish _ => true | _ => false end.

Section check.
Context (RegExp_valid : string -> bool) (RegExp_test : string -> string -> bool) (number_text : num -> string).

(** [expect(ok, what)] *)
Definition expect (ok : bool) (path what : string) (x : value) : exc js_error unit :=
  if ok then Ret tt else fail path what x.

Definition guard (ok : value -> bool) (what : string) (x : value) (path : string) : exc js_error value :=
  _ ← expect (ok x) path what x; Ret x.

Definition is_big (x : value) : bool := match x with VBig _ => true | _ => false end.
Definition is_str (x : value) : bool := match x with VStr _ => true | _ => false end.
Definition is_bool (x : value) : bool := match x with VBool _ => true | _ => false end.
Definition is_bytes (x : value) : bool := match x with VBytes _ => true | _ => false end.
Definition is_arr (x : value) : bool := match x with VArr _ => true | _ => false end.

Definition present (c : ConstraintFields) : bool := negb (is_undefined (min c)) || negb (is_undefined (max c)).

Definition checkFiniteNumber : Check := guard isFinite "finite number".

Definition descriptor_checkI64 (x : value) (path : string) : exc js_error Z :=
  match x with
  | VBig z => if decide (z < I64_MIN \/ I64_MAX < z)%Z then invalid path "bigint out of 64-bit range" else Ret z
  | _ => fail path "bigint" x
  end.

Definition string_descriptor (c : ConstraintFields) (x : value) (path : string) : exc js_error value :=
  match x with
  | VStr s =>
      _ ← (if present c || negb (is_undefined (regex c))
           then checkStringConstraints RegExp_valid RegExp_test number_text c s path None else Ret tt);
      Ret x
  | _ => fail path "string" x
  end.

Definition int_descriptor (c : ConstraintFields) (x : value) (path : string) : exc js_error value :=
  _ ← expect (isSafeInteger x) path "safe integer" x;
  match x with
  | VNum n => _ ← (if present c then checkNumberConstraints number_text c n path else Ret tt); Ret x
  | _ => Ret x
  end.

Definition float_descriptor (c : ConstraintFields) (x : value) (path : string) : exc js_error value :=
  _ ← expect (isFinite x) path "finite number" x;
  match x with
  | VNum n => _ ← (if present c then checkNumberConstraints number_text c n path else Ret tt); Ret x
  | _ => Ret x
  end.

Definition bigint_descriptor (c : ConstraintFields) (x : value) (path : string) : exc js_error value :=
  z ← descriptor_checkI64 x path;
  _ ← (if present c then checkBigintConstraints c z path None else Ret tt);
  Ret (VBig z).

Definition i64_descriptor (x : value) (path : string) : exc js_error value :=
  z ← descriptor_checkI64 x path; Ret (VBig z).

Definition enum_descriptor (variants : list string) (x : value) (path : string) : exc js_error value :=
  guard (fun x => match x with VStr s => bool_decide (s ∈ variants) | _ => false end) ("one of " +:+ alternatives variants) x path.

(** [decode(JSON.stringify(v))]; the fuel is the depth of the value. *)
Definition decoded (v : value) : exc js_error value := fromWire (depth v) v.

Definition literal_descriptor (v x : value) (path : string) : exc js_error value :=
  lit ← decoded v;
  if strict_equal x lit then Ret x
  else invalid path ("expected literal " +:+ describe lit +:+ ", got " +:+ describe x).

Definition tag_descriptor (x : value) (path : string) : exc js_error value :=
  _ ← expect (match x with VNull | VUndefined => true | _ => false end) path "null (payload-less variant)" x; Ret VNull.

Definition array_descriptor (el : Check) (c : ConstraintFields) (x : value) (path : string) : exc js_error value :=
  match x with
  | VArr items =>
      _ ← (if present c then checkArrayConstraints number_text c (length items) path else Ret tt);
      out ← map_items el path items 0; Ret (VArr out)
  | _ => fail path "array" x
  end.

(** What an object inherits. A property read without [Object.hasOwn] goes on to
    [Object.prototype], whose properties are functions, and [__proto__], which is
    [Object.prototype] itself: an object without enumerable properties. *)
Definition prototype_names : list string :=
  ["__proto__"; "constructor"; "toString"; "toLocaleString"; "valueOf"; "hasOwnProperty"; "isPrototypeOf"; "propertyIsEnumerable";
   "__defineGetter__"; "__defineSetter__"; "__lookupGetter__"; "__lookupSetter__"].

Definition inherited (key : string) : value :=
  if decide (key = "__proto__") then VObj []
  else if decide (key ∈ prototype_names) then VOther "function" else VUndefined.

(** [input\[key\]] *)
Definition property (key : string) (input : list (string * value)) : value := default (inherited key) (jmap_get key input).

Fixpoint object_fields (input : list (string * value)) (path : string) (fields : list CompiledShapeField)
    (out : list (string * value)) : exc js_error (list (string * value)) :=
  match fields with
  | [] => Ret out
  | f :: fields =>
      if negb (own input (key f)) && field_omissible f then object_fields input path fields out
      else
        y ← field_check f (property (key f) input) (path +:+ "." +:+ key f);
        object_fields input path fields (obj_set out (key f) y)
  end.

Definition object_descriptor (shape : list CompiledShapeField) (x : value) (path : string) : exc js_error value :=
  match x with
  | VObj input =>
      _ ← exc_each (fun p => throw_if (negb (bool_decide (p.1 ∈ key <$> shape)) && negb (is_undefined p.2))
            (unknown_field path p.1 EmptyString)) input;
      out ← object_fields input path shape []; Ret (VObj out)
  | _ => fail path "object" x
  end.

Definition union_descriptor (members : list CompiledShapeField) (x : value) (path : string) : exc js_error value :=
  match x with
  | VObj _ | VBytes _ =>
      let input := default [] (own_fields x) in
      let unknown_variant := Throw (ValidationError (path +:+ ".tag: expected one of " +:+ alternatives (key <$> members))) in
      match field "tag" input with
      | VStr tag =>
          match member_named members tag with
          | None => unknown_variant
          | Some member =>
              _ ← exc_each (fun p => throw_if (negb (bool_decide (p.1 = "tag")) && negb (bool_decide (p.1 = "value")) && negb (is_undefined p.2))
                    (unknown_field path p.1 " on union value")) input;
              if negb (own input "value") && field_omissible member then Ret (VObj [("tag", VStr tag)])
              else payload ← field_check member (field "value" input) (path +:+ ".value");
                   Ret (VObj [("tag", VStr tag); ("value", payload)])
          end
      | _ => unknown_variant
      end
  | _ => fail path "{ tag, value }" x
  end.

Definition jsonb_descriptor (x : value) (path : string) : exc js_error value :=
  match x with
  | VUndefined => invalid path "expected JSON value, got undefined"
  | _ =>
      match toWire x with
      | Ret _ => Ret x
      | Throw (WireError message) => invalid path ("not wire-encodable: " +:+ message)
      | Throw e => Throw e
      end
  end.

Definition modified_descriptor (k : Modifier) (inner : Check) (x : value) (path : string) : exc js_error value :=
  match k, x with
  | nullable, VNull | nullish, VNull => Ret VNull
  | optional, VUndefined | nullish, VUndefined => Ret VUndefined
  | _, _ => inner x path
  end.

Fixpoint checkDescriptor (desc : Descriptor) : Check :=
  match desc with
  | DPk => guard is_big "bigint (primary key)"
  | DString c => string_descriptor c
  | DInt c => int_descriptor c
  | DFloat c => float_descriptor c
  | DScheduleAt => checkFiniteNumber
  | DBigint c => bigint_descriptor c
  | DIdentity | DFile | DFileGrant => i64_descriptor
  | DBoolean => guard is_bool "boolean"
  | DBytes => guard is_bytes "Uint8Array"
  | DVector size => fun x path => normalizeVector x size path
  | DEnum name variants => enum_descriptor variants
  | DLiteral v => literal_descriptor v
  | DTag => tag_descriptor
  | DArray el c => array_descriptor (checkDescriptor el) c
  | DObject shape => object_descriptor (map (fun p => MkField p.1 (checkDescriptor p.2) (descriptor_omissible p.2)) shape)
  | DUnion name members => union_descriptor (map (fun p => MkField p.1 (checkDescriptor p.2) (descriptor_omissible p.2)) members)
  | DJsonb => jsonb_descriptor
  | DModified k inner => modified_descriptor k (checkDescriptor inner)
  | DUnknown k => fun _ path =>
      Throw (ValidationError (path +:+ ": unsupported descriptor kind " +:+ String (byte_ascii 34) k +:+ String (byte_ascii 34) EmptyString))
  end.
End check.
