(* ===== verification/DescriptorsProps.v ===== *)
(** The descriptor of a validator accepts what the validator accepts. *)
From Stdlib Require Import DecimalString DecimalFacts DecimalPos DecimalN.
From S2P Require Import Prelude Errors Value Wire Constraints Float32 Validators ValidatorsProps ValidatorsTyped ValidatorsMain Descriptors.
Local Open Scope string_scope.
Local Open Scope list_scope.

(** ** The decimals of a descriptor *)

Lemma uint_all_digits u : all_digits (NilEmpty.string_of_uint u) = true.
Proof. unfold all_digits. induction u; [done|..]; cbn [NilEmpty.string_of_uint chars forallb]; by rewrite IHu. Qed.

Lemma pos_uint_head p : match Pos.to_uint p with Decimal.Nil | Decimal.D0 _ => False | _ => True end.
Proof.
  pose proof (DecimalPos.Unsigned.of_to p) as Hof. pose proof (DecimalPos.Unsigned.to_of (Pos.to_uint p)) as Hto.
  rewrite Hof in Hto. cbn [N.to_uint] in Hto. destruct (Pos.to_uint p) as [|u|u|u|u|u|u|u|u|u|u]; try exact I; [done|].
  unfold Decimal.unorm in Hto. destruct (Decimal.nzhead (Decimal.D0 u)) eqn:E; try congruence.
  - injection Hto as ->. done.
  - by apply nzhead_nonzero in E.
Qed.

Lemma DECIMAL_decimal z : DECIMAL (Z_decimal z) = true.
Proof.
  unfold Z_decimal. destruct z as [|p|p]; [done|..]; cbn [Z.to_int NilZero.string_of_int];
    pose proof (pos_uint_head p) as Hp; destruct (Pos.to_uint p); try done; cbn; apply uint_all_digits.
Qed.

Lemma bigintField_wf b side path r : bigints_wf b ->
  bigintField (MkConstraints (bigint_value (low b)) (bigint_value (high b)) r) side path =
    Ret (match side with min_side => low b | max_side => high b end).
Proof.
  intros [[Hl Hh] _]. unfold bigintField. destruct side; cbn [slot min max].
  - destruct (low b) as [z|]; [|done]. cbn [bigint_value]. rewrite DECIMAL_decimal, BigInt_decimal. cbn [mbind exc_bind].
    specialize (Hl z eq_refl). by rewrite decide_False by lia.
  - destruct (high b) as [z|]; [|done]. cbn [bigint_value]. rewrite DECIMAL_decimal, BigInt_decimal. cbn [mbind exc_bind].
    specialize (Hh z eq_refl). by rewrite decide_False by lia.
Qed.

Section agree.
Context (RegExp_valid : string -> bool) (RegExp_test : string -> string -> bool) (number_text : num -> string).
#[local] Abbreviation wf := (wf RegExp_valid).

(** ** Constraints, from a descriptor *)

Lemma decides_string_descriptor c s path : if_some (string_wf RegExp_valid) c ->
  decides path (if_some (fun c => string_fits RegExp_test c s) c)
    (if present (string_fields c) || negb (is_undefined (regex (string_fields c)))
     then checkStringConstraints RegExp_valid RegExp_test number_text (string_fields c) s path None else Ret tt).
Proof.
  intros Hw. destruct c as [c|]; [|by split]. destruct Hw as [Hl Hp].
  pose proof (decides_string RegExp_valid RegExp_test number_text c s path Hl) as Hd.
  destruct (_ || _) eqn:E.
  - assert (Hs : checkStringConstraints RegExp_valid RegExp_test number_text (string_fields (Some c)) s path None =
      checkStringConstraints RegExp_valid RegExp_test number_text (string_fields (Some c)) s path (pattern c)); [|by rewrite Hs].
    unfold checkStringConstraints, descriptorRegex, string_fields. cbn [regex]. destruct (pattern c) as [source|]; [|done].
    cbn [if_some] in Hp. by rewrite Hp.
  - destruct c as [[[l|] [h|]] [r|]]; cbn in E; try discriminate E. split; [|done]. split; [|done]. intros _.
    split; [by split|]. done.
Qed.

Lemma decides_number_descriptor c n path : if_some numbers_wf c ->
  decides path (if_some (fun c => within c n) c)
    (if present (number_fields c) then checkNumberConstraints number_text (number_fields c) n path else Ret tt).
Proof.
  intros Hw. destruct c as [c|]; [|by split]. assert (Hd : decides path (within c n) (checkNumberConstraints number_text (number_fields (Some c)) n path)) by by apply decides_number.
  destruct (present _) eqn:E; [exact Hd|]. destruct c as [[l|] [h|]]; cbn in E; try discriminate E. by split.
Qed.

Lemma decides_bigint_descriptor c z path : if_some bigints_wf c ->
  decides path (if_some (fun c => within_Z c z) c)
    (if present (bigint_fields c) then checkBigintConstraints (bigint_fields c) z path None else Ret tt).
Proof.
  intros Hw. destruct c as [c|]; [|by split]. pose proof (decides_bigint c z path) as Hd.
  destruct (present _) eqn:E.
  - assert (Hs : checkBigintConstraints (bigint_fields (Some c)) z path None = checkBigintConstraints (bigint_fields (Some c)) z path (Some c));
      [|by rewrite Hs].
    unfold checkBigintConstraints, parsedBigintBounds, bigint_fields. rewrite !bigintField_wf by done. cbn [mbind exc_bind]. by destruct c.
  - destruct c as [[l|] [h|]]; cbn in E; try discriminate E. by split.
Qed.

Lemma decides_length_descriptor c n path : if_some lengths_wf c ->
  decides path (if_some (fun c => within c (num_of_Z (Z.of_nat n))) c)
    (if present (number_fields c) then checkArrayConstraints number_text (number_fields c) n path else Ret tt).
Proof.
  intros Hw. destruct c as [c|]; [|by split]. assert (Hd : decides path (within c (num_of_Z (Z.of_nat n))) (checkArrayConstraints number_text (number_fields (Some c)) n path)) by by apply decides_length.
  destruct (present _) eqn:E; [exact Hd|]. destruct c as [[l|] [h|]]; cbn in E; try discriminate E. by split.
Qed.

(** ** Agreement *)

(** Both return, with the same value up to the sign of zeros, or both throw. *)
Definition agree {A} (R : A -> A -> Prop) (m m' : exc js_error A) : Prop :=
  match m, m' with Ret y, Ret y' => R y y' | Throw _, Throw _ => True | _, _ => False end.

Definition twin (y y' : value) : Prop := written y = written y'.

Lemma agree_bind {A B} R (Q : B -> B -> Prop) (m m' : exc js_error A) k k' :
  agree R m m' -> (forall a a', R a a' -> agree Q (k a) (k' a')) -> agree Q (m ≫= k) (m' ≫= k').
Proof. destruct m, m'; cbn; try done. auto. Qed.

Lemma agree_decides P path path' (m m' : exc js_error unit) : decides path P m -> decides path' P m' -> agree eq m m'.
Proof.
  intros [Hm _] [Hm' _]. destruct m as [[]|e], m' as [[]|e']; cbn; try done.
  - assert (H : P) by by apply Hm. by apply Hm' in H.
  - assert (H : P) by by apply Hm'. by apply Hm in H.
Qed.

Lemma agree_then P path path' m m' {A} (R : A -> A -> Prop) y y' :
  decides path P m -> decides path' P m' -> R y y' -> agree R (m ≫= fun _ => Ret y) (m' ≫= fun _ => Ret y').
Proof. intros Hm Hm' Hy. eapply agree_bind; [by eapply agree_decides|]. done. Qed.
(** ** Literals *)

Lemma num_compare_eq n m : num_compare n m = Some Eq -> norm (VNum n) = norm (VNum m).
Proof.
  destruct n as [q| |b|], m as [q'| |b'|]; cbn; try discriminate; try done;
    try (by (intros [= E]; apply Qceq_alt in E; subst));
    repeat match goal with b : bool |- _ => destruct b end; done.
Qed.

Lemma strict_equal_twin x y : is_literal y = true -> strict_equal x y = true -> twin x y.
Proof.
  unfold twin. destruct y; try done; destruct x; try done; intros _ H; cbn in H; try (apply bool_decide_eq_true in H; by subst).
  unfold num_eq in H. apply num_compare_eq. by destruct (num_compare _ _) as [[]|].
Qed.

Lemma strict_equal_norm x y : strict_equal x (norm y) = strict_equal x y.
Proof. by destruct y as [| | |[]| | | | | |]. Qed.

Lemma decoded_literal lit w : is_literal lit = true -> toWire lit = Ret w -> decoded (written w) = Ret (norm lit).
Proof.
  destruct lit; try done; intros _ H; cbn in H.
  - by injection H as <-.
  - destruct (num_is_finite n); [|done]. injection H as <-. by destruct n.
  - by injection H as <-.
  - injection H as <-. change (written _) with (escape "b" (VStr (Z_decimal z))). unfold decoded.
    change (depth (escape "b" (VStr (Z_decimal z)))) with (S (depth (VStr (Z_decimal z)))) || idtac.
    change (fromWire _ _) with (z' ← BigInt (VStr (Z_decimal z)); Ret (VBig z') : exc js_error value).
    by rewrite BigInt_decimal.
Qed.

(** ** The descriptor of a validator *)

Definition described (p : string * Validator) (q : string * Descriptor) : Prop := p.1 = q.1 /\ descriptor p.2 = Ret q.2.

Lemma descriptor_each (l : list (string * Validator)) : forall ds,
  (fix go (l : list (string * Validator)) : exc js_error (list (string * Descriptor)) :=
    match l with
    | [] => Ret []
    | (key, f) :: l => d ← descriptor f; ds ← go l; Ret ((key, d) :: ds)
    end) l = Ret ds -> Forall2 described l ds.
Proof.
  induction l as [|[k f] l IH]; intros ds H; [injection H as <-; constructor|]. exc_inv. subst ds.
  constructor; [by split|auto].
Qed.

Lemma descriptor_omits v d : descriptor v = Ret d -> descriptor_omissible d = omissible v.
Proof. destruct v; cbn [descriptor]; intros H; exc_inv; subst; done. Qed.

(** No object shape of a validator declares the name of an inherited property. *)
Fixpoint own_names (v : Validator) : Prop :=
  match v with
  | Array element _ => own_names element
  | Object shape => Forall (fun k => k ∉ prototype_names) (shape.*1) /\ foldr (fun p P => own_names p.2 /\ P) True shape
  | Union _ members => foldr (fun p P => own_names p.2 /\ P) True members
  | Modified _ inner => own_names inner
  | _ => True
  end.

Lemma property_field key input : key ∉ prototype_names -> property key input = field key input.
Proof.
  intros Hk. unfold property, inherited, field. destruct (jmap_get key input); [done|]. cbn. rewrite decide_False by (intros ->; apply Hk; left).
  by rewrite decide_False.
Qed.

#[local] Abbreviation check := (check RegExp_valid RegExp_test number_text).
#[local] Abbreviation checkDescriptor := (checkDescriptor RegExp_valid RegExp_test number_text).
#[local] Abbreviation compiled := (map (fun p => MkField p.1 (check p.2) (omissible p.2))).
#[local] Abbreviation compiled' := (map (fun p => MkField p.1 (checkDescriptor p.2) (descriptor_omissible p.2))).

Definition agreeing (v : Validator) : Prop :=
  wf v -> own_names v -> forall d, descriptor v = Ret d -> forall x path, agree twin (check v x path) (checkDescriptor d x path).

Lemma agree_same {A} (R : A -> A -> Prop) m : (forall y, R y y) -> agree R m m.
Proof. intros Hr. destruct m; cbn; auto. Qed.

Lemma agree_i64 x path expected : agree twin (z ← checkI64 x path expected; Ret (VBig z)) (i64_descriptor x path).
Proof. destruct x; try done. cbn. by case_decide. Qed.

Lemma agree_plain v : match v with Array _ _ | Object _ | Union _ _ | Modified _ _ => False | _ => True end -> agreeing v.
Proof.
  intros Hv Hw _ d Hd x path. destruct v; try done; cbn [descriptor] in Hd; try (injection Hd as <-);
    cbn [Validators.check Descriptors.checkDescriptor ValidatorsProps.wf] in *;
    unfold string_check, boundedNumber_check, bigint_check, identity_check, file_check, fileGrant_check.
  - by destruct x.
  - destruct x; try done. cbn [checkString mbind exc_bind]. unfold string_descriptor.
    eapply agree_then; [|by apply decides_string_descriptor|done].
    apply (decides_when constraints (fun c => string_fits RegExp_test c s)). destruct constraints; [|done]. apply decides_string, Hw.
  - destruct x; try done. unfold checkInt, int_descriptor, expect. destruct (isSafeInteger _); [|done]. cbn [mbind exc_bind].
    eapply agree_then; [|by apply decides_number_descriptor|done].
    apply (decides_when constraints (fun c => within c n)). destruct constraints; [|done]. by apply decides_number.
  - destruct x; try done. unfold checkFloat, float_descriptor, expect. destruct (isFinite _); [|done]. cbn [mbind exc_bind].
    eapply agree_then; [|by apply decides_number_descriptor|done].
    apply (decides_when constraints (fun c => within c n)). destruct constraints; [|done]. by apply decides_number.
  - destruct x; try done. unfold bigint_descriptor, checkI64, descriptor_checkI64. case_decide; [done|]. cbn [mbind exc_bind].
    eapply agree_then; [|by apply decides_bigint_descriptor|done].
    apply (decides_when constraints (fun c => within_Z c z)). destruct constraints; [|done]. apply decides_bigint.
  - apply agree_i64.
  - apply agree_i64.
  - apply agree_i64.
  - by destruct x.
  - by destruct x.
  - by apply agree_same.
  - unfold scheduleAt_check, checkFiniteNumber, guard, expect. by destruct (isFinite x).
  - unfold enum_check, enum_descriptor, guard, expect. destruct x; try done. case_decide; case_bool_decide; done.
  - exc_inv. subst d. unfold encoded_value in *. exc_inv. subst. cbn [Descriptors.checkDescriptor].
    unfold literal_check, literal_descriptor. erewrite decoded_literal by done. cbn [mbind exc_bind].
    rewrite strict_equal_norm. destruct (strict_equal x v) eqn:E; [|done]. symmetry. by apply strict_equal_twin.
  - by destruct x.
  - unfold jsonb_check, jsonb_descriptor. destruct x; try done; by destruct (toWire _) as [|[]].
Qed.

Lemma agree_items f g path : (forall x path, agree twin (f x path) (g x path)) -> forall items i,
  agree (fun l l' => map written l = map written l') (map_items f path items i) (map_items g path items i).
Proof.
  intros Hf. induction items as [|x items IH]; intros i; [done|]. cbn [map_items].
  eapply agree_bind; [apply Hf|]. intros y y' Hy. eapply agree_bind; [apply IH|]. intros l l' Hl. cbn. by rewrite Hy, Hl.
Qed.

(** Outputs with the same keys and twin values. *)
Definition twins (out out' : list (string * value)) : Prop :=
  out.*1 = out'.*1 /\ map (fun p => (p.1, written p.2)) out = map (fun p => (p.1, written p.2)) out'.

Lemma twins_fields (shape : list (string * Validator)) ds input path :
  Forall2 described shape ds -> Forall (fun p => agreeing p.2) shape -> Forall (fun p => wf p.2) shape ->
  Forall (fun p => own_names p.2) shape -> Forall (fun k => k ∉ prototype_names) (shape.*1) -> forall out out',
  keys_ok (out.*1 ++ shape.*1) -> twins out out' ->
  agree twins (shape_fields input path (compiled shape) out) (object_fields input path (compiled' ds) out').
Proof.
  induction 1 as [|[k f] [k' d] shape ds [Hk Hd] _ IH]; intros Ha Hw Hn Hp out out' Hok Ht; [done|].
  apply Forall_cons in Ha as [Hf Ha], Hw as [Hwf Hw], Hn as [Hnf Hn], Hp as [Hpk Hp]. cbn [fst snd] in *. subst k'.
  cbn [map shape_fields object_fields key field_check field_omissible fst snd]. rewrite (descriptor_omits f d Hd).
  cbn [fmap list_fmap fst] in Hok. case_match.
  - apply IH; [done..|by eapply keys_ok_drop|done].
  - rewrite property_field by done. eapply agree_bind; [by apply Hf|]. intros y y' Hy. destruct Ht as [Ht1 Ht2].
    destruct (keys_ok_set out k y _ Hok) as [-> Hok1].
    rewrite Ht1 in Hok. destruct (keys_ok_set out' k y' _ Hok) as [-> Hok2].
    apply IH; [done..|]. split; [rewrite !fmap_app; by f_equal|]. rewrite !map_app, Ht2. cbn. by rewrite Hy.
Qed.

Lemma described_keys (shape : list (string * Validator)) ds : Forall2 described shape ds -> ds.*1 = shape.*1.
Proof. induction 1 as [|p q shape ds [Hk _] _ IH]; [done|]. cbn. by rewrite IH, Hk. Qed.

Lemma compiled'_keys (l : list (string * Descriptor)) : key <$> compiled' l = l.*1.
Proof. induction l as [|p l IH]; [done|]. cbn. by rewrite IH. Qed.

Lemma described_named (shape : list (string * Validator)) ds tag : Forall2 described shape ds ->
  match member_named (compiled shape) tag, member_named (compiled' ds) tag with
  | None, None => True
  | Some m, Some m' => exists f d, (tag, f) ∈ shape /\ descriptor f = Ret d /\
      m = MkField tag (check f) (omissible f) /\ m' = MkField tag (checkDescriptor d) (descriptor_omissible d)
  | _, _ => False
  end.
Proof.
  induction 1 as [|[k f] [k' d] shape ds [Hk Hd] _ IH]; [done|]. cbn [fst snd] in *. subst k'. cbn.
  case_decide as Hkt; [subst; exists f, d; split; [apply list_elem_of_here|done]|].
  destruct (member_named _ tag), (member_named _ tag); try done. destruct IH as (f' & d' & Hin & ?).
  exists f', d'. split; [by apply list_elem_of_further|done].
Qed.

Lemma agree_shape shape ds x path : Forall2 described shape ds -> Forall (fun p => agreeing p.2) shape -> wf (Object shape) -> own_names (Object shape) ->
  agree twin (compileShape (compiled shape) x path) (object_descriptor (compiled' ds) x path).
Proof.
  intros Hds Ha (Hn & Ho & Hw) [Hp Hnames]. apply (foldr_forall (fun p => wf p.2)) in Hw.
  apply (foldr_forall (fun p => own_names p.2)) in Hnames. destruct x; try done.
  unfold compileShape, object_descriptor. rewrite compiled_keys, compiled'_keys, (described_keys _ _ Hds).
  eapply agree_bind; [apply agree_same; intros; exact eq_refl|]. intros _ _ _.
  eapply agree_bind; [by eapply twins_fields|]. intros l l' [_ Hl]. unfold twin. cbn. by rewrite Hl.
Qed.

Lemma agree_union name members ds x path : Forall2 described members ds -> Forall (fun p => agreeing p.2) members ->
  Forall (fun p => wf p.2) members -> Forall (fun p => own_names p.2) members ->
  agree twin (union_check name (compiled members) x path) (union_descriptor (compiled' ds) x path).
Proof.
  intros Hds Ha Hw Hn.
  assert (Hm : forall input tag, agree twin
    (match member_named (compiled members) tag with
     | None => Throw (ValidationError (path +:+ ".tag: expected one of " +:+ alternatives (key <$> compiled members) +:+ ", got " +:+ json_string tag))
     | Some member =>
         _ ← exc_each (fun p => throw_if (negb (bool_decide (p.1 = "tag")) && negb (bool_decide (p.1 = "value")) && negb (is_undefined p.2))
               (unknown_field path p.1 " on union value")) input;
         if negb (own input "value") && field_omissible member then Ret (VObj [("tag", VStr tag)])
         else payload ← field_check member (field "value" input) (path +:+ ".value"); Ret (VObj [("tag", VStr tag); ("value", payload)])
     end)
    (match member_named (compiled' ds) tag with
     | None => Throw (ValidationError (path +:+ ".tag: expected one of " +:+ alternatives (key <$> compiled' ds)))
     | Some member =>
         _ ← exc_each (fun p => throw_if (negb (bool_decide (p.1 = "tag")) && negb (bool_decide (p.1 = "value")) && negb (is_undefined p.2))
               (unknown_field path p.1 " on union value")) input;
         if negb (own input "value") && field_omissible member then Ret (VObj [("tag", VStr tag)])
         else payload ← field_check member (field "value" input) (path +:+ ".value"); Ret (VObj [("tag", VStr tag); ("value", payload)])
     end)).
  { intros input tag. pose proof (described_named members ds tag Hds) as Hnm.
    destruct (member_named (compiled members) tag), (member_named (compiled' ds) tag); try done.
    destruct Hnm as (f & d & Hin & Hd & -> & ->). cbn [field_omissible field_check]. rewrite (descriptor_omits f d Hd).
    eapply agree_bind; [apply agree_same; intros; exact eq_refl|]. intros _ _ _. case_match; [done|].
    rewrite Forall_forall in Ha, Hw, Hn. eapply agree_bind; [by apply (Ha (tag, f) Hin (Hw (tag, f) Hin) (Hn (tag, f) Hin))|].
    intros y y' Hy. unfold twin. cbn. by rewrite Hy. }
  destruct x; try done; unfold union_check, union_descriptor; cbn zeta; (destruct (field "tag" _); try done; apply Hm).
Qed.

(** A validator and its descriptor agree on every value. *)
Lemma agree_check v : agreeing v.
Proof.
  induction v as [v Hv|element c IH|shape IH|name members IH|k inner IH] using validator_nested_ind;
    [by apply agree_plain|..]; intros Hw Hn d Hd x path; cbn [descriptor] in Hd; exc_inv; subst d;
    cbn [Validators.check Descriptors.checkDescriptor].
  - destruct Hw as [Hw Hc]. destruct x; try done. unfold array_check, array_descriptor.
    eapply agree_bind.
    + eapply agree_decides; [|by apply decides_length_descriptor].
      apply (decides_when c (fun c => within c (num_of_Z (Z.of_nat (length items))))). destruct c; [|done]. by apply decides_length.
    + intros _ _ _. eapply agree_bind; [apply agree_items; intros; by apply IH|]. intros l l' Hl. unfold twin. cbn. by rewrite Hl.
  - match goal with H : _ = Ret _ |- _ => apply descriptor_each in H; by apply agree_shape end.
  - destruct Hw as (_ & _ & _ & Hw). apply (foldr_forall (fun p => wf p.2)) in Hw.
    apply (foldr_forall (fun p => own_names p.2)) in Hn.
    match goal with H : _ = Ret _ |- _ => apply descriptor_each in H; by apply agree_union end.
  - destruct Hw as [Hw _]. unfold modified_check, modified_descriptor. destruct x, k; try done; by apply IH.
Qed.
End agree.

(** ** Properties *)

(** C25: the descriptor of a validator is its mirror: unless one of its object
    shapes declares the name of a property that every object inherits, on every
    value the check of migrations and the check of the validator either both
    fail, or both return, and then the same value up to the sign of a literal
    zero. *)
Theorem descriptor_agrees RegExp_valid RegExp_test number_text v d x path
    (Hv : built RegExp_valid number_text v) (Hn : own_names v) (Hd : descriptor v = Ret d) :
  match check RegExp_valid RegExp_test number_text v x path, checkDescriptor RegExp_valid RegExp_test number_text d x path with
  | Ret y, Ret y' => written y = written y'
  | Throw _, Throw _ => True
  | _, _ => False
  end.
Proof. apply built_wf in Hv. exact (agree_check RegExp_valid RegExp_test number_text v Hv Hn d Hd x path). Qed.

(** Without the condition they do not agree: the validator of a required field
    [__proto__] refuses an object without it, the check of its descriptor reads
    the object's prototype. *)
Lemma inherited_field_accepted :
  let v := Object [("__proto__", Object [])] in
  descriptor v = Ret (DObject [("__proto__", DObject [])]) /\
  (exists e, check (fun _ => true) (fun _ _ => true) (fun _ => EmptyString) v (VObj []) "row" = Throw e) /\
  exists y, checkDescriptor (fun _ => true) (fun _ _ => true) (fun _ => EmptyString) (DObject [("__proto__", DObject [])]) (VObj []) "row" = Ret y.
Proof. split; [vm_compute; reflexivity|]. split; eexists; vm_compute; reflexivity. Qed.

Definition sample_descriptor : Descriptor :=
  let name := DString (MkConstraints (VNum (num_of_Z 1)) (VNum (num_of_Z 3)) VUndefined) in
  DObject [("name", name); ("tags", DModified optional (DArray name no_constraints));
           ("state", DUnion "State" [("on", DInt no_constraints); ("off", DTag)])].

Lemma descriptor_agrees_witness :
  match check (fun _ => true) (fun _ _ => true) sample_text sample_shape sample_input "row",
        checkDescriptor (fun _ => true) (fun _ _ => true) sample_text sample_descriptor sample_input "row" with
  | Ret y, Ret y' => written y = written y'
  | Throw _, Throw _ => True
  | _, _ => False
  end.
Proof.
  apply (descriptor_agrees (fun _ => true) (fun _ _ => true) sample_text sample_shape sample_descriptor sample_input "row");
    [exact sample_shape_built| |vm_compute; reflexivity].
  split; [|repeat split]. repeat (apply List.Forall_cons; [apply (bool_decide_unpack _); vm_compute; exact I|]). apply List.Forall_nil.
Defined.
