(* ===== verification/SchemaDiff.v ===== *)
(** The structural diff of two schema snapshots and its classification:
    [server/src/schema/diff.ts] and [server/src/schema/classify.ts].

    The text [JSON.stringify] writes for a descriptor or a snapshot is the JSON
    value it spells; two texts are equal when these values are, property order
    included. A descriptor object has its properties in the order the validators
    write them. *)
From S2P Require Import Prelude Errors Value Wire StableEncode Constraints Validators Descriptors.
Local Open Scope string_scope.
Local Open Scope list_scope.

(** ** JSON text *)

Definition slot_fields (names : list (string * value)) : list (string * value) :=
  List.filter (fun p => negb (is_undefined p.2)) names.

Definition tagged (k : string) (fields : list (string * value)) : value := VObj (("k", VStr k) :: fields).

Fixpoint json (d : Descriptor) : value :=
  match d with
  | DPk => tagged "pk" []
  | DString c => tagged "string" (slot_fields [("min", min c); ("max", max c); ("regex", regex c)])
  | DInt c => tagged "int" (slot_fields [("min", min c); ("max", max c)])
  | DFloat c => tagged "float" (slot_fields [("min", min c); ("max", max c)])
  | DScheduleAt => tagged "scheduleAt" []
  | DBigint c => tagged "bigint" (slot_fields [("min", min c); ("max", max c)])
  | DIdentity => tagged "identity" []
  | DFile => tagged "file" []
  | DFileGrant => tagged "fileGrant" []
  | DBoolean => tagged "boolean" []
  | DBytes => tagged "bytes" []
  | DVector dimensions => tagged "vector" [("dimensions", VNum (num_of_Z dimensions))]
  | DEnum name variants => tagged "enum" [("name", VStr name); ("values", VArr (map VStr variants))]
  | DLiteral v => tagged "literal" [("v", v)]
  | DTag => tagged "tag" []
  | DArray el c => tagged "array" (("el", json el) :: slot_fields [("min", min c); ("max", max c)])
  | DObject shape => tagged "object" [("shape", VObj (map (fun p => (p.1, json p.2)) shape))]
  | DUnion name members => tagged "union" [("name", VStr name); ("members", VObj (map (fun p => (p.1, json p.2)) members))]
  | DJsonb => tagged "jsonb" []
  | DModified k inner => tagged (modifier_name k) [("inner", json inner)]
  | DUnknown k => tagged k []
  end.

(** [JSON.stringify(x) === JSON.stringify(y)] *)
Definition same_text (x y : value) : bool := bool_decide (written x = written y).

(** ** Descriptors *)

Definition unwrapDesc (d : Descriptor) : Descriptor * bool :=
  match d with DModified nullable inner => (inner, true) | _ => (d, false) end.

Inductive NamedKind : Type := enum_named | union_named.

Record Named : Type := MkNamed {
  named_kind : NamedKind; named_name : string; variants : list string; members : list (string * Descriptor) }.

Definition namedOf (d : Descriptor) : option Named :=
  match (unwrapDesc d).1 with
  | DEnum name values => Some (MkNamed enum_named name values [])
  | DUnion name ms => Some (MkNamed union_named name (ms.*1) ms)
  | _ => None
  end.

(** The constraint motions, and the answer that there is none. *)
Inductive ConstraintDirection : Type := same | loosen | tighten | incompatible.

#[export] Instance direction_eq_dec : EqDecision ConstraintDirection.
Proof. solve_decision. Defined.

Fixpoint structuralDescriptor (d : Descriptor) : value :=
  match d with
  | DString _ => tagged "string" []
  | DInt _ => tagged "int" []
  | DFloat _ => tagged "float" []
  | DBigint _ => tagged "bigint" []
  | DArray el _ => tagged "array" [("el", structuralDescriptor el)]
  | DObject shape => tagged "object" [("shape", VObj (map (fun p => (p.1, structuralDescriptor p.2)) shape))]
  | DUnion name ms =>
      tagged "union" [("name", VStr name); ("members", VObj (map (fun p => (p.1, structuralDescriptor p.2)) ms))]
  | DModified k inner => tagged (modifier_name k) [("inner", structuralDescriptor inner)]
  | _ => json d
  end.

Definition mergeMotion (current next : ConstraintDirection) : ConstraintDirection :=
  if decide (current = tighten \/ next = tighten) then tighten
  else if decide (current = loosen \/ next = loosen) then loosen
  else same.

(** [newValue > oldValue] and [oldValue === newValue], on what the slots hold. *)
Definition beyond (side : Side) (old new : value) : bool :=
  match old, new with
  | VNum o, VNum n => match side with min_side => num_lt o n | max_side => num_lt n o end
  | VBig o, VBig n => match side with min_side => bool_decide (o < n)%Z | max_side => bool_decide (n < o)%Z end
  | _, _ => false
  end.

Definition compareBound (before after : value) (side : Side) (bigint : bool) : exc js_error ConstraintDirection :=
  if strict_equal before after then Ret same
  else if is_undefined before then Ret tighten
  else if is_undefined after then Ret loosen
  else
    oldValue ← (if bigint then z ← BigInt before; Ret (VBig z) else Ret before);
    newValue ← (if bigint then z ← BigInt after; Ret (VBig z) else Ret after);
    Ret (if strict_equal oldValue newValue then same
         else if beyond side oldValue newValue then tighten else loosen).

(** The constraint slots of the five constrained kinds. *)
Definition constraint_slots (d : Descriptor) : ConstraintFields :=
  match d with DString c | DInt c | DFloat c | DBigint c | DArray _ c => c | _ => no_constraints end.

Definition localConstraintMotion (before after : Descriptor) : exc js_error ConstraintDirection :=
  let c := constraint_slots before in
  let c' := constraint_slots after in
  match before with
  | DString _ | DInt _ | DFloat _ | DBigint _ | DArray _ _ =>
      let bigint := match before with DBigint _ => true | _ => false end in
      low ← compareBound (min c) (min c') min_side bigint;
      high ← compareBound (max c) (max c') max_side bigint;
      let motion := mergeMotion low high in
      Ret (match before with
           | DString _ =>
               if strict_equal (regex c) (regex c') then motion
               else mergeMotion motion (if is_undefined (regex c') then loosen else tighten)
           | _ => motion
           end)
  | _ => Ret same
  end.

(** A part that the other descriptor does not have. *)
Definition missing {A} : exc js_error A := Throw (TypeError "Cannot read properties of undefined").

Fixpoint nestedConstraintMotion (before after : Descriptor) : exc js_error ConstraintDirection :=
  let each (new : list (string * Descriptor)) :=
    fix go (old : list (string * Descriptor)) (motion : ConstraintDirection) : exc js_error ConstraintDirection :=
      match old with
      | [] => Ret motion
      | (key, d) :: old =>
          match jmap_get key new with
          | Some d' => next ← nestedConstraintMotion d d'; go old (mergeMotion motion next)
          | None => missing
          end
      end in
  motion ← localConstraintMotion before after;
  match before, after with
  | DArray el _, DArray el' _ => next ← nestedConstraintMotion el el'; Ret (mergeMotion motion next)
  | DObject shape, DObject shape' => each shape' shape motion
  | DUnion _ ms, DUnion _ ms' => each ms' ms motion
  | DModified _ inner, DModified _ inner' => next ← nestedConstraintMotion inner inner'; Ret (mergeMotion motion next)
  | DArray _ _, _ | DObject _, _ | DUnion _ _, _ | DModified _ _, _ => missing
  | _, _ => Ret motion
  end.

Definition constraintDirection (before after : Descriptor) : exc js_error ConstraintDirection :=
  if same_text (structuralDescriptor before) (structuralDescriptor after) then nestedConstraintMotion before after
  else Ret incompatible.

(** ** Snapshots *)

Inductive TableKind : Type := table_kind | event_kind.
#[export] Instance table_kind_eq_dec : EqDecision TableKind.
Proof. solve_decision. Defined.

Record IndexSnapshot : Type := MkIndexSnapshot {
  index_name : string; index_columns : list string; unique : bool; algorithm : string }.

Record TableSnapshot : Type := MkTable {
  kind : TableKind; columns : list (string * Descriptor); indexes : list IndexSnapshot; fullText : list string }.

Definition SchemaSnapshot : Type := list (string * TableSnapshot).

Definition index_json (ix : IndexSnapshot) : value :=
  VObj [("name", VStr (index_name ix)); ("columns", VArr (map VStr (index_columns ix))); ("unique", VBool (unique ix)); ("algorithm", VStr (algorithm ix))].

Definition table_json (t : TableSnapshot) : value :=
  VObj [("kind", VStr (match kind t with table_kind => "table" | event_kind => "event" end));
        ("columns", VObj (map (fun p => (p.1, json p.2)) (columns t)));
        ("indexes", VArr (map index_json (indexes t))); ("fullText", VArr (map VStr (fullText t)))].

(** ** The diff *)

Inductive VariantOp : Type := variant_added | variant_removed | payload_changed.
Record VariantChange : Type := MkVariantChange { variant : string; variant_op : VariantOp }.

Inductive ColumnChange : Type :=
  | ColumnAdded (column : string) (is_nullable : bool)
  | ColumnDropped (column : string)
  | TypeChanged (column : string)
  | ConstraintsChanged (column : string) (direction : ConstraintDirection) (current target : Descriptor)
  | NullabilityChanged (column : string) (to_nullable : bool)
  | VariantsChanged (column typeName : string) (changes : list VariantChange).

Inductive ChangeOp : Type := added | dropped | changed.
Record IndexChange : Type := MkIndexChange { index_changed : string; index_op : ChangeOp; index_unique : bool }.
Record FullTextChange : Type := MkFullTextChange { text_column : string; text_added : bool }.

Inductive TableChange : Type :=
  | TableAdded (table : string) (k : TableKind)
  | TableDropped (table : string) (k : TableKind)
  | TableKindChanged (table : string) (from to : TableKind)
  | EventUpdated (table : string)
  | TableAltered (table : string) (cs : list ColumnChange) (ixs : list IndexChange) (texts : list FullTextChange).

(** The variants an enum or union column lost, changed or gained. *)
Definition removed_variant (old new : Named) (v : string) : list VariantChange :=
  if negb (bool_decide (v ∈ variants new)) then [MkVariantChange v variant_removed]
  else match named_kind old with
       | union_named =>
           match jmap_get v (members old), jmap_get v (members new) with
           | Some d, Some d' => if same_text (json d) (json d') then [] else [MkVariantChange v payload_changed]
           | None, None => []
           | _, _ => [MkVariantChange v payload_changed]
           end
       | enum_named => []
       end.

Definition diffVariants (oldDesc newDesc : Descriptor) : option (string * list VariantChange) :=
  match namedOf oldDesc, namedOf newDesc with
  | Some old, Some new =>
      let same_kind := match named_kind old, named_kind new with enum_named, enum_named | union_named, union_named => true | _, _ => false end in
      if negb same_kind || negb (bool_decide (named_name old = named_name new)) ||
         negb (bool_decide ((unwrapDesc oldDesc).2 = (unwrapDesc newDesc).2)) then None
      else Some (named_name new,
        mjoin (map (removed_variant old new) (variants old)) ++
        map (fun v => MkVariantChange v variant_added) (List.filter (fun v => negb (bool_decide (v ∈ variants old))) (variants new)))
  | _, _ => None
  end.

(** The change of one column of the new table. *)
Definition diff_column (oldColumns : list (string * Descriptor)) (column : string) (newDesc : Descriptor)
    : exc js_error (list ColumnChange) :=
  match jmap_get column oldColumns with
  | None => Ret [ColumnAdded column (unwrapDesc newDesc).2]
  | Some oldDesc =>
      if same_text (json oldDesc) (json newDesc) then Ret []
      else
        direction ← constraintDirection oldDesc newDesc;
        match direction with
        | loosen | tighten => Ret [ConstraintsChanged column direction oldDesc newDesc]
        | same => Ret []
        | incompatible =>
            match diffVariants oldDesc newDesc with
            | Some (typeName, changes) => Ret (match changes with [] => [] | _ => [VariantsChanged column typeName changes] end)
            | None =>
                if same_text (json (unwrapDesc oldDesc).1) (json (unwrapDesc newDesc).1)
                then Ret [NullabilityChanged column (unwrapDesc newDesc).2]
                else Ret [TypeChanged column]
            end
        end
  end.

Fixpoint diff_new_columns (oldColumns new : list (string * Descriptor)) : exc js_error (list ColumnChange) :=
  match new with
  | [] => Ret []
  | (column, d) :: new =>
      change ← diff_column oldColumns column d; rest ← diff_new_columns oldColumns new; Ret (change ++ rest)
  end.

Definition diffColumns (old new : TableSnapshot) : exc js_error (list ColumnChange) :=
  changes ← diff_new_columns (columns old) (columns new);
  Ret (changes ++ map ColumnDropped (List.filter (fun c => negb (own (columns new) c)) ((columns old).*1))).

(** [new Map(table.indexes.map(...))]: a later entry of a name replaces an earlier one. *)
Definition index_map (t : TableSnapshot) : list (string * IndexSnapshot) :=
  foldl (fun m ix => jmap_set (index_name ix) ix m) [] (indexes t).

Definition diff_index (old new : list (string * IndexSnapshot)) (name : string) : list IndexChange :=
  match jmap_get name old, jmap_get name new with
  | None, Some after => [MkIndexChange name added (unique after)]
  | Some before, None => [MkIndexChange name dropped (unique before)]
  | Some before, Some after =>
      if same_text (index_json before) (index_json after) then [] else [MkIndexChange name changed (unique after)]
  | None, None => []
  end.

(** The distinct elements, in the order they first appear. *)
Definition union_keys (l l' : list string) : list string := l ++ List.filter (fun k => negb (bool_decide (k ∈ l))) l'.

Definition diffIndexes (old new : TableSnapshot) : list IndexChange :=
  let oldIx := index_map old in
  let newIx := index_map new in
  mjoin (map (diff_index oldIx newIx) (sort_keys (union_keys (oldIx.*1) (newIx.*1)))).

Definition distinct (l : list string) : list string := foldl (fun seen k => if decide (k ∈ seen) then seen else seen ++ [k]) [] l.

Definition diffFullText (old new : TableSnapshot) : list FullTextChange :=
  let before := distinct (fullText old) in
  let after := distinct (fullText new) in
  map (fun c => MkFullTextChange c false) (sort_keys (List.filter (fun c => negb (bool_decide (c ∈ after))) before)) ++
  map (fun c => MkFullTextChange c true) (sort_keys (List.filter (fun c => negb (bool_decide (c ∈ before))) after)).

Definition diff_table (current target : SchemaSnapshot) (table : string) : exc js_error (list TableChange) :=
  match jmap_get table current, jmap_get table target with
  | None, Some new => Ret [TableAdded table (kind new)]
  | Some old, None => Ret [TableDropped table (kind old)]
  | Some old, Some new =>
      if negb (bool_decide (kind old = kind new)) then Ret [TableKindChanged table (kind old) (kind new)]
      else match kind old with
           | event_kind => Ret (if same_text (table_json old) (table_json new) then [] else [EventUpdated table])
           | table_kind =>
               cs ← diffColumns old new;
               let ixs := diffIndexes old new in
               let texts := diffFullText old new in
               Ret (match cs, ixs, texts with [], [], [] => [] | _, _, _ => [TableAltered table cs ixs texts] end)
           end
  | None, None => Ret []
  end.

Fixpoint diff_tables (current target : SchemaSnapshot) (tables : list string) : exc js_error (list TableChange) :=
  match tables with
  | [] => Ret []
  | table :: tables =>
      change ← diff_table current target table; rest ← diff_tables current target tables; Ret (change ++ rest)
  end.

Definition diffSnapshots (current target : SchemaSnapshot) : exc js_error (list TableChange) :=
  diff_tables current target (sort_keys (union_keys (current.*1) (target.*1))).
