(* ===== verification/SchemaClassify.v ===== *)
(** The classification of a schema diff: [server/src/schema/classify.ts]. *)
From S2P Require Import Prelude Errors Value Validators SchemaDiff.
Local Open Scope string_scope.
Local Open Scope list_scope.

Inductive SafeChange : Type :=
  | CreateTable (table : string)
  | AddEventTable (table : string)
  | DropEventTable (table : string)
  | UpdateEventTable (table : string)
  | EventToTable (table : string)
  | AddColumn (table column : string)
  | LoosenConstraints (table column : string)
  | RebuildTable (table : string)
  | DropIndex (table index : string)
  | CreateIndex (table index : string) (recreate : bool)
  | DropFullText (table column : string)
  | CreateFullText (table column : string).

Inductive OptimisticChange : Type :=
  | UniqueIndex (table index : string) (recreate viaRebuild : bool)
  | TightenConstraints (table column : string) (current target : Descriptor).

Inductive RefusalReason : Type :=
  | column_type_changed | column_made_required | required_column_added | column_dropped
  | variant_was_removed | variant_payload_changed | table_dropped | table_to_event
  | unique_index_duplicates | constraint_violations.

(** The number of rows is set by the data probes only. *)
Record SchemaRefusal : Type := MkRefusal {
  refused_table : string; refused_column : option string; refused_variant : option string;
  refused_index : option string; reason : RefusalReason; question : string }.

Record Classification : Type := MkClassification {
  safe : list SafeChange; optimistic : list OptimisticChange; refusals : list SchemaRefusal }.

Definition refusalSite (r : SchemaRefusal) : string :=
  match refused_column r, refused_index r with
  | Some suffix, _ | None, Some suffix => refused_table r +:+ "." +:+ suffix
  | None, None => refused_table r
  end.

Definition push_safe (s : SafeChange) (c : Classification) : Classification :=
  MkClassification (safe c ++ [s]) (optimistic c) (refusals c).
Definition push_optimistic (o : OptimisticChange) (c : Classification) : Classification :=
  MkClassification (safe c) (optimistic c ++ [o]) (refusals c).
Definition push_refusal (r : SchemaRefusal) (c : Classification) : Classification :=
  MkClassification (safe c) (optimistic c) (refusals c ++ [r]).

Definition refuse_table (table : string) (why : RefusalReason) (q : string) : SchemaRefusal :=
  MkRefusal table None None None why q.
Definition refuse_column (table column : string) (why : RefusalReason) (q : string) : SchemaRefusal :=
  MkRefusal table (Some column) None None why q.

Definition classify_variant (table column : string) (v : VariantChange) (c : Classification) : Classification :=
  match variant_op v with
  | variant_removed =>
      push_refusal (MkRefusal table (Some column) (Some (variant v)) None variant_was_removed
        ("variant '" +:+ variant v +:+ "' removed; existing rows may still hold it")) c
  | payload_changed =>
      push_refusal (MkRefusal table (Some column) (Some (variant v)) None variant_payload_changed
        ("variant '" +:+ variant v +:+ "' payload changed; existing rows may still hold the old shape")) c
  | variant_added => c
  end.

(** The columns of an altered table: the classification so far, the columns to
    add, and whether the table is rebuilt. *)
Record AlteredState : Type := MkAltered { sofar : Classification; adds : list SafeChange; rebuild : bool }.

Definition classify_column (table : string) (col : ColumnChange) (s : AlteredState) : AlteredState :=
  let with_c c := MkAltered c (adds s) (rebuild s) in
  match col with
  | ColumnAdded column is_nullable =>
      if is_nullable then MkAltered (sofar s) (adds s ++ [AddColumn table column]) (rebuild s)
      else with_c (push_refusal (refuse_column table column required_column_added "required column added; existing rows would have no value") (sofar s))
  | ColumnDropped column =>
      with_c (push_refusal (refuse_column table column column_dropped "column dropped; existing rows would lose data") (sofar s))
  | TypeChanged column =>
      with_c (push_refusal (refuse_column table column column_type_changed "type changed; existing rows would need converting") (sofar s))
  | ConstraintsChanged column direction current target =>
      match direction with
      | loosen => with_c (push_safe (LoosenConstraints table column) (sofar s))
      | _ => with_c (push_optimistic (TightenConstraints table column current target) (sofar s))
      end
  | NullabilityChanged column to_nullable =>
      if to_nullable then MkAltered (sofar s) (adds s) true
      else with_c (push_refusal (refuse_column table column column_made_required "made required; existing rows may hold null") (sofar s))
  | VariantsChanged column _ changes => with_c (foldl (fun c v => classify_variant table column v c) (sofar s) changes)
  end.

Definition drop_index (table : string) (c : Classification) (ix : IndexChange) : Classification :=
  match index_op ix with dropped => push_safe (DropIndex table (index_changed ix)) c | _ => c end.

Definition classify_text (table : string) (c : Classification) (t : FullTextChange) : Classification :=
  push_safe (if text_added t then CreateFullText table (text_column t) else DropFullText table (text_column t)) c.

Definition classify_index (table : string) (rebuilt : bool) (c : Classification) (ix : IndexChange) : Classification :=
  let recreate := match index_op ix with changed => true | _ => false end in
  match index_op ix with
  | dropped => c
  | _ =>
      if index_unique ix then push_optimistic (UniqueIndex table (index_changed ix) recreate rebuilt) c
      else if rebuilt then c else push_safe (CreateIndex table (index_changed ix) recreate) c
  end.

Definition classifyAltered (table : string) (cs : list ColumnChange) (ixs : list IndexChange) (texts : list FullTextChange)
    (c : Classification) : Classification :=
  let s := foldl (fun s col => classify_column table col s) (MkAltered c [] false) cs in
  let c :=
    if rebuild s then push_safe (RebuildTable table) (sofar s)
    else
      let c := foldl (fun c a => push_safe a c) (sofar s) (adds s) in
      let c := foldl (drop_index table) c ixs in
      foldl (classify_text table) c texts in
  foldl (classify_index table (rebuild s)) c ixs.

Definition classifyTable (change : TableChange) (c : Classification) : Classification :=
  match change with
  | TableAdded table table_kind => push_safe (CreateTable table) c
  | TableAdded table event_kind => push_safe (AddEventTable table) c
  | TableDropped table event_kind => push_safe (DropEventTable table) c
  | TableDropped table table_kind =>
      push_refusal (refuse_table table table_dropped "table dropped; existing rows would be lost") c
  | TableKindChanged table _ table_kind => push_safe (EventToTable table) c
  | TableKindChanged table _ event_kind =>
      push_refusal (refuse_table table table_to_event "changed to an event table; existing rows would be lost") c
  | EventUpdated table => push_safe (UpdateEventTable table) c
  | TableAltered table cs ixs texts => classifyAltered table cs ixs texts c
  end.

Definition classifySchemaDiff (diff : list TableChange) : Classification :=
  foldl (fun c change => classifyTable change c) (MkClassification [] [] []) diff.

(** ** A classification only grows *)

Record grows (c c' : Classification) : Prop := {
  grows_refusals r : r ∈ refusals c -> r ∈ refusals c';
  grows_optimistic o : o ∈ optimistic c -> o ∈ optimistic c';
}.

#[export] Instance grows_preorder : PreOrder grows.
Proof. split; [intros c; by split|intros c1 c2 c3 [] []; split; auto]. Qed.

Lemma grows_push_safe s c : grows c (push_safe s c).
Proof. by split. Qed.
Lemma grows_push_optimistic o c : grows c (push_optimistic o c).
Proof. split; [done|]. intros o' Ho. cbn. set_solver. Qed.
Lemma grows_push_refusal r c : grows c (push_refusal r c).
Proof. split; [|done]. intros r' Hr. cbn. set_solver. Qed.

Create HintDb grows.
#[export] Hint Resolve grows_push_safe grows_push_optimistic grows_push_refusal : grows.
#[export] Hint Extern 1 (grows ?c ?c) => reflexivity : grows.

(** Folding grows, past every element. *)
Lemma foldl_grows {A S} (view : S -> Classification) (f : S -> A -> S) l : (forall s a, grows (view s) (view (f s a))) ->
  forall s, grows (view s) (view (foldl f s l)).
Proof. intros Hf. induction l as [|a l IH]; intros s; [done|]. cbn. etrans; [apply Hf|apply IH]. Qed.

Lemma foldl_grows_at {A S} (view : S -> Classification) (f : S -> A -> S) l a s : (forall s a, grows (view s) (view (f s a))) -> a ∈ l ->
  exists s0, grows (view (f s0 a)) (view (foldl f s l)).
Proof.
  intros Hf Ha. apply list_elem_of_split in Ha as (l1 & l2 & ->). rewrite foldl_app. cbn. eexists. by apply foldl_grows.
Qed.

Lemma grows_variant table column v c : grows c (classify_variant table column v c).
Proof. unfold classify_variant. destruct (variant_op v); auto with grows. Qed.

Lemma grows_variants table column changes c : grows c (foldl (fun c v => classify_variant table column v c) c changes).
Proof. apply (foldl_grows id). intros. apply grows_variant. Qed.
#[export] Hint Resolve grows_variants : grows.

Lemma grows_column table col s : grows (sofar s) (sofar (classify_column table col s)).
Proof. destruct col as [? []|?|?|? [] ? ?|? []|? ? changes]; cbn [classify_column sofar]; auto with grows. Qed.

Lemma grows_drop_index table c ix : grows c (drop_index table c ix).
Proof. unfold drop_index. destruct (index_op ix); auto with grows. Qed.
Lemma grows_index table b c ix : grows c (classify_index table b c ix).
Proof. unfold classify_index. destruct (index_op ix), (index_unique ix), b; auto with grows. Qed.

(** The columns of an altered table are all in its classification. *)
Lemma grows_columns table cs ixs texts c :
  grows (sofar (foldl (fun s col => classify_column table col s) (MkAltered c [] false) cs)) (classifyAltered table cs ixs texts c).
Proof.
  unfold classifyAltered. set (s := foldl _ _ cs).
  etrans; [|apply (foldl_grows id); intros; apply grows_index]. cbn. destruct (rebuild s); [auto with grows|].
  etrans; [|apply (foldl_grows id); intros; apply grows_push_safe].
  etrans; [|apply (foldl_grows id); intros; apply grows_drop_index].
  apply (foldl_grows id (fun c a => push_safe a c)). intros. apply grows_push_safe.
Qed.

Lemma grows_table change c : grows c (classifyTable change c).
Proof.
  destruct change as [? []|? []|? ? []|?|? cs ixs texts]; cbn [classifyTable]; auto with grows.
  etrans; [|apply grows_columns]. change c with (sofar (MkAltered c [] false)) at 1. apply foldl_grows. intros. apply grows_column.
Qed.

Lemma classified change diff : change ∈ diff -> exists c, grows (classifyTable change c) (classifySchemaDiff diff).
Proof.
  intros H. apply (foldl_grows_at id (fun c change => classifyTable change c) diff change (MkClassification [] [] [])); [|done].
  intros. apply grows_table.
Qed.

Lemma classified_column table cs ixs texts diff col : TableAltered table cs ixs texts ∈ diff -> col ∈ cs ->
  exists s, grows (sofar (classify_column table col s)) (classifySchemaDiff diff).
Proof.
  intros Hd Hc. destruct (classified _ _ Hd) as [c Hg]. cbn [classifyTable] in Hg.
  destruct (foldl_grows_at sofar (fun s col => classify_column table col s) cs col (MkAltered c [] false)) as [s Hs];
    [intros; apply grows_column|done|]. exists s. etrans; [exact Hs|]. etrans; [apply grows_columns|exact Hg].
Qed.

(** A change that pushes a refusal is not in a diff without refusals. *)
Lemma refuted r c c' : refusals c' = [] -> grows (push_refusal r c) c' -> False.
Proof. intros Hr [Hg _]. specialize (Hg r). rewrite Hr in Hg. cbn in Hg. set_solver. Qed.
