(* ===== verification/SchemaSafety.v ===== *)
(** Loosening keeps accepted values: the soundness of [constraintDirection] for
    the check of descriptors. *)
From S2P Require Import Prelude Errors Value Wire StableEncode Constraints Float32 Validators ValidatorsProps ValidatorsTyped Descriptors SchemaDiff.
Local Open Scope string_scope.
Local Open Scope list_scope.

Fixpoint descriptor_nested_ind (P : Descriptor -> Prop)
  (Hplain : forall d, match d with DArray _ _ | DObject _ | DUnion _ _ | DModified _ _ => False | _ => True end -> P d)
  (Harr : forall el c, P el -> P (DArray el c))
  (Hobj : forall shape, Forall (fun p => P p.2) shape -> P (DObject shape))
  (Hun : forall name ms, Forall (fun p => P p.2) ms -> P (DUnion name ms))
  (Hmod : forall k inner, P inner -> P (DModified k inner)) (d : Descriptor) : P d :=
  let IH := descriptor_nested_ind P Hplain Harr Hobj Hun Hmod in
  let each := fix go l : Forall (fun p : string * Descriptor => P p.2) l :=
    match l with [] => List.Forall_nil _ | p :: l => List.Forall_cons _ _ _ (IH p.2) (go l) end in
  match d with
  | DArray el c => Harr el c (IH el)
  | DObject shape => Hobj shape (each shape)
  | DUnion name ms => Hun name ms (each ms)
  | DModified k inner => Hmod k inner (IH inner)
  | d => Hplain d I
  end.

Definition slot_num (v : value) : option num := match v with VNum n => Some n | _ => None end.

(** ** Finite numbers *)

Definition qval (n : num) : Qc := match n with NFin q => q | _ => 0%Qc end.

Lemma num_lt_finite n m : num_is_finite n = true -> num_is_finite m = true -> num_lt n m = true <-> (qval n < qval m)%Qc.
Proof.
  unfold num_lt. destruct n, m; try done; intros _ _; cbn [num_compare qval]; rewrite ?Qclt_alt; try (by case_match).
Qed.

Lemma num_eq_finite n m : num_is_finite n = true -> num_is_finite m = true -> num_eq n m = true -> qval n = qval m.
Proof.
  unfold num_eq. destruct n, m; try done; intros _ _; cbn [num_compare qval]; try (destruct (_ ?= _)%Qc eqn:E; try done; intros _; by apply Qceq_alt).
Qed.

Lemma safe_integer_finite n : is_Some (num_safe_integer n) -> num_is_finite n = true.
Proof. destruct n; try done; by intros [? ?]. Qed.

(** What a numeric slot of a descriptor holds. *)
Definition number_slot (v : value) : Prop := v = VUndefined \/ exists n, v = VNum n /\ num_is_finite n = true.

Lemma lengthField_slot c side path o : lengthField c side path = Ret o ->
  number_slot (slot side c) /\ forall path', lengthField c side path' = Ret (slot_num (slot side c)).
Proof.
  unfold lengthField. destruct (slot side c); try done; [intros [= <-]; split; [by left|done]|].
  destruct (num_safe_integer n) eqn:E; [|done]. case_decide; [done|]. intros _. split; [|done].
  right. exists n. split; [done|]. apply safe_integer_finite. by eexists.
Qed.

Lemma numberField_slot c side path o : numberField c side path = Ret o ->
  number_slot (slot side c) /\ forall path', numberField c side path' = Ret (slot_num (slot side c)).
Proof.
  unfold numberField. destruct (slot side c); try done; [intros [= <-]; split; [by left|done]|].
  destruct (num_is_finite n) eqn:E; [|done]. intros _. split; [|done]. right. by exists n.
Qed.

(** ** Motions *)

Lemma calm_merge a b : mergeMotion a b <> tighten <-> a <> tighten /\ b <> tighten.
Proof. unfold mergeMotion. destruct a, b; cbn; naive_solver. Qed.

(** A bound that moved without tightening rejects no number it accepted. *)
Lemma calm_below b a m n : number_slot b -> number_slot a -> num_is_finite n = true ->
  compareBound b a min_side false = Ret m -> m <> tighten -> below n (slot_num b) = false -> below n (slot_num a) = false.
Proof.
  intros [->|(o & -> & Ho)] [->|(q & -> & Hq)] Hn H Hm; try done.
  { cbn in H. by injection H as <-. }
  cbn. unfold compareBound in H. cbn [strict_equal is_undefined] in H. rewrite <-!not_true_iff_false, !num_lt_finite by done.
  intros Hb Ha. apply Hb. destruct (num_eq o q) eqn:E.
  - apply num_eq_finite in E; [|done..]. by rewrite E.
  - cbn in H. rewrite E in H. destruct (num_lt o q) eqn:El; [by injection H as <-|].
    rewrite <-not_true_iff_false, num_lt_finite in El by done. apply Qcnot_lt_le in El. by eapply Qclt_le_trans.
Qed.

Lemma calm_above b a m n : number_slot b -> number_slot a -> num_is_finite n = true ->
  compareBound b a max_side false = Ret m -> m <> tighten -> above n (slot_num b) = false -> above n (slot_num a) = false.
Proof.
  intros [->|(o & -> & Ho)] [->|(q & -> & Hq)] Hn H Hm; try done.
  { cbn in H. by injection H as <-. }
  cbn. unfold compareBound in H. cbn [strict_equal is_undefined] in H. rewrite <-!not_true_iff_false, !num_lt_finite by done.
  intros Hb Ha. apply Hb. destruct (num_eq o q) eqn:E.
  - apply num_eq_finite in E; [|done..]. by rewrite E.
  - cbn in H. rewrite E in H. destruct (num_lt q o) eqn:El; [by injection H as <-|].
    rewrite <-not_true_iff_false, num_lt_finite in El by done. apply Qcnot_lt_le in El. by eapply Qcle_lt_trans.
Qed.

(** The same for the bounds of a bigint. *)
Definition slot_Z (v : value) : option Z := match v with VStr s => match BigInt (VStr s) with Ret z => Some z | Throw _ => None end | _ => None end.
Definition bigint_slot (v : value) : Prop := v = VUndefined \/ exists s z, v = VStr s /\ BigInt (VStr s) = Ret z.

Lemma bigintField_slot c side path o : bigintField c side path = Ret o ->
  bigint_slot (slot side c) /\ forall path', bigintField c side path' = Ret (slot_Z (slot side c)).
Proof.
  unfold bigintField. destruct (slot side c); try done; [intros [= <-]; split; [by left|done]|].
  destruct (DECIMAL s); [|done]. cbn [slot_Z]. destruct (BigInt (VStr s)) as [z|] eqn:E; [|done]. cbn [mbind exc_bind].
  case_decide; [done|]. intros _. split; [|done]. right. by exists s, z.
Qed.

Lemma calm_bigint b a m side : bigint_slot b -> bigint_slot a -> compareBound b a side true = Ret m -> m <> tighten ->
  forall h, slot_Z a = Some h -> exists l, slot_Z b = Some l /\ match side with min_side => (h <= l)%Z | max_side => (l <= h)%Z end.
Proof.
  intros [->|(s & z & -> & Hs)] [->|(s' & z' & -> & Hs')] H Hm h Hh; try done.
  { cbn in H. by injection H as <-. }
  cbn [slot_Z] in *. rewrite Hs. rewrite Hs' in Hh. injection Hh as <-. exists z. split; [done|].
  unfold compareBound in H. cbn [is_undefined] in H. destruct (strict_equal (VStr s) (VStr s')) eqn:E.
  - cbn in E. apply bool_decide_eq_true in E. subst s'. rewrite Hs in Hs'. injection Hs' as <-. destruct side; lia.
  - rewrite Hs, Hs' in H. cbn in H. case_bool_decide; [subst; destruct side; lia|].
    destruct side; case_bool_decide; try lia; by injection H as <-.
Qed.

(** ** Valid descriptors *)

Section valid.
Context (RegExp_valid : string -> bool).

Definition valid_constraints (k : ConstrainedKind) (c : ConstraintFields) : Prop :=
  (exists path, validateConstraintDescriptor RegExp_valid k c path = Ret tt) /\
  (k <> string_kind -> regex c = VUndefined).

(** What the validation of a stored descriptor leaves, for a column or a part:
    its constraints are well formed, its keys distinct, its kind known. *)
Fixpoint valid (d : Descriptor) : Prop :=
  match d with
  | DString c => valid_constraints string_kind c
  | DInt c => valid_constraints int_kind c
  | DFloat c => valid_constraints float_kind c
  | DBigint c => valid_constraints bigint_kind c
  | DArray el c => valid el /\ valid_constraints array_kind c
  | DObject shape => NoDup (shape.*1) /\ foldr (fun p P => valid p.2 /\ P) True shape
  | DUnion _ ms => NoDup (ms.*1) /\ foldr (fun p P => valid p.2 /\ P) True ms
  | DModified _ inner => valid inner
  | DLiteral v => written v = v
  | DUnknown _ => False
  | _ => True
  end.

Lemma valid_lengths k c : k = string_kind \/ k = array_kind -> valid_constraints k c ->
  number_slot (min c) /\ number_slot (max c) /\
  forall path side, lengthField c side path = Ret (slot_num (slot side c)).
Proof.
  intros Hk [[path H] _]. unfold validateConstraintDescriptor in H. destruct Hk as [-> | ->]; exc_inv;
    (repeat match goal with H : lengthField _ _ _ = Ret _ |- _ => apply lengthField_slot in H as [? ?] end);
    split_and!; try done; by intros path' [].
Qed.

Lemma valid_numbers k c : k = int_kind \/ k = float_kind -> valid_constraints k c ->
  number_slot (min c) /\ number_slot (max c) /\
  forall path side, numberField c side path = Ret (slot_num (slot side c)).
Proof.
  intros Hk [[path H] _]. unfold validateConstraintDescriptor in H. destruct Hk as [-> | ->]; exc_inv;
    (repeat match goal with H : numberField _ _ _ = Ret _ |- _ => apply numberField_slot in H as [? ?] end);
    split_and!; try done; by intros path' [].
Qed.

Lemma valid_bigints c : valid_constraints bigint_kind c ->
  bigint_slot (min c) /\ bigint_slot (max c) /\
  forall path side, bigintField c side path = Ret (slot_Z (slot side c)).
Proof.
  intros [[path H] _]. unfold validateConstraintDescriptor, parsedBigintBounds in H. exc_inv.
  repeat match goal with H : bigintField _ _ _ = Ret _ |- _ => apply bigintField_slot in H as [? ?] end.
  split_and!; try done; by intros path' [].
Qed.

(** ** Structure *)

Definition same_structure (d d' : Descriptor) : Prop := written (structuralDescriptor d) = written (structuralDescriptor d').
Definition same_entry (p p' : string * Descriptor) : Prop := p.1 = p'.1 /\ same_structure p.2 p'.2.

Lemma same_entries (l : list (string * Descriptor)) : forall l',
  map (fun p => (p.1, written p.2)) (map (fun p => (p.1, structuralDescriptor p.2)) l) =
  map (fun p => (p.1, written p.2)) (map (fun p => (p.1, structuralDescriptor p.2)) l') -> Forall2 same_entry l l'.
Proof.
  induction l as [|p l IH]; intros [|p' l'] H; try done. cbn in H. injection H as Hk Hd Hl. constructor; [by split|auto].
Qed.

Lemma strings_inj (l : list string) : forall l', map written (map VStr l) = map written (map VStr l') -> l = l'.
Proof. induction l as [|s l IH]; intros [|s' l'] H; try done. cbn in H. injection H as -> H. by rewrite (IH l'). Qed.

Lemma structure_inv d d' : valid d -> valid d' -> same_structure d d' ->
  match d, d' with
  | DString _, DString _ | DInt _, DInt _ | DFloat _, DFloat _ | DBigint _, DBigint _ => True
  | DArray el _, DArray el' _ => same_structure el el'
  | DObject shape, DObject shape' => Forall2 same_entry shape shape'
  | DUnion name ms, DUnion name' ms' => name = name' /\ Forall2 same_entry ms ms'
  | DModified k inner, DModified k' inner' => k = k' /\ same_structure inner inner'
  | DVector _, _ | DEnum _ _, _ | DLiteral _, _ => d = d'
  | (DString _ | DInt _ | DFloat _ | DBigint _ | DArray _ _ | DObject _ | DUnion _ _ | DModified _ _), _ => False
  | _, _ => d = d'
  end.
Proof.
  unfold same_structure. intros Hv Hv' H.
  destruct d; try done; destruct d'; try (exfalso; exact Hv');
    repeat match goal with k : Modifier |- _ => destruct k end; cbn in H; try discriminate H; try done.
  - apply (f_equal (fun v => match v with VObj [_; (_, VNum n)] => n | _ => NNaN end)), num_of_Z_inj in H. by subst.
  - injection H as -> H. f_equal. by apply strings_inj.
  - injection H as H. cbn in Hv, Hv'. congruence.
  - by injection H.
  - injection H as H. by apply same_entries.
  - injection H as -> H. split; [done|]. by apply same_entries.
  - split; [done|]. by injection H.
  - split; [done|]. by injection H.
  - split; [done|]. by injection H.
Qed.
(** ** Loosened constraints *)

Context (RegExp_test : string -> string -> bool) (number_text : num -> string).
#[local] Abbreviation checkDescriptor := (checkDescriptor RegExp_valid RegExp_test number_text).

Definition in_bounds (c : ConstraintFields) (n : num) : Prop :=
  below n (slot_num (min c)) = false /\ above n (slot_num (max c)) = false.
Definition in_bounds_Z (c : ConstraintFields) (z : Z) : Prop :=
  (forall l, slot_Z (min c) = Some l -> l <= z)%Z /\ (forall h, slot_Z (max c) = Some h -> z <= h)%Z.
Definition string_accepted (c : ConstraintFields) (s : string) : Prop :=
  in_bounds c (num_of_Z (code_points s)) /\ (forall source, regex c = VStr source -> RegExp_test source s = true).

Lemma num_of_Z_finite z : num_is_finite (num_of_Z z) = true.
Proof. done. Qed.

Lemma calm_bounds b a low high n :
  number_slot (min b) /\ number_slot (max b) -> number_slot (min a) /\ number_slot (max a) -> num_is_finite n = true ->
  compareBound (min b) (min a) min_side false = Ret low -> compareBound (max b) (max a) max_side false = Ret high ->
  low <> tighten -> high <> tighten -> in_bounds b n -> in_bounds a n.
Proof.
  intros [? ?] [? ?] Hn Hl Hh Hl' Hh' [Hb1 Hb2].
  split; [apply (calm_below (min b) (min a) low); assumption|apply (calm_above (max b) (max a) high); assumption].
Qed.

Lemma absent_bounds c n : present c = false -> in_bounds c n.
Proof.
  unfold present, in_bounds. intros [H1 H2]%orb_false_iff. destruct (min c); try discriminate H1. by destruct (max c).
Qed.

Lemma valid_regex c : valid_constraints string_kind c ->
  regex c = VUndefined \/ exists source, regex c = VStr source /\ RegExp_valid source = true.
Proof.
  intros [[path H] _]. unfold validateConstraintDescriptor in H. exc_inv.
  match goal with H : descriptorRegex _ _ _ = Ret _ |- _ => unfold descriptorRegex in H end.
  destruct (regex c); try done; [by left|]. right. exists s. split; [done|]. by destruct (RegExp_valid s).
Qed.

Lemma unit_eta (m : exc js_error unit) u : m = Ret u -> m = Ret tt.
Proof. by destruct u. Qed.

Lemma string_descriptor_iff c x path y : valid_constraints string_kind c ->
  string_descriptor RegExp_valid RegExp_test number_text c x path = Ret y <-> exists s, x = VStr s /\ y = x /\ string_accepted c s.
Proof.
  intros Hv. destruct (valid_lengths _ _ (or_introl eq_refl) Hv) as (_ & _ & Hl). pose proof (valid_regex c Hv) as Hr.
  destruct x as [| | | |s| | | | |]; try (split; [done|by intros (? & ? & _)]).
  assert (Hc : (exists u, (if present c || negb (is_undefined (regex c))
      then checkStringConstraints RegExp_valid RegExp_test number_text c s path None else Ret tt) = Ret u) <-> string_accepted c s).
  { destruct (_ || _) eqn:E.
    - unfold checkStringConstraints, string_accepted, in_bounds. rewrite (Hl path min_side), (Hl path max_side). cbn [mbind exc_bind slot].
      rewrite !throw_if_decides. destruct (below _ _); cbn; [naive_solver|]. destruct (above _ _); cbn; [naive_solver|].
      unfold descriptorRegex. destruct Hr as [-> |(source & -> & Hs)]; cbn; [by naive_solver|]. rewrite Hs. cbn.
      destruct (RegExp_test source s) eqn:Et; cbn; split.
      + intros _. split; [done|]. by intros ? [= <-].
      + by exists tt.
      + by intros [? ?].
      + intros [_ H]. specialize (H _ eq_refl). congruence.
    - apply orb_false_iff in E as [E1 E2]. split; [|by exists tt]. intros _. split; [by apply absent_bounds|].
      intros source Hs. by rewrite Hs in E2. }
  unfold string_descriptor. split.
  - intros H. exc_inv. subst y. exists s. split_and!; [done..|]. apply Hc. by eexists.
  - intros (s' & [= <-] & -> & Hs). apply Hc in Hs as [u ->]. done.
Qed.

Lemma number_constraints_iff c n path : (forall path side, numberField c side path = Ret (slot_num (slot side c))) ->
  (if present c then checkNumberConstraints number_text c n path else Ret tt) = Ret tt <-> in_bounds c n.
Proof.
  intros Hl. destruct (present c) eqn:E; [|split; [intros _; by apply absent_bounds|done]].
  unfold checkNumberConstraints, in_bounds. rewrite (Hl path min_side), (Hl path max_side). cbn [mbind exc_bind slot].
  rewrite !throw_if_decides. destruct (below _ _), (above _ _); cbn; naive_solver.
Qed.

Lemma int_descriptor_iff c x path y : valid_constraints int_kind c ->
  int_descriptor number_text c x path = Ret y <-> exists n, x = VNum n /\ y = x /\ isSafeInteger x = true /\ in_bounds c n.
Proof.
  intros Hv. destruct (valid_numbers _ _ (or_introl eq_refl) Hv) as (_ & _ & Hl).
  unfold int_descriptor, expect. destruct x as [| | |n| | | | | |]; try (split; [done|by intros (? & ? & _)]).
  destruct (isSafeInteger (VNum n)) eqn:E; cbn [mbind exc_bind]; [|split; [done|by intros (? & _ & _ & ? & _)]]. split.
  - intros H. exc_inv. subst y. exists n. split_and!; [done..|]. apply (number_constraints_iff c n path Hl). by eapply unit_eta.
  - intros (? & [= <-] & -> & _ & Hb). apply (number_constraints_iff c n path Hl) in Hb as ->. done.
Qed.

Lemma float_descriptor_iff c x path y : valid_constraints float_kind c ->
  float_descriptor number_text c x path = Ret y <-> exists n, x = VNum n /\ y = x /\ num_is_finite n = true /\ in_bounds c n.
Proof.
  intros Hv. destruct (valid_numbers _ _ (or_intror eq_refl) Hv) as (_ & _ & Hl).
  unfold float_descriptor, expect. destruct x as [| | |n| | | | | |]; try (split; [done|by intros (? & ? & _)]).
  cbn [isFinite]. destruct (num_is_finite n) eqn:E; cbn [mbind exc_bind]; [|split; [done|]; intros (? & [= <-] & _ & ? & _); congruence]. split.
  - intros H. exc_inv. subst y. exists n. split_and!; [done..|]. apply (number_constraints_iff c n path Hl). by eapply unit_eta.
  - intros (? & [= <-] & -> & _ & Hb). apply (number_constraints_iff c n path Hl) in Hb as ->. done.
Qed.

Lemma bigint_descriptor_iff c x path y : valid_constraints bigint_kind c ->
  bigint_descriptor c x path = Ret y <-> exists z, x = VBig z /\ y = x /\ (I64_MIN <= z <= I64_MAX)%Z /\ in_bounds_Z c z.
Proof.
  intros Hv. destruct (valid_bigints _ Hv) as (_ & _ & Hl).
  assert (Hc : forall z, (if present c then checkBigintConstraints c z path None else Ret tt) = Ret tt <-> in_bounds_Z c z).
  { intros z. unfold in_bounds_Z. destruct (present c) eqn:E.
    - unfold checkBigintConstraints, parsedBigintBounds. rewrite (Hl path min_side), (Hl path max_side). cbn [mbind exc_bind slot low high].
      destruct (slot_Z (min c)) as [l|], (slot_Z (max c)) as [h|]; rewrite ?throw_if_decides; repeat case_bool_decide; cbn;
        (split; [try done; intros _; split; intros ? [= <-]; lia|]); try done;
        intros [H1 H2]; (specialize (H1 _ eq_refl) || clear H1); (specialize (H2 _ eq_refl) || clear H2); lia.
    - unfold present in E. apply orb_false_iff in E as [E1 E2]. destruct (min c); try discriminate E1. by destruct (max c). }
  unfold bigint_descriptor. destruct x as [| | | | |z| | | |]; try (split; [done|by intros (? & ? & _)]).
  cbn [descriptor_checkI64]. case_decide; cbn [mbind exc_bind]; [split; [done|]; intros (? & [= <-] & _ & ? & _); lia|]. split.
  - intros H'. exc_inv. subst y. exists z. split; [done|]. split; [done|]. split; [lia|]. apply Hc. by eapply unit_eta.
  - intros (? & [= <-] & -> & _ & Hb). apply Hc in Hb as ->. done.
Qed.
(** ** Loosened descriptors *)

Definition accepted_by (d d' : Descriptor) : Prop :=
  forall x path y, checkDescriptor d x path = Ret y -> checkDescriptor d' x path = Ret y.

Definition keeps (d : Descriptor) : Prop :=
  forall d' m, valid d -> valid d' -> same_structure d d' -> nestedConstraintMotion d d' = Ret m -> m <> tighten -> accepted_by d d'.

Lemma calm_regex c c' : valid_constraints string_kind c ->
  strict_equal (regex c) (regex c') = true \/ is_undefined (regex c') = true ->
  forall source, regex c' = VStr source -> regex c = VStr source.
Proof.
  intros Hv H source Hs. rewrite Hs in H. destruct H as [H|H]; [|done].
  destruct (valid_regex c Hv) as [E|(s & E & _)]; rewrite E in H |- *; [done|]. cbn in H. by apply bool_decide_eq_true in H as ->.
Qed.

Lemma keeps_constrained d d' m : match d with DString _ | DInt _ | DFloat _ | DBigint _ => True | _ => False end ->
  valid d -> valid d' -> same_structure d d' -> localConstraintMotion d d' = Ret m -> m <> tighten -> accepted_by d d'.
Proof.
  intros Hd Hv Hv' Hs H Hm x path y Hx. apply structure_inv in Hs; [|done..].
  destruct d; try done; destruct d'; try done; cbn [localConstraintMotion constraint_slots valid] in *; exc_inv; subst m.
  - cbn [Descriptors.checkDescriptor] in *. apply string_descriptor_iff in Hx as (s & -> & -> & Hb & Hr); [|done].
    apply string_descriptor_iff; [done|]. exists s. split_and!; [done..|].
    assert (Hc : mergeMotion x0 x1 <> tighten /\ (strict_equal (regex c) (regex c0) = true \/ is_undefined (regex c0) = true)).
    { destruct (strict_equal (regex c) (regex c0)); [by split; [|left]|]. apply calm_merge in Hm as [Hm Hu]. split; [done|].
      destruct (is_undefined (regex c0)); [by right|done]. }
    destruct Hc as [Hc Hu]. apply calm_merge in Hc as [H0' H1']. split.
    + destruct (valid_lengths _ _ (or_introl eq_refl) Hv) as (? & ? & _), (valid_lengths _ _ (or_introl eq_refl) Hv') as (? & ? & _).
      apply (calm_bounds c c0 x0 x1); done.
    + intros source E. by apply Hr, (calm_regex c c0).
  - cbn [Descriptors.checkDescriptor] in *. apply int_descriptor_iff in Hx as (n & -> & -> & Hi & Hb); [|done].
    apply int_descriptor_iff; [done|]. exists n. split_and!; [done..|]. apply calm_merge in Hm as [H0' H1'].
    destruct (valid_numbers _ _ (or_introl eq_refl) Hv) as (? & ? & _), (valid_numbers _ _ (or_introl eq_refl) Hv') as (? & ? & _).
    apply (calm_bounds c c0 x0 x1); try done. apply safe_integer_finite. by apply bool_decide_eq_true in Hi.
  - cbn [Descriptors.checkDescriptor] in *. apply float_descriptor_iff in Hx as (n & -> & -> & Hi & Hb); [|done].
    apply float_descriptor_iff; [done|]. exists n. split_and!; [done..|]. apply calm_merge in Hm as [H0' H1'].
    destruct (valid_numbers _ _ (or_intror eq_refl) Hv) as (? & ? & _), (valid_numbers _ _ (or_intror eq_refl) Hv') as (? & ? & _).
    by apply (calm_bounds c c0 x0 x1).
  - cbn [Descriptors.checkDescriptor] in *. apply bigint_descriptor_iff in Hx as (z & -> & -> & Hi & Hl & Hh); [|done].
    apply bigint_descriptor_iff; [done|]. exists z. split; [done|]. split; [done|]. split; [done|]. apply calm_merge in Hm as [H0' H1'].
    destruct (valid_bigints _ Hv) as (? & ? & _), (valid_bigints _ Hv') as (? & ? & _). split.
    + intros l El. destruct (calm_bigint (min c) (min c0) x0 min_side) with l as (l' & El' & Hle); [done..|]. specialize (Hl _ El'). lia.
    + intros h Eh. destruct (calm_bigint (max c) (max c0) x1 max_side) with h as (h' & Eh' & Hle); [done..|]. specialize (Hh _ Eh'). lia.
Qed.

(** The parts of an object or a union. *)
Definition calm_entry (p p' : string * Descriptor) : Prop :=
  p.1 = p'.1 /\ descriptor_omissible p.2 = descriptor_omissible p'.2 /\ accepted_by p.2 p'.2.

Lemma structure_omissible d d' : valid d -> valid d' -> same_structure d d' -> descriptor_omissible d = descriptor_omissible d'.
Proof. intros Hv Hv' Hs. apply structure_inv in Hs; [|done..]. destruct d, d'; try done; by destruct Hs as [-> _]. Qed.

Definition motions (new : list (string * Descriptor)) : list (string * Descriptor) -> ConstraintDirection -> exc js_error ConstraintDirection :=
  fix go old motion :=
    match old with
    | [] => Ret motion
    | (key, d) :: old =>
        match jmap_get key new with
        | Some d' => next ← nestedConstraintMotion d d'; go old (mergeMotion motion next)
        | None => missing
        end
    end.

Lemma calm_motions new old : forall motion m, motions new old motion = Ret m -> m <> tighten ->
  motion <> tighten /\ forall p, p ∈ old -> exists d' m', jmap_get p.1 new = Some d' /\ nestedConstraintMotion p.2 d' = Ret m' /\ m' <> tighten.
Proof.
  induction old as [|[k d] old IH]; intros motion m H Hm; cbn [motions] in H.
  - injection H as ->. split; [done|]. intros p Hp. by apply not_elem_of_nil in Hp.
  - destruct (jmap_get k new) as [d'|] eqn:E; [|done]. exc_inv.
    match goal with H : motions _ _ _ = _ |- _ => apply IH in H as [Hc Hin]; [|done] end. apply calm_merge in Hc as [Hc Hx]. split; [done|].
    intros p Hp. apply elem_of_cons in Hp as [->|Hp]; [|by apply Hin]. cbn. by exists d', x.
Qed.

Lemma calm_entries old new motion m : Forall (fun p => keeps p.2) old -> Forall (fun p => valid p.2) old -> Forall (fun p => valid p.2) new ->
  NoDup (new.*1) -> Forall2 same_entry old new -> motions new old motion = Ret m -> m <> tighten -> Forall2 calm_entry old new.
Proof.
  intros Hk Hv Hv' Hn Hs Hm Hc. destruct (calm_motions _ _ _ _ Hm Hc) as [_ Hin]. clear Hm.
  rewrite Forall_forall in Hk, Hv, Hv'. apply Forall2_same_length_lookup_2; [by eapply Forall2_length|].
  intros i p p' Hp Hp'. pose proof (Forall2_lookup_lr _ _ _ _ _ _ Hs Hp Hp') as [Hkey Hst].
  apply list_elem_of_lookup_2 in Hp, Hp'. destruct (Hin p Hp) as (d' & m' & Hg & Hm' & Hc').
  assert (d' = p'.2) as ->.
  { rewrite Hkey, (jmap_get_elem p'.1 p'.2) in Hg; [by injection Hg|done|]. by destruct p'. }
  split; [done|]. split; [apply structure_omissible; auto|]. eapply Hk; eauto.
Qed.

#[local] Abbreviation compiled := (map (fun p => MkField p.1 (checkDescriptor p.2) (descriptor_omissible p.2))).

Lemma calm_keys old new : Forall2 calm_entry old new -> key <$> compiled old = key <$> compiled new.
Proof. induction 1 as [|p p' old new [Hk _] _ IH]; [done|]. cbn. by rewrite IH, Hk. Qed.

Lemma calm_fields old new input path : Forall2 calm_entry old new -> forall out ys,
  object_fields input path (compiled old) out = Ret ys -> object_fields input path (compiled new) out = Ret ys.
Proof.
  induction 1 as [|p p' old new (Hk & Ho & Ha) _ IH]; intros out ys H; [done|]. cbn in H |- *. rewrite <-Hk, <-Ho.
  case_match; [by apply IH|]. exc_inv. erewrite Ha by done. cbn. by apply IH.
Qed.

Lemma calm_named old new tag : Forall2 calm_entry old new ->
  match member_named (compiled old) tag with
  | Some m => exists m', member_named (compiled new) tag = Some m' /\ field_omissible m = field_omissible m' /\
      forall x path y, field_check m x path = Ret y -> field_check m' x path = Ret y
  | None => True
  end.
Proof.
  induction 1 as [|p p' old new (Hk & Ho & Ha) _ IH]; [done|]. cbn. rewrite <-Hk. case_decide; [|done].
  eexists. split; [done|]. by split.
Qed.

Lemma calm_union old new x path y : Forall2 calm_entry old new ->
  union_descriptor (compiled old) x path = Ret y -> union_descriptor (compiled new) x path = Ret y.
Proof.
  intros Hc H. unfold union_descriptor in *. destruct x; try done; cbn zeta in *; (destruct (field "tag" _) as [| | | |tag| | | | |]; try done);
    pose proof (calm_named old new tag Hc) as Hn; (destruct (member_named _ tag) as [member|]; [|done]);
    destruct Hn as (m' & -> & <- & Hm); (destruct (exc_each _ _) as [[]|e]; [|done]); cbn [mbind exc_bind] in *;
    (case_match; [done|]); exc_inv; subst; by erewrite Hm.
Qed.

Lemma keeps_all d : keeps d.
Proof.
  induction d as [d Hd|el c IH|shape IH|name ms IH|k inner IH] using descriptor_nested_ind; intros d' m Hv Hv' Hs Hm Hc.
  - destruct d; try done; try (cbn [nestedConstraintMotion] in Hm; exc_inv; subst; by eapply keeps_constrained);
      apply structure_inv in Hs; try done; subst; intros x path y Hx; exact Hx.
  - pose proof (structure_inv _ _ Hv Hv' Hs) as Hi. destruct d'; try done. destruct Hv as [Hv Hvc], Hv' as [Hv' Hvc'].
    cbn [nestedConstraintMotion localConstraintMotion constraint_slots] in Hm. exc_inv. subst.
    apply calm_merge in Hc as [Hc Hn]. apply calm_merge in Hc as [Hl Hh]. pose proof (IH _ _ Hv Hv' Hi ltac:(eassumption) Hn) as Hel.
    intros x' path y Hx. cbn [Descriptors.checkDescriptor] in *. unfold array_descriptor in *. destruct x'; try done. exc_inv. subst y.
    destruct (valid_lengths _ _ (or_intror eq_refl) Hvc) as (? & ? & Hlc), (valid_lengths _ _ (or_intror eq_refl) Hvc') as (? & ? & Hlc').
    assert (Harr : forall c path, (forall path side, lengthField c side path = Ret (slot_num (slot side c))) ->
      (if present c then checkArrayConstraints number_text c (length items) path else Ret tt) = Ret tt <-> in_bounds c (num_of_Z (Z.of_nat (length items)))).
    { intros c1 path1 Hlen. destruct (present c1) eqn:E; [|split; [intros _; by apply absent_bounds|done]].
      unfold checkArrayConstraints, in_bounds. rewrite (Hlen path1 min_side), (Hlen path1 max_side). cbn [mbind exc_bind slot].
      rewrite !throw_if_decides. destruct (below _ _), (above _ _); cbn; naive_solver. }
    match goal with H : (if present c then _ else _) = Ret _ |- _ => apply unit_eta, (Harr _ _ Hlc) in H as Hb end.
    assert (Hb' : in_bounds c0 (num_of_Z (Z.of_nat (length items)))) by (eapply (calm_bounds c c0); eauto).
    apply (Harr _ path Hlc') in Hb' as ->. cbn [mbind exc_bind].
    assert (Hitems : forall items i ys, map_items (checkDescriptor el) path items i = Ret ys -> map_items (checkDescriptor d') path items i = Ret ys).
    { clear -Hel. induction items as [|x items IHi]; intros i ys H; [done|]. cbn in H |- *. exc_inv. subst. erewrite Hel by done. cbn. by erewrite IHi. }
    by erewrite Hitems.
  - pose proof (structure_inv _ _ Hv Hv' Hs) as Hi. destruct d'; try done. destruct Hv as [Hn Hv], Hv' as [Hn' Hv'].
    apply (foldr_forall (fun p => valid p.2)) in Hv, Hv'. change (motions shape0 shape same = Ret m) in Hm.
    pose proof (calm_entries _ _ _ _ IH Hv Hv' Hn' Hi Hm Hc) as He.
    intros x path y Hx. cbn [Descriptors.checkDescriptor] in *. unfold object_descriptor in *. destruct x; try done.
    rewrite <-(calm_keys _ _ He). exc_inv. subst. rewrite (unit_eta _ _ ltac:(eassumption)). cbn [mbind exc_bind].
    by erewrite (calm_fields _ _ _ _ He).
  - pose proof (structure_inv _ _ Hv Hv' Hs) as Hi. destruct d'; try done. destruct Hi as [<- Hi]. destruct Hv as [Hn Hv], Hv' as [Hn' Hv'].
    apply (foldr_forall (fun p => valid p.2)) in Hv, Hv'. change (motions members ms same = Ret m) in Hm.
    pose proof (calm_entries _ _ _ _ IH Hv Hv' Hn' Hi Hm Hc) as He.
    intros x path y Hx. by apply (calm_union ms members).
  - pose proof (structure_inv _ _ Hv Hv' Hs) as Hi. destruct d'; try done. destruct Hi as [<- Hi].
    cbn [nestedConstraintMotion localConstraintMotion] in Hm. exc_inv. subst. apply calm_merge in Hc as [_ Hn].
    pose proof (IH d' _ Hv Hv' Hi ltac:(eassumption) Hn) as Hin.
    intros x' path y Hx. cbn [Descriptors.checkDescriptor] in *. unfold modified_descriptor in *. destruct k, x'; try done; by apply Hin.
Qed.

(** A direction that does not tighten keeps every accepted value. *)
Lemma direction_keeps d d' m : valid d -> valid d' -> constraintDirection d d' = Ret m -> m = same \/ m = loosen -> accepted_by d d'.
Proof.
  unfold constraintDirection, same_text. intros Hv Hv' H Hm. case_bool_decide as Hs.
  - eapply keeps_all; try done. by destruct Hm as [-> | ->].
  - injection H as <-. by destruct Hm.
Qed.
End valid.
