(* ===== verification/SchemaProps.v ===== *)
(** A schema change that is not refused keeps every row of every table valid. *)
From S2P Require Import Prelude Errors Value Wire StableEncode Constraints Float32 Validators ValidatorsProps Descriptors SchemaDiff SchemaClassify SchemaSafety.
Local Open Scope string_scope.
Local Open Scope list_scope.

(** ** The text of a descriptor determines it *)

Lemma slot_fields_inj (l : list (string * value)) : forall l',
  l.*1 = l'.*1 -> NoDup (l.*1) -> slot_fields l = slot_fields l' -> Forall2 (fun p p' => is_undefined p.2 = is_undefined p'.2 /\ (is_undefined p.2 = false -> p = p')) l l'.
Proof.
  assert (Hsub : forall l k, k ∉ l.*1 -> k ∉ (slot_fields l).*1).
  { intros m k Hk Hin. apply Hk. apply elem_of_fst in Hin as [v Hin]. apply list_elem_of_In, filter_In in Hin as [Hin _].
    apply elem_of_fst. exists v. by apply list_elem_of_In. }
  induction l as [|[k v] l IH]; intros [|[k' v'] l'] Hk Hn H; try done. cbn in Hk, Hn. injection Hk as <- Hk. apply NoDup_cons in Hn as [Hn Hn'].
  assert (Hno : (k ∉ (slot_fields l).*1) /\ (k ∉ (slot_fields l').*1)) by (split; apply Hsub; [done|by rewrite <-Hk]).
  cbn in H. destruct (is_undefined v) eqn:E, (is_undefined v') eqn:E'; cbn in H; fold (slot_fields l) in H; fold (slot_fields l') in H.
  - constructor; [cbn; split; congruence|auto].
  - exfalso. apply (proj1 Hno). rewrite H. cbn. set_solver.
  - exfalso. apply (proj2 Hno). rewrite <-H. cbn. set_solver.
  - injection H as <- H. constructor; [done|auto].
Qed.

Lemma undefined_eq v v' : is_undefined v = is_undefined v' -> (is_undefined v = false -> v = v') -> v = v'.
Proof. destruct v; cbn; intros H1 H2; try (by apply H2). by destruct v'. Qed.

Section inj.
Context (RegExp_valid : string -> bool).
#[local] Abbreviation valid := (valid RegExp_valid).

Lemma slots2_inj a b a' b' : slot_fields [("min", a); ("max", b)] = slot_fields [("min", a'); ("max", b')] -> a = a' /\ b = b'.
Proof.
  intros H. apply slot_fields_inj in H; [|done|repeat constructor; set_solver].
  apply Forall2_cons in H as [[U1 H1] H]. apply Forall2_cons in H as [[U2 H2] _]. cbn in *.
  split; apply undefined_eq; try done; intros Hu; [specialize (H1 Hu)|specialize (H2 Hu)]; congruence.
Qed.

Lemma slots3_inj a b r a' b' r' :
  slot_fields [("min", a); ("max", b); ("regex", r)] = slot_fields [("min", a'); ("max", b'); ("regex", r')] -> a = a' /\ b = b' /\ r = r'.
Proof.
  intros H. apply slot_fields_inj in H; [|done|repeat constructor; set_solver].
  apply Forall2_cons in H as [[U1 H1] H]. apply Forall2_cons in H as [[U2 H2] H]. apply Forall2_cons in H as [[U3 H3] _]. cbn in *.
  split_and!; apply undefined_eq; try done; intros Hu; [specialize (H1 Hu)|specialize (H2 Hu)|specialize (H3 Hu)]; congruence.
Qed.

Lemma slots2_eq k c c' : k <> string_kind -> valid_constraints RegExp_valid k c -> valid_constraints RegExp_valid k c' ->
  slot_fields [("min", min c); ("max", max c)] = slot_fields [("min", min c'); ("max", max c')] -> c = c'.
Proof.
  intros Hk [_ Hr] [_ Hr'] H. apply slots2_inj in H as [H1 H2]. specialize (Hr Hk). specialize (Hr' Hk).
  destruct c, c'; cbn in *. congruence.
Qed.

Lemma strings_text_inj (l : list string) : forall l', map VStr l = map VStr l' -> l = l'.
Proof. induction l as [|s l IH]; intros [|s' l'] H; try done. cbn in H. injection H as -> H. by rewrite (IH l'). Qed.

Lemma entries_inj (l : list (string * Descriptor)) : Forall (fun p => forall d', valid p.2 -> valid d' -> json p.2 = json d' -> p.2 = d') l -> forall l',
  Forall (fun p => valid p.2) l -> Forall (fun p => valid p.2) l' ->
  map (fun p => (p.1, json p.2)) l = map (fun p => (p.1, json p.2)) l' -> l = l'.
Proof.
  induction 1 as [|[k d] l Hd _ IH]; intros [|[k' d'] l'] Hv Hv' H; try done.
  apply Forall_cons in Hv as [Hv1 Hv], Hv' as [Hv1' Hv']. cbn in H. injection H as <- Hj H. f_equal; [|by apply IH].
  f_equal. by apply Hd.
Qed.

Lemma json_inj d : forall d', valid d -> valid d' -> json d = json d' -> d = d'.
Proof.
  induction d as [d Hd|el c IH|shape IH|name ms IH|k inner IH] using descriptor_nested_ind; intros d' Hv Hv' H.
  - destruct d; try done; destruct d'; try (exfalso; exact Hv');
      repeat match goal with k : Modifier |- _ => destruct k end; cbn [json tagged] in H; try discriminate H; try done.
    + injection H as H. apply slots3_inj in H as (H1 & H2 & H3). f_equal. destruct c, c0; cbn in *; congruence.
    + injection H as H. f_equal. by apply (slots2_eq int_kind).
    + injection H as H. f_equal. by apply (slots2_eq float_kind).
    + injection H as H. f_equal. by apply (slots2_eq bigint_kind).
    + apply (f_equal (fun v => match v with VObj [_; (_, VNum n)] => n | _ => NNaN end)), num_of_Z_inj in H. by subst.
    + injection H as -> H. f_equal. by apply strings_text_inj.
    + injection H as H. by subst.
  - destruct d'; repeat match goal with k : Modifier |- _ => destruct k end; try (exfalso; exact Hv'); try discriminate H.
    destruct Hv as [Hv Hc], Hv' as [Hv' Hc']. cbn [json tagged] in H. injection H as Hj H. f_equal; [by apply IH|]. by apply (slots2_eq array_kind).
  - destruct d'; repeat match goal with k : Modifier |- _ => destruct k end; try (exfalso; exact Hv'); try discriminate H.
    destruct Hv as [_ Hv], Hv' as [_ Hv']. apply (foldr_forall (fun p => valid p.2)) in Hv, Hv'. cbn [json tagged] in H. injection H as H.
    f_equal. by apply entries_inj.
  - destruct d'; repeat match goal with k : Modifier |- _ => destruct k end; try (exfalso; exact Hv'); try discriminate H.
    destruct Hv as [_ Hv], Hv' as [_ Hv']. apply (foldr_forall (fun p => valid p.2)) in Hv, Hv'. cbn [json tagged] in H. injection H as -> H.
    f_equal. by apply entries_inj.
  - destruct d'; repeat match goal with k : Modifier |- _ => destruct k end; try (exfalso; exact Hv'); try discriminate H;
      cbn [json tagged modifier_name] in H; injection H as H; f_equal; by apply IH.
Qed.

(** A descriptor read from JSON text holds no negative zero. *)
Definition plain_json (d : Descriptor) : Prop := written (json d) = json d.

Lemma same_text_inj d d' : valid d -> valid d' -> plain_json d -> plain_json d' -> same_text (json d) (json d') = true -> d = d'.
Proof. unfold same_text, plain_json. intros Hv Hv' Hp Hp' H%bool_decide_eq_true. apply json_inj; [done..|]. congruence. Qed.

Lemma plain_inner k d : plain_json (DModified k d) -> plain_json d.
Proof. unfold plain_json. cbn [json tagged written map fst snd]. intros H. by injection H. Qed.

Lemma plain_member name ms p : plain_json (DUnion name ms) -> p ∈ ms -> plain_json p.2.
Proof.
  unfold plain_json. cbn [json tagged written map fst snd]. intros H. injection H as H. induction ms as [|q ms IH]; intros Hp; [by apply not_elem_of_nil in Hp|].
  cbn in H. injection H as Hq H. apply elem_of_cons in Hp as [->|Hp]; auto.
Qed.
End inj.

(** ** Columns *)

Section safety.
Context (RegExp_valid : string -> bool) (RegExp_test : string -> string -> bool) (number_text : num -> string).
#[local] Abbreviation checkDescriptor := (checkDescriptor RegExp_valid RegExp_test number_text).
#[local] Abbreviation valid := (valid RegExp_valid).

(** The check of a descriptor returns. *)
Definition accepts (d : Descriptor) (x : value) : Prop := exists path y, checkDescriptor d x path = Ret y.

(** What a snapshot holds for a column. *)
Definition stored (d : Descriptor) : Prop := valid d /\ plain_json d.

(** What a column change leaves to a value of the column, when the change is not
    refused: [probed] is what the data probes established. *)
Definition column_fine (probed : Descriptor -> Prop) (col : ColumnChange) : Prop :=
  match col with
  | ColumnAdded _ is_nullable => is_nullable = true
  | ColumnDropped _ | TypeChanged _ => False
  | ConstraintsChanged _ direction _ target => direction = loosen \/ probed target
  | NullabilityChanged _ to_nullable => to_nullable = true
  | VariantsChanged _ _ changes => forall v, v ∈ changes -> variant_op v = variant_added
  end.

Lemma named_compiled (l : list (string * Descriptor)) tag :
  member_named (map (fun p => MkField p.1 (checkDescriptor p.2) (descriptor_omissible p.2)) l) tag =
    (fun d => MkField tag (checkDescriptor d) (descriptor_omissible d)) <$> jmap_get tag l.
Proof. induction l as [|[k d] l IH]; [done|]. cbn. case_decide; [by subst|done]. Qed.

(** A union that keeps its members keeps its values. *)
Lemma union_kept name name' ms ms' x path y : (forall tag d, jmap_get tag ms = Some d -> jmap_get tag ms' = Some d) ->
  checkDescriptor (DUnion name ms) x path = Ret y -> checkDescriptor (DUnion name' ms') x path = Ret y.
Proof.
  intros Hm. cbn [Descriptors.checkDescriptor]. unfold union_descriptor. destruct x; try done; cbn zeta;
    (destruct (field "tag" _) as [| | | |tag| | | | |]; try done); rewrite !named_compiled;
    (destruct (jmap_get tag ms) as [d|] eqn:E; [|done]); by rewrite (Hm _ _ E).
Qed.

Lemma enum_kept name name' vs vs' x path y : (forall v, v ∈ vs -> v ∈ vs') ->
  checkDescriptor (DEnum name vs) x path = Ret y -> checkDescriptor (DEnum name' vs') x path = Ret y.
Proof.
  intros Hv. cbn [Descriptors.checkDescriptor]. unfold enum_descriptor, guard, expect. destruct x; try done.
  case_bool_decide as Hin; [|done]. rewrite bool_decide_eq_true_2 by auto. done.
Qed.

Lemma nullable_kept d d' x path y : (forall x y, checkDescriptor d x path = Ret y -> checkDescriptor d' x path = Ret y) ->
  checkDescriptor (DModified nullable d) x path = Ret y -> checkDescriptor (DModified nullable d') x path = Ret y.
Proof. intros Hd. cbn [Descriptors.checkDescriptor]. unfold modified_descriptor. destruct x; auto. Qed.

Lemma elem_of_mjoin_map {A B} (f : A -> list B) (l : list A) b : b ∈ mjoin (map f l) <-> exists a, a ∈ l /\ b ∈ f a.
Proof.
  induction l as [|a l IH]; cbn; [split; [by intros ?%not_elem_of_nil|by intros (? & ?%not_elem_of_nil & _)]|].
  rewrite elem_of_app. setoid_rewrite elem_of_cons. unfold mjoin in IH. rewrite IH. naive_solver.
Qed.

Lemma wrapped_valid d : valid d -> valid (unwrapDesc d).1.
Proof. destruct d as [| | | | | | | | | | | | | | | | | | |[] inner|]; try done. Qed.
Lemma wrapped_plain d : plain_json d -> plain_json (unwrapDesc d).1.
Proof. destruct d as [| | | | | | | | | | | | | | | | | | |[] inner|]; try done. apply plain_inner. Qed.
Lemma wrapped_stored d : stored d -> stored (unwrapDesc d).1.
Proof. intros [? ?]. split; [by apply wrapped_valid|by apply wrapped_plain]. Qed.
Lemma unwrap_eq d : d = if (unwrapDesc d).2 then DModified nullable (unwrapDesc d).1 else (unwrapDesc d).1.
Proof. by destruct d as [| | | | | | | | | | | | | | | | | | |[] inner|]. Qed.

(** Variants that are only added. *)
Lemma variants_kept old new typeName changes : stored old -> stored new -> diffVariants old new = Some (typeName, changes) ->
  (forall v, v ∈ changes -> variant_op v = variant_added) -> forall x path y, checkDescriptor old x path = Ret y -> checkDescriptor new x path = Ret y.
Proof.
  intros Ho Hn H Hadd x path y Hx. pose proof (wrapped_stored _ Ho) as [Hvo Hpo]. pose proof (wrapped_stored _ Hn) as [Hvn Hpn].
  rewrite (unwrap_eq old) in Hx. rewrite (unwrap_eq new). unfold diffVariants, namedOf in H.
  destruct ((unwrapDesc old).1) as [| | | | | | | | | | | |n1 vs1| | | | |n1 ms1| | |]; try done;
    destruct ((unwrapDesc new).1) as [| | | | | | | | | | | |n2 vs2| | | | |n2 ms2| | |]; try done; cbn [named_kind named_name variants members negb orb] in H.
  - destruct (negb (bool_decide (n1 = n2))); [done|]. cbn [orb] in H. case_bool_decide as Hnull; [|done]. cbn [negb] in H. injection H as _ <-.
    assert (Hv : forall v, v ∈ vs1 -> v ∈ vs2).
    { intros v Hv. destruct (decide (v ∈ vs2)) as [|Hno]; [done|]. specialize (Hadd (MkVariantChange v variant_removed)).
      discriminate Hadd. apply elem_of_app. left. apply elem_of_mjoin_map. exists v. split; [done|].
      unfold removed_variant. cbn. rewrite bool_decide_eq_false_2 by done. apply list_elem_of_here. }
    rewrite <-Hnull. destruct ((unwrapDesc old).2); [eapply nullable_kept; [|exact Hx]; intros ? ?|]; by eapply enum_kept.
  - destruct (negb (bool_decide (n1 = n2))); [done|]. cbn [orb] in H. case_bool_decide as Hnull; [|done]. cbn [negb] in H. injection H as _ <-.
    destruct Hvo as [Hno Hvo], Hvn as [Hnn Hvn]. apply (foldr_forall (fun p => valid p.2)) in Hvo, Hvn.
    assert (Hv : forall tag d, jmap_get tag ms1 = Some d -> jmap_get tag ms2 = Some d).
    { intros tag d Hg. pose proof (jmap_get_Some_elem _ _ _ Hg) as Hin.
      assert (Hrem : forall c, c ∈ removed_variant (MkNamed union_named n1 (ms1.*1) ms1) (MkNamed union_named n2 (ms2.*1) ms2) tag -> variant_op c = variant_added).
      { intros c Hc. apply Hadd, elem_of_app. left. apply elem_of_mjoin_map. exists tag. split; [|done]. apply elem_of_fst. by exists d. }
      unfold removed_variant in Hrem. cbn [variants named_kind members] in Hrem. rewrite Hg in Hrem. destruct (decide (tag ∈ ms2.*1)) as [Hk|Hk].
      - rewrite bool_decide_eq_true_2 in Hrem by done. cbn [negb] in Hrem. destruct (jmap_get tag ms2) as [d'|] eqn:E.
        + destruct (same_text (json d) (json d')) eqn:Et; [|by specialize (Hrem _ (list_elem_of_here _ _))].
          pose proof (jmap_get_Some_elem _ _ _ E) as Hin'. rewrite Forall_forall in Hvo, Hvn.
          f_equal. symmetry. apply (same_text_inj RegExp_valid); [apply (Hvo (tag, d)), Hin|apply (Hvn (tag, d')), Hin'|
            apply (plain_member _ _ (tag, d) Hpo), Hin|apply (plain_member _ _ (tag, d') Hpn), Hin'|done].
        + by apply jmap_get_None in E.
      - rewrite bool_decide_eq_false_2 in Hrem by done. by specialize (Hrem _ (list_elem_of_here _ _)). }
    rewrite <-Hnull. destruct ((unwrapDesc old).2); [eapply nullable_kept; [|exact Hx]; intros ? ?|]; by eapply union_kept.
Qed.

(** A column present on both sides keeps its values, unless the probes decide. *)
Lemma column_kept oldColumns column d d' changes probed x :
  jmap_get column oldColumns = Some d -> stored d -> stored d' -> diff_column oldColumns column d' = Ret changes ->
  (forall c, c ∈ changes -> column_fine probed c) -> (probed d' -> accepts d' x) -> accepts d x -> accepts d' x.
Proof.
  intros Hg [Hv Hp] [Hv' Hp'] H Hfine Hprobe (path & y & Hx). unfold diff_column in H. rewrite Hg in H.
  destruct (same_text (json d) (json d')) eqn:Et.
  { apply (same_text_inj RegExp_valid) in Et as <-; [|done..]. by exists path, y. }
  exc_inv. rename x0 into direction. rename H into Hdir. destruct direction; try (injection H0 as <-).
  - exists path, y. eapply direction_keeps; [exact Hv|exact Hv'|exact Hdir|by left|exact Hx].
  - exists path, y. eapply direction_keeps; [exact Hv|exact Hv'|exact Hdir|by right|exact Hx].
  - specialize (Hfine _ (list_elem_of_here _ _)) as [?|Hpr]; [done|]. by apply Hprobe.
  - destruct (diffVariants d d') as [[typeName vs]|] eqn:Ev.
    + injection H0 as <-. exists path, y. eapply (variants_kept d d'); [by split|by split|exact Ev| |exact Hx].
      destruct vs as [|v vs]; [by intros ? ?%not_elem_of_nil|]. exact (Hfine _ (list_elem_of_here _ _)).
    + destruct (same_text (json (unwrapDesc d).1) (json (unwrapDesc d').1)) eqn:Eb; injection H0 as <-.
      * specialize (Hfine _ (list_elem_of_here _ _)). cbn in Hfine.
        apply (same_text_inj RegExp_valid) in Eb; [|by apply wrapped_valid|by apply wrapped_valid|by apply wrapped_plain|by apply wrapped_plain].
        rewrite (unwrap_eq d) in Hx. rewrite (unwrap_eq d'), Hfine, <-Eb. destruct ((unwrapDesc d).2); [by exists path, y|].
        destruct x as [| | | | | | | | |]; try (by exists path, y). by exists path, VNull.
      * by specialize (Hfine _ (list_elem_of_here _ _)).
Qed.

(** ** Tables *)

Lemma new_column oldColumns new changes : diff_new_columns oldColumns new = Ret changes -> forall column d, (column, d) ∈ new ->
  exists cs, diff_column oldColumns column d = Ret cs /\ forall c, c ∈ cs -> c ∈ changes.
Proof.
  revert changes. induction new as [|[k e] new IH]; intros changes H column d Hin; [by apply not_elem_of_nil in Hin|].
  cbn in H. exc_inv. subst changes. apply elem_of_cons in Hin as [[= -> ->]|Hin].
  - eexists. split; [eassumption|]. intros c Hc. apply elem_of_app. by left.
  - match goal with H : diff_new_columns _ _ = Ret _ |- _ => destruct (IH _ H column d Hin) as (cs & Hcs & Hsub) end.
    exists cs. split; [done|]. intros c Hc. apply elem_of_app. right. auto.
Qed.

Lemma table_diffed current target tables diff table : diff_tables current target tables = Ret diff -> table ∈ tables ->
  exists change, diff_table current target table = Ret change /\ forall c, c ∈ change -> c ∈ diff.
Proof.
  revert diff. induction tables as [|t tables IH]; intros diff H Hin; [by apply not_elem_of_nil in Hin|].
  cbn in H. exc_inv. subst diff. apply elem_of_cons in Hin as [->|Hin].
  - eexists. split; [eassumption|]. intros c Hc. apply elem_of_app. by left.
  - match goal with H : diff_tables _ _ _ = Ret _ |- _ => destruct (IH _ H Hin) as (cs & Hcs & Hsub) end.
    exists cs. split; [done|]. intros c Hc. apply elem_of_app. right. auto.
Qed.

(** Without refusals, the columns of an altered table are fine. *)
Lemma fine_columns diff table cs ixs texts (probed : string -> Descriptor -> Prop) :
  refusals (classifySchemaDiff diff) = [] ->
  (forall column current target, TightenConstraints table column current target ∈ optimistic (classifySchemaDiff diff) -> probed column target) ->
  TableAltered table cs ixs texts ∈ diff -> forall col, col ∈ cs ->
  exists column, column_fine (probed column) col /\ forall direction current target c, col = ConstraintsChanged c direction current target -> column = c.
Proof.
  intros Hr Ho Hd col Hc. destruct (classified_column _ _ _ _ _ _ Hd Hc) as [s Hg].
  destruct col as [c []|c|c|c dir cur tgt|c []|c ty changes]; cbn [classify_column sofar] in Hg;
    try (exfalso; eapply refuted; [exact Hr|exact Hg]); exists c; (split; [|by intros ? ? ? ? [=]]); cbn; try done.
  - destruct (decide (dir = loosen)) as [->|Hdir]; [by left|right]. apply (Ho c cur), (grows_optimistic _ _ Hg).
    destruct dir; try done; cbn; apply elem_of_app; right; apply list_elem_of_here.
  - intros v Hv. assert (Hc0 : exists c0, grows (classify_variant table c v c0) (classifySchemaDiff diff)).
    { destruct (foldl_grows_at id (fun c0 v => classify_variant table c v c0) changes v (sofar s)) as [c0 Hc0]; [|done|].
      - intros. apply grows_variant.
      - exists c0. etrans; [exact Hc0|exact Hg]. }
    destruct Hc0 as [c0 Hc0]. unfold classify_variant in Hc0.
    destruct (variant_op v); [done|..]; exfalso; (eapply refuted; [exact Hr|exact Hc0]).
Qed.

Lemma constraint_column oldColumns column d changes c direction current target :
  diff_column oldColumns column d = Ret changes -> ConstraintsChanged c direction current target ∈ changes -> c = column.
Proof.
  unfold diff_column. intros H Hc. repeat (case_match; exc_inv); subst;
    try (by apply not_elem_of_nil in Hc); try (apply list_elem_of_singleton in Hc; congruence).
Qed.

Lemma fine_probed column probed col : (exists column', column_fine (probed column') col /\
    forall direction current target c, col = ConstraintsChanged c direction current target -> column' = c) ->
  (forall direction current target c, col = ConstraintsChanged c direction current target -> c = column) ->
  column_fine (probed column : Descriptor -> Prop) col.
Proof. intros (column' & Hf & Hc) Hn. destruct col; try done. specialize (Hc _ _ _ _ eq_refl). specialize (Hn _ _ _ _ eq_refl). by subst. Qed.

Definition valid_snapshot (s : SchemaSnapshot) : Prop :=
  forall table t, jmap_get table s = Some t -> NoDup ((columns t).*1) /\ forall column d, (column, d) ∈ columns t -> stored d.

Lemma rows_kept current target diff table old (row : string -> value) :
  valid_snapshot current -> valid_snapshot target -> diffSnapshots current target = Ret diff ->
  refusals (classifySchemaDiff diff) = [] ->
  jmap_get table current = Some old -> kind old = table_kind ->
  (forall column d, jmap_get column (columns old) = Some d -> accepts d (row column)) ->
  (forall column before after, TightenConstraints table column before after ∈ optimistic (classifySchemaDiff diff) -> accepts after (row column)) ->
  exists new, jmap_get table target = Some new /\ kind new = table_kind /\
    (forall column, own (columns old) column = true -> own (columns new) column = true) /\
    forall column d, jmap_get column (columns new) = Some d -> accepts d (if own (columns old) column then row column else VNull).
Proof.
  intros Hcur Htgt Hdiff Hr Hold Hkind Hrow Hprobe.
  destruct (table_diffed current target _ diff table Hdiff) as (change & Hch & Hsub).
  { rewrite sort_keys_permutation. apply elem_of_app. left. apply jmap_get_Some_elem in Hold. apply elem_of_fst. by exists old. }
  assert (Hno : forall c, c ∈ change -> forall r, classifyTable c = push_refusal r -> False).
  { intros c Hc r Hcl. destruct (classified c diff (Hsub c Hc)) as [c0 Hg]. rewrite Hcl in Hg. by eapply refuted. }
  unfold diff_table in Hch. rewrite Hold in Hch. destruct (jmap_get table target) as [new|] eqn:Hnew.
  2:{ exfalso. injection Hch as <-. rewrite Hkind in Hno. by eapply Hno; [apply list_elem_of_here|]. }
  rewrite Hkind in Hch. case_bool_decide as Hk; cbn [negb] in Hch.
  2:{ exfalso. injection Hch as <-. destruct (kind new); [done|]. by eapply Hno; [apply list_elem_of_here|]. }
  exc_inv. rename x into cs. exists new. split; [done|]. split; [done|].
  assert (Hfine : forall col, col ∈ cs -> exists column, column_fine (fun d => accepts d (row column)) col /\
      forall direction before after c, col = ConstraintsChanged c direction before after -> column = c).
  { intros col Hc. apply (fine_columns diff table cs (diffIndexes old new) (diffFullText old new) (fun column d => accepts d (row column))); [done|done| |done].
    apply Hsub. subst change. destruct cs; [by apply not_elem_of_nil in Hc|]. apply list_elem_of_here. }
  match goal with H : diffColumns old new = Ret cs |- _ => unfold diffColumns in H end. exc_inv. subst cs.
  destruct (Hcur _ _ Hold) as [Hno1 Hst], (Htgt _ _ Hnew) as [Hno2 Hst']. split.
  - intros column Ho. destruct (own (columns new) column) eqn:E; [done|]. exfalso.
    destruct (Hfine (ColumnDropped column)) as (c & Hf & _); [|exact Hf].
    apply elem_of_app. right. apply list_elem_of_fmap_2, list_elem_of_In, filter_In. split; [|by rewrite E].
    apply list_elem_of_In. by apply bool_decide_eq_true in Ho.
  - intros column d Hg. pose proof (jmap_get_Some_elem _ _ _ Hg) as Hin.
    destruct (new_column _ _ _ ltac:(eassumption) column d Hin) as (chs & Hchs & Hin').
    assert (Hf : forall c, c ∈ chs -> column_fine (fun d => accepts d (row column)) c).
    { intros c Hc. apply (fine_probed column (fun column d => accepts d (row column))); [apply Hfine, elem_of_app; left; auto|].
      intros ? ? ? ? ->. by eapply constraint_column. }
    destruct (jmap_get column (columns old)) as [d0|] eqn:E0.
    + replace (own (columns old) column) with true by (symmetry; apply bool_decide_eq_true, elem_of_fst; exists d0; by apply jmap_get_Some_elem).
      eapply (column_kept (columns old) column d0 d chs (fun d => accepts d (row column))); eauto using jmap_get_Some_elem.
    + replace (own (columns old) column) with false by (symmetry; apply bool_decide_eq_false; by apply jmap_get_None).
      unfold diff_column in Hchs. rewrite E0 in Hchs. injection Hchs as <-. specialize (Hf _ (list_elem_of_here _ _)). cbn in Hf.
      rewrite (unwrap_eq d), Hf. by exists EmptyString, VNull.
Qed.
End safety.

(** ** Properties *)

(** the constraint motion of two descriptors is sound. When the second only
    loosens the constraints of the first, or moves none, every value the first
    accepts the second accepts, with the same result, at every depth. *)
Theorem loosened_keeps_values RegExp_valid RegExp_test number_text d d' m x path y
    (Hv : valid RegExp_valid d) (Hv' : valid RegExp_valid d')
    (Hm : constraintDirection d d' = Ret m) (Hl : m = same \/ m = loosen)
    (Hx : checkDescriptor RegExp_valid RegExp_test number_text d x path = Ret y) :
  checkDescriptor RegExp_valid RegExp_test number_text d' x path = Ret y.
Proof. exact (direction_keeps RegExp_valid RegExp_test number_text d d' m Hv Hv' Hm Hl x path y Hx). Qed.

Definition bounded_name (max : Z) : Descriptor := DString (MkConstraints VUndefined (VNum (num_of_Z max)) VUndefined).
Definition sample_before : Descriptor := DModified nullable (DArray (bounded_name 8) (MkConstraints (VNum (num_of_Z 1)) VUndefined VUndefined)).
Definition sample_after : Descriptor := DModified nullable (DArray (bounded_name 16) no_constraints).

Lemma sample_before_valid : valid (fun _ => true) sample_before.
Proof. split; (split; [exists "t"; vm_compute; reflexivity|done]). Qed.
Lemma sample_after_valid : valid (fun _ => true) sample_after.
Proof. split; (split; [exists "t"; vm_compute; reflexivity|done]). Qed.

Lemma loosened_keeps_values_witness :
  checkDescriptor (fun _ => true) (fun _ _ => true) (fun _ => "n") sample_after (VArr [VStr "ada"]) "row" = Ret (VArr [VStr "ada"]).
Proof.
  apply (loosened_keeps_values (fun _ => true) (fun _ _ => true) (fun _ => "n") sample_before sample_after loosen).
  - exact sample_before_valid.
  - exact sample_after_valid.
  - vm_compute. reflexivity.
  - by right.
  - vm_compute. reflexivity.
Defined.

(** C14: a schema change that is applied without a refusal keeps the rows. In
    every table of the old snapshot, a row that the old columns accept, and for
    which the probes of tightened columns succeeded, is a row the new columns
    accept, with no value of the row lost and added columns null. *)
Theorem safe_changes_keep_rows RegExp_valid RegExp_test number_text current target diff table old (row : string -> value)
    (Hcur : valid_snapshot RegExp_valid current) (Htgt : valid_snapshot RegExp_valid target)
    (Hdiff : diffSnapshots current target = Ret diff) (Hr : refusals (classifySchemaDiff diff) = [])
    (Hold : jmap_get table current = Some old) (Hkind : kind old = table_kind)
    (Hrow : forall column d, jmap_get column (columns old) = Some d -> accepts RegExp_valid RegExp_test number_text d (row column))
    (Hprobe : forall column before after, TightenConstraints table column before after ∈ optimistic (classifySchemaDiff diff) ->
      accepts RegExp_valid RegExp_test number_text after (row column)) :
  exists new, jmap_get table target = Some new /\ kind new = table_kind /\
    (forall column, own (columns old) column = true -> own (columns new) column = true) /\
    forall column d, jmap_get column (columns new) = Some d ->
      accepts RegExp_valid RegExp_test number_text d (if own (columns old) column then row column else VNull).
Proof. by apply (rows_kept RegExp_valid RegExp_test number_text current target diff table old row). Qed.

(** A table that gains a nullable column and an enum variant, and loosens another column. *)
Definition sample_current : SchemaSnapshot :=
  [("users", MkTable table_kind [("id", DPk); ("name", bounded_name 8); ("role", DEnum "Role" ["admin"; "guest"])] [] [])].
Definition sample_target : SchemaSnapshot :=
  [("users", MkTable table_kind [("id", DPk); ("name", bounded_name 16); ("role", DEnum "Role" ["guest"; "owner"; "admin"]);
                                 ("nick", DModified nullable (bounded_name 4))] [] [])].
Definition sample_diff : list TableChange :=
  [TableAltered "users" [ConstraintsChanged "name" loosen (bounded_name 8) (bounded_name 16);
                         VariantsChanged "role" "Role" [MkVariantChange "owner" variant_added]; ColumnAdded "nick" true] [] []].
Definition sample_user (column : string) : value :=
  if decide (column = "id") then VBig 7 else if decide (column = "name") then VStr "ada" else VStr "guest".

Lemma bounded_name_stored z : (0 <= z <= MAX_SAFE_INTEGER)%Z -> stored (fun _ => true) (bounded_name z).
Proof.
  intros Hz. split; [|done]. split; [|done]. exists "t". unfold validateConstraintDescriptor, lengthField. cbn [slot min max mbind exc_bind].
  rewrite num_safe_of_Z by lia. by rewrite decide_False by lia.
Qed.

Lemma sample_snapshots_valid : valid_snapshot (fun _ => true) sample_current /\ valid_snapshot (fun _ => true) sample_target.
Proof.
  split; intros table t Ht; cbn in Ht; (case_decide; [|done]); injection Ht as <-;
    (split; [vm_compute; repeat constructor; set_solver|]); intros column d Hin; cbn in Hin;
    repeat (apply elem_of_cons in Hin as [[= -> ->]|Hin]; [first [by apply bounded_name_stored|by split|
      split; [apply (bounded_name_stored 4); unfold MAX_SAFE_INTEGER; lia|done]]|]); by apply not_elem_of_nil in Hin.
Qed.

Lemma safe_changes_keep_rows_witness :
  exists new, jmap_get "users" sample_target = Some new /\ kind new = table_kind /\
    (forall column, own [("id", DPk); ("name", bounded_name 8); ("role", DEnum "Role" ["admin"; "guest"])] column = true -> own (columns new) column = true) /\
    forall column d, jmap_get column (columns new) = Some d ->
      accepts (fun _ => true) (fun _ _ => true) (fun _ => "n") d
        (if own [("id", DPk); ("name", bounded_name 8); ("role", DEnum "Role" ["admin"; "guest"])] column then sample_user column else VNull).
Proof.
  apply (safe_changes_keep_rows (fun _ => true) (fun _ _ => true) (fun _ => "n") sample_current sample_target sample_diff "users"
    (MkTable table_kind [("id", DPk); ("name", bounded_name 8); ("role", DEnum "Role" ["admin"; "guest"])] [] []) sample_user).
  - apply sample_snapshots_valid.
  - apply sample_snapshots_valid.
  - vm_compute. reflexivity.
  - vm_compute. reflexivity.
  - vm_compute. reflexivity.
  - reflexivity.
  - intros column d Hd. cbn in Hd. repeat (case_decide; [subst; injection Hd as <-; exists "row"; eexists; vm_compute; reflexivity|]). done.
  - intros column before after Hin. vm_compute in Hin. inversion Hin.
Defined.

(** The order in which an object declares its fields is part of the text that is
    compared: two descriptors with the same canonical form are a refused change
    of type, whenever they are compared at all. *)
Lemma reordered_fields_refused :
  let before := DObject [("b", DInt no_constraints); ("a", DPk)] in
  let after := DObject [("a", DPk); ("b", DInt no_constraints)] in
  sortDeep (json before) = sortDeep (json after) /\ diff_column [("c", before)] "c" after = Ret [TypeChanged "c"].
Proof. by split. Qed.
