(* ===== verification/PublicationContract.v ===== *)
(** What ordered publication promises the writer that reserves its slots: one
    reservation is open at a time, at the version after the last committed one;
    it can be committed or canceled once, and nothing else the event loop does
    touches it. *)
From S2P Require Import Prelude Errors Limits Dll Publication PublicationInv.
Local Open Scope Z_scope.

Lemma Ret_inj {E A} (a b : A) : @Ret E A a = Ret b -> a = b.
Proof. congruence. Qed.

Section contract.
Context {T : Type}.
Implicit Types p : OrderedPublication T.

Definition pub_ok p : Prop := exists init vs rs cs, pub_inv init vs p rs cs.

(** What only the writer changes. *)
Definition same_writer p p' : Prop :=
  openReservation p' = openReservation p /\ committedHighWater p' = committedHighWater p.

Lemma same_writer_trans p1 p2 p3 : same_writer p1 p2 -> same_writer p2 p3 -> same_writer p1 p3.
Proof. intros [] []. split; congruence. Qed.

Lemma pump_writer p : same_writer p (pump p).
Proof. unfold pump. destruct (starting p); [done|]. by destruct (first_committed _ _ _ _). Qed.

Lemma resolve_writer p : same_writer p (resolveCloseIfDrained p).
Proof. unfold resolveCloseIfDrained. by destruct (_ || _). Qed.

Lemma settle_writer x error p : same_writer p (settle x error p).
Proof.
  unfold settle. eapply same_writer_trans; [|apply resolve_writer].
  eapply same_writer_trans; [|apply pump_writer].
  unfold settle_slot. destruct (p_slots p !! x); [|done]. by destruct error.
Qed.

Lemma foreign_writer e p p' :
  step e p = Some p' ->
  match e with EClose | EBegin | EAnswer _ | ESettle _ _ => same_writer p p' | _ => True end.
Proof.
  destruct e as [| | | | | |a|x error]; try done; cbn; intros H.
  - injection H as <-. unfold close. destruct (closePromise p); [done|].
    apply (same_writer_trans _ (set_closePromise (Some false) (set_p_closed true p))); [done|apply resolve_writer].
  - apply bind_Some in H as (x & _ & H). injection H as <-. unfold begin. by destruct (p_slots p !! x).
  - apply bind_Some in H as (x & _ & H). injection H as <-. unfold answered. destruct a; [| |done].
    + apply (same_writer_trans _ (set_starting false (set_calling None p))); [done|apply settle_writer].
    + apply (same_writer_trans _ (set_settling ((x, true) :: settling p) (set_starting false (set_calling None p))));
        [done|apply pump_writer].
  - case_bool_decide; [|done]. injection H as <-. unfold promise_settles.
    eapply same_writer_trans; [|apply settle_writer]. by case_bool_decide.
Qed.

Lemma step_ok e p p' : pub_ok p -> step e p = Some p' -> pub_ok p'.
Proof.
  intros (init & vs & rs & cs & H) Hs. destruct (step_inv _ _ _ _ _ _ _ H Hs) as (rs' & cs' & H').
  by exists init, (vs ++ commits [e])%list, rs', cs'.
Qed.

(** The open slot is reserved, at the next version. *)
Lemma open_slot p x :
  pub_ok p -> openReservation p = Some x ->
  exists s, assertOpenSlot x p = Ret s /\ p_slots p !! x = Some s /\ version s = committedHighWater p + 1.
Proof.
  intros (init & vs & rs & cs & H) Ho.
  destruct (core_open _ _ _ _ _ (inv_core _ _ _ _ _ H) _ Ho) as ((s & Hs & Hst) & Hv).
  exists s. unfold assertOpenSlot. rewrite Hs, decide_True by done. split_and!; try done.
  unfold ver in Hv. by rewrite Hs in Hv.
Qed.

Lemma closed_slot p x : openReservation p = None -> assertOpenSlot x p = Throw (PlainError "Publication reservation is no longer open"%string).
Proof.
  intros Ho. unfold assertOpenSlot. destruct (p_slots p !! x); [|done]. rewrite decide_False; [done|].
  intros [? _]. congruence.
Qed.

Lemma reserve_ok p bytes now x p' :
  pub_ok p -> reserve bytes now p = Ret (x, p') ->
  pub_ok p' /\ openReservation p' = Some x /\ committedHighWater p' = committedHighWater p.
Proof.
  intros H Hr. split; [by apply (step_ok (EReserve bytes now) p); [|cbn; rewrite Hr]|].
  unfold reserve in Hr. exc_inv. by simplify_eq.
Qed.

Lemma resize_ok p x bytes p' :
  pub_ok p -> resize x bytes p = Ret p' -> pub_ok p' /\ same_writer p p'.
Proof.
  intros H Hr. split; [by apply (step_ok (EResize x bytes) p); [|cbn; rewrite Hr]|].
  unfold resize in Hr. exc_inv. by subst p'.
Qed.

Lemma cancel_ok p x :
  pub_ok p -> openReservation p = Some x ->
  exists p', cancel x p = Ret p' /\ pub_ok p' /\ openReservation p' = None /\ committedHighWater p' = committedHighWater p.
Proof.
  intros H Ho. destruct (open_slot p x H Ho) as (s & Hs & _).
  assert (Hc : exists p', cancel x p = Ret p') by (unfold cancel; rewrite Hs; by eexists).
  destruct Hc as [p' Hc]. exists p'. split; [done|].
  split; [by apply (step_ok (ECancel x) p); [|cbn; rewrite Hc]|].
  unfold cancel in Hc. rewrite Hs in Hc. apply Ret_inj in Hc. rewrite <-Hc. clear Hc.
  match goal with |- context [resolveCloseIfDrained ?q] => destruct (resolve_writer q) as [-> ->] end. done.
Qed.

Lemma cancel_closed p x :
  openReservation p = None -> cancel x p = Throw (PlainError "Publication reservation is no longer open"%string).
Proof. intros Ho. unfold cancel. by rewrite closed_slot. Qed.

Lemma commit_ok p x v :
  pub_ok p -> openReservation p = Some x ->
  exists p', commit x v p = Ret p' /\ pub_ok p' /\ openReservation p' = None /\
    committedHighWater p' = committedHighWater p + 1.
Proof.
  intros H Ho. destruct (open_slot p x H Ho) as (s & Hs & _ & Hv).
  assert (Hc : exists p', commit x v p = Ret p') by (unfold commit; rewrite Hs; by eexists).
  destruct Hc as [p' Hc]. exists p'. split; [done|].
  split; [by apply (step_ok (ECommit x v) p); [|cbn; rewrite Hc]|].
  unfold commit in Hc. rewrite Hs in Hc. apply Ret_inj in Hc. rewrite <-Hc. clear Hc.
  match goal with |- context [pump ?q] => destruct (pump_writer q) as [-> ->] end. by rewrite <-Hv.
Qed.

(** ** What the readers of a publication rely on *)

(** The calls of [process] so far. *)
Definition same_calls p p' : Prop := p_log p' = p_log p /\ startedHighWater p' = startedHighWater p.

Lemma same_calls_trans p1 p2 p3 : same_calls p1 p2 -> same_calls p2 p3 -> same_calls p1 p3.
Proof. intros [] []. split; congruence. Qed.

Lemma pump_calls p : same_calls p (pump p).
Proof. unfold pump. destruct (starting p); [done|]. by destruct (first_committed _ _ _ _). Qed.

Lemma resolve_calls p : same_calls p (resolveCloseIfDrained p).
Proof. unfold resolveCloseIfDrained. by destruct (_ || _). Qed.

Lemma settle_calls x error p : same_calls p (settle x error p).
Proof.
  unfold settle. eapply same_calls_trans; [|apply resolve_calls].
  eapply same_calls_trans; [|apply pump_calls].
  unfold settle_slot. destruct (p_slots p !! x); [|done]. by destruct error.
Qed.

Lemma answered_calls x a p : same_calls p (answered x a p).
Proof.
  unfold answered. destruct a; [| |done].
  - apply (same_calls_trans _ (set_starting false (set_calling None p))); [done|apply settle_calls].
  - apply (same_calls_trans _ (set_settling ((x, true) :: settling p) (set_starting false (set_calling None p))));
      [done|apply pump_calls].
Qed.

(** Nothing but the microtask of the pump calls [process]. *)
Lemma step_calls e p p' : step e p = Some p' -> e <> EBegin -> same_calls p p'.
Proof.
  destruct e as [bytes now|x bytes|x v|x| | |a|x error]; cbn; intros H Hne; try done.
  - destruct (reserve _ _ _) as [[y q]|err] eqn:Hr; [|done]. unfold reserve in Hr. exc_inv. by simplify_eq.
  - destruct (resize _ _ _) as [q|err] eqn:Hr; [|done]. unfold resize in Hr. exc_inv. by simplify_eq.
  - destruct (commit _ _ _) as [q|err] eqn:Hr; [|done]. unfold commit in Hr. exc_inv. simplify_eq.
    eapply same_calls_trans; [|apply pump_calls]. done.
  - destruct (cancel _ _) as [q|err] eqn:Hr; [|done]. unfold cancel in Hr. exc_inv. simplify_eq.
    eapply same_calls_trans; [|apply resolve_calls]. done.
  - injection H as <-. unfold close. destruct (closePromise p); [done|].
    apply (same_calls_trans _ (set_closePromise (Some false) (set_p_closed true p))); [done|apply resolve_calls].
  - apply bind_Some in H as (x & _ & H). injection H as <-. apply answered_calls.
  - case_bool_decide; [|done]. injection H as <-. unfold promise_settles.
    eapply same_calls_trans; [|apply settle_calls]. by case_bool_decide.
Qed.

(** The committed version only rises. *)
Lemma step_committed e p p' : pub_ok p -> step e p = Some p' -> committedHighWater p <= committedHighWater p'.
Proof.
  intros Hok H. pose proof (foreign_writer _ _ _ H) as Hw.
  destruct e as [bytes now|x bytes|x v|x| | |a|x error]; try (destruct Hw; lia); cbn in H.
  - destruct (reserve _ _ _) as [[y q]|err] eqn:Hr; [|done]. injection H as <-.
    destruct (reserve_ok _ _ _ _ _ Hok Hr) as (_ & _ & ->). lia.
  - destruct (resize _ _ _) as [q|err] eqn:Hr; [|done]. injection H as <-.
    destruct (resize_ok _ _ _ _ Hok Hr) as (_ & _ & ->). lia.
  - destruct (commit _ _ _) as [q|err] eqn:Hr; [|done]. injection H as <-.
    assert (Ho : openReservation p = Some x).
    { unfold commit in Hr. exc_inv. match goal with H : assertOpenSlot _ _ = _ |- _ => by apply assertOpenSlot_ret in H as (_ & ? & _) end. }
    destruct (commit_ok p x v Hok Ho) as (q' & Hq & _ & _ & Hc). rewrite Hr in Hq. injection Hq as <-. lia.
  - destruct (cancel _ _) as [q|err] eqn:Hr; [|done]. injection H as <-.
    assert (Ho : openReservation p = Some x).
    { unfold cancel in Hr. exc_inv. match goal with H : assertOpenSlot _ _ = _ |- _ => by apply assertOpenSlot_ret in H as (_ & ? & _) end. }
    destruct (cancel_ok p x Hok Ho) as (q' & Hq & _ & _ & Hc). rewrite Hr in Hq. injection Hq as <-. lia.
Qed.

(** The slot of the microtask is of the next version, and is committed. *)
Lemma microtask_slot p x : pub_ok p -> microtask p = Some x ->
  exists s v, p_slots p !! x = Some s /\ version s = startedHighWater p + 1 /\ value s = Some v /\
    startedHighWater p < committedHighWater p.
Proof.
  intros (init & vs & rs & cs & [H _ _ _ _]) Hx.
  destruct (core_processing _ _ _ _ _ H x) as (s & Hs & _); [rewrite Hx; set_solver|].
  pose proof (core_versions _ _ _ _ _ H) as Hv. pose proof (core_values _ _ _ _ _ H) as Hval. rewrite Hx in Hv, Hval.
  cbn in Hv, Hval. unfold ver, val in Hv, Hval. rewrite Hs in Hv, Hval. cbn in Hv, Hval.
  assert (Hlt : startedHighWater p < committedHighWater p).
  { destruct (decide (startedHighWater p < committedHighWater p)); [done|]. rewrite seqZ_nil in Hv by lia. done. }
  rewrite seqZ_cons in Hv by lia. injection Hv as Hv _.
  assert (Hin : value s ∈ Some <$> vs) by (rewrite <- Hval; set_solver).
  apply list_elem_of_fmap in Hin as (v & Hv' & _). by exists s, v.
Qed.

(** Every call was for a committed value. *)
Lemma log_values p v o : pub_ok p -> (v, o) ∈ p_log p -> exists c, o = Some c.
Proof.
  intros (init & vs & rs & cs & [H _ _ _ _]) Hin. pose proof (core_values _ _ _ _ _ H) as Hval.
  assert (Ho : o ∈ Some <$> vs).
  { rewrite <- Hval. apply elem_of_app. left. apply list_elem_of_fmap. by exists (v, o). }
  apply list_elem_of_fmap in Ho as (c & -> & _). eauto.
Qed.
End contract.
