(* ===== verification/Effects.v ===== *)
(** Effectful code: a computation reads and changes a state and returns or
    throws; what it changed before it threw stays changed, as in the source.
    The rules are a weakest-precondition calculus on such computations. *)
From S2P Require Import Prelude Errors.

Definition eff (S A : Type) : Type := S -> exc js_error A * S.

#[export] Instance eff_ret {S} : MRet (eff S) := fun A a s => (Ret a, s).
#[export] Instance eff_bind {S} : MBind (eff S) := fun A B k m s =>
  match m s with
  | (Ret a, s) => k a s
  | (Throw e, s) => (Throw e, s)
  end.

Section eff.
Context {S : Type}.

Definition throw {A} (e : js_error) : eff S A := fun s => (Throw e, s).

(** A computation without effects. *)
Definition lift {A} (m : exc js_error A) : eff S A := fun s => (m, s).

Definition get {A} (f : S -> A) : eff S A := fun s => (Ret (f s), s).
Definition modify (f : S -> S) : eff S unit := fun s => (Ret tt, f s).

(** [try { m } catch (error) { h(error) }] *)
Definition catch {A} (m : eff S A) (h : js_error -> eff S A) : eff S A := fun s =>
  match m s with
  | (Ret a, s) => (Ret a, s)
  | (Throw e, s) => h e s
  end.

(** [if (b) m] *)
Definition when (b : bool) (m : eff S unit) : eff S unit := if b then m else mret tt.

(** ** Running *)

Lemma run_get {A B} (f : S -> A) (k : A -> eff S B) s : (get f ≫= k) s = k (f s) s.
Proof. done. Qed.

Lemma run_modify {B} (f : S -> S) (k : unit -> eff S B) s : (modify f ≫= k) s = k tt (f s).
Proof. done. Qed.

Lemma run_ret {A B} (a : A) (k : A -> eff S B) s : (mret a ≫= k) s = k a s.
Proof. done. Qed.

Lemma run_throw {A B} e (k : A -> eff S B) s : (throw e ≫= k) s = (Throw e, s).
Proof. done. Qed.

Lemma run_bind {A B} (m : eff S A) (k : A -> eff S B) s :
  (m ≫= k) s = match m s with (Ret a, s') => k a s' | (Throw e, s') => (Throw e, s') end.
Proof. done. Qed.

(** ** Weakest preconditions *)

Definition wp {A} (m : eff S A) (Q : exc js_error A -> S -> Prop) (s : S) : Prop := Q (m s).1 (m s).2.

#[global] Arguments wp {A} m Q s : simpl never.

Lemma wp_mono {A} (m : eff S A) (Q Q' : exc js_error A -> S -> Prop) s :
  wp m Q s -> (forall r s', Q r s' -> Q' r s') -> wp m Q' s.
Proof. unfold wp. auto. Qed.

Lemma wp_conj {A} (m : eff S A) (Q Q' : exc js_error A -> S -> Prop) s :
  wp m Q s -> wp m Q' s -> wp m (fun r s' => Q r s' /\ Q' r s') s.
Proof. by split. Qed.

Lemma wp_ret {A} (a : A) (Q : exc js_error A -> S -> Prop) s : Q (Ret a) s -> wp (mret a) Q s.
Proof. done. Qed.

Lemma wp_throw {A} e (Q : exc js_error A -> S -> Prop) s : Q (Throw e) s -> wp (throw e) Q s.
Proof. done. Qed.

Lemma wp_lift {A} (m : exc js_error A) (Q : exc js_error A -> S -> Prop) s : Q m s -> wp (lift m) Q s.
Proof. done. Qed.

Lemma wp_get {A} (f : S -> A) (Q : exc js_error A -> S -> Prop) s : Q (Ret (f s)) s -> wp (get f) Q s.
Proof. done. Qed.

Lemma wp_modify (f : S -> S) (Q : exc js_error unit -> S -> Prop) s : Q (Ret tt) (f s) -> wp (modify f) Q s.
Proof. done. Qed.

Lemma wp_bind {A B} (m : eff S A) (k : A -> eff S B) (Q : exc js_error B -> S -> Prop) s :
  wp m (fun r s' => match r with Ret a => wp (k a) Q s' | Throw e => Q (Throw e) s' end) s ->
  wp (m ≫= k) Q s.
Proof. unfold wp, mbind, eff_bind. destruct (m s) as [[a|e] s']; done. Qed.

Lemma wp_catch {A} (m : eff S A) (h : js_error -> eff S A) (Q : exc js_error A -> S -> Prop) s :
  wp m (fun r s' => match r with Ret a => Q (Ret a) s' | Throw e => wp (h e) Q s' end) s ->
  wp (catch m h) Q s.
Proof. unfold wp, catch. destruct (m s) as [[a|e] s']; done. Qed.

Lemma wp_when (b : bool) m (Q : exc js_error unit -> S -> Prop) s :
  (b = true -> wp m Q s) -> (b = false -> Q (Ret tt) s) -> wp (when b m) Q s.
Proof. destruct b; cbn; intros H1 H2; [by apply H1|by apply wp_ret, H2]. Qed.

(** A bind whose first part has a known postcondition. *)
Lemma wp_seq {A B} (P : exc js_error A -> S -> Prop) (m : eff S A) (k : A -> eff S B)
    (Q : exc js_error B -> S -> Prop) s :
  wp m P s ->
  (forall a s', P (Ret a) s' -> wp (k a) Q s') ->
  (forall e s', P (Throw e) s' -> Q (Throw e) s') ->
  wp (m ≫= k) Q s.
Proof.
  intros Hm Hk Ht. apply wp_bind. eapply wp_mono; [exact Hm|]. intros [a|e] s' H; auto.
Qed.

Lemma wp_run {A} (m : eff S A) (Q : exc js_error A -> S -> Prop) s r s' : wp m Q s -> m s = (r, s') -> Q r s'.
Proof. unfold wp. intros H E. by rewrite E in H. Qed.
End eff.

(** A computation on a part of the state. *)
Section zoom.
Context {S S' : Type} (part : S -> S') (put : S' -> S -> S).

Definition zoom {A} (m : eff S' A) : eff S A := fun s => let '(r, p) := m (part s) in (r, put p s).

Lemma wp_zoom {A} (m : eff S' A) (Q : exc js_error A -> S -> Prop) s :
  wp m (fun r p => Q r (put p s)) (part s) -> wp (zoom m) Q s.
Proof. unfold wp, zoom. by destruct (m (part s)). Qed.
End zoom.

(** ** What a computation keeps

    [keeps R m]: however [m] ends, its state is related to the one it began
    with. For an invariant, [R] is that it is not lost. *)
Section keeps.
Context {S : Type} (R : S -> S -> Prop) `{!PreOrder R}.

Definition keeps {A} (m : eff S A) : Prop := forall s, R s (m s).2.

Lemma keeps_pure {A} (m : eff S A) : (forall s, (m s).2 = s) -> keeps m.
Proof. intros H s. by rewrite H. Qed.
Lemma keeps_ret {A} (a : A) : keeps (mret a).
Proof. by apply keeps_pure. Qed.
Lemma keeps_throw {A} err : keeps (throw err : eff S A).
Proof. by apply keeps_pure. Qed.
Lemma keeps_lift {A} (m : exc js_error A) : keeps (lift m).
Proof. by apply keeps_pure. Qed.
Lemma keeps_get {A} (f : S -> A) : keeps (get f).
Proof. by apply keeps_pure. Qed.
Lemma keeps_modify f : (forall s, R s (f s)) -> keeps (modify f).
Proof. done. Qed.
Lemma keeps_bind {A B} (m : eff S A) (f : A -> eff S B) : keeps m -> (forall a, keeps (f a)) -> keeps (m ≫= f).
Proof. intros Hm Hf s. rewrite run_bind. specialize (Hm s). destruct (m s) as [[a|err] s1]; [|done]. by etransitivity; [|apply Hf]. Qed.
Lemma keeps_when b m : keeps m -> keeps (when b m).
Proof. destruct b; [done|intros _; apply keeps_ret]. Qed.
Lemma keeps_catch {A} (m : eff S A) h : keeps m -> (forall e, keeps (h e)) -> keeps (catch m h).
Proof. intros Hm Hh s. unfold catch. specialize (Hm s). destruct (m s) as [[a|err] s1]; [done|]. by etransitivity; [|apply Hh]. Qed.

(** The rest of a computation may use what a state looked like. *)
Lemma keeps_get_bind {A B} (f : S -> A) (m : A -> eff S B) : (forall s, R s (m (f s) s).2) -> keeps (get f ≫= m).
Proof. intros H s. rewrite run_get. apply H. Qed.
End keeps.

(** Takes a computation apart; the lemmas of its own steps are [keep]'s hints. *)
Create HintDb keep discriminated.

Ltac keeps_split :=
  match goal with
  | |- keeps _ (mret _) => apply (keeps_ret _)
  | |- keeps _ (throw _) => apply (keeps_throw _)
  | |- keeps _ (lift _) => apply (keeps_lift _)
  | |- keeps _ (get _) => apply (keeps_get _)
  | |- keeps _ (when _ _) => apply (keeps_when _)
  | |- keeps _ (catch _ _) => apply (keeps_catch _); [|intros]
  | |- keeps _ (mbind _ _) => apply (keeps_bind _); [|intros]
  | |- keeps _ (let _ := _ in _) => cbv zeta
  | |- keeps _ (match ?m with _ => _ end) => destruct m
  end.

Ltac keeps_auto := repeat first [solve [eauto with keep nocore]|keeps_split].
