(* ===== verification/Database.v ===== *)
(** The engine's SQLite connection as the mutation ledger and the commit
    coordinator use it: [server/src/database/engine.ts].

    The framework tables are [_ackerdb_state] and [_ackerdb_mutations]; every
    other table is the application's, an abstract value here. A connection
    holds the tables and, while a transaction is open, the tables [ROLLBACK]
    restores, which are also what a crash leaves. Any statement may be refused
    by SQLite: the failures are a parameter, by the number of the statement, and
    a failure either leaves the open transaction as it was or, as SQLite does
    when it runs out of space or memory, rolls it back. *)
From S2P Require Import Prelude Errors Effects Value Protocol.
Local Open Scope string_scope.

(** What a REAL column holds: a finite number, carried as an integer like every
    time of the library, or an infinity. *)
Inductive real : Type := NegInf | Real (t : Z) | PosInf.

#[export] Instance real_eq_dec : EqDecision real.
Proof. solve_decision. Defined.

Definition real_le (x y : real) : bool :=
  match x, y with
  | NegInf, _ | _, PosInf => true
  | Real a, Real b => bool_decide (a <= b)%Z
  | _, _ => false
  end.
Definition real_lt (x y : real) : bool := negb (real_le y x).
Definition real_finite (x : real) : bool := match x with Real _ => true | _ => false end.

(** [Math.max(now, x)], for a finite [now]. *)
Definition real_max (now : Z) (x : real) : real :=
  match x with NegInf => Real now | Real t => Real (Z.max now t) | PosInf => PosInf end.

Inductive ResultDisposition : Type := replayable | one_time.

#[export] Instance disposition_eq_dec : EqDecision ResultDisposition.
Proof. solve_decision. Defined.

Record StateRow : Type := MkStateRow {
  commit_version : Z;
  mutation_sequence : Z;
  mutation_records : Z;
  mutation_result_bytes : Z;
}.

(** A row of [_ackerdb_mutations]. The result column holds the text of a JSON
    value, and stands here for that value. *)
Record StoredRow : Type := MkStoredRow {
  row_sequence : Z;
  row_commit_version : Z;
  session_id : string;
  request_id : string;
  issued_at : num;
  principal_fingerprint : string;
  function_ref : string;
  args_fingerprint : string;
  result_disposition : ResultDisposition;
  row_result : option value;
  result_bytes : Z;
  row_durability : DurabilityPolicy;
  completed_at : real;
}.

(** The CHECK constraints of the two tables. *)
Definition state_checks (s : StateRow) : bool :=
  bool_decide (0 <= commit_version s /\ 0 <= mutation_sequence s /\
               0 <= mutation_records s /\ 0 <= mutation_result_bytes s)%Z.

Definition row_checks (r : StoredRow) : bool :=
  bool_decide (0 < row_sequence r)%Z && bool_decide (0 <= row_commit_version r)%Z &&
  bool_decide (0 <= result_bytes r)%Z &&
  match result_disposition r, row_result r with
  | replayable, Some _ => true
  | one_time, None => bool_decide (result_bytes r = 0%Z)
  | _, _ => false
  end.

(** INSERT, in the order of the primary key; [None] when the key is taken. *)
Fixpoint insert_row (r : StoredRow) (rows : list StoredRow) : option (list StoredRow) :=
  match rows with
  | [] => Some [r]
  | r' :: rest =>
      if decide (row_sequence r < row_sequence r')%Z then Some (r :: rows)
      else if decide (row_sequence r = row_sequence r') then None
      else match insert_row r rest with Some rest => Some (r' :: rest) | None => None end
  end.

Section database.
Context {App : Type}.

(** [mutations] is in the order of its primary key. The state table has at most
    the one row its CHECK allows. *)
Record Tables : Type := MkTables {
  state_row : option StateRow;
  mutations : list StoredRow;
  app : App;
}.

Record Connection : Type := MkConnection {
  tables : Tables;
  saved : option Tables;  (* what ROLLBACK restores, while a transaction is open *)
  statements : nat;       (* the statements run so far *)
}.

(** What is on disk: what a crash leaves. *)
Definition durable (c : Connection) : Tables := default (tables c) (saved c).

(** The tables of a new database. *)
Definition initial_tables (a : App) : Tables := MkTables (Some (MkStateRow 0 0 0 0)) [] a.

Inductive Fault : Type :=
  | Refused (e : js_error)       (* the statement had no effect *)
  | RolledBack (e : js_error).   (* nor did it, and the open transaction is gone *)

(** The failures may depend on what the statement is for. *)
Inductive StatementKind : Type := BEGIN | COMMIT | ROLLBACK | QUERY.

Context (fault : StatementKind -> nat -> option Fault).

Definition rolled_back (c : Connection) : Connection := MkConnection (durable c) None (statements c).
Definition counted (c : Connection) : Connection := MkConnection (tables c) (saved c) (S (statements c)).

(** One statement. *)
Definition statement {A} (kind : StatementKind) (run : eff Connection A) : eff Connection A := fun c =>
  match fault kind (statements c) with
  | Some (Refused e) => (Throw e, counted c)
  | Some (RolledBack e) => (Throw e, counted (rolled_back c))
  | None => run (counted c)
  end.

Definition set_tables (t : Tables) (c : Connection) : Connection := MkConnection t (saved c) (statements c).

Definition begin_immediate : eff Connection unit := statement BEGIN (fun c =>
  match saved c with
  | Some _ => (Throw (PlainError "cannot start a transaction within a transaction"), c)
  | None => (Ret tt, MkConnection (tables c) (Some (tables c)) (statements c))
  end).

Definition commit_transaction : eff Connection unit := statement COMMIT (fun c =>
  match saved c with
  | Some _ => (Ret tt, MkConnection (tables c) None (statements c))
  | None => (Throw (PlainError "cannot commit - no transaction is active"), c)
  end).

Definition rollback_transaction : eff Connection unit := statement ROLLBACK (fun c =>
  match saved c with
  | Some t => (Ret tt, MkConnection t None (statements c))
  | None => (Throw (PlainError "cannot rollback - no transaction is active"), c)
  end).

(** [UPDATE _ackerdb_state SET ... WHERE singleton = 1 RETURNING ...]: the new
    row, [None] when there is none to update. *)
Definition update_state (f : StateRow -> StateRow) : eff Connection (option StateRow) := statement QUERY (fun c =>
  match state_row (tables c) with
  | None => (Ret None, c)
  | Some s =>
      if state_checks (f s)
      then (Ret (Some (f s)), set_tables (MkTables (Some (f s)) (mutations (tables c)) (app (tables c))) c)
      else (Throw (PlainError "CHECK constraint failed"), c)
  end).

Definition insert_mutation (r : StoredRow) : eff Connection unit := statement QUERY (fun c =>
  if row_checks r then
    match insert_row r (mutations (tables c)) with
    | Some rows => (Ret tt, set_tables (MkTables (state_row (tables c)) rows (app (tables c))) c)
    | None => (Throw (PlainError "UNIQUE constraint failed: _ackerdb_mutations.sequence"), c)
    end
  else (Throw (PlainError "CHECK constraint failed"), c)).

(** [DELETE FROM _ackerdb_mutations WHERE sequence <= ?], with the number of
    rows deleted. *)
Definition delete_mutations (through : Z) : eff Connection nat := statement QUERY (fun c =>
  let rows := mutations (tables c) in
  let kept := filter (fun r => ~ (row_sequence r <= through)%Z) rows in
  (Ret (length rows - length kept)%nat,
   set_tables (MkTables (state_row (tables c)) kept (app (tables c))) c)).

Definition select_mutation (sequence : Z) : eff Connection (option StoredRow) := statement QUERY (fun c =>
  (Ret (find (fun r => bool_decide (row_sequence r = sequence)) (mutations (tables c))), c)).

Definition select_prefix (limit : nat) : eff Connection (list StoredRow) := statement QUERY (fun c =>
  (Ret (take limit (mutations (tables c))), c)).

(** A property of [null] is a thrown [TypeError]. *)
Definition not_null {A} (o : option A) : eff Connection A :=
  match o with Some a => mret a | None => throw (TypeError "null is not an object") end.

Definition commitVersion : eff Connection Z :=
  s ← statement QUERY (get (fun c => state_row (tables c)));
  s ← not_null s;
  mret (commit_version s).

Definition allocateCommitVersion : eff Connection Z :=
  s ← update_state (fun s => MkStateRow (commit_version s + 1)%Z (mutation_sequence s) (mutation_records s)
                               (mutation_result_bytes s));
  s ← not_null s;
  mret (commit_version s).

(** ** What statements do *)

(** A refused statement leaves what is on disk. *)
Lemma wp_statement {A} kind (run : eff Connection A) (Q : exc js_error A -> Connection -> Prop) c :
  (forall e c', durable c' = durable c -> (saved c = None -> saved c' = None) -> Q (Throw e) c') ->
  wp run Q (counted c) -> wp (statement kind run) Q c.
Proof.
  intros Hf Hr. unfold wp, statement. destruct (fault kind (statements c)) as [[e|e]|]; [..|exact Hr]; cbn; by apply Hf.
Qed.

Lemma wp_begin c :
  saved c = None ->
  wp begin_immediate (fun r c' =>
    durable c' = durable c /\
    match r with
    | Ret _ => tables c' = tables c /\ saved c' = Some (tables c)
    | Throw _ => saved c' = None
    end) c.
Proof.
  intros Hs. apply wp_statement; [intros e c' Hd Hc; split; [done|by apply Hc]|].
  unfold wp. cbn. rewrite Hs. cbn. unfold durable. by rewrite Hs.
Qed.

Lemma wp_commit c t :
  saved c = Some t ->
  wp commit_transaction (fun r c' =>
    match r with
    | Ret _ => tables c' = tables c /\ saved c' = None
    | Throw _ => durable c' = t
    end) c.
Proof.
  intros Hs. apply wp_statement.
  - intros e c' Hd _. rewrite Hd. unfold durable. by rewrite Hs.
  - unfold wp. cbn. by rewrite Hs.
Qed.

(** A ROLLBACK that is not refused ends the transaction, if there is one. *)
Lemma wp_rollback c :
  (forall n, fault ROLLBACK n = None) ->
  wp rollback_transaction (fun r c' => durable c' = durable c /\ saved c' = None /\ (saved c <> None -> r = Ret tt)) c.
Proof.
  intros Hf. unfold wp, rollback_transaction, statement. rewrite Hf. cbn.
  unfold durable. destruct (saved c) as [t|] eqn:Hs; cbn; rewrite ?Hs; by split_and!.
Qed.

(** A query inside a transaction. *)
Lemma wp_query {A} (run : eff Connection A) (Q : exc js_error A -> Connection -> Prop) c t :
  saved c = Some t ->
  (forall e c', durable c' = t -> Q (Throw e) c') ->
  wp run Q (counted c) -> wp (statement QUERY run) Q c.
Proof.
  intros Hs Hf Hr. apply wp_statement; [|done]. intros e c' Hd _. apply Hf. rewrite Hd.
  unfold durable. by rewrite Hs.
Qed.

Lemma wp_update c t f s :
  saved c = Some t -> state_row (tables c) = Some s ->
  wp (update_state f) (fun r c' =>
    match r with
    | Ret o => o = Some (f s) /\ state_checks (f s) = true /\ saved c' = Some t /\
               tables c' = MkTables (Some (f s)) (mutations (tables c)) (app (tables c))
    | Throw _ => durable c' = t
    end) c.
Proof.
  intros Hs Hrow. apply (wp_query _ _ _ t); [done|done|]. unfold wp. cbn. rewrite Hrow.
  destruct (state_checks (f s)) eqn:Hc; cbn; [done|]. unfold durable. cbn. by rewrite Hs.
Qed.

Lemma wp_insert c t r :
  saved c = Some t ->
  wp (insert_mutation r) (fun o c' =>
    match o with
    | Ret _ => row_checks r = true /\ saved c' = Some t /\
               exists rows, insert_row r (mutations (tables c)) = Some rows /\
                 tables c' = MkTables (state_row (tables c)) rows (app (tables c))
    | Throw _ => durable c' = t
    end) c.
Proof.
  intros Hs. apply (wp_query _ _ _ t); [done|done|]. unfold wp. cbn.
  destruct (row_checks r); cbn; [|unfold durable; cbn; by rewrite Hs].
  destruct (insert_row r _) as [rows|] eqn:E; cbn; [|unfold durable; cbn; by rewrite Hs].
  split_and!; [done|done|]. by exists rows.
Qed.

Lemma insert_row_last r rows :
  Forall (fun x => row_sequence x < row_sequence r)%Z rows -> insert_row r rows = Some (rows ++ [r])%list.
Proof.
  induction 1 as [|x rows Hx _ IH]; cbn; [done|]. rewrite !decide_False by lia. by rewrite IH.
Qed.
End database.
Arguments Tables : clear implicits.
Arguments Connection : clear implicits.
