(* ===== verification/MutationReplay.v ===== *)
(** The mutation replay ledger: [server/src/database/mutation-replay.ts].

    The durable ledger is the table [_ackerdb_mutations] with its counters in
    [_ackerdb_state]; the object keeps an index from (session, request) to
    sequence and the same counters in memory. [stage] writes inside the caller's
    transaction, [committed] updates the index after its COMMIT. *)
From S2P Require Import Prelude Errors Effects Value Protocol Database.
Local Open Scope string_scope.

Record NewStoredMutation : Type := MkNewStoredMutation {
  sessionId : string;
  requestId : string;
  issuedAt : num;
  principalFingerprint : string;
  functionRef : string;
  argsFingerprint : string;
  resultDisposition : ResultDisposition;
  result : option value;
  resultBytes : num;
  durability : DurabilityPolicy;
}.

Record StoredMutation : Type := MkStoredMutation {
  stored : NewStoredMutation;
  sequence : Z;
  commitVersion : Z;
  completedAt : real;
}.

(** The two levels of [Map]s of the index. No code iterates over them. *)
Abbreviation Index := (gmap string (gmap string Z)).

Definition index_get (index : Index) (session request : string) : option Z :=
  m ← index !! session; m !! request.

Definition index_set (session request : string) (sequence : Z) (index : Index) : Index :=
  <[session := <[request := sequence]> (default ∅ (index !! session))]> index.

(** [index.get(session)!.delete(request)], dropping a session left empty. *)
Definition index_delete (session request : string) (index : Index) : Index :=
  match index !! session with
  | None => index
  | Some m =>
      let m := delete request m in
      if decide (m = ∅) then delete session index else <[session := m]> index
  end.

Record MutationReplaySnapshot : Type := MkReplaySnapshot {
  snap_commitVersion : Z;
  snap_mutationSequence : Z;
  snap_index : Index;
  snap_records : Z;
  snap_resultBytes : Z;
  snap_lastCompletedAt : real;
}.

Definition toStoredMutation (r : StoredRow) : StoredMutation :=
  MkStoredMutation
    (MkNewStoredMutation (session_id r) (request_id r) (issued_at r) (principal_fingerprint r)
       (function_ref r) (args_fingerprint r) (result_disposition r) (row_result r)
       (num_of_Z (result_bytes r)) (row_durability r))
    (row_sequence r) (row_commit_version r) (completed_at r).

(** ** Reading the ledger back *)

(** The locals of the loop of [scanMutationReplay]. *)
Record Scan : Type := MkScan {
  scan_index : Index;
  scan_records : Z;
  scan_bytes : Z;
  previousSequence : Z;
  previousVersion : Z;
  scan_last : real;
}.

Definition scan_row (s : StateRow) (acc : Scan) (r : StoredRow) : exc js_error Scan :=
  _ ← throw_if
        (bool_decide (row_sequence r <= previousSequence acc)%Z ||
         bool_decide (mutation_sequence s < row_sequence r)%Z ||
         bool_decide (row_commit_version r < previousVersion acc)%Z ||
         bool_decide (commit_version s < row_commit_version r)%Z)
        (CorruptDatabaseError "mutation replay ledger has an invalid commit order or sequence");
  _ ← throw_if (negb (real_finite (completed_at r)) || real_lt (completed_at r) (scan_last acc))
        (CorruptDatabaseError "mutation replay ledger completion time is not monotonic");
  _ ← throw_if (bool_decide (is_Some (index_get (scan_index acc) (session_id r) (request_id r))))
        (CorruptDatabaseError "mutation replay ledger contains a duplicate scoped request");
  Ret (MkScan (index_set (session_id r) (request_id r) (row_sequence r) (scan_index acc))
         (scan_records acc + 1) (scan_bytes acc + result_bytes r)
         (row_sequence r) (row_commit_version r) (completed_at r))%Z.

Fixpoint scan_rows (s : StateRow) (acc : Scan) (rows : list StoredRow) : exc js_error Scan :=
  match rows with
  | [] => Ret acc
  | r :: rows => acc ← scan_row s acc r; scan_rows s acc rows
  end.

Definition scanMutationReplay {App} (t : Tables App) : exc js_error MutationReplaySnapshot :=
  match state_row t with
  | None => Throw (CorruptDatabaseError "missing AckerDB state singleton")
  | Some s =>
      acc ← scan_rows s (MkScan ∅ 0 0 0 0 NegInf) (mutations t);
      _ ← throw_if
            (negb (bool_decide (scan_records acc = mutation_records s)) ||
             negb (bool_decide (scan_bytes acc = mutation_result_bytes s)))
            (CorruptDatabaseError "mutation replay ledger counters do not match stored records");
      _ ← throw_if (bool_decide (mutation_sequence s < previousSequence acc)%Z)
            (CorruptDatabaseError "mutation replay sequence exceeds internal state");
      _ ← throw_if (bool_decide (MAX_SAFE_INTEGER < Z.abs (scan_bytes acc))%Z)
            (CorruptDatabaseError "mutation replay ledger byte count exceeds the supported range");
      Ret (MkReplaySnapshot (commit_version s) (mutation_sequence s) (scan_index acc)
             (scan_records acc) (scan_bytes acc) (scan_last acc))
  end.

(** ** The ledger *)

Section ledger.
Context {App : Type} (fault : StatementKind -> nat -> option Fault).

Record MutationReplayLedger : Type := MkLedger {
  connection : Connection App;
  index : Index;
  recordCount : Z;
  byteCount : Z;
  lastCompletedAt : real;
}.

Definition set_connection (c : Connection App) (l : MutationReplayLedger) : MutationReplayLedger :=
  MkLedger c (index l) (recordCount l) (byteCount l) (lastCompletedAt l).

(** Statements on the ledger's connection. *)
Definition sql {A} (m : eff (Connection App) A) : eff MutationReplayLedger A := zoom connection set_connection m.

Definition new_MutationReplayLedger (c : Connection App) (s : MutationReplaySnapshot) : MutationReplayLedger :=
  MkLedger c (snap_index s) (snap_records s) (snap_resultBytes s) (snap_lastCompletedAt s).

Definition lookup_mutation (session request : string) : eff MutationReplayLedger (option StoredMutation) :=
  found ← get (fun l => index_get (index l) session request);
  match found with
  | None => mret None
  | Some sequence =>
      row ← sql (select_mutation fault sequence);
      match row with
      | Some r =>
          if bool_decide (session_id r = session /\ request_id r = request)
          then mret (Some (toStoredMutation r))
          else throw (CorruptDatabaseError "mutation replay index does not match its durable ledger")
      | None => throw (CorruptDatabaseError "mutation replay index does not match its durable ledger")
      end
  end.

Inductive Allocation : Type := commit_allocation | replay_allocation.

(** [this.allocateCommit] and [this.allocateReplay]. *)
Definition allocate (a : Allocation) (bytes : Z) : eff (Connection App) StateRow :=
  s ← update_state fault (fun s =>
        MkStateRow (match a with commit_allocation => commit_version s + 1 | replay_allocation => commit_version s end)
          (mutation_sequence s + 1) (mutation_records s + 1) (mutation_result_bytes s + bytes))%Z;
  not_null s.

(** The row [append] inserts. *)
Definition row_of (r : NewStoredMutation) (bytes : Z) (s : StateRow) (completed : real) : StoredRow :=
  MkStoredRow (mutation_sequence s) (commit_version s) (sessionId r) (requestId r) (issuedAt r)
    (principalFingerprint r) (functionRef r) (argsFingerprint r) (resultDisposition r) (result r)
    bytes (durability r) completed.

Definition stage (r : NewStoredMutation) (now : ms) (a : Allocation)
    : eff MutationReplayLedger StoredMutation :=
  bytes ← lift (match num_safe_integer (resultBytes r) with
                | Some b => if bool_decide (b < 0)%Z
                            then Throw (RangeError "mutation resultBytes must be a non-negative safe integer") else Ret b
                | None => Throw (RangeError "mutation resultBytes must be a non-negative safe integer")
                end);
  now ← lift (match now with
              | Finite t => Ret t
              | NonFinite => Throw (RangeError "mutation completion time must be finite")
              end);
  _ ← lift (throw_if
        (match resultDisposition r, result r with
         | replayable, None => true
         | one_time, Some _ => true
         | one_time, None => negb (bool_decide (bytes = 0%Z))
         | replayable, Some _ => false
         end)
        (TypeError "mutation result does not match its replay disposition"));
  found ← get (fun l => index_get (index l) (sessionId r) (requestId r));
  _ ← lift (throw_if (bool_decide (is_Some found)) (PlainError "mutation replay request is already stored"));
  last ← get lastCompletedAt;
  let completed := real_max now last in
  s ← sql (allocate a bytes);
  _ ← sql (insert_mutation fault (row_of r bytes s completed));
  mret (MkStoredMutation r (mutation_sequence s) (commit_version s) completed).

(** The staged byte count is a non-negative safe integer. *)
Definition staged_bytes (r : StoredMutation) : Z := default 0%Z (num_safe_integer (resultBytes (stored r))).

Definition committed (r : StoredMutation) (l : MutationReplayLedger) : MutationReplayLedger :=
  MkLedger (connection l)
    (index_set (sessionId (stored r)) (requestId (stored r)) (sequence r) (index l))
    (recordCount l + 1)%Z (byteCount l + staged_bytes r)%Z (completedAt r).

(** The rows before the first one completed at or after [completedBefore]. *)
Fixpoint expired_prefix (completedBefore : Z) (rows : list StoredRow) : list StoredRow :=
  match rows with
  | [] => []
  | r :: rows => if real_le (Real completedBefore) (completed_at r) then [] else r :: expired_prefix completedBefore rows
  end.

Definition sum_bytes (rows : list StoredRow) : Z := foldr (fun r n => result_bytes r + n)%Z 0%Z rows.

(** The transaction of [prune]. *)
Definition prune_transaction (prefix : list StoredRow) (through : Z) : eff (Connection App) unit :=
  removed ← delete_mutations fault through;
  _ ← lift (throw_if (negb (bool_decide (removed = length prefix)))
        (CorruptDatabaseError "mutation replay prefix changed during pruning"));
  _ ← update_state fault (fun s =>
        MkStateRow (commit_version s) (mutation_sequence s) (mutation_records s - Z.of_nat (length prefix))
          (mutation_result_bytes s - sum_bytes prefix))%Z;
  commit_transaction fault.

Definition forget (prefix : list StoredRow) (l : MutationReplayLedger) : MutationReplayLedger :=
  MkLedger (connection l)
    (foldl (fun index r => index_delete (session_id r) (request_id r) index) (index l) prefix)
    (recordCount l - Z.of_nat (length prefix))%Z (byteCount l - sum_bytes prefix)%Z (lastCompletedAt l).

Definition prune (completedBefore : ms) (limit : num) : eff MutationReplayLedger nat :=
  before ← lift (match completedBefore with
                 | Finite t => Ret t
                 | NonFinite => Throw (RangeError "mutation prune time must be finite")
                 end);
  n ← lift (match num_safe_integer limit with
            | Some n => if bool_decide (n <= 0)%Z
                        then Throw (RangeError "mutation prune limit must be a positive safe integer") else Ret n
            | None => Throw (RangeError "mutation prune limit must be a positive safe integer")
            end);
  rows ← sql (select_prefix fault (Z.to_nat n));
  let prefix := expired_prefix before rows in
  match last prefix with
  | None => mret 0%nat
  | Some r =>
      _ ← sql (begin_immediate fault);
      _ ← sql (catch (prune_transaction prefix (row_sequence r))
                 (fun error => _ ← rollback_transaction fault; throw error));
      _ ← modify (forget prefix);
      mret (length prefix)
  end.
End ledger.
Arguments MutationReplayLedger : clear implicits.
