(* ===== verification/MutationReplayInv.v ===== *)
(** The invariant of the replay ledger: the durable rows are well formed and the
    object's index and counters are exactly those of the rows; and what [stage],
    [committed], [lookup] and [prune] do to it. *)
From S2P Require Import Prelude Errors Effects Value Protocol Database MutationReplay.
Local Open Scope list_scope.

(** ** The index *)

Lemma index_get_set session request q i session' request' :
  index_get (index_set session request q i) session' request' =
  if decide ((session, request) = (session', request')) then Some q else index_get i session' request'.
Proof.
  unfold index_get, index_set. destruct (decide (session = session')) as [<-|Hs].
  - rewrite lookup_insert_eq. cbn. destruct (decide (request = request')) as [<-|Hr].
    + by rewrite lookup_insert_eq, decide_True.
    + rewrite lookup_insert_ne, decide_False by congruence. by destruct (i !! session).
  - by rewrite lookup_insert_ne, decide_False by congruence.
Qed.

Lemma index_get_delete session request i session' request' :
  index_get (index_delete session request i) session' request' =
  if decide ((session, request) = (session', request')) then None else index_get i session' request'.
Proof.
  unfold index_get, index_delete. destruct (i !! session) as [m|] eqn:E.
  2:{ case_decide as Hd; [|done]. injection Hd as <- <-. by rewrite E. }
  case_decide as Hm.
  - destruct (decide (session = session')) as [<-|Hs].
    + rewrite lookup_delete_eq, E. cbn. case_decide as Hd; [done|].
      assert (Hn : delete request m !! request' = None) by (rewrite Hm; apply lookup_empty).
      rewrite lookup_delete_ne in Hn by congruence. done.
    + by rewrite lookup_delete_ne, decide_False by congruence.
  - destruct (decide (session = session')) as [<-|Hs].
    + rewrite lookup_insert_eq, E. cbn. case_decide as Hd.
      * injection Hd as <-. by rewrite lookup_delete_eq.
      * by rewrite lookup_delete_ne by congruence.
    + by rewrite lookup_insert_ne, decide_False by congruence.
Qed.

(** No session is left without a request. *)
Definition lean (i : Index) : Prop := forall session m, i !! session = Some m -> m <> ∅.

Lemma lean_empty : lean ∅.
Proof. intros session m. by rewrite lookup_empty. Qed.

Lemma lean_set session request q i : lean i -> lean (index_set session request q i).
Proof.
  intros Hi session' m. unfold index_set. destruct (decide (session = session')) as [<-|Hs].
  - rewrite lookup_insert_eq. intros [= <-]. apply insert_non_empty.
  - rewrite lookup_insert_ne by done. apply Hi.
Qed.

Lemma lean_delete session request i : lean i -> lean (index_delete session request i).
Proof.
  intros Hi session' m. unfold index_delete. destruct (i !! session) as [m'|] eqn:E; [|apply Hi].
  case_decide as Hm; destruct (decide (session = session')) as [<-|Hs].
  - by rewrite lookup_delete_eq.
  - rewrite lookup_delete_ne by done. apply Hi.
  - rewrite lookup_insert_eq. by intros [= <-].
  - rewrite lookup_insert_ne by done. apply Hi.
Qed.

(** The index is determined by its lookups. *)
Lemma index_ext i j :
  lean i -> lean j -> (forall session request, index_get i session request = index_get j session request) -> i = j.
Proof.
  intros Hi Hj H. apply map_eq. intros session. pose proof (H session) as Hs. unfold index_get in Hs.
  destruct (i !! session) as [m|] eqn:Ei, (j !! session) as [m'|] eqn:Ej; cbn in Hs; [|..|done].
  - f_equal. apply map_eq, Hs.
  - destruct (Hi _ _ Ei). apply map_eq. intros r. rewrite Hs. by rewrite lookup_empty.
  - destruct (Hj _ _ Ej). apply map_eq. intros r. rewrite <-Hs. by rewrite lookup_empty.
Qed.

(** ** Times *)

Lemma real_le_refl x : real_le x x = true.
Proof. destruct x; cbn; try done. apply bool_decide_eq_true. lia. Qed.

Lemma real_le_trans x y z : real_le x y = true -> real_le y z = true -> real_le x z = true.
Proof. destruct x, y, z; cbn; rewrite ?bool_decide_eq_true; try done; lia. Qed.

Lemma real_le_max now x : real_le x (real_max now x) = true /\ real_le (Real now) (real_max now x) = true.
Proof. destruct x; cbn; rewrite ?bool_decide_eq_true; split; try done; lia. Qed.

(** ** Rows *)

Definition key (r : StoredRow) : string * string := (session_id r, request_id r).

(** Rows in sequence order, at versions and times that do not decrease. *)
Fixpoint ordered (seq ver : Z) (time : real) (rows : list StoredRow) : Prop :=
  match rows with
  | [] => True
  | r :: rows =>
      (seq < row_sequence r)%Z /\ (ver <= row_commit_version r)%Z /\ real_finite (completed_at r) = true /\
      real_le time (completed_at r) = true /\
      ordered (row_sequence r) (row_commit_version r) (completed_at r) rows
  end.

Lemma ordered_weaken seq ver time seq' ver' time' rows :
  (seq' <= seq)%Z -> (ver' <= ver)%Z -> real_le time' time = true ->
  ordered seq ver time rows -> ordered seq' ver' time' rows.
Proof.
  destruct rows as [|r rows]; cbn; [done|]. intros ? ? Ht (? & ? & ? & Hr & ?).
  split_and!; try lia; try done. by eapply real_le_trans.
Qed.

Lemma ordered_app seq ver time rows rows' :
  ordered seq ver time (rows ++ rows') ->
  ordered seq ver time rows /\ ordered seq ver time rows' /\
  Forall (fun r => Forall (fun r' => row_sequence r < row_sequence r')%Z rows') rows.
Proof.
  induction rows as [|r rows IH] in seq, ver, time |- *; cbn; [done|].
  intros (Hs & Hv & Hf & Ht & Ho). destruct (IH _ _ _ Ho) as (H1 & H2 & H3).
  split_and!; try done.
  - eapply ordered_weaken; [..|exact H2]; [lia|lia|done].
  - constructor; [|done]. clear -H2. revert H2.
    generalize (row_sequence r) as q, (row_commit_version r), (completed_at r).
    induction rows' as [|r' rows' IH]; cbn; [constructor|]. intros q v t (? & ? & ? & ? & Ho).
    constructor; [done|]. eapply Forall_impl; [apply (IH _ _ _ Ho)|]. cbn. lia.
Qed.

Lemma ordered_snoc seq ver time rows r :
  ordered seq ver time rows ->
  Forall (fun x => row_sequence x < row_sequence r /\ row_commit_version x <= row_commit_version r /\
                   real_le (completed_at x) (completed_at r) = true)%Z rows ->
  (seq < row_sequence r)%Z -> (ver <= row_commit_version r)%Z -> real_le time (completed_at r) = true ->
  real_finite (completed_at r) = true -> ordered seq ver time (rows ++ [r]).
Proof.
  induction rows as [|x rows IH] in seq, ver, time |- *; cbn; [done|].
  intros (? & ? & ? & ? & Ho) [(? & ? & ?) Hall]%Forall_cons_iff ? ? ? ?. split_and!; try done.
  by apply IH.
Qed.

#[local] Arguments sum_bytes : simpl never.

Lemma row_bytes_cons r rows : (sum_bytes (r :: rows) = result_bytes r + sum_bytes rows)%Z.
Proof. done. Qed.

Lemma row_bytes_app rows rows' : (sum_bytes (rows ++ rows') = sum_bytes rows + sum_bytes rows')%Z.
Proof. induction rows as [|r rows IH]; [done|]. rewrite <-app_comm_cons, !row_bytes_cons, IH. lia. Qed.

Record rows_ok (s : StateRow) (rows : list StoredRow) : Prop := {
  rows_ordered : ordered 0 0 NegInf rows;
  rows_within : Forall (fun r => row_sequence r <= mutation_sequence s /\ row_commit_version r <= commit_version s)%Z rows;
  rows_keys : NoDup (key <$> rows);
  rows_checked : Forall (fun r => row_checks r = true) rows;
  rows_counted : mutation_records s = Z.of_nat (length rows);
  rows_summed : mutation_result_bytes s = sum_bytes rows;
  rows_safe : (sum_bytes rows <= MAX_SAFE_INTEGER)%Z;
  rows_state : state_checks s = true;
}.

(** The index and counters of the object are those of the rows. *)
Record memory_ok (rows : list StoredRow) (i : Index) (records bytes : Z) (last : real) : Prop := {
  memory_index session request q :
    index_get i session request = Some q <->
    exists r, r ∈ rows /\ key r = (session, request) /\ row_sequence r = q;
  memory_lean : lean i;
  memory_records : records = Z.of_nat (length rows);
  memory_bytes : bytes = sum_bytes rows;
  memory_last : Forall (fun r => real_le (completed_at r) last = true) rows;
  memory_time : last <> PosInf;
}.

Definition tables_ok {App} (t : Tables App) (i : Index) (records bytes : Z) (last : real) : Prop :=
  exists s, state_row t = Some s /\ rows_ok s (mutations t) /\ memory_ok (mutations t) i records bytes last.

(** The ledger agrees with what is on disk. *)
Definition ledger_ok {App} (l : MutationReplayLedger App) : Prop :=
  tables_ok (durable (connection l)) (index l) (recordCount l) (byteCount l) (lastCompletedAt l).

Lemma row_bytes_nonneg rows : Forall (fun r => row_checks r = true) rows -> (0 <= sum_bytes rows)%Z.
Proof.
  induction 1 as [|r rows Hr _ IH]; [done|]. rewrite row_bytes_cons. unfold row_checks in Hr.
  apply andb_prop in Hr as [Hr _]. apply andb_prop in Hr as [_ Hr]. apply bool_decide_eq_true in Hr.
  lia.
Qed.

(** ** Reading the rows back *)

Lemma scan_rows_ok s acc rows :
  ordered (previousSequence acc) (previousVersion acc) (scan_last acc) rows ->
  Forall (fun r => row_sequence r <= mutation_sequence s /\ row_commit_version r <= commit_version s)%Z rows ->
  NoDup (key <$> rows) ->
  Forall (fun r => index_get (scan_index acc) (session_id r) (request_id r) = None) rows ->
  (previousSequence acc <= mutation_sequence s)%Z ->
  exists acc', scan_rows s acc rows = Ret acc' /\
    scan_index acc' = foldl (fun i r => index_set (session_id r) (request_id r) (row_sequence r) i) (scan_index acc) rows /\
    (scan_records acc' = scan_records acc + Z.of_nat (length rows))%Z /\
    (scan_bytes acc' = scan_bytes acc + sum_bytes rows)%Z /\
    (previousSequence acc' <= mutation_sequence s)%Z /\
    scan_last acc' = default (scan_last acc) (completed_at <$> last rows).
Proof.
  induction rows as [|r rows IH] in acc |- *; cbn [ordered scan_rows foldl length].
  { intros. exists acc. change (sum_bytes []) with 0%Z. cbn. split_and!; try done; lia. }
  intros (Hs & Hv & Hf & Ht & Ho) [(? & ?) Hw]%Forall_cons_iff [Hn Hk]%NoDup_cons [Hi Hall]%Forall_cons_iff ?.
  set (acc1 := MkScan (index_set (session_id r) (request_id r) (row_sequence r) (scan_index acc))
                 (scan_records acc + 1) (scan_bytes acc + result_bytes r)
                 (row_sequence r) (row_commit_version r) (completed_at r)).
  assert (Hstep : scan_row s acc r = Ret acc1).
  { unfold scan_row. rewrite Hi. unfold real_lt. rewrite Ht, Hf.
    rewrite !bool_decide_false by (lia || by intros [? ?]). done. }
  rewrite Hstep. destruct (IH acc1) as (acc' & E & E1 & E2 & E3 & E4 & E5); cbn; try done.
  { apply Forall_forall. intros x Hx. rewrite index_get_set, decide_False.
    - rewrite Forall_forall in Hall. by apply Hall.
    - intros E. apply Hn. apply list_elem_of_fmap. by exists x. }
  exists acc'. cbn in *. rewrite ?row_bytes_cons. split_and!; try done; try lia.
  rewrite E5, last_cons. by destruct (last rows).
Qed.

Lemma fold_index_get rows i session request :
  NoDup (key <$> rows) ->
  index_get (foldl (fun i r => index_set (session_id r) (request_id r) (row_sequence r) i) i rows) session request =
  match find (fun r => bool_decide (key r = (session, request))) rows with
  | Some r => Some (row_sequence r)
  | None => index_get i session request
  end.
Proof.
  induction rows as [|r rows IH] in i |- *; cbn; [done|]. intros [Hn Hk]%NoDup_cons.
  rewrite IH by done. rewrite index_get_set. case_bool_decide as E.
  - unfold key in E. rewrite decide_True by done. destruct (find _ rows) as [r'|] eqn:F; [|done].
    apply find_some in F as [F1 F2]. apply bool_decide_eq_true in F2. destruct Hn.
    apply list_elem_of_fmap. exists r'. split; [unfold key in *; congruence|]. by apply list_elem_of_In.
  - by rewrite decide_False.
Qed.

Lemma fold_index_lean rows i :
  lean i -> lean (foldl (fun i r => index_set (session_id r) (request_id r) (row_sequence r) i) i rows).
Proof. induction rows as [|r rows IH] in i |- *; cbn; [done|]. intros. by apply IH, lean_set. Qed.

(** What the durable rows read back to is the ledger's memory. *)
Lemma scan_ok {App} (t : Tables App) i records bytes last' :
  tables_ok t i records bytes last' ->
  exists s snap, state_row t = Some s /\ scanMutationReplay t = Ret snap /\
    snap_commitVersion snap = commit_version s /\ snap_mutationSequence snap = mutation_sequence s /\
    snap_index snap = i /\ snap_records snap = records /\ snap_resultBytes snap = bytes /\
    snap_lastCompletedAt snap = default NegInf (completed_at <$> last (mutations t)) /\
    real_le (snap_lastCompletedAt snap) last' = true.
Proof.
  intros (s & Hs & Hr & Hm). destruct Hr as [Ho Hw Hk Hc Hn Hb Hsafe Hst], Hm as [Hi Hl Hmr Hmb Hlast Htime].
  unfold scanMutationReplay. rewrite Hs.
  destruct (scan_rows_ok s (MkScan ∅ 0 0 0 0 NegInf) (mutations t)) as (acc & -> & Hidx & Hrec & Hbytes & Hprev & Ht);
    cbn; try done.
  { apply Forall_forall. intros r _. done. }
  { apply bool_decide_eq_true in Hst. lia. }
  pose proof (row_bytes_nonneg _ Hc). cbn in *.
  rewrite (bool_decide_true (scan_records acc = _)) by lia.
  rewrite (bool_decide_true (scan_bytes acc = _)) by lia.
  rewrite 2!bool_decide_false by lia. cbn.
  eexists s, _. split_and!; [done|reflexivity|done|done| |cbn; lia|cbn; lia|done|].
  - cbn. rewrite Hidx. apply index_ext; [by apply fold_index_lean, lean_empty|done|].
    intros session request. rewrite fold_index_get by done.
    destruct (find _ _) as [r|] eqn:F.
    + apply find_some in F as [F1 F2]. apply bool_decide_eq_true in F2. symmetry. apply Hi.
      exists r. split_and!; try done. by apply list_elem_of_In.
    + destruct (index_get i session request) as [q|] eqn:E; [|done].
      apply Hi in E as (r & Hr & Hkey & _). apply list_elem_of_In in Hr.
      pose proof (find_none _ _ F _ Hr) as Hn'. by apply bool_decide_eq_false_1 in Hn'.
  - cbn. rewrite Ht. destruct (last (mutations t)) as [r|] eqn:L; cbn; [|done].
    rewrite Forall_forall in Hlast. apply Hlast. by apply last_Some_elem_of.
Qed.

(** ** Appending a row *)

(** The same object memory. *)
Definition same_memory {App} (l l' : MutationReplayLedger App) : Prop :=
  index l' = index l /\ recordCount l' = recordCount l /\ byteCount l' = byteCount l /\
  lastCompletedAt l' = lastCompletedAt l.

Lemma forall_app_one {A} (Q : A -> Prop) l x : Forall Q l -> Q x -> Forall Q (l ++ [x]).
Proof. intros. apply Forall_app. split; [done|]. by constructor. Qed.

(** The state row after an allocation. *)
Definition allocated (a : Allocation) (bytes : Z) (s : StateRow) : StateRow :=
  MkStateRow (match a with commit_allocation => commit_version s + 1 | replay_allocation => commit_version s end)
    (mutation_sequence s + 1) (mutation_records s + 1) (mutation_result_bytes s + bytes).

(** A row at the next sequence, for a request the index does not have, keeps
    the tables and the memory in step. *)
Lemma append_ok rows s i records bytes last a r :
  rows_ok s rows -> memory_ok rows i records bytes last ->
  row_checks r = true -> index_get i (session_id r) (request_id r) = None ->
  (bytes + result_bytes r <= MAX_SAFE_INTEGER)%Z ->
  row_sequence r = (mutation_sequence s + 1)%Z ->
  row_commit_version r = commit_version (allocated a (result_bytes r) s) ->
  real_le last (completed_at r) = true -> real_finite (completed_at r) = true ->
  rows_ok (allocated a (result_bytes r) s) (rows ++ [r]) /\
  memory_ok (rows ++ [r]) (index_set (session_id r) (request_id r) (row_sequence r) i) (records + 1)
    (bytes + result_bytes r) (completed_at r).
Proof.
  intros [Ho Hw Hk Hc Hn Hb Hsafe Hst] [Hi Hl Hmr Hmb Hlast Htime] Hr Hfree Hcap Hseq Hver Hle Hfin.
  assert (Hv : (commit_version s <= row_commit_version r)%Z) by (rewrite Hver; destruct a; cbn; lia).
  assert (Hpos : (0 <= result_bytes r)%Z).
  { unfold row_checks in Hr. apply andb_prop in Hr as [Hr _]. apply andb_prop in Hr as [_ Hr].
    by apply bool_decide_eq_true in Hr. }
  apply bool_decide_eq_true in Hst as (? & ? & ? & ?).
  split; constructor.
  - apply ordered_snoc; try done; [|lia..]. rewrite Forall_forall in Hw, Hlast |- *.
    intros x Hx. destruct (Hw x Hx). split_and!; [lia|lia|]. eapply real_le_trans; [by apply Hlast|done].
  - apply forall_app_one; [|split; [cbn; lia|rewrite Hver; lia]]. eapply Forall_impl; [exact Hw|]. intros x. destruct a; cbn; lia.
  - rewrite fmap_app. apply NoDup_app. split_and!; [done| |apply NoDup_singleton].
    intros k Hin Hk'. apply list_elem_of_singleton in Hk'. subst k.
    apply list_elem_of_fmap in Hin as (x & Hkx & Hx). assert (Hq : index_get i (session_id r) (request_id r) = Some (row_sequence x)).
    { apply Hi. exists x. split_and!; [done| |done]. symmetry. exact Hkx. }
    congruence.
  - by apply forall_app_one.
  - cbn. rewrite length_app. cbn. lia.
  - cbn. rewrite row_bytes_app, row_bytes_cons. change (sum_bytes []) with 0%Z. lia.
  - rewrite row_bytes_app, row_bytes_cons. change (sum_bytes []) with 0%Z. lia.
  - apply bool_decide_eq_true. destruct a; cbn; lia.
  - intros session request q. rewrite index_get_set. case_decide as Hd.
    + injection Hd as <- <-. split.
      * intros [= <-]. exists r. split_and!; [set_solver|done|done].
      * intros (x & Hx & Hkx & <-). apply elem_of_app in Hx as [Hx|Hx].
        -- assert (Hq : index_get i (session_id r) (request_id r) = Some (row_sequence x))
             by (apply Hi; by exists x). congruence.
        -- apply list_elem_of_singleton in Hx. by subst x.
    + rewrite Hi. split; intros (x & Hx & Hkx & Hq); exists x; split_and!; try done; [set_solver|].
      apply elem_of_app in Hx as [Hx|Hx]; [done|]. apply list_elem_of_singleton in Hx. subst x.
      destruct Hd. exact Hkx.
  - by apply lean_set.
  - rewrite length_app. cbn. lia.
  - rewrite row_bytes_app, row_bytes_cons. change (sum_bytes []) with 0%Z. lia.
  - apply forall_app_one; [|apply real_le_refl]. eapply Forall_impl; [exact Hlast|]. intros x Hx.
    eapply real_le_trans; [exact Hx|done].
  - by destruct (completed_at r).
Qed.

Lemma wp_sql {App A} (m : eff (Connection App) A) (Q : exc js_error A -> MutationReplayLedger App -> Prop) l :
  wp m (fun r c => Q r (set_connection c l)) (connection l) -> wp (sql m) Q l.
Proof. apply wp_zoom. Qed.

Lemma wp_sql_seq {App A B} (R : exc js_error A -> Connection App -> Prop) (m : eff (Connection App) A)
    (k : A -> eff (MutationReplayLedger App) B) (Q : exc js_error B -> MutationReplayLedger App -> Prop) l :
  wp m R (connection l) ->
  (forall a c, R (Ret a) c -> wp (k a) Q (set_connection c l)) ->
  (forall e c, R (Throw e) c -> Q (Throw e) (set_connection c l)) ->
  wp (sql m ≫= k) Q l.
Proof.
  intros Hm Hk Ht. apply wp_bind, wp_sql. eapply wp_mono; [exact Hm|]. intros [a|e] c H; auto.
Qed.

Section ledger.
Context {App : Type} (fault : StatementKind -> nat -> option Fault).
Implicit Types l : MutationReplayLedger App.

Lemma allocate_spec a b (c : Connection App) t s :
  saved c = Some t -> state_row (tables c) = Some s ->
  wp (allocate fault a b) (fun o c' =>
    match o with
    | Ret s' => s' = allocated a b s /\ saved c' = Some t /\
                tables c' = MkTables (Some (allocated a b s)) (mutations (tables c)) (app (tables c))
    | Throw _ => durable c' = t
    end) c.
Proof.
  intros Hs Hrow. unfold allocate. eapply wp_seq; [by eapply wp_update|..].
  - intros o c' (-> & _ & Hs' & Ht). cbn. by apply wp_ret.
  - done.
Qed.

(** The staged record is the row appended, at the allocated sequence and version. *)
Definition staged_row (a : Allocation) (s : StateRow) (r : NewStoredMutation) (now : ms) (m : StoredMutation)
    (row : StoredRow) : Prop :=
  exists b t, num_safe_integer (resultBytes r) = Some b /\ now = Finite t /\
    row = row_of r b (allocated a b s) (completedAt m) /\
    m = MkStoredMutation r (mutation_sequence s + 1) (commit_version (allocated a b s)) (completedAt m) /\
    real_le (Real t) (completedAt m) = true.

Lemma stage_spec l r now a t s :
  saved (connection l) = Some t -> state_row (tables (connection l)) = Some s ->
  rows_ok s (mutations (tables (connection l))) ->
  memory_ok (mutations (tables (connection l))) (index l) (recordCount l) (byteCount l) (lastCompletedAt l) ->
  (forall b, num_safe_integer (resultBytes r) = Some b -> byteCount l + b <= MAX_SAFE_INTEGER)%Z ->
  wp (stage fault r now a) (fun o l' =>
    same_memory l l' /\
    match o with
    | Throw _ => durable (connection l') = t
    | Ret m => saved (connection l') = Some t /\
        app (tables (connection l')) = app (tables (connection l)) /\
        tables_ok (tables (connection l')) (index (committed m l)) (recordCount (committed m l))
          (byteCount (committed m l)) (lastCompletedAt (committed m l)) /\
        commit_version <$> state_row (tables (connection l')) = Some (commitVersion m) /\
        exists row, staged_row a s r now m row /\
          mutations (tables (connection l')) = (mutations (tables (connection l)) ++ [row])%list
    end) l.
Proof.
  intros Hs Hrow Hr Hm Hcap.
  assert (Hdur : durable (connection l) = t) by (unfold durable; by rewrite Hs).
  unfold stage. apply wp_bind, wp_lift.
  destruct (num_safe_integer (resultBytes r)) as [b|] eqn:Hb; [|done].
  case_bool_decide as Hneg; [done|].
  apply wp_bind, wp_lift. destruct now as [now|]; [|done].
  apply wp_bind, wp_lift. destruct (match resultDisposition r with replayable => _ | one_time => _ end) eqn:Hdisp; [done|].
  cbn [throw_if]. apply wp_bind, wp_get, wp_bind, wp_lift.
  destruct (index_get (index l) (sessionId r) (requestId r)) as [q|] eqn:Hfree; [done|].
  rewrite bool_decide_false by (by intros [? ?]). cbn [throw_if]. apply wp_bind, wp_get.
  eapply wp_sql_seq; [apply (allocate_spec _ _ _ t s Hs Hrow)| |by intros].
  intros s' c1 (-> & Hs1 & Ht1). cbn [connection].
  set (last := lastCompletedAt l) in *. set (row := row_of r b (allocated a b s) (real_max now last)).
  eapply wp_sql_seq; [apply (wp_insert _ _ t), Hs1| |by intros].
  intros [] c2 (Hcheck & Hs2 & rows & Hins & Ht2). split; [done|].
  cbn [connection set_connection] in Hins, Ht2. rewrite Ht1 in Hins, Ht2. cbn -[allocated] in Hins, Ht2. rewrite insert_row_last in Hins.
  2:{ destruct Hr as [_ Hw _ _ _ _ _ _]. eapply Forall_impl; [exact Hw|]. cbn. lia. }
  injection Hins as <-. cbn -[committed allocated]. rewrite Ht2. cbn -[committed allocated].
  destruct (real_le_max now last) as [Hmax1 Hmax2].
  split_and!; [done|done| |done|].
  - exists (allocated a b s). split; [done|].
    destruct (append_ok (mutations (tables (connection l))) s (index l) (recordCount l) (byteCount l) last a row)
      as [H1 H2]; try done.
    + cbn. by apply Hcap.
    + cbn. pose proof (memory_time _ _ _ _ _ Hm) as Ht. by destruct last.
    + split; [exact H1|]. cbn. unfold staged_bytes. cbn. rewrite Hb. exact H2.
  - exists row. split; [|done]. exists b, now. split_and!; done.
Qed.

(** ** Looking up *)

Lemma ordered_sequences seq ver time rows r r' :
  ordered seq ver time rows -> r ∈ rows -> r' ∈ rows -> row_sequence r = row_sequence r' -> r = r'.
Proof.
  induction rows as [|x rows IH] in seq, ver, time |- *; [set_solver|].
  intros Ho Hr Hr' E. destruct (ordered_app seq ver time [x] rows Ho) as (_ & _ & Hlt).
  apply Forall_cons_1 in Hlt as [Hlt _]. rewrite Forall_forall in Hlt.
  apply elem_of_cons in Hr as [->|Hr], Hr' as [->|Hr']; [done|..].
  - specialize (Hlt _ Hr'). lia.
  - specialize (Hlt _ Hr). lia.
  - cbn in Ho. destruct Ho as (_ & _ & _ & _ & Ho). by eapply IH.
Qed.

Lemma rows_nonneg_seq s rows r : rows_ok s rows -> r ∈ rows -> (0 < row_sequence r)%Z.
Proof.
  intros [_ _ _ Hc _ _ _ _] Hr. rewrite Forall_forall in Hc. specialize (Hc _ Hr). unfold row_checks in Hc.
  apply andb_prop in Hc as [Hc _]. apply andb_prop in Hc as [Hc _]. apply andb_prop in Hc as [Hc _].
  by apply bool_decide_eq_true in Hc.
Qed.

(** Between transactions a lookup answers with the row the index names; it
    throws only what SQLite threw. *)
Lemma lookup_spec l session request :
  ledger_ok l -> saved (connection l) = None ->
  wp (lookup_mutation fault session request) (fun o l' =>
    same_memory l l' /\ tables (connection l') = tables (connection l) /\ saved (connection l') = None /\
    match o with
    | Ret None => index_get (index l) session request = None
    | Ret (Some m) => exists r, r ∈ mutations (tables (connection l)) /\ key r = (session, request) /\
                        m = toStoredMutation r
    | Throw e => exists n, fault QUERY n = Some (Refused e) \/ fault QUERY n = Some (RolledBack e)
    end) l.
Proof.
  intros (s & _ & Hr & Hm) Hs. unfold durable in *. rewrite Hs in *. cbn in Hr, Hm.
  unfold lookup_mutation. apply wp_bind, wp_get.
  destruct (index_get (index l) session request) as [q|] eqn:Hq; [|by apply wp_ret].
  apply (memory_index _ _ _ _ _ Hm) in Hq as (r & Hin & Hkey & Hseq).
  apply wp_bind, wp_sql. unfold select_mutation, statement, wp.
  destruct (fault QUERY (statements (connection l))) as [[e|e]|] eqn:Hf; cbn;
    [unfold durable; rewrite Hs; cbn; split_and!; by eauto..|].
  assert (Hfind : find (fun x => bool_decide (row_sequence x = q)) (mutations (tables (connection l))) = Some r).
  { destruct (find _ _) as [r'|] eqn:F.
    - apply find_some in F as [F1 F2]. apply bool_decide_eq_true in F2. f_equal.
      eapply ordered_sequences; [apply Hr|by apply list_elem_of_In|done|congruence].
    - apply list_elem_of_In in Hin. pose proof (find_none _ _ F _ Hin) as Hn. by apply bool_decide_eq_false_1 in Hn. }
  rewrite Hfind. unfold key in Hkey. injection Hkey as Hk1 Hk2.
  rewrite bool_decide_true by done. cbn. split_and!; try done.
  exists r. unfold key. by rewrite Hk1, Hk2.
Qed.

(** ** Pruning *)

Lemma expired_prefix_spec before rows :
  exists rest, rows = expired_prefix before rows ++ rest /\
    Forall (fun r => real_le (Real before) (completed_at r) = false) (expired_prefix before rows).
Proof.
  induction rows as [|r rows (rest & Hrest & Hall)]; [by exists []|]. cbn [expired_prefix].
  destruct (real_le (Real before) (completed_at r)) eqn:E; [by exists (r :: rows)|].
  exists rest. cbn. rewrite <-Hrest. split; [done|by constructor].
Qed.

Lemma fold_index_delete pre i session request :
  index_get (foldl (fun i r => index_delete (session_id r) (request_id r) i) i pre) session request =
  if decide ((session, request) ∈ key <$> pre) then None else index_get i session request.
Proof.
  induction pre as [|r pre IH] in i |- *; cbn [foldl].
  { rewrite decide_False; [done|]. cbn. apply not_elem_of_nil. }
  rewrite IH, index_get_delete, fmap_cons. unfold key at 2.
  repeat case_decide; try done; rewrite elem_of_cons in *; [|..]; try tauto; try (exfalso; naive_solver).
Qed.

Lemma fold_delete_lean pre i :
  lean i -> lean (foldl (fun i r => index_delete (session_id r) (request_id r) i) i pre).
Proof. induction pre as [|r pre IH] in i |- *; cbn; [done|]. intros. by apply IH, lean_delete. Qed.

Lemma remove_ok pre rest s i records bytes last :
  rows_ok s (pre ++ rest) -> memory_ok (pre ++ rest) i records bytes last ->
  rows_ok (MkStateRow (commit_version s) (mutation_sequence s) (mutation_records s - Z.of_nat (length pre))
             (mutation_result_bytes s - sum_bytes pre)) rest /\
  memory_ok rest (foldl (fun i r => index_delete (session_id r) (request_id r) i) i pre)
    (records - Z.of_nat (length pre)) (bytes - sum_bytes pre) last.
Proof.
  intros [Ho Hw Hk Hc Hn Hb Hsafe Hst] [Hi Hl Hmr Hmb Hlast Htime].
  destruct (ordered_app _ _ _ _ _ Ho) as (_ & Ho' & _). rewrite fmap_app in Hk.
  apply NoDup_app in Hk as (_ & Hdisj & Hk).
  apply Forall_app in Hw as [_ Hw], Hc as [Hcpre Hc], Hlast as [_ Hlast].
  rewrite length_app in *. rewrite row_bytes_app in *.
  pose proof (row_bytes_nonneg _ Hc). pose proof (row_bytes_nonneg _ Hcpre).
  apply bool_decide_eq_true in Hst as (? & ? & ? & ?).
  split; constructor; cbn; try done; try lia.
  - apply bool_decide_eq_true. cbn. lia.
  - intros session request q. rewrite fold_index_delete. case_decide as Hd.
    + split; [done|]. intros (r & Hr & Hkey & _). destruct (Hdisj _ Hd). rewrite <-Hkey. apply list_elem_of_fmap. by exists r.
    + rewrite Hi. split; intros (r & Hr & Hkey & Hq); exists r; split_and!; try done; [|set_solver].
      apply elem_of_app in Hr as [Hr|Hr]; [|done]. destruct Hd. rewrite <-Hkey. apply list_elem_of_fmap. by exists r.
  - by apply fold_delete_lean.
Qed.

Lemma delete_prefix pre rest r :
  ordered 0 0 NegInf (pre ++ rest) -> last pre = Some r ->
  filter (fun x => ~ (row_sequence x <= row_sequence r)%Z) (pre ++ rest) = rest.
Proof.
  intros Ho Hr. apply last_Some in Hr as (pre' & ->). rewrite <-app_assoc in Ho.
  destruct (ordered_app _ _ _ _ _ Ho) as (_ & Ho2 & Hlt). destruct (ordered_app _ _ _ [r] rest Ho2) as (_ & _ & Hlt2).
  apply Forall_cons_1 in Hlt2 as [Hlt2 _]. rewrite !filter_app.
  rewrite (filter_none _ pre').
  2:{ eapply Forall_impl; [exact Hlt|]. intros x Hx Hn. apply Forall_app in Hx as [Hx _].
      apply Forall_cons_1 in Hx as [Hx _]. lia. }
  rewrite (filter_none _ [r]). 2:{ constructor; [|constructor]. lia. }
  rewrite filter_all; [done|]. intros x Hx. rewrite Forall_forall in Hlt2. specialize (Hlt2 _ Hx). lia.
Qed.

(** The rows [pre] are gone and nothing else has changed. *)
Record pruned (pre : list StoredRow) l l' : Prop := {
  pruned_rows : mutations (tables (connection l)) = pre ++ mutations (tables (connection l'));
  pruned_ok : ledger_ok l';
  pruned_saved : saved (connection l') = None;
  pruned_app : app (tables (connection l')) = app (tables (connection l));
  pruned_version : commit_version <$> state_row (tables (connection l')) = commit_version <$> state_row (tables (connection l));
  pruned_last : lastCompletedAt l' = lastCompletedAt l;
}.

Lemma pruned_refl l l' :
  ledger_ok l -> saved (connection l) = None -> same_memory l l' ->
  tables (connection l') = tables (connection l) -> saved (connection l') = None -> pruned [] l l'.
Proof.
  intros Hl Hs (Hi & Hn & Hb & Ht) E Hs'. unfold ledger_ok, durable in *. rewrite Hs in Hl. cbn in Hl.
  constructor; try done; [by rewrite E| |by rewrite E..].
  unfold ledger_ok, durable. by rewrite Hs', E, Hi, Hn, Hb, Ht.
Qed.

Lemma pruned_trans pre1 pre2 l1 l2 l3 : pruned pre1 l1 l2 -> pruned pre2 l2 l3 -> pruned (pre1 ++ pre2) l1 l3.
Proof.
  intros [] []. constructor; try done; [|congruence..]. rewrite <-app_assoc. congruence.
Qed.

Lemma prune_transaction_spec pre rest r (c : Connection App) t s :
  saved c = Some t -> state_row (tables c) = Some s -> mutations (tables c) = pre ++ rest ->
  rows_ok s (pre ++ rest) -> last pre = Some r ->
  wp (prune_transaction fault pre (row_sequence r)) (fun o c' =>
    match o with
    | Ret _ => saved c' = None /\
        tables c' = MkTables (Some (MkStateRow (commit_version s) (mutation_sequence s)
          (mutation_records s - Z.of_nat (length pre)) (mutation_result_bytes s - sum_bytes pre))) rest (app (tables c))
    | Throw _ => durable c' = t
    end) c.
Proof.
  intros Hs Hrow Hm Hr Hlast. unfold prune_transaction.
  apply (wp_seq (fun o c' => match o with
    | Ret n => n = length pre /\ saved c' = Some t /\ tables c' = MkTables (Some s) rest (app (tables c))
    | Throw _ => durable c' = t end)).
  { apply (wp_query _ _ _ _ t); [done|by intros|]. unfold wp. cbn. rewrite Hm.
    rewrite (delete_prefix pre rest r (rows_ordered _ _ Hr) Hlast), Hrow. split_and!; try done.
    rewrite length_app. lia. }
  2:{ by intros. }
  intros n c1 (-> & Hs1 & Ht1). apply wp_bind, wp_lift. rewrite bool_decide_true by done. cbn [negb throw_if].
  eapply wp_seq; [apply (wp_update _ _ t _ s); [done|by rewrite Ht1]|..].
  2:{ by intros. }
  intros o c2 (_ & _ & Hs2 & Ht2). eapply wp_mono; [by apply wp_commit|].
  intros [[]|e] c3; [|done]. intros [Ht3 Hs3]. split; [done|]. rewrite Ht3, Ht2, Ht1. done.
Qed.

(** Between transactions [prune] drops expired rows from the front, at most
    [limit] of them, or throws and changes nothing. *)
Lemma prune_spec l before limit :
  (forall n, fault ROLLBACK n = None) -> ledger_ok l -> saved (connection l) = None ->
  wp (prune fault (Finite before) limit) (fun o l' =>
    exists pre, pruned pre l l' /\ Forall (fun r => real_le (Real before) (completed_at r) = false) pre /\
      match o with Ret n => n = length pre | Throw _ => pre = [] end) l.
Proof.
  intros Hroll Hl Hs. assert (Hl' := Hl). destruct Hl' as (s & Hrow & Hr & Hm).
  unfold durable in Hrow, Hr, Hm. rewrite Hs in Hrow, Hr, Hm. cbn in Hrow, Hr, Hm.
  assert (Hkeep : forall l', same_memory l l' -> tables (connection l') = tables (connection l) ->
            saved (connection l') = None -> exists pre, pruned pre l l' /\
            Forall (fun r => real_le (Real before) (completed_at r) = false) pre /\ pre = []).
  { intros l' H1 H2 H3. exists []. split_and!; [by apply pruned_refl|constructor|done]. }
  unfold prune. apply wp_bind, wp_lift, wp_bind, wp_lift.
  destruct (num_safe_integer limit) as [n|]; [|by apply Hkeep].
  case_bool_decide; [by apply Hkeep|].
  eapply (wp_sql_seq (fun o c => match o with
    | Ret rows => rows = take (Z.to_nat n) (mutations (tables (connection l))) | Throw _ => True end /\
      tables c = tables (connection l) /\ saved c = None)).
  { apply wp_statement; [|done]. intros e c' Hd Hsv. rewrite Hsv by done. split_and!; try done.
    unfold durable in Hd. rewrite Hsv, Hs in Hd by done. done. }
  2:{ intros e c (_ & Ht & Hsv). by apply Hkeep. }
  intros rows c (-> & Ht & Hsv).
  destruct (expired_prefix_spec before (take (Z.to_nat n) (mutations (tables (connection l))))) as (rest & Hrest & Hexp).
  set (pre := expired_prefix before (take (Z.to_nat n) (mutations (tables (connection l))))) in *.
  destruct (last pre) as [r|] eqn:Hlast.
  2:{ apply wp_ret. destruct (Hkeep (set_connection c l)) as (p & Hp & Hf & ->); try done.
      exists []. by split_and!. }
  assert (Hsplit : mutations (tables (connection l)) = pre ++ (rest ++ drop (Z.to_nat n) (mutations (tables (connection l))))).
  { rewrite <-(take_drop (Z.to_nat n) (mutations (tables (connection l)))) at 1. rewrite Hrest at 1. by rewrite <-app_assoc. }
  set (rest' := rest ++ drop _ _) in *. rewrite Hsplit in Hr, Hm.
  eapply wp_sql_seq; [by apply wp_begin|..].
  2:{ intros e c1 (Hd & Hsv1). apply Hkeep; [done| |done]. cbn. unfold durable in Hd. cbn in Hd.
      by rewrite Hsv1, Hsv in Hd; cbn in Hd; rewrite Hd, Ht. }
  intros [] c1 (Hd & Ht1 & Hs1). cbn [connection set_connection] in *.
  eapply (wp_sql_seq (fun o c' => saved c' = None /\ match o with
    | Ret _ => tables c' = MkTables (Some (MkStateRow (commit_version s) (mutation_sequence s)
          (mutation_records s - Z.of_nat (length pre)) (mutation_result_bytes s - sum_bytes pre))) rest' (app (tables c1))
    | Throw _ => tables c' = tables (connection l) end)).
  { apply wp_catch. eapply wp_mono.
    - apply (prune_transaction_spec pre rest' r _ (tables c) s); cbn [connection set_connection];
        try done; by rewrite Ht1, Ht.
    - intros [[]|e] c2; [by intros [? ?]|]. intros Hd2.
      eapply (wp_seq (fun _ c3 => saved c3 = None /\ tables c3 = tables (connection l))).
      { eapply wp_mono; [by apply wp_rollback|]. intros o c3 (Hd3 & Hs3 & _). split; [done|].
        unfold durable in Hd3 at 1. rewrite Hs3 in Hd3. cbn in Hd3. by rewrite Hd3, Hd2, Ht. }
      all: done. }
  2:{ intros e c3 (Hs3 & Ht3). by apply Hkeep. }
  intros [] c3 (Hs3 & Ht3). apply wp_bind, wp_modify, wp_ret. exists pre. split_and!; [|done|done].
  destruct (remove_ok pre rest' s (index l) (recordCount l) (byteCount l) (lastCompletedAt l) Hr Hm) as [H1 H2].
  constructor; cbn; rewrite ?Ht3; cbn; try done.
  - unfold ledger_ok, durable. cbn. rewrite Hs3, Ht3. cbn. by eexists.
  - by rewrite Ht1, Ht.
  - by rewrite Hrow.
Qed.
End ledger.
