(* ===== verification/Coordinator.v ===== *)
(** The commit coordinator: [server/src/runtime/coordinator.ts].

    It owns the only writer: a commit looks the request up in the replay ledger,
    reserves a publication slot, runs the application's work in one transaction,
    stages the replay record, commits, and hands the publication over. The
    awaits of the source let other tasks run; none of them writes, since the
    writer runs one commit at a time, so what they change here is the
    publication, by events of their own. *)
From S2P Require Import Prelude Errors Limits Dll Publication Effects Value Wire Protocol Database MutationReplay.
Local Open Scope string_scope.

Definition MAX_MUTATION_CLOCK_SKEW_MS : Z := 5 * 60000.

Record IdempotencyIdentity : Type := MkIdempotency {
  id_sessionId : string;
  id_requestId : string;
  id_issuedAt : num;
  id_principalFingerprint : string;
  id_functionRef : string;
  id_argsFingerprint : string;
}.

(** A transaction's write collector: the keys and events it publishes, and
    whether a secret-minting capability marked its result one-time. *)
Record WriteCollector : Type := MkWrites {
  keys : list string;
  events : list value;
  isOneTimeResult : bool;
}.

Definition newWriteCollector : WriteCollector := MkWrites [] [] false.

Inductive Replay : Type := executed | replayed.

Record CommitResult (P : Type) : Type := MkCommitResult {
  res_value : value;
  res_commitVersion : Z;
  res_durability : DurabilityPolicy;
  res_replay : Replay;
  res_publication : option P;
}.
Arguments MkCommitResult {P}. Arguments res_value {P}. Arguments res_commitVersion {P}.
Arguments res_durability {P}. Arguments res_replay {P}. Arguments res_publication {P}.

(** [completion] is the slot whose promise the caller awaits. *)
Record CommitHandoff (P : Type) : Type := MkHandoff {
  handoff_result : CommitResult P;
  handoff_completion : option nat;
}.
Arguments MkHandoff {P}. Arguments handoff_result {P}. Arguments handoff_completion {P}.

(** What the application's code sees: its tables, the event sequences, the write
    collector and the poison of the transaction's context. *)
Record WorkState (App : Type) : Type := MkWorkState {
  work_app : App;
  work_sequences : gmap string Z;
  work_writes : WriteCollector;
  work_poison : option js_error;
}.
Arguments MkWorkState {App}. Arguments work_app {App}. Arguments work_sequences {App}.
Arguments work_writes {App}. Arguments work_poison {App}.

(** [poisonTransaction]: the first poison stays. *)
Definition markTransactionPoisoned {App} (error : js_error) : eff (WorkState App) unit := modify (fun w =>
  MkWorkState (work_app w) (work_sequences w) (work_writes w)
    (match work_poison w with Some e => Some e | None => Some error end)).

Definition nextEventSequence {App} (table : string) : eff (WorkState App) Z := fun w =>
  let next := (default 0 (work_sequences w !! table) + 1)%Z in
  (Ret next, MkWorkState (work_app w) (<[table := next]> (work_sequences w)) (work_writes w) (work_poison w)).

Record CommitRequest (App P : Type) : Type := MkCommitRequest {
  req_idempotency : option IdempotencyIdentity;
  (* the signal, by what its n-th check sees: [Some reason] once it is aborted *)
  transactionSignal : option (nat -> option js_error);
  work : eff (WorkState App) value;
  rollbackWhen : option (value -> exc js_error bool);
  finalize : option (eff (WorkState App) unit);
  publication_of : Z -> WriteCollector -> exc js_error P;
  validate : option (value -> Z -> WriteCollector -> P -> exc js_error unit);
}.
Arguments MkCommitRequest {App P}. Arguments req_idempotency {App P}. Arguments transactionSignal {App P}.
Arguments work {App P}. Arguments rollbackWhen {App P}. Arguments finalize {App P}.
Arguments publication_of {App P}. Arguments validate {App P}.

Definition conflict_error {A} (message : string) : exc js_error A :=
  throw_AckerDBError conflict message
    {| opt_retryable := None; opt_retryAfterMs := None; opt_resource := Some idempotency; opt_committed := false |}.

Definition validation_error {A} (message : string) : exc js_error A :=
  throw_AckerDBError validation message
    {| opt_retryable := None; opt_retryAfterMs := None; opt_resource := Some idempotency; opt_committed := false |}.

Definition overloaded_error {A} (message : string) (retryable : bool) : exc js_error A :=
  throw_AckerDBError overloaded_ message
    {| opt_retryable := Some retryable;
       opt_retryAfterMs := if retryable then Some (num_of_Z 1000) else None;
       opt_resource := Some idempotency; opt_committed := false |}.

Definition plain_error {A} (code : OutcomeCode) (message : string) : exc js_error A :=
  throw_AckerDBError code message no_options.

Definition sameIdentity (stored : StoredMutation) (incoming : IdempotencyIdentity) : bool :=
  let s := MutationReplay.stored stored in
  num_same (issuedAt s) (id_issuedAt incoming) &&
  bool_decide (principalFingerprint s = id_principalFingerprint incoming) &&
  bool_decide (functionRef s = id_functionRef incoming) &&
  bool_decide (argsFingerprint s = id_argsFingerprint incoming).

Section coordinator.
Context {App P : Type}.

(** The coordinator with the parts of the runtime it drives, and the locals of
    the commit that runs. *)
Record Coordinator : Type := MkCoordinator {
  replay : MutationReplayLedger App;  (* the engine's writer connection and its ledger *)
  pub : OrderedPublication P;
  eventSequences : gmap string Z;
  nextPruneAtMs : Z;
  readings : nat;                     (* clock readings so far *)
  awaits : nat;                       (* awaits so far *)
  transactionOpen : bool;
  isCommitted : bool;
  writes : WriteCollector;
  poison : option js_error;
}.

Definition set_replay (x : MutationReplayLedger App) (w : Coordinator) : Coordinator :=
  MkCoordinator x (pub w) (eventSequences w) (nextPruneAtMs w) (readings w) (awaits w) (transactionOpen w)
    (isCommitted w) (writes w) (poison w).
Definition set_pub (x : OrderedPublication P) (w : Coordinator) : Coordinator :=
  MkCoordinator (replay w) x (eventSequences w) (nextPruneAtMs w) (readings w) (awaits w) (transactionOpen w)
    (isCommitted w) (writes w) (poison w).
Definition set_nextPruneAtMs (x : Z) (w : Coordinator) : Coordinator :=
  MkCoordinator (replay w) (pub w) (eventSequences w) x (readings w) (awaits w) (transactionOpen w)
    (isCommitted w) (writes w) (poison w).
Definition set_transactionOpen (x : bool) (w : Coordinator) : Coordinator :=
  MkCoordinator (replay w) (pub w) (eventSequences w) (nextPruneAtMs w) (readings w) (awaits w) x
    (isCommitted w) (writes w) (poison w).
Definition set_isCommitted (x : bool) (w : Coordinator) : Coordinator :=
  MkCoordinator (replay w) (pub w) (eventSequences w) (nextPruneAtMs w) (readings w) (awaits w)
    (transactionOpen w) x (writes w) (poison w).

(** The locals of a new commit. *)
Definition new_locals (w : Coordinator) : Coordinator :=
  MkCoordinator (replay w) (pub w) (eventSequences w) (nextPruneAtMs w) (readings w) (awaits w) false false
    newWriteCollector None.

(** What the program runs on: the engine's failures and durability, the clock,
    the events of other tasks at each await, the limits, the post-commit hook,
    whether there is a [wait] hook, and the length of the UTF-8 text of a JSON value. *)
Context (fault : StatementKind -> nat -> option Fault) (durability_policy : DurabilityPolicy).
Context (now : nat -> ms) (others : nat -> list (@Publication.Event P)).
Context (limits : ServiceLimits Z).
Context (afterCommit : option (WriteCollector -> Z -> exc js_error unit)).
Context (wait : bool) (text_bytes : value -> Z).

(** ** Access to the parts *)

Definition ledger {A} (m : eff (MutationReplayLedger App) A) : eff Coordinator A := zoom replay set_replay m.

(** [this.engine.writer.exec(...)] and the engine's own methods. *)
Definition engine {A} (m : eff (Connection App) A) : eff Coordinator A := ledger (sql m).

(** A method of the publication: a call that throws changes nothing. *)
Definition publishing {A} (f : OrderedPublication P -> exc js_error (A * OrderedPublication P)) : eff Coordinator A :=
  fun w => match f (pub w) with
           | Ret (a, p) => (Ret a, set_pub p w)
           | Throw e => (Throw e, w)
           end.

Definition slot_call (f : OrderedPublication P -> exc js_error (OrderedPublication P)) : eff Coordinator unit :=
  publishing (fun p => p ← f p; Ret (tt, p)).

(** An event that is not a call of the writer. *)
Definition foreign (e : @Publication.Event P) : bool :=
  match e with EClose | EBegin | EAnswer _ | ESettle _ _ => true | _ => false end.

Definition others_step (p : OrderedPublication P) (e : @Publication.Event P) : OrderedPublication P :=
  if foreign e then default p (step e p) else p.

(** [await m]: other tasks run before the computation goes on. *)
Definition awaiting {A} (m : eff Coordinator A) : eff Coordinator A := fun w =>
  let '(r, w) := m w in
  (r, MkCoordinator (replay w) (foldl others_step (pub w) (others (awaits w))) (eventSequences w)
        (nextPruneAtMs w) (readings w) (S (awaits w)) (transactionOpen w) (isCommitted w) (writes w) (poison w)).

Definition clock_reading : eff Coordinator ms := fun w =>
  (Ret (now (readings w)),
   MkCoordinator (replay w) (pub w) (eventSequences w) (nextPruneAtMs w) (S (readings w)) (awaits w)
     (transactionOpen w) (isCommitted w) (writes w) (poison w)).

Definition readNow : eff Coordinator Z :=
  t ← clock_reading;
  match t with
  | Finite t => mret t
  | NonFinite => throw (RangeError "coordinator clock must return finite milliseconds")
  end.

(** Application code runs on the open tables. *)
Definition working {A} (m : eff (WorkState App) A) : eff Coordinator A :=
  zoom (fun w => MkWorkState (app (tables (connection (replay w)))) (eventSequences w) (writes w) (poison w))
       (fun s w =>
          let c := connection (replay w) in
          let t := tables c in
          MkCoordinator (set_connection (set_tables (MkTables (state_row t) (mutations t) (work_app s)) c) (replay w))
            (pub w) (work_sequences s) (nextPruneAtMs w) (readings w) (awaits w) (transactionOpen w)
            (isCommitted w) (work_writes s) (work_poison s))
       m.

Definition assertTransactionHealthy : eff Coordinator unit :=
  p ← get poison;
  match p with Some e => throw e | None => mret tt end.

Definition signal_check (request : CommitRequest App P) (n : nat) : eff Coordinator unit :=
  lift (throwIfAborted ((fun s => s n) <$> transactionSignal request)).

(** ** The replay window *)

(** [for (;;) { if (prune(before, 1_000) < 1_000) break; }]: every turn that
    goes on removes a thousand rows. *)
Fixpoint prune_loop (fuel : nat) (before : Z) : eff Coordinator unit :=
  match fuel with
  | O => mret tt
  | S fuel =>
      removed ← ledger (prune fault (Finite before) (num_of_Z 1000));
      if decide (removed < 1000)%nat then mret tt else prune_loop fuel before
  end.

Definition ledger_rows (w : Coordinator) : nat := length (mutations (tables (connection (replay w)))).

Definition pruneExpiredMutations : eff Coordinator unit :=
  now ← readNow;
  next ← get nextPruneAtMs;
  if decide (now < next)%Z then mret tt
  else
    _ ← modify (set_nextPruneAtMs (now + 60000)%Z);
    rows ← get ledger_rows;
    prune_loop (S rows) (now - replay_maxAgeMs (mutationReplay limits))%Z.

(** The result stored under the request, when there is one. *)
Definition replay_stored (stored : StoredMutation) (identity : IdempotencyIdentity)
    : exc js_error (CommitResult P) :=
  if negb (sameIdentity stored identity)
  then conflict_error "mutation request ID was already used with different semantics"
  else if decide (resultDisposition (MutationReplay.stored stored) = one_time)
  then conflict_error "mutation committed, but its one-time result is no longer available"
  else
    text ← (match result (MutationReplay.stored stored) with
            | Some text => Ret text
            | None => Throw (SyntaxError "JSON Parse error")
            end);
    v ← decode text;
    Ret (MkCommitResult v (MutationReplay.commitVersion stored) (durability (MutationReplay.stored stored))
           replayed None).

(** The part of [commit] before the reservation; [Some] ends it. *)
Definition admit_request (identity : IdempotencyIdentity) : eff Coordinator (option (CommitResult P)) :=
  _ ← (match num_safe_integer (id_issuedAt identity) with
       | Some t => if bool_decide (t < 0)%Z
                   then lift (validation_error "mutation issuedAt must be a non-negative safe integer") else mret tt
       | None => lift (validation_error "mutation issuedAt must be a non-negative safe integer")
       end);
  _ ← pruneExpiredMutations;
  stored ← ledger (lookup_mutation fault (id_sessionId identity) (id_requestId identity));
  match stored with
  | Some stored => r ← lift (replay_stored stored identity); mret (Some r)
  | None =>
      now ← readNow;
      requestCreatedAt ← lift (uuidV7Timestamp (id_requestId identity));
      _ ← (if decide (now + MAX_MUTATION_CLOCK_SKEW_MS < requestCreatedAt)%Z
           then lift (validation_error "mutation request ID timestamp is in the future") else mret tt);
      _ ← (if decide (requestCreatedAt < now - replay_maxAgeMs (mutationReplay limits))%Z
           then lift (conflict_error "mutation request is outside the retained replay window") else mret tt);
      records ← get (fun w => recordCount (replay w));
      _ ← (if decide (maxRecords (mutationReplay limits) <= records)%Z
           then lift (overloaded_error "mutation replay capacity is full" true) else mret tt);
      mret None
  end.

(** ** The transaction *)

Definition replay_capacity (bytes : Z) : eff Coordinator unit :=
  held ← get (fun w => byteCount (replay w));
  if decide (replay_maxBytes (mutationReplay limits) - held < bytes)%Z
  then lift (overloaded_error "mutation replay capacity is full" true) else mret tt.

Definition result_capacity (bytes : Z) : eff Coordinator unit :=
  if decide (maxResultBytes (mutationReplay limits) < bytes)%Z
  then lift (overloaded_error "mutation result exceeds replay capacity" false) else mret tt.

Definition encoded_bytes (text : option value) : Z :=
  match text with None => 0 | Some text => text_bytes text end.

Definition replay_record (i : IdempotencyIdentity) (d : ResultDisposition) (text : option value)
    : NewStoredMutation :=
  MkNewStoredMutation (id_sessionId i) (id_requestId i) (id_issuedAt i) (id_principalFingerprint i)
    (id_functionRef i) (id_argsFingerprint i) d text (num_of_Z (encoded_bytes text)) durability_policy.

Definition disposition (w : Coordinator) : ResultDisposition :=
  if isOneTimeResult (writes w) then one_time else replayable.

(** The transaction that records a rolled-back outcome. *)
Definition record_outcome (r : NewStoredMutation) : eff Coordinator StoredMutation :=
  catch
    (_ ← engine (begin_immediate fault);
     _ ← modify (set_transactionOpen true);
     now ← readNow;
     staged ← ledger (stage fault r (Finite now) replay_allocation);
     _ ← engine (commit_transaction fault);
     _ ← modify (set_transactionOpen false);
     _ ← ledger (modify (committed staged));
     mret staged)
    (fun error =>
     opened ← get transactionOpen;
     _ ← when opened (_ ← engine (rollback_transaction fault); modify (set_transactionOpen false));
     throw error).

(** A handled application failure: nothing of the work is kept. *)
Definition roll_back (request : CommitRequest App P) (slot : nat) (v : value) : eff Coordinator (CommitHandoff P) :=
  _ ← engine (rollback_transaction fault);
  _ ← modify (set_transactionOpen false);
  _ ← slot_call (Publication.cancel slot);
  version ← engine (Database.commitVersion fault);
  version ←
    match req_idempotency request with
    | None => mret version
    | Some i =>
        d ← get disposition;
        text ← (if decide (d = replayable) then text ← lift (encode v); mret (Some text) else mret None);
        _ ← result_capacity (encoded_bytes text);
        _ ← replay_capacity (encoded_bytes text);
        staged ← record_outcome (replay_record i d text);
        mret (MutationReplay.commitVersion staged)
    end;
  mret (MkHandoff (MkCommitResult v version durability_policy executed None) None).

(** [publicationBytes(writes)] *)
Definition publicationBytes (writes : WriteCollector) : exc js_error Z :=
  text ← encode (VObj [("keys", VArr (VStr <$> keys writes)); ("events", VArr (events writes))]);
  Ret (text_bytes text).

Definition slot_version (slot : nat) (w : Coordinator) : Z :=
  default 0%Z (version <$> p_slots (pub w) !! slot).

(** From the work's success to COMMIT. *)
Definition prepare (request : CommitRequest App P) (slot : nat) (v : value)
    : eff Coordinator (option StoredMutation * Z * P) :=
  _ ← awaiting (match finalize request with Some f => working f | None => mret tt end);
  w ← get writes;
  bytes ← lift (publicationBytes w);
  _ ← slot_call (Publication.resize slot (num_of_Z bytes));
  d ← get disposition;
  text ← (if decide (is_Some (req_idempotency request) /\ d = replayable)
          then text ← lift (encode v); mret (Some text) else mret None);
  _ ← result_capacity (encoded_bytes text);
  _ ← (if decide (is_Some (req_idempotency request)) then replay_capacity (encoded_bytes text) else mret tt);
  '(staged, commitVersion) ←
    match req_idempotency request with
    | Some i =>
        now ← readNow;
        staged ← ledger (stage fault (replay_record i d text) (Finite now) commit_allocation);
        mret (Some staged, MutationReplay.commitVersion staged)
    | None => version ← engine (allocateCommitVersion fault); mret (None, version)
    end;
  reserved ← get (slot_version slot);
  _ ← (if decide (commitVersion <> reserved)
       then lift (plain_error internal "storage and publication versions diverged") else mret tt);
  w ← get writes;
  published ← lift (publication_of request commitVersion w);
  _ ← (match validate request with Some f => lift (f v commitVersion w published) | None => mret tt end);
  _ ← signal_check request 2;
  _ ← engine (commit_transaction fault);
  mret (staged, commitVersion, published).

(** After COMMIT. The [wait] hook only waits. *)
Definition hand_over (slot : nat) (v : value) (prepared : option StoredMutation * Z * P)
    : eff Coordinator (CommitHandoff P) :=
  let '(staged, commitVersion, published) := prepared in
  _ ← modify (set_transactionOpen false);
  _ ← modify (set_isCommitted true);
  w ← get writes;
  _ ← (match afterCommit with Some f => lift (f w commitVersion) | None => mret tt end);
  _ ← (match staged with Some r => ledger (modify (committed r)) | None => mret tt end);
  _ ← (if wait then awaiting (mret tt) else mret tt);
  _ ← slot_call (Publication.commit slot published);
  mret (MkHandoff (MkCommitResult v commitVersion durability_policy executed (Some published)) (Some slot)).

Definition transact (request : CommitRequest App P) (slot : nat) : eff Coordinator (CommitHandoff P) :=
  _ ← signal_check request 0;
  _ ← engine (begin_immediate fault);
  _ ← modify (set_transactionOpen true);
  v ← awaiting (working (work request));
  _ ← assertTransactionHealthy;
  _ ← signal_check request 1;
  rolls ← lift (match rollbackWhen request with Some f => f v | None => Ret false end);
  if (rolls : bool) then roll_back request slot v
  else prepared ← prepare request slot v; hand_over slot v prepared.

(** The [catch] clause of [commit]. *)
Definition commit_failed {A} (slot : nat) (error : js_error) : eff Coordinator A :=
  done ← get isCommitted;
  if (done : bool) then throw error
  else
    opened ← get transactionOpen;
    rollbackFailed ← catch
      (_ ← when opened (_ ← engine (rollback_transaction fault); modify (set_transactionOpen false));
       mret false)
      (fun _ => mret true);
    _ ← slot_call (Publication.cancel slot);
    if (rollbackFailed : bool) then lift (plain_error indeterminate "transaction outcome could not be determined")
    else throw error.

Definition reservePublication : eff Coordinator nat :=
  t ← clock_reading;
  publishing (reserve (num_of_Z 0) t).

Definition commit (request : CommitRequest App P) : eff Coordinator (CommitHandoff P) :=
  _ ← modify new_locals;
  stored ← match req_idempotency request with
           | Some i => admit_request i
           | None => mret None
           end;
  match stored with
  | Some r => mret (MkHandoff r None)
  | None =>
      slot ← reservePublication;
      catch (transact request slot) (commit_failed slot)
  end.

(** What the caller of [execute] gets once the promise of the slot settles. *)
Definition execute_result (h : CommitHandoff P) (completed : Completion) : option (exc js_error (CommitResult P)) :=
  match handoff_completion h, completed with
  | None, _ | Some _, Completed => Some (Ret (handoff_result h))
  | Some _, Unsettled => None
  | Some _, Failed _ =>
      Some (throw_AckerDBError convergence_unavailable "the transaction committed but ordered publication failed"
              {| opt_retryable := None; opt_retryAfterMs := None; opt_resource := None; opt_committed := true |})
  end.

(** A framework transaction shares the writer and publishes nothing. *)
Record FrameworkTransactionRequest (A : Type) : Type := MkFrameworkRequest {
  fw_signal : option (nat -> option js_error);
  fw_work : eff (WorkState App) A;
  fw_afterCommit : option (A -> exc js_error unit);
}.

Definition framework_body {A} (request : FrameworkTransactionRequest A) : eff Coordinator A :=
  _ ← lift (throwIfAborted ((fun s => s 0%nat) <$> fw_signal A request));
  _ ← engine (begin_immediate fault);
  _ ← modify (set_transactionOpen true);
  v ← awaiting (working (fw_work A request));
  _ ← assertTransactionHealthy;
  _ ← lift (throwIfAborted ((fun s => s 1%nat) <$> fw_signal A request));
  _ ← engine (commit_transaction fault);
  _ ← modify (set_transactionOpen false);
  _ ← catch (lift (match fw_afterCommit A request with Some f => f v | None => Ret tt end))
        (fun _ => lift (throw_AckerDBError convergence_unavailable
           "framework transaction committed but its post-commit handoff failed"
           {| opt_retryable := None; opt_retryAfterMs := None; opt_resource := None; opt_committed := true |}));
  mret v.

Definition transactFramework {A} (request : FrameworkTransactionRequest A) : eff Coordinator A :=
  _ ← modify new_locals;
  catch (framework_body request) (fun error =>
    opened ← get transactionOpen;
    _ ← when opened (catch (engine (rollback_transaction fault))
           (fun _ => lift (plain_error indeterminate "framework transaction outcome could not be determined")));
    throw error).

(** ** Opening *)

(** The coordinator of a process that opens the database: the engine reads the
    ledger back, and publication starts at the committed version. [statements],
    [readings] and [awaits] number what the process runs on. *)
Definition open_coordinator (plimits : CapacityLimits num) (t : Tables App) (statements readings awaits : nat)
    : exc js_error Coordinator :=
  snap ← scanMutationReplay t;
  p ← new_OrderedPublication plimits (Some (snap_commitVersion snap));
  Ret (MkCoordinator (new_MutationReplayLedger (MkConnection t None statements) snap) p ∅ 0 readings awaits
         false false newWriteCollector None).

(** A crash, and a new process on what was on disk. *)
Definition restart (plimits : CapacityLimits num) (w : Coordinator) : exc js_error Coordinator :=
  let c := connection (replay w) in
  open_coordinator plimits (durable c) (statements c) (readings w) (awaits w).

(** ** Histories *)

Inductive Call : Type :=
  | Commit (request : CommitRequest App P)
  | Framework (request : FrameworkTransactionRequest value)
  | Idle (events : list (@Publication.Event P))  (* other tasks, between turns *)
  | Restart (plimits : CapacityLimits num).

Definition call (w : Coordinator) (c : Call) : Coordinator :=
  match c with
  | Commit request => (commit request w).2
  | Framework request => (transactFramework request w).2
  | Idle es => set_pub (foldl others_step (pub w) es) w
  | Restart plimits => match restart plimits w with Ret w' => w' | Throw _ => w end
  end.

Definition history (w : Coordinator) (cs : list Call) : Coordinator := foldl call w cs.
End coordinator.
Arguments Coordinator : clear implicits.
