(* ===== verification/CoordinatorInv.v ===== *)
(** The invariant of the commit coordinator and what each part of a commit does
    to it: between commits no transaction and no reservation is open, the ledger
    agrees with the disk, and the committed version on disk is the publication's
    high water. *)
From S2P Require Import Prelude Errors Limits Dll Publication PublicationInv PublicationContract Effects Value Wire Protocol Database MutationReplay MutationReplayInv Coordinator.
Local Open Scope list_scope.

Section coordinator.
Context {App P : Type}.
Context (fault : StatementKind -> nat -> option Fault) (durability_policy : DurabilityPolicy).
Context (now : nat -> ms) (others : nat -> list (@Publication.Event P)).
Context (limits : ServiceLimits Z).
Context (afterCommit : option (WriteCollector -> Z -> exc js_error unit)).
Context (wait : bool) (text_bytes : value -> Z).
Implicit Types w base : Coordinator App P.

(** What the theorems rely on: a ROLLBACK of an open transaction is not
    refused, the post-commit hook returns, and the replay ledger's byte limit is
    a safe integer, as [defineServiceLimits] makes it. *)
Record assumptions : Prop := {
  rollback_runs n : fault ROLLBACK n = None;
  hook_returns f ws v : afterCommit = Some f -> f ws v = Ret tt;
  limit_safe : (replay_maxBytes (mutationReplay limits) <= MAX_SAFE_INTEGER)%Z;
}.
Context (Hyp : assumptions).

#[local] Abbreviation conn w := (connection (replay w)).

(** ** The invariant *)

Record coordinator_ok w : Prop := {
  ok_ledger : ledger_ok (replay w);
  ok_idle : saved (conn w) = None;
  ok_pub : pub_ok (pub w);
  ok_closed : openReservation (pub w) = None;
  ok_version : commit_version <$> state_row (tables (conn w)) = Some (committedHighWater (pub w));
}.

(** The part of the state a turn of the writer does not change before it
    commits: the ledger's memory and the published versions. *)
Record steady base w : Prop := {
  steady_memory : same_memory (replay base) (replay w);
  steady_pub : pub_ok (pub w);
  steady_high : committedHighWater (pub w) = committedHighWater (pub base);
  steady_uncommitted : isCommitted w = false;
  steady_readings : (readings base <= readings w)%nat;
}.

(** Inside the transaction, [s] being what the application's code sees. *)
Record inside base (reservation : option nat) (s : WorkState App) w : Prop := {
  inside_steady : steady base w;
  inside_slot : openReservation (pub w) = reservation;
  inside_saved : saved (conn w) = Some (tables (conn base));
  inside_open : transactionOpen w = true;
  inside_tables : tables (conn w) = MkTables (state_row (tables (conn base))) (mutations (tables (conn base))) (work_app s);
  inside_work : MkWorkState (work_app s) (eventSequences w) (writes w) (poison w) = s;
}.

(** Failing: whatever was written is to be undone. *)
Record failing base slot w : Prop := {
  failing_steady : steady base w;
  failing_slot : openReservation (pub w) = Some slot \/ openReservation (pub w) = None;
  failing_durable : durable (conn w) = tables (conn base);
  failing_open : transactionOpen w = false -> saved (conn w) = None;
}.

(** Back between commits, nothing kept. *)
Record undone base w : Prop := {
  undone_ok : coordinator_ok w;
  undone_tables : tables (conn w) = tables (conn base);
  undone_memory : same_memory (replay base) (replay w);
  undone_high : committedHighWater (pub w) = committedHighWater (pub base);
  undone_readings : (readings base <= readings w)%nat;
}.

Lemma inside_failing base slot s w : inside base (Some slot) s w -> failing base slot w.
Proof.
  intros [Hst Hsl Hsv Hop Ht Hw]. constructor; [done|by left| |by rewrite Hop].
  unfold durable. by rewrite Hsv.
Qed.

(** ** Rules for the parts *)

Lemma wp_engine {A} (m : eff (Connection App) A) (Q : exc js_error A -> Coordinator App P -> Prop) w :
  wp m (fun r c => Q r (set_replay (set_connection c (replay w)) w)) (conn w) -> wp (engine m) Q w.
Proof. intros H. apply wp_zoom, wp_sql, H. Qed.

Lemma wp_ledger {A} (m : eff (MutationReplayLedger App) A) (Q : exc js_error A -> Coordinator App P -> Prop) w :
  wp m (fun r l => Q r (set_replay l w)) (replay w) -> wp (ledger m) Q w.
Proof. apply wp_zoom. Qed.

Lemma others_ok p n : pub_ok p ->
  pub_ok (foldl others_step p (others n)) /\ same_writer p (foldl others_step p (others n)).
Proof.
  generalize (others n) as es. intros es. induction es as [|e es IH] in p |- *; cbn; [done|].
  intros Hp. assert (Hstep : pub_ok (others_step p e) /\ same_writer p (others_step p e)).
  { unfold others_step. destruct (foreign e) eqn:Hf; [|done]. destruct (step e p) as [p'|] eqn:Hs; [|done].
    split; [by eapply step_ok|]. pose proof (foreign_writer e p p' Hs). by destruct e. }
  destruct Hstep as [H1 H2]. destruct (IH _ H1) as [H3 H4]. split; [done|]. by eapply same_writer_trans.
Qed.

(** The state after an await: only the publication has moved. *)
Definition resumed w w' : Prop :=
  (pub_ok (pub w) -> pub_ok (pub w')) /\ (pub_ok (pub w) -> same_writer (pub w) (pub w')) /\
  replay w' = replay w /\ eventSequences w' = eventSequences w /\ transactionOpen w' = transactionOpen w /\
  isCommitted w' = isCommitted w /\ writes w' = writes w /\ poison w' = poison w /\ readings w' = readings w.

Lemma wp_awaiting {A} (m : eff (Coordinator App P) A) (Q : exc js_error A -> Coordinator App P -> Prop) w :
  wp m (fun r w1 => forall w2, resumed w1 w2 -> Q r w2) w -> wp (awaiting others m) Q w.
Proof.
  unfold wp, awaiting. destruct (m w) as [r w1]. cbn. intros H. apply H.
  split_and!; try done; cbn; intros Hp; by apply others_ok.
Qed.

Lemma steady_resumed base w w' : steady base w -> resumed w w' -> steady base w'.
Proof.
  intros [Hm Hp Hh Hc Hr] (R1 & R2 & R3 & R4 & R5 & R6 & R7 & R8 & R9). destruct (R2 Hp) as [E1 E2].
  constructor; [by rewrite R3|by apply R1|by rewrite E2|by rewrite R6|by rewrite R9].
Qed.

Lemma inside_resumed base o s w w' : inside base o s w -> resumed w w' -> inside base o s w'.
Proof.
  intros [Hst Hsl Hsv Hop Ht Hw] R. pose proof (steady_resumed _ _ _ Hst R) as Hst'.
  destruct R as (R1 & R2 & R3 & R4 & R5 & R6 & R7 & R8 & R9). destruct (R2 (steady_pub _ _ Hst)) as [E1 E2].
  constructor; rewrite ?E1, ?R3, ?R4, ?R5, ?R7, ?R8; done.
Qed.

Lemma failing_resumed base slot w w' : failing base slot w -> resumed w w' -> failing base slot w'.
Proof.
  intros [Hst Hsl Hd Hop] R. pose proof (steady_resumed _ _ _ Hst R) as Hst'.
  destruct R as (R1 & R2 & R3 & R4 & R5 & R6 & R7 & R8 & R9). destruct (R2 (steady_pub _ _ Hst)) as [E1 E2].
  constructor; rewrite ?E1, ?R3, ?R5; done.
Qed.

(** A publication method that returns. *)
Lemma wp_slot_call (f : OrderedPublication P -> exc js_error (OrderedPublication P))
    (Q : exc js_error unit -> Coordinator App P -> Prop) w :
  (forall p, f (pub w) = Ret p -> Q (Ret tt) (set_pub p w)) ->
  (forall e, f (pub w) = Throw e -> Q (Throw e) w) -> wp (slot_call f) Q w.
Proof.
  intros H1 H2. unfold wp, slot_call, publishing. destruct (f (pub w)) as [p|e]; cbn; [by apply H1|by apply H2].
Qed.

(** ** Undoing *)

(** The [catch] clause throws, with everything undone. *)
Lemma commit_failed_spec {A} base slot w e (Q : exc js_error A -> Coordinator App P -> Prop) :
  coordinator_ok base -> failing base slot w ->
  (forall e' w', undone base w' -> Q (Throw e') w') -> wp (commit_failed fault slot e) Q w.
Proof.
  intros Hb [[Hmem Hpub Hhigh Hunc Hread] Hsl Hd Hop] HQ. unfold commit_failed.
  apply wp_bind, wp_get. rewrite Hunc. apply wp_bind, wp_get.
  assert (Hdone : forall w', conn w' = conn w' -> saved (conn w') = None -> tables (conn w') = tables (conn base) ->
    same_memory (replay base) (replay w') -> pub_ok (pub w') -> openReservation (pub w') = None ->
    committedHighWater (pub w') = committedHighWater (pub base) -> readings w' = readings w -> undone base w').
  { intros w' _ H1 H2 H3 H4 H5 H6 H7. constructor; try done; [|by rewrite H7]. destruct Hb as [B1 B2 B3 B4 B5].
    constructor; try done; [|by rewrite H2, H6]. destruct H3 as (E1 & E2 & E3 & E4).
    unfold ledger_ok, durable in *. rewrite H1, H2, E1, E2, E3, E4. by rewrite B2 in B1. }
  apply (wp_seq (fun o w' => exists b, o = Ret b /\ saved (conn w') = None /\ tables (conn w') = tables (conn base) /\
     same_memory (replay base) (replay w') /\ pub w' = pub w /\ readings w' = readings w)).
  { apply wp_catch, wp_bind. apply wp_when.
    - intros Ho. apply wp_bind, wp_engine. eapply wp_mono; [apply wp_rollback; by apply rollback_runs|].
      intros o c (Hd' & Hs' & _). unfold durable in Hd' at 1. rewrite Hs' in Hd'. cbn in Hd'.
      destruct o as [[]|e']; cbn; [apply wp_modify|]; apply wp_ret; eexists; cbn; split_and!; try done; by rewrite Hd', Hd.
    - intros Ho. apply wp_ret. eexists. specialize (Hop Ho). split_and!; try done.
      unfold durable in Hd. by rewrite Hop in Hd. }
  2:{ by intros e' w' (b & ? & _). }
  intros b w1 (b' & [= <-] & Hs1 & Ht1 & Hm1 & Hp1 & Hr1). apply wp_bind, wp_slot_call.
  - intros p Hp. destruct Hsl as [Hsl|Hsl]; [|rewrite Hp1, cancel_closed in Hp by done; done].
    destruct (cancel_ok (pub w) slot Hpub Hsl) as (p' & Hc & Hpok & Hpo & Hph). rewrite Hp1, Hc in Hp. injection Hp as ->.
    assert (Hu : undone base (set_pub p w1)) by (apply Hdone; cbn; try done; by rewrite Hph).
    destruct b; [|by apply wp_throw, HQ]. apply wp_lift. unfold plain_error, throw_AckerDBError. cbn. by apply HQ.
  - intros e' He. apply HQ. destruct Hsl as [Hsl|Hsl].
    + destruct (cancel_ok (pub w) slot Hpub Hsl) as (p' & Hc & _). rewrite Hp1, Hc in He. done.
    + apply Hdone; try done; by rewrite Hp1.
Qed.

(** ** Inside the transaction *)

Lemma wp_working {A} base o s w (m : eff (WorkState App) A) :
  inside base o s w ->
  wp (working m) (fun r w' => r = (m s).1 /\ inside base o (m s).2 w') w.
Proof.
  intros [[Hm Hp Hh Hc Hr] Hsl Hsv Hop Ht Hw]. unfold working. apply wp_zoom.
  assert (Hs : MkWorkState (app (tables (conn w))) (eventSequences w) (writes w) (poison w) = s) by (by rewrite Ht, <-Hw).
  rewrite Hs. unfold wp. split; [done|]. constructor; cbn.
  - by constructor.
  - done.
  - done.
  - done.
  - by rewrite Ht.
  - by destruct (m s).2.
Qed.

(** A computation that only reads the state. *)
Definition readonly {A} (m : eff (Coordinator App P) A) : Prop := forall w, (m w).2 = w.

Lemma readonly_lift {A} (m : exc js_error A) : readonly (lift m).
Proof. done. Qed.
Lemma readonly_get {A} (f : Coordinator App P -> A) : readonly (get f).
Proof. done. Qed.
Lemma readonly_ret {A} (a : A) : readonly (mret a).
Proof. done. Qed.
Lemma readonly_bind {A B} (m : eff (Coordinator App P) A) (k : A -> eff (Coordinator App P) B) :
  readonly m -> (forall a, readonly (k a)) -> readonly (m ≫= k).
Proof.
  intros Hm Hk w. unfold mbind, eff_bind. specialize (Hm w). destruct (m w) as [[a|e] w']; cbn in *; subst; [apply Hk|done].
Qed.
Lemma readonly_result_capacity b : readonly (result_capacity limits b).
Proof. unfold result_capacity. by case_decide. Qed.
Lemma readonly_replay_capacity b : readonly (replay_capacity limits b).
Proof. apply readonly_bind; [apply readonly_get|]. intros. by case_decide. Qed.
Lemma readonly_healthy : readonly assertTransactionHealthy.
Proof. apply readonly_bind; [apply readonly_get|]. by intros [e|]. Qed.

Lemma wp_readonly {A B} (m : eff (Coordinator App P) A) (k : A -> eff (Coordinator App P) B)
    (Q : exc js_error B -> Coordinator App P -> Prop) w :
  readonly m -> (forall a, (m w).1 = Ret a -> wp (k a) Q w) -> (forall e, Q (Throw e) w) -> wp (m ≫= k) Q w.
Proof.
  intros Hm Hk Ht. apply wp_bind. unfold wp at 1. specialize (Hm w). destruct (m w) as [[a|e] w']; cbn in *; subst; auto.
Qed.

Lemma wp_readNow {B} (k : Z -> eff (Coordinator App P) B) (Q : exc js_error B -> Coordinator App P -> Prop) w :
  let w1 := MkCoordinator (replay w) (pub w) (eventSequences w) (nextPruneAtMs w) (S (readings w)) (awaits w)
     (transactionOpen w) (isCommitted w) (writes w) (poison w) in
  (forall t, now (readings w) = Finite t -> wp (k t) Q w1) -> (forall e, Q (Throw e) w1) ->
  wp (readNow now ≫= k) Q w.
Proof.
  intros w1 Hk Ht. apply wp_bind. unfold readNow. apply wp_bind. unfold wp at 1, clock_reading. cbn.
  destruct (now (readings w)) as [t|] eqn:E; [apply wp_ret; by apply Hk|apply wp_throw, Ht].
Qed.

(** ** What a turn that returned has done *)

(** One row was appended, with the completion time of a clock reading. *)
Definition recorded base w' (r : NewStoredMutation) (v : Z) : Prop :=
  exists row, mutations (tables (conn w')) = mutations (tables (conn base)) ++ [row] /\
    stored (toStoredMutation row) = r /\ row_commit_version row = v /\
    exists n t, (readings base <= n < readings w')%nat /\ now n = Finite t /\ real_le (Real t) (completed_at row) = true.

(** The stored text is the encoding of the result, or absent for a one-time one. *)
Definition text_of (d : ResultDisposition) (v : value) (text : option value) : Prop :=
  match d with
  | replayable => exists j, text = Some j /\ encode v = Ret j
  | one_time => text = None
  end.

Definition recorded_request base w' (request : CommitRequest App P) (v : value) (version : Z) : Prop :=
  match req_idempotency request with
  | None => mutations (tables (conn w')) = mutations (tables (conn base))
  | Some i => exists d text, text_of d v text /\ recorded base w' (replay_record durability_policy text_bytes i d text) version
  end.

(** A handled failure: the application's tables are as they were. *)
Record rolled (request : CommitRequest App P) base w' (h : CommitHandoff P) : Prop := {
  rolled_ok : coordinator_ok w';
  rolled_app : app (tables (conn w')) = app (tables (conn base));
  rolled_high : committedHighWater (pub w') = committedHighWater (pub base);
  rolled_readings : (readings base <= readings w')%nat;
  rolled_result : exists v, h = MkHandoff (MkCommitResult v (committedHighWater (pub base)) durability_policy executed None) None /\
    recorded_request base w' request v (committedHighWater (pub base));
}.

(** The work and the finalizer as the transaction ran them. *)
Definition ran (request : CommitRequest App P) base (v : value) (s : WorkState App) : Prop :=
  exists s1, work request (MkWorkState (app (tables (conn base))) (eventSequences base) newWriteCollector None) = (Ret v, s1) /\
    work_poison s1 = None /\
    match finalize request with Some f => f s1 = (Ret tt, s) | None => s = s1 end.

(** A commit: the application's tables are what the work made them, at the next
    version, which is also published. *)
Record kept (request : CommitRequest App P) base w' (h : CommitHandoff P) : Prop := {
  kept_ok : coordinator_ok w';
  kept_high : committedHighWater (pub w') = (committedHighWater (pub base) + 1)%Z;
  kept_readings : (readings base <= readings w')%nat;
  kept_result : exists v s published slot, ran request base v s /\ app (tables (conn w')) = work_app s /\
    publication_of request (committedHighWater (pub w')) (work_writes s) = Ret published /\
    h = MkHandoff (MkCommitResult v (committedHighWater (pub w')) durability_policy executed (Some published)) (Some slot) /\
    recorded_request base w' request v (committedHighWater (pub w'));
}.

(** ** Recording *)

Lemma num_safe_of_Z_inv z b : num_safe_integer (num_of_Z z) = Some b -> b = z.
Proof. unfold num_safe_integer. rewrite num_integer_of_Z. case_decide; [|done]. by injection 1. Qed.

Lemma replay_capacity_ret b w u :
  (replay_capacity limits b w).1 = Ret u -> (byteCount (replay w) + b <= replay_maxBytes (mutationReplay limits))%Z.
Proof.
  unfold replay_capacity, mbind, eff_bind, get. case_decide; [|intros _; lia].
  unfold lift, overloaded_error, throw_AckerDBError. cbn. done.
Qed.

(** Staging inside a transaction whose ledger is the base's. *)
Lemma stage_turn base w i d text t0 a :
  coordinator_ok base -> same_memory (replay base) (replay w) ->
  saved (conn w) = Some (tables (conn base)) ->
  mutations (tables (conn w)) = mutations (tables (conn base)) ->
  state_row (tables (conn w)) = state_row (tables (conn base)) ->
  (byteCount (replay w) + encoded_bytes text_bytes text <= replay_maxBytes (mutationReplay limits))%Z ->
  let r := replay_record durability_policy text_bytes i d text in
  wp (ledger (stage fault r (Finite t0) a)) (fun o w' => exists l', w' = set_replay l' w /\
    same_memory (replay base) l' /\
    match o with
    | Throw _ => durable (connection l') = tables (conn base)
    | Ret m =>
        saved (connection l') = Some (tables (conn base)) /\
        app (tables (connection l')) = app (tables (conn w)) /\
        tables_ok (tables (connection l')) (index (committed m (replay base))) (recordCount (committed m (replay base)))
          (byteCount (committed m (replay base))) (lastCompletedAt (committed m (replay base))) /\
        commit_version <$> state_row (tables (connection l')) = Some (MutationReplay.commitVersion m) /\
        MutationReplay.commitVersion m = (committedHighWater (pub base) + match a with commit_allocation => 1 | replay_allocation => 0 end)%Z /\
        exists row, mutations (tables (connection l')) = mutations (tables (conn base)) ++ [row] /\
          stored (toStoredMutation row) = r /\ row_commit_version row = MutationReplay.commitVersion m /\
          real_le (Real t0) (completed_at row) = true
    end) w.
Proof.
  intros Hb Hm Hs Hmut Hst Hcap r. destruct Hb as [Hl Hi Hp Ho Hv].
  unfold ledger_ok, durable in Hl. rewrite Hi in Hl. cbn in Hl. destruct Hl as (s & Hrow & Hr & Hmem).
  destruct Hm as (E1 & E2 & E3 & E4). rewrite Hrow in Hv. injection Hv as Hv.
  apply wp_ledger. eapply wp_mono.
  - apply (stage_spec fault (replay w) r (Finite t0) a (tables (conn base)) s); rewrite ?E1, ?E2, ?E3, ?E4, ?Hmut, ?Hst; try done.
    intros b Hb. apply num_safe_of_Z_inv in Hb. subst b. pose proof (limit_safe Hyp). rewrite E3 in Hcap. lia.
  - intros o l' ((F1 & F2 & F3 & F4) & Hpost). exists l'. split; [done|]. split; [unfold same_memory; split_and!; congruence|].
    destruct o as [m|e]; [|done]. destruct Hpost as (H1 & H2 & H3 & H4 & row & (b & t & Hb & [= <-] & -> & Hmm & Ht) & Hrows).
    apply num_safe_of_Z_inv in Hb.
    split_and!; try done.
    + unfold committed in *. cbn in *. by rewrite E1, E2, E3 in H3.
    + rewrite Hmm. destruct a; cbn; lia.
    + exists (row_of r b (allocated a b s) (completedAt m)). split_and!; try done.
      * by rewrite Hrows, Hmut.
      * unfold toStoredMutation, row_of. cbn. rewrite Hb. done.
      * by rewrite Hmm.
Qed.

(** The ledger once the staged row is durable and indexed. *)
Lemma committed_ok base (l : MutationReplayLedger App) m :
  same_memory (replay base) l -> saved (connection l) = None ->
  tables_ok (tables (connection l)) (index (committed m (replay base))) (recordCount (committed m (replay base)))
    (byteCount (committed m (replay base))) (lastCompletedAt (committed m (replay base))) ->
  ledger_ok (committed m l).
Proof.
  intros (E1 & E2 & E3 & E4) Hs H. unfold ledger_ok, durable, committed in *. cbn in *. by rewrite Hs, E1, E2, E3.
Qed.

Lemma record_outcome_spec base slot w i d text :
  coordinator_ok base -> steady base w -> tables (conn w) = tables (conn base) -> saved (conn w) = None ->
  openReservation (pub w) = None -> transactionOpen w = false ->
  (byteCount (replay w) + encoded_bytes text_bytes text <= replay_maxBytes (mutationReplay limits))%Z ->
  let r := replay_record durability_policy text_bytes i d text in
  wp (record_outcome fault now r) (fun o w' =>
    match o with
    | Ret m => coordinator_ok w' /\ app (tables (conn w')) = app (tables (conn base)) /\
        committedHighWater (pub w') = committedHighWater (pub base) /\
        MutationReplay.commitVersion m = committedHighWater (pub base) /\
        recorded base w' r (committedHighWater (pub base)) /\ (readings base <= readings w')%nat
    | Throw _ => failing base slot w'
    end) w.
Proof.
  intros Hb Hst Ht Hs Ho Hopen Hcap r. unfold record_outcome. apply wp_catch.
  (* what the catch clause is given *)
  set (R := fun w' => steady base w' /\ openReservation (pub w') = None /\ durable (conn w') = tables (conn base) /\
              (transactionOpen w' = false -> saved (conn w') = None)).
  assert (Hcatch : forall e w', R w' -> wp (opened ← get transactionOpen;
     _ ← when opened (_ ← engine (rollback_transaction fault); modify (set_transactionOpen false));
     throw e) (fun (o : exc js_error StoredMutation) w' => match o with Ret _ => False | Throw _ => failing base slot w' end) w').
  { intros e w' ([Sm Sp Sh Sc Sr] & Ho' & Hd & Hop). apply wp_bind, wp_get, wp_bind, wp_when.
    - intros _. apply wp_bind, wp_engine. eapply wp_mono; [by apply wp_rollback, rollback_runs|].
      intros o c (Hd' & Hs' & _). destruct o as [[]|e'].
      + apply wp_modify, wp_throw. constructor; cbn; try done; [by right|by rewrite Hd'].
      + constructor; cbn; try done; [by right|by rewrite Hd'].
    - intros Hf. apply wp_throw. constructor; try done. by right. }
  assert (HR : forall e w', R w' -> wp (opened ← get transactionOpen;
     _ ← when opened (_ ← engine (rollback_transaction fault); modify (set_transactionOpen false));
     throw e) (fun (o : exc js_error StoredMutation) w' => match o with
    | Ret m => coordinator_ok w' /\ app (tables (conn w')) = app (tables (conn base)) /\
        committedHighWater (pub w') = committedHighWater (pub base) /\
        MutationReplay.commitVersion m = committedHighWater (pub base) /\
        recorded base w' r (committedHighWater (pub base)) /\ (readings base <= readings w')%nat
    | Throw _ => failing base slot w' end) w').
  { intros e w' H. eapply wp_mono; [by apply Hcatch|]. by intros [m|e'] w''. }
  clear Hcatch.
  assert (Hdur : durable (conn w) = tables (conn base)) by (unfold durable; by rewrite Hs).
  destruct Hst as [Sm Sp Sh Sc Sr].
  apply wp_bind, wp_engine. eapply wp_mono; [by apply wp_begin|].
  intros [[]|e] c1 [Hd1 H1]; [|apply HR; unfold R; cbn; split_and!; try done; by rewrite Hd1].
  destruct H1 as [Ht1 Hs1]. apply wp_bind, wp_modify.
  apply wp_readNow; cbn.
  2:{ intros e. apply HR. unfold R. cbn. split_and!; try done; [by constructor; cbn; try done; lia|by rewrite Hd1]. }
  intros t0 Hnow. set (w1 := MkCoordinator _ _ _ _ _ _ _ _ _ _).
  apply wp_bind. eapply wp_mono; [apply (stage_turn base w1 i d text t0 replay_allocation Hb); cbn; try done|].
  { by rewrite Hs1, Ht. }
  { by rewrite Ht1, Ht. }
  { by rewrite Ht1, Ht. }
  intros o w2 (l2 & -> & Hm2 & Hpost). destruct o as [m|e].
  2:{ apply HR. unfold R. cbn. split_and!; try done. constructor; cbn; try done. lia. }
  destruct Hpost as (Hs2 & Happ & Htab & Hver & Hmv & row & Hrows & Hrow & Hrv & Htime).
  apply wp_bind, wp_engine. cbn. eapply wp_mono; [by apply wp_commit|].
  intros [[]|e] c3 H3.
  2:{ apply HR. unfold R. cbn. split_and!; try done. constructor; cbn; try done. lia. }
  destruct H3 as [Ht3 Hs3]. apply wp_bind, wp_modify, wp_bind, wp_ledger, wp_modify, wp_ret. cbn.
  rewrite Z.add_0_r in Hmv. split_and!.
  - constructor; cbn; try done.
    + apply committed_ok with (base := base); [by destruct Hm2 as (?&?&?&?)|done|cbn; by rewrite Ht3].
    + by rewrite Ht3, Hver, Hmv, Sh.
  - rewrite Ht3, Happ. unfold w1. cbn. by rewrite Ht1, Ht.
  - by rewrite Sh.
  - done.
  - exists row. cbn. rewrite Ht3. split_and!; [done|done|by rewrite Hrv|].
    exists (readings w), t0. cbn. split_and!; try done; lia.
  - cbn. lia.
Qed.

(** ** The rolled-back turn *)

Lemma failing_intro base slot w :
  steady base w -> openReservation (pub w) = None -> tables (conn w) = tables (conn base) -> saved (conn w) = None ->
  failing base slot w.
Proof.
  intros Hst Ho Ht Hs. constructor; try done; [by right|]. unfold durable. by rewrite Hs.
Qed.

Lemma undone_tables_ok base w :
  coordinator_ok base -> steady base w -> openReservation (pub w) = None ->
  tables (conn w) = tables (conn base) -> saved (conn w) = None -> coordinator_ok w.
Proof.
  intros [Hl Hi Hp Ho Hv] [(E1 & E2 & E3 & E4) Sp Sh Sc Sr] Ho' Ht Hs. constructor; try done.
  - unfold ledger_ok, durable in *. rewrite Hs, Ht, E1, E2, E3, E4. by rewrite Hi in Hl.
  - by rewrite Ht, Sh.
Qed.

Lemma commitVersion_spec (c : Connection App) v :
  commit_version <$> state_row (tables c) = Some v -> saved c = None ->
  wp (Database.commitVersion fault) (fun o c' => tables c' = tables c /\ saved c' = None /\
    match o with Ret z => z = v | Throw _ => True end) c.
Proof.
  intros Hv Hs. unfold Database.commitVersion.
  apply (wp_seq (fun o c' => tables c' = tables c /\ saved c' = None /\
     match o with Ret r => r = state_row (tables c) | Throw _ => True end)).
  - apply wp_statement; [|done]. intros e c' Hd Hs'. unfold durable in Hd. rewrite Hs', Hs in Hd by done.
    split_and!; [done|by apply Hs'|done].
  - intros o c' (Ht & Hs' & ->). destruct (state_row (tables c)) as [s|]; [|done]. injection Hv as Hv. done.
  - intros e c' (? & ? & _). done.
Qed.

Lemma text_spec v d (Q : exc js_error (option value) -> Coordinator App P -> Prop) w :
  (forall text, text_of d v text -> Q (Ret text) w) -> (forall e, Q (Throw e) w) ->
  wp (if decide (d = replayable) then text ← lift (encode v); mret (Some text) else mret None) Q w.
Proof.
  intros H1 H2. case_decide as Hd.
  - subst d. apply wp_bind, wp_lift. destruct (encode v) as [j|e] eqn:E; [|by apply H2].
    apply wp_ret, H1. by exists j.
  - apply wp_ret, H1. by destruct d.
Qed.

Lemma roll_back_spec request base slot s w v :
  coordinator_ok base -> inside base (Some slot) s w ->
  wp (roll_back fault durability_policy now limits text_bytes request slot v) (fun o w' =>
    match o with Ret h => rolled request base w' h | Throw _ => failing base slot w' end) w.
Proof.
  intros Hb Hin. pose proof (inside_failing _ _ _ _ Hin) as Hf. destruct Hin as [[Sm Sp Sh Sc Sr] Hsl Hsv Hop Ht Hw].
  unfold roll_back. apply wp_bind, wp_engine. eapply wp_mono; [by apply wp_rollback, rollback_runs|].
  intros o c1 (Hd1 & Hs1 & Hret). rewrite Hret by congruence. clear o Hret.
  assert (Ht1 : tables c1 = tables (conn base)).
  { unfold durable in Hd1 at 1. rewrite Hs1 in Hd1. cbn in Hd1. rewrite Hd1. unfold durable. by rewrite Hsv. }
  apply wp_bind, wp_modify, wp_bind, wp_slot_call; cbn.
  2:{ intros e He. destruct (cancel_ok _ _ Sp Hsl) as (p' & Hc & _). by rewrite Hc in He. }
  intros p1 Hp1. destruct (cancel_ok _ _ Sp Hsl) as (p' & Hc & Hpok & Hpo & Hph). rewrite Hc in Hp1. injection Hp1 as ->.
  match goal with |- wp _ _ ?x => set (w1 := x) end.
  assert (Hst1 : steady base w1) by (constructor; cbn; try done; congruence).
  apply wp_bind, wp_engine.
  eapply wp_mono; [apply (commitVersion_spec _ (committedHighWater (pub base))); cbn; [by rewrite Ht1; apply ok_version|done]|].
  intros o c2 (Ht2 & Hs2 & Hv). cbn in Ht2. rewrite Ht1 in Ht2.
  match goal with |- context [set_replay ?a ?b] => set (w2 := set_replay a b) end.
  assert (Hst2 : steady base w2) by (destruct Hst1; by constructor).
  destruct o as [z|e]; [subst z|by apply failing_intro].
  destruct (req_idempotency request) as [i|] eqn:Hi.
  - apply wp_bind, wp_bind, wp_get. set (d := disposition w2). apply wp_bind, text_spec; [|intros; by apply failing_intro].
    intros text Htext. apply wp_readonly; [apply readonly_result_capacity| |intros; by apply failing_intro].
    intros [] _. apply wp_readonly; [apply readonly_replay_capacity| |intros; by apply failing_intro].
    intros [] Hcap. apply replay_capacity_ret in Hcap. apply wp_bind.
    eapply wp_mono; [by apply (record_outcome_spec base slot w2 i d text)|].
    intros [m|e] w3; [|done]. intros (Hok & Happ & Hhigh & Hmv & Hrec & Hread). apply wp_ret, wp_ret.
    constructor; try done. exists v. rewrite Hmv. split; [done|]. unfold recorded_request. rewrite Hi. by exists d, text.
  - apply wp_bind, wp_ret, wp_ret. constructor.
    + by apply (undone_tables_ok base).
    + by cbn; rewrite Ht2.
    + apply Hst2.
    + apply Hst2.
    + exists v. split; [done|]. unfold recorded_request. rewrite Hi. by cbn; rewrite Ht2.
Qed.

(** ** The committing turn *)

Definition staged_memory (l : MutationReplayLedger App) (staged : option StoredMutation) : MutationReplayLedger App :=
  match staged with Some m => committed m l | None => l end.

Definition tables_match (t : Tables App) (l : MutationReplayLedger App) : Prop :=
  tables_ok t (index l) (recordCount l) (byteCount l) (lastCompletedAt l).

(** After COMMIT, before the memory and the publication follow. *)
Record prepared (request : CommitRequest App P) base slot v (s : WorkState App) w
    (staged : option StoredMutation) (version : Z) (published : P) : Prop := {
  prepared_steady : steady base w;
  prepared_slot : openReservation (pub w) = Some slot;
  prepared_saved : saved (conn w) = None;
  prepared_app : app (tables (conn w)) = work_app s;
  prepared_next : version = (committedHighWater (pub base) + 1)%Z;
  prepared_version : commit_version <$> state_row (tables (conn w)) = Some version;
  prepared_tables : tables_match (tables (conn w)) (staged_memory (replay base) staged);
  prepared_publication : publication_of request version (work_writes s) = Ret published;
  prepared_recorded : recorded_request base w request v version;
}.

Lemma inside_pub base o s w p :
  inside base o s w -> pub_ok p -> same_writer (pub w) p -> inside base o s (set_pub p w).
Proof.
  intros [[Sm Sp Sh Sc Sr] Hsl Hsv Hop Ht Hw] Hp [E1 E2]. constructor; cbn; try done; [|by rewrite E1].
  constructor; cbn; try done. by rewrite E2.
Qed.

Lemma bump_ok (t : Tables App) l s v :
  tables_match t l -> state_row t = Some s ->
  v = MkStateRow (commit_version s + 1) (mutation_sequence s) (mutation_records s) (mutation_result_bytes s) ->
  tables_match (MkTables (Some v) (mutations t) (app t)) l.
Proof.
  intros (s' & Hs & Hr & Hm) E ->. rewrite E in Hs. injection Hs as <-. eexists. split; [done|]. split; [|exact Hm].
  destruct Hr as [Ho Hw Hk Hc Hn Hb Hsafe Hst]. apply bool_decide_eq_true in Hst. constructor; cbn; try done.
  - eapply Forall_impl; [exact Hw|]. cbn. lia.
  - apply bool_decide_eq_true. cbn. lia.
Qed.

(** Allocating the version, with the replay record when the request has one. *)
Lemma allocation_spec request base slot s w v d text :
  coordinator_ok base -> inside base (Some slot) s w -> text_of d v text ->
  (is_Some (req_idempotency request) ->
     byteCount (replay w) + encoded_bytes text_bytes text <= replay_maxBytes (mutationReplay limits))%Z ->
  wp (match req_idempotency request with
      | Some i =>
          now ← readNow now;
          staged ← ledger (stage fault (replay_record durability_policy text_bytes i d text) (Finite now) commit_allocation);
          mret (Some staged, MutationReplay.commitVersion staged)
      | None => version ← engine (allocateCommitVersion fault); mret (None, version)
      end)
    (fun o w' => writes w' = writes w /\
      match o with
      | Ret (staged, version) => steady base w' /\ openReservation (pub w') = Some slot /\
          saved (conn w') = Some (tables (conn base)) /\ transactionOpen w' = true /\
          app (tables (conn w')) = work_app s /\ version = (committedHighWater (pub base) + 1)%Z /\
          commit_version <$> state_row (tables (conn w')) = Some version /\
          tables_match (tables (conn w')) (staged_memory (replay base) staged) /\
          recorded_request base w' request v version
      | Throw _ => failing base slot w'
      end) w.
Proof.
  intros Hb Hin Htext Hcap. pose proof (inside_failing _ _ _ _ Hin) as Hf.
  destruct Hin as [[Sm Sp Sh Sc Sr] Hsl Hsv Hop Ht Hw]. unfold recorded_request.
  destruct (req_idempotency request) as [i|] eqn:Hi.
  - apply wp_readNow; cbn.
    2:{ intros e. split; [done|]. constructor; cbn; [constructor; cbn; try done; lia|by left|apply Hf|by rewrite Hop]. }
    intros t0 Hnow. apply wp_bind. match goal with |- wp _ _ ?x => set (w1 := x) end.
    eapply wp_mono.
    + apply (stage_turn base w1 i d text t0 commit_allocation Hb); cbn; try done; [by rewrite Ht..|by apply Hcap].
    + intros o w2 (l2 & -> & Hm2 & Hpost). destruct o as [m|e].
      2:{ split; [done|]. constructor; cbn; [constructor; cbn; try done; lia|by left|done|by rewrite Hop]. }
      destruct Hpost as (Hs2 & Happ & Htab & Hver & Hmv & row & Hrows & Hrow & Hrv & Htime).
      apply wp_ret. split; [done|]. split_and!; try done.
      * constructor; cbn; try done. lia.
      * cbn. rewrite Happ. cbn. by rewrite Ht.
      * exists d, text. split; [done|]. exists row. cbn. split_and!; try done. exists (readings w), t0.
        split_and!; try done; cbn; lia.
  - destruct (ok_ledger _ Hb) as (s0 & Hrow0 & Hr0 & Hm0). unfold durable in Hrow0, Hr0, Hm0.
    rewrite (ok_idle _ Hb) in Hrow0, Hr0, Hm0. cbn in Hrow0, Hr0, Hm0.
    pose proof (ok_version _ Hb) as Hv. rewrite Hrow0 in Hv. injection Hv as Hv.
    apply wp_bind, wp_engine. unfold allocateCommitVersion.
    eapply wp_seq; [apply (wp_update fault _ (tables (conn base)) _ s0); [done|by rewrite Ht]|..].
    2:{ intros e c Hd. split; [done|]. constructor; cbn; [by constructor|by left|done|by rewrite Hop]. }
    intros o c (-> & _ & Hs & Htc). apply wp_ret. rewrite Ht in Htc. cbn in Htc.
    split; [done|]. cbn. rewrite Htc. cbn. split_and!; try done; [lia|].
    apply (bump_ok (MkTables (state_row (tables (conn base))) (mutations (tables (conn base))) (work_app s)) _ s0); try done.
    unfold tables_match, tables_ok. cbn. rewrite Hrow0. by exists s0.
Qed.

(** A read-only step from a state that is failing if it throws. *)
Lemma wp_read {A B} base slot (m : eff (Coordinator App P) A) (k : A -> eff (Coordinator App P) B)
    (Q : exc js_error B -> Coordinator App P -> Prop) w :
  readonly m -> failing base slot w -> (forall w' e, failing base slot w' -> Q (Throw e) w') ->
  (forall a, (m w).1 = Ret a -> wp (k a) Q w) -> wp (m ≫= k) Q w.
Proof. intros Hm Hf HQ Hk. apply wp_readonly; [done|done|]. intros. by apply HQ. Qed.

Definition finalized (request : CommitRequest App P) (s1 s : WorkState App) : Prop :=
  match finalize request with Some f => f s1 = (Ret tt, s) | None => s = s1 end.

Lemma finalize_spec request base slot s1 w :
  inside base (Some slot) s1 w ->
  wp (awaiting others (match finalize request with Some f => working f | None => mret tt end)) (fun o w' =>
    match o with
    | Ret _ => exists s, finalized request s1 s /\ inside base (Some slot) s w'
    | Throw _ => failing base slot w'
    end) w.
Proof.
  intros Hin. apply wp_awaiting. unfold finalized. destruct (finalize request) as [f|].
  - eapply wp_mono; [by apply wp_working|]. intros o w1 [-> Hin1] w2 Hr.
    pose proof (inside_resumed _ _ _ _ _ Hin1 Hr) as Hin2. destruct (f s1) as [[[]|e] s]; cbn in *.
    + by exists s.
    + by eapply inside_failing.
  - apply wp_ret. intros w2 Hr. exists s1. split; [done|]. by eapply inside_resumed.
Qed.

Lemma optional_text_spec (request : CommitRequest App P) v d (Q : exc js_error (option value) -> Coordinator App P -> Prop) w :
  (forall text, (is_Some (req_idempotency request) -> text_of d v text) ->
     (req_idempotency request = None -> text = None) -> Q (Ret text) w) -> (forall e, Q (Throw e) w) ->
  wp (if decide (is_Some (req_idempotency request) /\ d = replayable)
      then text ← lift (encode v); mret (Some text) else mret None) Q w.
Proof.
  intros H1 H2. case_decide as Hd.
  - destruct Hd as [[i Hi] ->]. apply wp_bind, wp_lift. destruct (encode v) as [j|e] eqn:E; [|by apply H2].
    apply wp_ret, H1; [intros _; by exists j|]. by rewrite Hi.
  - apply wp_ret, H1; [|done]. intros Hi. destruct d; [|done]. by destruct Hd.
Qed.

Lemma prepare_spec request base slot s1 w v :
  coordinator_ok base -> inside base (Some slot) s1 w ->
  wp (prepare fault durability_policy now others limits text_bytes request slot v) (fun o w' =>
    match o with
    | Ret (staged, version, published) => exists s, finalized request s1 s /\
        prepared request base slot v s w' staged version published
    | Throw _ => failing base slot w'
    end) w.
Proof.
  intros Hb Hin. unfold prepare. eapply wp_seq; [by apply finalize_spec| |done].
  intros [] w1 (s & Hfin & Hin1). pose proof (inside_failing _ _ _ _ Hin1) as Hf1.
  apply wp_bind, wp_get. apply (wp_read base slot); [apply readonly_lift|done|done|]. intros bytes _.
  apply wp_bind, wp_slot_call; [|done]. intros p Hp.
  destruct (resize_ok _ _ _ _ (steady_pub _ _ (inside_steady _ _ _ _ Hin1)) Hp) as [Hpok Hpw].
  pose proof (inside_pub _ _ _ _ _ Hin1 Hpok Hpw) as Hin2. set (w2 := set_pub p w1) in *.
  pose proof (inside_failing _ _ _ _ Hin2) as Hf2. clearbody w2. clear w1 Hin1 Hf1 Hp Hpok Hpw p.
  apply wp_bind, wp_get. set (d := disposition w2).
  apply wp_bind, optional_text_spec; [|done]. intros text Htext Hnone.
  apply (wp_read base slot); [apply readonly_result_capacity|done|done|]. intros [] _.
  apply (wp_read base slot); [by case_decide; [apply readonly_replay_capacity|]|done|done|]. intros [] Hcap.
  assert (Hcap' : is_Some (req_idempotency request) ->
            (byteCount (replay w2) + encoded_bytes text_bytes text <= replay_maxBytes (mutationReplay limits))%Z).
  { intros Hi. rewrite decide_True in Hcap by done. by eapply replay_capacity_ret. }
  eapply wp_seq.
  { destruct (req_idempotency request) as [i|] eqn:Hi.
    - pose proof (allocation_spec request base slot s w2 v d text Hb Hin2) as Ha. rewrite Hi in Ha. apply Ha; [by apply Htext|done].
    - pose proof (allocation_spec request base slot s w2 v one_time None Hb Hin2) as Ha. rewrite Hi in Ha. apply Ha; [done|].
      by intros [? ?]. }
  2:{ by intros e w' [_ ?]. }
  intros [staged version] w3 (Hw3 & Hst & Hsl & Hsv & Hop & Happ & Hver & Hrow & Htab & Hrec).
  assert (Hf3 : failing base slot w3).
  { constructor; [done|by left| |by rewrite Hop]. unfold durable. by rewrite Hsv. }
  apply wp_bind, wp_get. apply (wp_read base slot); [by destruct (decide (version <> slot_version slot w3))|done|done|]. intros [] _.
  apply wp_bind, wp_get. apply (wp_read base slot); [apply readonly_lift|done|done|]. intros published Hpub.
  apply (wp_read base slot); [by destruct (validate request)|done|done|]. intros [] _.
  apply (wp_read base slot); [apply readonly_lift|done|done|]. intros [] _.
  apply wp_bind, wp_engine. eapply wp_mono; [by apply wp_commit|].
  intros [[]|e] c Hc.
  2:{ destruct Hst. constructor; cbn; [by constructor|by left|done|by rewrite Hop]. }
  destruct Hc as [Htc Hsc]. apply wp_ret. exists s. split; [done|]. destruct Hst. constructor; cbn; rewrite ?Htc; try done.
  - destruct Hin2 as [_ _ _ _ _ Hwork]. rewrite Hw3 in Hpub. rewrite <-Hwork. done.
  - unfold recorded_request, recorded in *. cbn. by rewrite Htc.
Qed.

(** The hand-over after COMMIT always returns. *)
Lemma hand_over_spec request base slot v s w staged version published :
  coordinator_ok base -> prepared request base slot v s w staged version published ->
  ran request base v s ->
  wp (hand_over durability_policy others afterCommit wait slot v (staged, version, published)) (fun o w' =>
    exists h, o = Ret h /\ kept request base w' h) w.
Proof.
  intros Hb [[Sm Sp Sh Sc Sr] Hsl Hsv Happ Hnext Hver Htab Hpub Hrec] Hran. unfold hand_over.
  apply wp_bind, wp_modify, wp_bind, wp_modify, wp_bind, wp_get. apply wp_bind.
  match goal with |- wp _ _ ?x => set (w1 := x) end.
  apply (wp_mono _ (fun o w' => o = Ret tt /\ w' = w1)).
  { destruct afterCommit as [f|] eqn:Hf; [|by apply wp_ret]. apply wp_lift. split; [|done]. by eapply hook_returns. }
  intros o w' [-> ->].
  remember (staged_memory (replay w1) staged) as l2 eqn:El2.
  assert (Hl2 : ledger_ok l2 /\ saved (connection l2) = None /\ tables (connection l2) = tables (conn w)).
  { rewrite El2. destruct staged as [m|]; cbn.
    - split; [|done]. by apply (committed_ok base).
    - split; [|done]. destruct Sm as (E1 & E2 & E3 & E4). unfold ledger_ok, durable. cbn in *.
      rewrite Hsv, E1, E2, E3, E4. done. }
  destruct Hl2 as (Hl2 & Hs2 & Ht2). apply wp_bind.
  apply (wp_mono _ (fun o w' => o = Ret tt /\ w' = set_replay l2 w1)).
  { rewrite El2. destruct staged as [m|]; [by apply wp_ledger, wp_modify|]. apply wp_ret. by destruct w. }
  intros o w' [-> ->]. apply wp_bind.
  apply (wp_mono _ (fun o w' => o = Ret tt /\ resumed (set_replay l2 w1) w')).
  { destruct wait.
    - apply wp_awaiting, wp_ret. done.
    - by apply wp_ret; split_and!. }
  intros o w2 [-> (R1 & R2 & R3 & R4 & R5 & R6 & R7 & R8 & R9)]. specialize (R1 Sp). destruct (R2 Sp) as [E1 E2].
  cbn in E1, E2, R3, R9. apply wp_bind, wp_slot_call.
  - intros p Hp. destruct (commit_ok (pub w2) slot published R1) as (p' & Hc & Hpok & Hpo & Hph); [by rewrite E1|].
    rewrite Hc in Hp. injection Hp as ->. apply wp_ret. eexists. split; [done|].
    assert (Hhigh : committedHighWater p = version) by (rewrite Hph, E2, Sh, Hnext; done).
    constructor; cbn.
    + constructor; cbn; rewrite ?R3; try done. rewrite Ht2, Hver. by rewrite Hhigh.
    + lia.
    + by rewrite R9.
    + exists v, s, published, slot. rewrite R3, Hhigh. cbn. rewrite Ht2. split_and!; try done.
      unfold recorded_request, recorded in *. cbn. by rewrite R3, R9, Ht2.
  - intros e He. destruct (commit_ok (pub w2) slot published R1) as (p' & Hc & _); [by rewrite E1|].
    by rewrite Hc in He.
Qed.

Lemma begin_turn base slot w :
  coordinator_ok base -> steady base w -> openReservation (pub w) = Some slot ->
  tables (conn w) = tables (conn base) -> saved (conn w) = None -> transactionOpen w = false ->
  eventSequences w = eventSequences base -> writes w = newWriteCollector -> poison w = None ->
  failing base slot w /\
  wp (engine (begin_immediate fault)) (fun o w' =>
    match o with
    | Ret _ => inside base (Some slot) (MkWorkState (app (tables (conn base))) (eventSequences base) newWriteCollector None)
                 (set_transactionOpen true w')
    | Throw _ => failing base slot w'
    end) w.
Proof.
  intros Hb [Sm Sp Sh Sc Sr] Hsl Ht Hs Hop He Hw Hp.
  assert (Hd : durable (conn w) = tables (conn base)) by (unfold durable; by rewrite Hs).
  split; [constructor; try done; by left|].
  apply wp_engine. eapply wp_mono; [by apply wp_begin|]. intros [[]|e] c [Hd1 Hc].
  - destruct Hc as [Ht1 Hs1]. constructor; cbn; try done.
    + by rewrite Hs1, Ht.
    + rewrite Ht1, Ht. by destruct (tables (conn base)).
    + by rewrite He, Hw, Hp.
  - constructor; cbn; try done; [by left|by rewrite Hd1].
Qed.

Lemma transact_spec request base slot w :
  coordinator_ok base -> steady base w -> openReservation (pub w) = Some slot ->
  tables (conn w) = tables (conn base) -> saved (conn w) = None -> transactionOpen w = false ->
  eventSequences w = eventSequences base -> writes w = newWriteCollector -> poison w = None ->
  wp (transact fault durability_policy now others limits afterCommit wait text_bytes request slot) (fun o w' =>
    match o with
    | Ret h => rolled request base w' h \/ kept request base w' h
    | Throw _ => failing base slot w'
    end) w.
Proof.
  intros Hb Hst Hsl Ht Hs Hop He Hw Hp. destruct (begin_turn base slot w Hb Hst Hsl Ht Hs Hop He Hw Hp) as [Hf Hbegin].
  unfold transact. apply (wp_read base slot); [apply readonly_lift|done|done|]. intros [] _.
  eapply wp_seq; [exact Hbegin| |done]. intros [] w1 Hin. apply wp_bind, wp_modify.
  set (s0 := MkWorkState _ _ _ _) in Hin. set (w2 := set_transactionOpen true w1) in *. clearbody w2.
  apply (wp_seq (fun o w' => match o with
    | Ret v => exists s1, work request s0 = (Ret v, s1) /\ inside base (Some slot) s1 w'
    | Throw _ => failing base slot w' end)).
  { apply wp_awaiting. eapply wp_mono; [by apply wp_working|]. intros o w3 [-> Hin3] w4 Hr.
    pose proof (inside_resumed _ _ _ _ _ Hin3 Hr) as Hin4. destruct (work request s0) as [[v|e] s1]; cbn in *.
    - by exists s1.
    - by eapply inside_failing. }
  2:{ by intros. }
  intros v w3 (s1 & Hwork & Hin3). pose proof (inside_failing _ _ _ _ Hin3) as Hf3.
  apply (wp_read base slot); [apply readonly_healthy|done|done|]. intros [] Hpoison.
  assert (Hp1 : work_poison s1 = None).
  { destruct Hin3 as [_ _ _ _ _ <-]. cbn. unfold assertTransactionHealthy, mbind, eff_bind, get in Hpoison. cbn in Hpoison.
    by destruct (poison w3). }
  apply (wp_read base slot); [apply readonly_lift|done|done|]. intros [] _.
  apply (wp_read base slot); [by destruct (rollbackWhen request)|done|done|]. intros [|] _.
  - eapply wp_mono; [by apply (roll_back_spec request base slot s1)|]. intros [h|e] w4; [by left|done].
  - eapply wp_seq; [by apply (prepare_spec request base slot s1)| |done].
    intros [[staged version] published] w4 (s & Hfin & Hprep).
    eapply wp_mono; [apply (hand_over_spec request base slot v s); try done; by exists s1|].
    intros o w5 (h & -> & Hk). by right.
Qed.
End coordinator.
