(* ===== verification/CoordinatorTurns.v ===== *)
(** Whole turns of the commit coordinator: what the replay window admits, what a
    commit returns and leaves behind, and what framework transactions and
    restarts keep. *)
From S2P Require Import Prelude Errors Limits Dll Publication PublicationInv PublicationContract PublicationProps Effects Value Wire Protocol Database MutationReplay MutationReplayInv Coordinator CoordinatorInv.
Local Open Scope list_scope.

Section coordinator.
Context {App P : Type}.
Context (fault : StatementKind -> nat -> option Fault) (durability_policy : DurabilityPolicy).
Context (now : nat -> ms) (others : nat -> list (@Publication.Event P)).
Context (limits : ServiceLimits Z).
Context (afterCommit : option (WriteCollector -> Z -> exc js_error unit)).
Context (wait : bool) (text_bytes : value -> Z).
Implicit Types w base : Coordinator App P.
Context (Hyp : assumptions fault limits afterCommit).

#[local] Abbreviation conn w := (connection (replay w)).
#[local] Abbreviation rows w := (mutations (tables (connection (replay w)))).

(** ** The replay window *)

(** The row was found expired at a clock reading of the turn. *)
Definition gone w w' (r : StoredRow) : Prop :=
  exists n t, (readings w <= n < readings w')%nat /\ now n = Finite t /\
    real_le (Real (t - replay_maxAgeMs (mutationReplay limits))) (completed_at r) = false.

(** The rows [pre] are gone from the front of the ledger, and that is all. *)
Record trimmed (pre : list StoredRow) w w' : Prop := {
  trimmed_ledger : pruned pre (replay w) (replay w');
  trimmed_pub : pub w' = pub w;
  trimmed_sequences : eventSequences w' = eventSequences w;
  trimmed_locals : transactionOpen w' = transactionOpen w /\ isCommitted w' = isCommitted w /\
                   writes w' = writes w /\ poison w' = poison w;
  trimmed_readings : (readings w <= readings w')%nat;
}.

Lemma trimmed_ok pre w w' : coordinator_ok w -> trimmed pre w w' -> coordinator_ok w'.
Proof.
  intros [Hl Hi Hp Ho Hv] [[_ Hok Hs _ Hver _] Hpub _ _ _]. constructor; rewrite ?Hpub; try done. by rewrite Hver.
Qed.

Lemma trimmed_refl w w' : coordinator_ok w -> tables (conn w') = tables (conn w) -> saved (conn w') = None ->
  same_memory (replay w) (replay w') -> pub w' = pub w -> eventSequences w' = eventSequences w ->
  transactionOpen w' = transactionOpen w -> isCommitted w' = isCommitted w -> writes w' = writes w ->
  poison w' = poison w -> (readings w <= readings w')%nat -> trimmed [] w w'.
Proof. intros [Hl Hi _ _ _] **. constructor; try done. by apply pruned_refl. Qed.

Lemma trimmed_trans pre1 pre2 w1 w2 w3 : trimmed pre1 w1 w2 -> trimmed pre2 w2 w3 -> trimmed (pre1 ++ pre2) w1 w3.
Proof.
  intros [T1 T2 T3 (T4 & T5 & T6 & T7) T8] [U1 U2 U3 (U4 & U5 & U6 & U7) U8].
  constructor; [by eapply pruned_trans|congruence..| |lia]. split_and!; congruence.
Qed.

Lemma prune_turn w before :
  coordinator_ok w ->
  wp (ledger (prune fault (Finite before) (num_of_Z 1000))) (fun o w' =>
    readings w' = readings w /\ exists pre, trimmed pre w w' /\
      Forall (fun r => real_le (Real before) (completed_at r) = false) pre /\
      match o with Ret n => n = length pre | Throw _ => pre = [] end) w.
Proof.
  intros [Hl Hi _ _ _]. apply wp_ledger. eapply wp_mono; [by apply prune_spec; [apply Hyp|..]|].
  intros o l' (pre & Hp & Hexp & Ho). split; [done|]. exists pre. split_and!; [|done|done]. by constructor.
Qed.

(** The loop drops expired rows only, and what it drops depends on the fuel
    only when the rows outnumber it. *)
Lemma prune_loop_spec fuel w before :
  coordinator_ok w ->
  wp (prune_loop fault fuel before) (fun o w' =>
    readings w' = readings w /\ exists pre, trimmed pre w w' /\
      Forall (fun r => real_le (Real before) (completed_at r) = false) pre) w.
Proof.
  intros Hw. induction fuel as [|fuel IH] in w, Hw |- *; cbn [prune_loop].
  { apply wp_ret. split; [done|]. exists []. split; [|constructor].
    destruct Hw. by apply trimmed_refl. }
  eapply wp_seq; [by apply prune_turn|..].
  - intros n w1 (Hr & pre & Ht & Hexp & ->). case_decide as Hn.
    + apply wp_ret. split; [done|]. by exists pre.
    + eapply wp_mono; [apply IH; by eapply trimmed_ok|]. intros o w2 (Hr2 & pre2 & Ht2 & Hexp2).
      split; [congruence|]. exists (pre ++ pre2). split; [by eapply trimmed_trans|]. by apply Forall_app.
  - intros e w1 (Hr & pre & Ht & Hexp & _). split; [done|]. by exists pre.
Qed.

Lemma prune_loop_fuel fuel w before :
  coordinator_ok w -> (ledger_rows w < fuel)%nat ->
  prune_loop fault fuel before w = prune_loop fault (S (ledger_rows w)) before w.
Proof.
  remember (ledger_rows w) as n eqn:E. revert fuel w E.
  induction (lt_wf n) as [n _ IH]. intros fuel w -> Hw Hf.
  destruct fuel as [|fuel]; [lia|]. cbn [prune_loop]. unfold mbind at 1 2, eff_bind at 1 2.
  pose proof (prune_turn w before Hw) as Hp. unfold wp in Hp.
  destruct (ledger (prune fault (Finite before) (num_of_Z 1000)) w) as [[k|e] w1]; [|done]. cbn in Hp.
  destruct Hp as (_ & pre & Ht & _ & ->). case_decide as Hk; [done|].
  assert (Hlen : ledger_rows w = (length pre + ledger_rows w1)%nat).
  { unfold ledger_rows. by rewrite (pruned_rows _ _ _ (trimmed_ledger _ _ _ Ht)), length_app. }
  pose proof (trimmed_ok _ _ _ Hw Ht) as Hw1.
  rewrite (IH (ledger_rows w1)) by (done || lia).
  symmetry. apply IH; (done || lia).
Qed.

Lemma prune_spec_turn w :
  coordinator_ok w ->
  wp (pruneExpiredMutations fault now limits) (fun o w' =>
    (readings w < readings w')%nat /\ exists pre, trimmed pre w w' /\ Forall (gone w w') pre) w.
Proof.
  intros Hw. unfold pruneExpiredMutations. apply wp_readNow; cbn.
  2:{ intros e. split; [cbn; lia|]. exists []. split; [|constructor]. destruct Hw. apply trimmed_refl; try done. cbn. lia. }
  intros t Ht. match goal with |- wp _ _ ?x => set (w1 := x) end.
  assert (Htr : forall w2, replay w2 = replay w -> pub w2 = pub w -> eventSequences w2 = eventSequences w ->
     transactionOpen w2 = transactionOpen w /\ isCommitted w2 = isCommitted w /\ writes w2 = writes w /\ poison w2 = poison w ->
     (readings w <= readings w2)%nat -> trimmed [] w w2).
  { intros w2 E1 E2 E3 (E4 & E5 & E6 & E7) E8. destruct Hw. apply trimmed_refl; rewrite ?E1; try done. }
  apply wp_bind, wp_get. case_decide.
  - apply wp_ret. split; [cbn; lia|]. exists []. split; [|constructor]. apply Htr; try done. cbn. lia.
  - apply wp_bind, wp_modify, wp_bind, wp_get. match goal with |- wp _ _ ?x => set (w2 := x) end.
    assert (Ht2 : trimmed [] w w2) by (apply Htr; try done; cbn; lia).
    eapply wp_mono; [apply (prune_loop_spec (S (ledger_rows w2))); by eapply trimmed_ok|]. intros o w3 (Hr & pre & Ht3 & Hexp).
    split; [rewrite Hr; cbn; lia|]. exists pre. split; [by apply (trimmed_trans [] pre w w2)|].
    eapply Forall_impl; [exact Hexp|]. intros r Hr'. exists (readings w), t. split_and!; try done; rewrite ?Hr; cbn; lia.
Qed.

(** What an admitted request is: its record is not in the ledger, and the last
    clock reading puts its timestamp within the window. *)
Definition fresh w (i : IdempotencyIdentity) : Prop :=
  Forall (fun r => key r <> (id_sessionId i, id_requestId i)) (rows w) /\
  exists n t c, readings w = S n /\ now n = Finite t /\ uuidV7Timestamp (id_requestId i) = Ret c /\
    (t - replay_maxAgeMs (mutationReplay limits) <= c <= t + MAX_MUTATION_CLOCK_SKEW_MS)%Z.

(** What a replayed request returns: the result of its row. *)
Definition replays w (i : IdempotencyIdentity) (r : CommitResult P) : Prop :=
  exists row, row ∈ rows w /\ key row = (id_sessionId i, id_requestId i) /\ replay_stored (toStoredMutation row) i = Ret r.

Lemma coordinator_ledger w : coordinator_ok w -> exists s, state_row (tables (conn w)) = Some s /\ rows_ok s (rows w) /\
  memory_ok (rows w) (index (replay w)) (recordCount (replay w)) (byteCount (replay w)) (lastCompletedAt (replay w)).
Proof. intros [Hl Hi _ _ _]. unfold ledger_ok, durable in Hl. by rewrite Hi in Hl. Qed.

Lemma admit_spec w i :
  coordinator_ok w ->
  wp (admit_request fault now limits i) (fun o w' => exists pre, trimmed pre w w' /\ Forall (gone w w') pre /\
    match o with
    | Ret (Some r) => replays w' i r
    | Ret None => fresh w' i
    | Throw _ => True
    end) w.
Proof.
  intros Hw. unfold admit_request.
  assert (Hrefl : trimmed [] w w) by (destruct Hw; by apply trimmed_refl).
  eapply (wp_seq (fun o w' => w' = w)).
  { destruct (num_safe_integer (id_issuedAt i)) as [t|]; [case_bool_decide|]; done. }
  2:{ intros e w' ->. exists []. by split_and!. }
  intros [] w' ->. eapply wp_seq; [by apply prune_spec_turn|..].
  2:{ intros e w1 (_ & pre & Ht & Hg). exists pre. by split_and!. }
  intros [] w1 (Hr1 & pre & Ht & Hg). pose proof (trimmed_ok _ _ _ Hw Ht) as Hw1.
  apply wp_bind, wp_ledger. eapply wp_mono; [apply (lookup_spec fault _ (id_sessionId i) (id_requestId i) (ok_ledger _ Hw1) (ok_idle _ Hw1))|].
  intros o l2 (Hm2 & Ht2 & Hs2 & Hpost). set (w2 := set_replay l2 w1).
  assert (Htr2 : trimmed [] w1 w2) by (destruct Hw1; by apply trimmed_refl).
  assert (Htr : forall w3, trimmed [] w2 w3 -> trimmed pre w w3 /\ Forall (gone w w3) pre).
  { intros w3 Ht3. pose proof (trimmed_trans _ _ _ _ _ Htr2 Ht3) as Ht13.
    split; [rewrite <-(app_nil_r pre); by eapply trimmed_trans|].
    eapply Forall_impl; [exact Hg|]. intros r (n & t & Hn & Hrest). exists n, t. split; [|done].
    pose proof (trimmed_readings _ _ _ Ht13). lia. }
  pose proof (trimmed_ok _ _ _ Hw1 Htr2) as Hw2.
  assert (Hrefl2 : trimmed [] w2 w2) by (destruct Hw2; by apply trimmed_refl).
  destruct (Htr _ Hrefl2) as [Hta Hga].
  destruct o as [[m|]|e].
  - destruct Hpost as (row & Hrow & Hkey & ->). apply wp_bind, wp_lift.
    destruct (replay_stored (toStoredMutation row) i) as [r|e] eqn:E.
    + apply wp_ret. exists pre. split_and!; try done. exists row. split_and!; try done. cbn. by rewrite Ht2.
    + exists pre. by split_and!.
  - apply wp_readNow; cbn.
    2:{ intros e. exists pre. split_and!; [apply Htr..|done]; destruct Hw2; apply trimmed_refl; try done; cbn; lia. }
    intros t Hnow. match goal with |- wp _ _ ?x => set (w3 := x) end.
    assert (Ht3 : trimmed [] w2 w3) by (destruct Hw2; apply trimmed_refl; try done; cbn; lia).
    destruct (Htr _ Ht3) as [Htb Hgb].
    assert (Hno : forall e, exists pre, trimmed pre w w3 /\ Forall (gone w w3) pre /\
              match Throw e : exc js_error (option (CommitResult P)) with Ret _ => False | Throw _ => True end).
    { intros e. exists pre. by split_and!. }
    apply wp_bind, wp_lift. destruct (uuidV7Timestamp (id_requestId i)) as [c|e] eqn:Hc; [|by exists pre; split_and!].
    apply wp_bind. case_decide as Hskew; [exists pre; by split_and!|]. apply wp_ret.
    apply wp_bind. case_decide as Hold; [exists pre; by split_and!|]. apply wp_ret, wp_bind, wp_get, wp_bind.
    case_decide; [exists pre; by split_and!|]. apply wp_ret, wp_ret. exists pre. split_and!; try done. split.
    + apply Forall_forall. intros r Hr Hk. destruct (coordinator_ledger _ Hw1) as (s & _ & _ & Hmem).
      assert (Hidx : index_get (index (replay w1)) (id_sessionId i) (id_requestId i) = Some (row_sequence r)); [|congruence].
      apply (memory_index _ _ _ _ _ Hmem). exists r. cbn in Hr. rewrite Ht2 in Hr. by split_and!.
    + exists (readings w2), t, c. split_and!; try done; lia.
  - exists pre. by split_and!.
Qed.

(** ** A commit *)

#[local] Abbreviation commit := (commit fault durability_policy now others limits afterCommit wait text_bytes).
#[local] Abbreviation rolled := (rolled durability_policy now text_bytes).
#[local] Abbreviation kept := (kept durability_policy now text_bytes).

(** A turn: expired rows go first; then the stored result is replayed, or the
    request is executed, or nothing is kept of it. *)
Definition turn (request : CommitRequest App P) w (o : exc js_error (CommitHandoff P)) w' : Prop :=
  exists base pre, trimmed pre (new_locals w) base /\ Forall (gone w base) pre /\
    (req_idempotency request = None -> pre = []) /\ (readings base <= readings w')%nat /\
    match o with
    | Throw _ => undone base w'
    | Ret h =>
        (w' = base /\ exists i r, req_idempotency request = Some i /\ replays base i r /\ h = MkHandoff r None) \/
        ((forall i, req_idempotency request = Some i -> fresh base i) /\ (rolled request base w' h \/ kept request base w' h))
    end.

Lemma new_locals_ok w : coordinator_ok w -> coordinator_ok (new_locals w).
Proof. intros []. by constructor. Qed.

Lemma undone_refl base w :
  coordinator_ok base -> replay w = replay base -> pub w = pub base -> (readings base <= readings w)%nat -> undone base w.
Proof.
  intros [Hl Hi Hp Ho Hv] Er Ep Hr. constructor; rewrite ?Er, ?Ep; try done.
  constructor; rewrite ?Er, ?Ep; done.
Qed.

Lemma reserve_turn base (Q : exc js_error nat -> Coordinator App P -> Prop) :
  coordinator_ok base ->
  (forall slot w, steady base w -> openReservation (pub w) = Some slot -> replay w = replay base ->
     eventSequences w = eventSequences base -> transactionOpen w = transactionOpen base -> writes w = writes base ->
     poison w = poison base -> Q (Ret slot) w) ->
  (forall e w, undone base w -> (readings base <= readings w)%nat -> Q (Throw e) w) ->
  isCommitted base = false -> wp (reservePublication now) Q base.
Proof.
  intros Hb Hret Hthrow Hc. unfold reservePublication. apply wp_bind. unfold wp at 1, clock_reading. cbn.
  unfold wp, publishing. cbn. destruct (reserve _ _ _) as [[slot p]|e] eqn:Hr; cbn.
  - destruct (reserve_ok _ _ _ _ _ (ok_pub _ Hb) Hr) as (Hp & Ho & Hh). apply Hret; try done.
    constructor; cbn; try done. lia.
  - apply Hthrow; cbn; [|lia]. apply undone_refl; try done. cbn. lia.
Qed.

Lemma commit_spec request w : coordinator_ok w -> wp (commit request) (turn request w) w.
Proof.
  intros Hw. unfold Coordinator.commit. apply wp_bind, wp_modify. pose proof (new_locals_ok _ Hw) as Hl.
  eapply (wp_seq (fun o base => exists pre, trimmed pre (new_locals w) base /\ Forall (gone w base) pre /\
    (req_idempotency request = None -> pre = []) /\
    match o with
    | Ret (Some r) => exists i, req_idempotency request = Some i /\ replays base i r
    | Ret None => forall i, req_idempotency request = Some i -> fresh base i
    | Throw _ => True
    end)).
  { destruct (req_idempotency request) as [i|].
    - eapply wp_mono; [by apply admit_spec|]. intros o base (pre & Ht & Hg & Ho). exists pre. split_and!; try done.
      destruct o as [[r|]|e]; [by exists i|by intros i' [= <-]|done].
    - apply wp_ret. exists []. split_and!; try done. destruct Hl. by apply trimmed_refl. }
  2:{ intros e base (pre & Ht & Hg & Hi & _). exists base, pre. split_and!; try done.
      pose proof (trimmed_ok _ _ _ Hl Ht). by apply undone_refl. }
  intros stored base (pre & Ht & Hg & Hi & Ho). pose proof (trimmed_ok _ _ _ Hl Ht) as Hb.
  destruct (trimmed_locals _ _ _ Ht) as (L1 & L2 & L3 & L4). cbn in L1, L2, L3, L4.
  destruct stored as [r|].
  { apply wp_ret. exists base, pre. split_and!; try done. left. split; [done|]. destruct Ho as (i & ? & ?). by exists i, r. }
  apply wp_bind, reserve_turn; [done|..|done].
  - intros slot w1 Hst Hsl Er Ee E1 E2 E3.
    assert (Hseq : eventSequences w1 = eventSequences base) by done.
    apply wp_catch. eapply wp_mono.
    + apply (transact_spec fault durability_policy now others limits afterCommit wait text_bytes Hyp request base slot w1);
        try done; [by rewrite Er|rewrite Er; by apply ok_idle|by rewrite E1|by rewrite E2|by rewrite E3].
    + intros [h|e] w2 H2.
      * exists base, pre. split_and!; try done; [by destruct H2 as [[]|[]]|]. by right.
      * eapply commit_failed_spec; [exact Hyp|exact Hb|exact H2|].
        intros e' w3 Hu. exists base, pre. split_and!; try done. apply Hu.
  - intros e w1 Hu Hr. by exists base, pre.
Qed.

(** ** A framework transaction *)

(** The work ran and is on disk; the ledger and the publication are untouched. *)
Record framework_kept {A} (request : FrameworkTransactionRequest (App := App) A) base w' (a : A) : Prop := {
  fk_ok : coordinator_ok w';
  fk_rows : rows w' = rows base;
  fk_readings : (readings base <= readings w')%nat;
  fk_high : committedHighWater (pub w') = committedHighWater (pub base);
  fk_app : exists s, fw_work A request (MkWorkState (app (tables (conn base))) (eventSequences base) newWriteCollector None) = (Ret a, s) /\
             app (tables (conn w')) = work_app s;
}.

Definition framework_turn {A} (request : FrameworkTransactionRequest (App := App) A) w (o : exc js_error A) w' : Prop :=
  match o with
  | Ret a => framework_kept request w w' a
  | Throw e => undone w w' \/
      exists a, framework_kept request w w' a /\
        (exists e', e = Acker e' /\ err_code e' = convergence_unavailable /\ err_committed e' = true)
  end.

(** Inside a framework transaction no reservation is open; failing is as in a
    commit, without a slot. *)
Definition framework_failing base w : Prop := failing base 0 w /\ openReservation (pub w) = None.

Lemma framework_inside base s w : inside base None s w -> framework_failing base w.
Proof.
  intros [Hst Hsl Hsv Hop Ht Hw]. split; [|done]. constructor; [done|by right| |by rewrite Hop].
  unfold durable. by rewrite Hsv.
Qed.

Lemma failing_undone base w : coordinator_ok base -> framework_failing base w -> saved (conn w) = None -> undone base w.
Proof.
  intros Hb [[Hst Hsl Hd Hop] Ho] Hs. unfold durable in Hd. rewrite Hs in Hd. cbn in Hd.
  constructor; try done; [by apply (undone_tables_ok base)|apply Hst..].
Qed.

Lemma framework_body_spec {A} (request : FrameworkTransactionRequest (App := App) A) base :
  coordinator_ok base -> transactionOpen base = false -> isCommitted base = false -> writes base = newWriteCollector ->
  poison base = None ->
  wp (framework_body fault others request) (fun o w' =>
    match o with
    | Ret a => framework_kept request base w' a
    | Throw e => framework_failing base w' \/
        (transactionOpen w' = false /\ exists a, framework_kept request base w' a /\
          exists e', e = Acker e' /\ err_code e' = convergence_unavailable /\ err_committed e' = true)
    end) base.
Proof.
  intros Hb Hop Hc Hw Hp. destruct Hb as [Hl Hi Hpub Ho Hv]. assert (Hb : coordinator_ok base) by done.
  assert (Hst : steady base base) by done.
  assert (Hf : framework_failing base base).
  { split; [|done]. constructor; [done|by right| |done]. unfold durable. by rewrite Hi. }
  unfold framework_body. apply wp_readonly; [apply readonly_lift| |by left]. intros [] _.
  apply wp_bind, wp_engine. eapply wp_mono; [by apply wp_begin|]. intros [[]|e] c1 [Hd1 H1].
  2:{ left. split; [|done]. constructor; cbn; [by destruct Hst|by right| |done]. rewrite Hd1. unfold durable. by rewrite Hi. }
  destruct H1 as [Ht1 Hs1]. apply wp_bind, wp_modify.
  set (s0 := MkWorkState (app (tables (conn base))) (eventSequences base) newWriteCollector None).
  match goal with |- wp _ _ ?x => set (w1 := x) end.
  assert (Hin : inside base None s0 w1).
  { constructor; cbn; try done; [rewrite Ht1; by destruct (tables (conn base))|by rewrite Hw, Hp]. }
  apply (wp_seq (fun o w' => match o with
    | Ret a => exists s, fw_work A request s0 = (Ret a, s) /\ inside base None s w'
    | Throw _ => framework_failing base w' end)).
  { apply wp_awaiting. eapply wp_mono; [by apply wp_working|]. intros o w3 [-> Hin3] w4 Hr.
    pose proof (inside_resumed _ _ _ _ _ Hin3 Hr) as Hin4. destruct (fw_work A request s0) as [[a|e] s]; cbn in *.
    - by exists s.
    - by eapply framework_inside. }
  2:{ intros e w'. by left. }
  intros a w3 (s & Hwork & Hin3). pose proof (framework_inside _ _ _ Hin3) as Hf3.
  apply wp_readonly; [apply readonly_healthy| |by left]. intros [] _.
  apply wp_readonly; [apply readonly_lift| |by left]. intros [] _.
  destruct Hin3 as [[Sm Sp Sh Sc Sr] Hsl Hsv Hop3 Ht3 Hw3].
  apply wp_bind, wp_engine. eapply wp_mono; [by apply wp_commit|]. intros [[]|e] c4 H4.
  2:{ left. split; [|done]. constructor; cbn; [by constructor|by right|done|by rewrite Hop3]. }
  destruct H4 as [Ht4 Hs4]. apply wp_bind, wp_modify. match goal with |- wp _ _ ?x => set (w5 := x) end.
  assert (Hkept : framework_kept request base w5 a).
  { assert (Ht5 : tables (conn w5) = MkTables (state_row (tables (conn base))) (rows base) (work_app s))
      by (cbn; by rewrite Ht4, Ht3).
    constructor; [|by rewrite Ht5|cbn; lia|done|exists s; by rewrite Ht5].
    constructor; [|done|done|done|].
    - unfold ledger_ok, durable. rewrite Ht5. destruct Sm as (E1 & E2 & E3 & E4).
      unfold ledger_ok, durable in Hl. rewrite Hi in Hl. cbn in Hl. change (saved (conn w5)) with (saved c4). rewrite Hs4.
      cbn. rewrite E1, E2, E3, E4. exact Hl.
    - rewrite Ht5. cbn. by rewrite Hv, Sh. }
  apply wp_bind, wp_catch, wp_lift. destruct (fw_afterCommit A request) as [f|]; [|by apply wp_ret].
  destruct (f a) as [[]|e]; [by apply wp_ret|]. apply wp_lift. unfold throw_AckerDBError. cbn.
  right. split; [done|]. exists a. split; [done|]. by eexists.
Qed.

Lemma transactFramework_spec {A} (request : FrameworkTransactionRequest (App := App) A) w :
  coordinator_ok w -> wp (transactFramework fault others request) (framework_turn request w) w.
Proof.
  intros Hw. unfold transactFramework. apply wp_bind, wp_modify. pose proof (new_locals_ok _ Hw) as Hl.
  assert (Hup : forall w' a, framework_kept request (new_locals w) w' a -> framework_kept request w w' a) by (by intros w' a []).
  assert (Hun : forall w', undone (new_locals w) w' -> undone w w') by (by intros w' []).
  apply wp_catch. eapply wp_mono; [by apply framework_body_spec|]. intros [a|e] w' H; [by apply Hup|].
  apply wp_bind, wp_get. destruct H as [Hf|(Hop & a & Hk & He)].
  - apply wp_bind, wp_when.
    + intros Hop. apply wp_catch, wp_engine. eapply wp_mono; [by apply wp_rollback, Hyp|].
      intros o c (Hd & Hs & _). match goal with |- context [set_replay ?a ?b] => set (w2 := set_replay a b) end.
      assert (Hu : undone w w2).
      { apply Hun, failing_undone; [done| |done]. destruct Hf as [[[] Hsl Hd' Hop'] Ho]. split; [|done].
        constructor; cbn; try done; [by rewrite Hd]. }
      destruct o as [[]|e2]; [by apply wp_throw; left|]. apply wp_lift. by left.
    + intros Hop. apply wp_throw. left. apply Hun, failing_undone; [done..|]. by apply Hf.
  - rewrite Hop. apply wp_bind, wp_ret, wp_throw. right. exists a. split; [by apply Hup|done].
Qed.
End coordinator.
