(* ===== verification/CoordinatorProps.v ===== *)
(** The properties of the commit coordinator, over whole histories: commits,
    framework transactions, the events of other tasks, crashes and restarts. *)
From S2P Require Import Prelude Errors Limits Dll Publication PublicationInv PublicationContract PublicationProps Effects Value Wire Protocol Database MutationReplay MutationReplayInv Coordinator CoordinatorInv CoordinatorTurns.
Local Open Scope string_scope.
Local Open Scope list_scope.

Section coordinator.
Context {App P : Type}.
Context (fault : StatementKind -> nat -> option Fault) (durability_policy : DurabilityPolicy).
Context (now : nat -> ms) (others : nat -> list (@Publication.Event P)).
Context (limits : ServiceLimits Z).
Context (afterCommit : option (WriteCollector -> Z -> exc js_error unit)).
Context (wait : bool) (text_bytes : value -> Z).
Implicit Types w base : Coordinator App P.

#[local] Abbreviation conn w := (connection (replay w)).
#[local] Abbreviation rows w := (mutations (tables (connection (replay w)))).
#[local] Abbreviation commit := (Coordinator.commit fault durability_policy now others limits afterCommit wait text_bytes).
#[local] Abbreviation call := (call fault durability_policy now others limits afterCommit wait text_bytes).
#[local] Abbreviation history := (history fault durability_policy now others limits afterCommit wait text_bytes).
#[local] Abbreviation turn := (turn durability_policy now limits text_bytes).

(** ** Opening *)

Lemma new_publication_ok plimits v p :
  new_OrderedPublication (T := P) plimits (Some v) = Ret p ->
  pub_ok p /\ openReservation p = None /\ committedHighWater p = v.
Proof.
  intros H. split; [do 4 eexists; by apply (new_inv plimits (Some v))|].
  unfold new_OrderedPublication in H. exc_inv. by subst p.
Qed.

Lemma ordered_last seq ver time l :
  ordered seq ver time l ->
  Forall (fun r => real_le (completed_at r) (default NegInf (completed_at <$> last l)) = true) l /\
  default NegInf (completed_at <$> last l) <> PosInf.
Proof.
  destruct l as [|x l _] using rev_ind; [done|]. rewrite last_snoc. cbn. intros H. split.
  - apply forall_app_one; [|apply real_le_refl]. revert H. clear. induction l as [|r l IH] in seq, ver, time |- *; cbn; [done|].
    intros (_ & _ & _ & _ & Ho). constructor; [|by eapply IH]. clear IH. revert Ho.
    generalize (row_sequence r) as q, (row_commit_version r) as v, (completed_at r) as t.
    induction l as [|y l IH]; cbn; intros q v t (_ & _ & Hf & Ht & Ho); [done|].
    eapply real_le_trans; [exact Ht|]. by apply (IH _ _ _ Ho).
  - apply ordered_app in H as (_ & H & _). cbn in H. destruct H as (_ & _ & Hf & _). by destruct (completed_at x).
Qed.

(** A reopened ledger agrees with the disk again. *)
Lemma reopened_ok (t : Tables App) i n b l :
  tables_ok t i n b l -> exists snap, scanMutationReplay t = Ret snap /\
    tables_ok t (snap_index snap) (snap_records snap) (snap_resultBytes snap) (snap_lastCompletedAt snap) /\
    commit_version <$> state_row t = Some (snap_commitVersion snap).
Proof.
  intros H. destruct (scan_ok t i n b l H) as (s & snap & Hs & Hscan & Hv & Hq & Hi & Hr & Hb & Hl & _).
  exists snap. split; [done|]. rewrite Hs. split; [|by cbn; rewrite Hv].
  destruct H as (s' & Hs' & Hrows & Hmem). rewrite Hs in Hs'. injection Hs' as <-.
  exists s. split; [done|]. split; [done|]. rewrite Hi, Hr, Hb, Hl.
  destruct (ordered_last _ _ _ _ (rows_ordered _ _ Hrows)) as [H1 H2]. destruct Hmem. by constructor.
Qed.

Lemma open_ok plimits (t : Tables App) i n b l st re aw w :
  tables_ok t i n b l -> open_coordinator (P := P) plimits t st re aw = Ret w ->
  coordinator_ok w /\ tables (conn w) = t /\ readings w = re.
Proof.
  intros Ht Ho. destruct (reopened_ok t i n b l Ht) as (snap & Hscan & Hok & Hv).
  unfold open_coordinator in Ho. rewrite Hscan in Ho. cbn in Ho.
  apply exc_bind_ret in Ho as (p & Hp & Ho). apply Ret_inj in Ho. subst w.
  destruct (new_publication_ok _ _ _ Hp) as (Hp1 & Hp2 & Hp3). split_and!; [|done|done].
  constructor; cbn; try done. by rewrite Hp3.
Qed.

Lemma initial_ok a : tables_ok (initial_tables (App := App) a) ∅ 0 0 NegInf.
Proof.
  eexists. split; [done|]. split; constructor; cbn; try done; [constructor|].
  intros session request q. unfold index_get. rewrite lookup_empty. cbn. split; [done|].
  intros (r & Hr & _). by apply not_elem_of_nil in Hr.
Qed.

(** ** Histories *)

Context (Hyp : assumptions fault limits afterCommit).

Lemma turn_ok request w o w' : coordinator_ok w -> turn request w o w' -> coordinator_ok w'.
Proof.
  intros Hw (base & pre & Ht & _ & _ & _ & Ho). pose proof (trimmed_ok _ _ _ (new_locals_ok _ Hw) Ht) as Hb.
  destruct o as [h|e]; [|by destruct Ho]. by destruct Ho as [[-> _]|[_ [[]|[]]]].
Qed.

Lemma framework_ok {A} (request : FrameworkTransactionRequest A) w o w' :
  framework_turn request w o w' -> coordinator_ok w' /\ (readings w <= readings w')%nat /\ rows w' = rows w.
Proof.
  destruct o as [a|e]; cbn.
  - by intros [].
  - intros [[? Ht]|(a & [] & _)]; [|done]. by rewrite Ht.
Qed.

Lemma idle_ok w es : coordinator_ok w -> coordinator_ok (set_pub (foldl others_step (pub w) es) w).
Proof.
  intros [Hl Hi Hp Ho Hv]. destruct (others_ok (fun _ => es) (pub w) 0 Hp) as [H1 [H2 H3]].
  constructor; cbn; try done; [by rewrite H2|by rewrite H3].
Qed.

Lemma restart_ok plimits w w' : coordinator_ok w -> restart plimits w = Ret w' ->
  coordinator_ok w' /\ tables (conn w') = tables (conn w) /\ readings w' = readings w.
Proof.
  intros [Hl Hi Hp Ho Hv] Hr. unfold restart in Hr. unfold ledger_ok in Hl.
  destruct (open_ok _ _ _ _ _ _ _ _ _ _ Hl Hr) as (H1 & H2 & H3). split_and!; try done.
  rewrite H2. unfold durable. by rewrite Hi.
Qed.

Lemma commit_turn request w : coordinator_ok w -> turn request w (commit request w).1 (commit request w).2.
Proof. exact (commit_spec fault durability_policy now others limits afterCommit wait text_bytes Hyp request w). Qed.

Lemma call_ok w c : coordinator_ok w -> coordinator_ok (call w c).
Proof.
  intros Hw. destruct c as [request|request|es|plimits]; cbn.
  - eapply turn_ok; [exact Hw|by apply commit_turn].
  - eapply framework_ok. by eapply (transactFramework_spec fault others limits afterCommit Hyp).
  - by apply idle_ok.
  - destruct (restart plimits w) as [w'|e] eqn:E; [|done]. by eapply restart_ok.
Qed.

Lemma history_ok w cs : coordinator_ok w -> coordinator_ok (history w cs).
Proof.
  intros Hw. unfold Coordinator.history. induction cs as [|c cs IH] in w, Hw |- *; cbn; [done|].
  by apply IH, call_ok.
Qed.

(** ** The life of a row *)

(** The row is in the ledger, or it was found expired at an earlier clock
    reading and its request has no row. *)
Definition remembered w (row : StoredRow) : Prop :=
  row ∈ rows w \/
  (Forall (fun r => key r <> key row) (rows w) /\
   exists n t, (n < readings w)%nat /\ now n = Finite t /\
     real_le (Real (t - replay_maxAgeMs (mutationReplay limits))) (completed_at row) = false).

Definition monotone_clock : Prop := forall n m t u, (n <= m)%nat -> now n = Finite t -> now m = Finite u -> (t <= u)%Z.

Context (Hclock : monotone_clock).

(** The request was made no later than it completed. *)
Definition not_ahead (row : StoredRow) : Prop :=
  forall c, uuidV7Timestamp (request_id row) = Ret c -> real_le (Real c) (completed_at row) = true.

Lemma recorded_rows base w' request v version :
  recorded_request durability_policy now text_bytes base w' request v version ->
  rows w' = rows base \/
  exists i row, req_idempotency request = Some i /\ rows w' = rows base ++ [row] /\
    key row = (id_sessionId i, id_requestId i).
Proof.
  unfold recorded_request. destruct (req_idempotency request) as [i|]; [|by left].
  intros (d & text & _ & row & Hrows & Hst & _). right. exists i, row. split_and!; try done.
  unfold key. unfold toStoredMutation, replay_record in Hst. cbn in Hst. by injection Hst as -> ->.
Qed.

Lemma trimmed_remembers pre w base row :
  coordinator_ok w -> trimmed pre (new_locals w) base -> Forall (gone now limits w base) pre ->
  remembered w row -> remembered base row.
Proof.
  intros Hw Ht Hg Hrem. pose proof (pruned_rows _ _ _ (trimmed_ledger _ _ _ Ht)) as Hrows. cbn in Hrows.
  pose proof (trimmed_readings _ _ _ Ht) as Hread. cbn in Hread. destruct Hrem as [Hin|[Hall (n & t & Hn & Hnow & Hexp)]].
  - rewrite Hrows in Hin. apply elem_of_app in Hin as [Hin|Hin]; [|by left]. right.
    destruct (coordinator_ledger _ Hw) as (s & _ & Hr & _). pose proof (rows_keys _ _ Hr) as Hnd.
    rewrite Hrows, fmap_app in Hnd. apply NoDup_app in Hnd as (_ & Hd & _). split.
    + apply Forall_forall. intros r Hr' Hk. apply (Hd (key row)); [by apply list_elem_of_fmap_2|].
      rewrite <-Hk. by apply list_elem_of_fmap_2.
    + rewrite Forall_forall in Hg. destruct (Hg _ Hin) as (n & t & Hn & Hnow & Hexp). exists n, t. split_and!; try done; lia.
  - right. rewrite Hrows in Hall. apply Forall_app in Hall as [_ Hall]. split; [done|]. exists n, t. split_and!; try done; lia.
Qed.

(** Once a row was found expired, its request is outside the window. *)
Lemma expired_not_fresh base i row n t :
  not_ahead row -> fresh now limits base i -> request_id row = id_requestId i ->
  (n < readings base)%nat -> now n = Finite t ->
  real_le (Real (t - replay_maxAgeMs (mutationReplay limits))) (completed_at row) = false -> False.
Proof.
  intros Hahead [_ (m & t' & c & Hm & Hnow & Hc & Hwin & _)] Hid Hn Ht Hexp.
  rewrite <-Hid in Hc. specialize (Hahead _ Hc). assert (t <= t')%Z by (eapply Hclock; [|done..]; lia).
  rewrite (real_le_trans _ (Real c)) in Hexp; [done| |done]. cbn. apply bool_decide_eq_true. lia.
Qed.

Lemma turn_remembers request w o w' row :
  coordinator_ok w -> not_ahead row -> turn request w o w' -> remembered w row -> remembered w' row.
Proof.
  intros Hw Hahead (base & pre & Ht & Hg & _ & Hread & Ho) Hrem.
  pose proof (trimmed_remembers pre w base row Hw Ht Hg Hrem) as Hb.
  assert (Hkeep : rows w' = rows base -> remembered w' row).
  { intros E. unfold remembered. rewrite E. destruct Hb as [?|[? (n & t & ? & ?)]]; [by left|]. right. split; [done|].
    exists n, t. split; [lia|done]. }
  destruct o as [h|e]; [|destruct Ho as [_ E _ _ _]; apply Hkeep; by rewrite E].
  destruct Ho as [[-> _]|[Hfresh Hex]]; [done|].
  assert (Hrec : exists v version, recorded_request durability_policy now text_bytes base w' request v version).
  { destruct Hex as [[_ _ _ _ (v & _ & ?)]|[_ _ _ (v & s & pb & sl & _ & _ & _ & _ & ?)]]; eauto. }
  destruct Hrec as (v & version & Hrec). destruct (recorded_rows _ _ _ _ _ Hrec) as [E|(i & row2 & Hi & E & Hk)]; [by apply Hkeep|].
  unfold remembered. rewrite E. destruct Hb as [Hin|[Hall (n & t & Hn & Hnow & Hexp)]].
  - left. apply elem_of_app. by left.
  - right. split; [|exists n, t; split; [lia|done]]. apply forall_app_one; [done|]. intros Heq.
    rewrite Hk in Heq. injection Heq as _ Hid. eapply expired_not_fresh; [done|by apply Hfresh|by symmetry|done..].
Qed.

Lemma call_remembers w c row : coordinator_ok w -> not_ahead row -> remembered w row -> remembered (call w c) row.
Proof.
  intros Hw Hahead Hrem. destruct c as [request|request|es|plimits]; cbn.
  - eapply turn_remembers; [exact Hw|exact Hahead|by apply commit_turn|exact Hrem].
  - destruct (framework_ok request w (transactFramework fault others request w).1 (transactFramework fault others request w).2)
      as (_ & Hr & E); [by eapply (transactFramework_spec fault others limits afterCommit Hyp)|].
    unfold remembered. rewrite E. destruct Hrem as [?|[? (n & t & ? & ?)]]; [by left|]. right. split; [done|].
    exists n, t. split; [lia|done].
  - done.
  - destruct (restart plimits w) as [w'|e] eqn:E; [|done]. destruct (restart_ok _ _ _ Hw E) as (_ & E1 & E2).
    unfold remembered. by rewrite E1, E2.
Qed.

Lemma history_remembers w cs row :
  coordinator_ok w -> not_ahead row -> remembered w row -> remembered (history w cs) row.
Proof.
  unfold Coordinator.history. intros Hw Ha. induction cs as [|c cs IH] in w, Hw |- *; cbn; [done|].
  intros Hrem. apply IH; [by apply call_ok|by apply call_remembers].
Qed.

Lemma replay_stored_ret row i (r : CommitResult P) :
  replay_stored (toStoredMutation row) i = Ret r ->
  result_disposition row = replayable /\ res_replay r = replayed /\ res_commitVersion r = row_commit_version row /\
  exists text, row_result row = Some text /\ decode text = Ret (res_value r).
Proof.
  unfold replay_stored. destruct (negb _); [done|]. case_decide as Hd; [done|]. cbn in *.
  destruct (row_result row) as [text|]; [|done]. cbn. intros H. apply exc_bind_ret in H as (v1 & Hv1 & Er). apply Ret_inj in Er. subst r.
  split_and!; try done; [by destruct (result_disposition row)|]. by exists text.
Qed.

(** The record an executed request leaves. *)
Lemma executed_row request w h w' i :
  turn request w (Ret h) w' -> req_idempotency request = Some i -> res_replay (handoff_result h) = executed ->
  exists row d text, row ∈ rows w' /\ text_of d (res_value (handoff_result h)) text /\
    stored (toStoredMutation row) = replay_record durability_policy text_bytes i d text /\
    row_commit_version row = res_commitVersion (handoff_result h) /\
    exists n t, (readings w <= n < readings w')%nat /\ now n = Finite t /\ real_le (Real t) (completed_at row) = true.
Proof.
  intros (base & pre & Ht & _ & _ & Hread & Ho) Hi Hex. pose proof (trimmed_readings _ _ _ Ht) as Hr0. cbn in Hr0.
  assert (Hrec : recorded_request durability_policy now text_bytes base w' request (res_value (handoff_result h))
                   (res_commitVersion (handoff_result h))).
  { destruct Ho as [(-> & i' & r & _ & (row & _ & _ & Hrep) & ->)|[_ Hk]].
    - destruct (replay_stored_ret _ _ _ Hrep) as (_ & E & _). cbn in Hex. congruence.
    - destruct Hk as [[_ _ _ _ (v & -> & ?)]|[_ _ _ (v & s & pb & sl & _ & _ & _ & -> & ?)]]; done. }
  unfold recorded_request in Hrec. rewrite Hi in Hrec.
  destruct Hrec as (d & text & Htext & row & Hrows & Hst & Hv & n & t & Hn & Hnow & Htime).
  exists row, d, text. split_and!; try done; [rewrite Hrows; set_solver|].
  exists n, t. split_and!; try done; lia.
Qed.

Lemma same_key_row w row row' : coordinator_ok w -> row ∈ rows w -> row' ∈ rows w -> key row = key row' -> row = row'.
Proof.
  intros Hw H1 H2 Hk. destruct (coordinator_ledger _ Hw) as (s & _ & Hr & _). pose proof (rows_keys _ _ Hr) as Hnd.
  apply list_elem_of_lookup in H1 as [x H1], H2 as [y H2].
  assert (x = y) as ->; [|congruence].
  eapply NoDup_lookup; [exact Hnd|..]; rewrite list_lookup_fmap; [rewrite H1|rewrite H2]; cbn; [done|by rewrite Hk].
Qed.

(** While a row is remembered, its request is only replayed, from that row. *)
Lemma remembered_replays again w h' w' i' row :
  coordinator_ok w -> turn again w (Ret h') w' -> req_idempotency again = Some i' ->
  not_ahead row -> remembered w row -> key row = (id_sessionId i', id_requestId i') ->
  exists r, replay_stored (toStoredMutation row) i' = Ret r /\ h' = MkHandoff r None /\
    app (tables (conn w')) = app (tables (conn w)).
Proof.
  intros Hw (base & pre & Ht & Hg & _ & Hread & Ho) Hi' Hahead Hrem Hkey.
  pose proof (trimmed_remembers pre w base row Hw Ht Hg Hrem) as Hb.
  pose proof (trimmed_ok _ _ _ (new_locals_ok _ Hw) Ht) as Hbase.
  destruct Ho as [(-> & i2 & r & Hi2 & (row' & Hin' & Hk' & Hrep) & ->)|[Hfresh _]].
  - rewrite Hi' in Hi2. injection Hi2 as <-. destruct Hb as [Hb|[Hall _]].
    2:{ rewrite Forall_forall in Hall. destruct (Hall _ Hin'). by rewrite Hkey, Hk'. }
    assert (row = row') as <- by (apply (same_key_row base); try done; by rewrite Hkey, Hk').
    exists r. split_and!; try done. apply (trimmed_ledger _ _ _ Ht).
  - specialize (Hfresh _ Hi'). exfalso. destruct Hb as [Hb|[_ (n' & t' & Hn' & Hnow' & Hexp)]].
    + destruct Hfresh as [Hall _]. rewrite Forall_forall in Hall. by apply (Hall _ Hb).
    + eapply expired_not_fresh; [done|exact Hfresh|by injection Hkey|done..].
Qed.

(** The same for the request that left the row. *)
Lemma executed_remembered request w h w' i :
  coordinator_ok w -> turn request w (Ret h) w' -> req_idempotency request = Some i ->
  res_replay (handoff_result h) = executed ->
  (forall n t c, (readings w <= n < readings w')%nat -> now n = Finite t ->
     uuidV7Timestamp (id_requestId i) = Ret c -> (c <= t)%Z) ->
  exists row, row ∈ rows w' /\ not_ahead row /\ key row = (id_sessionId i, id_requestId i) /\
    row_commit_version row = res_commitVersion (handoff_result h) /\
    text_of (result_disposition row) (res_value (handoff_result h)) (row_result row).
Proof.
  intros Hw Hturn Hi Hex Htime.
  destruct (executed_row _ _ _ _ _ Hturn Hi Hex) as (row & d & text & Hin & Htext & Hst & Hver & n & t & Hn & Hnow & Hcomp).
  assert (Hid : session_id row = id_sessionId i /\ request_id row = id_requestId i /\ result_disposition row = d /\ row_result row = text)
    by (by injection Hst as -> -> ? ? ? ? -> -> ?).
  destruct Hid as (Hid1 & Hid2 & <- & <-). exists row. split_and!; try done.
  - intros c Hc. rewrite Hid2 in Hc. specialize (Htime _ _ _ Hn Hnow Hc). eapply real_le_trans; [|exact Hcomp].
    apply bool_decide_eq_true. exact Htime.
  - unfold key. by rewrite Hid1, Hid2.
Qed.

(** ** Properties *)

(** C1: a mutation commits at most once. When a request has been executed with
    an idempotency identity, and its UUIDv7 timestamp is not ahead of the
    server's clock during the execution, then whatever happens next (other
    commits, failures of SQLite, pruning of expired records, crashes and
    restarts) a commit under the same session and request that returns is a
    replay: it runs nothing, and returns the recorded version and what decoding
    the encoded result gives. The clock does not go backwards, a ROLLBACK is not
    refused and the post-commit hook does not throw. *)
Theorem mutation_at_most_once a plimits w0 before request h i between again h' i' :
  open_coordinator plimits (initial_tables a) 0 0 0 = Ret w0 ->
  let w1 := history w0 before in
  let w2 := (commit request w1).2 in
  let w3 := history w2 between in
  (commit request w1).1 = Ret h -> req_idempotency request = Some i -> res_replay (handoff_result h) = executed ->
  (forall n t c, (readings w1 <= n < readings w2)%nat -> now n = Finite t ->
     uuidV7Timestamp (id_requestId i) = Ret c -> (c <= t)%Z) ->
  (commit again w3).1 = Ret h' -> req_idempotency again = Some i' ->
  id_sessionId i' = id_sessionId i -> id_requestId i' = id_requestId i ->
  res_replay (handoff_result h') = replayed /\
  app (tables (conn (commit again w3).2)) = app (tables (conn w3)) /\
  res_commitVersion (handoff_result h') = res_commitVersion (handoff_result h) /\
  exists text, encode (res_value (handoff_result h)) = Ret text /\ decode text = Ret (res_value (handoff_result h')).
Proof.
  intros Hopen w1 w2 w3 Hret Hi Hex Htime Hret' Hi' Hs Hr.
  destruct (open_ok _ _ _ _ _ _ _ _ _ _ (initial_ok a) Hopen) as (Hw0 & _).
  assert (Hw1 : coordinator_ok w1) by (by apply history_ok).
  pose proof (commit_turn request w1 Hw1) as Hturn. fold w2 in Hturn. rewrite Hret in Hturn.
  pose proof (turn_ok _ _ _ _ Hw1 Hturn) as Hw2.
  destruct (executed_remembered _ _ _ _ _ Hw1 Hturn Hi Hex Htime) as (row & Hin & Hahead & Hkey & Hver & Htext).
  assert (Hw3 : coordinator_ok w3) by (by apply history_ok).
  pose proof (commit_turn again w3 Hw3) as Hturn'. rewrite Hret' in Hturn'.
  destruct (remembered_replays again w3 h' _ i' row Hw3 Hturn' Hi' Hahead) as (r & Hrep & -> & Happ).
  { apply history_remembers; [done|done|by left]. }
  { by rewrite Hkey, Hs, Hr. }
  destruct (replay_stored_ret _ _ _ Hrep) as (Hd & Hrp & Hv & text' & Htx & Hdec). cbn.
  split_and!; [done|done|by rewrite Hv|]. exists text'. split; [|done].
  rewrite Hd in Htext. destruct Htext as (j & Hj & Henc). congruence.
Qed.

(** C3: recovery. After any history on a new database no transaction and no
    reservation is open, and reading the disk back never reports corruption: it
    gives exactly the replay index and the counters in memory, the version the
    publication has reached, and a completion time no later than the one in
    memory. *)
Theorem recovery_exact a plimits w0 cs :
  open_coordinator plimits (initial_tables a) 0 0 0 = Ret w0 ->
  let w := history w0 cs in
  saved (conn w) = None /\ openReservation (pub w) = None /\
  exists snap, scanMutationReplay (durable (conn w)) = Ret snap /\
    snap_index snap = index (replay w) /\ snap_records snap = recordCount (replay w) /\
    snap_resultBytes snap = byteCount (replay w) /\ snap_commitVersion snap = committedHighWater (pub w) /\
    real_le (snap_lastCompletedAt snap) (lastCompletedAt (replay w)) = true.
Proof.
  intros Hopen w. destruct (open_ok _ _ _ _ _ _ _ _ _ _ (initial_ok a) Hopen) as (Hw0 & _).
  destruct (history_ok _ cs Hw0) as [Hl Hi Hp Ho Hv]. fold w in Hl, Hi, Hp, Ho, Hv.
  split_and!; [done|done|]. destruct (scan_ok _ _ _ _ _ Hl) as (s & snap & Hs & Hscan & Hv' & _ & E1 & E2 & E3 & _ & E5).
  exists snap. split_and!; try done. rewrite Hv'. unfold durable in Hs. rewrite Hi in Hs. cbn in Hs.
  rewrite Hs in Hv. by injection Hv.
Qed.

(** C2: a commit is all or nothing. When it throws, the application's tables,
    the version on disk and the published version are as they were, no
    transaction or reservation is left open, and the ledger has lost at most
    expired rows. When it returns without a publication (a replay, or a handled
    failure) the application's tables and the version are as they were. When it
    returns one, the tables are what the work and the finalizer made of them,
    and the next version is on disk, in the result and published. *)
Theorem commit_all_or_nothing a plimits w0 cs request :
  open_coordinator plimits (initial_tables a) 0 0 0 = Ret w0 ->
  let w := history w0 cs in
  let w' := (commit request w).2 in
  saved (conn w') = None /\ openReservation (pub w') = None /\
  commit_version <$> state_row (tables (conn w')) = Some (committedHighWater (pub w')) /\
  match (commit request w).1 with
  | Throw _ =>
      app (tables (conn w')) = app (tables (conn w)) /\ committedHighWater (pub w') = committedHighWater (pub w) /\
      exists pre, rows w = pre ++ rows w' /\ Forall (gone now limits w w') pre
  | Ret h =>
      match res_publication (handoff_result h) with
      | None => app (tables (conn w')) = app (tables (conn w)) /\ committedHighWater (pub w') = committedHighWater (pub w)
      | Some published =>
          committedHighWater (pub w') = (committedHighWater (pub w) + 1)%Z /\
          res_commitVersion (handoff_result h) = committedHighWater (pub w') /\
          exists s, ran request w (res_value (handoff_result h)) s /\ app (tables (conn w')) = work_app s /\
            publication_of request (committedHighWater (pub w')) (work_writes s) = Ret published
      end
  end.
Proof.
  intros Hopen w w'. destruct (open_ok _ _ _ _ _ _ _ _ _ _ (initial_ok a) Hopen) as (Hw0 & _).
  pose proof (history_ok _ cs Hw0) as Hw. fold w in Hw.
  pose proof (commit_turn request w Hw) as Hturn. fold w' in Hturn. pose proof (turn_ok _ _ _ _ Hw Hturn) as [_ Hi _ Ho Hv].
  split_and!; [done..|]. destruct Hturn as (base & pre & Ht & Hg & _ & Hread & Hturn).
  pose proof (pruned_app _ _ _ (trimmed_ledger _ _ _ Ht)) as Ea. pose proof (trimmed_pub _ _ _ Ht) as Ep.
  pose proof (trimmed_sequences _ _ _ Ht) as Es. cbn in Ea, Ep, Es.
  destruct (commit request w).1 as [h|e].
  - destruct Hturn as [(-> & i & r & _ & (row & _ & _ & Hrep) & ->)|[_ [[_ E1 E2 _ (v & -> & _)]|[_ E2 _ Hk]]]]; cbn.
    + assert (Hn : res_publication r = None).
      { revert Hrep. unfold replay_stored. destruct (negb _); [done|]. case_decide; [done|].
        destruct (result _); [|done]. cbn. intros H'. apply exc_bind_ret in H' as (v1 & _ & H'). apply Ret_inj in H'. by subst r. }
      rewrite Hn, Ep. done.
    + by rewrite E1, E2, Ep.
    + destruct Hk as (v & s & published & slot & Hran & Happ & Hpub & -> & _). cbn.
      split_and!; [by rewrite E2, Ep|done|]. exists s. split_and!; [|done|done].
      unfold ran in *. by rewrite Ea, Es in Hran.
  - destruct Hturn as [_ E1 _ E2 _]. split_and!; [by rewrite E1|by rewrite E2, Ep|].
    exists pre. split; [rewrite E1; apply (trimmed_ledger _ _ _ Ht)|].
    eapply Forall_impl; [exact Hg|]. intros r (n & t & Hn & Hrest). exists n, t. split; [lia|done].
Qed.
End coordinator.

(** ** A concrete runtime *)

Module Sample.
Local Open Scope string_scope.

Definition fault (k : StatementKind) (n : nat) : option Fault := None.
Definition others (n : nat) : list (@Publication.Event (list string)) := [].
Definition text_bytes (j : value) : Z := match j with VStr s => byte_length s + 2 | _ => 4 end.
Definition plimits : CapacityLimits num := MkCapacity (num_of_Z 10) (num_of_Z 1000).

(** An increment of the application's only number. *)
Definition increment (fails : bool) (out : string) (i : option IdempotencyIdentity) : CommitRequest nat (list string) :=
  MkCommitRequest i None
    (fun s => (Ret (VStr out), MkWorkState (S (work_app s)) (work_sequences s) (MkWrites ["t:1"] [] false) (work_poison s)))
    (Some (fun _ => Ret fails)) None (fun _ ws => Ret (keys ws)) None.

(** The request was made at 1000 ms. *)
Definition identity : IdempotencyIdentity :=
  MkIdempotency "session" "00000000-03e8-7000-8000-000000000000" (num_of_Z 1000) "principal" "f" "args".

Definition run (now : nat -> ms) (text_bytes : value -> Z) (request : CommitRequest nat (list string))
    : eff (Coordinator nat (list string)) (CommitHandoff (list string)) :=
  commit fault production now others production_values None false text_bytes request.

Definition start : Coordinator nat (list string) :=
  match open_coordinator plimits (initial_tables 0%nat) 0 0 0 with
  | Ret w => w
  | Throw _ => MkCoordinator (MkLedger (MkConnection (initial_tables 0%nat) None 0) ∅ 0 0 NegInf)
                 (MkPublication (MkCapacity 0 0) ∅ dll_empty None 0 0 0 0 0 0 0 None false ∅ false None None None [] [])%Z
                 ∅ 0 0 0 false false newWriteCollector None
  end.

(** What the first execution hands over. *)
Definition handed (version : Z) (out : string) (r : Replay) : CommitHandoff (list string) :=
  match r with
  | executed => MkHandoff (MkCommitResult (VStr out) version production executed (Some ["t:1"])) (Some 0%nat)
  | replayed => MkHandoff (MkCommitResult (VStr out) version production replayed None) None
  end.

Definition steady_clock (n : nat) : ms := Finite 1000.

Lemma assumptions_hold : assumptions fault production_values None.
Proof. constructor; [done|done|]. vm_compute. discriminate. Qed.

Lemma clock_monotone : monotone_clock steady_clock.
Proof. intros n m t u _ [= <-] [= <-]. lia. Qed.

Lemma start_opens : open_coordinator plimits (initial_tables 0%nat) 0 0 0 = Ret start.
Proof. vm_compute. reflexivity. Qed.
End Sample.


Lemma mutation_at_most_once_witness :
  let first := Sample.run Sample.steady_clock Sample.text_bytes (Sample.increment false "done" (Some Sample.identity)) Sample.start in
  let second := Sample.run Sample.steady_clock Sample.text_bytes (Sample.increment false "done" (Some Sample.identity)) first.2 in
  first.1 = Ret (Sample.handed 1 "done" executed) /\ second.1 = Ret (Sample.handed 1 "done" replayed) /\
  app (tables (connection (replay second.2))) = app (tables (connection (replay first.2))).
Proof.
  intros first second.
  assert (H1 : first.1 = Ret (Sample.handed 1 "done" executed)) by (vm_compute; reflexivity).
  assert (H2 : second.1 = Ret (Sample.handed 1 "done" replayed)) by (vm_compute; reflexivity).
  split; [exact H1|]. split; [exact H2|].
  refine (proj1 (proj2 (mutation_at_most_once Sample.fault production Sample.steady_clock Sample.others production_values
    None false Sample.text_bytes Sample.assumptions_hold Sample.clock_monotone 0%nat Sample.plimits Sample.start [] _ _
    Sample.identity [] _ _ Sample.identity Sample.start_opens H1 _ _ _ H2 _ _ _))); try reflexivity.
  intros n t c _ [= <-]. vm_compute. by intros [= <-].
Defined.

Lemma recovery_exact_witness :
  exists snap, scanMutationReplay (durable (connection (replay (Sample.run Sample.steady_clock Sample.text_bytes
      (Sample.increment false "done" (Some Sample.identity)) Sample.start).2))) = Ret snap /\ snap_records snap = 1%Z.
Proof.
  destruct (recovery_exact Sample.fault production Sample.steady_clock Sample.others production_values None false
    Sample.text_bytes Sample.assumptions_hold 0%nat Sample.plimits Sample.start
    [Commit (Sample.increment false "done" (Some Sample.identity))] Sample.start_opens) as (_ & _ & snap & Hs & _ & Hr & _).
  exists snap. split; [exact Hs|]. rewrite Hr. vm_compute. reflexivity.
Defined.

Lemma commit_all_or_nothing_witness :
  exists s, app (tables (connection (replay (Sample.run Sample.steady_clock Sample.text_bytes
      (Sample.increment false "done" None) Sample.start).2))) = work_app s /\ work_app s = 1%nat.
Proof.
  pose proof (commit_all_or_nothing Sample.fault production Sample.steady_clock Sample.others production_values None false
    Sample.text_bytes Sample.assumptions_hold 0%nat Sample.plimits Sample.start [] (Sample.increment false "done" None)
    Sample.start_opens) as (_ & _ & _ & H).
  match type of H with context [match ?o with Ret _ => _ | Throw _ => _ end] =>
    assert (E : o = Ret (Sample.handed 1 "done" executed)) by (vm_compute; reflexivity); rewrite E in H end.
  cbn [handoff_result Sample.handed res_publication] in H.
  destruct H as (_ & _ & s & _ & Ha & _). exists s. split; [exact Ha|]. rewrite <-Ha. vm_compute. reflexivity.
Defined.

(** ** Two limits of the code *)

(** A request whose timestamp is ahead of the server's clock (four minutes, the
    code allows five) stays inside the window four minutes longer than its
    record does: retried then, it runs again. *)
Definition skewed_identity : IdempotencyIdentity :=
  MkIdempotency "session" "00000003-ad68-7000-8000-000000000000" (num_of_Z 1000) "principal" "f" "args".
Definition skewed_clock (n : nat) : ms := if decide (n < 4)%nat then Finite 1000 else Finite 86500000.

Lemma skewed_request_runs_twice :
  let request := Sample.increment false "done" (Some skewed_identity) in
  let first := Sample.run skewed_clock Sample.text_bytes request Sample.start in
  let second := Sample.run skewed_clock Sample.text_bytes request first.2 in
  monotone_clock skewed_clock /\
  (exists h, first.1 = Ret h /\ res_replay (handoff_result h) = executed) /\
  (exists h, second.1 = Ret h /\ res_replay (handoff_result h) = executed) /\
  app (tables (connection (replay second.2))) = 2%nat.
Proof.
  intros request first second. split_and!.
  - unfold skewed_clock. intros n m t u Hnm. repeat case_decide; intros [= <-] [= <-]; lia.
  - eexists. split; [vm_compute; reflexivity|reflexivity].
  - eexists. split; [vm_compute; reflexivity|reflexivity].
  - vm_compute. reflexivity.
Qed.

(** A handled failure whose result exceeds the replay capacity is refused as
    overloaded, but the reservation was canceled before and the [catch] clause
    cancels it again: the caller gets that second refusal instead. *)
Lemma rolled_back_overflow_masked :
  (Sample.run Sample.steady_clock (fun _ => 2 * MiB)%Z (Sample.increment true "done" (Some Sample.identity)) Sample.start).1 =
  Throw (PlainError "Publication reservation is no longer open").
Proof. vm_compute. reflexivity. Qed.
