(* ===== verification/Observations.v ===== *)
(** What queries show, as an oracle: the specification that shared subscriptions
    and the client that follows them are held to. *)
From S2P Require Import Prelude Errors Value Wire StableEncode Protocol ProtocolProps.
Local Open Scope Z_scope.

(** What a query shows at a version: the text of its result, whether the result
    is an application error, and the keys that were read. *)
Record Observation : Type := MkObservation { ob_encoded : value; ob_failed : bool; ob_reads : gset string }.

Section shown.
Context (Q : string -> Z -> Observation).

Definition payload_value (p : value + ApplicationError) : value :=
  match p with inl v => v | inr e => error_value e end.

Definition failed (p : value + ApplicationError) : bool := match p with inl _ => false | inr _ => true end.

(** [p] is what the query [id] shows at [version]. *)
Definition shows (id : string) (version : Z) (p : value + ApplicationError) : Prop :=
  encode (payload_value p) = Ret (ob_encoded (Q id version)) /\ failed p = ob_failed (Q id version).

(** The query shows the same at two versions. *)
Definition unchanged (id : string) (v v' : Z) : Prop :=
  ob_encoded (Q id v) = ob_encoded (Q id v') /\ ob_failed (Q id v) = ob_failed (Q id v').

Definition outcome_of (v : value) (e : option ApplicationError) : value + ApplicationError :=
  match e with Some e => inr e | None => inl v end.

(** What a transition tells the client holds of the query of its cursor. A reset
    to [undefined] tells nothing: no frame carries it. *)
Definition valid_transition (t : SubscriptionTransition) : Prop :=
  match t with
  | TReset _ to v => v = VUndefined \/ shows (cur_identity to) (commitVersion to) (inl v)
  | TUpdate from to v => shows (cur_identity to) (commitVersion to) (inl v)
  | TApplicationError _ to e => shows (cur_identity to) (commitVersion to) (inr e)
  | TCheckpoint from to | TResume from to =>
      cur_identity from = cur_identity to /\ unchanged (cur_identity to) (commitVersion from) (commitVersion to)
  | TRevoked from to _ => cur_identity from = cur_identity to /\ commitVersion from = commitVersion to
  end.
End shown.
