(* ===== verification/Reactive.v ===== *)
(** Shared query subscriptions: [server/src/subscriptions/reactive/ordered.ts],
    with the entries and listeners of [entry.ts] and the evaluator's encoding of
    [server/src/runtime/queries/runtime.ts].

    Entries, listeners, evaluations and deliveries are objects named by numbers,
    kept in stores. A computation reads and changes the state of the class and
    may throw; what an asynchronous function still has to do after an [await] is
    a record of the state ([evaluations], [deliveries], [subscribing]) that an
    event of [ReactiveSteps] takes up again. *)
From S2P Require Import Prelude Errors Limits Dll Publication Value Wire StableEncode Protocol ProtocolProps DependencyIndex History Effects.
Local Open Scope string_scope.
Local Open Scope list_scope.

(** The key of an entry is the text of [stableEncode([address, args, scope])],
    held here as what it spells; [key_args] is the encoded arguments. *)
Record EntryKey : Type := MkKey { key_address : string; key_args : value; key_scope : string }.

#[export] Instance EntryKey_eq_dec : EqDecision EntryKey.
Proof. solve_decision. Defined.

(** The context a query is evaluated in, by identity. *)
Definition Ctx : Type := nat.

Record ReactiveCommit : Type := MkCommit { writeKeys : gset string; affectedCallerIds : list Z }.

(** ** Data *)

Record QueryEntry : Type := MkEntry {
  e_key : EntryKey;
  e_identity : string;
  e_args : value;  (* decoded *)
  revalidationBytes : Z;
  ownerFairnessKey : string;
  context : Ctx;
  e_generation : string;
  listeners : list nat;  (* a Set, in insertion order *)
  initialized : bool;
  e_value : value;
  e_applicationError : option ApplicationError;
  e_encoded : value;
  e_resultBytes : Z;
  e_commitVersion : Z;
  dirtyVersion : Z;
  evaluationGeneration : Z;
  evaluation : option nat;  (* the evaluation under way *)
  dormantAtMs : option Z;
  removed : bool;
}.

Definition set_e_key (x : EntryKey) (e : QueryEntry) : QueryEntry :=
  MkEntry x (e_identity e) (e_args e) (revalidationBytes e) (ownerFairnessKey e) (context e) (e_generation e)
    (listeners e) (initialized e) (e_value e) (e_applicationError e) (e_encoded e) (e_resultBytes e)
    (e_commitVersion e) (dirtyVersion e) (evaluationGeneration e) (evaluation e) (dormantAtMs e) (removed e).
Definition set_e_identity (x : string) (e : QueryEntry) : QueryEntry :=
  MkEntry (e_key e) x (e_args e) (revalidationBytes e) (ownerFairnessKey e) (context e) (e_generation e)
    (listeners e) (initialized e) (e_value e) (e_applicationError e) (e_encoded e) (e_resultBytes e)
    (e_commitVersion e) (dirtyVersion e) (evaluationGeneration e) (evaluation e) (dormantAtMs e) (removed e).
Definition set_e_args (x : value) (e : QueryEntry) : QueryEntry :=
  MkEntry (e_key e) (e_identity e) x (revalidationBytes e) (ownerFairnessKey e) (context e) (e_generation e)
    (listeners e) (initialized e) (e_value e) (e_applicationError e) (e_encoded e) (e_resultBytes e)
    (e_commitVersion e) (dirtyVersion e) (evaluationGeneration e) (evaluation e) (dormantAtMs e) (removed e).
Definition set_revalidationBytes (x : Z) (e : QueryEntry) : QueryEntry :=
  MkEntry (e_key e) (e_identity e) (e_args e) x (ownerFairnessKey e) (context e) (e_generation e) (listeners e)
    (initialized e) (e_value e) (e_applicationError e) (e_encoded e) (e_resultBytes e) (e_commitVersion e)
    (dirtyVersion e) (evaluationGeneration e) (evaluation e) (dormantAtMs e) (removed e).
Definition set_ownerFairnessKey (x : string) (e : QueryEntry) : QueryEntry :=
  MkEntry (e_key e) (e_identity e) (e_args e) (revalidationBytes e) x (context e) (e_generation e) (listeners e)
    (initialized e) (e_value e) (e_applicationError e) (e_encoded e) (e_resultBytes e) (e_commitVersion e)
    (dirtyVersion e) (evaluationGeneration e) (evaluation e) (dormantAtMs e) (removed e).
Definition set_context (x : Ctx) (e : QueryEntry) : QueryEntry :=
  MkEntry (e_key e) (e_identity e) (e_args e) (revalidationBytes e) (ownerFairnessKey e) x (e_generation e)
    (listeners e) (initialized e) (e_value e) (e_applicationError e) (e_encoded e) (e_resultBytes e)
    (e_commitVersion e) (dirtyVersion e) (evaluationGeneration e) (evaluation e) (dormantAtMs e) (removed e).
Definition set_e_generation (x : string) (e : QueryEntry) : QueryEntry :=
  MkEntry (e_key e) (e_identity e) (e_args e) (revalidationBytes e) (ownerFairnessKey e) (context e) x
    (listeners e) (initialized e) (e_value e) (e_applicationError e) (e_encoded e) (e_resultBytes e)
    (e_commitVersion e) (dirtyVersion e) (evaluationGeneration e) (evaluation e) (dormantAtMs e) (removed e).
Definition set_listeners (x : list nat) (e : QueryEntry) : QueryEntry :=
  MkEntry (e_key e) (e_identity e) (e_args e) (revalidationBytes e) (ownerFairnessKey e) (context e)
    (e_generation e) x (initialized e) (e_value e) (e_applicationError e) (e_encoded e) (e_resultBytes e)
    (e_commitVersion e) (dirtyVersion e) (evaluationGeneration e) (evaluation e) (dormantAtMs e) (removed e).
Definition set_initialized (x : bool) (e : QueryEntry) : QueryEntry :=
  MkEntry (e_key e) (e_identity e) (e_args e) (revalidationBytes e) (ownerFairnessKey e) (context e)
    (e_generation e) (listeners e) x (e_value e) (e_applicationError e) (e_encoded e) (e_resultBytes e)
    (e_commitVersion e) (dirtyVersion e) (evaluationGeneration e) (evaluation e) (dormantAtMs e) (removed e).
Definition set_e_value (x : value) (e : QueryEntry) : QueryEntry :=
  MkEntry (e_key e) (e_identity e) (e_args e) (revalidationBytes e) (ownerFairnessKey e) (context e)
    (e_generation e) (listeners e) (initialized e) x (e_applicationError e) (e_encoded e) (e_resultBytes e)
    (e_commitVersion e) (dirtyVersion e) (evaluationGeneration e) (evaluation e) (dormantAtMs e) (removed e).
Definition set_e_applicationError (x : option ApplicationError) (e : QueryEntry) : QueryEntry :=
  MkEntry (e_key e) (e_identity e) (e_args e) (revalidationBytes e) (ownerFairnessKey e) (context e)
    (e_generation e) (listeners e) (initialized e) (e_value e) x (e_encoded e) (e_resultBytes e)
    (e_commitVersion e) (dirtyVersion e) (evaluationGeneration e) (evaluation e) (dormantAtMs e) (removed e).
Definition set_e_encoded (x : value) (e : QueryEntry) : QueryEntry :=
  MkEntry (e_key e) (e_identity e) (e_args e) (revalidationBytes e) (ownerFairnessKey e) (context e)
    (e_generation e) (listeners e) (initialized e) (e_value e) (e_applicationError e) x (e_resultBytes e)
    (e_commitVersion e) (dirtyVersion e) (evaluationGeneration e) (evaluation e) (dormantAtMs e) (removed e).
Definition set_e_resultBytes (x : Z) (e : QueryEntry) : QueryEntry :=
  MkEntry (e_key e) (e_identity e) (e_args e) (revalidationBytes e) (ownerFairnessKey e) (context e)
    (e_generation e) (listeners e) (initialized e) (e_value e) (e_applicationError e) (e_encoded e) x
    (e_commitVersion e) (dirtyVersion e) (evaluationGeneration e) (evaluation e) (dormantAtMs e) (removed e).
Definition set_e_commitVersion (x : Z) (e : QueryEntry) : QueryEntry :=
  MkEntry (e_key e) (e_identity e) (e_args e) (revalidationBytes e) (ownerFairnessKey e) (context e)
    (e_generation e) (listeners e) (initialized e) (e_value e) (e_applicationError e) (e_encoded e)
    (e_resultBytes e) x (dirtyVersion e) (evaluationGeneration e) (evaluation e) (dormantAtMs e) (removed e).
Definition set_dirtyVersion (x : Z) (e : QueryEntry) : QueryEntry :=
  MkEntry (e_key e) (e_identity e) (e_args e) (revalidationBytes e) (ownerFairnessKey e) (context e)
    (e_generation e) (listeners e) (initialized e) (e_value e) (e_applicationError e) (e_encoded e)
    (e_resultBytes e) (e_commitVersion e) x (evaluationGeneration e) (evaluation e) (dormantAtMs e) (removed e).
Definition set_evaluationGeneration (x : Z) (e : QueryEntry) : QueryEntry :=
  MkEntry (e_key e) (e_identity e) (e_args e) (revalidationBytes e) (ownerFairnessKey e) (context e)
    (e_generation e) (listeners e) (initialized e) (e_value e) (e_applicationError e) (e_encoded e)
    (e_resultBytes e) (e_commitVersion e) (dirtyVersion e) x (evaluation e) (dormantAtMs e) (removed e).
Definition set_evaluation (x : option nat) (e : QueryEntry) : QueryEntry :=
  MkEntry (e_key e) (e_identity e) (e_args e) (revalidationBytes e) (ownerFairnessKey e) (context e)
    (e_generation e) (listeners e) (initialized e) (e_value e) (e_applicationError e) (e_encoded e)
    (e_resultBytes e) (e_commitVersion e) (dirtyVersion e) (evaluationGeneration e) x (dormantAtMs e) (removed
    e).
Definition set_dormantAtMs (x : option Z) (e : QueryEntry) : QueryEntry :=
  MkEntry (e_key e) (e_identity e) (e_args e) (revalidationBytes e) (ownerFairnessKey e) (context e)
    (e_generation e) (listeners e) (initialized e) (e_value e) (e_applicationError e) (e_encoded e)
    (e_resultBytes e) (e_commitVersion e) (dirtyVersion e) (evaluationGeneration e) (evaluation e) x (removed
    e).
Definition set_removed (x : bool) (e : QueryEntry) : QueryEntry :=
  MkEntry (e_key e) (e_identity e) (e_args e) (revalidationBytes e) (ownerFairnessKey e) (context e)
    (e_generation e) (listeners e) (initialized e) (e_value e) (e_applicationError e) (e_encoded e)
    (e_resultBytes e) (e_commitVersion e) (dirtyVersion e) (evaluationGeneration e) (evaluation e) (dormantAtMs
    e) x.

Record QueryListener : Type := MkListener {
  l_subscriber : nat;
  l_id : Z;
  l_entry : nat;
  l_fairnessKey : string;
  l_authEpoch : num;
  l_cursor : option SubscriptionCursor;
  inflight : option (nat * exc js_error (option SubscriptionCursor));  (* the delivery whose send runs, and the cursor its success sets, or why it fails *)
  waiting : list nat;  (* the deliveries that wait for the sends before theirs *)
}.

Definition set_l_subscriber (x : nat) (l : QueryListener) : QueryListener :=
  MkListener x (l_id l) (l_entry l) (l_fairnessKey l) (l_authEpoch l) (l_cursor l) (inflight l) (waiting l).
Definition set_l_id (x : Z) (l : QueryListener) : QueryListener :=
  MkListener (l_subscriber l) x (l_entry l) (l_fairnessKey l) (l_authEpoch l) (l_cursor l) (inflight l) (waiting
    l).
Definition set_l_entry (x : nat) (l : QueryListener) : QueryListener :=
  MkListener (l_subscriber l) (l_id l) x (l_fairnessKey l) (l_authEpoch l) (l_cursor l) (inflight l) (waiting
    l).
Definition set_l_fairnessKey (x : string) (l : QueryListener) : QueryListener :=
  MkListener (l_subscriber l) (l_id l) (l_entry l) x (l_authEpoch l) (l_cursor l) (inflight l) (waiting l).
Definition set_l_authEpoch (x : num) (l : QueryListener) : QueryListener :=
  MkListener (l_subscriber l) (l_id l) (l_entry l) (l_fairnessKey l) x (l_cursor l) (inflight l) (waiting l).
Definition set_l_cursor (x : option SubscriptionCursor) (l : QueryListener) : QueryListener :=
  MkListener (l_subscriber l) (l_id l) (l_entry l) (l_fairnessKey l) (l_authEpoch l) x (inflight l) (waiting l).
Definition set_inflight (x : option (nat * exc js_error (option SubscriptionCursor))) (l : QueryListener) : QueryListener :=
  MkListener (l_subscriber l) (l_id l) (l_entry l) (l_fairnessKey l) (l_authEpoch l) (l_cursor l) x (waiting l).
Definition set_waiting (x : list nat) (l : QueryListener) : QueryListener :=
  MkListener (l_subscriber l) (l_id l) (l_entry l) (l_fairnessKey l) (l_authEpoch l) (l_cursor l) (inflight l)
    x.

(** What is sent to a subscriber, and what it receives. *)
Inductive Send : Type :=
  | SendTransition (t : SubscriptionTransition)
  | SendError (outcome : Outcome)
  | SendRevocation (nextAuthEpoch : num) (outcome : Outcome).

Inductive Message : Type :=
  | MTransition (t : SubscriptionTransition)
  | MError (outcome : Outcome).

(** How far an evaluation is: queued at the executor; in the evaluator; awaiting
    the deliveries of its result, or the notices of its failure; [Ended], its
    execution settled; [Releasing], past the handler of failures; following the
    evaluation that came after it; settled. *)
Inductive Phase : Type :=
  | Queued
  | Evaluating (generation : Z)
  | Delivering (count : nat)
  | NotifyingOverflow
  | Ended (result : exc js_error unit)
  | NotifyingFailure
  | Releasing (result : exc js_error unit)
  | Following (newer : nat)
  | Settled (result : exc js_error unit).

Record Evaluation : Type := MkEvaluation {
  j_entry : nat;
  j_fairnessKey : string;
  j_context : Ctx;
  wasInitialized : bool;
  phase : Phase;
}.

Definition set_j_entry (x : nat) (j : Evaluation) : Evaluation :=
  MkEvaluation x (j_fairnessKey j) (j_context j) (wasInitialized j) (phase j).
Definition set_j_fairnessKey (x : string) (j : Evaluation) : Evaluation :=
  MkEvaluation (j_entry j) x (j_context j) (wasInitialized j) (phase j).
Definition set_j_context (x : Ctx) (j : Evaluation) : Evaluation :=
  MkEvaluation (j_entry j) (j_fairnessKey j) x (wasInitialized j) (phase j).
Definition set_wasInitialized (x : bool) (j : Evaluation) : Evaluation :=
  MkEvaluation (j_entry j) (j_fairnessKey j) (j_context j) x (phase j).
Definition set_phase (x : Phase) (j : Evaluation) : Evaluation :=
  MkEvaluation (j_entry j) (j_fairnessKey j) (j_context j) (wasInitialized j) x.

(** Who awaits a delivery. *)
Inductive Owner : Type := OEvaluation (j : nat) | OSubscribe (s : nat) | ONobody.

Record Delivery : Type := MkDelivery {
  d_sends : list (nat * Send);  (* the sends to come, with their listeners; the first is queued or runs *)
  d_stop : bool;  (* a failed send ends the delivery *)
  d_owner : Owner;
}.

Definition set_d_sends (x : list (nat * Send)) (d : Delivery) : Delivery :=
  MkDelivery x (d_stop d) (d_owner d).
Definition set_d_stop (x : bool) (d : Delivery) : Delivery :=
  MkDelivery (d_sends d) x (d_owner d).
Definition set_d_owner (x : Owner) (d : Delivery) : Delivery :=
  MkDelivery (d_sends d) (d_stop d) x.

Record QuerySubscription : Type := MkQuerySubscription {
  o_address : string; o_args : value; o_scope : string; o_fairnessKey : string; o_context : Ctx;
  o_subscriber : nat; o_id : num; o_authEpoch : num; o_cursor : option SubscriptionCursor }.

(** What [ensureCurrent] returns: a fulfilled promise, or that of an evaluation. *)
Inductive Awaited : Type := Current | Awaits (j : nat).

Inductive SubscribePhase : Type :=
  | SWaiting (a : Awaited)
  | SDelivering (listener : nat)
  | SDone (result : exc js_error unit).

Record Subscribing : Type := MkSubscribing {
  s_options : QuerySubscription;
  s_entry : nat;
  s_phase : SubscribePhase;
}.

Definition set_s_options (x : QuerySubscription) (s : Subscribing) : Subscribing :=
  MkSubscribing x (s_entry s) (s_phase s).
Definition set_s_entry (x : nat) (s : Subscribing) : Subscribing :=
  MkSubscribing (s_options s) x (s_phase s).
Definition set_s_phase (x : SubscribePhase) (s : Subscribing) : Subscribing :=
  MkSubscribing (s_options s) (s_entry s) x.

(** What the evaluator's query gave: [Result] of data or of an application error. *)
Record QueryExecution : Type := MkExecution {
  x_result : value + ApplicationError; x_readSet : gset string; x_commitVersion : Z }.

Record QueryEvaluation : Type := MkQueryEvaluation {
  v_value : value; v_applicationError : option ApplicationError; v_encoded : value; v_readSet : gset string;
  v_commitVersion : Z }.

Record Reactive : Type := MkReactive {
  publication : OrderedPublication ReactiveCommit;
  store : gmap nat QueryEntry;  (* every entry ever made, by identity *)
  entries : list (EntryKey * nat);  (* a Map, in insertion order *)
  deps : DependencyIndex.Store (K := string);  (* the index and the read sets *)
  bySubscriber : list (nat * list (Z * nat));  (* Maps, in insertion order *)
  bindings : gmap nat QueryListener;  (* every listener ever made *)
  queryListeners : Z;
  resultBytes : Z;
  dormantEntries : Z;
  evaluatingEntries : Z;
  resume_history : TransitionHistory;
  evaluations : gmap nat Evaluation;  (* every evaluation ever submitted *)
  deliveries : gmap nat Delivery;  (* the deliveries that are not over *)
  next_delivery : nat;
  subscribing : gmap nat Subscribing;  (* the calls of [subscribeQuery] *)
  r_readings : nat;  (* readings of the clock so far *)
  r_generations : nat;  (* generations drawn so far *)
  outbox : list (nat * Z * Message);  (* what was handed to the subscribers, first to last *)
}.

Definition set_publication (x : OrderedPublication ReactiveCommit) (w : Reactive) : Reactive :=
  MkReactive x (store w) (entries w) (deps w) (bySubscriber w) (bindings w) (queryListeners w) (resultBytes w)
    (dormantEntries w) (evaluatingEntries w) (resume_history w) (evaluations w) (deliveries w) (next_delivery w)
    (subscribing w) (r_readings w) (r_generations w) (outbox w).
Definition set_store (x : gmap nat QueryEntry) (w : Reactive) : Reactive :=
  MkReactive (publication w) x (entries w) (deps w) (bySubscriber w) (bindings w) (queryListeners w)
    (resultBytes w) (dormantEntries w) (evaluatingEntries w) (resume_history w) (evaluations w) (deliveries w)
    (next_delivery w) (subscribing w) (r_readings w) (r_generations w) (outbox w).
Definition set_entries (x : list (EntryKey * nat)) (w : Reactive) : Reactive :=
  MkReactive (publication w) (store w) x (deps w) (bySubscriber w) (bindings w) (queryListeners w) (resultBytes
    w) (dormantEntries w) (evaluatingEntries w) (resume_history w) (evaluations w) (deliveries w) (next_delivery
    w) (subscribing w) (r_readings w) (r_generations w) (outbox w).
Definition set_deps (x : DependencyIndex.Store (K := string)) (w : Reactive) : Reactive :=
  MkReactive (publication w) (store w) (entries w) x (bySubscriber w) (bindings w) (queryListeners w)
    (resultBytes w) (dormantEntries w) (evaluatingEntries w) (resume_history w) (evaluations w) (deliveries w)
    (next_delivery w) (subscribing w) (r_readings w) (r_generations w) (outbox w).
Definition set_bySubscriber (x : list (nat * list (Z * nat))) (w : Reactive) : Reactive :=
  MkReactive (publication w) (store w) (entries w) (deps w) x (bindings w) (queryListeners w) (resultBytes w)
    (dormantEntries w) (evaluatingEntries w) (resume_history w) (evaluations w) (deliveries w) (next_delivery w)
    (subscribing w) (r_readings w) (r_generations w) (outbox w).
Definition set_bindings (x : gmap nat QueryListener) (w : Reactive) : Reactive :=
  MkReactive (publication w) (store w) (entries w) (deps w) (bySubscriber w) x (queryListeners w) (resultBytes
    w) (dormantEntries w) (evaluatingEntries w) (resume_history w) (evaluations w) (deliveries w) (next_delivery
    w) (subscribing w) (r_readings w) (r_generations w) (outbox w).
Definition set_queryListeners (x : Z) (w : Reactive) : Reactive :=
  MkReactive (publication w) (store w) (entries w) (deps w) (bySubscriber w) (bindings w) x (resultBytes w)
    (dormantEntries w) (evaluatingEntries w) (resume_history w) (evaluations w) (deliveries w) (next_delivery w)
    (subscribing w) (r_readings w) (r_generations w) (outbox w).
Definition set_resultBytes (x : Z) (w : Reactive) : Reactive :=
  MkReactive (publication w) (store w) (entries w) (deps w) (bySubscriber w) (bindings w) (queryListeners w) x
    (dormantEntries w) (evaluatingEntries w) (resume_history w) (evaluations w) (deliveries w) (next_delivery w)
    (subscribing w) (r_readings w) (r_generations w) (outbox w).
Definition set_dormantEntries (x : Z) (w : Reactive) : Reactive :=
  MkReactive (publication w) (store w) (entries w) (deps w) (bySubscriber w) (bindings w) (queryListeners w)
    (resultBytes w) x (evaluatingEntries w) (resume_history w) (evaluations w) (deliveries w) (next_delivery w)
    (subscribing w) (r_readings w) (r_generations w) (outbox w).
Definition set_evaluatingEntries (x : Z) (w : Reactive) : Reactive :=
  MkReactive (publication w) (store w) (entries w) (deps w) (bySubscriber w) (bindings w) (queryListeners w)
    (resultBytes w) (dormantEntries w) x (resume_history w) (evaluations w) (deliveries w) (next_delivery w)
    (subscribing w) (r_readings w) (r_generations w) (outbox w).
Definition set_resume_history (x : TransitionHistory) (w : Reactive) : Reactive :=
  MkReactive (publication w) (store w) (entries w) (deps w) (bySubscriber w) (bindings w) (queryListeners w)
    (resultBytes w) (dormantEntries w) (evaluatingEntries w) x (evaluations w) (deliveries w) (next_delivery w)
    (subscribing w) (r_readings w) (r_generations w) (outbox w).
Definition set_evaluations (x : gmap nat Evaluation) (w : Reactive) : Reactive :=
  MkReactive (publication w) (store w) (entries w) (deps w) (bySubscriber w) (bindings w) (queryListeners w)
    (resultBytes w) (dormantEntries w) (evaluatingEntries w) (resume_history w) x (deliveries w) (next_delivery
    w) (subscribing w) (r_readings w) (r_generations w) (outbox w).
Definition set_deliveries (x : gmap nat Delivery) (w : Reactive) : Reactive :=
  MkReactive (publication w) (store w) (entries w) (deps w) (bySubscriber w) (bindings w) (queryListeners w)
    (resultBytes w) (dormantEntries w) (evaluatingEntries w) (resume_history w) (evaluations w) x (next_delivery
    w) (subscribing w) (r_readings w) (r_generations w) (outbox w).
Definition set_next_delivery (x : nat) (w : Reactive) : Reactive :=
  MkReactive (publication w) (store w) (entries w) (deps w) (bySubscriber w) (bindings w) (queryListeners w)
    (resultBytes w) (dormantEntries w) (evaluatingEntries w) (resume_history w) (evaluations w) (deliveries w) x
    (subscribing w) (r_readings w) (r_generations w) (outbox w).
Definition set_subscribing (x : gmap nat Subscribing) (w : Reactive) : Reactive :=
  MkReactive (publication w) (store w) (entries w) (deps w) (bySubscriber w) (bindings w) (queryListeners w)
    (resultBytes w) (dormantEntries w) (evaluatingEntries w) (resume_history w) (evaluations w) (deliveries w)
    (next_delivery w) x (r_readings w) (r_generations w) (outbox w).
Definition set_r_readings (x : nat) (w : Reactive) : Reactive :=
  MkReactive (publication w) (store w) (entries w) (deps w) (bySubscriber w) (bindings w) (queryListeners w)
    (resultBytes w) (dormantEntries w) (evaluatingEntries w) (resume_history w) (evaluations w) (deliveries w)
    (next_delivery w) (subscribing w) x (r_generations w) (outbox w).
Definition set_r_generations (x : nat) (w : Reactive) : Reactive :=
  MkReactive (publication w) (store w) (entries w) (deps w) (bySubscriber w) (bindings w) (queryListeners w)
    (resultBytes w) (dormantEntries w) (evaluatingEntries w) (resume_history w) (evaluations w) (deliveries w)
    (next_delivery w) (subscribing w) (r_readings w) x (outbox w).
Definition set_outbox (x : list (nat * Z * Message)) (w : Reactive) : Reactive :=
  MkReactive (publication w) (store w) (entries w) (deps w) (bySubscriber w) (bindings w) (queryListeners w)
    (resultBytes w) (dormantEntries w) (evaluatingEntries w) (resume_history w) (evaluations w) (deliveries w)
    (next_delivery w) (subscribing w) (r_readings w) (r_generations w) x.

Abbreviation eff := (Effects.eff Reactive).

(** The limits, the clock, [crypto.randomUUID], the digest of a key, and the
    length in bytes of JSON text and of a key's text. *)
Class ReactiveOptions : Type := {
  limits : ServiceLimits Z;
  now : nat -> ms;
  uuid : nat -> string;
  digest : EntryKey -> string;
  text_bytes : value -> Z;
  key_bytes : EntryKey -> Z;
}.

Section reactive.
Context {options : ReactiveOptions}.

(** [RuntimeQueries.encode] *)
Definition encode_execution (x : QueryExecution) : exc js_error QueryEvaluation :=
  encoded ← encode (match x_result x with inl v => v | inr e => error_value e end);
  Ret (MkQueryEvaluation (match x_result x with inl v => v | inr _ => VUndefined end)
         (match x_result x with inl _ => None | inr e => Some e end) encoded (x_readSet x) (x_commitVersion x)).

(** ** Small steps *)

Definition clock_reading : eff ms := fun w => (Ret (now (r_readings w)), set_r_readings (S (r_readings w)) w).

Definition readNow : eff Z :=
  t ← clock_reading;
  match t with Finite t => mret t | NonFinite => throw (RangeError "now must return a finite number") end.

Definition nextGeneration : eff string := fun w => (Ret (uuid (r_generations w)), set_r_generations (S (r_generations w)) w).

Definition new_generation : eff string :=
  g ← nextGeneration;
  if decide (utf16_length g = 0 \/ 512 < utf16_length g)%Z
  then throw (TypeError "generation must return a non-empty bounded string") else mret g.

Definition highWaterMark : eff Z :=
  t ← clock_reading;
  p ← get publication;
  s ← lift (Publication.snapshot t p);
  mret (highWater s).

(** [publication.compareAndInstall]; [None] when it did not install, and what
    [install] left otherwise. *)
Definition compare_and_install {A} (version : Z) (install : eff A) : eff (option A) :=
  p ← get publication;
  installs ← lift (Publication.compareAndInstall version false p);
  if (installs : bool) then a ← install; mret (Some a) else mret None.

Definition entry_of (e : nat) : eff QueryEntry :=
  o ← get (fun w => store w !! e);
  match o with Some x => mret x | None => throw (TypeError "Cannot read properties of undefined") end.

Definition update_entry (e : nat) (f : QueryEntry -> QueryEntry) : eff unit :=
  modify (fun w => set_store (alter f e (store w)) w).

Definition update_listener (l : nat) (f : QueryListener -> QueryListener) : eff unit :=
  modify (fun w => set_bindings (alter f l (bindings w)) w).

Definition listener_of (l : nat) : eff QueryListener :=
  o ← get (fun w => bindings w !! l);
  match o with Some x => mret x | None => throw (TypeError "Cannot read properties of undefined") end.

Definition update_evaluation (j : nat) (f : Evaluation -> Evaluation) : eff unit :=
  modify (fun w => set_evaluations (alter f j (evaluations w)) w).

Definition for_each {A} (f : A -> eff unit) (l : list A) : eff unit :=
  foldr (fun x k => _ ← f x; k) (mret tt) l.

(** A loop of the resume window ends; it has no result otherwise. *)
Definition windowed {A} (m : TransitionHistory -> option (exc js_error (A * TransitionHistory))) : eff A := fun w =>
  match m (resume_history w) with
  | Some (Ret (a, h)) => (Ret a, set_resume_history h w)
  | Some (Throw e) => (Throw e, w)
  | None => (Throw (PlainError "the loop does not end"), w)
  end.

(** ** Listeners *)

Definition subscriber_bindings (subscriber : nat) (w : Reactive) : list (Z * nat) :=
  default [] (jmap_get subscriber (bySubscriber w)).

Definition assertAuthEpoch (n : num) : exc js_error unit :=
  match num_safe_integer n with
  | Some z => throw_if (bool_decide (z < 0)%Z) (RangeError "authEpoch must be a non-negative safe integer")
  | None => Throw (RangeError "authEpoch must be a non-negative safe integer")
  end.

Definition assertSubscriptionIdentity (subscriber : nat) (id : num) : eff Z :=
  match num_safe_integer id with
  | Some z =>
      if decide (z <= 0)%Z then throw (RangeError "subscription id must be positive")
      else
        mine ← get (subscriber_bindings subscriber);
        match jmap_get z mine with
        | Some _ => throw (Acker (MkAckerDBError conflict "Subscription id is already active" false None None false))
        | None => mret z
        end
  | None => throw (RangeError "subscription id must be positive")
  end.

Definition attach (listener : QueryListener) : eff nat :=
  l ← get (fun w => size (bindings w));
  _ ← modify (fun w => set_bindings (<[l := listener]> (bindings w)) w);
  mine ← get (subscriber_bindings (l_subscriber listener));
  _ ← modify (fun w => set_bySubscriber (jmap_set (l_subscriber listener) (jmap_set (l_id listener) l mine) (bySubscriber w)) w);
  let e := l_entry listener in
  x ← entry_of e;
  _ ← when (bool_decide (listeners x = [])) (update_entry e (set_ownerFairnessKey (l_fairnessKey listener)));
  _ ← update_entry e (fun x => set_listeners (listeners x ++ [l]) x);
  _ ← when (bool_decide (dormantAtMs x <> None)) (modify (fun w => set_dormantEntries (dormantEntries w - 1)%Z w));
  _ ← update_entry e (set_dormantAtMs None);
  _ ← modify (fun w => set_queryListeners (queryListeners w + 1)%Z w);
  mret l.

Definition detach (l : nat) : eff unit :=
  b ← listener_of l;
  mine ← get (subscriber_bindings (l_subscriber b));
  if decide (jmap_get (l_id b) mine <> Some l) then mret tt
  else
    let rest := jmap_delete (l_id b) mine in
    _ ← modify (fun w => set_bySubscriber
          (if decide (rest = []) then jmap_delete (l_subscriber b) (bySubscriber w)
           else jmap_set (l_subscriber b) rest (bySubscriber w)) w);
    let e := l_entry b in
    _ ← update_entry e (fun x => set_listeners (filter (fun l' => l' <> l) (listeners x)) x);
    _ ← modify (fun w => set_queryListeners (queryListeners w - 1)%Z w);
    x ← entry_of e;
    _ ← match listeners x with
        | oldest :: _ => o ← listener_of oldest; update_entry e (set_ownerFairnessKey (l_fairnessKey o))
        | [] => mret tt
        end;
    if bool_decide (listeners x = []) && negb (removed x) && bool_decide (dormantAtMs x = None) then
      t ← readNow;
      _ ← update_entry e (set_dormantAtMs (Some t));
      modify (fun w => set_dormantEntries (dormantEntries w + 1)%Z w)
    else mret tt.

(** ** Entries *)

Definition removeEntry (e : nat) : eff unit :=
  x ← entry_of e;
  if removed x then mret tt
  else
    _ ← update_entry e (fun x => set_evaluationGeneration (evaluationGeneration x + 1)%Z (set_removed true x));
    _ ← modify (fun w => set_entries (jmap_delete (e_key x) (entries w)) w);
    _ ← when (bool_decide (dormantAtMs x <> None)) (modify (fun w => set_dormantEntries (dormantEntries w - 1)%Z w));
    _ ← when (bool_decide (evaluation x <> None))
          (_ ← update_entry e (set_evaluation None);
           modify (fun w => set_evaluatingEntries (evaluatingEntries w - 1)%Z w));
    _ ← modify (fun w => set_resultBytes (resultBytes w - e_resultBytes x)%Z w);
    _ ← modify (fun w => set_resume_history (History.clear e (resume_history w)) w);
    _ ← modify (fun w => set_deps (DependencyIndex.detach e (deps w)) w);
    for_each detach (listeners x).

(** Whether the entry may be evicted. *)
Definition idle (x : QueryEntry) : bool :=
  bool_decide (listeners x = []) && bool_decide (evaluation x = None).

Definition oldestDormant (exclude : option nat) (w : Reactive) : option nat :=
  fst <$> foldl (fun oldest '(_, e) =>
    match store w !! e with
    | Some x =>
        match dormantAtMs x with
        | Some t =>
            if bool_decide (Some e = exclude) || negb (idle x) then oldest
            else match oldest with
                 | None => Some (e, t)
                 | Some (_, t') => if decide (t < t')%Z then Some (e, t) else oldest
                 end
        | None => oldest
        end
    | None => oldest
    end) None (entries w).

Definition prune_at (t : Z) : eff Z :=
  _ ← windowed (fun h => h' ← History.prune (resume limits) t h; Some (Ret (tt, h')));
  copy ← get entries;
  foldl (fun m '(_, e) =>
    n ← m;
    x ← entry_of e;
    match dormantAtMs x with
    | Some d => if idle x && bool_decide (resume_maxAgeMs (resume limits) <= t - d)%Z
                then _ ← removeEntry e; mret (n + 1)%Z else mret n
    | None => mret n
    end) (mret 0%Z) copy.

Definition prune : eff Z := t ← readNow; prune_at t.

Definition overloaded_error (message : string) : js_error :=
  Acker (MkAckerDBError overloaded_ message true (Some (num_of_Z 0)) (Some subscription) false).
Definition unavailable_error (message : string) : js_error :=
  Acker (MkAckerDBError unavailable_ message false None (Some subscription) false).

(** Each turn of the loop removes an entry of the map. *)
Fixpoint evict_entries (fuel : nat) : eff unit :=
  n ← get (fun w => length (entries w));
  if decide (Z.of_nat n < maxSharedSubscriptions limits)%Z then mret tt
  else
    o ← get (oldestDormant None);
    match o, fuel with
    | Some e, S fuel => _ ← removeEntry e; evict_entries fuel
    | Some _, O => throw (PlainError "the loop does not end")
    | None, _ => throw (overloaded_error "Shared query entry capacity is full")
    end.

Definition makeEntryCapacity : eff unit :=
  n ← get (fun w => length (entries w));
  if decide (Z.of_nat n < maxSharedSubscriptions limits)%Z then mret tt
  else
    _ ← prune;
    n ← get (fun w => length (entries w));
    evict_entries n.

(** [Some message] when there is no capacity. *)
Fixpoint evict_results (fuel : nat) (e : nat) (nextBytes : Z) : eff (option string) :=
  x ← entry_of e;
  total ← get resultBytes;
  if decide (nextBytes <= maxSharedResultBytes limits - (total - e_resultBytes x))%Z then mret None
  else
    o ← get (oldestDormant (Some e));
    match o, fuel with
    | Some d, S fuel => _ ← removeEntry d; evict_results fuel e nextBytes
    | Some _, O => throw (PlainError "the loop does not end")
    | None, _ => mret (Some "Shared query result capacity is full")
    end.

Definition makeResultCapacity (e : nat) (nextBytes : Z) : eff (option string) :=
  if decide (maxFrameBytes limits < nextBytes)%Z then mret (Some "Query result exceeds maxFrameBytes")
  else if decide (maxSharedResultBytes limits < nextBytes)%Z then mret (Some "Shared query result capacity is full")
  else n ← get (fun w => length (entries w)); evict_results n e nextBytes.

Definition entryFor (o : QuerySubscription) : eff nat :=
  encodedArgs ← lift (stableEncode (o_args o));
  let key := MkKey (o_address o) encodedArgs (o_scope o) in
  existing ← get (fun w => jmap_get key (entries w));
  match existing with
  | Some e => mret e
  | None =>
      _ ← makeEntryCapacity;
      decoded ← lift (decode encodedArgs);
      g ← new_generation;
      e ← get (fun w => size (store w));
      _ ← modify (fun w => set_store (<[e := MkEntry key (digest key) decoded (key_bytes key) (o_fairnessKey o) (o_context o) g
            [] false VUndefined None VUndefined 0 0 0 0 None None false]> (store w)) w);
      _ ← modify (fun w => set_entries (jmap_set key e (entries w)) w);
      mret e
  end.

Definition cursor (x : QueryEntry) (authEpoch : num) : SubscriptionCursor :=
  MkCursor (e_generation x) (e_commitVersion x) authEpoch (e_identity x).

(** [===] on epochs, which are integers. *)
Definition same_epoch (a b : num) : bool := bool_decide (num_integer a = num_integer b).

Definition cursorEquals (l r : SubscriptionCursor) : bool :=
  bool_decide (generation l = generation r) && bool_decide (commitVersion l = commitVersion r) &&
  same_epoch (cur_authEpoch l) (cur_authEpoch r) && bool_decide (cur_identity l = cur_identity r).

Definition cursorBelongsTo (c : SubscriptionCursor) (x : QueryEntry) (authEpoch : num) : bool :=
  bool_decide (generation c = e_generation x) && bool_decide (cur_identity c = e_identity x) &&
  same_epoch (cur_authEpoch c) authEpoch.

(** ** Evaluations *)

Definition ensureCurrent (e : nat) (targetVersion : Z) : eff Awaited :=
  x ← entry_of e;
  if removed x then throw (unavailable_error "Subscription entry was evicted")
  else
    _ ← update_entry e (fun x => if decide (dirtyVersion x < targetVersion)%Z then set_dirtyVersion targetVersion x else x);
    if initialized x && bool_decide (targetVersion <= e_commitVersion x)%Z then mret Current
    else match evaluation x with
    | Some j => mret (Awaits j)
    | None =>
        j ← get (fun w => size (evaluations w));
        _ ← modify (fun w => set_evaluations
              (<[j := MkEvaluation e (ownerFairnessKey x) (context x) (initialized x) Queued]> (evaluations w)) w);
        _ ← update_entry e (set_evaluation (Some j));
        _ ← modify (fun w => set_evaluatingEntries (evaluatingEntries w + 1)%Z w);
        mret (Awaits j)
    end.

Record InstalledEvaluation : Type := MkInstalled {
  previousVersion : option Z; changed : bool; forceReset : bool;
  overflowedListeners : option (list nat * string) }.

Definition installEvaluation (e : nat) (v : QueryEvaluation) : eff InstalledEvaluation :=
  let bytes := text_bytes (v_encoded v) in
  overload ← makeResultCapacity e bytes;
  x ← entry_of e;
  match overload with
  | Some message =>
      if decide (listeners x = []) then _ ← removeEntry e; throw (overloaded_error message)
      else _ ← removeEntry e; mret (MkInstalled None false true (Some (listeners x, message)))
  | None =>
      let previous := if initialized x then Some (e_commitVersion x) else None in
      let changed := negb (initialized x) || negb (bool_decide (e_encoded x = v_encoded v)) ||
        negb (Bool.eqb (bool_decide (e_applicationError x = None)) (bool_decide (v_applicationError v = None))) in
      _ ← modify (fun w => set_deps (DependencyIndex.replace e (v_readSet v) (deps w)) w);
      _ ← modify (fun w => set_resultBytes (resultBytes w + (bytes - e_resultBytes x))%Z w);
      _ ← update_entry e (fun x => set_initialized true (set_e_commitVersion (v_commitVersion v)
            (set_e_resultBytes bytes (set_e_encoded (v_encoded v)
            (set_e_applicationError (v_applicationError v) (set_e_value (v_value v) x))))));
      reset ← match previous with
              | Some from =>
                  if decide (from < v_commitVersion v)%Z then
                    t ← readNow;
                    kept ← windowed (History.retain (resume limits) (MkRecord e from (v_commitVersion v)
                             (if changed then update_kind else checkpoint_kind)
                             (if changed then v_value v else VUndefined)
                             (if changed then v_applicationError v else None)
                             (if changed then bytes else 32%Z) t true));
                    if (kept : bool) then mret false
                    else g ← new_generation; _ ← update_entry e (set_e_generation g); mret true
                  else mret false
              | None => mret false
              end;
      mret (MkInstalled previous changed reset None)
  end.

(** ** Deliveries *)

(** The transitions of a chain of records. *)
Fixpoint chain_transitions (from : SubscriptionCursor) (c : list HistoryRecord) : list SubscriptionTransition :=
  match c with
  | [] => []
  | r :: c =>
      let to := MkCursor (generation from) (toVersion r) (cur_authEpoch from) (cur_identity from) in
      (match r_kind r, r_error r with
       | update_kind, None => TUpdate from to (r_value r)
       | update_kind, Some e => TApplicationError (Some from) to e
       | checkpoint_kind, _ => TCheckpoint from to
       end) :: chain_transitions to c
  end.

Definition reset_transition (x : QueryEntry) (from : option SubscriptionCursor) (to : SubscriptionCursor) : SubscriptionTransition :=
  match e_applicationError x with
  | None => TReset from to (e_value x)
  | Some e => TApplicationError from to e
  end.

(** [deliverQuery]: all it will send is fixed when it is called. *)
Definition deliverQuery (h : TransitionHistory) (x : QueryEntry) (b : QueryListener) (positiveResume forceReset : bool)
    : list SubscriptionTransition :=
  let target := cursor x (l_authEpoch b) in
  match l_cursor b with
  | Some from =>
      if cursorEquals from target then (if positiveResume then [TResume from target] else [])
      else
        match (if negb forceReset && cursorBelongsTo from x (l_authEpoch b)
               then History.chain h (l_entry b) (commitVersion from) (commitVersion target) else None) with
        | Some c => chain_transitions from c
        | None => [reset_transition x (Some from) target]
        end
  | None => [reset_transition x None target]
  end.
End reactive.
