(* ===== verification/ReactiveSteps.v ===== *)
(** The events of shared query subscriptions: the calls of the class
    [OrderedReactive] and the continuations of its asynchronous functions, one
    event for each stretch of code between two awaits. *)
From S2P Require Import Prelude Errors Limits Dll Publication Value Wire StableEncode Protocol DependencyIndex History Effects Reactive.
Local Open Scope string_scope.
Local Open Scope list_scope.

Section steps.
Context {options : ReactiveOptions}.

(** [try { m } catch (e) {}], with what happened. *)
Definition attempt {A} (m : eff A) : eff (exc js_error A) := fun w => let '(r, w) := m w in (Ret r, w).

(** ** Sending *)

Definition transition_to (t : SubscriptionTransition) : SubscriptionCursor :=
  match t with
  | TReset _ to _ | TUpdate _ to _ | TCheckpoint _ to | TResume _ to | TRevoked _ to _ | TApplicationError _ to _ => to
  end.

(** The work of a send: the message is handed over, and the cursor its success
    sets is known. A revocation starts from the listener's cursor. *)
Definition run_send (l : nat) (s : Send) : eff (option SubscriptionCursor) :=
  b ← listener_of l;
  let hand m := modify (fun w => set_outbox (outbox w ++ [(l_subscriber b, l_id b, m)]) w) in
  match s with
  | SendTransition t => _ ← hand (MTransition t); mret (Some (transition_to t))
  | SendError o => _ ← hand (MError o); mret None
  | SendRevocation epoch o =>
      match l_cursor b with
      | None => _ ← hand (MError o); mret None
      | Some from =>
          g ← new_generation;
          let to := MkCursor g (commitVersion from) epoch (cur_identity from) in
          _ ← hand (MTransition (TRevoked from to o)); mret (Some to)
      end
  end.

Definition delivery_of (d : nat) : eff Delivery :=
  o ← get (fun w => deliveries w !! d);
  match o with Some x => mret x | None => throw (TypeError "Cannot read properties of undefined") end.

(** The first of the waiting deliveries runs its send. *)
Definition start_send (l : nat) : eff unit :=
  b ← listener_of l;
  match waiting b with
  | [] => mret tt
  | d :: ds =>
      x ← delivery_of d;
      match d_sends x with
      | [] => mret tt
      | (_, s) :: _ =>
          r ← attempt (run_send l s);
          update_listener l (fun b => set_inflight (Some (d, r)) (set_waiting ds b))
      end
  end.

(** [sequence]: a send runs at once when nothing is before it. *)
Definition sequence (l d : nat) : eff unit :=
  b ← listener_of l;
  _ ← update_listener l (fun b => set_waiting (waiting b ++ [d]) b);
  when (bool_decide (inflight b = None) && bool_decide (waiting b = [])) (start_send l).

Definition set_phase_of (j : nat) (p : Phase) : eff unit := update_evaluation j (set_phase p).

Definition evaluation_of (j : nat) : eff Evaluation :=
  o ← get (fun w => evaluations w !! j);
  match o with Some x => mret x | None => throw (TypeError "Cannot read properties of undefined") end.

Definition subscribing_of (s : nat) : eff Subscribing :=
  o ← get (fun w => subscribing w !! s);
  match o with Some x => mret x | None => throw (TypeError "Cannot read properties of undefined") end.

Definition update_subscribing (s : nat) (f : Subscribing -> Subscribing) : eff unit :=
  modify (fun w => set_subscribing (alter f s (subscribing w)) w).

(** The outer handler of [subscribeQuery]. *)
Definition fail_subscribe (s : nat) (error : js_error) : eff unit :=
  a ← subscribing_of s;
  x ← entry_of (s_entry a);
  _ ← when (idle x && negb (initialized x)) (removeEntry (s_entry a));
  update_subscribing s (set_s_phase (SDone (Throw error))).

(** A delivery is over: who awaits it goes on. *)
Definition finish (o : Owner) (failed : option js_error) : eff unit :=
  match o with
  | OEvaluation j =>
      x ← evaluation_of j;
      match phase x with
      | Delivering (S n) => set_phase_of j (Delivering n)
      | NotifyingOverflow => set_phase_of j (Ended (Ret tt))
      | NotifyingFailure => set_phase_of j (Releasing (Ret tt))
      | _ => mret tt
      end
  | OSubscribe s =>
      match failed with
      | None => update_subscribing s (set_s_phase (SDone (Ret tt)))
      | Some error =>
          a ← subscribing_of s;
          _ ← match s_phase a with SDelivering l => detach l | _ => mret tt end;
          fail_subscribe s error
      end
  | ONobody => mret tt
  end.

Definition advance_delivery (d : nat) : eff unit :=
  x ← delivery_of d;
  match d_sends x with
  | (l, _) :: _ => sequence l d
  | [] => _ ← modify (fun w => set_deliveries (delete d (deliveries w)) w); finish (d_owner x) None
  end.

Definition new_delivery (o : Owner) (stop : bool) (sends : list (nat * Send)) : eff unit :=
  d ← get next_delivery;
  _ ← modify (fun w => set_next_delivery (S d) (set_deliveries (<[d := MkDelivery sends stop o]> (deliveries w)) w));
  advance_delivery d.

Definition deliver_query (o : Owner) (l : nat) (positiveResume forceReset : bool) : eff unit :=
  b ← listener_of l;
  x ← entry_of (l_entry b);
  h ← get resume_history;
  new_delivery o true ((fun t => (l, SendTransition t)) <$> deliverQuery h x b positiveResume forceReset).

(** The promise of a send settles, as the subscriber decides where the work did
    not throw. *)
Definition sent (l : nat) (failed : option js_error) : eff unit :=
  b ← listener_of l;
  match inflight b with
  | None => mret tt
  | Some (d, r) =>
      let failed := match r with Throw e => Some e | Ret _ => failed end in
      _ ← update_listener l (set_inflight None);
      _ ← match failed, r with
          | None, Ret (Some c) => update_listener l (set_l_cursor (Some c))
          | _, _ => mret tt
          end;
      x ← delivery_of d;
      _ ← match failed with
          | Some e =>
              if d_stop x then _ ← modify (fun w => set_deliveries (delete d (deliveries w)) w); finish (d_owner x) (Some e)
              else _ ← modify (fun w => set_deliveries (alter (fun x => set_d_sends (tail (d_sends x)) x) d (deliveries w)) w);
                   advance_delivery d
          | None => _ ← modify (fun w => set_deliveries (alter (fun x => set_d_sends (tail (d_sends x)) x) d (deliveries w)) w);
                    advance_delivery d
          end;
      b ← listener_of l;
      when (bool_decide (inflight b = None)) (start_send l)
  end.

(** ** Evaluating *)

(** [if (newest > entry.dirtyVersion) entry.dirtyVersion = newest], at the newest
    version there is. *)
Definition dirty_to_newest (e : nat) : eff unit :=
  newest ← highWaterMark;
  update_entry e (fun x => if decide (dirtyVersion x < newest)%Z then set_dirtyVersion newest x else x).

Definition assert_kept (e : nat) : eff unit :=
  x ← entry_of e;
  if removed x then throw (unavailable_error "Subscription entry was evicted") else mret tt.

Definition internal_error (message : string) : js_error := Acker (MkAckerDBError internal message false None None false).

(** [evaluateOnce], up to the evaluator. *)
Definition start_evaluation (j : nat) : eff unit :=
  a ← evaluation_of j;
  let e := j_entry a in
  x ← entry_of e;
  if negb (removed x) && (negb (initialized x) || bool_decide (e_commitVersion x < dirtyVersion x)%Z) then
    _ ← update_entry e (set_evaluationGeneration (evaluationGeneration x + 1)%Z);
    set_phase_of j (Evaluating (evaluationGeneration x + 1)%Z)
  else
    r ← attempt (assert_kept e);
    set_phase_of j (Ended r).

(** From the evaluator's answer to the deliveries. *)
Definition install (j e : nat) (gen : Z) (answer : exc js_error QueryExecution) : eff unit :=
  x ← lift answer;
  v ← lift (encode_execution x);
  _ ← (if decide (v_commitVersion v < 0)%Z then throw (internal_error "Query commit version is invalid") else mret tt);
  top ← highWaterMark;
  _ ← (if decide (top < v_commitVersion v)%Z then throw (internal_error "Query observed a future commit") else mret tt);
  installed ← compare_and_install (v_commitVersion v)
    (x ← entry_of e;
     if removed x || negb (bool_decide (evaluationGeneration x = gen)) then mret None
     else i ← installEvaluation e v; mret (Some i));
  match installed with
  | Some (Some i) =>
      match overflowedListeners i with
      | Some (ls, message) =>
          _ ← set_phase_of j NotifyingOverflow;
          new_delivery (OEvaluation j) false ((fun l => (l, SendError (overloadOutcome message))) <$> ls)
      | None =>
          x ← entry_of e;
          match previousVersion i with
          | None => set_phase_of j (Delivering 0)
          | Some _ =>
              _ ← set_phase_of j (Delivering (length (listeners x)));
              for_each (fun l => deliver_query (OEvaluation j) l false (forceReset i)) (listeners x)
          end
      end
  | _ =>
      _ ← dirty_to_newest e;
      _ ← assert_kept e;
      set_phase_of j (Ended (Ret tt))
  end.

Definition answer_evaluation (j : nat) (answer : exc js_error QueryExecution) : eff unit :=
  a ← evaluation_of j;
  match phase a with
  | Evaluating gen =>
      r ← attempt (install j (j_entry a) gen answer);
      match r with Ret _ => mret tt | Throw error => set_phase_of j (Ended (Throw error)) end
  | _ => mret tt
  end.

Definition delivered (j : nat) : eff unit :=
  a ← evaluation_of j;
  match phase a with
  | Delivering 0 =>
      r ← attempt (_ ← dirty_to_newest (j_entry a); assert_kept (j_entry a));
      set_phase_of j (Ended r)
  | _ => mret tt
  end.

(** The handler of a failed execution, with [failEntry]. *)
Definition failEntry (j e : nat) (error : js_error) : eff unit :=
  x ← entry_of e;
  if removed x then set_phase_of j (Releasing (Ret tt))
  else
    _ ← removeEntry e;
    w ← get id;
    let outcome := errorOutcome error in
    _ ← set_phase_of j NotifyingFailure;
    new_delivery (OEvaluation j) false
      ((fun l => (l, if isAuthFailure outcome
                     then SendRevocation (default NNaN (l_authEpoch <$> bindings w !! l)) outcome
                     else SendError outcome)) <$> listeners x).

Definition settle_evaluation (j : nat) : eff unit :=
  a ← evaluation_of j;
  let e := j_entry a in
  match phase a with
  | Ended (Ret _) => set_phase_of j (Releasing (Ret tt))
  | Ended (Throw error) =>
      x ← entry_of e;
      if negb (wasInitialized a) then _ ← removeEntry e; set_phase_of j (Releasing (Throw error))
      else if decide (listeners x = []) then _ ← removeEntry e; set_phase_of j (Releasing (Ret tt))
      else failEntry j e error
  | _ => mret tt
  end.

Definition release (j e : nat) : eff unit :=
  x ← entry_of e;
  _ ← when (bool_decide (evaluation x = Some j))
        (_ ← update_entry e (set_evaluation None);
         modify (fun w => set_evaluatingEntries (evaluatingEntries w - 1)%Z w));
  when (bool_decide (listeners x = []) && initialized x && bool_decide (dormantAtMs x = None))
    (t ← readNow;
     _ ← update_entry e (set_dormantAtMs (Some t));
     modify (fun w => set_dormantEntries (dormantEntries w + 1)%Z w)).

Definition release_evaluation (j : nat) : eff unit :=
  a ← evaluation_of j;
  let e := j_entry a in
  match phase a with
  | Releasing result =>
      r ← attempt
        (_ ← release j e;
         _ ← set_phase_of j (Settled result);
         x ← entry_of e;
         match result with
         | Throw error => throw error
         | Ret _ => if negb (removed x) && bool_decide (e_commitVersion x < dirtyVersion x)%Z
                    then ensureCurrent e (dirtyVersion x) else mret Current
         end);
      set_phase_of j (match r with Ret Current => Settled (Ret tt) | Ret (Awaits n) => Following n | Throw error => Settled (Throw error) end)
  | _ => mret tt
  end.

Definition follow (j : nat) : eff unit :=
  a ← evaluation_of j;
  match phase a with
  | Following n => b ← evaluation_of n; match phase b with Settled r => set_phase_of j (Settled r) | _ => mret tt end
  | _ => mret tt
  end.

(** ** Subscribing *)

Definition subscribeQuery (o : QuerySubscription) : eff unit :=
  _ ← lift (assertAuthEpoch (o_authEpoch o));
  _ ← assertSubscriptionIdentity (o_subscriber o) (o_id o);
  e ← entryFor o;
  x ← entry_of e;
  _ ← update_entry e (set_context (o_context o));
  _ ← when (bool_decide (listeners x = [])) (update_entry e (set_ownerFairnessKey (o_fairnessKey o)));
  s ← get (fun w => size (subscribing w));
  _ ← modify (fun w => set_subscribing (<[s := MkSubscribing o e (SWaiting Current)]> (subscribing w)) w);
  r ← attempt (top ← highWaterMark; ensureCurrent e top);
  match r with
  | Ret a => update_subscribing s (set_s_phase (SWaiting a))
  | Throw error => fail_subscribe s error
  end.

(** What the awaited promise gives, once it is settled. *)
Definition awaited (a : Awaited) (w : Reactive) : option (exc js_error unit) :=
  match a with
  | Current => Some (Ret tt)
  | Awaits j => match phase <$> evaluations w !! j with Some (Settled r) => Some r | _ => None end
  end.

(** The loop of [subscribeQuery], from one wait for the entry to the next. *)
Definition install_listener (s : nat) : eff unit :=
  a ← subscribing_of s;
  let o := s_options a in
  let e := s_entry a in
  x ← entry_of e;
  installed ← compare_and_install (e_commitVersion x)
    (x ← entry_of e;
     if removed x then mret None
     else
       id ← assertSubscriptionIdentity (o_subscriber o) (o_id o);
       l ← attach (MkListener (o_subscriber o) id e (o_fairnessKey o) (o_authEpoch o) (o_cursor o) None []);
       mret (Some l));
  match installed with
  | Some (Some l) =>
      _ ← update_subscribing s (set_s_phase (SDelivering l));
      deliver_query (OSubscribe s) l true false
  | _ =>
      x ← entry_of e;
      e ← (if removed x then entryFor o else mret e);
      _ ← update_subscribing s (set_s_entry e);
      top ← highWaterMark;
      a ← ensureCurrent e top;
      update_subscribing s (set_s_phase (SWaiting a))
  end.

Definition resume_subscribe (s : nat) : eff unit :=
  a ← subscribing_of s;
  match s_phase a with
  | SWaiting p =>
      ready ← get (awaited p);
      match ready with
      | None => mret tt
      | Some (Throw error) => fail_subscribe s error
      | Some (Ret _) =>
          r ← attempt (install_listener s);
          match r with Ret _ => mret tt | Throw error => fail_subscribe s error end
      end
  | _ => mret tt
  end.

Definition unsubscribe (subscriber : nat) (id : Z) : eff unit :=
  mine ← get (subscriber_bindings subscriber);
  match jmap_get id mine with Some l => detach l | None => mret tt end.

Definition disconnect (subscriber : nat) : eff unit :=
  mine ← get (subscriber_bindings subscriber);
  for_each detach mine.*2.

Definition reset (subscriber : nat) (id : Z) (from : SubscriptionCursor) : eff unit :=
  mine ← get (subscriber_bindings subscriber);
  match jmap_get id mine with
  | None => throw (Acker (MkAckerDBError not_found "Subscription is not active" false None None false))
  | Some l =>
      b ← listener_of l;
      x ← entry_of (l_entry b);
      new_delivery ONobody true [(l, SendTransition (TReset (Some from) (cursor x (l_authEpoch b)) (e_value x)))]
  end.

(** The query subscriptions of a subscriber that a write affects. *)
Definition affectedQueryIds (subscriber : nat) (keys : gset string) (w : Reactive) : list Z :=
  let affected := DependencyIndex.affected keys (index (deps w)) in
  merge_sort Z.le (omap (fun '(id, l) => b ← bindings w !! l; if decide (l_entry b ∈ affected) then Some id else None)
    (subscriber_bindings subscriber w)).

Definition queryIds (subscriber : nat) (w : Reactive) : list Z := merge_sort Z.le (subscriber_bindings subscriber w).*1.

(** ** Publishing *)

Definition processPublication (version : Z) (c : ReactiveCommit) : eff unit :=
  w ← get id;
  for_each (fun e =>
    x ← entry_of e;
    if removed x || bool_decide (version <= e_commitVersion x)%Z then mret tt
    else
      _ ← update_entry e (fun x => if decide (dirtyVersion x < version)%Z then set_dirtyVersion version x else x);
      _ ← ensureCurrent e version;
      mret tt) (elements (DependencyIndex.affected (writeKeys c) (index (deps w)))).

(** The microtask of the publication's pump. *)
Definition process : eff unit :=
  p ← get publication;
  match microtask p with
  | None => mret tt
  | Some s =>
      _ ← modify (set_publication (begin s p));
      match p_slots p !! s with
      | Some slot =>
          match Publication.value slot with
          | Some c =>
              r ← attempt (processPublication (version slot) c);
              modify (fun w => set_publication
                (answered s (match r with Ret _ => Handoff | Throw e => Throws (Some e) end) (publication w)) w)
          | None => mret tt
          end
      | None => mret tt
      end
  end.

(** ** Runs *)

Inductive ReactiveEvent : Type :=
  | ESubscribe (o : QuerySubscription)
  | EResume (s : nat)
  | EStart (j : nat)
  | ERefuse (j : nat) (error : js_error)  (* the executor does not admit the evaluation *)
  | EEvaluated (j : nat) (answer : exc js_error QueryExecution)
  | EDelivered (j : nat)
  | ESettled (j : nat)
  | EReleased (j : nat)
  | EFollowed (j : nat)
  | ESent (l : nat) (failed : option js_error)
  | EUnsubscribe (subscriber : nat) (id : Z)
  | EDisconnect (subscriber : nat)
  | EResetRequest (subscriber : nat) (id : Z) (from : SubscriptionCursor)
  | EPrune
  | EProcess
  | EWriter (e : Publication.Event ReactiveCommit).  (* the writer's calls, and settled handoffs *)

(** What the coordinator and the event loop do to the publication besides. *)
Definition writer_event (e : Publication.Event ReactiveCommit) : bool :=
  match e with EBegin | EAnswer _ => false | _ => true end.

Definition handle (e : ReactiveEvent) : eff unit :=
  match e with
  | ESubscribe o => subscribeQuery o
  | EResume s => resume_subscribe s
  | EStart j => a ← evaluation_of j; match phase a with Queued => start_evaluation j | _ => mret tt end
  | ERefuse j error => a ← evaluation_of j; match phase a with Queued => set_phase_of j (Ended (Throw error)) | _ => mret tt end
  | EEvaluated j answer => answer_evaluation j answer
  | EDelivered j => delivered j
  | ESettled j => settle_evaluation j
  | EReleased j => release_evaluation j
  | EFollowed j => follow j
  | ESent l failed => sent l failed
  | EUnsubscribe subscriber id => unsubscribe subscriber id
  | EDisconnect subscriber => disconnect subscriber
  | EResetRequest subscriber id from => reset subscriber id from
  | EPrune => _ ← prune; mret tt
  | EProcess => process
  | EWriter e =>
      p ← get publication;
      match (if writer_event e then Publication.step e p else None) with
      | Some p => modify (set_publication p)
      | None => mret tt
      end
  end.

Definition react (w : Reactive) (e : ReactiveEvent) : Reactive := (handle e w).2.
Definition run (w : Reactive) (es : list ReactiveEvent) : Reactive := foldl react w es.

Definition new_OrderedReactive (p : OrderedPublication ReactiveCommit) : Reactive :=
  MkReactive p ∅ [] DependencyIndex.new_Store [] ∅ 0 0 0 0 new_TransitionHistory ∅ ∅ 0 ∅ 0 0 [].
End steps.
