(* ===== verification/ReactiveInv.v ===== *)
(** Invariants of shared query subscriptions, against an oracle of what queries
    show: what each step of the class changes, and what it leaves as it was. *)
From S2P Require Import Prelude Errors Limits Dll Publication PublicationInv PublicationContract Value Wire StableEncode Protocol DependencyIndex History HistoryProps Effects Observations Reactive ReactiveSteps.
Local Open Scope Z_scope.

Section inv.
Context {options : ReactiveOptions} (Q : string -> Z -> Observation).
Implicit Types (w : Reactive) (x : QueryEntry) (st : gmap nat QueryEntry).

Definition record_ok (id : string) (r : HistoryRecord) : Prop :=
  0 <= r_bytes r /\
  match r_kind r with
  | update_kind => shows Q id (toVersion r) (outcome_of (r_value r) (r_error r))
  | checkpoint_kind => unchanged Q id (fromVersion r) (toVersion r)
  end.

(** ** The invariants *)

Definition dense {A} (m : gmap nat A) : Prop := forall k, is_Some (m !! k) <-> (k < size m)%nat.

(** An evaluation that has not given up its entry. *)
Definition under_way (p : Phase) : bool :=
  match p with Following _ | Settled _ => false | _ => true end.

Record entry_ok (p : OrderedPublication ReactiveCommit) x : Prop := {
  eo_versions : 0 <= e_commitVersion x <= committedHighWater p /\ dirtyVersion x <= committedHighWater p;
  eo_covered : initialized x = true -> forall v, e_commitVersion x < v <= startedHighWater p -> v ∈ (p_log p).*1;
  eo_fresh : initialized x = false -> e_value x = VUndefined /\ e_applicationError x = None;
  eo_shows : initialized x = true ->
    shows Q (e_identity x) (e_commitVersion x) (outcome_of (e_value x) (e_applicationError x)) /\
    e_encoded x = ob_encoded (Q (e_identity x) (e_commitVersion x));
  eo_error : e_applicationError x <> None -> e_value x = VUndefined;
  eo_gone : removed x = true -> evaluation x = None;
}.

Definition good_publication (p : OrderedPublication ReactiveCommit) : Prop := pub_ok p /\ 0 <= committedHighWater p.

(** [D] are the entries that the publication being processed has still to mark,
    [E] those that are about to be evaluated again. *)
Record main (D E : gset nat) (p : OrderedPublication ReactiveCommit) (st : gmap nat QueryEntry) (d : DependencyIndex.Store (K := string))
    (ev : gmap nat Evaluation) : Prop := {
  mi_pub : good_publication p;
  mi_store : dense st;
  mi_evaluations : dense ev;
  mi_entry e x : st !! e = Some x -> entry_ok p x;
  mi_tracked : exists live, tracked d live /\
    (forall e, e ∈ live <-> exists x, st !! e = Some x /\ initialized x = true /\ removed x = false);
  mi_unread e : (forall x, st !! e = Some x -> initialized x = false) -> readSets d !! e = None;
  mi_reads e x : st !! e = Some x -> initialized x = true ->
    readSet e d = ob_reads (Q (e_identity x) (e_commitVersion x));
  mi_fresh e x v c : st !! e = Some x -> initialized x = true -> removed x = false ->
    (v, Some c) ∈ p_log p -> e_commitVersion x < v ->
    writeKeys c ## readSet e d \/ v <= dirtyVersion x \/ (e ∈ D /\ v = startedHighWater p);
  mi_dirty e x : st !! e = Some x -> initialized x = true -> removed x = false -> e ∉ E ->
    e_commitVersion x < dirtyVersion x -> evaluation x <> None;
  mi_evaluation e x j : st !! e = Some x -> evaluation x = Some j ->
    exists a, ev !! j = Some a /\ j_entry a = e /\ under_way (phase a) = true;
  mi_job j a : ev !! j = Some a -> exists x, st !! j_entry a = Some x /\
    (under_way (phase a) = true -> removed x = true \/ evaluation x = Some j) /\
    (match phase a with Releasing (Throw _) => removed x = true | _ => True end);
}.

Definition history_ok st (h : TransitionHistory) : Prop :=
  exists ps, hist_repr h ps /\ within (resume limits) ps.*2 /\
    forall r, r ∈ ps.*2 -> exists x, st !! r_entry r = Some x /\ record_ok (e_identity x) r.

Definition sends_ok (ds : gmap nat Delivery) (out : list (nat * Z * Message)) : Prop :=
  (forall d (y : Delivery) l t, ds !! d = Some y -> (l, SendTransition t) ∈ d_sends y -> valid_transition Q t) /\
  (forall s i t, (s, i, MTransition t) ∈ out -> valid_transition Q t).

(** Listeners have an entry. *)
Definition listeners_ok st (bs : gmap nat QueryListener) : Prop :=
  forall l b, bs !! l = Some b -> is_Some (st !! l_entry b).

Record inv_ex (D E : gset nat) w : Prop := {
  inv_main : main D E (publication w) (store w) (deps w) (evaluations w);
  inv_history : history_ok (store w) (resume_history w);
  inv_sends : sends_ok (deliveries w) (outbox w);
  inv_listeners : listeners_ok (store w) (bindings w);
}.

(** ** Frames *)

(** An entry up to what the invariants do not read. *)
Definition core_of x : QueryEntry :=
  set_listeners [] (set_dormantAtMs None (set_ownerFairnessKey EmptyString (set_context 0%nat x))).

Definition same_store st st' : Prop := forall e, core_of <$> st !! e = core_of <$> st' !! e.

#[export] Instance same_store_equiv : Equivalence same_store.
Proof. split; [by intros st e|by intros st st' H e|intros a b c H H' e; by rewrite H]. Qed.

Lemma same_store_lookup st st' e x : same_store st st' -> st !! e = Some x ->
  exists x', st' !! e = Some x' /\ core_of x = core_of x'.
Proof.
  intros H Hx. specialize (H e). rewrite Hx in H. destruct (st' !! e) as [x'|]; [|done]. exists x'. split; [done|]. by apply (inj Some) in H.
Qed.

Lemma core_fields x x' : core_of x = core_of x' ->
  e_key x = e_key x' /\ e_identity x = e_identity x' /\ e_generation x = e_generation x' /\ initialized x = initialized x' /\
  e_value x = e_value x' /\ e_applicationError x = e_applicationError x' /\ e_encoded x = e_encoded x' /\
  e_commitVersion x = e_commitVersion x' /\ dirtyVersion x = dirtyVersion x' /\
  evaluationGeneration x = evaluationGeneration x' /\ evaluation x = evaluation x' /\ removed x = removed x'.
Proof.
  intros H. split_and!;
    [apply (f_equal e_key) in H|apply (f_equal e_identity) in H|apply (f_equal e_generation) in H
    |apply (f_equal initialized) in H|apply (f_equal e_value) in H|apply (f_equal e_applicationError) in H
    |apply (f_equal e_encoded) in H|apply (f_equal e_commitVersion) in H|apply (f_equal dirtyVersion) in H
    |apply (f_equal evaluationGeneration) in H|apply (f_equal evaluation) in H|apply (f_equal removed) in H]; exact H.
Qed.

Lemma entry_ok_core p x x' : core_of x = core_of x' -> entry_ok p x -> entry_ok p x'.
Proof.
  intros (_ & Hi & _ & Hn & Hv & Ha & He & Hc & Hd & _ & Hev & Hr)%core_fields []. split; congruence || (rewrite <- ?Hi, <- ?Hn, <- ?Hv, <- ?Ha, <- ?He, <- ?Hc, <- ?Hd, <- ?Hev, <- ?Hr; done).
Qed.

Record same w w' : Prop := {
  sm_publication : publication w = publication w';
  sm_store : same_store (store w) (store w');
  sm_deps : deps w = deps w';
  sm_evaluations : evaluations w = evaluations w';
  sm_history : resume_history w = resume_history w';
  sm_deliveries : deliveries w = deliveries w';
  sm_outbox : outbox w = outbox w';
  sm_bindings l b' : bindings w' !! l = Some b' -> exists b, bindings w !! l = Some b /\ l_entry b = l_entry b';
}.

#[export] Instance same_preorder : PreOrder same.
Proof.
  split; [intros w; split; eauto; done|]. intros a b c [? ? ? ? ? ? ? Hb] [? ? ? ? ? ? ? Hb'].
  split; [congruence|by transitivity (store b)|congruence..|].
  intros l y Hy. destruct (Hb' l y Hy) as (y' & Hy' & <-). apply (Hb l y' Hy').
Qed.

Lemma same_dense st st' : same_store st st' -> dense st -> dense st'.
Proof.
  intros H Hd. assert (Hdom : dom st = dom st').
  { apply set_eq. intros k. rewrite !elem_of_dom. specialize (H k).
    destruct (st !! k), (st' !! k); try discriminate H; split; intros [? ?]; eauto; done. }
  intros k. rewrite <- elem_of_dom, <- Hdom, elem_of_dom, <- !size_dom, <- Hdom, size_dom. apply Hd.
Qed.

Lemma main_same D E p st st' d ev : same_store st st' -> main D E p st d ev -> main D E p st' d ev.
Proof.
  intros H [Hp Hs He Hent (live & Ht & Hl) Hu Hr Hf Hdy Hev Hj].
  assert (Hback : forall e x', st' !! e = Some x' -> exists x, st !! e = Some x /\ core_of x = core_of x').
  { intros e x' Hx'. destruct (same_store_lookup st' st e x') as (x & ? & ?); [by symmetry|done|]. by exists x. }
  split; try done.
  - by eapply same_dense.
  - intros e x' Hx'. destruct (Hback e x' Hx') as (x & Hx & Hc). eapply entry_ok_core; eauto.
  - exists live. split; [done|]. intros e. rewrite Hl. split.
    + intros (x & Hx & Hi & Hm). destruct (same_store_lookup _ _ _ _ H Hx) as (x' & Hx' & Hc).
      apply core_fields in Hc. exists x'. naive_solver congruence.
    + intros (x' & Hx' & Hi & Hm). destruct (Hback e x' Hx') as (x & Hx & Hc).
      apply core_fields in Hc. exists x. naive_solver congruence.
  - intros e Hx. apply Hu. intros x Hx0. destruct (same_store_lookup _ _ _ _ H Hx0) as (x' & Hx' & Hc).
    apply core_fields in Hc. specialize (Hx _ Hx'). naive_solver congruence.
  - intros e x' Hx' Hi. destruct (Hback e x' Hx') as (x & Hx & Hc). apply core_fields in Hc.
    destruct Hc as (_ & <- & _ & Hi' & _ & _ & _ & <- & _). apply Hr; congruence.
  - intros e x' v c Hx' Hi Hm Hlog Hlt. destruct (Hback e x' Hx') as (x & Hx & Hc). apply core_fields in Hc.
    destruct Hc as (_ & _ & _ & Hi' & _ & _ & _ & Hcv & <- & _ & _ & Hm'). apply (Hf e x v c); congruence.
  - intros e x' Hx' Hi Hm HE Hlt. destruct (Hback e x' Hx') as (x & Hx & Hc). apply core_fields in Hc.
    destruct Hc as (_ & _ & _ & Hi' & _ & _ & _ & Hcv & Hdv & _ & <- & Hm'). apply (Hdy e x Hx); congruence.
  - intros e x' j Hx' Hj'. destruct (Hback e x' Hx') as (x & Hx & Hc). apply core_fields in Hc.
    apply (Hev e x j); [done|]. naive_solver congruence.
  - intros j a Ha. destruct (Hj j a Ha) as (x & Hx & Hw & Hph).
    destruct (same_store_lookup _ _ _ _ H Hx) as (x' & Hx' & Hc). apply core_fields in Hc.
    destruct Hc as (_ & _ & _ & _ & _ & _ & _ & _ & _ & _ & He' & Hm). rewrite He', Hm in *. eauto.
Qed.

Lemma history_same st st' h : same_store st st' -> history_ok st h -> history_ok st' h.
Proof.
  intros H (ps & Hp & Hw & Hr). exists ps. split_and!; [done..|]. intros r Hin.
  destruct (Hr r Hin) as (x & Hx & Hok). destruct (same_store_lookup _ _ _ _ H Hx) as (x' & Hx' & Hc).
  exists x'. split; [done|]. by apply core_fields in Hc as (_ & <- & _).
Qed.

Lemma listeners_same st st' bs : same_store st st' -> listeners_ok st bs -> listeners_ok st' bs.
Proof.
  intros H Hb l b Hl. destruct (Hb l b Hl) as [x Hx]. destruct (same_store_lookup _ _ _ _ H Hx) as (x' & ? & _). eauto.
Qed.

Lemma inv_same D E w w' : same w w' -> inv_ex D E w -> inv_ex D E w'.
Proof.
  intros [Hp Hs Hd He Hh Hds Ho Hb] [Hm Hhist Hsend Hl]. split.
  - rewrite <- Hp, <- Hd, <- He. by eapply main_same.
  - rewrite <- Hh. by eapply history_same.
  - by rewrite <- Hds, <- Ho.
  - eapply listeners_same; [exact Hs|]. intros l b Hlb. destruct (Hb l b Hlb) as (b' & Hb' & <-). eauto.
Qed.

(** ** Computations that keep all that the invariants read *)

Definition framed {A} (m : eff A) : Prop := forall w, same w (m w).2.

Lemma framed_ret {A} (a : A) : framed (mret a).
Proof. by intros w. Qed.
Lemma framed_throw {A} err : framed (throw err : eff A).
Proof. by intros w. Qed.
Lemma framed_lift {A} (m : exc js_error A) : framed (lift m).
Proof. by intros w. Qed.
Lemma framed_get {A} (f : Reactive -> A) : framed (get f).
Proof. by intros w. Qed.
Lemma framed_modify f : (forall w, same w (f w)) -> framed (modify f).
Proof. intros H w. apply H. Qed.
Lemma framed_bind {A B} (m : eff A) (k : A -> eff B) : framed m -> (forall a, framed (k a)) -> framed (m ≫= k).
Proof.
  intros Hm Hk w. unfold mbind, eff_bind. specialize (Hm w). destruct (m w) as [[a|err] w']; [|done].
  cbn in Hm. etransitivity; [exact Hm|apply Hk].
Qed.
Lemma framed_when b m : framed m -> framed (when b m).
Proof. destruct b; [done|intros _; apply framed_ret]. Qed.
Lemma framed_attempt {A} (m : eff A) : framed m -> framed (attempt m).
Proof. intros H w. specialize (H w). unfold attempt. by destruct (m w). Qed.
Lemma framed_for_each {A} (f : A -> eff unit) l : (forall a, framed (f a)) -> framed (for_each f l).
Proof. intros H. induction l as [|a l IH]; cbn; [apply framed_ret|by apply framed_bind]. Qed.

Lemma framed_entry_of e : framed (entry_of e).
Proof. apply framed_bind; [apply framed_get|]. intros [x|]; [apply framed_ret|apply framed_throw]. Qed.
Lemma framed_listener_of l : framed (listener_of l).
Proof. apply framed_bind; [apply framed_get|]. intros [x|]; [apply framed_ret|apply framed_throw]. Qed.

Lemma same_store_alter st e f : (forall x, core_of (f x) = core_of x) -> same_store st (alter f e st).
Proof.
  intros H e'. destruct (decide (e = e')) as [->|Hne]; [|by rewrite lookup_alter_ne].
  rewrite lookup_alter_eq. destruct (st !! e') as [x|]; [|done]. cbn. by rewrite H.
Qed.

Lemma framed_update_entry e f : (forall x, core_of (f x) = core_of x) -> framed (update_entry e f).
Proof. intros H w. split; cbn; eauto; try done. by apply same_store_alter. Qed.

Lemma framed_update_listener l f : (forall b, l_entry (f b) = l_entry b) -> framed (update_listener l f).
Proof.
  intros H w. split; cbn; try done. intros k b'. rewrite lookup_alter. case_decide as Hk; [subst|by eauto].
  destruct (bindings w !! k) as [b|]; cbn; [|discriminate]. intros [= <-]. eauto.
Qed.

End inv.

(** The same but for fields that do not matter. *)
Ltac same_fields := intros; split; cbn; first [done | reflexivity | solve [eauto]].

Ltac frame :=
  repeat first
    [ progress intros
    | apply framed_ret | apply framed_throw | apply framed_lift | apply framed_get
    | apply framed_entry_of | apply framed_listener_of
    | apply framed_update_entry; intros; reflexivity
    | apply framed_update_listener; intros; reflexivity
    | apply framed_modify; solve [same_fields]
    | apply framed_when | apply framed_attempt | apply framed_for_each
    | apply framed_bind
    | match goal with |- framed (match ?m with _ => _ end) => destruct m end
    | match goal with |- framed (if ?m then _ else _) => destruct m end ].

Section removal.
Context {options : ReactiveOptions} (Q : string -> Z -> Observation).
Implicit Types (w : Reactive) (x : QueryEntry) (st : gmap nat QueryEntry).

Lemma framed_readNow : framed readNow.
Proof. unfold readNow, clock_reading. apply framed_bind; [same_fields|]; frame. Qed.
Lemma framed_new_generation : framed new_generation.
Proof. unfold new_generation, nextGeneration. apply framed_bind; [same_fields|]; frame. Qed.
Lemma framed_highWaterMark : framed highWaterMark.
Proof. unfold highWaterMark, clock_reading. apply framed_bind; [same_fields|]; frame. Qed.
Lemma framed_assertSubscriptionIdentity s i : framed (assertSubscriptionIdentity s i).
Proof. unfold assertSubscriptionIdentity. frame. Qed.

Lemma framed_detach l : framed (detach l).
Proof. unfold detach. frame. Qed.
(** ** Removing an entry *)

Definition gone x : QueryEntry :=
  set_evaluation None (set_evaluationGeneration (evaluationGeneration x + 1) (set_removed true x)).

Record removal (e : nat) w w' : Prop := {
  rm_publication : publication w = publication w';
  rm_store : same_store (alter gone e (store w)) (store w');
  rm_deps : deps w' = DependencyIndex.detach e (deps w);
  rm_evaluations : evaluations w = evaluations w';
  rm_history : resume_history w' = History.clear e (resume_history w);
  rm_deliveries : deliveries w = deliveries w';
  rm_outbox : outbox w = outbox w';
  rm_bindings l b' : bindings w' !! l = Some b' -> exists b, bindings w !! l = Some b /\ l_entry b = l_entry b';
}.

Lemma removal_same e w w1 w2 : removal e w w1 -> same w1 w2 -> removal e w w2.
Proof.
  intros [? ? ? ? ? ? ? Hb] [? ? ? ? ? ? ? Hb']. split; [congruence|by etransitivity|congruence..|].
  intros l y Hy. destruct (Hb' l y Hy) as (y' & Hy' & <-). apply (Hb l y' Hy').
Qed.

Lemma entry_of_bind {A} e x w (k : QueryEntry -> eff A) : store w !! e = Some x -> (entry_of e ≫= k) w = k x w.
Proof. intros Hx. unfold entry_of, mbind, eff_bind, get. by rewrite Hx. Qed.

Lemma run_update_entry {A} e f w (k : unit -> eff A) :
  (update_entry e f ≫= k) w = k tt (set_store (alter f e (store w)) w).
Proof. done. Qed.

Lemma entry_of_missing {A} e w (k : QueryEntry -> eff A) : store w !! e = None ->
  (entry_of e ≫= k) w = (Throw (TypeError "Cannot read properties of undefined"%string), w).
Proof. intros Hx. unfold entry_of, mbind, eff_bind, get. by rewrite Hx. Qed.

Lemma removeEntry_removal e x w : store w !! e = Some x -> removed x = false -> removal e w (removeEntry e w).2.
Proof.
  intros Hx Hr. unfold removeEntry. rewrite (entry_of_bind _ _ _ _ Hx), Hr.
  assert (Hb : forall w', bindings w' = bindings w -> forall l b', bindings w' !! l = Some b' ->
    exists b, bindings w !! l = Some b /\ l_entry b = l_entry b') by (intros w' ->; eauto).
  unfold mbind, eff_bind, update_entry, modify, when.
  case_bool_decide as Hd; case_bool_decide as He; cbn -[for_each];
    (eapply removal_same; [|apply framed_for_each; intros; apply framed_detach]; split; cbn; try done);
    try (by apply Hb).
  all: intros e'; rewrite !lookup_alter; case_decide; [subst e'; rewrite Hx|done]; cbn.
  all: rewrite ?decide_True by done; try done.
  all: assert (Hn : evaluation x = None) by (destruct (evaluation x); naive_solver).
  all: clear He Hb Hx; destruct x; cbn in *; by subst.
Qed.

(** ** The invariants after a removal *)

Lemma dense_alter {A} (m : gmap nat A) e f : dense m -> dense (alter f e m).
Proof.
  intros H k. assert (Hs : size (alter f e m) = size m).
  { rewrite <- !size_dom. by rewrite dom_alter_L. }
  rewrite Hs, <- elem_of_dom, dom_alter_L, elem_of_dom. apply H.
Qed.

Lemma readSets_detach e (d : DependencyIndex.Store (K := string)) : readSets (DependencyIndex.detach e d) = readSets d.
Proof. done. Qed.

Lemma main_removal D E p st d ev e x : main Q D E p st d ev -> st !! e = Some x -> removed x = false ->
  main Q D E p (alter gone e st) (DependencyIndex.detach e d) ev.
Proof.
  intros [Hp Hs Hev Hent (live & Ht & Hl) Hu Hr Hf Hdy Hevn Hj] Hx Hrm.
  assert (Hother : forall e' y, alter gone e st !! e' = Some y ->
    exists y0, st !! e' = Some y0 /\ ((e' = e /\ y = gone y0) \/ (e' <> e /\ y = y0))).
  { intros e' y. rewrite lookup_alter. case_decide as He; [subst e'|eauto].
    rewrite Hx. cbn. intros [= <-]. eauto. }
  split; try done.
  - by apply dense_alter.
  - intros e' y Hy. destruct (Hother e' y Hy) as (y0 & Hy0 & [[-> ->]|[Hne ->]]); [|by eapply Hent].
    destruct (Hent _ _ Hy0). split; cbn; naive_solver.
  - exists (live ∖ {[e]}). split; [by apply tracked_detach|]. intros e'. rewrite elem_of_difference, Hl, elem_of_singleton.
    split.
    + intros [(y & Hy & Hi & Hm) Hne]. exists y. by rewrite lookup_alter_ne.
    + intros (y & Hy & Hi & Hm). destruct (Hother e' y Hy) as (y0 & Hy0 & [[-> ->]|[Hne ->]]); [done|]. eauto.
  - intros e' He'. rewrite readSets_detach. apply Hu. intros y Hy.
    destruct (decide (e' = e)) as [->|Hne].
    + specialize (He' (gone y)). rewrite lookup_alter_eq, Hy in He'. cbn in He'. by apply He'.
    + apply He'. by rewrite lookup_alter_ne.
  - intros e' y Hy. destruct (Hother e' y Hy) as (y0 & Hy0 & [[-> ->]|[Hne ->]]); [apply (Hr e y0 Hy0)|by apply Hr].
  - intros e' y v c Hy Hi Hm. destruct (Hother e' y Hy) as (y0 & Hy0 & [[-> ->]|[Hne ->]]); [done|].
    by apply (Hf e' y0).
  - intros e' y Hy Hi Hm HE Hlt. destruct (Hother e' y Hy) as (y0 & Hy0 & [[-> ->]|[Hne ->]]); [done|]. by apply (Hdy e' y0).
  - intros e' y j Hy Hj'. destruct (Hother e' y Hy) as (y0 & Hy0 & [[-> ->]|[Hne ->]]); [done|]. by apply (Hevn e' y0).
  - intros j a Ha. destruct (Hj j a Ha) as (y & Hy & Hw & Hph).
    destruct (decide (j_entry a = e)) as [He|Hne].
    + exists (gone y). rewrite He in *. rewrite lookup_alter_eq, Hy. split_and!; [done|by left|].
      cbn. by destruct (phase a) as [| | | |?| |[]| |].
    + exists y. by rewrite lookup_alter_ne.
Qed.

Lemma inv_removal D E e x w w' :
  inv_ex Q D E w -> store w !! e = Some x -> removed x = false -> removal e w w' -> inv_ex Q D E w'.
Proof.
  intros [Hm (ps & Hps & Hw & Hrec) Hs Hl] Hx Hrm [Hp Hst Hd Hev Hh Hds Ho Hb].
  assert (Hidx : forall e' y, store w !! e' = Some y -> exists y', store w' !! e' = Some y' /\ e_identity y' = e_identity y).
  { intros e' y Hy. destruct (same_store_lookup (alter gone e (store w)) (store w') e'
        (if decide (e = e') then gone y else y) Hst) as (y' & Hy' & Hc).
    - rewrite lookup_alter. case_decide; [subst e'; by rewrite Hy|done].
    - exists y'. split; [done|]. apply core_fields in Hc as (_ & <- & _). by case_decide. }
  split.
  - rewrite <- Hp, Hd, <- Hev. eapply main_same; [exact Hst|by eapply main_removal].
  - rewrite Hh. destruct (clear_repr_list _ _ e Hps) as (ps' & Hps' & Heq). exists ps'. split_and!; [done| |].
    + rewrite Heq. eapply within_sublist; [exact Hw|apply sublist_filter].
    + rewrite Heq. intros r [_ Hr]%list_elem_of_filter. destruct (Hrec r Hr) as (y & Hy & Hok).
      destruct (Hidx _ _ Hy) as (y' & Hy' & Hi). exists y'. by rewrite Hi.
  - by rewrite <- Hds, <- Ho.
  - intros l b' Hb'. destruct (Hb l b' Hb') as (b & Hb0 & <-). destruct (Hl l b Hb0) as [y Hy].
    destruct (Hidx _ _ Hy) as (y' & Hy' & _). eauto.
Qed.
End removal.
