(* ===== verification/ReactiveKeep.v ===== *)
(** The handlers of shared query subscriptions keep the invariants. *)
From S2P Require Import Prelude Errors Limits Dll Publication PublicationInv PublicationContract Value Wire StableEncode Protocol DependencyIndex History HistoryProps Effects Observations Reactive ReactiveSteps ReactiveInv.
Local Open Scope Z_scope.

Section keep.
Context {options : ReactiveOptions} (Q : string -> Z -> Observation).
Implicit Types (w : Reactive) (x : QueryEntry) (st : gmap nat QueryEntry).
Abbreviation inv := (inv_ex Q ∅ ∅).

Definition keeps {A} (m : eff A) : Prop := forall w, inv w -> inv (m w).2.

Lemma keeps_framed {A} (m : eff A) : framed m -> keeps m.
Proof. intros H w Hi. eapply inv_same; [apply H|done]. Qed.

Lemma keeps_inv_bind {A B} (m : eff A) (k : A -> eff B) : keeps m -> (forall a, keeps (k a)) -> keeps (m ≫= k).
Proof.
  intros Hm Hk w Hi. unfold mbind, eff_bind. specialize (Hm w Hi). destruct (m w) as [[a|err] w']; [|done].
  by apply Hk.
Qed.

Lemma inv_bind {A B} (m : eff A) (k : A -> eff B) w : inv (m w).2 -> (forall a, keeps (k a)) -> inv ((m ≫= k) w).2.
Proof. intros Hm Hk. rewrite run_bind. destruct (m w) as [[a|err] w']; [by apply Hk|done]. Qed.

Lemma keeps_removeEntry e : keeps (removeEntry e).
Proof.
  intros w Hi. destruct (store w !! e) as [x|] eqn:Hx.
  - destruct (removed x) eqn:Hr; [unfold removeEntry; by rewrite (entry_of_bind _ _ _ _ Hx), Hr|].
    eapply inv_removal; eauto using removeEntry_removal.
  - unfold removeEntry. by rewrite entry_of_missing.
Qed.

(** ** The resume window *)

Lemma history_sublist st h h' ps ps' :
  hist_repr h ps -> within (resume limits) ps.*2 ->
  (forall r, r ∈ ps.*2 -> exists x, st !! r_entry r = Some x /\ record_ok Q (e_identity x) r) ->
  hist_repr h' ps' -> ps'.*2 `sublist_of` ps.*2 -> history_ok Q st h'.
Proof.
  intros _ Hw Hr Hp' Hsub. exists ps'. split_and!; [done|by eapply within_sublist|].
  intros r Hin. apply Hr. by eapply sublist_subseteq.
Qed.

Lemma history_prune st h t : history_ok Q st h ->
  exists h', History.prune (resume limits) t h = Some h' /\ history_ok Q st h'.
Proof.
  intros (ps & Hps & Hw & Hr). destruct (prune_repr (resume limits) t h ps Hps) as (h' & ps' & -> & Hps' & E).
  exists h'. split; [done|]. apply (history_sublist st h h' ps ps'); try done. rewrite E. apply suffix_sublist, drop_expired_suffix.
Qed.

Lemma inv_set_history w h : inv w -> history_ok Q (store w) h -> inv (set_resume_history h w).
Proof. intros [? ? ? ?] Hh. by split. Qed.

Lemma keeps_windowed_prune t :
  keeps (windowed (fun h => h' ← History.prune (resume limits) t h; Some (Ret (tt, h')))).
Proof.
  intros w Hi. unfold windowed. destruct (history_prune _ _ t (inv_history _ _ _ _ Hi)) as (h' & -> & Hh). cbn.
  by apply inv_set_history.
Qed.

(** ** Capacity *)

Lemma keeps_prune_at t : keeps (prune_at t).
Proof.
  unfold prune_at. apply keeps_inv_bind; [apply keeps_windowed_prune|]. intros _.
  apply keeps_inv_bind; [apply keeps_framed, framed_get|]. intros copy.
  assert (Hg : forall m, keeps m -> keeps (foldl (fun m '(_, e) =>
    n ← m; x ← entry_of e;
    match dormantAtMs x with
    | Some d => if idle x && bool_decide (resume_maxAgeMs (resume limits) <= t - d)%Z
                then _ ← removeEntry e; mret (n + 1)%Z else mret n
    | None => mret n
    end) m copy)).
  { induction copy as [|[k e] copy IH]; intros m Hm; cbn [foldl]; [done|]. apply IH.
    apply keeps_inv_bind; [done|]. intros n. apply keeps_inv_bind; [apply keeps_framed, framed_entry_of|]. intros x.
    destruct (dormantAtMs x); [|apply keeps_framed, framed_ret]. destruct (_ && _); [|apply keeps_framed, framed_ret].
    apply keeps_inv_bind; [apply keeps_removeEntry|]. intros _. apply keeps_framed, framed_ret. }
  apply Hg, keeps_framed, framed_ret.
Qed.

Lemma keeps_prune : keeps prune.
Proof. apply keeps_inv_bind; [apply keeps_framed, framed_readNow|]. intros t. apply keeps_prune_at. Qed.

Lemma keeps_evict_entries fuel : keeps (evict_entries fuel).
Proof.
  induction fuel as [|fuel IH]; cbn [evict_entries]; apply keeps_inv_bind; try (apply keeps_framed, framed_get); intros n;
    case_decide; try (apply keeps_framed, framed_ret); apply keeps_inv_bind; try (apply keeps_framed, framed_get);
    intros [e|]; try (apply keeps_framed, framed_throw).
  apply keeps_inv_bind; [apply keeps_removeEntry|done].
Qed.

Lemma keeps_makeEntryCapacity : keeps makeEntryCapacity.
Proof.
  apply keeps_inv_bind; [apply keeps_framed, framed_get|]. intros n. case_decide; [apply keeps_framed, framed_ret|].
  apply keeps_inv_bind; [apply keeps_prune|]. intros _. apply keeps_inv_bind; [apply keeps_framed, framed_get|].
  intros n'. apply keeps_evict_entries.
Qed.

(** What the making of room for an entry leaves of it. *)
Record undisturbed (e : nat) w w' : Prop := {
  ud_publication : publication w = publication w';
  ud_entry : core_of <$> store w !! e = core_of <$> store w' !! e;
  ud_deliveries : deliveries w = deliveries w';
  ud_outbox : outbox w = outbox w';
}.

#[export] Instance undisturbed_preorder e : PreOrder (undisturbed e).
Proof. split; [by intros w; split|]. intros a b c [] []. split; congruence. Qed.

Lemma oldestDormant_other e w d : oldestDormant (Some e) w = Some d -> d <> e.
Proof.
  unfold oldestDormant. intros H. apply fmap_Some in H as ([d' t] & H & ->). cbn. revert H.
  assert (Hg : forall l acc, (forall d t, acc = Some (d, t) -> d <> e) -> forall d t,
    foldl (fun (oldest : option (nat * Z)) '((_, e0) : EntryKey * nat) =>
      match store w !! e0 with
      | Some x => match dormantAtMs x with
                  | Some t => if bool_decide (Some e0 = Some e) || negb (idle x) then oldest
                              else match oldest with
                                   | None => Some (e0, t)
                                   | Some (_, t') => if decide (t < t')%Z then Some (e0, t) else oldest
                                   end
                  | None => oldest
                  end
      | None => oldest
      end) acc l = Some (d, t) -> d <> e).
  { induction l as [|[k e0] l IH]; intros acc Ha d0 t0; cbn [foldl]; [apply Ha|]. apply IH.
    intros d1 t1. destruct (store w !! e0) as [x|]; [|apply Ha]. destruct (dormantAtMs x) as [t2|]; [|apply Ha].
    case_bool_decide as He; cbn [orb]; [apply Ha|]. destruct (negb (idle x)); [apply Ha|].
    destruct acc as [[d2 t3]|]; [case_decide; [|apply Ha]|]; intros [= <- <-] ->; by apply He. }
  intros H. eapply Hg; [|exact H]. discriminate.
Qed.

Lemma removal_undisturbed d e w w' : d <> e -> removal d w w' -> undisturbed e w w'.
Proof.
  intros Hne [? Hs ? ? ? ? ? ?]. split; try done. specialize (Hs e). by rewrite lookup_alter_ne in Hs.
Qed.

Lemma evict_results_spec fuel e n : forall w, inv w -> let w' := (evict_results fuel e n w).2 in inv w' /\ undisturbed e w w'.
Proof.
  induction fuel as [|fuel IH]; intros w Hi; cbn [evict_results];
    (destruct (store w !! e) as [x|] eqn:Hx; [rewrite (entry_of_bind _ _ _ _ Hx)|by rewrite entry_of_missing]);
    rewrite run_get; (case_decide; [done|]); rewrite run_get; destruct (oldestDormant (Some e) w) as [d|] eqn:Hd; try done.
  pose proof (keeps_removeEntry d w Hi) as Hi'.
  assert (Hu : undisturbed e w (removeEntry d w).2).
  { destruct (store w !! d) as [y|] eqn:Hy.
    - destruct (removed y) eqn:Hr; [unfold removeEntry; by rewrite (entry_of_bind _ _ _ _ Hy), Hr|].
      eapply removal_undisturbed; [by eapply oldestDormant_other|by eapply removeEntry_removal].
    - unfold removeEntry. by rewrite entry_of_missing. }
  rewrite run_bind. destruct (removeEntry d w) as [[[]|err] w1]; cbn in *; [|done].
  destruct (IH w1 Hi'). split; [done|]. by transitivity w1.
Qed.

Lemma makeResultCapacity_spec e n w : inv w -> let w' := (makeResultCapacity e n w).2 in inv w' /\ undisturbed e w w'.
Proof.
  intros Hi. unfold makeResultCapacity. repeat case_decide; try done.
  rewrite run_get. by apply evict_results_spec.
Qed.
(** ** Changing one entry *)

Lemma dense_insert_new {A} (m : gmap nat A) y : dense m -> dense (<[size m := y]> m).
Proof.
  intros H k. assert (Hn : m !! size m = None).
  { destruct (m !! size m) eqn:E; [|done]. assert (size m < size m)%nat by (apply H; eauto). lia. }
  rewrite map_size_insert_None by done. rewrite lookup_insert. case_decide as Hk; [subst; split; [lia|eauto]|].
  pose proof (H k) as [H1 H2]. split; [intros Hs; specialize (H1 Hs); lia|intros Hlt; apply H2; lia].
Qed.

Lemma log_bounded (p : OrderedPublication ReactiveCommit) v c : good_publication p -> (v, c) ∈ p_log p -> v <= committedHighWater p.
Proof.
  intros [(init & vs & rs & cs & [Hc _ _ _ _]) _] Hin.
  assert (Hv : v ∈ (p_log p).*1) by (apply elem_of_fst; eauto).
  rewrite (core_log _ _ _ _ _ Hc), elem_of_seqZ in Hv. pose proof (core_high _ _ _ _ _ Hc). lia.
Qed.

Lemma started_committed (p : OrderedPublication ReactiveCommit) : good_publication p -> startedHighWater p <= committedHighWater p.
Proof. intros [(init & vs & rs & cs & [Hc _ _ _ _]) _]. apply (core_high _ _ _ _ _ Hc). Qed.

Definition installed_entry x (v : QueryEvaluation) (bytes : Z) : QueryEntry :=
  set_initialized true (set_e_commitVersion (v_commitVersion v) (set_e_resultBytes bytes (set_e_encoded (v_encoded v)
    (set_e_applicationError (v_applicationError v) (set_e_value (v_value v) x))))).

(** The evaluator tells what the oracle shows. *)
Definition evaluates (id : string) (v : QueryEvaluation) : Prop :=
  shows Q id (v_commitVersion v) (outcome_of (v_value v) (v_applicationError v)) /\
  (v_applicationError v <> None -> v_value v = VUndefined) /\
  Q id (v_commitVersion v) = MkObservation (v_encoded v) (negb (bool_decide (v_applicationError v = None))) (v_readSet v).

Lemma alter_cases st e (f : QueryEntry -> QueryEntry) e' y x : st !! e = Some x -> alter f e st !! e' = Some y ->
  (e' = e /\ y = f x) \/ (e' <> e /\ st !! e' = Some y).
Proof.
  intros Hx. rewrite lookup_alter. case_decide as He; [subst e'; rewrite Hx; cbn; intros [= <-]; by left|by right].
Qed.

(** A change of one entry that the evaluations, and whether it is tracked, do
    not see. *)
Lemma main_alter D E (p : OrderedPublication ReactiveCommit) st d ev e x f :
  main Q D E p st d ev -> st !! e = Some x ->
  initialized (f x) = initialized x -> removed (f x) = removed x -> e_identity (f x) = e_identity x ->
  e_commitVersion (f x) = e_commitVersion x -> evaluation (f x) = evaluation x -> dirtyVersion x <= dirtyVersion (f x) ->
  entry_ok Q p (f x) ->
  (e ∉ E -> initialized x = true -> removed x = false -> e_commitVersion x < dirtyVersion (f x) -> evaluation x <> None) ->
  main Q D E p (alter f e st) d ev.
Proof.
  intros [Hp Hs Hev Hent (live & Ht & Hl) Hu Hr Hf Hdirty Hevn Hj] Hx Hi Hrm Hid Hcv Hevx Hdy Hok Hnew.
  assert (Hlk : forall e', alter f e st !! e' = if decide (e = e') then Some (f x) else st !! e').
  { intros e'. rewrite lookup_alter. case_decide; [subst; by rewrite Hx|done]. }
  split; try done.
  - by apply dense_alter.
  - intros e' y Hy. destruct (alter_cases _ _ _ _ _ _ Hx Hy) as [[-> ->]|[_ Hy']]; eauto.
  - exists live. split; [done|]. intros e'. rewrite Hl, Hlk. case_decide as He; [subst e'|done].
    split; intros (y & Hy & Hiy & Hry); [exists (f x)|exists x]; rewrite ?Hx in *; simplify_eq; split_and!; congruence.
  - intros e' He'. apply Hu. intros y Hy. specialize (He' (if decide (e = e') then f x else y)).
    rewrite Hlk in He'. case_decide as He; [subst e'; simplify_eq; rewrite <- Hi|]; by apply He'.
  - intros e' y Hy Hiy. destruct (alter_cases _ _ _ _ _ _ Hx Hy) as [[-> ->]|[_ Hy']]; [|by apply Hr].
    rewrite Hid, Hcv. apply Hr; congruence.
  - intros e' y v c Hy Hiy Hry Hin Hlt. destruct (alter_cases _ _ _ _ _ _ Hx Hy) as [[-> ->]|[_ Hy']]; [|by eapply Hf].
    rewrite Hcv in Hlt. destruct (Hf e x v c Hx) as [?|[?|?]]; [congruence..|done|done|by left|right; left; lia|by right; right].
  - intros e' y Hy Hiy Hry HE Hlt. destruct (alter_cases _ _ _ _ _ _ Hx Hy) as [[-> ->]|[_ Hy']]; [|by eapply Hdirty].
    rewrite Hevx. apply Hnew; congruence.
  - intros e' y j Hy Hyj. destruct (alter_cases _ _ _ _ _ _ Hx Hy) as [[-> ->]|[_ Hy']]; [|by eapply Hevn].
    apply (Hevn e x j Hx). congruence.
  - intros j a Ha. destruct (Hj j a Ha) as (y & Hy & Hw & Hph). rewrite Hlk.
    case_decide as He; [|by exists y]. rewrite <- He in Hy. simplify_eq. exists (f x). rewrite Hrm, Hevx. done.
Qed.

(** A result is installed at the newest version. *)
Lemma main_install D E (p : OrderedPublication ReactiveCommit) st d ev e x v bytes :
  main Q D E p st d ev -> st !! e = Some x -> removed x = false -> evaluation x <> None ->
  0 <= v_commitVersion v -> v_commitVersion v = committedHighWater p -> evaluates (e_identity x) v ->
  main Q D E p (alter (fun x => installed_entry x v bytes) e st) (DependencyIndex.replace e (v_readSet v) d) ev.
Proof.
  intros [Hp Hs Hev Hent (live & Ht & Hl) Hu Hr Hf Hdirty Hevn Hj] Hx Hrm Hevx H0 Htop (Hsh & Herr & HQ).
  assert (Hlk : forall e', alter (fun x => installed_entry x v bytes) e st !! e' =
    if decide (e = e') then Some (installed_entry x v bytes) else st !! e').
  { intros e'. rewrite lookup_alter. case_decide; [subst; by rewrite Hx|done]. }
  destruct (Hent e x Hx) as [[Hcv Hdy] _ _ _ _ _]. pose proof (started_committed _ Hp) as Hst. split; try done.
  - by apply dense_alter.
  - intros e' y Hy. destruct (alter_cases _ _ _ _ _ _ Hx Hy) as [[-> ->]|[_ Hy']]; [|by eapply Hent].
    split; cbn; [lia|lia|done| |done|congruence]. intros _. split; [exact Hsh|]. by rewrite HQ.
  - exists ({[e]} ∪ live). split.
    + apply tracked_replace; [done|]. destruct (initialized x) eqn:Hi.
      * left. apply Hl. eauto.
      * right. apply Hu. intros y Hy. by simplify_eq.
    + intros e'. rewrite elem_of_union, elem_of_singleton, Hl, Hlk. split.
      * intros [->|(y & Hy & Hiy & Hry)].
        -- rewrite decide_True by done. by eexists.
        -- case_decide as He; [|by exists y]. subst e'. eexists. split; [done|]. by simplify_eq.
      * case_decide as He; [by left|]. intros H. by right.
  - intros e' He'. assert (Hne : e' <> e).
    { intros ->. specialize (He' (installed_entry x v bytes)). rewrite Hlk, decide_True in He' by done. by specialize (He' eq_refl). }
    unfold DependencyIndex.replace. cbn [readSets]. rewrite lookup_insert_ne by done.
    apply Hu. intros y Hy. apply He'. rewrite Hlk. by rewrite decide_False by done.
  - intros e' y Hy Hiy. rewrite readSet_replace.
    destruct (alter_cases _ _ _ _ _ _ Hx Hy) as [[-> ->]|[Hne Hy']].
    + rewrite decide_True by done. cbn. by rewrite HQ.
    + rewrite decide_False by done. by apply Hr.
  - intros e' y v' c Hy Hiy Hry Hin Hlt. destruct (alter_cases _ _ _ _ _ _ Hx Hy) as [[-> ->]|[Hne Hy']].
    + cbn in Hlt. pose proof (log_bounded _ _ _ Hp Hin). lia.
    + rewrite readSet_replace, decide_False by done. by eapply Hf.
  - intros e' y Hy Hiy Hry HE Hlt. destruct (alter_cases _ _ _ _ _ _ Hx Hy) as [[-> ->]|[_ Hy']]; [done|by eapply Hdirty].
  - intros e' y j Hy Hyj. destruct (alter_cases _ _ _ _ _ _ Hx Hy) as [[-> ->]|[_ Hy']]; [|by eapply Hevn].
    by apply (Hevn e x j Hx).
  - intros j a Ha. destruct (Hj j a Ha) as (y & Hy & Hw & Hph). rewrite Hlk.
    case_decide as He; [|by exists y]. rewrite <- He in Hy. simplify_eq. by exists (installed_entry x v bytes).
Qed.
Lemma history_alter st e x f h : st !! e = Some x -> e_identity (f x) = e_identity x ->
  history_ok Q st h -> history_ok Q (alter f e st) h.
Proof.
  intros Hx Hid (ps & Hps & Hw & Hr). exists ps. split_and!; [done..|]. intros r Hin.
  destruct (Hr r Hin) as (y & Hy & Hok). rewrite lookup_alter. case_decide as He; [|by exists y].
  rewrite He, Hy. rewrite <- He in Hy. simplify_eq. exists (f x). by rewrite Hid.
Qed.

Lemma listeners_alter st e f bs : listeners_ok st bs -> listeners_ok (alter f e st) bs.
Proof.
  intros H l b Hb. destruct (H l b Hb) as [y Hy]. rewrite lookup_alter. case_decide as He; [|by eexists].
  rewrite He, Hy. by eexists.
Qed.

Lemma inv_alter w e x f :
  inv w -> store w !! e = Some x ->
  initialized (f x) = initialized x -> removed (f x) = removed x -> e_identity (f x) = e_identity x ->
  e_commitVersion (f x) = e_commitVersion x -> evaluation (f x) = evaluation x -> dirtyVersion x <= dirtyVersion (f x) ->
  entry_ok Q (publication w) (f x) ->
  (initialized x = true -> removed x = false -> e_commitVersion x < dirtyVersion (f x) -> evaluation x <> None) ->
  inv (set_store (alter f e (store w)) w).
Proof.
  intros [Hm Hh Hs Hl] Hx ? ? Hid ? ? ? ? ?. split; cbn.
  - by apply (main_alter _ _ _ _ _ _ _ x).
  - by apply (history_alter _ _ x).
  - done.
  - by apply listeners_alter.
Qed.

Lemma alter_missing {A} (m : gmap nat A) k f : m !! k = None -> alter f k m = m.
Proof.
  intros Hk. apply map_eq. intros i. rewrite lookup_alter. case_decide as He; [subst; by rewrite Hk|done].
Qed.

Lemma keeps_generation e g : keeps (update_entry e (set_e_generation g)).
Proof.
  intros w Hi. unfold update_entry, modify. cbn. pose proof (inv_main _ _ _ _ Hi) as Hm.
  destruct (store w !! e) as [x|] eqn:Hx; [|rewrite alter_missing by done; by destruct w].
  apply (inv_alter w e x); try done.
  - destruct (mi_entry _ _ _ _ _ _ _ Hm e x Hx). by split.
  - intros. by apply (mi_dirty _ _ _ _ _ _ _ Hm e x).
Qed.

Lemma record_of_install p e x v bytes t :
  entry_ok Q p x -> initialized x = true -> evaluates (e_identity x) v -> 0 <= bytes ->
  let changed := negb (initialized x) || negb (bool_decide (e_encoded x = v_encoded v)) ||
        negb (Bool.eqb (bool_decide (e_applicationError x = None)) (bool_decide (v_applicationError v = None))) in
  record_ok Q (e_identity x) (MkRecord e (e_commitVersion x) (v_commitVersion v)
    (if changed then update_kind else checkpoint_kind) (if changed then v_value v else VUndefined)
    (if changed then v_applicationError v else None) (if changed then bytes else 32) t true).
Proof.
  intros [_ _ _ Hshows _ _] Hi (Hsh & _ & HQ) Hb changed. unfold record_ok. cbn.
  destruct changed eqn:Ec; (split; [lia|]); cbn; [done|].
  destruct (Hshows Hi) as [[_ Hfl] He]. unfold changed in Ec. rewrite Hi in Ec. cbn [negb orb] in Ec.
  apply orb_false_iff in Ec as [Ee Ef]. apply negb_false_iff, bool_decide_eq_true in Ee.
  apply negb_false_iff, eqb_prop in Ef. unfold unchanged. rewrite <- He, <- Hfl, Ee, HQ. cbn. split; [done|].
  unfold outcome_of. destruct (e_applicationError x), (v_applicationError v); cbn in *; try done;
    repeat case_bool_decide; try done.
Qed.

Context (Hlimits : HistoryProps.limits_ok (resume limits)) (Htext : forall v, 0 <= text_bytes v).

Lemma history_retain st h r x : history_ok Q st h -> st !! r_entry r = Some x -> record_ok Q (e_identity x) r ->
  active r = true ->
  exists b h', History.retain (resume limits) r h = Some (Ret (b, h')) /\ history_ok Q st h'.
Proof.
  intros (ps & Hps & Hw & Hr) Hx Hok Ha.
  destruct (retain_repr (resume limits) r h ps Hlimits Hps Ha) as (b & h' & ps' & -> & Hps' & E).
  exists b, h'. split; [done|]. exists ps'. split_and!; [done| |].
  - apply (f_equal snd) in E. cbn in E. rewrite E. apply retained_within; [done|apply Hok|done].
  - intros r' Hin. apply (f_equal snd) in E. cbn in E. rewrite E in Hin. unfold retained in Hin.
    assert (Hd : forall r', r' ∈ drop_expired (resume limits) (createdAtMs r) ps.*2 -> r' ∈ ps.*2).
    { intros r0. apply sublist_subseteq, suffix_sublist, drop_expired_suffix. }
    case_decide; cbn in Hin.
    + apply list_elem_of_filter in Hin as [_ Hin]. auto.
    + apply elem_of_app in Hin as [Hin|Hin]; [|apply list_elem_of_singleton in Hin as ->; eauto].
      apply Hr, Hd. eapply sublist_subseteq; [apply trim_stream_sublist|].
      eapply sublist_subseteq; [apply suffix_sublist, trim_ring_suffix|exact Hin].
Qed.

Lemma installEvaluation_inv e x v w :
  inv w -> store w !! e = Some x -> removed x = false -> evaluation x <> None ->
  0 <= v_commitVersion v -> v_commitVersion v = committedHighWater (publication w) -> evaluates (e_identity x) v ->
  inv (installEvaluation e v w).2.
Proof.
  intros Hi Hx Hrm Hev H0 Htop Hv. unfold installEvaluation. rewrite run_bind.
  destruct (makeResultCapacity_spec e (text_bytes (v_encoded v)) w Hi) as [Hi1 [Hp Hc _ _]].
  destruct (makeResultCapacity e _ w) as [[[message|]|err] w1]; cbn [snd] in *; [| |done];
    rewrite Hx in Hc; destruct (store w1 !! e) as [x1|] eqn:Hx1; try discriminate Hc;
    cbn in Hc; apply (inj Some), core_fields in Hc;
    destruct Hc as (_ & Hid & _ & Hini & _ & _ & _ & _ & _ & _ & Hev1 & Hrm1);
    rewrite (entry_of_bind _ _ _ _ Hx1).
  - case_decide; (apply keeps_inv_bind; [apply keeps_removeEntry| |done]); intros _; [apply keeps_framed, framed_throw|apply keeps_framed, framed_ret].
  - rewrite Hid in Hv. rewrite Hrm in Hrm1. rewrite Hev1 in Hev. rewrite Hp in Htop.
    cbv beta iota zeta. set (changed := negb (initialized x1) || _ || _). set (bytes := text_bytes (v_encoded v)).
    rewrite !run_modify, run_update_entry.
    match goal with |- inv ((_ ≫= _) ?s).2 => set (w2 := s) end. assert (Hi2 : inv w2 /\ store w2 !! e = Some (installed_entry x1 v bytes)).
    { split; [|change (alter (fun x => installed_entry x v bytes) e (store w1) !! e = Some (installed_entry x1 v bytes));
        by rewrite lookup_alter_eq, Hx1]. destruct Hi1 as [Hm Hh Hs Hl]. split; cbn.
      - by apply (main_install _ _ _ _ _ _ _ x1).
      - by apply (history_alter _ _ x1).
      - done.
      - by apply listeners_alter. }
    destruct Hi2 as [Hi2 Hx2]. clearbody w2.
    apply inv_bind; [|intros; apply keeps_framed, framed_ret].
    destruct (initialized x1) eqn:Hini1; [|done]. case_decide as Hlt; [|done].
    rewrite run_bind. pose proof (framed_readNow w2) as Hf. destruct (readNow w2) as [[t|err] w3]; cbn [snd] in *;
      [|by eapply inv_same].
    pose proof (inv_same _ _ _ _ _ Hf Hi2) as Hi3.
    destruct (same_store_lookup _ _ _ _ (sm_store _ _ Hf) Hx2) as (x3 & Hx3 & (_ & Hid3 & _)%core_fields).
    assert (Hok1 : entry_ok Q (publication w1) x1).
    { apply (mi_entry _ _ _ _ _ _ _ (inv_main _ _ _ _ Hi1) e x1 Hx1). }
    pose proof (record_of_install (publication w1) e x1 v bytes t Hok1 Hini1 Hv (Htext _)) as Hrec.
    cbv zeta in Hrec. rewrite Hini1 in Hrec. fold changed in Hrec.
    destruct (history_retain (store w3) (resume_history w3) (MkRecord e (e_commitVersion x1) (v_commitVersion v)
      (if changed then update_kind else checkpoint_kind) (if changed then v_value v else VUndefined)
      (if changed then v_applicationError v else None) (if changed then bytes else 32) t true) x3
      (inv_history _ _ _ _ Hi3) Hx3) as (b & h & Hret & Hh); [rewrite <- Hid3; exact Hrec|done|].
    rewrite run_bind. unfold windowed. rewrite Hret. pose proof (inv_set_history _ _ Hi3 Hh) as Hi4.
    destruct b; [done|]. apply keeps_inv_bind; [apply keeps_framed, framed_new_generation| |done].
    intros g. apply keeps_inv_bind; [apply keeps_generation|]. intros; apply keeps_framed, framed_ret.
Qed.
End keep.
