(* ===== verification/ReactiveEvents.v ===== *)
(** Every event of shared query subscriptions keeps the invariants. *)
From S2P Require Import Prelude Errors Limits Dll Publication PublicationInv PublicationContract Value Wire StableEncode Protocol DependencyIndex History HistoryProps Effects Observations Reactive ReactiveSteps ReactiveInv ReactiveKeep.
Local Open Scope Z_scope.

Section events.
Context {options : ReactiveOptions} (Q : string -> Z -> Observation).
Implicit Types (w : Reactive) (x : QueryEntry) (st : gmap nat QueryEntry).
Abbreviation inv := (inv_ex Q ∅ ∅).
Abbreviation keeps := (keeps Q).

Create HintDb frames.
#[local] Hint Resolve framed_ret framed_throw framed_lift framed_get framed_entry_of framed_listener_of framed_readNow
  framed_new_generation framed_highWaterMark framed_detach : frames.

Ltac keeps_frame := apply keeps_framed; auto with frames.

(** ** Evaluations *)

Lemma dense_alter_phase (ev : gmap nat Evaluation) j p : dense ev -> dense (alter (set_phase p) j ev).
Proof. apply dense_alter. Qed.

(** An evaluation moves on. *)
Lemma main_phase D E p st d ev j a ph :
  main Q D E p st d ev -> ev !! j = Some a ->
  (under_way ph = true -> under_way (phase a) = true) ->
  (under_way ph = false -> forall e x, st !! e = Some x -> evaluation x <> Some j) ->
  (match ph with Releasing (Throw _) => forall x, st !! j_entry a = Some x -> removed x = true | _ => True end) ->
  main Q D E p st d (alter (set_phase ph) j ev).
Proof.
  intros [Hp Hs Hev Hent Hl Hu Hr Hf Hdirty Hevn Hj] Ha Hup Hdown Hrel.
  assert (Hlk : forall j', alter (set_phase ph) j ev !! j' = if decide (j = j') then Some (set_phase ph a) else ev !! j').
  { intros j'. rewrite lookup_alter. case_decide; [subst; by rewrite Ha|done]. }
  split; try done.
  - by apply dense_alter.
  - intros e x j' Hx Hxj. rewrite Hlk. destruct (Hevn e x j' Hx Hxj) as (b & Hb & He & Hw).
    case_decide as Hjj; [|by exists b]. subst j'. simplify_eq. exists (set_phase ph a). split_and!; [done..|].
    cbn. destruct (under_way ph) eqn:Eu; [done|]. exfalso. by eapply Hdown.
  - intros j' b. rewrite Hlk. case_decide as Hjj; [|by apply Hj]. subst j'. intros [= <-]. cbn.
    destruct (Hj j a Ha) as (x & Hx & Hw & _). exists x. split_and!; [done|auto|].
    destruct ph as [| | | | | |[]| |]; try done. by apply Hrel.
Qed.

(** An entry without an evaluation is submitted for one. *)
Lemma main_submit D E p st d ev e x f job :
  main Q D E p st d ev -> st !! e = Some x -> evaluation x = None -> removed x = false ->
  initialized (f x) = initialized x -> removed (f x) = removed x -> e_identity (f x) = e_identity x ->
  e_commitVersion (f x) = e_commitVersion x -> evaluation (f x) = Some (size ev) -> dirtyVersion x <= dirtyVersion (f x) ->
  entry_ok Q p (f x) -> j_entry job = e -> phase job = Queued ->
  main Q D (E ∖ {[e]}) p (alter f e st) d (<[size ev := job]> ev).
Proof.
  intros [Hp Hs Hev Hent (live & Ht & Hl) Hu Hr Hf Hdirty Hevn Hj] Hx Hnone Hrm0 Hi Hrm Hid Hcv Hevx Hdy Hok Hje Hjp.
  assert (Hlk : forall e', alter f e st !! e' = if decide (e = e') then Some (f x) else st !! e').
  { intros e'. rewrite lookup_alter. case_decide; [subst; by rewrite Hx|done]. }
  assert (Hnew : ev !! size ev = None).
  { destruct (ev !! size ev) eqn:En; [|done]. assert (size ev < size ev)%nat by (apply Hev; eauto). lia. }
  split; try done.
  - by apply dense_alter.
  - by apply dense_insert_new.
  - intros e' y Hy. destruct (alter_cases _ _ _ _ _ _ Hx Hy) as [[-> ->]|[_ Hy']]; eauto.
  - exists live. split; [done|]. intros e'. rewrite Hl, Hlk. case_decide as He; [subst e'|done].
    split; intros (y & Hy & Hiy & Hry); [exists (f x)|exists x]; rewrite ?Hx in *; simplify_eq; split_and!; congruence.
  - intros e' He'. apply Hu. intros y Hy. specialize (He' (if decide (e = e') then f x else y)).
    rewrite Hlk in He'. case_decide as He; [subst e'; simplify_eq; rewrite <- Hi|]; by apply He'.
  - intros e' y Hy Hiy. destruct (alter_cases _ _ _ _ _ _ Hx Hy) as [[-> ->]|[_ Hy']]; [|by apply Hr].
    rewrite Hid, Hcv. apply Hr; congruence.
  - intros e' y v c Hy Hiy Hry Hin Hlt. destruct (alter_cases _ _ _ _ _ _ Hx Hy) as [[-> ->]|[_ Hy']]; [|by eapply Hf].
    rewrite Hcv in Hlt. destruct (Hf e x v c Hx) as [?|[?|?]]; [congruence..|done|done|by left|right; left; lia|by right; right].
  - intros e' y Hy Hiy Hry HE Hlt. destruct (alter_cases _ _ _ _ _ _ Hx Hy) as [[-> ->]|[Hne Hy']]; [congruence|].
    apply (Hdirty e' y); try done. set_solver.
  - intros e' y j Hy Hyj. destruct (alter_cases _ _ _ _ _ _ Hx Hy) as [[-> ->]|[Hne Hy']].
    + exists job. rewrite Hevx in Hyj. injection Hyj as <-. rewrite lookup_insert_eq, Hjp. done.
    + destruct (Hevn e' y j Hy' Hyj) as (b & Hb & ?). exists b. rewrite lookup_insert_ne; [done|]. intros <-. congruence.
  - intros j b. rewrite lookup_insert. case_decide as He.
    + subst j. intros [= <-]. exists (f x). rewrite Hje, Hlk, decide_True by done. split_and!; [done|by right|by rewrite Hjp].
    + intros Hb. destruct (Hj j b Hb) as (y & Hy & Hw & Hph). rewrite Hlk. case_decide as He'; [|by exists y].
      rewrite <- He' in Hy. simplify_eq. exists (f x). rewrite Hrm. split_and!; [done| |done].
      intros Hub. destruct (Hw Hub) as [?|?]; [by left|congruence].
Qed.

Definition raise (t : Z) x : QueryEntry := if decide (dirtyVersion x < t) then set_dirtyVersion t x else x.

Lemma raise_entry_ok p t x : entry_ok Q p x -> t <= committedHighWater p -> entry_ok Q p (raise t x).
Proof. intros [] ?. unfold raise. case_decide; [|done]. split; cbn; try done. lia. Qed.

Lemma raise_fields t x : initialized (raise t x) = initialized x /\ removed (raise t x) = removed x /\
  e_identity (raise t x) = e_identity x /\ e_commitVersion (raise t x) = e_commitVersion x /\
  evaluation (raise t x) = evaluation x /\ dirtyVersion x <= dirtyVersion (raise t x) /\
  dirtyVersion (raise t x) = Z.max (dirtyVersion x) t.
Proof. unfold raise. case_decide; cbn; split_and!; done || lia. Qed.

(** The state after [ensureCurrent], which answers when the entry is not removed. *)
Lemma ensureCurrent_run e x t w : store w !! e = Some x -> removed x = false ->
  ensureCurrent e t w =
    let w1 := set_store (alter (raise t) e (store w)) w in
    if initialized x && bool_decide (t <= e_commitVersion x) then (Ret Current, w1)
    else match evaluation x with
         | Some j => (Ret (Awaits j), w1)
         | None =>
             let j := size (evaluations w) in
             (Ret (Awaits j), set_evaluatingEntries (evaluatingEntries w + 1)
                (set_store (alter (set_evaluation (Some j)) e (alter (raise t) e (store w)))
                (set_evaluations (<[j := MkEvaluation e (ownerFairnessKey x) (context x) (initialized x) Queued]> (evaluations w)) w1)))
         end.
Proof.
  intros Hx Hr. unfold ensureCurrent. rewrite (entry_of_bind _ _ _ _ Hx), Hr. rewrite run_update_entry.
  cbv zeta. destruct (_ && _); [done|]. destruct (evaluation x); done.
Qed.

Lemma ensureCurrent_removed e x t w : store w !! e = Some x -> removed x = true ->
  ensureCurrent e t w = (Throw (unavailable_error "Subscription entry was evicted"%string), w).
Proof. intros Hx Hr. unfold ensureCurrent. by rewrite (entry_of_bind _ _ _ _ Hx), Hr. Qed.

Lemma alter_alter {A} (f g : A -> A) k (m : gmap nat A) : alter f k (alter g k m) = alter (fun y => f (g y)) k m.
Proof.
  apply map_eq. intros i. rewrite !lookup_alter. case_decide; [subst|done]. rewrite decide_True by done.
  by destruct (m !! i).
Qed.

(** The entry needs no excuse any more. *)
Lemma main_marked D E p st d ev e : main Q D E p st d ev ->
  (forall x, st !! e = Some x -> initialized x = true -> removed x = false ->
     startedHighWater p <= dirtyVersion x \/ startedHighWater p <= e_commitVersion x) ->
  main Q (D ∖ {[e]}) E p st d ev.
Proof.
  intros [Hp Hs Hev Hent Hl Hu Hr Hf Hdirty Hevn Hj] He. split; try done.
  intros e' x v c Hx Hi Hrm Hin Hlt. destruct (Hf e' x v c Hx Hi Hrm Hin Hlt) as [?|[?|[HD ->]]]; [by left|right; by left|].
  destruct (decide (e' = e)) as [->|Hne]; [|right; right; set_solver].
  destruct (He x Hx Hi Hrm) as [?|?]; [right; by left|lia].
Qed.

Lemma main_evaluated D E p st d ev e : main Q D E p st d ev ->
  (forall x, st !! e = Some x -> initialized x = true -> removed x = false -> e_commitVersion x < dirtyVersion x -> evaluation x <> None) ->
  main Q D (E ∖ {[e]}) p st d ev.
Proof.
  intros [Hp Hs Hev Hent Hl Hu Hr Hf Hdirty Hevn Hj] He. split; try done.
  intros e' x Hx Hi Hrm HE Hlt. destruct (decide (e' = e)) as [->|Hne]; [by apply He|].
  apply (Hdirty e' x); try done. set_solver.
Qed.

(** [ensureCurrent] evaluates the entry, unless it is at the version already. *)
Lemma ensureCurrent_ex D E e x t w :
  inv_ex Q D E w -> store w !! e = Some x -> t <= committedHighWater (publication w) ->
  (e ∈ E -> initialized x && bool_decide (t <= e_commitVersion x) = false) ->
  (removed x = true -> e ∉ E) ->
  inv_ex Q D (E ∖ {[e]}) (ensureCurrent e t w).2.
Proof.
  intros Hi Hx Ht HE Hgone. pose proof Hi as [Hm Hh Hs Hl]. destruct (removed x) eqn:Hr.
  { rewrite (ensureCurrent_removed _ _ _ _ Hx Hr). rewrite difference_disjoint_L; [done|set_solver]. }
  rewrite (ensureCurrent_run _ _ _ _ Hx Hr). cbv zeta.
  pose proof (mi_entry _ _ _ _ _ _ _ Hm e x Hx) as Hok.
  destruct (raise_fields t x) as (F1 & F2 & F3 & F4 & F5 & F6 & F7).
  assert (Hraise : main Q D (E ∪ {[e]}) (publication w) (alter (raise t) e (store w)) (deps w) (evaluations w)).
  { apply (main_alter _ _ _ _ _ _ _ _ x); try done; [|by apply raise_entry_ok|set_solver].
    destruct Hm. split; try done. set_solver. }
  assert (Hx1 : alter (raise t) e (store w) !! e = Some (raise t x)) by by rewrite lookup_alter_eq, Hx.
  destruct (_ && _) eqn:Ecur; [|destruct (evaluation x) as [j|] eqn:Ej]; cbn [snd]; split; cbn;
    try (by apply (history_alter _ _ _ x)); try (by apply listeners_alter); try done.
  - apply (main_evaluated _ _ _ _ _ _ e) in Hraise; [rewrite difference_union_distr_l_L, difference_diag_L, union_empty_r_L in Hraise; done|].
    intros x' Hx' Hi' Hr' Hlt. rewrite Hx1 in Hx'. injection Hx' as <-. rewrite F5. rewrite F7, F4 in Hlt.
    apply andb_true_iff in Ecur as [Hini Hle%bool_decide_eq_true].
    apply (mi_dirty _ _ _ _ _ _ _ Hm e x); try done; [|lia]. intros HeE. by specialize (HE HeE).
  - apply (main_evaluated _ _ _ _ _ _ e) in Hraise; [rewrite difference_union_distr_l_L, difference_diag_L, union_empty_r_L in Hraise; done|].
    intros x' Hx' Hi' Hr' Hlt. rewrite Hx1 in Hx'. injection Hx' as <-. by rewrite F5.
  - rewrite alter_alter.
    apply (main_submit D E _ _ _ _ e x (fun y => set_evaluation (Some (size (evaluations w))) (raise t y))); try done.
    assert (Hok' := raise_entry_ok _ t _ Hok Ht). destruct Hok'. split; cbn; try done. congruence.
  - rewrite alter_alter. by apply (history_alter _ _ _ x).
  - rewrite alter_alter. by apply listeners_alter.
Qed.
End events.
