(* ===== verification/ReactiveSend.v ===== *)
(** What is sent for shared query subscriptions: every transition that is queued
    or handed over tells what the query shows. *)
From S2P Require Import Prelude Errors Limits Dll Publication PublicationInv PublicationContract Value Wire StableEncode Protocol DependencyIndex History HistoryProps Effects Observations Reactive ReactiveSteps ReactiveInv ReactiveKeep ReactiveEvents.
Local Open Scope Z_scope.

Section steady.
Context {options : ReactiveOptions}.
Implicit Types (w : Reactive).

(** ** Evaluations under way stay so *)

Definition stays w w' : Prop := forall j a, evaluations w !! j = Some a -> under_way (phase a) = true ->
  exists a', evaluations w' !! j = Some a' /\ under_way (phase a') = true /\ j_entry a' = j_entry a.

#[export] Instance stays_preorder : PreOrder stays.
Proof.
  split; [intros w j a; eauto|]. intros w1 w2 w3 H H' j a Ha Hp.
  destruct (H j a Ha Hp) as (b & Hb & Hpb & <-). by apply H'.
Qed.

Definition steady {A} (m : eff A) : Prop := forall w, stays w (m w).2.

Lemma steady_framed {A} (m : eff A) : framed m -> steady m.
Proof. intros H w j a Ha Hp. rewrite <- (sm_evaluations _ _ (H w)). eauto. Qed.
Lemma steady_bind {A B} (m : eff A) (k : A -> eff B) : steady m -> (forall a, steady (k a)) -> steady (m ≫= k).
Proof. intros Hm Hk w. rewrite run_bind. specialize (Hm w). destruct (m w) as [[a|err] w']; [|done]. by etransitivity; [|apply Hk]. Qed.
Lemma steady_modify f : (forall w, evaluations (f w) = evaluations w) -> steady (modify f).
Proof. intros H w j a Ha Hp. cbn. rewrite H. eauto. Qed.
Lemma steady_attempt {A} (m : eff A) : steady m -> steady (attempt m).
Proof. intros H w. specialize (H w). unfold attempt. by destruct (m w). Qed.
Lemma steady_when b m : steady m -> steady (when b m).
Proof. destruct b; [done|intros _; apply steady_framed, framed_ret]. Qed.
Lemma steady_for_each {A} (f : A -> eff unit) l : (forall a, steady (f a)) -> steady (for_each f l).
Proof. intros H. induction l as [|a l IH]; cbn; [apply steady_framed, framed_ret|by apply steady_bind]. Qed.
Lemma steady_phase j ph : under_way ph = true -> steady (set_phase_of j ph).
Proof.
  intros Hph w i a Ha Hp. cbn. rewrite lookup_alter. case_decide as Hj; [|by eauto]. subst. rewrite Ha. by eexists.
Qed.
Lemma framed_evaluation_of j : framed (evaluation_of j).
Proof. unfold evaluation_of. frame. Qed.
Lemma framed_delivery_of d : framed (delivery_of d).
Proof. unfold delivery_of. frame. Qed.
Lemma framed_subscribing_of s : framed (subscribing_of s).
Proof. unfold subscribing_of. frame. Qed.

End steady.

Ltac steadies :=
  repeat first
    [ progress intros
    | apply steady_phase; reflexivity
    | apply steady_modify; reflexivity
    | apply steady_framed; first [apply framed_ret | apply framed_throw | apply framed_lift | apply framed_get
        | apply framed_entry_of | apply framed_listener_of | apply framed_evaluation_of | apply framed_delivery_of
        | apply framed_subscribing_of | apply framed_readNow | apply framed_new_generation | apply framed_highWaterMark
        | apply framed_detach]
    | match goal with
      | |- steady (when _ _) => apply steady_when
      | |- steady (attempt _) => apply steady_attempt
      | |- steady (for_each _ _) => apply steady_for_each
      | |- steady (mbind _ _) => apply steady_bind
      end
    | match goal with |- steady (let _ := _ in _) => cbv zeta end
    | match goal with |- steady (match ?m with _ => _ end) => destruct m end
    | match goal with |- steady (if ?m then _ else _) => destruct m end ].

Section send.
Context {options : ReactiveOptions} (Q : string -> Z -> Observation).
Implicit Types (w : Reactive) (x : QueryEntry) (st : gmap nat QueryEntry).
Abbreviation inv := (inv_ex Q ∅ ∅).
Abbreviation keeps := (keeps Q).

Lemma steady_removeEntry e : steady (removeEntry e).
Proof. unfold removeEntry, update_entry. steadies. Qed.

Lemma steady_fail_subscribe s error : steady (fail_subscribe s error).
Proof. unfold fail_subscribe, update_subscribing. repeat first [apply steady_removeEntry|steadies]. Qed.

Lemma steady_finish o failed : steady (finish o failed).
Proof.
  unfold finish, update_subscribing. repeat first [apply steady_fail_subscribe|steadies].
Qed.

Lemma steady_run_send l s : steady (run_send l s).
Proof. unfold run_send. steadies. Qed.

Lemma steady_sequence l d : steady (sequence l d).
Proof. unfold sequence, start_send, update_listener. repeat first [apply steady_run_send|steadies]. Qed.

Lemma steady_advance d : steady (advance_delivery d).
Proof. unfold advance_delivery. repeat first [apply steady_sequence|apply steady_finish|steadies]. Qed.

Lemma steady_new_delivery o stop sends : steady (new_delivery o stop sends).
Proof. unfold new_delivery. repeat first [apply steady_advance|steadies]. Qed.

Lemma steady_deliver_query o l p r : steady (deliver_query o l p r).
Proof. unfold deliver_query. repeat first [apply steady_new_delivery|steadies]. Qed.

(** ** An evaluation moves on *)

Lemma inv_phase D E j ph w : inv_ex Q D E w -> under_way ph = true ->
  (forall a, evaluations w !! j = Some a -> under_way (phase a) = true /\
     match ph with Releasing (Throw _) => forall x, store w !! j_entry a = Some x -> removed x = true | _ => True end) ->
  inv_ex Q D E (set_phase_of j ph w).2.
Proof.
  intros [Hm Hh Hs Hl] Hph Ha. split; cbn; try done.
  destruct (evaluations w !! j) as [a|] eqn:Ej; [|by rewrite alter_missing].
  destruct (Ha a eq_refl). apply (main_phase _ _ _ _ _ _ _ j a); try done. congruence.
Qed.

(** ** Sends *)

Lemma inv_sends_set w ds out : inv w -> sends_ok Q ds out -> inv (set_deliveries ds (set_outbox out w)).
Proof. intros [Hm Hh Hs Hl] H. by split. Qed.

Lemma keeps_hand l m s : (forall t, m = MTransition t -> valid_transition Q t) ->
  keeps (modify (fun w => set_outbox (outbox w ++ [(l, s, m)]) w)).
Proof.
  intros H w [Hm Hh [Hd Ho] Hl]. split; cbn; try done. split; [done|]. intros s' i t [Hin|Heq]%elem_of_app; [by eapply Ho|].
  apply list_elem_of_singleton in Heq. simplify_eq. by apply H.
Qed.

Lemma keeps_run_send l s : (forall t, s = SendTransition t -> valid_transition Q t) -> keeps (run_send l s).
Proof.
  intros H. unfold run_send. apply keeps_inv_bind; [apply keeps_framed, framed_listener_of|]. intros b.
  assert (Hret : forall A (a : A), keeps (mret a)) by (intros; apply keeps_framed, framed_ret).
  destruct s as [t|o|epoch o]; [| |destruct (l_cursor b)].
  - apply keeps_inv_bind; [apply keeps_hand|done]. intros t' [= ->]. by apply H.
  - apply keeps_inv_bind; [by apply keeps_hand|done].
  - apply keeps_inv_bind; [apply keeps_framed, framed_new_generation|]. intros g.
    apply keeps_inv_bind; [apply keeps_hand; by intros ? [= <-]|done].
  - apply keeps_inv_bind; [by apply keeps_hand|done].
Qed.

Lemma keeps_attempt {A} (m : eff A) : keeps m -> keeps (attempt m).
Proof. intros H w Hi. specialize (H w Hi). unfold attempt. by destruct (m w). Qed.

Lemma run_attempt {A B} (m : eff A) (k : exc js_error A -> eff B) w : (attempt m ≫= k) w = k (m w).1 (m w).2.
Proof. unfold attempt. rewrite run_bind. by destruct (m w). Qed.

Lemma listener_of_bind {A} l w (k : QueryListener -> eff A) :
  (listener_of l ≫= k) w = match bindings w !! l with
    | Some b => k b w | None => (Throw (TypeError "Cannot read properties of undefined"%string), w) end.
Proof. unfold listener_of, mbind, eff_bind, get. by destruct (bindings w !! l). Qed.
Lemma delivery_of_bind {A} d w (k : Delivery -> eff A) :
  (delivery_of d ≫= k) w = match deliveries w !! d with
    | Some b => k b w | None => (Throw (TypeError "Cannot read properties of undefined"%string), w) end.
Proof. unfold delivery_of, mbind, eff_bind, get. by destruct (deliveries w !! d). Qed.
Lemma evaluation_of_bind {A} j w (k : Evaluation -> eff A) :
  (evaluation_of j ≫= k) w = match evaluations w !! j with
    | Some b => k b w | None => (Throw (TypeError "Cannot read properties of undefined"%string), w) end.
Proof. unfold evaluation_of, mbind, eff_bind, get. by destruct (evaluations w !! j). Qed.

Lemma keeps_start_send l : keeps (start_send l).
Proof.
  intros w Hi. unfold start_send. rewrite listener_of_bind. destruct (bindings w !! l) as [b|]; [|done].
  destruct (waiting b) as [|d ds]; [done|]. rewrite delivery_of_bind. destruct (deliveries w !! d) as [y|] eqn:Hd; [|done].
  destruct (d_sends y) as [|[l' s] rest] eqn:Hy; [done|].
  refine (keeps_inv_bind Q _ _ _ _ w Hi).
  - apply keeps_attempt, keeps_run_send. intros t ->. apply (proj1 (inv_sends _ _ _ _ Hi) d y l' t Hd). rewrite Hy. by left.
  - intros r. apply keeps_framed. frame.
Qed.

Lemma keeps_sequence l d : keeps (sequence l d).
Proof.
  unfold sequence. apply keeps_inv_bind; [apply keeps_framed, framed_listener_of|]. intros b.
  apply keeps_inv_bind; [apply keeps_framed; frame|]. intros _. unfold when.
  destruct (_ && _); [apply keeps_start_send|apply keeps_framed, framed_ret].
Qed.

Lemma keeps_fail_subscribe s error : keeps (fail_subscribe s error).
Proof.
  unfold fail_subscribe. apply keeps_inv_bind; [apply keeps_framed, framed_subscribing_of|]. intros a.
  apply keeps_inv_bind; [apply keeps_framed, framed_entry_of|]. intros x. apply keeps_inv_bind.
  - destruct (idle x && negb (initialized x)); [apply keeps_removeEntry|apply keeps_framed, framed_ret].
  - intros _. apply keeps_framed. unfold update_subscribing. frame.
Qed.

Lemma keeps_finish o failed : keeps (finish o failed).
Proof.
  intros w Hi. destruct o as [j|s|]; cbn [finish]; [| |done].
  - rewrite evaluation_of_bind. destruct (evaluations w !! j) as [a|] eqn:Ha; [|done].
    destruct (phase a) as [| |[|n]| | | | | |] eqn:Hp; try done; (apply inv_phase; [done..|]; rewrite Ha, ?Hp;
      intros a' [= <-]; rewrite Hp; done).
  - revert w Hi. change (keeps (match failed with
      | None => update_subscribing s (set_s_phase (SDone (Ret tt)))
      | Some error => a ← subscribing_of s; _ ← match s_phase a with SDelivering l => detach l | _ => mret tt end;
                      fail_subscribe s error end)).
    destruct failed as [error|]; [|apply keeps_framed; unfold update_subscribing; frame].
    apply keeps_inv_bind; [apply keeps_framed, framed_subscribing_of|]. intros a.
    apply keeps_inv_bind; [|intros _; apply keeps_fail_subscribe].
    destruct (s_phase a); apply keeps_framed; [apply framed_ret|apply framed_detach|apply framed_ret].
Qed.

Lemma keeps_deliveries f : (forall ds, (forall d y, f ds !! d = Some y -> exists d' y', ds !! d' = Some y' /\ d_sends y ⊆ d_sends y')) ->
  keeps (modify (fun w => set_deliveries (f (deliveries w)) w)).
Proof.
  intros H w [Hm Hh [Hd Ho] Hl]. split; cbn; try done. split; [|done].
  intros d y l t Hy Hin. destruct (H _ d y Hy) as (d' & y' & Hy' & Hs). eapply Hd; [exact Hy'|]. by apply Hs.
Qed.

Lemma keeps_advance d : keeps (advance_delivery d).
Proof.
  unfold advance_delivery. apply keeps_inv_bind; [apply keeps_framed, framed_delivery_of|]. intros y.
  destruct (d_sends y) as [|[l s] rest]; [|apply keeps_sequence].
  apply keeps_inv_bind; [|intros _; apply keeps_finish]. apply (keeps_deliveries (delete d)).
  intros ds d' y' Hy'. apply lookup_delete_Some in Hy' as [_ Hy']. by exists d', y'.
Qed.

Lemma keeps_new_delivery o stop sends : (forall l t, (l, SendTransition t) ∈ sends -> valid_transition Q t) ->
  keeps (new_delivery o stop sends).
Proof.
  intros Hv. unfold new_delivery. apply keeps_inv_bind; [apply keeps_framed, framed_get|]. intros d.
  apply keeps_inv_bind; [|intros _; apply keeps_advance]. intros w [Hm Hh [Hd Ho] Hl]. split; cbn; try done. split; [|done].
  intros d' y l t. rewrite lookup_insert. case_decide; [intros [= <-]; apply Hv|by apply Hd].
Qed.

(** ** The deliveries of an entry *)

Lemma chain_valid x c to : forall from, cur_identity from = e_identity x -> runs c (commitVersion from) to ->
  (forall r, r ∈ c -> record_ok Q (e_identity x) r) ->
  forall t, t ∈ chain_transitions from c -> valid_transition Q t.
Proof.
  induction c as [|r c IH]; intros from Hid Hruns Hok t; cbn [chain_transitions]; [by intros ?%elem_of_nil|].
  destruct (Hok r) as [_ Hr]; [by left|]. destruct Hruns as [Hfrom Hruns].
  intros [->|Hin]%elem_of_cons.
  - destruct (r_kind r); [destruct (r_error r) eqn:He|]; cbn.
    + by rewrite Hid.
    + by rewrite Hid.
    + by rewrite Hid, <- Hfrom.
  - apply (IH (MkCursor (generation from) (toVersion r) (cur_authEpoch from) (cur_identity from))); try done.
    intros r' Hr'. apply Hok. by right.
Qed.

Lemma chain_from_runs rs : forall from to c, chain_from rs from to = Some c -> runs c from to /\ c ⊆ rs.
Proof.
  induction rs as [|r rs IH]; intros from to c; cbn [chain_from]; [done|].
  destruct (_ || _); [intros Hc; destruct (IH _ _ _ Hc); split; [done|set_solver]|].
  case_decide as Hf; [done|]. case_decide as Ht; [intros [= <-]; split; [cbn; lia|set_solver]|].
  case_decide; [done|]. intros Hc. apply fmap_Some in Hc as (c' & Hc & ->). destruct (IH _ _ _ Hc).
  split; [cbn; split; [lia|done]|set_solver].
Qed.

Lemma reset_valid p x from epoch : entry_ok Q p x -> valid_transition Q (reset_transition x from (cursor x epoch)).
Proof.
  intros [_ _ Hn Hsh _ _]. unfold reset_transition. destruct (initialized x) eqn:Hi.
  - destruct (Hsh eq_refl) as [H _]. destruct (e_applicationError x); cbn in *; [done|by right].
  - destruct (Hn eq_refl) as [-> ->]. cbn. by left.
Qed.

Lemma deliverQuery_valid w x b positiveResume forceReset t :
  inv w -> store w !! l_entry b = Some x ->
  t ∈ deliverQuery (resume_history w) x b positiveResume forceReset -> valid_transition Q t.
Proof.
  intros [Hm (ps & Hps & _ & Hr) _ _] Hx. pose proof (mi_entry _ _ _ _ _ _ _ Hm _ _ Hx) as Hok.
  unfold deliverQuery. destruct (l_cursor b) as [from|].
  2: { intros ->%list_elem_of_singleton. by eapply reset_valid. }
  destruct (cursorEquals from _) eqn:Heq.
  { destruct positiveResume; [|by intros ?%elem_of_nil]. intros ->%list_elem_of_singleton. cbn.
    unfold cursorEquals in Heq. repeat (apply andb_true_iff in Heq as [Heq ?]).
    repeat match goal with H : bool_decide _ = true |- _ => apply bool_decide_eq_true in H; cbn in H end.
    split; [done|]. replace (commitVersion from) with (e_commitVersion x). done. }
  destruct (if _ && _ then _ else _) as [c|] eqn:Hc; [|intros ->%list_elem_of_singleton; by eapply reset_valid].
  destruct (_ && _) eqn:Hb in Hc; [|done]. apply andb_true_iff in Hb as [_ Hb].
  unfold cursorBelongsTo in Hb. repeat (apply andb_true_iff in Hb as [Hb ?]).
  unfold History.chain in Hc. case_decide; [done|]. apply chain_from_runs in Hc as [Hruns Hsub].
  apply (chain_valid x c (commitVersion (cursor x (l_authEpoch b)))); try done.
  - by repeat match goal with H : bool_decide _ = true |- _ => apply bool_decide_eq_true in H; cbn in H end.
  - intros r Hin. apply Hsub in Hin. rewrite (proj1 (slice_records_repr _ _ _ Hps)) in Hin.
    apply list_elem_of_filter in Hin as [He Hin]. destruct (Hr r Hin) as (y & Hy & Hrec). rewrite He, Hx in Hy. by simplify_eq.
Qed.

Lemma keeps_deliver_query o l positiveResume forceReset : keeps (deliver_query o l positiveResume forceReset).
Proof.
  intros w Hi. unfold deliver_query. rewrite listener_of_bind. destruct (bindings w !! l) as [b|] eqn:Hb; [|done].
  destruct (store w !! l_entry b) as [x|] eqn:Hx; [|by rewrite entry_of_missing].
  rewrite (entry_of_bind _ _ _ _ Hx), run_get. apply keeps_new_delivery; [|done].
  intros l' t (t' & Heq & Hin)%list_elem_of_fmap. simplify_eq. by eapply deliverQuery_valid.
Qed.

Lemma keeps_for_each {A} (f : A -> eff unit) l : (forall a, keeps (f a)) -> keeps (for_each f l).
Proof. intros H. induction l as [|a l IH]; cbn; [apply keeps_framed, framed_ret|by apply keeps_inv_bind]. Qed.

Lemma keeps_sent l failed : keeps (sent l failed).
Proof.
  unfold sent. apply keeps_inv_bind; [apply keeps_framed, framed_listener_of|]. intros b.
  destruct (inflight b) as [[d r]|]; [|apply keeps_framed, framed_ret].
  apply keeps_inv_bind; [apply keeps_framed; frame|]. intros _.
  apply keeps_inv_bind; [apply keeps_framed; frame|]. intros _.
  apply keeps_inv_bind; [apply keeps_framed, framed_delivery_of|]. intros y.
  assert (Htail : forall d, keeps (_ ← modify (fun w => set_deliveries (alter (fun z => set_d_sends (tail (d_sends z)) z) d (deliveries w)) w); advance_delivery d)).
  { intros d'. apply keeps_inv_bind; [|intros _; apply keeps_advance].
    apply (keeps_deliveries (alter (fun z => set_d_sends (tail (d_sends z)) z) d')). intros ds i z. rewrite lookup_alter.
    case_decide as He; [|intros Hz; by exists i, z]. subst. destruct (ds !! i) as [z0|] eqn:Hz; [|done]. intros [= <-]. exists i, z0.
    split; [done|]. cbn. by destruct (d_sends z0); set_solver. }
  assert (Hover : forall d o e, keeps (_ ← modify (fun w => set_deliveries (delete d (deliveries w)) w); finish o (Some e))).
  { intros d' o e. apply keeps_inv_bind; [|intros _; apply keeps_finish]. apply (keeps_deliveries (delete d')).
    intros ds d'' y' Hy'. apply lookup_delete_Some in Hy' as [_ Hy']. by exists d'', y'. }
  apply keeps_inv_bind.
  - destruct (match r with Throw e => Some e | Ret _ => failed end); [|apply Htail].
    destruct (d_stop y); [apply Hover|apply Htail].
  - intros _. apply keeps_inv_bind; [apply keeps_framed, framed_listener_of|]. intros b'. unfold when.
    destruct (bool_decide _); [apply keeps_start_send|apply keeps_framed, framed_ret].
Qed.

Lemma keeps_reset subscriber id from : keeps (reset subscriber id from).
Proof.
  intros w Hi. unfold reset. rewrite run_get. destruct (jmap_get id (subscriber_bindings subscriber w)) as [l|]; [|done].
  rewrite listener_of_bind. destruct (bindings w !! l) as [b|] eqn:Hb; [|done].
  destruct (store w !! l_entry b) as [x|] eqn:Hx; [|by rewrite entry_of_missing].
  rewrite (entry_of_bind _ _ _ _ Hx). apply keeps_new_delivery; [|done].
  intros l' t Heq%list_elem_of_singleton. simplify_eq. cbn.
  destruct (mi_entry _ _ _ _ _ _ _ (inv_main _ _ _ _ Hi) _ _ Hx) as [_ _ Hn Hsh Herr _].
  destruct (e_applicationError x); [left; by apply Herr|].
  destruct (initialized x); [right; by destruct (Hsh eq_refl)|left; by destruct (Hn eq_refl)].
Qed.
End send.
