(* ===== verification/ReactiveEvaluate.v ===== *)
(** Evaluations of shared queries keep the invariants, when the evaluator tells
    what the query shows. *)
From S2P Require Import Prelude Errors Limits Dll Publication PublicationInv PublicationContract Value Wire StableEncode Protocol DependencyIndex History HistoryProps Effects Observations Reactive ReactiveSteps ReactiveInv ReactiveKeep ReactiveEvents ReactiveSend.
Local Open Scope Z_scope.

Section evaluate.
Context {options : ReactiveOptions} (Q : string -> Z -> Observation).
Implicit Types (w : Reactive) (x : QueryEntry) (st : gmap nat QueryEntry).
Abbreviation inv := (inv_ex Q ∅ ∅).
Abbreviation keeps := (keeps Q).

(** ** Computations of an evaluation under way *)

Definition busy (j e : nat) w : Prop :=
  exists a, evaluations w !! j = Some a /\ under_way (phase a) = true /\ j_entry a = e.

Lemma stays_busy j e w w' : stays w w' -> busy j e w -> busy j e w'.
Proof. intros H (a & Ha & Hp & <-). destruct (H j a Ha Hp) as (b & ? & ? & ?). by exists b. Qed.

Lemma busy_entry j e w : inv w -> busy j e w ->
  exists x, store w !! e = Some x /\ (removed x = true \/ evaluation x = Some j).
Proof.
  intros Hi (a & Ha & Hp & <-). destruct (mi_job _ _ _ _ _ _ _ (inv_main _ _ _ _ Hi) j a Ha) as (x & Hx & Hw & _). eauto.
Qed.

Definition drives (j e : nat) {A} (m : eff A) : Prop := forall w, inv w -> busy j e w -> inv (m w).2 /\ busy j e (m w).2.

Lemma drives_of {A} j e (m : eff A) : keeps m -> steady m -> drives j e m.
Proof. intros H H' w Hi Hb. split; [by apply H|]. eapply stays_busy; [apply H'|done]. Qed.

Lemma drives_framed {A} j e (m : eff A) : framed m -> drives j e m.
Proof. intros H. apply drives_of; [by apply keeps_framed|by apply steady_framed]. Qed.

Lemma drives_bind {A B} j e (m : eff A) (k : A -> eff B) : drives j e m -> (forall a, drives j e (k a)) -> drives j e (m ≫= k).
Proof.
  intros Hm Hk w Hi Hb. rewrite run_bind. destruct (Hm w Hi Hb). destruct (m w) as [[a|err] w']; [|done]. by apply Hk.
Qed.

Lemma drives_attempt {A} j e (m : eff A) : drives j e m -> drives j e (attempt m).
Proof. intros H w Hi Hb. specialize (H w Hi Hb). unfold attempt. by destruct (m w). Qed.

Lemma drives_phase j e ph : under_way ph = true -> (match ph with Releasing (Throw _) => False | _ => True end) ->
  drives j e (set_phase_of j ph).
Proof.
  intros Hph Hr w Hi Hb. split; [|eapply stays_busy; [by apply steady_phase|done]].
  destruct Hb as (a & Ha & Hp & _). apply inv_phase; [done..|]. intros a' Ha'. rewrite Ha in Ha'. injection Ha' as <-.
  split; [done|]. by destruct ph as [| | | | | |[]| |].
Qed.

Lemma drives_for_each {A} j e (f : A -> eff unit) l : (forall a, drives j e (f a)) -> drives j e (for_each f l).
Proof. intros H. induction l as [|a l IH]; cbn; [apply drives_framed, framed_ret|by apply drives_bind]. Qed.

Lemma snapshot_highWater {T} t (p : OrderedPublication T) s : Publication.snapshot t p = Ret s -> highWater s = committedHighWater p.
Proof. unfold Publication.snapshot. intros H. exc_inv. by subst s. Qed.

Lemma run_highWaterMark {B} (k : Z -> eff B) w :
  let w' := set_r_readings (S (r_readings w)) w in
  (exists err, (highWaterMark ≫= k) w = (Throw err, w')) \/ (highWaterMark ≫= k) w = k (committedHighWater (publication w)) w'.
Proof.
  unfold highWaterMark, clock_reading, lift, get, mbind, eff_bind. cbn.
  destruct (Publication.snapshot _ _) as [s|err] eqn:Hs; [right|left; by eexists].
  by rewrite (snapshot_highWater _ _ _ Hs).
Qed.

(** The rest of a computation, from the newest version. *)
Lemma after_highWaterMark {B} (k : Z -> eff B) (P : Reactive -> Prop) w :
  (forall w', same w w' -> committedHighWater (publication w') = committedHighWater (publication w) ->
     P w' /\ P (k (committedHighWater (publication w)) w').2) ->
  P ((highWaterMark ≫= k) w).2.
Proof.
  intros H. destruct (H (set_r_readings (S (r_readings w)) w)) as [H1 H2]; [by split; eauto|done|].
  destruct (run_highWaterMark k w) as [[err ->]| ->]; done.
Qed.

Lemma dirty_to_newest_drives j e : drives j e (dirty_to_newest e).
Proof.
  intros w Hi Hb. unfold dirty_to_newest.
  apply (after_highWaterMark _ (fun w' => inv w' /\ busy j e w')). intros w1 Hs Htop.
  assert (Hi1 : inv w1) by by eapply inv_same.
  assert (Hb1 : busy j e w1) by (destruct Hb as (a & ? & ? & ?); exists a; by rewrite <- (sm_evaluations _ _ Hs)).
  split; [done|]. destruct (busy_entry _ _ _ Hi1 Hb1) as (x & Hx & Hrun). split; [|done].
  rewrite <- Htop. unfold update_entry, modify. cbn.
  change (inv (set_store (alter (raise (committedHighWater (publication w1))) e (store w1)) w1)).
  destruct (raise_fields (committedHighWater (publication w1)) x) as (F1 & F2 & F3 & F4 & F5 & F6 & F7).
  apply (inv_alter _ _ _ x); try done.
  - apply raise_entry_ok; [|lia]. apply (mi_entry _ _ _ _ _ _ _ (inv_main _ _ _ _ Hi1) _ _ Hx).
  - intros _ Hr _. destruct Hrun as [Hg| ->]; congruence.
Qed.

Lemma assert_kept_drives j e e' : drives j e (assert_kept e').
Proof. apply drives_framed. unfold assert_kept. frame. Qed.

(** ** The evaluator's answers *)

(** The evaluator tells what the query shows at the version it read. *)
Definition tells (id : string) (x : QueryExecution) : Prop :=
  shows Q id (x_commitVersion x) (x_result x) /\ ob_reads (Q id (x_commitVersion x)) = x_readSet x.

Lemma tells_evaluates id ex v : tells id ex -> encode_execution ex = Ret v -> evaluates Q id v.
Proof.
  intros [[He Hf] Hr] Hv. unfold encode_execution in Hv.
  change (match x_result ex with inl v => v | inr e => ProtocolProps.error_value e end) with (payload_value (x_result ex)) in Hv.
  rewrite He in Hv. apply Ret_inj in Hv as <-. unfold evaluates, shows. cbn.
  assert (Hq : Q id (x_commitVersion ex) = MkObservation (ob_encoded (Q id (x_commitVersion ex))) (failed (x_result ex)) (x_readSet ex)).
  { rewrite Hf, <- Hr. by destruct (Q id (x_commitVersion ex)). }
  destruct (x_result ex) as [y|err]; cbn in *; (split; [done|split; [done|exact Hq]]).
Qed.

Lemma steady_windowed {A} (m : TransitionHistory -> option (exc js_error (A * TransitionHistory))) : steady (windowed m).
Proof. intros w. unfold windowed. destruct (m _) as [[[a h]|err]|]; intros j b Hb Hp; exists b; done. Qed.

Lemma steady_evict_results fuel e n : steady (evict_results fuel e n).
Proof.
  induction fuel as [|fuel IH]; cbn [evict_results]; repeat first [apply steady_removeEntry|exact IH|steadies].
Qed.

Lemma steady_installEvaluation e v : steady (installEvaluation e v).
Proof.
  unfold installEvaluation, makeResultCapacity, update_entry.
  repeat first [apply steady_removeEntry|apply steady_evict_results|apply steady_windowed|steadies].
Qed.

Lemma run_compare_and_install {A B} version (install : eff A) (k : option A -> eff B) w :
  (exists err, (compare_and_install version install ≫= k) w = (Throw err, w)) \/
  (compare_and_install version install ≫= k) w = k None w \/
  (0 <= version /\ version = committedHighWater (publication w) /\
   (compare_and_install version install ≫= k) w = ((a ← install; k (Some a)) w)).
Proof.
  unfold compare_and_install. rewrite run_bind, run_get, run_bind. unfold lift, Publication.compareAndInstall, throw_if.
  destruct (bool_decide (version < 0)) eqn:Hn; [left; by eexists|]. apply bool_decide_eq_false in Hn. cbn.
  destruct (p_closed _); [left; by eexists|]. cbn. case_decide; cbn; [right; left; done|].
  right; right. split; [lia|]. split; [done|]. rewrite !run_bind. by destruct (install w) as [[a|err] w'].
Qed.

Context (Hlimits : HistoryProps.limits_ok (resume limits)) (Htext : forall v, 0 <= text_bytes v).

Lemma install_drives j e gen answer w : inv w -> busy j e w ->
  (forall x ex, store w !! e = Some x -> answer = Ret ex -> tells (e_identity x) ex) ->
  inv (install j e gen answer w).2 /\ busy j e (install j e gen answer w).2.
Proof.
  intros Hi Hb Htells. unfold install. destruct answer as [ex|err]; [|done].
  change (lift (Ret ex)) with (mret ex : eff QueryExecution). rewrite run_ret.
  destruct (encode_execution ex) as [v|err] eqn:Hv; [|done]. change (lift (Ret v)) with (mret v : eff QueryEvaluation).
  rewrite run_ret. case_decide as H0; [done|]. rewrite run_ret.
  apply (after_highWaterMark _ (fun w' => inv w' /\ busy j e w')). intros w1 Hs _.
  assert (Hi1 : inv w1) by by eapply inv_same.
  assert (Hb1 : busy j e w1) by (destruct Hb as (a & ? & ? & ?); exists a; by rewrite <- (sm_evaluations _ _ Hs)).
  split; [done|]. case_decide as Hf; [done|]. rewrite run_ret.
  assert (Hlast : drives j e (_ ← dirty_to_newest e; _ ← assert_kept e; set_phase_of j (Ended (Ret tt)))).
  { apply drives_bind; [apply dirty_to_newest_drives|]. intros _.
    apply drives_bind; [apply assert_kept_drives|]. intros _. by apply drives_phase. }
  match goal with |- context [compare_and_install _ ?i] => set (inst := i) end.
  match goal with |- context [compare_and_install _ inst ≫= ?k] =>
    destruct (run_compare_and_install (v_commitVersion v) inst k w1) as [[err ->]|[->|(Hn & Htop & ->)]]; [done|by apply Hlast|];
    assert (Hk : forall o, drives j e (k o)) end.
  - intros [[i|]|]; [|apply Hlast..]. destruct (overflowedListeners i) as [[ls message]|].
    + apply drives_bind; [by apply drives_phase|]. intros _. apply drives_of; [|apply steady_new_delivery].
      apply keeps_new_delivery. intros l t (? & ? & _)%list_elem_of_fmap. simplify_eq.
    + apply drives_bind; [apply drives_framed, framed_entry_of|]. intros x.
      destruct (previousVersion i); [|by apply drives_phase]. apply drives_bind; [by apply drives_phase|]. intros _.
      apply drives_for_each. intros l. apply drives_of; [apply keeps_deliver_query|apply steady_deliver_query].
  - rewrite run_bind.
    assert (Hinst : inv (inst w1).2 /\ busy j e (inst w1).2).
    { unfold inst. destruct (busy_entry _ _ _ Hi1 Hb1) as (x & Hx & Hrun). rewrite (entry_of_bind _ _ _ _ Hx).
      destruct (removed x || _) eqn:Eg; [done|]. apply orb_false_iff in Eg as [Hr _].
      destruct Hrun as [?|Hrun]; [congruence|].
      assert (Hid : exists x0, store w !! e = Some x0 /\ e_identity x0 = e_identity x).
      { destruct (same_store_lookup (store w1) (store w) e x) as (x0 & Hx0 & Hc); [symmetry; apply Hs|done|].
        exists x0. split; [done|]. apply core_fields in Hc. by destruct Hc as (_ & <- & _). }
      destruct Hid as (x0 & Hx0 & Hid).
      assert (Hi2 : inv (installEvaluation e v w1).2).
      { apply (installEvaluation_inv Q Hlimits Htext e x); try done; [congruence|]. rewrite <- Hid.
        eapply tells_evaluates; [by apply Htells|done]. }
      assert (Hb2 : busy j e (installEvaluation e v w1).2) by (eapply stays_busy; [apply steady_installEvaluation|done]).
      rewrite run_bind. by destruct (installEvaluation e v w1) as [[i|err] w2]. }
    destruct Hinst as [Hi2 Hb2]. destruct (inst w1) as [[o|err] w2]; [|done]. exact (Hk (Some o) w2 Hi2 Hb2).
Qed.

(** ** Handlers *)

Lemma keeps_evaluationGeneration e n : keeps (update_entry e (set_evaluationGeneration n)).
Proof.
  intros w Hi. unfold update_entry, modify. cbn. pose proof (inv_main _ _ _ _ Hi) as Hm.
  destruct (store w !! e) as [x|] eqn:Hx; [|rewrite alter_missing by done; by destruct w].
  apply (inv_alter _ w _ x); try done.
  - by destruct (mi_entry _ _ _ _ _ _ _ Hm _ _ Hx).
  - intros. by apply (mi_dirty _ _ _ _ _ _ _ Hm e x).
Qed.

Lemma start_inv j a w : inv w -> evaluations w !! j = Some a -> phase a = Queued -> inv (start_evaluation j w).2.
Proof.
  intros Hi Ha Hp. unfold start_evaluation. rewrite evaluation_of_bind, Ha.
  assert (Hb : busy j (j_entry a) w) by (exists a; by rewrite Hp).
  destruct (busy_entry _ _ _ Hi Hb) as (x & Hx & _). rewrite (entry_of_bind _ _ _ _ Hx).
  destruct (negb (removed x) && _).
  - apply (drives_bind j (j_entry a)); [|intros _; by apply drives_phase|done..].
    apply drives_of; [apply keeps_evaluationGeneration|by apply steady_modify].
  - apply (drives_bind j (j_entry a)); [apply drives_attempt, assert_kept_drives|intros r; by apply drives_phase|done..].
Qed.

Lemma answer_inv j answer w : inv w ->
  (forall a x ex, evaluations w !! j = Some a -> store w !! j_entry a = Some x -> answer = Ret ex -> tells (e_identity x) ex) ->
  inv (answer_evaluation j answer w).2.
Proof.
  intros Hi Htells. unfold answer_evaluation. rewrite evaluation_of_bind. destruct (evaluations w !! j) as [a|] eqn:Ha; [|done].
  destruct (phase a) as [|gen| | | | | | |] eqn:Hp; try done. rewrite run_attempt.
  assert (Hb : busy j (j_entry a) w) by (exists a; by rewrite Hp).
  destruct (install_drives j (j_entry a) gen answer w Hi Hb) as [Hi1 Hb1]; [by eauto|].
  destruct (install _ _ _ _ w) as [[[]|err] w1]; [done|]. cbn in *.
  by apply (drives_phase j (j_entry a) (Ended (Throw err))).
Qed.

Lemma delivered_inv j w : inv w -> inv (delivered j w).2.
Proof.
  intros Hi. unfold delivered. rewrite evaluation_of_bind. destruct (evaluations w !! j) as [a|] eqn:Ha; [|done].
  destruct (phase a) as [| |[]| | | | | |] eqn:Hp; try done.
  assert (Hb : busy j (j_entry a) w) by (exists a; by rewrite Hp).
  apply (drives_bind j (j_entry a)); [|intros r; by apply drives_phase|done..]. apply drives_attempt.
  apply drives_bind; [apply dirty_to_newest_drives|]. intros _. apply assert_kept_drives.
Qed.
End evaluate.
