(* ===== verification/ReactiveRelease.v ===== *)
(** The end of an evaluation: its failure, and the evaluation that follows it. *)
From S2P Require Import Prelude Errors Limits Dll Publication PublicationInv PublicationContract Value Wire StableEncode Protocol DependencyIndex History HistoryProps Effects Observations Reactive ReactiveSteps ReactiveInv ReactiveKeep ReactiveEvents ReactiveSend ReactiveEvaluate.
Local Open Scope Z_scope.

Section release.
Context {options : ReactiveOptions} (Q : string -> Z -> Observation).
Context (Hclock : forall n, exists t, now n = Finite t).
Implicit Types (w : Reactive) (x : QueryEntry) (st : gmap nat QueryEntry).
Abbreviation inv := (inv_ex Q ∅ ∅).
Abbreviation keeps := (keeps Q).

(** ** Failures *)

Lemma removeEntry_gone e w x : store (removeEntry e w).2 !! e = Some x -> removed x = true.
Proof.
  destruct (store w !! e) as [y|] eqn:Hy.
  - destruct (removed y) eqn:Hr.
    + unfold removeEntry. rewrite (entry_of_bind _ _ _ _ Hy), Hr. cbn. congruence.
    + intros Hx. pose proof (removeEntry_removal e y w Hy Hr) as Hrm.
      destruct (same_store_lookup (alter gone e (store w)) (store (removeEntry e w).2) e (gone y) (rm_store _ _ _ Hrm))
        as (z & Hz & Hc); [by rewrite lookup_alter_eq, Hy|]. rewrite Hx in Hz. injection Hz as <-.
      apply core_fields in Hc. naive_solver.
  - unfold removeEntry. rewrite entry_of_missing by done. cbn. congruence.
Qed.

Lemma failEntry_drives j e error : drives Q j e (failEntry j e error).
Proof.
  apply drives_bind; [apply drives_framed, framed_entry_of|]. intros x.
  destruct (removed x); [by apply drives_phase|].
  apply drives_bind; [apply drives_of; [apply keeps_removeEntry|apply steady_removeEntry]|]. intros _.
  apply drives_bind; [apply drives_framed, framed_get|]. intros w.
  apply drives_bind; [by apply drives_phase|]. intros _. apply drives_of; [|apply steady_new_delivery].
  apply keeps_new_delivery. intros l t (l' & Heq & _)%list_elem_of_fmap. by destruct (isAuthFailure _).
Qed.

Lemma settle_evaluation_inv j w : inv w -> inv (settle_evaluation j w).2.
Proof.
  intros Hi. unfold settle_evaluation. rewrite evaluation_of_bind. destruct (evaluations w !! j) as [a|] eqn:Ha; [|done].
  destruct (phase a) as [| | | |[u|error]| | | |] eqn:Hp; try done;
    (assert (Hb : busy j (j_entry a) w) by (exists a; by rewrite Hp)); [by apply (drives_phase Q j (j_entry a))|].
  destruct (busy_entry _ _ _ _ Hi Hb) as (x & Hx & _). rewrite (entry_of_bind _ _ _ _ Hx).
  assert (Hrm : drives Q j (j_entry a) (removeEntry (j_entry a))).
  { apply drives_of; [apply keeps_removeEntry|apply steady_removeEntry]. }
  destruct (wasInitialized a); cbn [negb].
  - case_decide; [|by apply failEntry_drives].
    apply (drives_bind Q j (j_entry a)); [done|intros _; by apply drives_phase|done..].
  - rewrite run_bind. destruct (Hrm w Hi Hb) as [Hi1 (b & Hb1 & Hpb & He)].
    pose proof (removeEntry_gone (j_entry a) w) as Hg. destruct (removeEntry _ w) as [[[]|err] w1]; [|done]. cbn in *.
    apply (inv_phase Q ∅ ∅ j (Releasing (Throw error)) w1); [done..|]. intros b' Hb'. rewrite Hb1 in Hb'. injection Hb' as <-.
    rewrite He. split; [done|]. intros y. apply Hg.
Qed.

(** ** Giving up the entry *)

Definition given_up (j : nat) x : QueryEntry := if decide (evaluation x = Some j) then set_evaluation None x else x.

Lemma given_up_fields j x : initialized (given_up j x) = initialized x /\ removed (given_up j x) = removed x /\
  e_identity (given_up j x) = e_identity x /\ e_commitVersion (given_up j x) = e_commitVersion x /\
  dirtyVersion (given_up j x) = dirtyVersion x /\ evaluation (given_up j x) <> Some j /\
  (evaluation (given_up j x) = None \/ evaluation (given_up j x) = evaluation x) /\
  (evaluation x <> Some j -> evaluation (given_up j x) = evaluation x).
Proof. unfold given_up. case_decide; cbn; split_and!; auto; congruence. Qed.

Lemma main_given_up (p : OrderedPublication ReactiveCommit) st d ev j a ph :
  main Q ∅ ∅ p st d ev -> ev !! j = Some a -> under_way ph = false ->
  main Q ∅ {[ j_entry a ]} p (alter (given_up j) (j_entry a) st) d (alter (set_phase ph) j ev).
Proof.
  intros [Hp Hs Hev Hent (live & Ht & Hl) Hu Hr Hf Hdirty Hevn Hj] Ha Hph. set (e := j_entry a).
  destruct (Hj j a Ha) as (x & Hx & _). fold e in Hx.
  assert (Hlk : forall e', alter (given_up j) e st !! e' = if decide (e = e') then Some (given_up j x) else st !! e').
  { intros e'. rewrite lookup_alter. case_decide; [subst; by rewrite Hx|done]. }
  assert (Hlj : forall j', alter (set_phase ph) j ev !! j' = if decide (j = j') then Some (set_phase ph a) else ev !! j').
  { intros j'. rewrite lookup_alter. case_decide; [subst; by rewrite Ha|done]. }
  destruct (given_up_fields j x) as (F1 & F2 & F3 & F4 & F5 & F6 & F7 & F8). split; try done.
  - by apply dense_alter.
  - by apply dense_alter.
  - intros e' y Hy. destruct (alter_cases _ _ _ _ _ _ Hx Hy) as [[-> ->]|[_ Hy']]; [|by eapply Hent].
    destruct (Hent e x Hx). unfold given_up. case_decide; by split.
  - exists live. split; [done|]. intros e'. rewrite Hl, Hlk. case_decide as He; [subst e'|done].
    split; intros (y & Hy & Hiy & Hry); [exists (given_up j x)|exists x]; rewrite ?Hx in *; simplify_eq; split_and!; congruence.
  - intros e' He'. apply Hu. intros y Hy. specialize (He' (if decide (e = e') then given_up j x else y)).
    rewrite Hlk in He'. case_decide as He; [subst e'; rewrite Hx in Hy; injection Hy as <-; rewrite <- F1|]; by apply He'.
  - intros e' y Hy Hiy. destruct (alter_cases _ _ _ _ _ _ Hx Hy) as [[-> ->]|[_ Hy']]; [|by apply Hr].
    rewrite F3, F4. apply Hr; congruence.
  - intros e' y v c Hy Hiy Hry Hin Hlt. destruct (alter_cases _ _ _ _ _ _ Hx Hy) as [[-> ->]|[_ Hy']]; [|by eapply Hf].
    rewrite F5. apply (Hf e x v c); congruence.
  - intros e' y Hy Hiy Hry HE Hlt. destruct (alter_cases _ _ _ _ _ _ Hx Hy) as [[-> ->]|[_ Hy']]; [set_solver|by apply (Hdirty e' y)].
  - intros e' y j' Hy Hyj. assert (Hjj : j <> j' /\ exists z, st !! e' = Some z /\ evaluation z = Some j').
    { destruct (alter_cases _ _ _ _ _ _ Hx Hy) as [[-> ->]|[Hne Hy']].
      - split; [congruence|]. exists x. split; [done|]. destruct F7; congruence.
      - split; [|eauto]. intros <-. destruct (Hevn e' y j Hy' Hyj) as (b & Hb & He & _). rewrite Ha in Hb. by injection Hb as <-. }
    destruct Hjj as (Hne & z & Hz & Hzj). destruct (Hevn e' z j' Hz Hzj) as (b & Hb & ?). exists b. by rewrite Hlj, decide_False.
  - intros j' b. rewrite Hlj. case_decide as Hjj.
    + intros [= <-]. subst j'. exists (given_up j x). fold e. cbn. rewrite Hlk, decide_True by done. split; [done|].
      split; [congruence|]. by destruct ph as [| | | | | |[]| |].
    + intros Hb. destruct (Hj j' b Hb) as (y & Hy & Hw & Hrel). rewrite Hlk. case_decide as He; [|by exists y].
      rewrite <- He, Hx in Hy. injection Hy as <-. exists (given_up j x). rewrite F2. split_and!; [done| |done].
      intros Hub. destruct (Hw Hub) as [?|Hxj]; [by left|right]. rewrite <- Hxj. apply F8. congruence.
Qed.

(** After [release], up to the fields of dormancy. *)
Lemma release_run j e x w : store w !! e = Some x ->
  exists w1, release j e w = (Ret tt, w1) /\ same (set_store (alter (given_up j) e (store w)) w) w1.
Proof.
  intros Hx. unfold release. rewrite (entry_of_bind _ _ _ _ Hx).
  assert (Hwhen : exists w1, (when (bool_decide (evaluation x = Some j))
        (_ ← update_entry e (set_evaluation None); modify (fun w => set_evaluatingEntries (evaluatingEntries w - 1) w))) w = (Ret tt, w1) /\
      same (set_store (alter (given_up j) e (store w)) w) w1).
  { assert (Halter : alter (given_up j) e (store w) = <[e := given_up j x]> (store w)).
    { apply map_eq. intros k. rewrite lookup_alter, lookup_insert. case_decide; [|done]. subst. by rewrite Hx. }
    unfold when, update_entry, modify, mbind, eff_bind. case_bool_decide as Hj; cbn; eexists; (split; [done|]); split; cbn; eauto; rewrite Halter.
    - assert (Ha : alter (set_evaluation None) e (store w) = <[e := given_up j x]> (store w)); [|by rewrite Ha].
      apply map_eq. intros k. rewrite lookup_alter, lookup_insert. case_decide; [|done]. subst. rewrite Hx.
      unfold given_up. by rewrite decide_True.
    - unfold given_up. rewrite decide_False by done. by rewrite insert_id. }
  destruct Hwhen as (w1 & Hw1 & Hs). rewrite run_bind, Hw1.
  destruct (_ && _); cbn [when]; [|by exists w1].
  unfold readNow, clock_reading. destruct (Hclock (r_readings w1)) as [t Ht].
  unfold mbind, eff_bind. cbn. rewrite Ht. cbn. eexists. split; [done|]. etransitivity; [exact Hs|].
  split; cbn; eauto. by apply same_store_alter.
Qed.

Lemma ensureCurrent_evaluations e t w j : dense (evaluations w) -> is_Some (evaluations w !! j) ->
  evaluations (ensureCurrent e t w).2 !! j = evaluations w !! j.
Proof.
  intros Hd Hj. destruct (store w !! e) as [x|] eqn:Hx; [|unfold ensureCurrent; by rewrite entry_of_missing].
  destruct (removed x) eqn:Hr; [by rewrite (ensureCurrent_removed _ _ _ _ Hx Hr)|].
  rewrite (ensureCurrent_run _ _ _ _ Hx Hr). cbv zeta. destruct (_ && _); [done|]. destruct (evaluation x); [done|].
  cbn. rewrite lookup_insert_ne; [done|]. intros Heq. apply Hd in Hj. lia.
Qed.

(** An evaluation that has given up its entry moves on. *)
Lemma inv_phase_over j ph w : inv w -> under_way ph = false ->
  (forall a, evaluations w !! j = Some a -> under_way (phase a) = false) -> inv (set_phase_of j ph w).2.
Proof.
  intros [Hm Hh Hs Hl] Hph Ha. split; cbn; try done.
  destruct (evaluations w !! j) as [a|] eqn:Ej; [|by rewrite alter_missing].
  specialize (Ha a eq_refl). apply (main_phase _ _ _ _ _ _ _ j a); try done; [congruence| |by destruct ph as [| | | | | |[]| |]].
  intros _ e x Hx Hxj. destruct (mi_evaluation _ _ _ _ _ _ _ Hm e x j Hx Hxj) as (b & Hb & _ & Hw). congruence.
Qed.
(** The state once [release] has run and the evaluation is over. *)
Lemma released_inv j a ph w w1 :
  inv w -> evaluations w !! j = Some a -> under_way ph = false ->
  same (set_store (alter (given_up j) (j_entry a) (store w)) w) w1 ->
  inv_ex Q ∅ {[ j_entry a ]} (set_phase_of j ph w1).2.
Proof.
  intros [Hm Hh Hs Hl] Ha Hph Hsame. destruct (mi_job _ _ _ _ _ _ _ Hm j a Ha) as (x & Hx & _).
  apply (inv_same Q ∅ {[ j_entry a ]} (set_evaluations (alter (set_phase ph) j (evaluations w))
    (set_store (alter (given_up j) (j_entry a) (store w)) w))).
  - destruct Hsame as [? ? ? Hev ? ? ? ?]. split; cbn in *; try done. by rewrite <- Hev.
  - split; cbn; try done.
    + by apply main_given_up.
    + apply (history_alter _ _ _ x); [done|apply given_up_fields|done].
    + by apply listeners_alter.
Qed.

Lemma inv_evaluated e w : inv_ex Q ∅ {[ e ]} w ->
  (forall x, store w !! e = Some x -> initialized x = true -> removed x = false -> e_commitVersion x < dirtyVersion x -> evaluation x <> None) ->
  inv w.
Proof.
  intros [Hm Hh Hs Hl] He. split; try done. apply (main_evaluated _ _ _ _ _ _ _ e) in Hm; [by rewrite difference_diag_L in Hm|done].
Qed.

Lemma release_inv j w : inv w -> inv (release_evaluation j w).2.
Proof.
  intros Hi. unfold release_evaluation. rewrite evaluation_of_bind. destruct (evaluations w !! j) as [a|] eqn:Ha; [|done].
  destruct (phase a) as [| | | | | |result| |] eqn:Hp; try done.
  destruct (mi_job _ _ _ _ _ _ _ (inv_main _ _ _ _ Hi) j a Ha) as (x & Hx & _ & Hrel). rewrite Hp in Hrel.
  destruct (release_run j (j_entry a) x w Hx) as (w1 & Hrun & Hsame). rewrite run_attempt.
  match goal with |- context [(_ ≫= ?k) w] => rewrite (run_bind (release j (j_entry a)) k w), Hrun; set (rest := k tt w1) end.
  assert (Hw2 : inv_ex Q ∅ {[ j_entry a ]} (set_phase_of j (Settled result) w1).2) by by eapply released_inv.
  assert (Hover : forall b, evaluations (set_phase_of j (Settled result) w1).2 !! j = Some b -> under_way (phase b) = false).
  { cbn. intros b. rewrite lookup_alter_eq. destruct (evaluations w1 !! j); [|done]. by intros [= <-]. }
  assert (Hsome : is_Some (evaluations (set_phase_of j (Settled result) w1).2 !! j)).
  { cbn. rewrite lookup_alter_eq, <- (sm_evaluations _ _ Hsame). cbn. rewrite Ha. by eexists. }
  assert (Hx2 : exists y, store (set_phase_of j (Settled result) w1).2 !! j_entry a = Some y /\ core_of (given_up j x) = core_of y).
  { apply (same_store_lookup _ _ _ _ (sm_store _ _ Hsame)). cbn. by rewrite lookup_alter_eq, Hx. }
  destruct Hx2 as (y & Hy & Hc). apply core_fields in Hc.
  assert (Hrest : inv rest.2 /\ forall b, evaluations rest.2 !! j = Some b -> under_way (phase b) = false).
  { unfold rest. rewrite run_bind. change (set_phase_of j (Settled result) w1) with (Ret (E:=js_error) tt, (set_phase_of j (Settled result) w1).2).
    set (w2 := (set_phase_of j (Settled result) w1).2) in *. clearbody w2. cbv beta iota.
    rewrite (entry_of_bind _ _ _ _ Hy). destruct (given_up_fields j x) as (F1 & F2 & F3 & F4 & F5 & _).
    destruct result as [[]|error].
    - destruct (negb (removed y) && bool_decide _) eqn:Eg.
      + apply andb_true_iff in Eg as [Hry Hlt%bool_decide_eq_true]. split.
        * assert (He : inv_ex Q ∅ ({[j_entry a]} ∖ {[j_entry a]}) (ensureCurrent (j_entry a) (dirtyVersion y) w2).2);
            [|by rewrite difference_diag_L in He]. apply (ensureCurrent_ex Q _ _ _ y); try done.
          -- apply (mi_entry _ _ _ _ _ _ _ (inv_main _ _ _ _ Hw2) _ _ Hy).
          -- intros _. rewrite bool_decide_eq_false_2 by lia. apply andb_false_r.
          -- by destruct (removed y).
        * intros b Hb. apply Hover. rewrite ensureCurrent_evaluations in Hb; try done. apply (mi_evaluations _ _ _ _ _ _ _ (inv_main _ _ _ _ Hw2)).
      + split; [|done]. apply (inv_evaluated (j_entry a) w2); [done|]. intros z Hz _ Hr Hlt. rewrite Hy in Hz. injection Hz as <-.
        rewrite Hr in Eg. cbn in Eg. apply bool_decide_eq_false in Eg. lia.
    - split; [|done]. apply (inv_evaluated (j_entry a) w2); [done|]. intros z Hz _ Hr. rewrite Hy in Hz. injection Hz as <-.
      destruct Hc as (_ & _ & _ & _ & _ & _ & _ & _ & _ & _ & _ & Hrm). congruence. }
  destruct Hrest as [Hir Hor]. apply inv_phase_over; [done| |done]. by destruct rest.1 as [[|]|].
Qed.

Lemma follow_inv j w : inv w -> inv (follow j w).2.
Proof.
  intros Hi. unfold follow. rewrite evaluation_of_bind. destruct (evaluations w !! j) as [a|] eqn:Ha; [|done].
  destruct (phase a) as [| | | | | | |n|] eqn:Hp; try done. rewrite evaluation_of_bind.
  destruct (evaluations w !! n) as [b|]; [|done]. destruct (phase b); try done.
  apply inv_phase_over; [done..|]. intros a' Ha'. rewrite Ha in Ha'. injection Ha' as <-. by rewrite Hp.
Qed.
End release.
