(* ===== verification/ReactiveSubscribe.v ===== *)
(** Subscribing keeps the invariants of shared queries. *)
From S2P Require Import Prelude Errors Limits Dll Publication PublicationInv PublicationContract Value Wire StableEncode Protocol DependencyIndex History HistoryProps Effects Observations Reactive ReactiveSteps ReactiveInv ReactiveKeep ReactiveEvents ReactiveSend ReactiveEvaluate.
Local Open Scope Z_scope.

Section subscribe.
Context {options : ReactiveOptions} (Q : string -> Z -> Observation).
Implicit Types (w : Reactive) (x : QueryEntry) (st : gmap nat QueryEntry).
Abbreviation inv := (inv_ex Q ∅ ∅).
Abbreviation keeps := (keeps Q).

Lemma dense_fresh {A} (m : gmap nat A) : dense m -> m !! size m = None.
Proof. intros H. destruct (m !! size m) eqn:E; [|done]. assert (size m < size m)%nat by (apply H; eauto). lia. Qed.

(** ** A new entry *)

Lemma main_insert D E p st d ev x :
  main Q D E p st d ev -> initialized x = false -> evaluation x = None -> entry_ok Q p x ->
  main Q D E p (<[size st := x]> st) d ev.
Proof.
  intros [Hp Hs Hev Hent (live & Ht & Hl) Hu Hr Hf Hdirty Hevn Hj] Hi He Hok.
  pose proof (dense_fresh st Hs) as Hnew.
  assert (Hold : forall e y, <[size st := x]> st !! e = Some y -> initialized y = true \/ evaluation y <> None -> st !! e = Some y).
  { intros e y. rewrite lookup_insert. case_decide; [|done]. intros [= <-]. rewrite Hi, He. by intros []. }
  assert (Hkeep : forall e y, st !! e = Some y -> <[size st := x]> st !! e = Some y).
  { intros e y Hy. rewrite lookup_insert_ne; [done|]. intros <-. congruence. }
  split; try done.
  - by apply dense_insert_new.
  - intros e y. rewrite lookup_insert. case_decide; [by intros [= <-]|by apply Hent].
  - exists live. split; [done|]. intros e. rewrite Hl. split; intros (y & Hy & Hiy & Hry); exists y; (split; [|done]); eauto.
  - intros e Hy. apply Hu. eauto.
  - eauto.
  - intros e y v c Hy Hiy. apply Hf; eauto.
  - intros e y Hy Hiy. apply Hdirty; eauto.
  - intros e y j Hy Hyj. apply (Hevn e y j); [|done]. apply Hold; [done|]. right. congruence.
  - intros j a Ha. destruct (Hj j a Ha) as (y & Hy & H). eauto.
Qed.

Lemma inv_new_entry w x : inv w -> initialized x = false -> evaluation x = None -> entry_ok Q (publication w) x ->
  inv (set_store (<[size (store w) := x]> (store w)) w).
Proof.
  intros [Hm (ps & Hps & Hw & Hr) Hs Hl] Hi He Hok.
  assert (Hkeep : forall e y, store w !! e = Some y -> <[size (store w) := x]> (store w) !! e = Some y).
  { intros e y Hy. rewrite lookup_insert_ne; [done|]. intros <-. rewrite dense_fresh in Hy by apply Hm. done. }
  split; cbn; try done.
  - by apply main_insert.
  - exists ps. split_and!; [done..|]. intros r Hin. destruct (Hr r Hin) as (y & Hy & ?). eauto.
  - intros l b Hb. destruct (Hl l b Hb) as [y Hy]. eexists. by apply Hkeep.
Qed.

Lemma keeps_entryFor o : keeps (entryFor o).
Proof.
  unfold entryFor. apply keeps_inv_bind; [apply keeps_framed, framed_lift|]. intros args.
  apply keeps_inv_bind; [apply keeps_framed, framed_get|]. intros [e|]; [apply keeps_framed, framed_ret|].
  apply keeps_inv_bind; [apply keeps_makeEntryCapacity|]. intros _.
  apply keeps_inv_bind; [apply keeps_framed, framed_lift|]. intros decoded.
  apply keeps_inv_bind; [apply keeps_framed, framed_new_generation|]. intros g w Hi. rewrite run_get, run_modify.
  apply inv_bind; [|intros; apply keeps_framed, framed_ret].
  eapply inv_same; [apply (framed_modify (fun w => set_entries _ w)); same_fields|].
  apply inv_new_entry; try done. pose proof (mi_pub _ _ _ _ _ _ _ (inv_main _ _ _ _ Hi)) as [_ Hp].
  split; cbn; try done.
Qed.

(** ** The newest version *)

Lemma keeps_current e : keeps (top ← highWaterMark; ensureCurrent e top).
Proof.
  intros w Hi. apply (after_highWaterMark _ (fun w' => inv w')). intros w1 Hs Htop.
  assert (Hi1 : inv w1) by by eapply inv_same. split; [done|].
  destruct (store w1 !! e) as [x|] eqn:Hx; [|unfold ensureCurrent; by rewrite entry_of_missing].
  assert (He : inv_ex Q ∅ (∅ ∖ {[e]}) (ensureCurrent e (committedHighWater (publication w)) w1).2).
  { apply (ensureCurrent_ex Q _ _ _ x); try done; [lia|set_solver..]. }
  replace (∅ ∖ {[e]}) with (∅ : gset nat) in He by set_solver. exact He.
Qed.

Lemma keeps_awaiting e s : keeps (top ← highWaterMark; a ← ensureCurrent e top; update_subscribing s (set_s_phase (SWaiting a))).
Proof.
  intros w Hi. pose proof (keeps_current e w Hi) as Hc. revert Hc. rewrite !run_bind.
  destruct (highWaterMark w) as [[top|err] w1]; [|done]. rewrite run_bind. destruct (ensureCurrent e top w1) as [[a|err] w2]; [|done].
  intros Hc. apply (keeps_framed Q (update_subscribing s (set_s_phase (SWaiting a)))); [unfold update_subscribing; frame|exact Hc].
Qed.

Lemma keeps_compare_and_install {A} version (m : eff A) : keeps m -> keeps (compare_and_install version m).
Proof.
  intros Hm. unfold compare_and_install. apply keeps_inv_bind; [apply keeps_framed, framed_get|]. intros p.
  apply keeps_inv_bind; [apply keeps_framed, framed_lift|]. intros [|]; [|apply keeps_framed, framed_ret].
  apply keeps_inv_bind; [done|]. intros; apply keeps_framed, framed_ret.
Qed.

(** ** Listeners *)

Lemma framed_attached listener l : framed
  (mine ← get (subscriber_bindings (l_subscriber listener));
   _ ← modify (fun w => set_bySubscriber (jmap_set (l_subscriber listener) (jmap_set (l_id listener) l mine) (bySubscriber w)) w);
   let e := l_entry listener in
   x ← entry_of e;
   _ ← when (bool_decide (listeners x = [])) (update_entry e (set_ownerFairnessKey (l_fairnessKey listener)));
   _ ← update_entry e (fun x => set_listeners (listeners x ++ [l]) x);
   _ ← when (bool_decide (dormantAtMs x <> None)) (modify (fun w => set_dormantEntries (dormantEntries w - 1)%Z w));
   _ ← update_entry e (set_dormantAtMs None);
   _ ← modify (fun w => set_queryListeners (queryListeners w + 1)%Z w);
   mret l).
Proof. cbv zeta. frame. Qed.

Lemma attach_inv listener w : inv w -> is_Some (store w !! l_entry listener) -> inv (attach listener w).2.
Proof.
  intros [Hm Hh Hs Hl] He. unfold attach. rewrite run_get, run_modify.
  apply (inv_same _ _ _ (set_bindings (<[size (bindings w) := listener]> (bindings w)) w)); [apply framed_attached|].
  split; try done. intros l b. cbn. rewrite lookup_insert. case_decide; [by intros [= <-]|apply Hl].
Qed.

Lemma keeps_install_listener s : keeps (install_listener s).
Proof.
  unfold install_listener. apply keeps_inv_bind; [apply keeps_framed, framed_subscribing_of|]. intros a. cbv zeta.
  apply keeps_inv_bind; [apply keeps_framed, framed_entry_of|]. intros x. apply keeps_inv_bind.
  - apply keeps_compare_and_install. intros w Hi. destruct (store w !! s_entry a) as [y|] eqn:Hy; [|by rewrite entry_of_missing].
    rewrite (entry_of_bind _ _ _ _ Hy). destruct (removed y); [done|]. rewrite run_bind.
    pose proof (framed_assertSubscriptionIdentity (o_subscriber (s_options a)) (o_id (s_options a)) w) as Hs.
    destruct (assertSubscriptionIdentity _ _ w) as [[id|err] w1]; cbn in Hs; [|by eapply inv_same].
    apply inv_bind; [|intros; apply keeps_framed, framed_ret].
    apply attach_inv; [by eapply inv_same|]. cbn.
    destruct (same_store_lookup _ _ _ _ (sm_store _ _ Hs) Hy) as (z & Hz & _). by exists z.
  - assert (Hagain : keeps (x ← entry_of (s_entry a);
      e ← (if removed x then entryFor (s_options a) else mret (s_entry a));
      _ ← update_subscribing s (set_s_entry e);
      top ← highWaterMark;
      a ← ensureCurrent e top;
      update_subscribing s (set_s_phase (SWaiting a)))).
    { apply keeps_inv_bind; [apply keeps_framed, framed_entry_of|]. intros y.
      apply keeps_inv_bind; [destruct (removed y); [apply keeps_entryFor|apply keeps_framed, framed_ret]|]. intros e.
      apply keeps_inv_bind; [apply keeps_framed; unfold update_subscribing; frame|]. intros _. apply keeps_awaiting. }
    intros [[l|]|]; [|exact Hagain..].
    apply keeps_inv_bind; [apply keeps_framed; unfold update_subscribing; frame|]. intros _. apply keeps_deliver_query.
Qed.

Lemma keeps_subscribe o : keeps (subscribeQuery o).
Proof.
  unfold subscribeQuery. do 2 (apply keeps_inv_bind; [apply keeps_framed; first [apply framed_lift|apply framed_assertSubscriptionIdentity]|intros _]).
  apply keeps_inv_bind; [apply keeps_entryFor|]. intros e. apply keeps_inv_bind; [apply keeps_framed, framed_entry_of|]. intros x.
  do 2 (apply keeps_inv_bind; [apply keeps_framed; frame|intros _]).
  apply keeps_inv_bind; [apply keeps_framed, framed_get|]. intros s.
  apply keeps_inv_bind; [apply keeps_framed; frame|]. intros _.
  apply keeps_inv_bind; [apply keeps_attempt, keeps_current|]. intros [a|err]; [|apply keeps_fail_subscribe].
  apply keeps_framed. unfold update_subscribing. frame.
Qed.

Lemma keeps_resume_subscribe s : keeps (resume_subscribe s).
Proof.
  unfold resume_subscribe. apply keeps_inv_bind; [apply keeps_framed, framed_subscribing_of|]. intros a.
  destruct (s_phase a) as [p| |]; [|apply keeps_framed, framed_ret..].
  apply keeps_inv_bind; [apply keeps_framed, framed_get|]. intros [[u|err]|]; [|apply keeps_fail_subscribe|apply keeps_framed, framed_ret].
  apply keeps_inv_bind; [apply keeps_attempt, keeps_install_listener|]. intros [[]|err]; [apply keeps_framed, framed_ret|apply keeps_fail_subscribe].
Qed.

Lemma framed_unsubscribe subscriber id : framed (unsubscribe subscriber id).
Proof. unfold unsubscribe. repeat first [apply framed_detach|frame]. Qed.

Lemma framed_disconnect subscriber : framed (disconnect subscriber).
Proof. unfold disconnect. repeat first [apply framed_detach|frame]. Qed.
End subscribe.
