(* ===== verification/ReactivePublish.v ===== *)
(** Publishing commits keeps the invariants of shared queries: whoever reads a
    written key is marked before the publication is answered. *)
From S2P Require Import Prelude Errors Limits Dll Publication PublicationInv PublicationContract Value Wire StableEncode Protocol DependencyIndex History HistoryProps Effects Observations Reactive ReactiveSteps ReactiveInv ReactiveKeep ReactiveEvents ReactiveSend.
Local Open Scope Z_scope.

Section publish.
Context {options : ReactiveOptions} (Q : string -> Z -> Observation).
Implicit Types (w : Reactive) (x : QueryEntry) (st : gmap nat QueryEntry) (p : OrderedPublication ReactiveCommit).
Abbreviation inv := (inv_ex Q ∅ ∅).

(** ** The publication moves on *)

Lemma main_publication E p p' st d ev :
  main Q ∅ E p st d ev -> good_publication p' -> committedHighWater p <= committedHighWater p' -> same_calls p p' ->
  main Q ∅ E p' st d ev.
Proof.
  intros [Hp Hs Hev Hent Hl Hu Hr Hf Hdirty Hevn Hj] Hp' Hc [Hlog Hst]. split; try done.
  - intros e x Hx. destruct (Hent e x Hx). split; try done; [lia|]. by rewrite Hlog, Hst.
  - rewrite Hlog. intros e x v c Hx Hi Hr' Hin Hlt. destruct (Hf e x v c Hx Hi Hr' Hin Hlt) as [?|[?|[? _]]]; [auto..|set_solver].
Qed.

Lemma inv_publication p' w : inv w -> good_publication p' -> committedHighWater (publication w) <= committedHighWater p' ->
  same_calls (publication w) p' -> inv (set_publication p' w).
Proof. intros [Hm Hh Hs Hl] ? ? ?. split; cbn; try done. by eapply main_publication. Qed.

Lemma step_inv_ex e p' w : inv w -> Publication.step e (publication w) = Some p' -> e <> EBegin -> inv (set_publication p' w).
Proof.
  intros Hi Hstep Hne. destruct (mi_pub _ _ _ _ _ _ _ (inv_main _ _ _ _ Hi)) as [Hok H0].
  pose proof (step_committed _ _ _ Hok Hstep). apply inv_publication; [done| |done|by eapply step_calls].
  split; [by eapply step_ok|lia].
Qed.

(** The call of [process] begins: the readers of what was written are still to be marked. *)
Lemma main_begin p st d ev (x : nat) s c :
  main Q ∅ ∅ p st d ev -> microtask p = Some x -> p_slots p !! x = Some s -> Publication.value s = Some c ->
  main Q (DependencyIndex.affected (writeKeys c) (index d)) ∅ (begin x p) st d ev.
Proof.
  intros [[Hp H0] Hs Hev Hent (live & Ht & Hl) Hu Hr Hf Hdirty Hevn Hj] Hx Hslot Hval.
  destruct (microtask_slot p x Hp Hx) as (s' & v & Hs' & Hver & _ & Hlt). rewrite Hslot in Hs'. injection Hs' as <-.
  assert (Hfields : p_log (begin x p) = p_log p ++ [(version s, Some c)] /\ startedHighWater (begin x p) = version s /\
    committedHighWater (begin x p) = committedHighWater p).
  { unfold begin. rewrite Hslot. cbn. by rewrite Hval. }
  destruct Hfields as (Flog & Fst & Fc).
  assert (Hok : pub_ok (begin x p)) by (apply (step_ok EBegin p); [done|]; cbn; by rewrite Hx).
  split; try done.
  - split; [done|]. by rewrite Fc.
  - intros e y Hy. destruct (Hent e y Hy) as [? Hcov ? ? ? ?]. split; try done; [by rewrite Fc|]. rewrite Flog, Fst. intros Hi v' Hv'.
    rewrite fmap_app, elem_of_app. destruct (decide (v' <= startedHighWater p)); [left; apply (Hcov Hi); lia|right].
    cbn. apply list_elem_of_singleton. lia.
  - by exists live.
  - rewrite Flog, Fst. intros e y v' c' Hy Hi Hrm [Hin|Hin]%elem_of_app Hcv.
    + destruct (Hf e y v' c' Hy Hi Hrm Hin Hcv) as [?|[?|[? _]]]; [auto..|set_solver].
    + apply list_elem_of_singleton in Hin. injection Hin as -> ->.
      destruct (decide (e ∈ DependencyIndex.affected (writeKeys c) (index d))) as [He|He]; [auto|left].
      rewrite (tracked_affected _ _ _ _ Ht) in He. assert (Hlive : e ∈ live) by (apply Hl; eauto). set_solver.
Qed.

(** ** Marking *)

Definition mark (version : Z) (e : nat) : eff unit :=
  x ← entry_of e;
  if removed x || bool_decide (version <= e_commitVersion x)%Z then mret tt
  else
    _ ← update_entry e (fun x => if decide (dirtyVersion x < version)%Z then set_dirtyVersion version x else x);
    _ ← ensureCurrent e version;
    mret tt.

Lemma main_excuse D E E' p st d ev : main Q D E p st d ev -> E ⊆ E' -> main Q D E' p st d ev.
Proof.
  intros [Hp Hs Hev Hent Hl Hu Hr Hf Hdirty Hevn Hj] HE. split; try done.
  intros e x Hx Hi Hrm He. apply (Hdirty e x Hx Hi Hrm). set_solver.
Qed.

Lemma ensureCurrent_frame e t w :
  publication (ensureCurrent e t w).2 = publication w /\
  (forall e', is_Some (store w !! e') -> is_Some (store (ensureCurrent e t w).2 !! e')) /\
  (forall x, store w !! e = Some x -> removed x = false -> exists a, (ensureCurrent e t w).1 = Ret a).
Proof.
  destruct (store w !! e) as [x|] eqn:Hx; [|unfold ensureCurrent; by rewrite entry_of_missing].
  destruct (removed x) eqn:Hr.
  { rewrite (ensureCurrent_removed _ _ _ _ Hx Hr). split_and!; [done..|]. intros y [= <-]. congruence. }
  rewrite (ensureCurrent_run _ _ _ _ Hx Hr). cbv zeta.
  destruct (_ && _); [|destruct (evaluation x)]; cbn; (split_and!; [done| |eauto]); intros e' He';
    rewrite ?lookup_alter_is_Some; done.
Qed.

Lemma mark_inv D version e w :
  inv_ex Q D ∅ w -> is_Some (store w !! e) -> startedHighWater (publication w) = version ->
  exists w', mark version e w = (Ret tt, w') /\ inv_ex Q (D ∖ {[e]}) ∅ w' /\ publication w' = publication w /\
    forall e', is_Some (store w !! e') -> is_Some (store w' !! e').
Proof.
  intros [Hm Hh Hs Hl] [x Hx] Hv. unfold mark. rewrite (entry_of_bind _ _ _ _ Hx).
  destruct (removed x || bool_decide (version <= e_commitVersion x)) eqn:Eg.
  { exists w. split_and!; [done| |done..]. split; try done. apply main_marked; [done|]. intros y Hy _ Hr.
    rewrite Hx in Hy. injection Hy as <-. rewrite Hr in Eg. cbn in Eg. apply bool_decide_eq_true in Eg. right. lia. }
  apply orb_false_iff in Eg as [Hr Hlt%bool_decide_eq_false]. rewrite run_update_entry.
  change (fun x => if decide (dirtyVersion x < version) then set_dirtyVersion version x else x) with (raise version).
  set (w1 := set_store (alter (raise version) e (store w)) w).
  destruct (raise_fields version x) as (F1 & F2 & F3 & F4 & F5 & F6 & F7).
  assert (Hx1 : store w1 !! e = Some (raise version x)) by (cbn; by rewrite lookup_alter_eq, Hx).
  assert (Htop : version <= committedHighWater (publication w)).
  { rewrite <- Hv. apply started_committed, Hm. }
  assert (Hi1 : inv_ex Q (D ∖ {[e]}) {[e]} w1).
  { split; cbn; try done; [|by apply (history_alter _ _ _ x)|by apply listeners_alter].
    apply main_marked.
    - apply (main_alter _ _ _ _ _ _ _ _ x); try done; [by eapply main_excuse; [|apply empty_subseteq]| |set_solver].
      apply raise_entry_ok; [|lia]. apply (mi_entry _ _ _ _ _ _ _ Hm _ _ Hx).
    - intros y Hy _ _. left. cbn in Hx1. rewrite Hx1 in Hy. injection Hy as <-. lia. }
  destruct (ensureCurrent_frame e version w1) as (G1 & G2 & G3).
  destruct (G3 _ Hx1) as [a Ha]; [congruence|].
  assert (Hi2 : inv_ex Q (D ∖ {[e]}) ({[e]} ∖ {[e]}) (ensureCurrent e version w1).2).
  { apply (ensureCurrent_ex Q _ _ _ (raise version x)); try done.
    - intros _. rewrite F4, bool_decide_eq_false_2 by lia. apply andb_false_r.
    - rewrite F2. congruence. }
  rewrite difference_diag_L in Hi2.
  rewrite run_bind. destruct (ensureCurrent e version w1) as [r w2]. cbn in *. subst r.
  exists w2. split_and!; [done..|]. intros e' He'. apply G2. cbn. by rewrite lookup_alter_is_Some.
Qed.

Lemma marks_inv version l : forall D w,
  inv_ex Q D ∅ w -> D ⊆ list_to_set l -> (forall e, e ∈ l -> is_Some (store w !! e)) -> startedHighWater (publication w) = version ->
  exists w', for_each (mark version) l w = (Ret tt, w') /\ inv w' /\ publication w' = publication w.
Proof.
  induction l as [|e l IH]; intros D w Hi HD Hl Hv.
  { exists w. cbn in HD. replace D with (∅ : gset nat) in Hi by set_solver. done. }
  destruct (mark_inv D version e w Hi) as (w1 & Hrun & Hi1 & Hp1 & Hs1); [apply Hl; by left|done|].
  destruct (IH (D ∖ {[e]}) w1 Hi1) as (w2 & Hrun2 & Hi2 & Hp2); [set_solver| |congruence|].
  - intros e' He'. apply Hs1, Hl. by right.
  - exists w2. cbn. rewrite run_bind, Hrun. split_and!; [done..|congruence].
Qed.

(** A publication is processed: all its readers are marked, and it is answered. *)
Lemma process_inv w : inv w -> inv (process w).2.
Proof.
  intros Hi. unfold process. rewrite run_get. destruct (microtask (publication w)) as [x|] eqn:Hx; [|done].
  destruct Hi as [Hm Hh Hs Hl]. destruct (mi_pub _ _ _ _ _ _ _ Hm) as [Hok _].
  destruct (microtask_slot _ _ Hok Hx) as (s & c & Hslot & Hver & Hval & Hlt). rewrite run_modify, Hslot, Hval, run_attempt.
  set (w1 := set_publication (begin x (publication w)) w).
  assert (Hi1 : inv_ex Q (DependencyIndex.affected (writeKeys c) (index (deps w1))) ∅ w1).
  { split; cbn; try done. by eapply main_begin. }
  assert (Hst : startedHighWater (publication w1) = version s) by (cbn; unfold begin; by rewrite Hslot).
  unfold processPublication. rewrite run_get.
  destruct (marks_inv (version s) (elements (DependencyIndex.affected (writeKeys c) (index (deps w1)))) _ w1 Hi1)
    as (w2 & Hrun & Hi2 & Hp2).
  - by rewrite list_to_set_elements_L.
  - intros e He%elem_of_elements. destruct (mi_tracked _ _ _ _ _ _ _ Hm) as (live & Ht & Hlive). cbn in He.
    rewrite (tracked_affected _ _ _ _ Ht) in He. destruct He as [He _]. apply Hlive in He as (y & Hy & _). by exists y.
  - done.
  - assert (Hc : calling (publication w2) = Some x) by (rewrite Hp2; cbn; unfold begin; by rewrite Hslot).
    unfold mark in Hrun. cbn [id]. rewrite Hrun. cbn [fst snd].
    apply (step_inv_ex (EAnswer Handoff)); [done| |done]. cbn. by rewrite Hc.
Qed.

Lemma writer_inv e w : inv w -> inv (handle (EWriter e) w).2.
Proof.
  intros Hi. cbn [handle]. rewrite run_get. destruct (writer_event e) eqn:He; [|done].
  destruct (Publication.step e (publication w)) as [p|] eqn:Hs; [|done].
  apply (step_inv_ex e); [done..|]. by intros ->.
Qed.
End publish.
