(* ===== verification/ReactiveProps.v ===== *)
(** Shared query subscriptions: no entry shows a stale result once the commits
    are processed, and whatever is sent is true. *)
From S2P Require Import Prelude Errors Limits Dll Publication PublicationInv PublicationContract PublicationProps Value Wire StableEncode Protocol DependencyIndex History HistoryProps Effects Observations Reactive ReactiveSteps ReactiveInv ReactiveKeep ReactiveEvents ReactiveSend ReactiveEvaluate ReactiveRelease ReactiveSubscribe ReactivePublish.
Local Open Scope Z_scope.

Section props.
Context {options : ReactiveOptions} (Q : string -> Z -> Observation).
Implicit Types (w : Reactive) (x : QueryEntry) (p : OrderedPublication ReactiveCommit).
Abbreviation inv := (inv_ex Q ∅ ∅).

(** ** Runs *)

(** The evaluator answers what the query shows at the version it names. *)
Definition event_ok w (e : ReactiveEvent) : Prop :=
  match e with
  | EEvaluated j (Ret ex) => forall a x, evaluations w !! j = Some a -> store w !! j_entry a = Some x -> tells Q (e_identity x) ex
  | _ => True
  end.

Fixpoint honest w (es : list ReactiveEvent) : Prop :=
  match es with [] => True | e :: es => event_ok w e /\ honest (react w e) es end.

Lemma new_publication (limits : CapacityLimits num) initial p : new_OrderedPublication limits initial = Ret p ->
  0 <= committedHighWater p /\ p_log p = [].
Proof.
  unfold new_OrderedPublication. destruct (validateCapacityLimits _ _) as [lim|]; [|done]. cbn. unfold throw_if.
  destruct (bool_decide _) eqn:E; [done|]. apply bool_decide_eq_false in E. intros Hp%Ret_inj. subst p. cbn. split; [lia|done].
Qed.

Lemma reactive_new_inv (limits : CapacityLimits num) initial p : limits_ok (resume Reactive.limits) ->
  new_OrderedPublication limits initial = Ret p -> inv (new_OrderedReactive p).
Proof.
  intros Hl Hp. pose proof (PublicationInv.new_inv _ _ _ Hp) as Hinv. destruct (new_publication _ _ _ Hp) as [H0 Hlog].
  assert (Hempty : forall A, dense (∅ : gmap nat A)).
  { intros A k. rewrite lookup_empty, map_size_empty. split; [by intros [? ?]|lia]. }
  split; cbn.
  - split; try done.
    + split; [by eexists _, _, _, _|done].
    + exists ∅. split; [apply tracked_new|]. intros e. split; [set_solver|]. by intros (x & Hx & _).
  - exists []. split_and!; [apply hist_repr_new| |by intros r ?%elem_of_nil].
    destruct Hl as (? & ? & ? & ?). split; cbn; [by apply Forall_nil|lia|intros; lia..].
  - split; [done|]. by intros s i t ?%elem_of_nil.
  - done.
Qed.

(** ** Freshness *)

(** A commit that writes none of the keys a query has read changes nothing for it. *)
Definition reads_decide p : Prop :=
  forall id v c, (v, Some c) ∈ p_log p -> writeKeys c ## ob_reads (Q id (v - 1)) -> Q id v = Q id (v - 1).

Lemma unread_unchanged w e x : inv w -> reads_decide (publication w) ->
  store w !! e = Some x -> initialized x = true -> removed x = false -> evaluation x = None ->
  forall n, e_commitVersion x + Z.of_nat n <= startedHighWater (publication w) ->
  Q (e_identity x) (e_commitVersion x + Z.of_nat n) = Q (e_identity x) (e_commitVersion x).
Proof.
  intros [Hm _ _ _] HQ Hx Hi Hr Hev. induction n as [|n IH]; intros Hn; [by rewrite Z.add_0_r|].
  specialize (IH ltac:(lia)). set (v := e_commitVersion x + Z.of_nat (S n)) in *.
  pose proof (mi_entry _ _ _ _ _ _ _ Hm e x Hx) as Hok.
  assert (Hin : v ∈ (p_log (publication w)).*1) by (apply (eo_covered _ _ _ Hok Hi); unfold v in *; lia).
  apply list_elem_of_fmap in Hin as ([v' o] & Hv & Hin). cbn in Hv. subst v'.
  destruct (log_values _ _ _ (proj1 (mi_pub _ _ _ _ _ _ _ Hm)) Hin) as [c ->].
  replace (e_commitVersion x + Z.of_nat n) with (v - 1) in IH by (unfold v; lia).
  rewrite <- IH. apply (HQ _ _ c); [done|]. rewrite IH, <- (mi_reads _ _ _ _ _ _ _ Hm e x Hx Hi).
  destruct (mi_fresh _ _ _ _ _ _ _ Hm e x v c Hx Hi Hr Hin) as [Hd|[Hd|[Hd _]]]; [unfold v; lia|done| |set_solver].
  destruct (mi_dirty _ _ _ _ _ _ _ Hm e x Hx Hi Hr); [set_solver|unfold v in Hd; lia|done].
Qed.

(** ** Every event *)

Context (Hlimits : limits_ok (resume limits)) (Htext : forall v, 0 <= text_bytes v)
  (Hclock : forall n, exists t, now n = Finite t).

Lemma react_inv w e : inv w -> event_ok w e -> inv (react w e).
Proof.
  intros Hi He. unfold react. destruct e as [o|s|j|j error|j answer|j|j|j|j|l failed|s i|s|s i from| | |e];
    try (by apply writer_inv); cbn [handle].
  - by apply keeps_subscribe.
  - by apply keeps_resume_subscribe.
  - rewrite evaluation_of_bind. destruct (evaluations w !! j) as [a|] eqn:Ha; [|done].
    destruct (phase a) eqn:Hp; try done. by eapply start_inv.
  - rewrite evaluation_of_bind. destruct (evaluations w !! j) as [a|] eqn:Ha; [|done].
    destruct (phase a) eqn:Hp; try done. apply inv_phase; [done..|]. intros a' Ha'. rewrite Ha in Ha'. injection Ha' as <-.
    by rewrite Hp.
  - apply answer_inv; [done..|]. intros a x ex Ha Hx ->. by eapply He.
  - by apply delivered_inv.
  - by apply settle_evaluation_inv.
  - by apply release_inv.
  - by apply follow_inv.
  - by apply keeps_sent.
  - apply (keeps_framed Q); [apply framed_unsubscribe|done].
  - apply (keeps_framed Q); [apply framed_disconnect|done].
  - by apply keeps_reset.
  - apply (keeps_inv_bind Q); [apply keeps_prune|intros; apply keeps_framed, framed_ret|done].
  - by apply process_inv.
Qed.

Lemma run_inv es : forall w, inv w -> honest w es -> inv (run w es).
Proof.
  induction es as [|e es IH]; intros w Hi; [done|]. intros [He Hes]. cbn. apply IH; [by apply react_inv|done].
Qed.

End props.

(** C4: shared queries are never left stale. Whatever is subscribed, published,
    evaluated, delivered, dropped and in whatever order, as long as the
    evaluator answers what the query shows at the version it names, and a commit
    that misses a query's read set leaves the query as it was: an entry that is
    not being evaluated holds what its query shows at every version from its own
    to the last one processed, and an entry whose read set was written by a
    processed commit after its version has an evaluation under way. *)
Theorem reactive_fresh {options : ReactiveOptions} (Q : string -> Z -> Observation)
    (limits : CapacityLimits num) initial p es :
  limits_ok (resume Reactive.limits) -> (forall v, 0 <= text_bytes v) -> (forall n, exists t, now n = Finite t) ->
  new_OrderedPublication limits initial = Ret p -> honest Q (new_OrderedReactive p) es ->
  let w := run (new_OrderedReactive p) es in
  forall e x, store w !! e = Some x -> initialized x = true -> removed x = false ->
  (reads_decide Q (publication w) -> evaluation x = None ->
   forall v, e_commitVersion x <= v <= startedHighWater (publication w) \/ v = e_commitVersion x ->
   shows Q (e_identity x) v (outcome_of (e_value x) (e_applicationError x))) /\
  (forall v c, (v, Some c) ∈ p_log (publication w) -> e_commitVersion x < v -> ~ writeKeys c ## readSet e (deps w) ->
   exists j a, evaluation x = Some j /\ evaluations w !! j = Some a /\ j_entry a = e /\ under_way (phase a) = true).
Proof.
  intros Hl Ht Hc Hp Hes w e x Hx Hi Hr.
  assert (Hw : inv_ex Q ∅ ∅ w) by (apply run_inv; try done; by eapply reactive_new_inv).
  pose proof (inv_main _ _ _ _ Hw) as Hm. split.
  - intros HQ Hev v Hv. destruct (eo_shows _ _ _ (mi_entry _ _ _ _ _ _ _ Hm e x Hx) Hi) as [[He Hf] _].
    assert (HQv : Q (e_identity x) v = Q (e_identity x) (e_commitVersion x)).
    { destruct Hv as [Hv| ->]; [|done]. pose proof (unread_unchanged Q w e x Hw HQ Hx Hi Hr Hev (Z.to_nat (v - e_commitVersion x))) as H.
      rewrite Z2Nat.id in H by lia. replace (e_commitVersion x + (v - e_commitVersion x)) with v in H by lia. apply H. lia. }
    unfold shows. by rewrite HQv.
  - intros v c Hin Hlt Hd. destruct (mi_fresh _ _ _ _ _ _ _ Hm e x v c Hx Hi Hr Hin Hlt) as [?|[Hdirty|[? _]]]; [done| |set_solver].
    assert (Hev : evaluation x <> None) by (apply (mi_dirty _ _ _ _ _ _ _ Hm e x); try done; lia).
    destruct (evaluation x) as [j|] eqn:Hj; [|done]. destruct (mi_evaluation _ _ _ _ _ _ _ Hm e x j Hx Hj) as (a & ? & ? & ?).
    by exists j, a.
Qed.

(** ** A run *)

Definition sample_options : ReactiveOptions := {|
  Reactive.limits := production_values; now n := Finite (1000 + Z.of_nat n); uuid n := "generation"%string;
  digest k := key_address k; text_bytes _ := 10; key_bytes _ := 20 |}.

(** A query of the key [k], which the first commit writes. *)
Definition sample_query (id : string) (v : Z) : Observation :=
  MkObservation (VStr (if decide (v < 1) then "old" else "new")%string) false {["k"%string]}.

Definition sample_subscription : QuerySubscription :=
  MkQuerySubscription "lists"%string (VObj []) "scope"%string "user"%string 0%nat 7 (num_of_Z 1) (num_of_Z 0) None.

Definition sample_events : list ReactiveEvent :=
  let answer v s := Ret (MkExecution (inl (VStr s)) {["k"%string]} v) in
  let write slot k := [EWriter (EReserve (num_of_Z 10) (Finite 5)); EWriter (ECommit slot (MkCommit {[k]} [])); EProcess] in
  [ESubscribe sample_subscription; EStart 0; EEvaluated 0 (answer 0 "old"%string); EDelivered 0; ESettled 0; EReleased 0;
   EResume 0; ESent 0 None] ++ write 0%nat "k"%string ++
  [EStart 1; EEvaluated 1 (answer 1 "new"%string); ESent 0 None; EDelivered 1; ESettled 1; EReleased 1] ++ write 1%nat "other"%string.

Definition sample_publication : OrderedPublication ReactiveCommit :=
  MkPublication (MkCapacity 2 100) ∅ dll_empty None 0 0 0 0 0 0 0 None false ∅ false None None None [] [].

Abbreviation sample_run := (@run sample_options (new_OrderedReactive sample_publication) sample_events).

Lemma sample_reactive_new : new_OrderedPublication PublicationProps.sample_limits None = Ret sample_publication.
Proof. by vm_compute. Qed.

Lemma sample_honest : @honest sample_options sample_query (new_OrderedReactive sample_publication) sample_events.
Proof.
  unfold sample_events. cbn [honest app].
  repeat (split; [first [exact I|intros a x Ha Hx; vm_compute in Ha; injection Ha as <-; vm_compute in Hx; injection Hx as <-;
    split; [split|]; by vm_compute]|]). exact I.
Qed.

Lemma sample_reads_decide : reads_decide sample_query (publication sample_run).
Proof.
  assert (Hlog : p_log (publication sample_run) = [(1, Some (MkCommit {["k"%string]} [])); (2, Some (MkCommit {["other"%string]} []))])
    by by vm_compute.
  intros id v c. rewrite Hlog. intros [Hin|Hin%list_elem_of_singleton]%elem_of_cons Hd; injection Hin as -> ->; [|done].
  clear Hlog. unfold sample_query in Hd. cbn [writeKeys ob_reads] in Hd. set_solver.
Qed.

Lemma sample_started : startedHighWater (publication sample_run) = 2.
Proof. vm_compute. reflexivity. Qed.

(** The second commit does not touch the query: its result of version 1 is that
    of version 2 as well. *)
Lemma reactive_fresh_witness :
  exists x, store sample_run !! 0%nat = Some x /\ e_commitVersion x = 1 /\
  shows sample_query (e_identity x) 2 (outcome_of (e_value x) (e_applicationError x)) /\ e_value x = VStr "new"%string.
Proof.
  destruct (store sample_run !! 0%nat) as [x|] eqn:Hx; [|by vm_compute in Hx]. exists x. split; [done|].
  assert (H : e_commitVersion x = 1 /\ e_value x = VStr "new"%string /\ initialized x = true /\ removed x = false /\ evaluation x = None).
  { vm_compute in Hx. injection Hx as <-. done. }
  destruct H as (Hv & He & Hi & Hr & Hj). split; [done|]. split; [|done].
  assert (Hl : limits_ok (resume (@Reactive.limits sample_options))) by (repeat split; vm_compute; reflexivity).
  assert (Ht : forall v, 0 <= @text_bytes sample_options v) by (intros v; cbn; lia).
  assert (Hc : forall n, exists t, @now sample_options n = Finite t) by (intros n; by eexists).
  pose proof (@reactive_fresh sample_options sample_query _ _ _ _ Hl Ht Hc sample_reactive_new sample_honest) as H.
  cbv zeta in H. destruct (H 0%nat x Hx Hi Hr) as [Hshow _].
  apply (Hshow sample_reads_decide Hj). left. rewrite Hv, sample_started. lia.
Defined.
