(* ===== verification/Uuid.v ===== *)
(** Mutation identities: the [UuidV7Factory] of [client/src/client.ts].

    A factory never gives the same identity twice, whatever the clock and the
    random source do: what it gives increases. *)
From Stdlib Require Import Qround Ascii.
From S2P Require Import Prelude Errors Protocol Effects.
Local Open Scope string_scope.
Local Open Scope list_scope.
Local Open Scope Z_scope.

(** A number from 0 up to but excluding 1. *)
Definition unit_interval (value : num) : option Q :=
  match value with
  | NFin q => if Qle_bool 0 q && negb (Qle_bool 1 q) then Some (this q) else None
  | NNegZero => Some 0%Q
  | _ => None
  end.

Record UuidV7Factory : Type := MkFactory {
  lastTimestamp : Z;
  randomBits : Z;
  draws : nat;  (* calls of the random source so far *)
}.

Definition new_UuidV7Factory : UuidV7Factory := MkFactory (-1) 0 0.

(** ** Hexadecimal *)

Definition hex_char (d : Z) : Ascii.ascii := ascii_of_nat (Z.to_nat (if decide (d < 10) then 48 + d else 87 + d)).

(** [z.toString(16)], of a number that is not negative. *)
Fixpoint to_hex (fuel : nat) (z : Z) (acc : list Ascii.ascii) : list Ascii.ascii :=
  let acc := hex_char (z mod 16) :: acc in
  match fuel with
  | O => acc
  | S fuel => if decide (z < 16) then acc else to_hex fuel (z / 16) acc
  end.

Definition toString16 (z : Z) : list Ascii.ascii := to_hex (Z.to_nat (Z.log2 z)) z [].

(** [s.padStart(n, "0")] *)
Definition padStart (n : nat) (l : list Ascii.ascii) : list Ascii.ascii := replicate (n - length l) "0"%char ++ l.

(** [`${hex(0, 8)}-${hex(8)}-7${randomA}-${randomB(0, 4)}-${randomB(4)}`] *)
Definition uuid_text (timestamp bits : Z) : string :=
  let timestampHex := padStart 12 (toString16 timestamp) in
  let randomA := padStart 3 (toString16 (Z.shiftr bits 62)) in
  let randomB := padStart 16 (toString16 (Z.lor (Z.shiftl 2 62) (Z.land bits (Z.shiftl 1 62 - 1)))) in
  of_chars (take 8 timestampHex ++ ["-"%char] ++ drop 8 timestampHex ++ ["-"; "7"]%char ++ randomA ++ ["-"%char] ++
            take 4 randomB ++ ["-"%char] ++ drop 4 randomB).

Definition UUID_RANDOM_MASK : Z := Z.shiftl 1 74 - 1.

Section factory.
Context (random : nat -> num).

Abbreviation eff := (Effects.eff UuidV7Factory).

Definition draw : eff num := fun f => (Ret (random (draws f)), MkFactory (lastTimestamp f) (randomBits f) (S (draws f))).

Fixpoint read_bytes (n : nat) (bits : Z) : eff Z :=
  match n with
  | O => mret bits
  | S n =>
      value ← draw;
      match unit_interval value with
      | None => throw (RangeError "random must return a number from 0 up to but excluding 1")
      | Some q => read_bytes n (Z.lor (Z.shiftl bits 8) (Qfloor (q * 256)))
      end
  end.

Definition readRandomBits : eff Z :=
  bits ← read_bytes 10 0;
  mret (Z.land bits UUID_RANDOM_MASK).

Definition set_randomBits (bits : Z) : eff unit := modify (fun f => MkFactory (lastTimestamp f) bits (draws f)).

Definition create (nowMs : Z) : eff string :=
  if decide (nowMs < 0 \/ 2 ^ 48 <= nowMs) then throw (RangeError "clock must return a UUIDv7-compatible timestamp")
  else
    f ← get (fun f => f);
    let timestamp := Z.max nowMs (lastTimestamp f) in
    timestamp ←
      (if decide (lastTimestamp f < timestamp) then
         bits ← readRandomBits; _ ← set_randomBits bits; mret timestamp
       else if decide (randomBits f < UUID_RANDOM_MASK) then
         _ ← set_randomBits (randomBits f + 1); mret timestamp
       else if decide (2 ^ 48 <= timestamp + 1) then throw (RangeError "UUIDv7 timestamp exhausted")
       else bits ← readRandomBits; _ ← set_randomBits bits; mret (timestamp + 1));
    _ ← modify (fun f => MkFactory timestamp (randomBits f) (draws f));
    f ← get (fun f => f);
    mret (uuid_text timestamp (randomBits f)).

(** What a factory gives at some readings of the clock; a call that throws gives
    nothing. *)
Fixpoint creations (nows : list Z) (f : UuidV7Factory) : list (Z * string) :=
  match nows with
  | [] => []
  | now :: nows =>
      match create now f with
      | (Ret s, f) => (now, s) :: creations nows f
      | (Throw _, f) => creations nows f
      end
  end.
End factory.

(** ** Digits *)

(** The [n] last digits of a number. *)
Fixpoint digits (n : nat) (z : Z) : list Ascii.ascii :=
  match n with O => [] | S n => digits n (z / 16) ++ [hex_char (z mod 16)] end.

Lemma digits_length n : forall z, length (digits n z) = n.
Proof. induction n as [|n IH]; intros z; cbn; [done|]. rewrite length_app, IH. cbn. lia. Qed.

Lemma digits_zero n : digits n 0 = replicate n "0"%char.
Proof. induction n as [|n IH]; [done|]. cbn [digits]. rewrite Z.div_0_l, IH by done. by rewrite replicate_S_end. Qed.

Lemma digits_app n m : forall z, digits (n + m) z = digits n (z / 16 ^ Z.of_nat m) ++ digits m (z mod 16 ^ Z.of_nat m).
Proof.
  induction m as [|m IH]; intros z.
  - rewrite Nat.add_0_r, Z.pow_0_r, Z.div_1_r. by rewrite app_nil_r.
  - rewrite Nat.add_succ_r. cbn [digits]. rewrite IH, <- app_assoc. rewrite Nat2Z.inj_succ, Z.pow_succ_r by lia.
    rewrite Z.div_div by lia. rewrite Z.rem_mul_r by lia.
    rewrite (Z.mul_comm 16 ((z / 16) mod _)).
    rewrite Z.div_add, Z.mod_add, (Z.mod_mod z), (Z.div_small (z mod 16)), Z.add_0_l by (pose proof (Z.mod_pos_bound z 16); lia).
    done.
Qed.

Lemma to_hex_digits fuel : forall n z acc, 0 <= z < 16 ^ Z.of_nat n -> Z.log2 z <= Z.of_nat fuel -> (0 < n)%nat ->
  exists k, (0 < k <= n)%nat /\ to_hex fuel z acc = digits k z ++ acc /\ z < 16 ^ Z.of_nat k.
Proof.
  induction fuel as [|fuel IH]; intros n z acc Hz Hf Hn.
  - exists 1%nat. assert (z <= 1) by (apply Z.log2_null; pose proof (Z.log2_nonneg z); lia). repeat split; cbn; [lia..|].
    lia.
  - cbn [to_hex]. case_decide as Hs.
    + exists 1%nat. repeat split; cbn; [lia..|]. lia.
    + destruct n as [|[|n]]; [lia|cbn in Hz; lia|]. rewrite Nat2Z.inj_succ, Z.pow_succ_r in Hz by lia.
      assert (Hl : Z.log2 (z / 16) <= Z.of_nat fuel).
      { change 16 with (2 ^ 4). rewrite <- Z.shiftr_div_pow2, Z.log2_shiftr by lia. lia. }
      destruct (IH (S n) (z / 16) (hex_char (z mod 16) :: acc)) as (k & Hk & E & Hlt); [|done|lia|].
      { split; [apply Z.div_pos; lia|apply Z.div_lt_upper_bound; lia]. }
      exists (S k). repeat split; [lia..| |].
      * rewrite E. cbn [digits]. by rewrite <- app_assoc.
      * rewrite Nat2Z.inj_succ, Z.pow_succ_r by lia. pose proof (Z.div_mod z 16). pose proof (Z.mod_pos_bound z 16). nia.
Qed.

(** Padding to a width that holds the number writes its last digits. *)
Lemma padStart_digits n z : 0 <= z < 16 ^ Z.of_nat n -> (0 < n)%nat -> padStart n (toString16 z) = digits n z.
Proof.
  intros Hz Hn. unfold padStart, toString16.
  destruct (to_hex_digits (Z.to_nat (Z.log2 z)) n z []) as (k & Hk & -> & Hlt); [done| |done|].
  { pose proof (Z.log2_nonneg z). lia. }
  rewrite app_nil_r, digits_length. replace n with ((n - k) + k)%nat at 2 by lia.
  by rewrite digits_app, Z.div_small, Z.mod_small, digits_zero by lia.
Qed.

Lemma digit_range z : 0 <= z mod 16 < 16.
Proof. apply Z.mod_pos_bound. lia. Qed.

(** Every digit reads back. *)
Lemma hex_digit_char d : 0 <= d < 16 -> hex_digit (hex_char d) = Some d.
Proof.
  intros Hd. assert (E : d = 0 \/ d = 1 \/ d = 2 \/ d = 3 \/ d = 4 \/ d = 5 \/ d = 6 \/ d = 7 \/ d = 8 \/ d = 9 \/ d = 10 \/
    d = 11 \/ d = 12 \/ d = 13 \/ d = 14 \/ d = 15) by lia.
  repeat destruct E as [->|E]; try reflexivity. by subst.
Qed.

Lemma parse_hex_app l1 : forall acc l2, parse_hex acc (l1 ++ l2) = parse_hex (parse_hex acc l1) l2.
Proof. induction l1 as [|a l1 IH]; intros acc l2; cbn; [done|]. apply IH. Qed.

Lemma parse_digits n : forall acc z, 0 <= z -> parse_hex acc (digits n z) = acc * 16 ^ Z.of_nat n + z mod 16 ^ Z.of_nat n.
Proof.
  induction n as [|n IH]; intros acc z Hz; cbn [digits].
  - cbn. rewrite Z.mod_1_r. lia.
  - rewrite parse_hex_app, IH by (apply Z.div_pos; lia). cbn [parse_hex]. rewrite hex_digit_char by apply digit_range. cbn [default].
    rewrite Nat2Z.inj_succ, Z.pow_succ_r, Z.rem_mul_r by lia. unfold id. lia.
Qed.

Lemma digits_hex n : forall z, Forall (fun a => is_Some (hex_digit a)) (digits n z).
Proof.
  induction n as [|n IH]; intros z; cbn [digits]; [constructor|]. apply Forall_app. split; [apply IH|].
  repeat constructor. rewrite hex_digit_char by apply digit_range. by eexists.
Qed.

Lemma match_all_app p1 p2 l1 l2 : match_all p1 l1 = true -> match_all p2 l2 = true -> match_all (p1 ++ p2) (l1 ++ l2) = true.
Proof.
  revert l1. induction p1 as [|c p1 IH]; intros [|a l1]; cbn; try done. rewrite !andb_true_iff. naive_solver.
Qed.

Lemma match_hex l : Forall (fun a => is_Some (hex_digit a)) l -> match_all (replicate (length l) any_hex) l = true.
Proof. induction 1 as [|a l Ha Hl IH]; cbn; [done|]. rewrite IH. by rewrite bool_decide_eq_true_2. Qed.

Lemma match_digits n z : match_all (replicate n any_hex) (digits n z) = true.
Proof. rewrite <- (digits_length n z) at 1. apply match_hex, digits_hex. Qed.

(** ** What an identity spells *)

Definition low (bits : Z) : Z := bits mod 2 ^ 62.

Lemma low_range bits : 0 <= low bits < 2 ^ 62.
Proof. by apply Z.mod_pos_bound. Qed.

Lemma mask_low bits : Z.lor (Z.shiftl 2 62) (Z.land bits (Z.shiftl 1 62 - 1)) = 2 * 2 ^ 62 + low bits.
Proof.
  replace (Z.shiftl 1 62 - 1) with (Z.ones 62) by reflexivity. rewrite Z.land_ones by lia. fold (low bits).
  assert (H : Z.land (Z.shiftl 2 62) (low bits) = 0).
  { apply Z.bits_inj_iff. intros i. rewrite Z.land_spec, Z.bits_0. destruct (decide (i < 62)) as [Hi|Hi].
    - rewrite Z.shiftl_mul_pow2, Z.mul_pow2_bits_low by lia. done.
    - unfold low. rewrite (Z.mod_pow2_bits_high bits 62 i) by lia. apply andb_false_r. }
  rewrite <- Z.lxor_lor, <- Z.add_nocarry_lxor by exact H. by rewrite Z.shiftl_mul_pow2.
Qed.

(** The text of an identity, in digits. *)
Lemma uuid_text_digits t bits : 0 <= t < 2 ^ 48 -> 0 <= bits < 2 ^ 74 ->
  uuid_text t bits = of_chars (digits 8 (t / 16 ^ 4) ++ ["-"%char] ++ digits 4 (t mod 16 ^ 4) ++ ["-"; "7"]%char ++
    digits 3 (bits / 2 ^ 62) ++ ["-"%char] ++ digits 4 (2 * 16 ^ 3 * 4 + low bits / 16 ^ 12) ++
    ["-"%char] ++ digits 12 (low bits mod 16 ^ 12)).
Proof.
  intros Ht Hb. pose proof (low_range bits) as Hlow. unfold uuid_text. rewrite mask_low.
  rewrite Z.shiftr_div_pow2 by done.
  rewrite (padStart_digits 12 t) by (cbn; lia).
  rewrite (padStart_digits 3) by first [lia|split; [apply Z.div_pos|apply Z.div_lt_upper_bound]; lia].
  rewrite (padStart_digits 16) by (cbn; lia).
  change (digits 12 t) with (digits (8 + 4) t).
  change (digits 16 (2 * 2 ^ 62 + low bits)) with (digits (4 + 12) (2 * 2 ^ 62 + low bits)).
  rewrite (digits_app 8 4), (digits_app 4 12).
  rewrite !take_app_length', !drop_app_length' by (by rewrite digits_length).
  replace (2 * 2 ^ 62 + low bits) with (low bits + (2 * 16 ^ 3 * 4) * 16 ^ Z.of_nat 12) by (cbn; lia).
  rewrite Z.div_add, Z.mod_add by done. by rewrite (Z.add_comm (low bits / _)).
Qed.

(** The number an identity spells, without its dashes. *)
Definition uuid_number (s : string) : Z := parse_hex 0 (List.filter (fun a => negb (byte_of a =? 45)) (chars s)).

Lemma filter_digits n z : List.filter (fun a => negb (byte_of a =? 45)) (digits n z) = digits n z.
Proof.
  revert z. induction n as [|n IH]; intros z; cbn [digits]; [done|]. rewrite List.filter_app, IH. f_equal. cbn.
  pose proof (digit_range z) as Hd. pose proof (hex_digit_char _ Hd) as Hh. destruct (Z.eqb_spec (byte_of (hex_char (z mod 16))) 45) as [E|]; [|done].
  unfold hex_digit in Hh. rewrite E in Hh. discriminate Hh.
Qed.

Lemma uuid_number_text t bits : 0 <= t < 2 ^ 48 -> 0 <= bits < 2 ^ 74 ->
  uuid_number (uuid_text t bits) = t * 2 ^ 80 + 7 * 2 ^ 76 + (bits / 2 ^ 62) * 2 ^ 64 + 2 * 2 ^ 62 + low bits.
Proof.
  intros Ht Hb. pose proof (low_range bits) as Hlow. rewrite uuid_text_digits by done. unfold uuid_number. rewrite chars_of_chars.
  rewrite !List.filter_app, !filter_digits. cbn [List.filter]. rewrite !parse_hex_app.
  change (byte_of "-" =? 45) with true. change (byte_of "7" =? 45) with false. cbn [negb parse_hex].
  change (hex_digit "7") with (Some 7). cbn [default]. unfold id.
  assert (0 <= bits / 2 ^ 62 < 2 ^ 12) by (split; [apply Z.div_pos|apply Z.div_lt_upper_bound]; lia).
  assert (0 <= low bits / 16 ^ 12 < 2 ^ 14) by (split; [apply Z.div_pos|apply Z.div_lt_upper_bound]; lia).
  assert (0 <= t / 16 ^ 4 < 2 ^ 32) by (split; [apply Z.div_pos|apply Z.div_lt_upper_bound]; lia).
  pose proof (Z.mod_pos_bound (low bits) (16 ^ 12) eq_refl). pose proof (Z.mod_pos_bound t (16 ^ 4) eq_refl).
  pose proof (Z.div_mod (low bits) (16 ^ 12)). pose proof (Z.div_mod t (16 ^ 4)).
  rewrite !parse_digits by lia.
  change (Z.of_nat 8) with 8. change (Z.of_nat 4) with 4. change (Z.of_nat 3) with 3. change (Z.of_nat 12) with 12.
  rewrite (Z.mod_small (t / _)), (Z.mod_small (t mod _)), (Z.mod_small (bits / _)), (Z.mod_small (2 * _ * _ + _)), (Z.mod_small (low bits mod _)) by lia. lia.
Qed.

Lemma uuid_text_v7 t bits : 0 <= t < 2 ^ 48 -> 0 <= bits < 2 ^ 74 -> uuidV7Timestamp (uuid_text t bits) = Ret t.
Proof.
  intros Ht Hb. pose proof (low_range bits) as Hlow. rewrite uuid_text_digits by done. unfold uuidV7Timestamp, uuidV7_test.
  rewrite chars_of_chars.
  assert (0 <= low bits / 16 ^ 12 < 2 ^ 14) by (split; [apply Z.div_pos|apply Z.div_lt_upper_bound]; lia).
  assert (0 <= t / 16 ^ 4 < 2 ^ 32) by (split; [apply Z.div_pos|apply Z.div_lt_upper_bound]; lia).
  pose proof (Z.mod_pos_bound t (16 ^ 4) eq_refl). pose proof (Z.div_mod t (16 ^ 4)).
  change (digits 4 (2 * 16 ^ 3 * 4 + low bits / 16 ^ 12)) with (digits (1 + 3) (2 * 16 ^ 3 * 4 + low bits / 16 ^ 12)).
  rewrite (digits_app 1 3 (2 * _ * _ + _)), <- (app_assoc (digits 1 _)).
  assert (Hv : match_all [variant] (digits 1 ((2 * 16 ^ 3 * 4 + low bits / 16 ^ 12) / 16 ^ Z.of_nat 3)) = true).
  { cbn [digits app match_all uuid_match]. rewrite hex_digit_char by apply digit_range. rewrite andb_true_r. apply bool_decide_eq_true_2.
    assert (8 <= (2 * 16 ^ 3 * 4 + low bits / 16 ^ 12) / 16 ^ Z.of_nat 3 < 12).
    { split; [apply Z.div_le_lower_bound|apply Z.div_lt_upper_bound]; cbn; lia. }
    rewrite Z.mod_small; lia. }
  match goal with |- (if ?b then _ else _) = _ => assert (Hm : b = true); [|rewrite Hm; clear Hm] end.
  { unfold uuid_pattern. change (replicate 3 any_hex ++ [dash; variant] ++ ?x) with (replicate 3 any_hex ++ [dash] ++ ([variant] ++ x)).
    repeat (apply match_all_app; [first [apply match_digits|exact Hv|reflexivity]|]). apply match_digits. }
  f_equal. rewrite !take_app_length' by (by rewrite digits_length).
  rewrite (drop_app_ge (digits 8 _)), digits_length by (rewrite digits_length; lia). cbn [Nat.sub app drop].
  rewrite drop_0, take_app_length' by (by rewrite digits_length). rewrite parse_hex_app, !parse_digits by lia.
  change (Z.of_nat 8) with 8. change (Z.of_nat 4) with 4. rewrite !Z.mod_small by lia. lia.
Qed.

(** ** A factory gives each identity once *)

Definition factory_ok (f : UuidV7Factory) : Prop := -1 <= lastTimestamp f < 2 ^ 48 /\ 0 <= randomBits f < 2 ^ 74.

(** [f'] has given something after all that [f] gave. *)
Definition later (f f' : UuidV7Factory) : Prop :=
  lastTimestamp f < lastTimestamp f' \/ lastTimestamp f = lastTimestamp f' /\ randomBits f < randomBits f'.

Definition spelled (f : UuidV7Factory) : Z :=
  lastTimestamp f * 2 ^ 80 + 7 * 2 ^ 76 + (randomBits f / 2 ^ 62) * 2 ^ 64 + 2 * 2 ^ 62 + low (randomBits f).

Lemma spelled_later f f' : factory_ok f -> factory_ok f' -> later f f' -> spelled f < spelled f'.
Proof.
  intros [Ht Hb] [Ht' Hb'] H. unfold spelled. pose proof (low_range (randomBits f)). pose proof (low_range (randomBits f')).
  assert (0 <= randomBits f / 2 ^ 62 < 2 ^ 12) by (split; [apply Z.div_pos|apply Z.div_lt_upper_bound]; lia).
  assert (0 <= randomBits f' / 2 ^ 62 < 2 ^ 12) by (split; [apply Z.div_pos|apply Z.div_lt_upper_bound]; lia).
  destruct H as [H|[-> H]]; [lia|].
  pose proof (Z.div_mod (randomBits f) (2 ^ 62)). pose proof (Z.div_mod (randomBits f') (2 ^ 62)).
  fold (low (randomBits f)) (low (randomBits f')) in *. lia.
Qed.

Section runs.
Context (random : nat -> num).

Lemma read_bytes_keeps n : forall bits f, let f' := (read_bytes random n bits f).2 in
  lastTimestamp f' = lastTimestamp f /\ randomBits f' = randomBits f.
Proof.
  induction n as [|n IH]; intros bits f; cbn; [done|].
  unfold draw, mbind, eff_bind. destruct (unit_interval (random (draws f))) as [q|]; [apply (IH _ (MkFactory (lastTimestamp f) (randomBits f) (S (draws f))))|by split].
Qed.

Lemma readRandomBits_spec f : wp (readRandomBits random) (fun r f' =>
  (lastTimestamp f' = lastTimestamp f /\ randomBits f' = randomBits f) /\ forall bits, r = Ret bits -> 0 <= bits < 2 ^ 74) f.
Proof.
  unfold readRandomBits. apply wp_bind. pose proof (read_bytes_keeps 10 0 f) as H. unfold wp at 1.
  destruct (read_bytes random 10 0 f) as [[bits|e] f']; [|done]. apply wp_ret. split; [exact H|]. intros b [= <-].
  unfold UUID_RANDOM_MASK. change (Z.shiftl 1 74 - 1) with (Z.ones 74). rewrite Z.land_ones by lia. by apply Z.mod_pos_bound.
Qed.

(** What [create] gives is the text of the factory it leaves behind, which is
    later than the one it found. *)
Lemma create_spec now f : factory_ok f -> wp (create random now) (fun r f' =>
  match r with
  | Ret s => factory_ok f' /\ later f f' /\ now <= lastTimestamp f' /\ 0 <= lastTimestamp f' /\
             s = uuid_text (lastTimestamp f') (randomBits f')
  | Throw _ => lastTimestamp f' = lastTimestamp f /\ randomBits f' = randomBits f
  end) f.
Proof.
  intros [Ht Hb]. unfold create. case_decide as Hn; [by apply wp_throw|]. apply wp_bind, wp_get. cbv beta iota zeta.
  assert (Hfresh : forall t, lastTimestamp f < t -> now <= t < 2 ^ 48 ->
    wp (bits ← readRandomBits random; _ ← set_randomBits bits; mret t) (fun r f' =>
      match r with
      | Ret t' => t' = t /\ lastTimestamp f' = lastTimestamp f /\ 0 <= randomBits f' < 2 ^ 74
      | Throw _ => lastTimestamp f' = lastTimestamp f /\ randomBits f' = randomBits f
      end) f).
  { intros t Hlt Hr. eapply wp_seq; [apply readRandomBits_spec| |naive_solver].
    intros bits f' [[E1 E2] Hbits]. apply wp_bind, wp_modify, wp_ret. cbn. naive_solver. }
  remember (Z.max now (lastTimestamp f)) as t eqn:Et.
  eapply (wp_seq (fun r f' =>
      match r with
      | Ret t' => now <= t' < 2 ^ 48 /\ 0 <= randomBits f' < 2 ^ 74 /\ later f (MkFactory t' (randomBits f') (draws f'))
      | Throw _ => lastTimestamp f' = lastTimestamp f /\ randomBits f' = randomBits f
      end)).
  - case_decide as H1; [|case_decide as H2; [|case_decide as H3]].
    + eapply wp_mono; [apply Hfresh; lia|]. intros [t'|e] f'; [|done]. intros (-> & E & Hb'). split; [lia|]. split; [done|]. by left.
    + apply wp_bind, wp_modify, wp_ret. split; [lia|]. change UUID_RANDOM_MASK with (2 ^ 74 - 1) in H2.
      cbn [randomBits]. split; [lia|]. right. cbn [lastTimestamp randomBits]. lia.
    + by apply wp_throw.
    + eapply wp_mono; [apply Hfresh; lia|]. intros [t'|e] f'; [|done]. intros (-> & E & Hb'). split; [lia|]. split; [done|]. left. cbn. lia.
  - intros t' f' (Hr & Hb' & Hl). apply wp_bind, wp_modify, wp_bind, wp_get, wp_ret. cbn. repeat split; cbn; try lia; done.
  - done.
Qed.

(** C23: the mutation identities a client makes, whatever its clock and its random
    source do — stand still, run backwards, fail —, are UUIDv7 texts the server's
    decoder accepts, carry a timestamp that is not before the clock's, and
    increase: no two mutations of a client share one. *)
Theorem mutation_ids_increase nows :
  let given := creations random nows new_UuidV7Factory in
  Forall (fun '(now, s) => exists t, uuidV7Timestamp s = Ret t /\ now <= t < 2 ^ 48) given /\
  StronglySorted Z.lt (uuid_number <$> given.*2).
Proof.
  intros given. assert (H : forall f, factory_ok f -> let given := creations random nows f in
    Forall (fun '(now, s) => exists t, uuidV7Timestamp s = Ret t /\ now <= t < 2 ^ 48) given /\
    StronglySorted Z.lt (uuid_number <$> given.*2) /\ Forall (fun n => spelled f < n) (uuid_number <$> given.*2)).
  2: { destruct (H new_UuidV7Factory) as (H1 & H2 & _); [|done]. split; cbn; lia. }
  clear given. induction nows as [|now nows IH]; intros f Hf; cbn [creations]; [repeat constructor|].
  pose proof (create_spec now f Hf) as Hc. unfold wp in Hc. destruct (create random now f) as [[s|e] f']; cbn [fst snd] in Hc.
  - destruct Hc as (Hf' & Hl & Hnow & H0 & ->). destruct (IH f' Hf') as (I1 & I2 & I3). destruct Hf' as [[_ Hlt] Hb].
    pose proof (uuid_number_text (lastTimestamp f') (randomBits f') (conj H0 Hlt) Hb) as En. fold (spelled f') in En.
    assert (Hs : spelled f < spelled f') by (apply spelled_later; [done|by split; [split; lia|]|done]).
    cbn [fmap list_fmap fst snd]. rewrite En. split; [|split].
    + constructor; [|exact I1]. exists (lastTimestamp f'). split; [by apply uuid_text_v7|done].
    + constructor; [exact I2|exact I3].
    + constructor; [exact Hs|]. eapply Forall_impl; [exact I3|]. intros n Hn. cbn in Hn. lia.
  - destruct Hc as [E1 E2]. assert (Hf' : factory_ok f') by (split; rewrite ?E1, ?E2; apply Hf).
    destruct (IH f' Hf') as (I1 & I2 & I3). split; [exact I1|]. split; [exact I2|]. unfold spelled in *. by rewrite E1, E2 in I3.
Qed.
End runs.
