(* ===== verification/Retry.v ===== *)
(** Retry delays and the retries of subscriptions: [client/src/connection/retry-policy.ts]
    and [client/src/subscriptions/retry.ts]. *)
From Stdlib Require Import Qround Qabs.
From S2P Require Import Prelude Errors Float32 Uuid.
Local Open Scope Z_scope.

Record RetryPolicy : Type := MkRetryPolicy { baseDelayMs : Z; maxDelayMs : Z }.

(** A product of numbers, rounded to a binary64 value. *)
Definition round64 (q : Q) : Q :=
  if Qeq_bool q 0 then 0%Q
  else
    let ulp := Z.max (ilog2 (Qabs q) - 52) (-1074) in
    (inject_Z (round_half_even (q / pow2 ulp)) * pow2 ulp)%Q.

(** [retryDelay], of a value the random source gave. *)
Definition retryDelay (policy : RetryPolicy) (attempt floorMs : Z) (value : num) (maximumFloorMs : Z) : exc js_error Z :=
  let windowMs := Z.min (maxDelayMs policy) (baseDelayMs policy * 2 ^ Z.min (attempt + 1) 30) in
  match unit_interval value with
  | None => Throw (RangeError "client random source is invalid")
  | Some q =>
      let minimum := Z.max (baseDelayMs policy) (Z.min (Z.max 0 floorMs) maximumFloorMs) in
      let ceiling := Z.max minimum windowMs in
      Ret (Z.min maximumFloorMs (minimum + Qfloor (round64 (q * inject_Z (ceiling - minimum + 1)))))
  end.

(** The retries of one subscription. A timer is armed while [handle] is set;
    [notBeforeMs] is a sum, of a reading of the clock, which is not checked here,
    and of a delay. *)
Record SubscriptionRetryState : Type := MkRetryState {
  retry_attempt : Z;
  retry_handle : bool;
  notBeforeMs : option (num * Z);
}.

Definition createSubscriptionRetryState : SubscriptionRetryState := MkRetryState 0 false None.

Definition waiting (s : SubscriptionRetryState) : bool := bool_decide (notBeforeMs s <> None).

(** [schedule], at the reading [now] of the clock. *)
Definition schedule (policy : RetryPolicy) (maximumDelayMs : Z) (value now : num) (floorMs : Z) (s : SubscriptionRetryState)
    : exc js_error SubscriptionRetryState :=
  if waiting s then Ret s
  else
    delay ← retryDelay policy (retry_attempt s) floorMs value maximumDelayMs;
    Ret (MkRetryState (retry_attempt s + 1) (retry_handle s) (Some (now, delay))).

Definition arm (s : SubscriptionRetryState) : SubscriptionRetryState :=
  if retry_handle s || negb (waiting s) then s else MkRetryState (retry_attempt s) true (notBeforeMs s).

(** The timer fires. *)
Definition fire (s : SubscriptionRetryState) : SubscriptionRetryState := MkRetryState (retry_attempt s) false None.

Definition pause (s : SubscriptionRetryState) : SubscriptionRetryState := MkRetryState (retry_attempt s) false (notBeforeMs s).
Definition clear (s : SubscriptionRetryState) : SubscriptionRetryState := MkRetryState (retry_attempt s) false None.
Definition settle (s : SubscriptionRetryState) : SubscriptionRetryState := MkRetryState 0 false None.

(** ** The delay respects the server's hint *)

Lemma round_half_even_nonneg q : (0 <= q)%Q -> 0 <= round_half_even q.
Proof.
  intros Hq. unfold round_half_even. assert (0 <= Qfloor q) by (apply (Qfloor_resp_le 0 q) in Hq; exact Hq).
  destruct (_ ?= _)%Q; [|done|lia]. destruct (Z.even _); lia.
Qed.

Lemma round64_nonneg q : (0 <= q)%Q -> (0 <= round64 q)%Q.
Proof.
  intros Hq. unfold round64. destruct (Qeq_bool q 0); [apply Qle_refl|]. set (u := Z.max _ _).
  apply Qmult_le_0_compat; [|apply Qlt_le_weak, pow2_pos]. rewrite <- (Zle_Qle 0).
  apply round_half_even_nonneg, Qle_shift_div_l; [apply pow2_pos|]. by rewrite Qmult_0_l.
Qed.

(** A retry waits at least for the base delay and for what the server asked of
    it, up to the largest delay that a server may ask. *)
Lemma retryDelay_bounds policy attempt floorMs value maximum delay :
  retryDelay policy attempt floorMs value maximum = Ret delay -> 0 < baseDelayMs policy ->
  Z.min maximum (Z.max (baseDelayMs policy) floorMs) <= delay <= maximum.
Proof.
  unfold retryDelay. destruct (unit_interval value) as [q|] eqn:Hq; [|done]. intros [= <-] Hb.
  set (minimum := Z.max _ _). set (ceiling := Z.max _ _). set (x := round64 _).
  assert (Hx : (0 <= x)%Q).
  { apply round64_nonneg, Qmult_le_0_compat.
    - unfold unit_interval in Hq. destruct value as [r| | |]; try done; [|injection Hq as <-; apply Qle_refl].
      destruct (Qle_bool 0 r) eqn:Hr; [|done]. cbn in Hq. destruct (Qle_bool 1 r); [done|]. injection Hq as <-. by apply Qle_bool_iff.
    - rewrite <- (Zle_Qle 0). lia. }
  assert (0 <= Qfloor x) by (apply (Qfloor_resp_le 0 x) in Hx; exact Hx). lia.
Qed.
