(* ===== verification/Client.v ===== *)
(** The client: [client/src/client.ts], and its channels,
    [client/src/channels/channel.ts].

    The state is the session the client keeps with its server — the socket, the
    credential, the attempt to present one, the source that produces them, and
    what the application is told of all this —, the subscriptions, the requests
    whose promises are pending, the channels, the streams, and the account of
    what all of them retain. What the client does to the world is logged: the
    traffic of its sockets, the callbacks of the subscriptions and of the
    channels, the promises settled.

    A socket is the number of its dial, which is the generation of the
    connection it belongs to. Callbacks do not call the client back. *)
From S2P Require Import Prelude Errors Limits Value Wire StableEncode Protocol ProtocolProps Effects Uuid Retry.
Local Open Scope string_scope.
Local Open Scope list_scope.
Local Open Scope Z_scope.

Inductive RequestKind : Type := query_request | mutation_request | procedure_request.

#[export] Instance RequestKind_eq_dec : EqDecision RequestKind.
Proof. solve_decision. Defined.

Inductive SubscriptionKind : Type := query_subscription | event_subscription.

#[export] Instance SubscriptionKind_eq_dec : EqDecision SubscriptionKind.
Proof. solve_decision. Defined.

(** [QuerySubscription] and [EventSubscription]. *)
Record Subscription : Type := MkSubscription {
  sub_kind : SubscriptionKind;
  sub_ref : string;
  sub_args : value;
  sub_cursor : option SubscriptionCursor;  (* of a query *)
  sub_eventCursor : option LiveEventCursor;  (* of an event *)
  resetRequested : bool;
  sub_frame : value;  (* the text, as what it spells *)
  sub_bytes : Z;
  sub_sentGeneration : option Z;
  sub_retry : SubscriptionRetryState;
}.

Definition set_sub_kind (x : SubscriptionKind) (s : Subscription) : Subscription :=
    MkSubscription x (sub_ref s) (sub_args s) (sub_cursor s) (sub_eventCursor s) (resetRequested s) (sub_frame
    s) (sub_bytes s) (sub_sentGeneration s) (sub_retry s).
Definition set_sub_ref (x : string) (s : Subscription) : Subscription :=
    MkSubscription (sub_kind s) x (sub_args s) (sub_cursor s) (sub_eventCursor s) (resetRequested s)
    (sub_frame s) (sub_bytes s) (sub_sentGeneration s) (sub_retry s).
Definition set_sub_args (x : value) (s : Subscription) : Subscription :=
    MkSubscription (sub_kind s) (sub_ref s) x (sub_cursor s) (sub_eventCursor s) (resetRequested s) (sub_frame
    s) (sub_bytes s) (sub_sentGeneration s) (sub_retry s).
Definition set_sub_cursor (x : option SubscriptionCursor) (s : Subscription) : Subscription :=
    MkSubscription (sub_kind s) (sub_ref s) (sub_args s) x (sub_eventCursor s) (resetRequested s) (sub_frame
    s) (sub_bytes s) (sub_sentGeneration s) (sub_retry s).
Definition set_sub_eventCursor (x : option LiveEventCursor) (s : Subscription) : Subscription :=
    MkSubscription (sub_kind s) (sub_ref s) (sub_args s) (sub_cursor s) x (resetRequested s) (sub_frame s)
    (sub_bytes s) (sub_sentGeneration s) (sub_retry s).
Definition set_resetRequested (x : bool) (s : Subscription) : Subscription :=
    MkSubscription (sub_kind s) (sub_ref s) (sub_args s) (sub_cursor s) (sub_eventCursor s) x (sub_frame s)
    (sub_bytes s) (sub_sentGeneration s) (sub_retry s).
Definition set_sub_frame (x : value) (s : Subscription) : Subscription :=
    MkSubscription (sub_kind s) (sub_ref s) (sub_args s) (sub_cursor s) (sub_eventCursor s) (resetRequested s)
    x (sub_bytes s) (sub_sentGeneration s) (sub_retry s).
Definition set_sub_bytes (x : Z) (s : Subscription) : Subscription :=
    MkSubscription (sub_kind s) (sub_ref s) (sub_args s) (sub_cursor s) (sub_eventCursor s) (resetRequested s)
    (sub_frame s) x (sub_sentGeneration s) (sub_retry s).
Definition set_sub_sentGeneration (x : option Z) (s : Subscription) : Subscription :=
    MkSubscription (sub_kind s) (sub_ref s) (sub_args s) (sub_cursor s) (sub_eventCursor s) (resetRequested s)
    (sub_frame s) (sub_bytes s) x (sub_retry s).
Definition set_sub_retry (x : SubscriptionRetryState) (s : Subscription) : Subscription :=
    MkSubscription (sub_kind s) (sub_ref s) (sub_args s) (sub_cursor s) (sub_eventCursor s) (resetRequested s)
    (sub_frame s) (sub_bytes s) (sub_sentGeneration s) x.

Definition ClientResult : Type := value + ApplicationError.

Record PendingRequest : Type := MkPending {
  req_kind : RequestKind;
  req_frame : value;
  req_bytes : Z;
  expiresAtMs : Z;
  req_mutationRequestId : option string;
  req_sentGeneration : option Z;
  receipt : option MutationReceipt;
  req_result : option ClientResult;
  req_obligations : option (gset Z);
}.

Definition set_req_kind (x : RequestKind) (r : PendingRequest) : PendingRequest :=
    MkPending x (req_frame r) (req_bytes r) (expiresAtMs r) (req_mutationRequestId r) (req_sentGeneration r)
    (receipt r) (req_result r) (req_obligations r).
Definition set_req_frame (x : value) (r : PendingRequest) : PendingRequest :=
    MkPending (req_kind r) x (req_bytes r) (expiresAtMs r) (req_mutationRequestId r) (req_sentGeneration r)
    (receipt r) (req_result r) (req_obligations r).
Definition set_req_bytes (x : Z) (r : PendingRequest) : PendingRequest :=
    MkPending (req_kind r) (req_frame r) x (expiresAtMs r) (req_mutationRequestId r) (req_sentGeneration r)
    (receipt r) (req_result r) (req_obligations r).
Definition set_expiresAtMs (x : Z) (r : PendingRequest) : PendingRequest :=
    MkPending (req_kind r) (req_frame r) (req_bytes r) x (req_mutationRequestId r) (req_sentGeneration r)
    (receipt r) (req_result r) (req_obligations r).
Definition set_req_mutationRequestId (x : option string) (r : PendingRequest) : PendingRequest :=
    MkPending (req_kind r) (req_frame r) (req_bytes r) (expiresAtMs r) x (req_sentGeneration r) (receipt r)
    (req_result r) (req_obligations r).
Definition set_req_sentGeneration (x : option Z) (r : PendingRequest) : PendingRequest :=
    MkPending (req_kind r) (req_frame r) (req_bytes r) (expiresAtMs r) (req_mutationRequestId r) x (receipt r)
    (req_result r) (req_obligations r).
Definition set_receipt (x : option MutationReceipt) (r : PendingRequest) : PendingRequest :=
    MkPending (req_kind r) (req_frame r) (req_bytes r) (expiresAtMs r) (req_mutationRequestId r)
    (req_sentGeneration r) x (req_result r) (req_obligations r).
Definition set_req_result (x : option ClientResult) (r : PendingRequest) : PendingRequest :=
    MkPending (req_kind r) (req_frame r) (req_bytes r) (expiresAtMs r) (req_mutationRequestId r)
    (req_sentGeneration r) (receipt r) x (req_obligations r).
Definition set_req_obligations (x : option (gset Z)) (r : PendingRequest) : PendingRequest :=
    MkPending (req_kind r) (req_frame r) (req_bytes r) (expiresAtMs r) (req_mutationRequestId r)
    (req_sentGeneration r) (receipt r) (req_result r) x.

(** An error of the lifecycle is marked as an interruption. *)
Inductive Settlement : Type := Resolved (r : option ClientResult) | Rejected (e : js_error) | Interrupted (e : js_error).

Inductive Callback : Type :=
  | OnUpdate (v : value)
  | OnApplicationError (e : ApplicationError)
  | OnError (e : js_error)
  | OnCursorConfirmed
  | OnEvent (e : LiveEvent).

(** [AckerDBAuthentication]: what the server confirmed, for one epoch. *)
Record Authentication : Type := MkAuthentication { descriptor : AuthenticationDescriptor; authEpoch : num }.

Record AuthAttempt : Type := MkAttempt {
  attempt_id : Z;
  attempt_credential : Credential;
  attempt_expiresAtMs : Z;
  expiryHandle : bool;  (* its timer is armed *)
}.

Inductive ConnectionState : Type :=
  | Connecting
  | Ready (authentication : option Authentication)
  | Reconnecting
  | AuthenticationBlocked (error : option js_error)
  | TerminalError (error : option js_error)
  | ConnectionClosed
  | SessionSuspended
  | Resuming.

Inductive AuthenticationState : Type :=
  | AuthenticatingSource | AuthenticatingAnonymous | AuthenticatingBearer
  | Unauthenticated (authentication : option Authentication)
  | Authenticated (authentication : option Authentication)
  | RefreshRequired (error : option js_error)
  | AuthenticationFailed (error : option js_error)
  | AuthenticationClosed.

(** Where a pull of the credential source stands: it waits for the source, then
    for the attempt that presents what the source gave; then it is over, and its
    handlers have yet to run. *)
Inductive SourcePull : Type :=
  | Invoking
  | Presenting (attempt : Z)
  | Pulled (ok : bool).

Record Session : Type := MkSession {
  credential : option Credential;
  credentialExpiresAtMs : option Z;
  helloCredential : option Credential;
  socket : option Z;
  socketOpen : bool;
  ready : bool;
  closed : bool;
  permanentFailure : bool;
  authBlocked : bool;
  suspended : bool;
  resuming : bool;
  everReady : bool;
  connectionGeneration : Z;
  reconnectAttempt : Z;
  serverRetryNotBeforeMs : Z;
  authAttempt : option AuthAttempt;
  authentication : option Authentication;
  blockingError : option js_error;
  terminalError : option js_error;
  connectionState : ConnectionState;
  authenticationState : AuthenticationState;
  reconnectHandle : option Z;  (* the delay it was armed with *)
  stableHandle : option Z;  (* the generation it was armed for *)
  pingHandle : option Z;
  sourcePull : option SourcePull;
  sourceFollowUp : bool;
  ensureAfterPull : bool;  (* a resumption waits for the pull *)
  sourceRetryAttempt : Z;
  sourceRetryHandle : option Z;
  sourceRefreshHandle : bool;
}.

Definition set_credential (x : option Credential) (s : Session) : Session :=
    MkSession x (credentialExpiresAtMs s) (helloCredential s) (socket s) (socketOpen s) (ready s) (closed s)
    (permanentFailure s) (authBlocked s) (suspended s) (resuming s) (everReady s) (connectionGeneration s)
    (reconnectAttempt s) (serverRetryNotBeforeMs s) (authAttempt s) (authentication s) (blockingError s)
    (terminalError s) (connectionState s) (authenticationState s) (reconnectHandle s) (stableHandle s)
    (pingHandle s) (sourcePull s) (sourceFollowUp s) (ensureAfterPull s) (sourceRetryAttempt s)
    (sourceRetryHandle s) (sourceRefreshHandle s).
Definition set_credentialExpiresAtMs (x : option Z) (s : Session) : Session :=
    MkSession (credential s) x (helloCredential s) (socket s) (socketOpen s) (ready s) (closed s)
    (permanentFailure s) (authBlocked s) (suspended s) (resuming s) (everReady s) (connectionGeneration s)
    (reconnectAttempt s) (serverRetryNotBeforeMs s) (authAttempt s) (authentication s) (blockingError s)
    (terminalError s) (connectionState s) (authenticationState s) (reconnectHandle s) (stableHandle s)
    (pingHandle s) (sourcePull s) (sourceFollowUp s) (ensureAfterPull s) (sourceRetryAttempt s)
    (sourceRetryHandle s) (sourceRefreshHandle s).
Definition set_helloCredential (x : option Credential) (s : Session) : Session :=
    MkSession (credential s) (credentialExpiresAtMs s) x (socket s) (socketOpen s) (ready s) (closed s)
    (permanentFailure s) (authBlocked s) (suspended s) (resuming s) (everReady s) (connectionGeneration s)
    (reconnectAttempt s) (serverRetryNotBeforeMs s) (authAttempt s) (authentication s) (blockingError s)
    (terminalError s) (connectionState s) (authenticationState s) (reconnectHandle s) (stableHandle s)
    (pingHandle s) (sourcePull s) (sourceFollowUp s) (ensureAfterPull s) (sourceRetryAttempt s)
    (sourceRetryHandle s) (sourceRefreshHandle s).
Definition set_socket (x : option Z) (s : Session) : Session :=
    MkSession (credential s) (credentialExpiresAtMs s) (helloCredential s) x (socketOpen s) (ready s) (closed
    s) (permanentFailure s) (authBlocked s) (suspended s) (resuming s) (everReady s) (connectionGeneration s)
    (reconnectAttempt s) (serverRetryNotBeforeMs s) (authAttempt s) (authentication s) (blockingError s)
    (terminalError s) (connectionState s) (authenticationState s) (reconnectHandle s) (stableHandle s)
    (pingHandle s) (sourcePull s) (sourceFollowUp s) (ensureAfterPull s) (sourceRetryAttempt s)
    (sourceRetryHandle s) (sourceRefreshHandle s).
Definition set_socketOpen (x : bool) (s : Session) : Session :=
    MkSession (credential s) (credentialExpiresAtMs s) (helloCredential s) (socket s) x (ready s) (closed s)
    (permanentFailure s) (authBlocked s) (suspended s) (resuming s) (everReady s) (connectionGeneration s)
    (reconnectAttempt s) (serverRetryNotBeforeMs s) (authAttempt s) (authentication s) (blockingError s)
    (terminalError s) (connectionState s) (authenticationState s) (reconnectHandle s) (stableHandle s)
    (pingHandle s) (sourcePull s) (sourceFollowUp s) (ensureAfterPull s) (sourceRetryAttempt s)
    (sourceRetryHandle s) (sourceRefreshHandle s).
Definition set_ready (x : bool) (s : Session) : Session :=
    MkSession (credential s) (credentialExpiresAtMs s) (helloCredential s) (socket s) (socketOpen s) x (closed
    s) (permanentFailure s) (authBlocked s) (suspended s) (resuming s) (everReady s) (connectionGeneration s)
    (reconnectAttempt s) (serverRetryNotBeforeMs s) (authAttempt s) (authentication s) (blockingError s)
    (terminalError s) (connectionState s) (authenticationState s) (reconnectHandle s) (stableHandle s)
    (pingHandle s) (sourcePull s) (sourceFollowUp s) (ensureAfterPull s) (sourceRetryAttempt s)
    (sourceRetryHandle s) (sourceRefreshHandle s).
Definition set_closed (x : bool) (s : Session) : Session :=
    MkSession (credential s) (credentialExpiresAtMs s) (helloCredential s) (socket s) (socketOpen s) (ready s)
    x (permanentFailure s) (authBlocked s) (suspended s) (resuming s) (everReady s) (connectionGeneration s)
    (reconnectAttempt s) (serverRetryNotBeforeMs s) (authAttempt s) (authentication s) (blockingError s)
    (terminalError s) (connectionState s) (authenticationState s) (reconnectHandle s) (stableHandle s)
    (pingHandle s) (sourcePull s) (sourceFollowUp s) (ensureAfterPull s) (sourceRetryAttempt s)
    (sourceRetryHandle s) (sourceRefreshHandle s).
Definition set_permanentFailure (x : bool) (s : Session) : Session :=
    MkSession (credential s) (credentialExpiresAtMs s) (helloCredential s) (socket s) (socketOpen s) (ready s)
    (closed s) x (authBlocked s) (suspended s) (resuming s) (everReady s) (connectionGeneration s)
    (reconnectAttempt s) (serverRetryNotBeforeMs s) (authAttempt s) (authentication s) (blockingError s)
    (terminalError s) (connectionState s) (authenticationState s) (reconnectHandle s) (stableHandle s)
    (pingHandle s) (sourcePull s) (sourceFollowUp s) (ensureAfterPull s) (sourceRetryAttempt s)
    (sourceRetryHandle s) (sourceRefreshHandle s).
Definition set_authBlocked (x : bool) (s : Session) : Session :=
    MkSession (credential s) (credentialExpiresAtMs s) (helloCredential s) (socket s) (socketOpen s) (ready s)
    (closed s) (permanentFailure s) x (suspended s) (resuming s) (everReady s) (connectionGeneration s)
    (reconnectAttempt s) (serverRetryNotBeforeMs s) (authAttempt s) (authentication s) (blockingError s)
    (terminalError s) (connectionState s) (authenticationState s) (reconnectHandle s) (stableHandle s)
    (pingHandle s) (sourcePull s) (sourceFollowUp s) (ensureAfterPull s) (sourceRetryAttempt s)
    (sourceRetryHandle s) (sourceRefreshHandle s).
Definition set_suspended (x : bool) (s : Session) : Session :=
    MkSession (credential s) (credentialExpiresAtMs s) (helloCredential s) (socket s) (socketOpen s) (ready s)
    (closed s) (permanentFailure s) (authBlocked s) x (resuming s) (everReady s) (connectionGeneration s)
    (reconnectAttempt s) (serverRetryNotBeforeMs s) (authAttempt s) (authentication s) (blockingError s)
    (terminalError s) (connectionState s) (authenticationState s) (reconnectHandle s) (stableHandle s)
    (pingHandle s) (sourcePull s) (sourceFollowUp s) (ensureAfterPull s) (sourceRetryAttempt s)
    (sourceRetryHandle s) (sourceRefreshHandle s).
Definition set_resuming (x : bool) (s : Session) : Session :=
    MkSession (credential s) (credentialExpiresAtMs s) (helloCredential s) (socket s) (socketOpen s) (ready s)
    (closed s) (permanentFailure s) (authBlocked s) (suspended s) x (everReady s) (connectionGeneration s)
    (reconnectAttempt s) (serverRetryNotBeforeMs s) (authAttempt s) (authentication s) (blockingError s)
    (terminalError s) (connectionState s) (authenticationState s) (reconnectHandle s) (stableHandle s)
    (pingHandle s) (sourcePull s) (sourceFollowUp s) (ensureAfterPull s) (sourceRetryAttempt s)
    (sourceRetryHandle s) (sourceRefreshHandle s).
Definition set_everReady (x : bool) (s : Session) : Session :=
    MkSession (credential s) (credentialExpiresAtMs s) (helloCredential s) (socket s) (socketOpen s) (ready s)
    (closed s) (permanentFailure s) (authBlocked s) (suspended s) (resuming s) x (connectionGeneration s)
    (reconnectAttempt s) (serverRetryNotBeforeMs s) (authAttempt s) (authentication s) (blockingError s)
    (terminalError s) (connectionState s) (authenticationState s) (reconnectHandle s) (stableHandle s)
    (pingHandle s) (sourcePull s) (sourceFollowUp s) (ensureAfterPull s) (sourceRetryAttempt s)
    (sourceRetryHandle s) (sourceRefreshHandle s).
Definition set_connectionGeneration (x : Z) (s : Session) : Session :=
    MkSession (credential s) (credentialExpiresAtMs s) (helloCredential s) (socket s) (socketOpen s) (ready s)
    (closed s) (permanentFailure s) (authBlocked s) (suspended s) (resuming s) (everReady s) x
    (reconnectAttempt s) (serverRetryNotBeforeMs s) (authAttempt s) (authentication s) (blockingError s)
    (terminalError s) (connectionState s) (authenticationState s) (reconnectHandle s) (stableHandle s)
    (pingHandle s) (sourcePull s) (sourceFollowUp s) (ensureAfterPull s) (sourceRetryAttempt s)
    (sourceRetryHandle s) (sourceRefreshHandle s).
Definition set_reconnectAttempt (x : Z) (s : Session) : Session :=
    MkSession (credential s) (credentialExpiresAtMs s) (helloCredential s) (socket s) (socketOpen s) (ready s)
    (closed s) (permanentFailure s) (authBlocked s) (suspended s) (resuming s) (everReady s)
    (connectionGeneration s) x (serverRetryNotBeforeMs s) (authAttempt s) (authentication s) (blockingError s)
    (terminalError s) (connectionState s) (authenticationState s) (reconnectHandle s) (stableHandle s)
    (pingHandle s) (sourcePull s) (sourceFollowUp s) (ensureAfterPull s) (sourceRetryAttempt s)
    (sourceRetryHandle s) (sourceRefreshHandle s).
Definition set_serverRetryNotBeforeMs (x : Z) (s : Session) : Session :=
    MkSession (credential s) (credentialExpiresAtMs s) (helloCredential s) (socket s) (socketOpen s) (ready s)
    (closed s) (permanentFailure s) (authBlocked s) (suspended s) (resuming s) (everReady s)
    (connectionGeneration s) (reconnectAttempt s) x (authAttempt s) (authentication s) (blockingError s)
    (terminalError s) (connectionState s) (authenticationState s) (reconnectHandle s) (stableHandle s)
    (pingHandle s) (sourcePull s) (sourceFollowUp s) (ensureAfterPull s) (sourceRetryAttempt s)
    (sourceRetryHandle s) (sourceRefreshHandle s).
Definition set_authAttempt (x : option AuthAttempt) (s : Session) : Session :=
    MkSession (credential s) (credentialExpiresAtMs s) (helloCredential s) (socket s) (socketOpen s) (ready s)
    (closed s) (permanentFailure s) (authBlocked s) (suspended s) (resuming s) (everReady s)
    (connectionGeneration s) (reconnectAttempt s) (serverRetryNotBeforeMs s) x (authentication s)
    (blockingError s) (terminalError s) (connectionState s) (authenticationState s) (reconnectHandle s)
    (stableHandle s) (pingHandle s) (sourcePull s) (sourceFollowUp s) (ensureAfterPull s) (sourceRetryAttempt
    s) (sourceRetryHandle s) (sourceRefreshHandle s).
Definition set_authentication (x : option Authentication) (s : Session) : Session :=
    MkSession (credential s) (credentialExpiresAtMs s) (helloCredential s) (socket s) (socketOpen s) (ready s)
    (closed s) (permanentFailure s) (authBlocked s) (suspended s) (resuming s) (everReady s)
    (connectionGeneration s) (reconnectAttempt s) (serverRetryNotBeforeMs s) (authAttempt s) x (blockingError
    s) (terminalError s) (connectionState s) (authenticationState s) (reconnectHandle s) (stableHandle s)
    (pingHandle s) (sourcePull s) (sourceFollowUp s) (ensureAfterPull s) (sourceRetryAttempt s)
    (sourceRetryHandle s) (sourceRefreshHandle s).
Definition set_blockingError (x : option js_error) (s : Session) : Session :=
    MkSession (credential s) (credentialExpiresAtMs s) (helloCredential s) (socket s) (socketOpen s) (ready s)
    (closed s) (permanentFailure s) (authBlocked s) (suspended s) (resuming s) (everReady s)
    (connectionGeneration s) (reconnectAttempt s) (serverRetryNotBeforeMs s) (authAttempt s) (authentication
    s) x (terminalError s) (connectionState s) (authenticationState s) (reconnectHandle s) (stableHandle s)
    (pingHandle s) (sourcePull s) (sourceFollowUp s) (ensureAfterPull s) (sourceRetryAttempt s)
    (sourceRetryHandle s) (sourceRefreshHandle s).
Definition set_terminalError (x : option js_error) (s : Session) : Session :=
    MkSession (credential s) (credentialExpiresAtMs s) (helloCredential s) (socket s) (socketOpen s) (ready s)
    (closed s) (permanentFailure s) (authBlocked s) (suspended s) (resuming s) (everReady s)
    (connectionGeneration s) (reconnectAttempt s) (serverRetryNotBeforeMs s) (authAttempt s) (authentication
    s) (blockingError s) x (connectionState s) (authenticationState s) (reconnectHandle s) (stableHandle s)
    (pingHandle s) (sourcePull s) (sourceFollowUp s) (ensureAfterPull s) (sourceRetryAttempt s)
    (sourceRetryHandle s) (sourceRefreshHandle s).
Definition set_connectionState (x : ConnectionState) (s : Session) : Session :=
    MkSession (credential s) (credentialExpiresAtMs s) (helloCredential s) (socket s) (socketOpen s) (ready s)
    (closed s) (permanentFailure s) (authBlocked s) (suspended s) (resuming s) (everReady s)
    (connectionGeneration s) (reconnectAttempt s) (serverRetryNotBeforeMs s) (authAttempt s) (authentication
    s) (blockingError s) (terminalError s) x (authenticationState s) (reconnectHandle s) (stableHandle s)
    (pingHandle s) (sourcePull s) (sourceFollowUp s) (ensureAfterPull s) (sourceRetryAttempt s)
    (sourceRetryHandle s) (sourceRefreshHandle s).
Definition set_authenticationState (x : AuthenticationState) (s : Session) : Session :=
    MkSession (credential s) (credentialExpiresAtMs s) (helloCredential s) (socket s) (socketOpen s) (ready s)
    (closed s) (permanentFailure s) (authBlocked s) (suspended s) (resuming s) (everReady s)
    (connectionGeneration s) (reconnectAttempt s) (serverRetryNotBeforeMs s) (authAttempt s) (authentication
    s) (blockingError s) (terminalError s) (connectionState s) x (reconnectHandle s) (stableHandle s)
    (pingHandle s) (sourcePull s) (sourceFollowUp s) (ensureAfterPull s) (sourceRetryAttempt s)
    (sourceRetryHandle s) (sourceRefreshHandle s).
Definition set_reconnectHandle (x : option Z) (s : Session) : Session :=
    MkSession (credential s) (credentialExpiresAtMs s) (helloCredential s) (socket s) (socketOpen s) (ready s)
    (closed s) (permanentFailure s) (authBlocked s) (suspended s) (resuming s) (everReady s)
    (connectionGeneration s) (reconnectAttempt s) (serverRetryNotBeforeMs s) (authAttempt s) (authentication
    s) (blockingError s) (terminalError s) (connectionState s) (authenticationState s) x (stableHandle s)
    (pingHandle s) (sourcePull s) (sourceFollowUp s) (ensureAfterPull s) (sourceRetryAttempt s)
    (sourceRetryHandle s) (sourceRefreshHandle s).
Definition set_stableHandle (x : option Z) (s : Session) : Session :=
    MkSession (credential s) (credentialExpiresAtMs s) (helloCredential s) (socket s) (socketOpen s) (ready s)
    (closed s) (permanentFailure s) (authBlocked s) (suspended s) (resuming s) (everReady s)
    (connectionGeneration s) (reconnectAttempt s) (serverRetryNotBeforeMs s) (authAttempt s) (authentication
    s) (blockingError s) (terminalError s) (connectionState s) (authenticationState s) (reconnectHandle s) x
    (pingHandle s) (sourcePull s) (sourceFollowUp s) (ensureAfterPull s) (sourceRetryAttempt s)
    (sourceRetryHandle s) (sourceRefreshHandle s).
Definition set_pingHandle (x : option Z) (s : Session) : Session :=
    MkSession (credential s) (credentialExpiresAtMs s) (helloCredential s) (socket s) (socketOpen s) (ready s)
    (closed s) (permanentFailure s) (authBlocked s) (suspended s) (resuming s) (everReady s)
    (connectionGeneration s) (reconnectAttempt s) (serverRetryNotBeforeMs s) (authAttempt s) (authentication
    s) (blockingError s) (terminalError s) (connectionState s) (authenticationState s) (reconnectHandle s)
    (stableHandle s) x (sourcePull s) (sourceFollowUp s) (ensureAfterPull s) (sourceRetryAttempt s)
    (sourceRetryHandle s) (sourceRefreshHandle s).
Definition set_sourcePull (x : option SourcePull) (s : Session) : Session :=
    MkSession (credential s) (credentialExpiresAtMs s) (helloCredential s) (socket s) (socketOpen s) (ready s)
    (closed s) (permanentFailure s) (authBlocked s) (suspended s) (resuming s) (everReady s)
    (connectionGeneration s) (reconnectAttempt s) (serverRetryNotBeforeMs s) (authAttempt s) (authentication
    s) (blockingError s) (terminalError s) (connectionState s) (authenticationState s) (reconnectHandle s)
    (stableHandle s) (pingHandle s) x (sourceFollowUp s) (ensureAfterPull s) (sourceRetryAttempt s)
    (sourceRetryHandle s) (sourceRefreshHandle s).
Definition set_sourceFollowUp (x : bool) (s : Session) : Session :=
    MkSession (credential s) (credentialExpiresAtMs s) (helloCredential s) (socket s) (socketOpen s) (ready s)
    (closed s) (permanentFailure s) (authBlocked s) (suspended s) (resuming s) (everReady s)
    (connectionGeneration s) (reconnectAttempt s) (serverRetryNotBeforeMs s) (authAttempt s) (authentication
    s) (blockingError s) (terminalError s) (connectionState s) (authenticationState s) (reconnectHandle s)
    (stableHandle s) (pingHandle s) (sourcePull s) x (ensureAfterPull s) (sourceRetryAttempt s)
    (sourceRetryHandle s) (sourceRefreshHandle s).
Definition set_ensureAfterPull (x : bool) (s : Session) : Session :=
    MkSession (credential s) (credentialExpiresAtMs s) (helloCredential s) (socket s) (socketOpen s) (ready s)
    (closed s) (permanentFailure s) (authBlocked s) (suspended s) (resuming s) (everReady s)
    (connectionGeneration s) (reconnectAttempt s) (serverRetryNotBeforeMs s) (authAttempt s) (authentication
    s) (blockingError s) (terminalError s) (connectionState s) (authenticationState s) (reconnectHandle s)
    (stableHandle s) (pingHandle s) (sourcePull s) (sourceFollowUp s) x (sourceRetryAttempt s)
    (sourceRetryHandle s) (sourceRefreshHandle s).
Definition set_sourceRetryAttempt (x : Z) (s : Session) : Session :=
    MkSession (credential s) (credentialExpiresAtMs s) (helloCredential s) (socket s) (socketOpen s) (ready s)
    (closed s) (permanentFailure s) (authBlocked s) (suspended s) (resuming s) (everReady s)
    (connectionGeneration s) (reconnectAttempt s) (serverRetryNotBeforeMs s) (authAttempt s) (authentication
    s) (blockingError s) (terminalError s) (connectionState s) (authenticationState s) (reconnectHandle s)
    (stableHandle s) (pingHandle s) (sourcePull s) (sourceFollowUp s) (ensureAfterPull s) x (sourceRetryHandle
    s) (sourceRefreshHandle s).
Definition set_sourceRetryHandle (x : option Z) (s : Session) : Session :=
    MkSession (credential s) (credentialExpiresAtMs s) (helloCredential s) (socket s) (socketOpen s) (ready s)
    (closed s) (permanentFailure s) (authBlocked s) (suspended s) (resuming s) (everReady s)
    (connectionGeneration s) (reconnectAttempt s) (serverRetryNotBeforeMs s) (authAttempt s) (authentication
    s) (blockingError s) (terminalError s) (connectionState s) (authenticationState s) (reconnectHandle s)
    (stableHandle s) (pingHandle s) (sourcePull s) (sourceFollowUp s) (ensureAfterPull s) (sourceRetryAttempt
    s) x (sourceRefreshHandle s).
Definition set_sourceRefreshHandle (x : bool) (s : Session) : Session :=
    MkSession (credential s) (credentialExpiresAtMs s) (helloCredential s) (socket s) (socketOpen s) (ready s)
    (closed s) (permanentFailure s) (authBlocked s) (suspended s) (resuming s) (everReady s)
    (connectionGeneration s) (reconnectAttempt s) (serverRetryNotBeforeMs s) (authAttempt s) (authentication
    s) (blockingError s) (terminalError s) (connectionState s) (authenticationState s) (reconnectHandle s)
    (stableHandle s) (pingHandle s) (sourcePull s) (sourceFollowUp s) (ensureAfterPull s) (sourceRetryAttempt
    s) (sourceRetryHandle s) x.

(** ** The data of the channels *)

Inductive ChannelState : Type :=
  | ChannelConnecting
  | ChannelConnected
  | ChannelReconnecting
  | ChannelRejected (error : ApplicationError)
  | ChannelFailed (error : js_error).

(** [===]: the first three are constants, the others are made anew. *)
Definition same_state (l r : ChannelState) : bool :=
  match l, r with
  | ChannelConnecting, ChannelConnecting | ChannelConnected, ChannelConnected | ChannelReconnecting, ChannelReconnecting => true
  | _, _ => false
  end.

Definition is_connected (s : ChannelState) : bool := same_state s ChannelConnected.

(** [AckerDBChannelOn]: a function of every event, or handlers of those named. *)
Inductive ChannelOn : Type := OnAny | OnNamed (events : list string).

(** An observer is active while its group has it. *)
Record Observer : Type := MkObserver {
  handlerKey : option string;
  on : option ChannelOn;
  listeners : list Z;  (* a Set of functions *)
}.

Record Group : Type := MkGroup {
  group_key : value;  (* a text *)
  address : string;
  group_args : value;
  room : option value;  (* [None]: [hasRoom] is false *)
  group_frame : value;
  group_bytes : Z;
  observers : list (Z * Observer);
  group_state : ChannelState;
  attemptedGeneration : option Z;
  attemptedAuthEpoch : option num;
}.

Definition set_observers (x : list (Z * Observer)) (g : Group) : Group :=
    MkGroup (group_key g) (address g) (group_args g) (room g) (group_frame g) (group_bytes g) x (group_state
    g) (attemptedGeneration g) (attemptedAuthEpoch g).
Definition set_group_state (x : ChannelState) (g : Group) : Group :=
    MkGroup (group_key g) (address g) (group_args g) (room g) (group_frame g) (group_bytes g) (observers g) x
    (attemptedGeneration g) (attemptedAuthEpoch g).
Definition set_attemptedGeneration (x : option Z) (g : Group) : Group :=
    MkGroup (group_key g) (address g) (group_args g) (room g) (group_frame g) (group_bytes g) (observers g)
    (group_state g) x (attemptedAuthEpoch g).
Definition set_attemptedAuthEpoch (x : option num) (g : Group) : Group :=
    MkGroup (group_key g) (address g) (group_args g) (room g) (group_frame g) (group_bytes g) (observers g)
    (group_state g) (attemptedGeneration g) x.
Definition set_listeners (x : list Z) (o : Observer) : Observer :=
    MkObserver (handlerKey o) (on o) x.

(** What the application is told: that the state of a channel changed, by a
    listener, which reads it, and of an event, by an observer. *)
Inductive ChannelCall : Type :=
  | Notified (channel listener : Z) (state : ChannelState)
  | Handled (channel observer : Z) (event : string) (payload : value).

(** What passes between the client and its sockets. *)
Inductive Traffic : Type :=
  | Dialed (generation : Z)
  | Handed (generation : Z) (frame : value)
  | Welcomed (generation : Z)
  | Confirmed (generation attempt : Z)
  | Retired (generation : Z).

Record Client : Type := MkClient {
  subscriptions : list (Z * Subscription);  (* Maps, in insertion order *)
  pending : list (Z * PendingRequest);
  channels : list (Z * Group);
  streams : list (Z * Z);  (* the bytes each [sse] has reserved *)
  pendingItems : Z;
  pendingBytes : Z;
  nextId : Z;
  nextHandle : Z;  (* names for handles and streams, which have none *)
  session : Session;
  uuid : UuidV7Factory;  (* and the calls of the random source *)
  k_readings : nat;  (* readings of the clock so far *)
  k_sends : nat;  (* calls of [socket.send] so far *)
  traffic : list Traffic;
  calls : list (Z * Callback);
  channel_calls : list ChannelCall;
  settled_requests : list (Z * Settlement);
  settled_attempts : list (Z * (Authentication + js_error));
}.

Definition set_subscriptions (x : list (Z * Subscription)) (k : Client) : Client :=
    MkClient x (pending k) (channels k) (streams k) (pendingItems k) (pendingBytes k) (nextId k) (nextHandle
    k) (session k) (uuid k) (k_readings k) (k_sends k) (traffic k) (calls k) (channel_calls k)
    (settled_requests k) (settled_attempts k).
Definition set_pending (x : list (Z * PendingRequest)) (k : Client) : Client :=
    MkClient (subscriptions k) x (channels k) (streams k) (pendingItems k) (pendingBytes k) (nextId k)
    (nextHandle k) (session k) (uuid k) (k_readings k) (k_sends k) (traffic k) (calls k) (channel_calls k)
    (settled_requests k) (settled_attempts k).
Definition set_channels (x : list (Z * Group)) (k : Client) : Client :=
    MkClient (subscriptions k) (pending k) x (streams k) (pendingItems k) (pendingBytes k) (nextId k)
    (nextHandle k) (session k) (uuid k) (k_readings k) (k_sends k) (traffic k) (calls k) (channel_calls k)
    (settled_requests k) (settled_attempts k).
Definition set_streams (x : list (Z * Z)) (k : Client) : Client :=
    MkClient (subscriptions k) (pending k) (channels k) x (pendingItems k) (pendingBytes k) (nextId k)
    (nextHandle k) (session k) (uuid k) (k_readings k) (k_sends k) (traffic k) (calls k) (channel_calls k)
    (settled_requests k) (settled_attempts k).
Definition set_pendingItems (x : Z) (k : Client) : Client :=
    MkClient (subscriptions k) (pending k) (channels k) (streams k) x (pendingBytes k) (nextId k) (nextHandle
    k) (session k) (uuid k) (k_readings k) (k_sends k) (traffic k) (calls k) (channel_calls k)
    (settled_requests k) (settled_attempts k).
Definition set_pendingBytes (x : Z) (k : Client) : Client :=
    MkClient (subscriptions k) (pending k) (channels k) (streams k) (pendingItems k) x (nextId k) (nextHandle
    k) (session k) (uuid k) (k_readings k) (k_sends k) (traffic k) (calls k) (channel_calls k)
    (settled_requests k) (settled_attempts k).
Definition set_nextId (x : Z) (k : Client) : Client :=
    MkClient (subscriptions k) (pending k) (channels k) (streams k) (pendingItems k) (pendingBytes k) x
    (nextHandle k) (session k) (uuid k) (k_readings k) (k_sends k) (traffic k) (calls k) (channel_calls k)
    (settled_requests k) (settled_attempts k).
Definition set_nextHandle (x : Z) (k : Client) : Client :=
    MkClient (subscriptions k) (pending k) (channels k) (streams k) (pendingItems k) (pendingBytes k) (nextId
    k) x (session k) (uuid k) (k_readings k) (k_sends k) (traffic k) (calls k) (channel_calls k)
    (settled_requests k) (settled_attempts k).
Definition set_session (x : Session) (k : Client) : Client :=
    MkClient (subscriptions k) (pending k) (channels k) (streams k) (pendingItems k) (pendingBytes k) (nextId
    k) (nextHandle k) x (uuid k) (k_readings k) (k_sends k) (traffic k) (calls k) (channel_calls k)
    (settled_requests k) (settled_attempts k).
Definition set_uuid (x : UuidV7Factory) (k : Client) : Client :=
    MkClient (subscriptions k) (pending k) (channels k) (streams k) (pendingItems k) (pendingBytes k) (nextId
    k) (nextHandle k) (session k) x (k_readings k) (k_sends k) (traffic k) (calls k) (channel_calls k)
    (settled_requests k) (settled_attempts k).
Definition set_k_readings (x : nat) (k : Client) : Client :=
    MkClient (subscriptions k) (pending k) (channels k) (streams k) (pendingItems k) (pendingBytes k) (nextId
    k) (nextHandle k) (session k) (uuid k) x (k_sends k) (traffic k) (calls k) (channel_calls k)
    (settled_requests k) (settled_attempts k).
Definition set_k_sends (x : nat) (k : Client) : Client :=
    MkClient (subscriptions k) (pending k) (channels k) (streams k) (pendingItems k) (pendingBytes k) (nextId
    k) (nextHandle k) (session k) (uuid k) (k_readings k) x (traffic k) (calls k) (channel_calls k)
    (settled_requests k) (settled_attempts k).
Definition set_traffic (x : list Traffic) (k : Client) : Client :=
    MkClient (subscriptions k) (pending k) (channels k) (streams k) (pendingItems k) (pendingBytes k) (nextId
    k) (nextHandle k) (session k) (uuid k) (k_readings k) (k_sends k) x (calls k) (channel_calls k)
    (settled_requests k) (settled_attempts k).
Definition set_calls (x : list (Z * Callback)) (k : Client) : Client :=
    MkClient (subscriptions k) (pending k) (channels k) (streams k) (pendingItems k) (pendingBytes k) (nextId
    k) (nextHandle k) (session k) (uuid k) (k_readings k) (k_sends k) (traffic k) x (channel_calls k)
    (settled_requests k) (settled_attempts k).
Definition set_channel_calls (x : list ChannelCall) (k : Client) : Client :=
    MkClient (subscriptions k) (pending k) (channels k) (streams k) (pendingItems k) (pendingBytes k) (nextId
    k) (nextHandle k) (session k) (uuid k) (k_readings k) (k_sends k) (traffic k) (calls k) x
    (settled_requests k) (settled_attempts k).
Definition set_settled_requests (x : list (Z * Settlement)) (k : Client) : Client :=
    MkClient (subscriptions k) (pending k) (channels k) (streams k) (pendingItems k) (pendingBytes k) (nextId
    k) (nextHandle k) (session k) (uuid k) (k_readings k) (k_sends k) (traffic k) (calls k) (channel_calls k)
    x (settled_attempts k).
Definition set_settled_attempts (x : list (Z * (Authentication + js_error))) (k : Client) : Client :=
    MkClient (subscriptions k) (pending k) (channels k) (streams k) (pendingItems k) (pendingBytes k) (nextId
    k) (nextHandle k) (session k) (uuid k) (k_readings k) (k_sends k) (traffic k) (calls k) (channel_calls k)
    (settled_requests k) x.
Abbreviation eff := (Effects.eff Client).

(** The limits, the clock, the random source, the sockets, and the length in
    bytes of a frame's text. *)
Class ClientOptions : Type := {
  maxPendingItems : Z;
  maxPendingBytes : Z;
  client_maxFrameBytes : Z;
  maxMutationAgeMs : Z;
  maxQueryAgeMs : Z;
  reconnect_policy : RetryPolicy;
  client_session : string;
  credential_given : option Credential;  (* [None]: a credential source *)
  client_now : nat -> num;
  client_random : nat -> num;
  dial_fails : Z -> bool;  (* [createWebSocket] throws *)
  send_fails : nat -> bool;  (* [socket.send] throws *)
  text_bytes : value -> Z;
}.

Section client.
Context {options : ClientOptions}.

Definition localError (code : OutcomeCode) (message : string) (resource : option ResourceClass) (committed : bool) : js_error :=
  Acker (MkAckerDBError code message false None resource committed).

(** [new AckerDBClientError(outcome)] *)
Definition client_error (o : Outcome) : js_error :=
  Acker (MkAckerDBError (out_code o) (out_message o) (out_retryable o) (out_retryAfterMs o) (out_resource o) (out_committed o)).

(** ** Frames *)

(** [encode(parseClientMessage(frame))] *)
Definition encodeClient (m : ClientSessionMessage) : exc js_error value :=
  match (v ← parseClientMessage (client_value m); encode v) with
  | Throw (ProtocolError code message) => Throw (localError code message (Some operation) false)
  | r => r
  end.

Definition encodeSubscriptionOrReject (id : Z) (ref : string) (args : value) : exc js_error value :=
  match encodeClient (CSubscribe (num_of_Z id) ref args None) with
  | Throw (WireError message) => Throw (localError validation message (Some subscription) false)
  | r => r
  end.

Definition encodeSubscription (id : Z) (s : Subscription) (cursor : option SubscriptionCursor) : exc js_error value :=
  encodeClient (CSubscribe (num_of_Z id) (sub_ref s) (sub_args s) cursor).

Definition frameBytes (frame : value) (resource : ResourceClass) : exc js_error Z :=
  let bytes := text_bytes frame in
  if decide (client_maxFrameBytes < bytes)
  then Throw (Acker (MkAckerDBError overloaded_ "client frame exceeds the configured limit" false None (Some resource) false))
  else Ret bytes.

(** [this.protocolError(error)] *)
Definition protocolError (error : js_error) : js_error :=
  match error with
  | ProtocolError code message => localError code message (Some connection) false
  | _ => localError malformed_ "invalid protocol payload" (Some connection) false
  end.

Definition suspensionError (code : OutcomeCode) (message : string) (resource : ResourceClass) : js_error :=
  localError code message (Some resource) false.

(** ** Effects *)

Definition update_session (f : Session -> Session) : eff unit := modify (fun k => set_session (f (session k)) k).

(** [this.clock.now()] *)
Definition raw_clock : eff num := fun k => (Ret (client_now (k_readings k)), set_k_readings (S (k_readings k)) k).

(** [this.now()] *)
Definition clock : eff Z :=
  now ← raw_clock;
  match num_safe_integer now with
  | Some now => if decide (now < 0) then throw (RangeError "clock must return non-negative integer milliseconds") else mret now
  | None => throw (RangeError "clock must return non-negative integer milliseconds")
  end.

Definition random_value : eff num := fun k =>
  (Ret (client_random (draws (uuid k))), set_uuid (MkFactory (lastTimestamp (uuid k)) (randomBits (uuid k)) (S (draws (uuid k)))) k).

(** [this.uuid.create(nowMs)] *)
Definition new_uuid (nowMs : Z) : eff string := zoom uuid set_uuid (create client_random nowMs).

Definition log_traffic (t : Traffic) : eff unit := modify (fun k => set_traffic (traffic k ++ [t]) k).
Definition call_back (id : Z) (c : Callback) : eff unit := modify (fun k => set_calls (calls k ++ [(id, c)]) k).

Definition update_subscription (id : Z) (f : Subscription -> Subscription) : eff unit :=
  modify (fun k => match jmap_get id (subscriptions k) with Some s => set_subscriptions (jmap_set id (f s) (subscriptions k)) k | None => k end).

Definition update_group (id : Z) (f : Group -> Group) : eff unit :=
  modify (fun k => match jmap_get id (channels k) with Some g => set_channels (jmap_set id (f g) (channels k)) k | None => k end).

Definition update_request (id : Z) (f : PendingRequest -> PendingRequest) : eff unit :=
  modify (fun k => match jmap_get id (pending k) with Some r => set_pending (jmap_set id (f r) (pending k)) k | None => k end).

Definition for_all {A} (f : A -> eff unit) (l : list A) : eff unit := foldr (fun x rest => _ ← f x; rest) (mret tt) l.

Definition defined {A} (o : option A) : bool := match o with Some _ => true | None => false end.

Definition canSendOperations (s : Session) : bool :=
  socketOpen s && ready s && negb (defined (authAttempt s)) && defined (socket s).
Definition online (k : Client) : bool := canSendOperations (session k).

Definition releasePersistent (bytes : Z) : eff unit :=
  modify (fun k => set_pendingBytes (pendingBytes k - bytes) (set_pendingItems (pendingItems k - 1) k)).

Definition allocateId : eff Z :=
  n ← get nextId;
  if decide (MAX_PROTOCOL_ID < n) then throw (localError unavailable_ "client protocol ID space is exhausted" (Some operation) false)
  else _ ← modify (set_nextId (n + 1)); mret n.

Definition assertUsable : eff unit :=
  s ← get session;
  if closed s then throw (localError unavailable_ "client is closed" (Some connection) false)
  else if permanentFailure s then throw (localError unavailable_ "client stopped after a protocol failure" (Some connection) false)
  else if authBlocked s then throw (localError unauthenticated "client requires a new credential" (Some connection) false)
  else mret tt.

Definition finishRequest (id : Z) (s : Settlement) : eff unit :=
  o ← get (fun k => jmap_get id (pending k));
  match o with
  | None => mret tt
  | Some r =>
      _ ← modify (fun k => set_pending (jmap_delete id (pending k)) k);
      _ ← releasePersistent (req_bytes r);
      modify (fun k => set_settled_requests (settled_requests k ++ [(id, s)]) k)
  end.

(** ** The published states *)

Definition deriveConnectionState (s : Session) : ConnectionState :=
  if closed s then ConnectionClosed
  else if permanentFailure s then TerminalError (terminalError s)
  else if authBlocked s then AuthenticationBlocked (blockingError s)
  else if suspended s then SessionSuspended
  else if ready s then Ready (authentication s)
  else if resuming s then Resuming
  else if everReady s then Reconnecting else Connecting.

Definition authenticating (c : option Credential) : AuthenticationState :=
  match c with
  | None => AuthenticatingSource
  | Some Anonymous => AuthenticatingAnonymous
  | Some (Bearer _) => AuthenticatingBearer
  end.

Definition is_anonymous (a : option Authentication) : bool :=
  match a with Some (MkAuthentication AnonymousPrincipal _) => true | _ => false end.

Definition deriveAuthenticationState (s : Session) : AuthenticationState :=
  if closed s then AuthenticationClosed
  else if permanentFailure s then AuthenticationFailed (terminalError s)
  else if authBlocked s then RefreshRequired (blockingError s)
  else match authAttempt s with
  | Some a => authenticating (Some (attempt_credential a))
  | None =>
      if negb (ready s) then authenticating (credential s)
      else if is_anonymous (authentication s) then Unauthenticated (authentication s) else Authenticated (authentication s)
  end.

Definition publishConnectionState : eff unit :=
  update_session (fun s => set_connectionState (deriveConnectionState s) (set_authenticationState (deriveAuthenticationState s) s)).

(** ** The end of a connection *)

Definition clearConnectionTimers (s : Session) : Session := set_stableHandle None (set_pingHandle None s).
Definition clearReconnectTimer (s : Session) : Session := set_reconnectHandle None s.
Definition clearSourceRetryTimer (s : Session) : Session := set_sourceRetryHandle None s.
Definition clearSourceRefreshTimer (s : Session) : Session := set_sourceRefreshHandle false s.

Definition forget_events (subs : list (Z * Subscription)) : list (Z * Subscription) :=
  (fun '(id, s) => (id, if decide (sub_kind s = event_subscription) then set_sub_eventCursor None s else s)) <$> subs.

(** [replace], of the group [id] if there is one: its listeners are told of a
    state that is not the one it has. *)
Definition replace (id : Z) (state : ChannelState) : eff unit :=
  o ← get (fun k => jmap_get id (channels k));
  match o with
  | None => mret tt
  | Some g =>
      if same_state (group_state g) state then mret tt
      else
        _ ← update_group id (set_group_state state);
        let told := flat_map (fun '(_, o) => (fun l => Notified id l state) <$> listeners o) (observers g) in
        modify (fun k => set_channel_calls (channel_calls k ++ told) k)
  end.

(** [ChannelManager.connectionLost] *)
Definition connectionLost : eff unit :=
  groups ← get channels;
  for_all (fun '(id, _) =>
    _ ← update_group id (fun g => set_attemptedAuthEpoch None (set_attemptedGeneration None g));
    replace id ChannelReconnecting) groups.

(** [ChannelManager.failAll] *)
Definition channels_failAll (error : js_error) : eff unit :=
  groups ← get channels;
  for_all (fun '(id, _) => replace id (ChannelFailed error)) groups.

(** The socket is detached. *)
Definition detach : eff unit :=
  s ← get session;
  _ ← update_session (fun s => set_authentication None (set_ready false (set_socketOpen false (set_socket None s))));
  _ ← match socket s with Some g => log_traffic (Retired g) | None => mret tt end;
  _ ← modify (fun k => set_subscriptions (forget_events (subscriptions k)) k);
  connectionLost.

Definition retireConnection : eff unit :=
  _ ← update_session clearConnectionTimers;
  detach.

(** The promise of an attempt is settled; a pull that waits for it is over. *)
Definition settle_attempt (id : Z) (r : Authentication + js_error) : eff unit :=
  _ ← modify (fun k => set_settled_attempts (settled_attempts k ++ [(id, r)]) k);
  update_session (fun s => match sourcePull s with
    | Some (Presenting id') =>
        if decide (id' = id) then set_sourcePull (Some (Pulled (match r with inl _ => true | inr _ => false end))) s else s
    | _ => s
    end).

(** [if (this.authAttempt) { this.authAttempt.reject(error); this.authAttempt = undefined; }] *)
Definition reject_attempt (error : js_error) : eff unit :=
  s ← get session;
  match authAttempt s with
  | None => mret tt
  | Some a => _ ← settle_attempt (attempt_id a) (inr error); update_session (set_authAttempt None)
  end.

Definition finish_all (f : PendingRequest -> Settlement) : eff unit :=
  requests ← get pending;
  for_all (fun '(id, r) => finishRequest id (f r)) requests.

Definition tell_all (error : js_error) : eff unit :=
  subs ← get subscriptions;
  for_all (fun '(id, _) => call_back id (OnError error)) subs.

Definition drop_subscriptions : eff unit :=
  subs ← get subscriptions;
  _ ← for_all (fun '(_, s) => releasePersistent (sub_bytes s)) subs;
  modify (set_subscriptions []).

Definition failPermanently (error : js_error) : eff unit :=
  s ← get session;
  if permanentFailure s || closed s then mret tt
  else
    _ ← update_session (fun s => clearReconnectTimer (set_terminalError (Some error) (set_resuming false (set_permanentFailure true s))));
    _ ← reject_attempt error;
    _ ← finish_all (fun _ => Rejected error);
    _ ← tell_all error;
    _ ← channels_failAll error;
    _ ← drop_subscriptions;
    _ ← retireConnection;
    publishConnectionState.

(** ** Retries and dials *)

Definition invalid_random : js_error := localError internal "client random source is invalid" (Some connection) false.

Definition scheduleReconnect : eff unit :=
  s ← get session;
  if defined (reconnectHandle s) || defined (socket s) || suspended s then mret tt
  else
    _ ← update_session (set_resuming false);
    now ← clock;
    value ← random_value;
    let floor := Z.min (Z.max 0 (serverRetryNotBeforeMs s - now)) MAX_RETRY_AFTER_MS in
    match retryDelay reconnect_policy (reconnectAttempt s) floor value MAX_RETRY_AFTER_MS with
    | Throw _ => failPermanently invalid_random
    | Ret delay => update_session (fun s => set_reconnectHandle (Some delay) (set_reconnectAttempt (reconnectAttempt s + 1) s))
    end.

(** The client owns its credential: [this.credentialSource !== undefined]. *)
Definition credentialSource : bool := negb (defined credential_given).

Definition scheduleSourceRetry : eff unit :=
  s ← get session;
  if negb credentialSource || defined (sourceRetryHandle s) || closed s || permanentFailure s || suspended s then mret tt
  else
    value ← random_value;
    match retryDelay reconnect_policy (sourceRetryAttempt s) 0 value MAX_RETRY_AFTER_MS with
    | Throw _ => failPermanently invalid_random
    | Ret delay => update_session (fun s => set_sourceRetryHandle (Some delay) (set_sourceRetryAttempt (sourceRetryAttempt s + 1) s))
    end.

Definition pullCredentialSource : eff unit :=
  update_session (fun s => if defined (sourcePull s) then s else set_sourcePull (Some Invoking) (clearSourceRetryTimer s)).

(** The credential the client would present is past the deadline the server
    disclosed. *)
Definition credential_expired (s : Session) : eff bool :=
  match credentialExpiresAtMs s with
  | Some deadline => if credentialSource then now ← clock; mret (bool_decide (deadline <= now)) else mret false
  | None => mret false
  end.

Definition dial : eff unit :=
  _ ← update_session clearReconnectTimer;
  n ← get k_readings;
  if dial_fails (Z.of_nat n) then scheduleReconnect
  else
    s ← get session;
    let g := connectionGeneration s + 1 in
    _ ← update_session (fun s => set_connectionGeneration g (set_socket (Some g) s));
    log_traffic (Dialed g).

Definition ensureConnected : eff unit :=
  s ← get session;
  if closed s || permanentFailure s || authBlocked s || suspended s || defined (socket s) then mret tt
  else match credential s with
  | None => pullCredentialSource
  | Some _ =>
      expired ← credential_expired s;
      if (expired : bool) then pullCredentialSource
      else
        now ← clock;
        if decide (now < serverRetryNotBeforeMs s) then scheduleReconnect else dial
  end.

(** [handleClose] of the socket [g] *)
Definition handleClose (g : Z) : eff unit :=
  s ← get session;
  if negb (bool_decide (socket s = Some g)) then mret tt
  else
    _ ← update_session (fun s => clearConnectionTimers (set_resuming false s));
    _ ← detach;
    requests ← get pending;
    _ ← for_all (fun '(id, r) =>
          when (bool_decide (req_kind r = procedure_request) && bool_decide (req_sentGeneration r = Some (connectionGeneration s)))
            (finishRequest id (Rejected (localError indeterminate "procedure completion is unknown" (Some operation) false)))) requests;
    _ ← when (negb (closed s) && negb (permanentFailure s) && negb (authBlocked s)) scheduleReconnect;
    publishConnectionState.

(** ** Sending *)

(** Whether the text was handed to the socket. *)
Definition sendText (text : value) : eff bool :=
  s ← get session;
  match socket s with
  | Some g =>
      if negb (socketOpen s) then mret false
      else
        n ← get k_sends;
        _ ← modify (set_k_sends (S n));
        if send_fails n then _ ← handleClose g; mret false else _ ← log_traffic (Handed g text); mret true
  | None => mret false
  end.

Definition sendFrame (m : ClientSessionMessage) : eff unit :=
  text ← lift (encodeClient m);
  _ ← lift (frameBytes text connection);
  _ ← sendText text;
  mret tt.

Definition reservePersistent (frame : value) (resource : ResourceClass) : eff Z :=
  bytes ← lift (frameBytes frame resource);
  k ← get id;
  if decide (maxPendingItems <= pendingItems k \/ maxPendingBytes - pendingBytes k < bytes) then
    throw (Acker (MkAckerDBError overloaded_ "client pending state is full" true
             (Some (num_of_Z (baseDelayMs reconnect_policy))) (Some resource) false))
  else
    _ ← modify (fun k => set_pendingBytes (pendingBytes k + bytes) (set_pendingItems (pendingItems k + 1) k));
    mret bytes.

(** ** Requests *)

(** A request without obligations remaining is answered. *)
Definition finish_if_converged (id : Z) (result : option ClientResult) (obligations : gset Z) : eff unit :=
  if decide (obligations = ∅) then finishRequest id (Resolved result) else mret tt.

Definition advanceConvergence (subscriptionId version : Z) : eff unit :=
  requests ← get pending;
  for_all (fun '(id, r) =>
    match receipt r, req_obligations r with
    | Some rc, Some obligations =>
        if bool_decide (req_kind r = mutation_request) && bool_decide (subscriptionId ∈ obligations) &&
           bool_decide (rc_commitVersion rc <= version) then
          let remaining := obligations ∖ {[subscriptionId]} in
          _ ← update_request id (set_req_obligations (Some remaining));
          finish_if_converged id (req_result r) remaining
        else mret tt
    | _, _ => mret tt
    end) requests.

Definition sendRequest (id : Z) : eff unit :=
  o ← get (fun k => jmap_get id (pending k));
  match o with
  | None => mret tt
  | Some r =>
      _ ← sendText (req_frame r);
      g ← get (fun k => connectionGeneration (session k));
      update_request id (set_req_sentGeneration (Some g))
  end.

Definition sendProcedureCancel (id : Z) (r : PendingRequest) : eff unit :=
  s ← get session;
  if bool_decide (req_kind r = procedure_request) && bool_decide (req_sentGeneration r = Some (connectionGeneration s)) &&
     canSendOperations s
  then catch (sendFrame (CCancel (num_of_Z id))) (fun _ => mret tt)
  else mret tt.

Definition expiry_error (r : PendingRequest) : js_error :=
  let sent := defined (req_sentGeneration r) in
  if defined (receipt r) then
    localError convergence_unavailable "committed mutation did not converge before its client retention deadline" (Some idempotency) true
  else if bool_decide (req_kind r = mutation_request) && sent then
    localError indeterminate "mutation completion is unknown" (Some idempotency) false
  else if bool_decide (req_kind r = procedure_request) && sent then
    localError indeterminate "procedure completion is unknown" (Some operation) false
  else localError deadline_exceeded "client request deadline exceeded" (Some operation) false.

Definition expireRequest (id : Z) : eff unit :=
  o ← get (fun k => jmap_get id (pending k));
  match o with
  | None => mret tt
  | Some r =>
      _ ← when (bool_decide (req_kind r = procedure_request) && defined (req_sentGeneration r)) (sendProcedureCancel id r);
      finishRequest id (Rejected (expiry_error r))
  end.

Definition cancelProcedure (id : Z) : eff unit :=
  o ← get (fun k => jmap_get id (pending k));
  match o with
  | Some r =>
      if decide (req_kind r = procedure_request) then
        _ ← sendProcedureCancel id r;
        finishRequest id (Rejected
          (if defined (req_sentGeneration r) then localError indeterminate "procedure completion is unknown" (Some operation) false
           else localError unavailable_ "procedure request was canceled" (Some operation) false))
      else mret tt
  | None => mret tt
  end.

(** [request]; what it throws rejects the promise it returns. *)
Definition request (kind : RequestKind) (ref : string) (args : value) : eff Z :=
  catch (
    _ ← assertUsable;
    id ← allocateId;
    createdAtMs ← clock;
    identity ← (if decide (kind = mutation_request) then u ← new_uuid createdAtMs; mret (Some u) else mret None);
    frame ← lift (encodeClient
      (match kind with
       | query_request => CQuery (num_of_Z id) ref args
       | procedure_request => CProcedure (num_of_Z id) ref args
       | mutation_request => CMutation (num_of_Z id) ref args (default EmptyString identity) (num_of_Z createdAtMs)
       end));
    bytes ← reservePersistent frame operation;
    let maxAge := if decide (kind = mutation_request) then maxMutationAgeMs else maxQueryAgeMs in
    _ ← modify (fun k => set_pending
          (jmap_set id (MkPending kind frame bytes (createdAtMs + maxAge) identity None None None None) (pending k)) k);
    _ ← ensureConnected;
    can ← get online;
    _ ← when can (sendRequest id);
    mret id)
  (fun error => throw (match error with
     | Acker _ => error
     | _ => localError validation "request cannot be encoded" (Some operation) false
     end)).

(** [procedure]: work that does not outlive a suspension is refused during one. *)
Definition procedure (ref : string) (args : value) : eff Z :=
  _ ← assertUsable;
  s ← get session;
  if suspended s then throw (suspensionError unavailable_ "client is suspended" operation)
  else request procedure_request ref args.

(** ** Subscriptions *)

Definition sendSubscription (id : Z) : eff unit :=
  o ← get (fun k => jmap_get id (subscriptions k));
  match o with
  | None => mret tt
  | Some s =>
      _ ← sendText (sub_frame s);
      g ← get (fun k => connectionGeneration (session k));
      update_subscription id (set_sub_sentGeneration (Some g))
  end.

(** [subscribe] and [subscribeEvent]. *)
Definition subscribe (kind : SubscriptionKind) (ref : string) (args : value) : eff Z :=
  _ ← assertUsable;
  id ← allocateId;
  frame ← lift (encodeSubscriptionOrReject id ref args);
  bytes ← reservePersistent frame subscription;
  _ ← modify (fun k => set_subscriptions
        (jmap_set id (MkSubscription kind ref args None None false frame bytes None createSubscriptionRetryState) (subscriptions k)) k);
  _ ← ensureConnected;
  can ← get online;
  _ ← when can (sendSubscription id);
  mret id.

Definition removeSubscription (id : Z) (sendUnsubscribe : bool) : eff unit :=
  o ← get (fun k => jmap_get id (subscriptions k));
  match o with
  | None => mret tt
  | Some s =>
      _ ← modify (fun k => set_subscriptions (jmap_delete id (subscriptions k)) k);
      _ ← releasePersistent (sub_bytes s);
      can ← get online;
      _ ← when (sendUnsubscribe && can) (sendFrame (CUnsubscribe (num_of_Z id)));
      requests ← get pending;
      for_all (fun '(rid, r) =>
        match receipt r, req_obligations r with
        | Some _, Some obligations =>
            if bool_decide (req_kind r = mutation_request) && bool_decide (id ∈ obligations) then
              let remaining := obligations ∖ {[id]} in
              _ ← update_request rid (set_req_obligations (Some remaining));
              finish_if_converged rid (req_result r) remaining
            else mret tt
        | _, _ => mret tt
        end) requests
  end.

Definition requestReset (id : Z) : eff unit :=
  o ← get (fun k => jmap_get id (subscriptions k));
  match o with
  | None => mret tt
  | Some s =>
      if resetRequested s then mret tt
      else
        _ ← update_subscription id (set_resetRequested true);
        can ← get online;
        if negb can then mret tt
        else match sub_cursor s with
        | Some c => sendFrame (CReset (num_of_Z id) c)
        | None => text ← lift (encodeSubscription id s None); _ ← sendText text; mret tt
        end
  end.

Definition cursor_overloaded : js_error :=
  Acker (MkAckerDBError overloaded_ "subscription cursor exceeds the client state limit" true
    (Some (num_of_Z (baseDelayMs reconnect_policy))) (Some subscription) false).

Definition retainCursor (id : Z) (cursor : SubscriptionCursor) : eff bool :=
  o ← get (fun k => jmap_get id (subscriptions k));
  match o with
  | None => mret false
  | Some s =>
      match (frame ← encodeSubscription id s (Some cursor); bytes ← frameBytes frame subscription; Ret (frame, bytes)) with
      | Throw error =>
          _ ← call_back id (OnError (match error with
                | Acker _ => error
                | _ => localError overloaded_ "subscription cursor exceeds the client state limit" (Some subscription) false
                end));
          _ ← removeSubscription id true;
          mret false
      | Ret (frame, bytes) =>
          total ← get pendingBytes;
          let nextTotal := total - sub_bytes s + bytes in
          if decide (maxPendingBytes < nextTotal) then
            _ ← call_back id (OnError cursor_overloaded);
            _ ← removeSubscription id true;
            mret false
          else
            _ ← modify (set_pendingBytes nextTotal);
            _ ← update_subscription id (fun s => set_sub_cursor (Some cursor) (set_sub_bytes bytes (set_sub_frame frame s)));
            mret true
      end
  end.

(** ** Channels *)

Definition encodeChannelOrReject (m : ClientSessionMessage) : exc js_error value :=
  match encodeClient m with
  | Throw (WireError message) => Throw (localError validation message (Some subscription) false)
  | r => r
  end.

(** [send] of the manager's port. *)
Definition channels_send (frame : value) : eff bool :=
  _ ← lift (frameBytes frame subscription);
  sendText frame.

(** [port.send(port.encode(frame))] *)
Definition channels_sendFrame (m : ClientSessionMessage) : eff bool :=
  frame ← lift (encodeChannelOrReject m);
  channels_send frame.

(** The group was attempted on the connection [current], for the epoch [epoch]. *)
Definition attempted (current : Z) (epoch : num) (g : Group) : bool :=
  bool_decide (attemptedGeneration g = Some current) &&
  match attemptedAuthEpoch g with Some e => num_same e epoch | None => false end.

Definition flushGroup (id : Z) : eff unit :=
  can ← get online;
  if negb can then mret tt
  else
    k ← get (fun k => k);
    match jmap_get id (channels k), authEpoch <$> authentication (session k) with
    | Some g, Some epoch =>
        let current := connectionGeneration (session k) in
        if attempted current epoch g then mret tt
        else
          sent ← channels_send (group_frame g);
          if negb sent then mret tt
          else
            _ ← update_group id (fun g => set_attemptedAuthEpoch (Some epoch) (set_attemptedGeneration (Some current) g));
            when (negb (is_connected (group_state g)))
              (replace id (if decide (current = 1) then ChannelConnecting else ChannelReconnecting))
    | _, _ => mret tt
    end.

(** [ChannelManager.flush] *)
Definition channels_flush : eff unit :=
  groups ← get channels;
  for_all (fun '(id, _) => flushGroup id) groups.

(** [byKey]: it holds the groups of [byId]. *)
Fixpoint group_of_key (key : value) (groups : list (Z * Group)) : option Z :=
  match groups with
  | [] => None
  | (id, g) :: groups => if decide (group_key g = key) then Some id else group_of_key key groups
  end.

Definition room_value (room : option value) : value :=
  match room with
  | Some r => VObj [("hasRoom", VBool true); ("value", r)]
  | None => VObj [("hasRoom", VBool false)]
  end.

Definition allocateHandle : eff Z :=
  n ← get nextHandle;
  _ ← modify (set_nextHandle (n + 1));
  mret n.

(** [ChannelManager.observe]; the handle it returns is the group and the
    observer it closes over. *)
Definition observe (ref : string) (args : value) (room : option value) (handlerKey : option string) (on : option ChannelOn)
    : eff (Z * Z) :=
  if decide (handlerKey = Some EmptyString) then throw (TypeError "handlerKey must be a non-empty string")
  else
    key ← lift (stableEncode (VArr [VStr ref; args; room_value room]));
    groups ← get channels;
    id ← match group_of_key key groups with
      | Some id => mret id
      | None =>
          id ← allocateId;
          frame ← lift (encodeChannelOrReject (CChannelJoin (num_of_Z id) ref args room));
          bytes ← reservePersistent frame subscription;
          _ ← modify (fun k => set_channels
                (jmap_set id (MkGroup key ref args room frame bytes [] ChannelConnecting None None) (channels k)) k);
          mret id
      end;
    observer ← allocateHandle;
    _ ← update_group id (fun g => set_observers (observers g ++ [(observer, MkObserver handlerKey on [])]) g);
    _ ← ensureConnected;
    _ ← flushGroup id;
    mret (id, observer).

(** [AckerDBClient.channel] *)
Definition channel (ref : string) (args : value) (room : option value) (handlerKey : option string) (on : option ChannelOn)
    : eff (Z * Z) :=
  _ ← assertUsable;
  observe ref args room handlerKey on.

(** [ChannelManager.releaseGroup], of the group [id] if there is one. *)
Definition releaseGroup (id : Z) (sendLeave : bool) : eff unit :=
  o ← get (fun k => jmap_get id (channels k));
  match o with
  | None => mret tt
  | Some g =>
      _ ← modify (fun k => set_channels (jmap_delete id (channels k)) k);
      _ ← releasePersistent (group_bytes g);
      can ← get online;
      if sendLeave && can then
        catch (_ ← channels_sendFrame (CChannelLeave (num_of_Z id)); mret tt) (fun _ => mret tt)
      else mret tt
  end.

(** [ChannelManager.close] *)
Definition channels_close : eff unit :=
  groups ← get channels;
  for_all (fun '(id, _) => releaseGroup id false) groups.

(** The handle of an observer: a handle that was closed, or whose group the
    client's end released, does nothing. *)
Definition handle_group (id observer : Z) (k : Client) : option (Group * Observer) :=
  g ← jmap_get id (channels k); o ← jmap_get observer (observers g); Some (g, o).

Definition channel_send (id observer : Z) (event : string) (payload : value) : eff bool :=
  h ← get (handle_group id observer);
  match h with
  | None => mret false
  | Some (g, _) =>
      can ← get online;
      if negb (is_connected (group_state g)) || negb can then mret false
      else channels_sendFrame (CChannelSend (num_of_Z id) event payload)
  end.

Definition update_observer (id observer : Z) (f : Observer -> Observer) : eff unit :=
  update_group id (fun g =>
    match jmap_get observer (observers g) with Some o => set_observers (jmap_set observer (f o) (observers g)) g | None => g end).

(** [subscribe] of a handle, and the first call of the function it returns. *)
Definition channel_listen (id observer listener : Z) : eff unit :=
  update_observer id observer (fun o =>
    if decide (listener ∈ listeners o) then o else set_listeners (listeners o ++ [listener]) o).

Definition channel_unlisten (id observer listener : Z) : eff unit :=
  update_observer id observer (fun o => set_listeners (filter (fun l => l <> listener) (listeners o)) o).

(** [close] of a handle: the last one leaves the channel. *)
Definition channel_close (id observer : Z) : eff unit :=
  h ← get (handle_group id observer);
  match h with
  | None => mret tt
  | Some (g, _) =>
      let rest := jmap_delete observer (observers g) in
      _ ← update_group id (set_observers rest);
      match rest with [] => releaseGroup id true | _ => mret tt end
  end.

(** [ChannelManager.ready], [rejected], [failed] and [event]. *)
Definition channel_attempted (id : Z) (epoch : num) : eff unit :=
  current ← get (fun k => connectionGeneration (session k));
  update_group id (fun g => set_attemptedAuthEpoch (Some epoch) (set_attemptedGeneration (Some current) g)).

Definition channel_ready (id : Z) (epoch : num) : eff unit :=
  _ ← channel_attempted id epoch;
  replace id ChannelConnected.

Definition channel_rejected (id : Z) (epoch : num) (error : ApplicationError) : eff unit :=
  _ ← channel_attempted id epoch;
  replace id (ChannelRejected error).

Definition channel_failed (id : Z) (error : js_error) : eff bool :=
  o ← get (fun k => jmap_get id (channels k));
  match o with
  | None => mret false
  | Some _ => _ ← replace id (ChannelFailed error); mret true
  end.

Definition hears (on : ChannelOn) (event : string) : bool :=
  match on with OnAny => true | OnNamed events => bool_decide (event ∈ events) end.

(** The loop over the observers: of those with one key, the first is called. *)
Fixpoint heard_by (event : string) (keyed : gset string) (os : list (Z * Observer)) : list Z :=
  match os with
  | [] => []
  | (i, o) :: os =>
      match on o with
      | None => heard_by event keyed os
      | Some handlers =>
          let call := if hears handlers event then [i] else [] in
          match handlerKey o with
          | None => call ++ heard_by event keyed os
          | Some key =>
              if decide (key ∈ keyed) then heard_by event keyed os else call ++ heard_by event ({[key]} ∪ keyed) os
          end
      end
  end.

Definition channel_event (id : Z) (event : string) (payload : value) : eff bool :=
  o ← get (fun k => jmap_get id (channels k));
  match o with
  | None => mret false
  | Some g =>
      _ ← when (negb (is_connected (group_state g))) (replace id ChannelConnected);
      let told := (fun i => Handled id i event payload) <$> heard_by event ∅ (observers g) in
      _ ← modify (fun k => set_channel_calls (channel_calls k ++ told) k);
      mret true
  end.

(** ** Streams

    What [sse] reserves at its first pull, and that it releases once, however
    it ends. *)

Definition stream_body (args : value) : exc js_error value :=
  match toStandardJson args with
  | Throw (WireError _) => Throw (localError validation "SSE arguments cannot be encoded" (Some sse) false)
  | Throw error => Throw error
  | Ret body => Ret (if is_undefined body then VObj [] else body)
  end.

Definition stream (args : value) : eff Z :=
  _ ← assertUsable;
  s ← get session;
  if suspended s then throw (suspensionError unavailable_ "client is suspended" sse)
  else
    body ← lift (stream_body args);
    bytes ← reservePersistent body sse;
    id ← allocateHandle;
    _ ← modify (fun k => set_streams (jmap_set id bytes (streams k)) k);
    mret id.

(** [cleanup], the first time. *)
Definition end_stream (id : Z) : eff unit :=
  o ← get (fun k => jmap_get id (streams k));
  match o with
  | None => mret tt
  | Some bytes =>
      _ ← modify (fun k => set_streams (jmap_delete id (streams k)) k);
      releasePersistent bytes
  end.

(** The controllers of the fetches under way are aborted. *)
Definition abort_streams : eff unit :=
  open ← get streams;
  for_all (fun '(id, _) => end_stream id) open.

(** ** What the server says *)

(** [===] on epochs, which are integers. *)
Definition sameCursor (l : option SubscriptionCursor) (r : option SubscriptionCursor) : bool :=
  match l, r with
  | Some l, Some r =>
      bool_decide (generation l = generation r) && bool_decide (commitVersion l = commitVersion r) &&
      num_same (cur_authEpoch l) (cur_authEpoch r) && bool_decide (cur_identity l = cur_identity r)
  | _, _ => false
  end.

Definition transition_to (t : SubscriptionTransition) : SubscriptionCursor :=
  match t with
  | TReset _ to _ | TUpdate _ to _ | TCheckpoint _ to | TResume _ to | TRevoked _ to _ | TApplicationError _ to _ => to
  end.

Definition transition_from (t : SubscriptionTransition) : option SubscriptionCursor :=
  match t with
  | TReset from _ _ | TApplicationError from _ _ => from
  | TUpdate from _ _ | TCheckpoint from _ | TResume from _ | TRevoked from _ _ => Some from
  end.

Definition is_reset (t : SubscriptionTransition) : bool := match t with TReset _ _ _ => true | _ => false end.

Definition predecessorMatches (cursor : option SubscriptionCursor) (t : SubscriptionTransition) : bool :=
  if is_reset t then bool_decide (transition_from t = None) || sameCursor cursor (transition_from t)
  else sameCursor cursor (transition_from t).

Definition transition_callback (t : SubscriptionTransition) : Callback :=
  match t with
  | TReset _ _ v | TUpdate _ _ v => OnUpdate v
  | TApplicationError _ _ e => OnApplicationError e
  | TRevoked _ _ o => OnError (client_error o)
  | TCheckpoint _ _ | TResume _ _ => OnCursorConfirmed
  end.

Definition applyTransition (id : Z) (t : SubscriptionTransition) : eff unit :=
  o ← get (fun k => jmap_get id (subscriptions k));
  match o with
  | None => mret tt
  | Some s =>
      if decide (sub_kind s = event_subscription) then
        failPermanently (localError malformed_ "event subscription received a query transition" (Some subscription) false)
      else
        _ ← update_subscription id (fun s => set_sub_retry (settle (sub_retry s)) s);
        if sameCursor (sub_cursor s) (Some (transition_to t)) then
          _ ← when (is_reset t) (update_subscription id (set_resetRequested false));
          _ ← advanceConvergence id (commitVersion (transition_to t));
          when (negb (resetRequested s && negb (is_reset t))) (call_back id OnCursorConfirmed)
        else if resetRequested s && negb (is_reset t) then mret tt
        else if negb (predecessorMatches (sub_cursor s) t) then requestReset id
        else
          retained ← retainCursor id (transition_to t);
          if negb retained then mret tt
          else
            _ ← update_subscription id (set_resetRequested false);
            _ ← advanceConvergence id (commitVersion (transition_to t));
            call_back id (transition_callback t)
  end.

Definition event_cursor (e : LiveEvent) : LiveEventCursor :=
  match e with EventRow c _ | EventGap c | EventReset c => c end.

Definition sameEventCursor (l : option LiveEventCursor) (r : LiveEventCursor) : bool :=
  match l with
  | Some l => bool_decide (ev_generation l = ev_generation r) && bool_decide (ev_commitVersion l = ev_commitVersion r) &&
              bool_decide (ev_sequence l = ev_sequence r)
  | None => false
  end.

(** The event follows the last one. *)
Definition follows (l : option LiveEventCursor) (e : LiveEvent) : bool :=
  match e, l with
  | EventRow c _, Some l => bool_decide (ev_generation l = ev_generation c) && bool_decide (ev_sequence c = ev_sequence l + 1)
  | _, _ => true
  end.

Definition applyLiveEvent (id : Z) (e : LiveEvent) : eff unit :=
  o ← get (fun k => jmap_get id (subscriptions k));
  match o with
  | None => mret tt
  | Some s =>
      if decide (sub_kind s = query_subscription) then
        failPermanently (localError malformed_ "query subscription received a live event" (Some subscription) false)
      else
        _ ← update_subscription id (fun s => set_sub_retry (settle (sub_retry s)) s);
        if sameEventCursor (sub_eventCursor s) (event_cursor e) then mret tt
        else
          _ ← update_subscription id (set_sub_eventCursor (Some (event_cursor e)));
          call_back id (OnEvent (if follows (sub_eventCursor s) e then e else EventGap (event_cursor e)))
  end.

(** The loop over the obligations of a receipt; [None] when one of them names a
    live event. A number that is no id names no subscription. *)
Fixpoint unconverged (subs : list (Z * Subscription)) (version : Z) (ids : list num) (acc : gset Z) : option (gset Z) :=
  match ids with
  | [] => Some acc
  | n :: ids =>
      match (n' ← num_integer n; s ← jmap_get n' subs; Some (n', s)) with
      | None => unconverged subs version ids acc
      | Some (n', s) =>
          if decide (sub_kind s = event_subscription) then None
          else
            let behind := match sub_cursor s with Some c => bool_decide (commitVersion c < version) | None => true end in
            unconverged subs version ids (if behind then {[n']} ∪ acc else acc)
      end
  end.

Definition applyMutationReceipt (id : Z) (r : PendingRequest) (rc : MutationReceipt) (result : ClientResult) : eff unit :=
  if negb (bool_decide (Some (mutationRequestId rc) = req_mutationRequestId r)) then
    failPermanently (localError malformed_ "mutation receipt changed its request identity" (Some idempotency) false)
  else
    _ ← update_request id (fun r => set_req_result (Some result) (set_receipt (Some rc) r));
    subs ← get subscriptions;
    match unconverged subs (rc_commitVersion rc) (obligations rc) ∅ with
    | None => failPermanently (localError malformed_ "mutation receipt named a live event" (Some idempotency) false)
    | Some remaining =>
        _ ← update_request id (set_req_obligations (Some remaining));
        finish_if_converged id (Some result) remaining
    end.

(** [applyResult] and [applyApplicationError]: an answer of some kind, with the
    receipt of a mutation. *)
Definition applyAnswer (id : Z) (kind : RequestKind) (result : ClientResult) (rc : option MutationReceipt) (message : string) : eff unit :=
  o ← get (fun k => jmap_get id (pending k));
  match o with
  | None => mret tt
  | Some r =>
      if decide (kind <> req_kind r) then failPermanently (localError malformed_ message (Some operation) false)
      else if decide (kind = mutation_request) then
        match rc with
        | Some rc => applyMutationReceipt id r rc result
        | None => failPermanently (localError malformed_ "mutation result has no receipt" (Some idempotency) false)
        end
      else finishRequest id (Resolved (Some result))
  end.

Definition kind_of (k : call_kind) : RequestKind := match k with a_query => query_request | a_procedure => procedure_request end.

(** ** Authentication *)

Definition sendAuth (a : AuthAttempt) : eff unit := sendFrame (CAuth (num_of_Z (attempt_id a)) (attempt_credential a)).

Definition resolveAuth (a : AuthAttempt) (accepted : Authentication) : eff unit :=
  _ ← update_session (set_authAttempt None);
  settle_attempt (attempt_id a) (inl accepted).

Definition blockAuthentication (error : js_error) : eff unit :=
  _ ← update_session (fun s => set_blockingError (Some error) (set_resuming false (set_ready false (set_authBlocked true s))));
  _ ← reject_attempt error;
  _ ← retireConnection;
  _ ← finish_all (fun _ => Rejected error);
  _ ← tell_all error;
  _ ← channels_failAll error;
  _ ← update_session clearSourceRefreshTimer;
  _ ← scheduleSourceRetry;
  publishConnectionState.

Definition presentation_timeout : js_error := localError auth_unavailable "authentication timed out" (Some connection) false.

(** [expireAuthAttempt], of the attempt that is current. *)
Definition expireAuthAttempt (a : AuthAttempt) : eff unit :=
  _ ← update_session (fun s => set_blockingError (Some presentation_timeout)
        (set_resuming false (set_ready false (set_authBlocked true (set_authAttempt None s)))));
  _ ← settle_attempt (attempt_id a) (inr presentation_timeout);
  _ ← retireConnection;
  _ ← update_session clearSourceRefreshTimer;
  _ ← scheduleSourceRetry;
  publishConnectionState.

Definition sameCredential (left right : Credential) : bool :=
  match left, right with
  | Anonymous, Anonymous => true
  | Bearer l, Bearer r => bool_decide (l = r)
  | _, _ => false
  end.

Definition assertOpen : eff unit :=
  s ← get session;
  if closed s then throw (localError unavailable_ "client is closed" (Some connection) false)
  else if permanentFailure s then throw (localError unavailable_ "client stopped after a protocol failure" (Some connection) false)
  else mret tt.

(** The attempt under way is rejected, and stays until its successor is made. *)
Definition supersede_attempt : eff unit :=
  s ← get session;
  match authAttempt s with
  | None => mret tt
  | Some a =>
      _ ← update_session (set_authAttempt (Some (MkAttempt (attempt_id a) (attempt_credential a) (attempt_expiresAtMs a) false)));
      settle_attempt (attempt_id a) (inr (localError auth_stale "authentication attempt was superseded" (Some connection) false))
  end.

(** An attempt of its own replaces the one under way. *)
Definition install (c : Credential) : eff Z :=
  id ← allocateId;
  text ← lift (encodeClient (CAuth (num_of_Z id) c));
  _ ← lift (frameBytes text connection);
  _ ← supersede_attempt;
  _ ← update_session (fun s => set_blockingError None (set_authBlocked false (set_credentialExpiresAtMs None (set_credential (Some c) s))));
  now ← clock;
  s ← get session;
  let attempt := MkAttempt id c (now + maxQueryAgeMs) (negb (suspended s)) in
  _ ← update_session (set_authAttempt (Some attempt));
  _ ← if ready s then sendAuth attempt else ensureConnected;
  _ ← publishConnectionState;
  mret id.

(** [presentCredential]: the promise it returns is that of the attempt. *)
Definition presentCredential (c : Credential) : eff Z :=
  _ ← assertOpen;
  _ ← lift (parseCredential (credential_value c));
  s ← get session;
  match authAttempt s with
  | Some a => if sameCredential (attempt_credential a) c then mret (attempt_id a) else install c
  | None => install c
  end.

Definition demandFreshPull : eff unit :=
  s ← get session;
  if defined (sourcePull s) then update_session (set_sourceFollowUp true) else pullCredentialSource.

Definition refreshCredential (c : option Credential) : eff unit :=
  _ ← assertOpen;
  if credentialSource then
    match c with
    | Some _ => throw (TypeError "a credential-source client owns its credential; refreshCredential() re-invokes the source")
    | None =>
        _ ← update_session (fun s => clearSourceRetryTimer (set_sourceRetryAttempt 0 s));
        demandFreshPull
    end
  else
    match c with
    | None => throw (TypeError "refreshCredential requires a credential unless a credentialSource is configured")
    | Some c => _ ← presentCredential c; mret tt
    end.

(** What the source gave, or that it failed or timed out. *)
Definition source_answers (answer : option Credential) : eff unit :=
  s ← get session;
  match sourcePull s with
  | Some Invoking =>
      let over ok := update_session (set_sourcePull (Some (Pulled ok))) in
      match answer with
      | None => over false
      | Some c =>
          catch (id ← presentCredential c;
                 s ← get session;
                 match authAttempt s with
                 | Some a => if decide (attempt_id a = id) then update_session (set_sourcePull (Some (Presenting id))) else over false
                 | None => over false
                 end)
            (fun _ => over false)
      end
  | _ => mret tt
  end.

(** The handlers of a pull that is over. *)
Definition pull_settles : eff unit :=
  s ← get session;
  match sourcePull s with
  | Some (Pulled ok) =>
      _ ← update_session (set_sourcePull None);
      _ ← (if (ok : bool) then update_session (set_sourceRetryAttempt 0)
           else when (negb (closed s) && negb (permanentFailure s)) scheduleSourceRetry);
      _ ← when (sourceFollowUp s) (_ ← update_session (set_sourceFollowUp false); pullCredentialSource);
      when (ensureAfterPull s)
        (_ ← update_session (set_ensureAfterPull false);
         s ← get session;
         when (negb (closed s) && negb (suspended s)) ensureConnected)
  | _ => mret tt
  end.

Definition credentialTtl (a : option Authentication) : option num :=
  match a with
  | Some (MkAuthentication (UserPrincipal _ _ ttl) _) | Some (MkAuthentication (WorkloadPrincipal _ ttl) _) => ttl
  | _ => None
  end.

Definition scheduleSourceRefresh (s : Session) : Session :=
  set_sourceRefreshHandle (credentialSource && negb (suspended s) && defined (credentialTtl (authentication s))) s.

(** The times to live the decoder lets through are integers. *)
Definition acceptedCredential : eff unit :=
  s ← get session;
  match (ttl ← credentialTtl (authentication s); num_integer ttl) with
  | Some ttl => now ← clock; update_session (fun s => scheduleSourceRefresh (set_credentialExpiresAtMs (Some (now + ttl)) s))
  | None => update_session (fun s => scheduleSourceRefresh (set_credentialExpiresAtMs None s))
  end.

(** ** The connection *)

Definition flushState : eff unit :=
  can ← get online;
  if negb can then mret tt
  else
    _ ← channels_flush;
    now ← clock;
    s ← get session;
    let g := connectionGeneration s in
    subs ← get subscriptions;
    _ ← for_all (fun '(id, s) =>
          when (negb (waiting (sub_retry s)) && negb (bool_decide (sub_sentGeneration s = Some g))) (sendSubscription id)) subs;
    requests ← get pending;
    for_all (fun '(id, r) =>
      if decide (expiresAtMs r <= now) then expireRequest id
      else when (negb (bool_decide (req_sentGeneration r = Some g))) (sendRequest id)) requests.

(** [handleOpen] of the socket [g] *)
Definition encodeHello (c : option Credential) : exc js_error value :=
  match c with
  | None => Throw (ProtocolError malformed_ "credential must be an object")
  | Some c => v ← parseClientHandshake (hello_value (MkHello client_session c)); encode v
  end.

Definition handleOpen (g : Z) : eff unit :=
  s ← get session;
  if negb (bool_decide (socket s = Some g)) || closed s then mret tt
  else
    _ ← update_session (fun s => set_helloCredential (credential s) (set_socketOpen true s));
    catch (text ← lift (encodeHello (credential s));
           _ ← lift (frameBytes text connection);
           _ ← sendText text;
           mret tt)
      (fun error => failPermanently (match error with Acker _ => error | _ => protocolError error end)).

Definition startConnectionTimers (s : Session) : Session :=
  set_stableHandle (Some (connectionGeneration s)) (set_pingHandle (Some (connectionGeneration s)) s).

Definition log_here (t : Z -> Traffic) : eff unit :=
  s ← get session;
  match socket s with Some g => log_traffic (t g) | None => mret tt end.

Definition session_changed : js_error := localError malformed_ "welcome changed the client session" (Some connection) false.

Definition welcome (d : AuthenticationDescriptor) (session_id : string) (epoch : num) : eff unit :=
  if negb (bool_decide (session_id = client_session)) then failPermanently session_changed
  else
    let accepted := MkAuthentication d epoch in
    _ ← update_session (fun s => set_authentication (Some accepted) (set_resuming false (set_everReady true (set_ready true s))));
    _ ← log_here Welcomed;
    s ← get session;
    _ ← match authAttempt s with
        | None => mret tt
        | Some a =>
            if match helloCredential s with Some c => sameCredential (attempt_credential a) c | None => false end
            then resolveAuth a accepted else sendAuth a
        end;
    _ ← flushState;
    _ ← update_session startConnectionTimers;
    _ ← acceptedCredential;
    publishConnectionState.

Definition authenticated (d : AuthenticationDescriptor) (attemptId : Z) (epoch : num) : eff unit :=
  s ← get session;
  match authAttempt s with
  | None => mret tt
  | Some a =>
      if decide (attempt_id a = attemptId) then
        let accepted := MkAuthentication d epoch in
        _ ← update_session (set_authentication (Some accepted));
        _ ← log_here (fun g => Confirmed g attemptId);
        _ ← resolveAuth a accepted;
        _ ← flushState;
        _ ← acceptedCredential;
        publishConnectionState
      else mret tt
  end.

Definition retry_after (o : Outcome) : Z := default 0 (o ← out_retryAfterMs o; num_integer o).

(** [applyError], of the connection and of one of its operations. *)
Definition is_auth_code (c : OutcomeCode) : bool :=
  bool_decide (c = unauthenticated) || bool_decide (c = auth_unavailable) || bool_decide (c = auth_stale) || bool_decide (c = unauthorized).

Definition connection_error (o : Outcome) : eff unit :=
  if out_retryable o then
    now ← clock;
    update_session (fun s => set_serverRetryNotBeforeMs
      (Z.max (serverRetryNotBeforeMs s) (now + Z.min (retry_after o) MAX_RETRY_AFTER_MS)) s)
  else if is_auth_code (out_code o) then blockAuthentication (client_error o)
  else failPermanently (client_error o).

(** A timer is armed at a reading of the clock. *)
Definition armSubscriptionRetry (id : Z) : eff unit :=
  s ← get session;
  o ← get (fun k => jmap_get id (subscriptions k));
  match o with
  | None => mret tt
  | Some x =>
      when (negb (suspended s) && negb (retry_handle (sub_retry x)) && waiting (sub_retry x))
        (_ ← raw_clock; update_subscription id (fun s => set_sub_retry (arm (sub_retry s)) s))
  end.

Definition scheduleSubscriptionRetry (id : Z) (floorMs : Z) : eff unit :=
  o ← get (fun k => jmap_get id (subscriptions k));
  match o with
  | None => mret tt
  | Some s =>
      if waiting (sub_retry s) then mret tt
      else
        _ ← update_subscription id (set_sub_sentGeneration None);
        value ← random_value;
        now ← get (fun k => client_now (k_readings k));
        match schedule reconnect_policy MAX_RETRY_AFTER_MS value now floorMs (sub_retry s) with
        | Throw _ => failPermanently invalid_random
        | Ret r => _ ← raw_clock; _ ← update_subscription id (set_sub_retry r); armSubscriptionRetry id
        end
  end.

Definition answer_error (id : Z) (o : Outcome) : eff unit :=
  k ← get (fun k => k);
  match jmap_get id (pending k), jmap_get id (subscriptions k) with
  | Some _, _ => finishRequest id (Rejected (client_error o))
  | None, Some _ =>
      _ ← call_back id (OnError (client_error o));
      if out_retryable o then scheduleSubscriptionRetry id (retry_after o) else removeSubscription id false
  | None, None => _ ← channel_failed id (client_error o); mret tt
  end.

Definition operation_error (id : Z) (o : Outcome) : eff unit :=
  s ← get session;
  if match authAttempt s with Some a => bool_decide (attempt_id a = id) | None => false end
  then blockAuthentication (client_error o)
  else answer_error id o.

Definition no_channel : js_error := localError malformed_ "server event names no active channel" (Some subscription) false.
Definition mismatch : string := "result kind does not match its request".
Definition error_mismatch : string := "error kind does not match its request".

Definition dispatch (m : ServerSessionMessage) : eff unit :=
  let at_id (n : num) (f : Z -> eff unit) := match num_integer n with Some id => f id | None => mret tt end in
  match m with
  | SAuthenticated d n epoch => at_id n (fun id => authenticated d id epoch)
  | STransition n t => at_id n (fun id => applyTransition id t)
  | SEvent n e => at_id n (fun id => applyLiveEvent id e)
  | SOk k n v => at_id n (fun id => applyAnswer id (kind_of k) (inl v) None mismatch)
  | SMutationOk n v rc => at_id n (fun id => applyAnswer id mutation_request (inl v) (Some rc) mismatch)
  | SApplicationError k n e => at_id n (fun id => applyAnswer id (kind_of k) (inr e) None error_mismatch)
  | SMutationError n e rc => at_id n (fun id => applyAnswer id mutation_request (inr e) (Some rc) error_mismatch)
  | SError (Some n) o => at_id n (fun id => operation_error id o)
  | SError None o => connection_error o
  | SChannelReady n epoch => at_id n (fun id => channel_ready id epoch)
  | SChannelEvent n event payload =>
      known ← match num_integer n with Some id => channel_event id event payload | None => mret false end;
      when (negb known) (failPermanently no_channel)
  | SChannelRejected n epoch error => at_id n (fun id => channel_rejected id epoch error)
  | SPong => mret tt
  end.

(** A text from the server: what it spells, that it is too long, or what its
    decoding throws. *)
Inductive Incoming : Type :=
  | SessionFrame (m : ServerSessionMessage)
  | HandshakeFrame (m : ServerHandshakeMessage)
  | Oversized
  | Undecodable (error : js_error).

Definition oversized : js_error := localError malformed_ "server frame exceeds the client limit" (Some connection) false.

(** [handleIncoming] of the socket [g]. Which decoder reads a frame depends on
    the session alone; neither accepts what only the other reads. *)
Definition handleIncoming (g : Z) (i : Incoming) : eff unit :=
  s ← get session;
  if negb (bool_decide (socket s = Some g)) || closed s then mret tt
  else match i with
  | Oversized => failPermanently oversized
  | Undecodable error => failPermanently (protocolError error)
  | SessionFrame m =>
      match (if ready s then parseServerMessage else parseServerHandshake) (server_value m) with
      | Throw error => failPermanently (protocolError error)
      | Ret _ => dispatch m
      end
  | HandshakeFrame m =>
      match (if ready s then parseServerMessage else parseServerHandshake) (handshake_value m) with
      | Throw error => failPermanently (protocolError error)
      | Ret _ => match m with Welcome d id epoch => welcome d id epoch | Refusal o => connection_error o end
      end
  end.

(** ** The end, and the lifecycle of the application *)

Definition close_error (r : PendingRequest) : js_error :=
  let indeterminate_ := (bool_decide (req_kind r = mutation_request) || bool_decide (req_kind r = procedure_request)) &&
    defined (req_sentGeneration r) in
  if indeterminate_ then
    if decide (req_kind r = mutation_request)
    then localError indeterminate "mutation completion is unknown" (Some idempotency) false
    else localError indeterminate "procedure completion is unknown" (Some operation) false
  else localError unavailable_ "client closed" (Some operation) false.

Definition close : eff unit :=
  s ← get session;
  if closed s then mret tt
  else
    _ ← update_session (fun s => clearSourceRefreshTimer (clearSourceRetryTimer (clearConnectionTimers (clearReconnectTimer (set_closed true s)))));
    _ ← reject_attempt (localError unavailable_ "client closed" (Some connection) false);
    _ ← finish_all (fun r => Rejected (close_error r));
    _ ← drop_subscriptions;
    _ ← channels_close;
    _ ← abort_streams;
    _ ← log_here Retired;
    _ ← update_session (fun s => set_socketOpen false (set_ready false (set_socket None s)));
    publishConnectionState.

Definition pause_attempt (s : Session) : Session :=
  match authAttempt s with
  | Some a => set_authAttempt (Some (MkAttempt (attempt_id a) (attempt_credential a) (attempt_expiresAtMs a) false)) s
  | None => s
  end.

Definition suspendTransport : eff unit :=
  s ← get session;
  if closed s || suspended s then mret tt
  else
    requests ← get pending;
    _ ← for_all (fun '(id, r) =>
          when (bool_decide (req_kind r = procedure_request) && defined (req_sentGeneration r)) (sendProcedureCancel id r)) requests;
    _ ← update_session (fun s => clearSourceRefreshTimer (clearSourceRetryTimer (clearReconnectTimer
          (set_resuming false (set_suspended true s)))));
    subs ← get subscriptions;
    _ ← for_all (fun '(id, _) => update_subscription id (fun s => set_sub_retry (pause (sub_retry s)) s)) subs;
    _ ← update_session pause_attempt;
    requests ← get pending;
    _ ← for_all (fun '(id, r) =>
          when (bool_decide (req_kind r = procedure_request))
            (finishRequest id (Interrupted
              (if defined (req_sentGeneration r) then suspensionError indeterminate "procedure completion is unknown" operation
               else suspensionError unavailable_ "client is suspended" operation)))) requests;
    _ ← retireConnection;
    _ ← abort_streams;
    publishConnectionState.

Definition resumeTransport : eff unit :=
  s ← get session;
  if closed s || negb (suspended s) then mret tt
  else
    _ ← update_session (set_suspended false);
    subs ← get subscriptions;
    _ ← for_all (fun '(id, _) => armSubscriptionRetry id) subs;
    _ ← match authAttempt s with
        | None => mret tt
        | Some a =>
            now ← clock;
            if decide (attempt_expiresAtMs a - now <= 0) then expireAuthAttempt a
            else update_session (set_authAttempt (Some (MkAttempt (attempt_id a) (attempt_credential a) (attempt_expiresAtMs a) true)))
        end;
    s ← get session;
    _ ← when (negb (permanentFailure s) && negb (authBlocked s))
          (_ ← update_session (set_resuming true);
           if credentialSource && defined (credential s)
           then _ ← pullCredentialSource; update_session (set_ensureAfterPull true)
           else ensureConnected);
    publishConnectionState.

(** ** Timers *)

Definition reconnect_timer : eff unit :=
  s ← get session;
  when (defined (reconnectHandle s)) (_ ← update_session (set_reconnectHandle None); ensureConnected).

Definition stable_timer : eff unit :=
  update_session (fun s =>
    if bool_decide (stableHandle s = Some (connectionGeneration s)) && ready s then set_reconnectAttempt 0 s else s).

Definition ping_timer : eff unit :=
  s ← get session;
  when (bool_decide (pingHandle s = Some (connectionGeneration s)) && ready s) (sendFrame CPing).

Definition attempt_timer : eff unit :=
  s ← get session;
  match authAttempt s with
  | Some a => when (expiryHandle a) (expireAuthAttempt a)
  | None => mret tt
  end.

Definition source_retry_timer : eff unit :=
  s ← get session;
  when (defined (sourceRetryHandle s)) (_ ← update_session (set_sourceRetryHandle None); pullCredentialSource).

Definition source_refresh_timer : eff unit :=
  s ← get session;
  when (sourceRefreshHandle s) (_ ← update_session (set_sourceRefreshHandle false); pullCredentialSource).

(** The timer of [armSubscriptionRetry]. *)
Definition retry_timer (id : Z) : eff unit :=
  o ← get (fun k => jmap_get id (subscriptions k));
  match o with
  | None => mret tt
  | Some s =>
      if retry_handle (sub_retry s) then
        _ ← update_subscription id (fun s => set_sub_retry (fire (sub_retry s)) s);
        can ← get online;
        if (can : bool) then sendSubscription id else ensureConnected
      else mret tt
  end.

(** ** The client *)

Inductive ClientEvent : Type :=
  | KSubscribe (kind : SubscriptionKind) (ref : string) (args : value)
  | KUnsubscribe (id : Z)
  | KQuery (ref : string) (args : value)
  | KMutation (ref : string) (args : value)
  | KProcedure (ref : string) (args : value)
  | KCancel (id : Z)
  | KRefresh (c : option Credential)
  | KClose
  | KSuspend
  | KResume
  | KOpened (socket : Z)
  | KIncoming (socket : Z) (i : Incoming)
  | KClosed (socket : Z)
  | KSource (answer : option Credential)
  | KPullSettles
  | KExpire (id : Z)
  | KRetry (id : Z)
  | KReconnect
  | KStable
  | KPing
  | KAttemptExpires
  | KSourceRetry
  | KSourceRefresh
  | KChannel (ref : string) (args : value) (room : option value) (handlerKey : option string) (on : option ChannelOn)
  | KChannelSend (id observer : Z) (event : string) (payload : value)
  | KChannelListen (id observer listener : Z)
  | KChannelUnlisten (id observer listener : Z)
  | KChannelClose (id observer : Z)
  | KStream (args : value)
  | KStreamEnds (stream : Z).

Definition client_handle (e : ClientEvent) : eff unit :=
  match e with
  | KSubscribe kind ref args => _ ← subscribe kind ref args; mret tt
  | KUnsubscribe id => removeSubscription id true
  | KQuery ref args => _ ← request query_request ref args; mret tt
  | KMutation ref args => _ ← request mutation_request ref args; mret tt
  | KProcedure ref args => _ ← procedure ref args; mret tt
  | KCancel id => cancelProcedure id
  | KRefresh c => refreshCredential c
  | KClose => close
  | KSuspend => suspendTransport
  | KResume => resumeTransport
  | KOpened g => handleOpen g
  | KIncoming g i => handleIncoming g i
  | KClosed g => handleClose g
  | KSource answer => source_answers answer
  | KPullSettles => pull_settles
  | KExpire id => expireRequest id
  | KRetry id => retry_timer id
  | KReconnect => reconnect_timer
  | KStable => stable_timer
  | KPing => ping_timer
  | KAttemptExpires => attempt_timer
  | KSourceRetry => source_retry_timer
  | KSourceRefresh => source_refresh_timer
  | KChannel ref args room handlerKey on => _ ← channel ref args room handlerKey on; mret tt
  | KChannelSend id observer event payload => _ ← channel_send id observer event payload; mret tt
  | KChannelListen id observer listener => channel_listen id observer listener
  | KChannelUnlisten id observer listener => channel_unlisten id observer listener
  | KChannelClose id observer => channel_close id observer
  | KStream args => _ ← stream args; mret tt
  | KStreamEnds stream => end_stream stream
  end.

Definition client_step (k : Client) (e : ClientEvent) : Client := (client_handle e k).2.
Definition client_run (k : Client) (es : list ClientEvent) : Client := foldl client_step k es.

(** ** The constructor *)

Definition positiveInteger (z : Z) (name : string) : exc js_error unit :=
  throw_if (bool_decide (z <= 0 \/ MAX_SAFE_INTEGER < z)) (RangeError (name +:+ " must be a positive safe integer")).

Definition initial_session : Session :=
  MkSession credential_given None None None false false false false false false false false 0 0 0 None None None None
    Connecting (authenticating credential_given) None None None None false false 0 None false.

Definition initial_client : Client := MkClient [] [] [] [] 0 0 1 1 initial_session new_UuidV7Factory 0 0 [] [] [] [] [].

Definition new_Client : exc js_error Client :=
  _ ← match credential_given with Some c => parseCredential (credential_value c) | None => Ret tt end;
  _ ← positiveInteger maxPendingItems "maxPendingItems";
  _ ← positiveInteger maxPendingBytes "maxPendingBytes";
  _ ← positiveInteger maxQueryAgeMs "maxQueryAgeMs";
  _ ← positiveInteger maxMutationAgeMs "maxMutationAgeMs";
  _ ← positiveInteger client_maxFrameBytes "maxFrameBytes";
  _ ← positiveInteger (baseDelayMs reconnect_policy) "baseDelayMs";
  _ ← positiveInteger (maxDelayMs reconnect_policy) "maxDelayMs";
  _ ← throw_if (bool_decide (maxDelayMs reconnect_policy < baseDelayMs reconnect_policy))
        (RangeError "baseDelayMs cannot exceed maxDelayMs");
  _ ← match credential_given with
      | Some c => _ ← parseClientHandshake (hello_value (MkHello client_session c)); Ret tt
      | None => Ret tt
      end;
  match ensureConnected initial_client with (Ret _, k) => Ret k | (Throw error, _) => Throw error end.
End client.
