(* ===== verification/ClientProps.v ===== *)
(** The client never holds what the server's queries did not show: what the
    callbacks of a subscription were last given is what its query shows at the
    cursor the subscription holds. *)
From S2P Require Import Prelude Errors Limits Value Wire StableEncode Protocol ProtocolProps Observations Effects Uuid Retry Client.
Local Open Scope Z_scope.

Section props.
Context {options : ClientOptions}.
Implicit Types (k : Client) (s : Subscription).

(** What the application was last given for a subscription. *)
Definition payload_of (c : Callback) : option ClientResult :=
  match c with OnUpdate v => Some (inl v) | OnApplicationError e => Some (inr e) | _ => None end.

Definition shown (id : Z) (cs : list (Z * Callback)) : option ClientResult :=
  last (omap (fun '(i, c) => if decide (i = id) then payload_of c else None) cs).

Lemma shown_snoc id cs i c :
  shown id (cs ++ [(i, c)]) = match (if decide (i = id) then payload_of c else None) with Some p => Some p | None => shown id cs end.
Proof.
  unfold shown. rewrite omap_app. cbn. destruct (if decide (i = id) then payload_of c else None) as [p|]; [|by rewrite app_nil_r].
  by rewrite last_snoc.
Qed.

(** ** Computations that move no cursor of a query forward *)

Definition tame k k' : Prop :=
  (forall id s' c, jmap_get id (subscriptions k') = Some s' -> sub_cursor s' = Some c ->
     exists s, jmap_get id (subscriptions k) = Some s /\ sub_cursor s = Some c) /\
  (forall id, shown id (calls k') = shown id (calls k)).

#[export] Instance tame_preorder : PreOrder tame.
Proof.
  split; [split; eauto|]. intros a b c [H1 H2] [H3 H4]. split; [|intros id; by rewrite H4, H2].
  intros id s' cu Hs Hc. destruct (H3 id s' cu Hs Hc) as (s & Hs1 & Hc1). eauto.
Qed.

Abbreviation gentle := (keeps tame).

Lemma gentle_modify f : (forall k, subscriptions (f k) = subscriptions k /\ calls (f k) = calls k) -> gentle (modify f).
Proof. intros H. apply keeps_modify. intros k. destruct (H k) as [H1 H2]. split; rewrite ?H1, ?H2; eauto. Qed.

Lemma gentle_subscriptions f :
  (forall subs id s' c, jmap_get id (f subs) = Some s' -> sub_cursor s' = Some c ->
     exists s, jmap_get id subs = Some s /\ sub_cursor s = Some c) ->
  gentle (modify (fun k => set_subscriptions (f (subscriptions k)) k)).
Proof. intros H k. split; [|done]. apply H. Qed.

Lemma gentle_session f : gentle (update_session f).
Proof. by apply gentle_modify. Qed.

Lemma gentle_update id f : (forall s c, sub_cursor (f s) = Some c -> sub_cursor s = Some c) -> gentle (update_subscription id f).
Proof.
  intros H k. unfold update_subscription, modify. cbn. destruct (jmap_get id (subscriptions k)) as [s|] eqn:Hs; [|done].
  split; [|done]. cbn. intros id' s' c. rewrite jmap_get_set. case_decide as He; [subst|by eauto].
  intros [= <-] Hc. eauto.
Qed.

Lemma gentle_update_request id f : gentle (update_request id f).
Proof. apply gentle_modify. intros k. by destruct (jmap_get id (pending k)). Qed.

Lemma gentle_update_group id f : gentle (update_group id f).
Proof. apply gentle_modify. intros k. by destruct (jmap_get id (channels k)). Qed.

Lemma gentle_call_back id c : payload_of c = None -> gentle (call_back id c).
Proof. intros Hc k. split; cbn; [eauto|]. intros id'. rewrite shown_snoc, Hc. by case_decide. Qed.

Lemma keeps_for_all (R : Client -> Client -> Prop) `{!PreOrder R} {A} (f : A -> eff unit) l :
  (forall a, keeps R (f a)) -> keeps R (for_all f l).
Proof. intros H. induction l as [|a l IH]; cbn; [by apply keeps_ret|by apply keeps_bind]. Qed.
End props.

Abbreviation gentle := (keeps tame).

(** What changes neither a subscription nor what was said of it, by the form of
    the change. *)
Ltac gentle_change :=
  match goal with
  | |- gentle (modify _) => apply gentle_modify; intros; cbn; repeat (case_match; cbn); by split
  | |- gentle (update_session _) => apply gentle_session
  | |- gentle (update_request _ _) => apply gentle_update_request
  | |- gentle (update_group _ _) => apply gentle_update_group
  | |- gentle (update_subscription _ _) => apply gentle_update; intros; assumption
  | |- gentle (call_back _ _) => apply gentle_call_back; reflexivity
  | |- gentle (for_all _ _) => apply keeps_for_all; [typeclasses eauto|intros]
  end.

Ltac gentle_tac := repeat first [solve [eauto with keep nocore]|gentle_change|keeps_split].

Section ops.
Context {options : ClientOptions}.
Implicit Types (k : Client) (s : Subscription).

Lemma forget_events_cursor subs id s' c : jmap_get id (forget_events subs) = Some s' -> sub_cursor s' = Some c ->
  exists s, jmap_get id subs = Some s /\ sub_cursor s = Some c.
Proof.
  induction subs as [|[i s] subs IH]; cbn; [done|]. case_decide; [|done]. intros [= <-] Hc. exists s. split; [done|].
  by destruct (decide (sub_kind s = event_subscription)).
Qed.

Lemma gentle_raw_clock : gentle raw_clock.
Proof. intros k. by split; eauto. Qed.
#[local] Hint Resolve gentle_raw_clock : keep.
Lemma gentle_clock : gentle clock.
Proof. unfold clock. gentle_tac. Qed.
#[local] Hint Resolve gentle_clock : keep.
Lemma gentle_random_value : gentle random_value.
Proof. intros k. by split; eauto. Qed.
#[local] Hint Resolve gentle_random_value : keep.
Lemma gentle_new_uuid nowMs : gentle (new_uuid nowMs).
Proof. intros k. unfold new_uuid, zoom. destruct (create _ _ _). by split; cbn; eauto. Qed.
#[local] Hint Resolve gentle_new_uuid : keep.
Lemma gentle_log_traffic t : gentle (log_traffic t).
Proof. unfold log_traffic. gentle_tac. Qed.
#[local] Hint Resolve gentle_log_traffic : keep.
Lemma gentle_releasePersistent bytes : gentle (releasePersistent bytes).
Proof. unfold releasePersistent. gentle_tac. Qed.
#[local] Hint Resolve gentle_releasePersistent : keep.
Lemma gentle_allocateId : gentle allocateId.
Proof. unfold allocateId. gentle_tac. Qed.
#[local] Hint Resolve gentle_allocateId : keep.
Lemma gentle_assertUsable : gentle assertUsable.
Proof. unfold assertUsable. gentle_tac. Qed.
#[local] Hint Resolve gentle_assertUsable : keep.
Lemma gentle_assertOpen : gentle assertOpen.
Proof. unfold assertOpen. gentle_tac. Qed.
#[local] Hint Resolve gentle_assertOpen : keep.
Lemma gentle_finishRequest id o : gentle (finishRequest id o).
Proof. unfold finishRequest. gentle_tac. Qed.
#[local] Hint Resolve gentle_finishRequest : keep.
Lemma gentle_publishConnectionState : gentle publishConnectionState.
Proof. unfold publishConnectionState. gentle_tac. Qed.
#[local] Hint Resolve gentle_publishConnectionState : keep.
Lemma gentle_replace id st : gentle (replace id st).
Proof. unfold replace. gentle_tac. Qed.
#[local] Hint Resolve gentle_replace : keep.
Lemma gentle_connectionLost : gentle connectionLost.
Proof. unfold connectionLost. gentle_tac. Qed.
#[local] Hint Resolve gentle_connectionLost : keep.
Lemma gentle_channels_failAll error : gentle (channels_failAll error).
Proof. unfold channels_failAll. gentle_tac. Qed.
#[local] Hint Resolve gentle_channels_failAll : keep.
Lemma gentle_detach : gentle detach.
Proof.
  unfold detach. gentle_tac. apply gentle_subscriptions. intros subs id s' c. apply forget_events_cursor.
Qed.
#[local] Hint Resolve gentle_detach : keep.
Lemma gentle_retireConnection : gentle retireConnection.
Proof. unfold retireConnection. gentle_tac. Qed.
#[local] Hint Resolve gentle_retireConnection : keep.
Lemma gentle_settle_attempt id r : gentle (settle_attempt id r).
Proof. unfold settle_attempt. gentle_tac. Qed.
#[local] Hint Resolve gentle_settle_attempt : keep.
Lemma gentle_reject_attempt error : gentle (reject_attempt error).
Proof. unfold reject_attempt. gentle_tac. Qed.
#[local] Hint Resolve gentle_reject_attempt : keep.
Lemma gentle_finish_all f : gentle (finish_all f).
Proof. unfold finish_all. gentle_tac. Qed.
#[local] Hint Resolve gentle_finish_all : keep.
Lemma gentle_tell_all error : gentle (tell_all error).
Proof. unfold tell_all. gentle_tac. Qed.
#[local] Hint Resolve gentle_tell_all : keep.
Lemma gentle_drop_subscriptions : gentle drop_subscriptions.
Proof. unfold drop_subscriptions. gentle_tac. intros k. split; [by intros id s' c|done]. Qed.
#[local] Hint Resolve gentle_drop_subscriptions : keep.
Lemma gentle_failPermanently error : gentle (failPermanently error).
Proof. unfold failPermanently. gentle_tac. Qed.
#[local] Hint Resolve gentle_failPermanently : keep.
Lemma gentle_scheduleReconnect : gentle scheduleReconnect.
Proof. unfold scheduleReconnect. gentle_tac. Qed.
#[local] Hint Resolve gentle_scheduleReconnect : keep.
Lemma gentle_scheduleSourceRetry : gentle scheduleSourceRetry.
Proof. unfold scheduleSourceRetry. gentle_tac. Qed.
#[local] Hint Resolve gentle_scheduleSourceRetry : keep.
Lemma gentle_pullCredentialSource : gentle pullCredentialSource.
Proof. unfold pullCredentialSource. gentle_tac. Qed.
#[local] Hint Resolve gentle_pullCredentialSource : keep.
Lemma gentle_credential_expired w : gentle (credential_expired w).
Proof. unfold credential_expired. gentle_tac. Qed.
#[local] Hint Resolve gentle_credential_expired : keep.
Lemma gentle_dial : gentle dial.
Proof. unfold dial. gentle_tac. Qed.
#[local] Hint Resolve gentle_dial : keep.
Lemma gentle_ensureConnected : gentle ensureConnected.
Proof. unfold ensureConnected. gentle_tac. Qed.
#[local] Hint Resolve gentle_ensureConnected : keep.
Lemma gentle_handleClose g : gentle (handleClose g).
Proof. unfold handleClose. gentle_tac. Qed.
#[local] Hint Resolve gentle_handleClose : keep.
Lemma gentle_sendText text : gentle (sendText text).
Proof. unfold sendText. gentle_tac. Qed.
#[local] Hint Resolve gentle_sendText : keep.
Lemma gentle_sendFrame m : gentle (sendFrame m).
Proof. unfold sendFrame. gentle_tac. Qed.
#[local] Hint Resolve gentle_sendFrame : keep.
Lemma gentle_reservePersistent frame r : gentle (reservePersistent frame r).
Proof. unfold reservePersistent. gentle_tac. Qed.
#[local] Hint Resolve gentle_reservePersistent : keep.
Lemma gentle_finish_if_converged id r o : gentle (finish_if_converged id r o).
Proof. unfold finish_if_converged. gentle_tac. Qed.
#[local] Hint Resolve gentle_finish_if_converged : keep.
Lemma gentle_advanceConvergence id v : gentle (advanceConvergence id v).
Proof. unfold advanceConvergence. gentle_tac. Qed.
#[local] Hint Resolve gentle_advanceConvergence : keep.
Lemma gentle_sendRequest id : gentle (sendRequest id).
Proof. unfold sendRequest. gentle_tac. Qed.
#[local] Hint Resolve gentle_sendRequest : keep.
Lemma gentle_sendProcedureCancel id r : gentle (sendProcedureCancel id r).
Proof. unfold sendProcedureCancel. gentle_tac. Qed.
#[local] Hint Resolve gentle_sendProcedureCancel : keep.
Lemma gentle_expireRequest id : gentle (expireRequest id).
Proof. unfold expireRequest. gentle_tac. Qed.
#[local] Hint Resolve gentle_expireRequest : keep.
Lemma gentle_cancelProcedure id : gentle (cancelProcedure id).
Proof. unfold cancelProcedure. gentle_tac. Qed.
#[local] Hint Resolve gentle_cancelProcedure : keep.
Lemma gentle_request kind ref args : gentle (request kind ref args).
Proof. unfold request. gentle_tac. Qed.
#[local] Hint Resolve gentle_request : keep.
Lemma gentle_procedure ref args : gentle (procedure ref args).
Proof. unfold procedure. gentle_tac. Qed.
#[local] Hint Resolve gentle_procedure : keep.
Lemma gentle_sendSubscription id : gentle (sendSubscription id).
Proof. unfold sendSubscription. gentle_tac. Qed.
#[local] Hint Resolve gentle_sendSubscription : keep.
Lemma gentle_subscribe kind ref args : gentle (subscribe kind ref args).
Proof.
  unfold subscribe. gentle_tac. apply gentle_subscriptions. intros subs id s' c. rewrite jmap_get_set.
  case_decide; [|by eauto]. by intros [= <-].
Qed.
#[local] Hint Resolve gentle_subscribe : keep.
Lemma gentle_removeSubscription id b : gentle (removeSubscription id b).
Proof.
  unfold removeSubscription. gentle_tac. apply gentle_subscriptions. intros subs id' s' c. rewrite jmap_get_delete.
  case_decide; [done|by eauto].
Qed.
#[local] Hint Resolve gentle_removeSubscription : keep.
Lemma gentle_requestReset id : gentle (requestReset id).
Proof. unfold requestReset. gentle_tac. Qed.
#[local] Hint Resolve gentle_requestReset : keep.
Lemma gentle_channels_send frame : gentle (channels_send frame).
Proof. unfold channels_send. gentle_tac. Qed.
#[local] Hint Resolve gentle_channels_send : keep.
Lemma gentle_channels_sendFrame m : gentle (channels_sendFrame m).
Proof. unfold channels_sendFrame. gentle_tac. Qed.
#[local] Hint Resolve gentle_channels_sendFrame : keep.
Lemma gentle_flushGroup id : gentle (flushGroup id).
Proof. unfold flushGroup. gentle_tac. Qed.
#[local] Hint Resolve gentle_flushGroup : keep.
Lemma gentle_channels_flush : gentle channels_flush.
Proof. unfold channels_flush. gentle_tac. Qed.
#[local] Hint Resolve gentle_channels_flush : keep.
Lemma gentle_allocateHandle : gentle allocateHandle.
Proof. unfold allocateHandle. gentle_tac. Qed.
#[local] Hint Resolve gentle_allocateHandle : keep.
Lemma gentle_observe ref args room hk on : gentle (observe ref args room hk on).
Proof. unfold observe. gentle_tac. Qed.
#[local] Hint Resolve gentle_observe : keep.
Lemma gentle_channel ref args room hk on : gentle (channel ref args room hk on).
Proof. unfold channel. gentle_tac. Qed.
#[local] Hint Resolve gentle_channel : keep.
Lemma gentle_releaseGroup id b : gentle (releaseGroup id b).
Proof. unfold releaseGroup. gentle_tac. Qed.
#[local] Hint Resolve gentle_releaseGroup : keep.
Lemma gentle_channels_close : gentle channels_close.
Proof. unfold channels_close. gentle_tac. Qed.
#[local] Hint Resolve gentle_channels_close : keep.
Lemma gentle_channel_send id o event payload : gentle (channel_send id o event payload).
Proof. unfold channel_send. gentle_tac. Qed.
#[local] Hint Resolve gentle_channel_send : keep.
Lemma gentle_channel_listen id o l : gentle (channel_listen id o l).
Proof. unfold channel_listen, update_observer. gentle_tac. Qed.
#[local] Hint Resolve gentle_channel_listen : keep.
Lemma gentle_channel_unlisten id o l : gentle (channel_unlisten id o l).
Proof. unfold channel_unlisten, update_observer. gentle_tac. Qed.
#[local] Hint Resolve gentle_channel_unlisten : keep.
Lemma gentle_channel_close id o : gentle (channel_close id o).
Proof. unfold channel_close. gentle_tac. Qed.
#[local] Hint Resolve gentle_channel_close : keep.
Lemma gentle_channel_attempted id epoch : gentle (channel_attempted id epoch).
Proof. unfold channel_attempted. gentle_tac. Qed.
#[local] Hint Resolve gentle_channel_attempted : keep.
Lemma gentle_channel_ready id epoch : gentle (channel_ready id epoch).
Proof. unfold channel_ready. gentle_tac. Qed.
#[local] Hint Resolve gentle_channel_ready : keep.
Lemma gentle_channel_rejected id epoch error : gentle (channel_rejected id epoch error).
Proof. unfold channel_rejected. gentle_tac. Qed.
#[local] Hint Resolve gentle_channel_rejected : keep.
Lemma gentle_channel_failed id error : gentle (channel_failed id error).
Proof. unfold channel_failed. gentle_tac. Qed.
#[local] Hint Resolve gentle_channel_failed : keep.
Lemma gentle_channel_event id event payload : gentle (channel_event id event payload).
Proof. unfold channel_event. gentle_tac. Qed.
#[local] Hint Resolve gentle_channel_event : keep.
Lemma gentle_stream args : gentle (stream args).
Proof. unfold stream. gentle_tac. Qed.
#[local] Hint Resolve gentle_stream : keep.
Lemma gentle_end_stream id : gentle (end_stream id).
Proof. unfold end_stream. gentle_tac. Qed.
#[local] Hint Resolve gentle_end_stream : keep.
Lemma gentle_abort_streams : gentle abort_streams.
Proof. unfold abort_streams. gentle_tac. Qed.
#[local] Hint Resolve gentle_abort_streams : keep.
Lemma gentle_sendAuth a : gentle (sendAuth a).
Proof. unfold sendAuth. gentle_tac. Qed.
#[local] Hint Resolve gentle_sendAuth : keep.
Lemma gentle_resolveAuth a accepted : gentle (resolveAuth a accepted).
Proof. unfold resolveAuth. gentle_tac. Qed.
#[local] Hint Resolve gentle_resolveAuth : keep.
Lemma gentle_blockAuthentication error : gentle (blockAuthentication error).
Proof. unfold blockAuthentication. gentle_tac. Qed.
#[local] Hint Resolve gentle_blockAuthentication : keep.
Lemma gentle_expireAuthAttempt a : gentle (expireAuthAttempt a).
Proof. unfold expireAuthAttempt. gentle_tac. Qed.
#[local] Hint Resolve gentle_expireAuthAttempt : keep.
Lemma gentle_supersede_attempt : gentle supersede_attempt.
Proof. unfold supersede_attempt. gentle_tac. Qed.
#[local] Hint Resolve gentle_supersede_attempt : keep.
Lemma gentle_install c : gentle (install c).
Proof. unfold install. gentle_tac. Qed.
#[local] Hint Resolve gentle_install : keep.
Lemma gentle_presentCredential c : gentle (presentCredential c).
Proof. unfold presentCredential. gentle_tac. Qed.
#[local] Hint Resolve gentle_presentCredential : keep.
Lemma gentle_demandFreshPull : gentle demandFreshPull.
Proof. unfold demandFreshPull. gentle_tac. Qed.
#[local] Hint Resolve gentle_demandFreshPull : keep.
Lemma gentle_refreshCredential c : gentle (refreshCredential c).
Proof. unfold refreshCredential. gentle_tac. Qed.
#[local] Hint Resolve gentle_refreshCredential : keep.
Lemma gentle_source_answers answer : gentle (source_answers answer).
Proof. unfold source_answers. gentle_tac. Qed.
#[local] Hint Resolve gentle_source_answers : keep.
Lemma gentle_pull_settles : gentle pull_settles.
Proof. unfold pull_settles. gentle_tac. Qed.
#[local] Hint Resolve gentle_pull_settles : keep.
Lemma gentle_acceptedCredential : gentle acceptedCredential.
Proof. unfold acceptedCredential. gentle_tac. Qed.
#[local] Hint Resolve gentle_acceptedCredential : keep.
Lemma gentle_flushState : gentle flushState.
Proof. unfold flushState. gentle_tac. Qed.
#[local] Hint Resolve gentle_flushState : keep.
Lemma gentle_handleOpen g : gentle (handleOpen g).
Proof. unfold handleOpen. gentle_tac. Qed.
#[local] Hint Resolve gentle_handleOpen : keep.
Lemma gentle_log_here t : gentle (log_here t).
Proof. unfold log_here. gentle_tac. Qed.
#[local] Hint Resolve gentle_log_here : keep.
Lemma gentle_welcome d i n : gentle (welcome d i n).
Proof. unfold welcome. gentle_tac. Qed.
#[local] Hint Resolve gentle_welcome : keep.
Lemma gentle_authenticated d i n : gentle (authenticated d i n).
Proof. unfold authenticated. gentle_tac. Qed.
#[local] Hint Resolve gentle_authenticated : keep.
Lemma gentle_connection_error o : gentle (connection_error o).
Proof. unfold connection_error. gentle_tac. Qed.
#[local] Hint Resolve gentle_connection_error : keep.
Lemma gentle_armSubscriptionRetry id : gentle (armSubscriptionRetry id).
Proof. unfold armSubscriptionRetry. gentle_tac. Qed.
#[local] Hint Resolve gentle_armSubscriptionRetry : keep.
Lemma gentle_scheduleSubscriptionRetry id f : gentle (scheduleSubscriptionRetry id f).
Proof. unfold scheduleSubscriptionRetry. gentle_tac. Qed.
#[local] Hint Resolve gentle_scheduleSubscriptionRetry : keep.
Lemma gentle_answer_error id o : gentle (answer_error id o).
Proof. unfold answer_error. gentle_tac. Qed.
#[local] Hint Resolve gentle_answer_error : keep.
Lemma gentle_operation_error id o : gentle (operation_error id o).
Proof. unfold operation_error. gentle_tac. Qed.
#[local] Hint Resolve gentle_operation_error : keep.
Lemma gentle_applyLiveEvent id e : gentle (applyLiveEvent id e).
Proof. unfold applyLiveEvent. gentle_tac. Qed.
#[local] Hint Resolve gentle_applyLiveEvent : keep.
Lemma gentle_applyMutationReceipt id r rc x : gentle (applyMutationReceipt id r rc x).
Proof. unfold applyMutationReceipt. gentle_tac. Qed.
#[local] Hint Resolve gentle_applyMutationReceipt : keep.
Lemma gentle_applyAnswer id kind x rc m : gentle (applyAnswer id kind x rc m).
Proof. unfold applyAnswer. gentle_tac. Qed.
#[local] Hint Resolve gentle_applyAnswer : keep.
Lemma gentle_close : gentle close.
Proof. unfold close. gentle_tac. Qed.
#[local] Hint Resolve gentle_close : keep.
Lemma gentle_suspendTransport : gentle suspendTransport.
Proof. unfold suspendTransport. gentle_tac. Qed.
#[local] Hint Resolve gentle_suspendTransport : keep.
Lemma gentle_resumeTransport : gentle resumeTransport.
Proof. unfold resumeTransport. gentle_tac. Qed.
#[local] Hint Resolve gentle_resumeTransport : keep.
Lemma gentle_reconnect_timer : gentle reconnect_timer.
Proof. unfold reconnect_timer. gentle_tac. Qed.
#[local] Hint Resolve gentle_reconnect_timer : keep.
Lemma gentle_stable_timer : gentle stable_timer.
Proof. unfold stable_timer. gentle_tac. Qed.
#[local] Hint Resolve gentle_stable_timer : keep.
Lemma gentle_ping_timer : gentle ping_timer.
Proof. unfold ping_timer. gentle_tac. Qed.
#[local] Hint Resolve gentle_ping_timer : keep.
Lemma gentle_attempt_timer : gentle attempt_timer.
Proof. unfold attempt_timer. gentle_tac. Qed.
#[local] Hint Resolve gentle_attempt_timer : keep.
Lemma gentle_source_retry_timer : gentle source_retry_timer.
Proof. unfold source_retry_timer. gentle_tac. Qed.
#[local] Hint Resolve gentle_source_retry_timer : keep.
Lemma gentle_source_refresh_timer : gentle source_refresh_timer.
Proof. unfold source_refresh_timer. gentle_tac. Qed.
#[local] Hint Resolve gentle_source_refresh_timer : keep.
Lemma gentle_retry_timer id : gentle (retry_timer id).
Proof. unfold retry_timer. gentle_tac. Qed.
#[local] Hint Resolve gentle_retry_timer : keep.

(** ** Computations that do not throw *)

Definition returns (m : eff unit) : Prop := forall k, (m k).1 = Ret tt.

Lemma returns_bind {A} (m : eff A) f : (forall k, exists a k', m k = (Ret a, k')) -> (forall a, returns (f a)) -> returns (m ≫= f).
Proof. intros Hm Hf k. rewrite run_bind. destruct (Hm k) as (a & k' & ->). apply Hf. Qed.

Lemma returns_seq m f : returns m -> returns (f tt) -> returns (m ≫= f).
Proof. intros Hm Hf k. rewrite run_bind. specialize (Hm k). destruct (m k) as [r k']. cbn in Hm. subst r. apply Hf. Qed.

Lemma returns_for_all {A} (f : A -> eff unit) l : (forall a, returns (f a)) -> returns (for_all f l).
Proof. intros H. induction l as [|a l IH]; [by intros k|]. by apply returns_seq. Qed.

Lemma returns_finish id o : returns (finishRequest id o).
Proof. intros k. unfold finishRequest. rewrite run_get. by destruct (jmap_get id (pending k)). Qed.

Lemma returns_converged id r o : returns (finish_if_converged id r o).
Proof. unfold finish_if_converged. case_decide; [apply returns_finish|by intros k]. Qed.

Lemma returns_advance id v : returns (advanceConvergence id v).
Proof.
  intros k. unfold advanceConvergence. rewrite run_get. apply returns_for_all. intros [i r].
  destruct (receipt r), (req_obligations r); try by intros k'. case_match; [|by intros k'].
  cbv zeta. apply returns_seq; [by intros k'|apply returns_converged].
Qed.

(** ** A transition *)

(** After a cursor moved to [to], before its callback. *)
Definition moved (id : Z) (to : SubscriptionCursor) k k' : Prop :=
  (forall id' s' c, jmap_get id' (subscriptions k') = Some s' -> sub_cursor s' = Some c ->
     (id' = id /\ c = to) \/ (id' <> id /\ exists s, jmap_get id' (subscriptions k) = Some s /\ sub_cursor s = Some c)) /\
  (forall id', shown id' (calls k') = shown id' (calls k)).

Lemma moved_tame id to k1 k2 k3 : moved id to k1 k2 -> tame k2 k3 -> moved id to k1 k3.
Proof.
  intros [H1 H2] [H3 H4]. split; [|intros id'; by rewrite H4]. intros id' s' c Hs Hc.
  destruct (H3 id' s' c Hs Hc) as (s & Hs2 & Hc2). by apply (H1 id' s c).
Qed.

Lemma retainCursor_spec id to k :
  match retainCursor id to k with
  | (Ret true, k') => moved id to k k'
  | (_, k') => tame k k'
  end.
Proof.
  unfold retainCursor. rewrite run_get. destruct (jmap_get id (subscriptions k)) as [s|] eqn:Hs; [|change (tame k k); reflexivity].
  assert (Hrefuse : forall e, match (_ ← call_back id (OnError e); _ ← removeSubscription id true; mret false) k with
    | (Ret true, k') => moved id to k k' | (_, k') => tame k k' end).
  { intros e. assert (H : gentle (_ ← call_back id (OnError e); _ ← removeSubscription id true; mret false)) by gentle_tac.
    specialize (H k).
    destruct ((_ ← call_back id (OnError e); _ ← removeSubscription id true; mret false) k) as [[b|err] k'] eqn:E; [|done].
    destruct b; [|done]. exfalso. revert E. rewrite !run_bind. destruct (call_back _ _ k) as [[u|err] k1]; [|done].
    rewrite run_bind. destruct (removeSubscription id true k1) as [[]]; discriminate. }
  destruct (_ ≫= _) as [[frame bytes]|error] eqn:E; [|apply Hrefuse]. rewrite run_get. case_decide; [apply Hrefuse|].
  rewrite run_modify. unfold update_subscription, modify, mbind, eff_bind. cbn. rewrite Hs. cbn. split; cbn; [|done].
  intros id' s' c. rewrite jmap_get_set. case_decide as He; [subst; intros [= <-]; cbn; intros [= <-]; by left|right; eauto].
Qed.

Section truth.
Context (Q : string -> Z -> Observation).

(** What each query subscription was last given is what its query shows at its
    cursor. *)
Definition truthful k : Prop :=
  forall id s c, jmap_get id (subscriptions k) = Some s -> sub_cursor s = Some c ->
  exists p, shown id (calls k) = Some p /\ shows Q (cur_identity c) (commitVersion c) p.

Lemma truthful_tame k k' : tame k k' -> truthful k -> truthful k'.
Proof.
  intros [H1 H2] H id s' c Hs Hc. destruct (H1 id s' c Hs Hc) as (s & Hs1 & Hc1). rewrite H2. by apply (H id s).
Qed.

Lemma sameCursor_fields c c' : sameCursor (Some c) (Some c') = true ->
  commitVersion c = commitVersion c' /\ cur_identity c = cur_identity c'.
Proof.
  unfold sameCursor. intros H. repeat (apply andb_true_iff in H as [H ?]).
  repeat match goal with H : bool_decide _ = true |- _ => apply bool_decide_eq_true in H end. done.
Qed.

(** What a transition gives is shown at its cursor, when what was held was shown
    at the one it starts from. *)
Lemma transition_shows t old id : valid_transition Q t -> (forall from to, t <> TReset from to VUndefined) ->
  (forall from, transition_from t = Some from -> is_reset t = false ->
     exists p, shown id old = Some p /\ shows Q (cur_identity from) (commitVersion from) p) ->
  exists p, shown id (old ++ [(id, transition_callback t)]) = Some p /\
    shows Q (cur_identity (transition_to t)) (commitVersion (transition_to t)) p.
Proof.
  intros Hv Hok Hfrom. rewrite shown_snoc, decide_True by done.
  destruct t as [from to v|from to v|from to|from to|from to o|from to e]; cbn in *.
  - exists (inl v). split; [done|]. destruct Hv as [->|Hv]; [|done]. by destruct (Hok from to).
  - by exists (inl v).
  - destruct (Hfrom from eq_refl eq_refl) as (p & Hp & [Hs1 Hs2]), Hv as [Hid [He Hf]]. exists p. split; [done|].
    rewrite Hid in Hs1, Hs2. split; congruence.
  - destruct (Hfrom from eq_refl eq_refl) as (p & Hp & [Hs1 Hs2]), Hv as [Hid [He Hf]]. exists p. split; [done|].
    rewrite Hid in Hs1, Hs2. split; congruence.
  - destruct (Hfrom from eq_refl eq_refl) as (p & Hp & Hs), Hv as [Hid Hver]. exists p. rewrite <- Hid, <- Hver. done.
  - by exists (inr e).
Qed.

Lemma applyTransition_truthful id t k : valid_transition Q t -> (forall from to, t <> TReset from to VUndefined) -> truthful k -> truthful (applyTransition id t k).2.
Proof.
  intros Hv Hok H. unfold applyTransition. rewrite run_get. destruct (jmap_get id (subscriptions k)) as [s|] eqn:Hs; [|done].
  case_decide as Hk; [eapply truthful_tame; [apply gentle_failPermanently|done]|].
  assert (Hretry : gentle (update_subscription id (fun s => set_sub_retry (settle (sub_retry s)) s))) by gentle_tac.
  destruct (sameCursor (sub_cursor s) (Some (transition_to t))) eqn:Hsame;
    [|destruct (resetRequested s && negb (is_reset t));
      [|destruct (predecessorMatches (sub_cursor s) t) eqn:Hpred; cbn [negb]]].
  - eapply truthful_tame; [|done]. match goal with |- tame ?k (?m ?k).2 => assert (G : gentle m) by gentle_tac; apply G end.
  - eapply truthful_tame; [|done]. match goal with |- tame ?k (?m ?k).2 => assert (G : gentle m) by gentle_tac; apply G end.
  - rewrite run_bind. pose proof (Hretry k) as T1. destruct (update_subscription id _ k) as [[u|err] k1]; cbn [snd] in T1;
      [|by eapply truthful_tame].
    assert (H1 : truthful k1) by by eapply truthful_tame.
    rewrite run_bind. pose proof (retainCursor_spec id (transition_to t) k1) as T2.
    destruct (retainCursor id (transition_to t) k1) as [[[]|err] k2]; cbn [negb snd]; [|by eapply truthful_tame..].
    assert (T3 : gentle (update_subscription id (set_resetRequested false))) by gentle_tac.
    specialize (T3 k2). rewrite run_bind. change (update_subscription id (set_resetRequested false) k2)
      with (Ret (E:=js_error) tt, (update_subscription id (set_resetRequested false) k2).2).
    set (k3 := (update_subscription id (set_resetRequested false) k2).2) in *. clearbody k3. cbv beta iota.
    rewrite run_bind. pose proof (returns_advance id (commitVersion (transition_to t)) k3) as T4.
    pose proof (gentle_advanceConvergence id (commitVersion (transition_to t)) k3) as T5.
    destruct (advanceConvergence id _ k3) as [r k4]. cbn in T4, T5. subst r. cbv beta iota.
    destruct (moved_tame _ _ _ _ _ (moved_tame _ _ _ _ _ T2 T3) T5) as [M1 M2]. intros id' s' c Hs' Hc.
    destruct (M1 id' s' c Hs' Hc) as [[-> ->]|(Hne & s1 & Hs1 & Hc1)].
    + apply transition_shows; [done..|]. intros from Hf Hr. rewrite M2. unfold predecessorMatches in Hpred. rewrite Hr, Hf in Hpred.
      destruct (sub_cursor s) as [c|] eqn:Hcs; [|done]. destruct (sameCursor_fields _ _ Hpred) as [<- <-].
      destruct (H id s c Hs Hcs) as (p & Hp & Hsh). exists p. split; [|done]. rewrite <- Hp. apply T1.
    + cbn. rewrite shown_snoc, decide_False by done. rewrite M2. by apply (H1 id' s1).
  - eapply truthful_tame; [|done]. match goal with |- tame ?k (?m ?k).2 => assert (G : gentle m) by gentle_tac; apply G end.
Qed.

(** No frame carries a reset to [undefined]. *)
Lemma undefined_reset_refused n from to b w :
  (if b : bool then parseServerMessage else parseServerHandshake) (server_value (STransition n (TReset from to VUndefined))) <> Ret w.
Proof.
  intros H. destruct b; [|vm_compute in H; discriminate H].
  unfold parseServerMessage in H. cbn [server_value] in H. apply exc_bind_ret in H as (x & Hx & H). injection Hx as <-.
  apply exc_bind_ret in H as (u & H & _). do 2 (case_decide as E; [discriminate E|clear E]).
  case_decide as E; [clear E|by destruct E]. apply exc_bind_ret in H as (u1 & _ & H). apply exc_bind_ret in H as (u2 & _ & H).
  change (field "transition" _) with (transition_value (TReset from to VUndefined)) in H.
  unfold parseSubscriptionTransition in H. apply exc_bind_ret in H as (x & Hx & H). injection Hx as <-.
  cbv zeta in H. case_decide as E; [clear E|by destruct E].
  do 3 (apply exc_bind_ret in H as (? & _ & H)). discriminate H.
Qed.

Lemma client_step_truthful k e :
  (forall g n t, e = KIncoming g (SessionFrame (STransition n t)) -> valid_transition Q t) ->
  truthful k -> truthful (client_step k e).
Proof.
  intros He H. unfold client_step.
  assert (Hg : forall m : eff unit, gentle m -> truthful (m k).2) by (intros m Hm; by eapply truthful_tame; [apply Hm|]).
  destruct e as [| | | | | | | | | | |g i| | | | | | | | | | | | | | | | | |]; cbn [client_handle]; try (apply Hg; gentle_tac; fail).
  unfold handleIncoming. rewrite run_get. case_match; [done|]. destruct i as [m|m| |error]; try (apply Hg; gentle_tac; fail).
  destruct (_ (server_value m)) as [w|error] eqn:E; [|apply Hg; gentle_tac].
  destruct m as [|n t| | | | | | | | | |]; try (apply Hg; cbn [dispatch]; cbv zeta; gentle_tac; fail).
  cbn [dispatch]. cbv zeta. destruct (num_integer n); [|done].
  apply applyTransition_truthful; [by eapply He| |done]. intros from to ->. by eapply undefined_reset_refused.
Qed.

Lemma new_Client_ret k : new_Client = Ret k -> k = (ensureConnected initial_client).2.
Proof.
  unfold new_Client. intros H. repeat (apply exc_bind_ret in H as (? & _ & H)).
  destruct (ensureConnected initial_client) as [[u|e] k']; [by injection H as <-|done].
Qed.

Lemma new_Client_truthful k : new_Client = Ret k -> truthful k.
Proof.
  intros H%new_Client_ret. subst k. eapply truthful_tame; [apply gentle_ensureConnected|]. by intros id s c.
Qed.
End truth.
End ops.
