(* ===== verification/ClientTruth.v ===== *)
(** From the commit to the screen: the client of a server that shares queries
    holds nothing that the queries did not show. *)
From S2P Require Import Prelude Errors Limits Dll Publication PublicationProps Value Wire StableEncode Protocol ProtocolProps DependencyIndex History HistoryProps Effects Observations Reactive ReactiveSteps ReactiveInv ReactiveProps Uuid Retry Client ClientProps.
Local Open Scope Z_scope.

(** What a client hears of its subscriptions was handed over by the server. It
    may be lost, repeated or out of order; everything else may happen to the
    client, frames that no server sends included. *)
Definition heard (out : list (nat * Z * Message)) (e : ClientEvent) : Prop :=
  forall g n t, e = KIncoming g (SessionFrame (STransition n t)) -> exists subscriber id, (subscriber, id, MTransition t) ∈ out.

(** C5: whatever is subscribed, committed, evaluated, evicted, revoked and sent,
    in whatever order, and whatever the connection loses, repeats or reorders of
    it: as long as the evaluator answers what the query shows at the version it
    names, a client's subscription that holds a cursor was last given exactly
    what its query shows at the version of the cursor. *)
Theorem client_never_wrong {options : ReactiveOptions} {client : ClientOptions} (Q : string -> Z -> Observation)
    (limits : CapacityLimits num) initial p es k0 cs :
  limits_ok (resume Reactive.limits) -> (forall v, 0 <= Reactive.text_bytes v) -> (forall n, exists t, now n = Finite t) ->
  new_OrderedPublication limits initial = Ret p -> honest Q (new_OrderedReactive p) es ->
  new_Client = Ret k0 -> Forall (heard (outbox (run (new_OrderedReactive p) es))) cs ->
  let k := client_run k0 cs in
  forall id s c, jmap_get id (subscriptions k) = Some s -> sub_cursor s = Some c ->
  exists given, shown id (calls k) = Some given /\ shows Q (cur_identity c) (commitVersion c) given.
Proof.
  intros Hl Ht Hc Hp Hes Hk0 Hcs k.
  assert (Hw : inv_ex Q ∅ ∅ (run (new_OrderedReactive p) es)) by (apply run_inv; try done; by eapply reactive_new_inv).
  assert (Hk : truthful Q k); [|intros id s c; apply Hk].
  assert (H0 : truthful Q k0) by by eapply new_Client_truthful.
  unfold k, client_run. clear Hk0 k. revert k0 H0. induction Hcs as [|e cs He Hcs IH]; intros k0 Hk0; [done|]. cbn. apply IH.
  apply client_step_truthful; [|done]. intros g n t ->. destruct (He g n t eq_refl) as (s & i & Hin).
  by eapply (proj2 (inv_sends _ _ _ _ Hw)).
Qed.

(** ** A client of the sample run *)

Definition sample_client : ClientOptions := {|
  maxPendingItems := 10; maxPendingBytes := 1000; client_maxFrameBytes := 100; maxMutationAgeMs := 1000; maxQueryAgeMs := 1000;
  reconnect_policy := MkRetryPolicy 10 100; client_session := "session"%string; credential_given := Some Anonymous;
  client_now n := num_of_Z (Z.of_nat n); client_random _ := num_of_Z 0; dial_fails _ := false; send_fails _ := false;
  Client.text_bytes _ := 10 |}.

Definition sample_cursor (v : Z) : SubscriptionCursor := MkCursor "generation"%string v (num_of_Z 0) "lists"%string.

Definition sample_transitions : list SubscriptionTransition :=
  [TReset None (sample_cursor 0) (VStr "old"%string); TUpdate (sample_cursor 0) (sample_cursor 1) (VStr "new"%string)].

(** The update comes twice. *)
Definition sample_client_events : list ClientEvent :=
  [KSubscribe query_subscription "lists"%string (VObj []); KOpened 1;
   KIncoming 1 (HandshakeFrame (Welcome AnonymousPrincipal "session"%string (num_of_Z 0)))] ++
  ((fun t => KIncoming 1 (SessionFrame (STransition (num_of_Z 1) t))) <$> sample_transitions ++ drop 1 sample_transitions).

Lemma sample_outbox : outbox sample_run = (fun t => (7%nat, 1, MTransition t)) <$> sample_transitions.
Proof. vm_compute. reflexivity. Qed.

Lemma sample_heard : Forall (heard (outbox sample_run)) sample_client_events.
Proof.
  rewrite sample_outbox. unfold sample_client_events. apply Forall_app. split; [by repeat constructor|].
  apply Forall_fmap, Forall_forall. intros t Ht g n t' [= <- <- <-].
  assert (Hin : t ∈ sample_transitions) by (revert Ht; unfold sample_transitions; set_solver).
  exists 7%nat, 1. apply list_elem_of_fmap. eauto.
Qed.

Abbreviation sample_new_client := (@ensureConnected sample_client (@initial_client sample_client)).2.
Abbreviation sample_client_run := (@client_run sample_client sample_new_client sample_client_events).

Lemma sample_client_starts : @new_Client sample_client = Ret sample_new_client.
Proof. vm_compute. reflexivity. Qed.

Lemma client_never_wrong_witness :
  exists s c, jmap_get 1 (subscriptions sample_client_run) = Some s /\ sub_cursor s = Some c /\ commitVersion c = 1 /\
  exists given, shown 1 (calls sample_client_run) = Some given /\ shows sample_query (cur_identity c) (commitVersion c) given /\
    given = inl (VStr "new"%string).
Proof.
  destruct (jmap_get 1 (subscriptions sample_client_run)) as [s|] eqn:Hs; [|vm_compute in Hs; discriminate Hs].
  assert (Hc : sub_cursor s = Some (sample_cursor 1)) by (vm_compute in Hs; injection Hs as <-; vm_compute; reflexivity).
  exists s, (sample_cursor 1). split; [done|]. split; [exact Hc|]. split; [done|].
  assert (Hl : limits_ok (resume (@Reactive.limits sample_options))) by (repeat split; vm_compute; reflexivity).
  assert (Ht : forall v, 0 <= @Reactive.text_bytes sample_options v) by (intros v; cbn; lia).
  assert (Hclock : forall n, exists t, @now sample_options n = Finite t) by (intros n; by eexists).
  pose proof (@client_never_wrong sample_options sample_client sample_query _ _ _ _ _ _ Hl Ht Hclock sample_reactive_new sample_honest
    sample_client_starts sample_heard) as H.
  cbv zeta in H. destruct (H 1 s (sample_cursor 1) Hs Hc) as (given & Hg & Hsh). exists given. split; [exact Hg|].
  split; [exact Hsh|]. vm_compute in Hg. injection Hg as <-. reflexivity.
Defined.
