(* ===== verification/ClientAccount.v ===== *)
(** The account of what the client retains is exact, and within its limits. *)
From S2P Require Import Prelude Errors Limits Value Wire StableEncode Protocol ProtocolProps Effects Uuid Retry Client ClientProps.
Local Open Scope Z_scope.

(** The sum of a measure over the entries of a map. *)
Definition total_of {A} (f : A -> Z) (m : list (Z * A)) : Z := foldr (fun e n => f e.2 + n) 0 m.
#[global] Arguments total_of : simpl never.

Section sums.
Context {A : Type} (f : A -> Z).
Implicit Types m : list (Z * A).

Lemma total_of_cons e m : total_of f (e :: m) = f e.2 + total_of f m.
Proof. done. Qed.

Lemma total_of_app m1 m2 : total_of f (m1 ++ m2) = total_of f m1 + total_of f m2.
Proof. induction m1 as [|e m1 IH]; [done|]. cbn [app]. rewrite !total_of_cons, IH. lia. Qed.

(** Keys are given once, before [n]; measures are not negative. *)
Definition kept (n : Z) m : Prop := NoDup m.*1 /\ forall i a, (i, a) ∈ m -> i < n /\ 0 <= f a.

Lemma kept_nil n : kept n [].
Proof. split; [constructor|]. intros i a H. by apply elem_of_nil in H. Qed.

Lemma kept_mono n n' m : n <= n' -> kept n m -> kept n' m.
Proof. intros Hn [H1 H2]. split; [done|]. intros i a H. destruct (H2 i a H). lia. Qed.

Lemma kept_nonneg n m : kept n m -> 0 <= total_of f m.
Proof.
  intros [_ H]. induction m as [|[i a] m IH]; [done|]. rewrite total_of_cons. destruct (H i a ltac:(by left)).
  specialize (IH (fun i a Hin => H i a ltac:(by right))). cbn. lia.
Qed.

Lemma jmap_delete_absent i m : i ∉ m.*1 -> jmap_delete i m = m.
Proof. intros H. apply filter_all. intros [j a] Hin. cbn. intros ->. apply H, elem_of_fst. by exists a. Qed.

Lemma kept_delete n i a m : kept n m -> jmap_get i m = Some a ->
  kept n (jmap_delete i m) /\ total_of f (jmap_delete i m) = total_of f m - f a /\ S (length (jmap_delete i m)) = length m.
Proof.
  intros [Hn Hm] H. split.
  - split; [|intros j b [_ Hin]%jmap_delete_elem; by apply Hm]. rewrite jmap_delete_keys. by apply NoDup_filter.
  - clear Hm. induction m as [|[j b] m IH]; [done|]. apply NoDup_cons in Hn as [Hj Hn]. cbn [jmap_get] in H.
    unfold jmap_delete in *. case_decide as E.
    + injection H as ->. subst j. rewrite filter_cons_False by (cbn; tauto). fold (jmap_delete i m).
      rewrite jmap_delete_absent by done. rewrite total_of_cons. cbn. lia.
    + destruct (IH Hn H) as (I1 & I2). rewrite filter_cons_True by done. rewrite !total_of_cons, I1. cbn. lia.
Qed.

Lemma kept_update n i a a' m : kept n m -> jmap_get i m = Some a -> 0 <= f a' ->
  kept n (jmap_set i a' m) /\ total_of f (jmap_set i a' m) = total_of f m - f a + f a' /\ length (jmap_set i a' m) = length m.
Proof.
  intros [Hn Hm] H Ha. assert (Hk : (jmap_set i a' m).*1 = m.*1 /\ total_of f (jmap_set i a' m) = total_of f m - f a + f a' /\
    length (jmap_set i a' m) = length m /\ forall j b, (j, b) ∈ jmap_set i a' m -> (j, b) ∈ m \/ (j = i /\ b = a' /\ (i, a) ∈ m)).
  { clear Hm. induction m as [|[j b] m IH]; [done|]. apply NoDup_cons in Hn as [Hj Hn]. cbn [jmap_get jmap_set] in *. case_decide as E.
    - injection H as ->. subst j. rewrite !total_of_cons. repeat split; [cbn; lia|]. intros j b'. rewrite !elem_of_cons. intros [[= -> ->]|Hin]; [|tauto].
      right. repeat split. by left.
    - destruct (IH Hn H) as (I1 & I2 & I3 & I4). rewrite !total_of_cons, I2. cbn. rewrite I1, I3. repeat split; [lia|].
      intros j' b'. rewrite !elem_of_cons. intros [->|Hin]; [tauto|]. destruct (I4 j' b' Hin) as [|(-> & -> & ?)]; tauto. }
  destruct Hk as (K1 & K2 & K3 & K4). split; [|done]. split; [by rewrite K1|]. intros j b Hin.
  destruct (K4 j b Hin) as [|(-> & -> & Hi)]; [by apply Hm|]. split; [|done]. by destruct (Hm i a Hi).
Qed.

Lemma kept_fresh n i a m : kept i m -> i < n -> 0 <= f a ->
  kept n (jmap_set i a m) /\ total_of f (jmap_set i a m) = total_of f m + f a /\ length (jmap_set i a m) = S (length m).
Proof.
  intros [Hn Hm] Hi Ha. assert (Hf : i ∉ m.*1) by (intros (b & Hb)%elem_of_fst; destruct (Hm i b Hb); lia).
  rewrite jmap_set_fresh by done. rewrite total_of_app, length_app, total_of_cons. change (total_of f []) with 0. cbn. split; [|lia]. split.
  - rewrite fmap_app. apply NoDup_app. split; [done|]. split; [|cbn; apply NoDup_singleton]. intros j Hj ->%list_elem_of_singleton. done.
  - intros j b. rewrite elem_of_app, list_elem_of_singleton. intros [Hin|[= -> ->]]; [|done]. destruct (Hm j b Hin). lia.
Qed.
End sums.

#[local] Arguments forget_events : simpl never.

(** A stream is the bytes it has reserved. *)
Definition reserved (bytes : Z) : Z := bytes.

Section account.
Context {options : ClientOptions}.
Implicit Types k : Client.

(** The account with [extra] items and bytes beside what the maps hold; ids of
    entries are before [n], which was given. *)
Record books (n extra bytes : Z) k : Prop := {
  books_given : n <= nextId k;
  books_subscriptions : kept sub_bytes n (subscriptions k);
  books_pending : kept req_bytes n (pending k);
  books_channels : kept group_bytes n (channels k);
  books_streams : kept reserved (nextHandle k) (streams k);
  books_items : pendingItems k = Z.of_nat (length (subscriptions k)) + Z.of_nat (length (pending k)) +
    Z.of_nat (length (channels k)) + Z.of_nat (length (streams k)) + extra;
  books_bytes : pendingBytes k = total_of sub_bytes (subscriptions k) + total_of req_bytes (pending k) +
    total_of group_bytes (channels k) + total_of reserved (streams k) + bytes;
  books_limits : pendingItems k <= maxPendingItems /\ pendingBytes k <= maxPendingBytes;
}.

Definition account k : Prop := books (nextId k) 0 0 k.

Lemma books_account n k : books n 0 0 k -> account k.
Proof. intros [H1 H2 H3 H4 H5 H6 H7 H8]. split; try done; by eapply kept_mono. Qed.

(** What the account looks at. *)
Definition pages k := (subscriptions k, pending k, channels k, streams k, pendingItems k, pendingBytes k, nextId k, nextHandle k).

Lemma books_ext n x b k k' : pages k' = pages k -> books n x b k -> books n x b k'.
Proof.
  intros E [H1 H2 H3 H4 H5 H6 H7 H8]. injection E as E1 E2 E3 E4 E5 E6 E7 E8.
  split; by rewrite ?E1, ?E2, ?E3, ?E4, ?E5, ?E6, ?E7, ?E8.
Qed.

Definition same_pages k k' : Prop := pages k' = pages k.

#[export] Instance same_pages_preorder : PreOrder same_pages.
Proof. split; [done|]. intros a b c H1 H2. unfold same_pages in *. congruence. Qed.

Abbreviation silent := (keeps same_pages).

Lemma wp_silent {A} (m : eff A) n x b k : silent m -> books n x b k -> wp m (fun _ => books n x b) k.
Proof. intros Hm H. unfold wp. eapply books_ext; [apply Hm|exact H]. Qed.

Definition keeps_account k k' : Prop := account k -> account k'.

#[export] Instance keeps_account_preorder : PreOrder keeps_account.
Proof. split; [by intros k H|]. intros a b c H1 H2 H. auto. Qed.

Abbreviation exact := (keeps keeps_account).

Lemma exact_silent {A} (m : eff A) : silent m -> exact m.
Proof.
  intros Hm k H. specialize (Hm k). unfold account in *.
  assert (nextId (m k).2 = nextId k) as -> by (by injection Hm). by eapply books_ext.
Qed.

Lemma silent_modify f : (forall k, pages (f k) = pages k) -> silent (modify f).
Proof. intros H k. apply H. Qed.

Lemma exact_wp {A} (m : eff A) : (forall k, account k -> wp m (fun _ => account) k) -> exact m.
Proof. intros H k Hk. by apply H. Qed.

Lemma wp_exact {A} (m : eff A) k : exact m -> account k -> wp m (fun _ => account) k.
Proof. intros Hm. apply Hm. Qed.

(** ** The steps that change the account *)

Lemma exact_update_subscription id f : (forall s, sub_bytes (f s) = sub_bytes s) -> exact (update_subscription id f).
Proof.
  intros Hf k [H1 H2 H3 H4 H5 H6 H7 H8]. unfold update_subscription, modify. cbn [snd].
  destruct (jmap_get id (subscriptions k)) as [s|] eqn:Hs; [|by split].
  assert (Hb : 0 <= sub_bytes (f s)).
  { rewrite Hf. apply jmap_get_Some_elem in Hs. by destruct (proj2 H2 id s Hs). }
  destruct (kept_update sub_bytes (nextId k) id s (f s) _ H2 Hs Hb) as (E1 & E2 & E3).
  pose proof (Hf s). split; cbn; try done; lia.
Qed.

Lemma exact_update_request id f : (forall r, req_bytes (f r) = req_bytes r) -> exact (update_request id f).
Proof.
  intros Hf k [H1 H2 H3 H4 H5 H6 H7 H8]. unfold update_request, modify. cbn [snd].
  destruct (jmap_get id (pending k)) as [r|] eqn:Hr; [|by split].
  assert (Hb : 0 <= req_bytes (f r)).
  { rewrite Hf. apply jmap_get_Some_elem in Hr. by destruct (proj2 H3 id r Hr). }
  destruct (kept_update req_bytes (nextId k) id r (f r) _ H3 Hr Hb) as (E1 & E2 & E3).
  pose proof (Hf r). split; cbn; try done; lia.
Qed.

Lemma exact_update_group id f : (forall g, group_bytes (f g) = group_bytes g) -> exact (update_group id f).
Proof.
  intros Hf k [H1 H2 H3 H4 H5 H6 H7 H8]. unfold update_group, modify. cbn [snd].
  destruct (jmap_get id (channels k)) as [g|] eqn:Hg; [|by split].
  assert (Hb : 0 <= group_bytes (f g)).
  { rewrite Hf. apply jmap_get_Some_elem in Hg. by destruct (proj2 H4 id g Hg). }
  destruct (kept_update group_bytes (nextId k) id g (f g) _ H4 Hg Hb) as (E1 & E2 & E3).
  pose proof (Hf g). split; cbn; try done; lia.
Qed.

Lemma exact_finishRequest id o : exact (finishRequest id o).
Proof.
  intros k [H1 H2 H3 H4 H5 H6 H7 H8]. unfold finishRequest. rewrite run_get.
  destruct (jmap_get id (pending k)) as [r|] eqn:Hr; [|by split].
  destruct (kept_delete req_bytes (nextId k) id r _ H3 Hr) as (E1 & E2 & E3).
  assert (Hb : 0 <= req_bytes r) by (apply jmap_get_Some_elem in Hr; by destruct (proj2 H3 id r Hr)).
  rewrite run_modify. unfold releasePersistent. rewrite run_modify. unfold modify. cbn [snd].
  split; cbn; try done; lia.
Qed.

Lemma forget_cons i s subs :
  forget_events ((i, s) :: subs) = (i, if decide (sub_kind s = event_subscription) then set_sub_eventCursor None s else s) :: forget_events subs.
Proof. done. Qed.

Lemma kept_forget n subs : kept sub_bytes n subs ->
  kept sub_bytes n (forget_events subs) /\ total_of sub_bytes (forget_events subs) = total_of sub_bytes subs /\
  length (forget_events subs) = length subs.
Proof.
  intros [Hn Hm]. assert (E : (forget_events subs).*1 = subs.*1).
  { clear. induction subs as [|[i s] subs IH]; [done|]. rewrite forget_cons, !fmap_cons, IH. done. }
  split; [split; [by rewrite E|]|split].
  - intros i s [[j s0] [[= -> ->] Hin]]%list_elem_of_fmap. destruct (Hm j s0 Hin). by case_decide.
  - clear. induction subs as [|[i s] subs IH]; [done|]. rewrite forget_cons, !total_of_cons, IH. cbn. by case_decide.
  - apply length_fmap.
Qed.

Lemma exact_forget : exact (modify (fun k => set_subscriptions (forget_events (subscriptions k)) k)).
Proof.
  intros k [H1 H2 H3 H4 H5 H6 H7 H8]. destruct (kept_forget _ _ H2) as (E1 & E2 & E3).
  split; cbn; try done; lia.
Qed.

Lemma release_all subs k : wp (for_all (fun '(_, s) => releasePersistent (sub_bytes s)) subs) (fun _ k' =>
  pages k' = (subscriptions k, pending k, channels k, streams k, pendingItems k - Z.of_nat (length subs),
    pendingBytes k - total_of sub_bytes subs, nextId k, nextHandle k)) k.
Proof.
  revert k. induction subs as [|[i s] subs IH]; intros k; cbn [for_all foldr].
  - apply wp_ret. change (total_of sub_bytes []) with 0. cbn. by rewrite !Z.sub_0_r.
  - apply wp_bind, wp_modify. eapply wp_mono; [apply IH|]. intros r k' ->. rewrite total_of_cons, length_cons, Nat2Z.inj_succ. cbn.
    unfold pages. cbn. by rewrite <- !Z.sub_add_distr, Z.add_1_l.
Qed.

Lemma exact_drop_subscriptions : exact drop_subscriptions.
Proof.
  apply exact_wp. intros k [H1 H2 H3 H4 H5 H6 H7 H8]. unfold drop_subscriptions. apply wp_bind, wp_get.
  pose proof (release_all (subscriptions k) k) as E. unfold wp in E. apply wp_bind. unfold wp at 1.
  pose proof (returns_for_all (fun '(_, s) => releasePersistent (sub_bytes s)) (subscriptions k) ltac:(by intros [] ?) k) as Hr.
  destruct (for_all _ _ k) as [r k']. cbn [fst snd] in *. subst r. injection E as E1 E2 E3 E4 E5 E6 E7 E8. apply wp_modify.
  pose proof (kept_nonneg _ _ _ H2). change (total_of sub_bytes []) with 0.
  split; cbn; rewrite ?E2, ?E3, ?E4, ?E5, ?E6, ?E7, ?E8; try done; [apply kept_nil|lia|change (total_of sub_bytes []) with 0; lia|lia].
Qed.
End account.

Abbreviation silent := (keeps same_pages).
Abbreviation exact := (keeps keeps_account).

Ltac silent_tac := repeat first [solve [eauto with keep nocore]
  | match goal with
    | |- silent (modify _) => apply silent_modify; intros; repeat (case_match; cbn); reflexivity
    | |- silent (for_all _ _) => apply keeps_for_all; [typeclasses eauto|intros]
    end
  | keeps_split].

Ltac exact_tac := repeat first [solve [eauto with keep nocore]
  | match goal with
    | |- exact (modify _) => apply exact_silent, silent_modify; intros; repeat (case_match; cbn); reflexivity
    | |- exact (for_all _ _) => apply keeps_for_all; [typeclasses eauto|intros]
    | |- exact (update_subscription _ _) => apply exact_update_subscription; reflexivity
    | |- exact (update_request _ _) => apply exact_update_request; reflexivity
    | |- exact (update_group _ _) => apply exact_update_group; intros; repeat case_match; reflexivity
    end
  | keeps_split].

#[local] Hint Resolve exact_finishRequest exact_forget exact_drop_subscriptions : keep.

Section operations.
Context {options : ClientOptions}.
Context (Hbytes : forall v, 0 <= text_bytes v).
Implicit Types k : Client.

Lemma silent_raw_clock : silent raw_clock.
Proof. by intros k. Qed.
#[local] Hint Resolve silent_raw_clock : keep.
Lemma silent_clock : silent clock.
Proof. unfold clock. silent_tac. Qed.
#[local] Hint Resolve silent_clock : keep.
Lemma silent_random_value : silent random_value.
Proof. by intros k. Qed.
#[local] Hint Resolve silent_random_value : keep.
Lemma silent_new_uuid nowMs : silent (new_uuid nowMs).
Proof. intros k. unfold new_uuid, zoom. by destruct (create _ _ _). Qed.
#[local] Hint Resolve silent_new_uuid : keep.
Lemma silent_log_traffic t : silent (log_traffic t).
Proof. unfold log_traffic. silent_tac. Qed.
#[local] Hint Resolve silent_log_traffic : keep.
Lemma silent_assertUsable : silent assertUsable.
Proof. unfold assertUsable. silent_tac. Qed.
#[local] Hint Resolve silent_assertUsable : keep.
Lemma silent_assertOpen : silent assertOpen.
Proof. unfold assertOpen. silent_tac. Qed.
#[local] Hint Resolve silent_assertOpen : keep.
Lemma silent_update_session f : silent (update_session f).
Proof. unfold update_session. silent_tac. Qed.
#[local] Hint Resolve silent_update_session : keep.
Lemma silent_publishConnectionState : silent publishConnectionState.
Proof. unfold publishConnectionState. silent_tac. Qed.
#[local] Hint Resolve silent_publishConnectionState : keep.
Lemma silent_settle_attempt id r : silent (settle_attempt id r).
Proof. unfold settle_attempt. silent_tac. Qed.
#[local] Hint Resolve silent_settle_attempt : keep.
Lemma silent_reject_attempt error : silent (reject_attempt error).
Proof. unfold reject_attempt. silent_tac. Qed.
#[local] Hint Resolve silent_reject_attempt : keep.
Lemma silent_call_back id c : silent (call_back id c).
Proof. unfold call_back. silent_tac. Qed.
#[local] Hint Resolve silent_call_back : keep.
Lemma silent_tell_all error : silent (tell_all error).
Proof. unfold tell_all. silent_tac. Qed.
#[local] Hint Resolve silent_tell_all : keep.
Lemma silent_pullCredentialSource : silent pullCredentialSource.
Proof. unfold pullCredentialSource. silent_tac. Qed.
#[local] Hint Resolve silent_pullCredentialSource : keep.
Lemma silent_credential_expired w : silent (credential_expired w).
Proof. unfold credential_expired. silent_tac. Qed.
#[local] Hint Resolve silent_credential_expired : keep.
Lemma silent_acceptedCredential : silent acceptedCredential.
Proof. unfold acceptedCredential. silent_tac. Qed.
#[local] Hint Resolve silent_acceptedCredential : keep.
Lemma silent_log_here t : silent (log_here t).
Proof. unfold log_here. silent_tac. Qed.
#[local] Hint Resolve silent_log_here : keep.

Lemma exact_of_silent {A} (m : eff A) : silent m -> exact m.
Proof. apply exact_silent. Qed.
#[local] Hint Resolve exact_of_silent : keep.

Lemma exact_allocateId : exact allocateId.
Proof.
  apply exact_wp. intros k [H1 H2 H3 H4 H5 H6 H7 H8]. unfold allocateId. apply wp_bind, wp_get. case_decide; [by apply wp_throw|].
  apply wp_bind, wp_modify, wp_ret. split; cbn; try done; first [lia|(eapply kept_mono; [|done]; cbn; lia)].
Qed.
#[local] Hint Resolve exact_allocateId : keep.
Lemma exact_replace id st : exact (replace id st).
Proof. unfold replace. exact_tac. Qed.
#[local] Hint Resolve exact_replace : keep.
Lemma exact_connectionLost : exact connectionLost.
Proof. unfold connectionLost. exact_tac. Qed.
#[local] Hint Resolve exact_connectionLost : keep.
Lemma exact_channels_failAll error : exact (channels_failAll error).
Proof. unfold channels_failAll. exact_tac. Qed.
#[local] Hint Resolve exact_channels_failAll : keep.
Lemma exact_detach : exact detach.
Proof. unfold detach. exact_tac. Qed.
#[local] Hint Resolve exact_detach : keep.
Lemma exact_retireConnection : exact retireConnection.
Proof. unfold retireConnection. exact_tac. Qed.
#[local] Hint Resolve exact_retireConnection : keep.
Lemma exact_finish_all f : exact (finish_all f).
Proof. unfold finish_all. exact_tac. Qed.
#[local] Hint Resolve exact_finish_all : keep.
Lemma exact_failPermanently error : exact (failPermanently error).
Proof. unfold failPermanently. exact_tac. Qed.
#[local] Hint Resolve exact_failPermanently : keep.
Lemma exact_scheduleReconnect : exact scheduleReconnect.
Proof. unfold scheduleReconnect. exact_tac. Qed.
#[local] Hint Resolve exact_scheduleReconnect : keep.
Lemma exact_scheduleSourceRetry : exact scheduleSourceRetry.
Proof. unfold scheduleSourceRetry. exact_tac. Qed.
#[local] Hint Resolve exact_scheduleSourceRetry : keep.
Lemma exact_dial : exact dial.
Proof. unfold dial. exact_tac. Qed.
#[local] Hint Resolve exact_dial : keep.
Lemma exact_ensureConnected : exact ensureConnected.
Proof. unfold ensureConnected. exact_tac. Qed.
#[local] Hint Resolve exact_ensureConnected : keep.
Lemma exact_handleClose g : exact (handleClose g).
Proof. unfold handleClose. exact_tac. Qed.
#[local] Hint Resolve exact_handleClose : keep.
Lemma exact_sendText text : exact (sendText text).
Proof. unfold sendText. exact_tac. Qed.
#[local] Hint Resolve exact_sendText : keep.
Lemma exact_sendFrame m : exact (sendFrame m).
Proof. unfold sendFrame. exact_tac. Qed.
#[local] Hint Resolve exact_sendFrame : keep.
Lemma exact_finish_if_converged id r o : exact (finish_if_converged id r o).
Proof. unfold finish_if_converged. exact_tac. Qed.
#[local] Hint Resolve exact_finish_if_converged : keep.
Lemma exact_advanceConvergence id v : exact (advanceConvergence id v).
Proof. unfold advanceConvergence. exact_tac. Qed.
#[local] Hint Resolve exact_advanceConvergence : keep.
Lemma exact_sendRequest id : exact (sendRequest id).
Proof. unfold sendRequest. exact_tac. Qed.
#[local] Hint Resolve exact_sendRequest : keep.
Lemma exact_sendProcedureCancel id r : exact (sendProcedureCancel id r).
Proof. unfold sendProcedureCancel. exact_tac. Qed.
#[local] Hint Resolve exact_sendProcedureCancel : keep.
Lemma exact_expireRequest id : exact (expireRequest id).
Proof. unfold expireRequest. exact_tac. Qed.
#[local] Hint Resolve exact_expireRequest : keep.
Lemma exact_cancelProcedure id : exact (cancelProcedure id).
Proof. unfold cancelProcedure. exact_tac. Qed.
#[local] Hint Resolve exact_cancelProcedure : keep.
Lemma exact_sendSubscription id : exact (sendSubscription id).
Proof. unfold sendSubscription. exact_tac. Qed.
#[local] Hint Resolve exact_sendSubscription : keep.

(** What is reserved is retained by the entry that is then made. *)
Lemma allocateId_spec k : account k -> wp allocateId (fun r k' =>
  match r with Ret n => books n 0 0 k' /\ n < nextId k' | Throw _ => account k' end) k.
Proof.
  intros [H1 H2 H3 H4 H5 H6 H7 H8]. unfold allocateId. apply wp_bind, wp_get. case_decide; [by apply wp_throw|].
  apply wp_bind, wp_modify, wp_ret. split; [|cbn; lia]. split; cbn; try done; lia.
Qed.

Lemma reserve_spec n frame resource k : books n 0 0 k -> wp (reservePersistent frame resource) (fun r k' =>
  nextId k' = nextId k /\ match r with Ret b => books n 1 b k' /\ 0 <= b | Throw _ => books n 0 0 k' end) k.
Proof.
  intros [H1 H2 H3 H4 H5 H6 H7 H8]. unfold reservePersistent, frameBytes. apply wp_bind, wp_lift. case_decide; [done|].
  apply wp_bind, wp_get. case_decide; [by apply wp_throw|]. apply wp_bind, wp_modify, wp_ret.
  unfold id in *. split; [done|]. split; [|apply Hbytes]. split; cbn; try done; lia.
Qed.

Lemma books_subscribe n s k : books n 1 (sub_bytes s) k -> n < nextId k -> 0 <= sub_bytes s ->
  account (set_subscriptions (jmap_set n s (subscriptions k)) k).
Proof.
  intros [H1 H2 H3 H4 H5 H6 H7 H8] Hn Hb. destruct (kept_fresh sub_bytes (nextId k) n s _ H2 Hn Hb) as (E1 & E2 & E3).
  split; cbn; try done; first [lia|(eapply kept_mono; [|done]; cbn; lia)].
Qed.

Lemma books_request n r k : books n 1 (req_bytes r) k -> n < nextId k -> 0 <= req_bytes r ->
  account (set_pending (jmap_set n r (pending k)) k).
Proof.
  intros [H1 H2 H3 H4 H5 H6 H7 H8] Hn Hb. destruct (kept_fresh req_bytes (nextId k) n r _ H3 Hn Hb) as (E1 & E2 & E3).
  split; cbn; try done; first [lia|(eapply kept_mono; [|done]; cbn; lia)].
Qed.

Lemma exact_subscribe kind ref args : exact (subscribe kind ref args).
Proof.
  unfold subscribe. apply keeps_bind; [typeclasses eauto|exact_tac|intros _]. apply exact_wp. intros k H.
  eapply wp_seq; [by apply allocateId_spec| |done]. intros n k1 [H1 Hn]. apply wp_bind, wp_lift.
  destruct (encodeSubscriptionOrReject n ref args) as [frame|e]; [|by eapply books_account].
  eapply wp_seq; [by apply reserve_spec| |intros e k2 [_ H2]; by eapply books_account]. intros b k2 (E & H2 & Hb).
  apply wp_bind, wp_modify. apply wp_exact; [exact_tac|]. apply books_subscribe; cbn; [done|lia|done].
Qed.
#[local] Hint Resolve exact_subscribe : keep.

Lemma silent_identity kind now : silent (if decide (kind = mutation_request) then u ← new_uuid now; mret (Some u) else mret None).
Proof. silent_tac. Qed.

Lemma exact_request kind ref args : exact (request kind ref args).
Proof.
  unfold request. apply keeps_catch; [typeclasses eauto| |intros; exact_tac].
  apply keeps_bind; [typeclasses eauto|exact_tac|intros _]. apply exact_wp. intros k H.
  eapply wp_seq; [by apply allocateId_spec| |done]. intros n k1 [H1 Hn].
  assert (Hnext : forall {A} (m : eff A), silent m -> forall k, books n 0 0 k /\ n < nextId k ->
    wp m (fun _ k' => books n 0 0 k' /\ n < nextId k') k).
  { intros A m Hm k2 [H2 Hn2]. split; [by apply wp_silent|]. specialize (Hm k2). injection Hm as _ _ _ _ _ _ -> _. done. }
  eapply wp_seq; [by apply Hnext; [exact silent_clock|]| |by intros e k2 [H2 _]; eapply books_account]. intros now k2 H2.
  eapply wp_seq; [by apply Hnext; [apply silent_identity|]| |by intros e k3 [H3 _]; eapply books_account].
  intros identity k3 [H3 Hn3]. apply wp_bind, wp_lift.
  destruct (encodeClient _) as [frame|e]; [|by eapply books_account].
  eapply wp_seq; [by apply reserve_spec| |intros e k4 [_ H4]; by eapply books_account]. intros b k4 (E & H4 & Hb).
  cbv zeta. apply wp_bind, wp_modify. apply wp_exact; [exact_tac|]. apply books_request; cbn; [done|lia|done].
Qed.
#[local] Hint Resolve exact_request : keep.

Lemma exact_procedure ref args : exact (procedure ref args).
Proof. unfold procedure. exact_tac. Qed.
#[local] Hint Resolve exact_procedure : keep.

Lemma exact_removeSubscription id b : exact (removeSubscription id b).
Proof.
  unfold removeSubscription. apply keeps_get_bind. intros k. destruct (jmap_get id (subscriptions k)) as [s|] eqn:Hs; [|done].
  rewrite run_modify. unfold releasePersistent. rewrite run_modify. intros [H1 H2 H3 H4 H5 H6 H7 H8].
  destruct (kept_delete sub_bytes (nextId k) id s _ H2 Hs) as (E1 & E2 & E3).
  assert (Hb : 0 <= sub_bytes s) by (apply jmap_get_Some_elem in Hs; by destruct (proj2 H2 id s Hs)).
  match goal with |- account (?m ?k1).2 => assert (G : exact m) by exact_tac; apply G end.
  split; cbn; try done; lia.
Qed.
#[local] Hint Resolve exact_removeSubscription : keep.

Lemma exact_retainCursor id cursor : exact (retainCursor id cursor).
Proof.
  unfold retainCursor. apply keeps_get_bind. intros k. destruct (jmap_get id (subscriptions k)) as [s|] eqn:Hs; [|done].
  destruct (_ ≫= _) as [[frame bytes]|error] eqn:E;
    [|match goal with |- keeps_account ?k (?m ?k).2 => assert (G : exact m) by exact_tac; apply G end].
  rewrite run_get. cbv zeta. case_decide as Hmax; [match goal with |- keeps_account ?k (?m ?k).2 => assert (G : exact m) by exact_tac; apply G end|].
  assert (Hb : 0 <= bytes).
  { destruct (encodeSubscription id s (Some cursor)) as [f|]; [|done]. cbn in E. unfold frameBytes in E. case_decide; [done|].
    cbn in E. injection E as <- <-. apply Hbytes. }
  intros [H1 H2 H3 H4 H5 H6 H7 H8]. rewrite run_modify. unfold update_subscription, modify, mbind, eff_bind. cbn. rewrite Hs. cbn.
  set (s' := set_sub_cursor _ _). assert (Hb' : 0 <= sub_bytes s') by done.
  destruct (kept_update sub_bytes (nextId k) id s s' _ H2 Hs Hb') as (E1 & E2 & E3). assert (sub_bytes s' = bytes) by done.
  split; cbn; try done; lia.
Qed.
#[local] Hint Resolve exact_retainCursor : keep.

Lemma exact_channels_send frame : exact (channels_send frame).
Proof. unfold channels_send. exact_tac. Qed.
#[local] Hint Resolve exact_channels_send : keep.
Lemma exact_channels_sendFrame m : exact (channels_sendFrame m).
Proof. unfold channels_sendFrame. exact_tac. Qed.
#[local] Hint Resolve exact_channels_sendFrame : keep.
Lemma exact_flushGroup id : exact (flushGroup id).
Proof. unfold flushGroup. exact_tac. Qed.
#[local] Hint Resolve exact_flushGroup : keep.
Lemma exact_channels_flush : exact channels_flush.
Proof. unfold channels_flush. exact_tac. Qed.
#[local] Hint Resolve exact_channels_flush : keep.

Lemma books_group n g k : books n 1 (group_bytes g) k -> n < nextId k -> 0 <= group_bytes g ->
  account (set_channels (jmap_set n g (channels k)) k).
Proof.
  intros [H1 H2 H3 H4 H5 H6 H7 H8] Hn Hb. destruct (kept_fresh group_bytes (nextId k) n g _ H4 Hn Hb) as (E1 & E2 & E3).
  split; cbn; try done; first [lia|(eapply kept_mono; [|done]; cbn; lia)].
Qed.

Lemma exact_allocateHandle : exact allocateHandle.
Proof.
  intros k [H1 H2 H3 H4 H5 H6 H7 H8]. unfold allocateHandle. cbn. split; cbn; try done.
  change (kept reserved (nextHandle k + 1) (streams k)). eapply kept_mono; [|exact H5]. lia.
Qed.
#[local] Hint Resolve exact_allocateHandle : keep.

(** A group is made with what is reserved for its frame. *)
Lemma exact_observe ref args room hk on : exact (observe ref args room hk on).
Proof.
  unfold observe. case_decide; [exact_tac|]. keeps_split; [exact_tac|]. keeps_split; [exact_tac|].
  keeps_split; [|exact_tac]. destruct (group_of_key _ _); [exact_tac|]. apply exact_wp. intros k Hk.
  eapply wp_seq; [by apply allocateId_spec| |done]. intros n k1 [H1 Hn]. apply wp_bind, wp_lift.
  destruct (encodeChannelOrReject _) as [frame|e]; [|by eapply books_account].
  eapply wp_seq; [by apply reserve_spec| |intros e k2 [_ H2]; by eapply books_account]. intros b k2 (E & H2 & Hb).
  apply wp_bind, wp_modify, wp_ret. apply books_group; cbn; [done|lia|done].
Qed.
#[local] Hint Resolve exact_observe : keep.

Lemma exact_releaseGroup id b : exact (releaseGroup id b).
Proof.
  unfold releaseGroup. apply keeps_get_bind. intros k. destruct (jmap_get id (channels k)) as [g|] eqn:Hg; [|done].
  rewrite run_modify. unfold releasePersistent. rewrite run_modify. intros [H1 H2 H3 H4 H5 H6 H7 H8].
  destruct (kept_delete group_bytes (nextId k) id g _ H4 Hg) as (E1 & E2 & E3).
  assert (Hb : 0 <= group_bytes g) by (apply jmap_get_Some_elem in Hg; by destruct (proj2 H4 id g Hg)).
  match goal with |- account (?m ?k1).2 => assert (G : exact m) by exact_tac; apply G end.
  split; cbn; try done; lia.
Qed.
#[local] Hint Resolve exact_releaseGroup : keep.
Lemma exact_channel ref args room hk on : exact (channel ref args room hk on).
Proof. unfold channel. exact_tac. Qed.
#[local] Hint Resolve exact_channel : keep.
Lemma exact_channels_close : exact channels_close.
Proof. unfold channels_close. exact_tac. Qed.
#[local] Hint Resolve exact_channels_close : keep.
Lemma exact_channel_send id o event payload : exact (channel_send id o event payload).
Proof. unfold channel_send. exact_tac. Qed.
#[local] Hint Resolve exact_channel_send : keep.
Lemma exact_channel_listen id o l : exact (channel_listen id o l).
Proof. unfold channel_listen, update_observer. exact_tac. Qed.
#[local] Hint Resolve exact_channel_listen : keep.
Lemma exact_channel_unlisten id o l : exact (channel_unlisten id o l).
Proof. unfold channel_unlisten, update_observer. exact_tac. Qed.
#[local] Hint Resolve exact_channel_unlisten : keep.
Lemma exact_channel_close id o : exact (channel_close id o).
Proof. unfold channel_close. exact_tac. Qed.
#[local] Hint Resolve exact_channel_close : keep.
Lemma exact_channel_attempted id epoch : exact (channel_attempted id epoch).
Proof. unfold channel_attempted. exact_tac. Qed.
#[local] Hint Resolve exact_channel_attempted : keep.
Lemma exact_channel_ready id epoch : exact (channel_ready id epoch).
Proof. unfold channel_ready. exact_tac. Qed.
#[local] Hint Resolve exact_channel_ready : keep.
Lemma exact_channel_rejected id epoch error : exact (channel_rejected id epoch error).
Proof. unfold channel_rejected. exact_tac. Qed.
#[local] Hint Resolve exact_channel_rejected : keep.
Lemma exact_channel_failed id error : exact (channel_failed id error).
Proof. unfold channel_failed. exact_tac. Qed.
#[local] Hint Resolve exact_channel_failed : keep.
Lemma exact_channel_event id event payload : exact (channel_event id event payload).
Proof. unfold channel_event. exact_tac. Qed.
#[local] Hint Resolve exact_channel_event : keep.

Lemma exact_stream args : exact (stream args).
Proof.
  unfold stream. keeps_split; [exact_tac|]. keeps_split; [exact_tac|]. destruct (suspended _); [exact_tac|]. keeps_split; [exact_tac|].
  apply exact_wp. intros k H. eapply wp_seq; [by apply reserve_spec| |intros e k2 [_ H2]; by eapply books_account].
  intros b k2 (E & [H1 H2 H3 H4 H5 H6 H7 H8] & Hb). unfold allocateHandle. apply wp_bind, wp_bind, wp_get, wp_bind, wp_modify, wp_ret, wp_bind, wp_modify, wp_ret.
  destruct (kept_fresh reserved (nextHandle k2 + 1) (nextHandle k2) b _ H5 ltac:(lia) Hb) as (E1 & E2 & E3). unfold reserved in E2 at 3.
  split; cbn; try done; first [lia|(eapply kept_mono; [|done]; cbn; lia)].
Qed.
#[local] Hint Resolve exact_stream : keep.

Lemma exact_end_stream id : exact (end_stream id).
Proof.
  intros k [H1 H2 H3 H4 H5 H6 H7 H8]. unfold end_stream. rewrite run_get.
  destruct (jmap_get id (streams k)) as [b|] eqn:Hb; [|by split].
  destruct (kept_delete reserved (nextHandle k) id b _ H5 Hb) as (E1 & E2 & E3). unfold reserved in E2 at 3.
  assert (0 <= b) by (apply jmap_get_Some_elem in Hb; by destruct (proj2 H5 id b Hb)).
  rewrite run_modify. unfold releasePersistent, modify. cbn [snd]. split; cbn; try done; lia.
Qed.
#[local] Hint Resolve exact_end_stream : keep.
Lemma exact_abort_streams : exact abort_streams.
Proof. unfold abort_streams. exact_tac. Qed.
#[local] Hint Resolve exact_abort_streams : keep.

Lemma exact_requestReset id : exact (requestReset id).
Proof. unfold requestReset. exact_tac. Qed.
#[local] Hint Resolve exact_requestReset : keep.
Lemma exact_sendAuth a : exact (sendAuth a).
Proof. unfold sendAuth. exact_tac. Qed.
#[local] Hint Resolve exact_sendAuth : keep.
Lemma exact_resolveAuth a accepted : exact (resolveAuth a accepted).
Proof. unfold resolveAuth. exact_tac. Qed.
#[local] Hint Resolve exact_resolveAuth : keep.
Lemma exact_blockAuthentication error : exact (blockAuthentication error).
Proof. unfold blockAuthentication. exact_tac. Qed.
#[local] Hint Resolve exact_blockAuthentication : keep.
Lemma exact_expireAuthAttempt a : exact (expireAuthAttempt a).
Proof. unfold expireAuthAttempt. exact_tac. Qed.
#[local] Hint Resolve exact_expireAuthAttempt : keep.
Lemma silent_supersede_attempt : silent supersede_attempt.
Proof. unfold supersede_attempt. silent_tac. Qed.
#[local] Hint Resolve silent_supersede_attempt : keep.
Lemma exact_install c : exact (install c).
Proof. unfold install. exact_tac. Qed.
#[local] Hint Resolve exact_install : keep.
Lemma exact_presentCredential c : exact (presentCredential c).
Proof. unfold presentCredential. exact_tac. Qed.
#[local] Hint Resolve exact_presentCredential : keep.
Lemma exact_demandFreshPull : exact demandFreshPull.
Proof. unfold demandFreshPull. exact_tac. Qed.
#[local] Hint Resolve exact_demandFreshPull : keep.
Lemma exact_refreshCredential c : exact (refreshCredential c).
Proof. unfold refreshCredential. exact_tac. Qed.
#[local] Hint Resolve exact_refreshCredential : keep.
Lemma exact_source_answers answer : exact (source_answers answer).
Proof. unfold source_answers. exact_tac. Qed.
#[local] Hint Resolve exact_source_answers : keep.
Lemma exact_pull_settles : exact pull_settles.
Proof. unfold pull_settles. exact_tac. Qed.
#[local] Hint Resolve exact_pull_settles : keep.
Lemma exact_flushState : exact flushState.
Proof. unfold flushState. exact_tac. Qed.
#[local] Hint Resolve exact_flushState : keep.
Lemma exact_handleOpen g : exact (handleOpen g).
Proof. unfold handleOpen. exact_tac. Qed.
#[local] Hint Resolve exact_handleOpen : keep.
Lemma exact_welcome d i n : exact (welcome d i n).
Proof. unfold welcome. exact_tac. Qed.
#[local] Hint Resolve exact_welcome : keep.
Lemma exact_authenticated d i n : exact (authenticated d i n).
Proof. unfold authenticated. exact_tac. Qed.
#[local] Hint Resolve exact_authenticated : keep.
Lemma exact_connection_error o : exact (connection_error o).
Proof. unfold connection_error. exact_tac. Qed.
#[local] Hint Resolve exact_connection_error : keep.
Lemma exact_armSubscriptionRetry id : exact (armSubscriptionRetry id).
Proof. unfold armSubscriptionRetry. exact_tac. Qed.
#[local] Hint Resolve exact_armSubscriptionRetry : keep.
Lemma exact_scheduleSubscriptionRetry id f : exact (scheduleSubscriptionRetry id f).
Proof. unfold scheduleSubscriptionRetry. exact_tac. Qed.
#[local] Hint Resolve exact_scheduleSubscriptionRetry : keep.
Lemma exact_answer_error id o : exact (answer_error id o).
Proof. unfold answer_error. exact_tac. Qed.
#[local] Hint Resolve exact_answer_error : keep.
Lemma exact_operation_error id o : exact (operation_error id o).
Proof. unfold operation_error. exact_tac. Qed.
#[local] Hint Resolve exact_operation_error : keep.
Lemma exact_applyLiveEvent id e : exact (applyLiveEvent id e).
Proof. unfold applyLiveEvent. exact_tac. Qed.
#[local] Hint Resolve exact_applyLiveEvent : keep.
Lemma exact_applyMutationReceipt id r rc x : exact (applyMutationReceipt id r rc x).
Proof. unfold applyMutationReceipt. exact_tac. Qed.
#[local] Hint Resolve exact_applyMutationReceipt : keep.
Lemma exact_applyAnswer id kind x rc m : exact (applyAnswer id kind x rc m).
Proof. unfold applyAnswer. exact_tac. Qed.
#[local] Hint Resolve exact_applyAnswer : keep.
Lemma exact_applyTransition id x : exact (applyTransition id x).
Proof. unfold applyTransition. exact_tac. Qed.
#[local] Hint Resolve exact_applyTransition : keep.
Lemma exact_dispatch m : exact (dispatch m).
Proof. unfold dispatch. exact_tac. Qed.
#[local] Hint Resolve exact_dispatch : keep.
Lemma exact_handleIncoming g i : exact (handleIncoming g i).
Proof. unfold handleIncoming. exact_tac. Qed.
#[local] Hint Resolve exact_handleIncoming : keep.
Lemma exact_close : exact close.
Proof. unfold close. exact_tac. Qed.
#[local] Hint Resolve exact_close : keep.
Lemma exact_suspendTransport : exact suspendTransport.
Proof. unfold suspendTransport. exact_tac. Qed.
#[local] Hint Resolve exact_suspendTransport : keep.
Lemma exact_resumeTransport : exact resumeTransport.
Proof. unfold resumeTransport. exact_tac. Qed.
#[local] Hint Resolve exact_resumeTransport : keep.
Lemma exact_reconnect_timer : exact reconnect_timer.
Proof. unfold reconnect_timer. exact_tac. Qed.
#[local] Hint Resolve exact_reconnect_timer : keep.
Lemma exact_stable_timer : exact stable_timer.
Proof. unfold stable_timer. exact_tac. Qed.
#[local] Hint Resolve exact_stable_timer : keep.
Lemma exact_ping_timer : exact ping_timer.
Proof. unfold ping_timer. exact_tac. Qed.
#[local] Hint Resolve exact_ping_timer : keep.
Lemma exact_attempt_timer : exact attempt_timer.
Proof. unfold attempt_timer. exact_tac. Qed.
#[local] Hint Resolve exact_attempt_timer : keep.
Lemma exact_source_retry_timer : exact source_retry_timer.
Proof. unfold source_retry_timer. exact_tac. Qed.
#[local] Hint Resolve exact_source_retry_timer : keep.
Lemma exact_source_refresh_timer : exact source_refresh_timer.
Proof. unfold source_refresh_timer. exact_tac. Qed.
#[local] Hint Resolve exact_source_refresh_timer : keep.
Lemma exact_retry_timer id : exact (retry_timer id).
Proof. unfold retry_timer. exact_tac. Qed.
#[local] Hint Resolve exact_retry_timer : keep.
Lemma exact_client_handle e : exact (client_handle e).
Proof. unfold client_handle. exact_tac. Qed.
#[local] Hint Resolve exact_client_handle : keep.
End operations.

Section theorem.
Context {options : ClientOptions}.

Lemma positiveInteger_ret z name u : positiveInteger z name = Ret u -> 0 < z <= MAX_SAFE_INTEGER.
Proof. unfold positiveInteger. rewrite throw_if_ret. intros H%bool_decide_eq_false. lia. Qed.

Lemma new_Client_account k : (forall v, 0 <= text_bytes v) -> new_Client = Ret k -> account k.
Proof.
  intros Hb H. pose proof (new_Client_ret k H) as ->. unfold new_Client in H.
  repeat (apply exc_bind_ret in H as (? & ? & H)). clear H. apply exact_ensureConnected.
  repeat match goal with H : positiveInteger _ _ = Ret _ |- _ => apply positiveInteger_ret in H end.
  split; cbn; try apply kept_nil; try done; lia.
Qed.

(** C7: whatever the application, the server, the network and the timers do, what
    the client accounts for is exactly the subscriptions, the requests and the
    channels it retains, the streams that are open, and the bytes of their
    frames and bodies, neither beyond its limits: nothing retained is forgotten,
    and nothing released is still charged. *)
Theorem client_account_exact (Hb : forall v, 0 <= text_bytes v) k0 es :
  new_Client = Ret k0 ->
  let k := client_run k0 es in
  pendingItems k = Z.of_nat (length (subscriptions k)) + Z.of_nat (length (pending k)) +
    Z.of_nat (length (channels k)) + Z.of_nat (length (streams k)) /\
  pendingBytes k = total_of sub_bytes (subscriptions k) + total_of req_bytes (pending k) +
    total_of group_bytes (channels k) + total_of reserved (streams k) /\
  pendingItems k <= maxPendingItems /\ pendingBytes k <= maxPendingBytes.
Proof.
  intros Hk0 k. assert (H : account k) by (unfold k, client_run; apply new_Client_account in Hk0; [|done]; clear k;
    revert k0 Hk0; induction es as [|e es IH]; intros k0 Hk0; [done|]; cbn; apply IH; by apply exact_client_handle).
  destruct H as [H1 H2 H3 H4 H5 H6 H7 H8]. lia.
Qed.
End theorem.

(** ** A client that retains and releases *)

Definition account_options : ClientOptions := {|
  maxPendingItems := 4; maxPendingBytes := 45; client_maxFrameBytes := 100; maxMutationAgeMs := 1000; maxQueryAgeMs := 1000;
  reconnect_policy := MkRetryPolicy 10 100; client_session := "session"%string; credential_given := Some Anonymous;
  client_now n := num_of_Z (Z.of_nat n); client_random _ := num_of_Z 0; dial_fails _ := false; send_fails _ := false;
  text_bytes _ := 10 |}.

(** A subscription, a mutation, a channel, a stream, a query that is refused for
    its bytes, and one that is answered; then another observer of the channel,
    which is charged nothing, the end of the first one, and of the stream, and
    another stream. *)
Definition account_events : list ClientEvent :=
  let lobby observer := KChannel "lobby"%string (VObj []) None None observer in
  [KSubscribe query_subscription "lists"%string (VObj []); KMutation "add"%string (VObj []); lobby None; KStream (VObj []);
   KQuery "one"%string (VObj []); KUnsubscribe 1; KQuery "two"%string (VObj []); KOpened 1;
   KIncoming 1 (HandshakeFrame (Welcome AnonymousPrincipal "session"%string (num_of_Z 0)));
   KIncoming 1 (SessionFrame (SOk a_query (num_of_Z 5) (VBool true)));
   lobby (Some OnAny); KChannelClose 3 1; KStreamEnds 2; KStream VUndefined;
   KIncoming 1 (SessionFrame (SChannelEvent (num_of_Z 3) "said"%string VNull))].

Abbreviation account_new := (@ensureConnected account_options (@initial_client account_options)).2.
Abbreviation account_run := (@client_run account_options account_new account_events).

Lemma account_starts : @new_Client account_options = Ret account_new.
Proof. vm_compute. reflexivity. Qed.

Lemma account_shape : length (subscriptions account_run) = 0%nat /\ length (pending account_run) = 1%nat /\
  length (channels account_run) = 1%nat /\ length (streams account_run) = 1%nat /\ pendingBytes account_run = 30.
Proof. vm_compute. done. Qed.

(** Only the observer that is left is told. *)
Lemma account_told : channel_calls account_run = [Handled 3 3 "said"%string VNull].
Proof. vm_compute. reflexivity. Qed.

Lemma client_account_exact_witness :
  pendingItems account_run = 3 /\ pendingBytes account_run = 30 /\ pendingItems account_run <= 4 /\ pendingBytes account_run <= 45.
Proof.
  assert (Hb : forall v, 0 <= @text_bytes account_options v) by (intros v; cbn; lia).
  destruct (@client_account_exact account_options Hb account_new account_events account_starts) as (H1 & _ & H3 & H4).
  destruct account_shape as (S1 & S2 & S3 & S4 & S5). split; [|split; [exact S5|split; [exact H3|exact H4]]].
  rewrite S1, S2, S3, S4 in H1. exact H1.
Defined.

(** A client that fails for good tells its channels so, and then that they
    reconnect, which they will not. *)
Lemma failed_channel_reconnects :
  let k := @client_step account_options account_run (KIncoming 1 Oversized) in
  permanentFailure (session k) = true /\ group_state <$> jmap_get 3 (channels k) = Some ChannelReconnecting.
Proof. vm_compute. by split. Qed.
