(* ===== verification/ClientSession.v ===== *)
(** The client's side of the session protocol, as a machine the traffic of its
    sockets is checked against, and what always holds of the session. *)
From S2P Require Import Prelude Errors Limits Value Wire StableEncode Protocol ProtocolProps ProtocolSound Effects Uuid Retry Client ClientProps.
Local Open Scope Z_scope.

(** ** The protocol *)

(** What the server will take of the client. [Idle g]: no connection, [g] having
    been the last; [Awaiting g n]: the credential of the attempt [n] is presented
    and not confirmed. *)
Inductive Phase : Type :=
  | Idle (last : Z)
  | Dialing (g : Z)
  | Greeting (g : Z)
  | Open (g : Z)
  | Awaiting (g attempt : Z).

(** The phase is one of the connection [g]. *)
Definition phase_on (g : Z) (p : Phase) : Prop :=
  match p with Idle _ => False | Dialing g' | Greeting g' | Open g' | Awaiting g' _ => g' = g end.

(** A frame that acts for the principal of the session. *)
Definition is_operation (m : ClientSessionMessage) : bool := match m with CAuth _ _ | CPing => false | _ => true end.

Section protocol.
Context {options : ClientOptions}.
Implicit Types (k : Client) (s : Session) (p : Phase) (tr : list Traffic).

Inductive protocol : Phase -> Traffic -> Phase -> Prop :=
  | protocol_dial g : protocol (Idle g) (Dialed (g + 1)) (Dialing (g + 1))
  | protocol_hello g c text : encodeHello (Some c) = Ret text -> protocol (Dialing g) (Handed g text) (Greeting g)
  | protocol_welcome g : protocol (Greeting g) (Welcomed g) (Open g)
  | protocol_operation g m text : encodeClient m = Ret text -> is_operation m = true -> protocol (Open g) (Handed g text) (Open g)
  | protocol_ping g text : encodeClient CPing = Ret text -> protocol (Open g) (Handed g text) (Open g)
  | protocol_ping_awaiting g n text : encodeClient CPing = Ret text -> protocol (Awaiting g n) (Handed g text) (Awaiting g n)
  | protocol_present g id c text : encodeClient (CAuth (num_of_Z id) c) = Ret text -> protocol (Open g) (Handed g text) (Awaiting g id)
  | protocol_supersede g n id c text :
      encodeClient (CAuth (num_of_Z id) c) = Ret text -> protocol (Awaiting g n) (Handed g text) (Awaiting g id)
  | protocol_confirm g n : protocol (Awaiting g n) (Confirmed g n) (Open g)
  | protocol_retire p g : phase_on g p -> protocol p (Retired g) (Idle g).

Inductive accepts : list Traffic -> Phase -> Prop :=
  | accepts_nil : accepts [] (Idle 0)
  | accepts_snoc tr p t p' : accepts tr p -> protocol p t p' -> accepts (tr ++ [t]) p'.

(** ** The invariant *)

Definition at_rest s p : Prop := p = Idle (connectionGeneration s) /\ socketOpen s = false /\ ready s = false.

(** The phase of the traffic is what the session says. *)
Definition stands s p : Prop :=
  match socket s with
  | None => at_rest s p
  | Some g =>
      g = connectionGeneration s /\
      if ready s then socketOpen s = true /\ p = match authAttempt s with None => Open g | Some a => Awaiting g (attempt_id a) end
      else p = if socketOpen s then Greeting g else Dialing g
  end.

(** Within a step: the phase is one of the socket, if there is one. *)
Definition near s p : Prop :=
  match socket s with
  | None => at_rest s p
  | Some g => g = connectionGeneration s /\ phase_on g p
  end.

Lemma stands_near s p : stands s p -> near s p.
Proof.
  unfold stands, near. destruct (socket s) as [g|]; [|done]. intros [-> H]. split; [done|].
  destruct (ready s); [destruct H as [_ ->]; by destruct (authAttempt s)|subst p; by destruct (socketOpen s)].
Qed.

(** The frame that presents a credential can be sent. *)
Definition presentable (a : AuthAttempt) : Prop :=
  exists text bytes, encodeClient (CAuth (num_of_Z (attempt_id a)) (attempt_credential a)) = Ret text /\ frameBytes text connection = Ret bytes.

Record flags_ok s : Prop := {
  flags_socket : defined (socket s) = true ->
    closed s = false /\ permanentFailure s = false /\ authBlocked s = false /\ suspended s = false;
  flags_attempt a : authAttempt s = Some a ->
    closed s = false /\ permanentFailure s = false /\ authBlocked s = false /\ presentable a;
  flags_ready : ready s = true -> defined (authentication s) = true;
  flags_blocked : authBlocked s = true -> defined (blockingError s) = true;
  flags_failed : permanentFailure s = true -> defined (terminalError s) = true;
}.

Definition over s : bool := closed s || permanentFailure s.

Definition operation_text (text : value) : Prop := exists m, encodeClient m = Ret text /\ is_operation m = true.

Definition channels_ok k : Prop := forall i g, (i, g) ∈ channels k -> operation_text (group_frame g).

(** What is retained is operations; no subscription and no request is once the
    client is over. *)
Record demand_ok k : Prop := {
  demand_subscriptions i x : (i, x) ∈ subscriptions k -> operation_text (sub_frame x);
  demand_pending i r : (i, r) ∈ pending k -> operation_text (req_frame r);
  demand_channels : channels_ok k;
  demand_over : over (session k) = true -> subscriptions k = [] /\ pending k = [];
}.

Record session_ok k : Prop := {
  session_stands : exists p, accepts (traffic k) p /\ stands (session k) p;
  session_flags : flags_ok (session k);
  session_demand : demand_ok k;
}.

(** Operations may be sent, or there is nothing to send them on. *)
Definition may_send k : Prop := online k = true \/ socket (session k) = None.

Definition keeps_session k k' : Prop := session_ok k -> session_ok k'.
Definition keeps_sending k k' : Prop := session_ok k /\ may_send k -> session_ok k' /\ may_send k'.

#[export] Instance keeps_session_preorder : PreOrder keeps_session.
Proof. split; [by intros k H|]. intros a b c H1 H2 H. auto. Qed.
#[export] Instance keeps_sending_preorder : PreOrder keeps_sending.
Proof. split; [by intros k H|]. intros a b c H1 H2 H. auto. Qed.

(** ** Changes the invariant does not look at *)

Definition session_view s :=
  (socket s, socketOpen s, ready s, closed s, permanentFailure s, authBlocked s, suspended s, connectionGeneration s,
   authAttempt s, authentication s, blockingError s, terminalError s).

Lemma flags_view s s' : session_view s' = session_view s -> flags_ok s -> flags_ok s'.
Proof.
  unfold session_view. intros E [H1 H2 H3 H4 H5]. injection E as E1 E2 E3 E4 E5 E6 E7 E8 E9 E10 E11 E12.
  split; rewrite ?E1, ?E2, ?E3, ?E4, ?E5, ?E6, ?E7, ?E9, ?E10, ?E11, ?E12; auto.
Qed.

Lemma stands_view s s' p : session_view s' = session_view s -> stands s p -> stands s' p.
Proof.
  unfold session_view, stands, at_rest. intros E. injection E as E1 E2 E3 E4 E5 E6 E7 E8 E9 E10 E11 E12.
  by rewrite E1, E2, E3, E8, E9.
Qed.

Lemma session_ok_view k k' : session_view (session k') = session_view (session k) -> traffic k' = traffic k ->
  (demand_ok k -> demand_ok k') -> session_ok k -> session_ok k'.
Proof.
  intros E1 E2 Hd [(p & Hp & Hs) Hf Hk]. split; [|by eapply flags_view|auto]. exists p. rewrite E2. split; [done|]. by eapply stands_view.
Qed.

Lemma online_view k k' : session_view (session k') = session_view (session k) -> may_send k -> may_send k'.
Proof.
  unfold may_send, online, canSendOperations, session_view. intros E. injection E as E1 E2 E3 E4 E5 E6 E7 E8 E9 E10 E11 E12.
  by rewrite E1, E2, E3, E9.
Qed.

Lemma demand_same k k' : subscriptions k' = subscriptions k -> pending k' = pending k ->
  over (session k') = over (session k) -> channels k' = channels k -> demand_ok k -> demand_ok k'.
Proof. intros E1 E2 E3 E4 [H1 H2 H3 H4]. split; unfold channels_ok; rewrite ?E1, ?E2, ?E3, ?E4; done. Qed.

(** ** Computations that return, with what they leave *)

Definition does {A} (m : eff A) (P : A -> Client -> Prop) k : Prop := exists a k', m k = (Ret a, k') /\ P a k'.

Lemma does_ret {A} (a : A) P k : P a k -> does (mret a) P k.
Proof. intros H. by exists a, k. Qed.
Lemma does_modify f (P : unit -> Client -> Prop) k : P tt (f k) -> does (modify f) P k.
Proof. intros H. by exists tt, (f k). Qed.
Lemma does_bind {A B} (m : eff A) (f : A -> eff B) P k : does m (fun a k' => does (f a) P k') k -> does (m ≫= f) P k.
Proof. intros (a & k1 & E & b & k2 & E2 & H). exists b, k2. by rewrite run_bind, E. Qed.
Lemma does_get {A B} (f : Client -> A) (g : A -> eff B) P k : does (g (f k)) P k -> does (get f ≫= g) P k.
Proof. done. Qed.
Lemma does_mono {A} (m : eff A) (P P' : A -> Client -> Prop) k : does m P k -> (forall a k', P a k' -> P' a k') -> does m P' k.
Proof. intros (a & k' & E & H) Hm. exists a, k'. auto. Qed.
Lemma does_seq {A B} (m : eff A) (f : A -> eff B) (R : A -> Client -> Prop) P k :
  does m R k -> (forall a k', R a k' -> does (f a) P k') -> does (m ≫= f) P k.
Proof. intros H Hf. apply does_bind. eapply does_mono; [exact H|]. auto. Qed.
Lemma does_state {A} (m : eff A) (P : Client -> Prop) k : does m (fun _ => P) k -> P (m k).2.
Proof. intros (a & k' & E & H). by rewrite E. Qed.

(** The session but for what the invariant does not look at. *)
Definition aside s tr subs reqs k : Prop :=
  session_view (session k) = session_view s /\ traffic k = tr /\ subscriptions k = subs /\ pending k = reqs /\ channels_ok k.

Lemma aside_refl k : channels_ok k -> aside (session k) (traffic k) (subscriptions k) (pending k) k.
Proof. done. Qed.

Lemma update_session_does f s tr subs reqs k : aside s tr subs reqs k ->
  (forall s', session_view s' = session_view s -> session_view (f s') = session_view (f s)) ->
  does (update_session f) (fun _ => aside (f s) tr subs reqs) k.
Proof. intros (H1 & H2 & H3 & H4 & H5) Hf. apply does_modify. split; [by apply Hf|done]. Qed.

Lemma settle_attempt_does id r s tr subs reqs k : aside s tr subs reqs k -> does (settle_attempt id r) (fun _ => aside s tr subs reqs) k.
Proof.
  intros (H1 & H2 & H3 & H4 & H5). unfold settle_attempt. apply does_bind, does_modify, does_modify. split; [|done]. rewrite <- H1. cbn.
  destruct (sourcePull (session k)) as [[|id'|]|]; try done. by case_decide.
Qed.

Lemma reject_attempt_does error s tr subs reqs k : aside s tr subs reqs k ->
  does (reject_attempt error) (fun _ => aside (set_authAttempt None s) tr subs reqs) k.
Proof.
  intros H. unfold reject_attempt. apply does_get. destruct (authAttempt (session k)) as [a|] eqn:Ha.
  - eapply does_seq; [by apply settle_attempt_does|]. intros [] k1 H1. eapply update_session_does; [done|].
    unfold session_view. cbn. intros s' E. injection E as E1 E2 E3 E4 E5 E6 E7 E8 E9 E10 E11 E12. congruence.
  - apply does_ret. destruct H as (H1 & H2). split; [|done]. rewrite H1. unfold session_view in *. cbn.
    injection H1 as E1 E2 E3 E4 E5 E6 E7 E8 E9 E10 E11 E12. congruence.
Qed.

Lemma for_all_does {A} (f : A -> eff unit) (I : list A -> Client -> Prop) l k :
  (forall x l k, I (x :: l) k -> does (f x) (fun _ => I l) k) -> I l k -> does (for_all f l) (fun _ => I []) k.
Proof.
  intros Hf. revert k. induction l as [|x l IH]; intros k H; cbn; [by apply does_ret|].
  eapply does_seq; [by apply Hf|]. intros [] k1 H1. by apply IH.
Qed.

Lemma tell_all_does error s tr subs reqs k : aside s tr subs reqs k -> does (tell_all error) (fun _ => aside s tr subs reqs) k.
Proof.
  intros H. unfold tell_all. apply does_get. apply (for_all_does _ (fun _ => aside s tr subs reqs)); [|done].
  intros [id x] l k1 H1. by apply does_modify.
Qed.

Lemma drop_subscriptions_does s tr subs reqs k : aside s tr subs reqs k -> does drop_subscriptions (fun _ => aside s tr [] reqs) k.
Proof.
  intros H. unfold drop_subscriptions. apply does_get. eapply (does_seq _ _ (fun _ => aside s tr subs reqs)).
  - apply (for_all_does _ (fun _ => aside s tr subs reqs)); [|done]. intros [id x] l k1 H1. by apply does_modify.
  - intros [] k1 (H1 & H2 & H3 & H4 & H5). by apply does_modify.
Qed.

(** Every request of [l] is finished, or was before. *)
Lemma finish_all_does f s tr subs reqs k : aside s tr subs reqs k -> does (finish_all f) (fun _ => aside s tr subs []) k.
Proof.
  intros H. unfold finish_all. apply does_get. destruct H as (H1 & H2 & H3 & H4 & H5). rewrite H4.
  eapply does_mono; [apply (for_all_does _ (fun l k => exists reqs, aside s tr subs reqs k /\ forall i r, (i, r) ∈ reqs -> i ∈ l.*1))|].
  - intros [id r] l k1 (reqs1 & (A1 & A2 & A3 & A4 & A5) & Hl). unfold finishRequest. apply does_get. rewrite A4.
    destruct (jmap_get id reqs1) as [r1|] eqn:Hr.
    + apply does_bind, does_modify, does_bind, does_modify, does_modify. exists (jmap_delete id reqs1).
      split; [split; [done|]; cbn; by rewrite A4|]. intros i x [Hi Hin]%jmap_delete_elem. specialize (Hl i x Hin).
      rewrite fmap_cons, elem_of_cons in Hl. by destruct Hl.
    + apply does_ret. exists reqs1. split; [done|]. intros i x Hin. specialize (Hl i x Hin). rewrite fmap_cons, elem_of_cons in Hl.
      destruct Hl as [->|]; [|done]. apply jmap_get_None in Hr. destruct Hr. apply elem_of_fst. by exists x.
  - exists reqs. split; [done|]. intros i r Hin. apply elem_of_fst. by exists r.
  - intros [] k1 (reqs1 & H & Hl). destruct reqs1 as [|[i r] reqs1]; [done|]. specialize (Hl i r ltac:(by left)). by apply elem_of_nil in Hl.
Qed.

Lemma publish_does s tr subs reqs k : aside s tr subs reqs k -> does publishConnectionState (fun _ => aside s tr subs reqs) k.
Proof. intros H. by apply does_modify. Qed.

Lemma jmap_set_elem {A} (i : Z) (a : A) j b m : (j, b) ∈ jmap_set i a m -> (j, b) = (i, a) \/ (j, b) ∈ m.
Proof.
  induction m as [|[i' a'] m IH]; cbn; [rewrite elem_of_cons; intros [|H]; [tauto|by apply elem_of_nil in H]|].
  case_decide; rewrite !elem_of_cons; tauto.
Qed.

Lemma group_frames id f k : (forall g, group_frame (f g) = group_frame g) -> channels_ok k ->
  forall g, jmap_get id (channels k) = Some g -> channels_ok (set_channels (jmap_set id (f g) (channels k)) k).
Proof.
  intros Hf H g Hg i x [[= -> ->]|Hin]%jmap_set_elem; [|by eapply H]. rewrite Hf. eapply H. by apply jmap_get_Some_elem.
Qed.

Lemma update_group_does id f s tr subs reqs k : (forall g, group_frame (f g) = group_frame g) -> aside s tr subs reqs k ->
  does (update_group id f) (fun _ => aside s tr subs reqs) k.
Proof.
  intros Hf (H1 & H2 & H3 & H4 & H5). apply does_modify. destruct (jmap_get id (channels k)) as [g|] eqn:Hg; [|done].
  do 4 (split; [done|]). by apply group_frames.
Qed.

Lemma replace_does id st s tr subs reqs k : aside s tr subs reqs k -> does (replace id st) (fun _ => aside s tr subs reqs) k.
Proof.
  intros H. unfold replace. apply does_get. destruct (jmap_get id (channels k)); [|by apply does_ret].
  case_match; [by apply does_ret|]. eapply does_seq; [by apply update_group_does|]. intros [] k1 H1. by apply does_modify.
Qed.

Lemma connectionLost_does s tr subs reqs k : aside s tr subs reqs k -> does connectionLost (fun _ => aside s tr subs reqs) k.
Proof.
  intros H. unfold connectionLost. apply does_get. apply (for_all_does _ (fun _ => aside s tr subs reqs)); [|done].
  intros [id g] l k1 H1. eapply does_seq; [by apply update_group_does|]. intros [] k2 H2. by apply replace_does.
Qed.

Lemma channels_failAll_does error s tr subs reqs k : aside s tr subs reqs k ->
  does (channels_failAll error) (fun _ => aside s tr subs reqs) k.
Proof.
  intros H. unfold channels_failAll. apply does_get. apply (for_all_does _ (fun _ => aside s tr subs reqs)); [|done].
  intros [id g] l k1 H1. by apply replace_does.
Qed.

Lemma channels_close_does s tr subs reqs k : aside s tr subs reqs k -> does channels_close (fun _ => aside s tr subs reqs) k.
Proof.
  intros H. unfold channels_close. apply does_get. apply (for_all_does _ (fun _ => aside s tr subs reqs)); [|done].
  intros [id g] l k1 (H1 & H2 & H3 & H4 & H5). unfold releaseGroup. apply does_get.
  destruct (jmap_get id (channels k1)); [|by apply does_ret]. apply does_bind, does_modify, does_bind, does_modify, does_get, does_ret.
  do 4 (split; [done|]). intros i x [_ Hin]%jmap_delete_elem. by eapply H5.
Qed.

Lemma abort_streams_does s tr subs reqs k : aside s tr subs reqs k -> does abort_streams (fun _ => aside s tr subs reqs) k.
Proof.
  intros H. unfold abort_streams. apply does_get. apply (for_all_does _ (fun _ => aside s tr subs reqs)); [|done].
  intros [id b] l k1 H1. unfold end_stream. apply does_get. destruct (jmap_get id (streams k1)); [|by apply does_ret].
  by apply does_bind, does_modify, does_modify.
Qed.

(** A session whose socket is detached. *)
Definition detached s : Session := set_authentication None (set_ready false (set_socketOpen false (set_socket None s))).

Definition rests s tr : Prop := exists p, accepts tr p /\ at_rest s p.

Lemma detach_does s tr subs reqs k p : aside s tr subs reqs k -> accepts tr p -> near s p ->
  does detach (fun _ k' => exists tr', rests (detached s) tr' /\ aside (detached s) tr' (forget_events subs) reqs k') k.
Proof.
  intros (H1 & H2 & H3 & H4 & H5) Hp Hn. unfold detach. apply does_get. apply does_bind, does_modify.
  assert (Ev : session_view (detached (session k)) = session_view (detached s)).
  { unfold session_view in *. cbn. injection H1 as E1 E2 E3 E4 E5 E6 E7 E8 E9 E10 E11 E12. congruence. }
  assert (Es : socket (session k) = socket s) by (by injection H1). rewrite Es. unfold near in Hn. destruct (socket s) as [g|].
  - destruct Hn as [-> Hon]. apply does_bind, does_modify, does_bind, does_modify.
    eapply does_mono; [apply (connectionLost_does (detached s) (tr ++ [Retired (connectionGeneration s)]) (forget_events subs) reqs)|].
    + split; [exact Ev|]. cbn. by rewrite H2, H3.
    + intros u k' H. eexists. split; [|exact H]. exists (Idle (connectionGeneration s)).
      split; [by eapply accepts_snoc, protocol_retire|done].
  - destruct Hn as (-> & Ho & Hr). apply does_bind, does_ret, does_bind, does_modify.
    eapply does_mono; [apply (connectionLost_does (detached s) tr (forget_events subs) reqs)|].
    + split; [exact Ev|]. cbn. by rewrite H2, H3.
    + intros u k' H. eexists. split; [|exact H]. exists (Idle (connectionGeneration s)). by split.
Qed.

Lemma retire_does s tr subs reqs k p : aside s tr subs reqs k -> accepts tr p -> near s p ->
  does retireConnection (fun _ k' => exists tr', rests (detached s) tr' /\ aside (detached s) tr' (forget_events subs) reqs k') k.
Proof. intros H Hp Hn. unfold retireConnection. apply does_bind, does_modify. by eapply detach_does. Qed.

(** What is needed of a session that is about to end. *)
Definition ending k : Prop := exists p, accepts (traffic k) p /\ near (session k) p.

Lemma session_ok_ending k : session_ok k -> ending k.
Proof. intros [(p & Hp & Hs) _ _]. exists p. split; [done|]. by apply stands_near. Qed.

Lemma rests_stands s tr : socket s = None -> rests s tr -> exists p, accepts tr p /\ stands s p.
Proof. intros Hs (p & Hp & Hr). exists p. split; [done|]. unfold stands. by rewrite Hs. Qed.

Lemma at_rest_view s s' p : session_view s' = session_view s -> at_rest s p -> at_rest s' p.
Proof. unfold session_view, at_rest. intros E. injection E as E1 E2 E3 E4 E5 E6 E7 E8 E9 E10 E11 E12. by rewrite E2, E3, E8. Qed.

(** What is retained is in order, whatever became of the session. *)
Definition demand_of s (subs : list (Z * Subscription)) (reqs : list (Z * PendingRequest)) : Prop :=
  (forall i x, (i, x) ∈ subs -> operation_text (sub_frame x)) /\ (forall i r, (i, r) ∈ reqs -> operation_text (req_frame r)) /\
  (over s = true -> subs = [] /\ reqs = []).

Lemma over_view s s' : session_view s' = session_view s -> over s' = over s.
Proof. unfold session_view, over. intros E. injection E as E1 E2 E3 E4 E5 E6 E7 E8 E9 E10 E11 E12. by rewrite E4, E5. Qed.

Lemma demand_aside s tr subs reqs k : aside s tr subs reqs k -> demand_of s subs reqs -> demand_ok k.
Proof. intros (H1 & H2 & H3 & H4 & H5) (D1 & D2 & D3). split; rewrite ?H3, ?H4, ?(over_view _ _ H1); done. Qed.

Lemma forget_texts i x subs : (i, x) ∈ forget_events subs -> exists x', (i, x') ∈ subs /\ sub_frame x = sub_frame x'.
Proof.
  intros [[j x'] [[= -> ->] Hin]]%list_elem_of_fmap. exists x'. split; [done|]. by case_decide.
Qed.

Lemma demand_forget s s' subs reqs : over s' = over s -> demand_of s subs reqs -> demand_of s' (forget_events subs) reqs.
Proof.
  intros Ho (D1 & D2 & D3). split; [|split; [done|]].
  - intros i x (x' & Hin & ->)%forget_texts. by eapply D1.
  - rewrite Ho. intros H. by destruct (D3 H) as [-> ->].
Qed.

Lemma demand_finished s subs reqs : demand_of s subs reqs -> demand_of s subs [].
Proof. intros (D1 & D2 & D3). split; [done|]. split; [intros i r H; by apply elem_of_nil in H|]. intros H. by destruct (D3 H) as [-> _]. Qed.

Lemma demand_nothing s : demand_of s [] [].
Proof. split; [|split; [|done]]; intros i x H; by apply elem_of_nil in H. Qed.

(** A session without a socket is in order. *)
Lemma rest_ok s tr subs reqs k : aside s tr subs reqs k -> rests s tr -> socket s = None -> flags_ok s -> demand_of s subs reqs ->
  session_ok k.
Proof.
  intros H Hr Hs Hf Hd. pose proof H as (H1 & H2 & H3 & H4 & H5). split; [|by eapply flags_view|by eapply demand_aside].
  rewrite H2. destruct (rests_stands s tr Hs Hr) as (p & Hp & Hst). exists p. split; [done|]. by eapply stands_view.
Qed.

(** A session whose phase may be behind. *)
Record loose k : Prop := {
  loose_ending : ending k;
  loose_flags : flags_ok (session k);
  loose_demand : demand_ok k;
}.

Lemma session_ok_loose k : session_ok k -> loose k.
Proof. intros H. split; [by apply session_ok_ending|apply H..]. Qed.

Lemma loose_rests k : loose k -> socket (session k) = None -> session_ok k.
Proof.
  intros [(p & Hp & Hn) Hf Hd] Hs. split; [|done..]. exists p. split; [done|]. unfold near, stands in *. by rewrite Hs in *.
Qed.

Lemma over_rests k : flags_ok (session k) -> over (session k) = true -> socket (session k) = None.
Proof.
  intros [Hf _ _ _ _] Ho. destruct (socket (session k)); [|done]. destruct (Hf eq_refl) as (E1 & E2 & _). unfold over in Ho.
  by rewrite E1, E2 in Ho.
Qed.

Lemma failPermanently_does error k : loose k ->
  does (failPermanently error) (fun _ k' => session_ok k' /\ socket (session k') = None) k.
Proof.
  intros H. unfold failPermanently. apply does_get.
  destruct (permanentFailure (session k) || closed (session k)) eqn:Ho.
  { assert (Hs : socket (session k) = None) by (apply over_rests; [apply H|unfold over; by rewrite orb_comm]).
    apply does_ret. split; [by apply loose_rests|done]. }
  destruct H as [(p & Hp & Hn) Hf Hd]. apply does_bind, does_modify.
  eapply does_seq; [apply reject_attempt_does, (aside_refl _), Hd|]. intros [] k1 H1.
  eapply does_seq; [by eapply finish_all_does|]. intros [] k2 H2.
  eapply does_seq; [by eapply tell_all_does|]. intros [] k3 H3.
  eapply does_seq; [by eapply channels_failAll_does|]. intros [] k3' H3'.
  eapply does_seq; [by eapply drop_subscriptions_does|]. intros [] k4 H4.
  eapply does_seq; [by eapply retire_does|]. intros [] k5 (tr & Hr & H5).
  eapply does_mono; [by eapply publish_does|]. intros [] k6 H6. split.
  - eapply rest_ok; [exact H6|exact Hr|done| |apply demand_nothing]. split; try done. by apply Hf.
  - destruct H6 as (E & _). by injection E.
Qed.

(** ** Steps the invariant does not see *)

Definition still k k' : Prop :=
  session_view (session k') = session_view (session k) /\ traffic k' = traffic k /\ (demand_ok k -> demand_ok k').

#[export] Instance still_preorder : PreOrder still.
Proof. split; [done|]. intros a b c (A1 & A2 & A3) (B1 & B2 & B3). split; [congruence|]. split; [congruence|auto]. Qed.

Lemma still_session_ok k k' : still k k' -> session_ok k -> session_ok k'.
Proof. intros (H1 & H2 & H3). exact (session_ok_view _ _ H1 H2 H3). Qed.

Lemma still_loose k k' : still k k' -> loose k -> loose k'.
Proof.
  intros (H1 & H2 & H3) [(p & Hp & Hn) Hf Hd]. split; [|by eapply flags_view|auto]. exists p. rewrite H2. split; [done|].
  unfold near in *. pose proof H1 as E. unfold session_view in E. injection E as E1 E2 E3 E4 E5 E6 E7 E8 E9 E10 E11 E12.
  rewrite E1, E8. destruct (socket (session k)); [done|]. by eapply at_rest_view.
Qed.

Lemma still_session {A} (m : eff A) : keeps still m -> keeps keeps_session m.
Proof. intros H k Hk. exact (still_session_ok _ _ (H k) Hk). Qed.

Lemma still_sending {A} (m : eff A) : keeps still m -> keeps keeps_sending m.
Proof. intros H k [Hk Hm]. split; [exact (still_session_ok _ _ (H k) Hk)|]. eapply online_view; [apply H|exact Hm]. Qed.

Lemma still_modify f : (forall k, session_view (session (f k)) = session_view (session k) /\ traffic (f k) = traffic k /\
  subscriptions (f k) = subscriptions k /\ pending (f k) = pending k /\ channels (f k) = channels k) -> keeps still (modify f).
Proof.
  intros H. apply keeps_modify. intros k. destruct (H k) as (H1 & H2 & H3 & H4 & H5). split; [done|]. split; [done|].
  intros Hd. eapply demand_same; [exact H3|exact H4| |exact H5|exact Hd]. by apply over_view.
Qed.

Lemma still_update_session f : (forall s, session_view (f s) = session_view s) -> keeps still (update_session f).
Proof. intros H. apply still_modify. intros k. by split; [apply H|]. Qed.

Lemma still_update_subscription id f : (forall x, operation_text (sub_frame x) -> operation_text (sub_frame (f x))) ->
  keeps still (update_subscription id f).
Proof.
  intros Hf. apply keeps_modify. intros k. destruct (jmap_get id (subscriptions k)) as [x|] eqn:Hx; [|done].
  split; [done|]. split; [done|]. intros [D1 D2 D4 D3]. split; cbn; [|done|done|].
  - intros i y [[= -> ->]|Hin]%jmap_set_elem; [|by eapply D1]. apply Hf. eapply D1. by apply jmap_get_Some_elem.
  - intros Ho. destruct (D3 Ho) as [E _]. by rewrite E in Hx.
Qed.

Lemma still_update_request id f : (forall r, req_frame (f r) = req_frame r) -> keeps still (update_request id f).
Proof.
  intros Hf. apply keeps_modify. intros k. destruct (jmap_get id (pending k)) as [r|] eqn:Hr; [|done].
  split; [done|]. split; [done|]. intros [D1 D2 D4 D3]. split; cbn; [done| |done|].
  - intros i y [[= -> ->]|Hin]%jmap_set_elem; [|by eapply D2]. rewrite Hf. eapply D2. by apply jmap_get_Some_elem.
  - intros Ho. destruct (D3 Ho) as [_ E]. by rewrite E in Hr.
Qed.

Lemma still_update_group id f : (forall g, group_frame (f g) = group_frame g) -> keeps still (update_group id f).
Proof.
  intros Hf. apply keeps_modify. intros k. destruct (jmap_get id (channels k)) as [g|] eqn:Hg; [|done].
  split; [done|]. split; [done|]. intros [D1 D2 D4 D3]. split; cbn; try done. by apply group_frames.
Qed.

Lemma still_finishRequest id o : keeps still (finishRequest id o).
Proof.
  unfold finishRequest. apply keeps_get_bind. intros k. destruct (jmap_get id (pending k)) as [r|] eqn:Hr; [|done].
  rewrite run_modify. unfold releasePersistent. rewrite run_modify. unfold modify. cbn. split; [done|]. split; [done|].
  intros [D1 D2 D4 D3]. split; cbn; [done| |done|].
  - intros i x [_ Hin]%jmap_delete_elem. by eapply D2.
  - intros Ho. destruct (D3 Ho) as [_ E]. by rewrite E in Hr.
Qed.
End protocol.

Ltac still_change :=
  match goal with
  | |- keeps still (modify _) => apply still_modify; intros; cbn; repeat (case_match; cbn); by repeat split
  | |- keeps still (update_session _) => apply still_update_session; intros; cbn; repeat (case_match; cbn); reflexivity
  | |- keeps still (update_request _ _) => apply still_update_request; reflexivity
  | |- keeps still (update_subscription _ _) => apply still_update_subscription; intros; assumption
  | |- keeps still (update_group _ _) => apply still_update_group; intros; repeat case_match; reflexivity
  | |- keeps _ (for_all _ _) => apply keeps_for_all; [typeclasses eauto|intros]
  end.

Ltac still_tac := repeat first [solve [eauto with keep nocore]|still_change|keeps_split].

#[local] Hint Resolve still_finishRequest : keep.

Section steps.
Context {options : ClientOptions}.
Implicit Types (k : Client) (s : Session) (p : Phase) (tr : list Traffic).

Lemma still_same k k' : session k' = session k -> traffic k' = traffic k -> subscriptions k' = subscriptions k ->
  pending k' = pending k -> channels k' = channels k -> still k k'.
Proof.
  intros E1 E2 E3 E4 E5. unfold still. rewrite E1. split; [done|]. split; [done|]. apply demand_same; [done..| |done]. by rewrite E1.
Qed.

Lemma still_raw_clock : keeps still raw_clock.
Proof. intros k. by apply still_same. Qed.
#[local] Hint Resolve still_raw_clock : keep.
Lemma still_clock : keeps still clock.
Proof. unfold clock. still_tac. Qed.
Lemma still_random_value : keeps still random_value.
Proof. intros k. by apply still_same. Qed.
Lemma still_new_uuid nowMs : keeps still (new_uuid nowMs).
Proof. intros k. unfold new_uuid, zoom. destruct (create _ _ _). by apply still_same. Qed.
#[local] Hint Resolve still_clock still_random_value still_new_uuid : keep.

Lemma still_call_back id c : keeps still (call_back id c).
Proof. unfold call_back. still_tac. Qed.
#[local] Hint Resolve still_call_back : keep.
Lemma still_releasePersistent bytes : keeps still (releasePersistent bytes).
Proof. unfold releasePersistent. still_tac. Qed.
#[local] Hint Resolve still_releasePersistent : keep.
Lemma still_allocateId : keeps still allocateId.
Proof. unfold allocateId. still_tac. Qed.
#[local] Hint Resolve still_allocateId : keep.
Lemma still_assertUsable : keeps still assertUsable.
Proof. unfold assertUsable. still_tac. Qed.
#[local] Hint Resolve still_assertUsable : keep.
Lemma still_assertOpen : keeps still assertOpen.
Proof. unfold assertOpen. still_tac. Qed.
#[local] Hint Resolve still_assertOpen : keep.
Lemma still_publishConnectionState : keeps still publishConnectionState.
Proof. unfold publishConnectionState. still_tac. Qed.
#[local] Hint Resolve still_publishConnectionState : keep.
Lemma still_settle_attempt id r : keeps still (settle_attempt id r).
Proof. unfold settle_attempt. still_tac. Qed.
#[local] Hint Resolve still_settle_attempt : keep.
Lemma still_finish_all f : keeps still (finish_all f).
Proof. unfold finish_all. still_tac. Qed.
#[local] Hint Resolve still_finish_all : keep.
Lemma still_tell_all error : keeps still (tell_all error).
Proof. unfold tell_all. still_tac. Qed.
#[local] Hint Resolve still_tell_all : keep.
Lemma still_pullCredentialSource : keeps still pullCredentialSource.
Proof. unfold pullCredentialSource. still_tac. Qed.
#[local] Hint Resolve still_pullCredentialSource : keep.
Lemma still_credential_expired w : keeps still (credential_expired w).
Proof. unfold credential_expired. still_tac. Qed.
#[local] Hint Resolve still_credential_expired : keep.
Lemma still_acceptedCredential : keeps still acceptedCredential.
Proof. unfold acceptedCredential. still_tac. Qed.
#[local] Hint Resolve still_acceptedCredential : keep.
Lemma still_finish_if_converged id r o : keeps still (finish_if_converged id r o).
Proof. unfold finish_if_converged. still_tac. Qed.
#[local] Hint Resolve still_finish_if_converged : keep.
Lemma still_advanceConvergence id v : keeps still (advanceConvergence id v).
Proof. unfold advanceConvergence. still_tac. Qed.
#[local] Hint Resolve still_advanceConvergence : keep.
Lemma still_demandFreshPull : keeps still demandFreshPull.
Proof. unfold demandFreshPull. still_tac. Qed.
#[local] Hint Resolve still_demandFreshPull : keep.
Lemma still_reservePersistent frame r : keeps still (reservePersistent frame r).
Proof. unfold reservePersistent. still_tac. Qed.
#[local] Hint Resolve still_reservePersistent : keep.
Lemma still_armSubscriptionRetry id : keeps still (armSubscriptionRetry id).
Proof. unfold armSubscriptionRetry. still_tac. Qed.
#[local] Hint Resolve still_armSubscriptionRetry : keep.
Lemma still_replace id st : keeps still (replace id st).
Proof. unfold replace. still_tac. Qed.
#[local] Hint Resolve still_replace : keep.
Lemma still_connectionLost : keeps still connectionLost.
Proof. unfold connectionLost. still_tac. Qed.
#[local] Hint Resolve still_connectionLost : keep.
Lemma still_channels_failAll error : keeps still (channels_failAll error).
Proof. unfold channels_failAll. still_tac. Qed.
#[local] Hint Resolve still_channels_failAll : keep.
Lemma still_allocateHandle : keeps still allocateHandle.
Proof. unfold allocateHandle. still_tac. Qed.
#[local] Hint Resolve still_allocateHandle : keep.
Lemma still_channel_listen id o l : keeps still (channel_listen id o l).
Proof. unfold channel_listen, update_observer. still_tac. Qed.
#[local] Hint Resolve still_channel_listen : keep.
Lemma still_channel_unlisten id o l : keeps still (channel_unlisten id o l).
Proof. unfold channel_unlisten, update_observer. still_tac. Qed.
#[local] Hint Resolve still_channel_unlisten : keep.
Lemma still_channel_attempted id epoch : keeps still (channel_attempted id epoch).
Proof. unfold channel_attempted. still_tac. Qed.
#[local] Hint Resolve still_channel_attempted : keep.
Lemma still_channel_ready id epoch : keeps still (channel_ready id epoch).
Proof. unfold channel_ready. still_tac. Qed.
#[local] Hint Resolve still_channel_ready : keep.
Lemma still_channel_rejected id epoch error : keeps still (channel_rejected id epoch error).
Proof. unfold channel_rejected. still_tac. Qed.
#[local] Hint Resolve still_channel_rejected : keep.
Lemma still_channel_failed id error : keeps still (channel_failed id error).
Proof. unfold channel_failed. still_tac. Qed.
#[local] Hint Resolve still_channel_failed : keep.
Lemma still_channel_event id event payload : keeps still (channel_event id event payload).
Proof. unfold channel_event. still_tac. Qed.
#[local] Hint Resolve still_channel_event : keep.
Lemma still_stream args : keeps still (stream args).
Proof. unfold stream. still_tac. Qed.
#[local] Hint Resolve still_stream : keep.
Lemma still_end_stream id : keeps still (end_stream id).
Proof. unfold end_stream. still_tac. Qed.
#[local] Hint Resolve still_end_stream : keep.
Lemma still_abort_streams : keeps still abort_streams.
Proof. unfold abort_streams. still_tac. Qed.
#[local] Hint Resolve still_abort_streams : keep.

(** ** Dialing and losing a connection *)

Lemma wp_keeps {A} (R : Client -> Client -> Prop) (m : eff A) (P : Client -> Prop) k :
  keeps R m -> (forall k', R k k' -> P k') -> wp m (fun _ => P) k.
Proof. intros Hm H. apply H, Hm. Qed.

(** A computation, and what is known of it, however it ends. *)
Lemma wp_then {A B} (m : eff A) (f : A -> eff B) (P P' : Client -> Prop) k :
  wp m (fun _ => P) k -> (forall k', P k' -> P' k') -> (forall a k', P k' -> wp (f a) (fun _ => P') k') -> wp (m ≫= f) (fun _ => P') k.
Proof. intros Hm Ht Hf. eapply wp_seq; [exact Hm| |]; auto. Qed.

Lemma wp_unit {A} (m : eff A) (P : Client -> Prop) k : wp m (fun _ => P) k -> wp (_ ← m; mret tt) (fun _ => P) k.
Proof. intros H. by eapply wp_then; [exact H| |]. Qed.

Lemma does_wp {A} (m : eff A) (P : A -> Client -> Prop) (P' : Client -> Prop) k :
  does m P k -> (forall a k', P a k' -> P' k') -> wp m (fun _ => P') k.
Proof. intros (a & k' & E & H) HP. unfold wp. rewrite E. by eapply HP. Qed.

Lemma wp_after {A B} (m : eff A) (f : A -> eff B) (P : A -> Client -> Prop) (Q : exc js_error B -> Client -> Prop) k :
  does m P k -> (forall a k', P a k' -> wp (f a) Q k') -> wp (m ≫= f) Q k.
Proof. intros (a & k' & E & H) Hf. apply wp_bind. unfold wp at 1. rewrite E. by apply Hf. Qed.

Definition keeps_idle k k' : Prop :=
  session_ok k /\ socket (session k) = None -> session_ok k' /\ socket (session k') = None.

#[export] Instance keeps_idle_preorder : PreOrder keeps_idle.
Proof. split; [by intros k H|]. intros a b c H1 H2 H. auto. Qed.

Lemma still_socket k k' : still k k' -> socket (session k') = socket (session k).
Proof. intros (E & _). by injection E. Qed.

Lemma still_idle {A} (m : eff A) : keeps still m -> keeps keeps_idle m.
Proof. intros H k [Hk Hs]. split; [exact (still_session_ok _ _ (H k) Hk)|]. by rewrite (still_socket _ _ (H k)). Qed.

Lemma idle_failPermanently error : keeps keeps_idle (failPermanently error).
Proof. intros k [Hk Hs]. by apply (does_state _ (fun k' => session_ok k' /\ socket (session k') = None)), failPermanently_does, session_ok_loose. Qed.

Lemma session_failPermanently error : keeps keeps_session (failPermanently error).
Proof.
  intros k Hk. eapply (does_state _ session_ok), does_mono; [by apply failPermanently_does, session_ok_loose|]. by intros [] k' [H _].
Qed.

#[local] Hint Resolve still_session still_sending still_idle idle_failPermanently session_failPermanently : keep.

Lemma idle_scheduleReconnect : keeps keeps_idle scheduleReconnect.
Proof. unfold scheduleReconnect. repeat first [solve [eauto with keep nocore]|apply still_idle; still_change|keeps_split]. Qed.
#[local] Hint Resolve idle_scheduleReconnect : keep.

Lemma session_scheduleSourceRetry : keeps keeps_session scheduleSourceRetry.
Proof. unfold scheduleSourceRetry. repeat first [solve [eauto with keep nocore]|apply still_session; still_change|keeps_split]. Qed.
#[local] Hint Resolve session_scheduleSourceRetry : keep.

Definition may_dial k : Prop :=
  session_ok k /\ socket (session k) = None /\ closed (session k) = false /\ permanentFailure (session k) = false /\
  authBlocked (session k) = false /\ suspended (session k) = false.

Lemma still_may_dial k k' : still k k' -> may_dial k -> may_dial k'.
Proof.
  intros H (H1 & H2 & H3 & H4 & H5 & H6). split; [by eapply still_session_ok|]. destruct H as (E & _).
  unfold session_view in E. injection E as E1 E2 E3 E4 E5 E6 E7 E8 E9 E10 E11 E12. by rewrite E1, E4, E5, E6, E7.
Qed.

Lemma dial_ok k : may_dial k -> wp dial (fun _ => session_ok) k.
Proof.
  intros Hd. unfold dial. apply wp_bind, wp_modify. set (k1 := set_session _ k).
  assert (Hd1 : may_dial k1) by (eapply still_may_dial; [|exact Hd]; by apply (still_modify (fun k => set_session (clearReconnectTimer (session k)) k))).
  clearbody k1. apply wp_bind, wp_get. case_match.
  - eapply wp_keeps; [exact idle_scheduleReconnect|]. intros k2 H2. by apply H2; destruct Hd1 as (? & ? & _).
  - apply wp_bind, wp_get. apply wp_bind, wp_modify, wp_modify. destruct Hd1 as ([(p & Hp & Hs) [F1 F2 F3 F4 F5] Hk] & E1 & E2 & E3 & E4 & E5).
    unfold stands in Hs. rewrite E1 in Hs. destruct Hs as (-> & Ho & Hr). split; [|by split|].
    + exists (Dialing (connectionGeneration (session k1) + 1)). split; [by eapply accepts_snoc, protocol_dial|].
      unfold stands. cbn. split; [done|]. by rewrite Hr, Ho.
    + eapply (demand_same k1); done.
Qed.

Lemma session_ensureConnected : keeps keeps_session ensureConnected.
Proof.
  unfold ensureConnected. apply keeps_get_bind. intros k Hk.
  destruct (closed _ || _ || _ || _ || _) eqn:Hc; [done|]. repeat (apply orb_false_iff in Hc as [Hc ?]).
  assert (Hd : may_dial k) by (split; [done|]; split; [by destruct (socket (session k))|done]).
  destruct (credential (session k)); [|by apply still_session; [still_tac|]].
  apply (wp_then _ _ may_dial); [|by intros k' [? _]|].
  { eapply wp_keeps; [apply still_credential_expired|]. intros k' H'. by eapply still_may_dial. }
  intros expired k1 Hd1. destruct expired.
  { eapply wp_keeps; [apply still_pullCredentialSource|]. intros k' H'. eapply still_session_ok; [done|by destruct Hd1]. }
  apply (wp_then _ _ may_dial); [|by intros k' [? _]|].
  { eapply wp_keeps; [apply still_clock|]. intros k' H'. by eapply still_may_dial. }
  intros now k2 Hd2. case_decide; [|by apply dial_ok].
  eapply wp_keeps; [exact idle_scheduleReconnect|]. intros k3 G. by apply G; destruct Hd2 as (? & ? & _).
Qed.
#[local] Hint Resolve session_ensureConnected : keep.

(** The loss of a connection, from a session whose phase may be behind. *)
Lemma handleClose_ok g k : loose k -> socket (session k) = Some g ->
  wp (handleClose g) (fun _ k' => session_ok k' /\ socket (session k') = None) k.
Proof.
  intros [(p & Hp & Hn) Hf [D1 D2 D4 D3]] Hs. unfold handleClose. apply wp_bind, wp_get. rewrite bool_decide_true by done. cbn [negb].
  apply wp_bind, wp_modify. set (k1 := set_session _ k).
  assert (H1 : aside (session k) (traffic k) (subscriptions k) (pending k) k1) by done.
  eapply wp_after; [exact (detach_does _ _ _ _ _ _ H1 Hp Hn)|]. intros [] k2 (tr & Hr & H2).
  assert (Hk2 : session_ok k2 /\ socket (session k2) = None).
  { split; [|destruct H2 as (E2 & _); by injection E2]. eapply rest_ok; [exact H2|exact Hr|done| |by eapply demand_forget].
    destruct Hf as [F1 F2 F3 F4 F5]. split; try done. }
  match goal with |- wp ?m _ _ => assert (G : keeps keeps_idle m); [|apply G, Hk2] end.
  repeat first [solve [eauto with keep nocore]|still_change|keeps_split].
Qed.

(** ** Sending *)

(** A frame the protocol takes leads to where the session stands; a socket that
    throws is lost. *)
Lemma sendText_ok text k : loose k ->
  (forall g, socket (session k) = Some g -> socketOpen (session k) = true ->
     exists p p', accepts (traffic k) p /\ protocol p (Handed g text) p' /\ stands (session k) p') ->
  (socketOpen (session k) = false -> session_ok k) ->
  wp (sendText text) (fun _ k' => session_ok k' /\ (socket (session k') = None \/ session_view (session k') = session_view (session k))) k.
Proof.
  intros Hl Hnext Hclosed. unfold sendText. apply wp_bind, wp_get. destruct (socket (session k)) as [g|] eqn:Hs.
  2: { apply wp_ret. split; [by apply loose_rests|by left]. }
  destruct (socketOpen (session k)) eqn:Ho; cbn [negb]; [|apply wp_ret; split; [by apply Hclosed|by right]].
  apply wp_bind, wp_get, wp_bind, wp_modify. set (k1 := set_k_sends _ k).
  assert (H1 : still k k1) by by apply still_same. case_match.
  - eapply (wp_then _ _ (fun k' => session_ok k' /\ socket (session k') = None));
      [apply handleClose_ok; [by eapply still_loose|done]|by intros k' [? ?]; auto|].
    intros u k' [H2 H3]. apply wp_ret. split; [done|by left].
  - apply wp_bind, wp_modify, wp_ret. destruct (Hnext g eq_refl eq_refl) as (p & p' & Hp & Hpr & Hst). split; [|by right].
    split; [exists p'; split; [by eapply accepts_snoc|done]|by apply Hl|]. eapply (demand_same k); [done..|by apply Hl].
Qed.

Lemma online_stands k g : session_ok k -> online k = true -> socket (session k) = Some g ->
  exists p, accepts (traffic k) p /\ p = Open g /\ stands (session k) p.
Proof.
  intros [(p & Hp & Hst) _ _] Ho Hs. unfold online, canSendOperations in Ho. repeat (apply andb_true_iff in Ho as [Ho ?]).
  exists p. split; [done|]. split; [|done]. unfold stands in Hst. rewrite Hs in Hst. destruct Hst as [-> Hst].
  destruct (ready (session k)); [|done]. destruct Hst as [_ ->]. by destruct (authAttempt (session k)).
Qed.

Lemma sending_sendText text : operation_text text -> keeps keeps_sending (sendText text).
Proof.
  intros (m & Hm & Hop) k [Hk Hmay]. unfold wp in *.
  assert (H : wp (sendText text) (fun _ k' => session_ok k' /\ (socket (session k') = None \/ session_view (session k') = session_view (session k))) k).
  { apply sendText_ok; [by apply session_ok_loose| |done]. intros g Hs Ho. destruct Hmay as [Hon|E]; [|by rewrite E in Hs].
    destruct (online_stands k g Hk Hon Hs) as (p & Hp & -> & Hst). exists (Open g), (Open g). split; [done|]. split; [|done].
    by eapply protocol_operation. }
  destruct H as [H1 [H2|H2]]; (split; [exact H1|]); [by right|]. by eapply online_view.
Qed.

Lemma sending_sendFrame m : is_operation m = true -> keeps keeps_sending (sendFrame m).
Proof.
  intros Hm. unfold sendFrame. intros k. unfold lift. rewrite run_bind. destruct (encodeClient m) as [text|e] eqn:E; [|done].
  rewrite run_bind. destruct (frameBytes text connection); [|done]. revert k.
  match goal with |- forall k, keeps_sending k (?m k).2 => change (keeps keeps_sending m) end.
  keeps_split; [apply sending_sendText; by exists m|apply (keeps_ret _)].
Qed.
#[local] Hint Extern 1 (keeps keeps_sending (sendFrame _)) => apply sending_sendFrame; reflexivity : keep.

Lemma session_get_online {A} (F : bool -> eff A) :
  keeps keeps_sending (F true) -> keeps keeps_session (F false) -> keeps keeps_session (get online ≫= F).
Proof.
  intros Ht Hf. apply keeps_get_bind. intros k Hk. destruct (online k) eqn:Ho; [|by apply Hf]. by apply Ht; split; [|left].
Qed.

Lemma sending_channels_send frame : operation_text frame -> keeps keeps_sending (channels_send frame).
Proof. intros H. unfold channels_send. keeps_split; [apply (keeps_lift _)|by apply sending_sendText]. Qed.

Lemma encodeChannel_operation m frame : encodeChannelOrReject m = Ret frame -> is_operation m = true -> operation_text frame.
Proof.
  unfold encodeChannelOrReject. intros He Hm. exists m. split; [|done]. destruct (encodeClient m) as [f|e]; [done|]. by destruct e.
Qed.

Lemma sending_channels_sendFrame m : is_operation m = true -> keeps keeps_sending (channels_sendFrame m).
Proof.
  intros Hm k. unfold channels_sendFrame, lift. rewrite run_bind. destruct (encodeChannelOrReject m) as [frame|e] eqn:E; [|done].
  apply sending_channels_send. by eapply encodeChannel_operation.
Qed.
#[local] Hint Extern 1 (keeps keeps_sending (channels_sendFrame _)) => apply sending_channels_sendFrame; reflexivity : keep.

Lemma sending_sendRequest id : keeps keeps_sending (sendRequest id).
Proof.
  unfold sendRequest. apply keeps_get_bind. intros k [Hk Hm]. destruct (jmap_get id (pending k)) as [r|] eqn:Hr; [|done].
  assert (Ht : operation_text (req_frame r)) by (eapply (demand_pending k); [apply Hk|by apply jmap_get_Some_elem]).
  match goal with |- session_ok (?m k).2 /\ _ => assert (G : keeps keeps_sending m); [|by apply G] end.
  repeat first [solve [eauto using sending_sendText with keep nocore]|apply still_sending; still_change|keeps_split].
Qed.
#[local] Hint Resolve sending_sendRequest : keep.

Lemma sending_sendSubscription id : keeps keeps_sending (sendSubscription id).
Proof.
  unfold sendSubscription. apply keeps_get_bind. intros k [Hk Hm]. destruct (jmap_get id (subscriptions k)) as [x|] eqn:Hx; [|done].
  assert (Ht : operation_text (sub_frame x)) by (eapply (demand_subscriptions k); [apply Hk|by apply jmap_get_Some_elem]).
  match goal with |- session_ok (?m k).2 /\ _ => assert (G : keeps keeps_sending m); [|by apply G] end.
  repeat first [solve [eauto using sending_sendText with keep nocore]|apply still_sending; still_change|keeps_split].
Qed.
#[local] Hint Resolve sending_sendSubscription : keep.

Ltac change_tac := first [match goal with |- keeps _ (for_all _ _) => apply keeps_for_all; [typeclasses eauto|intros] end
  |apply still_sending; still_change|apply still_session; still_change|apply still_idle; still_change].
Ltac session_tac := repeat first [progress cbn [negb andb when]|solve [eauto with keep nocore]|apply session_get_online|change_tac|keeps_split].

Lemma sending_sendProcedureCancel id r : keeps keeps_sending (sendProcedureCancel id r).
Proof. unfold sendProcedureCancel. session_tac. Qed.
#[local] Hint Resolve sending_sendProcedureCancel : keep.

Lemma session_sendProcedureCancel id r : keeps keeps_session (sendProcedureCancel id r).
Proof.
  intros k Hk. destruct (online k) eqn:Ho; [by apply sending_sendProcedureCancel; split; [|left]|].
  unfold sendProcedureCancel. rewrite run_get. unfold online in Ho. rewrite Ho, andb_false_r. done.
Qed.
#[local] Hint Resolve session_sendProcedureCancel : keep.

Lemma sending_expireRequest id : keeps keeps_sending (expireRequest id).
Proof. unfold expireRequest. session_tac. Qed.
Lemma session_expireRequest id : keeps keeps_session (expireRequest id).
Proof. unfold expireRequest. session_tac. Qed.
Lemma session_cancelProcedure id : keeps keeps_session (cancelProcedure id).
Proof. unfold cancelProcedure. session_tac. Qed.
#[local] Hint Resolve sending_expireRequest session_expireRequest session_cancelProcedure : keep.

Lemma sending_flushGroup id : keeps keeps_sending (flushGroup id).
Proof.
  unfold flushGroup. apply keeps_bind; [typeclasses eauto|apply (keeps_get _)|]. intros [|]; [cbn [negb]|apply (keeps_ret _)].
  apply keeps_get_bind. intros k H. destruct (jmap_get id (channels k)) as [g|] eqn:Hg; [|done].
  destruct (authEpoch <$> _) as [epoch|]; [|done]. cbv zeta. destruct (attempted _ _ _); [done|].
  assert (Ht : operation_text (group_frame g)).
  { eapply (demand_channels k); [apply H|by apply jmap_get_Some_elem]. }
  match goal with |- session_ok (?m k).2 /\ _ => assert (G : keeps keeps_sending m); [|by apply G] end.
  keeps_split; [by apply sending_channels_send|]. session_tac.
Qed.
#[local] Hint Resolve sending_flushGroup : keep.

Lemma session_flushGroup id : keeps keeps_session (flushGroup id).
Proof.
  intros k Hk. destruct (online k) eqn:Ho; [by apply sending_flushGroup; split; [|left]|].
  unfold flushGroup. by rewrite run_get, Ho.
Qed.
#[local] Hint Resolve session_flushGroup : keep.

Lemma sending_channels_flush : keeps keeps_sending channels_flush.
Proof. unfold channels_flush. session_tac. Qed.
#[local] Hint Resolve sending_channels_flush : keep.

Lemma session_flushState : keeps keeps_session flushState.
Proof.
  unfold flushState. apply session_get_online; [|session_tac]. session_tac.
Qed.
#[local] Hint Resolve session_flushState : keep.

(** ** Operations *)

Lemma session_forget_demand n kind ref args frame bytes k : session_ok k -> over (session k) = false ->
  encodeSubscriptionOrReject n ref args = Ret frame ->
  session_ok (set_subscriptions
    (jmap_set n (MkSubscription kind ref args None None false frame bytes None createSubscriptionRetryState) (subscriptions k)) k).
Proof.
  intros [(p & Hp & Hs) Hf [D1 D2 D4 D3]] Ho He. split; [by exists p|done|]. split; cbn; [|done|done|by rewrite Ho].
  intros i x [[= -> ->]|Hin]%jmap_set_elem; [|by eapply D1]. exists (CSubscribe (num_of_Z n) ref args None). split; [|done].
  unfold encodeSubscriptionOrReject in He. destruct (encodeClient _) as [f|e]; [by injection He as <-|]. by destruct e.
Qed.

Lemma usable_spec k : wp assertUsable (fun r k' => k' = k /\ (r = Ret tt -> over (session k) = false)) k.
Proof.
  unfold assertUsable. apply wp_bind, wp_get. unfold over.
  destruct (closed (session k)); [by apply wp_throw|]. destruct (permanentFailure (session k)); [by apply wp_throw|].
  case_match; [by apply wp_throw|by apply wp_ret].
Qed.

(** A session that takes new demand. *)
Definition usable k : Prop := session_ok k /\ over (session k) = false.

Lemma still_usable k k' : still k k' -> usable k -> usable k'.
Proof. intros H [H1 H2]. split; [by eapply still_session_ok|]. destruct H as (E & _). by rewrite (over_view _ _ E). Qed.

Lemma wp_usable {A B} (m : eff A) (f : A -> eff B) (P : Client -> Prop) k :
  keeps still m -> usable k -> (forall k', usable k' -> P k') -> (forall a k', usable k' -> wp (f a) (fun _ => P) k') -> wp (m ≫= f) (fun _ => P) k.
Proof.
  intros Hm Hk Ht Hf. apply (wp_then _ _ usable); [|done|done]. eapply wp_keeps; [exact Hm|]. intros k' H. by eapply still_usable.
Qed.

Lemma session_subscribe kind ref args : keeps keeps_session (subscribe kind ref args).
Proof.
  unfold subscribe. intros k Hk. eapply (wp_seq _ _ _ (fun _ => session_ok)); [apply usable_spec| |by intros e k' [-> _]].
  intros [] k' [-> Hu]. assert (Hk1 : usable k) by (split; auto).
  apply wp_usable; [apply still_allocateId|done|by intros k' [? _]|]. intros n k1 H1. apply wp_bind, wp_lift.
  destruct (encodeSubscriptionOrReject n ref args) as [frame|e] eqn:He; [|apply H1].
  apply wp_usable; [apply still_reservePersistent|done|by intros k' [? _]|]. intros b k2 H2. apply wp_bind, wp_modify.
  match goal with |- wp ?m _ _ => assert (G : keeps keeps_session m) by session_tac; apply G end.
  destruct H2. by apply session_forget_demand.
Qed.

Lemma session_request kind ref args : keeps keeps_session (request kind ref args).
Proof.
  unfold request. apply keeps_catch; [typeclasses eauto| |intros; session_tac].
  intros k Hk. eapply (wp_seq _ _ _ (fun _ => session_ok)); [apply usable_spec| |by intros e k' [-> _]].
  intros [] k' [-> Hu]. assert (Hk1 : usable k) by (split; auto).
  apply wp_usable; [apply still_allocateId|done|by intros k' [? _]|]. intros n k1 H1.
  apply wp_usable; [apply still_clock|done|by intros k' [? _]|]. intros now k2 H2.
  apply wp_usable; [still_tac|done|by intros k' [? _]|]. intros identity k3 H3. apply wp_bind, wp_lift.
  destruct (encodeClient _) as [frame|e] eqn:He; [|apply H3].
  apply wp_usable; [apply still_reservePersistent|done|by intros k' [? _]|]. intros b k4 H4. cbv zeta. apply wp_bind, wp_modify.
  match goal with |- wp ?m _ _ => assert (G : keeps keeps_session m) by session_tac; apply G end.
  destruct H4 as [[(p & Hp & Hs) Hf [D1 D2 D4 D3]] Ho]. split; [by exists p|done|]. split; cbn; [done| |done|by rewrite Ho].
  intros i x [[= -> ->]|Hin]%jmap_set_elem; [|by eapply D2]. cbn. eexists. split; [exact He|]. by destruct kind.
Qed.
#[local] Hint Resolve session_subscribe session_request : keep.

Lemma session_procedure ref args : keeps keeps_session (procedure ref args).
Proof. unfold procedure. session_tac. Qed.

Lemma still_delete_subscription id : keeps still (modify (fun k => set_subscriptions (jmap_delete id (subscriptions k)) k)).
Proof.
  intros k. split; [done|]. split; [done|]. intros [D1 D2 D4 D3]. split; cbn; [|done|done|].
  - intros i x [_ Hin]%jmap_delete_elem. by eapply D1.
  - intros H. by destruct (D3 H) as [-> ->].
Qed.
#[local] Hint Resolve session_procedure still_delete_subscription : keep.

Lemma session_removeSubscription id b : keeps keeps_session (removeSubscription id b).
Proof. unfold removeSubscription. destruct b; session_tac. Qed.
#[local] Hint Resolve session_removeSubscription : keep.

(** A channel is joined by an operation. *)
Lemma session_group n ref args room key frame bytes k : session_ok k ->
  encodeChannelOrReject (CChannelJoin (num_of_Z n) ref args room) = Ret frame ->
  session_ok (set_channels (jmap_set n (MkGroup key ref args room frame bytes [] ChannelConnecting None None) (channels k)) k).
Proof.
  intros [(p & Hp & Hs) Hf [D1 D2 D4 D3]] He. split; [by exists p|done|]. split; cbn; try done.
  intros i g [[= -> ->]|Hin]%jmap_set_elem; [|by eapply D4]. by eapply encodeChannel_operation.
Qed.

Lemma session_observe ref args room hk on : keeps keeps_session (observe ref args room hk on).
Proof.
  unfold observe. case_decide; [apply (keeps_throw _)|]. keeps_split; [apply (keeps_lift _)|]. keeps_split; [apply (keeps_get _)|].
  keeps_split; [|session_tac]. destruct (group_of_key _ _); [session_tac|]. intros k Hk. unfold wp in *.
  match goal with |- session_ok (?m k).2 => change (wp m (fun _ => session_ok) k) end.
  apply (wp_then _ _ session_ok); [|done|]; [by apply still_session; [apply still_allocateId|]|].
  intros n k1 H1. apply wp_bind, wp_lift. destruct (encodeChannelOrReject _) as [frame|e] eqn:He; [|exact H1].
  apply (wp_then _ _ session_ok); [|done|]; [by apply still_session; [apply still_reservePersistent|]|].
  intros b k2 H2. apply wp_bind, wp_modify, wp_ret. by apply session_group.
Qed.
#[local] Hint Resolve session_observe : keep.

Lemma still_delete_group id : keeps still (modify (fun k => set_channels (jmap_delete id (channels k)) k)).
Proof.
  intros k. split; [done|]. split; [done|]. intros [D1 D2 D4 D3]. split; cbn; try done.
  intros i x [_ Hin]%jmap_delete_elem. by eapply D4.
Qed.
#[local] Hint Resolve still_delete_group : keep.

Lemma session_releaseGroup id b : keeps keeps_session (releaseGroup id b).
Proof. unfold releaseGroup. destruct b; session_tac. Qed.
#[local] Hint Resolve session_releaseGroup : keep.
Lemma session_channel ref args room hk on : keeps keeps_session (channel ref args room hk on).
Proof. unfold channel. session_tac. Qed.
#[local] Hint Resolve session_channel : keep.
Lemma session_channel_close id o : keeps keeps_session (channel_close id o).
Proof. unfold channel_close. session_tac. Qed.
#[local] Hint Resolve session_channel_close : keep.
Lemma session_channel_send id o event payload : keeps keeps_session (channel_send id o event payload).
Proof.
  unfold channel_send. keeps_split; [session_tac|]. match goal with |- keeps _ (match ?h with _ => _ end) => destruct h as [[g x]|]; [|session_tac] end.
  apply session_get_online; cbn [negb]; rewrite ?orb_true_r; session_tac.
Qed.
#[local] Hint Resolve session_channel_send : keep.

(** ** What the server says *)

Lemma encodes_operation m text : encodeClient m = Ret text -> is_operation m = true -> operation_text text.
Proof. intros H1 H2. by exists m. Qed.

Lemma session_requestReset id : keeps keeps_session (requestReset id).
Proof.
  unfold requestReset. apply keeps_get_bind. intros k Hk. destruct (jmap_get id (subscriptions k)) as [x|]; [|done].
  destruct (resetRequested x); [done|]. match goal with |- session_ok (?m k).2 => assert (G : keeps keeps_session m); [|by apply G] end.
  keeps_split; [change_tac|]. apply session_get_online; [cbn [negb]|apply (keeps_ret _)]. destruct (sub_cursor x); [session_tac|].
  intros k1 H1. unfold lift. rewrite run_bind. destruct (encodeSubscription id x None) as [text|e] eqn:E; [|done].
  match goal with |- _ (?m k1).2 /\ _ => assert (G : keeps keeps_sending m); [|by apply G] end.
  keeps_split; [apply sending_sendText; by eapply encodes_operation|apply (keeps_ret _)].
Qed.

Lemma session_retainCursor id c : keeps keeps_session (retainCursor id c).
Proof.
  unfold retainCursor. apply keeps_get_bind. intros k Hk. destruct (jmap_get id (subscriptions k)) as [x|]; [|done].
  match goal with |- session_ok (?m k).2 => assert (G : keeps keeps_session m); [|by apply G] end.
  match goal with |- keeps _ (match ?m with _ => _ end) => destruct m as [[frame bytes]|e] eqn:E; [|session_tac] end.
  assert (Ht : operation_text frame).
  { apply exc_bind_ret in E as (f & Ef & E). apply exc_bind_ret in E as (b & _ & E). injection E as <- <-. by eapply encodes_operation. }
  keeps_split; [apply (keeps_get _)|]. case_decide; [session_tac|]. keeps_split; [session_tac|]. keeps_split; [|session_tac].
  apply still_session, still_update_subscription. by intros.
Qed.
#[local] Hint Resolve session_requestReset session_retainCursor : keep.

Lemma session_applyTransition id t : keeps keeps_session (applyTransition id t).
Proof. unfold applyTransition. session_tac. Qed.
Lemma session_applyLiveEvent id e : keeps keeps_session (applyLiveEvent id e).
Proof. unfold applyLiveEvent. session_tac. Qed.
Lemma session_applyMutationReceipt id r rc result : keeps keeps_session (applyMutationReceipt id r rc result).
Proof. unfold applyMutationReceipt. session_tac. Qed.
#[local] Hint Resolve session_applyTransition session_applyLiveEvent session_applyMutationReceipt : keep.
Lemma session_applyAnswer id kind result rc message : keeps keeps_session (applyAnswer id kind result rc message).
Proof. unfold applyAnswer. session_tac. Qed.
Lemma session_scheduleSubscriptionRetry id floor : keeps keeps_session (scheduleSubscriptionRetry id floor).
Proof. unfold scheduleSubscriptionRetry. session_tac. Qed.
#[local] Hint Resolve session_applyAnswer session_scheduleSubscriptionRetry : keep.
Lemma session_answer_error id o : keeps keeps_session (answer_error id o).
Proof. unfold answer_error. session_tac. Qed.
#[local] Hint Resolve session_answer_error : keep.

(** ** Authentication *)

(** What a session that awaits a new credential is like. *)
Definition blocked s (error : js_error) : Session :=
  set_authAttempt None (set_blockingError (Some error) (set_resuming false (set_ready false (set_authBlocked true s)))).

Lemma blocked_flags s error : flags_ok s -> flags_ok (detached (blocked s error)).
Proof. intros [F1 F2 F3 F4 F5]. by split. Qed.

(** A connection that is given up for want of a credential. *)
Lemma blocked_ok k k1 error (m : eff unit) : session_ok k ->
  aside (blocked (session k) error) (traffic k) (subscriptions k) (pending k) k1 -> keeps keeps_session m ->
  wp (_ ← retireConnection; m) (fun _ => session_ok) k1.
Proof.
  intros Hk H Hm. destruct (session_ok_ending k Hk) as (p & Hp & Hn). eapply wp_after; [eapply retire_does; [exact H|exact Hp|]|].
  { unfold near, at_rest in *. cbn. destruct (socket (session k)); [done|]. by destruct Hn as (-> & -> & _). }
  intros [] k2 (tr & Hr & H2). apply Hm. eapply rest_ok; [exact H2|exact Hr|done|apply blocked_flags, Hk|].
  eapply demand_forget; [done|]. by destruct Hk as [_ _ [D1 D2 D4 D3]].
Qed.

Lemma session_blockAuthentication error : keeps keeps_session (blockAuthentication error).
Proof.
  intros k Hk. change (wp (blockAuthentication error) (fun _ => session_ok) k). unfold blockAuthentication. apply wp_bind, wp_modify.
  eapply wp_after; [apply reject_attempt_does, (aside_refl _), Hk|]. intros [] k1 H1. eapply blocked_ok; [exact Hk|exact H1|session_tac].
Qed.

Lemma session_expireAuthAttempt a : keeps keeps_session (expireAuthAttempt a).
Proof.
  intros k Hk. change (wp (expireAuthAttempt a) (fun _ => session_ok) k). unfold expireAuthAttempt. apply wp_bind, wp_modify.
  eapply wp_after; [apply settle_attempt_does, (aside_refl _), Hk|]. intros [] k1 H1. eapply blocked_ok; [exact Hk|exact H1|session_tac].
Qed.
#[local] Hint Resolve session_blockAuthentication session_expireAuthAttempt : keep.

Lemma session_operation_error id o : keeps keeps_session (operation_error id o).
Proof. unfold operation_error. session_tac. Qed.
Lemma session_connection_error o : keeps keeps_session (connection_error o).
Proof. unfold connection_error. session_tac. Qed.
#[local] Hint Resolve session_operation_error session_connection_error : keep.

(** Presenting the attempt that is current, on a connection that has been
    welcomed. *)
Lemma sendAuth_ok a k : loose k -> authAttempt (session k) = Some a -> ready (session k) = true -> socketOpen (session k) = true ->
  (forall g, socket (session k) = Some g -> exists p, accepts (traffic k) p /\ (p = Open g \/ exists n, p = Awaiting g n)) ->
  wp (sendAuth a) (fun _ => session_ok) k.
Proof.
  intros Hl Ha Hr Ho Hp. destruct (flags_attempt _ (loose_flags k Hl) a Ha) as (_ & _ & _ & text & bytes & Ht & Hb).
  unfold sendAuth, sendFrame. apply wp_bind, wp_lift. rewrite Ht. apply wp_bind, wp_lift. rewrite Hb.
  eapply wp_mono; [apply wp_unit, sendText_ok|]; [done| |by rewrite Ho|by intros r k' [? _]].
  intros g Hs _. destruct (Hp g Hs) as (p & Hacc & Hor). exists p, (Awaiting g (attempt_id a)). split; [done|].
  split; [destruct Hor as [->|[n ->]]; by econstructor|]. unfold stands. rewrite Hs, Hr, Ha. split; [|done].
  destruct Hl as [(q & _ & Hn) _ _]. unfold near in Hn. rewrite Hs in Hn. by destruct Hn.
Qed.

Lemma open_spec k : wp assertOpen (fun r k' => k' = k /\ (r = Ret tt -> over (session k) = false)) k.
Proof.
  unfold assertOpen. apply wp_bind, wp_get. unfold over.
  destruct (closed (session k)); [by apply wp_throw|]. destruct (permanentFailure (session k)); [by apply wp_throw|]. by apply wp_ret.
Qed.

(** The session once an attempt of its own is current. *)
Definition presenting s (a : AuthAttempt) : Session :=
  set_authAttempt (Some a) (set_blockingError None (set_authBlocked false (set_credentialExpiresAtMs None
    (set_credential (Some (attempt_credential a)) s)))).

Lemma presenting_flags s a : flags_ok s -> over s = false -> presentable a -> flags_ok (presenting s a).
Proof.
  intros [F1 F2 F3 F4 F5] Ho Ha. unfold over in Ho. apply orb_false_iff in Ho as [E1 E2]. split; cbn; try done.
  - intros H. destruct (F1 H) as (_ & _ & _ & E). done.
  - by intros a' [= <-].
Qed.

Lemma present_ok k k1 a b : usable k -> b = ready (session k) -> aside (presenting (session k) a) (traffic k) (subscriptions k) (pending k) k1 -> presentable a ->
  wp (if b then sendAuth a else ensureConnected) (fun _ => session_ok) k1.
Proof.
  intros [Hk Ho] -> (E & E2 & E3 & E4 & E5) Ha. pose proof E as V. unfold session_view in V.
  injection V as V1 V2 V3 V4 V5 V6 V7 V8 V9 V10 V11 V12. cbn in *.
  assert (Hf : flags_ok (session k1)) by (eapply flags_view; [exact E|]; by apply presenting_flags; [apply Hk| |]).
  assert (Hd : demand_ok k1) by (destruct Hk as [_ _ [D1 D2 D4 D3]]; split; rewrite ?E3, ?E4, ?(over_view _ _ E); done).
  destruct Hk as [(p & Hp & Hs) _ _]. destruct (ready (session k)) eqn:Hr.
  - unfold stands in Hs. destruct (socket (session k)) as [g|] eqn:Hg; [|by destruct Hs as (_ & _ & E6); rewrite E6 in Hr].
    rewrite Hr in Hs. destruct Hs as (Eg & Hop & Hph). apply sendAuth_ok; [|exact V9|exact V3|by rewrite V2|].
    + split; [exists p|done|done]. rewrite E2. split; [done|]. unfold near. rewrite V1, V8. split; [done|].
      rewrite Hph. by destruct (authAttempt (session k)).
    + intros g' Hg'. rewrite V1 in Hg'. injection Hg' as <-. exists p. rewrite E2. split; [done|]. rewrite Hph.
      destruct (authAttempt (session k)) as [a'|]; [right; by eexists|by left].
  - apply session_ensureConnected. split; [|done|done]. exists p. rewrite E2. split; [done|].
    unfold stands, at_rest in *. rewrite V1, V2, V3, V8. by rewrite Hr in Hs.
Qed.

Ltac view_tac := unfold session_view; cbn; intros ? [= ? ? ? ? ? ? ? ? ? ? ? ?]; congruence.

Ltac by_session :=
  match goal with |- wp ?m _ _ => let G := fresh in assert (G : keeps keeps_session m) by session_tac; apply G end.

Lemma clock_aside s tr subs reqs k : aside s tr subs reqs k -> wp clock (fun _ => aside s tr subs reqs) k.
Proof.
  intros H. unfold clock. apply wp_bind. unfold wp at 1. cbn.
  destruct (num_safe_integer _); [|by apply wp_throw]. case_decide; [by apply wp_throw|by apply wp_ret].
Qed.

(** The attempt under way, which waits for its successor. *)
Definition outgoing s : Session :=
  match authAttempt s with
  | Some a => set_authAttempt (Some (MkAttempt (attempt_id a) (attempt_credential a) (attempt_expiresAtMs a) false)) s
  | None => s
  end.

Lemma supersede_does k : channels_ok k ->
  does supersede_attempt (fun _ => aside (outgoing (session k)) (traffic k) (subscriptions k) (pending k)) k.
Proof.
  intros H. unfold supersede_attempt, outgoing. apply does_get. destruct (authAttempt (session k)); [|by apply does_ret].
  apply does_bind, does_modify. by apply settle_attempt_does.
Qed.

(** The credential is the new one, and its attempt not made yet. *)
Definition between s (c : Credential) : Session :=
  set_blockingError None (set_authBlocked false (set_credentialExpiresAtMs None (set_credential (Some c) (outgoing s)))).

Lemma between_view s c : session_view (between s c) =
  (socket s, socketOpen s, ready s, closed s, permanentFailure s, false, suspended s, connectionGeneration s,
   authAttempt (outgoing s), authentication s, None, terminalError s).
Proof. unfold between, outgoing. by destruct (authAttempt s). Qed.

Lemma superseded_attempt s a : authAttempt (outgoing s) = Some a ->
  exists a', authAttempt s = Some a' /\ attempt_id a = attempt_id a' /\ attempt_credential a = attempt_credential a'.
Proof. unfold outgoing. destruct (authAttempt s) as [a'|] eqn:Ha; [|by rewrite Ha]. intros [= <-]. by exists a'. Qed.

Lemma superseded_id s : attempt_id <$> authAttempt (outgoing s) = attempt_id <$> authAttempt s.
Proof. unfold outgoing. by destruct (authAttempt s) as [a|] eqn:Ha; rewrite ?Ha. Qed.

Lemma between_ok c k k1 : usable k -> aside (between (session k) c) (traffic k) (subscriptions k) (pending k) k1 -> session_ok k1.
Proof.
  intros [[(p & Hp & Hs) [F1 F2 F3 F4 F5] [D1 D2 D4 D3]] Ho] (E & E2 & E3 & E4 & E5). rewrite between_view in E. unfold session_view in E.
  injection E as V1 V2 V3 V4 V5 V6 V7 V8 V9 V10 V11 V12. split.
  - exists p. rewrite E2. split; [done|]. unfold stands, at_rest in *. rewrite V1, V2, V3, V8, V9.
    pose proof (superseded_id (session k)) as Ei. destruct (authAttempt (outgoing _)), (authAttempt (session k)); try done.
    injection Ei as ->. exact Hs.
  - unfold over in Ho. apply orb_false_iff in Ho as [O1 O2]. split; rewrite ?V1, ?V3, ?V4, ?V5, ?V6, ?V7, ?V9, ?V10, ?V11, ?V12; try done.
    + intros H. destruct (F1 H) as (_ & _ & _ & G). done.
    + intros a (a' & Ha & I1 & I2)%superseded_attempt. destruct (F2 a' Ha) as (_ & _ & _ & G). unfold presentable in *.
      rewrite I1, I2. done.
  - split; rewrite ?E3, ?E4; try done. unfold over in *. by rewrite V4, V5, Ho.
Qed.

Lemma between_presenting s c a : attempt_credential a = c -> session_view (set_authAttempt (Some a) (between s c)) = session_view (presenting s a).
Proof. intros <-. unfold between, outgoing, presenting. by destruct (authAttempt s). Qed.

Lemma session_install c k : usable k -> session_ok (install c k).2.
Proof.
  intros Hk. change (wp (install c) (fun _ => session_ok) k). unfold install.
  apply wp_usable; [apply still_allocateId|done|by intros k' [? _]|]. intros id k1 H1. apply wp_bind, wp_lift.
  destruct (encodeClient _) as [text|e] eqn:He; [|apply H1]. apply wp_bind, wp_lift.
  destruct (frameBytes text connection) as [bytes|e] eqn:Hb; [|apply H1].
  eapply wp_after; [apply supersede_does, H1|]. intros [] k2 H2.
  eapply wp_after; [eapply update_session_does; [exact H2|view_tac]|]. intros [] k3 H3.
  change (aside (between (session k1) c) (traffic k1) (subscriptions k1) (pending k1) k3) in H3.
  eapply wp_then; [by apply clock_aside|by intros k'; apply between_ok|]. intros now k4 H4. apply wp_bind, wp_get. cbv zeta.
  set (a := MkAttempt id c _ _).
  eapply wp_after; [eapply (update_session_does (set_authAttempt (Some a))); [exact H4|view_tac]|]. intros [] k5 H5.
  eapply (wp_then _ _ session_ok); [|done|intros ? k6 H6; by by_session].
  assert (Er : ready (session k4) = ready (session k1)).
  { destruct H4 as (V & _). unfold between, outgoing in V. by destruct (authAttempt (session k1)); injection V. }
  eapply (present_ok k1 _ a); [done|exact Er| |by exists text, bytes].
  destruct H5 as (V & H5). split; [|exact H5]. rewrite V. by apply between_presenting.
Qed.

Lemma session_presentCredential c : keeps keeps_session (presentCredential c).
Proof.
  intros k Hk. change (wp (presentCredential c) (fun _ => session_ok) k). unfold presentCredential.
  eapply (wp_seq _ _ _ (fun _ => session_ok)); [apply open_spec| |by intros e k' [-> _]]. intros [] k' [-> Ho].
  assert (Hu : usable k) by (split; auto). apply wp_bind, wp_lift. destruct (parseCredential _); [|exact Hk]. apply wp_bind, wp_get.
  destruct (authAttempt (session k)) as [at_|]; [|by apply session_install]. destruct (sameCredential _ _); [exact Hk|by apply session_install].
Qed.
#[local] Hint Resolve session_presentCredential : keep.

Lemma session_refreshCredential c : keeps keeps_session (refreshCredential c).
Proof. unfold refreshCredential. session_tac. Qed.
Lemma session_source_answers answer : keeps keeps_session (source_answers answer).
Proof. unfold source_answers. session_tac. Qed.
Lemma session_pull_settles : keeps keeps_session pull_settles.
Proof. unfold pull_settles. session_tac. Qed.
#[local] Hint Resolve session_refreshCredential session_source_answers session_pull_settles : keep.

(** ** The handshake *)

Lemma handleOpen_ok g k : session_ok k -> (socket (session k) = Some g -> socketOpen (session k) = false) ->
  wp (handleOpen g) (fun _ => session_ok) k.
Proof.
  intros Hk Ho. unfold handleOpen. apply wp_bind, wp_get. case_bool_decide as Hs; [cbn [negb orb]|exact Hk].
  specialize (Ho Hs). destruct (closed (session k)); [exact Hk|]. apply wp_bind, wp_modify. set (k1 := set_session _ k).
  destruct (session_stands k Hk) as (p & Hp & Hst). unfold stands in Hst. rewrite Hs, Ho in Hst. destruct Hst as [Eg Hst].
  destruct (ready (session k)) eqn:Hr; [by destruct Hst|]. subst p.
  assert (Hl : loose k1).
  { destruct Hk as [_ [F1 F2 F3 F4 F5] Hd]. split; [|by split|by eapply (demand_same k)].
    exists (Dialing g). split; [done|]. unfold near. cbn. by rewrite Hs. }
  assert (Hf : forall e, wp (failPermanently e) (fun _ => session_ok) k1).
  { intros e. eapply does_wp; [by apply failPermanently_does|]. by intros [] k' [? _]. }
  apply wp_catch. apply wp_bind, wp_lift. destruct (encodeHello (credential (session k))) as [text|e] eqn:He; [|apply Hf].
  apply wp_bind, wp_lift. destruct (frameBytes text connection); [|apply Hf].
  eapply wp_mono; [apply wp_unit, sendText_ok; [exact Hl| |done]|].
  - intros g' Hs' _. cbn in Hs'. assert (g' = g) as -> by congruence. exists (Dialing g), (Greeting g). split; [done|].
    destruct (credential (session k)) as [c|]; [|done]. split; [by eapply protocol_hello|]. unfold stands. cbn. by rewrite Hs, Hr.
  - intros r k' [H _]. destruct r; [exact H|]. by apply session_failPermanently.
Qed.

(** The connection has been welcomed, and the phase is [p]. *)
Definition welcomed g p k : Prop :=
  loose k /\ socket (session k) = Some g /\ ready (session k) = true /\ socketOpen (session k) = true /\ accepts (traffic k) p.

Lemma welcomed_ok g k : welcomed g (Open g) k -> authAttempt (session k) = None -> session_ok k.
Proof.
  intros ([(q & Hq & Hn) Hf Hd] & Hs & Hr & Ho & Hp) Ha. split; [|done..]. exists (Open g). split; [done|].
  unfold near, stands in *. rewrite Hs in *. rewrite Hr, Ho, Ha. by destruct Hn.
Qed.

Lemma resolveAuth_ok g a accepted k : welcomed g (Open g) k -> wp (resolveAuth a accepted) (fun _ => session_ok) k.
Proof.
  intros (Hl & Hs & Hr & Ho & Hp). unfold resolveAuth. apply wp_bind, wp_modify.
  eapply does_wp; [apply settle_attempt_does, (aside_refl _), Hl|]. intros [] k1 H1.
  assert (Hst : still (set_session (set_authAttempt None (session k)) k) k1).
  { destruct H1 as (E1 & E2 & E3 & E4 & E5). split; [done|]. split; [done|]. intros [D1 D2 D4 D3].
    eapply demand_aside; [by split|]. split; [done|]. split; [done|]. done. }
  eapply still_session_ok; [exact Hst|]. apply (welcomed_ok g); [|done]. destruct Hl as [(q & Hq & Hn) [F1 F2 F3 F4 F5] Hd].
  split; [|done]. split; [by exists q|by split|by eapply (demand_same k)].
Qed.

Lemma welcome_ok d id epoch k : session_ok k -> ready (session k) = false -> socketOpen (session k) = true ->
  defined (socket (session k)) = true -> wp (welcome d id epoch) (fun _ => session_ok) k.
Proof.
  intros Hk Hr Ho Hs. unfold welcome. case_bool_decide; [cbn [negb]|by by_session]. cbv zeta. apply wp_bind, wp_modify.
  unfold log_here. apply wp_bind, wp_bind, wp_get. cbn. destruct (socket (session k)) as [g|] eqn:Eg; [clear Hs|done].
  apply wp_modify, wp_bind, wp_get. set (k1 := set_traffic _ _).
  assert (Hw : welcomed g (Open g) k1).
  { destruct Hk as [(p & Hp & Hst) [F1 F2 F3 F4 F5] Hd]. unfold stands in Hst. rewrite Eg, Hr, Ho in Hst. destruct Hst as [Hg ->].
    assert (Ht : accepts (traffic k1) (Open g)) by by eapply accepts_snoc, protocol_welcome. split; [|done].
    split; [|by split|by eapply (demand_same k)]. exists (Open g). split; [done|]. unfold near. cbn. by rewrite Eg. }
  apply (wp_then _ _ session_ok); [|done|intros [] k2 H2; by by_session]. clearbody k1.
  destruct (authAttempt (session k1)) as [a|] eqn:Ha; [|by apply (welcomed_ok g)].
  match goal with |- wp (if ?b then _ else _) _ _ => destruct b end; [by eapply resolveAuth_ok|].
  destruct Hw as (Hl & Hs & Hr' & Ho' & Hp). apply sendAuth_ok; [done..|]. intros g' Hg'. exists (Open g). split; [done|]. left. congruence.
Qed.

Lemma authenticated_ok d n epoch k : session_ok k -> ready (session k) = true -> wp (authenticated d n epoch) (fun _ => session_ok) k.
Proof.
  intros Hk Hr. unfold authenticated. apply wp_bind, wp_get. destruct (authAttempt (session k)) as [a|] eqn:Ha; [|exact Hk].
  case_decide as Hn; [subst n|exact Hk]. cbv zeta. apply wp_bind, wp_modify. unfold log_here. apply wp_bind, wp_bind, wp_get. cbn.
  destruct Hk as [(p & Hp & Hst) Hf Hd]. unfold stands in Hst. destruct (socket (session k)) as [g|] eqn:Eg.
  2: { destruct Hst as (_ & _ & E). by rewrite E in Hr. }
  rewrite Hr, Ha in Hst. destruct Hst as (Hg & Ho & ->). apply wp_modify. set (k1 := set_traffic _ _).
  assert (Hw : welcomed g (Open g) k1).
  { assert (Ht : accepts (traffic k1) (Open g)) by by eapply accepts_snoc, protocol_confirm. split; [|done].
    split; [|destruct Hf; by split|by eapply (demand_same k)]. exists (Open g). split; [done|]. unfold near. cbn. by rewrite Eg. }
  clearbody k1. apply (wp_then _ _ session_ok); [by eapply resolveAuth_ok|done|intros [] k2 H2; by by_session].
Qed.

(** Nothing but a welcome opens a session, and an open session takes none. *)
Lemma welcome_not_read d id epoch w : parseServerMessage (handshake_value (Welcome d id epoch)) <> Ret w.
Proof.
  unfold parseServerMessage. intros H. apply exc_bind_ret in H as ([f t] & Hf & H). apply frame_ret in Hf as [Ef Ht].
  destruct d; injection Ef as <-; injection Ht as <-; discriminate H.
Qed.

Lemma auth_not_read d n epoch w : parseServerHandshake (server_value (SAuthenticated d n epoch)) <> Ret w.
Proof.
  unfold parseServerHandshake. intros H. apply exc_bind_ret in H as ([f t] & Hf & H). apply frame_ret in Hf as [Ef Ht].
  destruct d; injection Ef as <-; injection Ht as <-; by cbn in H.
Qed.

Lemma session_dispatch m : (forall d n epoch, m <> SAuthenticated d n epoch) -> keeps keeps_session (dispatch m).
Proof.
  intros Hm. destruct m as [d n epoch| | | | | | | | | |[n|] o|]; cbn; try (by destruct (Hm d n epoch)); session_tac.
Qed.

Lemma handleIncoming_ok g i k : session_ok k -> (socket (session k) = Some g -> socketOpen (session k) = true) ->
  wp (handleIncoming g i) (fun _ => session_ok) k.
Proof.
  intros Hk Ho. unfold handleIncoming. apply wp_bind, wp_get. case_bool_decide as Hs; [cbn [negb orb]|exact Hk].
  specialize (Ho Hs). destruct (closed (session k)); [exact Hk|]. destruct i as [m|m| |e]; [| |by by_session..].
  - destruct (_ (server_value m)) as [v|e] eqn:Hv; [|by by_session].
    destruct m as [d n epoch| | | | | | | | | | |]; [|by apply session_dispatch..].
    destruct (ready (session k)) eqn:Hr; [|by apply auth_not_read in Hv]. cbn. destruct (num_integer n); [|exact Hk]. by apply authenticated_ok.
  - destruct (_ (handshake_value m)) as [v|e] eqn:Hv; [|by by_session]. destruct m as [d id epoch|o]; [|by by_session].
    destruct (ready (session k)) eqn:Hr; [by apply welcome_not_read in Hv|]. apply welcome_ok; [done..|]. by rewrite Hs.
Qed.

(** ** The end, and the lifecycle of the application *)

Lemma log_here_retired s tr subs reqs k p : aside s tr subs reqs k -> accepts tr p -> near s p ->
  does (log_here Retired) (fun _ k' => exists tr', accepts tr' (Idle (connectionGeneration s)) /\ aside s tr' subs reqs k') k.
Proof.
  intros (H1 & H2 & H3 & H4 & H5) Hp Hn. unfold log_here. apply does_get.
  assert (Es : socket (session k) = socket s) by (by injection H1). rewrite Es. unfold near in Hn. destruct (socket s) as [g|].
  - destruct Hn as [-> Hon]. apply does_modify. exists (tr ++ [Retired (connectionGeneration s)]).
    split; [by eapply accepts_snoc, protocol_retire|]. split; [done|]. cbn. by rewrite H2.
  - apply does_ret. exists tr. by destruct Hn as (-> & _).
Qed.

Lemma session_close : keeps keeps_session close.
Proof.
  intros k Hk. change (wp close (fun _ => session_ok) k). unfold close. apply wp_bind, wp_get.
  destruct (closed (session k)); [exact Hk|]. destruct (session_ok_ending k Hk) as (p & Hp & Hn). apply wp_bind, wp_modify.
  eapply wp_after; [apply reject_attempt_does, (aside_refl _), Hk|]. intros [] k1 H1.
  eapply wp_after; [by eapply finish_all_does|]. intros [] k2 H2.
  eapply wp_after; [by eapply drop_subscriptions_does|]. intros [] k3 H3.
  eapply wp_after; [by eapply channels_close_does|]. intros [] k3' H3'.
  eapply wp_after; [by eapply abort_streams_does|]. intros [] k3'' H3''.
  eapply wp_after; [eapply log_here_retired; [exact H3''|exact Hp|exact Hn]|]. intros [] k4 (tr & Hr & H4).
  eapply wp_after; [eapply update_session_does; [exact H4|view_tac]|]. intros [] k5 H5.
  eapply does_wp; [by eapply publish_does|]. intros [] k6 H6. eapply rest_ok; [exact H6| |done| |apply demand_nothing].
  - exists (Idle (connectionGeneration (session k))). by split.
  - destruct Hk as [_ [F1 F2 F3 F4 F5] _]. by split.
Qed.

(** What a session about to lose its connection may be like. *)
Record retiring k : Prop := {
  retiring_ending : ending k;
  retiring_flags : flags_ok (detached (session k));
  retiring_demand : demand_ok k;
}.
Definition keeps_retiring k k' : Prop := retiring k -> retiring k'.

#[export] Instance keeps_retiring_preorder : PreOrder keeps_retiring.
Proof. split; [by intros k H|]. intros a b c H1 H2 H. auto. Qed.

Lemma detached_view s s' : session_view s' = session_view s -> session_view (detached s') = session_view (detached s).
Proof. revert s'. unfold detached. view_tac. Qed.

Lemma still_retiring {A} (m : eff A) : keeps still m -> keeps keeps_retiring m.
Proof.
  intros H k [(p & Hp & Hn) Hf Hd]. destruct (H k) as (H1 & H2 & H3). split; [|by eapply flags_view; [apply detached_view|]|auto].
  exists p. rewrite H2. split; [done|]. unfold near in *. pose proof H1 as E. injection E as E1 E2 E3 E4 E5 E6 E7 E8 E9 E10 E11 E12.
  rewrite E1, E8. destruct (socket (session k)); [done|]. by eapply at_rest_view.
Qed.

Lemma detached_flags s : flags_ok s -> flags_ok (detached s).
Proof. intros [F1 F2 F3 F4 F5]. by split. Qed.

Lemma retiring_ok (m : eff unit) k : retiring k -> keeps keeps_session m -> wp (_ ← retireConnection; m) (fun _ => session_ok) k.
Proof.
  intros [(p & Hp & Hn) Hf Hd] Hm. eapply wp_after; [eapply retire_does; [apply aside_refl, Hd|exact Hp|exact Hn]|].
  intros [] k1 (tr & Hr & H1). apply Hm. eapply rest_ok; [exact H1|exact Hr|done|done|]. eapply demand_forget; [done|].
  by destruct Hd.
Qed.

Lemma retiring_pause k : retiring k -> retiring (set_session (pause_attempt (session k)) k).
Proof.
  intros [(p & Hp & Hn) [F1 F2 F3 F4 F5] Hd]. unfold pause_attempt. destruct (authAttempt (session k)) as [a|] eqn:Ha; [|destruct k; split; [by exists p|by split|done]].
  split; [by exists p| |by eapply (demand_same k)]. split; cbn in *; try done. intros a' [= <-]. destruct (F2 a Ha) as (E1 & E2 & E3 & E4). done.
Qed.

Lemma still_returns (m : eff unit) k : (exists k', m k = (Ret tt, k')) -> keeps still m -> retiring k -> does m (fun _ => retiring) k.
Proof. intros [k' E] Hm Hk. exists tt, k'. split; [done|]. pose proof (still_retiring m Hm k Hk) as H. by rewrite E in H. Qed.

Lemma finishRequest_returns id o k : exists k', finishRequest id o k = (Ret tt, k').
Proof. unfold finishRequest. rewrite run_get. by destruct (jmap_get id (pending k)); eexists. Qed.

Lemma session_suspendTransport : keeps keeps_session suspendTransport.
Proof.
  intros k Hk. change (wp suspendTransport (fun _ => session_ok) k). unfold suspendTransport. apply wp_bind, wp_get.
  destruct (closed (session k) || suspended (session k)); [exact Hk|]. apply wp_bind, wp_get.
  apply (wp_then _ _ session_ok); [by by_session|done|]. intros [] k1 H1. apply wp_bind, wp_modify. set (k2 := set_session _ k1).
  assert (H2 : retiring k2).
  { split; [by apply session_ok_ending in H1| |by eapply (demand_same k1); [..|apply H1]]. destruct H1 as [_ [F1 F2 F3 F4 F5] _]. by split. }
  clearbody k2. apply wp_bind, wp_get. eapply wp_after; [apply (for_all_does _ (fun _ => retiring)); [|exact H2]|].
  { intros [id x] l k3 H3. apply still_returns; [by eexists|still_tac|done]. }
  intros [] k3 H3. apply wp_bind, wp_modify, wp_bind, wp_get. apply retiring_pause in H3.
  eapply wp_after; [apply (for_all_does _ (fun _ => retiring)); [|exact H3]|].
  { intros [id r] l k4 H4. apply still_returns; [|still_tac|done]. case_bool_decide; [apply finishRequest_returns|by eexists]. }
  intros [] k4 H4. apply retiring_ok; [done|session_tac].
Qed.
#[local] Hint Resolve session_close session_suspendTransport : keep.

Lemma session_awake : keeps keeps_session (update_session (set_suspended false)).
Proof.
  apply keeps_modify. intros k [(p & Hp & Hst) [F1 F2 F3 F4 F5] Hd]. split; [by exists p| |by eapply (demand_same k)]. split; cbn; try done.
  intros H. destruct (F1 H) as (E1 & E2 & E3 & _). done.
Qed.
#[local] Hint Resolve session_awake : keep.

(** The deadline of the current attempt is timed again. *)
Lemma session_rearm k a e b : session_ok k -> authAttempt (session k) = Some a ->
  session_ok (set_session (set_authAttempt (Some (MkAttempt (attempt_id a) (attempt_credential a) e b)) (session k)) k).
Proof.
  intros [(p & Hp & Hst) [F1 F2 F3 F4 F5] Hd] Ha. split; [|split; cbn; try done|by eapply (demand_same k)].
  - exists p. split; [done|]. unfold stands in *. cbn. by rewrite Ha in Hst.
  - intros a' [= <-]. destruct (F2 a Ha) as (E1 & E2 & E3 & E4). done.
Qed.

Lemma session_resumeTransport : keeps keeps_session resumeTransport.
Proof.
  intros k Hk. change (wp resumeTransport (fun _ => session_ok) k). unfold resumeTransport. apply wp_bind, wp_get.
  destruct (closed (session k) || negb (suspended (session k))); [exact Hk|].
  pose proof (session_awake k Hk) as H1. apply wp_bind, wp_modify. set (k1 := set_session _ k).
  change (session_ok k1) in H1. assert (E1 : authAttempt (session k1) = authAttempt (session k)) by done. clearbody k1.
  apply wp_bind, wp_get. apply (wp_then _ _ (still k1)); [|by intros k' H; eapply still_session_ok|].
  { match goal with |- wp ?m _ _ => assert (G : keeps still m) by still_tac; exact (G k1) end. }
  intros [] k2 H2. assert (E2 : authAttempt (session k2) = authAttempt (session k)) by (destruct H2 as (V & _); injection V; congruence).
  apply (still_session_ok k1) in H2; [|done]. clear k1 H1 E1.
  apply (wp_then _ _ session_ok); [|done|intros [] k3 H3; by by_session].
  destruct (authAttempt (session k)) as [a|]; [|exact H2].
  apply (wp_then _ _ (still k2)); [apply still_clock|by intros k' H; eapply still_session_ok|]. intros now k3 H3.
  assert (E3 : authAttempt (session k3) = Some a) by (destruct H3 as (V & _); injection V; congruence).
  apply (still_session_ok k2) in H3; [|done]. case_decide; [by apply session_expireAuthAttempt|]. apply wp_modify. by apply session_rearm.
Qed.

Lemma session_ping : keeps keeps_session ping_timer.
Proof.
  unfold ping_timer. apply keeps_get_bind. intros k Hk. unfold when. destruct (_ && ready (session k)) eqn:Hc; [|done].
  apply andb_true_iff in Hc as [_ Hr]. change (wp (sendFrame CPing) (fun _ => session_ok) k). unfold sendFrame. apply wp_bind, wp_lift.
  destruct (encodeClient CPing) as [text|e] eqn:He; [|exact Hk]. apply wp_bind, wp_lift. destruct (frameBytes text connection); [|exact Hk].
  eapply wp_mono; [apply wp_unit, sendText_ok; [by apply session_ok_loose| |done]|by intros r k' [? _]].
  intros g Hs Ho. destruct (session_stands k Hk) as (p & Hp & Hst). exists p, p. split; [done|]. split; [|done].
  unfold stands in Hst. rewrite Hs, Hr in Hst. destruct Hst as (_ & _ & ->). by destruct (authAttempt (session k)); constructor.
Qed.

Lemma session_retry_timer id : keeps keeps_session (retry_timer id).
Proof. unfold retry_timer. session_tac. Qed.
Lemma session_reconnect_timer : keeps keeps_session reconnect_timer.
Proof. unfold reconnect_timer. session_tac. Qed.
Lemma session_stable_timer : keeps keeps_session stable_timer.
Proof. unfold stable_timer. session_tac. Qed.
Lemma session_attempt_timer : keeps keeps_session attempt_timer.
Proof. unfold attempt_timer. session_tac. Qed.
Lemma session_source_retry_timer : keeps keeps_session source_retry_timer.
Proof. unfold source_retry_timer. session_tac. Qed.
Lemma session_source_refresh_timer : keeps keeps_session source_refresh_timer.
Proof. unfold source_refresh_timer. session_tac. Qed.
#[local] Hint Resolve session_resumeTransport session_ping session_retry_timer session_reconnect_timer session_stable_timer session_attempt_timer session_source_retry_timer session_source_refresh_timer : keep.

Lemma session_handleClose g : keeps keeps_session (handleClose g).
Proof.
  intros k Hk. destruct (decide (socket (session k) = Some g)) as [Hs|Hs].
  - change (wp (handleClose g) (fun _ => session_ok) k). eapply wp_mono; [by apply handleClose_ok; [apply session_ok_loose|]|].
    by intros r k' [? _].
  - unfold handleClose. rewrite run_get, bool_decide_false by done. exact Hk.
Qed.
#[local] Hint Resolve session_handleClose : keep.

(** ** Every step *)

(** An event of a socket comes when a platform gives it: it opens once, and
    says nothing before. *)
Definition timely k (e : ClientEvent) : Prop :=
  match e with
  | KOpened g => socket (session k) = Some g -> socketOpen (session k) = false
  | KIncoming g _ => socket (session k) = Some g -> socketOpen (session k) = true
  | _ => True
  end.

Lemma session_step k e : session_ok k -> timely k e -> session_ok (client_step k e).
Proof.
  intros Hk He. unfold client_step. destruct e; try (by apply handleOpen_ok); try (by apply handleIncoming_ok);
    match goal with |- session_ok (?m k).2 => assert (G : keeps keeps_session m) by (cbn; session_tac); exact (G k Hk) end.
Qed.

Lemma session_initial k0 : new_Client = Ret k0 -> session_ok k0.
Proof.
  intros ->%new_Client_ret. apply session_ensureConnected. split.
  - exists (Idle 0). by repeat constructor.
  - by split.
  - split; [intros i y H|intros i y H|intros i y H|done]; by apply elem_of_nil in H.
Qed.
End steps.
