(* ===== verification/ClientProtocol.v ===== *)
(** Whatever happens to a client, what its sockets carry follows the session
    protocol, and what its session says of the connection is so. *)
From S2P Require Import Prelude Errors Limits Value Wire StableEncode Protocol ProtocolProps Effects Uuid Retry Client ClientProps ClientSession.
Local Open Scope Z_scope.

Section sockets.
Context {options : ClientOptions}.
Implicit Types (k : Client) (s : Session).

(** ** Sockets, from step to step *)

Definition resting k : Prop := socket (session k) = None -> socketOpen (session k) = false.

(** No socket opens but by its own event, and none comes back. *)
Definition moves k k' : Prop :=
  connectionGeneration (session k) <= connectionGeneration (session k') /\
  (resting k -> resting k' /\
    (socket (session k') = None \/
     (socket (session k') = socket (session k) /\ socketOpen (session k') = socketOpen (session k)) \/
     exists g, socket (session k') = Some g /\ connectionGeneration (session k) < g /\ socketOpen (session k') = false)).

#[export] Instance moves_preorder : PreOrder moves.
Proof.
  split.
  - intros k. split; [lia|]. intros H. split; [done|]. right. by left.
  - intros k1 k2 k3 [G1 H1] [G2 H2]. split; [lia|]. intros Hr. destruct (H1 Hr) as [Hr2 D1]. destruct (H2 Hr2) as [Hr3 D2]. split; [done|].
    destruct D2 as [->|[[E1 E2]|(g & E1 & E2 & E3)]]; [by left| |right; right; exists g; split; [done|]; split; [lia|done]].
    rewrite E1, E2. destruct D1 as [->|[[E3 E4]|(g & E3 & E4 & E5)]]; [by left|right; by left|right; right; by exists g].
Qed.

Lemma moves_same k k' : socket (session k') = socket (session k) -> socketOpen (session k') = socketOpen (session k) ->
  connectionGeneration (session k') = connectionGeneration (session k) -> moves k k'.
Proof. intros E1 E2 E3. unfold moves, resting. rewrite E1, E2, E3. split; [lia|]. intros H. split; [done|]. right. by left. Qed.

Lemma moves_still {A} (m : eff A) : keeps still m -> keeps moves m.
Proof. intros H k. destruct (H k) as ([= E1 E2 E3 E4 E5 E6 E7 E8 E9 E10 E11 E12] & _). by apply moves_same. Qed.

Lemma moves_modify f : (forall k, socket (session (f k)) = socket (session k) /\ socketOpen (session (f k)) = socketOpen (session k) /\
  connectionGeneration (session (f k)) = connectionGeneration (session k)) -> keeps moves (modify f).
Proof. intros H. apply keeps_modify. intros k. destruct (H k) as (E1 & E2 & E3). by apply moves_same. Qed.

Lemma moves_update_session f : (forall s, socket (f s) = socket s /\ socketOpen (f s) = socketOpen s /\
  connectionGeneration (f s) = connectionGeneration s) -> keeps moves (update_session f).
Proof. intros H. apply moves_modify. intros k. apply H. Qed.

Lemma moves_update_subscription id f : keeps moves (update_subscription id f).
Proof. apply moves_modify. intros k. by destruct (jmap_get id (subscriptions k)). Qed.
Lemma moves_update_group id f : keeps moves (update_group id f).
Proof. apply moves_modify. intros k. by destruct (jmap_get id (channels k)). Qed.
Lemma moves_update_request id f : keeps moves (update_request id f).
Proof. apply moves_modify. intros k. by destruct (jmap_get id (pending k)). Qed.

Lemma moves_lost f : (forall s, socket (f s) = None /\ socketOpen (f s) = false /\ connectionGeneration (f s) = connectionGeneration s) ->
  keeps moves (update_session f).
Proof.
  intros H. apply keeps_modify. intros k. destruct (H (session k)) as (E1 & E2 & E3). unfold moves, resting. cbn. rewrite E1, E2, E3.
  split; [lia|]. intros _. split; [done|]. by left.
Qed.
End sockets.

Ltac moves_change :=
  match goal with
  | |- keeps moves (update_subscription _ _) => apply moves_update_subscription
  | |- keeps moves (update_request _ _) => apply moves_update_request
  | |- keeps moves (update_group _ _) => apply moves_update_group
  | |- keeps moves (modify _) => apply moves_modify; intros; cbn; repeat (case_match; cbn); by repeat split
  | |- keeps moves (update_session _) => apply moves_update_session; intros; cbn; repeat (case_match; cbn); by repeat split
  | |- keeps moves (update_session _) => apply moves_lost; by repeat split
  | |- keeps moves (log_traffic _) => apply moves_modify; by repeat split
  | |- keeps _ (for_all _ _) => apply keeps_for_all; [typeclasses eauto|intros]
  end.

Ltac moves_tac := repeat first [progress cbn [negb andb when]|solve [eauto using moves_still with keep nocore]|moves_change|keeps_split].

Section steps.
Context {options : ClientOptions}.
Implicit Types (k : Client) (s : Session).

#[local] Hint Resolve moves_still still_clock still_random_value still_call_back still_releasePersistent still_allocateId still_assertUsable still_assertOpen still_publishConnectionState still_settle_attempt still_finishRequest still_finish_all still_tell_all still_pullCredentialSource still_credential_expired still_acceptedCredential still_finish_if_converged still_advanceConvergence still_demandFreshPull still_reservePersistent still_armSubscriptionRetry still_new_uuid still_raw_clock still_replace still_connectionLost still_channels_failAll still_allocateHandle still_channel_listen still_channel_unlisten still_channel_attempted still_channel_ready still_channel_rejected still_channel_failed still_channel_event still_stream still_end_stream still_abort_streams : keep.

Lemma moves_detach : keeps moves detach.
Proof. unfold detach. moves_tac. Qed.
#[local] Hint Resolve moves_detach : keep.
Lemma moves_retireConnection : keeps moves retireConnection.
Proof. unfold retireConnection. moves_tac. Qed.
#[local] Hint Resolve moves_retireConnection : keep.
Lemma moves_reject_attempt e : keeps moves (reject_attempt e).
Proof. unfold reject_attempt. moves_tac. Qed.
#[local] Hint Resolve moves_reject_attempt : keep.
Lemma moves_drop_subscriptions : keeps moves drop_subscriptions.
Proof. unfold drop_subscriptions. moves_tac. Qed.
#[local] Hint Resolve moves_drop_subscriptions : keep.
Lemma moves_failPermanently e : keeps moves (failPermanently e).
Proof. unfold failPermanently. moves_tac. Qed.
#[local] Hint Resolve moves_failPermanently : keep.
Lemma moves_scheduleReconnect : keeps moves scheduleReconnect.
Proof. unfold scheduleReconnect. moves_tac. Qed.
#[local] Hint Resolve moves_scheduleReconnect : keep.
Lemma moves_scheduleSourceRetry : keeps moves scheduleSourceRetry.
Proof. unfold scheduleSourceRetry. moves_tac. Qed.
#[local] Hint Resolve moves_scheduleSourceRetry : keep.
(** A client dials without a socket. *)
Lemma moves_dial k : socket (session k) = None -> wp dial (fun _ k' => moves k k') k.
Proof.
  intros Hs. unfold dial. apply wp_bind, wp_modify. apply wp_bind, wp_get. case_match.
  - change (moves k (scheduleReconnect (set_session (clearReconnectTimer (session k)) k)).2).
    etransitivity; [|apply moves_scheduleReconnect]. by apply moves_same.
  - apply wp_bind, wp_get, wp_bind, wp_modify, wp_modify. split; cbn; [lia|]. intros Hr. unfold resting in *. cbn. rewrite Hr by done.
    split; [done|]. right. right. eexists. split; [done|]. split; [lia|done].
Qed.

Lemma moves_ensureConnected : keeps moves ensureConnected.
Proof.
  unfold ensureConnected. apply keeps_get_bind. intros k. destruct (_ || _) eqn:Hc; [done|]. apply orb_false_iff in Hc as [_ Hs].
  assert (Hn : socket (session k) = None) by (by destruct (socket (session k))). clear Hs. destruct (credential (session k)); [|apply moves_still, still_pullCredentialSource].
  match goal with |- moves k (?m k).2 => change (wp m (fun _ => moves k) k) end.
  assert (Hm : forall k', still k k' -> moves k k') by (intros k' ([= E1 E2 _ _ _ _ _ E8 _ _ _ _] & _); by apply moves_same).
  apply (wp_then _ _ (still k)); [apply still_credential_expired|done|]. intros expired k1 H1.
  destruct expired; [apply Hm; etransitivity; [exact H1|apply still_pullCredentialSource]|].
  apply (wp_then _ _ (still k)); [unfold wp; etransitivity; [exact H1|apply still_clock]|done|]. intros now k2 H2.
  case_decide; [unfold wp; etransitivity; [by apply Hm|apply moves_scheduleReconnect]|].
  eapply wp_mono; [apply moves_dial; by rewrite (still_socket _ _ H2)|]. intros r k3 H3. etransitivity; [by apply Hm|exact H3].
Qed.
#[local] Hint Resolve moves_ensureConnected : keep.
Lemma moves_handleClose g : keeps moves (handleClose g).
Proof. unfold handleClose. moves_tac. Qed.
#[local] Hint Resolve moves_handleClose : keep.
Lemma moves_sendText t : keeps moves (sendText t).
Proof. unfold sendText. moves_tac. Qed.
#[local] Hint Resolve moves_sendText : keep.
Lemma moves_sendFrame m : keeps moves (sendFrame m).
Proof. unfold sendFrame. moves_tac. Qed.
#[local] Hint Resolve moves_sendFrame : keep.
Lemma moves_sendRequest id : keeps moves (sendRequest id).
Proof. unfold sendRequest. moves_tac. Qed.
#[local] Hint Resolve moves_sendRequest : keep.
Lemma moves_sendProcedureCancel id r : keeps moves (sendProcedureCancel id r).
Proof. unfold sendProcedureCancel. moves_tac. Qed.
#[local] Hint Resolve moves_sendProcedureCancel : keep.
Lemma moves_expireRequest id : keeps moves (expireRequest id).
Proof. unfold expireRequest. moves_tac. Qed.
#[local] Hint Resolve moves_expireRequest : keep.
Lemma moves_cancelProcedure id : keeps moves (cancelProcedure id).
Proof. unfold cancelProcedure. moves_tac. Qed.
#[local] Hint Resolve moves_cancelProcedure : keep.
Lemma moves_request kind ref args : keeps moves (request kind ref args).
Proof. unfold request. moves_tac. Qed.
#[local] Hint Resolve moves_request : keep.
Lemma moves_procedure ref args : keeps moves (procedure ref args).
Proof. unfold procedure. moves_tac. Qed.
#[local] Hint Resolve moves_procedure : keep.
Lemma moves_sendSubscription id : keeps moves (sendSubscription id).
Proof. unfold sendSubscription. moves_tac. Qed.
#[local] Hint Resolve moves_sendSubscription : keep.
Lemma moves_subscribe kind ref args : keeps moves (subscribe kind ref args).
Proof. unfold subscribe. moves_tac. Qed.
#[local] Hint Resolve moves_subscribe : keep.
Lemma moves_removeSubscription id b : keeps moves (removeSubscription id b).
Proof. unfold removeSubscription. moves_tac. Qed.
#[local] Hint Resolve moves_removeSubscription : keep.
Lemma moves_requestReset id : keeps moves (requestReset id).
Proof. unfold requestReset. moves_tac. Qed.
#[local] Hint Resolve moves_requestReset : keep.
Lemma moves_channels_send frame : keeps moves (channels_send frame).
Proof. unfold channels_send. moves_tac. Qed.
#[local] Hint Resolve moves_channels_send : keep.
Lemma moves_channels_sendFrame m : keeps moves (channels_sendFrame m).
Proof. unfold channels_sendFrame. moves_tac. Qed.
#[local] Hint Resolve moves_channels_sendFrame : keep.
Lemma moves_flushGroup id : keeps moves (flushGroup id).
Proof. unfold flushGroup. moves_tac. Qed.
#[local] Hint Resolve moves_flushGroup : keep.
Lemma moves_channels_flush : keeps moves channels_flush.
Proof. unfold channels_flush. moves_tac. Qed.
#[local] Hint Resolve moves_channels_flush : keep.
Lemma moves_observe ref args room hk on : keeps moves (observe ref args room hk on).
Proof. unfold observe. moves_tac. Qed.
#[local] Hint Resolve moves_observe : keep.
Lemma moves_channel ref args room hk on : keeps moves (channel ref args room hk on).
Proof. unfold channel. moves_tac. Qed.
#[local] Hint Resolve moves_channel : keep.
Lemma moves_releaseGroup id b : keeps moves (releaseGroup id b).
Proof. unfold releaseGroup. moves_tac. Qed.
#[local] Hint Resolve moves_releaseGroup : keep.
Lemma moves_channels_close : keeps moves channels_close.
Proof. unfold channels_close. moves_tac. Qed.
#[local] Hint Resolve moves_channels_close : keep.
Lemma moves_channel_send id o event payload : keeps moves (channel_send id o event payload).
Proof. unfold channel_send. moves_tac. Qed.
#[local] Hint Resolve moves_channel_send : keep.
Lemma moves_channel_close id o : keeps moves (channel_close id o).
Proof. unfold channel_close. moves_tac. Qed.
#[local] Hint Resolve moves_channel_close : keep.
Lemma moves_retainCursor id c : keeps moves (retainCursor id c).
Proof. unfold retainCursor. moves_tac. Qed.
#[local] Hint Resolve moves_retainCursor : keep.
Lemma moves_applyTransition id t : keeps moves (applyTransition id t).
Proof. unfold applyTransition. moves_tac. Qed.
#[local] Hint Resolve moves_applyTransition : keep.
Lemma moves_applyLiveEvent id e : keeps moves (applyLiveEvent id e).
Proof. unfold applyLiveEvent. moves_tac. Qed.
#[local] Hint Resolve moves_applyLiveEvent : keep.
Lemma moves_applyMutationReceipt id r rc result : keeps moves (applyMutationReceipt id r rc result).
Proof. unfold applyMutationReceipt. moves_tac. Qed.
#[local] Hint Resolve moves_applyMutationReceipt : keep.
Lemma moves_applyAnswer id kind result rc message : keeps moves (applyAnswer id kind result rc message).
Proof. unfold applyAnswer. moves_tac. Qed.
#[local] Hint Resolve moves_applyAnswer : keep.
Lemma moves_sendAuth a : keeps moves (sendAuth a).
Proof. unfold sendAuth. moves_tac. Qed.
#[local] Hint Resolve moves_sendAuth : keep.
Lemma moves_resolveAuth a accepted : keeps moves (resolveAuth a accepted).
Proof. unfold resolveAuth. moves_tac. Qed.
#[local] Hint Resolve moves_resolveAuth : keep.
Lemma moves_blockAuthentication e : keeps moves (blockAuthentication e).
Proof. unfold blockAuthentication. moves_tac. Qed.
#[local] Hint Resolve moves_blockAuthentication : keep.
Lemma moves_expireAuthAttempt a : keeps moves (expireAuthAttempt a).
Proof. unfold expireAuthAttempt. moves_tac. Qed.
#[local] Hint Resolve moves_expireAuthAttempt : keep.
Lemma moves_supersede_attempt : keeps moves supersede_attempt.
Proof. unfold supersede_attempt. moves_tac. Qed.
#[local] Hint Resolve moves_supersede_attempt : keep.
Lemma moves_install c : keeps moves (install c).
Proof. unfold install. moves_tac. Qed.
#[local] Hint Resolve moves_install : keep.
Lemma moves_presentCredential c : keeps moves (presentCredential c).
Proof. unfold presentCredential. moves_tac. Qed.
#[local] Hint Resolve moves_presentCredential : keep.
Lemma moves_refreshCredential c : keeps moves (refreshCredential c).
Proof. unfold refreshCredential. moves_tac. Qed.
#[local] Hint Resolve moves_refreshCredential : keep.
Lemma moves_source_answers c : keeps moves (source_answers c).
Proof. unfold source_answers. moves_tac. Qed.
#[local] Hint Resolve moves_source_answers : keep.
Lemma moves_pull_settles : keeps moves pull_settles.
Proof. unfold pull_settles. moves_tac. Qed.
#[local] Hint Resolve moves_pull_settles : keep.
Lemma moves_flushState : keeps moves flushState.
Proof. unfold flushState. moves_tac. Qed.
#[local] Hint Resolve moves_flushState : keep.
Lemma moves_log_here t : keeps moves (log_here t).
Proof. unfold log_here. moves_tac. Qed.
#[local] Hint Resolve moves_log_here : keep.
Lemma moves_welcome d id epoch : keeps moves (welcome d id epoch).
Proof. unfold welcome. moves_tac. Qed.
#[local] Hint Resolve moves_welcome : keep.
Lemma moves_authenticated d id epoch : keeps moves (authenticated d id epoch).
Proof. unfold authenticated. moves_tac. Qed.
#[local] Hint Resolve moves_authenticated : keep.
Lemma moves_connection_error o : keeps moves (connection_error o).
Proof. unfold connection_error. moves_tac. Qed.
#[local] Hint Resolve moves_connection_error : keep.
Lemma moves_scheduleSubscriptionRetry id floor : keeps moves (scheduleSubscriptionRetry id floor).
Proof. unfold scheduleSubscriptionRetry. moves_tac. Qed.
#[local] Hint Resolve moves_scheduleSubscriptionRetry : keep.
Lemma moves_answer_error id o : keeps moves (answer_error id o).
Proof. unfold answer_error. moves_tac. Qed.
#[local] Hint Resolve moves_answer_error : keep.
Lemma moves_operation_error id o : keeps moves (operation_error id o).
Proof. unfold operation_error. moves_tac. Qed.
#[local] Hint Resolve moves_operation_error : keep.
Lemma moves_dispatch m : keeps moves (dispatch m).
Proof. unfold dispatch. moves_tac. Qed.
#[local] Hint Resolve moves_dispatch : keep.
Lemma moves_handleIncoming g i : keeps moves (handleIncoming g i).
Proof. unfold handleIncoming. moves_tac. Qed.
#[local] Hint Resolve moves_handleIncoming : keep.
Lemma moves_close : keeps moves close.
Proof. unfold close. moves_tac. Qed.
#[local] Hint Resolve moves_close : keep.
Lemma moves_suspendTransport : keeps moves suspendTransport.
Proof. unfold suspendTransport, pause_attempt. moves_tac. Qed.
#[local] Hint Resolve moves_suspendTransport : keep.
Lemma moves_resumeTransport : keeps moves resumeTransport.
Proof. unfold resumeTransport. moves_tac. Qed.
#[local] Hint Resolve moves_resumeTransport : keep.
Lemma moves_reconnect_timer : keeps moves reconnect_timer.
Proof. unfold reconnect_timer. moves_tac. Qed.
#[local] Hint Resolve moves_reconnect_timer : keep.
Lemma moves_stable_timer : keeps moves stable_timer.
Proof. unfold stable_timer. moves_tac. Qed.
#[local] Hint Resolve moves_stable_timer : keep.
Lemma moves_ping_timer : keeps moves ping_timer.
Proof. unfold ping_timer. moves_tac. Qed.
#[local] Hint Resolve moves_ping_timer : keep.
Lemma moves_attempt_timer : keeps moves attempt_timer.
Proof. unfold attempt_timer. moves_tac. Qed.
#[local] Hint Resolve moves_attempt_timer : keep.
Lemma moves_source_retry_timer : keeps moves source_retry_timer.
Proof. unfold source_retry_timer. moves_tac. Qed.
#[local] Hint Resolve moves_source_retry_timer : keep.
Lemma moves_source_refresh_timer : keeps moves source_refresh_timer.
Proof. unfold source_refresh_timer. moves_tac. Qed.
#[local] Hint Resolve moves_source_refresh_timer : keep.
Lemma moves_retry_timer id : keeps moves (retry_timer id).
Proof. unfold retry_timer. moves_tac. Qed.
#[local] Hint Resolve moves_retry_timer : keep.

(** ** What a platform does with its sockets *)

(** A socket opens at most once, after it was made, and says nothing before: the
    order a [WebSocket] gives its events. Sockets are named by the generations
    of the connection. *)
Fixpoint orderly (opened : gset Z) k (es : list ClientEvent) : bool :=
  match es with
  | [] => true
  | e :: es =>
      match e with
      | KOpened g => bool_decide (g ∉ opened) && bool_decide (g <= connectionGeneration (session k)) &&
          orderly ({[g]} ∪ opened) (client_step k e) es
      | KIncoming g _ => bool_decide (g ∈ opened) && orderly opened (client_step k e) es
      | _ => orderly opened (client_step k e) es
      end
  end.

(** The sockets that opened are known, and whether the current one did. *)
Definition known (opened : gset Z) k : Prop :=
  (forall g, g ∈ opened -> g <= connectionGeneration (session k)) /\
  (forall g, socket (session k) = Some g -> (socketOpen (session k) = true <-> g ∈ opened)).

Lemma session_resting k : session_ok k -> resting k.
Proof. intros [(p & _ & Hs) _ _] E. unfold stands in Hs. rewrite E in Hs. by destruct Hs as (_ & H & _). Qed.

Lemma moves_step k e : (forall g, e <> KOpened g) -> moves k (client_step k e).
Proof.
  intros H. unfold client_step. destruct e; try (by destruct (H socket));
    match goal with |- moves _ (?m _).2 => assert (G : keeps moves m) by (cbn; moves_tac); exact (G k) end.
Qed.

Lemma known_moved opened k k' : known opened k -> resting k -> moves k k' -> known opened k'.
Proof.
  intros [H2 H3] Hr [G H]. destruct (H Hr) as [_ D]. split.
  - intros g Hg. specialize (H2 g Hg). lia.
  - intros g Hs. destruct D as [E|[[E1 E2]|(g' & E1 & E2 & E3)]]; [by rewrite E in Hs|rewrite E2; apply H3; by rewrite <- E1|].
    assert (g' = g) as -> by congruence. rewrite E3. split; [done|]. intros Hg. specialize (H2 g Hg). lia.
Qed.

(** A socket that opens is open, or lost. *)
Lemma known_opened opened g k : session_ok k -> known opened k -> g <= connectionGeneration (session k) ->
  known ({[g]} ∪ opened) (client_step k (KOpened g)).
Proof.
  intros Hk [H2 H3] Hg. assert (Hm : forall g', g' ∈ {[g]} ∪ opened -> g' <= connectionGeneration (session k)).
  { intros g' [->%elem_of_singleton|Hin]%elem_of_union; auto. }
  unfold client_step, client_handle, handleOpen. rewrite run_get. case_bool_decide as Hs; cbn [negb orb].
  - destruct (flags_socket _ (session_flags _ Hk)) as (-> & _); [by rewrite Hs|]. unfold update_session. rewrite run_modify.
    match goal with |- known _ (?m _).2 => assert (G : keeps moves m) by moves_tac; eapply known_moved; [| |apply G] end.
    + split; [done|]. cbn. rewrite Hs. intros g' [= <-]. split; [set_solver|done].
    + unfold resting. cbn. by rewrite Hs.
  - split; [done|]. intros g' Hs'. rewrite (H3 g' Hs'). assert (g' <> g) by (intros ->; by apply Hs). set_solver.
Qed.

(** ** The protocol, whatever happens *)

Lemma protocol_run opened k es : session_ok k -> known opened k -> orderly opened k es = true -> session_ok (client_run k es).
Proof.
  revert opened k. induction es as [|e es IH]; intros opened k Hk Hn Ho; [done|]. cbn [client_run foldl]. change (session_ok (client_run (client_step k e) es)).
  assert (Hother : (forall g, e <> KOpened g) -> timely k e -> orderly opened (client_step k e) es = true -> session_ok (client_run (client_step k e) es)).
  { intros He Ht Hrest. eapply IH; [by apply session_step| |exact Hrest]. eapply known_moved; [exact Hn|by apply session_resting|by apply moves_step]. }
  destruct e; try (by apply Hother); cbn in Ho.
  - repeat (apply andb_true_iff in Ho as [Ho ?]). apply bool_decide_eq_true in Ho as Hg. rewrite bool_decide_eq_true in H0.
    eapply IH; [|by apply known_opened|done]. apply session_step; [done|]. intros Hs. apply not_true_is_false. intros Hopen. by apply Hg, (proj2 Hn _ Hs).
  - apply andb_true_iff in Ho as [Hg Ho]. apply bool_decide_eq_true in Hg. apply Hother; [done| |done]. intros Hs. by apply (proj2 Hn _ Hs).
Qed.

Lemma known_initial k0 : new_Client = Ret k0 -> known ∅ k0.
Proof.
  intros ->%new_Client_ret. eapply (known_moved _ initial_client); [|by intros ?|apply (moves_ensureConnected initial_client)]. split; [intros g Hg; by apply elem_of_empty in Hg|done].
Qed.

(** C6: whatever the application, the platform and the server do, and whatever
    is lost, what a client's sockets carry follows the session protocol: one
    connection at a time, a greeting before anything else, nothing for the
    session before the server's welcome, and no operation while a credential
    is presented and not confirmed; the session's flags say where the
    connection stands, a connection is kept only by a session that is neither
    closed, failed, suspended nor awaiting a credential, and one that is over
    retains no subscription and no request. *)
Theorem client_follows_protocol k0 es : new_Client = Ret k0 -> orderly ∅ k0 es = true ->
  let k := client_run k0 es in
  (exists p, accepts (traffic k) p /\ stands (session k) p) /\ flags_ok (session k) /\ demand_ok k.
Proof.
  intros H0 Ho. assert (Hr : session_ok (client_run k0 es)); [|by destruct Hr].
  eapply protocol_run; [by apply session_initial|by apply known_initial|done].
Qed.
End steps.

(** ** A client that presents another credential *)

Definition presenting_options : ClientOptions := {|
  maxPendingItems := 10; maxPendingBytes := 1000; client_maxFrameBytes := 100; maxMutationAgeMs := 1000; maxQueryAgeMs := 1000;
  reconnect_policy := MkRetryPolicy 10 100; client_session := "session"%string; credential_given := Some Anonymous;
  client_now n := num_of_Z (Z.of_nat n); client_random _ := num_of_Z 0; dial_fails _ := false; send_fails n := bool_decide (n = 5%nat);
  Client.text_bytes _ := 10 |}.

(** A mutation waits for the welcome, a query for the new credential, and the
    last send breaks the connection. *)
Definition presenting_events : list ClientEvent :=
  [KMutation "add"%string (VObj []); KOpened 1; KIncoming 1 (HandshakeFrame (Welcome AnonymousPrincipal "session"%string (num_of_Z 0)));
   KRefresh (Some (Bearer "token"%string)); KQuery "one"%string (VObj []); KPing;
   KIncoming 1 (SessionFrame (SAuthenticated AnonymousPrincipal (num_of_Z 2) (num_of_Z 1)));
   KQuery "two"%string (VObj []); KReconnect; KOpened 2].

Abbreviation presenting_new := (@ensureConnected presenting_options (@initial_client presenting_options)).2.
Abbreviation presenting_run := (@client_run presenting_options presenting_new presenting_events).

Lemma presenting_starts : @new_Client presenting_options = Ret presenting_new.
Proof. vm_compute. reflexivity. Qed.

Lemma presenting_orderly : @orderly presenting_options ∅ presenting_new presenting_events = true.
Proof. vm_compute. reflexivity. Qed.

(** The steps of the connections, without the texts. *)
Definition marks (tr : list Traffic) : list (string * Z) :=
  (fun t => match t with
    | Dialed g => ("dialed"%string, g) | Handed g _ => ("handed"%string, g) | Welcomed g => ("welcomed"%string, g)
    | Confirmed g _ => ("confirmed"%string, g) | Retired g => ("retired"%string, g)
    end) <$> tr.

Lemma presenting_marks : marks (traffic presenting_run) =
  (fun '(m, g) => (m, g)) <$> [("dialed", 1); ("handed", 1); ("welcomed", 1); ("handed", 1); ("handed", 1); ("handed", 1); ("confirmed", 1);
    ("handed", 1); ("retired", 1); ("dialed", 2); ("handed", 2)]%string.
Proof. vm_compute. reflexivity. Qed.

Lemma client_follows_protocol_witness :
  length (traffic presenting_run) = 11%nat /\ exists p, @accepts presenting_options (traffic presenting_run) p.
Proof.
  destruct (@client_follows_protocol presenting_options presenting_new presenting_events presenting_starts presenting_orderly)
    as [(p & Hp & _) _].
  split; [|by exists p]. pose proof presenting_marks as H. apply (f_equal length) in H. unfold marks in H. by rewrite !length_fmap in H.
Defined.
