(* ===== verification/Cron.v ===== *)
(** Cron expressions: [server/src/jobs/cron.ts], and the [Number] of a string.

    What a time zone's clocks show at an instant is [Intl.DateTimeFormat]'s: a
    parameter. Instants are whole milliseconds. *)
From Stdlib Require Import Qround Qabs Ascii.
From S2P Require Import Prelude Errors Value Wire Float32 Retry.
Local Open Scope string_scope.
Local Open Scope Z_scope.
Local Open Scope list_scope.

Abbreviation text := (list Ascii.ascii).

(** ** [Number] of a string *)

(** A rational, rounded to a number. *)
Definition to_number (negative : bool) (q : Q) : num :=
  let r := round64 q in
  if Qeq_bool r 0 then (if negative then NNegZero else num_of_Z 0)
  else if Qle_bool (pow2 1024) r then NInf negative
  else NFin (Q2Qc (if negative then - r else r)%Q).

(** The decimal digits a text begins with: what they add to [acc], how many they
    are, and what follows them. *)
Fixpoint decimal_digits (acc : Z) (count : nat) (l : text) : Z * nat * text :=
  match l with
  | a :: rest =>
      match digit_in 10 a with
      | Some d => decimal_digits (acc * 10 + d) (S count) rest
      | None => (acc, count, l)
      end
  | [] => (acc, count, [])
  end.

Definition take_sign (l : text) : bool * text :=
  match l with
  | "+"%char :: rest => (false, rest)
  | "-"%char :: rest => (true, rest)
  | _ => (false, l)
  end.

(** The exponent that ends a decimal literal. *)
Definition exponent (l : text) : option Z :=
  match l with
  | [] => Some 0
  | ("e"%char | "E"%char) :: rest =>
      let '(negative, digits) := take_sign rest in
      match decimal_digits 0 0 digits with
      | (z, S _, []) => Some (if (negative : bool) then - z else z)
      | _ => None
      end
  | _ => None
  end.

Definition power10 (e : Z) : Q := Qpower (10 # 1) e.

(** [StrUnsignedDecimalLiteral] *)
Definition unsigned_decimal (l : text) : option (option Q) :=
  if decide (l = chars "Infinity") then Some None
  else
    let '(whole, n, rest) := decimal_digits 0 0 l in
    let '(all, m, rest) := match rest with "."%char :: rest => decimal_digits whole 0 rest | _ => (whole, 0%nat, rest) end in
    if decide (n = 0%nat /\ m = 0%nat) then None
    else e ← exponent rest; Some (Some (inject_Z all * power10 (e - Z.of_nat m))%Q).

Definition Number (s : string) : num :=
  let t := js_trim s in
  if decide (t = EmptyString) then num_of_Z 0
  else match parse_radix t with
  | Some z => to_number false (inject_Z z)
  | None =>
      let '(negative, l) := take_sign (chars t) in
      match unsigned_decimal l with
      | Some (Some q) => to_number negative q
      | Some None => NInf negative
      | None => NNaN
      end
  end.

(** ** Expressions *)

Record CronField : Type := MkCronField { values : gset Z; any : bool }.

Record CronExpression : Type := MkCronExpression {
  minute : CronField;
  hour : CronField;
  dayOfMonth : CronField;
  month : CronField;
  dayOfWeek : CronField;
}.

Definition FIELD_RANGES : list (Z * Z * string) :=
  [(0, 59, "minute"%string); (0, 23, "hour"%string); (1, 31, "day-of-month"%string); (1, 12, "month"%string); (0, 7, "day-of-week"%string)].

(** [s.split(c)], for one character. *)
Fixpoint split (c : Ascii.ascii) (l : text) : list text :=
  match l with
  | [] => [[]]
  | a :: rest =>
      if decide (a = c) then [] :: split c rest
      else match split c rest with p :: ps => (a :: p) :: ps | [] => [[a]] end
  end.

Definition cron_error (label what : string) : js_error := TypeError ("cron " +:+ label +:+ " " +:+ what).
Definition quoted (l : text) : string := of_chars (ascii_of_nat 34 :: l ++ [ascii_of_nat 34]).
Definition malformed_part (label : string) (part : text) : js_error := cron_error label (quoted part +:+ " is malformed").
Definition step_error (label : string) (stepSpec : text) : js_error :=
  cron_error label ("step " +:+ quoted stepSpec +:+ " must be a positive integer").

(** [for (let value = low; value <= high; value += step) values.add(...)] *)
Fixpoint add_steps (fuel : nat) (max high step value : Z) (acc : gset Z) : gset Z :=
  match fuel with
  | O => acc
  | S fuel =>
      if decide (value <= high)
      then add_steps fuel max high step (value + step) ({[if decide (value = 7 /\ max = 7) then 0 else value]} ∪ acc)
      else acc
  end.

(** The bounds of a range, and whether it was written with two. *)
Definition parse_bounds (rangeSpec part : text) (min max : Z) (label : string) : exc js_error (Z * Z * bool) :=
  if decide (rangeSpec = ["*"%char]) then Ret (min, max, true)
  else
    let bounds := split "-"%char rangeSpec in
    if decide (2 < length bounds)%nat then Throw (malformed_part label part)
    else
      let first := Number (of_chars (default [] (head bounds))) in
      let second := match bounds with [_; b] => Number (of_chars b) | _ => first end in
      match num_integer first, num_integer second with
      | Some low, Some high =>
          if decide (low < min \/ max < high \/ high < low)
          then Throw (cron_error label (quoted part +:+ " is outside " +:+ Z_decimal min +:+ "-" +:+ Z_decimal max))
          else Ret (low, high, bool_decide (length bounds = 2%nat))
      | _, _ => Throw (cron_error label (quoted part +:+ " must use integers"))
      end.

Definition parse_part (part : text) (min max : Z) (label : string) (acc : gset Z) : exc js_error (gset Z) :=
  let pieces := split "/"%char part in
  let rangeSpec := default [] (head pieces) in
  if decide ((2 < length pieces)%nat \/ rangeSpec = []) then Throw (malformed_part label part)
  else
    let stepSpec := pieces !! 1%nat in
    match num_integer (match stepSpec with None => num_of_Z 1 | Some s => Number (of_chars s) end) with
    | None => Throw (step_error label (default [] stepSpec))
    | Some step =>
        if decide (step < 1) then Throw (step_error label (default [] stepSpec))
        else
          '(low, high, two) ← parse_bounds rangeSpec part min max label;
          let high := if bool_decide (stepSpec <> None) && negb two then max else high in
          Ret (add_steps (Z.to_nat (high - low + 1)) max high step low acc)
    end.

Fixpoint parse_parts (parts : list text) (min max : Z) (label : string) (acc : gset Z) : exc js_error (gset Z) :=
  match parts with
  | [] => Ret acc
  | part :: parts => acc ← parse_part part min max label acc; parse_parts parts min max label acc
  end.

Definition parseField (spec : text) (min max : Z) (label : string) : exc js_error CronField :=
  if decide (spec = ["*"%char]) then Ret (MkCronField ∅ true)
  else vs ← parse_parts (split ","%char spec) min max label ∅; Ret (MkCronField vs false).

(** [s.split(/\s+/)], of a text that begins and ends with no space. *)
Fixpoint split_spaces (fuel : nat) (l : text) : list text :=
  match fuel, l with
  | S fuel, a :: rest =>
      match first_some (fun p => strip_prefix p l) js_spaces with
      | Some after => [] :: split_spaces fuel (trim_left js_spaces fuel after)
      | None => match split_spaces fuel rest with p :: ps => (a :: p) :: ps | [] => [[a]] end
      end
  | _, _ => [[]]
  end.

Definition parseCronExpression (expression : string) : exc js_error CronExpression :=
  let l := chars (js_trim expression) in
  match split_spaces (S (length l)) l with
  | [f0; f1; f2; f3; f4] =>
      minute ← parseField f0 0 59 "minute";
      hour ← parseField f1 0 23 "hour";
      dayOfMonth ← parseField f2 1 31 "day-of-month";
      month ← parseField f3 1 12 "month";
      dayOfWeek ← parseField f4 0 7 "day-of-week";
      Ret (MkCronExpression minute hour dayOfMonth month dayOfWeek)
  | _ => Throw (TypeError ("cron expression " +:+ quoted (chars expression) +:+
           " must have exactly 5 fields (minute hour day-of-month month day-of-week)"))
  end.

(** ** The search *)

(** The wall clock of a time zone, to the minute; [weekday] is 0 on Sunday. *)
Record WallClock : Type := MkWallClock { year : Z; wall_month : Z; day : Z; wall_hour : Z; wall_minute : Z; weekday : Z }.

Definition MINUTE_MS : Z := 60000.
Definition SEARCH_LIMIT_MS : Z := 4 * 366 * 24 * 60 * MINUTE_MS.

Definition has (f : CronField) (z : Z) : bool := bool_decide (z ∈ values f).

Definition matchesDay (e : CronExpression) (c : WallClock) : bool :=
  let domRestricted := negb (any (dayOfMonth e)) in
  let dowRestricted := negb (any (dayOfWeek e)) in
  let domMatches := negb domRestricted || has (dayOfMonth e) (day c) in
  let dowMatches := negb dowRestricted || has (dayOfWeek e) (weekday c) in
  if domRestricted && dowRestricted then domMatches || dowMatches else domMatches && dowMatches.

Definition matches (e : CronExpression) (c : WallClock) : bool :=
  (any (minute e) || has (minute e) (wall_minute c)) && (any (hour e) || has (hour e) (wall_hour c)) &&
  (any (month e) || has (month e) (wall_month c)) && matchesDay e c.

(** The wall tuple, to the minute. *)
Definition same_wall (a b : WallClock) : bool :=
  bool_decide (year a = year b) && bool_decide (wall_month a = wall_month b) && bool_decide (day a = day b) &&
  bool_decide (wall_hour a = wall_hour b) && bool_decide (wall_minute a = wall_minute b).

Section search.
(** What [Intl.DateTimeFormat] writes for an instant of a time zone; it throws
    for a zone it does not know. The hour of midnight may be 24. *)
Context (formatToParts : string -> option (Z -> WallClock)).

Definition wallClockAt (parts : Z -> WallClock) (timestamp : Z) : WallClock :=
  let c := parts timestamp in MkWallClock (year c) (wall_month c) (day c) (wall_hour c mod 24) (wall_minute c) (weekday c).

(** How far the search goes on from an instant that is no occurrence. *)
Definition skip (e : CronExpression) (c : WallClock) : Z :=
  if (negb (any (month e)) && negb (has (month e) (wall_month c))) || negb (matchesDay e c)
  then (24 * 60 - (wall_hour c * 60 + wall_minute c)) * MINUTE_MS
  else if negb (any (hour e)) && negb (has (hour e) (wall_hour c)) then (60 - wall_minute c) * MINUTE_MS
  else MINUTE_MS.

Fixpoint search (fuel : nat) (e : CronExpression) (clock : Z -> WallClock) (afterClock : WallClock) (limit timestamp : Z) : option Z :=
  match fuel with
  | O => None
  | S fuel =>
      if decide (limit <= timestamp) then None
      else
        let c := clock timestamp in
        if matches e c then
          if same_wall c afterClock then search fuel e clock afterClock limit (timestamp + MINUTE_MS) else Some timestamp
        else search fuel e clock afterClock limit (timestamp + skip e c)
  end.

Definition cronNext (expression tz : string) (after : Z) : exc js_error (option Z) :=
  parsed ← parseCronExpression expression;
  match formatToParts tz with
  | None => Throw (RangeError "invalid time zone")
  | Some parts =>
      let clock := wallClockAt parts in
      let timestamp := (after / MINUTE_MS + 1) * MINUTE_MS in
      Ret (search (Z.to_nat (SEARCH_LIMIT_MS / MINUTE_MS)) parsed clock (clock after) (timestamp + SEARCH_LIMIT_MS) timestamp)
  end.
End search.
