(* ===== verification/CronProps.v ===== *)
(** Cron expressions mean what their fields say, and the search finds their
    first occurrence, when no minute of the wall clock is skipped. *)
From Stdlib Require Import Qround Qabs Qpower Ascii.
From S2P Require Import Prelude Errors Value Wire Float32 Retry Cron.
Local Open Scope string_scope.
Local Open Scope Z_scope.
Local Open Scope list_scope.

(** ** The first occurrence *)

(** An occurrence after [after]: a whole minute whose wall clock matches, and
    does not repeat the one of [after]. *)
Definition due (e : CronExpression) (clock : Z -> WallClock) (after t : Z) : Prop :=
  t mod MINUTE_MS = 0 /\ after < t /\ matches e (clock t) = true /\ same_wall (clock t) (clock after) = false.

Definition same_day (a b : WallClock) : Prop := wall_month a = wall_month b /\ day a = day b /\ weekday a = weekday b.

(** No wall minute is skipped from [from] on, before [until]: what remains of a
    wall day is at least that long, and so is what remains of an hour. Clocks
    that are turned back are not excluded. *)
Definition calm (clock : Z -> WallClock) (from until : Z) : Prop :=
  forall t, t mod MINUTE_MS = 0 -> from <= t < until ->
    let c := clock t in
    0 <= wall_hour c < 24 /\ 0 <= wall_minute c < 60 /\
    (forall i, 0 <= i < 24 * 60 - (wall_hour c * 60 + wall_minute c) -> same_day (clock (t + i * MINUTE_MS)) c) /\
    (forall i, 0 <= i < 60 - wall_minute c -> wall_hour (clock (t + i * MINUTE_MS)) = wall_hour c).

Section search.
Context (e : CronExpression) (clock : Z -> WallClock) (after limit : Z).

Lemma matchesDay_same a b : same_day a b -> matchesDay e a = matchesDay e b.
Proof. intros (_ & H2 & H3). unfold matchesDay. by rewrite H2, H3. Qed.

(** An instant that is no occurrence is followed by none before the end of the
    skip. *)
Lemma skip_sound t from i : calm clock from limit -> t mod MINUTE_MS = 0 -> from <= t < limit ->
  matches e (clock t) = false -> 0 <= i * MINUTE_MS < skip e (clock t) -> matches e (clock (t + i * MINUTE_MS)) = false.
Proof.
  intros Hc Ht Hr Hm Hi. destruct (Hc t Ht Hr) as (Hh & Hmin & Hday & Hhour). unfold skip, MINUTE_MS in Hi.
  destruct (negb (any (month e)) && _ || _) eqn:Hs; [unfold matches|].
  - destruct (Hday i ltac:(lia)) as (E1 & E2 & E3).
    rewrite (matchesDay_same _ _ (Hday i ltac:(lia))), E1. apply orb_true_iff in Hs as [Hs|Hs].
    + apply andb_true_iff in Hs as [H1 H2]. apply negb_true_iff in H1, H2. rewrite H1, H2. cbn. by rewrite andb_false_r.
    + apply negb_true_iff in Hs. rewrite Hs. by rewrite andb_false_r.
  - destruct (negb (any (hour e)) && _) eqn:Hh'; [unfold matches|].
    + rewrite (Hhour i ltac:(lia)). apply andb_true_iff in Hh' as [H1 H2]. apply negb_true_iff in H1, H2. rewrite H1, H2. cbn.
      by rewrite andb_false_r.
    + assert (i = 0) as -> by lia. by rewrite Z.add_0_r.
Qed.

Lemma skip_minutes t from : calm clock from limit -> t mod MINUTE_MS = 0 -> from <= t < limit ->
  exists n, 1 <= n /\ skip e (clock t) = n * MINUTE_MS.
Proof.
  intros Hc Ht Hr. destruct (Hc t Ht Hr) as (Hh & Hmin & _ & _). unfold skip.
  destruct (_ || _); [eexists; split; [|done]; lia|]. destruct (_ && _); [eexists; split; [|done]; lia|]. exists 1. unfold MINUTE_MS. lia.
Qed.

(** The whole minutes from [t] on. *)
Lemma minutes_from t t' : t mod MINUTE_MS = 0 -> t' mod MINUTE_MS = 0 -> t <= t' -> exists i, 0 <= i /\ t' = t + i * MINUTE_MS.
Proof.
  intros H H' Hle. exists (t' / MINUTE_MS - t / MINUTE_MS). unfold MINUTE_MS in *.
  pose proof (Z.div_mod t 60000 ltac:(done)). pose proof (Z.div_mod t' 60000 ltac:(done)). lia.
Qed.

Lemma search_first fuel t from : calm clock from limit -> t mod MINUTE_MS = 0 -> from <= t ->
  (after < t) -> limit - t <= Z.of_nat fuel * MINUTE_MS ->
  match search fuel e clock (clock after) limit t with
  | Some r => t <= r < limit /\ due e clock after r /\ forall t', due e clock after t' -> t <= t' -> r <= t'
  | None => forall t', due e clock after t' -> t <= t' -> limit <= t'
  end.
Proof.
  intros Hc. revert t. induction fuel as [|fuel IH]; intros t Ht Hf Ha Hfuel; cbn [search].
  { intros t' _ H. lia. }
  case_decide as Hl; [intros t' _ H; lia|]. destruct (matches e (clock t)) eqn:Hm.
  - destruct (same_wall (clock t) (clock after)) eqn:Hs.
    + specialize (IH (t + MINUTE_MS) ltac:(by rewrite Z.add_mod, Ht by done) ltac:(unfold MINUTE_MS in *; lia)
        ltac:(unfold MINUTE_MS in *; lia) ltac:(unfold MINUTE_MS in *; lia)).
      assert (Hnext : forall t', due e clock after t' -> t <= t' -> t + MINUTE_MS <= t').
      { intros t' Hd Hle. destruct (minutes_from t t' Ht (proj1 Hd) Hle) as (i & Hi & ->). destruct (decide (i = 0)) as [->|]; [|unfold MINUTE_MS; lia].
        destruct Hd as (_ & _ & _ & Hd). by rewrite Z.add_0_r, Hs in Hd. }
      destruct (search _ _ _ _ _ _) as [r|].
      * destruct IH as (H1 & H2 & H3). split; [unfold MINUTE_MS in *; lia|]. split; [done|]. intros t' Hd Hle. apply H3; [done|auto].
      * intros t' Hd Hle. apply IH; [done|auto].
    + split; [lia|]. split; [done|]. lia.
  - destruct (skip_minutes t from Hc Ht ltac:(lia)) as (n & Hn & Hskip). assert (Hmod : (t + skip e (clock t)) mod MINUTE_MS = 0) by (by rewrite Hskip, Z.add_mod, Z.mod_mul, Ht by done).
    specialize (IH (t + skip e (clock t)) Hmod ltac:(unfold MINUTE_MS in *; lia) ltac:(unfold MINUTE_MS in *; lia)
      ltac:(unfold MINUTE_MS in *; lia)).
    assert (Hnext : forall t', due e clock after t' -> t <= t' -> t + skip e (clock t) <= t').
    { intros t' Hd Hle. destruct (minutes_from t t' Ht (proj1 Hd) Hle) as (i & Hi & ->).
      destruct (decide (i * MINUTE_MS < skip e (clock t))) as [Hlt|]; [|lia]. destruct Hd as (_ & _ & Hd & _).
      rewrite (skip_sound t from i Hc Ht ltac:(lia) Hm ltac:(unfold MINUTE_MS in *; lia)) in Hd. done. }
    destruct (search _ _ _ _ _ _) as [r|].
    + destruct IH as (H1 & H2 & H3). split; [unfold MINUTE_MS in *; lia|]. split; [done|]. intros t' Hd Hle. apply H3; [done|auto].
    + intros t' Hd Hle. apply IH; [done|auto].
Qed.
End search.

(** ** Texts *)

(** Visible ASCII: no space, whatever bytes come next. *)
Definition plain (a : Ascii.ascii) : bool := bool_decide (33 <= byte_of a < 128).

Lemma no_prefix (spaces : list text) a l :
  forallb (fun p => match p with b :: _ => negb (plain b) | [] => false end) spaces = true -> plain a = true ->
  first_some (fun p => strip_prefix p (a :: l)) spaces = None.
Proof.
  intros H Ha. induction spaces as [|p ps IH]; [done|]. cbn in H. apply andb_true_iff in H as [Hp H]. cbn.
  destruct p as [|b p]; [done|]. cbn. rewrite decide_False; [by apply IH|]. intros ->. by rewrite Ha in Hp.
Qed.

Lemma no_space a l : plain a = true -> first_some (fun p => strip_prefix p (a :: l)) js_spaces = None.
Proof. apply no_prefix. vm_compute. reflexivity. Qed.

Lemma no_space_rev a l : plain a = true -> first_some (fun p => strip_prefix p (a :: l)) (map (@rev _) js_spaces) = None.
Proof. apply no_prefix. vm_compute. reflexivity. Qed.

Lemma trim_plain spaces fuel l : (forall a l', plain a = true -> first_some (fun p => strip_prefix p (a :: l')) spaces = None) ->
  (forall p, p ∈ spaces -> p <> []) -> match l with a :: _ => plain a = true | [] => True end -> trim_left spaces fuel l = l.
Proof.
  intros H Hne Hl. destruct fuel as [|fuel]; [done|]. cbn. destruct l as [|a l]; [|by rewrite H].
  assert (E : first_some (fun p => strip_prefix p []) spaces = None); [|by rewrite E]. clear H Hl.
  induction spaces as [|p ps IH]; [done|]. cbn. destruct p as [|b p]; [by destruct (Hne [] ltac:(by left))|]. apply IH.
  intros q Hq. apply Hne. by right.
Qed.

(** A text that begins and ends with something visible is trimmed already. *)
Lemma js_trim_plain l : match head l with Some a => plain a = true | None => True end ->
  match last l with Some a => plain a = true | None => True end -> js_trim (of_chars l) = of_chars l.
Proof.
  intros Hh Hl. unfold js_trim. rewrite chars_of_chars. rewrite (trim_plain js_spaces).
  - rewrite (trim_plain (map (@rev _) js_spaces)).
    + by rewrite rev_involutive.
    + apply no_space_rev.
    + intros p Hp. assert (F : Forall (fun p => p <> []) (map (@rev Ascii.ascii) js_spaces)); [|by eapply Forall_forall in F].
      vm_compute. repeat constructor; discriminate.
    + destruct (rev l) as [|a l'] eqn:E; [done|]. assert (El : l = rev l' ++ [a]) by (by rewrite <- (rev_involutive l), E).
      by rewrite El, last_snoc in Hl.
  - apply no_space.
  - intros p Hp. assert (F : Forall (fun p => p <> []) js_spaces); [|by eapply Forall_forall in F].
    vm_compute. repeat constructor; discriminate.
  - by destruct l.
Qed.

Fixpoint join (c : Ascii.ascii) (ps : list text) : text :=
  match ps with [] => [] | [p] => p | p :: ps => p ++ c :: join c ps end.

Lemma split_none c l : c ∉ l -> split c l = [l].
Proof.
  induction l as [|a l IH]; [done|]. rewrite not_elem_of_cons. intros [Ha Hl]. cbn. rewrite decide_False by congruence. by rewrite IH.
Qed.

Lemma split_app c p l : c ∉ p -> split c (p ++ c :: l) = p :: split c l.
Proof.
  induction p as [|a p IH]; cbn; [by rewrite decide_True|]. rewrite not_elem_of_cons. intros [Ha Hp]. rewrite decide_False by congruence.
  by rewrite IH.
Qed.

Lemma split_join c p ps : Forall (fun q => c ∉ q) (p :: ps) -> split c (join c (p :: ps)) = p :: ps.
Proof.
  revert p. induction ps as [|q ps IH]; intros p H; apply Forall_cons in H as [Hp H]; [by apply split_none|].
  change (join c (p :: q :: ps)) with (p ++ c :: join c (q :: ps)). by rewrite split_app, IH.
Qed.

(** Fields of visible characters, one space between them. *)
Definition visible (p : text) : Prop := p <> [] /\ Forall (fun a => plain a = true) p.

Lemma split_spaces_none fuel p : visible p -> (length p < fuel)%nat -> split_spaces fuel p = [p].
Proof.
  intros [_ Hp]. revert fuel. induction p as [|a p IH]; intros [|fuel] Hf; cbn in Hf; try lia; [done|]. apply Forall_cons in Hp as [Ha Hp].
  cbn [split_spaces]. rewrite no_space by done. destruct p as [|b p]; [by destruct fuel|]. by rewrite (IH Hp) by (cbn in *; lia).
Qed.

Lemma split_spaces_app fuel p l : visible p -> match head l with Some a => plain a = true | None => True end ->
  (length (p ++ " "%char :: l) < fuel)%nat -> exists fuel', (length l < fuel')%nat /\ split_spaces fuel (p ++ " "%char :: l) = p :: split_spaces fuel' l.
Proof.
  intros [_ Hp] Hl. revert fuel. induction p as [|a p IH]; intros [|fuel] Hf; cbn in Hf; try lia.
  - exists fuel. split; [cbn in Hf; lia|]. cbn [app split_spaces]. set (o := first_some _ _).
    assert (Ho : o = Some l) by (vm_compute; reflexivity). rewrite Ho. f_equal. f_equal. apply trim_plain; [apply no_space| |by destruct l].
    intros q Hq. assert (F : Forall (fun p => p <> []) js_spaces); [|by eapply Forall_forall in F].
    vm_compute. repeat constructor; discriminate.
  - apply Forall_cons in Hp as [Ha Hp]. destruct (IH Hp fuel ltac:(lia)) as (fuel' & Hf' & E). exists fuel'. split; [done|].
    cbn [app split_spaces]. by rewrite no_space, E.
Qed.

Lemma split_spaces_join fuel p ps : Forall visible (p :: ps) -> (length (join " "%char (p :: ps)) < fuel)%nat ->
  split_spaces fuel (join " "%char (p :: ps)) = p :: ps.
Proof.
  revert fuel p. induction ps as [|q ps IH]; intros fuel p H Hf; apply Forall_cons in H as [Hp H]; [by apply split_spaces_none|].
  change (join " "%char (p :: q :: ps)) with (p ++ " "%char :: join " "%char (q :: ps)) in *.
  destruct (split_spaces_app fuel p (join " "%char (q :: ps)) Hp) as (fuel' & Hf' & ->); [|done|by rewrite IH].
  apply Forall_cons in H as [[Hq Hv] _]. destruct q as [|a q]; [done|]. apply Forall_cons in Hv as [Ha _]. by destruct ps.
Qed.

(** ** Numerals *)

Definition is_digit (a : Ascii.ascii) : bool := bool_decide (digit_in 10 a <> None).
Definition numeral (l : text) : Prop := l <> [] /\ Forall (fun a => is_digit a = true) l.
Definition numeral_value (l : text) : Z := (decimal_digits 0 0 l).1.1.

(** A property of digits, checked on the ten of them. *)
Lemma digit_cases (P : Ascii.ascii -> bool) : forallb (fun n => let a := ascii_of_nat n in negb (is_digit a) || P a) (seq 0 256) = true ->
  forall a, is_digit a = true -> P a = true.
Proof.
  intros H a Ha. rewrite forallb_forall in H. specialize (H (nat_of_ascii a)).
  cbv zeta in H. rewrite ascii_nat_embedding, Ha in H. apply H. apply in_seq. pose proof (nat_ascii_bounded a). lia.
Qed.

Lemma digit_plain a : is_digit a = true -> plain a = true.
Proof. apply digit_cases. vm_compute. reflexivity. Qed.

Lemma digits_read acc n l : Forall (fun a => is_digit a = true) l ->
  exists z, decimal_digits acc n l = (z, (n + length l)%nat, []) /\ (0 <= acc -> 0 <= z).
Proof.
  revert acc n. induction l as [|a l IH]; intros acc n H; cbn; [exists acc; by rewrite Nat.add_0_r|]. apply Forall_cons in H as [Ha H].
  unfold is_digit in Ha. apply bool_decide_eq_true in Ha. destruct (digit_in 10 a) as [d|] eqn:Hd; [|done].
  destruct (IH (acc * 10 + d) (S n) H) as (z & -> & Hz). exists z. split; [do 2 f_equal; lia|]. intros Hacc. apply Hz.
  unfold digit_in in Hd. cbv zeta in Hd. repeat (case_decide; try done); injection Hd as <-; lia.
Qed.

Lemma round64_Z z : 0 <= z < 2 ^ 53 -> (round64 (inject_Z z) == inject_Z z)%Q.
Proof.
  intros Hz. unfold round64. destruct (Qeq_bool (inject_Z z) 0) eqn:E0; [by apply Qeq_bool_iff in E0; rewrite E0|].
  assert (Hz0 : z <> 0) by (intros ->; done). assert (Hq : (0 < inject_Z z)%Q) by (rewrite <- (Zlt_Qlt 0); lia).
  assert (Ha : (Qabs (inject_Z z) == inject_Z z)%Q) by (by apply Qabs_pos, Qlt_le_weak).
  set (u := Z.max _ _). assert (Hu : u <= 0).
  { unfold u. destruct (ilog2_spec (Qabs (inject_Z z))) as [H1 _]; [by rewrite Ha|]. rewrite Ha in H1 at 2.
    assert (ilog2 (Qabs (inject_Z z)) < 53); [|lia]. apply (Qpower_lt_compat_l_inv 2); [|reflexivity].
    eapply Qle_lt_trans; [exact H1|]. change (Qpower 2 53) with (pow2 53). rewrite pow2_Z by lia. rewrite <- Zlt_Qlt. lia. }
  assert (Hd : (inject_Z z / pow2 u == inject_Z (z * 2 ^ (- u)))%Q).
  { rewrite inject_Z_mult. rewrite <- pow2_Z by lia. apply (Qmult_inj_r _ _ (pow2 u)); [apply pow2_nonzero|].
    rewrite Qmult_comm, Qmult_div_r by apply pow2_nonzero. rewrite <- Qmult_assoc, <- pow2_add. replace (- u + u) with 0 by lia.
    change (pow2 0) with 1%Q. by rewrite Qmult_1_r. }
  rewrite Hd, round_half_even_Z, inject_Z_mult, <- pow2_Z by lia. rewrite <- Qmult_assoc, <- pow2_add. replace (- u + u) with 0 by lia.
  change (pow2 0) with 1%Q. by rewrite Qmult_1_r.
Qed.

Lemma to_number_Z z : 0 <= z < 2 ^ 53 -> to_number false (inject_Z z) = num_of_Z z.
Proof.
  intros Hz. pose proof (round64_Z z Hz) as E. unfold to_number. cbv zeta. destruct (Qeq_bool _ 0) eqn:E0.
  - apply Qeq_bool_iff in E0. rewrite E in E0. assert (z = 0) as ->; [|done]. unfold Qeq in E0. cbn in E0. lia.
  - destruct (Qle_bool (pow2 1024) _) eqn:E1.
    + apply Qle_bool_iff in E1. rewrite E, pow2_Z, <- Zle_Qle in E1 by lia. assert (2 ^ 53 < 2 ^ 1024) by (by apply Z.pow_lt_mono_r). lia.
    + unfold num_of_Z. f_equal. by apply Qc_is_canon; cbn; rewrite !Qred_correct.
Qed.

Lemma Number_numeral l : numeral l -> numeral_value l < 2 ^ 53 -> Number (of_chars l) = num_of_Z (numeral_value l).
Proof.
  intros [Hne Hd] Hv. assert (Hp : Forall (fun a => plain a = true) l) by (eapply Forall_impl; [exact Hd|apply digit_plain]).
  destruct (digits_read 0 0 l Hd) as (z & Hr & Hz). assert (Ez : numeral_value l = z) by (unfold numeral_value; by rewrite Hr).
  rewrite Ez in *. clear Ez. unfold Number. rewrite js_trim_plain.
  2: { destruct l as [|a l]; [done|]. by apply Forall_cons in Hp as [? _]. }
  2: { destruct (last l) as [a|] eqn:El; [|done]. eapply Forall_forall in Hp; [exact Hp|]. by apply last_Some_elem_of. }
  rewrite decide_False by (by destruct l).
  assert (Hrad : parse_radix (of_chars l) = None).
  { destruct l as [|a [|b [|c l]]]; try done. cbn [of_chars parse_radix]. case_decide; [|done].
    apply Forall_cons in Hd as [_ Hd]. apply Forall_cons in Hd as [Hb _].
    assert (Hx : radix_of b = None); [|by rewrite Hx].
    pose proof (digit_cases (fun a => match radix_of a with None => true | _ => false end) ltac:(vm_compute; reflexivity) b Hb) as Hx.
    cbv beta in Hx. by destruct (radix_of b). }
  rewrite Hrad, chars_of_chars. destruct l as [|a l]; [done|]. apply Forall_cons in Hd as [Ha _].
  assert (Hs : take_sign (a :: l) = (false, a :: l)).
  { pose proof (digit_cases (fun a => match a with "+"%char | "-"%char => false | _ => true end) ltac:(vm_compute; reflexivity) a Ha) as Hx.
    cbv beta in Hx. unfold take_sign. destruct a as [[] [] [] [] [] [] [] []]; try done. }
  rewrite Hs. unfold unsigned_decimal. rewrite decide_False.
  2: { intros [= -> _]. by vm_compute in Ha. }
  rewrite Hr. cbn [length Nat.add]. rewrite decide_False by lia. cbn. change (power10 (0 - 0)) with 1%Q.
  unfold inject_Z at 1. unfold Qmult. cbn. rewrite Z.mul_1_r. apply to_number_Z. lia.
Qed.

(** ** The syntax of fields *)

Inductive Base : Type := Every | At (d : text) | Between (d d' : text).
Record Part : Type := MkPart { base : Base; step_text : option text }.
Inductive Spec : Type := Any | Parts (p : Part) (ps : list Part).

Definition print_base (b : Base) : text :=
  match b with Every => ["*"%char] | At d => d | Between d d' => d ++ "-"%char :: d' end.
Definition print_part (p : Part) : text :=
  print_base (base p) ++ match step_text p with None => [] | Some s => "/"%char :: s end.
Definition print_spec (s : Spec) : text :=
  match s with Any => ["*"%char] | Parts p ps => join ","%char (print_part <$> p :: ps) end.

(** Numbers are written in digits, and are not astronomical. *)
Definition written (d : text) : Prop := numeral d /\ numeral_value d < 2 ^ 53.
Definition base_written (b : Base) : Prop :=
  match b with Every => True | At d => written d | Between d d' => written d /\ written d' end.
Definition part_written (p : Part) : Prop :=
  base_written (base p) /\ match step_text p with None => True | Some s => written s end.
Definition spec_written (s : Spec) : Prop :=
  match s with
  | Any => True
  | Parts p ps => Forall part_written (p :: ps) /\ (ps = [] -> p <> MkPart Every None)
  end.

Definition step_of (p : Part) : Z := match step_text p with None => 1 | Some s => numeral_value s end.
Definition low_of (min : Z) (p : Part) : Z :=
  match base p with Every => min | At d => numeral_value d | Between d _ => numeral_value d end.
(** [a/n] means [a-max/n]. *)
Definition high_of (max : Z) (p : Part) : Z :=
  match base p with
  | Every => max
  | At d => match step_text p with None => numeral_value d | Some _ => max end
  | Between _ d' => numeral_value d'
  end.

(** A part that is accepted, and the values it stands for. *)
Definition part_ok (min max : Z) (p : Part) : Prop :=
  1 <= step_of p /\ min <= low_of min p /\ low_of min p <= high_of max p /\ high_of max p <= max.
Definition spec_ok (min max : Z) (s : Spec) : Prop :=
  match s with Any => True | Parts p ps => Forall (part_ok min max) (p :: ps) end.

Definition sunday (max v : Z) : Z := if decide (v = 7 /\ max = 7) then 0 else v.
Definition part_has (min max : Z) (p : Part) (v : Z) : Prop :=
  exists i, 0 <= i /\ low_of min p + i * step_of p <= high_of max p /\ v = sunday max (low_of min p + i * step_of p).
Definition spec_has (min max : Z) (s : Spec) (v : Z) : Prop :=
  match s with Any => False | Parts p ps => Exists (fun p => part_has min max p v) (p :: ps) end.

(** What a field that was read holds. *)
Definition reads (min max : Z) (s : Spec) (f : CronField) : Prop :=
  (any f = true <-> s = Any) /\ forall v, v ∈ values f <-> spec_has min max s v.

#[export] Instance part_ok_dec min max p : Decision (part_ok min max p).
Proof. unfold part_ok. apply _. Defined.
#[export] Instance spec_ok_dec min max s : Decision (spec_ok min max s).
Proof. destruct s; cbn; apply _. Defined.

Lemma add_steps_spec fuel max high step value acc v : 1 <= step -> high - value + 1 <= Z.of_nat fuel ->
  v ∈ add_steps fuel max high step value acc <-> v ∈ acc \/ exists i, 0 <= i /\ value + i * step <= high /\ v = sunday max (value + i * step).
Proof.
  intros Hs. revert value acc. induction fuel as [|fuel IH]; intros value acc Hf; cbn [add_steps].
  - split; [by left|]. intros [H|(i & Hi & Hle & _)]; [done|nia].
  - case_decide as Hv.
    + rewrite IH by lia. rewrite elem_of_union, elem_of_singleton. fold (sunday max value). split.
      * intros [[->|H]|(i & Hi & Hle & ->)]; [right; exists 0; split; [lia|]; rewrite Z.mul_0_l, Z.add_0_r; done|by left|].
        right. exists (i + 1). split; [lia|]. replace (value + (i + 1) * step) with (value + step + i * step) by lia. done.
      * intros [H|(i & Hi & Hle & ->)]; [left; by right|]. destruct (decide (i = 0)) as [->|]; [left; left; by rewrite Z.mul_0_l, Z.add_0_r|].
        right. exists (i - 1). split; [lia|]. replace (value + step + (i - 1) * step) with (value + i * step) by lia. done.
    + split; [by left|]. intros [H|(i & Hi & Hle & _)]; [done|nia].
Qed.

(** ** Digits and punctuation *)

Lemma digits_avoid c d : is_digit c = false -> numeral d -> c ∉ d.
Proof. intros Hc [_ Hd] Hin. eapply Forall_forall in Hd; [|exact Hin]. congruence. Qed.

Lemma written_number d : written d -> Number (of_chars d) = num_of_Z (numeral_value d).
Proof. intros [Hn Hv]. by apply Number_numeral. Qed.

Lemma numeral_not_star d : numeral d -> d <> ["*"%char].
Proof. intros [_ Hd] ->. apply Forall_cons in Hd as [Hd _]. by vm_compute in Hd. Qed.

Lemma numeral_not_nil d : numeral d -> d <> [].
Proof. by intros [H _]. Qed.

(** What is between two separators of a level holds none of them. *)
Lemma base_avoids c b : is_digit c = false -> c <> "*"%char -> c <> "-"%char -> base_written b -> c ∉ print_base b.
Proof.
  intros Hc H1 H2. destruct b as [|d|d d']; cbn.
  - intros _. rewrite not_elem_of_cons. split; [done|apply not_elem_of_nil].
  - intros [H _]. by apply digits_avoid.
  - intros [[H _] [H' _]]. rewrite not_elem_of_app, not_elem_of_cons. split; [by apply digits_avoid|]. split; [done|by apply digits_avoid].
Qed.

Lemma part_avoids c p : is_digit c = false -> c <> "*"%char -> c <> "-"%char -> c <> "/"%char -> part_written p -> c ∉ print_part p.
Proof.
  intros Hc H1 H2 H3 [Hb Hs]. unfold print_part. rewrite not_elem_of_app. split; [by apply base_avoids|].
  destruct (step_text p) as [s|]; [|apply not_elem_of_nil]. rewrite not_elem_of_cons. split; [done|]. apply digits_avoid; [done|apply Hs].
Qed.

Lemma split_part p : part_written p ->
  split "/"%char (print_part p) = print_base (base p) :: match step_text p with None => [] | Some s => [s] end.
Proof.
  intros [Hb Hs]. unfold print_part. assert (Ha : "/"%char ∉ print_base (base p)) by by apply base_avoids.
  destruct (step_text p) as [s|]; [|by rewrite app_nil_r, split_none]. rewrite split_app by done.
  rewrite split_none; [done|]. apply digits_avoid; [done|apply Hs].
Qed.

Lemma print_base_not_nil b : base_written b -> print_base b <> [].
Proof. destruct b as [|d|d d']; cbn; [done|intros [H _]; by apply numeral_not_nil|]. by destruct d. Qed.

Definition base_low (min : Z) (b : Base) : Z := match b with Every => min | At d | Between d _ => numeral_value d end.
Definition base_high (max : Z) (b : Base) : Z := match b with Every => max | At d => numeral_value d | Between _ d' => numeral_value d' end.
Definition base_two (b : Base) : bool := match b with At _ => false | _ => true end.

Lemma parse_bounds_reads b part min max label : base_written b -> min <= max ->
  if decide (min <= base_low min b /\ base_low min b <= base_high max b /\ base_high max b <= max)
  then parse_bounds (print_base b) part min max label = Ret (base_low min b, base_high max b, base_two b)
  else exists m, parse_bounds (print_base b) part min max label = Throw (TypeError m).
Proof.
  intros Hb Hm. unfold parse_bounds. destruct b as [|d|d d'].
  - cbn [print_base]. rewrite (decide_True (P := ["*"%char] = ["*"%char])) by done. by rewrite decide_True by (cbn; lia).
  - destruct Hb as [Hn Hv]. cbn [print_base base_low base_high base_two]. rewrite (decide_False (P := d = ["*"%char])) by by apply numeral_not_star.
    rewrite split_none by by apply digits_avoid. cbn [length head default]. rewrite (decide_False (P := (2 < 1)%nat)) by lia.
    cbn. rewrite (written_number d) by done. rewrite num_integer_of_Z. unfold cron_error.
    case_decide as Hd; case_decide as Hd'; try (exfalso; lia); [done|by eexists].
  - destruct Hb as [[Hn Hv] [Hn' Hv']]. cbn [print_base base_low base_high base_two].
    rewrite (decide_False (P := d ++ "-"%char :: d' = ["*"%char])).
    2: { destruct d as [|a d]; [by destruct Hn|]. intros [= -> E]. by destruct d. }
    rewrite split_app by by apply digits_avoid. rewrite split_none by by apply digits_avoid.
    cbn [length head default]. rewrite (decide_False (P := (2 < 2)%nat)) by lia.
    cbn. rewrite (written_number d), (written_number d') by done. rewrite !num_integer_of_Z. unfold cron_error.
    case_decide as Hd; case_decide as Hd'; try (exfalso; lia); [done|by eexists].
Qed.

Lemma bounds_ok min max p : min <= max -> part_ok min max p <->
  1 <= step_of p /\ min <= base_low min (base p) /\ base_low min (base p) <= base_high max (base p) /\ base_high max (base p) <= max.
Proof. intros Hm. unfold part_ok, low_of, high_of. destruct (base p), (step_text p); cbn; lia. Qed.

Lemma high_written max p :
  (if bool_decide ((step_text p) <> None) && negb (base_two (base p)) then max else base_high max (base p)) = high_of max p.
Proof. unfold high_of. by destruct (base p), (step_text p). Qed.

Lemma parse_part_reads p min max label acc : part_written p -> min <= max ->
  if decide (part_ok min max p)
  then exists acc', parse_part (print_part p) min max label acc = Ret acc' /\ forall v, v ∈ acc' <-> v ∈ acc \/ part_has min max p v
  else exists m, parse_part (print_part p) min max label acc = Throw (TypeError m).
Proof.
  intros Hp Hm. pose proof Hp as [Hb Hs]. unfold parse_part. rewrite split_part by done. cbn [head default from_option id].
  rewrite (decide_False (P := (2 < _)%nat \/ print_base (base p) = [])).
  2: { intros [H|H]; [destruct (step_text p); cbn in H; lia|by eapply print_base_not_nil]. }
  assert (Hstep : (print_base (base p) :: match step_text p with None => [] | Some s => [s] end) !! 1%nat = step_text p) by by destruct (step_text p).
  rewrite Hstep. assert (Hn : num_integer (match step_text p with None => num_of_Z 1 | Some s => Number (of_chars s) end) = Some (step_of p)).
  { unfold step_of. destruct (step_text p) as [s|]; [rewrite written_number by done|]; by rewrite num_integer_of_Z. }
  rewrite Hn. pose proof (parse_bounds_reads (base p) (print_part p) min max label Hb Hm) as Hbounds.
  assert (Hok := bounds_ok min max p Hm). destruct (decide (step_of p < 1)) as [H1|H1].
  { rewrite decide_False by (rewrite Hok; lia). by eexists. }
  destruct (decide (min <= _ /\ _)) as [Hr|Hr].
  - rewrite Hbounds. cbn [mbind exc_bind]. rewrite (decide_True (P := part_ok min max p)) by (rewrite Hok; lia). rewrite high_written.
    eexists. split; [done|]. intros v. rewrite add_steps_spec by lia.
    assert (El : base_low min (base p) = low_of min p) by (unfold low_of; by destruct (base p)). by rewrite El.
  - destruct Hbounds as [m ->]. rewrite decide_False by (rewrite Hok; tauto). by eexists.
Qed.

Lemma parse_parts_reads ps min max label acc : Forall part_written ps -> min <= max ->
  if decide (Forall (part_ok min max) ps)
  then exists acc', parse_parts (print_part <$> ps) min max label acc = Ret acc' /\
         forall v, v ∈ acc' <-> v ∈ acc \/ Exists (fun p => part_has min max p v) ps
  else exists m, parse_parts (print_part <$> ps) min max label acc = Throw (TypeError m).
Proof.
  intros Hw Hm. revert acc. induction Hw as [|p ps Hp Hw IH]; intros acc; cbn.
  - rewrite decide_True by done. exists acc. split; [done|]. intros v. rewrite Exists_nil. tauto.
  - pose proof (parse_part_reads p min max label acc Hp Hm) as H. destruct (decide (part_ok min max p)) as [Hok|Hok].
    + destruct H as (acc1 & -> & H1). cbn. specialize (IH acc1). destruct (decide (Forall (part_ok min max) ps)) as [Hall|Hall].
      * rewrite decide_True by by constructor. destruct IH as (acc2 & -> & H2). exists acc2. split; [done|]. intros v.
        rewrite H2, H1, Exists_cons. tauto.
      * rewrite decide_False by (rewrite Forall_cons; tauto). by destruct IH as [m ->]; eexists.
    + destruct H as [m ->]. rewrite decide_False by (rewrite Forall_cons; tauto). by eexists.
Qed.

Lemma print_part_star p : part_written p -> print_part p = ["*"%char] -> p = MkPart Every None.
Proof.
  intros [Hb Hs]. destruct p as [b st]. unfold print_part. cbn in *. destruct st as [s|].
  - intros E. destruct (print_base b) as [|a l] eqn:Eb; [by eapply print_base_not_nil in Eb|]. injection E as _ E. by destruct l.
  - rewrite app_nil_r. destruct b as [|d|d d']; [done| |]; cbn.
    + intros ->. destruct Hb as [[_ Hd] _]. apply Forall_cons in Hd as [Hd _]. by vm_compute in Hd.
    + destruct Hb as [[[Hn _] _] _]. destruct d as [|a d]; [done|]. intros [= -> E]. by destruct d.
Qed.

Lemma print_spec_star p ps : spec_written (Parts p ps) -> print_spec (Parts p ps) <> ["*"%char].
Proof.
  intros [Hw Hne] E. apply Forall_cons in Hw as [Hp Hw]. destruct ps as [|q ps]; [by apply Hne, print_part_star|].
  cbn [print_spec fmap list_fmap] in E. change (join ","%char (print_part p :: print_part q :: map print_part ps))
    with (print_part p ++ ","%char :: join ","%char (print_part <$> q :: ps)) in E.
  destruct (print_part p) as [|a l]; [by injection E|]. injection E as _ E. by destruct l.
Qed.

Lemma parseField_reads s min max label : spec_written s -> min <= max ->
  if decide (spec_ok min max s)
  then exists f, parseField (print_spec s) min max label = Ret f /\ reads min max s f
  else exists m, parseField (print_spec s) min max label = Throw (TypeError m).
Proof.
  intros Hw Hm. unfold parseField. destruct s as [|p ps].
  - rewrite (decide_True (P := spec_ok min max Any)) by done. rewrite decide_True by done. eexists. split; [done|]. split; [done|].
    intros v. cbn. set_solver.
  - rewrite (decide_False (P := print_spec _ = _)) by by apply print_spec_star. destruct Hw as [Hw _].
    assert (Hsplit : split ","%char (print_spec (Parts p ps)) = print_part <$> p :: ps).
    { cbn [print_spec fmap list_fmap]. apply split_join. change (Forall (fun q => ","%char ∉ q) (print_part <$> p :: ps)).
      apply Forall_fmap. eapply Forall_impl; [exact Hw|]. intros q Hq. by apply part_avoids. }
    rewrite Hsplit. pose proof (parse_parts_reads (p :: ps) min max label ∅ Hw Hm) as H.
    change (spec_ok min max (Parts p ps)) with (Forall (part_ok min max) (p :: ps)).
    destruct (decide (Forall (part_ok min max) (p :: ps))).
    + destruct H as (acc & -> & H). eexists. split; [done|]. split; [done|]. intros v. cbn [values]. rewrite H. cbn. set_solver.
    + by destruct H as [m ->]; eexists.
Qed.

(** ** Whole expressions *)

Lemma print_part_visible p : part_written p -> visible (print_part p).
Proof.
  intros [Hb Hs]. assert (Hd : forall d, numeral d -> Forall (fun a => plain a = true) d).
  { intros d [_ H]. eapply Forall_impl; [exact H|apply digit_plain]. }
  unfold print_part. split.
  - intros [H _]%app_eq_nil. by eapply print_base_not_nil.
  - apply Forall_app. split.
    + destruct (base p) as [|d|d d']; cbn; [by repeat constructor|apply Hd, Hb|]. apply Forall_app. split; [apply Hd, Hb|].
      constructor; [done|apply Hd, Hb].
    + destruct (step_text p) as [s|]; [|constructor]. constructor; [done|apply Hd, Hs].
Qed.

Lemma join_visible ps : ps <> [] -> Forall visible ps -> visible (join ","%char ps).
Proof.
  intros Hne H. destruct ps as [|p ps]; [done|]. clear Hne. revert p H. induction ps as [|q ps IH]; intros p H; apply Forall_cons in H as [Hp H]; [done|].
  change (join ","%char (p :: q :: ps)) with (p ++ ","%char :: join ","%char (q :: ps)). destruct Hp as [Hne Hp]. split; [by destruct p|].
  apply Forall_app. split; [done|]. constructor; [done|]. by apply IH.
Qed.

Lemma print_spec_visible s : spec_written s -> visible (print_spec s).
Proof.
  destruct s as [|p ps]; [by repeat constructor|]. intros [Hw _]. apply join_visible; [done|].
  change (Forall visible (print_part <$> p :: ps)). apply Forall_fmap. eapply Forall_impl; [exact Hw|apply print_part_visible].
Qed.

(** The text of an expression of five fields. *)
Definition print_cron (s0 s1 s2 s3 s4 : Spec) : string := of_chars (join " "%char (print_spec <$> [s0; s1; s2; s3; s4])).

Lemma head_join p ps : visible p -> match head (join " "%char (p :: ps)) with Some a => plain a = true | None => True end.
Proof. intros [Hne Hp]. destruct p as [|a p]; [done|]. apply Forall_cons in Hp as [Ha _]. by destruct ps. Qed.

Lemma last_join p ps : Forall visible (p :: ps) -> match last (join " "%char (p :: ps)) with Some a => plain a = true | None => True end.
Proof.
  revert p. induction ps as [|q ps IH]; intros p H; apply Forall_cons in H as [Hp H].
  - cbn [join]. destruct (last p) as [a|] eqn:E; [|done]. destruct Hp as [_ Hp]. eapply Forall_forall in Hp; [exact Hp|]. by apply last_Some_elem_of.
  - change (join " "%char (p :: q :: ps)) with (p ++ [" "%char] ++ join " "%char (q :: ps)). specialize (IH q H).
    rewrite app_assoc, last_app. destruct (last (join " "%char (q :: ps))) as [a|] eqn:E; [done|].
    apply last_None in E. apply Forall_cons in H as [[Hq _] _]. destruct q; [done|]. by destruct ps.
Qed.

Lemma fields_split ps : (exists p qs, ps = p :: qs) -> Forall visible ps -> let l := chars (js_trim (of_chars (join " "%char ps))) in
  split_spaces (S (length l)) l = ps.
Proof.
  intros (p & qs & ->) H. rewrite js_trim_plain; [|apply head_join; by apply Forall_cons in H as [? _]|by apply last_join].
  cbv zeta. rewrite chars_of_chars. apply split_spaces_join; [done|lia].
Qed.

Ltac read_field s min max label :=
  let H := fresh in pose proof (parseField_reads s min max label ltac:(assumption) ltac:(done)) as H;
  destruct (decide (spec_ok min max s)); [destruct H as (? & -> & ?)|destruct H as [? ->]].

(** C27: an expression of five fields in the documented syntax is read exactly
    when every step is positive and every range is in the bounds of its field,
    and then each field holds the values its parts denote: the numbers of a
    range, by its step, with [a/n] running to the end, [*] unrestricted, and 7
    a Sunday; any other is refused with a TypeError. *)
Theorem cron_expression_reads s0 s1 s2 s3 s4 : Forall spec_written [s0; s1; s2; s3; s4] ->
  match parseCronExpression (print_cron s0 s1 s2 s3 s4) with
  | Ret e => reads 0 59 s0 (minute e) /\ reads 0 23 s1 (hour e) /\ reads 1 31 s2 (dayOfMonth e) /\ reads 1 12 s3 (month e) /\
      reads 0 7 s4 (dayOfWeek e) /\
      spec_ok 0 59 s0 /\ spec_ok 0 23 s1 /\ spec_ok 1 31 s2 /\ spec_ok 1 12 s3 /\ spec_ok 0 7 s4
  | Throw error => (exists m, error = TypeError m) /\
      ~ (spec_ok 0 59 s0 /\ spec_ok 0 23 s1 /\ spec_ok 1 31 s2 /\ spec_ok 1 12 s3 /\ spec_ok 0 7 s4)
  end.
Proof.
  intros H. assert (Hv : Forall visible (print_spec <$> [s0; s1; s2; s3; s4])) by (apply Forall_fmap; eapply Forall_impl; [exact H|apply print_spec_visible]).
  unfold parseCronExpression, print_cron. cbv zeta. rewrite fields_split by (done || by eexists _, _). cbn [fmap list_fmap map].
  repeat (apply Forall_cons in H as [? H]).
  read_field s0 0 59 "minute"; [|by split; [eexists|tauto]]. cbn [mbind exc_bind]. read_field s1 0 23 "hour"; [|by split; [eexists|tauto]]. cbn.
  read_field s2 1 31 "day-of-month"; [|by split; [eexists|tauto]]. cbn. read_field s3 1 12 "month"; [|by split; [eexists|tauto]]. cbn.
  read_field s4 0 7 "day-of-week"; [|by split; [eexists|tauto]]. cbn. done.
Qed.

(** ** The next occurrence *)

(** C17: when the zone's wall clock skips no minute in the four years searched,
    [cronNext] gives the first occurrence after an instant, the earliest whole
    minute whose wall clock matches and does not repeat the instant's, and null
    exactly when those years hold none; the search always ends. *)
Theorem cronNext_first formatToParts expression tz after e parts :
  parseCronExpression expression = Ret e -> formatToParts tz = Some parts ->
  let clock := wallClockAt parts in
  let start := (after / MINUTE_MS + 1) * MINUTE_MS in
  calm clock start (start + SEARCH_LIMIT_MS) ->
  exists next, cronNext formatToParts expression tz after = Ret next /\
    match next with
    | Some t => t < start + SEARCH_LIMIT_MS /\ due e clock after t /\ forall t', due e clock after t' -> t <= t'
    | None => forall t', due e clock after t' -> start + SEARCH_LIMIT_MS <= t'
    end.
Proof.
  intros He Hz clock start Hc. unfold cronNext. rewrite He. cbn [mbind exc_bind]. rewrite Hz. cbv zeta. fold clock start.
  eexists. split; [done|]. assert (Hs : start mod MINUTE_MS = 0) by by apply Z.mod_mul.
  assert (Ha : after < start). { unfold start, MINUTE_MS. pose proof (Z.div_mod after 60000 ltac:(done)). pose proof (Z.mod_pos_bound after 60000). lia. }
  assert (Hfrom : forall t', due e clock after t' -> start <= t').
  { intros t' (Hm & Hlt & _). unfold start, MINUTE_MS in *. pose proof (Z.div_mod t' 60000 ltac:(done)).
    pose proof (Z.div_mod after 60000 ltac:(done)). pose proof (Z.mod_pos_bound after 60000). lia. }
  pose proof (search_first e clock after (start + SEARCH_LIMIT_MS) (Z.to_nat (SEARCH_LIMIT_MS / MINUTE_MS)) start start Hc Hs ltac:(lia) Ha) as H.
  assert (Hfuel : start + SEARCH_LIMIT_MS - start <= Z.of_nat (Z.to_nat (SEARCH_LIMIT_MS / MINUTE_MS)) * MINUTE_MS).
  { rewrite Z2Nat.id by (apply Z.div_pos; done). unfold SEARCH_LIMIT_MS, MINUTE_MS. rewrite Z.div_mul by done. lia. }
  specialize (H Hfuel). destruct (search _ _ _ _ _ _) as [t|].
  - destruct H as (H1 & H2 & H3). split; [lia|]. split; [done|]. intros t' Hd. apply H3; [done|auto].
  - intros t' Hd. apply H; [done|auto].
Qed.

(** ** Two zones *)

(** The date of a day, counted from the first of 1970. *)
Definition civil (days : Z) : Z * Z * Z :=
  let z := days + 719468 in
  let era := z / 146097 in
  let doe := z - era * 146097 in
  let yoe := (doe - doe / 1460 + doe / 36524 - doe / 146096) / 365 in
  let doy := doe - (365 * yoe + yoe / 4 - yoe / 100) in
  let mp := (5 * doy + 2) / 153 in
  let d := doy - (153 * mp + 2) / 5 + 1 in
  let m := if decide (mp < 10) then mp + 3 else mp - 9 in
  (yoe + era * 400 + (if decide (m <= 2) then 1 else 0), m, d).

Definition wall_of_minutes (n : Z) : WallClock :=
  let days := n / 1440 in
  let '(y, m, d) := civil days in
  MkWallClock y m d (n mod 1440 / 60) (n mod 60) ((days + 4) mod 7).

Definition utc (t : Z) : WallClock := wall_of_minutes (t / MINUTE_MS).

(** A zone whose clocks are turned forward by an hour at an instant. *)
Definition turned_forward (change t : Z) : WallClock :=
  wall_of_minutes (t / MINUTE_MS + (if decide (change <= t) then 60 else 0)).

Definition zones (tz : string) : option (Z -> WallClock) :=
  if decide (tz = "UTC") then Some utc
  else if decide (tz = "America/New_York") then Some (turned_forward ((19792 * 1440 + 120) * MINUTE_MS))
  else None.

Lemma utc_wall t : let n := t / MINUTE_MS in exists y m d, civil (n / 1440) = (y, m, d) /\
  wallClockAt utc t = MkWallClock y m d (n mod 1440 / 60) (n mod 60) ((n / 1440 + 4) mod 7).
Proof.
  intros n. unfold wallClockAt, utc, wall_of_minutes. fold n. destruct (civil (n / 1440)) as [[y m] d]. exists y, m, d. split; [done|]. cbn.
  pose proof (Z.mod_pos_bound n 1440). rewrite (Z.mod_small (n mod 1440 / 60)); [done|].
  split; [apply Z.div_pos; lia|apply Z.div_lt_upper_bound; lia].
Qed.

Lemma utc_calm from until : calm (wallClockAt utc) from until.
Proof.
  intros t Ht _. pose proof (utc_wall t) as Hw. cbv zeta in Hw. set (n := t / MINUTE_MS) in *.
  assert (En : forall i, (t + i * MINUTE_MS) / MINUTE_MS = n + i) by (intros i; unfold n; by rewrite Z.div_add).
  destruct Hw as (y & m & d & E & ->). cbn [wall_hour wall_minute].
  pose proof (Z.mod_pos_bound n 1440). pose proof (Z.mod_pos_bound n 60). pose proof (Z.div_mod n 1440 ltac:(done)).
  assert (Hm : n mod 60 = n mod 1440 mod 60) by (symmetry; apply Z.mod_mod_divide; by exists 24).
  pose proof (Z.div_mod (n mod 1440) 60 ltac:(done)).
  assert (Hh : 0 <= n mod 1440 / 60 < 24) by (split; [apply Z.div_pos; lia|apply Z.div_lt_upper_bound; lia]).
  split; [lia|]. split; [lia|]. split; intros i Hi; pose proof (utc_wall (t + i * MINUTE_MS)) as Hw; cbv zeta in Hw; rewrite En in Hw;
    destruct Hw as (y' & m' & d' & E' & ->).
  - assert (Ed : (n + i) / 1440 = n / 1440) by (symmetry; apply (Z.div_unique _ _ _ (n mod 1440 + i)); [left|]; lia).
    rewrite Ed, E in E'. injection E' as <- <- <-. unfold same_day. cbn. by rewrite Ed.
  - cbn. assert (Em : (n + i) mod 1440 = n mod 1440 + i) by (symmetry; apply (Z.mod_unique _ _ (n / 1440)); [left|]; lia).
    rewrite Em. symmetry. apply (Z.div_unique _ _ _ (n mod 60 + i)); [left|]; lia.
Qed.

(** The leap day after the first of March 2025. *)
Definition leap_day : string := "0 0 29 2 *".
Definition in_2025 : Z := 20148 * 1440 * MINUTE_MS.

Definition leap_expression : CronExpression := match parseCronExpression leap_day with Ret e => e | Throw _ => MkCronExpression (MkCronField ∅ true)
  (MkCronField ∅ true) (MkCronField ∅ true) (MkCronField ∅ true) (MkCronField ∅ true) end.

Lemma leap_parsed : parseCronExpression leap_day = Ret leap_expression.
Proof. vm_compute. reflexivity. Qed.

Lemma leap_next : cronNext zones leap_day "UTC" in_2025 = Ret (Some (21243 * 1440 * MINUTE_MS)).
Proof. vm_compute. reflexivity. Qed.

Lemma zones_utc : zones "UTC" = Some utc.
Proof. reflexivity. Qed.

Lemma cronNext_first_witness : exists t, cronNext zones leap_day "UTC" in_2025 = Ret (Some t) /\
  due leap_expression (wallClockAt utc) in_2025 t /\ t = 21243 * 1440 * MINUTE_MS.
Proof.
  pose proof (cronNext_first zones leap_day "UTC" in_2025 leap_expression utc leap_parsed zones_utc) as H0. cbv zeta in H0.
  destruct (H0 (utc_calm _ _)) as (next & E & H).
  pose proof E as E'. rewrite leap_next in E'. injection E' as <-. destruct H as (_ & Hd & _).
  exists (21243 * 1440 * MINUTE_MS). split; [exact leap_next|]. split; [exact Hd|reflexivity].
Defined.

(** [*/15 9-17 * 1,7 1-7/2] *)
Definition sample_specs : list Spec :=
  let d (s : string) := chars s in
  [Parts (MkPart Every (Some (d "15"))) []; Parts (MkPart (Between (d "9") (d "17")) None) []; Any;
   Parts (MkPart (At (d "1")) None) [MkPart (At (d "7")) None]; Parts (MkPart (Between (d "1") (d "7")) (Some (d "2"))) []].

Lemma sample_written : Forall spec_written sample_specs.
Proof.
  assert (Hn : forall d, forallb is_digit d = true -> d <> [] -> numeral_value d < 2 ^ 53 -> written d).
  { intros d H Hne Hv. split; [|done]. split; [done|]. apply Forall_forall. intros a Ha. rewrite forallb_forall in H. by apply H, list_elem_of_In. }
  repeat constructor; cbn; try (apply Hn; vm_compute; done); try done.
Qed.

Lemma cron_expression_reads_witness : match sample_specs with
  | [s0; s1; s2; s3; s4] => print_cron s0 s1 s2 s3 s4 = "*/15 9-17 * 1,7 1-7/2" /\
      exists e, parseCronExpression (print_cron s0 s1 s2 s3 s4) = Ret e /\ 0 ∈ values (dayOfWeek e) /\ reads 0 7 s4 (dayOfWeek e)
  | _ => False
  end.
Proof.
  cbn [sample_specs]. split; [vm_compute; reflexivity|]. pose proof (cron_expression_reads _ _ _ _ _ sample_written) as H.
  destruct (parseCronExpression _) as [e|error] eqn:E; [|vm_compute in E; discriminate E]. exists e. split; [done|].
  destruct H as (_ & _ & _ & _ & H & _). split; [|exact H]. apply (proj2 H).
  apply Exists_cons_hd. exists 3. split; [discriminate|]. split; [discriminate|reflexivity].
Defined.

(** ** What the search misses *)

(** Midnight of the Monday after clocks were turned forward on the Sunday before
    is an occurrence, and the search, on a day it reached the day before at
    midnight, goes on from one in the morning: it gives the Monday after. *)
Lemma midnight_missed : exists e, parseCronExpression "0 0 * * 1" = Ret e /\
  let clock := wallClockAt (turned_forward ((19792 * 1440 + 120) * MINUTE_MS)) in
  let saturday := (19790 * 1440 + 720) * MINUTE_MS in
  let monday := (19793 * 1440 - 60) * MINUTE_MS in
  due e clock saturday monday /\
  cronNext zones "0 0 * * 1" "America/New_York" saturday = Ret (Some (monday + 7 * 1440 * MINUTE_MS)).
Proof.
  eexists. split; [vm_compute; reflexivity|]. cbv zeta. split; [|vm_compute; reflexivity].
  split; [reflexivity|]. split; [reflexivity|]. split; vm_compute; reflexivity.
Qed.

(** A range without its first bound starts at 0, and so does one of no bounds;
    a number may be written in hexadecimal. *)
Lemma open_ranges_accepted :
  parseField (chars "-5") 0 59 "minute" = parseField (chars "0-5") 0 59 "minute" /\
  parseField (chars "-") 0 59 "minute" = parseField (chars "0") 0 59 "minute" /\
  parseField (chars "0x1e") 0 59 "minute" = parseField (chars "30") 0 59 "minute".
Proof. vm_compute. repeat split; reflexivity. Qed.

(** Four years may hold no leap day: none is found after that of 2096, although
    2104 has one. *)
Lemma century_missed :
  cronNext zones leap_day "UTC" (46081 * 1440 * MINUTE_MS) = Ret None /\
  due leap_expression (wallClockAt utc) (46081 * 1440 * MINUTE_MS) (49001 * 1440 * MINUTE_MS).
Proof.
  split; [vm_compute; reflexivity|]. split; [reflexivity|]. split; [reflexivity|]. split; vm_compute; reflexivity.
Qed.
