(* ===== verification/Executor.v ===== *)
(** The bounded executor: [server/src/runtime/executor.ts], over the admission
    queue.

    Tasks are numbered in the order they were submitted. What the code leaves to
    the event loop is explicit: [running] holds the tasks that were admitted and
    whose work has not settled, [finishing] those whose work has, up to the
    [finally] of their chain, and [refusals] the rejected tickets whose handler
    has not run. A step is a call of a method or one of those continuations. *)
From S2P Require Import Prelude Errors Limits Dll ExpiryHeap Admission Effects.
Local Open Scope Z_scope.

(** How the promise of a task settled. *)
Inductive TaskOutcome : Type :=
  | TaskCompleted
  | TaskFailed
  | TaskRefused (reason : AdmissionRejectionReason).

#[export] Instance TaskOutcome_eq_dec : EqDecision TaskOutcome.
Proof. solve_decision. Defined.

Record ExecutorSnapshot : Type := MkExecutorSnapshot {
  xs_concurrency : Z;
  xs_active : Z;
  xs_admitted : Z;
  xs_completed : Z;
  xs_failed : Z;
  xs_queue : AdmissionQueueSnapshot;
}.

Record Executor : Type := MkExecutor {
  concurrency : Z;
  queue : AdmissionQueue nat;
  active : Z;
  admitted : Z;
  completed : Z;
  failed : Z;
  pumping : bool;
  expiryTimer : option Z;
  drainWaiters : list nat;
  submitted : nat;
  running : list nat;
  finishing : list nat;
  refusals : list (nat * AdmissionRejectionReason);
  outcomes : list (nat * TaskOutcome);
  drained : list nat;
  readings : nat;
}.

Definition set_concurrency (x : Z) (x_ : Executor) : Executor :=
    MkExecutor x (queue x_) (active x_) (admitted x_) (completed x_) (failed x_) (pumping x_) (expiryTimer x_)
    (drainWaiters x_) (submitted x_) (running x_) (finishing x_) (refusals x_) (outcomes x_) (drained x_)
    (readings x_).
Definition set_queue (x : AdmissionQueue nat) (x_ : Executor) : Executor :=
    MkExecutor (concurrency x_) x (active x_) (admitted x_) (completed x_) (failed x_) (pumping x_)
    (expiryTimer x_) (drainWaiters x_) (submitted x_) (running x_) (finishing x_) (refusals x_) (outcomes x_)
    (drained x_) (readings x_).
Definition set_active (x : Z) (x_ : Executor) : Executor :=
    MkExecutor (concurrency x_) (queue x_) x (admitted x_) (completed x_) (failed x_) (pumping x_)
    (expiryTimer x_) (drainWaiters x_) (submitted x_) (running x_) (finishing x_) (refusals x_) (outcomes x_)
    (drained x_) (readings x_).
Definition set_admitted (x : Z) (x_ : Executor) : Executor :=
    MkExecutor (concurrency x_) (queue x_) (active x_) x (completed x_) (failed x_) (pumping x_) (expiryTimer
    x_) (drainWaiters x_) (submitted x_) (running x_) (finishing x_) (refusals x_) (outcomes x_) (drained x_)
    (readings x_).
Definition set_completed (x : Z) (x_ : Executor) : Executor :=
    MkExecutor (concurrency x_) (queue x_) (active x_) (admitted x_) x (failed x_) (pumping x_) (expiryTimer
    x_) (drainWaiters x_) (submitted x_) (running x_) (finishing x_) (refusals x_) (outcomes x_) (drained x_)
    (readings x_).
Definition set_failed (x : Z) (x_ : Executor) : Executor :=
    MkExecutor (concurrency x_) (queue x_) (active x_) (admitted x_) (completed x_) x (pumping x_)
    (expiryTimer x_) (drainWaiters x_) (submitted x_) (running x_) (finishing x_) (refusals x_) (outcomes x_)
    (drained x_) (readings x_).
Definition set_pumping (x : bool) (x_ : Executor) : Executor :=
    MkExecutor (concurrency x_) (queue x_) (active x_) (admitted x_) (completed x_) (failed x_) x (expiryTimer
    x_) (drainWaiters x_) (submitted x_) (running x_) (finishing x_) (refusals x_) (outcomes x_) (drained x_)
    (readings x_).
Definition set_expiryTimer (x : option Z) (x_ : Executor) : Executor :=
    MkExecutor (concurrency x_) (queue x_) (active x_) (admitted x_) (completed x_) (failed x_) (pumping x_) x
    (drainWaiters x_) (submitted x_) (running x_) (finishing x_) (refusals x_) (outcomes x_) (drained x_)
    (readings x_).
Definition set_drainWaiters (x : list nat) (x_ : Executor) : Executor :=
    MkExecutor (concurrency x_) (queue x_) (active x_) (admitted x_) (completed x_) (failed x_) (pumping x_)
    (expiryTimer x_) x (submitted x_) (running x_) (finishing x_) (refusals x_) (outcomes x_) (drained x_)
    (readings x_).
Definition set_submitted (x : nat) (x_ : Executor) : Executor :=
    MkExecutor (concurrency x_) (queue x_) (active x_) (admitted x_) (completed x_) (failed x_) (pumping x_)
    (expiryTimer x_) (drainWaiters x_) x (running x_) (finishing x_) (refusals x_) (outcomes x_) (drained x_)
    (readings x_).
Definition set_running (x : list nat) (x_ : Executor) : Executor :=
    MkExecutor (concurrency x_) (queue x_) (active x_) (admitted x_) (completed x_) (failed x_) (pumping x_)
    (expiryTimer x_) (drainWaiters x_) (submitted x_) x (finishing x_) (refusals x_) (outcomes x_) (drained
    x_) (readings x_).
Definition set_finishing (x : list nat) (x_ : Executor) : Executor :=
    MkExecutor (concurrency x_) (queue x_) (active x_) (admitted x_) (completed x_) (failed x_) (pumping x_)
    (expiryTimer x_) (drainWaiters x_) (submitted x_) (running x_) x (refusals x_) (outcomes x_) (drained x_)
    (readings x_).
Definition set_refusals (x : list (nat * AdmissionRejectionReason)) (x_ : Executor) : Executor :=
    MkExecutor (concurrency x_) (queue x_) (active x_) (admitted x_) (completed x_) (failed x_) (pumping x_)
    (expiryTimer x_) (drainWaiters x_) (submitted x_) (running x_) (finishing x_) x (outcomes x_) (drained x_)
    (readings x_).
Definition set_outcomes (x : list (nat * TaskOutcome)) (x_ : Executor) : Executor :=
    MkExecutor (concurrency x_) (queue x_) (active x_) (admitted x_) (completed x_) (failed x_) (pumping x_)
    (expiryTimer x_) (drainWaiters x_) (submitted x_) (running x_) (finishing x_) (refusals x_) x (drained x_)
    (readings x_).
Definition set_drained (x : list nat) (x_ : Executor) : Executor :=
    MkExecutor (concurrency x_) (queue x_) (active x_) (admitted x_) (completed x_) (failed x_) (pumping x_)
    (expiryTimer x_) (drainWaiters x_) (submitted x_) (running x_) (finishing x_) (refusals x_) (outcomes x_)
    x (readings x_).
Definition set_readings (x : nat) (x_ : Executor) : Executor :=
    MkExecutor (concurrency x_) (queue x_) (active x_) (admitted x_) (completed x_) (failed x_) (pumping x_)
    (expiryTimer x_) (drainWaiters x_) (submitted x_) (running x_) (finishing x_) (refusals x_) (outcomes x_)
    (drained x_) x.

(** The tickets that a change of the queue rejected, with their tasks. *)
Definition rejected_since (q q' : AdmissionQueue nat) : list (nat * AdmissionRejectionReason) :=
  omap (fun '(s, what) => match what with
    | Rejected reason => (fun e => (value e, reason)) <$> q_entries q' !! s
    | Resolved _ => None
    end) (drop (length (q_settled q)) (q_settled q')).

Section executor.
(** The readings of the clock, one after another. *)
Context (now : nat -> ms).

Abbreviation eff := (Effects.eff Executor).

Definition read_clock : eff ms := fun x => (Ret (now (readings x)), set_readings (S (readings x)) x).

(** A call of the queue; the handlers of the tickets it rejects are scheduled. *)
Definition with_queue {A} (f : AdmissionQueue nat -> exc js_error (A * AdmissionQueue nat)) : eff A := fun x =>
  match f (queue x) with
  | Ret (a, q) => (Ret a, set_refusals (refusals x ++ rejected_since (queue x) q) (set_queue q x))
  | Throw e => (Throw e, x)
  end.

Definition queue_snapshot : eff AdmissionQueueSnapshot :=
  t ← read_clock;
  with_queue (fun q => snapshot q t).

Definition clearExpiryTimer : eff unit := modify (set_expiryTimer None).

(** [scheduleExpiry(snapshot)]; the timer is kept as the time it was set to. *)
Definition schedule_after (s : AdmissionQueueSnapshot) : eff unit :=
  _ ← clearExpiryTimer;
  match s_nextExpiryAtMs s with
  | None => mret tt
  | Some next =>
      if s_closed s then mret tt
      else
        t ← read_clock;
        match t with
        | NonFinite => throw (RangeError "executor clock must return finite milliseconds")
        | Finite t => modify (set_expiryTimer (Some (t + Z.min (Z.max 0 (next - t)) (2 ^ 31 - 1))))
        end
  end.

Definition scheduleExpiry : eff unit := s ← queue_snapshot; schedule_after s.

Definition resolveDrainIfIdle : eff unit :=
  n ← get active;
  if decide (n <> 0) then mret tt
  else
    s ← queue_snapshot;
    if decide (s_queuedItems s <> 0) then mret tt
    else modify (fun x => set_drainWaiters [] (set_drained (drained x ++ drainWaiters x) x)).

(** The loop of [pump], at most one turn per free place. *)
Fixpoint pump_loop (fuel : nat) : eff unit :=
  x ← get id;
  if decide (concurrency x <= active x) then mret tt
  else match fuel with
  | O => mret tt
  | S fuel =>
      t ← read_clock;
      lease ← with_queue (fun q => take q t);
      match lease with
      | None => mret tt
      | Some l =>
          _ ← modify (fun x => set_running (running x ++ [lease_value l]) (set_admitted (admitted x + 1) (set_active (active x + 1) x)));
          pump_loop fuel
      end
  end.

(** [try { m } finally { after }] *)
Definition finally {A} (m : eff A) (after : eff unit) : eff A :=
  r ← catch (a ← m; mret (inl a)) (fun e => mret (inr e));
  _ ← after;
  match r with inl a => mret a | inr e => throw e end.

Definition pump : eff unit :=
  x ← get id;
  if pumping x then mret tt
  else
    _ ← modify (set_pumping true);
    finally (pump_loop (Z.to_nat (concurrency x - active x))) (_ ← modify (set_pumping false); scheduleExpiry).

Definition submit (options : AdmissionRequestOptions) : eff nat :=
  task ← get submitted;
  t ← read_clock;
  ticket ← with_queue (fun q => '(q, ticket) ← enqueue q t task options; Ret (ticket, q));
  _ ← modify (fun x => set_submitted (S task) x);
  _ ← match ticket with
      | RejectedImmediately reason => modify (fun x => set_refusals (refusals x ++ [(task, reason)]) x)
      | Pending _ => mret tt
      end;
  _ ← pump;
  mret task.

Definition close : eff unit :=
  _ ← clearExpiryTimer;
  _ ← with_queue (fun q => Ret (tt, Admission.close q));
  resolveDrainIfIdle.

(** [drain()]; the promise is named by [n]. *)
Definition drain (n : nat) : eff unit :=
  x ← get id;
  if decide (active x = 0) then
    s ← queue_snapshot;
    if decide (s_queuedItems s = 0) then modify (fun x => set_drained (drained x ++ [n]) x)
    else modify (fun x => set_drainWaiters (drainWaiters x ++ [n]) x)
  else modify (fun x => set_drainWaiters (drainWaiters x ++ [n]) x).

Definition executor_snapshot : eff ExecutorSnapshot :=
  s ← queue_snapshot;
  _ ← schedule_after s;
  get (fun x => MkExecutorSnapshot (concurrency x) (active x) (admitted x) (completed x) (failed x) s).

(** ** Continuations *)

Definition settle_task (task : nat) (o : TaskOutcome) : eff unit := modify (fun x => set_outcomes (outcomes x ++ [(task, o)]) x).

(** The work of a running task settled. *)
Definition work_settles (task : nat) (ok : bool) : eff unit :=
  x ← get id;
  if decide (task ∈ running x) then
    _ ← modify (fun x => set_finishing (finishing x ++ [task]) (set_running (filter (fun t => t <> task) (running x)) x));
    _ ← (if ok then modify (fun x => set_completed (completed x + 1) x) else modify (fun x => set_failed (failed x + 1) x));
    settle_task task (if ok then TaskCompleted else TaskFailed)
  else mret tt.

(** The [finally] of its chain. *)
Definition task_finally (task : nat) : eff unit :=
  x ← get id;
  if decide (task ∈ finishing x) then
    _ ← modify (fun x => set_active (active x - 1) (set_finishing (filter (fun t => t <> task) (finishing x)) x));
    _ ← pump;
    resolveDrainIfIdle
  else mret tt.

(** The handler of a rejected ticket. *)
Definition ticket_rejected (task : nat) : eff unit :=
  x ← get id;
  match list_find (fun r => r.1 = task) (refusals x) with
  | None => mret tt
  | Some (_, (_, reason)) =>
      _ ← modify (fun x => set_refusals (filter (fun r => r.1 <> task) (refusals x)) x);
      _ ← settle_task task (TaskRefused reason);
      _ ← scheduleExpiry;
      resolveDrainIfIdle
  end.

Definition expiry_timer : eff unit :=
  x ← get id;
  match expiryTimer x with
  | None => mret tt
  | Some _ =>
      _ ← clearExpiryTimer;
      t ← read_clock;
      _ ← with_queue (fun q => match t with Finite _ => expire q t | NonFinite => Throw (RangeError "clock must return a finite millisecond value") end);
      _ ← scheduleExpiry;
      resolveDrainIfIdle
  end.

(** The signal of a waiting request is aborted. *)
Definition signal_aborts (s : nat) : eff unit := with_queue (fun q => Ret (tt, onAbort q s)).

Inductive ExecutorEvent : Type :=
  | XSubmit (options : AdmissionRequestOptions)
  | XClose
  | XDrain (n : nat)
  | XSnapshot
  | XSettles (task : nat) (ok : bool)
  | XFinally (task : nat)
  | XRejected (task : nat)
  | XTimer
  | XAbort (s : nat).

Definition executor_handle (e : ExecutorEvent) : eff unit :=
  match e with
  | XSubmit o => _ ← submit o; mret tt
  | XClose => close
  | XDrain n => drain n
  | XSnapshot => _ ← executor_snapshot; mret tt
  | XSettles task ok => work_settles task ok
  | XFinally task => task_finally task
  | XRejected task => ticket_rejected task
  | XTimer => expiry_timer
  | XAbort s => signal_aborts s
  end.

Definition executor_run (x : Executor) (es : list ExecutorEvent) : Executor := foldl (fun x e => (executor_handle e x).2) x es.

Definition new_BoundedExecutor (n : num) (discipline : AdmissionDiscipline) (limits : QueueLimits num) (resource : ResourceClass)
    (retryAfterMs : option num) : exc js_error Executor :=
  c ← positiveSafeInteger n "concurrency";
  q ← new_AdmissionQueue discipline limits resource retryAfterMs;
  Ret (MkExecutor c q 0 0 0 0 false None [] 0 [] [] [] [] [] 0).
End executor.
