(* ===== verification/ExecutorProps.v ===== *)
(** Properties of the bounded executor: its accounting under every sequence of
    calls and continuations, and that a closed executor drains. *)
From S2P Require Import Prelude Errors Limits Dll ExpiryHeap Admission FairnessGroups.
From S2P Require Import AdmissionInv AdmissionSpec AdmissionProps Effects Executor.
Local Open Scope Z_scope.

(** ** What the executor uses of the queue

    [qrep q ws]: [ws] are the tasks that wait in [q]. *)
Section contract.
Implicit Types (q : AdmissionQueue nat) (w : list (PendingAdmission nat)) (ws : list nat).

Definition qrep q ws : Prop := exists a, represents q a /\ value <$> waiting a = ws.

(** [q'] is [q] with the tasks of [gone] rejected. *)
Record drops q ws q' ws' : Prop := {
  dr_rep : qrep q' ws';
  dr_tasks : ws ≡ₚ ws' ++ (rejected_since q q').*1;
  dr_closed : q_isClosed q' = q_isClosed q;
}.

Lemma qrep_items q ws : qrep q ws -> q_queuedItems q = Z.of_nat (length ws).
Proof. intros (a & ([Hm _ _] & _) & <-). rewrite length_fmap. apply (mo_items _ _ Hm). Qed.

Lemma qrep_closed q ws : qrep q ws -> q_isClosed q = true -> ws = [].
Proof. by intros (a & (_ & _ & Hc) & <-) ->%Hc. Qed.

Lemma rejected_since_log q q' (log : list (nat * Settlement nat)) :
  q_settled q' = q_settled q ++ log ->
  rejected_since q q' = omap (fun '(s, what) => match what with
    | Rejected reason => (fun e => (value e, reason)) <$> q_entries q' !! s
    | Resolved _ => None
    end) log.
Proof. intros Hl. unfold rejected_since. by rewrite Hl, drop_app_length. Qed.

Lemma rejected_since_same q q' : q_settled q' = q_settled q -> rejected_since q q' = [].
Proof. intros Hl. rewrite (rejected_since_log _ _ []); [done|by rewrite app_nil_r]. Qed.

(** The tasks named by a list of rejections. *)
Lemma rejections_tasks q w (why : PendingAdmission nat -> AdmissionRejectionReason) :
  (forall e, e ∈ w -> q_entries q !! sequence e = Some e) ->
  (omap (fun '(s, what) => match what with
    | Rejected reason => (fun e => (value e, reason)) <$> q_entries q !! s
    | Resolved _ => None
    end) ((fun e => (sequence e, @Rejected nat (why e))) <$> w)).*1 = value <$> w.
Proof.
  induction w as [|e w IH]; intros H; [done|]. cbn [fmap list_fmap omap list_omap].
  rewrite (H e) by left. cbn. f_equal. apply IH. intros e' ?. apply H. by right.
Qed.

Lemma rejected_since_gone q q' w gone (why : PendingAdmission nat -> AdmissionRejectionReason) :
  members_ok q w -> gone ⊆ w -> q_entries q' = q_entries q ->
  q_settled q' = q_settled q ++ ((fun e => (sequence e, @Rejected nat (why e))) <$> gone) ->
  (rejected_since q q').*1 = value <$> gone.
Proof.
  intros Hm Hg He Hl. rewrite (rejected_since_log _ _ _ Hl). apply rejections_tasks.
  intros e Hin. rewrite He. apply (mo_entries _ _ Hm), Hg, Hin.
Qed.

Lemma filter_partition_perm {A} (P : A -> Prop) `{!forall x, Decision (P x)} (l : list A) :
  l ≡ₚ filter P l ++ filter (fun x => ~ P x) l.
Proof.
  induction l as [|x l IH]; [done|]. rewrite !filter_cons.
  destruct (decide (P x)) as [Hx|Hx].
  - rewrite decide_False by tauto. cbn. by rewrite IH at 1.
  - rewrite decide_True by done. rewrite IH at 1. by rewrite Permutation_middle.
Qed.

Lemma expired_drops q a now gone q' :
  represents q a -> expired_to now q (waiting a) gone q' ->
  drops q (value <$> waiting a) q' (value <$> waiting (expire_waiting now a)).
Proof.
  intros Hr Hx. split.
  - eexists. split; [by eapply expired_represents|done].
  - rewrite (rejected_since_gone q q' (waiting a) gone expiresBy).
    + rewrite (ex_gone _ _ _ _ _ Hx), <-fmap_app. cbn [expire_waiting retain waiting].
      apply fmap_Permutation, filter_partition_perm.
    + apply Hr.
    + intros e. rewrite (ex_gone _ _ _ _ _ Hx), list_elem_of_filter. tauto.
    + apply (fr_entries _ _ (ex_frame _ _ _ _ _ Hx)).
    + apply Hx.
  - apply (fr_closed _ _ (ex_frame _ _ _ _ _ Hx)).
Qed.

Lemma expire_drops q ws now :
  qrep q ws -> exists n q' ws', expire q (Finite now) = Ret (n, q') /\ drops q ws q' ws' /\ root_active q'.
Proof.
  intros (a & Hr & <-). destruct (expire_represents q a now Hr) as (gone & q' & He & Hx & _).
  do 3 eexists. split_and!; [exact He|by eapply expired_drops|apply Hx].
Qed.

Lemma drops_heap q ws q' ws' heap :
  drops q ws q' ws' -> heap_inv (set_heap q' heap) -> drops q ws (set_heap q' heap) ws'.
Proof.
  intros [(a & ([Hm _ Hs] & Hr & Hc) & Hw) Ht Hcl] Hh. split; [|done..].
  exists a. split; [|done]. split_and!; [|done..].
  split; [by apply members_ok_heap|done|by apply settled_inv_heap].
Qed.

(** The first of the expiry heap, when only active admissions head it. *)
Lemma heap_head_waiting q ws :
  qrep q ws -> root_active q -> is_Some (q_expiryHeap q !! 0%nat) <-> ws <> [].
Proof.
  intros (a & (Hi & _) & <-) Hroot. destruct (q_expiryHeap q !! 0%nat) as [s|] eqn:E.
  - split; [|by eexists]. intros _. destruct (proj1 (mo_active_iff _ _ s (qi_members _ _ Hi)) (Hroot _ E)) as (e & He & _).
    destruct (waiting a); [set_solver|done].
  - rewrite (expiry_order_empty _ _ Hi E). split; [by intros []|done].
Qed.

Lemma snapshot_drops q ws now :
  qrep q ws -> exists s q' ws', snapshot q (Finite now) = Ret (s, q') /\ drops q ws q' ws' /\
    s_queuedItems s = Z.of_nat (length ws') /\ (is_Some (s_nextExpiryAtMs s) <-> ws' <> []) /\
    s_closed s = q_isClosed q.
Proof.
  intros Hr. destruct (expire_drops q ws now Hr) as (n & q1 & ws' & He & Hd & Hroot).
  unfold snapshot. cbn [readNow mbind exc_bind]. rewrite He. cbn [mbind exc_bind].
  pose proof (dr_rep _ _ _ _ Hd) as (a & (Hi & _) & _).
  destruct (discard_spec q1 (qi_heap _ _ Hi)) as (heap & -> & Hh & _ & _ & Hroot').
  pose proof (drops_heap _ _ _ _ _ Hd Hh) as Hd'.
  do 3 eexists. split_and!; [reflexivity|exact Hd'|..].
  - apply (qrep_items _ _ (dr_rep _ _ _ _ Hd')).
  - cbn [s_nextExpiryAtMs]. rewrite fmap_is_Some. by apply heap_head_waiting; [apply Hd'|].
  - apply (dr_closed _ _ _ _ Hd').
Qed.

Lemma take_entries q now n q1 lease q' :
  expire q (Finite now) = Ret (n, q1) -> take q (Finite now) = Ret (lease, q') -> q_entries q' = q_entries q1.
Proof.
  intros He. rewrite take_eq, He. cbn [mbind exc_bind].
  destruct (_ ≫= _) as [e|]; [|by intros [= _ <-]]. intros [= _ <-]. cbn.
  destruct (rotate_frame (detach q1 (sequence e)) (fairnessKey e) (snd (choice q1))) as [Hf _].
  by rewrite (fr_entries _ _ Hf), (fr_entries _ _ (detach_frame q1 (sequence e))).
Qed.

(** The admission served leaves the rest in place. *)
Lemma serve_waiting_perm d e (a : @Waiting nat) q :
  represents q a -> next_waiting d a = Some e -> waiting a ≡ₚ e :: waiting (serve_waiting d e a).
Proof.
  intros ([Hm _ _] & _) Hn. apply next_waiting_elem, list_elem_of_split in Hn as (w1 & w2 & Hw).
  pose proof (mo_sorted _ _ Hm) as Hs. cbn. rewrite Hw in Hs |- *. rewrite remove_split by done.
  by rewrite Permutation_middle.
Qed.

Lemma take_drops q ws now :
  qrep q ws -> exists lease q' ws', take q (Finite now) = Ret (lease, q') /\ qrep q' ws' /\
    q_isClosed q' = q_isClosed q /\
    ws ≡ₚ ws' ++ (rejected_since q q').*1 ++ match lease with Some l => [lease_value l] | None => [] end /\
    (lease = None -> ws' = []).
Proof.
  intros (a & Hr & <-). destruct (take_represents q a now Hr) as (gone & q1 & Hx & Ht).
  destruct (expire_represents q a now Hr) as (gone2 & q2 & He & Hx2 & _).
  pose proof (expired_drops _ _ _ _ _ Hr Hx) as [_ Hp Hc].
  destruct (next_waiting _ _) as [e|] eqn:E.
  - destruct Ht as (q' & Ht & Hr' & _ & Hc' & _ & Hlog). do 3 eexists. split_and!; [exact Ht|eexists; split; [exact Hr'|reflexivity]|done| |done].
    pose proof (take_entries _ _ _ _ _ _ He Ht) as Hent. rewrite (fr_entries _ _ (ex_frame _ _ _ _ _ Hx2)) in Hent.
    pose proof (expired_represents _ _ _ _ _ Hr Hx) as Hr1.
    rewrite (serve_waiting_perm _ _ _ _ Hr1 E) in Hp. rewrite Hp. cbn [lease_value].
    rewrite (rejected_since_log q q' _ Hlog), omap_app. cbn [omap list_omap]. rewrite app_nil_r.
    unfold reject_log. rewrite (rejections_tasks q' gone expiresBy), fmap_cons.
    + rewrite (rejected_since_gone q q1 (waiting a) gone expiresBy); [|by apply Hr| |apply (fr_entries _ _ (ex_frame _ _ _ _ _ Hx))|apply Hx].
      * cbn [app]. rewrite (Permutation_app_comm (value <$> gone) [_]). cbn. by rewrite Permutation_middle.
      * intros e'. rewrite (ex_gone _ _ _ _ _ Hx), list_elem_of_filter. tauto.
    + intros e'. rewrite (ex_gone _ _ _ _ _ Hx), list_elem_of_filter, Hent. intros [_ Hin].
      by apply (mo_entries _ _ (qi_members _ _ (proj1 Hr))).
  - destruct Ht as [Ht Hr1]. do 3 eexists. split_and!; [exact Ht|eexists; split; [exact Hr1|reflexivity]|done|..].
    + by rewrite app_nil_r.
    + intros _. rewrite <-(fr_config _ _ (ex_frame _ _ _ _ _ Hx)) in E. by rewrite (next_waiting_none _ _ Hr1 E).
Qed.

Lemma abort_drops q ws s : qrep q ws -> exists ws', drops q ws (onAbort q s) ws'.
Proof.
  intros (a & Hr & <-). exists (value <$> waiting (remove_waiting s a)).
  pose proof (rejectEntry_frame q s by_canceled) as Hf. unfold onAbort. split.
  - eexists. split; [by apply reject_represents|done].
  - destruct Hr as ([Hm _ _] & _). destruct (decide (s ∈ q_active q)) as [Ha|Ha].
    + apply (mo_active_iff _ _ _ Hm) in Ha as (e & He & <-). pose proof He as He'.
      apply list_elem_of_split in He as (w1 & w2 & Hw). pose proof Hm as Hm2. rewrite Hw in Hm2.
      rewrite (rejected_since_gone q _ (waiting a) [e] (fun _ => by_canceled));
        [|done|set_solver|apply Hf|by rewrite (rejectEntry_settled _ _ _ _ _ Hm2)].
      rewrite Hw. cbn [remove_waiting retain waiting]. rewrite Hw, remove_split by apply Hm2.
      rewrite <-fmap_app. apply fmap_Permutation. by rewrite <-app_assoc, (Permutation_app_comm w2).
    + rewrite rejectEntry_inactive by done. rewrite rejected_since_same by done. cbn.
      rewrite app_nil_r, filter_all; [done|]. intros e He Heq. apply Ha, (mo_active_iff _ _ _ Hm). by exists e.
  - apply (fr_closed _ _ Hf).
Qed.

Lemma close_drops q ws :
  qrep q ws -> qrep (Admission.close q) [] /\ ws ≡ₚ (rejected_since q (Admission.close q)).*1 /\
    q_isClosed (Admission.close q) = true.
Proof.
  intros Hq. destruct (q_isClosed q) eqn:Hc.
  - pose proof (qrep_closed _ _ Hq Hc) as ->. unfold Admission.close. rewrite Hc. by rewrite rejected_since_same.
  - destruct Hq as (a & Hr & <-). destruct (close_open _ _ Hr Hc) as (Hr' & Hf & Hl). split_and!.
    + eexists. by split; [exact Hr'|].
    + rewrite (rejected_since_gone q _ (waiting a) (waiting a) (fun _ => by_closed)); [done|apply Hr|done|apply (fr_entries _ _ Hf)|exact Hl].
    + apply (fr_closed _ _ Hf).
Qed.

Lemma enqueue_drops q ws now task o q' ticket :
  qrep q ws -> enqueue q (Finite now) task o = Ret (q', ticket) ->
  exists ws', qrep q' ws' /\ q_isClosed q' = q_isClosed q /\
    ws ++ [task] ≡ₚ ws' ++ (rejected_since q q').*1 ++ match ticket with RejectedImmediately _ => [task] | Pending _ => [] end /\
    (forall s, ticket = Pending s -> q_isClosed q = false).
Proof.
  intros (a & Hr & <-) He. destruct (accepted_bytes (q_discipline (q_config q)) o) as [b|] eqn:Hb.
  2:{ destruct (enqueue_throws q (Finite now) task o Hb) as [err Ht]. congruence. }
  assert (Hrf : refines (q_config q) q (MkSpec a (q_isClosed q) (q_sequence q))) by by split.
  rewrite (enqueue_decision _ _ _ _ _ _ Hrf Hb) in He. destruct (refusal _ _ _ _ _) as [r|] eqn:E.
  - injection He as <- <-. exists (value <$> waiting a). split_and!; [|done| |done].
    + eexists. by split; [by apply reject_total_represents|].
    + by rewrite rejected_since_same.
  - destruct (pending_of_admissible _ _ now task o b Hrf Hb E) as [Had Hcl]. injection He as He <-.
    set (e := pending_of q now task b o) in *.
    pose proof (wait_for_turn_represents _ _ _ Hr Had Hcl) as Hr1. set (q1 := wait_for_turn q e) in *.
    assert (Hq1 : qrep q1 ((value <$> waiting a) ++ [task])) by (eexists; split; [exact Hr1|cbn; by rewrite fmap_app]).
    case_decide; subst q'.
    + destruct (abort_drops q1 _ (sequence e) Hq1) as (ws' & Hd). exists ws'. split_and!.
      * apply Hd.
      * apply (dr_closed _ _ _ _ Hd).
      * rewrite app_nil_r. apply (dr_tasks _ _ _ _ Hd).
      * by intros.
    + exists ((value <$> waiting a) ++ [task]). split_and!; [exact Hq1|done| |by intros].
      by rewrite rejected_since_same, !app_nil_r.
Qed.
End contract.

(** ** The accounting *)

Definition count_outcome (o : TaskOutcome) (x : Executor) : Z := Z.of_nat (length (filter (fun t => t.2 = o) (outcomes x))).

(** Every submitted task waits, runs, is about to be told it was refused, or is
    settled; the counters count what they name. *)
Record accounted (x : Executor) (ws : list nat) : Prop := {
  ac_queue : qrep (queue x) ws;
  ac_active : active x = Z.of_nat (length (running x) + length (finishing x));
  ac_bound : active x <= concurrency x;
  ac_admitted : admitted x = completed x + failed x + Z.of_nat (length (running x));
  ac_completed : completed x = count_outcome TaskCompleted x;
  ac_failed : failed x = count_outcome TaskFailed x;
  ac_tasks : seq 0 (submitted x) ≡ₚ ws ++ running x ++ (refusals x).*1 ++ (outcomes x).*1;
  ac_finishing : NoDup (finishing x);
  ac_finished : finishing x ⊆ (outcomes x).*1;
}.

Definition undrained (x : Executor) (ws : list nat) : Prop := active x <> 0 \/ ws <> [] \/ refusals x <> [].
Definition drain_ok (x : Executor) (ws : list nat) : Prop := drainWaiters x <> [] -> undrained x ws.
Definition armed (x : Executor) (ws : list nat) : Prop := ws <> [] -> is_Some (expiryTimer x).
Definition busy (x : Executor) (ws : list nat) : Prop := active x < concurrency x -> ws = [].

(** Between two calls: nothing waits beside a free place, a waiter of [drain]
    has something to wait for, and the timer is set when a task may expire. *)
Record quiescent (x : Executor) (ws : list nat) : Prop := {
  qu_accounted : accounted x ws;
  qu_pumping : pumping x = false;
  qu_busy : busy x ws;
  qu_drain : drain_ok x ws;
  qu_armed : armed x ws;
}.

(** [x'] is [x] with some of the waiting tasks rejected. *)
Record lowered (x : Executor) (ws : list nat) (x' : Executor) (ws' : list nat) : Prop := {
  lo_accounted : accounted x' ws';
  lo_concurrency : concurrency x' = concurrency x;
  lo_pumping : pumping x' = pumping x;
  lo_closed : q_isClosed (queue x') = q_isClosed (queue x);
  lo_waiters : drainWaiters x' = drainWaiters x \/ drainWaiters x' = [];
  lo_armed : armed x ws -> armed x' ws';
  lo_running : running x' = running x;
  lo_finishing : finishing x' = finishing x;
  lo_outcomes : outcomes x' = outcomes x;
  lo_submitted : submitted x' = submitted x;
  lo_refusals : exists more, refusals x' = refusals x ++ more /\ ws ≡ₚ ws' ++ more.*1;
}.

Lemma lowered_refl x ws : accounted x ws -> lowered x ws x ws.
Proof. intros Ha. split; try done; [by left|]. exists []. by rewrite !app_nil_r. Qed.

Lemma lowered_trans x ws x1 ws1 x2 ws2 :
  lowered x ws x1 ws1 -> lowered x1 ws1 x2 ws2 -> lowered x ws x2 ws2.
Proof.
  intros [? ? ? ? Hw ? ? ? ? ? (m1 & Hm1 & Hp1)] [? ? ? ? Hw' ? ? ? ? ? (m2 & Hm2 & Hp2)].
  split; try congruence; try tauto.
  - destruct Hw' as [->|]; [done|by right].
  - exists (m1 ++ m2). rewrite Hm2, Hm1, <-app_assoc. split; [done|].
    rewrite Hp1, Hp2, fmap_app, <-app_assoc. by rewrite (Permutation_app_comm m2.*1).
Qed.

Lemma lowered_active x ws x' ws' : accounted x ws -> lowered x ws x' ws' -> active x' = active x.
Proof. intros Ha Hl. rewrite (ac_active _ _ Ha), (ac_active _ _ (lo_accounted _ _ _ _ Hl)), (lo_running _ _ _ _ Hl), (lo_finishing _ _ _ _ Hl). done. Qed.

Lemma lowered_none x x' ws' : lowered x [] x' ws' -> ws' = [] /\ refusals x' = refusals x.
Proof.
  intros Hl. destruct (lo_refusals _ _ _ _ Hl) as (more & -> & Hp). apply Permutation_nil in Hp.
  apply app_eq_nil in Hp as [-> Hm]. apply fmap_nil_inv in Hm as ->. by rewrite app_nil_r.
Qed.

Lemma lowered_undrained x ws x' ws' : accounted x ws -> lowered x ws x' ws' -> undrained x ws -> undrained x' ws'.
Proof.
  intros Ha Hl [Hact|Hx]; [left; by rewrite (lowered_active _ _ _ _ Ha Hl)|right].
  destruct (lo_refusals _ _ _ _ Hl) as (more & -> & Hp).
  destruct ws' as [|]; [right|by left]. intros [Hr Hm]%app_eq_nil. destruct Hx as [Hw|]; [|done].
  apply Hw, Permutation_nil. rewrite Hp, Hm. done.
Qed.

Lemma lowered_drain x ws x' ws' : accounted x ws -> lowered x ws x' ws' -> drain_ok x ws -> drain_ok x' ws'.
Proof.
  intros Ha Hl Hd Hw. eapply lowered_undrained; [done..|]. apply Hd. destruct (lo_waiters _ _ _ _ Hl) as [<-|]; done.
Qed.

Lemma lowered_busy x ws x' ws' : accounted x ws -> lowered x ws x' ws' -> busy x ws -> busy x' ws'.
Proof.
  unfold busy. intros Ha Hl Hb. rewrite (lowered_active _ _ _ _ Ha Hl), (lo_concurrency _ _ _ _ Hl). intros ->%Hb.
  eapply lowered_none, Hl.
Qed.

Lemma lowered_quiescent x ws x' ws' : quiescent x ws -> lowered x ws x' ws' -> quiescent x' ws'.
Proof.
  intros [Ha Hp Hb Hd Ht] Hl. split; [apply Hl|by rewrite (lo_pumping _ _ _ _ Hl)|..].
  - by eapply lowered_busy.
  - by eapply lowered_drain.
  - by apply Hl.
Qed.

(** ** Running *)

Section running.
Definition runs {A} (m : Effects.eff Executor A) (x : Executor) (Q : A -> Executor -> Prop) : Prop :=
  exists a x', m x = (Ret a, x') /\ Q a x'.

Lemma runs_ret {A} (a : A) x (Q : A -> Executor -> Prop) : Q a x -> runs (mret a) x Q.
Proof. intros H. by exists a, x. Qed.
Lemma runs_get {A} (f : Executor -> A) x (Q : A -> Executor -> Prop) : Q (f x) x -> runs (get f) x Q.
Proof. intros H. by exists (f x), x. Qed.
Lemma runs_modify f x (Q : unit -> Executor -> Prop) : Q tt (f x) -> runs (modify f) x Q.
Proof. intros H. by exists tt, (f x). Qed.
Lemma runs_bind {A B} (m : Effects.eff Executor A) (k : A -> Effects.eff Executor B) x (Q : B -> Executor -> Prop) :
  runs m x (fun a x' => runs (k a) x' Q) -> runs (m ≫= k) x Q.
Proof. intros (a & x' & Hm & b & x'' & Hk & HQ). exists b, x''. by rewrite run_bind, Hm. Qed.
Lemma runs_mono {A} (m : Effects.eff Executor A) x (P Q : A -> Executor -> Prop) :
  runs m x P -> (forall a x', P a x' -> Q a x') -> runs m x Q.
Proof. intros (a & x' & Hm & HP) H. exists a, x'. auto. Qed.
Lemma runs_finally {A} (m : Effects.eff Executor A) after x (Q : A -> Executor -> Prop) :
  runs m x (fun a x' => runs after x' (fun _ x'' => Q a x'')) -> runs (finally m after) x Q.
Proof.
  intros (a & x' & Hm & [] & x'' & Ha & HQ). exists a, x''. split; [|done].
  unfold finally. rewrite run_bind. unfold catch. rewrite run_bind, Hm. cbn. by rewrite run_bind, Ha.
Qed.
End running.

(** ** The methods, on a clock that is always finite *)

Section methods.
Context (clock : nat -> Z).
Abbreviation now := (fun n => Finite (clock n)).

Definition absorb (q' : AdmissionQueue nat) (x : Executor) : Executor :=
  set_refusals (refusals x ++ rejected_since (queue x) q') (set_queue q' x).

Lemma lowered_drops x ws q' ws' :
  accounted x ws -> drops (queue x) ws q' ws' -> lowered x ws (absorb q' x) ws'.
Proof.
  intros Ha [Hr Hp Hc]. split; try done.
  - destruct Ha as [_ ? ? ? ? ? Ht ? ?]. split; try done. cbn. rewrite Ht, Hp, fmap_app.
    rewrite <-!app_assoc. f_equiv. rewrite (Permutation_app_comm (rejected_since _ _).*1), <-!app_assoc. f_equiv. f_equiv.
    apply Permutation_app_comm.
  - by left.
  - intros Hx Hw. apply Hx. intros ->. destruct ws'; [done|]. by apply Permutation_nil_cons in Hp.
  - by exists (rejected_since (queue x) q').
Qed.

Lemma lowered_readings x ws n : accounted x ws -> lowered x ws (set_readings n x) ws.
Proof.
  intros Ha. split; try done; [by destruct Ha|by left|]. exists []. by rewrite !app_nil_r.
Qed.

Lemma lowered_timer x ws t : accounted x ws -> (ws <> [] -> is_Some t) -> lowered x ws (set_expiryTimer t x) ws.
Proof.
  intros Ha Ht. split; try done; [by destruct Ha|by left|]. exists []. by rewrite !app_nil_r.
Qed.

Lemma read_clock_runs x ws :
  accounted x ws -> runs (read_clock now) x (fun t x' => (exists z, t = Finite z) /\ lowered x ws x' ws /\ queue x' = queue x).
Proof. intros Ha. do 2 eexists. split; [reflexivity|]. split_and!; [by eexists|by apply lowered_readings|done]. Qed.

Lemma with_queue_runs {A} (f : AdmissionQueue nat -> exc js_error (A * AdmissionQueue nat)) x a q' :
  f (queue x) = Ret (a, q') -> runs (with_queue f) x (fun r x' => r = a /\ x' = absorb q' x).
Proof. intros Hf. exists a, (absorb q' x). unfold with_queue. by rewrite Hf. Qed.

Lemma queue_snapshot_runs x ws :
  accounted x ws ->
  runs (queue_snapshot now) x (fun s x' => exists ws', lowered x ws x' ws' /\
    s_queuedItems s = Z.of_nat (length ws') /\ (is_Some (s_nextExpiryAtMs s) <-> ws' <> []) /\
    s_closed s = q_isClosed (queue x')).
Proof.
  intros Ha. unfold queue_snapshot. apply runs_bind. eapply runs_mono; [by apply read_clock_runs|].
  intros t x1 ([z ->] & Hl & Hq). pose proof (lo_accounted _ _ _ _ Hl) as Ha1.
  destruct (snapshot_drops _ _ z (ac_queue _ _ Ha1)) as (s & q' & ws' & Hs & Hd & Hn & Hx & Hc).
  eapply runs_mono; [apply (with_queue_runs _ _ _ _ Hs)|]. intros ? ? [-> ->].
  exists ws'. split_and!; [|done..|].
  - eapply lowered_trans; [exact Hl|by apply lowered_drops].
  - rewrite Hc. symmetry. apply (dr_closed _ _ _ _ Hd).
Qed.

Lemma schedule_after_runs s x ws :
  accounted x ws -> (is_Some (s_nextExpiryAtMs s) <-> ws <> []) -> s_closed s = q_isClosed (queue x) ->
  runs (schedule_after now s) x (fun _ x' => lowered x ws x' ws /\ armed x' ws).
Proof.
  intros Ha Hs Hc. unfold schedule_after. apply runs_bind, runs_modify.
  assert (Hnone : ws = [] -> lowered x ws (set_expiryTimer None x) ws /\ armed (set_expiryTimer None x) ws)
    by (intros Hw; split; [by apply lowered_timer; [|intros []]|by intros []]).
  destruct (s_nextExpiryAtMs s) as [next|]; cycle 1.
  { apply runs_ret, Hnone. destruct ws; [done|]. by destruct (proj2 Hs ltac:(done)). }
  destruct (s_closed s) eqn:E; [apply runs_ret, Hnone, (qrep_closed _ _ (ac_queue _ _ Ha)); congruence|].
  apply runs_bind. exists (Finite (clock (readings x))). eexists. split; [reflexivity|]. apply runs_modify. split; [|intros _; by eexists].
  change (lowered x ws (set_expiryTimer (Some (clock (readings x) + Z.min (Z.max 0 (next - clock (readings x))) (2 ^ 31 - 1)))
    (set_readings (S (readings x)) x)) ws).
  eapply lowered_trans; [by apply (lowered_readings _ _ (S (readings x)))|].
  apply lowered_timer; [|done]. by apply (lo_accounted _ _ _ _ (lowered_readings _ _ (S (readings x)) Ha)).
Qed.

Lemma scheduleExpiry_runs x ws :
  accounted x ws -> runs (scheduleExpiry now) x (fun _ x' => exists ws', lowered x ws x' ws' /\ armed x' ws').
Proof.
  intros Ha. unfold scheduleExpiry. apply runs_bind. eapply runs_mono; [by apply queue_snapshot_runs|].
  intros s x1 (ws' & Hl & _ & Hs & Hc). eapply runs_mono; [by eapply schedule_after_runs; [apply Hl|..]|].
  intros _ x2 [Hl2 Ht]. exists ws'. split; [by eapply lowered_trans|done].
Qed.

Lemma executor_snapshot_runs x ws :
  accounted x ws -> runs (_ ← executor_snapshot now; mret tt) x (fun _ x' => exists ws', lowered x ws x' ws' /\ armed x' ws').
Proof.
  intros Ha. apply runs_bind. unfold executor_snapshot. apply runs_bind. eapply runs_mono; [by apply queue_snapshot_runs|].
  intros s x1 (ws' & Hl & _ & Hs & Hc). apply runs_bind.
  eapply runs_mono; [by eapply schedule_after_runs; [apply Hl|..]|].
  intros _ x2 [Hl2 Ht]. apply runs_get, runs_ret. exists ws'. split; [by eapply lowered_trans|done].
Qed.

Lemma lowered_drained x ws : accounted x ws -> active x = 0 -> ws = [] ->
  lowered x ws (set_drainWaiters [] (set_drained (drained x ++ drainWaiters x) x)) ws.
Proof.
  intros Ha _ ->. split; try done; [by destruct Ha|by right|]. exists []. by rewrite !app_nil_r.
Qed.

Lemma resolveDrainIfIdle_runs x ws :
  accounted x ws -> runs (resolveDrainIfIdle now) x (fun _ x' => exists ws', lowered x ws x' ws' /\ drain_ok x' ws').
Proof.
  intros Ha. unfold resolveDrainIfIdle. apply runs_bind, runs_get. case_decide as Hz.
  { apply runs_ret. exists ws. split; [by apply lowered_refl|]. intros _. by left. }
  apply runs_bind. eapply runs_mono; [by apply queue_snapshot_runs|].
  intros s x1 (ws' & Hl & Hn & _). pose proof (lo_accounted _ _ _ _ Hl) as Ha1. case_decide as Hi.
  - apply runs_ret. exists ws'. split; [done|]. intros _. right. left. intros ->. apply Hi, Hn.
  - assert (ws' = []) as -> by (rewrite Hn in Hi; destruct ws'; [done|]; cbn in Hi; lia).
    apply runs_modify. exists []. split; [|by intros []]. eapply lowered_trans; [exact Hl|].
    apply lowered_drained; [done| |done]. by rewrite (lowered_active _ _ _ _ Ha Hl).
Qed.

(** [x'] is [x] with some of the waiting tasks started. *)
Record pumped (x : Executor) (ws : list nat) (x' : Executor) (ws' : list nat) : Prop := {
  pu_accounted : accounted x' ws';
  pu_concurrency : concurrency x' = concurrency x;
  pu_pumping : pumping x' = pumping x;
  pu_closed : q_isClosed (queue x') = q_isClosed (queue x);
  pu_waiters : drainWaiters x' = drainWaiters x \/ drainWaiters x' = [];
  pu_undrained : undrained x ws -> undrained x' ws';
  pu_none : ws = [] -> lowered x ws x' ws';
}.

Lemma lowered_pumped x ws x' ws' : accounted x ws -> lowered x ws x' ws' -> pumped x ws x' ws'.
Proof. intros Ha Hl. split; try apply Hl; [by eapply lowered_undrained|done]. Qed.

Lemma pumped_trans x ws x1 ws1 x2 ws2 : pumped x ws x1 ws1 -> pumped x1 ws1 x2 ws2 -> pumped x ws x2 ws2.
Proof.
  intros [? ? ? ? Hw ? Hn] [? ? ? ? Hw' ? Hn']. split; try congruence; try tauto.
  - destruct Hw' as [->|]; [done|by right].
  - intros Hws. specialize (Hn Hws). subst ws. pose proof (lowered_none _ _ _ Hn) as [-> _].
    eapply lowered_trans; [exact Hn|]. by apply Hn'.
Qed.

(** A task that leaves the queue starts running. *)
Definition start_task (task : nat) (x : Executor) : Executor :=
  set_running (running x ++ [task]) (set_admitted (admitted x + 1) (set_active (active x + 1) x)).

Lemma start_pumped x ws q' ws' task :
  accounted x ws -> active x < concurrency x -> qrep q' ws' -> q_isClosed q' = q_isClosed (queue x) ->
  ws ≡ₚ ws' ++ (rejected_since (queue x) q').*1 ++ [task] ->
  pumped x ws (start_task task (absorb q' x)) ws'.
Proof.
  intros [_ Hact ? Hadm ? ? Ht ? ?] Hb Hq Hc Hp.
  assert (Ha' : accounted (start_task task (absorb q' x)) ws').
  { split; cbn; try done; [rewrite Hact, length_app; cbn; lia|lia|rewrite Hadm, length_app; cbn; lia|].
    rewrite Ht, Hp, fmap_app, <-!app_assoc. f_equiv. cbn. rewrite <-!Permutation_middle. f_equiv.
    by rewrite (Permutation_app_swap_app _.*1 (running x)), (Permutation_app_swap_app _.*1 (refusals x).*1). }
  split; try done; [by left|left; cbn; rewrite Hact; lia|].
  intros ->. apply Permutation_nil in Hp. apply app_eq_nil in Hp as [_ [_ ?]%app_eq_nil]. done.
Qed.

Lemma pump_loop_runs fuel x ws :
  accounted x ws -> (Z.to_nat (concurrency x - active x) <= fuel)%nat ->
  runs (pump_loop now fuel) x (fun _ x' => exists ws', pumped x ws x' ws' /\ busy x' ws').
Proof.
  revert x ws. induction fuel as [|fuel IH]; intros x ws Ha Hf; cbn [pump_loop]; apply runs_bind, runs_get; unfold id;
    case_decide as Hc; try (apply runs_ret; exists ws; split; [by apply lowered_pumped, lowered_refl|intros ?; lia]).
  apply runs_bind. eapply runs_mono; [by apply read_clock_runs|]. intros t x1 ([z ->] & Hl1 & Hq).
  pose proof (lo_accounted _ _ _ _ Hl1) as Ha1.
  destruct (take_drops _ _ z (ac_queue _ _ Ha1)) as (lease & q' & ws' & Ht & Hr & Hcl & Hp & Hn).
  apply runs_bind. eapply runs_mono; [apply (with_queue_runs _ _ _ _ Ht)|]. intros ? ? [-> ->].
  pose proof (lowered_pumped _ _ _ _ Ha Hl1) as Hp1.
  destruct lease as [l|].
  - apply runs_bind, runs_modify. change (set_running _ _) with (start_task (lease_value l) (absorb q' x1)).
    pose proof (lowered_active _ _ _ _ Ha Hl1) as Hact. pose proof (lo_concurrency _ _ _ _ Hl1) as Hco.
    pose proof (start_pumped x1 ws q' ws' (lease_value l) Ha1 ltac:(lia) Hr Hcl Hp) as Hp2.
    eapply runs_mono; [apply IH; [apply Hp2|cbn; lia]|]. intros _ x3 (ws3 & Hp3 & Hb3). exists ws3. split; [|done].
    eapply pumped_trans; [exact Hp1|]. by eapply pumped_trans.
  - apply runs_ret. rewrite app_nil_r in Hp. assert (Hd : drops (queue x1) ws q' ws') by done.
    pose proof (lowered_drops _ _ _ _ Ha1 Hd) as Hl2. exists ws'. split; [|intros _; by apply Hn].
    apply lowered_pumped; [done|]. by eapply lowered_trans.
Qed.

Lemma accounted_pumping x ws b : accounted x ws -> accounted (set_pumping b x) ws.
Proof. by intros []. Qed.

Lemma lowered_pumping x ws x' ws' :
  pumping x = false -> lowered (set_pumping true x) ws x' ws' -> lowered x ws (set_pumping false x') ws'.
Proof. intros Hp []. split; try done. by apply accounted_pumping. Qed.

Lemma pump_runs x ws :
  accounted x ws -> pumping x = false ->
  runs (pump now) x (fun _ x' => exists ws', pumped x ws x' ws' /\ busy x' ws' /\ armed x' ws').
Proof.
  intros Ha Hpu. unfold pump. apply runs_bind, runs_get. unfold id. rewrite Hpu. apply runs_bind, runs_modify, runs_finally.
  eapply runs_mono; [apply (pump_loop_runs _ _ ws); [by apply accounted_pumping|done]|].
  intros _ x1 (ws1 & Hp1 & Hb1). apply runs_bind, runs_modify.
  pose proof (accounted_pumping _ _ false (pu_accounted _ _ _ _ Hp1)) as Ha1.
  eapply runs_mono; [by apply scheduleExpiry_runs|]. intros _ x2 (ws2 & Hl & Ht). exists ws2.
  split_and!; [|by eapply lowered_busy|done].
  destruct Hp1 as [? ? ? ? ? ? Hn]. pose proof (lowered_pumped _ _ _ _ Ha1 Hl) as [? ? ? ? Hw ? ?]. split; try (cbn in *; congruence).
  - cbn in *. destruct Hw as [->|]; [done|by right].
  - cbn in *. auto.
  - intros Hws. eapply lowered_trans; [by apply lowered_pumping, Hn|done].
Qed.

(** ** The calls *)

(** A submitted task waits, or its ticket was rejected. *)
Definition enqueued (task : nat) (ticket : Ticket) (q' : AdmissionQueue nat) (x : Executor) : Executor :=
  let x := set_submitted (S task) (absorb q' x) in
  match ticket with
  | RejectedImmediately reason => set_refusals (refusals x ++ [(task, reason)]) x
  | Pending _ => x
  end.

Lemma enqueued_accounted x ws q' ws' ticket :
  accounted x ws -> qrep q' ws' ->
  ws ++ [submitted x] ≡ₚ ws' ++ (rejected_since (queue x) q').*1 ++
    match ticket with RejectedImmediately _ => [submitted x] | Pending _ => [] end ->
  accounted (enqueued (submitted x) ticket q' x) ws' /\ undrained (enqueued (submitted x) ticket q' x) ws'.
Proof.
  intros [_ ? ? ? ? ? Ht ? ?] Hq Hp. split.
  - assert (Htasks : seq 0 (S (submitted x)) ≡ₚ ws' ++ running x ++ ((refusals x).*1 ++ (rejected_since (queue x) q').*1 ++
        match ticket with RejectedImmediately _ => [submitted x] | Pending _ => [] end) ++ (outcomes x).*1).
    { set (more := (rejected_since _ _).*1 ++ _) in *. rewrite seq_S, Ht. cbn [Nat.add].
      rewrite (Permutation_app_comm _ [submitted x]), (app_assoc [submitted x]), (Permutation_app_comm [submitted x] ws), Hp.
      rewrite <-!app_assoc, (Permutation_app_swap_app more), (Permutation_app_swap_app more). done. }
    destruct ticket; split; try done; cbn; rewrite !fmap_app; [|by rewrite app_nil_r in Htasks].
    rewrite <-!app_assoc in Htasks |- *. exact Htasks.
  - right. assert (Hne : ws' = [] -> (refusals (enqueued (submitted x) ticket q' x)) <> []); [|destruct ws'; [right; auto|by left]].
    intros -> Hr. destruct ticket; cbn in Hr; [by apply app_eq_nil in Hr as [_ ?]|].
    apply app_eq_nil in Hr as [_ Hr]. rewrite Hr in Hp. apply Permutation_sym, Permutation_nil, app_eq_nil in Hp as [_ ?]. done.
Qed.

Lemma submit_quiescent o x ws : quiescent x ws -> exists ws', quiescent (submit now o x).2 ws'.
Proof.
  intros [Ha Hpu Hb Hd Ht]. pose proof (lowered_readings x ws (S (readings x)) Ha) as Hl1.
  unfold submit. rewrite run_get, run_bind. unfold read_clock at 1.
  set (x1 := set_readings (S (readings x)) x) in *. rewrite run_bind.
  assert (Hq1 : quiescent x1 ws) by (by apply (lowered_quiescent x ws x1 ws)).
  destruct (enqueue (queue x1) (Finite (clock (readings x))) (submitted x) o) as [[q' ticket]|err] eqn:E.
  2:{ exists ws. unfold with_queue. by rewrite E. }
  match goal with |- context [with_queue ?f x1] => assert (with_queue f x1 = (Ret ticket, absorb q' x1)) as -> end.
  { unfold with_queue. by rewrite E. }
  destruct (enqueue_drops _ _ _ _ _ _ _ (ac_queue _ _ (qu_accounted _ _ Hq1)) E) as (ws' & Hr & _ & Hp & _).
  destruct (enqueued_accounted x1 ws q' ws' ticket (qu_accounted _ _ Hq1) Hr Hp) as [Ha' Hu].
  assert (Hrun : runs (_ ← modify (fun y => set_submitted (S (submitted x)) y);
     _ ← match ticket with
         | RejectedImmediately reason => modify (fun y => set_refusals (refusals y ++ [(submitted x, reason)]) y)
         | Pending _ => mret tt
         end;
     _ ← pump now; mret (submitted x)) (absorb q' x1) (fun _ x' => exists ws', quiescent x' ws')).
  { apply runs_bind, runs_modify, runs_bind.
    assert (Hpost : runs (_ ← pump now; mret (submitted x)) (enqueued (submitted x) ticket q' x1) (fun _ x' => exists ws', quiescent x' ws')).
    { apply runs_bind. eapply runs_mono; [apply (pump_runs _ ws' Ha'); by destruct ticket|].
      intros _ x2 (ws2 & Hpd & Hb2 & Ht2). apply runs_ret. exists ws2. split; [apply Hpd| |done| |done].
      - rewrite (pu_pumping _ _ _ _ Hpd). by destruct ticket.
      - intros _. by apply (pu_undrained _ _ _ _ Hpd). }
    destruct ticket; [apply runs_modify|apply runs_ret]; exact Hpost. }
  destruct Hrun as (n & x' & Hrun & ws2 & Hq2). exists ws2. by rewrite Hrun.
Qed.

(** ** The continuations *)

(** The continuations that are still to run. *)
Definition outstanding (x : Executor) : nat := 2 * length (running x) + length (finishing x) + length (refusals x).

Lemma take_out_perm {A} `{EqDecision B} (f : A -> B) (l : list A) a :
  NoDup (f <$> l) -> a ∈ l -> l ≡ₚ a :: filter (fun a' => f a' <> f a) l.
Proof.
  intros Hn (l1 & l2 & ->)%list_elem_of_split. rewrite filter_app, filter_cons_False by tauto.
  rewrite fmap_app, fmap_cons, NoDup_app, NoDup_cons in Hn. destruct Hn as (_ & H1 & H2 & _).
  rewrite !filter_all; [by rewrite Permutation_middle|intros a' Hin Heq..].
  - apply H2. rewrite <-Heq. by apply list_elem_of_fmap_2.
  - apply (H1 (f a')); [by apply list_elem_of_fmap_2|rewrite Heq; left].
Qed.

Lemma accounted_nodup x ws :
  accounted x ws -> NoDup (running x) /\ NoDup ((refusals x).*1) /\
    (forall t, t ∈ running x -> t ∉ (outcomes x).*1) /\ NoDup ((outcomes x).*1).
Proof.
  intros Ha. pose proof (NoDup_seq 0 (submitted x)) as Hn. rewrite (ac_tasks _ _ Ha) in Hn.
  rewrite !NoDup_app in Hn. destruct Hn as (_ & _ & Hr & Hro & Hf & _ & Ho). split_and!; [done..| |done].
  intros t Ht Hin. apply (Hro t Ht), elem_of_app. by right.
Qed.

Lemma count_outcome_app o x task o' :
  count_outcome o (set_outcomes (outcomes x ++ [(task, o')]) x) = count_outcome o x + (if decide (o' = o) then 1 else 0).
Proof.
  unfold count_outcome. cbn. rewrite filter_app, length_app, filter_cons. cbn. case_decide; cbn; lia.
Qed.

(** The state after the work of a task settled. *)
Definition settled_work (task : nat) (ok : bool) (x : Executor) : Executor :=
  let x := set_finishing (finishing x ++ [task]) (set_running (filter (fun t => t <> task) (running x)) x) in
  let x := if ok then set_completed (completed x + 1) x else set_failed (failed x + 1) x in
  set_outcomes (outcomes x ++ [(task, if ok then TaskCompleted else TaskFailed)]) x.

Lemma work_settles_eq task ok x : task ∈ running x -> work_settles task ok x = (Ret tt, settled_work task ok x).
Proof. intros Ht. unfold work_settles. rewrite run_get. unfold id. rewrite decide_True by done. by destruct ok. Qed.

Lemma settled_work_quiescent x ws task ok :
  quiescent x ws -> task ∈ running x -> quiescent (settled_work task ok x) ws /\
    S (outstanding (settled_work task ok x)) = outstanding x.
Proof.
  intros [Ha Hpu Hb Hd Ht] Hin. destruct (accounted_nodup _ _ Ha) as (Hnr & _ & Hro & _).
  destruct Ha as [? Hact ? Hadm Hc Hf Htask Hfin Hfo].
  pose proof (take_out_perm id (running x) task ltac:(by rewrite list_fmap_id) Hin) as Hp. unfold id in Hp.
  pose proof (Permutation_length Hp) as Hlen. cbn in Hlen. split.
  2:{ unfold outstanding. destruct ok; cbn; rewrite length_app, Hlen; cbn; lia. }
  assert (Hout : outcomes (settled_work task ok x) = outcomes x ++ [(task, if ok then TaskCompleted else TaskFailed)]) by by destruct ok.
  assert (Hcount : forall o, count_outcome o (settled_work task ok x) = count_outcome o x +
      (if decide ((if ok then TaskCompleted else TaskFailed) = o) then 1 else 0)).
  { intros o. rewrite <-(count_outcome_app o x task). unfold count_outcome. by rewrite Hout. }
  assert (Hsame : active (settled_work task ok x) = active x /\ concurrency (settled_work task ok x) = concurrency x /\
    drainWaiters (settled_work task ok x) = drainWaiters x /\ refusals (settled_work task ok x) = refusals x /\
    pumping (settled_work task ok x) = pumping x /\ expiryTimer (settled_work task ok x) = expiryTimer x) by by destruct ok.
  destruct Hsame as (Ea & Ec & Ew & Er & Ep & Et).
  split; unfold busy, drain_ok, undrained, armed; rewrite ?Ea, ?Ec, ?Ew, ?Er, ?Ep, ?Et; [|done..].
  split.
  - by destruct ok.
  - rewrite Ea, Hact. destruct ok; cbn; rewrite length_app, Hlen; cbn; lia.
  - by rewrite Ea, Ec.
  - destruct ok; cbn; lia.
  - rewrite Hcount. replace (completed (settled_work task ok x)) with (completed x + if ok then 1 else 0) by (destruct ok; cbn; lia).
    rewrite Hc. by destruct ok.
  - rewrite Hcount. replace (failed (settled_work task ok x)) with (failed x + if ok then 0 else 1) by (destruct ok; cbn; lia).
    rewrite Hf. by destruct ok.
  - replace (submitted (settled_work task ok x)) with (submitted x) by by destruct ok.
    replace (running (settled_work task ok x)) with (filter (fun t => t <> task) (running x)) by by destruct ok.
    rewrite Hout, Er, Htask, fmap_app, Hp at 1. f_equiv. rewrite (Permutation_app_comm _ (_ <$> [_])).
    cbn. by rewrite <-!Permutation_middle.
  - replace (finishing (settled_work task ok x)) with (finishing x ++ [task]) by by destruct ok.
    apply NoDup_app. split_and!; [done| |apply NoDup_singleton]. intros t Hf1%Hfo ->%list_elem_of_singleton. by apply (Hro task).
  - replace (finishing (settled_work task ok x)) with (finishing x ++ [task]) by by destruct ok.
    rewrite Hout, fmap_app. cbn. intros t. rewrite !elem_of_app. intros [Hf1%Hfo|]; tauto.
Qed.

(** Pumping and then resolving the drain leaves nothing to do. *)
Lemma pump_then_drain x ws :
  accounted x ws -> pumping x = false ->
  runs (_ ← pump now; resolveDrainIfIdle now) x (fun _ x' => exists ws', quiescent x' ws' /\ pumped x ws x' ws').
Proof.
  intros Ha Hp. apply runs_bind. eapply runs_mono; [by apply pump_runs|]. intros _ x1 (ws1 & Hp1 & Hb & Ht).
  pose proof (pu_accounted _ _ _ _ Hp1) as Ha1.
  eapply runs_mono; [by apply resolveDrainIfIdle_runs|]. intros _ x2 (ws2 & Hl & Hd). exists ws2. split.
  - split; [apply Hl|by rewrite (lo_pumping _ _ _ _ Hl), (pu_pumping _ _ _ _ Hp1)|by eapply lowered_busy|done|by apply Hl].
  - eapply pumped_trans; [done|]. by apply lowered_pumped.
Qed.

(** Scheduling the expiry and then resolving the drain. *)
Lemma schedule_then_drain x ws :
  accounted x ws -> pumping x = false -> busy x ws ->
  runs (_ ← scheduleExpiry now; resolveDrainIfIdle now) x (fun _ x' => exists ws', quiescent x' ws' /\ lowered x ws x' ws').
Proof.
  intros Ha Hp Hb. apply runs_bind. eapply runs_mono; [by apply scheduleExpiry_runs|]. intros _ x1 (ws1 & Hl1 & Ht).
  pose proof (lo_accounted _ _ _ _ Hl1) as Ha1.
  eapply runs_mono; [by apply resolveDrainIfIdle_runs|]. intros _ x2 (ws2 & Hl & Hd). exists ws2.
  pose proof (lowered_trans _ _ _ _ _ _ Hl1 Hl) as Hl2. split; [|done].
  split; [apply Hl|by rewrite (lo_pumping _ _ _ _ Hl2)|by apply (lowered_busy _ _ _ _ Ha Hl2)|done|by apply Hl].
Qed.

Lemma lowered_outstanding x x' ws' : lowered x [] x' ws' -> outstanding x' = outstanding x.
Proof.
  intros Hl. destruct (lowered_none _ _ _ Hl) as [_ Hr]. unfold outstanding.
  by rewrite Hr, (lo_running _ _ _ _ Hl), (lo_finishing _ _ _ _ Hl).
Qed.

(** The state before a chain that ends resolves the drain. *)
Definition finished_task (task : nat) (x : Executor) : Executor :=
  set_active (active x - 1) (set_finishing (filter (fun t => t <> task) (finishing x)) x).

Lemma finished_task_accounted x ws task :
  accounted x ws -> task ∈ finishing x ->
  accounted (finished_task task x) ws /\ S (outstanding (finished_task task x)) = outstanding x.
Proof.
  intros [? Hact ? ? ? ? ? Hfin Hfo] Hin.
  pose proof (take_out_perm id (finishing x) task ltac:(by rewrite list_fmap_id) Hin) as Hp. unfold id in Hp.
  pose proof (Permutation_length Hp) as Hlen. cbn [length] in Hlen. split.
  - split; cbn [finished_task set_active set_finishing active running finishing concurrency]; try done; [lia|lia|..].
    + by apply NoDup_filter.
    + intros t [_ Ht]%list_elem_of_filter. by apply Hfo.
  - unfold outstanding, finished_task. cbn [set_active set_finishing running finishing refusals]. lia.
Qed.

Lemma task_finally_runs x ws task :
  quiescent x ws -> task ∈ finishing x ->
  runs (task_finally now task) x (fun _ x' => exists ws', quiescent x' ws' /\
    q_isClosed (queue x') = q_isClosed (queue x) /\ (ws = [] -> S (outstanding x') = outstanding x)).
Proof.
  intros [Ha Hpu _ _ _] Hin. unfold task_finally. apply runs_bind, runs_get. unfold id. rewrite decide_True by done.
  apply runs_bind, runs_modify. destruct (finished_task_accounted _ _ _ Ha Hin) as [Ha' Ho].
  eapply runs_mono; [by apply (pump_then_drain (finished_task task x) ws)|]. intros _ x' (ws' & Hq & Hp).
  exists ws'. split_and!; [done|apply (pu_closed _ _ _ _ Hp)|]. intros ->.
  rewrite <-Ho. f_equal. by eapply lowered_outstanding, pu_none.
Qed.

(** The state after the promise of a refused task is rejected. *)
Definition refused_task (task : nat) (reason : AdmissionRejectionReason) (x : Executor) : Executor :=
  let x := set_refusals (filter (fun r => r.1 <> task) (refusals x)) x in
  set_outcomes (outcomes x ++ [(task, TaskRefused reason)]) x.

Lemma refused_task_accounted x ws task reason :
  accounted x ws -> (task, reason) ∈ refusals x ->
  accounted (refused_task task reason x) ws /\ S (outstanding (refused_task task reason x)) = outstanding x.
Proof.
  intros Ha Hin. destruct (accounted_nodup _ _ Ha) as (_ & Hnr & _). destruct Ha as [? ? ? ? Hc Hf Htask ? Hfo].
  pose proof (take_out_perm fst (refusals x) _ Hnr Hin) as Hp. cbn [fst] in Hp.
  pose proof (Permutation_length Hp) as Hlen. cbn [length] in Hlen.
  assert (Hout : forall o, (forall r, o <> TaskRefused r) -> count_outcome o (refused_task task reason x) = count_outcome o x).
  { intros o Ho. transitivity (count_outcome o (set_outcomes (outcomes x ++ [(task, TaskRefused reason)]) x)); [done|].
    rewrite count_outcome_app, decide_False by (intros E; by apply (Ho reason)). lia. }
  split; [|unfold outstanding, refused_task; cbn [set_outcomes set_refusals running finishing refusals]; lia].
  split; [done..|by rewrite Hout|by rewrite Hout| |done|].
  - unfold refused_task. cbn [set_outcomes set_refusals submitted running refusals outcomes].
    rewrite Htask, Hp at 1. f_equiv. f_equiv. rewrite fmap_app, (Permutation_app_comm (outcomes x).*1).
    cbn. by rewrite <-!Permutation_middle.
  - unfold refused_task. cbn [set_outcomes set_refusals finishing outcomes]. rewrite fmap_app. intros t Ht%Hfo. by apply elem_of_app; left.
Qed.

Lemma ticket_rejected_runs x ws task reason :
  quiescent x ws -> (task, reason) ∈ refusals x ->
  runs (ticket_rejected now task) x (fun _ x' => exists ws', quiescent x' ws' /\
    q_isClosed (queue x') = q_isClosed (queue x) /\ (ws = [] -> S (outstanding x') = outstanding x)).
Proof.
  intros [Ha Hpu Hb _ _] Hin. unfold ticket_rejected. apply runs_bind, runs_get. unfold id.
  destruct (list_find _ _) as [[i [task' reason']]|] eqn:E.
  2:{ apply list_find_None in E. rewrite Forall_forall in E. by destruct (E _ Hin). }
  apply list_find_Some in E as (Hi & Heq & _). cbn in Heq. subst task'. apply list_elem_of_lookup_2 in Hi.
  destruct (refused_task_accounted _ _ _ _ Ha Hi) as [Ha' Ho].
  apply runs_bind, runs_modify, runs_bind. apply runs_modify.
  eapply runs_mono; [by apply (schedule_then_drain (refused_task task reason' x) ws)|]. intros _ x' (ws' & Hq & Hp).
  exists ws'. split_and!; [done|apply (lo_closed _ _ _ _ Hp)|]. intros ->.
  rewrite <-Ho. f_equal. by eapply lowered_outstanding.
Qed.

(** ** The remaining calls *)

Lemma executor_close_runs x ws :
  quiescent x ws -> runs (Executor.close now) x (fun _ x' => exists ws', quiescent x' ws' /\ q_isClosed (queue x') = true).
Proof.
  intros [Ha Hpu Hb Hd Ht]. unfold Executor.close. apply runs_bind, runs_modify.
  destruct (close_drops _ _ (ac_queue _ _ Ha)) as (Hr & Hp & Hc).
  set (x1 := absorb (Admission.close (queue x)) (set_expiryTimer None x)).
  assert (Ha1 : accounted x1 []).
  { destruct Ha as [_ ? ? ? ? ? Htask ? ?]. split; try done. cbn. rewrite Htask, Hp, fmap_app.
    by rewrite (Permutation_app_comm _ (_ ++ _)), <-!app_assoc, (Permutation_app_comm (outcomes x).*1). }
  apply runs_bind. exists tt, x1. split; [done|].
  eapply runs_mono; [by apply resolveDrainIfIdle_runs|]. intros _ x2 (ws2 & Hl & Hd2).
  pose proof (lowered_none _ _ _ Hl) as [-> _]. exists []. split.
  - split; [apply Hl|by rewrite (lo_pumping _ _ _ _ Hl)|by intros _|done|by intros []].
  - rewrite (lo_closed _ _ _ _ Hl). exact Hc.
Qed.

Lemma executor_drain_runs n x ws :
  quiescent x ws -> runs (Executor.drain now n) x (fun _ x' => exists ws', quiescent x' ws' /\ q_isClosed (queue x') = q_isClosed (queue x)).
Proof.
  intros Hq. pose proof Hq as [Ha Hpu Hb Hd Ht]. unfold Executor.drain. apply runs_bind, runs_get. unfold id.
  assert (Hwait : forall x' ws', quiescent x' ws' -> undrained x' ws' -> quiescent (set_drainWaiters (drainWaiters x' ++ [n]) x') ws').
  { intros x' ws' [Ha' ? ? ? ?] Hu. split; try done; [by destruct Ha'|by intros _]. }
  case_decide as Hz.
  - apply runs_bind. eapply runs_mono; [by apply queue_snapshot_runs|]. intros s x1 (ws1 & Hl & Hn & _).
    pose proof (lowered_quiescent _ _ _ _ Hq Hl) as Hq1. case_decide as Hi; apply runs_modify; exists ws1.
    + split; [|apply (lo_closed _ _ _ _ Hl)]. destruct Hq1 as [Ha1 ? ? ? ?]. split; try done. by destruct Ha1.
    + split; [|apply (lo_closed _ _ _ _ Hl)]. apply Hwait; [done|]. right. left. intros ->. apply Hi, Hn.
  - apply runs_modify. exists ws. split; [|done]. apply Hwait; [done|by left].
Qed.

Lemma expiry_timer_runs x ws :
  quiescent x ws -> runs (expiry_timer now) x (fun _ x' => exists ws', quiescent x' ws' /\ q_isClosed (queue x') = q_isClosed (queue x)).
Proof.
  intros Hq. pose proof Hq as [Ha Hpu Hb Hd Ht]. unfold expiry_timer. apply runs_bind, runs_get. unfold id.
  destruct (expiryTimer x); [|apply runs_ret; by exists ws].
  apply runs_bind, runs_modify, runs_bind.
  assert (Ha1 : accounted (set_expiryTimer None x) ws) by by destruct Ha.
  eapply runs_mono; [by apply read_clock_runs|]. intros t x1 ([z' ->] & Hl1 & _).
  pose proof (lo_accounted _ _ _ _ Hl1) as Ha2.
  destruct (expire_drops _ _ z' (ac_queue _ _ Ha2)) as (k & q' & ws' & He & Hdr & _).
  apply runs_bind. eapply runs_mono; [apply (with_queue_runs _ _ _ _ He)|]. intros ? ? [-> ->].
  pose proof (lowered_drops _ _ _ _ Ha2 Hdr) as Hl2. pose proof (lowered_trans _ _ _ _ _ _ Hl1 Hl2) as Hl3.
  eapply runs_mono; [apply (schedule_then_drain _ ws'); [apply Hl2|by rewrite (lo_pumping _ _ _ _ Hl3)|by apply (lowered_busy _ _ _ _ Ha1 Hl3)]|].
  intros _ x3 (ws3 & Hq3 & Hl4). exists ws3. split; [done|].
  rewrite (lo_closed _ _ _ _ Hl4). apply (lo_closed _ _ _ _ Hl3).
Qed.

Lemma signal_aborts_runs s x ws :
  quiescent x ws -> runs (signal_aborts s) x (fun _ x' => exists ws', quiescent x' ws' /\ q_isClosed (queue x') = q_isClosed (queue x)).
Proof.
  intros Hq. pose proof Hq as [Ha _ _ _ _]. destruct (abort_drops _ _ s (ac_queue _ _ Ha)) as (ws' & Hd).
  exists tt, (absorb (onAbort (queue x) s) x). split; [done|]. exists ws'. split.
  - eapply lowered_quiescent; [done|]. by apply lowered_drops.
  - apply (dr_closed _ _ _ _ Hd).
Qed.

(** ** Every event *)

Lemma runs_after {A} (m : Effects.eff Executor A) x (P : Executor -> Prop) : runs m x (fun _ => P) -> P (m x).2.
Proof. by intros (a & x' & -> & HP). Qed.

Lemma handle_quiescent e x ws : quiescent x ws -> exists ws', quiescent (executor_handle now e x).2 ws'.
Proof.
  intros Hq. destruct e; cbn [executor_handle].
  - rewrite run_bind. destruct (submit_quiescent options _ _ Hq) as (ws' & Hq').
    destruct (submit now options x) as [[a|err] x']; by exists ws'.
  - apply runs_after. eapply runs_mono; [by apply (executor_close_runs x ws)|]. intros _ x' (ws' & ? & _). by exists ws'.
  - apply runs_after. eapply runs_mono; [by apply (executor_drain_runs n x ws)|]. intros _ x' (ws' & ? & _). by exists ws'.
  - apply runs_after. eapply runs_mono; [apply (executor_snapshot_runs x ws), (qu_accounted _ _ Hq)|].
    intros _ x' (ws' & Hl & _). exists ws'. by eapply lowered_quiescent.
  - destruct (decide (task ∈ running x)) as [Hin|Hin].
    + rewrite work_settles_eq by done. exists ws. by apply settled_work_quiescent.
    + exists ws. unfold work_settles. rewrite run_get. unfold id. by rewrite decide_False.
  - destruct (decide (task ∈ finishing x)) as [Hin|Hin].
    + apply runs_after. eapply runs_mono; [by apply (task_finally_runs x ws)|]. intros _ x' (ws' & ? & _). by exists ws'.
    + exists ws. unfold task_finally. rewrite run_get. unfold id. by rewrite decide_False.
  - destruct (list_find (fun r => r.1 = task) (refusals x)) as [[i [task' reason]]|] eqn:E.
    + apply list_find_Some in E as (Hi & Heq & _). cbn in Heq. subst task'. apply list_elem_of_lookup_2 in Hi.
      apply runs_after. eapply runs_mono; [by eapply (ticket_rejected_runs x ws)|]. intros _ x' (ws' & ? & _). by exists ws'.
    + exists ws. unfold ticket_rejected. rewrite run_get. unfold id. by rewrite E.
  - apply runs_after. eapply runs_mono; [by apply (expiry_timer_runs x ws)|]. intros _ x' (ws' & ? & _). by exists ws'.
  - apply runs_after. eapply runs_mono; [by apply (signal_aborts_runs s x ws)|]. intros _ x' (ws' & ? & _). by exists ws'.
Qed.

Lemma run_quiescent es x ws : quiescent x ws -> exists ws', quiescent (executor_run now x es) ws'.
Proof.
  revert x ws. induction es as [|e es IH]; intros x ws Hq; [by exists ws|].
  destruct (handle_quiescent e _ _ Hq) as (ws1 & Hq1). apply (IH _ _ Hq1).
Qed.

(** ** Continuations of a closed executor *)

Definition continues (x : Executor) (e : ExecutorEvent) : Prop :=
  match e with
  | XSettles task _ => task ∈ running x
  | XFinally task => task ∈ finishing x
  | XRejected task => task ∈ (refusals x).*1
  | _ => False
  end.

Inductive continuations : Executor -> list ExecutorEvent -> Prop :=
  | continued_nil x : continuations x []
  | continued_cons x e es : continues x e -> continuations (executor_handle now e x).2 es -> continuations x (e :: es).

Lemma continues_closed x e :
  quiescent x [] -> q_isClosed (queue x) = true -> continues x e ->
  let x' := (executor_handle now e x).2 in
  quiescent x' [] /\ q_isClosed (queue x') = true /\ S (outstanding x') = outstanding x.
Proof.
  intros Hq Hc He. destruct e; try done; cbn [executor_handle continues] in *.
  - rewrite work_settles_eq by done. destruct (settled_work_quiescent x [] task ok Hq He) as [? ?].
    split_and!; [done| |done]. by destruct ok.
  - apply runs_after. eapply runs_mono; [by apply (task_finally_runs x [])|]. intros _ x' (ws' & Hq' & Hc' & Ho).
    rewrite <-Hc', Hc' in Hc. rewrite <-Hc' in Hc.
    pose proof (qrep_closed _ _ (ac_queue _ _ (qu_accounted _ _ Hq')) Hc) as ->. auto.
  - apply list_elem_of_fmap in He as ([task' reason] & -> & Hin). cbn.
    apply runs_after. eapply runs_mono; [by eapply (ticket_rejected_runs x [])|]. intros _ x' (ws' & Hq' & Hc' & Ho).
    rewrite <-Hc' in Hc. pose proof (qrep_closed _ _ (ac_queue _ _ (qu_accounted _ _ Hq')) Hc) as ->. auto.
Qed.

Lemma continuations_closed x es :
  quiescent x [] -> q_isClosed (queue x) = true -> continuations x es ->
  let x' := executor_run now x es in
  quiescent x' [] /\ (length es + outstanding x')%nat = outstanding x.
Proof.
  intros Hq Hc Hes. induction Hes as [|x e es He _ IH]; [done|].
  destruct (continues_closed x e Hq Hc He) as (Hq' & Hc' & Ho). destruct (IH Hq' Hc') as [Hq2 Ho2].
  split; [exact Hq2|]. cbn [length]. cbn [executor_run foldl] in *. unfold executor_run in Ho2. lia.
Qed.
End methods.

Lemma new_quiescent n d limits resource retry x :
  new_BoundedExecutor n d limits resource retry = Ret x -> quiescent x [].
Proof.
  unfold new_BoundedExecutor. intros H. exc_inv. subst x.
  match goal with H : positiveSafeInteger _ _ = Ret _ |- _ => apply positiveSafeInteger_ret in H end.
  match goal with H : new_AdmissionQueue _ _ _ _ = Ret _ |- _ => apply new_refines in H as [_ Hw _ _] end.
  split; [split|done|done|by intros []|by intros []]; try done; cbn; try lia; [|constructor].
  eexists. by split; [exact Hw|].
Qed.

(** ** Properties *)

(** C22: under any calls and continuations, every submitted task is in exactly one
    place: it waits in the queue, it runs, its refusal is about to be reported,
    or its promise has settled once. No more tasks than [concurrency] are active,
    the counters count what they name, nothing waits while a place is free, the
    expiry timer is set while something waits, and a caller of [drain] waits only
    while there is something to wait for. *)
Theorem executor_accounts n d limits resource retry (clock : nat -> Z) (es : list ExecutorEvent) x0 :
  new_BoundedExecutor n d limits resource retry = Ret x0 ->
  let x := executor_run (fun i => Finite (clock i)) x0 es in
  exists tasks, qrep (queue x) tasks /\ Z.of_nat (length tasks) = q_queuedItems (queue x) /\
    seq 0 (submitted x) ≡ₚ tasks ++ running x ++ (refusals x).*1 ++ (outcomes x).*1 /\
    active x = Z.of_nat (length (running x) + length (finishing x)) /\ active x <= concurrency x /\
    admitted x = completed x + failed x + Z.of_nat (length (running x)) /\
    completed x = count_outcome TaskCompleted x /\ failed x = count_outcome TaskFailed x /\
    (active x < concurrency x -> tasks = []) /\
    (tasks <> [] -> is_Some (expiryTimer x)) /\
    (drainWaiters x <> [] -> active x <> 0 \/ tasks <> [] \/ refusals x <> []).
Proof.
  intros Hnew x. destruct (run_quiescent clock es x0 [] (new_quiescent _ _ _ _ _ _ Hnew)) as (tasks & [[] _ Hb Hd Ht]).
  exists tasks. split_and!; try done. symmetry. by apply qrep_items.
Qed.

(** C26: a closed executor drains. Whatever the order in which the outstanding
    continuations run - works settle, chains end, refusals are reported - each
    takes one away, one can run while any is left, and when none is, no task is
    active or waits, every submitted task has its outcome and every [drain] has
    resolved. *)
Theorem executor_drains n d limits resource retry (clock : nat -> Z) (es es' : list ExecutorEvent) x0 :
  new_BoundedExecutor n d limits resource retry = Ret x0 ->
  let now := fun i => Finite (clock i) in
  let x := executor_run now x0 es in
  let x' := executor_run now x es' in
  q_isClosed (queue x) = true -> continuations clock x es' ->
  (length es' + outstanding x' = outstanding x)%nat /\
  (outstanding x' <> O -> exists e, continues x' e) /\
  (outstanding x' = O ->
    active x' = 0 /\ q_queuedItems (queue x') = 0 /\ drainWaiters x' = [] /\
    seq 0 (submitted x') ≡ₚ (outcomes x').*1).
Proof.
  intros Hnew now x x' Hc Hes. destruct (run_quiescent clock es x0 [] (new_quiescent _ _ _ _ _ _ Hnew)) as (ws & Hq).
  pose proof (qrep_closed _ _ (ac_queue _ _ (qu_accounted _ _ Hq)) Hc) as ->.
  assert (Hd : quiescent x' [] /\ (length es' + outstanding x')%nat = outstanding x) by exact (continuations_closed clock x es' Hq Hc Hes).
  destruct Hd as [[Ha _ _ Hd _] Ho]. clearbody x'. split_and!; [exact Ho|..].
  - unfold outstanding.
    destruct (running x') as [|task r] eqn:Er; [|intros _; exists (XSettles task true); cbn; rewrite Er; left].
    destruct (finishing x') as [|task r] eqn:Ef; [|intros _; exists (XFinally task); cbn; rewrite Ef; left].
    destruct (refusals x') as [|[task reason] r] eqn:Ee; [done|intros _; exists (XRejected task); cbn; rewrite Ee; left].
  - intros Hz. destruct Ha as [Hr Hact _ _ _ _ Ht _ _]. unfold outstanding in Hz.
    assert (running x' = [] /\ finishing x' = [] /\ refusals x' = []) as (Er & Ef & Ee)
      by (split_and!; apply length_zero_iff_nil; lia).
    rewrite Er, Ef in Hact. rewrite Er, Ee in Ht. split_and!; [done|apply (qrep_items _ _ Hr)| |done].
    destruct (drainWaiters x') eqn:Ew; [done|exfalso]. destruct Hd as [?|[?|?]]; rewrite ?Ew; done.
Qed.

(** ** Witnesses *)

Definition executor_sample : Executor := MkExecutor 1 (sample_queue fifo) 0 0 0 0 false None [] 0 [] [] [] [] [] 0.

Lemma executor_sample_new : new_BoundedExecutor (num_of_Z 1) fifo sample_limits reader None = Ret executor_sample.
Proof. vm_compute. reflexivity. Qed.

(** Three tasks are submitted to one place; the executor is closed and drained. *)
Definition executor_events : list ExecutorEvent :=
  [XSubmit (sample_request "a" 1); XSubmit (sample_request "a" 2); XSettles 0 true; XFinally 0;
   XSubmit (sample_request "b" 3); XDrain 7; XClose].

Definition executor_after (es : list ExecutorEvent) : Executor := executor_run (fun i => Finite (Z.of_nat i)) executor_sample es.

Lemma executor_accounts_witness :
  exists tasks, qrep (queue (executor_after executor_events)) tasks /\
    seq 0 3 ≡ₚ tasks ++ [1%nat] ++ [2%nat] ++ [0%nat].
Proof.
  destruct (executor_accounts (num_of_Z 1) fifo sample_limits reader None Z.of_nat executor_events executor_sample executor_sample_new)
    as (tasks & Hr & _ & Ht & _).
  exists tasks. split; [exact Hr|]. exact Ht.
Defined.

Lemma executor_drains_witness :
  let x' := executor_run (fun i => Finite (Z.of_nat i)) (executor_after executor_events) [XRejected 2; XSettles 1 false; XFinally 1] in
  active x' = 0 /\ q_queuedItems (queue x') = 0 /\ drainWaiters x' = [] /\ seq 0 (submitted x') ≡ₚ (outcomes x').*1.
Proof.
  refine (proj2 (proj2 (executor_drains (num_of_Z 1) fifo sample_limits reader None Z.of_nat executor_events
    [XRejected 2; XSettles 1 false; XFinally 1] executor_sample executor_sample_new _ _)) _).
  - vm_compute. reflexivity.
  - constructor; [vm_compute; left|]. constructor; [vm_compute; left|]. constructor; [vm_compute; left|]. constructor.
  - vm_compute. reflexivity.
Defined.
