(* ===== verification/Jobs.v ===== *)
(** Durable jobs: the two tables and the transactions of the runner.

    Models [server/src/jobs/definition.ts] and [jobs/table.ts] (the rows),
    [runtime/jobs/store.ts] (the queries), [runtime/jobs/runtime.ts] (every
    transaction on the tables) and the guarded patch of [database/access.ts].

    A transaction is a computation on the tables that may throw; one that throws,
    or whose commit fails, leaves the tables as they were ([jobsWrite]). The rows
    of a table are a map from its primary keys; the rows a query's order does not
    tell apart come in some order of SQLite's own. Instants are whole milliseconds. *)
From S2P Require Import Prelude Errors Limits Effects.
From stdpp Require Import sorting.
Local Open Scope Z_scope.

Inductive JobState : Type := JPending | JRunning | JRetrying | JCompleted | JFailed | JCanceled.
Inductive JobTrigger : Type := ByEnqueue | ByRepeat | ByRunAgain.
Inductive JobRunState : Type := RRunning | RCompleted | RFailed | RCanceled.
Inductive JobRunTrigger : Type := Initial | AutomaticRetry | ManualRetry | Force.
Inductive JobKind : Type := ProcedureJob | MutationJob.
Inductive JobWindow : Type := Forever | Window (milliseconds : Z).

#[export] Instance JobState_eq_dec : EqDecision JobState.
Proof. solve_decision. Defined.
#[export] Instance JobTrigger_eq_dec : EqDecision JobTrigger.
Proof. solve_decision. Defined.
#[export] Instance JobRunState_eq_dec : EqDecision JobRunState.
Proof. solve_decision. Defined.
#[export] Instance JobRunTrigger_eq_dec : EqDecision JobRunTrigger.
Proof. solve_decision. Defined.
#[export] Instance JobKind_eq_dec : EqDecision JobKind.
Proof. solve_decision. Defined.
#[export] Instance JobWindow_eq_dec : EqDecision JobWindow.
Proof. solve_decision. Defined.

(** The token of a lease spells an instant and a count. *)
Definition LeaseToken : Type := Z * nat.

(** A row of [_ackerdb_jobs]. *)
Record JobRow : Type := MkJob {
  j_id : Z;
  j_name : string;
  argsJson : string;
  argsHash : string;
  j_key : option string;
  j_state : JobState;
  j_trigger : JobTrigger;
  parentJobId : option Z;
  j_scheduledAt : Z;
  nextRunAt : Z;
  runCount : Z;
  nextRunTrigger : option JobRunTrigger;
  stepsJson : option string;
  enqueuedAt : Z;
  j_settledAt : option Z;
  j_deleteAfter : option Z;
}.

#[export] Instance JobRow_eq_dec : EqDecision JobRow.
Proof. solve_decision. Defined.

(** A row of [_ackerdb_job_runs]. *)
Record JobRunRow : Type := MkRun {
  r_id : Z;
  jobId : Z;
  number : Z;
  r_trigger : JobRunTrigger;
  r_scheduledAt : Z;
  startedAt : Z;
  r_settledAt : option Z;
  r_state : JobRunState;
  outputJson : option string;
  errorCode : option OutcomeCode;
  errorText : option string;
  leaseToken : option LeaseToken;
  leaseUntil : option Z;
  r_deleteAfter : option Z;
}.

(** The error a run ended with. *)
Inductive RunError : Type :=
  | Fails (e : js_error)
  | StepRefusal (step detail : string).

Definition outcomeFromError (error : RunError) : OutcomeCode :=
  match error with
  | StepRefusal _ _ => conflict
  | Fails (Acker e) => err_code e
  | Fails (ProtocolError code _) => code
  | Fails (ValidationError _) => validation
  | Fails _ => internal
  end.

Definition isTerminal (s : JobState) : bool := match s with JCompleted | JFailed | JCanceled => true | _ => false end.
Definition isLive (s : JobState) : bool := match s with JPending | JRunning | JRetrying => true | _ => false end.

(** Assignments to columns. *)
Definition set_argsJson (x : string) (j : JobRow) : JobRow :=
    MkJob (j_id j) (j_name j) x (argsHash j) (j_key j) (j_state j) (j_trigger j) (parentJobId j)
    (j_scheduledAt j) (nextRunAt j) (runCount j) (nextRunTrigger j) (stepsJson j) (enqueuedAt j) (j_settledAt
    j) (j_deleteAfter j).
Definition set_argsHash (x : string) (j : JobRow) : JobRow :=
    MkJob (j_id j) (j_name j) (argsJson j) x (j_key j) (j_state j) (j_trigger j) (parentJobId j)
    (j_scheduledAt j) (nextRunAt j) (runCount j) (nextRunTrigger j) (stepsJson j) (enqueuedAt j) (j_settledAt
    j) (j_deleteAfter j).
Definition set_j_key (x : option string) (j : JobRow) : JobRow :=
    MkJob (j_id j) (j_name j) (argsJson j) (argsHash j) x (j_state j) (j_trigger j) (parentJobId j)
    (j_scheduledAt j) (nextRunAt j) (runCount j) (nextRunTrigger j) (stepsJson j) (enqueuedAt j) (j_settledAt
    j) (j_deleteAfter j).
Definition set_j_state (x : JobState) (j : JobRow) : JobRow :=
    MkJob (j_id j) (j_name j) (argsJson j) (argsHash j) (j_key j) x (j_trigger j) (parentJobId j)
    (j_scheduledAt j) (nextRunAt j) (runCount j) (nextRunTrigger j) (stepsJson j) (enqueuedAt j) (j_settledAt
    j) (j_deleteAfter j).
Definition set_nextRunAt (x : Z) (j : JobRow) : JobRow :=
    MkJob (j_id j) (j_name j) (argsJson j) (argsHash j) (j_key j) (j_state j) (j_trigger j) (parentJobId j)
    (j_scheduledAt j) x (runCount j) (nextRunTrigger j) (stepsJson j) (enqueuedAt j) (j_settledAt j)
    (j_deleteAfter j).
Definition set_runCount (x : Z) (j : JobRow) : JobRow :=
    MkJob (j_id j) (j_name j) (argsJson j) (argsHash j) (j_key j) (j_state j) (j_trigger j) (parentJobId j)
    (j_scheduledAt j) (nextRunAt j) x (nextRunTrigger j) (stepsJson j) (enqueuedAt j) (j_settledAt j)
    (j_deleteAfter j).
Definition set_nextRunTrigger (x : option JobRunTrigger) (j : JobRow) : JobRow :=
    MkJob (j_id j) (j_name j) (argsJson j) (argsHash j) (j_key j) (j_state j) (j_trigger j) (parentJobId j)
    (j_scheduledAt j) (nextRunAt j) (runCount j) x (stepsJson j) (enqueuedAt j) (j_settledAt j) (j_deleteAfter
    j).
Definition set_stepsJson (x : option string) (j : JobRow) : JobRow :=
    MkJob (j_id j) (j_name j) (argsJson j) (argsHash j) (j_key j) (j_state j) (j_trigger j) (parentJobId j)
    (j_scheduledAt j) (nextRunAt j) (runCount j) (nextRunTrigger j) x (enqueuedAt j) (j_settledAt j)
    (j_deleteAfter j).
Definition set_j_settledAt (x : option Z) (j : JobRow) : JobRow :=
    MkJob (j_id j) (j_name j) (argsJson j) (argsHash j) (j_key j) (j_state j) (j_trigger j) (parentJobId j)
    (j_scheduledAt j) (nextRunAt j) (runCount j) (nextRunTrigger j) (stepsJson j) (enqueuedAt j) x
    (j_deleteAfter j).
Definition set_j_deleteAfter (x : option Z) (j : JobRow) : JobRow :=
    MkJob (j_id j) (j_name j) (argsJson j) (argsHash j) (j_key j) (j_state j) (j_trigger j) (parentJobId j)
    (j_scheduledAt j) (nextRunAt j) (runCount j) (nextRunTrigger j) (stepsJson j) (enqueuedAt j) (j_settledAt
    j) x.
Definition set_r_settledAt (x : option Z) (r : JobRunRow) : JobRunRow :=
    MkRun (r_id r) (jobId r) (number r) (r_trigger r) (r_scheduledAt r) (startedAt r) x (r_state r)
    (outputJson r) (errorCode r) (errorText r) (leaseToken r) (leaseUntil r) (r_deleteAfter r).
Definition set_r_state (x : JobRunState) (r : JobRunRow) : JobRunRow :=
    MkRun (r_id r) (jobId r) (number r) (r_trigger r) (r_scheduledAt r) (startedAt r) (r_settledAt r) x
    (outputJson r) (errorCode r) (errorText r) (leaseToken r) (leaseUntil r) (r_deleteAfter r).
Definition set_outputJson (x : option string) (r : JobRunRow) : JobRunRow :=
    MkRun (r_id r) (jobId r) (number r) (r_trigger r) (r_scheduledAt r) (startedAt r) (r_settledAt r) (r_state
    r) x (errorCode r) (errorText r) (leaseToken r) (leaseUntil r) (r_deleteAfter r).
Definition set_errorCode (x : option OutcomeCode) (r : JobRunRow) : JobRunRow :=
    MkRun (r_id r) (jobId r) (number r) (r_trigger r) (r_scheduledAt r) (startedAt r) (r_settledAt r) (r_state
    r) (outputJson r) x (errorText r) (leaseToken r) (leaseUntil r) (r_deleteAfter r).
Definition set_errorText (x : option string) (r : JobRunRow) : JobRunRow :=
    MkRun (r_id r) (jobId r) (number r) (r_trigger r) (r_scheduledAt r) (startedAt r) (r_settledAt r) (r_state
    r) (outputJson r) (errorCode r) x (leaseToken r) (leaseUntil r) (r_deleteAfter r).
Definition set_leaseToken (x : option LeaseToken) (r : JobRunRow) : JobRunRow :=
    MkRun (r_id r) (jobId r) (number r) (r_trigger r) (r_scheduledAt r) (startedAt r) (r_settledAt r) (r_state
    r) (outputJson r) (errorCode r) (errorText r) x (leaseUntil r) (r_deleteAfter r).
Definition set_leaseUntil (x : option Z) (r : JobRunRow) : JobRunRow :=
    MkRun (r_id r) (jobId r) (number r) (r_trigger r) (r_scheduledAt r) (startedAt r) (r_settledAt r) (r_state
    r) (outputJson r) (errorCode r) (errorText r) (leaseToken r) x (r_deleteAfter r).
Definition set_r_deleteAfter (x : option Z) (r : JobRunRow) : JobRunRow :=
    MkRun (r_id r) (jobId r) (number r) (r_trigger r) (r_scheduledAt r) (startedAt r) (r_settledAt r) (r_state
    r) (outputJson r) (errorCode r) (errorText r) (leaseToken r) (leaseUntil r) x.

(** ** Definitions of jobs *)

Record JobDefinition (Args : Type) : Type := MkDefinition {
  kind : JobKind;
  d_validate : Args -> exc js_error Args;
  concurrency : Z;
  d_key : option (Args -> exc js_error string);
  retry : Z -> RunError -> exc js_error (option ms);
  repeat : option (Z -> Z -> exc js_error (option ms));
  dedupe : option (JobWindow * JobWindow);
  retention : JobWindow;
}.
Arguments MkDefinition {Args}. Arguments kind {Args}. Arguments d_validate {Args}. Arguments concurrency {Args}.
Arguments d_key {Args}. Arguments retry {Args}. Arguments repeat {Args}. Arguments dedupe {Args}. Arguments retention {Args}.

(** What the runner is given: the declared jobs; the arguments as validators and
    the wire's canonical encoding make them; the hash of identities and the text
    of errors, which are the platform's; the clock and the limits; and the order
    in which SQLite gives the rows of a query without one. *)
Class JobsRuntime : Type := {
  Args : Type;
  definitions : gmap string (JobDefinition Args);
  stableEncode : Args -> exc js_error string;
  decode : string -> exc js_error Args;
  hashJobArgs : string -> string;
  error_text : RunError -> string;
  clock : nat -> Z;
  leaseMs : Z;
  claimBatchSize : Z;
  some_order : list JobRow -> list JobRow;
  some_run_order : list JobRunRow -> list JobRunRow;
  claimBatchSize_pos : 0 < claimBatchSize;
  some_order_perm : forall l, some_order l ≡ₚ l;
  some_run_order_perm : forall l, some_run_order l ≡ₚ l;
}.

Section jobs.
Context {rt : JobsRuntime}.

Definition DEFAULT_JOB_RETENTION_MS : Z := 7 * 24 * 60 * 60 * 1000.
Definition MAX_STORED_ERROR_LENGTH : Z := 512.
Definition REAP_INTERVAL_MS : Z := 60000.
Definition CASCADE_BATCH : nat := 512.

(** [normalizeRetry] of a configuration with whole delays. *)
Inductive Backoff : Type := Exponential | Fixed.

Definition retry_policy (attempts : Z) (backoff : Backoff) (delayMs : Z) (runNumber : Z) : option Z :=
  if decide (attempts <= runNumber) then None
  else Some match backoff with Fixed => delayMs | Exponential => delayMs * 2 ^ (runNumber - 1) end.

(** [normalizeRepeat] of [{ everyMs }]. *)
Definition repeat_every (everyMs lastScheduledAt now : Z) : Z :=
  let base := Z.max lastScheduledAt now in
  base + everyMs - Z.rem (base - lastScheduledAt) everyMs.

(** ** The tables *)

(** [effects] records what the handlers of mutation-kind jobs wrote: the runs
    whose writes are there. [readings] counts the readings of the clock. *)
Record Store : Type := MkStore {
  jobs : gmap Z JobRow;
  runs : gmap Z JobRunRow;
  nextJobId : Z;
  nextRunId : Z;
  effects : list (Z * Z);
  leaseCounter : nat;
  readings : nat;
}.

Definition empty_store : Store := MkStore ∅ ∅ 1 1 [] 0 0.

Definition set_jobs (x : gmap Z JobRow) (s : Store) : Store :=
  MkStore x (runs s) (nextJobId s) (nextRunId s) (effects s) (leaseCounter s) (readings s).
Definition set_runs (x : gmap Z JobRunRow) (s : Store) : Store :=
  MkStore (jobs s) x (nextJobId s) (nextRunId s) (effects s) (leaseCounter s) (readings s).
Definition set_effects (x : list (Z * Z)) (s : Store) : Store :=
  MkStore (jobs s) (runs s) (nextJobId s) (nextRunId s) x (leaseCounter s) (readings s).

(** The tables of [s0], with what a rollback does not undo. *)
Definition rollback (s0 s : Store) : Store :=
  MkStore (jobs s0) (runs s0) (nextJobId s0) (nextRunId s0) (effects s0) (leaseCounter s) (readings s).

Abbreviation tx := (Effects.eff Store).

Definition now : tx Z := fun s =>
  (Ret (clock (readings s)), MkStore (jobs s) (runs s) (nextJobId s) (nextRunId s) (effects s) (leaseCounter s) (S (readings s))).

Definition lease_counter : tx nat := fun s =>
  (Ret (S (leaseCounter s)), MkStore (jobs s) (runs s) (nextJobId s) (nextRunId s) (effects s) (S (leaseCounter s)) (readings s)).

(** [jobsWrite]: a transaction of the writer, whose commit may fail. *)
Definition jobsWrite {A} (commits : bool) (m : tx A) : tx A := fun s =>
  match m s with
  | (Ret a, s') => if commits then (Ret a, s') else (Throw (PlainError "commit failed"), rollback s s')
  | (Throw e, s') => (Throw e, rollback s s')
  end.

(** ** Writers *)

Definition insert_job (row : Z -> JobRow) : tx Z := fun s =>
  let id := nextJobId s in
  (Ret id, MkStore (<[id := row id]> (jobs s)) (runs s) (id + 1) (nextRunId s) (effects s) (leaseCounter s) (readings s)).

(** The pair of a run's job and number is unique. *)
Definition insert_run (row : Z -> JobRunRow) : tx JobRunRow := fun s =>
  let id := nextRunId s in
  if decide (map_Exists (fun _ r => jobId r = jobId (row id) /\ number r = number (row id)) (runs s))
  then (Throw (PlainError "unique constraint failed"), s)
  else (Ret (row id), MkStore (jobs s) (<[id := row id]> (runs s)) (nextJobId s) (id + 1) (effects s) (leaseCounter s) (readings s)).

Definition patch_job (id : Z) (f : JobRow -> JobRow) : tx unit :=
  s ← get jobs;
  match s !! id with
  | None => throw (PlainError "row not found")
  | Some j => modify (fun s => set_jobs (<[id := f j]> (jobs s)) s)
  end.

Definition patch_run (id : Z) (f : JobRunRow -> JobRunRow) : tx unit :=
  s ← get runs;
  match s !! id with
  | None => throw (PlainError "row not found")
  | Some r => modify (fun s => set_runs (<[id := f r]> (runs s)) s)
  end.

Definition delete_job (id : Z) : tx unit := modify (fun s => set_jobs (delete id (jobs s)) s).
Definition delete_run (id : Z) : tx unit := modify (fun s => set_runs (delete id (runs s)) s).

(** ** Queries *)

Definition job_rows (s : Store) : list JobRow := (map_to_list (jobs s)).*2.
Definition run_rows (s : Store) : list JobRunRow := (map_to_list (runs s)).*2.

Definition select_jobs (where_ : JobRow -> bool) (limit : nat) (s : Store) : list JobRow :=
  take limit (some_order (filter where_ (job_rows s))).

Definition select_jobs_by (le : relation JobRow) `{!RelDecision le} (where_ : JobRow -> bool) (limit : nat) (s : Store) : list JobRow :=
  take limit (merge_sort le (some_order (filter where_ (job_rows s)))).

Definition select_runs (where_ : JobRunRow -> bool) (limit : nat) (s : Store) : list JobRunRow :=
  take limit (some_run_order (filter where_ (run_rows s))).

Definition select_runs_by (le : relation JobRunRow) `{!RelDecision le} (where_ : JobRunRow -> bool) (limit : nat) (s : Store) : list JobRunRow :=
  take limit (merge_sort le (some_run_order (filter where_ (run_rows s)))).

Definition liveFor (name hash : string) (s : Store) : option JobRow :=
  head (select_jobs (fun j => bool_decide (j_name j = name) && bool_decide (argsHash j = hash) && isLive (j_state j)) 1 s).

(** [ORDER BY settledAt DESC, id DESC]; SQLite puts [NULL] last then. *)
Definition newest_le (a b : JobRow) : Prop :=
  match j_settledAt a, j_settledAt b with
  | Some ta, Some tb => tb < ta \/ (ta = tb /\ j_id b <= j_id a)
  | Some _, None => True
  | None, Some _ => False
  | None, None => j_id b <= j_id a
  end.
#[export] Instance newest_le_dec : RelDecision newest_le.
Proof. intros a b. unfold newest_le. repeat case_match; apply _. Defined.

Definition newestSettledFor (name hash : string) (state : JobState) (s : Store) : option JobRow :=
  head (select_jobs_by newest_le
    (fun j => bool_decide (j_name j = name) && bool_decide (argsHash j = hash) && bool_decide (j_state j = state)) 1 s).

(** [(nextRunAt, id)] order. *)
Definition due_le (a b : JobRow) : Prop := nextRunAt a < nextRunAt b \/ (nextRunAt a = nextRunAt b /\ j_id a <= j_id b).
#[export] Instance due_le_dec : RelDecision due_le.
Proof. intros a b. unfold due_le. apply _. Defined.

Record JobCursor : Type := MkCursor { c_nextRunAt : Z; c_id : Z }.

Definition after_cursor (c : option JobCursor) (j : JobRow) : bool :=
  match c with
  | None => true
  | Some c => bool_decide (c_nextRunAt c < nextRunAt j) || (bool_decide (nextRunAt j = c_nextRunAt c) && bool_decide (c_id c < j_id j))
  end.

Definition due_window (now : Z) (limit : nat) (after : option JobCursor) (s : Store) (state : JobState) : list JobRow :=
  select_jobs_by due_le (fun j => bool_decide (j_state j = state) && bool_decide (nextRunAt j <= now) && after_cursor after j) limit s.

Definition DUE_JOB_STATES : list JobState := [JPending; JRetrying].

Definition due (now : Z) (limit : nat) (after : option JobCursor) (s : Store) : list JobRow :=
  take limit (merge_sort due_le (DUE_JOB_STATES ≫= due_window now limit after s)).

Definition running_jobs (s : Store) : list JobRow := select_jobs (fun j => bool_decide (j_state j = JRunning)) 4096 s.

(** [deleteAfter IS NOT NULL AND deleteAfter <= now] *)
Definition released (now : Z) (deleteAfter : option Z) : bool := match deleteAfter with Some t => bool_decide (t <= now) | None => false end.

Definition job_release_le (a b : JobRow) : Prop := default 0 (j_deleteAfter a) <= default 0 (j_deleteAfter b).
Definition run_release_le (a b : JobRunRow) : Prop := default 0 (r_deleteAfter a) <= default 0 (r_deleteAfter b).
Definition number_le (a b : JobRunRow) : Prop := number a <= number b.
#[export] Instance job_release_le_dec : RelDecision job_release_le.
Proof. intros a b. unfold job_release_le. apply _. Defined.
#[export] Instance run_release_le_dec : RelDecision run_release_le.
Proof. intros a b. unfold run_release_le. apply _. Defined.
#[export] Instance number_le_dec : RelDecision number_le.
Proof. intros a b. unfold number_le. apply _. Defined.

Definition expired_jobs (now : Z) (limit : nat) (s : Store) : list JobRow :=
  select_jobs_by job_release_le (fun j => released now (j_deleteAfter j)) limit s.

Definition byNumber (job number_ : Z) (s : Store) : option JobRunRow :=
  head (select_runs (fun r => bool_decide (jobId r = job) && bool_decide (number r = number_)) 1 s).

Definition ofJob (job : Z) (limit : nat) (s : Store) : list JobRunRow :=
  select_runs_by number_le (fun r => bool_decide (jobId r = job)) limit s.

Definition expiredLeases (now : Z) (limit : nat) (s : Store) : list JobRunRow :=
  select_runs (fun r => bool_decide (r_state r = RRunning) && match leaseUntil r with Some t => bool_decide (t <= now) | None => false end) limit s.

Definition expired_runs (now : Z) (limit : nat) (s : Store) : list JobRunRow :=
  select_runs_by run_release_le (fun r => released now (r_deleteAfter r)) limit s.

(** ** Retention *)

Definition window (value : JobWindow) (now : Z) : option Z := match value with Forever => None | Window ms => Some (now + ms) end.

(** [retentionStamp]: the longest of the windows. *)
Definition retentionStamp (definition : option (JobDefinition Args)) (state : JobState) (now : Z) : option Z :=
  match definition with
  | None => Some (now + DEFAULT_JOB_RETENTION_MS)
  | Some d =>
      let windows := retention d :: match dedupe d with
        | Some (completed, failed) => if decide (state = JCanceled) then [] else [if decide (state = JCompleted) then completed else failed]
        | None => []
        end in
      foldr (fun w stamp => match window w now, stamp with Some a, Some b => Some (Z.max a b) | _, _ => None end)
        (window (retention d) now) windows
  end.

Definition plain_retention (definition : option (JobDefinition Args)) : JobWindow :=
  match definition with Some d => retention d | None => Window DEFAULT_JOB_RETENTION_MS end.

(** [describeError], of the text the error has. *)
Definition describeError (error : RunError) : string :=
  let text := error_text error in
  if decide (MAX_STORED_ERROR_LENGTH < utf16_length text) then utf16_take (MAX_STORED_ERROR_LENGTH - 1) text +:+ "…" else text.

(** ** Admission *)

Definition insertJob (name json hash : string) (key : option string) (at_ now : Z) (trigger : JobTrigger) (parent : option Z) : tx Z :=
  insert_job (fun id => MkJob id name json hash key JPending trigger parent at_ at_ 0 None (Some "[]"%string) now None None).

(** The windows are tried in the code's order; the newest admissible job wins. *)
Definition dedupeJob (definition : JobDefinition Args) (name hash : string) (now : Z) (s : Store) : option JobRow :=
  match liveFor name hash s with
  | Some j => Some j
  | None =>
      match dedupe definition with
      | None => None
      | Some (completed, failed) =>
          foldl (fun best '(state, w) =>
            if decide (w = Window 0) then best
            else match newestSettledFor name hash state s with
            | None => best
            | Some j =>
                match j_settledAt j with
                | None => best
                | Some at_ =>
                    if match w with Forever => false | Window ms => bool_decide (at_ + ms <= now) end then best
                    else match best with
                    | None => Some j
                    | Some b => if bool_decide (default 0 (j_settledAt b) < at_) || (bool_decide (j_settledAt b = Some at_) && bool_decide (j_id b < j_id j))
                                then Some j else best
                    end
                end
            end) None [(JCompleted, completed); (JFailed, failed)]
      end
  end.

Definition definition_of (name : string) : exc js_error (JobDefinition Args) :=
  match definitions !! name with
  | Some d => Ret d
  | None => throw_AckerDBError not_found ("unknown job " +:+ name) no_options
  end.

Record JobEnqueueOptions : Type := MkEnqueueOptions { o_at : option ms; o_delayMs : option ms }.
Record JobHandle : Type := MkHandle { h_id : Z; h_deduped : bool }.

(** [options.at ?? (options.delayMs !== undefined ? now + options.delayMs : now)] *)
Definition enqueue_at (options : JobEnqueueOptions) (now : Z) : ms :=
  match o_at options with
  | Some at_ => at_
  | None => match o_delayMs options with
            | Some (Finite delay) => Finite (now + delay)
            | Some NonFinite => NonFinite
            | None => Finite now
            end
  end.

Definition enqueueWith (name : string) (args : Args) (options : JobEnqueueOptions) (trigger : JobTrigger) : tx JobHandle :=
  d ← lift (definition_of name);
  validated ← lift (d_validate d args);
  json ← lift (stableEncode validated);
  let hash := hashJobArgs json in
  t ← now;
  existing ← match dedupe d with None => mret None | Some _ => get (dedupeJob d name hash t) end;
  match existing with
  | Some j => mret (MkHandle (j_id j) true)
  | None =>
      match enqueue_at options t with
      | NonFinite => throw (ValidationError ("jobs." +:+ name +:+ ": enqueue at/delayMs must be finite milliseconds"))
      | Finite at_ =>
          key ← match d_key d with None => mret None | Some f => k ← lift (f validated); mret (Some k) end;
          id ← insertJob name json hash key at_ t trigger None;
          mret (MkHandle id false)
      end
  end.

(** ** Settlement *)

Inductive TerminalOutcome : Type :=
  | OutcomeCompleted (output : string)
  | OutcomeFailed (error : RunError)
  | OutcomeCanceled.

Definition outcome_state (o : TerminalOutcome) : JobState :=
  match o with OutcomeCompleted _ => JCompleted | OutcomeFailed _ => JFailed | OutcomeCanceled => JCanceled end.
Definition outcome_run_state (o : TerminalOutcome) : JobRunState :=
  match o with OutcomeCompleted _ => RCompleted | OutcomeFailed _ => RFailed | OutcomeCanceled => RCanceled end.

(** What one settled run reports to awaiting callers. *)
Inductive JobRunOutcome : Type :=
  | Succeeded (output : string)
  | NotSettled (state : JobState) (error : RunError) (nextRetryAt : option Z).

Record Notification : Type := MkNotification { n_id : Z; n_outcome : JobRunOutcome }.

Definition mintRepeat (job : JobRow) (now : Z) : tx unit :=
  match definitions !! j_name job ≫= repeat with
  | None => mret tt
  | Some rule =>
      match rule (j_scheduledAt job) now with
      | Ret (Some (Finite at_)) =>
          live ← get (liveFor (j_name job) (argsHash job));
          match live with
          | Some _ => mret tt
          | None =>
              _ ← insertJob (j_name job) (argsJson job) (argsHash job) (j_key job) at_ now ByRepeat (Some (j_id job));
              mret tt
          end
      | _ => mret tt
      end
  end.

Definition settleJobIn (job : JobRow) (run : option JobRunRow) (o : TerminalOutcome) : tx unit :=
  t ← now;
  let stamp := retentionStamp (definitions !! j_name job) (outcome_state o) t in
  _ ← match run with
      | None => mret tt
      | Some r =>
          if decide (r_state r = RRunning) then
            patch_run (r_id r) (fun r =>
              set_r_deleteAfter stamp (set_leaseUntil None (set_leaseToken None
              (set_errorText match o with OutcomeFailed e => Some (describeError e) | _ => None end
              (set_errorCode match o with OutcomeFailed e => Some (outcomeFromError e) | _ => None end
              (set_outputJson match o with OutcomeCompleted out => Some out | _ => None end
              (set_r_settledAt (Some t) (set_r_state (outcome_run_state o) r))))))))
          else mret tt
      end;
  _ ← patch_job (j_id job) (fun j =>
        set_j_deleteAfter stamp (set_j_settledAt (Some t) (set_nextRunTrigger None (set_j_state (outcome_state o) j))));
  mintRepeat job t.

(** The delay the retry policy allows, if any. *)
Definition retry_delay (definition : option (JobDefinition Args)) (runNumber : Z) (error : RunError) : option Z :=
  match definition, error with
  | None, _ | _, StepRefusal _ _ => None
  | Some d, _ =>
      match retry d runNumber error with
      | Ret (Some (Finite delay)) => if decide (delay < 0) then None else Some delay
      | _ => None
      end
  end.

Definition settleFailureIn (job : JobRow) (run : JobRunRow) (error : RunError) : tx Notification :=
  let definition := definitions !! j_name job in
  t ← now;
  match retry_delay definition (number run) error with
  | Some delay =>
      _ ← patch_run (r_id run) (fun r =>
            set_r_deleteAfter (window (plain_retention definition) t) (set_leaseUntil None (set_leaseToken None
            (set_errorText (Some (describeError error)) (set_errorCode (Some (outcomeFromError error))
            (set_r_settledAt (Some t) (set_r_state RFailed r)))))));
      _ ← patch_job (j_id job) (fun j => set_nextRunTrigger None (set_nextRunAt (t + delay) (set_j_state JRetrying j)));
      mret (MkNotification (j_id job) (NotSettled JRetrying error (Some (t + delay))))
  | None =>
      _ ← settleJobIn job (Some run) (OutcomeFailed error);
      mret (MkNotification (j_id job) (NotSettled JFailed error None))
  end.

(** The encoding of the value may throw. *)
Definition settleSuccessIn (job : JobRow) (run : JobRunRow) (encoded : exc js_error string) : tx Notification :=
  match encoded with
  | Throw e => settleFailureIn job run (Fails e)
  | Ret output =>
      _ ← settleJobIn job (Some run) (OutcomeCompleted output);
      mret (MkNotification (j_id job) (Succeeded output))
  end.

(** ** The transitions *)

Definition requireJob (id : Z) : tx JobRow :=
  js ← get jobs;
  match js !! id with
  | Some j => mret j
  | None => lift (throw_AckerDBError not_found "job does not exist" no_options)
  end.

(** The run at [runCount], of a job that has one. *)
Definition latest_run (job : JobRow) : tx (option JobRunRow) :=
  if decide (runCount job = 0) then mret None else get (byNumber (j_id job) (runCount job)).

Definition conflict_error {A} (message : string) : tx A := lift (throw_AckerDBError conflict message no_options).

Definition cancel (id : Z) : tx JobState :=
  job ← requireJob id;
  if isTerminal (j_state job) then mret (j_state job)
  else
    run ← latest_run job;
    _ ← settleJobIn job run OutcomeCanceled;
    mret JCanceled.

Definition reopen (job : JobRow) (state : JobState) (trigger : JobRunTrigger) (steps : option string) : tx unit :=
  t ← now;
  previous ← latest_run job;
  _ ← match previous with
      | Some r =>
          match r_settledAt r with
          | Some at_ => patch_run (r_id r) (set_r_deleteAfter (window (plain_retention (definitions !! j_name job)) at_))
          | None => mret tt
          end
      | None => mret tt
      end;
  patch_job (j_id job) (fun j =>
    set_j_deleteAfter None (set_j_settledAt None (set_nextRunAt t
    (match steps with Some _ => set_stepsJson steps | None => id end
    (set_nextRunTrigger (Some trigger) (set_j_state state j)))))).

Definition retry_job (id : Z) : tx unit :=
  job ← requireJob id;
  if decide (j_state job = JFailed) then reopen job JRetrying ManualRetry None
  else conflict_error "only failed jobs retry".

Definition forceRunAgain (id : Z) : tx unit :=
  job ← requireJob id;
  if isTerminal (j_state job) then reopen job JPending Force (Some "[]"%string)
  else conflict_error "only terminal jobs are forced to run again".

Definition runAgain (id : Z) : tx JobHandle :=
  job ← requireJob id;
  if isTerminal (j_state job) then
    args ← lift (decode (argsJson job));
    enqueueWith (j_name job) args (MkEnqueueOptions None None) ByRunAgain
  else conflict_error "only terminal jobs are run again".

(** The loop of [deleteWithRuns], a batch of runs at a time. *)
Fixpoint delete_runs (fuel : nat) (id : Z) : tx unit :=
  match fuel with
  | O => mret tt
  | S fuel =>
      rs ← get (ofJob id CASCADE_BATCH);
      _ ← foldr (fun r rest => _ ← delete_run (r_id r); rest) (mret tt) rs;
      if decide (length rs < CASCADE_BATCH)%nat then mret tt else delete_runs fuel id
  end.

Definition deleteWithRuns (id : Z) : tx unit :=
  n ← get (fun s => size (runs s));
  _ ← delete_runs (S n) id;
  delete_job id.

Definition delete_ (id : Z) : tx unit := job ← requireJob id; deleteWithRuns (j_id job).

Definition reschedule (id : Z) (at_ : ms) : tx unit :=
  match at_ with
  | NonFinite => throw (ValidationError "jobs.reschedule: expected finite milliseconds")
  | Finite at_ =>
      job ← requireJob id;
      if decide (j_state job = JPending \/ j_state job = JRetrying) then patch_job id (set_nextRunAt at_)
      else conflict_error "only jobs awaiting a run reschedule"
  end.

(** ** What application code may do to the tables *)

Record JobPatch : Type := MkJobPatch {
  p_guarded : bool;
  p_argsJson : option string;
  p_key : option (option string);
  p_nextRunAt : option Z;
}.

(** Trimming leaves ["[]"] and the empty text of an empty journal. *)
Definition is_white (c : Ascii.ascii) : bool := bool_decide (Ascii.N_of_ascii c ∈ [9; 10; 11; 12; 13; 32]%N).
Fixpoint trim_start (s : string) : string :=
  match s with String c rest => if is_white c then trim_start rest else s | EmptyString => EmptyString end.
Fixpoint trim_end (s : string) : string :=
  match s with
  | EmptyString => EmptyString
  | String c rest => match trim_end rest with EmptyString => if is_white c then EmptyString else String c EmptyString | r => String c r end
  end.
Definition empty_journal (steps : option string) : bool :=
  match steps with None => true | Some s => bool_decide (trim_end (trim_start s) ∈ [""; "[]"]%string) end.

(** The row and the new arguments allow the patch. *)
Definition check_editable (json : option string) (row : option JobRow) : exc js_error unit :=
  match row with
  | None => Ret tt
  | Some j =>
      if decide (j_state j = JRunning) then Throw (ValidationError "the row is running; cancel it before editing its scheduling intent")
      else if bool_decide (is_Some json) && negb (empty_journal (stepsJson j))
      then Throw (ValidationError "the step journal binds this row to its original arguments; delete the row and enqueue fresh")
      else Ret tt
  end.

(** The canonical form of new arguments. *)
Definition canonical_args (json : option string) : exc js_error (option string) :=
  match json with
  | None => Ret None
  | Some text =>
      match (args ← decode text; stableEncode args) with
      | Ret c => Ret (Some c)
      | Throw _ => Throw (ValidationError "argsJson is not a valid canonical encoding")
      end
  end.

Definition patched (canonical : option string) (key : option (option string)) (at_ : option Z) (j : JobRow) : JobRow :=
  let j := match canonical with Some c => set_argsHash (hashJobArgs c) (set_argsJson c j) | None => j end in
  let j := match key with Some k => set_j_key k j | None => j end in
  match at_ with Some t => set_nextRunAt t j | None => j end.

(** [patch] of [guardedJobsWriter]. *)
Definition guarded_patch (id : Z) (p : JobPatch) : tx unit :=
  if p_guarded p then throw (ValidationError "the column belongs to the runner's state machine; use the ctx.jobs transitions")
  else match p_argsJson p, p_key p, p_nextRunAt p with
  | None, None, None => patch_job id (fun j => j)
  | json, key, at_ =>
      js ← get jobs;
      _ ← lift (check_editable json (js !! id));
      canonical ← lift (canonical_args json);
      patch_job id (patched canonical key at_)
  end.

Inductive AppOp : Type :=
  | AppEnqueue (name : string) (args : Args) (options : JobEnqueueOptions)
  | AppPatch (id : Z) (p : JobPatch).

(** Application code may catch what an operation throws. *)
Definition perform (op : AppOp) : tx unit :=
  catch match op with
    | AppEnqueue name args options => _ ← enqueueWith name args options ByEnqueue; mret tt
    | AppPatch id p => guarded_patch id p
    end (fun _ => mret tt).

Definition perform_all (ops : list AppOp) : tx unit := foldr (fun op rest => _ ← perform op; rest) (mret tt) ops.

(** ** The batch *)

Definition LEASE_EXPIRED : string := "job lease expired before the run settled".

(** A crashed run settles as failed; one whose handler lives here is left to it. *)
Fixpoint recover_each (lives_here : Z -> bool) (rs : list JobRunRow) : tx (list Notification) :=
  match rs with
  | [] => mret []
  | run :: rs =>
      if lives_here (jobId run) then recover_each lives_here rs
      else
        js ← get jobs;
        match js !! jobId run with
        | None => recover_each lives_here rs
        | Some job =>
            n ← settleFailureIn job run (Fails (Acker (MkAckerDBError unavailable_ LEASE_EXPIRED false None None false)));
            ns ← recover_each lives_here rs;
            mret (n :: ns)
        end
  end.

Definition recoverExpiredLeases (lives_here : Z -> bool) : tx (list Notification) :=
  t ← now;
  rs ← get (expiredLeases t (Z.to_nat claimBatchSize));
  recover_each lives_here rs.

Definition openRun (job : JobRow) (t : Z) : tx JobRunRow :=
  count ← lease_counter;
  let token := Some (t, count) in
  let until := Some (t + leaseMs) in
  suspended ← (if bool_decide (j_state job = JPending) && bool_decide (0 < runCount job) && bool_decide (nextRunTrigger job = None)
               then get (byNumber (j_id job) (runCount job)) else mret None);
  run ← match suspended with
        | Some r =>
            if decide (r_state r = RRunning) then
              _ ← patch_run (r_id r) (fun r => set_leaseUntil until (set_leaseToken token r));
              mret (Some (set_leaseUntil until (set_leaseToken token r)))
            else mret None
        | None => mret None
        end;
  run ← match run with
        | Some r => mret r
        | None =>
            insert_run (fun id =>
              MkRun id (j_id job) (runCount job + 1)
                (default (if decide (runCount job = 0) then Initial else AutomaticRetry) (nextRunTrigger job))
                (nextRunAt job) t None RRunning None None None token until None)
        end;
  _ ← patch_job (j_id job) (fun j => set_nextRunTrigger None (set_runCount (number run) (set_j_state JRunning j)));
  mret run.

(** What a handler of a mutation-kind job does and gives: operations on the
    jobs tables among its writes, then a value's encoding or an error. *)
Record MutationHandler : Type := MkHandler { h_ops : list AppOp; h_result : exc RunError string }.

Definition runMutationJob (job : JobRow) (run : JobRunRow) (h : MutationHandler) : tx Notification :=
  savepoint ← get (fun s => s);
  result ← match decode (argsJson job) with
           | Throw e => mret (Throw (Fails e))
           | Ret _ =>
               _ ← perform_all (h_ops h);
               _ ← modify (fun s => set_effects (effects s ++ [(j_id job, number run)]) s);
               mret (h_result h)
           end;
  match result with
  | Throw error =>
      _ ← modify (rollback savepoint);
      settleFailureIn job run error
  | Ret output => settleSuccessIn job run (Ret output)
  end.

(** A claimed run, handed to the dispatcher. *)
Record ClaimedRun : Type := MkClaimed { cl_job : Z; cl_run : Z; cl_name : string; cl_argsJson : string; cl_stepsJson : option string; cl_number : Z; cl_token : LeaseToken; cl_startedAt : Z }.

Inductive ClaimResult : Type :=
  | SettledInline (n : Notification)
  | ClaimedToRun (c : ClaimedRun).

(** [`${job.name}\u0000${job.key ?? ""}`] *)
Definition gate (job : JobRow) : string := j_name job +:+ String Ascii.zero (default ""%string (j_key job)).

Definition running_in (g : string) (rows : list JobRow) : Z := Z.of_nat (length (filter (fun j => gate j = g) rows)).

Definition cursor_of (job : JobRow) : JobCursor := MkCursor (nextRunAt job) (j_id job).

(** A due job the claim does not pass over. *)
Definition eligible (running : list JobRow) (job : JobRow) : option (JobDefinition Args) :=
  d ← definitions !! j_name job;
  if decide (concurrency d <= running_in (gate job) running) then None else Some d.

(** The claim of one job. *)
Definition claim_job (handler : JobRunRow -> MutationHandler) (job : JobRow) (d : JobDefinition Args) (t : Z) : tx ClaimResult :=
  run ← openRun job t;
  if decide (kind d = MutationJob) then
    n ← runMutationJob job run (handler run);
    mret (SettledInline n)
  else
    mret (ClaimedToRun (MkClaimed (j_id job) (r_id run) (j_name job) (argsJson job) (stepsJson job) (number run) (default (0, O) (leaseToken run)) (startedAt run))).

(** The first eligible job of a page. *)
Fixpoint first_eligible (running : list JobRow) (page : list JobRow) : option (JobRow * JobDefinition Args) :=
  match page with
  | [] => None
  | job :: page => match eligible running job with Some d => Some (job, d) | None => first_eligible running page end
  end.

(** The loop of [claimNext] over the pages. *)
Fixpoint claim_pages (fuel : nat) (running : list JobRow) (t : Z) (cursor : option JobCursor) (s : Store) : option (JobRow * JobDefinition Args) :=
  match fuel with
  | O => None
  | S fuel =>
      let page := due t (Z.to_nat claimBatchSize) cursor s in
      match first_eligible running page with
      | Some found => Some found
      | None =>
          match last page with
          | None => None
          | Some j => if decide (length page < Z.to_nat claimBatchSize)%nat then None else claim_pages fuel running t (Some (cursor_of j)) s
          end
      end
  end.

Definition claimNext (handler : JobRunRow -> MutationHandler) (cursor : option JobCursor) : tx (option (ClaimResult * JobCursor)) :=
  t ← now;
  running ← get running_jobs;
  found ← get (fun s => claim_pages (S (size (jobs s))) running t cursor s);
  match found with
  | None => mret None
  | Some (job, d) =>
      r ← claim_job handler job d t;
      mret (Some (r, cursor_of job))
  end.

(** The settle transaction: the run must still be the one claimed. *)
Definition settle (c : ClaimedRun) (outcome : exc RunError (exc js_error string)) : tx (option Notification) :=
  rs ← get runs;
  js ← get jobs;
  match rs !! cl_run c, js !! cl_job c with
  | Some run, Some job =>
      if decide (r_state run = RRunning /\ leaseToken run = Some (cl_token c)) then
        n ← match outcome with
            | Ret encoded => settleSuccessIn job run encoded
            | Throw error => settleFailureIn job run error
            end;
        mret (Some n)
      else mret None
  | _, _ => mret None
  end.

(** A run that only is history goes. *)
Definition reap_run (r : JobRunRow) : tx unit :=
  js ← get jobs;
  match js !! jobId r with
  | Some j => if decide (runCount j = number r) then mret tt else delete_run (r_id r)
  | None => delete_run (r_id r)
  end.

(** [reap]'s transaction; the interval is the caller's. *)
Definition reap (t : Z) : tx bool :=
  let limit := Z.to_nat claimBatchSize in
  js ← get (expired_jobs t limit);
  _ ← foldr (fun j rest => _ ← deleteWithRuns (j_id j); rest) (mret tt) js;
  rs ← get (expired_runs t limit);
  _ ← foldr (fun r rest => _ ← reap_run r; rest) (mret tt) rs;
  mret (bool_decide (length js = limit) || bool_decide (length rs = limit)).

(** [activate]: the first occurrence of the repeating jobs without arguments,
    given with the arguments' encoding. *)
Definition activate (bootstrap : list string) (json : string) : tx unit :=
  t ← now;
  foldr (fun name rest =>
    let hash := hashJobArgs json in
    live ← get (liveFor name hash);
    match live, definitions !! name ≫= repeat with
    | None, Some rule =>
        first ← lift (rule t t);
        match first with
        | Some (Finite at_) => _ ← insertJob name json hash None at_ t ByRepeat None; rest
        | Some NonFinite => throw (PlainError "not a finite number")
        | None => rest
        end
    | _, _ => rest
    end) (mret tt) bootstrap.
End jobs.
