(* ===== verification/JobsSpec.v ===== *)
(** The state machine of jobs and their runs, and what holds of every state it
    reaches.

    [jclaim] takes a job to run, [jreopen] makes a settled job wait again, [jcalm]
    is everything else: one constructor per thing that can happen to a job or a
    run. The transactions of the runner are
    shown to be sequences of these steps in [JobsProps]; here are
    the machine's invariant and what its steps never change. *)
From S2P Require Import Prelude Errors Limits Effects Jobs.
Local Open Scope Z_scope.

Section spec.
Context {rt : JobsRuntime}.

(** The tables, with the next primary keys. *)
Record Tables : Type := MkTables {
  t_jobs : gmap Z JobRow;
  t_runs : gmap Z JobRunRow;
  t_nextJob : Z;
  t_nextRun : Z;
  t_effects : list (Z * Z);
}.

Definition tables (s : Store) : Tables := MkTables (jobs s) (runs s) (nextJobId s) (nextRunId s) (effects s).

Definition with_job (j : JobRow) (T : Tables) : Tables :=
  MkTables (<[j_id j := j]> (t_jobs T)) (t_runs T) (t_nextJob T) (t_nextRun T) (t_effects T).
Definition with_run (r : JobRunRow) (T : Tables) : Tables :=
  MkTables (t_jobs T) (<[r_id r := r]> (t_runs T)) (t_nextJob T) (t_nextRun T) (t_effects T).
Definition with_effect (e : Z * Z) (T : Tables) : Tables :=
  MkTables (t_jobs T) (t_runs T) (t_nextJob T) (t_nextRun T) (t_effects T ++ [e]).

(** A run of a job is open until it settles. *)
Definition open_run (T : Tables) (r : JobRunRow) : Prop := t_runs T !! r_id r = Some r /\ r_state r = RRunning.
Definition no_open_run (T : Tables) (id : Z) : Prop := forall i r, t_runs T !! i = Some r -> jobId r = id -> r_state r <> RRunning.

(** The run as its settlement leaves it. *)
Definition settled_run (o : TerminalOutcome) (code : option OutcomeCode) (text : option string) (t : Z) (stamp : option Z) (r : JobRunRow) : JobRunRow :=
  set_r_deleteAfter stamp (set_leaseUntil None (set_leaseToken None (set_errorText text (set_errorCode code
  (set_outputJson match o with OutcomeCompleted out => Some out | _ => None end
  (set_r_settledAt (Some t) (set_r_state (outcome_run_state o) r))))))).

Definition failed_run (code : OutcomeCode) (text : string) (t : Z) (stamp : option Z) (r : JobRunRow) : JobRunRow :=
  set_r_deleteAfter stamp (set_leaseUntil None (set_leaseToken None (set_errorText (Some text) (set_errorCode (Some code)
  (set_r_settledAt (Some t) (set_r_state RFailed r)))))).

Definition settled_job (o : TerminalOutcome) (t : Z) (j : JobRow) : JobRow :=
  set_j_deleteAfter (retentionStamp (definitions !! j_name j) (outcome_state o) t)
    (set_j_settledAt (Some t) (set_nextRunTrigger None (set_j_state (outcome_state o) j))).

Definition mutation_kind (j : JobRow) : Prop := kind <$> definitions !! j_name j = Some MutationJob.

(** What the application may change of a job that does not run. *)
Definition edited (j j' : JobRow) : Prop :=
  j' = set_argsHash (argsHash j') (set_argsJson (argsJson j') (set_j_key (j_key j') (set_nextRunAt (nextRunAt j') j))).

(** The steps that set no job running and reopen none. *)
Inductive jcalm (T : Tables) : Tables -> Prop :=
  | step_admit name json hash key at_ t trigger parent :
      let j := MkJob (t_nextJob T) name json hash key JPending trigger parent at_ at_ 0 None (Some "[]"%string) t None None in
      jcalm T (MkTables (<[j_id j := j]> (t_jobs T)) (t_runs T) (t_nextJob T + 1) (t_nextRun T) (t_effects T))
  | step_edit j j' : t_jobs T !! j_id j = Some j -> j_state j <> JRunning -> edited j j' -> jcalm T (with_job j' T)
  | step_journal j steps : t_jobs T !! j_id j = Some j -> isTerminal (j_state j) = false -> jcalm T (with_job (set_stepsJson steps j) T)
  | step_sleep j r at_ :
      t_jobs T !! j_id j = Some j -> open_run T r -> jobId r = j_id j ->
      jcalm T (with_job (set_nextRunTrigger None (set_nextRunAt at_ (set_j_state JPending j)))
        (with_run (set_leaseUntil None (set_leaseToken None r)) T))
  | step_settle j r o code text t wrote :
      t_jobs T !! j_id j = Some j -> open_run T r -> jobId r = j_id j ->
      (match o with OutcomeCompleted _ => mutation_kind j <-> wrote = true | _ => wrote = false end) ->
      jcalm T (with_job (settled_job o t j) (with_run (settled_run o code text t (retentionStamp (definitions !! j_name j) (outcome_state o) t) r)
        (if wrote : bool then with_effect (j_id j, number r) T else T)))
  | step_retry j r code text t stamp delay :
      t_jobs T !! j_id j = Some j -> open_run T r -> jobId r = j_id j -> 0 <= delay ->
      jcalm T (with_job (set_nextRunTrigger None (set_nextRunAt (t + delay) (set_j_state JRetrying j)))
        (with_run (failed_run code text t stamp r) T))
  | step_end j t :
      t_jobs T !! j_id j = Some j -> isTerminal (j_state j) = false -> no_open_run T (j_id j) ->
      jcalm T (with_job (settled_job OutcomeCanceled t j) T)
  | step_sweep r j :
      t_runs T !! r_id r = Some r -> t_jobs T !! jobId r = Some j -> number r <> runCount j ->
      jcalm T (MkTables (t_jobs T) (delete (r_id r) (t_runs T)) (t_nextJob T) (t_nextRun T) (t_effects T))
  | step_delete id :
      jcalm T (MkTables (delete id (t_jobs T)) (filter (fun '(_, r) => jobId r <> id) (t_runs T)) (t_nextJob T) (t_nextRun T) (t_effects T)).

(** The claims, of a job that waits for a run. *)
Inductive jclaim (T : Tables) : Tables -> Prop :=
  | step_open j trigger t token until :
      t_jobs T !! j_id j = Some j -> j_state j = JPending \/ j_state j = JRetrying -> no_open_run T (j_id j) ->
      let r := MkRun (t_nextRun T) (j_id j) (runCount j + 1) trigger (nextRunAt j) t None RRunning None None None (Some token) (Some until) None in
      jclaim T (with_job (set_nextRunTrigger None (set_runCount (runCount j + 1) (set_j_state JRunning j)))
        (MkTables (t_jobs T) (<[r_id r := r]> (t_runs T)) (t_nextJob T) (t_nextRun T + 1) (t_effects T)))
  | step_resume j r token until :
      t_jobs T !! j_id j = Some j -> j_state j = JPending -> open_run T r -> jobId r = j_id j ->
      jclaim T (with_job (set_nextRunTrigger None (set_runCount (number r) (set_j_state JRunning j)))
        (with_run (set_leaseUntil (Some until) (set_leaseToken (Some token) r)) T)).

(** The settled job [id] waits for a run again; its settled runs get another
    stamp. *)
Inductive jreopen (id : Z) (T : Tables) : Tables -> Prop :=
  | step_reopen j t state trigger steps :
      j_id j = id -> t_jobs T !! j_id j = Some j -> isTerminal (j_state j) = true ->
      (state = JPending \/ (state = JRetrying /\ j_state j = JFailed)) ->
      jreopen id T (with_job (set_j_deleteAfter None (set_j_settledAt None (set_nextRunAt t (set_stepsJson steps
        (set_nextRunTrigger (Some trigger) (set_j_state state j)))))) T)
  | step_restamp r stamp :
      jobId r = id -> t_runs T !! r_id r = Some r -> r_state r <> RRunning -> jreopen id T (with_run (set_r_deleteAfter stamp r) T).

Definition jstep (T T' : Tables) : Prop := jcalm T T' \/ jclaim T T' \/ exists id, jreopen id T T'.

(** ** The invariant *)

(** The runs of the tables and the effects recorded, as one job sees them. *)
Implicit Types (R : gmap Z JobRunRow) (E : list (Z * Z)).

Definition run_of R (j : JobRow) (r : JobRunRow) : Prop := exists i, R !! i = Some r /\ jobId r = j_id j.

Definition latest R (j : JobRow) (r : JobRunRow) : Prop := run_of R j r /\ number r = runCount j.

Definition unsettled (j : JobRow) : Prop := j_settledAt j = None /\ j_deleteAfter j = None.

Definition stamped (j : JobRow) : Prop :=
  exists t, j_settledAt j = Some t /\ j_deleteAfter j = retentionStamp (definitions !! j_name j) (j_state j) t.

Definition run_ok (r : JobRunRow) : Prop :=
  match r_state r with
  | RRunning => r_settledAt r = None /\ outputJson r = None /\ r_deleteAfter r = None
  | RCompleted => is_Some (r_settledAt r) /\ is_Some (outputJson r) /\ leaseToken r = None /\ leaseUntil r = None
  | _ => is_Some (r_settledAt r) /\ outputJson r = None /\ leaseToken r = None /\ leaseUntil r = None
  end.

(** A run that is open is its job's latest; it holds a lease while the job
    runs, and none while it sleeps. *)
Definition open_ok (j : JobRow) (r : JobRunRow) : Prop :=
  number r = runCount j /\
  ((j_state j = JRunning /\ is_Some (leaseToken r) /\ is_Some (leaseUntil r)) \/
   (j_state j = JPending /\ nextRunTrigger j = None /\ leaseToken r = None /\ leaseUntil r = None)).

Definition latest_in R (j : JobRow) (state : JobRunState) : Prop := exists r, latest R j r /\ r_state r = state.

Definition state_ok R (j : JobRow) : Prop :=
  match j_state j with
  | JPending => unsettled j /\ (nextRunTrigger j = None -> 0 < runCount j -> latest_in R j RRunning)
  | JRunning => unsettled j /\ latest_in R j RRunning
  | JRetrying => unsettled j /\ latest_in R j RFailed
  | JCompleted => stamped j /\ latest_in R j RCompleted
  | JFailed => stamped j /\ latest_in R j RFailed
  | JCanceled => stamped j
  end.

Record job_ok R E (j : JobRow) : Prop := {
  jk_count : 0 <= runCount j;
  jk_numbers : forall r, run_of R j r -> 1 <= number r <= runCount j;
  jk_unique : forall r r', run_of R j r -> run_of R j r' -> number r = number r' -> r_id r = r_id r';
  jk_latest : 0 < runCount j -> exists r, latest R j r;
  jk_runs : forall r, run_of R j r -> run_ok r;
  jk_open : forall r, run_of R j r -> r_state r = RRunning -> open_ok j r;
  jk_state : state_ok R j;
  jk_effects : forall n, (j_id j, n) ∈ E -> 1 <= n <= runCount j /\
    forall r, run_of R j r -> number r = n -> r_state r = RCompleted;
  jk_wrote : forall r, run_of R j r -> r_state r = RCompleted -> mutation_kind j -> (j_id j, number r) ∈ E;
}.

Record jobs_ok (T : Tables) : Prop := {
  jo_ids : forall i j, t_jobs T !! i = Some j -> j_id j = i /\ i < t_nextJob T;
  jo_run_ids : forall i r, t_runs T !! i = Some r -> r_id r = i /\ i < t_nextRun T;
  jo_parents : forall i r, t_runs T !! i = Some r -> is_Some (t_jobs T !! jobId r);
  jo_job : forall i j, t_jobs T !! i = Some j -> job_ok (t_runs T) (t_effects T) j;
  jo_once : NoDup (t_effects T);
  jo_effects : forall e, e ∈ t_effects T -> e.1 < t_nextJob T;
}.

(** ** One job at a time *)

Lemma run_of_ext R R' j r : (forall i, jobId r = j_id j -> R !! i = Some r <-> R' !! i = Some r) -> run_of R j r <-> run_of R' j r.
Proof. intros H. split; intros (i & Hi & Hj); exists i; split; try done; by apply (H i Hj). Qed.

Lemma job_ok_frame R R' E E' j :
  (forall i r, jobId r = j_id j -> R !! i = Some r <-> R' !! i = Some r) ->
  (forall n, (j_id j, n) ∈ E <-> (j_id j, n) ∈ E') ->
  job_ok R E j -> job_ok R' E' j.
Proof.
  intros HR HE.
  assert (Hr : forall r, run_of R j r <-> run_of R' j r) by (intros r; apply run_of_ext; auto).
  assert (Hl : forall st, latest_in R j st <-> latest_in R' j st)
    by (intros st; unfold latest_in, latest; split; intros (r & [? ?] & ?); exists r; split_and!; try done; by apply Hr).
  intros [H1 H2 H3 H4 H5 H6 H7 H8 H9]. split; try done.
  - intros r ?%Hr. auto.
  - intros r r' ?%Hr ?%Hr. auto.
  - intros Hc. destruct (H4 Hc) as (r & ? & ?). exists r. split; [by apply Hr|done].
  - intros r ?%Hr. auto.
  - intros r ?%Hr. auto.
  - unfold state_ok in *. destruct (j_state j); rewrite <-?Hl; done.
  - intros n Hn%HE. destruct (H8 n Hn) as [? Hs]. split; [done|]. intros r ?%Hr. auto.
  - intros r Hr'%Hr Hst Hk. apply HE. auto.
Qed.

(** A step that touches one job and its runs. *)
Lemma touch_ok T T' id j' :
  jobs_ok T -> id < t_nextJob T' -> t_nextJob T <= t_nextJob T' -> t_nextRun T <= t_nextRun T' ->
  t_jobs T' = <[id := j']> (t_jobs T) -> j_id j' = id ->
  (forall i r, jobId r <> id -> t_runs T !! i = Some r <-> t_runs T' !! i = Some r) ->
  (forall i r, jobId r = id -> t_runs T' !! i = Some r -> r_id r = i /\ i < t_nextRun T') ->
  (t_effects T' = t_effects T \/ exists n, t_effects T' = t_effects T ++ [(id, n)] /\ (id, n) ∉ t_effects T) ->
  job_ok (t_runs T') (t_effects T') j' -> jobs_ok T'.
Proof.
  intros [Hi Hri Hp Hj Ho He] Hid Hnj Hnr Ejobs Eid Hother Hown Heff Hok.
  assert (Hsame : forall i n, i <> id -> (i, n) ∈ t_effects T <-> (i, n) ∈ t_effects T').
  { intros i n Hne. destruct Heff as [->|(m & -> & _)]; [done|]. rewrite elem_of_app, list_elem_of_singleton.
    split; [by left|]. by intros [|[= ? ?]]. }
  split.
  - intros i j. rewrite Ejobs, lookup_insert_Some. intros [[<- <-]|[? Hl]]; [done|].
    destruct (Hi _ _ Hl). split; [done|lia].
  - intros i r Hl. destruct (decide (jobId r = id)) as [E|E]; [by apply Hown|].
    apply Hother in Hl; [|done]. destruct (Hri _ _ Hl). split; [done|lia].
  - intros i r Hl. rewrite Ejobs. destruct (decide (jobId r = id)) as [->|E]; [rewrite lookup_insert_eq; by eexists|].
    rewrite lookup_insert_ne by done. apply Hother in Hl; [|done]. by eapply Hp.
  - intros i j. rewrite Ejobs, lookup_insert_Some. intros [[<- <-]|[Hne Hl]]; [done|].
    destruct (Hi _ _ Hl) as [Ei _]. eapply job_ok_frame; [| |by eapply Hj].
    + intros k r E. apply Hother. congruence.
    + intros n. apply Hsame. congruence.
  - destruct Heff as [->|(m & -> & Hm)]; [done|]. apply NoDup_app. split_and!; [done| |apply NoDup_singleton].
    intros e He' ->%list_elem_of_singleton. done.
  - intros e. destruct Heff as [->|(m & -> & Hm)]; [intros ?%He; lia|].
    rewrite elem_of_app, list_elem_of_singleton. intros [?%He| ->]; [lia|done].
Qed.

(** ** The run that is open *)

Lemma stored_run T j r : jobs_ok T -> run_of (t_runs T) j r -> t_runs T !! r_id r = Some r /\ jobId r = j_id j.
Proof. intros Hok (i & Hi & Hj). by destruct (jo_run_ids _ Hok _ _ Hi) as [-> _]. Qed.

Lemma run_of_stored T j r : t_runs T !! r_id r = Some r -> jobId r = j_id j -> run_of (t_runs T) j r.
Proof. intros Hi Hj. by exists (r_id r). Qed.

Lemma same_number T j r r' :
  jobs_ok T -> t_jobs T !! j_id j = Some j -> run_of (t_runs T) j r -> run_of (t_runs T) j r' -> number r = number r' -> r = r'.
Proof.
  intros Hok Hj Hr Hr' Hn. pose proof (jk_unique _ _ _ (jo_job _ Hok _ _ Hj) _ _ Hr Hr' Hn) as Hi.
  apply (stored_run _ _ _ Hok) in Hr as [Hr _]. apply (stored_run _ _ _ Hok) in Hr' as [Hr' _]. congruence.
Qed.

Lemma open_latest T j r :
  jobs_ok T -> t_jobs T !! j_id j = Some j -> open_run T r -> jobId r = j_id j -> latest (t_runs T) j r.
Proof.
  intros Hok Hj [Hr Hst] Hid. pose proof (run_of_stored _ _ _ Hr Hid) as Hrun. split; [done|].
  apply (jk_open _ _ _ (jo_job _ Hok _ _ Hj) _ Hrun Hst).
Qed.

Lemma run_of_update T j j' r r' x :
  jobs_ok T -> t_runs T !! r_id r = Some r -> r_id r' = r_id r -> jobId r' = j_id j -> j_id j' = j_id j ->
  run_of (<[r_id r := r']> (t_runs T)) j' x <-> x = r' \/ (run_of (t_runs T) j x /\ r_id x <> r_id r).
Proof.
  intros Hok Hr Hi Hj Hj'. unfold run_of. rewrite Hj'. split.
  - intros (i & Hl & Hx). apply lookup_insert_Some in Hl as [[<- <-]|[Hne Hl]]; [by left|right].
    destruct (jo_run_ids _ Hok _ _ Hl) as [-> _]. split; [by exists i|congruence].
  - intros [->|[(i & Hl & Hx) Hne]]; [exists (r_id r); split; [apply lookup_insert_eq|congruence]|].
    exists i. split; [|done]. rewrite lookup_insert_ne; [done|]. destruct (jo_run_ids _ Hok _ _ Hl) as [Hid _]. congruence.
Qed.

(** What is left to show when the open run of a job, and the job, change. *)
Lemma update_ok T j j' r r' E' :
  jobs_ok T -> t_jobs T !! j_id j = Some j -> open_run T r -> jobId r = j_id j ->
  r_id r' = r_id r -> jobId r' = jobId r -> number r' = number r ->
  j_id j' = j_id j -> j_name j' = j_name j -> runCount j' = runCount j ->
  run_ok r' -> (r_state r' = RRunning -> open_ok j' r') ->
  (latest_in (<[r_id r := r']> (t_runs T)) j' (r_state r') -> state_ok (<[r_id r := r']> (t_runs T)) j') ->
  (E' = t_effects T \/ (E' = t_effects T ++ [(j_id j, number r)] /\ r_state r' = RCompleted)) ->
  (r_state r' = RCompleted -> mutation_kind j -> (j_id j, number r) ∈ E') ->
  job_ok (<[r_id r := r']> (t_runs T)) E' j'.
Proof.
  intros Hok Hj Hopen Hjid Hi Hjr Hn Hid Hname Hcount Hrok Hro Hst HE Hwr.
  pose proof (open_latest _ _ _ Hok Hj Hopen Hjid) as [Hrun Hlat]. pose proof Hopen as [Hr Hrst].
  pose proof (jo_job _ Hok _ _ Hj) as [H1 H2 H3 H4 H5 H6 H7 H8 H9].
  assert (Hup : forall x, run_of (<[r_id r := r']> (t_runs T)) j' x <-> x = r' \/ (run_of (t_runs T) j x /\ r_id x <> r_id r))
    by (intros x; apply run_of_update; congruence).
  assert (Hother : forall x, run_of (t_runs T) j x -> r_id x <> r_id r -> number x <> number r).
  { intros x Hx Hne Hnum. apply Hne. by apply H3. }
  assert (HE' : forall n, (j_id j, n) ∈ E' <-> (j_id j, n) ∈ t_effects T \/ (n = number r /\ r_state r' = RCompleted /\ (j_id j, n) ∈ E')).
  { intros n. destruct HE as [->|[-> Hc]]; [tauto|]. rewrite elem_of_app, list_elem_of_singleton. naive_solver. }
  split; rewrite ?Hcount, ?Hid.
  - done.
  - intros x [->|[Hx _]]%Hup; [rewrite Hn|]; auto.
  - intros x y [->|[Hx Hxi]]%Hup [->|[Hy Hyi]]%Hup Hxy; [done|exfalso|exfalso|by apply H3].
    + apply (Hother y); [done..|congruence].
    + apply (Hother x); [done..|congruence].
  - intros _. exists r'. split; [apply Hup; by left|congruence].
  - intros x [->|[Hx _]]%Hup; auto.
  - intros x [->|[Hx Hne]]%Hup Hs; [auto|]. exfalso. apply (Hother x Hx Hne).
    destruct (H6 x Hx Hs) as [-> _]. done.
  - apply Hst. exists r'. split; [split; [apply Hup; by left|congruence]|done].
  - intros n [Hin|(-> & Hc & _)]%HE'.
    + destruct (H8 n Hin) as [Hb Hs]. split; [done|]. intros x [->|[Hx Hne]]%Hup Hnx; [|auto].
      exfalso. specialize (Hs r Hrun ltac:(congruence)). congruence.
    + split; [auto|]. intros x [->|[Hx Hne]]%Hup Hnx; [done|]. exfalso. by apply (Hother x).
  - intros x [->|[Hx Hne]]%Hup Hs Hk; [rewrite Hn; apply Hwr; [done|]|].
    + unfold mutation_kind in *. by rewrite <-Hname.
    + apply HE'. left. apply H9; [done..|]. unfold mutation_kind in *. by rewrite <-Hname.
Qed.

(** The same, when no run changes. *)
Lemma edit_ok T j j' :
  jobs_ok T -> t_jobs T !! j_id j = Some j ->
  j_id j' = j_id j -> j_name j' = j_name j -> runCount j' = runCount j ->
  (forall r, run_of (t_runs T) j r -> r_state r = RRunning -> open_ok j r -> open_ok j' r) ->
  (state_ok (t_runs T) j -> state_ok (t_runs T) j') ->
  job_ok (t_runs T) (t_effects T) j'.
Proof.
  intros Hok Hj Hid Hname Hcount Ho Hs. pose proof (jo_job _ Hok _ _ Hj) as [H1 H2 H3 H4 H5 H6 H7 H8 H9].
  assert (Hr : forall r, run_of (t_runs T) j' r <-> run_of (t_runs T) j r) by (intros; unfold run_of; by rewrite Hid).
  split; unfold mutation_kind; rewrite ?Hcount, ?Hid, ?Hname; auto.
  - intros r ?%Hr. auto.
  - intros r r' ?%Hr ?%Hr. auto.
  - intros Hc. destruct (H4 Hc) as (r & ? & ?). exists r. split; [by apply Hr|congruence].
  - intros r ?%Hr. auto.
  - intros r ?%Hr ?. auto.
  - intros n Hn. destruct (H8 n Hn) as [? ?]. split; [done|]. intros r ?%Hr. auto.
  - intros r ?%Hr. auto.
Qed.

(** Replacing a job, and possibly its open run. *)
Lemma with_job_ok T j j' :
  jobs_ok T -> t_jobs T !! j_id j = Some j -> j_id j' = j_id j -> job_ok (t_runs T) (t_effects T) j' -> jobs_ok (with_job j' T).
Proof.
  intros Hok Hj Hid Hj'. apply (touch_ok T _ (j_id j) j'); cbn; try done.
  - apply (jo_ids _ Hok _ _ Hj).
  - by rewrite Hid.
  - intros i r _. apply (jo_run_ids _ Hok).
  - by left.
Qed.

Lemma with_both_ok T j j' r r' (wrote : bool) :
  jobs_ok T -> t_jobs T !! j_id j = Some j -> open_run T r -> jobId r = j_id j ->
  r_id r' = r_id r -> jobId r' = jobId r -> j_id j' = j_id j ->
  let T1 := if wrote then with_effect (j_id j, number r) T else T in
  job_ok (<[r_id r := r']> (t_runs T)) (t_effects T1) j' -> jobs_ok (with_job j' (with_run r' T1)).
Proof.
  intros Hok Hj [Hr Hst] Hjid Hi Hjr Hid T1 Hj'.
  assert (HT1 : t_jobs T1 = t_jobs T /\ t_runs T1 = t_runs T /\ t_nextJob T1 = t_nextJob T /\ t_nextRun T1 = t_nextRun T) by by destruct wrote.
  destruct HT1 as (Ej & Er & Enj & Enr).
  apply (touch_ok T _ (j_id j) j'); cbn; rewrite ?Ej, ?Er, ?Enj, ?Enr, ?Hi; try done.
  - apply (jo_ids _ Hok _ _ Hj).
  - by rewrite Hid.
  - intros i x Hx. rewrite lookup_insert_Some. split; [intros Hl; right; split; [|done]|intros [[<- <-]|[_ ?]]; [congruence|done]].
    intros <-. congruence.
  - intros i x Hx. rewrite lookup_insert_Some. intros [[<- <-]|[_ Hl]]; [split; [done|apply (jo_run_ids _ Hok _ _ Hr)]|by apply (jo_run_ids _ Hok)].
  - destruct wrote; [right|by left]. exists (number r). split; [done|]. intros Hin.
    destruct (jk_effects _ _ _ (jo_job _ Hok _ _ Hj) _ Hin) as [_ Hc].
    rewrite (Hc r) in Hst; [done|by apply run_of_stored|done].
Qed.

(** ** Every step keeps the invariant *)

Lemma no_open_terminal T j r : no_open_run T (j_id j) -> run_of (t_runs T) j r -> r_state r <> RRunning.
Proof. intros H (i & Hi & Hj). by apply (H i r). Qed.

Lemma admit_keeps T j :
  jobs_ok T -> j_id j = t_nextJob T -> j_state j = JPending -> runCount j = 0 -> unsettled j ->
  jobs_ok (MkTables (<[j_id j := j]> (t_jobs T)) (t_runs T) (t_nextJob T + 1) (t_nextRun T) (t_effects T)).
Proof.
  intros Hok Hid Hst Hc Hu.
  assert (Hno : forall r, ~ run_of (t_runs T) j r).
  { intros r (i & Hi & Hj). destruct (jo_parents _ Hok _ _ Hi) as [p Hp]. apply (jo_ids _ Hok) in Hp as [_ Hlt]. lia. }
  apply (touch_ok T _ (j_id j) j); cbn; try done; try lia.
  - intros i r Hr Hl. by apply (jo_run_ids _ Hok).
  - by left.
  - split; try (intros; exfalso; by eapply Hno).
    + lia.
    + lia.
    + unfold state_ok. rewrite Hst. split; [done|lia].
    + intros n Hn. apply (jo_effects _ Hok) in Hn. cbn in Hn. lia.
Qed.

Lemma edit_keeps T j j' :
  jobs_ok T -> t_jobs T !! j_id j = Some j -> j_state j <> JRunning -> edited j j' -> jobs_ok (with_job j' T).
Proof.
  intros Hok Hj Hst ->. apply (with_job_ok _ j); [done..|].
  apply (edit_ok _ j); [done..|].
  unfold state_ok, stamped, unsettled, latest_in, latest, run_of. cbn. by destruct (j_state j).
Qed.

Lemma journal_keeps T j steps : jobs_ok T -> t_jobs T !! j_id j = Some j -> jobs_ok (with_job (set_stepsJson steps j) T).
Proof. intros Hok Hj. apply (with_job_ok _ j); [done..|]. by apply (edit_ok _ j). Qed.

Lemma reopen_keeps T j t state trigger steps :
  jobs_ok T -> t_jobs T !! j_id j = Some j -> isTerminal (j_state j) = true ->
  (state = JPending \/ (state = JRetrying /\ j_state j = JFailed)) ->
  jobs_ok (with_job (set_j_deleteAfter None (set_j_settledAt None (set_nextRunAt t (set_stepsJson steps
    (set_nextRunTrigger (Some trigger) (set_j_state state j)))))) T).
Proof.
  intros Hok Hj Ht Hs. apply (with_job_ok _ j); [done..|]. apply (edit_ok _ j); [done..| |].
  - intros r Hr Hst Ho. destruct Ho as [_ [[Hjs _]|[Hjs _]]]; by rewrite Hjs in Ht.
  - unfold state_ok. destruct Hs as [->|[-> Hf]]; cbn; [done|]. rewrite Hf. intros [_ Hl]. done.
Qed.

Lemma restamp_keeps T r stamp :
  jobs_ok T -> t_runs T !! r_id r = Some r -> r_state r <> RRunning -> jobs_ok (with_run (set_r_deleteAfter stamp r) T).
Proof.
  intros Hok Hr Hst. set (r' := set_r_deleteAfter stamp r).
  destruct (jo_parents _ Hok _ _ Hr) as [j Hj]. pose proof (jo_ids _ Hok _ _ Hj) as [Hid _].
  assert (Hjr : t_jobs T !! j_id j = Some j) by congruence.
  assert (HT : with_run r' T = MkTables (<[j_id j := j]> (t_jobs T)) (<[r_id r := r']> (t_runs T)) (t_nextJob T) (t_nextRun T) (t_effects T)).
  { unfold with_run. by rewrite (insert_id _ _ _ Hjr). }
  rewrite HT. apply (touch_ok T _ (j_id j) j); cbn; try done.
  - apply (jo_ids _ Hok _ _ Hjr).
  - intros i x Hx. rewrite lookup_insert_Some. split; [intros Hl; right; split; [|done]|intros [[<- <-]|[_ ?]]; [|done]].
    + intros <-. congruence.
    + cbn in Hx. congruence.
  - intros i x Hx. rewrite lookup_insert_Some. intros [[<- <-]|[_ Hl]]; [split; [done|apply (jo_run_ids _ Hok _ _ Hr)]|by apply (jo_run_ids _ Hok)].
  - by left.
  - assert (Hup : forall x, run_of (<[r_id r := r']> (t_runs T)) j x <-> x = r' \/ (run_of (t_runs T) j x /\ r_id x <> r_id r))
      by (intros x; apply run_of_update; [done|done|done|symmetry; exact Hid|done]).
    assert (Hrun : run_of (t_runs T) j r) by (apply run_of_stored; [done|congruence]).
    assert (Hback : forall x, run_of (<[r_id r := r']> (t_runs T)) j x -> exists y, run_of (t_runs T) j y /\
      r_id y = r_id x /\ number y = number x /\ r_state y = r_state x /\ (r_state x <> RRunning -> run_ok y -> run_ok x) /\ (r_state x = RRunning -> y = x)).
    { intros x [->|[Hx Hne]]%Hup; [exists r|exists x]; split_and!; try done.
      intros _. unfold run_ok. cbn. by destruct (r_state r). }
    assert (Hforth : forall y, run_of (t_runs T) j y -> exists x, run_of (<[r_id r := r']> (t_runs T)) j x /\ number x = number y /\ r_state x = r_state y).
    { intros y Hy. destruct (decide (r_id y = r_id r)) as [E|E].
      - exists r'. split; [apply Hup; by left|]. apply (stored_run _ _ _ Hok) in Hy as [Hy _]. rewrite E in Hy. assert (y = r) as -> by congruence. done.
      - exists y. split; [apply Hup; by right|done]. }
    assert (Hlat : forall st, latest_in (t_runs T) j st -> latest_in (<[r_id r := r']> (t_runs T)) j st).
    { intros st (y & [Hy Hn] & Hs). destruct (Hforth y Hy) as (x & Hx & ? & ?). exists x. split; [split; [done|congruence]|congruence]. }
    pose proof (jo_job _ Hok _ _ Hjr) as [H1 H2 H3 H4 H5 H6 H7 H8 H9]. split; [done|..].
    + intros x (y & Hy & _ & <- & _)%Hback. auto.
    + intros x x' (y & Hy & <- & <- & _)%Hback (y' & Hy' & <- & <- & _)%Hback. auto.
    + intros Hc. destruct (H4 Hc) as (y & Hy & Hn). destruct (Hforth y Hy) as (x & Hx & ? & ?). exists x. split; [done|congruence].
    + intros x Hx. destruct (Hback x Hx) as (y & Hy & _ & _ & _ & Hro & Heq). destruct (decide (r_state x = RRunning)) as [E|E]; [rewrite <-(Heq E)|apply Hro]; auto.
    + intros x Hx E. destruct (Hback x Hx) as (y & Hy & _ & _ & _ & _ & Heq). specialize (Heq E). subst y. auto.
    + unfold state_ok in *. destruct (j_state j); naive_solver.
    + intros n Hn. destruct (H8 n Hn) as [? Hs]. split; [done|]. intros x (y & Hy & _ & <- & <- & _)%Hback. auto.
    + intros x (y & Hy & _ & <- & <- & _)%Hback. auto.
Qed.

Lemma claim_open_keeps T j trigger t token until :
  jobs_ok T -> t_jobs T !! j_id j = Some j -> j_state j = JPending \/ j_state j = JRetrying -> no_open_run T (j_id j) ->
  let r := MkRun (t_nextRun T) (j_id j) (runCount j + 1) trigger (nextRunAt j) t None RRunning None None None (Some token) (Some until) None in
  jobs_ok (with_job (set_nextRunTrigger None (set_runCount (runCount j + 1) (set_j_state JRunning j)))
    (MkTables (t_jobs T) (<[r_id r := r]> (t_runs T)) (t_nextJob T) (t_nextRun T + 1) (t_effects T))).
Proof.
  intros Hok Hj Hst Hno r. set (j' := set_nextRunTrigger _ _).
  assert (Hfresh : t_runs T !! t_nextRun T = None).
  { destruct (t_runs T !! t_nextRun T) eqn:E; [|done]. apply (jo_run_ids _ Hok) in E as [_ ?]. lia. }
  pose proof (jo_job _ Hok _ _ Hj) as [H1 H2 H3 H4 H5 H6 H7 H8 H9].
  assert (Hup : forall x, run_of (<[r_id r := r]> (t_runs T)) j' x <-> x = r \/ run_of (t_runs T) j x).
  { intros x. unfold run_of. split.
    - intros (i & Hl & Hx). apply lookup_insert_Some in Hl as [[<- <-]|[Hne Hl]]; [by left|right; by exists i].
    - intros [->|(i & Hl & Hx)]; [exists (r_id r); split; [apply lookup_insert_eq|done]|].
      exists i. split; [|done]. rewrite lookup_insert_ne; [done|]. cbn. congruence. }
  assert (Hold : forall x, run_of (t_runs T) j x -> r_state x <> RRunning) by (intros x; by apply no_open_terminal).
  apply (touch_ok T _ (j_id j) j'); cbn; try done; try lia.
  - apply (jo_ids _ Hok _ _ Hj).
  - intros i x Hx. rewrite lookup_insert_Some. split; [intros Hl; right; split; [congruence|done]|intros [[<- <-]|[_ ?]]; done].
  - intros i x Hx. rewrite lookup_insert_Some. intros [[<- <-]|[_ Hl]]; [cbn; split; [done|lia]|].
    destruct (jo_run_ids _ Hok _ _ Hl). split; [done|lia].
  - by left.
  - split; cbn; [lia|..].
    + intros x [->|Hx]%Hup; [cbn; lia|]. specialize (H2 x Hx). lia.
    + intros x y [->|Hx]%Hup [->|Hy]%Hup Hxy; [done|..|by apply H3]; exfalso.
      * specialize (H2 y Hy). cbn in Hxy. lia.
      * specialize (H2 x Hx). cbn in Hxy. lia.
    + intros _. exists r. split; [apply Hup; by left|done].
    + intros x [->|Hx]%Hup; [done|auto].
    + intros x [->|Hx]%Hup Hs; [|by destruct (Hold x Hx)]. split; [done|left]. split_and!; [done|by eexists..].
    + unfold state_ok. cbn. split.
      * unfold state_ok in H7. destruct Hst as [E|E]; rewrite E in H7; apply H7.
      * exists r. split; [split; [apply Hup; by left|done]|done].
    + intros n Hn. destruct (H8 n Hn) as [Hb Hc]. split; [lia|]. intros x [->|Hx]%Hup Hnx; [cbn in Hnx; lia|auto].
    + intros x [->|Hx]%Hup Hs Hk; [done|]. apply H9; done.
Qed.

Lemma resume_keeps T j r token until :
  jobs_ok T -> t_jobs T !! j_id j = Some j -> j_state j = JPending -> open_run T r -> jobId r = j_id j ->
  jobs_ok (with_job (set_nextRunTrigger None (set_runCount (number r) (set_j_state JRunning j)))
    (with_run (set_leaseUntil (Some until) (set_leaseToken (Some token) r)) T)).
Proof.
  intros Hok Hj Hst Ho Hid. pose proof (open_latest _ _ _ Hok Hj Ho Hid) as [Hrun Hn]. pose proof Ho as [Hr Hrs].
  pose proof (jo_job _ Hok _ _ Hj) as Hk. set (r' := set_leaseUntil _ _). set (j' := set_nextRunTrigger _ _).
  apply (with_both_ok T j _ r _ false); [done..|]. apply (update_ok T j); try done.
  - pose proof (jk_runs _ _ _ Hk _ Hrun) as Hro. unfold run_ok in *. cbn. by rewrite Hrs in *.
  - intros _. split; [by cbn|left]. cbn. split_and!; [done|by eexists..].
  - cbn. rewrite Hrs. intros Hl. unfold state_ok. cbn. split; [|done].
    pose proof (jk_state _ _ _ Hk) as Hs. unfold state_ok in Hs. rewrite Hst in Hs. apply Hs.
  - by left.
  - cbn. by rewrite Hrs.
Qed.

Lemma open_unsettled T j r :
  jobs_ok T -> t_jobs T !! j_id j = Some j -> open_run T r -> jobId r = j_id j ->
  isTerminal (j_state j) = false /\ unsettled j.
Proof.
  intros Hok Hj Ho Hid. pose proof (open_latest _ _ _ Hok Hj Ho Hid) as [Hrun Hn]. destruct Ho as [Hr Hrs].
  pose proof (jo_job _ Hok _ _ Hj) as Hk. pose proof (jk_state _ _ _ Hk) as Hs. unfold state_ok in Hs.
  destruct (jk_open _ _ _ Hk _ Hrun Hrs) as [_ [[E _]|[E _]]]; rewrite E in *; (split; [done|apply Hs]).
Qed.

Lemma sleep_keeps T j r at_ :
  jobs_ok T -> t_jobs T !! j_id j = Some j -> open_run T r -> jobId r = j_id j ->
  jobs_ok (with_job (set_nextRunTrigger None (set_nextRunAt at_ (set_j_state JPending j)))
    (with_run (set_leaseUntil None (set_leaseToken None r)) T)).
Proof.
  intros Hok Hj Ho Hid. pose proof (open_latest _ _ _ Hok Hj Ho Hid) as [Hrun Hn].
  destruct (open_unsettled _ _ _ Hok Hj Ho Hid) as [_ Hu]. pose proof Ho as [Hr Hrs].
  pose proof (jo_job _ Hok _ _ Hj) as Hk. set (r' := set_leaseUntil _ _). set (j' := set_nextRunTrigger _ _).
  apply (with_both_ok T j _ r _ false); [done..|]. apply (update_ok T j); try done.
  - pose proof (jk_runs _ _ _ Hk _ Hrun) as Hro. unfold run_ok in *. cbn. by rewrite Hrs in *.
  - intros _. split; [by cbn|right]. by cbn.
  - cbn. rewrite Hrs. intros Hl. unfold state_ok. cbn. split; [done|]. by intros _ _.
  - by left.
  - cbn. by rewrite Hrs.
Qed.

Lemma job_settle_keeps T j r o code text t (wrote : bool) :
  jobs_ok T -> t_jobs T !! j_id j = Some j -> open_run T r -> jobId r = j_id j ->
  (match o with OutcomeCompleted _ => mutation_kind j <-> wrote = true | _ => wrote = false end) ->
  jobs_ok (with_job (settled_job o t j) (with_run (settled_run o code text t (retentionStamp (definitions !! j_name j) (outcome_state o) t) r)
    (if wrote then with_effect (j_id j, number r) T else T))).
Proof.
  intros Hok Hj Ho Hid Hw. pose proof (open_latest _ _ _ Hok Hj Ho Hid) as [Hrun Hn]. pose proof Ho as [Hr Hrs].
  set (r' := settled_run _ _ _ _ _ _). set (j' := settled_job _ _ _).
  assert (Hrs' : r_state r' = outcome_run_state o) by done.
  apply (with_both_ok T j _ r _ wrote); [done..|]. apply (update_ok T j); try done.
  - unfold run_ok. rewrite Hrs'. pose proof (jk_runs _ _ _ (jo_job _ Hok _ _ Hj) _ Hrun) as Hro. unfold run_ok in Hro. rewrite Hrs in Hro.
    destruct o; cbn; split_and!; solve [done|by eexists].
  - rewrite Hrs'. by destruct o.
  - rewrite Hrs'. intros Hl. unfold state_ok. cbn. assert (stamped j') by (exists t; by split).
    by destruct o.
  - destruct wrote; [right|by left]. split; [done|]. rewrite Hrs'. by destruct o.
  - rewrite Hrs'. destruct o; [|done..]. intros _ Hk. apply Hw in Hk. subst wrote. cbn. apply elem_of_app. right. left.
Qed.

Lemma retry_keeps T j r code text t stamp delay :
  jobs_ok T -> t_jobs T !! j_id j = Some j -> open_run T r -> jobId r = j_id j ->
  jobs_ok (with_job (set_nextRunTrigger None (set_nextRunAt (t + delay) (set_j_state JRetrying j)))
    (with_run (failed_run code text t stamp r) T)).
Proof.
  intros Hok Hj Ho Hid. pose proof (open_latest _ _ _ Hok Hj Ho Hid) as [Hrun Hn].
  destruct (open_unsettled _ _ _ Hok Hj Ho Hid) as [_ Hu]. pose proof Ho as [Hr Hrs].
  pose proof (jo_job _ Hok _ _ Hj) as Hk. set (r' := failed_run _ _ _ _ _). set (j' := set_nextRunTrigger _ _).
  apply (with_both_ok T j _ r _ false); [done..|]. apply (update_ok T j); try done.
  - pose proof (jk_runs _ _ _ Hk _ Hrun) as Hro. unfold run_ok in *. rewrite Hrs in Hro. cbn. split_and!; [by eexists|apply Hro|done..].
  - by left.
Qed.

Lemma end_keeps T j t :
  jobs_ok T -> t_jobs T !! j_id j = Some j -> isTerminal (j_state j) = false -> no_open_run T (j_id j) ->
  jobs_ok (with_job (settled_job OutcomeCanceled t j) T).
Proof.
  intros Hok Hj Ht Hno. apply (with_job_ok _ j); [done..|]. apply (edit_ok _ j); [done..| |].
  - intros r Hr Hst. by destruct (no_open_terminal T j r Hno Hr).
  - intros _. unfold state_ok. cbn. exists t. by split.
Qed.

Lemma sweep_keeps T r j :
  jobs_ok T -> t_runs T !! r_id r = Some r -> t_jobs T !! jobId r = Some j -> number r <> runCount j ->
  jobs_ok (MkTables (t_jobs T) (delete (r_id r) (t_runs T)) (t_nextJob T) (t_nextRun T) (t_effects T)).
Proof.
  intros Hok Hr Hj Hn. pose proof (jo_ids _ Hok _ _ Hj) as [Hid _].
  assert (Hjj : t_jobs T !! j_id j = Some j) by congruence.
  assert (HT : t_jobs T = <[j_id j := j]> (t_jobs T)) by (symmetry; by apply insert_id).
  apply (touch_ok T _ (j_id j) j); cbn; try done.
  - apply (jo_ids _ Hok _ _ Hjj).
  - intros i x Hx. rewrite lookup_delete_Some. split; [intros Hl; split; [|done]; intros <-; congruence|by intros [_ ?]].
  - intros i x Hx. rewrite lookup_delete_Some. intros [_ Hl]. by apply (jo_run_ids _ Hok).
  - by left.
  - assert (Hup : forall x, run_of (delete (r_id r) (t_runs T)) j x -> run_of (t_runs T) j x).
    { intros x (i & Hl & Hx). apply lookup_delete_Some in Hl as [_ Hl]. by exists i. }
    assert (Hlat : forall x, latest (t_runs T) j x -> latest (delete (r_id r) (t_runs T)) j x).
    { intros x [(i & Hl & Hx) Hc]. split; [|done]. exists i. split; [|done].
      rewrite lookup_delete_ne; [done|]. intros <-. congruence. }
    pose proof (jo_job _ Hok _ _ Hjj) as [H1 H2 H3 H4 H5 H6 H7 H8 H9]. split; auto.
    + intros Hc. destruct (H4 Hc) as (x & Hx). exists x. auto.
    + assert (Hin : forall st, latest_in (t_runs T) j st -> latest_in (delete (r_id r) (t_runs T)) j st)
        by (intros st (x & ? & ?); exists x; auto).
      unfold state_ok in *. destruct (j_state j); naive_solver.
    + intros n Hin. destruct (H8 n Hin) as [? ?]. split; [done|]. auto.
Qed.

Lemma delete_keeps T id :
  jobs_ok T -> jobs_ok (MkTables (delete id (t_jobs T)) (filter (fun '(_, r) => jobId r <> id) (t_runs T)) (t_nextJob T) (t_nextRun T) (t_effects T)).
Proof.
  intros [Hi Hri Hp Hj Ho He]. split; cbn; [| | | |done|done].
  - intros i j [_ Hl]%lookup_delete_Some. by apply Hi.
  - intros i r [Hl _]%map_lookup_filter_Some. by apply Hri.
  - intros i r [Hl Hne]%map_lookup_filter_Some. rewrite lookup_delete_ne by done. by eapply Hp.
  - intros i j [Hne Hl]%lookup_delete_Some. eapply job_ok_frame; [| |by eapply Hj]; [|done].
    intros k r Hjr. destruct (Hi _ _ Hl) as [Hid _]. rewrite map_lookup_filter_Some. split; [|by intros []].
    intros Hk. split; [done|]. congruence.
Qed.

Theorem jstep_keeps_jobs_ok T T' : jobs_ok T -> jstep T T' -> jobs_ok T'.
Proof.
  intros Hok [Hs|[Hs|[id Hs]]]; destruct Hs.
  - by apply admit_keeps.
  - by eapply edit_keeps.
  - by apply journal_keeps.
  - by apply sleep_keeps.
  - by apply job_settle_keeps.
  - by apply retry_keeps.
  - by apply end_keeps.
  - by eapply sweep_keeps.
  - by apply delete_keeps.
  - by apply claim_open_keeps.
  - by apply resume_keeps.
  - by apply reopen_keeps.
  - by apply restamp_keeps.
Qed.

Definition empty_tables : Tables := MkTables ∅ ∅ 1 1 [].

Lemma empty_tables_ok : jobs_ok empty_tables.
Proof. split; cbn; try (intros ?? Hl; by rewrite lookup_empty in Hl); [constructor|]. intros e He. set_solver. Qed.

Definition jsteps : Tables -> Tables -> Prop := rtc jcalm.
Definition jmoves : Tables -> Tables -> Prop := rtc jstep.

Lemma jmoves_ok T T' : jobs_ok T -> jmoves T T' -> jobs_ok T'.
Proof. intros Hok Hs. induction Hs; [done|]. eauto using jstep_keeps_jobs_ok. Qed.

Lemma jsteps_moves T T' : jsteps T T' -> jmoves T T'.
Proof. apply rtc_subrel. intros ?? Hs. by left. Qed.

Lemma reopening_moves id T T' : rtc (jreopen id) T T' -> jmoves T T'.
Proof. apply rtc_subrel. intros ?? Hs. right. right. by exists id. Qed.

Lemma jsteps_ok T T' : jobs_ok T -> jsteps T T' -> jobs_ok T'.
Proof. intros Hok Hs%jsteps_moves. by eapply jmoves_ok. Qed.

(** ** What steps never change *)

(** [T'] comes after [T]: keys are not used again, a settled run keeps what it
    records, a job keeps its identity, the effects stay. *)
Record evolves (T T' : Tables) : Prop := {
  ev_nextJob : t_nextJob T <= t_nextJob T';
  ev_nextRun : t_nextRun T <= t_nextRun T';
  ev_runs : forall i r', t_runs T' !! i = Some r' -> i < t_nextRun T ->
    exists r, t_runs T !! i = Some r /\ jobId r' = jobId r /\ number r' = number r /\ r_trigger r' = r_trigger r /\
      startedAt r' = startedAt r /\ (r_state r <> RRunning -> r' = set_r_deleteAfter (r_deleteAfter r') r);
  ev_jobs : forall i j', t_jobs T' !! i = Some j' -> i < t_nextJob T ->
    exists j, t_jobs T !! i = Some j /\ j_name j' = j_name j /\ j_trigger j' = j_trigger j /\ parentJobId j' = parentJobId j /\
      j_scheduledAt j' = j_scheduledAt j /\ runCount j <= runCount j';
  ev_effects : t_effects T `prefix_of` t_effects T';
}.

Lemma evolves_refl T : evolves T T.
Proof.
  split; try done.
  - intros i r Hl _. exists r. split_and!; try done. by destruct r.
  - intros i j Hl _. exists j. split_and!; try done; lia.
Qed.

Lemma evolves_trans T1 T2 T3 : evolves T1 T2 -> evolves T2 T3 -> evolves T1 T3.
Proof.
  intros [A1 A2 A3 A4 A5] [B1 B2 B3 B4 B5]. split; [lia|lia| | |by etransitivity].
  - intros i r3 Hl Hi. destruct (B3 _ _ Hl ltac:(lia)) as (r2 & Hl2 & ? & ? & ? & ? & Hf2).
    destruct (A3 _ _ Hl2 Hi) as (r1 & Hl1 & ? & ? & ? & ? & Hf1). exists r1. split_and!; try congruence.
    intros Hs. specialize (Hf1 Hs). rewrite Hf2; [|by rewrite Hf1]. rewrite Hf1. by destruct r1.
  - intros i j3 Hl Hi. destruct (B4 _ _ Hl ltac:(lia)) as (j2 & Hl2 & ? & ? & ? & ? & ?).
    destruct (A4 _ _ Hl2 Hi) as (j1 & Hl1 & ? & ? & ? & ? & ?). exists j1. split_and!; try congruence. lia.
Qed.

Definition same_job (j j' : JobRow) : Prop :=
  j_name j' = j_name j /\ j_trigger j' = j_trigger j /\ parentJobId j' = parentJobId j /\ j_scheduledAt j' = j_scheduledAt j /\ runCount j <= runCount j'.

Definition same_run (r r' : JobRunRow) : Prop :=
  jobId r' = jobId r /\ number r' = number r /\ r_trigger r' = r_trigger r /\ startedAt r' = startedAt r /\
  (r_state r <> RRunning -> r' = set_r_deleteAfter (r_deleteAfter r') r).

Lemma same_job_refl j : same_job j j.
Proof. by split_and!; try done; lia. Qed.
Lemma same_run_refl r : same_run r r.
Proof. split_and!; try done. by destruct r. Qed.

(** A step that changes at most one job and one run of the tables it finds. *)
Lemma evolves_one T T' :
  t_nextJob T <= t_nextJob T' -> t_nextRun T <= t_nextRun T' -> t_effects T `prefix_of` t_effects T' ->
  (forall i j', t_jobs T' !! i = Some j' -> t_nextJob T <= i \/ exists j, t_jobs T !! i = Some j /\ same_job j j') ->
  (forall i r', t_runs T' !! i = Some r' -> t_nextRun T <= i \/ exists r, t_runs T !! i = Some r /\ same_run r r') ->
  evolves T T'.
Proof.
  intros H1 H2 H3 Hj Hr. split; [done|done| | |done].
  - intros i r' Hl Hi. destruct (Hr _ _ Hl) as [?|(r & ? & ?)]; [lia|]. by exists r.
  - intros i j' Hl Hi. destruct (Hj _ _ Hl) as [?|(j & ? & ?)]; [lia|]. by exists j.
Qed.

Lemma insert_same_job (m : gmap Z JobRow) j j' i x :
  m !! j_id j' = Some j -> same_job j j' -> <[j_id j' := j']> m !! i = Some x -> exists y, m !! i = Some y /\ same_job y x.
Proof.
  intros Hj Hs [[<- <-]|[_ Hl]]%lookup_insert_Some; [by exists j|]. exists x. split; [done|apply same_job_refl].
Qed.

Lemma insert_same_run (m : gmap Z JobRunRow) r r' i x :
  m !! r_id r' = Some r -> same_run r r' -> <[r_id r' := r']> m !! i = Some x -> exists y, m !! i = Some y /\ same_run y x.
Proof.
  intros Hj Hs [[<- <-]|[_ Hl]]%lookup_insert_Some; [by exists r|]. exists x. split; [done|apply same_run_refl].
Qed.

Lemma edited_same j j' : edited j j' -> j_id j' = j_id j /\ same_job j j'.
Proof. intros E. rewrite E. by split_and!. Qed.

Ltac touched H a := match goal with |- <[_ := ?b]> _ !! _ = Some _ -> _ => apply (H a b) end.

Lemma jstep_evolves T T' : jobs_ok T -> jstep T T' -> evolves T T'.
Proof.
  intros Hok Hs.
  assert (Hkeep : forall i r', t_runs T !! i = Some r' -> t_nextRun T <= i \/ exists r, t_runs T !! i = Some r /\ same_run r r')
    by (intros i r' ?; right; exists r'; split; [done|apply same_run_refl]).
  assert (Hkeepj : forall i j', t_jobs T !! i = Some j' -> t_nextJob T <= i \/ exists j, t_jobs T !! i = Some j /\ same_job j j')
    by (intros i j' ?; right; exists j'; split; [done|apply same_job_refl]).
  assert (Hj1 : forall j j' i x, t_jobs T !! j_id j = Some j -> j_id j' = j_id j -> same_job j j' -> <[j_id j' := j']> (t_jobs T) !! i = Some x ->
    t_nextJob T <= i \/ exists y, t_jobs T !! i = Some y /\ same_job y x)
    by (intros j j' i x Hj Hid ??; right; eapply (insert_same_job _ j j'); [by rewrite Hid|done..]).
  assert (Hr1 : forall r r' i x, t_runs T !! r_id r = Some r -> r_id r' = r_id r -> same_run r r' -> <[r_id r' := r']> (t_runs T) !! i = Some x ->
    t_nextRun T <= i \/ exists y, t_runs T !! i = Some y /\ same_run y x)
    by (intros r r' i x Hr Hid ??; right; eapply (insert_same_run _ r r'); [by rewrite Hid|done..]).
  assert (Hsame : forall j j', j_name j' = j_name j -> j_trigger j' = j_trigger j -> parentJobId j' = parentJobId j ->
    j_scheduledAt j' = j_scheduledAt j -> runCount j' = runCount j -> same_job j j') by (intros; split_and!; try done; lia).
  assert (Hopen : forall r r', r_state r = RRunning -> jobId r' = jobId r -> number r' = number r -> r_trigger r' = r_trigger r ->
    startedAt r' = startedAt r -> same_run r r') by (intros; by split_and!).
  destruct Hs as [Hs|[Hs|[id Hs]]]; destruct Hs.
  all: apply evolves_one; cbn; try done; try lia.
  - intros i x [[<- <-]|[_ Hl]]%lookup_insert_Some; [by left|auto].
  - intros i x. touched Hj1 j; [done|by apply edited_same..].
  - intros i x. touched Hj1 j; [done|done|by apply Hsame].
  - intros i x. touched Hj1 j; [done|done|by apply Hsame].
  - intros i x. touched Hr1 r; [apply H0|done|by apply Hopen; [apply H0|..]].
  - by destruct wrote.
  - by destruct wrote.
  - destruct wrote; [by eexists|done].
  - destruct wrote; intros i x; (touched Hj1 j; [done|done|by apply Hsame]).
  - destruct wrote; intros i x; (touched Hr1 r; [apply H0|done|by apply Hopen; [apply H0|..]]).
  - intros i x. touched Hj1 j; [done|done|by apply Hsame].
  - intros i x. touched Hr1 r; [apply H0|done|by apply Hopen; [apply H0|..]].
  - intros i x. touched Hj1 j; [done|done|by apply Hsame].
  - intros i x [_ Hl]%lookup_delete_Some. auto.
  - intros i x [_ Hl]%lookup_delete_Some. auto.
  - intros i x [Hl _]%map_lookup_filter_Some. auto.
  - intros i x. touched Hj1 j; [done|done|]. split_and!; try done. cbn. lia.
  - intros i x [[<- <-]|[_ Hl]]%lookup_insert_Some; [by left|auto].
  - intros i x. touched Hj1 j; [done|done|]. apply Hsame; try done. by apply (open_latest _ _ _ Hok).
  - intros i x. touched Hr1 r; [apply H1|done|by apply Hopen; [apply H1|..]].
  - intros i x. touched Hj1 j; [done|done|by apply Hsame].
  - intros i x. touched Hr1 r; [done|done|by split_and!].
Qed.

Lemma jmoves_evolves T T' : jobs_ok T -> jmoves T T' -> evolves T T'.
Proof.
  intros Hok Hs. induction Hs as [|T1 T2 T3 H12 H23 IH]; [apply evolves_refl|].
  eapply evolves_trans; [by apply jstep_evolves|]. apply IH. by eapply jstep_keeps_jobs_ok.
Qed.

(** ** What stays settled *)

(** Until it is reopened, a settled job keeps its state, its times and its
    journal, and its settled runs keep everything, for as long as they are there. *)
Record settled_kept (reopened : Z -> Prop) (T T' : Tables) : Prop := {
  sk_jobs : forall id j j', ~ reopened id -> t_jobs T !! id = Some j -> isTerminal (j_state j) = true -> t_jobs T' !! id = Some j' -> edited j j';
  sk_runs : forall i r r', ~ reopened (jobId r) -> t_runs T !! i = Some r -> r_state r <> RRunning -> t_runs T' !! i = Some r' -> r' = r;
}.

Lemma edited_refl j : edited j j.
Proof. by destruct j. Qed.

Lemma edited_state j j' : edited j j' -> j_state j' = j_state j.
Proof. intros E. by rewrite E. Qed.

Lemma edited_trans j1 j2 j3 : edited j1 j2 -> edited j2 j3 -> edited j1 j3.
Proof. unfold edited. intros H1 H2. rewrite H2, H1. by destruct j1. Qed.

Lemma settled_kept_refl P T : settled_kept P T T.
Proof.
  split.
  - intros id j j' _ Hj _ Hj'. assert (j' = j) as -> by congruence. apply edited_refl.
  - intros i r r' _ Hr _ Hr'. congruence.
Qed.

Lemma settled_kept_trans P T1 T2 T3 : jobs_ok T1 -> evolves T1 T2 -> evolves T2 T3 ->
  settled_kept P T1 T2 -> settled_kept P T2 T3 -> settled_kept P T1 T3.
Proof.
  intros Hok E1 E2 [A1 A2] [B1 B2]. split.
  - intros id j j3 Hp Hj Ht Hj3. destruct (jo_ids _ Hok _ _ Hj) as [_ Hid]. pose proof (ev_nextJob _ _ E1).
    destruct (ev_jobs _ _ E2 _ _ Hj3 ltac:(lia)) as (j2 & Hj2 & _). specialize (A1 _ _ _ Hp Hj Ht Hj2).
    eapply edited_trans; [exact A1|]. eapply B1; [done|done| |done]. by rewrite (edited_state _ _ A1).
  - intros i r r3 Hp Hr Hs Hr3. destruct (jo_run_ids _ Hok _ _ Hr) as [_ Hid]. pose proof (ev_nextRun _ _ E1).
    destruct (ev_runs _ _ E2 _ _ Hr3 ltac:(lia)) as (r2 & Hr2 & _). assert (r2 = r) as -> by by eapply A2. by eapply B2.
Qed.

Lemma waiting_unsettled j : j_state j = JPending \/ j_state j = JRetrying -> isTerminal (j_state j) = false.
Proof. by intros [-> | ->]. Qed.

(** A step that changes no settled job, nor a settled run. *)
Lemma settled_kept_one (P : Z -> Prop) T T' :
  (forall id j j', ~ P id -> t_jobs T !! id = Some j -> t_jobs T' !! id = Some j' -> j' = j \/ isTerminal (j_state j) = false \/ edited j j') ->
  (forall i r r', ~ P (jobId r) -> t_runs T !! i = Some r -> t_runs T' !! i = Some r' -> r' = r \/ r_state r = RRunning) ->
  settled_kept P T T'.
Proof.
  intros Hj Hr. split.
  - intros id j j' Hp H Ht H'. destruct (Hj _ _ _ Hp H H') as [->|[?|?]]; [apply edited_refl|congruence|done].
  - intros i r r' Hp H Hs H'. by destruct (Hr _ _ _ Hp H H').
Qed.

Lemma jstep_settled_kept (P : Z -> Prop) T T' :
  jobs_ok T -> jcalm T T' \/ jclaim T T' \/ (exists id, P id /\ jreopen id T T') -> settled_kept P T T'.
Proof.
  intros Hok Hs.
  assert (Hjob : forall k x, (forall j, t_jobs T !! k = Some j -> x = j \/ isTerminal (j_state j) = false \/ edited j x) ->
    forall id j j', t_jobs T !! id = Some j -> <[k := x]> (t_jobs T) !! id = Some j' -> j' = j \/ isTerminal (j_state j) = false \/ edited j j').
  { intros k x Hx id j j' Hj [[<- <-]|[_ Hl]]%lookup_insert_Some; [by apply Hx|left; congruence]. }
  assert (Hrun : forall k x, (forall r, t_runs T !! k = Some r -> r_state r = RRunning) ->
    forall i r r', t_runs T !! i = Some r -> <[k := x]> (t_runs T) !! i = Some r' -> r' = r \/ r_state r = RRunning).
  { intros k x Hx i r r' Hr [[<- <-]|[_ Hl]]%lookup_insert_Some; [right; by apply Hx|left; congruence]. }
  assert (Hone : forall r, open_run T r -> forall r0, t_runs T !! r_id r = Some r0 -> r_state r0 = RRunning)
    by (intros r [Hr Hst] r0 Hr0; congruence).
  assert (Hlive : forall j, t_jobs T !! j_id j = Some j -> isTerminal (j_state j) = false -> forall x j0, t_jobs T !! j_id j = Some j0 ->
    x = j0 \/ isTerminal (j_state j0) = false \/ edited j0 x) by (intros j Hj Ht x j0 Hj0; right; left; congruence).
  assert (Hopen : forall j r, t_jobs T !! j_id j = Some j -> open_run T r -> jobId r = j_id j -> forall x j0, t_jobs T !! j_id j = Some j0 ->
    x = j0 \/ isTerminal (j_state j0) = false \/ edited j0 x) by (intros j r Hj Ho Hi; apply Hlive; [done|by eapply (open_unsettled T j r)]).
  destruct Hs as [Hs|[Hs|(id & Hp & Hs)]]; destruct Hs; apply settled_kept_one; cbn; intros i a b Ha;
    try (intros; left; congruence).
  - apply Hjob. intros j0 Hj0. destruct (jo_ids _ Hok _ _ Hj0) as [_ Hlt]. cbn in Hlt. lia.
  - apply Hjob. intros j0 Hj0. right. right. pose proof (proj1 (edited_same _ _ H1)) as E. rewrite E in Hj0. by assert (j0 = j) as -> by congruence.
  - apply Hjob. by apply Hlive.
  - apply Hjob. by eapply Hopen.
  - apply Hrun. by apply Hone.
  - destruct wrote; apply Hjob; by eapply Hopen.
  - destruct wrote; apply Hrun; by apply Hone.
  - apply Hjob. by eapply Hopen.
  - apply Hrun. by apply Hone.
  - apply Hjob. by apply Hlive.
  - intros H2 [_ H3]%lookup_delete_Some. left. congruence.
  - intros H2 [_ H3]%lookup_delete_Some. left. congruence.
  - intros H2 [H3 _]%map_lookup_filter_Some. left. congruence.
  - apply Hjob. apply Hlive; [done|by apply waiting_unsettled].
  - apply Hrun. intros r0 Hr0. destruct (jo_run_ids _ Hok _ _ Hr0) as [_ Hlt]. cbn in Hlt. lia.
  - apply Hjob. by eapply Hopen.
  - apply Hrun. by apply Hone.
  - intros Hj [[Hk <-]|[_ Hl]]%lookup_insert_Some; [|left; congruence]. destruct Ha. by subst.
  - intros Hj [[Hk <-]|[_ Hl]]%lookup_insert_Some; [|left; congruence]. destruct Ha. cbn in Hk. subst. by assert (a = r) as -> by congruence.
Qed.

(** ** The jobs that run *)

(** A job that runs after [T] did so before, under its name and its key. *)
Definition no_new_running (T T' : Tables) : Prop :=
  forall i j', t_jobs T' !! i = Some j' -> j_state j' = JRunning ->
    exists j, t_jobs T !! i = Some j /\ j_state j = JRunning /\ j_name j = j_name j' /\ j_key j = j_key j'.

#[export] Instance no_new_running_preorder : PreOrder no_new_running.
Proof.
  split.
  - intros T i j Hj Hst. by exists j.
  - intros T1 T2 T3 H12 H23 i j3 Hj Hst. destruct (H23 _ _ Hj Hst) as (j2 & Hj2 & Hst2 & ? & ?).
    destruct (H12 _ _ Hj2 Hst2) as (j1 & Hj1 & ? & ? & ?). exists j1. split_and!; congruence.
Qed.

Lemma jcalm_running T T' : jcalm T T' -> no_new_running T T'.
Proof.
  assert (Hsame : forall i j', t_jobs T !! i = Some j' -> j_state j' = JRunning ->
    exists j, t_jobs T !! i = Some j /\ j_state j = JRunning /\ j_name j = j_name j' /\ j_key j = j_key j') by (intros i j'; by exists j').
  assert (Hout : forall k x i j', j_state x <> JRunning -> <[k := x]> (t_jobs T) !! i = Some j' -> j_state j' = JRunning ->
    exists j, t_jobs T !! i = Some j /\ j_state j = JRunning /\ j_name j = j_name j' /\ j_key j = j_key j').
  { intros k x i j' Hx [[<- <-]|[_ Hl]]%lookup_insert_Some Hst; [done|auto]. }
  intros Hs. destruct Hs; intros i x; cbn; try (apply Hout; done); try exact (Hsame i x).
  - apply Hout. rewrite H1. exact H0.
  - intros [[<- <-]|[_ Hl]]%lookup_insert_Some Hst; [|auto]. by exists j.
  - destruct wrote; cbn; apply Hout; by destruct o.
  - intros [_ Hl]%lookup_delete_Some. auto.
Qed.

Lemma jreopen_running id T T' : jreopen id T T' -> no_new_running T T'.
Proof.
  intros [j t state trigger steps _ Hj _ Hst|r stamp _ _ _]; [|by intros i x Hx; exists x].
  intros i x. cbn. intros [[<- <-]|[_ Hl]]%lookup_insert_Some Hx; [|by exists x]. cbn in Hx. destruct Hst as [->|[-> _]]; done.
Qed.

Lemma reopening_running id T T' : rtc (jreopen id) T T' -> no_new_running T T'.
Proof. intros Hs. induction Hs as [|T1 T2 T3 H12 H23 IH]; [reflexivity|]. etransitivity; [by eapply jreopen_running|done]. Qed.

Lemma jsteps_running T T' : jsteps T T' -> no_new_running T T'.
Proof. intros Hs. induction Hs as [|T1 T2 T3 H12 H23 IH]; [reflexivity|]. etransitivity; [by apply jcalm_running|done]. Qed.
End spec.
