(* ===== verification/JobsProps.v ===== *)
(** The transactions of the job runner are sequences of steps of the machine of
    [JobsSpec]: settlement and the transitions of jobs, what application code does
    to the tables, the cascade of a deletion, recovery, claims, reaping; and the
    tokens of leases grow. *)
From stdpp Require Import sorting.
From S2P Require Import Prelude Errors Limits Effects Jobs JobsSpec.
Local Open Scope Z_scope.

Section refinement.
Context {rt : JobsRuntime}.

Abbreviation tx := (Effects.eff Store).

(** ** Transactions that return *)

(** If [m] returns, [Q] holds of what it returns and of the state then. *)
Definition wpr {A} (m : tx A) (Q : A -> Store -> Prop) (s : Store) : Prop := wp m (fun r s' => match r with Ret a => Q a s' | Throw _ => True end) s.

Lemma wpr_ret {A} (a : A) (Q : A -> Store -> Prop) s : Q a s -> wpr (mret a) Q s.
Proof. done. Qed.
Lemma wpr_throw {A} e (Q : A -> Store -> Prop) s : wpr (throw e) Q s.
Proof. done. Qed.
Lemma wpr_get {A} (f : Store -> A) (Q : A -> Store -> Prop) s : Q (f s) s -> wpr (get f) Q s.
Proof. done. Qed.
Lemma wpr_modify f (Q : unit -> Store -> Prop) s : Q tt (f s) -> wpr (modify f) Q s.
Proof. done. Qed.
Lemma wpr_bind {A B} (m : tx A) (k : A -> tx B) (Q : B -> Store -> Prop) s : wpr m (fun a => wpr (k a) Q) s -> wpr (m ≫= k) Q s.
Proof. unfold wpr, wp. rewrite run_bind. by destruct (m s) as [[a|e] s']. Qed.
Lemma wpr_lift {A} (m : exc js_error A) (Q : A -> Store -> Prop) s : (forall a, m = Ret a -> Q a s) -> wpr (lift m) Q s.
Proof. unfold wpr, wp, lift. destruct m; cbn; auto. Qed.
Lemma wpr_mono {A} (m : tx A) (P Q : A -> Store -> Prop) s : wpr m P s -> (forall a s', P a s' -> Q a s') -> wpr m Q s.
Proof. unfold wpr, wp. destruct (m s) as [[a|e] s']; cbn; auto. Qed.
Lemma wpr_run {A} (m : tx A) (Q : A -> Store -> Prop) s a s' : wpr m Q s -> m s = (Ret a, s') -> Q a s'.
Proof. unfold wpr, wp. intros H E. by rewrite E in H. Qed.

Lemma wpr_now (Q : Z -> Store -> Prop) s : (forall t s', tables s' = tables s -> Q t s') -> wpr now Q s.
Proof. intros H. by apply H. Qed.
Lemma wpr_lease_counter (Q : nat -> Store -> Prop) s : (forall n s', tables s' = tables s -> Q n s') -> wpr lease_counter Q s.
Proof. intros H. by apply H. Qed.

Lemma wpr_patch_job id f (Q : unit -> Store -> Prop) s :
  (forall j s', t_jobs (tables s) !! id = Some j ->
    tables s' = MkTables (<[id := f j]> (t_jobs (tables s))) (t_runs (tables s)) (t_nextJob (tables s)) (t_nextRun (tables s)) (t_effects (tables s)) -> Q tt s') ->
  wpr (patch_job id f) Q s.
Proof. intros H. unfold patch_job. apply wpr_bind, wpr_get. destruct (jobs s !! id) eqn:E; [|done]. apply wpr_modify. by eapply H. Qed.

Lemma wpr_patch_run id f (Q : unit -> Store -> Prop) s :
  (forall r s', t_runs (tables s) !! id = Some r ->
    tables s' = MkTables (t_jobs (tables s)) (<[id := f r]> (t_runs (tables s))) (t_nextJob (tables s)) (t_nextRun (tables s)) (t_effects (tables s)) -> Q tt s') ->
  wpr (patch_run id f) Q s.
Proof. intros H. unfold patch_run. apply wpr_bind, wpr_get. destruct (runs s !! id) eqn:E; [|done]. apply wpr_modify. by eapply H. Qed.

(** ** Queries *)

Lemma take_incl {A} n (l : list A) x : x ∈ take n l -> x ∈ l.
Proof. intros Hx. rewrite <-(take_drop n l). apply elem_of_app. by left. Qed.

Lemma job_rows_elem s j : j ∈ job_rows s <-> exists i, jobs s !! i = Some j.
Proof.
  unfold job_rows. rewrite list_elem_of_fmap. split.
  - intros ([i x] & -> & Hx). exists i. by apply elem_of_map_to_list.
  - intros [i Hi]. exists (i, j). split; [done|]. by apply elem_of_map_to_list.
Qed.

Lemma run_rows_elem s r : r ∈ run_rows s <-> exists i, runs s !! i = Some r.
Proof.
  unfold run_rows. rewrite list_elem_of_fmap. split.
  - intros ([i x] & -> & Hx). exists i. by apply elem_of_map_to_list.
  - intros [i Hi]. exists (i, r). split; [done|]. by apply elem_of_map_to_list.
Qed.

Lemma select_runs_elem w n s r : r ∈ select_runs w n s -> w r = true /\ exists i, runs s !! i = Some r.
Proof.
  unfold select_runs. intros Hr%take_incl. rewrite some_run_order_perm, list_elem_of_filter in Hr. destruct Hr as [Hw Hr]. split; [by apply Is_true_true|by apply run_rows_elem].
Qed.

Lemma byNumber_Some s job n r :
  jobs_ok (tables s) -> byNumber job n s = Some r -> t_runs (tables s) !! r_id r = Some r /\ jobId r = job /\ number r = n.
Proof.
  intros Hok Hb. unfold byNumber in Hb. destruct (select_runs _ 1 s) as [|x l] eqn:E; [done|]. injection Hb as ->.
  assert (Hr : r ∈ select_runs (fun r => bool_decide (jobId r = job) && bool_decide (number r = n)) 1 s) by (rewrite E; left).
  apply select_runs_elem in Hr as [Hw [i Hi]]. apply andb_true_iff in Hw as [H1%bool_decide_eq_true H2%bool_decide_eq_true].
  split_and!; [|done..]. by destruct (jo_run_ids _ Hok _ _ Hi) as [-> _].
Qed.

Lemma byNumber_None s job n r i : byNumber job n s = None -> runs s !! i = Some r -> jobId r = job -> number r <> n.
Proof.
  intros Hb Hi Hj Hn. unfold byNumber, select_runs in Hb.
  assert (Hin : r ∈ some_run_order (filter (fun r => bool_decide (jobId r = job) && bool_decide (number r = n)) (run_rows s))).
  { rewrite some_run_order_perm, list_elem_of_filter. split; [|apply run_rows_elem; by exists i].
    apply Is_true_true, andb_true_iff. by rewrite !bool_decide_eq_true. }
  destruct (some_run_order _); [by apply not_elem_of_nil in Hin|done].
Qed.

(** The latest run, when the job has one. *)
Lemma latest_run_spec s j :
  jobs_ok (tables s) -> t_jobs (tables s) !! j_id j = Some j ->
  wpr (latest_run j) (fun o s' => s' = s /\ match o with
    | Some r => t_runs (tables s) !! r_id r = Some r /\ jobId r = j_id j /\ number r = runCount j
    | None => runCount j = 0
    end) s.
Proof.
  intros Hok Hj. unfold latest_run. case_decide as Hc; [by apply wpr_ret|]. apply wpr_get. split; [done|].
  destruct (byNumber (j_id j) (runCount j) s) as [r|] eqn:E; [by apply (byNumber_Some _ _ _ _ Hok)|].
  pose proof (jo_job _ Hok _ _ Hj) as Hk. pose proof (jk_count _ _ _ Hk).
  destruct (jk_latest _ _ _ Hk ltac:(lia)) as (r & (i & Hi & Hid) & Hn). exfalso.
  by apply (byNumber_None _ _ _ _ _ E Hi Hid).
Qed.

(** Without a latest run that is open, no run of the job is. *)
Lemma no_open_of_latest T j :
  jobs_ok T -> t_jobs T !! j_id j = Some j ->
  (forall r, latest (t_runs T) j r -> r_state r <> RRunning) -> no_open_run T (j_id j).
Proof.
  intros Hok Hj Hl i r Hi Hid Hst. pose proof (jo_job _ Hok _ _ Hj) as Hk.
  assert (Hrun : run_of (t_runs T) j r) by (by exists i). apply (Hl r); [|done].
  split; [done|]. apply (jk_open _ _ _ Hk _ Hrun Hst).
Qed.

(** ** Settlement *)

Lemma insertJob_steps name json hash key at_ t trigger parent s :
  wpr (insertJob name json hash key at_ t trigger parent) (fun _ s' => jcalm (tables s) (tables s')) s.
Proof. unfold wpr, wp. cbn. apply (step_admit (tables s)). Qed.

Lemma mintRepeat_steps job t s : wpr (mintRepeat job t) (fun _ s' => jsteps (tables s) (tables s')) s.
Proof.
  unfold mintRepeat. destruct (_ ≫= repeat) as [rule|]; [|by apply wpr_ret].
  destruct (rule _ _) as [[[at_|]|]|]; try by apply wpr_ret.
  apply wpr_bind, wpr_get. destruct (liveFor _ _ _); [by apply wpr_ret|].
  apply wpr_bind. eapply wpr_mono; [apply insertJob_steps|]. intros ? s1 Hs1. apply wpr_ret. by apply rtc_once.
Qed.

Lemma settleJobIn_open s job j r o :
  j_id j = j_id job -> t_jobs (tables s) !! j_id job = Some j -> j_name j = j_name job -> open_run (tables s) r ->
  wpr (settleJobIn job (Some r) o) (fun _ s' => exists t code text,
    jsteps (with_job (settled_job o t j) (with_run (settled_run o code text t (retentionStamp (definitions !! j_name j) (outcome_state o) t) r) (tables s))) (tables s')) s.
Proof.
  intros Hid Hj Hname [Hr Hst]. unfold settleJobIn. apply wpr_bind, wpr_now. intros t s1 E1. rewrite decide_True by done.
  apply wpr_bind, wpr_patch_run. intros r0 s2 Hr0 E2. rewrite E1 in Hr0, E2. assert (r0 = r) as -> by congruence.
  apply wpr_bind, wpr_patch_job. intros j0 s3 Hj0 E3. rewrite E2 in Hj0, E3. cbn [t_jobs t_runs t_nextJob t_nextRun t_effects] in Hj0, E3. assert (j0 = j) as -> by congruence.
  eapply wpr_mono; [apply mintRepeat_steps|]. intros ? s4 Hs. exists t. do 2 eexists.
  rewrite E3 in Hs. unfold with_job, with_run, settled_job. cbn [t_jobs t_runs t_nextJob t_nextRun t_effects]. rewrite Hname. change (j_id (set_j_deleteAfter _ _)) with (j_id j). rewrite Hid. exact Hs.
Qed.

Lemma settleJobIn_end s job j :
  jobs_ok (tables s) -> t_jobs (tables s) !! j_id job = Some j -> j_name j = j_name job ->
  forall run, (forall r, run = Some r -> r_state r <> RRunning) ->
  wpr (settleJobIn job run OutcomeCanceled) (fun _ s' => exists t, jsteps (with_job (settled_job OutcomeCanceled t j) (tables s)) (tables s')) s.
Proof.
  intros Hok Hj Hname run Hrun. destruct (jo_ids _ Hok _ _ Hj) as [Hid _].
  unfold settleJobIn. apply wpr_bind, wpr_now. intros t s1 E1. apply wpr_bind.
  assert (Hrest : wpr (_ ← patch_job (j_id job) (fun j =>
        set_j_deleteAfter (retentionStamp (definitions !! j_name job) JCanceled t) (set_j_settledAt (Some t) (set_nextRunTrigger None (set_j_state JCanceled j))));
      mintRepeat job t) (fun _ s' => exists t, jsteps (with_job (settled_job OutcomeCanceled t j) (tables s)) (tables s')) s1).
  { apply wpr_bind, wpr_patch_job. intros j0 s3 Hj0 E3. rewrite E1 in Hj0, E3. assert (j0 = j) as -> by congruence.
    eapply wpr_mono; [apply mintRepeat_steps|]. intros ? s4 Hs. exists t. rewrite E3 in Hs.
    unfold with_job, settled_job. cbn. rewrite Hid, Hname. exact Hs. }
  destruct run as [r|]; [|exact Hrest]. rewrite decide_False by auto. exact Hrest.
Qed.

Lemma retry_delay_nonneg d n e delay : retry_delay d n e = Some delay -> 0 <= delay.
Proof. unfold retry_delay. repeat case_match; try done. intros [= <-]. lia. Qed.

Lemma settleFailureIn_steps s job j r e :
  jobs_ok (tables s) -> t_jobs (tables s) !! j_id job = Some j -> j_name j = j_name job -> open_run (tables s) r -> jobId r = j_id job ->
  wpr (settleFailureIn job r e) (fun _ s' => jsteps (tables s) (tables s')) s.
Proof.
  intros Hok Hj Hname Ho Hjid. destruct (jo_ids _ Hok _ _ Hj) as [Hid _]. pose proof Ho as [Hr _].
  assert (Hjj : t_jobs (tables s) !! j_id j = Some j) by congruence.
  unfold settleFailureIn. apply wpr_bind, wpr_now. intros t s1 E1. destruct (retry_delay _ _ _) as [delay|] eqn:Hd.
  - apply retry_delay_nonneg in Hd.
    apply wpr_bind, wpr_patch_run. intros r0 s2 Hr0 E2. rewrite E1 in Hr0, E2. assert (r0 = r) as -> by congruence.
    apply wpr_bind, wpr_patch_job. intros j0 s3 Hj0 E3. rewrite E2 in Hj0, E3. cbn [t_jobs t_runs t_nextJob t_nextRun t_effects] in Hj0, E3. assert (j0 = j) as -> by congruence.
    apply wpr_ret. apply rtc_once. rewrite E3.
    pose proof (step_retry (tables s) j r (outcomeFromError e) (describeError e) t (window (plain_retention (definitions !! j_name job)) t) delay Hjj Ho ltac:(congruence) Hd) as Hs.
    unfold with_job, with_run in Hs. cbn in Hs. rewrite Hid in Hs. exact Hs.
  - apply wpr_bind. rewrite <-E1 in Hok, Hj, Ho, Hjj. eapply wpr_mono; [by eapply settleJobIn_open|].
    intros ? s2 (t' & code & text & Hs). apply wpr_ret. eapply rtc_l; [|exact Hs]. rewrite <-E1.
    apply (step_settle (tables s1) j r (OutcomeFailed e) code text t' false); [done|done|congruence|done].
Qed.

Lemma settleSuccessIn_steps s job j r encoded :
  jobs_ok (tables s) -> t_jobs (tables s) !! j_id job = Some j -> j_name j = j_name job -> open_run (tables s) r -> jobId r = j_id job ->
  ~ mutation_kind j ->
  wpr (settleSuccessIn job r encoded) (fun _ s' => jsteps (tables s) (tables s')) s.
Proof.
  intros Hok Hj Hname Ho Hjid Hk. destruct (jo_ids _ Hok _ _ Hj) as [Hid _].
  destruct encoded as [output|e]; [|by eapply settleFailureIn_steps].
  unfold settleSuccessIn. apply wpr_bind. eapply wpr_mono; [by eapply settleJobIn_open|].
  intros ? s2 (t' & code & text & Hs). apply wpr_ret. eapply rtc_l; [|exact Hs].
  apply (step_settle (tables s) j r (OutcomeCompleted output) code text t' false); [congruence|done|congruence|].
  split; [done|discriminate].
Qed.

(** ** The transitions *)

Lemma requireJob_wpr id (Q : JobRow -> Store -> Prop) s :
  (forall j, jobs_ok (tables s) -> t_jobs (tables s) !! id = Some j -> j_id j = id -> Q j s) -> jobs_ok (tables s) -> wpr (requireJob id) Q s.
Proof.
  intros H Hok. unfold requireJob. apply wpr_bind, wpr_get. destruct (jobs s !! id) as [j|] eqn:E.
  - apply wpr_ret, H; [done|done|]. by destruct (jo_ids _ Hok _ _ E).
  - apply wpr_lift. unfold throw_AckerDBError. by intros a.
Qed.

Lemma cancel_steps id s : jobs_ok (tables s) -> wpr (cancel id) (fun _ s' => jsteps (tables s) (tables s')) s.
Proof.
  intros Hok. unfold cancel. apply wpr_bind, requireJob_wpr; [|done]. intros j _ Hj Hid.
  destruct (isTerminal (j_state j)) eqn:Ht; [by apply wpr_ret|].
  assert (Hjj : t_jobs (tables s) !! j_id j = Some j) by congruence.
  apply wpr_bind. eapply wpr_mono; [by apply latest_run_spec|]. intros o s1 [-> Ho]. apply wpr_bind.
  destruct (decide (r_state <$> o = Some RRunning)) as [Hst|Hno].
  - destruct o as [r|]; [|done]. injection Hst as Hst. destruct Ho as (Hr & Hjid & Hn). eapply wpr_mono; [apply (settleJobIn_open s j j r); done|].
    intros ? s2 (t & code & text & Hs). apply wpr_ret. eapply rtc_l; [|exact Hs].
    by apply (step_settle (tables s) j r OutcomeCanceled code text t false).
  - eapply wpr_mono; [apply (settleJobIn_end s j j); try done|].
    + intros r -> Hst. apply Hno. cbn. by rewrite Hst.
    + intros ? s2 (t & Hs). apply wpr_ret. eapply rtc_l; [|exact Hs]. apply step_end; [done|done|].
      apply no_open_of_latest; [done|done|]. intros r [Hrun Hn] Hst. destruct o as [r'|].
      * destruct Ho as (Hr' & Hjid & Hn'). assert (r = r') as ->.
        { eapply same_number; [done|done|done|by apply run_of_stored|congruence]. }
        apply Hno. cbn. by rewrite Hst.
      * pose proof (jk_numbers _ _ _ (jo_job _ Hok _ _ Hj) _ Hrun). lia.
Qed.

Lemma reopen_steps s j state trigger steps :
  jobs_ok (tables s) -> t_jobs (tables s) !! j_id j = Some j -> isTerminal (j_state j) = true ->
  (state = JPending \/ (state = JRetrying /\ j_state j = JFailed)) ->
  wpr (reopen j state trigger steps) (fun _ s' => rtc (jreopen (j_id j)) (tables s) (tables s')) s.
Proof.
  intros Hok Hj Ht Hst. unfold reopen. apply wpr_bind, wpr_now. intros t s1 E1. rewrite <-E1 in Hok, Hj.
  apply wpr_bind. eapply wpr_mono; [by apply latest_run_spec|]. intros o s2 [-> Ho].
  assert (Hend : forall s2 j', t_jobs (tables s2) !! j_id j = Some j' -> j' = j -> rtc (jreopen (j_id j)) (tables s) (tables s2) ->
    wpr (patch_job (j_id j) (fun j =>
      set_j_deleteAfter None (set_j_settledAt None (set_nextRunAt t
      (match steps with Some _ => set_stepsJson steps | None => id end
      (set_nextRunTrigger (Some trigger) (set_j_state state j))))))) (fun _ s' => rtc (jreopen (j_id j)) (tables s) (tables s')) s2).
  { intros s3 j' Hj' -> Hs. apply wpr_patch_job. intros j0 s4 Hj0 E4. assert (j0 = j) as -> by congruence.
    eapply rtc_r; [exact Hs|]. rewrite E4.
    pose proof (step_reopen (j_id j) (tables s3) j t state trigger (match steps with Some _ => steps | None => stepsJson j end) eq_refl Hj' Ht Hst) as Hstep.
    destruct steps; exact Hstep. }
  apply wpr_bind. destruct o as [r|]; [|apply wpr_ret; eapply Hend; [done|done|by rewrite E1]].
  destruct (r_settledAt r) as [at_|] eqn:Hs; [|apply wpr_ret; eapply Hend; [done|done|by rewrite E1]].
  apply wpr_patch_run. intros r0 s3 Hr0 E3. destruct Ho as (Hr & Hjid & Hn). assert (r0 = r) as -> by congruence.
  eapply Hend; [by rewrite E3|done|]. rewrite <-E1. apply rtc_once. rewrite E3.
  apply (step_restamp (j_id j) (tables s1) r); [done|done|]. intros Hst'.
  pose proof (jk_runs _ _ _ (jo_job _ Hok _ _ Hj) r ltac:(by apply run_of_stored)) as Hro. unfold run_ok in Hro. rewrite Hst' in Hro. destruct Hro; congruence.
Qed.

Lemma conflict_wpr {A} message (Q : A -> Store -> Prop) s : wpr (conflict_error message) Q s.
Proof. unfold conflict_error. apply wpr_lift. unfold throw_AckerDBError. by intros a. Qed.

Lemma retry_job_steps id s : jobs_ok (tables s) -> wpr (retry_job id) (fun _ s' => rtc (jreopen id) (tables s) (tables s')) s.
Proof.
  intros Hok. unfold retry_job. apply wpr_bind, requireJob_wpr; [|done]. intros j _ Hj Hid.
  case_decide as Hf; [|apply conflict_wpr]. rewrite <-Hid; apply reopen_steps; [done|congruence|by rewrite Hf|right; done].
Qed.

Lemma forceRunAgain_steps id s : jobs_ok (tables s) -> wpr (forceRunAgain id) (fun _ s' => rtc (jreopen id) (tables s) (tables s')) s.
Proof.
  intros Hok. unfold forceRunAgain. apply wpr_bind, requireJob_wpr; [|done]. intros j _ Hj Hid.
  destruct (isTerminal (j_state j)) eqn:Ht; [|apply conflict_wpr]. rewrite <-Hid; apply reopen_steps; [done|congruence|done|by left].
Qed.

Lemma reschedule_steps id at_ s : jobs_ok (tables s) -> wpr (reschedule id at_) (fun _ s' => jsteps (tables s) (tables s')) s.
Proof.
  intros Hok. unfold reschedule. destruct at_ as [at_|]; [|apply wpr_throw].
  apply wpr_bind, requireJob_wpr; [|done]. intros j _ Hj Hid. case_decide as Hst; [|apply conflict_wpr].
  apply wpr_patch_job. intros j0 s' Hj0 E. assert (j0 = j) as -> by congruence. apply rtc_once. rewrite E, <-Hid.
  apply (step_edit (tables s) j (set_nextRunAt at_ j)); [congruence|destruct Hst; congruence|by destruct j].
Qed.

(** ** What application code does *)

(** Application code leaves runs, effects and the jobs that run alone. *)
Record app_frame (s s' : Store) : Prop := {
  af_steps : jsteps (tables s) (tables s');
  af_runs : t_runs (tables s') = t_runs (tables s);
  af_effects : t_effects (tables s') = t_effects (tables s);
  af_running : forall i j, t_jobs (tables s) !! i = Some j -> j_state j = JRunning -> t_jobs (tables s') !! i = Some j;
}.

Lemma app_frame_same s s' : tables s' = tables s -> app_frame s s'.
Proof. intros E. split; rewrite E; done. Qed.

Lemma app_frame_trans s s1 s2 : app_frame s s1 -> app_frame s1 s2 -> app_frame s s2.
Proof. intros [] []. split; [by etransitivity|congruence|congruence|auto]. Qed.

Lemma insertJob_frame name json hash key at_ t trigger parent s :
  jobs_ok (tables s) -> wp (insertJob name json hash key at_ t trigger parent) (fun _ s' => app_frame s s') s.
Proof.
  intros Hok. unfold wp. split; [|done|done|].
  - apply rtc_once. pose proof (insertJob_steps name json hash key at_ t trigger parent s) as H. exact H.
  - intros i j Hi Hst. cbn. rewrite lookup_insert_ne; [done|]. apply (jo_ids _ Hok) in Hi as [_ Hi]. cbn in Hi. lia.
Qed.

Lemma wp_now_frame {A} (k : Z -> tx A) (Q : exc js_error A -> Store -> Prop) s :
  (forall t s1, tables s1 = tables s -> wp (k t) Q s1) -> wp (now ≫= k) Q s.
Proof. intros H. apply wp_bind. by apply H. Qed.

Lemma enqueueWith_frame name args options trigger s :
  jobs_ok (tables s) -> wp (enqueueWith name args options trigger) (fun _ s' => app_frame s s') s.
Proof.
  intros Hok. unfold enqueueWith. assert (Hsame : app_frame s s) by by apply app_frame_same.
  apply wp_bind, wp_lift. destruct (definition_of name) as [d|]; [|done].
  apply wp_bind, wp_lift. destruct (d_validate d args) as [v|]; [|done].
  apply wp_bind, wp_lift. destruct (stableEncode v) as [json|]; [|done].
  apply wp_now_frame. intros t s1 E1. assert (Hs1 : app_frame s s1) by by apply app_frame_same.
  assert (Hrest : forall existing : option JobRow, wp (match existing with
      | Some j => mret (MkHandle (j_id j) true)
      | None => match enqueue_at options t with
        | NonFinite => throw (ValidationError ("jobs." +:+ name +:+ ": enqueue at/delayMs must be finite milliseconds"))
        | Finite at_ =>
            key ← match d_key d with None => mret None | Some f => k ← lift (f v); mret (Some k) end;
            id ← insertJob name json (hashJobArgs json) key at_ t trigger None;
            mret (MkHandle id false)
        end
      end) (fun _ s' => app_frame s s') s1).
  { intros [j|]; [by apply wp_ret|]. destruct (enqueue_at _ _) as [at_|]; [|by apply wp_throw].
    assert (Hins : forall key, wp (id ← insertJob name json (hashJobArgs json) key at_ t trigger None; mret (MkHandle id false)) (fun _ s' => app_frame s s') s1).
    { intros key. apply wp_bind. eapply wp_mono; [apply insertJob_frame; by rewrite E1|].
      intros [id|err] s2 Hf; [apply wp_ret|]; by eapply app_frame_trans. }
    apply wp_bind. destruct (d_key d) as [f|]; [|by apply wp_ret]. apply wp_bind, wp_lift.
    destruct (f v); [by apply wp_ret|done]. }
  apply wp_bind. destruct (dedupe d); [apply wp_get, Hrest|apply wp_ret, (Hrest None)].
Qed.

Lemma enqueueWith_steps name args options trigger s :
  jobs_ok (tables s) -> wpr (enqueueWith name args options trigger) (fun _ s' => jsteps (tables s) (tables s')) s.
Proof.
  intros Hok. eapply wp_mono; [by apply enqueueWith_frame|]. intros [a|e] s' Hf; [apply Hf|done].
Qed.

Lemma runAgain_steps id s : jobs_ok (tables s) -> wpr (runAgain id) (fun _ s' => jsteps (tables s) (tables s')) s.
Proof.
  intros Hok. unfold runAgain. apply wpr_bind, requireJob_wpr; [|done]. intros j _ Hj Hid.
  destruct (isTerminal _); [|apply conflict_wpr]. apply wpr_bind, wpr_lift. intros args _. by apply enqueueWith_steps.
Qed.
End refinement.

(** * The batch *)

Section runner.
Context {rt : JobsRuntime}.

Abbreviation tx := (Effects.eff Store).

(** ** Application code *)

Lemma wp_patch_job id f (Q : exc js_error unit -> Store -> Prop) s :
  (forall e, t_jobs (tables s) !! id = None -> Q (Throw e) s) ->
  (forall j s', t_jobs (tables s) !! id = Some j ->
    tables s' = MkTables (<[id := f j]> (t_jobs (tables s))) (t_runs (tables s)) (t_nextJob (tables s)) (t_nextRun (tables s)) (t_effects (tables s)) -> Q (Ret tt) s') ->
  wp (patch_job id f) Q s.
Proof.
  intros Hn Hs. unfold patch_job. apply wp_bind, wp_get. destruct (jobs s !! id) eqn:E; [|by apply wp_throw, Hn].
  apply wp_modify. by eapply Hs.
Qed.

(** An edit of a job that does not run. *)
Lemma patch_frame id f s :
  jobs_ok (tables s) -> (forall j, t_jobs (tables s) !! id = Some j -> f j = j \/ (j_state j <> JRunning /\ edited j (f j))) ->
  wp (patch_job id f) (fun _ s' => app_frame s s') s.
Proof.
  intros Hok Hf. apply wp_patch_job; [intros; by apply app_frame_same|].
  intros j s' Hj E. destruct (jo_ids _ Hok _ _ Hj) as [Hid _]. destruct (Hf _ Hj) as [Hsame|[Hst He]].
  { apply app_frame_same. rewrite E, Hsame, insert_id by done. by destruct (tables s). }
  split; rewrite E; cbn; [|done|done|].
  - apply rtc_once. rewrite <-Hid in Hj |- *. replace (j_id j) with (j_id (f j)) by (by rewrite He). by apply (step_edit (tables s) j (f j)).
  - intros i j' Hi Hs'. rewrite lookup_insert_ne; [done|]. intros ->. cbn in *. congruence.
Qed.

Lemma patched_edited canonical key at_ j : edited j (patched canonical key at_ j).
Proof. by destruct j, canonical, key, at_. Qed.

Lemma guarded_patch_frame id p s : jobs_ok (tables s) -> wp (guarded_patch id p) (fun _ s' => app_frame s s') s.
Proof.
  intros Hok. unfold guarded_patch. assert (Hsame : app_frame s s) by by apply app_frame_same.
  destruct (p_guarded p); [by apply wp_throw|].
  assert (Hrest : forall json key at_, wp (js ← get jobs;
      _ ← lift (check_editable json (js !! id));
      canonical ← lift (canonical_args json);
      patch_job id (patched canonical key at_)) (fun _ s' => app_frame s s') s).
  { intros json key at_. apply wp_bind, wp_get, wp_bind, wp_lift.
    destruct (check_editable json (jobs s !! id)) as [[]|e] eqn:Hc; [|done].
    apply wp_bind, wp_lift. destruct (canonical_args json) as [canonical|e]; [|done].
    apply patch_frame; [done|]. intros j Hj. right. split; [|apply patched_edited].
    cbn in Hj. rewrite Hj in Hc. cbn in Hc. by destruct (decide (j_state j = JRunning)). }
  destruct (p_argsJson p), (p_key p), (p_nextRunAt p); try apply Hrest. apply patch_frame; [done|by left].
Qed.

Lemma perform_frame op s : jobs_ok (tables s) -> wp (perform op) (fun r s' => r = Ret tt /\ app_frame s s') s.
Proof.
  intros Hok. unfold perform. apply wp_catch. destruct op as [name args options|id p].
  - apply wp_bind. eapply wp_mono; [by apply enqueueWith_frame|]. intros [h|e] s' Hf; by apply wp_ret.
  - eapply wp_mono; [by apply guarded_patch_frame|]. intros [[]|e] s' Hf; [done|by apply wp_ret].
Qed.

Lemma perform_all_frame ops s : jobs_ok (tables s) -> wp (perform_all ops) (fun r s' => r = Ret tt /\ app_frame s s') s.
Proof.
  revert s. induction ops as [|op ops IH]; intros s Hok; [apply wp_ret; split; [done|by apply app_frame_same]|].
  cbn. apply wp_bind. eapply wp_mono; [by apply perform_frame|]. intros r s1 [-> Hf].
  eapply wp_mono; [apply IH; by eapply jsteps_ok, af_steps|]. intros r s2 [-> Hf']. split; [done|]. by eapply app_frame_trans.
Qed.

(** ** The cascade of a deletion *)

Definition no_runs_of (id : Z) (m : gmap Z JobRunRow) : gmap Z JobRunRow := filter (fun '(_, r) => jobId r <> id) m.

Definition without_runs (rs : list JobRunRow) (m : gmap Z JobRunRow) : gmap Z JobRunRow := foldl (fun m r => delete (r_id r) m) m rs.

Lemma without_runs_lookup rs m i : without_runs rs m !! i = if decide (i ∈ r_id <$> rs) then None else m !! i.
Proof.
  unfold without_runs. revert m. induction rs as [|r rs IH]; intros m; cbn; [by rewrite decide_False by set_solver|].
  rewrite IH. destruct (decide (i ∈ r_id <$> rs)); [by rewrite decide_True by set_solver|].
  destruct (decide (i = r_id r)) as [->|Hne]; [by rewrite lookup_delete_eq, decide_True by set_solver|].
  rewrite lookup_delete_ne by done. by rewrite decide_False by set_solver.
Qed.

Lemma delete_each_run rs s :
  foldr (fun r rest => _ ← delete_run (r_id r); rest) (mret tt : tx unit) rs s = (Ret tt, set_runs (without_runs rs (runs s)) s).
Proof. revert s. induction rs as [|r rs IH]; intros s; [by destruct s|]. cbn [foldr].
  exact (IH (set_runs (delete (r_id r) (runs s)) s)).
Qed.

Lemma ofJob_elem id n s r : r ∈ ofJob id n s -> jobId r = id /\ exists i, runs s !! i = Some r.
Proof.
  unfold ofJob, select_runs_by. intros Hr%take_incl. rewrite merge_sort_Permutation, some_run_order_perm, list_elem_of_filter in Hr.
  destruct Hr as [Hw%Is_true_true%bool_decide_eq_true Hr]. split; [done|by apply run_rows_elem].
Qed.

Lemma ofJob_all id n s r i : (length (ofJob id n s) < n)%nat -> runs s !! i = Some r -> jobId r = id -> r ∈ ofJob id n s.
Proof.
  unfold ofJob, select_runs_by. rewrite length_take. intros Hlen Hi Hid. rewrite take_ge by lia.
  rewrite merge_sort_Permutation, some_run_order_perm, list_elem_of_filter. split; [|apply run_rows_elem; by exists i].
  by apply Is_true_true, bool_decide_eq_true.
Qed.

Definition ids_ok (m : gmap Z JobRunRow) : Prop := forall i r, m !! i = Some r -> r_id r = i.

Lemma without_runs_filter id n s :
  ids_ok (runs s) -> no_runs_of id (without_runs (ofJob id n s) (runs s)) = no_runs_of id (runs s).
Proof.
  intros Hids. apply map_eq. intros i. unfold no_runs_of. rewrite !map_lookup_filter, without_runs_lookup.
  case_decide as Hin; [|done]. apply list_elem_of_fmap in Hin as (r & -> & Hr).
  apply ofJob_elem in Hr as [Hid [k Hk]]. rewrite (Hids _ _ Hk), Hk. cbn. rewrite option_guard_False; [done|]. by intros [].
Qed.

Lemma without_runs_all id n s :
  ids_ok (runs s) -> (length (ofJob id n s) < n)%nat -> without_runs (ofJob id n s) (runs s) = no_runs_of id (runs s).
Proof.
  intros Hids Hlen. rewrite <-(without_runs_filter id n s Hids). symmetry. apply map_filter_id.
  intros i r. rewrite without_runs_lookup. case_decide as Hin; [done|]. intros Hi Hid. apply Hin.
  apply list_elem_of_fmap. exists r. split; [symmetry; by apply Hids|]. by eapply ofJob_all.
Qed.

Lemma without_runs_size id n s :
  ids_ok (runs s) -> ofJob id n s <> [] -> (size (without_runs (ofJob id n s) (runs s)) < size (runs s))%nat.
Proof.
  intros Hids Hne. apply map_subset_size. split.
  - apply map_subseteq_spec. intros i r. rewrite without_runs_lookup. by case_decide.
  - rewrite map_subseteq_spec. intros Hall. destruct (ofJob id n s) as [|r rs] eqn:E; [done|].
    assert (Hr : r ∈ ofJob id n s) by (rewrite E; left). apply ofJob_elem in Hr as [_ [i Hi]].
    specialize (Hall _ _ Hi). rewrite without_runs_lookup, <-(Hids _ _ Hi) in Hall. by rewrite decide_True in Hall by (cbn; left).
Qed.

(** The fuel of the cascade is enough: it leaves no run of the job. *)
Lemma delete_runs_run fuel id s :
  ids_ok (runs s) -> (size (runs s) < fuel)%nat -> delete_runs fuel id s = (Ret tt, set_runs (no_runs_of id (runs s)) s).
Proof.
  revert s. induction fuel as [|fuel IH]; intros s Hids Hf; [lia|].
  cbn [delete_runs]. rewrite run_get, run_bind, delete_each_run. case_decide as Hlen.
  - by rewrite without_runs_all by done.
  - rewrite IH.
    + cbn [set_runs runs]. by rewrite without_runs_filter.
    + intros i r. cbn [set_runs runs]. rewrite without_runs_lookup. case_decide; [done|apply Hids].
    + cbn [set_runs runs]. assert (Hne : ofJob id CASCADE_BATCH s <> []) by (intros E; rewrite E in Hlen; apply Hlen; unfold CASCADE_BATCH; cbn; lia).
      pose proof (without_runs_size id CASCADE_BATCH s Hids Hne). lia.
Qed.

Lemma deleteWithRuns_run id s :
  jobs_ok (tables s) ->
  deleteWithRuns id s = (Ret tt, set_jobs (delete id (jobs s)) (set_runs (no_runs_of id (runs s)) s)).
Proof.
  intros Hok. unfold deleteWithRuns. rewrite run_get, run_bind, delete_runs_run; [done| |lia].
  intros i r Hi. by apply (jo_run_ids _ Hok).
Qed.

Lemma deleteWithRuns_wp id s : jobs_ok (tables s) -> wp (deleteWithRuns id) (fun r s' => r = Ret tt /\ jcalm (tables s) (tables s')) s.
Proof. intros Hok. unfold wp. rewrite deleteWithRuns_run by done. split; [done|]. apply (step_delete (tables s) id). Qed.

Lemma delete_steps id s : jobs_ok (tables s) -> wpr (delete_ id) (fun _ s' => jsteps (tables s) (tables s')) s.
Proof.
  intros Hok. unfold delete_. apply wpr_bind, requireJob_wpr; [|done]. intros j _ _ _.
  eapply wp_mono; [by apply deleteWithRuns_wp|]. intros r s' [-> Hs]. by apply rtc_once.
Qed.

(** ** Recovery *)

Lemma mintRepeat_runs job t s : wpr (mintRepeat job t) (fun _ s' => t_runs (tables s') = t_runs (tables s)) s.
Proof.
  unfold mintRepeat. destruct (_ ≫= repeat) as [rule|]; [|by apply wpr_ret].
  destruct (rule _ _) as [[[at_|]|]|]; try by apply wpr_ret.
  apply wpr_bind, wpr_get. by destruct (liveFor _ _ _).
Qed.

Lemma settleJobIn_other job r o s i :
  i <> r_id r -> wpr (settleJobIn job (Some r) o) (fun _ s' => t_runs (tables s') !! i = t_runs (tables s) !! i) s.
Proof.
  intros Hne. unfold settleJobIn. apply wpr_bind, wpr_now. intros t s1 E1. rewrite <-E1.
  assert (Hend : forall s2 f, t_runs (tables s2) !! i = t_runs (tables s1) !! i ->
    wpr (_ ← patch_job (j_id job) f; mintRepeat job t) (fun _ s' => t_runs (tables s') !! i = t_runs (tables s1) !! i) s2).
  { intros s2 f Hi. apply wpr_bind, wpr_patch_job. intros j s3 _ E3.
    eapply wpr_mono; [apply mintRepeat_runs|]. intros ? s4 ->. by rewrite E3. }
  apply wpr_bind. case_decide; [|by apply wpr_ret, Hend].
  apply wpr_patch_run. intros r0 s2 _ E2. apply Hend. rewrite E2. cbn [t_runs]. by apply lookup_insert_ne.
Qed.

(** A settlement leaves the other runs. *)
Lemma settleFailureIn_other job r e s i :
  i <> r_id r -> wpr (settleFailureIn job r e) (fun _ s' => t_runs (tables s') !! i = t_runs (tables s) !! i) s.
Proof.
  intros Hne. unfold settleFailureIn. apply wpr_bind, wpr_now. intros t s1 E1. rewrite <-E1.
  destruct (retry_delay _ _ _) as [delay|].
  - apply wpr_bind, wpr_patch_run. intros r0 s2 _ E2. apply wpr_bind, wpr_patch_job. intros j s3 _ E3.
    apply wpr_ret. rewrite E3. cbn [t_runs]. rewrite E2. cbn [t_runs]. by apply lookup_insert_ne.
  - apply wpr_bind. eapply wpr_mono; [by apply settleJobIn_other|]. intros ? s2 Hs. by apply wpr_ret.
Qed.

Lemma wpr_conj {A} (m : tx A) (P Q : A -> Store -> Prop) s : wpr m P s -> wpr m Q s -> wpr m (fun a s' => P a s' /\ Q a s') s.
Proof. unfold wpr, wp. by destruct (m s) as [[a|e] s']. Qed.

Lemma wpr_all {A I} (P : I -> Prop) (m : tx A) (Q : I -> A -> Store -> Prop) s :
  (forall i, P i -> wpr m (Q i) s) -> wpr m (fun a s' => forall i, P i -> Q i a s') s.
Proof. unfold wpr, wp. destruct (m s) as [[a|e] s']; cbn; auto. Qed.

Lemma recover_each_steps lives_here rs s :
  jobs_ok (tables s) -> Forall (open_run (tables s)) rs -> NoDup (r_id <$> rs) ->
  wpr (recover_each lives_here rs) (fun _ s' => jsteps (tables s) (tables s')) s.
Proof.
  revert s. induction rs as [|run rs IH]; intros s Hok Ho Hnd; [by apply wpr_ret|].
  apply Forall_cons in Ho as [Hrun Ho]. rewrite fmap_cons in Hnd. apply NoDup_cons in Hnd as [Hni Hnd]. cbn [recover_each].
  destruct (lives_here _); [by apply IH|].
  destruct Hrun as [Hr Hst]. destruct (jo_parents _ Hok _ _ Hr) as [j Hj]. pose proof (jo_ids _ Hok _ _ Hj) as [Hid _].
  apply wpr_bind, wpr_get. cbn in Hj. rewrite Hj. apply wpr_bind.
  eapply wpr_mono.
  { apply wpr_conj; [eapply (settleFailureIn_steps s j j); [done|by rewrite Hid|done|by split|done]|].
    apply (wpr_all (fun i => i <> r_id run) _ (fun i _ s' => t_runs (tables s') !! i = t_runs (tables s) !! i)).
    intros i Hi. by apply settleFailureIn_other. }
  intros n s1 [Hs Hother]. cbn beta in Hother. apply wpr_bind. eapply wpr_mono; [apply IH; [by eapply jsteps_ok| |done]|].
  - apply Forall_forall. intros r Hin. rewrite Forall_forall in Ho. destruct (Ho _ Hin) as [Hl Hrs].
    split; [|done]. rewrite Hother; [done|]. intros E. apply Hni. rewrite <-E. by apply list_elem_of_fmap_2.
  - intros ns s2 Hs2. apply wpr_ret. by etransitivity.
Qed.

Lemma run_rows_nodup s : jobs_ok (tables s) -> NoDup (r_id <$> run_rows s).
Proof.
  intros Hok. unfold run_rows. rewrite <-list_fmap_compose.
  rewrite (list_fmap_ext _ fst (map_to_list (runs s))); [apply NoDup_fst_map_to_list|].
  intros k [i r] Hk. apply list_elem_of_lookup_2, elem_of_map_to_list in Hk. by apply (jo_run_ids _ Hok).
Qed.

Lemma select_runs_nodup w n s : jobs_ok (tables s) -> NoDup (r_id <$> select_runs w n s).
Proof.
  intros Hok. unfold select_runs. rewrite <-firstn_map. eapply sublist_NoDup; [|apply sublist_take].
  change (NoDup (r_id <$> some_run_order (filter w (run_rows s)))). rewrite some_run_order_perm. eapply sublist_NoDup; [by apply run_rows_nodup|apply fmap_sublist, sublist_filter].
Qed.

Lemma recover_steps lives_here s : jobs_ok (tables s) -> wpr (recoverExpiredLeases lives_here) (fun _ s' => jsteps (tables s) (tables s')) s.
Proof.
  intros Hok. unfold recoverExpiredLeases. apply wpr_bind, wpr_now. intros t s1 E1. rewrite <-E1 in Hok |- *.
  apply wpr_bind, wpr_get. apply recover_each_steps; [done| |by apply select_runs_nodup].
  apply Forall_forall. intros r Hr. apply select_runs_elem in Hr as [[Hw _]%andb_true_iff [i Hi]]. apply bool_decide_eq_true in Hw.
  split; [|done]. by destruct (jo_run_ids _ Hok _ _ Hi) as [-> _].
Qed.

(** ** Claims *)

(** The job as its claim leaves it, at the run [n]. *)
Definition claimed_job (n : Z) (j : JobRow) : JobRow := set_nextRunTrigger None (set_runCount n (set_j_state JRunning j)).

Definition claims (j : JobRow) (T : Tables) (run : JobRunRow) (T' : Tables) : Prop :=
  jclaim T T' /\ open_run T' run /\ jobId run = j_id j /\ t_jobs T' !! j_id j = Some (claimed_job (number run) j) /\
  exists n, t_jobs T' = <[j_id j := claimed_job n j]> (t_jobs T).

Definition resumes (j : JobRow) : bool :=
  bool_decide (j_state j = JPending) && bool_decide (0 < runCount j) && bool_decide (nextRunTrigger j = None).

(** A job that waits for a run has one open only when it is suspended. *)
Lemma no_open_waiting T j :
  jobs_ok T -> t_jobs T !! j_id j = Some j -> j_state j = JPending \/ j_state j = JRetrying -> resumes j = false -> no_open_run T (j_id j).
Proof.
  intros Hok Hj Hst Hres. apply no_open_of_latest; [done..|]. intros r [Hr Hn] Hrs.
  pose proof (jo_job _ Hok _ _ Hj) as Hk. pose proof (jk_numbers _ _ _ Hk _ Hr).
  destruct (jk_open _ _ _ Hk _ Hr Hrs) as [_ [(E & _)|(E & Et & _)]]; [destruct Hst; congruence|].
  unfold resumes in Hres. rewrite !bool_decide_true in Hres by (try done; lia). done.
Qed.

Lemma suspended_run s j :
  jobs_ok (tables s) -> t_jobs (tables s) !! j_id j = Some j -> resumes j = true ->
  exists r, byNumber (j_id j) (runCount j) s = Some r /\ open_run (tables s) r /\ jobId r = j_id j /\ number r = runCount j.
Proof.
  intros Hok Hj [[Hp Hc]%andb_true_iff Ht]%andb_true_iff. apply bool_decide_eq_true in Hp, Hc, Ht.
  pose proof (jk_state _ _ _ (jo_job _ Hok _ _ Hj)) as Hs. unfold state_ok in Hs. rewrite Hp in Hs.
  destruct Hs as [_ Hs]. destruct (Hs Ht Hc) as (r & [Hr Hn] & Hst).
  destruct (byNumber (j_id j) (runCount j) s) as [r'|] eqn:E.
  - apply (byNumber_Some _ _ _ _ Hok) in E as (Hr' & Hj' & Hn'). exists r'.
    assert (r' = r) as -> by (eapply same_number; [done|done|by apply run_of_stored|done|congruence]). done.
  - destruct Hr as (i & Hi & Hid). by destruct (byNumber_None _ _ _ _ _ E Hi Hid).
Qed.

(** The patch that ends a claim. *)
Lemma claim_patch j run s (Q : exc js_error unit -> Store -> Prop) :
  t_jobs (tables s) !! j_id j = Some j ->
  (forall s', tables s' = with_job (claimed_job (number run) j) (tables s) -> Q (Ret tt) s') ->
  wp (patch_job (j_id j) (fun j => set_nextRunTrigger None (set_runCount (number run) (set_j_state JRunning j)))) Q s.
Proof.
  intros Hj HQ. apply wp_patch_job; [congruence|]. intros j0 s' Hj0 E. assert (j0 = j) as -> by congruence. by apply HQ.
Qed.

Lemma openRun_spec s j t :
  jobs_ok (tables s) -> t_jobs (tables s) !! j_id j = Some j -> j_state j = JPending \/ j_state j = JRetrying ->
  wp (openRun j t) (fun r s' => exists run, r = Ret run /\ claims j (tables s) run (tables s')) s.
Proof.
  intros Hok Hj Hst. unfold openRun. apply wp_bind. unfold lease_counter, wp at 1. cbn [fst snd].
  set (s1 := MkStore _ _ _ _ _ _ _). assert (E1 : tables s1 = tables s) by done. clearbody s1. rewrite <-E1 in Hok, Hj |- *.
  fold (resumes j). destruct (resumes j) eqn:Hres.
  - destruct (suspended_run _ _ Hok Hj Hres) as (r & Hb & Ho & Hid & Hn). pose proof Ho as [Hr Hrs].
    apply wp_bind, wp_get. rewrite Hb. apply wp_bind. rewrite decide_True by done. apply wp_bind.
    unfold patch_run. apply wp_bind, wp_get. cbn in Hr. rewrite Hr. apply wp_modify, wp_ret, wp_bind, wp_ret, wp_bind.
    apply (claim_patch j); [done|]. intros s2 E2. apply wp_ret. eexists. split; [done|].
    rewrite E2. apply andb_true_iff in Hres as [[Hp%bool_decide_eq_true _]%andb_true_iff _].
    split_and!; [by apply (step_resume (tables s1) j r)| |done|cbn; by rewrite lookup_insert_eq|by eexists].
    split; [cbn; by rewrite lookup_insert_eq|done].
  - pose proof (no_open_waiting _ _ Hok Hj Hst Hres) as Hno. apply wp_bind, wp_ret, wp_bind, wp_ret, wp_bind.
    unfold insert_run, wp at 1. rewrite decide_False; cbn [fst snd].
    2: { intros (i & r & Hi & Hid & Hn). cbn in Hid, Hn.
         pose proof (jk_numbers _ _ _ (jo_job _ Hok _ _ Hj) r ltac:(by exists i)). lia. }
    apply wp_bind. apply (claim_patch j); [done|]. intros s2 E2. apply wp_ret. eexists. split; [done|]. rewrite E2.
    split_and!; [by apply (step_open (tables s1) j)| |done|cbn; by rewrite lookup_insert_eq|by eexists].
    split; [cbn; by rewrite lookup_insert_eq|done].
Qed.

(** The handler's writes, and its effect, stay only with the run's success. *)
Lemma runMutationJob_steps s job j run h :
  jobs_ok (tables s) -> t_jobs (tables s) !! j_id job = Some j -> j_name j = j_name job -> j_state j = JRunning ->
  open_run (tables s) run -> jobId run = j_id job -> mutation_kind j ->
  wpr (runMutationJob job run h) (fun _ s' => jsteps (tables s) (tables s')) s.
Proof.
  intros Hok Hj Hname Hst Ho Hjid Hk. pose proof (jo_ids _ Hok _ _ Hj) as [Hid _].
  assert (Hfail : forall s1 error, wpr (_ ← modify (rollback s); settleFailureIn job run error) (fun _ s' => jsteps (tables s) (tables s')) s1).
  { intros s1 error. apply wpr_bind, wpr_modify. change (tables s) with (tables (rollback s s1)). by eapply settleFailureIn_steps. }
  unfold runMutationJob. apply wpr_bind, wpr_get, wpr_bind.
  destruct (decode (argsJson job)) as [args|e]; [|apply wpr_ret, Hfail].
  apply wpr_bind. eapply wp_mono; [by apply perform_all_frame|]. intros r s1 [-> [Hsteps Hruns Heff Hrunning]].
  apply wpr_bind, wpr_modify, wpr_ret. destruct (h_result h) as [output|e]; [|apply Hfail].
  pose proof (Hrunning _ _ Hj Hst) as Hj1.
  assert (Ho1 : open_run (tables s1) run) by (destruct Ho as [Hr ?]; split; [by rewrite Hruns|done]).
  unfold settleSuccessIn. apply wpr_bind. eapply wpr_mono; [eapply (settleJobIn_open _ job j run); [congruence|exact Hj1|done|exact Ho1]|].
  intros ? s2 (t & code & text & Hs). apply wpr_ret. etransitivity; [exact Hsteps|]. eapply rtc_l; [|exact Hs].
  rewrite <-Hid. apply (step_settle (tables s1) j run (OutcomeCompleted output) code text t true); [congruence|done|congruence|done].
Qed.

(** A claim: the job starts to run; what a mutation-kind job does then ends its run. *)
Definition claims_job (j : JobRow) (T T' : Tables) : Prop :=
  exists T1, jclaim T T1 /\ (exists n, t_jobs T1 = <[j_id j := claimed_job n j]> (t_jobs T)) /\ jsteps T1 T'.

Lemma claims_job_moves j T T' : claims_job j T T' -> jmoves T T'.
Proof. intros (T1 & Hc & _ & Hs). eapply rtc_l; [by right; left|by apply jsteps_moves]. Qed.

Lemma claim_job_steps handler s j d t :
  jobs_ok (tables s) -> t_jobs (tables s) !! j_id j = Some j -> j_state j = JPending \/ j_state j = JRetrying ->
  definitions !! j_name j = Some d ->
  wpr (claim_job handler j d t) (fun _ s' => claims_job j (tables s) (tables s')) s.
Proof.
  intros Hok Hj Hst Hd. unfold claim_job. apply wpr_bind. eapply wp_mono; [by apply openRun_spec|].
  intros r s1 (run & -> & Hstep & Ho & Hjid & Hj1 & Hjobs). pose proof (jstep_keeps_jobs_ok _ _ Hok (or_intror (or_introl Hstep))) as Hok1.
  case_decide as Hk; [|apply wpr_ret; by exists (tables s1); eauto].
  apply wpr_bind. eapply wpr_mono.
  - eapply (runMutationJob_steps _ j (claimed_job (number run) j)); try done. unfold mutation_kind. cbn. by rewrite Hd, <-Hk.
  - intros n s2 Hs. apply wpr_ret. exists (tables s1). eauto.
Qed.

Lemma due_elem now_ limit after s j :
  j ∈ due now_ limit after s -> (exists i, jobs s !! i = Some j) /\ (j_state j = JPending \/ j_state j = JRetrying) /\ nextRunAt j <= now_ /\ after_cursor after j = true.
Proof.
  unfold due. intros Hj%take_incl. rewrite merge_sort_Permutation in Hj. apply list_elem_of_bind in Hj as (st & Hj & Hst).
  unfold due_window, select_jobs_by in Hj. apply take_incl in Hj. rewrite merge_sort_Permutation, some_order_perm, list_elem_of_filter in Hj.
  destruct Hj as [[[H1 H2]%andb_true_iff H3]%Is_true_true%andb_true_iff Hj]. apply bool_decide_eq_true in H1, H2.
  split_and!; [by apply job_rows_elem| |done|done].
  unfold DUE_JOB_STATES in Hst. apply list_elem_of_In in Hst. cbn in Hst. destruct Hst as [<-|[<-|[]]]; auto.
Qed.

Lemma first_eligible_Some running page j d : first_eligible running page = Some (j, d) -> j ∈ page /\ eligible running j = Some d.
Proof.
  induction page as [|x page IH]; [done|]. cbn. destruct (eligible running x) eqn:E.
  - intros [= -> ->]. split; [left|done].
  - intros [? ?]%IH. split; [by right|done].
Qed.

Lemma eligible_Some running j d : eligible running j = Some d -> definitions !! j_name j = Some d /\ running_in (gate j) running < concurrency d.
Proof. unfold eligible. destruct (definitions !! j_name j) as [d'|]; cbn; [|done]. case_decide; [done|]. intros [= ->]. split; [done|lia]. Qed.

Lemma after_cursor_trans cursor x j : after_cursor cursor x = true -> after_cursor (Some (cursor_of x)) j = true -> after_cursor cursor j = true.
Proof.
  unfold after_cursor. destruct cursor as [[a b]|]; [|done]. cbn. rewrite !orb_true_iff, !andb_true_iff, !bool_decide_eq_true. lia.
Qed.

Lemma claim_pages_Some fuel running t cursor s j d :
  claim_pages fuel running t cursor s = Some (j, d) ->
  (exists i, jobs s !! i = Some j) /\ (j_state j = JPending \/ j_state j = JRetrying) /\ nextRunAt j <= t /\ after_cursor cursor j = true /\ eligible running j = Some d.
Proof.
  revert cursor. induction fuel as [|fuel IH]; intros cursor; [done|]. cbn [claim_pages].
  destruct (first_eligible _ _) as [[j' d']|] eqn:E.
  - intros [= -> ->]. apply first_eligible_Some in E as [(? & ? & ? & ?)%due_elem ?]. by split_and!.
  - destruct (last _) as [x|] eqn:El; [|done]. case_decide; [done|]. intros (? & ? & ? & Hc & ?)%IH. split_and!; try done.
    apply last_Some_elem_of, due_elem in El as (_ & _ & _ & Hx). by eapply after_cursor_trans.
Qed.

(** The jobs the claim of a batch chooses from. *)
Definition candidate (t : Z) (cursor : option JobCursor) (s : Store) (j : JobRow) (d : JobDefinition Args) : Prop :=
  jobs s !! j_id j = Some j /\ (j_state j = JPending \/ j_state j = JRetrying) /\ nextRunAt j <= t /\ after_cursor cursor j = true /\
  eligible (running_jobs s) j = Some d.

Lemma claimNext_steps handler cursor s :
  jobs_ok (tables s) ->
  wpr (claimNext handler cursor) (fun r s' => match r with
    | None => tables s' = tables s
    | Some (_, c) => exists j d, candidate (clock (readings s)) cursor s j d /\ c = cursor_of j /\ claims_job j (tables s) (tables s')
    end) s.
Proof.
  intros Hok. unfold claimNext. apply wpr_bind. unfold now, wpr at 1, wp. cbn [fst snd].
  set (s1 := MkStore _ _ _ _ _ _ _). assert (E1 : tables s1 = tables s) by done. assert (E2 : jobs s1 = jobs s) by done.
  assert (E3 : running_jobs s1 = running_jobs s) by done. clearbody s1. rewrite <-E1 in Hok |- *.
  apply wpr_bind, wpr_get, wpr_bind, wpr_get. destruct (claim_pages _ _ _ _ _) as [[j d]|] eqn:E; [|by apply wpr_ret].
  apply claim_pages_Some in E as ([i Hi] & Hst & Ht & Hc & He). pose proof (eligible_Some _ _ _ He) as [Hd _]. pose proof (jo_ids _ Hok _ _ Hi) as [Hid _].
  apply wpr_bind. eapply wpr_mono; [apply claim_job_steps; [done|by rewrite Hid|done|done]|]. intros r s2 Hs. apply wpr_ret.
  exists j, d. split; [|done]. unfold candidate. rewrite <-E2, Hid, <-E3. done.
Qed.

(** ** Settlement of a claimed run *)

(** What holds of a claim for as long as it may settle. *)
Record claim_ok (c : ClaimedRun) (T : Tables) : Prop := {
  ck_run_old : cl_run c < t_nextRun T;
  ck_job_old : cl_job c < t_nextJob T;
  ck_run : forall r, t_runs T !! cl_run c = Some r -> jobId r = cl_job c /\ number r = cl_number c;
  ck_job : forall j, t_jobs T !! cl_job c = Some j -> ~ mutation_kind j;
}.

Lemma claim_ok_evolves c T T' : claim_ok c T -> evolves T T' -> claim_ok c T'.
Proof.
  intros [H1 H2 H3 H4] He. pose proof (ev_nextRun _ _ He). pose proof (ev_nextJob _ _ He). split; [lia|lia| |].
  - intros r Hr. destruct (ev_runs _ _ He _ _ Hr H1) as (r0 & Hr0 & -> & -> & _). by apply H3.
  - intros j Hj Hk. destruct (ev_jobs _ _ He _ _ Hj H2) as (j0 & Hj0 & Hname & _). apply (H4 _ Hj0).
    unfold mutation_kind in *. by rewrite <-Hname.
Qed.

Lemma settle_steps c outcome s :
  jobs_ok (tables s) -> claim_ok c (tables s) -> wpr (settle c outcome) (fun _ s' => jsteps (tables s) (tables s')) s.
Proof.
  intros Hok [_ _ Hr Hj]. unfold settle. apply wpr_bind, wpr_get, wpr_bind, wpr_get.
  destruct (runs s !! cl_run c) as [run|] eqn:Er; [|by apply wpr_ret].
  destruct (jobs s !! cl_job c) as [job|] eqn:Ej; [|by apply wpr_ret].
  case_decide as Hd; [|by apply wpr_ret]. destruct Hd as [Hst _].
  destruct (jo_ids _ Hok _ _ Ej) as [Hid _]. destruct (jo_run_ids _ Hok _ _ Er) as [Hrid _]. destruct (Hr _ Er) as [Hrj _].
  assert (Ho : open_run (tables s) run) by (split; [by rewrite Hrid|done]).
  apply wpr_bind. eapply wpr_mono; [|intros n s1 Hs; apply wpr_ret; exact Hs].
  destruct outcome as [encoded|error].
  - eapply (settleSuccessIn_steps s job job); [done|by rewrite Hid|done|done|congruence|by apply Hj].
  - eapply (settleFailureIn_steps s job job); [done|by rewrite Hid|done|done|congruence].
Qed.

(** A late settlement, of a run that settled, sleeps or was claimed again,
    changes nothing. *)
Lemma settle_late c outcome s :
  (forall r, runs s !! cl_run c = Some r -> r_state r = RRunning -> leaseToken r <> Some (cl_token c)) ->
  settle c outcome s = (Ret None, s).
Proof.
  intros H. unfold settle. rewrite !run_get. destruct (runs s !! cl_run c) as [run|]; [|done].
  destruct (jobs s !! cl_job c); [|done]. rewrite decide_False; [done|]. intros [Hst Ht]. by apply (H run).
Qed.

(** ** Retention *)

Lemma reap_jobs_steps js s :
  jobs_ok (tables s) -> wpr (foldr (fun j rest => _ ← deleteWithRuns (j_id j); rest) (mret tt) js) (fun _ s' => jsteps (tables s) (tables s')) s.
Proof.
  revert s. induction js as [|j js IH]; intros s Hok; [by apply wpr_ret|]. cbn [foldr]. apply wpr_bind.
  eapply wp_mono; [by apply deleteWithRuns_wp|]. intros r s1 [-> Hs].
  eapply wpr_mono; [apply IH; apply (jstep_keeps_jobs_ok _ _ Hok); by left|]. intros ? s2 Hs2. by eapply rtc_l.
Qed.


Lemma reap_run_steps r s :
  jobs_ok (tables s) -> runs s !! r_id r = Some r ->
  wpr (reap_run r) (fun _ s' => jsteps (tables s) (tables s') /\ forall i, i <> r_id r -> runs s' !! i = runs s !! i) s.
Proof.
  intros Hok Hr. destruct (jo_parents _ Hok _ _ Hr) as [j Hj]. unfold reap_run. apply wpr_bind, wpr_get. cbn in Hj. rewrite Hj.
  case_decide as Hn; [by apply wpr_ret|]. apply wpr_modify. split.
  - apply rtc_once. eapply (step_sweep (tables s) r j); [done|done|congruence].
  - intros i Hi. cbn. by apply lookup_delete_ne.
Qed.

Lemma reap_runs_steps rs s :
  jobs_ok (tables s) -> Forall (fun r => runs s !! r_id r = Some r) rs -> NoDup (r_id <$> rs) ->
  wpr (foldr (fun r rest => _ ← reap_run r; rest) (mret tt) rs) (fun _ s' => jsteps (tables s) (tables s')) s.
Proof.
  revert s. induction rs as [|r rs IH]; intros s Hok Hf Hnd; [by apply wpr_ret|].
  apply Forall_cons in Hf as [Hr Hf]. rewrite fmap_cons in Hnd. apply NoDup_cons in Hnd as [Hni Hnd]. cbn [foldr].
  apply wpr_bind. eapply wpr_mono; [by apply reap_run_steps|]. intros ? s1 [Hs Hother].
  eapply wpr_mono; [apply IH; [by eapply jsteps_ok| |done]|].
  - apply Forall_forall. intros x Hx. rewrite Hother; [by eapply (proj1 (Forall_forall _ _) Hf)|].
    intros E. apply Hni. rewrite <-E. by apply list_elem_of_fmap_2.
  - intros ? s2 Hs2. by etransitivity.
Qed.

Lemma expired_runs_elem t n s r : r ∈ expired_runs t n s -> released t (r_deleteAfter r) = true /\ exists i, runs s !! i = Some r.
Proof.
  unfold expired_runs, select_runs_by. intros Hr%take_incl. rewrite merge_sort_Permutation, some_run_order_perm, list_elem_of_filter in Hr.
  destruct Hr as [Hw%Is_true_true Hr]. split; [done|by apply run_rows_elem].
Qed.

Lemma expired_runs_nodup t n s : jobs_ok (tables s) -> NoDup (r_id <$> expired_runs t n s).
Proof.
  intros Hok. unfold expired_runs, select_runs_by. rewrite <-firstn_map. eapply sublist_NoDup; [|apply sublist_take].
  change (NoDup (r_id <$> merge_sort run_release_le (some_run_order (filter (fun r => released t (r_deleteAfter r)) (run_rows s))))). rewrite merge_sort_Permutation, some_run_order_perm.
  eapply sublist_NoDup; [by apply run_rows_nodup|apply fmap_sublist, sublist_filter].
Qed.

Lemma reap_steps t s : jobs_ok (tables s) -> wpr (reap t) (fun _ s' => jsteps (tables s) (tables s')) s.
Proof.
  intros Hok. unfold reap. apply wpr_bind, wpr_get, wpr_bind. eapply wpr_mono; [by apply reap_jobs_steps|].
  intros ? s1 Hs1. pose proof (jsteps_ok _ _ Hok Hs1) as Hok1. apply wpr_bind, wpr_get, wpr_bind.
  eapply wpr_mono; [apply reap_runs_steps; [done| |by apply expired_runs_nodup]|].
  - apply Forall_forall. intros r [_ [i Hi]]%expired_runs_elem. by destruct (jo_run_ids _ Hok1 _ _ Hi) as [-> _].
  - intros ? s2 Hs2. apply wpr_ret. exact (transitivity Hs1 Hs2).
Qed.

(** ** Activation *)

Lemma activate_steps bootstrap json s : jobs_ok (tables s) -> wpr (activate bootstrap json) (fun _ s' => jsteps (tables s) (tables s')) s.
Proof.
  intros Hok. unfold activate. apply wpr_bind, wpr_now. intros t s1 E1. rewrite <-E1. clear Hok E1. revert s1.
  induction bootstrap as [|name bootstrap IH]; intros s1; [by apply wpr_ret|].
  cbn [foldr]. apply wpr_bind, wpr_get. destruct (liveFor _ _ _); [apply IH|]. destruct (_ ≫= repeat) as [rule|]; [|apply IH].
  apply wpr_bind, wpr_lift. intros [[at_|]|] _; [|apply wpr_throw|apply IH].
  apply wpr_bind. eapply wpr_mono; [apply insertJob_steps|]. intros ? s2 Hs2. eapply wpr_mono; [apply IH|].
  intros ? s3 Hs3. eapply rtc_l; [exact Hs2|exact Hs3].
Qed.

(** ** Lease tokens *)

(** The counter of leases does not go back, not even with a rollback. *)
Definition counts (s s' : Store) : Prop := (leaseCounter s <= leaseCounter s')%nat.

#[export] Instance counts_preorder : PreOrder counts.
Proof. split; [intros s; unfold counts; lia|intros s1 s2 s3; unfold counts; lia]. Qed.

Lemma counts_now : keeps counts now.
Proof. intros s. unfold counts. cbn. lia. Qed.
Lemma counts_lease_counter : keeps counts lease_counter.
Proof. intros s. unfold counts. cbn. lia. Qed.
Lemma counts_insert_job row : keeps counts (insert_job row).
Proof. intros s. unfold counts. cbn. lia. Qed.
Lemma counts_insert_run row : keeps counts (insert_run row).
Proof. intros s. unfold counts, insert_run. case_decide; cbn; lia. Qed.
Lemma counts_modify f : (forall s, leaseCounter (f s) = leaseCounter s) -> keeps counts (modify f).
Proof. intros H s. unfold counts. cbn. rewrite H. lia. Qed.

#[local] Hint Resolve counts_now counts_lease_counter counts_insert_job counts_insert_run : keep.
#[local] Hint Extern 1 (keeps counts (modify _)) => apply counts_modify; intros; reflexivity : keep.

Ltac counts_tac := repeat first [solve [eauto with keep nocore]|keeps_split|case_decide].

Lemma counts_patch_job id f : keeps counts (patch_job id f).
Proof. unfold patch_job. counts_tac. Qed.
Lemma counts_patch_run id f : keeps counts (patch_run id f).
Proof. unfold patch_run. counts_tac. Qed.
Lemma counts_insertJob name json hash key at_ t trigger parent : keeps counts (insertJob name json hash key at_ t trigger parent).
Proof. unfold insertJob. counts_tac. Qed.
#[local] Hint Resolve counts_patch_job counts_patch_run counts_insertJob : keep.
Lemma counts_enqueueWith name args options trigger : keeps counts (enqueueWith name args options trigger).
Proof. unfold enqueueWith. counts_tac. Qed.
Lemma counts_mintRepeat job t : keeps counts (mintRepeat job t).
Proof. unfold mintRepeat. counts_tac. Qed.
#[local] Hint Resolve counts_enqueueWith counts_mintRepeat : keep.
Lemma counts_settleJobIn job run o : keeps counts (settleJobIn job run o).
Proof. unfold settleJobIn. counts_tac. Qed.
#[local] Hint Resolve counts_settleJobIn : keep.
Lemma counts_settleFailureIn job run e : keeps counts (settleFailureIn job run e).
Proof. unfold settleFailureIn. counts_tac. Qed.
#[local] Hint Resolve counts_settleFailureIn : keep.
Lemma counts_settleSuccessIn job run o : keeps counts (settleSuccessIn job run o).
Proof. unfold settleSuccessIn. counts_tac. Qed.
Lemma counts_requireJob id : keeps counts (requireJob id).
Proof. unfold requireJob. counts_tac. Qed.
Lemma counts_latest_run job : keeps counts (latest_run job).
Proof. unfold latest_run. counts_tac. Qed.
Lemma counts_conflict {A} message : keeps counts (conflict_error message : tx A).
Proof. unfold conflict_error. counts_tac. Qed.
#[local] Hint Resolve counts_settleSuccessIn counts_requireJob counts_latest_run counts_conflict : keep.
Lemma counts_cancel id : keeps counts (cancel id).
Proof. unfold cancel. counts_tac. Qed.
Lemma counts_reopen job st trigger steps : keeps counts (reopen job st trigger steps).
Proof. unfold reopen. counts_tac. Qed.
#[local] Hint Resolve counts_cancel counts_reopen : keep.
Lemma counts_retry_job id : keeps counts (retry_job id).
Proof. unfold retry_job. counts_tac. Qed.
Lemma counts_forceRunAgain id : keeps counts (forceRunAgain id).
Proof. unfold forceRunAgain. counts_tac. Qed.
Lemma counts_runAgain id : keeps counts (runAgain id).
Proof. unfold runAgain. counts_tac. Qed.
Lemma counts_reschedule id at_ : keeps counts (reschedule id at_).
Proof. unfold reschedule. counts_tac. Qed.
Lemma counts_delete_run id : keeps counts (delete_run id).
Proof. unfold delete_run. counts_tac. Qed.
Lemma counts_foldr {A} (f : A -> tx unit) (l : list A) :
  (forall x, keeps counts (f x)) -> keeps counts (foldr (fun x rest => _ ← f x; rest) (mret tt) l).
Proof. intros H. induction l as [|x l IH]; [apply (keeps_ret _)|]. cbn [foldr]. apply (keeps_bind _); auto. Qed.
#[local] Hint Resolve counts_delete_run : keep.
Lemma counts_delete_runs fuel id : keeps counts (delete_runs fuel id).
Proof.
  induction fuel as [|fuel IH]; cbn [delete_runs]; [apply (keeps_ret _)|]. apply (keeps_bind _); [apply (keeps_get _)|]. intros rs.
  apply (keeps_bind _); [apply counts_foldr; intros; counts_tac|]. intros ?. counts_tac.
Qed.
#[local] Hint Resolve counts_delete_runs : keep.
Lemma counts_deleteWithRuns id : keeps counts (deleteWithRuns id).
Proof. unfold deleteWithRuns, delete_job. counts_tac. Qed.
#[local] Hint Resolve counts_deleteWithRuns : keep.
Lemma counts_delete id : keeps counts (delete_ id).
Proof. unfold delete_. counts_tac. Qed.
Lemma counts_perform op : keeps counts (perform op).
Proof. unfold perform, guarded_patch. counts_tac. Qed.
#[local] Hint Resolve counts_perform : keep.
Lemma counts_perform_all ops : keeps counts (perform_all ops).
Proof. apply counts_foldr. intros. counts_tac. Qed.
#[local] Hint Resolve counts_perform_all : keep.
Lemma counts_recover_each lives rs : keeps counts (recover_each lives rs).
Proof. induction rs as [|r rs IH]; cbn [recover_each]; counts_tac. Qed.
Lemma counts_openRun job t : keeps counts (openRun job t).
Proof. unfold openRun. counts_tac. Qed.
Lemma counts_runMutationJob job run h : keeps counts (runMutationJob job run h).
Proof. unfold runMutationJob. counts_tac. Qed.
#[local] Hint Resolve counts_recover_each counts_openRun counts_runMutationJob : keep.
Lemma counts_recover lives : keeps counts (recoverExpiredLeases lives).
Proof. unfold recoverExpiredLeases. counts_tac. Qed.
Lemma counts_claimNext handler cursor : keeps counts (claimNext handler cursor).
Proof. unfold claimNext, claim_job. counts_tac. Qed.
Lemma counts_settle c outcome : keeps counts (settle c outcome).
Proof. unfold settle. counts_tac. Qed.
Lemma counts_reap_run r : keeps counts (reap_run r).
Proof. unfold reap_run. counts_tac. Qed.
Lemma counts_reap t : keeps counts (reap t).
Proof.
  unfold reap. cbv zeta. apply (keeps_bind _); [counts_tac|]. intros js. apply (keeps_bind _); [apply counts_foldr; intros; counts_tac|]. intros ?.
  apply (keeps_bind _); [counts_tac|]. intros rs. apply (keeps_bind _); [apply counts_foldr, counts_reap_run|]. intros ?. counts_tac.
Qed.
Lemma counts_activate bootstrap json : keeps counts (activate bootstrap json).
Proof.
  unfold activate. apply (keeps_bind _); [counts_tac|]. intros t. induction bootstrap as [|name bootstrap IH]; [apply (keeps_ret _)|].
  cbn [foldr]. cbv zeta. counts_tac.
Qed.

(** A computation that keeps a relation, with what it may assume after. *)
Lemma wpr_keeps {A} (R : Store -> Store -> Prop) (m : tx A) (Q : A -> Store -> Prop) s :
  keeps R m -> (forall a s', R s s' -> Q a s') -> wpr m Q s.
Proof. intros Hk HQ. unfold wpr, wp. specialize (Hk s). destruct (m s) as [[a|e] s']; cbn in *; auto. Qed.

(** The token of an opened run is that of no lease before it. *)
Lemma openRun_token s j t :
  wpr (openRun j t) (fun run s' => leaseToken run = Some (t, S (leaseCounter s)) /\ (S (leaseCounter s) <= leaseCounter s')%nat) s.
Proof.
  unfold openRun. apply wpr_bind. unfold lease_counter, wpr at 1, wp. cbn [fst snd].
  set (s1 := MkStore _ _ _ _ _ _ _). assert (E1 : leaseCounter s1 = S (leaseCounter s)) by done. clearbody s1. rewrite <-E1.
  set (token := (t, leaseCounter s1)). fold (resumes j).
  apply wpr_bind. apply (wpr_keeps counts); [counts_tac|]. intros suspended s2 H2. unfold counts in H2.
  apply wpr_bind. apply (wpr_mono _ (fun o s' => match o with Some r => leaseToken r = Some token | None => True end /\ (leaseCounter s1 <= leaseCounter s')%nat)).
  { destruct suspended as [r|]; [|by apply wpr_ret]. case_decide; [|by apply wpr_ret]. apply wpr_bind.
    apply (wpr_keeps counts); [counts_tac|]. intros ? s3 H3. unfold counts in H3. apply wpr_ret. split; [done|lia]. }
  intros o s3 [Ho H3]. apply wpr_bind.
  apply (wpr_mono _ (fun run s' => leaseToken run = Some token /\ (leaseCounter s1 <= leaseCounter s')%nat)).
  { destruct o as [r|]; [by apply wpr_ret|]. unfold insert_run, wpr, wp. by case_decide. }
  intros run s4 [Hrun H4]. apply wpr_bind. apply (wpr_keeps counts); [counts_tac|]. intros ? s5 H5. unfold counts in H5.
  apply wpr_ret. split; [done|lia].
Qed.

(** A claim handed to the dispatcher. *)
Lemma claim_job_claims handler s j d t :
  jobs_ok (tables s) -> t_jobs (tables s) !! j_id j = Some j -> j_state j = JPending \/ j_state j = JRetrying ->
  definitions !! j_name j = Some d ->
  wpr (claim_job handler j d t) (fun r s' => match r with
    | ClaimedToRun c => claim_ok c (tables s') /\ cl_token c = (t, S (leaseCounter s)) /\ (S (leaseCounter s) <= leaseCounter s')%nat
    | SettledInline _ => True
    end) s.
Proof.
  intros Hok Hj Hst Hd. unfold claim_job. apply wpr_bind. eapply wpr_mono.
  { apply wpr_conj; [eapply wp_mono; [by apply (openRun_spec s j t)|]|apply (openRun_token s j t)].
    intros r s' (run & -> & Hc). exact Hc. }
  intros run s1 [(Hstep & [Hr _] & Hjid & Hj1 & _) [Ht Hcount]]. cbn beta in Hstep.
  case_decide as Hk; [apply wpr_bind, (wpr_keeps counts); [counts_tac|]; intros; by apply wpr_ret|].
  apply wpr_ret. rewrite Ht. split; [|done]. pose proof (jstep_keeps_jobs_ok _ _ Hok (or_intror (or_introl Hstep))) as Hok1.
  split; cbn [cl_run cl_job cl_number].
  - by apply (jo_run_ids _ Hok1 _ _ Hr).
  - by apply (jo_ids _ Hok1 _ _ Hj1).
  - intros r Hr'. assert (r = run) as -> by congruence. done.
  - intros j' Hj' Hm. assert (j' = claimed_job (number run) j) as -> by congruence. unfold mutation_kind in Hm. cbn in Hm.
    rewrite Hd in Hm. cbn in Hm. by injection Hm.
Qed.

Lemma claimNext_claims handler cursor s :
  jobs_ok (tables s) ->
  wpr (claimNext handler cursor) (fun r s' => match r with
    | Some (ClaimedToRun c, _) => claim_ok c (tables s') /\ (leaseCounter s < (cl_token c).2 <= leaseCounter s')%nat
    | _ => True
    end) s.
Proof.
  intros Hok. unfold claimNext. apply wpr_bind. unfold now, wpr at 1, wp. cbn [fst snd].
  set (s1 := MkStore _ _ _ _ _ _ _). assert (E1 : tables s1 = tables s) by done. assert (E2 : leaseCounter s1 = leaseCounter s) by done.
  clearbody s1. rewrite <-E1 in Hok. rewrite <-E2.
  apply wpr_bind, wpr_get, wpr_bind, wpr_get. destruct (claim_pages _ _ _ _ _) as [[j d]|] eqn:E; [|by apply wpr_ret].
  apply claim_pages_Some in E as ([i Hi] & Hst & _ & _ & [Hd _]%eligible_Some). pose proof (jo_ids _ Hok _ _ Hi) as [Hid _].
  apply wpr_bind. eapply wpr_mono; [apply claim_job_claims; [done|by rewrite Hid|done|done]|].
  intros [n|c] s2 Hs; apply wpr_ret; [done|]. destruct Hs as (Hc & Ht & Hle). split; [done|]. rewrite Ht. cbn [snd]. lia.
Qed.
End runner.

#[export] Hint Resolve counts_now counts_lease_counter counts_insert_job counts_insert_run counts_patch_job counts_patch_run
  counts_insertJob counts_enqueueWith counts_mintRepeat counts_settleJobIn counts_settleFailureIn counts_settleSuccessIn counts_requireJob
  counts_latest_run counts_conflict counts_cancel counts_reopen counts_retry_job counts_forceRunAgain counts_runAgain counts_reschedule
  counts_delete_run counts_delete_runs counts_deleteWithRuns counts_delete counts_perform counts_perform_all counts_recover_each
  counts_openRun counts_runMutationJob counts_recover counts_claimNext counts_settle counts_reap counts_activate : keep.
#[export] Hint Extern 1 (keeps counts (modify _)) => apply counts_modify; intros; reflexivity : keep.

Ltac counts_tac := repeat first [solve [eauto with keep nocore]|keeps_split|case_decide].
