(* ===== verification/JobSteps.v ===== *)
(** The durable steps of a procedure-kind job.

    Models [server/src/runtime/jobs/steps.ts]: the journal of completed steps, a
    run's resolution of a named step against it, and the transactions that record
    a step or suspend the run. What the language makes of JSON texts is a
    parameter, and so is what a callee does besides writing the jobs tables. *)
From S2P Require Import Prelude Errors Limits Effects Value Jobs.
Local Open Scope Z_scope.

(** [JSON.parse] and [JSON.stringify]. *)
Class JsonText : Type := {
  JSON_parse : string -> option value;
  JSON_stringify : value -> string;
}.

Definition MAX_JOURNAL_STEPS : Z := 1000.
Definition MAX_JOURNAL_BYTES : Z := 1048576.

Inductive CalleeKind : Type := CalleeQuery | CalleeMutation | CalleeProcedure.
Inductive StepKind : Type := StepRun | StepInline (kind : CalleeKind) | StepSleep.

#[export] Instance CalleeKind_eq_dec : EqDecision CalleeKind.
Proof. solve_decision. Defined.
#[export] Instance StepKind_eq_dec : EqDecision StepKind.
Proof. solve_decision. Defined.

Definition callee_name (k : CalleeKind) : string :=
  match k with CalleeQuery => "query" | CalleeMutation => "mutation" | CalleeProcedure => "procedure" end.
Definition kind_name (k : StepKind) : string :=
  match k with StepRun => "run" | StepInline k => callee_name k | StepSleep => "sleep" end.

Definition quotes : string := String (byte_ascii 34) EmptyString.

Definition StepRefusalError {A} (step detail : string) : exc js_error A :=
  throw_AckerDBError conflict ("step " +:+ quotes +:+ step +:+ quotes +:+ ": " +:+ detail) no_options.

(** [typeof x === "string"] and [typeof x === "number" && Number.isFinite(x)] *)
Definition is_string (x : value) : bool := match x with VStr _ => true | _ => false end.
Definition is_finite (x : value) : bool := match x with VNum n => num_is_finite n | _ => false end.
Definition is_text (x : value) : bool := match x with VStr s => bool_decide (0 < utf16_length s) | _ => false end.

Definition CALLEE_KINDS : list string := ["query"; "mutation"; "procedure"]%string.

Definition isStepJournalEntry (x : value) : bool :=
  match x with
  | VObj entry =>
      is_text (field "name" entry) && is_finite (field "completedAt" entry) &&
      match field "kind" entry with
      | VStr kind =>
          if decide (kind = "run"%string) then
            is_text (field "ref" entry) && bool_decide (field "calleeKind" entry ∈ VStr <$> CALLEE_KINDS) &&
            is_text (field "argsHash" entry) && is_string (field "result" entry)
          else if decide (kind ∈ CALLEE_KINDS) then is_string (field "result" entry)
          else if decide (kind = "sleep"%string) then is_finite (field "wakeAt" entry)
          else false
      | _ => false
      end
  | _ => false
  end.

(** [entry.key] of an entry, and the text there. *)
Definition entry_field (key : string) (x : value) : value := match x with VObj entry => field key entry | _ => VUndefined end.
Definition text_of (x : value) : string := match x with VStr s => s | _ => ""%string end.
Definition entry_name (x : value) : string := text_of (entry_field "name" x).
Definition entry_kind (x : value) : string := text_of (entry_field "kind" x).

Fixpoint check_names (names : list string) (entries : list value) : exc js_error unit :=
  match entries with
  | [] => Ret tt
  | x :: rest =>
      if decide (entry_name x ∈ names) then StepRefusalError (entry_name x) "the journal records this name twice; an ambiguous entry must not replay"
      else check_names (entry_name x :: names) rest
  end.

Section steps.
Context {rt : JobsRuntime} {text : JsonText}.

Abbreviation tx := (Effects.eff Store).

Definition parseStepJournal (stepsJson : option string) : exc js_error (list value) :=
  match stepsJson with
  | None => Ret []
  | Some json =>
      match JSON_parse json with
      | None => StepRefusalError "journal" "stepsJson is not readable JSON; the bytes are preserved on the row"
      | Some (VArr parsed) =>
          if forallb isStepJournalEntry parsed then _ ← check_names [] parsed; Ret parsed
          else StepRefusalError "journal" "stepsJson is not a valid step journal; the bytes are preserved on the row"
      | Some _ => StepRefusalError "journal" "stepsJson is not a valid step journal; the bytes are preserved on the row"
      end
  end.

(** ** One dispatched run *)

Record JobSteps : Type := MkSteps {
  entries : list (string * value);
  seen : list string;
  corruption : option js_error;
}.

Definition set_entries (x : list (string * value)) (s : JobSteps) : JobSteps := MkSteps x (seen s) (corruption s).

Definition new_JobSteps (stepsJson : option string) : JobSteps :=
  match parseStepJournal stepsJson with
  | Ret journal => MkSteps (foldl (fun m x => jmap_set (entry_name x) x m) [] journal) [] None
  | Throw e => MkSteps [] [] (Some e)
  end.

(** The resolution of a named step: the recorded entry, nothing, or a refusal. *)
Definition claim (name : string) (kind : StepKind) (check : value -> option string) : Effects.eff JobSteps (option value) :=
  bad ← get corruption;
  match bad with
  | Some e => throw e
  | None =>
      if decide (utf16_length name = 0) then lift (throw_AckerDBError validation "step names must be non-empty strings" no_options)
      else
        known ← get seen;
        if decide (name ∈ known) then lift (StepRefusalError name "duplicate step name in one run — names are identities")
        else
          _ ← modify (fun s => MkSteps (entries s) (name :: seen s) (corruption s));
          m ← get entries;
          match jmap_get name m with
          | None => mret None
          | Some entry =>
              if decide (entry_kind entry = kind_name kind) then
                match check entry with
                | Some detail => lift (StepRefusalError name detail)
                | None => mret (Some entry)
                end
              else lift (StepRefusalError name ("journaled as " +:+ entry_kind entry +:+ ", code says " +:+ kind_name kind))
          end
  end.

(** The check of [step.run]: the callee and the arguments are those recorded. *)
Definition check_run (address : string) (kind : CalleeKind) (argsHash : string) (entry : value) : option string :=
  if decide (text_of (entry_field "ref" entry) = address) then
    if decide (text_of (entry_field "calleeKind" entry) = callee_name kind) then
      if decide (text_of (entry_field "argsHash" entry) = argsHash) then None
      else Some "journaled args differ — replay must be deterministic, so this proves code drift or nondeterminism outside steps"%string
    else Some ("journaled a " +:+ text_of (entry_field "calleeKind" entry) +:+ ", " +:+ quotes +:+ address +:+ quotes +:+ " is now a " +:+ callee_name kind)
  else Some ("journaled ref " +:+ quotes +:+ text_of (entry_field "ref" entry) +:+ quotes +:+ ", code names " +:+ quotes +:+ address +:+ quotes).

Definition run_entry (name address : string) (kind : CalleeKind) (argsHash result : string) (t : Z) : value :=
  VObj [("name", VStr name); ("kind", VStr "run"); ("ref", VStr address); ("calleeKind", VStr (callee_name kind));
        ("argsHash", VStr argsHash); ("result", VStr result); ("completedAt", VNum (num_of_Z t))]%string.
Definition inline_entry (name : string) (kind : CalleeKind) (result : string) (t : Z) : value :=
  VObj [("name", VStr name); ("kind", VStr (callee_name kind)); ("result", VStr result); ("completedAt", VNum (num_of_Z t))]%string.
Definition sleep_entry (name : string) (wakeAt t : Z) : value :=
  VObj [("name", VStr name); ("kind", VStr "sleep"); ("wakeAt", VNum (num_of_Z wakeAt)); ("completedAt", VNum (num_of_Z t))]%string.

(** ** The transactions of a step *)

Definition owned (c : ClaimedRun) (run : option JobRunRow) : bool :=
  match run with Some r => bool_decide (r_state r = RRunning /\ leaseToken r = Some (cl_token c)) | None => false end.

Definition superseded {A} : tx A := lift (throw_AckerDBError unavailable_ "job run was superseded; its steps may not record" no_options).

Definition assertOwned (c : ClaimedRun) : tx unit :=
  rs ← get runs;
  if owned c (rs !! cl_run c) then mret tt else superseded.

Definition appendIn (c : ClaimedRun) (entry : value) : tx unit :=
  _ ← assertOwned c;
  js ← get jobs;
  match js !! cl_job c with
  | None => superseded
  | Some job =>
      journal ← lift (parseStepJournal (stepsJson job));
      let journal := journal ++ [entry] in
      if decide (MAX_JOURNAL_STEPS < Z.of_nat (length journal)) then lift (StepRefusalError (entry_name entry) "the journal is full (1000 steps)")
      else
        let encoded := JSON_stringify (VArr journal) in
        if decide (MAX_JOURNAL_BYTES < utf16_length encoded)
        then lift (StepRefusalError (entry_name entry) "the journal exceeds 1048576 bytes; record smaller results or use child jobs")
        else patch_job (cl_job c) (set_stepsJson (Some encoded))
  end.

(** A step whose work is in the transaction that records it: what it does to
    the jobs tables, then its entry or what it threw. *)
Definition transactional_step (c : ClaimedRun) (ops : list AppOp) (entry : exc js_error value) : tx unit :=
  _ ← assertOwned c;
  _ ← perform_all ops;
  entry ← lift entry;
  appendIn c entry.

(** The transaction of [step.sleep]. *)
Definition sleep (c : ClaimedRun) (name : string) (wakeAt : Z) : tx unit :=
  t ← now;
  _ ← appendIn c (sleep_entry name wakeAt t);
  _ ← patch_run (cl_run c) (fun r => set_leaseUntil None (set_leaseToken None r));
  patch_job (cl_job c) (fun j => set_nextRunTrigger None (set_nextRunAt wakeAt (set_j_state JPending j))).
End steps.
