(* ===== verification/JobsMain.v ===== *)
(** What holds of every history of the job runner: the transactions of the
    application, of administrators, of handlers and of the runner itself, in any
    order, each committed or not, with restarts of the process between them. First
    the histories and their invariant, then the order in which jobs are claimed,
    then what follows. *)
From stdpp Require Import sorting.
From S2P Require Import Prelude Errors Limits Effects Value Jobs JobsSpec JobsProps JobSteps.
Local Open Scope Z_scope.

Section history.
Context {rt : JobsRuntime} {text : JsonText}.

Abbreviation tx := (Effects.eff Store).

(** ** Steps *)

Lemma owned_open c s :
  jobs_ok (tables s) -> owned c (runs s !! cl_run c) = true ->
  exists r, runs s !! cl_run c = Some r /\ open_run (tables s) r /\ leaseToken r = Some (cl_token c).
Proof.
  intros Hok Ho. destruct (runs s !! cl_run c) as [r|] eqn:E; [|done]. cbn in Ho. apply bool_decide_eq_true in Ho as [Hst Ht].
  exists r. destruct (jo_run_ids _ Hok _ _ E) as [Hid _]. split_and!; [done|split; [by rewrite Hid|done]|done].
Qed.

Lemma superseded_wpr {A} (Q : A -> Store -> Prop) s : wpr superseded Q s.
Proof. unfold superseded. apply wpr_lift. unfold throw_AckerDBError. by intros a. Qed.

Lemma refusal_wpr {A} step detail (Q : A -> Store -> Prop) s : wpr (lift (StepRefusalError step detail)) Q s.
Proof. apply wpr_lift. unfold StepRefusalError, throw_AckerDBError. by intros a. Qed.

Lemma assertOwned_wpr c (Q : unit -> Store -> Prop) s : (owned c (runs s !! cl_run c) = true -> Q tt s) -> wpr (assertOwned c) Q s.
Proof. intros H. unfold assertOwned. apply wpr_bind, wpr_get. destruct (owned _ _); [by apply wpr_ret, H|apply superseded_wpr]. Qed.

(** A recorded entry: the journal of the job, longer by one. *)
Lemma appendIn_spec c entry s :
  wpr (appendIn c entry) (fun _ s' => exists j journal,
    owned c (runs s !! cl_run c) = true /\ t_jobs (tables s) !! cl_job c = Some j /\ parseStepJournal (stepsJson j) = Ret journal /\
    let encoded := JSON_stringify (VArr (journal ++ [entry])) in
    tables s' = MkTables (<[cl_job c := set_stepsJson (Some encoded) j]> (t_jobs (tables s))) (t_runs (tables s)) (t_nextJob (tables s)) (t_nextRun (tables s)) (t_effects (tables s)) /\
    Z.of_nat (length journal) < MAX_JOURNAL_STEPS /\ utf16_length encoded <= MAX_JOURNAL_BYTES) s.
Proof.
  unfold appendIn. apply wpr_bind, assertOwned_wpr. intros Ho. apply wpr_bind, wpr_get.
  destruct (jobs s !! cl_job c) as [j|] eqn:Ej; [|apply superseded_wpr].
  apply wpr_bind, wpr_lift. intros journal Hp. cbv zeta. case_decide as Hn; [apply refusal_wpr|]. case_decide as Hb; [apply refusal_wpr|].
  apply wpr_patch_job. intros j0 s' Hj0 E. assert (j0 = j) as -> by (cbn in Hj0; congruence).
  exists j, journal. rewrite length_app in Hn. cbn [length] in Hn. split_and!; [done|done|done|done|lia|lia].
Qed.

Lemma appendIn_steps c entry s :
  jobs_ok (tables s) -> claim_ok c (tables s) -> wpr (appendIn c entry) (fun _ s' => jsteps (tables s) (tables s')) s.
Proof.
  intros Hok Hc. eapply wpr_mono; [apply appendIn_spec|]. intros ? s' (j & journal & Ho & Hj & _ & E & _).
  destruct (jo_ids _ Hok _ _ Hj) as [Hid _]. destruct (owned_open _ _ Hok Ho) as (r & Hr & Hopen & _).
  destruct (ck_run _ _ Hc _ Hr) as [Hjid _]. assert (Hjj : t_jobs (tables s) !! j_id j = Some j) by congruence.
  apply rtc_once. rewrite E, <-Hid. apply (step_journal (tables s) j); [done|].
  by apply (open_unsettled _ _ _ Hok Hjj Hopen ltac:(congruence)).
Qed.

Lemma transactional_step_steps c ops entry s :
  jobs_ok (tables s) -> claim_ok c (tables s) -> wpr (transactional_step c ops entry) (fun _ s' => jsteps (tables s) (tables s')) s.
Proof.
  intros Hok Hc. unfold transactional_step. apply wpr_bind, assertOwned_wpr. intros _. apply wpr_bind.
  eapply wp_mono; [by apply perform_all_frame|]. intros r s1 [-> Hf]. apply wpr_bind, wpr_lift. intros x _.
  pose proof (jsteps_ok _ _ Hok (af_steps _ _ Hf)) as Hok1.
  eapply wpr_mono; [apply appendIn_steps; [done|]|].
  - eapply claim_ok_evolves; [exact Hc|]. by apply jmoves_evolves, jsteps_moves, af_steps.
  - intros ? s2 Hs. exact (transitivity (af_steps _ _ Hf) Hs).
Qed.

Lemma sleep_steps c name wakeAt s :
  jobs_ok (tables s) -> claim_ok c (tables s) -> wpr (sleep c name wakeAt) (fun _ s' => jsteps (tables s) (tables s')) s.
Proof.
  intros Hok Hc. unfold sleep. apply wpr_bind, wpr_now. intros t s1 E1. rewrite <-E1 in Hok, Hc |- *.
  apply wpr_bind. eapply wpr_mono; [apply wpr_conj; [apply appendIn_spec|by apply appendIn_steps]|].
  intros ? s2 [(j & journal & Ho & Hj & _ & E2 & _) Hs2]. pose proof (jsteps_ok _ _ Hok Hs2) as Hok2.
  destruct (owned_open _ _ Hok Ho) as (r & Hr & [Hr' Hst] & _). destruct (jo_ids _ Hok _ _ Hj) as [Hid _].
  destruct (jo_run_ids _ Hok _ _ Hr) as [Hrid _]. destruct (ck_run _ _ Hc _ Hr) as [Hjid _].
  apply wpr_bind, wpr_patch_run. intros r0 s3 Hr0 E3. rewrite E2 in Hr0. cbn in Hr0. assert (r0 = r) as -> by congruence.
  apply wpr_patch_job. intros j0 s4 Hj0 E4. rewrite E3, E2 in Hj0. cbn in Hj0. rewrite lookup_insert_eq in Hj0. injection Hj0 as <-.
  eapply rtc_r; [exact Hs2|]. rewrite E4, E3, E2. cbn [t_jobs t_runs t_nextJob t_nextRun t_effects].
  set (j' := set_stepsJson _ j). pose proof (step_sleep (tables s2) j' r wakeAt) as Hstep.
  unfold with_job, with_run in Hstep. rewrite E2 in Hstep. cbn in Hstep. rewrite Hid, Hrid in Hstep. apply Hstep.
  - by rewrite lookup_insert_eq.
  - split; [|done]. cbn. by rewrite Hrid.
  - congruence.
Qed.

(** ** The world *)

(** The claims handed to the handlers of this process. *)
Record World : Type := MkWorld { w_store : Store; w_claims : list ClaimedRun }.

Definition empty_world : World := MkWorld empty_store [].

Inductive Event : Type :=
  | EvApplication (ops : list AppOp)
  | EvCancel (id : Z)
  | EvRetry (id : Z)
  | EvForce (id : Z)
  | EvRunAgain (id : Z)
  | EvDelete (id : Z)
  | EvReschedule (id : Z) (at_ : ms)
  | EvActivate (bootstrap : list string) (json : string)
  | EvRecover (lives_here : Z -> bool)
  | EvClaim (handler : JobRunRow -> MutationHandler) (cursor : option JobCursor)
  | EvSettle (c : ClaimedRun) (outcome : exc RunError (exc js_error string))
  | EvAppend (c : ClaimedRun) (entry : value)
  | EvStep (c : ClaimedRun) (ops : list AppOp) (entry : exc js_error value)
  | EvSleep (c : ClaimedRun) (name : string) (wakeAt : Z)
  | EvReap (t : Z)
  | EvRestart.

(** The claim whose handler the event comes from. *)
Definition event_claim (e : Event) : option ClaimedRun :=
  match e with EvSettle c _ | EvAppend c _ | EvStep c _ _ | EvSleep c _ _ => Some c | _ => None end.

(** The transaction of an event, and the claim it hands out. *)
Definition transaction (e : Event) : tx (option ClaimedRun) :=
  match e with
  | EvApplication ops => _ ← perform_all ops; mret None
  | EvCancel id => _ ← cancel id; mret None
  | EvRetry id => _ ← retry_job id; mret None
  | EvForce id => _ ← forceRunAgain id; mret None
  | EvRunAgain id => _ ← runAgain id; mret None
  | EvDelete id => _ ← delete_ id; mret None
  | EvReschedule id at_ => _ ← reschedule id at_; mret None
  | EvActivate bootstrap json => _ ← activate bootstrap json; mret None
  | EvRecover lives_here => _ ← recoverExpiredLeases lives_here; mret None
  | EvClaim handler cursor =>
      r ← claimNext handler cursor;
      mret match r with Some (ClaimedToRun c, _) => Some c | _ => None end
  | EvSettle c outcome => _ ← settle c outcome; mret None
  | EvAppend c entry => _ ← appendIn c entry; mret None
  | EvStep c ops entry => _ ← transactional_step c ops entry; mret None
  | EvSleep c name wakeAt => _ ← sleep c name wakeAt; mret None
  | EvReap t => _ ← reap t; mret None
  | EvRestart => mret None
  end.

#[export] Instance ClaimedRun_eq_dec : EqDecision ClaimedRun.
Proof. solve_decision. Defined.

(** A handler lives as long as the process that dispatched it. *)
Definition handler_lives (w : World) (e : Event) : bool :=
  match event_claim e with Some c => bool_decide (c ∈ w_claims w) | None => true end.

Definition restarted (s : Store) : Store := MkStore (jobs s) (runs s) (nextJobId s) (nextRunId s) (effects s) 0 (readings s).

Definition happens (w : World) (ev : Event * bool) : World :=
  match ev with
  | (EvRestart, _) => MkWorld (restarted (w_store w)) []
  | (e, commits) =>
      if handler_lives w e then
        let '(r, s') := jobsWrite commits (transaction e) (w_store w) in
        MkWorld s' match r with Ret (Some c) => c :: w_claims w | _ => w_claims w end
      else w
  end.

Definition history (w : World) (evs : list (Event * bool)) : World := foldl happens w evs.

(** ** The invariant of a history *)

Record world_ok (w : World) : Prop := {
  wo_jobs : jobs_ok (tables (w_store w));
  wo_claims : forall c, c ∈ w_claims w -> claim_ok c (tables (w_store w)) /\ ((cl_token c).2 <= leaseCounter (w_store w))%nat;
  wo_tokens : NoDup (cl_token <$> w_claims w);
}.

(** An administrator makes a settled job wait again. *)
Definition reopens (e : Event) (id : Z) : Prop := e = EvRetry id \/ e = EvForce id.

(** What the transaction of an event does to the tables: it sets no job running,
    or claims one, or reopens the one it names. *)
Definition outcome_of (e : Event) (s s' : Store) : Prop :=
  jsteps (tables s) (tables s') \/
  (exists cursor j d, candidate (clock (readings s)) cursor s j d /\ claims_job j (tables s) (tables s')) \/
  exists id, reopens e id /\ rtc (jreopen id) (tables s) (tables s').

Lemma outcome_moves e s s' : outcome_of e s s' -> jmoves (tables s) (tables s').
Proof.
  intros [Hs|[(cursor & j & d & _ & Hc)|(id & _ & Hs)]]; [by apply jsteps_moves|by eapply claims_job_moves|by eapply reopening_moves].
Qed.

Lemma outcome_settled_kept e s s' : jobs_ok (tables s) -> outcome_of e s s' -> settled_kept (reopens e) (tables s) (tables s').
Proof.
  intros Hok Ho.
  assert (Hrtc : forall R T T', (forall T T', R T T' -> jcalm T T' \/ jclaim T T' \/ exists id, reopens e id /\ jreopen id T T') ->
    jobs_ok T -> rtc R T T' -> settled_kept (reopens e) T T' /\ jobs_ok T' /\ evolves T T').
  { intros R T T' HR HT Hs. induction Hs as [T|T1 T2 T3 H12 H23 IH]; [split_and!; [apply settled_kept_refl|done|apply evolves_refl]|].
    specialize (HR _ _ H12). assert (Hj : jstep T1 T2) by (destruct HR as [?|[?|(id & _ & ?)]]; [by left|by right; left|right; right; by exists id]).
    destruct (IH (jstep_keeps_jobs_ok _ _ HT Hj)) as (K & Hok3 & E). pose proof (jstep_evolves _ _ HT Hj) as E1.
    split_and!; [|done|by eapply evolves_trans]. eapply settled_kept_trans; [exact HT|exact E1|exact E|by apply jstep_settled_kept|exact K]. }
  destruct Ho as [Hs|[(cursor & j & d & _ & (T1 & Hc & _ & Hs))|(id & Hr & Hs)]].
  - eapply (Hrtc jcalm); [by left|done|done].
  - assert (Hj : jstep (tables s) T1) by (by right; left). pose proof (jstep_keeps_jobs_ok _ _ Hok Hj) as Hok1.
    destruct (Hrtc jcalm T1 (tables s') ltac:(by left) Hok1 Hs) as (K & _ & E).
    eapply settled_kept_trans; [exact Hok|by apply jstep_evolves|exact E|apply jstep_settled_kept; [done|by right; left]|exact K].
  - eapply (Hrtc (jreopen id)); [|done|done]. intros T T' Ht. right. right. by exists id.
Qed.

Lemma transaction_steps e w :
  world_ok w -> handler_lives w e = true ->
  wpr (transaction e) (fun _ s' => outcome_of e (w_store w) s') (w_store w).
Proof.
  intros [Hok Hc _] Hl.
  assert (Hclaim : forall c, event_claim e = Some c -> claim_ok c (tables (w_store w))).
  { intros c Ec. unfold handler_lives in Hl. rewrite Ec in Hl. apply bool_decide_eq_true in Hl. by apply Hc. }
  assert (Hcalm : forall {A} (m : tx A), wpr m (fun _ s' => jsteps (tables (w_store w)) (tables s')) (w_store w) ->
    wpr (_ ← m; mret (None : option ClaimedRun)) (fun _ s' => outcome_of e (w_store w) s') (w_store w)).
  { intros A m Hm. apply wpr_bind. eapply wpr_mono; [exact Hm|]. intros ? s' Hs. apply wpr_ret. by left. }
  assert (Hreopen : forall {A} (m : tx A) id, reopens e id -> wpr m (fun _ s' => rtc (jreopen id) (tables (w_store w)) (tables s')) (w_store w) ->
    wpr (_ ← m; mret (None : option ClaimedRun)) (fun _ s' => outcome_of e (w_store w) s') (w_store w)).
  { intros A m id He Hm. apply wpr_bind. eapply wpr_mono; [exact Hm|]. intros ? s' Hs. apply wpr_ret. right. right. by exists id. }
  destruct e; cbn [transaction event_claim] in *;
    [apply Hcalm|apply Hcalm|apply (Hreopen _ _ id); [by left|]|apply (Hreopen _ _ id); [by right|]|apply Hcalm..| |apply Hcalm|apply Hcalm|apply Hcalm|apply Hcalm|apply Hcalm|].
  - eapply wp_mono; [by apply perform_all_frame|]. intros r s' [-> Hf]. apply Hf.
  - by apply cancel_steps.
  - by apply retry_job_steps.
  - by apply forceRunAgain_steps.
  - by apply runAgain_steps.
  - by apply delete_steps.
  - by apply reschedule_steps.
  - by apply activate_steps.
  - by apply recover_steps.
  - apply wpr_bind. eapply wpr_mono; [by apply claimNext_steps|]. intros [[r c]|] s' Hs; apply wpr_ret.
    + right. left. destruct Hs as (j & d & Hj & _ & Hs). eauto.
    + left. by rewrite Hs.
  - apply settle_steps; auto.
  - apply appendIn_steps; auto.
  - apply transactional_step_steps; auto.
  - apply sleep_steps; auto.
  - by apply reap_steps.
  - apply wpr_ret. by left.
Qed.

Lemma counts_appendIn c entry : keeps counts (appendIn c entry).
Proof. unfold appendIn, assertOwned, superseded. counts_tac. Qed.
#[local] Hint Resolve counts_appendIn : keep.

Lemma counts_transaction e : keeps counts (transaction e).
Proof. destruct e; cbn [transaction]; unfold transactional_step, sleep, assertOwned, superseded; counts_tac. Qed.

Lemma transaction_claims e s :
  jobs_ok (tables s) ->
  wpr (transaction e) (fun r s' => match r with
    | Some c => claim_ok c (tables s') /\ (leaseCounter s < (cl_token c).2 <= leaseCounter s')%nat
    | None => True
    end) s.
Proof.
  intros Hok.
  assert (Hnone : forall {A} (m : tx A), wpr (_ ← m; mret None) (fun r s' => match r with
    | Some c => claim_ok c (tables s') /\ (leaseCounter s < (cl_token c).2 <= leaseCounter s')%nat
    | None => True
    end) s) by (intros A m; unfold wpr, wp; rewrite run_bind; by destruct (m s) as [[a|x] s']).
  destruct e; cbn [transaction]; try apply Hnone; [|done].
  apply wpr_bind. eapply wpr_mono; [by apply claimNext_claims|]. intros [[[n|c] cur]|] s' H; apply wpr_ret; done.
Qed.

Lemma rollback_tables s s' : tables (rollback s s') = tables s.
Proof. done. Qed.

(** An event is a sequence of steps of the machine, and keeps the invariant. *)
Lemma happens_ok w ev : world_ok w -> world_ok (happens w ev) /\ outcome_of ev.1 (w_store w) (w_store (happens w ev)).
Proof.
  intros Hw. destruct ev as [e commits]. pose proof Hw as [Hok Hc Ht].
  assert (Hrestart : world_ok (MkWorld (restarted (w_store w)) []) /\ outcome_of e (w_store w) (restarted (w_store w))).
  { split; [|by left]. split; [done|intros c; by intros ?%not_elem_of_nil|constructor]. }
  assert (Hstep : e <> EvRestart -> handler_lives w e = true ->
    let '(r, s') := jobsWrite commits (transaction e) (w_store w) in
    let w' := MkWorld s' match r with Ret (Some c) => c :: w_claims w | _ => w_claims w end in
    world_ok w' /\ outcome_of e (w_store w) s').
  { intros _ Hl. pose proof (transaction_steps e w Hw Hl) as Hs. pose proof (transaction_claims e (w_store w) Hok) as Hn.
    pose proof (counts_transaction e (w_store w)) as Hm. unfold wpr, wp in Hs, Hn. unfold jobsWrite.
    destruct (transaction e (w_store w)) as [r s'] eqn:E. cbn [fst snd] in Hs, Hn, Hm. unfold counts in Hm.
    assert (Hfail : world_ok (MkWorld (rollback (w_store w) s') (w_claims w)) /\
      outcome_of e (w_store w) (rollback (w_store w) s')).
    { split; [|by left]. split; [done| |done]. intros c Hcin. destruct (Hc _ Hcin) as [? ?]. split; [done|]. cbn. lia. }
    destruct r as [a|x]; [|exact Hfail]. destruct commits; [|exact Hfail]. split; [|done].
    pose proof (outcome_moves _ _ _ Hs) as Hmv.
    pose proof (jmoves_ok _ _ Hok Hmv) as Hok'. pose proof (jmoves_evolves _ _ Hok Hmv) as He.
    assert (Hold : forall c, c ∈ w_claims w -> claim_ok c (tables s') /\ ((cl_token c).2 <= leaseCounter s')%nat).
    { intros c Hcin. destruct (Hc _ Hcin) as [Hck Hle]. split; [by eapply claim_ok_evolves|lia]. }
    destruct a as [c|]; [|by split]. destruct Hn as [Hck Hlt]. split; cbn [w_store w_claims]; [done| |].
    - intros c' [->|Hcin]%elem_of_cons; [split; [done|lia]|by apply Hold].
    - rewrite fmap_cons. apply NoDup_cons. split; [|done]. intros Hin. apply list_elem_of_fmap in Hin as (c' & Heq & Hcin).
      destruct (Hc _ Hcin) as [_ Hle]. rewrite <-Heq in Hle. lia. }
  unfold happens. destruct (handler_lives w e) eqn:Hl.
  2: { destruct e; first [discriminate Hl|split; [done|by left]]. }
  destruct e; [..|exact Hrestart]; specialize (Hstep ltac:(discriminate) eq_refl);
    destruct (jobsWrite commits _ (w_store w)) as [r s']; exact Hstep.
Qed.

Lemma world_history_ok evs w : world_ok w -> world_ok (history w evs) /\ jmoves (tables (w_store w)) (tables (w_store (history w evs))).
Proof.
  revert w. induction evs as [|ev evs IH]; intros w Hw; [by split|]. destruct (happens_ok w ev Hw) as [Hw1 Hs1].
  destruct (IH _ Hw1) as [Hw2 Hs2]. split; [done|]. exact (transitivity (outcome_moves _ _ _ Hs1) Hs2).
Qed.

Lemma history_settled_kept evs w : world_ok w ->
  settled_kept (fun id => Exists (fun ev => reopens ev.1 id) evs) (tables (w_store w)) (tables (w_store (history w evs))).
Proof.
  revert w. induction evs as [|ev evs IH]; intros w Hw; [apply settled_kept_refl|]. destruct (happens_ok w ev Hw) as [Hw1 Hs1].
  pose proof (wo_jobs _ Hw) as Hok. pose proof (outcome_settled_kept _ _ _ Hok Hs1) as [K1 K2]. destruct (IH _ Hw1) as [K3 K4].
  destruct (world_history_ok evs _ Hw1) as [_ Hm].
  eapply settled_kept_trans; [exact Hok|by eapply jmoves_evolves, outcome_moves|apply jmoves_evolves; [apply Hw1|exact Hm]|split|split].
  - intros id j j' Hp. apply K1. intros He. apply Hp. by left.
  - intros i r r' Hp. apply K2. intros He. apply Hp. by left.
  - intros id j j' Hp. apply K3. intros He. apply Hp. by right.
  - intros i r r' Hp. apply K4. intros He. apply Hp. by right.
Qed.

Lemma empty_world_ok : world_ok empty_world.
Proof. split; [apply empty_tables_ok|intros c; by intros ?%not_elem_of_nil|constructor]. Qed.

Lemma history_from_empty evs : world_ok (history empty_world evs).
Proof. apply world_history_ok, empty_world_ok. Qed.
End history.

(** * The order of claims *)

(** ** Sorted lists *)

(** What a page of a sorted list leaves out comes after all of it. *)
Lemma sorted_page {A} (R : relation A) (l : list A) n x :
  StronglySorted R l -> x ∈ l -> x ∉ take n l -> length (take n l) = n /\ forall y, y ∈ take n l -> R y x.
Proof.
  intros Hs Hx Hn. assert (Hd : x ∈ drop n l) by (rewrite <-(take_drop n l), elem_of_app in Hx; by destruct Hx).
  split.
  - rewrite length_take. destruct (decide (length l <= n)%nat) as [Hle|Hgt]; [|lia]. rewrite drop_ge in Hd by done. by apply not_elem_of_nil in Hd.
  - intros y Hy. rewrite <-(take_drop n l) in Hs. revert Hs Hy. generalize (take n l) as k. induction k as [|z k IH]; intros Hs Hy; [by apply not_elem_of_nil in Hy|].
    cbn in Hs. apply StronglySorted_inv in Hs as [Hs Hf]. apply elem_of_cons in Hy as [->|Hy]; [|by apply IH].
    rewrite Forall_forall in Hf. apply Hf. apply elem_of_app. by right.
Qed.

(** A stronger test that one element fails leaves fewer. *)
Lemma filter_shrinks {A} (p q : A -> bool) l x :
  (forall y, p y = true -> q y = true) -> x ∈ l -> q x = true -> p x = false -> (length (filter p l) < length (filter q l))%nat.
Proof.
  intros Hpq Hx Hq Hp. apply list_elem_of_split in Hx as (l1 & l2 & ->).
  assert (Hle : forall l, (length (filter p l) <= length (filter q l))%nat).
  { clear l1 l2. induction l as [|y l IH]; [done|]. rewrite !filter_cons. specialize (Hpq y).
    destruct (decide (p y)) as [H1|H1], (decide (q y)) as [H2|H2]; cbn [length]; try lia. destruct H2. by apply Is_true_true, Hpq, Is_true_true. }
  rewrite !filter_app, !filter_cons, !length_app. rewrite (decide_False (P := Is_true (p x))) by (rewrite Hp; tauto). rewrite (decide_True (P := Is_true (q x))) by (by rewrite Hq).
  cbn [length]. pose proof (Hle l1). pose proof (Hle l2). lia.
Qed.

Section queue.
Context {rt : JobsRuntime}.

#[export] Instance due_le_trans : Transitive due_le.
Proof. intros a b c. unfold due_le. lia. Qed.
#[export] Instance due_le_total : Total due_le.
Proof. intros a b. unfold due_le. lia. Qed.
Lemma due_le_refl j : due_le j j.
Proof. unfold due_le. lia. Qed.

(** A due job, after a cursor. *)
Definition is_due (t : Z) (cursor : option JobCursor) (s : Store) (j : JobRow) : Prop :=
  (exists i, jobs s !! i = Some j) /\ (j_state j = JPending \/ j_state j = JRetrying) /\ nextRunAt j <= t /\ after_cursor cursor j = true.

Lemma job_rows_nodup s : jobs_ok (tables s) -> NoDup (j_id <$> job_rows s).
Proof.
  intros Hok. unfold job_rows. rewrite <-list_fmap_compose.
  rewrite (list_fmap_ext _ fst (map_to_list (jobs s))); [apply NoDup_fst_map_to_list|].
  intros k [i j] Hk. apply list_elem_of_lookup_2, elem_of_map_to_list in Hk. by apply (jo_ids _ Hok).
Qed.

Lemma window_nodup t n cursor s st : jobs_ok (tables s) -> NoDup (due_window t n cursor s st).
Proof.
  intros Hok. unfold due_window, select_jobs_by. eapply sublist_NoDup; [|apply sublist_take].
  rewrite merge_sort_Permutation, some_order_perm. apply NoDup_filter. eapply NoDup_fmap_1, job_rows_nodup, Hok.
Qed.

(** A due job is in its state's page, or the page is full of jobs before it. *)
Lemma window_page t n cursor s j :
  is_due t cursor s j ->
  let w := due_window t n cursor s (j_state j) in j ∈ w \/ (length w = n /\ forall y, y ∈ w -> due_le y j).
Proof.
  intros (Hj & Hst & Ht & Hc) w. destruct (decide (j ∈ w)) as [Hin|Hin]; [by left|right].
  unfold w, due_window, select_jobs_by in *. apply sorted_page; [apply (StronglySorted_merge_sort _)| |done].
  rewrite merge_sort_Permutation, some_order_perm, list_elem_of_filter. split; [|by apply job_rows_elem].
  apply Is_true_true. rewrite Hc. by rewrite !bool_decide_true.
Qed.

Lemma due_page t n cursor s j :
  jobs_ok (tables s) -> is_due t cursor s j -> let page := due t n cursor s in
  j ∈ page \/ (length page = n /\ forall y, y ∈ page -> due_le y j).
Proof.
  intros Hok Hd page. set (M := merge_sort due_le (DUE_JOB_STATES ≫= due_window t n cursor s)).
  assert (HsM : StronglySorted due_le M) by apply (StronglySorted_merge_sort _).
  assert (HM : forall x, x ∈ M <-> x ∈ due_window t n cursor s JPending \/ x ∈ due_window t n cursor s JRetrying).
  { intros x. unfold M. rewrite merge_sort_Permutation. unfold DUE_JOB_STATES. cbn [mbind list_bind]. rewrite app_nil_r. apply elem_of_app. }
  assert (Hlen : forall st, st = JPending \/ st = JRetrying -> (length (due_window t n cursor s st) <= length M)%nat).
  { intros st Hst. unfold M. rewrite merge_sort_Permutation. unfold DUE_JOB_STATES. cbn [mbind list_bind]. rewrite app_nil_r, length_app. destruct Hst as [->| ->]; lia. }
  assert (Hsub : forall x, x ∈ due_window t n cursor s (j_state j) -> x ∈ M) by (intros x Hx; apply HM; destruct Hd as (_ & [<-|<-] & _); auto).
  destruct (decide (j ∈ page)) as [Hin|Hin]; [by left|right].
  destruct (window_page t n cursor s j Hd) as [Hw|[Hfull Hle]]; [by apply sorted_page; auto|].
  assert (Hlp : length page = n). { unfold page, due. rewrite length_take. fold M. pose proof (Hlen (j_state j) ltac:(apply Hd)). lia. }
  split; [done|]. intros y Hy.
  destruct (decide (Forall (fun x => x ∈ page) (due_window t n cursor s (j_state j)))) as [Hall|Hsome].
  - apply Hle. rewrite Forall_forall in Hall.
    assert (Hp : due_window t n cursor s (j_state j) ≡ₚ page); [|by rewrite Hp].
    apply submseteq_length_Permutation; [apply NoDup_submseteq; [by apply window_nodup|done]|lia].
  - apply not_Forall_Exists, Exists_exists in Hsome as (x & Hx & Hnx); [|apply _].
    transitivity x; [|by apply Hle]. apply (sorted_page due_le M n x); auto.
Qed.

(** ** The claim *)

Lemma due_sorted t n cursor s : StronglySorted due_le (due t n cursor s).
Proof. eapply sublist_StronglySorted; [apply sublist_take|apply (StronglySorted_merge_sort _)]. Qed.

Lemma first_eligible_least running page j d :
  StronglySorted due_le page -> first_eligible running page = Some (j, d) ->
  forall x dx, x ∈ page -> eligible running x = Some dx -> due_le j x.
Proof.
  induction page as [|y page IH]; [done|]. cbn. intros [Hs Hf]%StronglySorted_inv.
  destruct (eligible running y) eqn:E.
  - intros [= -> ->] x dx [->|Hx]%elem_of_cons _; [apply due_le_refl|]. rewrite Forall_forall in Hf. auto.
  - intros Hj x dx [->|Hx]%elem_of_cons He; [congruence|]. by eapply IH.
Qed.

Lemma first_eligible_None running page : first_eligible running page = None -> forall x, x ∈ page -> eligible running x = None.
Proof.
  induction page as [|y page IH]; [intros _ x Hx; by apply not_elem_of_nil in Hx|]. cbn. destruct (eligible running y) eqn:E; [done|].
  intros Hn x [->|Hx]%elem_of_cons; auto.
Qed.

Definition least_eligible (running : list JobRow) (t : Z) (cursor : option JobCursor) (s : Store) (o : option (JobRow * JobDefinition Args)) : Prop :=
  match o with
  | Some (j, d) => is_due t cursor s j /\ eligible running j = Some d /\
      forall x dx, is_due t cursor s x -> eligible running x = Some dx -> due_le j x
  | None => forall x, is_due t cursor s x -> eligible running x = None
  end.

(** The rows after a cursor, which each page makes fewer. *)
Definition remaining (cursor : option JobCursor) (s : Store) : nat := length (filter (fun j => after_cursor cursor j) (job_rows s)).

Lemma remaining_less cursor s x :
  (exists i, jobs s !! i = Some x) -> after_cursor cursor x = true -> (remaining (Some (cursor_of x)) s < remaining cursor s)%nat.
Proof.
  intros Hx Hc. apply job_rows_elem in Hx. unfold remaining.
  assert (Hself : after_cursor (Some (cursor_of x)) x = false) by (cbn; rewrite orb_false_iff, andb_false_iff, !bool_decide_eq_false; lia).
  apply (filter_shrinks _ _ (job_rows s)) with (x := x); [|done..]. intros y. by apply after_cursor_trans.
Qed.

Lemma limit_pos : (0 < Z.to_nat claimBatchSize)%nat.
Proof. pose proof claimBatchSize_pos. lia. Qed.

Lemma same_due s x y : jobs_ok (tables s) -> (exists i, jobs s !! i = Some x) -> (exists i, jobs s !! i = Some y) -> j_id x = j_id y -> x = y.
Proof. intros Hok [i Hi] [k Hk] E. destruct (jo_ids _ Hok _ _ Hi) as [<- _]. destruct (jo_ids _ Hok _ _ Hk) as [<- _]. cbn in Hi, Hk. congruence. Qed.

Lemma claim_pages_least fuel running t cursor s :
  jobs_ok (tables s) -> (remaining cursor s < fuel)%nat -> least_eligible running t cursor s (claim_pages fuel running t cursor s).
Proof.
  intros Hok. revert cursor. induction fuel as [|fuel IH]; intros cursor Hf; [lia|]. cbn [claim_pages].
  set (n := Z.to_nat claimBatchSize). set (page := due t n cursor s).
  assert (Hpage : forall x, x ∈ page -> is_due t cursor s x) by (intros x (? & ? & ? & ?)%due_elem; done).
  destruct (first_eligible running page) as [[j d]|] eqn:E.
  - pose proof (first_eligible_Some _ _ _ _ E) as [Hj He]. split_and!; [by apply Hpage|done|].
    intros x dx Hx Hex. destruct (due_page t n cursor s x Hok Hx) as [Hin|[_ Hle]]; [|by apply Hle].
    eapply first_eligible_least; [apply due_sorted|exact E|exact Hin|exact Hex].
  - pose proof (first_eligible_None _ _ E) as Hnone. destruct (last page) as [z|] eqn:El.
    + case_decide as Hlen.
      * intros x Hx. destruct (due_page t n cursor s x Hok Hx) as [Hin|[Hfull _]]; [by apply Hnone|]. unfold page in Hlen. lia.
      * pose proof (Hpage _ (last_Some_elem_of _ _ El)) as (Hz & _ & _ & Hzc).
        assert (Hnext : forall x, is_due t cursor s x -> eligible running x <> None -> is_due t (Some (cursor_of z)) s x).
        { intros x Hx Hex. destruct (due_page t n cursor s x Hok Hx) as [Hin|[_ Hle]]; [by destruct Hex; apply Hnone|].
          pose proof (Hle z (last_Some_elem_of _ _ El)) as Hzx. destruct Hx as (Hx & Hst & Ht & _). split_and!; try done.
          cbn. rewrite orb_true_iff, andb_true_iff, !bool_decide_eq_true. unfold due_le in Hzx.
          destruct (decide (j_id z = j_id x)) as [Heq|Hne]; [|lia]. exfalso. apply Hex, Hnone.
          rewrite <-(same_due _ _ _ Hok Hz Hx Heq). by apply last_Some_elem_of. }
        assert (Hback : forall x, is_due t (Some (cursor_of z)) s x -> is_due t cursor s x).
        { intros x (? & ? & ? & ?). split_and!; try done. by eapply after_cursor_trans. }
        specialize (IH (Some (cursor_of z)) ltac:(pose proof (remaining_less cursor s z Hz Hzc); lia)).
        destruct (claim_pages fuel running t (Some (cursor_of z)) s) as [[j d]|].
        -- destruct IH as (Hj & He & Hleast). split_and!; [by apply Hback|done|]. intros x dx Hx Hex. apply (Hleast x dx); [|done]. apply Hnext; [done|congruence].
        -- intros x Hx. destruct (eligible running x) eqn:Ex; [|done]. rewrite <-Ex. apply IH, Hnext; [done|congruence].
    + intros x Hx. apply last_None in El. destruct (due_page t n cursor s x Hok Hx) as [Hin|[Hfull _]].
      * unfold page in El. rewrite El in Hin. by apply not_elem_of_nil in Hin.
      * unfold page in El. rewrite El in Hfull. pose proof limit_pos. cbn in Hfull. lia.
Qed.

Lemma remaining_size cursor s : (remaining cursor s <= size (jobs s))%nat.
Proof.
  unfold remaining. etransitivity; [apply sublist_length, sublist_filter|]. unfold job_rows. rewrite length_fmap, length_map_to_list. done.
Qed.
End queue.

(** * What follows *)

Section main.
Context {rt : JobsRuntime} {text : JsonText}.

Abbreviation tx := (Effects.eff Store).

(** ** Claims always return *)

Definition returns {A} (m : tx A) (s : Store) : Prop := exists a, (m s).1 = Ret a.

Lemma mintRepeat_returns job t s : returns (mintRepeat job t) s.
Proof.
  unfold returns, mintRepeat. destruct (_ ≫= repeat) as [rule|]; [|by eexists].
  destruct (rule _ _) as [[[at_|]|]|]; try by eexists. rewrite run_get. destruct (liveFor _ _ s); by eexists.
Qed.

Lemma bind_returns {A B} (m : tx A) (k : A -> tx B) s : wp m (fun r s' => exists a, r = Ret a /\ returns (k a) s') s -> returns (m ≫= k) s.
Proof. unfold wp, returns. rewrite run_bind. destruct (m s) as [r s']. cbn. intros (a & -> & H). exact H. Qed.

Lemma patch_returns {A} id f (k : unit -> tx A) s :
  is_Some (jobs s !! id) -> (forall s', runs s' = runs s -> returns (k tt) s') -> returns (patch_job id f ≫= k) s.
Proof.
  intros [j Hj] H. apply bind_returns. unfold patch_job. apply wp_bind, wp_get. rewrite Hj. apply wp_modify. exists tt. split; [done|]. by apply H.
Qed.

Lemma patch_run_returns {A} id f (k : unit -> tx A) s :
  is_Some (runs s !! id) -> (forall s', jobs s' = jobs s -> returns (k tt) s') -> returns (patch_run id f ≫= k) s.
Proof.
  intros [r Hr] H. apply bind_returns. unfold patch_run. apply wp_bind, wp_get. rewrite Hr. apply wp_modify. exists tt. split; [done|]. by apply H.
Qed.

Lemma now_returns {A} (k : Z -> tx A) s : (forall t s', jobs s' = jobs s -> runs s' = runs s -> returns (k t) s') -> returns (now ≫= k) s.
Proof. intros H. apply bind_returns. unfold now, wp. cbn. eexists. split; [done|]. by apply H. Qed.

Lemma then_returns {A B} (m : tx A) (f : A -> B) s : returns m s -> returns (a ← m; mret (f a)) s.
Proof. unfold returns. rewrite run_bind. destruct (m s) as [r s']. cbn. intros [a ->]. by eexists. Qed.

Lemma settleJobIn_returns job r o s : is_Some (jobs s !! j_id job) -> is_Some (runs s !! r_id r) -> returns (settleJobIn job (Some r) o) s.
Proof.
  intros Hj Hr. unfold settleJobIn. apply now_returns. intros t s1 E1 E2. rewrite <-E1 in Hj. rewrite <-E2 in Hr.
  assert (Hend : forall f s2, jobs s2 = jobs s1 -> returns (_ ← patch_job (j_id job) f; mintRepeat job t) s2).
  { intros f s2 E. apply patch_returns; [by rewrite E|]. intros s3 _. apply mintRepeat_returns. }
  case_decide; [|by apply Hend]. apply patch_run_returns; [done|]. intros s2 E. by apply Hend.
Qed.

Lemma settleFailureIn_returns job r e s : is_Some (jobs s !! j_id job) -> is_Some (runs s !! r_id r) -> returns (settleFailureIn job r e) s.
Proof.
  intros Hj Hr. unfold settleFailureIn. apply now_returns. intros t s1 E1 E2. rewrite <-E1 in Hj. rewrite <-E2 in Hr.
  destruct (retry_delay _ _ _); [|by apply (then_returns _ (fun _ => _)), settleJobIn_returns].
  apply patch_run_returns; [done|]. intros s2 E. apply patch_returns; [by rewrite E|]. intros s3 _. by eexists.
Qed.

Lemma settleSuccessIn_returns job r o s : is_Some (jobs s !! j_id job) -> is_Some (runs s !! r_id r) -> returns (settleSuccessIn job r o) s.
Proof. intros Hj Hr. destruct o; [by apply (then_returns _ (fun _ => _)), settleJobIn_returns|by apply settleFailureIn_returns]. Qed.

Lemma runMutationJob_returns s job j run h :
  jobs_ok (tables s) -> t_jobs (tables s) !! j_id job = Some j -> j_state j = JRunning -> open_run (tables s) run -> returns (runMutationJob job run h) s.
Proof.
  intros Hok Hj Hst [Hr _].
  assert (Hfail : forall s1 error, returns (_ ← modify (rollback s); settleFailureIn job run error) s1).
  { intros s1 error. apply bind_returns, wp_modify. exists tt. split; [done|]. apply settleFailureIn_returns; [by eexists|by eexists]. }
  unfold runMutationJob. apply bind_returns, wp_get. eexists. split; [done|]. apply bind_returns.
  destruct (decode (argsJson job)) as [args|e]; [|apply wp_ret; eexists; split; [done|apply Hfail]].
  apply wp_bind. eapply wp_mono; [by apply perform_all_frame|]. intros r s1 [-> [_ Hruns _ Hrunning]].
  apply wp_bind, wp_modify, wp_ret. eexists. split; [done|]. destruct (h_result h) as [output|e]; [|apply Hfail].
  apply settleSuccessIn_returns; cbn.
  - apply (Hrunning _ _ Hj) in Hst. by eexists.
  - cbn in Hruns. rewrite Hruns. by eexists.
Qed.

Lemma claim_job_returns handler s j d t :
  jobs_ok (tables s) -> t_jobs (tables s) !! j_id j = Some j -> j_state j = JPending \/ j_state j = JRetrying -> returns (claim_job handler j d t) s.
Proof.
  intros Hok Hj Hst. unfold claim_job. apply bind_returns. eapply wp_mono; [by apply openRun_spec|].
  intros r s1 (run & -> & Hstep & Ho & Hjid & Hj1 & _). exists run. split; [done|].
  case_decide; [|by eexists]. apply (then_returns _ SettledInline). eapply runMutationJob_returns; [|exact Hj1|done|exact Ho].
  apply (jstep_keeps_jobs_ok _ _ Hok). by right; left.
Qed.

Lemma claimNext_returns handler cursor s : jobs_ok (tables s) -> returns (claimNext handler cursor) s.
Proof.
  intros Hok. unfold claimNext. apply bind_returns. unfold now, wp. cbn [fst snd].
  set (s1 := MkStore _ _ _ _ _ _ _). assert (E1 : tables s1 = tables s) by done. clearbody s1. rewrite <-E1 in Hok.
  eexists. split; [done|]. apply bind_returns, wp_get. eexists. split; [done|]. apply bind_returns, wp_get. eexists. split; [done|].
  destruct (claim_pages _ _ _ _ _) as [[j d]|] eqn:E; [|by eexists]. apply (then_returns _ (fun r => Some (r, _))).
  apply claim_pages_Some in E as ([i Hi] & Hst & _). pose proof (jo_ids _ Hok _ _ Hi) as [Hid _]. apply claim_job_returns; [done|by rewrite Hid|done].
Qed.

Lemma claimNext_first handler cursor s :
  jobs_ok (tables s) ->
  match claimNext handler cursor s with
  | (Ret None, s') => (forall j d, ~ candidate (clock (readings s)) cursor s j d) /\ tables s' = tables s
  | (Ret (Some (_, c)), s') => exists j d, candidate (clock (readings s)) cursor s j d /\
      (forall x dx, candidate (clock (readings s)) cursor s x dx -> due_le j x) /\ c = cursor_of j /\ claims_job j (tables s) (tables s')
  | (Throw _, _) => False
  end.
Proof.
  intros Hok. pose proof (claimNext_returns handler cursor s Hok) as [a Ha]. pose proof (claimNext_steps handler cursor s Hok) as Hs.
  assert (Hleast : wpr (claimNext handler cursor) (fun r _ => match r with
    | None => forall j d, ~ candidate (clock (readings s)) cursor s j d
    | Some (_, c) => exists j d, candidate (clock (readings s)) cursor s j d /\ c = cursor_of j /\
        forall x dx, candidate (clock (readings s)) cursor s x dx -> due_le j x
    end) s).
  { unfold claimNext. apply wpr_bind. unfold now, wpr at 1, wp. cbn [fst snd]. set (s1 := MkStore _ _ _ _ _ _ _).
    apply wpr_bind, wpr_get, wpr_bind, wpr_get. change (running_jobs s1) with (running_jobs s).
    assert (Hc : forall x dx, candidate (clock (readings s)) cursor s x dx <-> is_due (clock (readings s)) cursor s1 x /\ eligible (running_jobs s) x = Some dx).
    { intros x dx. unfold candidate, is_due. change (jobs s1) with (jobs s). split.
      - intros (? & ? & ? & ? & ?). split_and!; eauto.
      - intros (([i Hi] & ? & ? & ?) & ?). destruct (jo_ids _ Hok _ _ Hi) as [-> _]. done. }
    pose proof (claim_pages_least (S (size (jobs s1))) (running_jobs s) (clock (readings s)) cursor s1 Hok ltac:(pose proof (remaining_size cursor s1); lia)) as Hl.
    destruct (claim_pages _ _ _ _ s1) as [[j d]|]; cbn in Hl.
    - destruct Hl as (Hj & He & Hmin). apply wpr_bind. eapply wpr_mono; [by apply (wpr_keeps (fun _ _ => True)) with (Q := fun _ _ => True)|].
      intros r s2 _. apply wpr_ret. exists j, d. split_and!; [by apply Hc|done|]. intros x dx [Hx Hex]%Hc. by eapply Hmin.
    - apply wpr_ret. intros j d [Hx Hex]%Hc. rewrite (Hl j Hx) in Hex. done. }
  unfold wpr, wp in Hs, Hleast. destruct (claimNext handler cursor s) as [r s']. cbn in Ha. subst r. cbn in Hs, Hleast.
  destruct a as [[r c]|]; [|done]. destruct Hs as (j & d & Hj & -> & Hc). destruct Hleast as (j2 & d2 & Hj2 & Heq & Hmin).
  exists j, d. split_and!; try done. intros x dx Hx. specialize (Hmin x dx Hx). unfold cursor_of in Heq. injection Heq as E1 E2. unfold due_le in *. rewrite E1, E2. done.
Qed.

(** ** Fences *)

Lemma claims_unique w c c' :
  world_ok w -> c ∈ w_claims w -> c' ∈ w_claims w -> cl_job c = cl_job c' ->
  owned c (runs (w_store w) !! cl_run c) = true -> owned c' (runs (w_store w) !! cl_run c') = true -> c = c'.
Proof.
  intros [Hok Hc Ht] Hin Hin' Hj Ho Ho'. destruct (Hc _ Hin) as [Hck _], (Hc _ Hin') as [Hck' _].
  destruct (owned_open _ _ Hok Ho) as (r & Hr & Hor & Hrt). destruct (owned_open _ _ Hok Ho') as (r' & Hr' & Hor' & Hrt').
  destruct (ck_run _ _ Hck _ Hr) as [Hjr _], (ck_run _ _ Hck' _ Hr') as [Hjr' _].
  destruct Hor as [Hl Hst], Hor' as [Hl' Hst']. destruct (jo_parents _ Hok _ _ Hl) as [j Hjob].
  destruct (jo_ids _ Hok _ _ Hjob) as [Hid _].
  assert (Hjj : t_jobs (tables (w_store w)) !! j_id j = Some j) by (by rewrite Hid).
  destruct (open_latest _ j r Hok Hjj ltac:(by split) ltac:(congruence)) as [Hrun Hn].
  destruct (open_latest _ j r' Hok Hjj ltac:(by split) ltac:(congruence)) as [Hrun' Hn'].
  assert (r = r') as -> by (eapply same_number; [exact Hok|exact Hjj|done|done|congruence]).
  assert (Htok : cl_token c = cl_token c') by congruence.
  apply list_elem_of_lookup in Hin as [k Hk], Hin' as [k' Hk'].
  assert (k = k') as ->; [|congruence]. eapply (NoDup_lookup (cl_token <$> w_claims w)); [done| |].
  - rewrite list_lookup_fmap, Hk. done.
  - rewrite list_lookup_fmap, Hk'. cbn. by rewrite Htok.
Qed.

(** A computation that throws. *)
Definition throws {A} (m : tx A) (s : Store) : Prop := exists e s', m s = (Throw e, s').

Lemma throws_bind {A B} (m : tx A) (k : A -> tx B) s : throws m s -> throws (m ≫= k) s.
Proof. intros (e & s' & E). exists e, s'. by rewrite run_bind, E. Qed.

Lemma assertOwned_throws c s : owned c (runs s !! cl_run c) = false -> throws (assertOwned c) s.
Proof. intros H. unfold throws, assertOwned, superseded, throw_AckerDBError. rewrite run_get, H. cbn. by do 2 eexists. Qed.

Lemma appendIn_throws c entry s : owned c (runs s !! cl_run c) = false -> throws (appendIn c entry) s.
Proof. intros H. unfold appendIn. by apply throws_bind, assertOwned_throws. Qed.

Lemma unowned_throws e c s :
  event_claim e = Some c -> (forall outcome, e <> EvSettle c outcome) -> owned c (runs s !! cl_run c) = false -> throws (transaction e) s.
Proof.
  intros He Hne Ho. destruct e; try discriminate He; injection He as ->; cbn [transaction].
  - by destruct (Hne outcome).
  - by apply throws_bind, appendIn_throws.
  - unfold transactional_step. by apply throws_bind, throws_bind, assertOwned_throws.
  - apply throws_bind. unfold sleep. destruct (appendIn_throws c (sleep_entry name wakeAt (clock (readings s))) (now s).2 Ho) as (x & s' & E).
    exists x, s'. unfold now at 1. rewrite run_bind. cbn [fst snd]. rewrite run_bind. unfold now in E. cbn in E. by rewrite E.
Qed.

(** What a handler attempts after its run moved on leaves the tables alone. *)
Lemma unowned_event e c commits w :
  event_claim e = Some c -> owned c (runs (w_store w) !! cl_run c) = false ->
  tables (w_store (happens w (e, commits))) = tables (w_store w).
Proof.
  intros He Ho.
  assert (Hkey : tables (jobsWrite commits (transaction e) (w_store w)).2 = tables (w_store w)).
  { assert (Hthrow : throws (transaction e) (w_store w) -> tables (jobsWrite commits (transaction e) (w_store w)).2 = tables (w_store w)).
    { intros (x & s' & E). unfold jobsWrite. by rewrite E. }
    destruct e; try discriminate He; injection He as ->; try (apply Hthrow, (unowned_throws _ c); done).
    cbn [transaction]. unfold jobsWrite. rewrite run_bind, settle_late; [by destruct commits|].
    intros r Hr Hst Ht. rewrite Hr in Ho. cbn in Ho. apply bool_decide_eq_false in Ho. by apply Ho. }
  destruct e; try discriminate He; unfold happens; destruct (handler_lives _ _); try done;
    destruct (jobsWrite commits _ (w_store w)) as [r s'] eqn:E; exact Hkey.
Qed.

(** ** The jobs that run at once *)

(** The jobs of a name and a key that run. *)
Definition running_ids (name key : string) (T : Tables) : gset Z :=
  dom (filter (fun '(_, j) => j_state j = JRunning /\ j_name j = name /\ default ""%string (j_key j) = key) (t_jobs T)).

Lemma running_ids_elem name key T i :
  i ∈ running_ids name key T <-> exists j, t_jobs T !! i = Some j /\ j_state j = JRunning /\ j_name j = name /\ default ""%string (j_key j) = key.
Proof.
  unfold running_ids. rewrite elem_of_dom. split.
  - intros [j [Hj Hp]%map_lookup_filter_Some]. by exists j.
  - intros (j & Hj & Hp). exists j. apply map_lookup_filter_Some. by split.
Qed.

Lemma running_ids_mono name key T T' : no_new_running T T' -> running_ids name key T' ⊆ running_ids name key T.
Proof.
  intros H i (j' & Hj & Hst & Hn & Hk)%running_ids_elem. destruct (H _ _ Hj Hst) as (j & Hj0 & Hst0 & Hn0 & Hk0).
  apply running_ids_elem. exists j. split_and!; congruence.
Qed.

(** The rows [running_jobs] would give without its limit. *)
Definition all_running (s : Store) : list JobRow := filter (fun j => bool_decide (j_state j = JRunning)) (job_rows s).

Lemma running_jobs_all s : (length (all_running s) <= 4096)%nat -> running_jobs s ≡ₚ all_running s.
Proof.
  intros Hl. unfold running_jobs, select_jobs. rewrite take_ge; [apply some_order_perm|].
  rewrite some_order_perm. exact Hl.
Qed.

Lemma running_counted name key s :
  jobs_ok (tables s) -> (length (all_running s) <= 4096)%nat ->
  Z.of_nat (size (running_ids name key (tables s))) <= running_in (name +:+ String Ascii.zero key) (running_jobs s).
Proof.
  intros Hok Hl. unfold running_in. rewrite (running_jobs_all s Hl).
  set (l := filter (fun j => gate j = _) (all_running s)).
  assert (Hsub : running_ids name key (tables s) ⊆ list_to_set (j_id <$> l)).
  { intros i (j & Hj & Hst & Hn & Hk)%running_ids_elem. apply elem_of_list_to_set, list_elem_of_fmap.
    exists j. destruct (jo_ids _ Hok _ _ Hj) as [Hid _]. split; [done|]. unfold l, all_running. rewrite !list_elem_of_filter.
    split_and!; [by unfold gate; rewrite Hn, Hk|by apply Is_true_true, bool_decide_eq_true|apply job_rows_elem; by exists i]. }
  apply subseteq_size in Hsub. rewrite size_list_to_set, length_fmap in Hsub; [lia|].
  eapply sublist_NoDup; [by apply job_rows_nodup|]. apply fmap_sublist. unfold l, all_running. etransitivity; apply sublist_filter.
Qed.

Lemma claim_running name key d cursor s s' j d' :
  definitions !! name = Some d -> jobs_ok (tables s) -> (length (all_running s) <= 4096)%nat ->
  candidate (clock (readings s)) cursor s j d' -> claims_job j (tables s) (tables s') ->
  Z.of_nat (size (running_ids name key (tables s))) <= concurrency d ->
  Z.of_nat (size (running_ids name key (tables s'))) <= concurrency d.
Proof.
  intros Hd Hok Hl (Hj & _ & _ & _ & [Hdj Hlt]%eligible_Some) (T1 & _ & [n Hjobs] & Hs) Hle.
  pose proof (running_ids_mono name key _ _ (jsteps_running _ _ Hs)) as Hsub%subseteq_size.
  destruct (decide (j_name j = name /\ default ""%string (j_key j) = key)) as [[Hn Hk]|Hne].
  - assert (Hone : running_ids name key T1 ⊆ {[j_id j]} ∪ running_ids name key (tables s)).
    { intros i (x & Hx & Hp)%running_ids_elem. rewrite Hjobs in Hx. apply lookup_insert_Some in Hx as [[<- _]|[_ Hx]]; [set_solver|].
      apply elem_of_union_r, running_ids_elem. by exists x. }
    apply subseteq_size in Hone. rewrite size_union_alt, size_singleton in Hone.
    assert (size (running_ids name key (tables s) ∖ {[j_id j]}) <= size (running_ids name key (tables s)))%nat by (apply subseteq_size; set_solver).
    pose proof (running_counted name key s Hok Hl) as Hcount. unfold gate in Hlt. rewrite Hn, Hk in Hlt.
    assert (d' = d) as -> by congruence. lia.
  - assert (Hsame : running_ids name key T1 ⊆ running_ids name key (tables s)).
    { intros i (x & Hx & Hst & Hn & Hk)%running_ids_elem. rewrite Hjobs in Hx. apply lookup_insert_Some in Hx as [[_ <-]|[_ Hx]]; [by destruct Hne|].
      apply running_ids_elem. by exists x. }
    apply subseteq_size in Hsame. lia.
Qed.

Lemma outcome_running e name key d s s' :
  definitions !! name = Some d -> jobs_ok (tables s) -> (length (all_running s) <= 4096)%nat -> outcome_of e s s' ->
  Z.of_nat (size (running_ids name key (tables s))) <= concurrency d ->
  Z.of_nat (size (running_ids name key (tables s'))) <= concurrency d.
Proof.
  intros Hd Hok Hl [Hs|[(cursor & j & d' & Hj & Hc)|(id & _ & Hs)]] Hle; [|by eapply claim_running|].
  - pose proof (running_ids_mono name key _ _ (jsteps_running _ _ Hs)) as Hsub%subseteq_size. lia.
  - pose proof (running_ids_mono name key _ _ (reopening_running _ _ _ Hs)) as Hsub%subseteq_size. lia.
Qed.

(** ** Retention *)

Lemma jobs_of_deletion id s i :
  jobs_ok (tables s) -> i <> id ->
  wp (deleteWithRuns id) (fun r s' => r = Ret tt /\ jobs_ok (tables s') /\ jobs s' !! i = jobs s !! i /\
    forall k r, jobId r = i -> runs s !! k = Some r -> runs s' !! k = Some r) s.
Proof.
  intros Hok Hne. eapply wp_mono; [apply wp_conj; [by apply deleteWithRuns_wp|]|].
  - instantiate (1 := fun _ s' => jobs s' !! i = jobs s !! i /\ forall k r, jobId r = i -> runs s !! k = Some r -> runs s' !! k = Some r).
    unfold wp. rewrite deleteWithRuns_run by done. cbn. rewrite lookup_delete_ne by done. split; [done|].
    intros k r Hr Hk. unfold no_runs_of. apply map_lookup_filter_Some. split; [done|congruence].
  - intros r s' [[-> Hs] H]. split_and!; try done; [apply (jstep_keeps_jobs_ok _ _ Hok); by left|apply H|apply H].
Qed.

Lemma reaped_jobs js i s :
  jobs_ok (tables s) -> i ∉ j_id <$> js ->
  wpr (foldr (fun j rest => _ ← deleteWithRuns (j_id j); rest) (mret tt) js) (fun _ s' =>
    jobs_ok (tables s') /\ jobs s' !! i = jobs s !! i /\ forall k r, jobId r = i -> runs s !! k = Some r -> runs s' !! k = Some r) s.
Proof.
  revert s. induction js as [|j js IH]; intros s Hok Hni; [by apply wpr_ret|]. rewrite fmap_cons, not_elem_of_cons in Hni. destruct Hni as [Hne Hni].
  cbn [foldr]. apply wpr_bind. eapply wp_mono; [by apply (jobs_of_deletion _ _ i)|]. intros r s1 (-> & Hok1 & Hj1 & Hr1).
  eapply wpr_mono; [by apply IH|]. intros ? s2 (Hok2 & Hj2 & Hr2). split_and!; [done|congruence|auto].
Qed.

(** The sweep of runs leaves the jobs, and the latest run of each. *)
Definition keeps_latest (s s' : Store) : Prop :=
  jobs s' = jobs s /\ forall k r j, runs s !! k = Some r -> jobs s !! jobId r = Some j -> number r = runCount j -> runs s' !! k = Some r.

Lemma reap_run_latest x s : runs s !! r_id x = Some x -> wpr (reap_run x) (fun _ s' => keeps_latest s s') s.
Proof.
  intros Hx. unfold reap_run. apply wpr_bind, wpr_get.
  assert (Hdel : (forall j, jobs s !! jobId x = Some j -> number x <> runCount j) -> wpr (delete_run (r_id x)) (fun _ s' => keeps_latest s s') s).
  { intros Hxr. apply wpr_modify. split; [done|]. intros k r j Hr Hj Hn. cbn. rewrite lookup_delete_ne; [done|].
    intros <-. assert (x = r) as -> by congruence. by apply (Hxr j). }
  destruct (jobs s !! jobId x) as [jx|]; [|by apply Hdel].
  case_decide as Hc; [by apply wpr_ret|]. apply Hdel. intros j [= <-]. congruence.
Qed.

Lemma reaped_runs rs s :
  jobs_ok (tables s) -> Forall (fun x => runs s !! r_id x = Some x) rs -> NoDup (r_id <$> rs) ->
  wpr (foldr (fun r rest => _ ← reap_run r; rest) (mret tt) rs) (fun _ s' => keeps_latest s s') s.
Proof.
  revert s. induction rs as [|x rs IH]; intros s Hok Hf Hnd; [by apply wpr_ret|].
  apply Forall_cons in Hf as [Hx Hf]. rewrite fmap_cons in Hnd. apply NoDup_cons in Hnd as [Hni Hnd]. cbn [foldr].
  apply wpr_bind. eapply wpr_mono; [apply wpr_conj; [by apply reap_run_steps|by apply reap_run_latest]|].
  intros ? s1 [[Hs Hother] [Hj1 Hr1]]. eapply wpr_mono; [apply IH; [by eapply jsteps_ok| |done]|].
  - apply Forall_forall. intros y Hy. rewrite Hother; [by eapply (proj1 (Forall_forall _ _) Hf)|].
    intros E. apply Hni. rewrite <-E. by apply list_elem_of_fmap_2.
  - intros ? s2 [Hj2 Hr2]. split; [congruence|]. intros k r j Hr Hj Hn. eapply Hr2; [by eapply Hr1|by rewrite Hj1|done].
Qed.

Lemma select_jobs_elem w n s j : j ∈ select_jobs w n s -> w j = true /\ exists i, jobs s !! i = Some j.
Proof.
  unfold select_jobs. intros Hj%take_incl. rewrite some_order_perm, list_elem_of_filter in Hj. destruct Hj as [Hw Hj].
  split; [by apply Is_true_true|by apply job_rows_elem].
Qed.

Lemma liveFor_Some name hash s j : liveFor name hash s = Some j -> (exists i, jobs s !! i = Some j) /\ isLive (j_state j) = true.
Proof.
  unfold liveFor. intros Hh%head_Some_elem_of. apply select_jobs_elem in Hh as [[_ Hl]%andb_true_iff Hj]. done.
Qed.

Lemma newest_Some name hash st s j :
  newestSettledFor name hash st s = Some j -> (exists i, jobs s !! i = Some j) /\ j_state j = st /\ j_name j = name.
Proof.
  unfold newestSettledFor, select_jobs_by. intros Hh%head_Some_elem_of%take_incl.
  rewrite merge_sort_Permutation, some_order_perm, list_elem_of_filter in Hh. destruct Hh as [[[H1 _]%andb_true_iff H3]%Is_true_true%andb_true_iff Hj].
  apply bool_decide_eq_true in H1, H3. split_and!; [by apply job_rows_elem|done|done].
Qed.

(** A job a new one would be answered with has a window that is not over. *)
Lemma dedupeJob_Some d name hash t s j :
  dedupeJob d name hash t s = Some j ->
  (exists i, jobs s !! i = Some j) /\
  (isLive (j_state j) = true \/
   exists completed failed w at_, dedupe d = Some (completed, failed) /\ (j_state j, w) ∈ [(JCompleted, completed); (JFailed, failed)] /\
     j_name j = name /\ j_settledAt j = Some at_ /\ (forall ms, w = Window ms -> t < at_ + ms)).
Proof.
  unfold dedupeJob. destruct (liveFor name hash s) as [x|] eqn:El; [intros [= ->]; apply liveFor_Some in El as [? ?]; auto|].
  destruct (dedupe d) as [[completed failed]|] eqn:Ed; [|done].
  set (good := fun j => (exists i, jobs s !! i = Some j) /\ exists w at_, (j_state j, w) ∈ [(JCompleted, completed); (JFailed, failed)] /\
     j_name j = name /\ j_settledAt j = Some at_ /\ (forall ms, w = Window ms -> t < at_ + ms)).
  match goal with |- foldl ?f _ _ = _ -> _ => set (F := f) end.
  assert (Hstep : forall best st w, (st, w) ∈ [(JCompleted, completed); (JFailed, failed)] ->
    (forall x, best = Some x -> good x) -> forall x, F best (st, w) = Some x -> good x).
  { intros best st w Hin Hb x. unfold F. case_decide; [apply Hb|].
    destruct (newestSettledFor name hash st s) as [y|] eqn:En; [|apply Hb].
    destruct (j_settledAt y) as [at_|] eqn:Ea; [|apply Hb].
    assert (Hy : (forall ms, w = Window ms -> t < at_ + ms) -> good y).
    { intros Hw. apply newest_Some in En as (Hs & Hst & Hn). split; [done|]. exists w, at_. by rewrite Hst. }
    destruct (match w with Forever => false | Window ms => bool_decide (at_ + ms <= t) end) eqn:Ew; [apply Hb|].
    assert (Hw : forall ms, w = Window ms -> t < at_ + ms) by (intros ms ->; apply bool_decide_eq_false in Ew; lia).
    destruct best as [b|]; [|intros [= <-]; auto]. destruct (_ || _); [intros [= <-]; auto|apply Hb]. }
  cbn [foldl]. intros Hf. enough (good j) as (Hs & w & at_ & ?) by (split; [done|right; by exists completed, failed, w, at_]).
  revert Hf. apply Hstep; [right; left|]. apply Hstep; [left|done].
Qed.

Lemma retention_covers d st w at_ t completed failed :
  dedupe d = Some (completed, failed) -> (st, w) ∈ [(JCompleted, completed); (JFailed, failed)] -> (forall ms, w = Window ms -> t < at_ + ms) ->
  released t (retentionStamp (Some d) st at_) = false.
Proof.
  intros Hd Hin Hw. unfold retentionStamp. rewrite Hd.
  assert (Hst : st <> JCanceled /\ (if decide (st = JCompleted) then completed else failed) = w).
  { rewrite !elem_of_cons in Hin. destruct Hin as [[= -> ->]|[[= -> ->]|Hin]]; [done|done|by apply not_elem_of_nil in Hin]. }
  destruct Hst as [Hnc Hwin]. rewrite decide_False by done. rewrite Hwin. cbn [foldr].
  destruct w as [|ms], (retention d) as [|ret]; cbn; try done. specialize (Hw ms eq_refl). apply bool_decide_eq_false. lia.
Qed.

(** A job that would answer is not released. *)
Lemma dedupe_not_released d name hash t s j :
  jobs_ok (tables s) -> definitions !! name = Some d -> dedupeJob d name hash t s = Some j ->
  jobs s !! j_id j = Some j /\ forall t', t' <= t -> released t' (j_deleteAfter j) = false.
Proof.
  intros Hok Hd Hj. apply dedupeJob_Some in Hj as [[i Hi] Hwhy]. destruct (jo_ids _ Hok _ _ Hi) as [Hid _].
  split; [by rewrite Hid|]. pose proof (jk_state _ _ _ (jo_job _ Hok _ _ Hi)) as Hst. intros t' Ht.
  destruct Hwhy as [Hl|(completed & failed & w & at_ & Hdd & Hin & Hn & Ha & Hw)].
  - unfold state_ok in Hst. destruct (j_state j); try done; destruct Hst as [[_ Hda] _]; by rewrite Hda.
  - assert (Hs : stamped j).
    { unfold state_ok in Hst. rewrite !elem_of_cons in Hin. destruct Hin as [[= E _]|[[= E _]|Hin]]; [..|by apply not_elem_of_nil in Hin];
        rewrite E in Hst; apply Hst. }
    destruct Hs as (t0 & Ht0 & ->). assert (t0 = at_) as -> by congruence. rewrite Hn, Hd.
    eapply retention_covers; [exact Hdd|exact Hin|]. intros ms Hms. specialize (Hw ms Hms). lia.
Qed.

Lemma expired_jobs_elem t n s j : j ∈ expired_jobs t n s -> released t (j_deleteAfter j) = true /\ exists i, jobs s !! i = Some j.
Proof.
  unfold expired_jobs, select_jobs_by. intros Hj%take_incl. rewrite merge_sort_Permutation, some_order_perm, list_elem_of_filter in Hj.
  destruct Hj as [Hw%Is_true_true Hj]. split; [done|by apply job_rows_elem].
Qed.

Lemma reap_keeps t s j :
  jobs_ok (tables s) -> jobs s !! j_id j = Some j -> released t (j_deleteAfter j) = false ->
  wpr (reap t) (fun _ s' => jobs s' !! j_id j = Some j /\ forall r, latest (runs s) j r -> runs s' !! r_id r = Some r) s.
Proof.
  intros Hok Hj Hrel. unfold reap. cbv zeta. apply wpr_bind, wpr_get, wpr_bind.
  assert (Hni : j_id j ∉ j_id <$> expired_jobs t (Z.to_nat claimBatchSize) s).
  { intros Hin. apply list_elem_of_fmap in Hin as (x & Hx & Hin). apply expired_jobs_elem in Hin as [Hr [i Hi]].
    destruct (jo_ids _ Hok _ _ Hi) as [Hid _]. assert (x = j) as -> by congruence. congruence. }
  eapply wpr_mono; [by apply reaped_jobs|]. intros ? s1 (Hok1 & Hj1 & Hr1). rewrite Hj in Hj1. apply wpr_bind, wpr_get, wpr_bind.
  assert (Hf : Forall (fun x => runs s1 !! r_id x = Some x) (expired_runs t (Z.to_nat claimBatchSize) s1)).
  { apply Forall_forall. intros r [_ [i Hi]]%expired_runs_elem. by destruct (jo_run_ids _ Hok1 _ _ Hi) as [-> _]. }
  pose proof (expired_runs_nodup t (Z.to_nat claimBatchSize) s1 Hok1) as Hnd.
  eapply wpr_mono; [by apply reaped_runs|]. intros ? s2 [Hj2 Hr2]. apply wpr_ret. split; [by rewrite Hj2|].
  intros r [(i & Hi & Hjid) Hn]. destruct (jo_run_ids _ Hok _ _ Hi) as [Hrid _]. eapply Hr2; [|by rewrite Hjid|done].
  apply Hr1; [done|]. by rewrite Hrid.
Qed.

(** ** The journal *)

Lemma check_names_ret names l :
  check_names names l = Ret tt <-> NoDup (entry_name <$> l) /\ (forall x, x ∈ l -> entry_name x ∉ names).
Proof.
  revert names. induction l as [|x l IH]; intros names; cbn [check_names].
  - split; [intros _; split; [constructor|by intros x ?%not_elem_of_nil]|done].
  - unfold StepRefusalError, throw_AckerDBError. rewrite fmap_cons, NoDup_cons. case_decide as Hin.
    + split; [done|]. intros [_ H]. destruct (H x ltac:(left)). done.
    + rewrite IH. split.
      * intros [Hnd H]. split_and!; [|done|].
        -- intros (y & Hxy & Hy)%list_elem_of_fmap. apply (H y Hy), elem_of_cons. by left.
        -- intros y [->|Hy]%elem_of_cons; [done|]. intros Hn. apply (H y Hy). by right.
      * intros [[Hni Hnd] H]. split; [done|]. intros y Hy [E|Hn]%elem_of_cons; [|by eapply H; [right|]].
        apply Hni. rewrite <-E. by apply list_elem_of_fmap_2.
Qed.

Lemma parse_journal_ret stepsJson l :
  parseStepJournal stepsJson = Ret l ->
  forallb isStepJournalEntry l = true /\ NoDup (entry_name <$> l).
Proof.
  unfold parseStepJournal, StepRefusalError, throw_AckerDBError. destruct stepsJson as [json|]; [|intros [= <-]; split; [done|constructor]].
  destruct (JSON_parse json) as [[| | | | | | |parsed| |]|]; try done.
  destruct (forallb isStepJournalEntry parsed) eqn:Hf; [|done]. destruct (check_names [] parsed) as [[]|] eqn:Hc; [|done].
  cbn. intros [= <-]. apply check_names_ret in Hc as [Hnd _]. done.
Qed.

Lemma parse_journal_of l :
  JSON_parse (JSON_stringify (VArr l)) = Some (VArr l) -> forallb isStepJournalEntry l = true -> NoDup (entry_name <$> l) ->
  parseStepJournal (Some (JSON_stringify (VArr l))) = Ret l.
Proof.
  intros Hj Hf Hnd. unfold parseStepJournal. rewrite Hj, Hf. assert (Hc : check_names [] l = Ret tt) by (apply check_names_ret; split; [done|intros; apply not_elem_of_nil]).
  by rewrite Hc.
Qed.

Lemma entries_get (l : list value) name m :
  NoDup (entry_name <$> l) ->
  (forall x, x ∈ l -> entry_name x = name -> jmap_get name (foldl (fun m x => jmap_set (entry_name x) x m) m l) = Some x) /\
  (name ∉ entry_name <$> l -> jmap_get name (foldl (fun m x => jmap_set (entry_name x) x m) m l) = jmap_get name m).
Proof.
  revert m. induction l as [|y l IH]; intros m Hnd; [split; [by intros x ?%not_elem_of_nil|done]|].
  rewrite fmap_cons, NoDup_cons in Hnd. destruct Hnd as [Hni Hnd]. cbn [foldl]. destruct (IH (jmap_set (entry_name y) y m) Hnd) as [Hin Hout]. split.
  - intros x [->|Hx]%elem_of_cons Hn; [|by apply Hin]. subst name. rewrite Hout by done. rewrite jmap_get_set. by rewrite decide_True.
  - rewrite fmap_cons, not_elem_of_cons. intros [Hne Hni']. rewrite Hout by done. rewrite jmap_get_set. by rewrite decide_False.
Qed.

Lemma entry_name_text x : isStepJournalEntry x = true -> utf16_length (entry_name x) <> 0.
Proof.
  destruct x as [| | | | | | | |fields|]; try done. cbn [isStepJournalEntry]. intros [[Ht _]%andb_true_iff _]%andb_true_iff.
  unfold entry_name, entry_field. destruct (field "name" fields); try done. cbn in *. apply bool_decide_eq_true in Ht. lia.
Qed.

(** A run resolves a recorded name to its entry, and any other name to nothing. *)
Lemma claim_of_journal json l :
  parseStepJournal json = Ret l ->
  (forall x kind check, x ∈ l -> (claim (entry_name x) kind check (new_JobSteps json)).1 =
    if decide (entry_kind x = kind_name kind)
    then match check x with Some detail => StepRefusalError (entry_name x) detail | None => Ret (Some x) end
    else StepRefusalError (entry_name x) ("journaled as " +:+ entry_kind x +:+ ", code says " +:+ kind_name kind)) /\
  (forall name kind check, name ∉ entry_name <$> l -> utf16_length name <> 0 -> (claim name kind check (new_JobSteps json)).1 = Ret None).
Proof.
  intros Hp. pose proof (parse_journal_ret _ _ Hp) as [Hf Hnd]. unfold new_JobSteps. rewrite Hp.
  set (m := foldl _ [] l). assert (Hrun : forall name kind check, utf16_length name <> 0 ->
    (claim name kind check (MkSteps m [] None)).1 = match jmap_get name m with
      | None => Ret None
      | Some entry => if decide (entry_kind entry = kind_name kind)
          then match check entry with Some detail => StepRefusalError name detail | None => Ret (Some entry) end
          else StepRefusalError name ("journaled as " +:+ entry_kind entry +:+ ", code says " +:+ kind_name kind)
      end).
  { intros name kind check Hl. unfold claim. rewrite run_get. cbn [corruption]. rewrite decide_False by done. rewrite run_get. cbn [seen].
    rewrite decide_False by apply not_elem_of_nil. rewrite run_modify, run_get. cbn [entries]. destruct (jmap_get name m) as [entry|]; [|done].
    case_decide; [by destruct (check entry)|done]. }
  split.
  - intros x kind check Hx. rewrite Hrun; [|apply entry_name_text; rewrite List.forallb_forall in Hf; by apply Hf, list_elem_of_In].
    destruct (entries_get l (entry_name x) [] Hnd) as [Hin _]. fold m in Hin. by rewrite (Hin x Hx eq_refl).
  - intros name kind check Hn Hl. rewrite Hrun by done. destruct (entries_get l name [] Hnd) as [_ Hout]. fold m in Hout. by rewrite (Hout Hn).
Qed.

(** * The theorems *)

(** C10: whatever the application, administrators, handlers and the runner do to
    the jobs, in any order, committed or not, with restarts in between: the tables
    stay well formed ([jobs_ok]: the state of a job, the states of its runs, their
    numbers, leases and stamps agree, and a job that has run has its latest run);
    keys are not used again, a job keeps its identity, a settled run what it
    records, and what handlers wrote stays ([evolves]); and what is settled stays
    as it is ([settled_kept]): until an administrator retries it or forces it to
    run again, a settled job keeps its state, its counts, the times of its
    settlement and deletion and its journal (only its arguments, its key and its
    due time can be edited), and its settled runs keep everything, as long as
    they are not deleted. *)
Theorem jobs_invariant before after :
  let w := history empty_world before in let w' := history w after in
  jobs_ok (tables (w_store w')) /\ evolves (tables (w_store w)) (tables (w_store w')) /\
  settled_kept (fun id => Exists (fun ev => reopens ev.1 id) after) (tables (w_store w)) (tables (w_store w')).
Proof.
  cbv zeta. pose proof (history_from_empty before) as Hw. destruct (world_history_ok after _ Hw) as [Hw' Hm].
  split; [apply Hw'|]. split; [apply jmoves_evolves; [apply Hw|done]|by apply history_settled_kept].
Qed.

(** C9: at any time at most one of the claims handed to handlers owns its job's
    run, and what the handler of any other claim attempts (to settle, to record a
    step, to work in a step, to sleep) changes nothing: a canceled, recovered,
    deleted or suspended run cannot write. *)
Theorem handlers_fenced evs :
  let w := history empty_world evs in
  (forall c c', c ∈ w_claims w -> c' ∈ w_claims w -> cl_job c = cl_job c' ->
    owned c (runs (w_store w) !! cl_run c) = true -> owned c' (runs (w_store w) !! cl_run c') = true -> c = c') /\
  (forall e c commits, event_claim e = Some c -> owned c (runs (w_store w) !! cl_run c) = false ->
    tables (w_store (happens w (e, commits))) = tables (w_store w)).
Proof.
  cbv zeta. pose proof (history_from_empty evs) as Hw. split.
  - intros c c'. by apply claims_unique.
  - intros e c commits. apply unowned_event.
Qed.

(** C8: what the handlers of mutation-kind jobs wrote is there exactly once per
    completed run: no run's writes are there twice, those of a run that failed, was
    canceled or is open are not there, and those of a completed one are. *)
Theorem mutation_jobs_exactly_once evs :
  let T := tables (w_store (history empty_world evs)) in
  NoDup (t_effects T) /\
  (forall i r j, t_runs T !! i = Some r -> t_jobs T !! jobId r = Some j -> mutation_kind j ->
    (jobId r, number r) ∈ t_effects T <-> r_state r = RCompleted) /\
  (forall i j n, t_jobs T !! i = Some j -> (i, n) ∈ t_effects T -> 1 <= n <= runCount j).
Proof.
  cbv zeta. pose proof (wo_jobs _ (history_from_empty evs)) as Hok. set (T := tables _) in *. split_and!.
  - apply (jo_once _ Hok).
  - intros i r j Hr Hj Hk. destruct (jo_ids _ Hok _ _ Hj) as [Hid _]. pose proof (jo_job _ Hok _ _ Hj) as Hjk.
    assert (Hrun : run_of (t_runs T) j r) by (exists i; by rewrite Hid). rewrite <-Hid. split.
    + intros Hin. by apply (jk_effects _ _ _ Hjk _ Hin).
    + intros Hst. by apply (jk_wrote _ _ _ Hjk).
  - intros i j n Hj Hin. destruct (jo_ids _ Hok _ _ Hj) as [Hid _]. apply (jk_effects _ _ _ (jo_job _ Hok _ _ Hj)). by rewrite Hid.
Qed.

(** C11: a claim returns, and takes the first due job in the order of due time and
    key, after the batch's cursor, that is declared and whose gate is not full,
    however many pages of other jobs come before it; it takes none only when there
    is none. *)
Theorem claim_takes_first evs handler cursor :
  let s := w_store (history empty_world evs) in let t := clock (readings s) in
  match claimNext handler cursor s with
  | (Ret None, s') => (forall j d, ~ candidate t cursor s j d) /\ tables s' = tables s
  | (Ret (Some (_, c)), s') => exists j d, candidate t cursor s j d /\ (forall x dx, candidate t cursor s x dx -> due_le j x) /\
      c = cursor_of j /\ claims_job j (tables s) (tables s')
  | (Throw _, _) => False
  end.
Proof. cbv zeta. apply claimNext_first. apply (wo_jobs _ (history_from_empty evs)). Qed.

(** C12: while there are at most 4096 running jobs, no more jobs of a name and a
    key run at once than the definition's concurrency allows. *)
Theorem concurrency_respected evs name key d
    (Hpos : forall n d, definitions !! n = Some d -> 0 <= concurrency d)
    (Hfew : forall k, (length (all_running (w_store (history empty_world (take k evs)))) <= 4096)%nat)
    (Hd : definitions !! name = Some d) :
  Z.of_nat (size (running_ids name key (tables (w_store (history empty_world evs))))) <= concurrency d.
Proof.
  induction evs as [|ev evs IH] using rev_ind.
  - assert (E : running_ids name key (tables empty_store) = ∅) by (apply set_eq; intros i; split; [by intros (j & Hj & _)%running_ids_elem|set_solver]).
    cbn. rewrite E, size_empty. by eapply Hpos.
  - unfold history. rewrite foldl_snoc. fold (history empty_world evs).
    destruct (happens_ok _ ev (history_from_empty evs)) as [_ Ho]. eapply outcome_running; [exact Hd| | |exact Ho|].
    + apply (wo_jobs _ (history_from_empty evs)).
    + specialize (Hfew (length evs)). by rewrite take_app_length in Hfew.
    + apply IH. intros k. destruct (decide (k <= length evs)%nat) as [Hk|Hk].
      * specialize (Hfew k). by rewrite take_app_le in Hfew.
      * specialize (Hfew (length evs)). rewrite take_app_length in Hfew. by rewrite take_ge by lia.
Qed.

(** C20: the job an enqueue would be answered with, under deduplication, is kept
    with its latest run by every sweep of retention up to that time. *)
Theorem memoized_job_kept evs name d hash t t' j
    (Hd : definitions !! name = Some d)
    (Hj : dedupeJob d name hash t (w_store (history empty_world evs)) = Some j)
    (Ht : t' <= t) :
  let s := w_store (history empty_world evs) in
  match reap t' s with
  | (Ret _, s') => jobs s' !! j_id j = Some j /\ forall r, latest (runs s) j r -> runs s' !! r_id r = Some r
  | (Throw _, _) => True
  end.
Proof.
  cbv zeta. pose proof (wo_jobs _ (history_from_empty evs)) as Hok.
  destruct (dedupe_not_released _ _ _ _ _ _ Hok Hd Hj) as [Hl Hrel].
  pose proof (reap_keeps t' _ j Hok Hl (Hrel t' Ht)) as H. unfold wpr, wp in H. by destruct (reap t' _) as [[a|e] s'].
Qed.

End main.

(** The next occurrence of a job repeated at an interval is the first one on
    the grid of its schedule after both its last occurrence and the present. *)
Theorem repeat_every_next everyMs last now (Hpos : 0 < everyMs) :
  let r := repeat_every everyMs last now in
  last < r /\ now < r /\ (everyMs | r - last) /\
  (forall r', last < r' -> now < r' -> (everyMs | r' - last) -> r <= r').
Proof.
  cbv zeta. unfold repeat_every. set (base := Z.max last now). assert (Hb : last <= base /\ now <= base /\ (base = last \/ base = now)) by lia.
  rewrite Z.rem_mod_nonneg by lia. pose proof (Z.mod_pos_bound (base - last) everyMs Hpos) as Hm.
  pose proof (Z.div_mod (base - last) everyMs ltac:(lia)) as Hdm. set (q := (base - last) / everyMs) in *. set (m := (base - last) `mod` everyMs) in *.
  split_and!; [lia|lia| |].
  - exists (q + 1). lia.
  - intros r' H1 H2 [k Hk]. assert (q < k); [|nia]. nia.
Qed.

(** ** A concrete runner *)

Definition demo_mail : JobDefinition string :=
  MkDefinition ProcedureJob Ret 1 None (fun n _ => Ret (Finite <$> retry_policy 3 Fixed 500 n)) None (Some (Window 100000, Window 0)) (Window 10).
Definition demo_sum : JobDefinition string :=
  MkDefinition MutationJob Ret 2 None (fun _ _ => Ret None) None None (Window 10).

Definition demo_runtime : JobsRuntime := {|
  Args := string;
  definitions := {[ "mail"%string := demo_mail; "sum"%string := demo_sum ]};
  stableEncode := Ret;
  decode := Ret;
  hashJobArgs := fun s => s;
  error_text := fun _ => "error"%string;
  clock := fun n => 1000 * Z.of_nat n;
  leaseMs := 60000;
  claimBatchSize := 1;
  some_order := fun l => l;
  some_run_order := fun l => l;
  claimBatchSize_pos := eq_refl;
  some_order_perm := fun l => reflexivity l;
  some_run_order_perm := fun l => reflexivity l;
|}.

Definition demo_entry : value := inline_entry "charge" CalleeMutation "1" 7.
Definition demo_json : JsonText := {|
  JSON_parse := fun s => if decide (s = "[]"%string) then Some (VArr []) else if decide (s = "recorded"%string) then Some (VArr [demo_entry]) else None;
  JSON_stringify := fun _ => "recorded"%string;
|}.

#[local] Existing Instances demo_runtime demo_json.

Definition demo_enqueue (name args : string) : AppOp := AppEnqueue name args (MkEnqueueOptions None None).
Definition demo_claim : Event * bool := (EvClaim (fun _ => MkHandler [] (Ret "ok"%string)) None, true).

(** Two mails, the second of which must wait; then the first is settled. *)
Definition demo_queued : list (Event * bool) :=
  [(EvApplication [demo_enqueue "mail" "a"; demo_enqueue "mail" "b"], true); demo_claim; demo_claim].

Definition demo_claimed : ClaimedRun := MkClaimed 1 1 "mail" "a" (Some "[]"%string) 1 (2000, 1%nat) 2000.

Definition demo_settled : list (Event * bool) :=
  demo_queued ++ [(EvSettle demo_claimed (Ret (Ret "sent"%string)), true)].

Definition demo_world (evs : list (Event * bool)) : World := history empty_world evs.

Example demo_one_claim : w_claims (demo_world demo_queued) = [demo_claimed].
Proof. vm_compute. reflexivity. Qed.

Example demo_completed : j_state <$> jobs (w_store (demo_world demo_settled)) !! 1 = Some JCompleted.
Proof. vm_compute. reflexivity. Qed.

Example demo_mutation :
  effects (w_store (demo_world [(EvApplication [demo_enqueue "sum" "a"], true); demo_claim; demo_claim])) = [(1, 1)].
Proof. vm_compute. reflexivity. Qed.

Lemma demo_few k : (length (all_running (w_store (demo_world (take k demo_queued)))) <= 4096)%nat.
Proof.
  destruct (decide (3 <= k)%nat) as [Hk|Hk]; [rewrite take_ge by (cbn; lia); vm_compute; lia|].
  destruct k as [|[|[|k]]]; [vm_compute; lia..|lia].
Qed.

Lemma concurrency_respected_witness :
  Z.of_nat (size (running_ids "mail" "" (tables (w_store (demo_world demo_queued))))) = 1 /\
  Z.of_nat (size (running_ids "mail" "" (tables (w_store (demo_world demo_queued))))) <= 1.
Proof.
  split; [vm_compute; reflexivity|]. apply (concurrency_respected (rt := demo_runtime) demo_queued "mail" "" demo_mail).
  - intros n d Hd. cbn in Hd. apply lookup_insert_Some in Hd as [[_ <-]|[_ Hd]]; [vm_compute; discriminate|].
    apply lookup_singleton_Some in Hd as [_ <-]. vm_compute. discriminate.
  - exact demo_few.
  - reflexivity.
Defined.

Definition demo_job (st : JobState) (settled release : option Z) : JobRow :=
  MkJob 1 "mail" "a" "a" None st ByEnqueue None 0 0 1 None (Some "[]"%string) 0 settled release.

Lemma demo_hit : dedupeJob (rt := demo_runtime) demo_mail "mail" "a" 5000 (w_store (demo_world demo_settled)) = Some (demo_job JCompleted (Some 4000) (Some 104000)).
Proof. vm_compute. reflexivity. Qed.

Lemma demo_running_row : jobs (w_store (demo_world demo_queued)) !! 1 = Some (demo_job JRunning None None).
Proof. vm_compute. reflexivity. Qed.

Lemma demo_recorded : (appendIn demo_claimed demo_entry (w_store (demo_world demo_queued))).1 = Ret tt.
Proof. vm_compute. reflexivity. Qed.

Lemma demo_declared : definitions (JobsRuntime := demo_runtime) !! "mail"%string = Some demo_mail.
Proof. vm_compute. reflexivity. Qed.

Lemma memoized_job_kept_witness :
  match reap 5000 (w_store (demo_world demo_settled)) with
  | (Ret _, s') => jobs s' !! 1 = Some (demo_job JCompleted (Some 4000) (Some 104000))
  | (Throw _, _) => True
  end.
Proof.
  pose proof (memoized_job_kept (rt := demo_runtime) demo_settled "mail" demo_mail "a" 5000 5000 _ demo_declared demo_hit (Z.le_refl 5000)) as H.
  unfold demo_world. cbv zeta in H. destruct (reap 5000 _) as [[b|e] s']; [apply H|exact I].
Defined.


Lemma repeat_every_next_witness :
  repeat_every 10 3 27 = 33 /\ 27 < repeat_every 10 3 27.
Proof. split; [reflexivity|]. apply (repeat_every_next 10 3 27). reflexivity. Defined.
